(* ===== verification/_CoqProject ===== *)
-Q . S2P
Prelude.v
Bits.v
Bytes.v
Float64.v
Router.v
RouterTree.v
RouterBake.v
RouterSpec.v
Atomic.v
Counters.v
CountersSpec.v
Interleave.v
Circuit.v
CircuitSpec.v
Admission.v
AdmissionSpec.v
Cond.v
CondSpec.v
Context.v
ContextSpec.v
ArenaBuf.v
Request.v
RequestSpec.v
Response.v
ResponseSpec.v
Flow.v
FlowSpec.v
SubRouter.v
SubRouterSpec.v
Ring.v
RingSpec.v
RingConc.v
Scheduler.v
SchedulerSpec.v
TimerWheel.v
TimerWheelSpec.v
OpBuffer.v
OpBufferSpec.v
CacheIndex.v
CacheBits.v
CacheTrie.v
CacheMem.v
CacheIndexSpec.v
Cache.v
CacheTags.v
CacheRegion.v
CacheSpec.v
CacheRefine.v
CacheManagerSpec.v
Registry.v
RegistryManager.v
RegistrySteps.v
RegistryAliases.v
RegistryStore.v
RegistryRefine.v
RegistrySpec.v
RegistryCore.v
RegistryOps.v
RegistryManagerSpec.v
RegistryOverrides.v
DataCache.v
DataCacheTable.v
DataCacheArena.v
DataCacheSpec.v
DataCacheRefine.v
DataCacheOps.v
DataCacheReads.v
DataCacheManagerSpec.v
DataCacheClaims.v
DataCacheWindow.v
SlotAlloc.v
SlotAllocSpec.v
MemSteps.v
MemStepsSpec.v
MemFlowSpec.v
MemFlowClaims.v
DataSteps.v
DataStepsSpec.v
TemplateSpec.v
DataCompileSpec.v
