(* ===== verification/Prelude.v ===== *)
(** * A verification of the RAH gateway

    RAH is an API gateway written in Go.  A request is matched to an API by a
    prefix router, to an endpoint of the API by a second router, and then runs
    a flow: a flat table of instructions baked from the configuration, executed
    over a pooled request context that holds an arena, numbered slots and the
    response.  Instructions consult limiters, circuit breakers and timeouts,
    read and write the caches and the tenant registry, queue storage
    operations, and hand work to background goroutines through lock-free rings.
    A scheduler runs flows at given times.

    This library models those parts as executable definitions and proves what
    each of them promises.  A file [X.v] holds the definitions of a component,
    [XSpec.v] its abstract specification and its theorems.

    ** Foundations

    - Prelude.v (this file): machine integers as [Z] with explicit wrap-around
      ([u32], [i64], ...), the outcome monad of Go code ([Ret], [Panic] for a
      run-time panic, [Fuel] for an exhausted recursion budget), Go's indexing
      and slicing with their panics, the hint database and the tactics of the
      library, and lemmas on lists and integers the components share.
    - Bits.v: the rank of a bit in a 64-bit mask, used by both routers, and
      rounding up to a power of two.
    - Bytes.v: overwriting part of a buffer and little-endian words, shared by the
      request arena, the cache slabs and the data cache.
    - Float64.v: [float64] as bit patterns, with the arithmetic and comparisons of
      the standard library's specification of floating point.
    - Atomic.v: any number of goroutines in load/compute/compare-and-swap loops
      on one word; every interleaving is a sequential run of the loop bodies.
    - Interleave.v: programs of several atomic actions, run alone or
      interleaved one action at a time.

    ** Components

    Paths are relative to src/internal.

    - API router (router/): Router.v has the builder tree, its insertion, the
      breadth-first [BakeToArena], [findChildIdx] and [Lookup]; RouterTree.v
      reads the tree as a partial map, RouterBake.v shows that the arena
      represents the tree, RouterSpec.v that [Lookup] is a longest-prefix match
      of the registered routes, whatever the order of registration, except at
      unregistered paths where two routes part.
    - Sub-path router (control/sub_compiler.go, [resolveSubPath] of
      engine/manager.go): SubRouter.v, SubRouterSpec.v.  A route that is alone
      in its definition resolves every request it describes to its endpoint and
      cuts out the parameters.
    - Counters and rate limits (engine/counter_arena.go, rate_limit.go,
      upstream_rate_limit.go, upstream_cost_window.go): Counters.v,
      CountersSpec.v.  Exact admission per window under contention, isolation
      of tenants, the token-bucket bound, multi-window limiters.
    - Circuit breakers (engine/circuit_breaker.go, named_circuit.go): Circuit.v,
      CircuitSpec.v.  Both refine the three-state breaker; the class [Breaker]
      is what their clients rely on; the arena implements the documented table
      for requests that probe one at a time; the transitions and the thresholds
      under any interleaving, trips and resets included.
    - Admission (engine/spike_arrest.go, concurrency.go, egress_limiter.go):
      Admission.v, AdmissionSpec.v.  Spacing of arrivals and the gate's bound
      under any interleaving, the percentile, the controller, egress windows.
    - Conditions (engine/steps/cond_expr.go): Cond.v, CondSpec.v.  The compiler
      answers on every input, and compiling a printed condition gives a closure
      that is true of a request exactly when the condition holds of it.
    - Request context (rctx/): Context.v, ContextSpec.v (arena, slices, slots:
      the context refines a table of independent values), ArenaBuf.v (filling a
      buffer of the arena changes nothing else), Request.v,
      RequestSpec.v (instruction trace, transaction ids, timeout state),
      Response.v, ResponseSpec.v (what the client receives).
    - Flow executor (engine/executor.go, engine/steps/logic.go,
      error_handling.go): Flow.v, FlowSpec.v.  The execution loop, fragment
      calls and their link stack, loops, error capture, boolean programs.
    - Lock-free rings (ingest/ring.go, scheduler/dispatch_ring.go,
      gatewaylog/ring.go, and the rings inside both timing wheels): Ring.v with
      one step per memory operation; RingSpec.v shows that each ring is a
      bounded FIFO queue (class [BoundedQueue]); RingConc.v that this survives
      every interleaving of any number of pushes and pops.
    - Scheduler (scheduler/): Scheduler.v, SchedulerSpec.v.  The wheel refines
      3600 bounded lists; a due schedule fires in its second, once, with the
      retries its failures ask for.  The wheel hands events to the dispatch ring
      through [BoundedQueue].
    - Timer wheel (engine/steps/timer_wheel.go): TimerWheel.v, TimerWheelSpec.v.
      In the first revolution the wheel behaves as a table of armed timers.
    - Storage operations (rctx/ops.go, [flushOps] of engine/manager.go,
      engine/steps/batch.go, cache.go, extract.go): OpBuffer.v, OpBufferSpec.v.
      The buffer of slices into the arena refines a buffer of byte strings.
    - Cache index (cache/index_inline.go, cache_types.go, the tags of hash.go):
      CacheIndex.v has the pooled nodes, lookup through the one-word filter,
      insertion, deletion, tombstones and both compactions; CacheBits.v shows
      the filter exact, CacheTrie.v reads nodes as a trie of paths, CacheMem.v
      relates the pool to that trie, and CacheIndexSpec.v shows that the index
      refines a finite map from tags to values.
    - Cache (cache/regions.go, cache_manager.go, hash.go, backend.go): Cache.v has
      the slab regions and the manager above the two indices; CacheTags.v shows
      that the packed words read back and that short keys are encoded without
      loss; CacheRegion.v reads a region as the log of its writes; CacheSpec.v
      states the abstract cache (bounded logs and a map from keys to their
      latest entry, quotas as sums over kept entries), CacheRefine.v that every
      operation implements it, CacheManagerSpec.v the theorem and the inputs
      where the code leaves its promise.  The backend is a class
      ([CacheBackend]) with an arbitrary instance, the hash a parameter.
    - Tenant registry (registry/, engine/steps/registry.go): Registry.v has the
      snapshot requests read (alias hash table, property matrices with their
      key arena, override tables, tiers), RegistryManager.v the management
      operations, RegistrySteps.v the steps of a flow.  RegistryAliases.v shows
      that the hash table is the alias map for every hash function and order of
      insertion; RegistryStore.v reads a store as cells of a matrix and shows
      what expansion keeps; RegistrySpec.v states the abstract registry
      (aliases name tenants whose identities are never reused, properties are
      maps); RegistryRefine.v, RegistryCore.v and RegistryOps.v show that every
      operation implements it, RegistryManagerSpec.v has the theorem and the
      inputs outside it; RegistryOverrides.v shows that the sorted override
      tables are a map and that paging shows every tenant once.
    - Data cache (datacache/): DataCache.v has the columnar arena with its free
      rows, the pool of slots, quotas, computed fields, and the manager:
      creating, dropping, growing, the three ways of appending with eviction
      from a window, sorting, queries, filters, aggregates, trimming, expiry.
      DataCacheTable.v fixes the layout of a column and defines tables of
      records, DataCacheArena.v shows that the arena implements them and that
      columns keep their types; DataCacheSpec.v states the abstract data cache
      (named tables with an owner, usage as a sum), DataCacheRefine.v the
      relation, DataCacheOps.v (appending), DataCacheReads.v (reading, against
      the class [SliceSort] that states what sort.Slice promises) and
      DataCacheManagerSpec.v (creating, dropping, expiry) that every operation
      implements it; DataCacheClaims.v has the theorems and the inputs outside
      them, DataCacheWindow.v that a window keeps the latest records.
    - Slots of a flow (control/compiler.go: [getSlot], [computeLastUse],
      [releaseDeadSlots], [bakeFlow]): SlotAlloc.v, SlotAllocSpec.v.  The scan for
      mentions of a variable terminates on flows that call each other and
      collects exactly what the scan of a step finds in the steps the flow can
      run; live variables never share a slot.
    - Data-cache steps (control/compiler_mem.go): MemSteps.v has what each [mem_*]
      step compiles to and the instructions, which serialize query results into
      the request arena; MemStepsSpec.v shows that an instruction performs its
      data cache operation on the values of its slots, MemFlowSpec.v gives a
      configuration its meaning over named variables, and MemFlowClaims.v shows
      that the compiled flow, with slots reused, has that meaning: the slot
      allocator, the request context and the data cache composed.
    - String, number and template steps (engine/steps/arithmetic.go and
      render_template.go, and their cases of [compileStep]): DataSteps.v has the
      instructions, the template parser and the compilation.  DataStepsSpec.v shows that sequences of steps compute plain functions of a
      table of values, TemplateSpec.v that the parser accepts exactly the
      well-formed templates and loses nothing, DataCompileSpec.v that a compiled
      step does what its configuration says of the variables it names.

    ** Reading the theorems

    Theorems of the form "[answers step ops start = Ret rs]" say that a whole
    sequence of operations returns (no panic, no exhausted budget) with the
    answers of an abstract machine.  Where the documentation and the code
    disagree on some inputs, the abstract machine follows the documentation and
    the theorem excludes those inputs, by a condition on each operation or by a
    check of the sequence ([honoured], [orderly], an abstract run that is
    undefined).  Theorems about contention quantify over
    the reflexive-transitive closure of a step relation whose steps are single
    atomic operations; Go's atomics are sequentially consistent.  Lemmas whose
    names describe a failure ([fork_shadows_base_path],
    [recycled_timer_never_fires], [auto_flush_corrupts_key], ...) show, on the
    model, inputs where the code departs from its documentation; the theorems
    state the hypotheses that exclude them.

    ** Bounds and budgets

    Arrays keep the sizes of the source (48 slots, a 4096-byte arena block, 64
    buffered operations, 3600 wheel slots) unless a size is a constructor
    argument or, for the timer wheel, a parameter.  Recursion that is not
    structural carries a budget computed from the input: the length of the
    path for the routers, the number of tokens for the condition parser, the
    number of nodes for the bake, 12 for the descent through the 11 levels of
    the cache index, the number of slots for a probe of the alias table, the
    length of a table for a binary search, the size of the flow and of all
    fragments for the walk through called flows, the length of the table for a
    flow of data-cache steps, the length of the text for a template, and for a
    ring operation run alone a constant; the theorems show that the budget is
    not used up.  The flow executor can run for ever, so its theorems are about runs of a given number
    of steps, and termination is proved for the guarded loop.

    ** Not modelled

    Clocks, net/http, maphash, Redis, SQL and other services appear as arguments (the
    time read, the answer given), or not at all: upstream HTTP and LLM steps,
    connectors, the Redis-backed limiters and the Postgres schedule store are
    I/O around the components above.  Cryptography, JSON, YAML and Avro are
    third-party or standard-library code the steps call.  Logging, metrics and
    pools that only recycle memory have no observable behaviour here.  The
    flow compiler beyond the slot allocation, the data-cache steps and the string,
    number and template steps, the linter, the management API and the studio application (configuration
    handling, most of the code by size) are left out: they translate or store
    configurations, one case per action or resource.  Error texts, logging of
    step errors and the expression language are arguments.  The [mem_*]
    instructions of engine/steps/mem_ops.go repeat those of compiler_mem.go and
    are not reached from the compiler.

    ** Left to do

    The remaining data-shaping steps (replace, split, join, arrays, patterns) over
    slots, whole flows of string steps with slots reused, the branches, loops and calls of the flow compiler on top of the slot
    allocation, the application of remote registry events, request header
    mutations, and the composition of the request pipeline from routing to the
    final flush. *)

From Stdlib Require Export ZArith Lia.
From stdpp Require Export base numbers list gmap strings sorting.

Local Open Scope Z_scope.

(** ** Machine integers

    Go's fixed-width integers are modelled as [Z] together with an explicit
    wrap-around at every operation that can overflow. *)

Definition wrapu (w x : Z) : Z := x mod 2 ^ w.

Definition wraps (w x : Z) : Z := (x + 2 ^ (w - 1)) mod 2 ^ w - 2 ^ (w - 1).

Abbreviation u8 := (wrapu 8).
Abbreviation u16 := (wrapu 16).
Abbreviation u32 := (wrapu 32).
Abbreviation u64 := (wrapu 64).
Abbreviation i16 := (wraps 16).
Abbreviation i32 := (wraps 32).
Abbreviation i64 := (wraps 64).

(** Go evaluates [1 << n] on a [w]-bit unsigned operand to 0 once [n >= w]. *)
Definition shl (w x n : Z) : Z := wrapu w (Z.shiftl x n).

(** Bitwise complement of a [w]-bit unsigned integer. *)
Definition notu (w x : Z) : Z := Z.lxor x (Z.ones w).

(** [bits.OnesCount64] and friends: the number of set bits. *)
Fixpoint popcount_pos (p : positive) : Z :=
  match p with
  | xH => 1
  | xO p' => popcount_pos p'
  | xI p' => 1 + popcount_pos p'
  end.

Definition popcount (x : Z) : Z :=
  match x with Zpos p => popcount_pos p | _ => 0 end.

Abbreviation byte_string := (list Z).

Definition is_byte (b : Z) : Prop := 0 <= b < 256.
Definition is_ascii (b : Z) : Prop := 0 <= b < 128.

(** ** Outcomes of Go code

    [Ret] a normal return, [Panic] a run-time panic (index out of range, nil
    dereference), [Fuel] an evaluation that used up the recursion budget of
    the model; the total-correctness theorems exclude the last two. *)

Inductive outcome (A : Type) : Type :=
| Ret (a : A)
| Panic
| Fuel.
Arguments Ret {A} a.
Arguments Panic {A}.
Arguments Fuel {A}.

Definition obind {A B} (m : outcome A) (k : A -> outcome B) : outcome B :=
  match m with Ret a => k a | Panic => Panic | Fuel => Fuel end.

Declare Scope rah_scope.
Delimit Scope rah_scope with rah.
Notation "x <-- m ;; k" := (obind m (fun x => k))
  (at level 100, m at next level, right associativity) : rah_scope.

(** Reading [l[i]]: panics outside the bounds of the slice. *)
Definition go_index {A} (l : list A) (i : Z) : outcome A :=
  if (i <? 0) then Panic
  else match l !! Z.to_nat i with Some a => Ret a | None => Panic end.

(** Slicing [l[a:b]]: panics unless [0 <= a <= b <= len l]. *)
Definition go_slice {A} (l : list A) (a b : Z) : outcome (list A) :=
  if (0 <=? a) && (a <=? b) && (b <=? Z.of_nat (length l))
  then Ret (take (Z.to_nat (b - a)) (drop (Z.to_nat a) l))
  else Panic.

(** ** Association lists: a Go map whose iteration order is arbitrary *)

Fixpoint aget {V} (k : Z) (m : list (Z * V)) : option V :=
  match m with
  | [] => None
  | (k', v) :: m' => if k =? k' then Some v else aget k m'
  end.

Fixpoint aset {V} (k : Z) (v : V) (m : list (Z * V)) : list (Z * V) :=
  match m with
  | [] => [(k, v)]
  | (k', v') :: m' => if k =? k' then (k, v) :: m' else (k', v') :: aset k v m'
  end.

(** ** Lemmas on machine integers *)

(** ** Tactics *)

(** Linear arithmetic with division and modulo by constants. *)
Ltac div_lia := Z.to_euclidean_division_equations; lia.

(** The leading conjuncts that need no thought. *)
Ltac conjs := repeat (split; [solve [reflexivity|assumption|lia]|]).

(** Case analysis on the integer comparisons of the goal, dropping the
    arithmetically impossible branches. *)
Ltac zcases :=
  repeat match goal with
  | |- context [?a <=? ?b] => destruct (Z.leb_spec a b); try lia
  | |- context [?a <? ?b] => destruct (Z.ltb_spec a b); try lia
  | |- context [?a =? ?b] => destruct (Z.eqb_spec a b); try lia
  end.

Create HintDb rah discriminated.
Create Rewrite HintDb rah.

Lemma wrapu_small w x : 0 <= x < 2 ^ w -> wrapu w x = x.
Proof. intros H. unfold wrapu. by apply Z.mod_small. Qed.

Lemma wrapu_bound w x : 0 <= w -> 0 <= wrapu w x < 2 ^ w.
Proof. intros H. unfold wrapu. apply Z.mod_pos_bound. by apply Z.pow_pos_nonneg. Qed.

Lemma wraps_small w x : 0 < w -> - 2 ^ (w - 1) <= x < 2 ^ (w - 1) -> wraps w x = x.
Proof.
  intros Hw H. unfold wraps.
  assert (2 ^ w = 2 * 2 ^ (w - 1)) as E.
  { rewrite <- Z.pow_succ_r by lia. f_equal. lia. }
  rewrite Z.mod_small; lia.
Qed.

Lemma wraps_bound w x : 0 < w -> - 2 ^ (w - 1) <= wraps w x < 2 ^ (w - 1).
Proof.
  intros Hw. unfold wraps.
  assert (2 ^ w = 2 * 2 ^ (w - 1)) as E.
  { rewrite <- Z.pow_succ_r by lia. f_equal. lia. }
  pose proof (Z.mod_pos_bound (x + 2 ^ (w - 1)) (2 ^ w)) as P.
  assert (0 < 2 ^ w) by (apply Z.pow_pos_nonneg; lia). lia.
Qed.

Lemma wrapu_idem w x : 0 <= w -> wrapu w (wrapu w x) = wrapu w x.
Proof. intros. apply wrapu_small, wrapu_bound. done. Qed.

(** The bits of a word above its width are clear. *)
Lemma testbit_small n x i : 0 <= x < 2 ^ n -> n <= i -> Z.testbit x i = false.
Proof.
  intros Hx Hi. destruct (Z_lt_le_dec n 0) as [Hn|Hn].
  { rewrite Z.pow_neg_r in Hx by done. lia. }
  destruct (Z.eq_dec x 0) as [->|]; [apply Z.testbit_0_l|].
  apply Z.bits_above_log2; [lia|].
  assert (Z.log2 x < n) by (apply Z.log2_lt_pow2; lia). lia.
Qed.

(** Packing two fields side by side is addition. *)
Lemma lor_shiftl_add n hi lo : 0 <= n -> 0 <= lo < 2 ^ n ->
  Z.lor (Z.shiftl hi n) lo = hi * 2 ^ n + lo.
Proof.
  intros Hn Hlo. rewrite <- Z.shiftl_mul_pow2 by done.
  rewrite <- (Z.add_lor_land (Z.shiftl hi n) lo).
  replace (Z.land (Z.shiftl hi n) lo) with 0; [lia|].
  symmetry. apply Z.bits_inj'. intros i Hi. rewrite Z.land_spec, Z.testbit_0_l.
  destruct (Z_lt_le_dec i n); [by rewrite Z.shiftl_spec_low|].
  by rewrite (testbit_small n lo i), andb_false_r.
Qed.

#[export] Hint Resolve wrapu_small wrapu_bound wraps_bound : rah.

(** ** Lemmas on outcomes and slices *)

Lemma go_index_nat {A} (l : list A) (n : nat) a :
  l !! n = Some a -> go_index l (Z.of_nat n) = Ret a.
Proof.
  intros H. unfold go_index. rewrite (proj2 (Z.ltb_ge _ 0)) by lia.
  by rewrite Nat2Z.id, H.
Qed.

Lemma go_index_Z {A} (l : list A) i a : 0 <= i -> l !! Z.to_nat i = Some a -> go_index l i = Ret a.
Proof. intros Hi H. unfold go_index. rewrite (proj2 (Z.ltb_ge i 0)) by lia. by rewrite H. Qed.

Lemma go_index_Ret {A} (l : list A) i a :
  go_index l i = Ret a -> 0 <= i < Z.of_nat (length l) /\ l !! Z.to_nat i = Some a.
Proof.
  unfold go_index. destruct (Z.ltb_spec i 0); [done|].
  destruct (l !! Z.to_nat i) eqn:E; [|done]. intros [= ->].
  apply lookup_lt_Some in E as ?. split; [lia|done].
Qed.

(** ** Lemmas on association lists *)

Section assoc.
  Context {V : Type}.
  Implicit Types (m : list (Z * V)) (k : Z) (v : V).

Lemma aget_aset k k' v m :
    aget k (aset k' v m) = if k =? k' then Some v else aget k m.
  Proof.
    induction m as [|[k0 v0] m IH]; simpl.
    - done.
    - destruct (Z.eqb_spec k' k0) as [->|Hne]; simpl.
      + by destruct (Z.eqb_spec k k0).
      + rewrite IH. destruct (Z.eqb_spec k k0) as [->|]; [|done].
        by rewrite (proj2 (Z.eqb_neq k0 k')) by congruence.
  Qed.

Lemma aget_Some_In k v m : aget k m = Some v -> (k, v) ∈ m.
  Proof.
    induction m as [|[k0 v0] m IH]; simpl; [done|].
    destruct (Z.eqb_spec k k0) as [->|]; intros H.
    - injection H as ->. by left.
    - right. auto.
  Qed.

Lemma aget_In_Some k v m :
    NoDup m.*1 -> (k, v) ∈ m -> aget k m = Some v.
  Proof.
    induction m as [|[k0 v0] m IH]; simpl; [by intros _ ?%elem_of_nil|].
    intros [Hn Hd]%NoDup_cons [[= -> ->]|H]%elem_of_cons.
    - by rewrite Z.eqb_refl.
    - destruct (Z.eqb_spec k k0) as [->|]; [|auto].
      exfalso. apply Hn, list_elem_of_fmap. by exists (k0, v).
  Qed.

Lemma aget_None k m : aget k m = None <-> k ∉ m.*1.
  Proof.
    induction m as [|[k0 v0] m IH]; simpl.
    - split; [intros _ ?%elem_of_nil; done|done].
    - rewrite not_elem_of_cons. destruct (Z.eqb_spec k k0); [|tauto].
      split; [done|]. intros [? _]. done.
  Qed.

Lemma aget_is_Some k m : is_Some (aget k m) <-> k ∈ m.*1.
  Proof.
    destruct (aget k m) as [v|] eqn:E.
    - split; [intros _|intros _; eauto].
      apply aget_Some_In in E. apply list_elem_of_fmap. by exists (k, v).
    - apply aget_None in E. split; [by intros []|done].
  Qed.

Lemma aset_keys_elem k k' v m : k ∈ (aset k' v m).*1 <-> k = k' \/ k ∈ m.*1.
  Proof.
    rewrite <- !aget_is_Some, aget_aset.
    destruct (Z.eqb_spec k k') as [->|]; [|tauto].
    split; [tauto|eauto].
  Qed.

Lemma aset_NoDup k v m : NoDup m.*1 -> NoDup (aset k v m).*1.
  Proof.
    induction m as [|[k0 v0] m IH]; simpl.
    - intros _. apply NoDup_singleton.
    - intros [Hn Hd]%NoDup_cons.
      destruct (Z.eqb_spec k k0) as [->|]; simpl; [by constructor|].
      constructor; [|auto]. rewrite aset_keys_elem. by intros [->|].
  Qed.

Lemma aset_In k v k' v' m : (k', v') ∈ aset k v m -> (k', v') = (k, v) \/ (k', v') ∈ m.
  Proof.
    induction m as [|[k0 v0] m IH]; simpl.
    - intros ->%list_elem_of_singleton. by left.
    - destruct (Z.eqb_spec k k0) as [->|].
      + intros [?|?]%elem_of_cons; [by left|right; by right].
      + intros [E|?]%elem_of_cons; [right; rewrite E; by left|].
        destruct IH as [?|?]; auto. right. by right.
  Qed.

Lemma aset_length_le k v m : (length (aset k v m) <= S (length m))%nat.
  Proof.
    induction m as [|[k0 v0] m IH]; simpl; [lia|].
    destruct (k =? k0); simpl; lia.
  Qed.
End assoc.

(** ** Byte strings of literals *)

Fixpoint bytes_of (s : string) : byte_string :=
  match s with
  | EmptyString => []
  | String a s' => Z.of_N (Ascii.N_of_ascii a) :: bytes_of s'
  end.

(** ** Constants shared by the instructions of the engine (executor.go) *)

Definition StopPlan : Z := -1.
Definition StopCancelled : Z := -2.

Definition time_Millisecond : Z := 1000000.
Definition time_Second : Z := 1000000000.

(** ** Sequences of operations

    The answers of a machine to a sequence of operations; a panic ends it. *)

Fixpoint answers {S O R} (step : O -> S -> outcome (S * R)) (os : list O) (s : S)
  : outcome (list R) :=
  match os with
  | [] => Ret []
  | o :: os' =>
    obind (step o s) (fun sr => obind (answers step os' sr.1) (fun rs => Ret (sr.2 :: rs)))
  end.

(** What one step of a simulation has to show of the two outcomes. *)
Definition sim {S1 S2 R} (rel : S1 -> S2 -> Prop) (x : outcome (S1 * R)) (y : outcome (S2 * R)) : Prop :=
  match x, y with
  | Ret (s1, r1), Ret (s2, r2) => rel s1 s2 /\ r1 = r2
  | Panic, Panic => True
  | _, _ => False
  end.

(** Simulation: related machines answer alike.  The relation may depend on
    how many operations are still to come (for counters that can overflow). *)
Lemma answers_refine {S1 S2 O R} (step1 : O -> S1 -> outcome (S1 * R))
    (step2 : O -> S2 -> outcome (S2 * R)) (rel : nat -> S1 -> S2 -> Prop) (ok : O -> Prop) :
  (forall o k s1 s2, ok o -> rel (S k) s1 s2 -> sim (rel k) (step1 o s1) (step2 o s2)) ->
  forall os s1 s2, Forall ok os -> rel (length os) s1 s2 -> answers step1 os s1 = answers step2 os s2.
Proof.
  intros Hstep os. induction os as [|o os IH]; intros s1 s2 Hok Hrel; [reflexivity|].
  inversion Hok as [|? ? Ho Hos]; subst. cbn [answers length] in *.
  specialize (Hstep o _ _ _ Ho Hrel).
  destruct (step1 o s1) as [[s1' r1]| |], (step2 o s2) as [[s2' r2]| |]; try done.
  destruct Hstep as [Hrel' <-]. cbn [obind fst snd]. by rewrite (IH _ _ Hos Hrel').
Qed.

(** A documented machine answers every operation; what it promises of the code
    holds as long as every operation is allowed in the state it finds. *)
Fixpoint replies {S O R} (step : O -> S -> S * R) (os : list O) (s : S) : list R :=
  match os with [] => [] | o :: os' => (step o s).2 :: replies step os' (step o s).1 end.

Fixpoint honoured {S O R} (allowed : O -> S -> bool) (step : O -> S -> S * R) (os : list O) (s : S) : bool :=
  match os with [] => true | o :: os' => allowed o s && honoured allowed step os' (step o s).1 end.

Lemma answers_honoured {S1 S2 O R} (step1 : O -> S1 -> outcome (S1 * R)) (step2 : O -> S2 -> S2 * R)
    (rel : nat -> S1 -> S2 -> Prop) (ok : O -> Prop) (allowed : O -> S2 -> bool) :
  (forall o k s1 s2, ok o -> allowed o s2 = true -> rel (S k) s1 s2 ->
     exists s1', step1 o s1 = Ret (s1', (step2 o s2).2) /\ rel k s1' (step2 o s2).1) ->
  forall os s1 s2, Forall ok os -> honoured allowed step2 os s2 = true -> rel (length os) s1 s2 ->
    answers step1 os s1 = Ret (replies step2 os s2).
Proof.
  intros Hstep os. induction os as [|o os IH]; intros s1 s2 Hok Hal Hrel; [reflexivity|].
  inversion Hok as [|? ? Ho Hos]; subst. cbn [answers replies honoured length] in *.
  apply andb_true_iff in Hal as [Hal Hals].
  destruct (Hstep o _ _ _ Ho Hal Hrel) as (s1' & -> & Hrel'). cbn [obind fst snd].
  by rewrite (IH _ _ Hos Hals Hrel').
Qed.
