(* ===== verification/Bits.v ===== *)
(** * Bit sets in machine words

    The routers of the gateway index the children of a node with a pair of
    64-bit masks and rank a byte by the population count of the bits below it.
    This file proves the rank lemma those lookups rely on, and what the
    bit-smearing of the [nextPow2] functions computes. *)

From S2P Require Import Prelude.
From stdpp Require Import base numbers list.

Local Open Scope Z_scope.

(** The number of [i < n] satisfying [f]. *)
Fixpoint count_below (n : nat) (f : Z -> bool) : Z :=
  match n with
  | O => 0
  | S n' => count_below n' f + (if f (Z.of_nat n') then 1 else 0)
  end.

Lemma count_below_ext n f g :
  (forall i, 0 <= i < Z.of_nat n -> f i = g i) -> count_below n f = count_below n g.
Proof.
  induction n as [|n IH]; simpl; intros H; [done|].
  rewrite (H (Z.of_nat n)) by lia. rewrite IH; [done|]. intros. apply H. lia.
Qed.

Lemma count_below_false n f :
  (forall i, 0 <= i < Z.of_nat n -> f i = false) -> count_below n f = 0.
Proof.
  intros H. rewrite (count_below_ext _ f (fun _ => false)) by done.
  clear H. induction n; simpl; lia.
Qed.

Lemma count_below_shift n f :
  count_below (S n) f = (if f 0 then 1 else 0) + count_below n (fun i => f (i + 1)).
Proof.
  induction n as [|n IH]; [simpl; change (Z.of_nat 0) with 0; lia|].
  change (count_below (S (S n)) f) with (count_below (S n) f + (if f (Z.of_nat (S n)) then 1 else 0)).
  rewrite IH. simpl count_below at 2.
  replace (Z.of_nat n + 1) with (Z.of_nat (S n)) by lia. lia.
Qed.

(** Adding one fresh element to the counted set adds one to the count. *)
Lemma count_below_add n f k :
  0 <= k < Z.of_nat n -> f k = false ->
  count_below n (fun i => (i =? k) || f i) = 1 + count_below n f.
Proof.
  induction n as [|n IH]; simpl; intros Hk Hf; [lia|].
  destruct (Z.eqb_spec (Z.of_nat n) k) as [E|E].
  - rewrite E, Hf. simpl. rewrite (count_below_ext n _ f); [lia|].
    intros i Hi. by rewrite (proj2 (Z.eqb_neq i k)) by lia.
  - simpl. rewrite IH by (done || lia). lia.
Qed.

Lemma popcount_pos_count p n :
  Zpos p < 2 ^ Z.of_nat n -> popcount_pos p = count_below n (Z.testbit (Zpos p)).
Proof.
  revert p. induction n as [|n IH]; intros p Hp.
  { simpl in Hp. lia. }
  rewrite count_below_shift.
  rewrite Nat2Z.inj_succ, Z.pow_succ_r in Hp by lia.
  rewrite (count_below_ext n _ (Z.testbit (Z.div2 (Zpos p)))) by
    (intros i Hi; rewrite Z.div2_spec, Z.shiftr_spec by lia; done).
  destruct p as [p|p|]; simpl Z.div2; simpl popcount_pos; simpl Z.testbit.
  - rewrite (IH p) by lia. done.
  - rewrite (IH p) by lia. done.
  - rewrite count_below_false; [done|]. intros. by rewrite Z.testbit_0_l.
Qed.

Lemma popcount_count x n :
  0 <= x < 2 ^ Z.of_nat n -> popcount x = count_below n (Z.testbit x).
Proof.
  intros [Hx Hn]. destruct x as [|p|p]; [|by apply popcount_pos_count|lia].
  simpl. rewrite count_below_false; [done|]. intros. by rewrite Z.testbit_0_l.
Qed.

(** A word is within 64 bits exactly when its bits from 64 on are clear. *)
Lemma bits_bound (n : nat) x :
  0 <= x -> (forall i, Z.of_nat n <= i -> Z.testbit x i = false) -> x < 2 ^ Z.of_nat n.
Proof.
  intros Hx Hb. destruct (Z.eq_dec x 0) as [->|]; [lia|].
  apply Z.log2_lt_pow2; [lia|].
  destruct (Z_lt_le_dec (Z.log2 x) (Z.of_nat n)) as [|Hle]; [done|].
  pose proof (Hb _ Hle) as E. rewrite Z.bit_log2 in E by lia. done.
Qed.

(** The membership test of a list of bit positions. *)
Definition memb (ks : list Z) (i : Z) : bool := bool_decide (i ∈ ks).

Lemma memb_cons k ks i : memb (k :: ks) i = (i =? k) || memb ks i.
Proof.
  unfold memb. destruct (Z.eqb_spec i k) as [->|]; simpl.
  - apply bool_decide_eq_true. by left.
  - apply bool_decide_ext. rewrite elem_of_cons. tauto.
Qed.

Lemma filter_none {A} (P : A -> Prop) {HP : forall x, Decision (P x)} (l : list A) :
  (forall x, x ∈ l -> ~ P x) -> filter P l = [].
Proof.
  induction l as [|x l IH]; intros Hx; [done|].
  rewrite filter_cons_False by (apply Hx; by left). apply IH. intros. apply Hx. by right.
Qed.

Lemma filter_every {A} (P : A -> Prop) {HP : forall x, Decision (P x)} (l : list A) :
  (forall x, x ∈ l -> P x) -> filter P l = l.
Proof.
  induction l as [|x l IH]; intros Hx; [done|].
  rewrite filter_cons_True by (apply Hx; by left). f_equal. apply IH. intros. apply Hx. by right.
Qed.

Definition below (b : Z) (ks : list Z) : list Z := filter (fun k => k < b) ks.

Lemma count_below_memb n ks (b : Z) :
  NoDup ks -> (forall k, k ∈ ks -> 0 <= k < Z.of_nat n) ->
  count_below n (fun i => memb ks i && (i <? b)) = Z.of_nat (length (below b ks)).
Proof.
  unfold below. induction ks as [|k ks IH]; intros Hnd Hr.
  - apply count_below_false. intros i _. done.
  - apply NoDup_cons in Hnd as [Hn Hnd].
    assert (forall k', k' ∈ ks -> 0 <= k' < Z.of_nat n) as Hr' by (intros; apply Hr; by right).
    specialize (IH Hnd Hr'). rewrite filter_cons. case_decide as Hlt.
    + rewrite (count_below_ext _ _ (fun i => (i =? k) || (memb ks i && (i <? b)))).
      * rewrite count_below_add; [rewrite IH; simpl; lia|apply Hr; by left|].
        unfold memb. by rewrite bool_decide_eq_false_2.
      * intros i _. rewrite memb_cons. destruct (Z.eqb_spec i k) as [->|]; [|done].
        simpl. by apply Z.ltb_lt.
    + rewrite <- IH. apply count_below_ext. intros i _. rewrite memb_cons.
      destruct (Z.eqb_spec i k) as [->|]; [|done]. simpl.
      rewrite (proj2 (Z.ltb_ge k b)) by lia. by rewrite andb_false_r.
Qed.

(** [mask_repr m ks]: the 64-bit word [m] has exactly the bits [ks] set. *)
Definition mask_repr (m : Z) (ks : list Z) : Prop :=
  0 <= m /\ forall i, 0 <= i -> Z.testbit m i = memb ks i && (i <? 64).

Lemma mask_repr_nil : mask_repr 0 [].
Proof. split; [lia|]. intros. by rewrite Z.testbit_0_l. Qed.

Lemma mask_repr_bound m ks : mask_repr m ks -> 0 <= m < 2 ^ 64.
Proof.
  intros [H0 Hb]. split; [done|]. apply (bits_bound 64); [done|].
  intros i Hi. rewrite Hb by lia. rewrite (proj2 (Z.ltb_ge i 64)) by lia.
  by rewrite andb_false_r.
Qed.

Lemma testbit_shl64 k i :
  0 <= k -> 0 <= i -> Z.testbit (shl 64 1 k) i = (i =? k) && (i <? 64).
Proof.
  intros Hk Hi. unfold shl, wrapu.
  rewrite Z.testbit_mod_pow2, Z.shiftl_spec, andb_comm by lia. f_equal.
  destruct (Z.eqb_spec i k) as [->|]; [by rewrite Z.sub_diag|].
  destruct (Z_lt_le_dec i k); [by rewrite Z.testbit_neg_r by lia|].
  change 1 with (2 ^ 0). rewrite Z.pow2_bits_eqb by lia. apply Z.eqb_neq. lia.
Qed.

(** [m |= 1 << k] adds [k] to the set (and adds nothing when [k >= 64]). *)
Lemma mask_repr_add m ks k :
  0 <= k -> mask_repr m ks -> mask_repr (Z.lor m (shl 64 1 k)) (k :: ks).
Proof.
  intros Hk [H0 Hb]. split.
  - apply Z.lor_nonneg. split; [done|]. apply wrapu_bound. lia.
  - intros i Hi. rewrite Z.lor_spec, Hb, testbit_shl64, memb_cons by done.
    by destruct (memb ks i), (i =? k), (i <? 64).
Qed.

Lemma mask_repr_perm m ks ks' : (forall i, i ∈ ks <-> i ∈ ks') -> mask_repr m ks -> mask_repr m ks'.
Proof.
  intros E [H0 Hb]. split; [done|]. intros i Hi. rewrite Hb by done. f_equal.
  unfold memb. by apply bool_decide_ext.
Qed.

Lemma testbit_mask_below b i :
  0 <= b -> 0 <= i -> Z.testbit (2 ^ b - 1) i = (i <? b).
Proof.
  intros. replace (2 ^ b - 1) with (Z.ones b) by (rewrite Z.ones_equiv; lia).
  destruct (Z.ltb_spec i b); [apply Z.ones_spec_low|apply Z.ones_spec_high]; lia.
Qed.

(** The rank lemma: the number of bits of the mask below [b] is the number of
    elements of the set below [b]. *)
Lemma mask_rank m ks b :
  mask_repr m ks -> NoDup ks -> (forall k, k ∈ ks -> 0 <= k < 64) -> 0 <= b <= 64 ->
  popcount (Z.land m (2 ^ b - 1)) = Z.of_nat (length (below b ks)).
Proof.
  intros Hm Hnd Hr Hb. pose proof (mask_repr_bound _ _ Hm) as Hbd.
  destruct Hm as [H0 Hbit].
  rewrite (popcount_count _ 64).
  - rewrite <- (count_below_memb 64 ks b) by done. apply count_below_ext.
    intros i Hi. rewrite Z.land_spec, Hbit, testbit_mask_below by lia.
    rewrite (proj2 (Z.ltb_lt i 64)) by lia. by rewrite andb_true_r.
  - split; [apply Z.land_nonneg; by left|].
    apply (bits_bound 64); [apply Z.land_nonneg; by left|].
    intros i Hi. rewrite Z.land_spec, Hbit by lia.
    rewrite (proj2 (Z.ltb_ge i 64)) by lia. by rewrite andb_false_r.
Qed.

Lemma mask_popcount m ks :
  mask_repr m ks -> NoDup ks -> (forall k, k ∈ ks -> 0 <= k < 64) ->
  popcount m = Z.of_nat (length ks).
Proof.
  intros Hm Hnd Hr. rewrite (popcount_count _ 64) by (by eapply mask_repr_bound).
  transitivity (count_below 64 (fun i => memb ks i && (i <? 64))).
  - apply count_below_ext. intros i Hi. apply Hm. lia.
  - rewrite count_below_memb by done.
    replace (below 64 ks) with ks; [done|]. symmetry. unfold below.
    apply filter_every. intros. by apply Hr.
Qed.

Lemma mask_bit m ks b :
  mask_repr m ks -> 0 <= b < 64 ->
  (Z.land m (shl 64 1 b) =? 0) = negb (memb ks b).
Proof.
  intros [H0 Hbit] Hb.
  destruct (memb ks b) eqn:E; simpl.
  - apply Z.eqb_neq. intros C. apply (f_equal (fun z => Z.testbit z b)) in C.
    rewrite Z.land_spec, Hbit, testbit_shl64, E, Z.eqb_refl, Z.testbit_0_l in C by lia.
    rewrite (proj2 (Z.ltb_lt b 64)) in C by lia. done.
  - apply Z.eqb_eq, Z.bits_inj'. intros i Hi.
    rewrite Z.land_spec, Hbit, testbit_shl64, Z.testbit_0_l by lia.
    destruct (Z.eqb_spec i b) as [->|]; [by rewrite E|]. simpl. by rewrite andb_false_r.
Qed.

(** ** Rounding up to a power of two by smearing the top bit *)

(** Bit [i] of [y] is the disjunction of the bits [i], ..., [i + s - 1] of [x]. *)
Definition smeared (x s y : Z) : Prop :=
  forall i, 0 <= i -> Z.testbit y i = true <-> exists j, i <= j < i + s /\ Z.testbit x j = true.

Lemma smeared_double x s y : 0 <= s -> smeared x s y -> smeared x (2 * s) (Z.lor y (Z.shiftr y s)).
Proof.
  intros Hs H i Hi. rewrite Z.lor_spec, Z.shiftr_spec, orb_true_iff by lia.
  rewrite (H i Hi), (H (i + s)) by lia. split.
  - intros [(j & Hj & Hx)|(j & Hj & Hx)]; exists j; (split; [lia|done]).
  - intros (j & Hj & Hx). destruct (Z.lt_ge_cases j (i + s)); [left|right]; exists j; (split; [lia|done]).
Qed.

Lemma smeared_ones w x y : 0 <= w -> 0 < x < 2 ^ w -> 0 <= y -> smeared x w y -> y = Z.ones (Z.log2 x + 1).
Proof.
  intros Hw Hx Hy H. apply Z.bits_inj'. intros i Hi.
  assert (Z.log2 x < w) by (apply Z.log2_lt_pow2; lia). pose proof (Z.log2_nonneg x).
  rewrite Z.testbit_ones_nonneg by lia. apply eq_bool_prop_intro.
  rewrite !Is_true_true, (H i Hi), Z.ltb_lt. split.
  - intros (j & Hj & Hb). destruct (Z.lt_ge_cases i (Z.log2 x + 1)); [done|].
    rewrite Z.bits_above_log2 in Hb by lia. done.
  - intros Hlt. exists (Z.log2 x). split; [lia|]. apply Z.bit_log2. lia.
Qed.

Lemma lor_shiftr_nonneg y s : 0 <= y -> 0 <= Z.lor y (Z.shiftr y s).
Proof. intros Hy. apply Z.lor_nonneg. by rewrite Z.shiftr_nonneg. Qed.
