(* ===== verification/Bytes.v ===== *)
(** * Byte buffers

    Overwriting part of a buffer and little-endian words, shared by the request
    arena, the cache slabs and the columnar data cache. *)

From S2P Require Import Prelude.

Local Open Scope Z_scope.

(** Overwriting part of a list. *)
Definition splice (b : byte_string) (off : nat) (data : byte_string) : byte_string :=
  take off b ++ data ++ drop (off + length data) b.

Lemma lookup_splice b off d i :
  (off + length d <= length b)%nat ->
  splice b off d !! i =
  if decide (off <= i < off + length d)%nat then d !! (i - off)%nat else b !! i.
Proof.
  intros Hl. unfold splice. assert (length (take off b) = off) as Ht by (rewrite length_take; lia).
  destruct (decide _) as [Hin|Hout].
  - rewrite lookup_app_r by lia. rewrite lookup_app_l by lia. by rewrite Ht.
  - destruct (decide (i < off)%nat).
    + rewrite lookup_app_l by lia. by rewrite lookup_take_lt.
    + rewrite lookup_app_r by lia. rewrite lookup_app_r by lia. rewrite lookup_drop, Ht. f_equal. lia.
Qed.

Lemma length_splice b off d : (off + length d <= length b)%nat -> length (splice b off d) = length b.
Proof. intros Hl. unfold splice. rewrite !length_app, length_take, length_drop. lia. Qed.

Lemma read_splice_same b off d :
  (off + length d <= length b)%nat -> take (length d) (drop off (splice b off d)) = d.
Proof.
  intros Hl. apply list_eq. intros i. destruct (decide (i < length d)%nat).
  - rewrite lookup_take_lt, lookup_drop, lookup_splice by done.
    rewrite decide_True by lia. f_equal. lia.
  - rewrite lookup_take_ge by lia. symmetry. apply lookup_ge_None. lia.
Qed.

Lemma read_splice_other b off d o l :
  (off + length d <= length b)%nat -> (o + l <= off \/ off + length d <= o)%nat ->
  take l (drop o (splice b off d)) = take l (drop o b).
Proof.
  intros Hl Hd. apply list_eq. intros i. destruct (decide (i < l)%nat).
  - rewrite !lookup_take_lt, !lookup_drop, lookup_splice by done. by rewrite decide_False by lia.
  - by rewrite !lookup_take_ge by lia.
Qed.

Lemma take_splice b (pos : nat) x : (pos + length x <= length b)%nat -> take (pos + length x) (splice b pos x) = take pos b ++ x.
Proof.
  intros Hl. unfold splice. assert (length (take pos b) = pos) as Ht by (rewrite length_take; lia).
  rewrite app_assoc. apply take_app_length'. rewrite length_app. lia.
Qed.

(** ** Little-endian words *)

Fixpoint from_le (b : list Z) : Z :=
  match b with [] => 0 | x :: b => Z.lor x (Z.shiftl (from_le b) 8) end.

(** [binary.LittleEndian.PutUint64] *)
Definition to_le8 (v : Z) : list Z := (fun i => u8 (Z.shiftr (u64 v) (8 * i))) <$> seqZ 0 8.

Lemma from_le_nonneg b : Forall is_byte b -> 0 <= from_le b.
Proof.
  unfold is_byte. induction 1 as [|x b Hx _ IH]; cbn [from_le]; [done|]. apply Z.lor_nonneg. split; [lia|]. by apply Z.shiftl_nonneg.
Qed.

Lemma from_le_byte x b : Forall is_byte (x :: b) -> from_le (x :: b) = from_le b * 256 + x.
Proof. unfold is_byte. intros [Hx _]%Forall_cons. cbn [from_le]. rewrite Z.lor_comm. by rewrite lor_shiftl_add by lia. Qed.

Lemma from_le_replicate n : from_le (replicate n 0) = 0.
Proof. induction n as [|n IH]; cbn [from_le replicate]; [done|]. by rewrite IH. Qed.

Lemma u8_shiftr v n : 0 <= n -> u8 (Z.shiftr v n) = (v / 2 ^ n) mod 256.
Proof. intros Hn. unfold wrapu. by rewrite Z.shiftr_div_pow2. Qed.

Lemma to_le8_length v : length (to_le8 v) = 8%nat.
Proof. unfold to_le8. by rewrite length_fmap, length_seqZ. Qed.

