(* ===== verification/Float64.v ===== *)
(** * Go's float64

    A [float64] is its 64-bit pattern.  Arithmetic and comparison go through
    the Standard Library's reference model of IEEE 754 ([SpecFloat]) at the
    format binary64; a result that is not a number gets the quiet pattern. *)

From S2P Require Import Prelude.
From Stdlib Require Import SpecFloat.

Local Open Scope Z_scope.

Definition sign_bit (s : bool) : Z := if s then 2 ^ 63 else 0.

Definition decode64 (b : Z) : spec_float :=
  let s := Z.testbit b 63 in
  let e := (b / 2 ^ 52) mod 2 ^ 11 in
  let m := b mod 2 ^ 52 in
  if e =? 2047 then if m =? 0 then S754_infinity s else S754_nan
  else if e =? 0 then match m with Zpos p => S754_finite s p (-1074) | _ => S754_zero s end
  else match m + 2 ^ 52 with Zpos p => S754_finite s p (e - 1075) | _ => S754_nan end.

Definition encode64 (f : spec_float) : Z :=
  match f with
  | S754_zero s => sign_bit s
  | S754_infinity s => sign_bit s + 2047 * 2 ^ 52
  | S754_nan => 2047 * 2 ^ 52 + 2 ^ 51
  | S754_finite s m e =>
    if Zpos m <? 2 ^ 52 then sign_bit s + Zpos m
    else sign_bit s + (e + 1075) * 2 ^ 52 + (Zpos m - 2 ^ 52)
  end.

Definition f64_zero : Z := 0.

Definition f64_add (a b : Z) : Z := encode64 (SFadd 53 1024 (decode64 a) (decode64 b)).
Definition f64_div (a b : Z) : Z := encode64 (SFdiv 53 1024 (decode64 a) (decode64 b)).

Definition f64_eqb (a b : Z) : bool := SFeqb (decode64 a) (decode64 b).
Definition f64_ltb (a b : Z) : bool := SFltb (decode64 a) (decode64 b).
Definition f64_leb (a b : Z) : bool := SFleb (decode64 a) (decode64 b).

(** [float64(n)] *)
Definition f64_of_int (n : Z) : Z := encode64 (binary_normalize 53 1024 n 0 false).

(** Rounding towards zero; [None] for infinities and NaN. *)
Definition f64_trunc (b : Z) : option Z :=
  match decode64 b with
  | S754_zero _ => Some 0
  | S754_finite s m e =>
    let n := Z.shiftl (Zpos m) e in
    Some (if s then - n else n)
  | _ => None
  end.

(** ** Facts *)

(** The pattern is determined by the value, NaNs apart. *)
Lemma encode_decode b : 0 <= b < 2 ^ 64 -> decode64 b <> S754_nan -> encode64 (decode64 b) = b.
Proof.
  intros Hb. assert (sign_bit (Z.testbit b 63) = b / 2 ^ 63 * 2 ^ 63) as Hs.
  { rewrite Z.testbit_eqb by lia. unfold sign_bit. destruct (Z.eqb_spec ((b / 2 ^ 63) mod 2) 1); div_lia. }
  unfold decode64. destruct (Z.eqb_spec ((b / 2 ^ 52) mod 2 ^ 11) 2047) as [E|E].
  - destruct (Z.eqb_spec (b mod 2 ^ 52) 0); intros Hn; [|done]. cbn [encode64]. rewrite Hs. div_lia.
  - destruct (Z.eqb_spec ((b / 2 ^ 52) mod 2 ^ 11) 0) as [E'|E'].
    + destruct (b mod 2 ^ 52) as [|p|p] eqn:Em; intros _; cbn [encode64]; rewrite Hs.
      * div_lia.
      * rewrite (proj2 (Z.ltb_lt _ _)) by div_lia. div_lia.
      * pose proof (Z.mod_pos_bound b (2 ^ 52)). lia.
    + destruct (b mod 2 ^ 52 + 2 ^ 52) as [|p|p] eqn:Em; intros Hn; [done| |done]. cbn [encode64]. rewrite Hs.
      rewrite (proj2 (Z.ltb_ge _ _)) by div_lia. div_lia.
Qed.

(** The comparison of a strict order: irreflexive, and false on NaN. *)
Lemma f64_ltb_irrefl b : f64_ltb b b = false.
Proof.
  unfold f64_ltb, SFltb, SFcompare. destruct (decode64 b) as [[]|[]| |[] m e]; try done;
  by rewrite Z.compare_refl, ?Pos.compare_cont_refl, ?Pos.compare_refl.
Qed.

(** 3, -1.5, 0.1 + 0.2, 1/3, the largest integer below 2^53 and rounding above. *)
Example f64_samples :
  f64_of_int 3 = 0x4008000000000000 /\ f64_trunc 0xBFF8000000000000 = Some (-1) /\
  f64_add 0x3FB999999999999A 0x3FC999999999999A = 0x3FD3333333333334 /\
  f64_div (f64_of_int 1) (f64_of_int 3) = 0x3FD5555555555555 /\
  f64_of_int (2 ^ 53 - 1) = 0x433FFFFFFFFFFFFF /\ f64_of_int (2 ^ 53 + 1) = f64_of_int (2 ^ 53) /\
  f64_div (f64_of_int 1) 0 = 0x7FF0000000000000.
Proof. by vm_compute. Qed.
