(* ===== verification/Router.v ===== *)
(** * The API router: builder tree, arena and lock-free lookup

    [internal/router]: routes are inserted into a compressed prefix tree of
    [BuilderNode]s, [BakeToArena] flattens the tree breadth first into a slice
    of [RouteNode]s whose children are contiguous and indexed by a pair of
    64-bit masks, and [Lookup] walks that slice.  This file holds the
    definitions; RouterTree.v gives the tree its meaning as a partial map,
    RouterBake.v proves the flattening correct and RouterSpec.v states what
    the router promises. *)

From S2P Require Import Prelude Bits.
From stdpp Require Import base numbers list sorting.

Local Open Scope Z_scope.
Local Open Scope rah_scope.

(** ** builder_node.go *)

(** [BuilderNode]; [children] lists the entries of the map in any order. *)
Inductive BuilderNode : Type :=
| BNode (prefix : byte_string) (apiId : Z) (children : list (Z * BuilderNode)).

Definition bn_prefix (bn : BuilderNode) : byte_string := let 'BNode p _ _ := bn in p.
Definition bn_apiId (bn : BuilderNode) : Z := let 'BNode _ a _ := bn in a.
Definition bn_children (bn : BuilderNode) : list (Z * BuilderNode) := let 'BNode _ _ c := bn in c.

Definition NewBuilder : BuilderNode := BNode [] 0 [].

(** The scan [for i < maxLen && path[i] == bn.prefix[i] { i++ }]. *)
Fixpoint common_len (path prefix : byte_string) : nat :=
  match path, prefix with
  | a :: path', b :: prefix' => if a =? b then S (common_len path' prefix') else O
  | _, _ => O
  end.

(** Case 1 of [Add]: push the tail of the prefix into a new child. *)
Definition split_node (i : nat) (bn : BuilderNode) : BuilderNode :=
  if (i <? length (bn_prefix bn))%nat then
    let oldSuffix := BNode (drop i (bn_prefix bn)) (bn_apiId bn) (bn_children bn) in
    BNode (take i (bn_prefix bn)) 0 (aset (hd 0 (bn_prefix oldSuffix)) oldSuffix [])
  else bn.

Definition is_nil {A} (l : list A) : bool := match l with [] => true | _ => false end.

(** [BuilderNode.Add]; [None] when the recursion budget is used up. *)
Fixpoint Add_fuel (fuel : nat) (bn : BuilderNode) (path : byte_string) (apiName : Z)
  : option BuilderNode :=
  match fuel with
  | O => None
  | S fuel' =>
    if is_nil (bn_prefix bn) && is_nil (bn_children bn)
    then Some (BNode path apiName (bn_children bn))
    else
      let i := common_len path (bn_prefix bn) in
      let '(BNode prefix1 apiId1 children1) := split_node i bn in
      if (i <? length path)%nat then
        let remainingPath := drop i path in
        let k := hd 0 remainingPath in
        match aget k children1 with
        | Some child =>
          match Add_fuel fuel' child remainingPath apiName with
          | Some child' => Some (BNode prefix1 apiId1 (aset k child' children1))
          | None => None
          end
        | None => Some (BNode prefix1 apiId1 (aset k (BNode remainingPath apiName []) children1))
        end
      else Some (BNode prefix1 apiName children1)
  end.

(** Each recursive call but the root's consumes at least one byte of the path. *)
Definition BuilderAdd (bn : BuilderNode) (path : byte_string) (apiName : Z) : outcome BuilderNode :=
  match Add_fuel (S (S (length path))) bn path apiName with
  | Some bn' => Ret bn'
  | None => Fuel
  end.

(** ** route_node.go *)

Record RouteNode : Type := mkRouteNode {
  prefixOff : Z;      (* uint32 *)
  prefixLen : Z;      (* uint16 *)
  maskLo : Z;         (* uint64, bytes 0-63 *)
  maskHi : Z;         (* uint64, bytes 64-127 *)
  childIdx : Z;       (* uint32 *)
  numChildren : Z;    (* uint16 *)
  rn_apiId : Z        (* uint32 *)
}.

Definition ones64 : Z := 0xFFFFFFFFFFFFFFFF.

(** [RouteNode.findChildIdx]: [Ret None] is the nil result. *)
Definition findChildIdx (n : RouteNode) (b : Z) (arena : list RouteNode)
  : outcome (option RouteNode) :=
  let isHi := Z.shiftr b 6 in
  let bitIdx := Z.land b 63 in
  let bit := shl 64 1 bitIdx in
  let sel := u64 (isHi * ones64) in
  let targetMask := Z.lor (Z.land (maskLo n) (notu 64 sel)) (Z.land (maskHi n) sel) in
  if Z.land targetMask bit =? 0 then Ret None
  else
    let loCount := popcount (maskLo n) in
    let idx := u32 (u32 (u32 loCount * u32 isHi)
                    + u32 (popcount (Z.land targetMask (u64 (bit - 1))))) in
    c <-- go_index arena (u32 (childIdx n + idx)) ;;
    Ret (Some c).

(** ** BakeToArena *)

(** The keys of the children map, collected and sorted, with their nodes. *)
Definition sorted_children (bn : BuilderNode) : list (Z * BuilderNode) :=
  omap (fun k => (fun c => (k, c)) <$> aget k (bn_children bn))
       (merge_sort Z.le ((bn_children bn).*1)).

Definition fresh_node (off : Z) (bn : BuilderNode) : RouteNode :=
  mkRouteNode (u32 off) (u16 (Z.of_nat (length (bn_prefix bn)))) 0 0 0 0 (bn_apiId bn).

Definition set_mask_bit (b : Z) (n : RouteNode) : RouteNode :=
  if b <? 64
  then mkRouteNode (prefixOff n) (prefixLen n) (Z.lor (maskLo n) (shl 64 1 b)) (maskHi n)
                   (childIdx n) (numChildren n) (rn_apiId n)
  else mkRouteNode (prefixOff n) (prefixLen n) (maskLo n) (Z.lor (maskHi n) (shl 64 1 (b - 64)))
                   (childIdx n) (numChildren n) (rn_apiId n).

Definition set_children (first num : Z) (n : RouteNode) : RouteNode :=
  mkRouteNode (prefixOff n) (prefixLen n) (maskLo n) (maskHi n) (u32 first) (u16 num) (rn_apiId n).

(** The state of the breadth-first loop: the arena, the prefix table and the
    queue of [task]s (a builder node and its arena index). *)
Record bake_state : Type := mkBake {
  bk_nodes : list RouteNode;
  bk_table : byte_string;
  bk_queue : list (BuilderNode * nat)
}.

(** One iteration of [for _, b := range keys]. *)
Definition bake_child (idx : nat) (s : bake_state) (kc : Z * BuilderNode) : bake_state :=
  let '(b, child) := kc in
  let nodes1 := alter (set_mask_bit b) idx (bk_nodes s) in
  let off := Z.of_nat (length (bk_table s)) in
  mkBake (nodes1 ++ [fresh_node off child])
         (bk_table s ++ bn_prefix child)
         (bk_queue s ++ [(child, length nodes1)]).

(** One iteration of [for len(queue) > 0]. *)
Definition bake_task (bn : BuilderNode) (idx : nat) (s : bake_state) : bake_state :=
  if (length (bn_children bn) =? 0)%nat then s
  else
    let nodes1 := alter (set_children (Z.of_nat (length (bk_nodes s)))
                                      (Z.of_nat (length (bn_children bn)))) idx (bk_nodes s) in
    foldl (bake_child idx) (mkBake nodes1 (bk_table s) (bk_queue s)) (sorted_children bn).

Fixpoint bake_loop (fuel : nat) (s : bake_state) : outcome (list RouteNode * byte_string) :=
  match bk_queue s with
  | [] => Ret (bk_nodes s, bk_table s)
  | (bn, idx) :: queue' =>
    match fuel with
    | O => Fuel
    | S fuel' => bake_loop fuel' (bake_task bn idx (mkBake (bk_nodes s) (bk_table s) queue'))
    end
  end.

(** The number of nodes of a builder tree: the bake loop visits each once. *)
Fixpoint tree_size (bn : BuilderNode) : nat :=
  match bn with
  | BNode _ _ children =>
    S ((fix sum (cs : list (Z * BuilderNode)) : nat :=
          match cs with [] => O | (_, c) :: cs' => tree_size c + sum cs' end)%nat children)
  end.

Definition BakeToArena (bn : BuilderNode) : outcome (list RouteNode * byte_string) :=
  bake_loop (tree_size bn) (mkBake [fresh_node 0 bn] (bn_prefix bn) [(bn, O)]).

(** ** router.go *)

Record RahRouter : Type := mkRouter {
  builder : BuilderNode;
  snap_arena : list RouteNode;
  snap_table : byte_string
}.

Definition RouterNew : RahRouter := mkRouter NewBuilder [] [].

(** [RahRouter.Add]: insert, bake and publish one snapshot. *)
Definition RouterAdd (r : RahRouter) (path : byte_string) (apiId : Z) : outcome RahRouter :=
  bn <-- BuilderAdd (builder r) path apiId ;;
  nt <-- BakeToArena bn ;;
  Ret (mkRouter bn nt.1 nt.2).

(** [RahRouter.AddMany]; the list is one iteration order of the Go map. *)
Fixpoint add_all (bn : BuilderNode) (routes : list (byte_string * Z)) : outcome BuilderNode :=
  match routes with
  | [] => Ret bn
  | (path, name) :: routes' => bn' <-- BuilderAdd bn path name ;; add_all bn' routes'
  end.

Definition AddMany (r : RahRouter) (routes : list (byte_string * Z)) : outcome RahRouter :=
  bn <-- add_all (builder r) routes ;;
  nt <-- BakeToArena bn ;;
  Ret (mkRouter bn nt.1 nt.2).

Definition slash : Z := 47.

(** The loop of [Lookup], from the node [curr] with [input] left to match. *)
Fixpoint lookup_loop (fuel : nat) (arena : list RouteNode) (table : byte_string)
    (curr : RouteNode) (input : byte_string) (longestMatch : Z) : outcome Z :=
  match fuel with
  | O => Fuel
  | S fuel' =>
    prefix <-- go_slice table (prefixOff curr) (u32 (prefixOff curr + u32 (prefixLen curr))) ;;
    if (length input <? length prefix)%nat
       || negb (bool_decide (take (length prefix) input = prefix))
    then Ret longestMatch
    else
      let input := drop (length prefix) input in
      let longestMatch :=
        if negb (rn_apiId curr =? 0) then
          match input with
          | [] => rn_apiId curr
          | c :: _ => if c =? slash then rn_apiId curr else longestMatch
          end
        else longestMatch in
      match input with
      | [] => Ret (rn_apiId curr)
      | c :: _ =>
        next <-- findChildIdx curr c arena ;;
        match next with
        | None => Ret longestMatch
        | Some next => lookup_loop fuel' arena table next input longestMatch
        end
      end
  end.

(** [RahRouter.Lookup]. *)
Definition RouterLookup (r : RahRouter) (path : byte_string) : outcome Z :=
  match snap_arena r with
  | [] => Ret 0
  | root :: _ => lookup_loop (S (S (length path))) (snap_arena r) (snap_table r) root path 0
  end.
