(* ===== verification/RouterTree.v ===== *)
(** * The builder tree as a partial map from paths to API ids

    [get t p] is the id stored at the tree node that [p] spells exactly;
    [Add] updates that map at one path, and walking the tree the way
    [Lookup] does computes the longest match of the map. *)

From S2P Require Import Prelude Bits Router.
From stdpp Require Import base numbers list sorting.

Local Open Scope Z_scope.

(** ** Induction and well-formedness *)

Section BuilderNode_induction.
  Variable P : BuilderNode -> Prop.
  Hypothesis step : forall p a cs, (forall k c, (k, c) ∈ cs -> P c) -> P (BNode p a cs).

Fixpoint BuilderNode_rect_in (t : BuilderNode) : P t :=
    match t with
    | BNode p a cs =>
      step p a cs
        ((fix go (l : list (Z * BuilderNode)) : forall k c, (k, c) ∈ l -> P c :=
            match l with
            | [] => fun k c H => False_ind _ (not_elem_of_nil _ H)
            | (k0, c0) :: l' => fun k c H =>
              match proj1 (elem_of_cons l' (k, c) (k0, c0)) H with
              | or_introl E => eq_ind c0 P (BuilderNode_rect_in c0) c
                                 (eq_sym (f_equal snd E))
              | or_intror H' => go l' k c H'
              end
            end) cs)
    end.
End BuilderNode_induction.

(** Children have distinct keys, and a child's prefix starts with its key. *)
Inductive wf_tree : BuilderNode -> Prop :=
| wf_BNode p a cs :
    NoDup cs.*1 ->
    (forall k c, (k, c) ∈ cs -> wf_tree c) ->
    (forall k c, (k, c) ∈ cs -> exists p', bn_prefix c = k :: p') ->
    wf_tree (BNode p a cs).

Lemma wf_child p a cs k c : wf_tree (BNode p a cs) -> aget k cs = Some c ->
  wf_tree c /\ exists p', bn_prefix c = k :: p'.
Proof.
  intros H E%aget_Some_In. inversion H as [??? Hn Hw Hp]; subst. split; eauto.
Qed.

Lemma wf_leaf p a : wf_tree (BNode p a []).
Proof. constructor; [constructor| |]; intros k c H%not_elem_of_nil; done. Qed.

(** Replacing or adding one child keeps a node well formed. *)
Lemma wf_aset p a cs k c p' p2 a2 :
  wf_tree (BNode p a cs) -> wf_tree c -> bn_prefix c = k :: p' ->
  wf_tree (BNode p2 a2 (aset k c cs)).
Proof.
  inversion 1 as [??? Hn Hw Hp]; subst. intros Hc Ep. constructor.
  - by apply aset_NoDup.
  - intros k0 c0 [[= -> ->]|]%aset_In; eauto.
  - intros k0 c0 [[= -> ->]|]%aset_In; eauto.
Qed.

Lemma wf_relabel p a cs p2 a2 : wf_tree (BNode p a cs) -> wf_tree (BNode p2 a2 cs).
Proof. inversion 1; subst. by constructor. Qed.

(** ** Prefixes *)

Fixpoint strip (pre p : byte_string) : option byte_string :=
  match pre, p with
  | [], _ => Some p
  | a :: pre', b :: p' => if a =? b then strip pre' p' else None
  | _ :: _, [] => None
  end.

Lemma strip_Some pre p r : strip pre p = Some r <-> p = pre ++ r.
Proof.
  revert p. induction pre as [|a pre IH]; intros p; simpl.
  - split; congruence.
  - destruct p as [|b p]; [done|]. destruct (Z.eqb_spec a b) as [->|Hne].
    + rewrite IH. split; congruence.
    + split; [done|congruence].
Qed.

Lemma strip_app pre r : strip pre (pre ++ r) = Some r.
Proof. by apply strip_Some. Qed.

Lemma strip_self p : strip p p = Some [].
Proof. apply strip_Some. by rewrite app_nil_r. Qed.

Lemma strip_app_l pre1 pre2 p :
  strip (pre1 ++ pre2) p = match strip pre1 p with Some r => strip pre2 r | None => None end.
Proof.
  revert p. induction pre1 as [|a pre1 IH]; intros p; [done|].
  destruct p as [|b p]; [done|]. simpl. by destruct (a =? b).
Qed.

Lemma strip_None pre p : strip pre p = None <-> forall r, p <> pre ++ r.
Proof.
  destruct (strip pre p) as [r|] eqn:E.
  - apply strip_Some in E. split; [done|]. intros H. by destruct (H r).
  - split; [|done]. intros _ r Hr%strip_Some. congruence.
Qed.

(** The result of the byte-by-byte comparison of [Add]. *)
Lemma common_len_spec path prefix :
  exists com r1 r2, path = com ++ r1 /\ prefix = com ++ r2 /\
    length com = common_len path prefix /\
    match r1, r2 with b1 :: _, b2 :: _ => b1 <> b2 | _, _ => True end.
Proof.
  revert prefix. induction path as [|a path IH]; intros prefix.
  { exists [], [], prefix. by destruct prefix. }
  destruct prefix as [|b prefix]; [by exists [], (a :: path), []|].
  simpl. destruct (Z.eqb_spec a b) as [->|Hne]; [|by exists [], (a :: path), (b :: prefix)].
  destruct (IH prefix) as (com & r1 & r2 & -> & -> & El & Hd).
  exists (b :: com), r1, r2. simpl. by rewrite <- El.
Qed.

(** ** The tree as a map *)

Fixpoint get (t : BuilderNode) (p : byte_string) : option Z :=
  match t with
  | BNode pre a cs =>
    match strip pre p with
    | None => None
    | Some [] => Some a
    | Some (b :: r) =>
      (fix go (l : list (Z * BuilderNode)) : option Z :=
         match l with
         | [] => None
         | (k, c) :: l' => if b =? k then get c (b :: r) else go l'
         end) cs
    end
  end.

Lemma get_eq pre a cs p :
  get (BNode pre a cs) p =
  match strip pre p with
  | None => None
  | Some [] => Some a
  | Some (b :: r) => match aget b cs with Some c => get c (b :: r) | None => None end
  end.
Proof.
  simpl. destruct (strip pre p) as [[|b r]|]; [done| |done].
  induction cs as [|[k c] cs IH]; [done|]. simpl. by destruct (b =? k).
Qed.

(** The id at [p]; structural nodes and absent paths read as 0. *)
Definition tid (t : BuilderNode) (p : byte_string) : Z := default 0 (get t p).

Lemma tid_eq pre a cs p :
  tid (BNode pre a cs) p =
  match strip pre p with
  | None => 0
  | Some [] => a
  | Some (b :: r) => match aget b cs with Some c => tid c (b :: r) | None => 0 end
  end.
Proof.
  unfold tid. rewrite get_eq. destruct (strip pre p) as [[|b r]|]; [done| |done].
  by destruct (aget b cs).
Qed.

Lemma tid_prefix_nil t b p' : bn_prefix t = b :: p' -> tid t [] = 0.
Proof. destruct t as [pre a cs]. simpl. intros ->. by rewrite tid_eq. Qed.

(** ** What [Add] does to the map *)

(** Splitting a node changes no id. *)
Lemma tid_split com b r a cs q :
  tid (BNode com 0 [(b, BNode (b :: r) a cs)]) q = tid (BNode (com ++ b :: r) a cs) q.
Proof.
  rewrite !tid_eq, strip_app_l. destruct (strip com q) as [[|b' r']|]; [done| |done].
  simpl aget. destruct (Z.eqb_spec b' b) as [->|Hne]; [by rewrite tid_eq|].
  simpl. by rewrite (proj2 (Z.eqb_neq b b')) by congruence.
Qed.

Lemma tid_set_root pre a a' cs q :
  tid (BNode pre a' cs) q = if bool_decide (q = pre) then a' else tid (BNode pre a cs) q.
Proof.
  rewrite !tid_eq. destruct (strip pre q) as [r|] eqn:E.
  - apply strip_Some in E as ->. destruct r as [|b r].
    + by rewrite app_nil_r, bool_decide_eq_true_2.
    + rewrite bool_decide_eq_false_2; [done|].
      intros C. apply (f_equal length) in C. rewrite length_app in C. simpl in C. lia.
  - rewrite bool_decide_eq_false_2; [done|]. intros ->.
    by rewrite strip_self in E.
Qed.

(** Updating the child at [b] updates the map below [pre ++ b]. *)
Lemma tid_set_child pre a cs b r c a' q :
  (forall q', q' <> [] -> tid c q' = if bool_decide (q' = b :: r) then a'
              else match aget b cs with Some c0 => tid c0 q' | None => 0 end) ->
  tid (BNode pre a (aset b c cs)) q =
  if bool_decide (q = pre ++ b :: r) then a' else tid (BNode pre a cs) q.
Proof.
  intros Hc. rewrite !tid_eq. destruct (strip pre q) as [q'|] eqn:E.
  - apply strip_Some in E as ->.
    rewrite (bool_decide_ext _ (q' = b :: r)) by (split; [apply app_inv_head|congruence]).
    destruct q' as [|b' q'].
    + by rewrite bool_decide_eq_false_2.
    + rewrite aget_aset. destruct (Z.eqb_spec b' b) as [->|Hne].
      * by rewrite Hc.
      * rewrite bool_decide_eq_false_2 by congruence. done.
  - rewrite bool_decide_eq_false_2; [done|]. intros ->. by rewrite strip_app in E.
Qed.

Lemma tid_other_head t b p' b' q :
  bn_prefix t = b :: p' -> b' <> b -> tid t (b' :: q) = 0.
Proof.
  destruct t as [pre a cs]. simpl. intros -> Hne. rewrite tid_eq. simpl.
  by rewrite (proj2 (Z.eqb_neq b b')) by congruence.
Qed.

Lemma tid_leaf p a q : tid (BNode p a []) q = if bool_decide (q = p) then a else 0.
Proof.
  rewrite (tid_set_root _ 0). case_bool_decide; [done|].
  rewrite tid_eq. by destruct (strip p q) as [[|??]|].
Qed.

(** [Add] on a node that is not the empty root, by the common part [com] of
    the path and the prefix. *)
Lemma Add_fuel_unfold fuel pre a cs name com r1 r2 :
  is_nil (com ++ r2) && is_nil cs = false -> pre = com ++ r2 ->
  length com = common_len (com ++ r1) pre ->
  match r1, r2 with b1 :: _, b2 :: _ => b1 <> b2 | _, _ => True end ->
  Add_fuel (S fuel) (BNode pre a cs) (com ++ r1) name =
  match r2, r1 with
  | [], [] => Some (BNode pre name cs)
  | [], b1 :: _ =>
    match aget b1 cs with
    | Some c => (fun c' => BNode pre a (aset b1 c' cs)) <$> Add_fuel fuel c r1 name
    | None => Some (BNode pre a (aset b1 (BNode r1 name []) cs))
    end
  | b2 :: _, [] => Some (BNode com name [(b2, BNode r2 a cs)])
  | b2 :: _, b1 :: _ =>
    Some (BNode com 0 (aset b1 (BNode r1 name []) [(b2, BNode r2 a cs)]))
  end.
Proof.
  intros Hne -> El Hd. cbn [Add_fuel bn_prefix bn_children]. rewrite Hne, <- El.
  unfold split_node. cbn [bn_prefix bn_children bn_apiId].
  rewrite take_app_length, !drop_app_length, !length_app.
  destruct r2 as [|b2 r2], r1 as [|b1 r1]; simpl length;
    rewrite ?Nat.add_0_r, ?Nat.ltb_irrefl, ?(proj2 (Nat.ltb_lt (length com) (length com + S _))) by lia.
  - done.
  - simpl hd. destruct (aget b1 cs); [|done]. by destruct (Add_fuel fuel b (b1 :: r1) name).
  - done.
  - simpl. by rewrite (proj2 (Z.eqb_neq b1 b2)) by done.
Qed.

Definition nil_cost (t : BuilderNode) : nat := if is_nil (bn_prefix t) then 1 else 0.

(** What a completed [Add] guarantees of the resulting tree. *)
Definition add_post (t : BuilderNode) (path : byte_string) (name : Z) (t' : BuilderNode) : Prop :=
  wf_tree t' /\ tid t' [] = 0 /\
  (forall q, q <> [] -> tid t' q = if bool_decide (q = path) then name else tid t q) /\
  (forall b p1 p2, bn_prefix t = b :: p1 -> path = b :: p2 -> exists p3, bn_prefix t' = b :: p3).

Lemma add_post_split com a cs b2 r2 name path :
  wf_tree (BNode (com ++ b2 :: r2) a cs) -> path = com -> path <> [] ->
  add_post (BNode (com ++ b2 :: r2) a cs) path name
           (BNode com name [(b2, BNode (b2 :: r2) a cs)]).
Proof.
  intros Hwf -> Hne. split; [|split; [|split]].
  - eapply (wf_aset com 0 []); [apply wf_leaf|by eapply wf_relabel|done].
  - destruct com; [done|]. by rewrite tid_eq.
  - intros q _. rewrite (tid_set_root _ 0). by rewrite tid_split.
  - simpl. intros b p1 p2 _ ->. eauto.
Qed.

Lemma add_post_fork com a cs b1 r1 b2 r2 name :
  wf_tree (BNode (com ++ b2 :: r2) a cs) -> tid (BNode (com ++ b2 :: r2) a cs) [] = 0 ->
  b1 <> b2 ->
  add_post (BNode (com ++ b2 :: r2) a cs) (com ++ b1 :: r1) name
           (BNode com 0 (aset b1 (BNode (b1 :: r1) name []) [(b2, BNode (b2 :: r2) a cs)])).
Proof.
  intros Hwf H0 Hne. split; [|split; [|split]].
  - eapply (wf_aset com 0); [|apply wf_leaf|done].
    eapply (wf_aset com 0 []); [apply wf_leaf|by eapply wf_relabel|done].
  - by destruct com.
  - intros q _. rewrite (tid_set_child _ _ _ _ r1 _ name).
    + by rewrite tid_split.
    + intros q' _. rewrite tid_leaf. case_bool_decide; [done|].
      simpl. by rewrite (proj2 (Z.eqb_neq b1 b2)) by done.
  - simpl. intros b p1 p2. destruct com as [|b0 com]; simpl.
    + intros [= -> _] [= -> _]. done.
    + intros [= -> _] _. eauto.
Qed.

Lemma add_post_child pre a cs b1 r1 name c :
  wf_tree (BNode pre a cs) -> tid (BNode pre a cs) [] = 0 -> wf_tree c ->
  (exists p', bn_prefix c = b1 :: p') ->
  (forall q', q' <> [] -> tid c q' = if bool_decide (q' = b1 :: r1) then name
              else match aget b1 cs with Some c0 => tid c0 q' | None => 0 end) ->
  add_post (BNode pre a cs) (pre ++ b1 :: r1) name (BNode pre a (aset b1 c cs)).
Proof.
  intros Hwf H0 Hc [p' Ep] Hq. split; [|split; [|split]].
  - by eapply wf_aset.
  - destruct pre; [|done]. by rewrite tid_eq in *.
  - intros q _. by apply tid_set_child.
  - simpl. eauto.
Qed.

(** [Add] terminates within the budget and updates the map at [path] only. *)
Lemma Add_fuel_spec fuel t path name :
  wf_tree t -> tid t [] = 0 -> path <> [] -> (length path + nil_cost t < fuel)%nat ->
  exists t', Add_fuel fuel t path name = Some t' /\ add_post t path name t'.
Proof.
  revert t path. induction fuel as [|fuel IH]; intros [pre a cs] path Hwf H0 Hp Hf; [lia|].
  destruct (is_nil pre && is_nil cs) eqn:En.
  { destruct pre, cs; try done. eexists. split; [done|].
    rewrite tid_eq in H0. simpl in H0. subst a.
    split; [apply wf_leaf|split; [by destruct path|split; [|done]]].
    intros q Hq. rewrite !tid_leaf. by rewrite (bool_decide_eq_false_2 (q = [])). }
  destruct (common_len_spec path pre) as (com & r1 & r2 & -> & -> & El & Hd).
  rewrite (Add_fuel_unfold fuel _ a cs name com r1 r2) by done.
  destruct r2 as [|b2 r2], r1 as [|b1 r1].
  - eexists. split; [done|]. rewrite !app_nil_r in *.
    split; [by eapply wf_relabel|split; [by destruct com|split; [|by eauto]]].
    intros q _. apply tid_set_root.
  - rewrite app_nil_r in *. destruct (aget b1 cs) as [c|] eqn:Ec.
    + destruct (wf_child _ _ _ _ _ Hwf Ec) as [Hwc [p' Ep]].
      destruct (IH c (b1 :: r1)) as (c' & Hc' & Hw' & H0' & Hq' & Hpre');
        [done|by eapply tid_prefix_nil|done| |].
      { unfold nil_cost in *. rewrite Ep. cbn [bn_prefix is_nil] in *.
        rewrite length_app in Hf. destruct com; simpl in *; lia. }
      rewrite Hc'. eexists. split; [done|].
      apply add_post_child; [done|done|done|by eapply Hpre'|].
      intros q' Hq0. rewrite Hq' by done. by rewrite Ec.
    + eexists. split; [done|]. apply add_post_child; [done|done|apply wf_leaf|by eexists|].
      intros q' _. rewrite tid_leaf. by rewrite Ec.
  - eexists. split; [done|]. rewrite app_nil_r in *. by apply add_post_split.
  - eexists. split; [done|]. by apply add_post_fork.
Qed.

(** The map of the tree after [Add]; the recursion budget is always enough. *)
Lemma Add_spec t path name :
  wf_tree t -> tid t [] = 0 -> path <> [] ->
  exists t', BuilderAdd t path name = Ret t' /\ add_post t path name t'.
Proof.
  intros Hwf H0 Hp. unfold BuilderAdd.
  destruct (Add_fuel_spec (S (S (length path))) t path name) as (t' & -> & Ht); try done.
  - unfold nil_cost. destruct (is_nil _); lia.
  - eauto.
Qed.

(** ** Lookup on the tree *)

(** A segment boundary: the end of the path or a slash. *)
Definition boundary (rest : byte_string) : bool :=
  match rest with [] => true | c :: _ => c =? slash end.

Definition claim (a : Z) (rest : byte_string) (longest : Z) : Z :=
  if negb (a =? 0) && boundary rest then a else longest.

Lemma claim_0 rest l : claim 0 rest l = l.
Proof. done. Qed.

(** The walk of [Lookup], on the tree instead of its arena. *)
Fixpoint tlookup (t : BuilderNode) (input : byte_string) (longest : Z) : Z :=
  match t with
  | BNode pre a cs =>
    match strip pre input with
    | None => longest
    | Some [] => a
    | Some (b :: r) =>
      (fix go (l : list (Z * BuilderNode)) : Z :=
         match l with
         | [] => claim a (b :: r) longest
         | (k, c) :: l' =>
           if b =? k then tlookup c (b :: r) (claim a (b :: r) longest) else go l'
         end) cs
    end
  end.

Lemma tlookup_eq pre a cs input longest :
  tlookup (BNode pre a cs) input longest =
  match strip pre input with
  | None => longest
  | Some [] => a
  | Some (b :: r) =>
    match aget b cs with
    | Some c => tlookup c (b :: r) (claim a (b :: r) longest)
    | None => claim a (b :: r) longest
    end
  end.
Proof.
  simpl. destruct (strip pre input) as [[|b r]|]; [done| |done].
  induction cs as [|[k c] cs IH]; [done|]. simpl. by destruct (b =? k).
Qed.

(** The reference: scan the prefixes of [path] from the longest down and take
    the first one that has an id and ends on a segment boundary. *)
Fixpoint best_upto (f : byte_string -> Z) (path : byte_string) (n : nat) (dflt : Z) : Z :=
  let d := match n with O => dflt | S n' => best_upto f path n' dflt end in
  claim (f (take n path)) (drop n path) d.

Definition best (f : byte_string -> Z) (path : byte_string) (dflt : Z) : Z :=
  best_upto f path (length path) dflt.

Lemma best_upto_zero f path n dflt :
  (forall m, (m <= n)%nat -> f (take m path) = 0) -> best_upto f path n dflt = dflt.
Proof.
  induction n as [|n IH]; intros H; simpl; rewrite H by lia; [done|].
  apply IH. intros. apply H. lia.
Qed.

Lemma best_upto_ext f g path n dflt :
  (forall m, (m <= n)%nat -> f (take m path) = g (take m path)) ->
  best_upto f path n dflt = best_upto g path n dflt.
Proof.
  induction n as [|n IH]; intros H; simpl; rewrite H by lia; [done|].
  rewrite IH; [done|]. intros. apply H. lia.
Qed.

(** Matches above [pre] are those of the remainder; [pre] itself is the
    fallback. *)
Lemma best_app f pre rest dflt :
  (forall m, (m < length pre)%nat -> f (take m pre) = 0) ->
  best f (pre ++ rest) dflt =
  best (fun q => if is_nil q then 0 else f (pre ++ q)) rest (claim (f pre) rest dflt).
Proof.
  intros Hz. unfold best. rewrite length_app.
  assert (forall n, (n <= length rest)%nat ->
    best_upto f (pre ++ rest) (length pre + n) dflt =
    best_upto (fun q => if is_nil q then 0 else f (pre ++ q)) rest n (claim (f pre) rest dflt))
    as H; [|apply H; lia].
  induction n as [|n IH]; intros Hn.
  - rewrite Nat.add_0_r. cbn [best_upto]. rewrite take_0. cbn [is_nil]. rewrite claim_0.
    destruct (length pre) as [|m] eqn:El.
    { destruct pre; [|done]. cbn. by rewrite take_0, drop_0. }
    cbn [best_upto]. rewrite <- El, take_app_length, drop_app_length. f_equal.
    apply best_upto_zero. intros m' Hm'. rewrite take_app_le by lia. apply Hz. lia.
  - rewrite Nat.add_succ_r. simpl. rewrite IH by lia.
    replace (S (length pre + n)) with (length pre + S n)%nat by lia.
    rewrite take_app_add', drop_app_add' by done.
    destruct rest as [|b rest]; [simpl in Hn; lia|]. done.
Qed.

(** The tree walk finds the longest match of the tree's map, except that a
    path ending on a node returns the id of that node, 0 if structural. *)
Lemma tlookup_best t input dflt :
  wf_tree t ->
  tlookup t input dflt =
  match get t input with Some a => a | None => best (tid t) input dflt end.
Proof.
  revert input dflt. induction t as [pre a cs IH] using BuilderNode_rect_in.
  intros input dflt Hwf. rewrite tlookup_eq, get_eq.
  destruct (strip pre input) as [rest|] eqn:E.
  2: { symmetry. apply best_upto_zero. intros m Hm. rewrite tid_eq.
       destruct (strip pre (take m input)) as [r|] eqn:E'; [|done].
       apply strip_Some in E'. rewrite strip_None in E.
       destruct (E (r ++ drop m input)). rewrite app_assoc, <- E'. by rewrite take_drop. }
  apply strip_Some in E as ->. destruct rest as [|b r]; [done|].
  assert (forall m, (m < length pre)%nat -> tid (BNode pre a cs) (take m pre) = 0) as Hz.
  { intros m Hm. rewrite tid_eq. destruct (strip pre (take m pre)) as [r'|] eqn:E'; [|done].
    apply strip_Some, (f_equal length) in E'. rewrite length_take, length_app in E'. lia. }
  assert (tid (BNode pre a cs) pre = a) as Hpre by by rewrite tid_eq, strip_self.
  destruct (aget b cs) as [c|] eqn:Ec.
  - destruct (wf_child _ _ _ _ _ Hwf Ec) as [Hwc [p' Ep]].
    rewrite (IH b c) by (done || by apply aget_Some_In).
    destruct (get c (b :: r)); [done|]. rewrite (best_app (tid (BNode pre a cs))) by done.
    rewrite Hpre. apply best_upto_ext. intros m Hm. rewrite tid_eq, strip_app.
    destruct m as [|m]; simpl take; [by eapply tid_prefix_nil|]. simpl. by rewrite Ec.
  - rewrite (best_app (tid (BNode pre a cs))) by done. rewrite Hpre.
    symmetry. apply best_upto_zero. intros m Hm.
    destruct m as [|m]; simpl take; [done|]. simpl is_nil. cbv iota.
    by rewrite tid_eq, strip_app, Ec.
Qed.

(** ** The nodes of the tree

    Besides the registered paths, the tree has a node at every fork: a path
    that two nodes below it leave by different bytes. *)

Definition node_at (t : BuilderNode) (q : byte_string) : Prop := is_Some (get t q).

Lemma node_at_eq pre a cs q :
  node_at (BNode pre a cs) q <->
  q = pre \/ exists b r c, q = pre ++ b :: r /\ aget b cs = Some c /\ node_at c (b :: r).
Proof.
  unfold node_at. rewrite get_eq. destruct (strip pre q) as [r|] eqn:E.
  - apply strip_Some in E as ->. destruct r as [|b r].
    { rewrite app_nil_r. split; [by left|eauto]. }
    split.
    + intros H. right. destruct (aget b cs) as [c|] eqn:Ec; [by eauto 8|by destruct H].
    + intros [C|(b' & r' & c & C & Hc & H)].
      * apply (f_equal length) in C. rewrite length_app in C. simpl in C. lia.
      * apply app_inv_head in C as [= <- <-]. by rewrite Hc.
  - rewrite strip_None in E. split; [by intros []|].
    intros [->|(b & r & c & -> & _)]; [destruct (E []); by rewrite app_nil_r|by destruct (E (b :: r))].
Qed.

Lemma node_at_nonempty t b p' q : bn_prefix t = b :: p' -> node_at t q -> exists q', q = b :: q'.
Proof.
  destruct t as [pre a cs]. simpl. intros -> [->|(b' & r & c & -> & _)]%node_at_eq; simpl; eauto.
Qed.

(** [q] forks off [path] in [t]: some node of [t] leaves [q] by another byte. *)
Definition forks (t : BuilderNode) (path q : byte_string) : Prop :=
  exists b1 b2 s1 s2, b1 <> b2 /\ path = q ++ b1 :: s1 /\ node_at t (q ++ b2 :: s2).

Definition add_nodes (t : BuilderNode) (path : byte_string) (t' : BuilderNode) : Prop :=
  node_at t' path /\
  (forall q, q <> [] -> node_at t q -> node_at t' q) /\
  (forall q, node_at t' q -> q = path \/ node_at t q \/ forks t path q).

Lemma node_at_split com b r a a' cs q :
  node_at (BNode com a' [(b, BNode (b :: r) a cs)]) q <->
  q = com \/ node_at (BNode (com ++ b :: r) a cs) q.
Proof.
  rewrite !node_at_eq. split.
  - intros [->|(b' & r' & c & -> & Hc & Hn)]; [by left|right].
    simpl in Hc. destruct (Z.eqb_spec b' b) as [->|]; [|done]. injection Hc as <-.
    apply node_at_eq in Hn as [E|(b' & r0 & c & E & Hc & Hn)].
    + left. by rewrite E.
    + right. exists b', r0, c. by rewrite E, <- app_assoc.
  - intros [->|[->|(b' & r' & c & -> & Hc & Hn)]]; [by left| |];
      right; [exists b, r|exists b, (r ++ b' :: r')]; eexists; simpl; rewrite Z.eqb_refl.
    + split; [done|]. split; [done|]. apply node_at_eq. by left.
    + rewrite <- app_assoc. split; [done|]. split; [done|]. apply node_at_eq. right. eauto 6.
Qed.

Lemma node_at_aset pre a b c cs q :
  node_at (BNode pre a (aset b c cs)) q <->
  (exists r, q = pre ++ b :: r /\ node_at c (b :: r)) \/
  (node_at (BNode pre a cs) q /\ forall r, q <> pre ++ b :: r).
Proof.
  rewrite !node_at_eq. setoid_rewrite aget_aset. split.
  - intros [->|(b' & r & c' & -> & Hc & Hn)].
    + right. split; [by left|]. intros r C.
      apply (f_equal length) in C. rewrite length_app in C. simpl in C. lia.
    + destruct (Z.eqb_spec b' b) as [->|Hne]; [injection Hc as <-; left; eauto|].
      right. split; [right; eauto 6|]. intros r' C. apply app_inv_head in C. congruence.
  - intros [(r & -> & Hn)|[[->|(b' & r & c' & -> & Hc & Hn)] Hne]].
    + right. exists b, r, c. by rewrite Z.eqb_refl.
    + by left.
    + right. exists b', r, c'. destruct (Z.eqb_spec b' b) as [->|]; [by destruct (Hne r)|done].
Qed.

Lemma add_nodes_child pre a cs b1 r1 c :
  (forall c0, aget b1 cs = Some c0 -> add_nodes c0 (b1 :: r1) c) ->
  (aget b1 cs = None -> c = BNode (b1 :: r1) (bn_apiId c) []) ->
  add_nodes (BNode pre a cs) (pre ++ b1 :: r1) (BNode pre a (aset b1 c cs)).
Proof.
  intros Hsome Hnone. destruct (aget b1 cs) as [c0|] eqn:E.
  - destruct (Hsome c0 eq_refl) as (H1 & H2 & H3). split; [|split].
    + apply node_at_aset. left. eauto.
    + intros q Hq Hn. apply node_at_aset.
      destruct (strip (pre ++ [b1]) q) as [r|] eqn:Es.
      * apply strip_Some in Es as ->. rewrite <- app_assoc in *. left. exists r. split; [done|].
        apply H2; [done|]. apply node_at_eq in Hn as [C|(b & r0 & c' & C & Hc & Hn)].
        { apply (f_equal length) in C. rewrite length_app in C. simpl in C. lia. }
        apply app_inv_head in C as [= <- <-]. congruence.
      * right. split; [done|]. intros r ->. rewrite strip_None in Es.
        apply (Es r). by rewrite <- app_assoc.
    + intros q [(r & -> & Hn)|[Hn _]]%node_at_aset; [|by right; left].
      destruct (H3 _ Hn) as [->|[Hn0|(x & y & s1 & s2 & Hxy & Ep & Hy)]]; [by left| |].
      * right. left. apply node_at_eq. right. eauto 6.
      * right. right. exists x, y, s1, s2. split; [done|]. rewrite Ep, <- !app_assoc.
        split; [done|]. apply node_at_eq. right. exists b1, (r ++ y :: s2), c0. eauto.
  - rewrite (Hnone eq_refl). split; [|split].
    + apply node_at_aset. left. exists r1. split; [done|]. apply node_at_eq. by left.
    + intros q Hq Hn. apply node_at_aset. right. split; [done|]. intros r ->.
      apply node_at_eq in Hn as [C|(b & r0 & c' & C & Hc & Hn)].
      { apply (f_equal length) in C. rewrite length_app in C. simpl in C. lia. }
      apply app_inv_head in C as [= <- <-]. congruence.
    + intros q [(r & -> & Hn)|[Hn _]]%node_at_aset; [|by right; left].
      apply node_at_eq in Hn as [[= ->]|(b & r0 & c' & _ & ? & _)]; [by left|done].
Qed.

Lemma add_nodes_relabel pre a a' cs : add_nodes (BNode pre a cs) pre (BNode pre a' cs).
Proof.
  split; [apply node_at_eq; by left|].
  split; intros q; rewrite !node_at_eq; tauto.
Qed.

Lemma add_nodes_split com b2 r2 a a' cs :
  add_nodes (BNode (com ++ b2 :: r2) a cs) com (BNode com a' [(b2, BNode (b2 :: r2) a cs)]).
Proof.
  split; [apply node_at_eq; by left|].
  split; intros q; rewrite node_at_split; tauto.
Qed.

Lemma add_nodes_fork com b1 r1 b2 r2 a cs name :
  b1 <> b2 ->
  add_nodes (BNode (com ++ b2 :: r2) a cs) (com ++ b1 :: r1)
    (BNode com 0 (aset b1 (BNode (b1 :: r1) name []) [(b2, BNode (b2 :: r2) a cs)])).
Proof.
  intros Hne.
  destruct (add_nodes_child com 0 [(b2, BNode (b2 :: r2) a cs)] b1 r1 (BNode (b1 :: r1) name []))
    as (H1 & H2 & H3).
  { simpl. by rewrite (proj2 (Z.eqb_neq b1 b2)). }
  { done. }
  split; [done|]. split.
  - intros q Hq Hn. apply H2; [done|]. apply node_at_split. by right.
  - intros q Hq. destruct (H3 _ Hq) as [->|[Hn|(x & y & s1 & s2 & Hxy & Ep & Hn)]]; [by left| |].
    + apply node_at_split in Hn as [->|Hn]; [|by right; left].
      right. right. exists b1, b2, r1, r2. split; [done|]. split; [done|].
      apply node_at_eq. by left.
    + right. right. exists x, y, s1, s2. split; [done|]. split; [done|].
      apply node_at_split in Hn as [C|]; [|done].
      exfalso. subst com. rewrite <- app_assoc in Ep. apply app_inv_head in Ep.
      simpl in Ep. congruence.
Qed.

(** The nodes of the tree after [Add]: the new path, the old nodes, and the
    point where the new path forks off an old one. *)
Lemma Add_fuel_nodes fuel t path name t' :
  wf_tree t -> path <> [] -> Add_fuel fuel t path name = Some t' -> add_nodes t path t'.
Proof.
  revert t path t'. induction fuel as [|fuel IH]; intros [pre a cs] path t' Hwf Hp Hadd; [done|].
  destruct (is_nil pre && is_nil cs) eqn:En.
  { destruct pre, cs; try done. injection Hadd as <-.
    split; [apply node_at_eq; by left|]. split.
    - intros q Hq [->|(b & r & c & _ & ? & _)]%node_at_eq; done.
    - intros q [->|(b & r & c & _ & ? & _)]%node_at_eq; [by left|done]. }
  destruct (common_len_spec path pre) as (com & r1 & r2 & -> & -> & El & Hd).
  rewrite (Add_fuel_unfold fuel _ a cs name com r1 r2) in Hadd by done.
  destruct r2 as [|b2 r2], r1 as [|b1 r1]; rewrite ?app_nil_r in *.
  - injection Hadd as <-. apply add_nodes_relabel.
  - destruct (aget b1 cs) as [c|] eqn:Ec.
    + destruct (Add_fuel fuel c (b1 :: r1) name) as [c'|] eqn:Ec'; [|done].
      injection Hadd as <-. destruct (wf_child _ _ _ _ _ Hwf Ec) as [Hwc _].
      apply add_nodes_child; [|congruence].
      intros c0 Hc0. assert (c0 = c) as -> by congruence. by eapply IH.
    + injection Hadd as <-. apply add_nodes_child; [congruence|done].
  - injection Hadd as <-. apply add_nodes_split.
  - injection Hadd as <-. by apply add_nodes_fork.
Qed.

Lemma BuilderAdd_nodes t path name t' :
  wf_tree t -> path <> [] -> BuilderAdd t path name = Ret t' -> add_nodes t path t'.
Proof.
  intros Hwf Hp. unfold BuilderAdd. destruct (Add_fuel _ _ _ _) eqn:E; [|done].
  intros [= <-]. by eapply Add_fuel_nodes.
Qed.

(** Where two nodes part, the tree has a node. *)
Lemma node_at_parting t p b1 s1 b2 s2 :
  b1 <> b2 -> node_at t (p ++ b1 :: s1) -> node_at t (p ++ b2 :: s2) -> node_at t p.
Proof.
  intros Hb. revert p s1 s2.
  induction t as [pre a cs IH] using BuilderNode_rect_in; intros p s1 s2 H1 H2.
  assert (exists r, p ++ b1 :: s1 = pre ++ r) as [r Hr].
  { apply node_at_eq in H1 as [->|(b & r & c & -> & _)]; [exists []; by rewrite app_nil_r|eauto]. }
  assert (exists r, p ++ b2 :: s2 = pre ++ r) as [r' Hr'].
  { apply node_at_eq in H2 as [->|(b & r0 & c & -> & _)]; [exists []; by rewrite app_nil_r|eauto]. }
  destruct (strip pre p) as [p'|] eqn:E.
  - apply strip_Some in E as ->. destruct p' as [|b p']; [apply node_at_eq; left; by rewrite app_nil_r|].
    rewrite <- !app_assoc in *. simpl in *.
    apply node_at_eq in H1 as [C|(x & r1 & c & C & Hc & H1)].
    { apply (f_equal length) in C. rewrite length_app in C. simpl in C. lia. }
    apply app_inv_head in C as [= <- <-].
    apply node_at_eq in H2 as [C|(x & r2 & c' & C & Hc' & H2)].
    { apply (f_equal length) in C. rewrite length_app in C. simpl in C. lia. }
    apply app_inv_head in C as [= <- <-]. assert (c' = c) as -> by congruence.
    apply node_at_eq. right. exists b, p', c. split; [done|]. split; [done|].
    apply (IH b c (aget_Some_In _ _ _ Hc) (b :: p') s1 s2); done.
  - exfalso. apply app_eq_inv in Hr as [(k & -> & Hk)|(k & -> & Hk)].
    + by rewrite strip_app in E.
    + rewrite <- app_assoc in Hr'. apply app_inv_head in Hr'.
      destruct k as [|x k]; [by rewrite app_nil_r, strip_self in E|]. simpl in *. congruence.
Qed.
