(* ===== verification/RouterBake.v ===== *)
(** * BakeToArena and Lookup: the arena implements the builder tree

    The breadth-first loop of [BakeToArena] keeps the queue equal to the
    contiguous tail of arena nodes whose children are not laid out yet.  From
    that invariant the arena represents the tree, the two-mask child lookup
    finds exactly the child of a byte, and [Lookup] returns what the walk over
    the tree returns. *)

From S2P Require Import Prelude Bits Router RouterTree.
From stdpp Require Import base numbers list sorting.

Local Open Scope Z_scope.

(** ** The sorted children of a node *)

Definition lo_keys (ks : list Z) : list Z := filter (fun k => k < 64) ks.
Definition hi_keys (ks : list Z) : list Z := (fun k => k - 64) <$> filter (fun k => 64 <= k) ks.

Lemma sorted_strict (ks : list Z) :
  NoDup ks -> StronglySorted Z.lt (merge_sort Z.le ks).
Proof.
  intros Hnd. pose proof (StronglySorted_merge_sort Z.le ks) as Hs.
  assert (NoDup (merge_sort Z.le ks)) as Hnd' by by rewrite merge_sort_Permutation.
  revert Hs Hnd'. generalize (merge_sort Z.le ks). clear.
  induction l as [|k l IH]; intros Hs Hnd; [constructor|].
  inversion Hs as [|?? Hs' Hf]; subst. apply NoDup_cons in Hnd as [Hn Hnd].
  constructor; [by apply IH|]. apply Forall_forall. intros k' Hk'.
  rewrite Forall_forall in Hf. specialize (Hf _ Hk').
  assert (k <> k') by (intros ->; done). lia.
Qed.

(** In a strictly sorted list an element sits at the index of its rank. *)
Lemma sorted_rank (ks : list Z) b :
  StronglySorted Z.lt ks -> b ∈ ks -> ks !! length (below b ks) = Some b.
Proof.
  unfold below. induction 1 as [|k ks Hs IH Hf]; [by intros ?%not_elem_of_nil|].
  rewrite Forall_forall in Hf. intros [->|Hin]%elem_of_cons.
  - rewrite filter_cons_False by lia.
    rewrite filter_none; [done|]. intros x Hx. specialize (Hf x Hx). simpl. lia.
  - rewrite filter_cons_True by (by apply Hf). simpl. by apply IH.
Qed.

Lemma below_lo ks b : b <= 64 -> below b ks = below b (lo_keys ks).
Proof.
  intros Hb. unfold below, lo_keys. rewrite list_filter_filter.
  apply list_filter_iff. intros. lia.
Qed.

Lemma below_hi ks b : 64 <= b ->
  length (below b ks) = (length (lo_keys ks) + length (below (b - 64) (hi_keys ks)))%nat.
Proof.
  intros Hb. unfold below, lo_keys, hi_keys.
  induction ks as [|k ks IH]; [done|]. rewrite !filter_cons.
  repeat case_decide; rewrite ?fmap_cons, ?filter_cons; repeat case_decide; simpl; lia.
Qed.

Lemma sorted_children_spec t :
  NoDup (bn_children t).*1 ->
  (sorted_children t).*1 = merge_sort Z.le (bn_children t).*1 /\
  (forall k c, (k, c) ∈ sorted_children t -> aget k (bn_children t) = Some c).
Proof.
  intros Hnd. unfold sorted_children.
  assert (forall k, k ∈ merge_sort Z.le (bn_children t).*1 -> is_Some (aget k (bn_children t))) as H.
  { intros k. rewrite merge_sort_Permutation. by rewrite aget_is_Some. }
  revert H. generalize (merge_sort Z.le (bn_children t).*1). intros ks H. split.
  - induction ks as [|k ks IH]; [done|].
    destruct (H k) as [c Hc]; [by left|]. simpl. rewrite Hc. simpl. f_equal.
    apply IH. intros. apply H. by right.
  - intros k c. rewrite list_elem_of_omap. intros (k0 & _ & E).
    destruct (aget k0 (bn_children t)) eqn:E0; [|done]. simpl in E. congruence.
Qed.

Lemma sorted_children_length t :
  NoDup (bn_children t).*1 -> length (sorted_children t) = length (bn_children t).
Proof.
  intros [H _]%sorted_children_spec. rewrite <- (length_fmap fst), H.
  by rewrite merge_sort_Permutation, length_fmap.
Qed.

(** A child is found at the rank of its key. *)
Lemma sorted_children_rank t b c :
  NoDup (bn_children t).*1 -> aget b (bn_children t) = Some c ->
  sorted_children t !! length (below b (sorted_children t).*1) = Some (b, c).
Proof.
  intros Hnd Hc. destruct (sorted_children_spec t Hnd) as [Hk Hv].
  assert ((sorted_children t).*1 !! length (below b (sorted_children t).*1) = Some b) as E.
  { apply sorted_rank; rewrite Hk; [by apply sorted_strict|].
    rewrite merge_sort_Permutation. apply aget_is_Some. eauto. }
  rewrite list_lookup_fmap in E.
  destruct (sorted_children t !! _) as [[k c']|] eqn:El; [|done].
  injection E as ->. apply list_elem_of_lookup_2, Hv in El. congruence.
Qed.

Lemma sorted_children_elem t b :
  NoDup (bn_children t).*1 -> b ∈ (sorted_children t).*1 <-> is_Some (aget b (bn_children t)).
Proof.
  intros Hnd. destruct (sorted_children_spec t Hnd) as [-> _].
  by rewrite merge_sort_Permutation, aget_is_Some.
Qed.

Lemma sorted_children_NoDup t :
  NoDup (bn_children t).*1 -> NoDup (sorted_children t).*1.
Proof.
  intros Hnd. destruct (sorted_children_spec t Hnd) as [-> _].
  by rewrite merge_sort_Permutation.
Qed.

(** ** The masks of a node *)

Definition masks_ok (ks : list Z) (n : RouteNode) : Prop :=
  mask_repr (maskLo n) (lo_keys ks) /\ mask_repr (maskHi n) (hi_keys ks).

Lemma masks_ok_add ks n b :
  0 <= b -> masks_ok ks n -> masks_ok (b :: ks) (set_mask_bit b n).
Proof.
  intros Hb [Hlo Hhi]. unfold masks_ok, lo_keys, hi_keys, set_mask_bit.
  rewrite !filter_cons. destruct (Z.ltb_spec b 64); simpl; repeat case_decide; try lia.
  - split; [by apply mask_repr_add|done].
  - split; [done|]. apply mask_repr_add; [lia|done].
Qed.

Lemma masks_ok_perm ks ks' n : (forall i, i ∈ ks <-> i ∈ ks') -> masks_ok ks n -> masks_ok ks' n.
Proof.
  intros E [Hlo Hhi]. split; [refine (mask_repr_perm _ _ _ _ Hlo)|refine (mask_repr_perm _ _ _ _ Hhi)]; intros i;
    unfold lo_keys, hi_keys; rewrite ?list_elem_of_fmap, ?list_elem_of_filter.
  - by rewrite E.
  - setoid_rewrite list_elem_of_filter. by setoid_rewrite E.
Qed.

Lemma masks_fold ks ks0 n :
  (forall k, k ∈ ks -> 0 <= k) -> masks_ok ks0 n ->
  masks_ok (ks ++ ks0) (foldl (fun n b => set_mask_bit b n) n ks).
Proof.
  revert ks0 n. induction ks as [|k ks IH]; intros ks0 n Hk Hn; [done|].
  simpl. eapply masks_ok_perm; [|apply (IH (k :: ks0))].
  - intros i. rewrite !elem_of_cons, !elem_of_app, elem_of_cons. tauto.
  - intros. apply Hk. by right.
  - apply masks_ok_add; [apply Hk; by left|done].
Qed.

(** Setting mask bits leaves the other fields alone. *)
Lemma mask_fold_fields ks n :
  let n' := foldl (fun n b => set_mask_bit b n) n ks in
  prefixOff n' = prefixOff n /\ prefixLen n' = prefixLen n /\
  childIdx n' = childIdx n /\ rn_apiId n' = rn_apiId n.
Proof.
  revert n. induction ks as [|k ks IH]; intros n; [done|]. simpl.
  destruct (IH (set_mask_bit k n)) as (-> & -> & -> & ->).
  unfold set_mask_bit. by destruct (k <? 64).
Qed.

(** ** Sizes *)

Lemma tree_size_eq p a cs : tree_size (BNode p a cs) = S (sum_list_with tree_size cs.*2).
Proof. simpl. f_equal. induction cs as [|[k c] cs IH]; [done|]. simpl. by rewrite IH. Qed.

(** The number of prefix bytes of a tree: the length of its prefix table. *)
Fixpoint tree_bytes (bn : BuilderNode) : nat :=
  match bn with
  | BNode p _ children =>
    length p + (fix sum (cs : list (Z * BuilderNode)) : nat :=
          match cs with [] => O | (_, c) :: cs' => tree_bytes c + sum cs' end)%nat children
  end.

Lemma tree_bytes_eq p a cs :
  tree_bytes (BNode p a cs) = (length p + sum_list_with tree_bytes cs.*2)%nat.
Proof. simpl. f_equal. induction cs as [|[k c] cs IH]; [done|]. simpl. by rewrite IH. Qed.

Definition desc_size (t : BuilderNode) : nat := sum_list_with tree_size (bn_children t).*2.
Definition desc_bytes (t : BuilderNode) : nat := sum_list_with tree_bytes (bn_children t).*2.

Lemma sorted_children_perm t :
  NoDup (bn_children t).*1 -> sorted_children t ≡ₚ bn_children t.
Proof.
  intros Hnd. destruct (sorted_children_spec t Hnd) as [Hk Hv].
  apply NoDup_Permutation.
  - eapply NoDup_fmap_1, sorted_children_NoDup; done.
  - by eapply NoDup_fmap_1.
  - intros [k c]. split; [by intros ?%Hv%aget_Some_In|].
    intros H. apply aget_In_Some in H as E; [|done].
    assert (k ∈ (sorted_children t).*1) as Hin by (apply sorted_children_elem; eauto).
    apply list_elem_of_fmap in Hin as ([k' c'] & -> & Hin). simpl in *.
    apply Hv in Hin as E'. congruence.
Qed.

Lemma desc_size_sorted t :
  NoDup (bn_children t).*1 -> desc_size t = sum_list_with tree_size (sorted_children t).*2.
Proof.
  intros. unfold desc_size. by rewrite sorted_children_perm.
Qed.

Lemma desc_bytes_sorted t :
  NoDup (bn_children t).*1 -> desc_bytes t = sum_list_with tree_bytes (sorted_children t).*2.
Proof.
  intros. unfold desc_bytes. by rewrite sorted_children_perm.
Qed.

(** Every prefix of the tree satisfies [P]. *)
Inductive each_prefix (P : byte_string -> Prop) : BuilderNode -> Prop :=
| each_BNode p a cs :
    P p -> (forall k c, (k, c) ∈ cs -> each_prefix P c) -> each_prefix P (BNode p a cs).

(** ** The state of the bake loop in closed form *)

Fixpoint fresh_nodes (off : nat) (cs : list BuilderNode) : list RouteNode :=
  match cs with
  | [] => []
  | c :: cs' => fresh_node (Z.of_nat off) c :: fresh_nodes (off + length (bn_prefix c)) cs'
  end.

Definition prefixes (cs : list BuilderNode) : byte_string := mjoin (bn_prefix <$> cs).

Fixpoint tasks (n : nat) (cs : list BuilderNode) : list (BuilderNode * nat) :=
  match cs with [] => [] | c :: cs' => (c, n) :: tasks (S n) cs' end.

Lemma bake_children_closed idx kcs nodes table queue :
  (idx < length nodes)%nat ->
  foldl (bake_child idx) (mkBake nodes table queue) kcs =
  mkBake (alter (fun n => foldl (fun n b => set_mask_bit b n) n kcs.*1) idx nodes
            ++ fresh_nodes (length table) kcs.*2)
         (table ++ prefixes kcs.*2)
         (queue ++ tasks (length nodes) kcs.*2).
Proof.
  revert nodes table queue. induction kcs as [|[k c] kcs IH]; intros nodes table queue Hi.
  { simpl. rewrite list_alter_id, !app_nil_r by done. done. }
  change (foldl (bake_child idx) (mkBake nodes table queue) ((k, c) :: kcs))
    with (foldl (bake_child idx) (bake_child idx (mkBake nodes table queue) (k, c)) kcs).
  unfold bake_child at 2. cbn [bk_nodes bk_table bk_queue].
  rewrite IH by (rewrite length_app, length_alter; simpl; lia).
  rewrite alter_app_l, list_alter_alter_eq by (rewrite length_alter; done).
  rewrite !length_app, length_alter, Nat.add_1_r. unfold prefixes. simpl.
  by rewrite <- !app_assoc.
Qed.

Lemma tasks_app n cs1 cs2 : tasks n (cs1 ++ cs2) = tasks n cs1 ++ tasks (n + length cs1) cs2.
Proof.
  revert n. induction cs1 as [|c cs1 IH]; intros n; simpl; [by rewrite Nat.add_0_r|].
  rewrite IH. by rewrite Nat.add_succ_r.
Qed.

(** ** Representation *)

(** The header of [n] describes [t]: its prefix in the table and its id. *)
Definition header (table : byte_string) (n : RouteNode) (t : BuilderNode) : Prop :=
  exists off : nat,
    prefixOff n = Z.of_nat off /\ prefixLen n = Z.of_nat (length (bn_prefix t)) /\
    (off + length (bn_prefix t) <= length table)%nat /\
    take (length (bn_prefix t)) (drop off table) = bn_prefix t /\
    rn_apiId n = bn_apiId t.

(** The children of [t] are laid out at [childIdx n], in key order. *)
Definition linked (trees : list BuilderNode) (n : RouteNode) (t : BuilderNode) : Prop :=
  masks_ok (sorted_children t).*1 n /\
  forall j k c, sorted_children t !! j = Some (k, c) ->
                0 <= childIdx n /\ trees !! (Z.to_nat (childIdx n) + j)%nat = Some c.

Lemma header_app table tl n t : header table n t -> header (table ++ tl) n t.
Proof.
  intros (off & ? & ? & ? & Ht & ?). exists off.
  rewrite length_app, drop_app_le, take_app_le; [|rewrite length_drop; lia|lia].
  repeat split; try done; lia.
Qed.

Lemma linked_app trees tl n t : linked trees n t -> linked (trees ++ tl) n t.
Proof.
  intros (Hm & Hc). split; [done|].
  intros j k c Hj. apply Hc in Hj as [? Hj]. split; [done|]. by apply lookup_app_l_Some.
Qed.

Lemma header_fields table n n' t :
  prefixOff n' = prefixOff n -> prefixLen n' = prefixLen n -> rn_apiId n' = rn_apiId n ->
  header table n t -> header table n' t.
Proof. unfold header. by intros -> -> ->. Qed.

Lemma fresh_nodes_lookup cs off table i c :
  cs !! i = Some c -> length table = off -> Z.of_nat (off + length (prefixes cs)) < 2 ^ 32 ->
  Z.of_nat (length (bn_prefix c)) < 2 ^ 16 ->
  exists n, fresh_nodes off cs !! i = Some n /\ header (table ++ prefixes cs) n c /\
            maskLo n = 0 /\ maskHi n = 0.
Proof.
  revert off table i. induction cs as [|c0 cs IH]; intros off table i Hi Hoff Hb Hp; [done|].
  change (prefixes (c0 :: cs)) with (bn_prefix c0 ++ prefixes cs) in *.
  rewrite length_app in Hb. destruct i as [|i].
  - injection Hi as ->. eexists. split; [done|]. split; [|done].
    exists off. unfold fresh_node. cbn [prefixOff prefixLen rn_apiId].
    rewrite !wrapu_small by lia. rewrite <- Hoff, drop_app_length, take_app_length, !length_app.
    repeat split; try done; lia.
  - simpl in Hi. rewrite app_assoc.
    apply (IH _ (table ++ bn_prefix c0)); [done|rewrite length_app; lia| |done].
    lia.
Qed.

Lemma length_fresh_nodes off cs : length (fresh_nodes off cs) = length cs.
Proof. revert off. induction cs; intros off; simpl; auto. Qed.

Lemma length_prefixes cs :
  (length (prefixes cs) + sum_list_with desc_bytes cs = sum_list_with tree_bytes cs)%nat.
Proof.
  induction cs as [|[p a ccs] cs IH]; [done|].
  change (prefixes (BNode p a ccs :: cs)) with (p ++ prefixes cs).
  change (sum_list_with ?f (?x :: ?l)) with (f x + sum_list_with f l)%nat.
  rewrite length_app, tree_bytes_eq. unfold desc_bytes at 1. simpl bn_children. lia.
Qed.

Lemma tree_size_desc cs :
  (length cs + sum_list_with desc_size cs = sum_list_with tree_size cs)%nat.
Proof.
  induction cs as [|[p a ccs] cs IH]; [done|].
  change (sum_list_with ?f (?x :: ?l)) with (f x + sum_list_with f l)%nat.
  rewrite tree_size_eq. unfold desc_size at 1. simpl. lia.
Qed.

(** ** The loop invariant *)

(** The routes the theorems cover: ASCII, and short enough for [prefixLen]. *)
Definition route_prefix (p : byte_string) : Prop :=
  Z.of_nat (length p) < 2 ^ 16 /\ Forall is_ascii p.

Record bake_inv (nb nn h : nat) (trees : list BuilderNode) (s : bake_state) : Prop := {
  inv_len : length trees = length (bk_nodes s);
  inv_pos : (h <= length trees)%nat;
  inv_queue : bk_queue s = tasks h (drop h trees);
  inv_nodes : forall i t, trees !! i = Some t ->
    exists n, bk_nodes s !! i = Some n /\ header (bk_table s) n t /\
      if (i <? h)%nat then linked trees n t else maskLo n = 0 /\ maskHi n = 0;
  inv_bytes : (length (bk_table s) + sum_list_with desc_bytes (drop h trees) = nb)%nat;
  inv_count : (length trees + sum_list_with desc_size (drop h trees) = nn)%nat;
  inv_wf : forall t, t ∈ trees -> wf_tree t /\ each_prefix route_prefix t
}.

Lemma inv_head nb nn h trees s t idx queue' :
  bake_inv nb nn h trees s -> bk_queue s = (t, idx) :: queue' ->
  idx = h /\ drop h trees = t :: drop (S h) trees /\ queue' = tasks (S h) (drop (S h) trees).
Proof.
  intros Hi Hq. rewrite (inv_queue _ _ _ _ _ Hi) in Hq.
  destruct (drop h trees) as [|t0 l] eqn:Ed; [done|]. simpl in Hq. injection Hq as E1 E2 E3. subst t0 idx queue'.
  assert (drop (S h) trees = l) as ->; [|done].
  change (S h) with (1 + h)%nat. rewrite Nat.add_comm, <- drop_drop, Ed. done.
Qed.

Lemma wf_NoDup t : wf_tree t -> NoDup (bn_children t).*1.
Proof. by inversion 1. Qed.

Lemma sorted_child_of t c :
  wf_tree t -> each_prefix route_prefix t -> c ∈ (sorted_children t).*2 ->
  wf_tree c /\ each_prefix route_prefix c.
Proof.
  intros Hw Hs. rewrite sorted_children_perm by by apply wf_NoDup.
  intros ([k c'] & -> & Hin)%list_elem_of_fmap. simpl.
  inversion Hw as [??? Hn Hc Hp]; subst. inversion Hs as [???? Hcs]; subst. eauto.
Qed.

(** Keys are the first bytes of prefixes. *)
Definition ascii_keys (t : BuilderNode) : Prop :=
  forall k, k ∈ (sorted_children t).*1 -> is_ascii k.

Lemma each_prefix_root P t : each_prefix P t -> P (bn_prefix t).
Proof. by inversion 1. Qed.

Lemma tree_ascii_keys t : wf_tree t -> each_prefix route_prefix t -> ascii_keys t.
Proof.
  intros Hw Hs k ([k' c] & -> & Hin)%list_elem_of_fmap. simpl.
  rewrite sorted_children_perm in Hin by by apply wf_NoDup.
  inversion Hw as [??? Hn Hc Hp]; subst. inversion Hs as [???? Hcs]; subst.
  destruct (Hp _ _ Hin) as [p' Ep]. apply Hcs, each_prefix_root in Hin as [_ Ha].
  rewrite Ep in Ha. by inversion Ha.
Qed.

(** The table and the node list after one iteration of the loop. *)
Lemma bake_task_closed t h s :
  (h < length (bk_nodes s))%nat -> NoDup (bn_children t).*1 ->
  exists f,
    bake_task t h s =
    mkBake (alter f h (bk_nodes s) ++ fresh_nodes (length (bk_table s)) (sorted_children t).*2)
           (bk_table s ++ prefixes (sorted_children t).*2)
           (bk_queue s ++ tasks (length (bk_nodes s)) (sorted_children t).*2) /\
    forall n, maskLo n = 0 -> maskHi n = 0 -> ascii_keys t ->
      prefixOff (f n) = prefixOff n /\ prefixLen (f n) = prefixLen n /\
      rn_apiId (f n) = rn_apiId n /\ masks_ok (sorted_children t).*1 (f n) /\
      (sorted_children t <> [] -> childIdx (f n) = u32 (Z.of_nat (length (bk_nodes s)))) /\
      (sorted_children t = [] -> f n = n).
Proof.
  intros Hh Hnd. unfold bake_task. pose proof (sorted_children_length t Hnd) as Hlen.
  destruct s as [nodes table queue]. cbn [bk_nodes bk_table bk_queue] in *.
  destruct (Nat.eqb_spec (length (bn_children t)) 0) as [E|E].
  - exists id. rewrite E in Hlen. apply length_zero_iff_nil in Hlen. rewrite Hlen.
    unfold prefixes. simpl. rewrite list_alter_id, !app_nil_r by done. split; [done|].
    intros n Hlo Hhi _. repeat split; try done; rewrite ?Hlo, ?Hhi; apply mask_repr_nil.
  - rewrite bake_children_closed by by rewrite length_alter.
    rewrite list_alter_alter_eq, length_alter. eexists. split; [done|].
    intros n Hlo Hhi Hk. unfold compose.
    destruct (mask_fold_fields (sorted_children t).*1
      (set_children (Z.of_nat (length nodes)) (Z.of_nat (length (bn_children t))) n))
      as (-> & -> & Hc & ->).
    do 3 (split; [done|]). split; [|split; [done|]].
    + eapply masks_ok_perm; [|apply (masks_fold _ []); [intros k' Hk'; apply Hk, Hk'|]].
      * intros i. by rewrite app_nil_r.
      * split; simpl; rewrite ?Hlo, ?Hhi; apply mask_repr_nil.
    + intros C. rewrite C in Hlen. done.
Qed.

(** The node of the task, once its children are laid out after the arena. *)
Lemma task_node_linked trees (nodes : list RouteNode) table h t n f :
  wf_tree t -> each_prefix route_prefix t -> length trees = length nodes ->
  Z.of_nat (length nodes) < 2 ^ 32 ->
  header table n t ->
  prefixOff (f n) = prefixOff n /\ prefixLen (f n) = prefixLen n /\
    rn_apiId (f n) = rn_apiId n /\ masks_ok (sorted_children t).*1 (f n) /\
    (sorted_children t <> [] -> childIdx (f n) = u32 (Z.of_nat (length nodes))) /\
    (sorted_children t = [] -> f n = n) ->
  header (table ++ prefixes (sorted_children t).*2) (f n) t /\
  if (h <? S h)%nat then linked (trees ++ (sorted_children t).*2) (f n) t else maskLo (f n) = 0 /\ maskHi (f n) = 0.
Proof.
  intros Hwt Hst Hlen Hnn Hh (E1 & E2 & E3 & Hm & Hci & Hnil).
  split; [by apply header_app; eapply header_fields|].
  rewrite (proj2 (Nat.ltb_lt h (S h))) by lia.
  split; [done|]. intros j k c Hj.
  assert (sorted_children t <> []) as Hnn' by (intros C; by rewrite C in Hj).
  rewrite (Hci Hnn'), wrapu_small by lia. split; [lia|].
  rewrite Nat2Z.id, <- Hlen, lookup_app_r, Nat.add_sub' by lia.
  by rewrite list_lookup_fmap, Hj.
Qed.

(** One iteration lays out the children of the node at the front of the queue. *)
Lemma bake_inv_step nb nn h trees s t queue' :
  bake_inv nb nn h trees s -> bk_queue s = (t, h) :: queue' ->
  Z.of_nat nb < 2 ^ 32 -> Z.of_nat nn < 2 ^ 32 ->
  bake_inv nb nn (S h) (trees ++ (sorted_children t).*2)
    (bake_task t h (mkBake (bk_nodes s) (bk_table s) queue')).
Proof.
  intros Hi Hq Hnb Hnn. destruct (inv_head _ _ _ _ _ _ _ _ Hi Hq) as (_ & Hd & ->).
  destruct Hi as [Hlen Hpos _ Hnodes Hbytes Hcount Hwf]. destruct s as [nodes table queue].
  cbn [bk_nodes bk_table bk_queue] in *.
  assert (trees !! h = Some t) as Ht.
  { rewrite <- (Nat.add_0_r h), <- lookup_drop, Hd. done. }
  apply lookup_lt_Some in Ht as Hh.
  destruct (Hwf t) as [Hwt Hst]; [by eapply list_elem_of_lookup_2|].
  pose proof (wf_NoDup _ Hwt) as Hnd.
  destruct (bake_task_closed t h (mkBake nodes table (tasks (S h) (drop (S h) trees))))
    as (f & -> & Hf); [simpl; lia|done|]. cbn [bk_nodes bk_table bk_queue] in *.
  rewrite Hd in Hbytes, Hcount. simpl in Hbytes, Hcount.
  rewrite desc_bytes_sorted, <- length_prefixes in Hbytes by done.
  rewrite desc_size_sorted, <- tree_size_desc in Hcount by done.
  split; cbn [bk_nodes bk_table bk_queue].
  - rewrite !length_app, length_alter, length_fresh_nodes. lia.
  - rewrite length_app. lia.
  - rewrite drop_app_le, tasks_app, length_drop by lia. do 2 f_equal. lia.
  - intros i t' Hi'. apply lookup_app_Some in Hi' as [Hi'|[Hge Hi']].
    + destruct (Hnodes _ _ Hi') as (n & Hn & Hh' & Hlink).
      rewrite lookup_app_l by (rewrite length_alter; by eapply lookup_lt_Some).
      destruct (decide (i = h)) as [->|Hne].
      * rewrite list_lookup_alter_eq, Hn. eexists. split; [done|].
        assert (t' = t) as -> by congruence.
        rewrite (proj2 (Nat.ltb_ge h h)) in Hlink by lia. destruct Hlink as [Hlo Hhi].
        apply (task_node_linked _ nodes); try done; [lia|].
        by apply Hf; [| |apply tree_ascii_keys].
      * rewrite list_lookup_alter_ne by done. exists n. split; [done|].
        split; [by apply header_app|].
        destruct (Nat.ltb_spec i h), (Nat.ltb_spec i (S h)); try lia.
        by apply linked_app.
    + destruct (fresh_nodes_lookup (sorted_children t).*2 (length table) table (i - length trees) t')
        as (n & Hn & Hhd & Hlo & Hhi); [done|done|lia| |].
      { apply list_elem_of_lookup_2, sorted_child_of in Hi' as [_ Hs']; [|done|done].
        by apply each_prefix_root in Hs' as [? _]. }
      exists n. rewrite lookup_app_r, length_alter, <- Hlen by (rewrite length_alter; lia).
      split; [done|]. split; [done|].
      by rewrite (proj2 (Nat.ltb_ge i (S h))) by lia.
  - rewrite drop_app_le, sum_list_with_app, length_app by lia. lia.
  - rewrite drop_app_le, sum_list_with_app, length_app by lia. lia.
  - intros t' [H|H]%elem_of_app; [by apply Hwf|]. by eapply sorted_child_of.
Qed.

(** ** The baked arena represents the tree *)

(** Each arena node stands for one node of the tree, with its children. *)
Definition represents (arena : list RouteNode) (table : byte_string)
    (trees : list BuilderNode) : Prop :=
  length trees = length arena /\ Z.of_nat (length arena) < 2 ^ 32 /\
  Z.of_nat (length table) < 2 ^ 32 /\
  (forall t, t ∈ trees -> wf_tree t /\ each_prefix route_prefix t) /\
  forall i t, trees !! i = Some t ->
    exists n, arena !! i = Some n /\ header table n t /\ linked trees n t.

Lemma bake_loop_spec nb nn fuel h trees s :
  bake_inv nb nn h trees s -> Z.of_nat nb < 2 ^ 32 -> Z.of_nat nn < 2 ^ 32 ->
  (nn - h <= fuel)%nat ->
  exists arena table trees', bake_loop fuel s = Ret (arena, table) /\
    represents arena table trees' /\ (forall t, trees !! 0%nat = Some t -> trees' !! 0%nat = Some t).
Proof.
  revert h trees s. induction fuel as [|fuel IH]; intros h trees s Hi Hnb Hnn Hf;
    destruct (bk_queue s) as [|[t idx] queue'] eqn:Hq.
  1,3: simpl; rewrite Hq; eexists _, _, trees; split; [done|]; split; [|done].
  1,2: rewrite (inv_queue _ _ _ _ _ Hi) in Hq.
  1,2: assert (length (drop h trees) = 0%nat) as E by by destruct (drop h trees).
  1,2: rewrite length_drop in E; destruct Hi as [Hlen Hpos _ Hnodes Hbytes Hcount Hwf].
  1,2: split; [done|]; split; [lia|]; split; [lia|]; split; [done|].
  1,2: intros i t Ht; destruct (Hnodes _ _ Ht) as (n & ? & ? & Hl); exists n.
  1,2: apply lookup_lt_Some in Ht; rewrite (proj2 (Nat.ltb_lt i h)) in Hl by lia; done.
  - destruct (inv_head _ _ _ _ _ _ _ _ Hi Hq) as (-> & Hd & _).
    apply (f_equal length) in Hd. rewrite length_drop in Hd. simpl in Hd.
    pose proof (inv_count _ _ _ _ _ Hi). lia.
  - destruct (inv_head _ _ _ _ _ _ _ _ Hi Hq) as (-> & Hd & _).
    simpl. rewrite Hq.
    destruct (IH (S h) _ _ (bake_inv_step _ _ _ _ _ _ _ Hi Hq Hnb Hnn) Hnb Hnn)
      as (arena & table & trees' & Hr & Hrep & Hroot); [lia|].
    exists arena, table, trees'. split; [done|]. split; [done|].
    intros t0 Ht0. apply Hroot. by apply lookup_app_l_Some.
Qed.

Lemma bake_inv_init t :
  wf_tree t -> each_prefix route_prefix t ->
  bake_inv (tree_bytes t) (tree_size t) 0 [t] (mkBake [fresh_node 0 t] (bn_prefix t) [(t, O)]).
Proof.
  intros Hw Hs. split; cbn [bk_nodes bk_table bk_queue]; try done.
  - simpl. lia.
  - intros [|i] t' Ht'; [|done]. injection Ht' as <-. eexists. split; [done|]. split; [|done].
    exists 0%nat. unfold fresh_node. simpl prefixOff. simpl prefixLen.
    apply each_prefix_root in Hs as [Hs _]. rewrite !wrapu_small by lia.
    rewrite drop_0, firstn_all. repeat split; lia.
  - destruct t as [p a cs]. rewrite tree_bytes_eq. simpl. unfold desc_bytes. simpl. lia.
  - destruct t as [p a cs]. rewrite tree_size_eq. simpl. unfold desc_size. simpl. lia.
  - by intros t' ->%list_elem_of_singleton.
Qed.

(** [BakeToArena] terminates and its arena represents the tree. *)
Lemma BakeToArena_spec t :
  wf_tree t -> each_prefix route_prefix t ->
  Z.of_nat (tree_bytes t) < 2 ^ 32 -> Z.of_nat (tree_size t) < 2 ^ 32 ->
  exists arena table trees, BakeToArena t = Ret (arena, table) /\
    represents arena table trees /\ trees !! 0%nat = Some t.
Proof.
  intros Hw Hs Hb Hn. unfold BakeToArena.
  destruct (bake_loop_spec _ _ (tree_size t) _ _ _ (bake_inv_init t Hw Hs) Hb Hn)
    as (arena & table & trees & Hr & Hrep & H0); [lia|].
  exists arena, table, trees. split; [done|]. split; [done|]. by apply H0.
Qed.

(** ** The child lookup of a node *)

Lemma land_ones64 m : 0 <= m < 2 ^ 64 -> Z.land m ones64 = m.
Proof.
  intros H. change ones64 with (Z.ones 64). rewrite Z.land_ones by lia. by apply Z.mod_small.
Qed.

Lemma shl1_small b : 0 <= b < 64 -> shl 64 1 b = 2 ^ b.
Proof.
  intros H. unfold shl. rewrite Z.shiftl_1_l. apply wrapu_small.
  split; [lia|]. apply Z.pow_lt_mono_r; lia.
Qed.

Lemma shl1_pred b : 0 <= b < 64 -> u64 (shl 64 1 b - 1) = 2 ^ b - 1.
Proof.
  intros H. rewrite shl1_small by done. apply wrapu_small.
  pose proof (Z.pow_lt_mono_r 2 b 64). assert (0 < 2 ^ b) by lia. lia.
Qed.

(** The branch-free mask selection picks the low mask below 64 ... *)
Lemma select_lo n b : 0 <= b < 64 -> 0 <= maskLo n < 2 ^ 64 ->
  let sel := u64 (Z.shiftr b 6 * ones64) in
  Z.lor (Z.land (maskLo n) (notu 64 sel)) (Z.land (maskHi n) sel) = maskLo n /\
  Z.shiftr b 6 = 0 /\ Z.land b 63 = b.
Proof.
  intros Hb Hm sel.
  assert (Z.shiftr b 6 = 0) as E by (rewrite Z.shiftr_div_pow2 by lia; apply Z.div_small; lia).
  assert (sel = 0) as Es by (unfold sel; rewrite E; done). rewrite Es.
  change (notu 64 0) with ones64. rewrite land_ones64, Z.land_0_r, Z.lor_0_r by done.
  split; [done|]. split; [done|].
  change 63 with (Z.ones 6). rewrite Z.land_ones by lia. apply Z.mod_small. lia.
Qed.

(** ... and the high mask from 64 to 127. *)
Lemma select_hi n b : 64 <= b < 128 -> 0 <= maskHi n < 2 ^ 64 ->
  let sel := u64 (Z.shiftr b 6 * ones64) in
  Z.lor (Z.land (maskLo n) (notu 64 sel)) (Z.land (maskHi n) sel) = maskHi n /\
  Z.shiftr b 6 = 1 /\ Z.land b 63 = b - 64.
Proof.
  intros Hb Hm sel.
  assert (Z.shiftr b 6 = 1) as E.
  { rewrite Z.shiftr_div_pow2 by lia. symmetry. apply (Z.div_unique_pos _ _ _ (b - 64)); lia. }
  assert (sel = ones64) as Es by (unfold sel; rewrite E; done). rewrite Es.
  change (notu 64 ones64) with 0. rewrite land_ones64, Z.land_0_r, Z.lor_0_l by done.
  split; [done|]. split; [done|].
  change 63 with (Z.ones 6). rewrite Z.land_ones by lia.
  symmetry. apply (Z.mod_unique_pos _ _ 1); lia.
Qed.

Lemma memb_lo ks b : b < 64 -> memb (lo_keys ks) b = memb ks b.
Proof.
  intros H. unfold memb, lo_keys. apply bool_decide_ext.
  rewrite list_elem_of_filter. tauto.
Qed.

Lemma memb_hi ks b : 64 <= b -> memb (hi_keys ks) (b - 64) = memb ks b.
Proof.
  intros H. unfold memb, hi_keys. apply bool_decide_ext.
  rewrite list_elem_of_fmap. setoid_rewrite list_elem_of_filter. split.
  - intros (k & E & _ & Hk). by replace b with k by lia.
  - intros Hb. by exists b.
Qed.

Lemma lo_keys_ok ks : NoDup ks -> (forall k, k ∈ ks -> is_ascii k) ->
  NoDup (lo_keys ks) /\ forall k, k ∈ lo_keys ks -> 0 <= k < 64.
Proof.
  intros Hnd Ha. split; [by apply NoDup_filter|].
  intros k [H1 H2]%list_elem_of_filter. apply Ha in H2. unfold is_ascii in H2. lia.
Qed.

Lemma hi_keys_ok ks : NoDup ks -> (forall k, k ∈ ks -> is_ascii k) ->
  NoDup (hi_keys ks) /\ forall k, k ∈ hi_keys ks -> 0 <= k < 64.
Proof.
  intros Hnd Ha. split.
  - apply NoDup_fmap; [intros x y; lia|]. by apply NoDup_filter.
  - intros k (k' & -> & [H1 H2]%list_elem_of_filter)%list_elem_of_fmap.
    apply Ha in H2. unfold is_ascii in H2. lia.
Qed.

(** [findChildIdx] in terms of the sorted keys: membership and rank. *)
Lemma findChildIdx_rank n b ks arena :
  masks_ok ks n -> NoDup ks -> (forall k, k ∈ ks -> is_ascii k) -> is_ascii b ->
  Z.of_nat (length ks) < 2 ^ 32 ->
  findChildIdx n b arena =
  if memb ks b
  then obind (go_index arena (u32 (childIdx n + Z.of_nat (length (below b ks)))))
             (fun c => Ret (Some c))
  else Ret None.
Proof.
  intros [Hlo Hhi] Hnd Ha Hb Hlen. unfold is_ascii in Hb.
  destruct (lo_keys_ok ks Hnd Ha) as [Hlnd Hlr]. destruct (hi_keys_ok ks Hnd Ha) as [Hhnd Hhr].
  pose proof (mask_repr_bound _ _ Hlo) as Blo. pose proof (mask_repr_bound _ _ Hhi) as Bhi.
  assert (length (below b ks) <= length ks)%nat as Hle by apply length_filter.
  unfold findChildIdx. destruct (Z_lt_le_dec b 64) as [Hb64|Hb64].
  - destruct (select_lo n b) as (-> & -> & ->); [lia|done|].
    rewrite (mask_bit _ _ b Hlo), memb_lo by lia. destruct (memb ks b); [|done]. cbn [negb].
    rewrite shl1_pred, (mask_rank _ _ b Hlo), <- below_lo by (done || lia).
    rewrite (wrapu_small 32 0), Z.mul_0_r by lia.
    rewrite (wrapu_small 32 0), Z.add_0_l, !(wrapu_small 32 (Z.of_nat _)) by lia. done.
  - destruct (select_hi n b) as (-> & -> & ->); [lia|done|].
    rewrite (mask_bit _ _ (b - 64) Hhi), memb_hi by lia. destruct (memb ks b); [|done]. cbn [negb].
    rewrite shl1_pred, (mask_rank _ _ (b - 64) Hhi) by (done || lia).
    rewrite (mask_popcount _ _ Hlo) by done. rewrite (below_hi ks b) in * by lia.
    rewrite (wrapu_small 32 1), Z.mul_1_r by lia.
    rewrite !(wrapu_small 32 (Z.of_nat _)) by lia.
    rewrite <- Nat2Z.inj_add, (wrapu_small 32 (Z.of_nat _)) by lia. done.
Qed.

(** Following a byte from a node of the arena reaches the child of the tree
    node it stands for, or nothing when the tree node has no such child. *)
Lemma findChildIdx_spec arena table trees i n t b :
  represents arena table trees -> trees !! i = Some t -> arena !! i = Some n ->
  linked trees n t -> is_ascii b ->
  match aget b (bn_children t) with
  | Some c => exists j n', findChildIdx n b arena = Ret (Some n') /\
                trees !! j = Some c /\ arena !! j = Some n' /\ header table n' c /\ linked trees n' c
  | None => findChildIdx n b arena = Ret None
  end.
Proof.
  intros (Hlen & Hn32 & _ & Hwf & Hrep) Ht Hn [Hm Hc] Hb.
  destruct (Hwf t) as [Hw Hs]; [by eapply list_elem_of_lookup_2|].
  pose proof (wf_NoDup _ Hw) as Hnd. pose proof (sorted_children_NoDup _ Hnd) as Hnd'.
  pose proof (sorted_children_elem t b Hnd) as Hin.
  assert (Z.of_nat (length (sorted_children t).*1) < 2 ^ 32) as Hl32.
  { rewrite length_fmap. destruct (sorted_children t) as [|[k c] l] eqn:E; [simpl; lia|].
    destruct (last (sorted_children t)) as [[k' c']|] eqn:El; [|by rewrite E, last_cons in El; destruct (last l)].
    rewrite last_lookup, E in El. destruct (Hc _ _ _ El) as [_ H].
    apply lookup_lt_Some in H. simpl in *. lia. }
  rewrite (findChildIdx_rank n b _ arena Hm) by (done || by apply tree_ascii_keys).
  unfold memb. destruct (aget b (bn_children t)) as [c|] eqn:Ec.
  - rewrite bool_decide_eq_true_2 by (apply Hin; eauto).
    pose proof (sorted_children_rank t b c Hnd Ec) as Hr.
    destruct (Hc _ _ _ Hr) as [H0 Htr]. destruct (Hrep _ _ Htr) as (n' & Hn' & Hh & Hlk).
    exists (Z.to_nat (childIdx n) + length (below b (sorted_children t).*1))%nat, n'.
    apply lookup_lt_Some in Hn' as Hlt.
    rewrite wrapu_small by lia.
    replace (childIdx n + Z.of_nat (length (below b (sorted_children t).*1))) with
      (Z.of_nat (Z.to_nat (childIdx n) + length (below b (sorted_children t).*1))) by lia.
    by rewrite (go_index_nat _ _ _ Hn').
  - by rewrite bool_decide_eq_false_2 by (rewrite Hin; by intros []).
Qed.

(** ** Lookup on the arena is the walk over the tree *)

Lemma strip_match pre input :
  strip pre input =
  if (length input <? length pre)%nat || negb (bool_decide (take (length pre) input = pre))
  then None else Some (drop (length pre) input).
Proof.
  destruct (strip pre input) as [r|] eqn:E.
  - apply strip_Some in E as ->. rewrite length_app, take_app_length, drop_app_length.
    rewrite (proj2 (Nat.ltb_ge _ _)) by lia. by rewrite bool_decide_eq_true_2.
  - destruct (Nat.ltb_spec (length input) (length pre)); [done|]. simpl.
    rewrite bool_decide_eq_false_2; [done|]. intros C. rewrite strip_None in E.
    apply (E (drop (length pre) input)). rewrite <- C at 1. by rewrite take_drop.
Qed.

Lemma header_slice table n t :
  header table n t -> Z.of_nat (length table) < 2 ^ 32 ->
  Z.of_nat (length (bn_prefix t)) < 2 ^ 16 ->
  go_slice table (prefixOff n) (u32 (prefixOff n + u32 (prefixLen n))) = Ret (bn_prefix t).
Proof.
  intros (off & -> & -> & Hle & Ht & _) Hb Hp.
  rewrite !wrapu_small by (rewrite ?wrapu_small; lia). unfold go_slice.
  rewrite (proj2 (Z.leb_le 0 _)), (proj2 (Z.leb_le (Z.of_nat off) _)), (proj2 (Z.leb_le _ (Z.of_nat (length table)))) by lia.
  simpl. rewrite Z.add_simpl_l, !Nat2Z.id. by rewrite Ht.
Qed.

Lemma lookup_loop_spec arena table trees fuel i n t input longest :
  represents arena table trees -> trees !! i = Some t -> arena !! i = Some n ->
  header table n t -> linked trees n t -> Forall is_ascii input ->
  (length input + nil_cost t < fuel)%nat ->
  lookup_loop fuel arena table n input longest = Ret (tlookup t input longest).
Proof.
  intros Hrep. revert i n t input longest.
  induction fuel as [|fuel IH]; intros i n t input longest Ht Hn Hh Hl Ha Hf; [lia|].
  pose proof Hrep as (Hlen & Hn32 & Ht32 & Hwf & _).
  destruct (Hwf t) as [Hw Hs]; [by eapply list_elem_of_lookup_2|].
  cbn [lookup_loop]. rewrite (header_slice _ _ _ Hh) by (done || by apply each_prefix_root in Hs as []).
  destruct Hh as (_ & _ & _ & _ & _ & Eid). cbn [obind]. rewrite Eid.
  destruct t as [pre a cs]. rewrite tlookup_eq, strip_match. cbn [bn_prefix bn_apiId] in *.
  destruct ((length input <? length pre)%nat || _) eqn:Em; [done|].
  destruct (drop (length pre) input) as [|b r] eqn:Ed; [done|].
  assert (Forall is_ascii (b :: r)) as Har by (rewrite <- Ed; by apply Forall_drop).
  assert (length (b :: r) = length input - length pre)%nat as Elen by (rewrite <- Ed; apply length_drop).
  pose proof (findChildIdx_spec _ _ _ _ _ _ b Hrep Ht Hn Hl) as Hfind.
  cbn [bn_children] in Hfind. destruct (aget b cs) as [c|] eqn:Ec.
  - destruct Hfind as (j & n' & -> & Htj & Hnj & Hhj & Hlj); [by inversion Har|].
    cbn [obind]. rewrite (IH j n' c) by
      (try done; destruct (wf_child _ _ _ _ _ Hw Ec) as [_ [p' Ep]];
       unfold nil_cost in *; rewrite Ep; cbn [bn_prefix is_nil] in *; destruct pre; simpl in *; lia).
    f_equal. f_equal. unfold claim. simpl. by destruct (a =? 0), (b =? slash).
  - rewrite Hfind by by inversion Har. cbn [obind]. f_equal. unfold claim. simpl.
    by destruct (a =? 0), (b =? slash).
Qed.
