(* ===== verification/RouterSpec.v ===== *)
(** * What the router promises

    The abstract router is a finite map from paths to API ids.  This file
    defines its lookup, shows that every router built by [Add] and [AddMany]
    implements it, and derives the longest-prefix and order-independence
    properties the gateway relies on. *)

From S2P Require Import Prelude Bits Router RouterTree RouterBake.
From stdpp Require Import base numbers list sorting gmap.

Local Open Scope Z_scope.
Local Open Scope rah_scope.

(** ** The abstract router *)

Definition ids (m : gmap byte_string Z) (q : byte_string) : Z := default 0 (m !! q).

(** The bytes by which registered paths leave [p]. *)
Definition next_bytes (m : gmap byte_string Z) (p : byte_string) : list Z :=
  omap (fun q => match strip p q with Some (b :: _) => Some b | _ => None end)
       (elements (dom m)).

Definition forked (m : gmap byte_string Z) (p : byte_string) : bool :=
  match next_bytes m p with
  | [] => false
  | b :: bs => existsb (fun b' => negb (b' =? b)) bs
  end.

(** What the arena computes, as a function of the route map: the longest
    registered prefix on a segment boundary, except that a path that is not
    registered but at which registered paths fork has no match.  The documented
    lookup is [longest_match] below; the two differ at unregistered forks only. *)
Definition spec_lookup (m : gmap byte_string Z) (path : byte_string) : Z :=
  if bool_decide (m !! path = None) && forked m path then 0 else best (ids m) path 0.

Definition spec_adds (m : gmap byte_string Z) (routes : list (byte_string * Z)) : gmap byte_string Z :=
  foldl (fun m pa => <[pa.1:=pa.2]> m) m routes.

Definition fork_point (m : gmap byte_string Z) (p : byte_string) : Prop :=
  exists b1 b2 s1 s2, b1 <> b2 /\ is_Some (m !! (p ++ b1 :: s1)) /\ is_Some (m !! (p ++ b2 :: s2)).

Lemma next_bytes_spec m p b :
  b ∈ next_bytes m p <-> exists s, is_Some (m !! (p ++ b :: s)).
Proof.
  unfold next_bytes. rewrite list_elem_of_omap. setoid_rewrite elem_of_elements.
  setoid_rewrite elem_of_dom. split.
  - intros (q & Hq & E). destruct (strip p q) as [[|b' s]|] eqn:Es; try done.
    injection E as ->. apply strip_Some in Es as ->. eauto.
  - intros (s & Hs). exists (p ++ b :: s). by rewrite strip_app.
Qed.

Lemma forked_spec m p : forked m p = true <-> fork_point m p.
Proof.
  unfold fork_point, forked. pose proof (next_bytes_spec m p) as Hn.
  destruct (next_bytes m p) as [|b bs] eqn:E.
  - split; [done|]. intros (b1 & b2 & s1 & s2 & _ & H1 & _).
    assert (b1 ∈ @nil Z) as []%not_elem_of_nil by (apply Hn; eauto).
  - rewrite existsb_exists. split.
    + intros (b' & Hb' & Hne). rewrite negb_true_iff, Z.eqb_neq in Hne.
      destruct (proj1 (Hn b')) as [s' ?]; [right; by apply list_elem_of_In|].
      destruct (proj1 (Hn b)) as [s ?]; [by left|]. eauto 8.
    + intros (b1 & b2 & s1 & s2 & Hne & H1 & H2).
      assert (b1 ∈ b :: bs) as [->|Hin1]%elem_of_cons by (apply Hn; eauto).
      * assert (b2 ∈ b :: bs) as [->|Hin2]%elem_of_cons by (apply Hn; eauto); [done|].
        exists b2. split; [by apply list_elem_of_In|].
        rewrite negb_true_iff, Z.eqb_neq. congruence.
      * destruct (Z.eq_dec b1 b) as [->|Hb1].
        -- assert (b2 ∈ b :: bs) as [->|Hin2]%elem_of_cons by (apply Hn; eauto); [done|].
           exists b2. split; [by apply list_elem_of_In|].
           rewrite negb_true_iff, Z.eqb_neq. congruence.
        -- exists b1. split; [by apply list_elem_of_In|].
           by rewrite negb_true_iff, Z.eqb_neq.
Qed.

(** ** Sizes and prefixes under [Add] *)

Lemma sum_aset_Some {V} (f : V -> nat) k (c c0 : V) cs :
  aget k cs = Some c0 ->
  (sum_list_with f (aset k c cs).*2 + f c0 = sum_list_with f cs.*2 + f c)%nat.
Proof.
  induction cs as [|[k' v] cs IH]; [done|]. csimpl. destruct (k =? k').
  - intros [= ->]. csimpl. lia.
  - intros E. csimpl. specialize (IH E). lia.
Qed.

Lemma sum_aset_None {V} (f : V -> nat) k (c : V) cs :
  aget k cs = None ->
  (sum_list_with f (aset k c cs).*2 = sum_list_with f cs.*2 + f c)%nat.
Proof.
  induction cs as [|[k' v] cs IH]; csimpl; [intros _; csimpl; lia|]. destruct (k =? k'); [done|].
  intros E. csimpl. specialize (IH E). lia.
Qed.

Lemma sum_single {V} (f : V -> nat) (k : Z) (c : V) : sum_list_with f [(k, c)].*2 = f c.
Proof. simpl. lia. Qed.

Lemma Add_fuel_sizes fuel t path name t' :
  Add_fuel fuel t path name = Some t' ->
  (tree_bytes t' <= tree_bytes t + length path)%nat /\ (tree_size t' <= tree_size t + 2)%nat.
Proof.
  revert t path t'. induction fuel as [|fuel IH]; intros [pre a cs] path t' Hadd; [done|].
  destruct (is_nil pre && is_nil cs) eqn:En.
  { destruct pre, cs; try done. injection Hadd as <-. simpl. lia. }
  destruct (common_len_spec path pre) as (com & r1 & r2 & -> & -> & El & Hd).
  rewrite (Add_fuel_unfold fuel _ a cs name com r1 r2) in Hadd by done.
  destruct r2 as [|b2 r2], r1 as [|b1 r1]; rewrite ?app_nil_r in *;
    [|destruct (aget b1 cs) as [c|] eqn:Ec; [destruct (Add_fuel fuel c (b1 :: r1) name) as [c'|] eqn:Ec'; [|done]|]| |];
    apply (inj Some) in Hadd as <-; rewrite ?tree_bytes_eq, ?tree_size_eq, ?length_app.
  - lia.
  - apply IH in Ec'. pose proof (sum_aset_Some tree_bytes _ c' _ _ Ec).
    pose proof (sum_aset_Some tree_size _ c' _ _ Ec). simpl in *. lia.
  - rewrite !(sum_aset_None _ _ _ _ Ec), tree_bytes_eq, tree_size_eq. simpl. lia.
  - rewrite !sum_single, tree_bytes_eq, tree_size_eq. simpl. lia.
  - rewrite !(sum_aset_None _ b1) by (simpl; by rewrite (proj2 (Z.eqb_neq b1 b2))).
    rewrite !sum_single, !tree_bytes_eq, !tree_size_eq. simpl. lia.
Qed.

Lemma route_prefix_app p q : route_prefix (p ++ q) -> route_prefix p /\ route_prefix q.
Proof.
  unfold route_prefix. rewrite length_app, Forall_app. intros [? []]. split; split; (done || lia).
Qed.

Lemma each_prefix_aset P p a cs k c p2 a2 :
  each_prefix P (BNode p a cs) -> P p2 -> each_prefix P c ->
  each_prefix P (BNode p2 a2 (aset k c cs)).
Proof.
  inversion 1 as [???? Hcs]; subst. intros Hp Hc. constructor; [done|].
  intros k0 c0 [[= -> ->]|]%aset_In; eauto.
Qed.

Lemma each_prefix_leaf (P : byte_string -> Prop) p a : P p -> each_prefix P (BNode p a []).
Proof. intros Hp. constructor; [done|]. by intros k c ?%not_elem_of_nil. Qed.

Lemma Add_fuel_prefixes fuel t path name t' :
  each_prefix route_prefix t -> route_prefix path ->
  Add_fuel fuel t path name = Some t' -> each_prefix route_prefix t'.
Proof.
  revert t path t'. induction fuel as [|fuel IH]; intros [pre a cs] path t' He Hp Hadd; [done|].
  destruct (is_nil pre && is_nil cs) eqn:En.
  { destruct pre, cs; try done. injection Hadd as <-. by apply each_prefix_leaf. }
  destruct (common_len_spec path pre) as (com & r1 & r2 & -> & -> & El & Hd).
  rewrite (Add_fuel_unfold fuel _ a cs name com r1 r2) in Hadd by done.
  apply route_prefix_app in Hp as [Hcom Hr1]. inversion He as [??? Hpre Hcs]; subst.
  apply route_prefix_app in Hpre as [_ Hr2].
  destruct r2 as [|b2 r2], r1 as [|b1 r1]; rewrite ?app_nil_r in *;
    [|destruct (aget b1 cs) as [c|] eqn:Ec; [destruct (Add_fuel fuel c (b1 :: r1) name) as [c'|] eqn:Ec'; [|done]|]| |];
    apply (inj Some) in Hadd as <-.
  - by constructor.
  - eapply each_prefix_aset; [done|done|]. apply (IH c (b1 :: r1)); [|done|done].
    eapply Hcs. by apply aget_Some_In.
  - eapply each_prefix_aset; [done|done|]. by apply each_prefix_leaf.
  - apply (each_prefix_aset _ com 0 []); [by apply each_prefix_leaf|done|by constructor].
  - eapply (each_prefix_aset _ com 0); [|done|by apply each_prefix_leaf].
    apply (each_prefix_aset _ com 0 []); [by apply each_prefix_leaf|done|by constructor].
Qed.

(** ** The simulation *)

(** A route the gateway can register: a non-empty ASCII path of less than
    2^16 bytes with a non-zero API id. *)
Definition valid_route (pa : byte_string * Z) : Prop :=
  pa.1 <> [] /\ route_prefix pa.1 /\ 0 < pa.2.

(** The tree [t] of a builder implements the map [m], within a budget of [nb]
    prefix bytes and [nn] nodes. *)
Record tree_rel (nb nn : nat) (t : BuilderNode) (m : gmap byte_string Z) : Prop := {
  tr_wf : wf_tree t;
  tr_prefix : each_prefix route_prefix t;
  tr_root : tid t [] = 0;
  tr_ids : forall q, q <> [] -> tid t q = ids m q;
  tr_reg : forall q, is_Some (m !! q) -> node_at t q;
  tr_nodes : forall q, node_at t q -> q = [] \/ is_Some (m !! q) \/ fork_point m q;
  tr_pos : forall q a, m !! q = Some a -> 0 < a /\ q <> [];
  tr_bytes : (tree_bytes t <= nb)%nat;
  tr_size : (tree_size t <= nn)%nat
}.

Lemma tree_rel_le nb nn nb' nn' t m :
  tree_rel nb nn t m -> (nb <= nb')%nat -> (nn <= nn')%nat -> tree_rel nb' nn' t m.
Proof. intros [] ? ?. split; (done || lia). Qed.

Lemma tree_rel_new : tree_rel 0 1 NewBuilder ∅.
Proof.
  split; simpl; try (done || lia).
  - apply wf_leaf.
  - apply each_prefix_leaf. split; [done|constructor].
  - intros q Hq. unfold NewBuilder, ids. rewrite tid_leaf, lookup_empty. by case_bool_decide.
  - intros q [a H]. by rewrite lookup_empty in H.
  - intros q [->|(b & r & c & _ & ? & _)]%node_at_eq; [by left|done].
Qed.

Lemma fork_point_insert m p a q : fork_point m q -> fork_point (<[p:=a]> m) q.
Proof.
  intros (b1 & b2 & s1 & s2 & Hne & H1 & H2). exists b1, b2, s1, s2.
  split; [done|]. by rewrite !lookup_insert_is_Some'; auto.
Qed.

(** Below every node of the tree there is a registered path. *)
Lemma node_extension m q :
  is_Some (m !! q) \/ fork_point m q -> exists s, is_Some (m !! (q ++ s)).
Proof.
  intros [H|(b1 & _ & s1 & _ & _ & H & _)]; [exists []; by rewrite app_nil_r|eauto].
Qed.

Lemma tree_rel_add nb nn t m path a :
  tree_rel nb nn t m -> valid_route (path, a) ->
  exists t', BuilderAdd t path a = Ret t' /\
    tree_rel (nb + length path) (nn + 2) t' (<[path:=a]> m).
Proof.
  intros [Hwf Hpre Hroot Hids Hreg Hnodes Hpos Hb Hn] (Hp & Hrp & Ha). simpl in *.
  destruct (Add_spec t path a) as (t' & Hadd & Hwf' & Hroot' & Hid' & _); try done.
  exists t'. split; [done|].
  destruct (BuilderAdd_nodes _ _ _ _ Hwf Hp Hadd) as (Hn1 & Hn2 & Hn3).
  unfold BuilderAdd in Hadd. destruct (Add_fuel _ t path a) as [t0|] eqn:Ef; [|done].
  injection Hadd as ->. destruct (Add_fuel_sizes _ _ _ _ _ Ef).
  split; try (done || lia).
  - by eapply Add_fuel_prefixes.
  - intros q Hq. rewrite Hid' by done. unfold ids. rewrite lookup_insert.
    case_bool_decide; case_decide; try congruence; [done|]. by rewrite Hids.
  - intros q. rewrite lookup_insert_is_Some'. intros [->|Hq]; [done|].
    apply Hn2; [by destruct Hq as [? [_ ?]%Hpos]|auto].
  - intros q Hq. destruct (Hn3 _ Hq) as [->|[Hq0|(x & y & s1 & s2 & Hxy & -> & Hy)]].
    + right. left. rewrite lookup_insert_is_Some'. by left.
    + destruct (Hnodes _ Hq0) as [->|[Hm|Hf]]; [by left| |].
      * right. left. rewrite lookup_insert_is_Some'. by right.
      * right. right. by apply fork_point_insert.
    + destruct (Hnodes _ Hy) as [C|Hm]; [by destruct q|].
      destruct (node_extension _ _ Hm) as [s Hs]. right. right.
      exists x, y, s1, (s2 ++ s). split; [done|]. rewrite !lookup_insert_is_Some'.
      split; [by left|right]. by rewrite <- app_assoc in Hs.
  - intros q b. rewrite lookup_insert. case_decide as E; [intros [= <-]; by subst|apply Hpos].
Qed.

(** A router implements the map [m]. *)
Definition router_rel (nb nn : nat) (r : RahRouter) (m : gmap byte_string Z) : Prop :=
  tree_rel nb nn (builder r) m /\
  ((snap_arena r = [] /\ m = ∅) \/
   exists trees, represents (snap_arena r) (snap_table r) trees /\
                 trees !! 0%nat = Some (builder r)).

Lemma router_rel_new : router_rel 0 1 RouterNew ∅.
Proof. split; [apply tree_rel_new|by left]. Qed.

Lemma router_bake nb nn t m :
  tree_rel nb nn t m -> Z.of_nat nb < 2 ^ 32 -> Z.of_nat nn < 2 ^ 32 ->
  exists arena table, BakeToArena t = Ret (arena, table) /\
    router_rel nb nn (mkRouter t arena table) m.
Proof.
  intros Ht Hnb Hnn. destruct Ht as [Hwf Hpre Hroot Hids Hreg Hnodes Hpos Hb Hn].
  destruct (BakeToArena_spec t) as (arena & table & trees & Hbk & Hrep & H0); [done|done|lia|lia|].
  exists arena, table. split; [done|]. split; [done|]. right. by exists trees.
Qed.

(** An exact match wins. *)
Lemma best_exact f path : f path <> 0 -> best f path 0 = f path.
Proof.
  intros H. unfold best.
  destruct (length path) as [|n] eqn:E; cbn [best_upto];
    rewrite <- E, firstn_all, drop_all; unfold claim;
    by rewrite (proj2 (Z.eqb_neq (f path) 0)).
Qed.

Lemma best_ext f g path dflt :
  (forall q, f q = g q) -> best f path dflt = best g path dflt.
Proof. intros H. apply best_upto_ext. auto. Qed.

(** The tree walk computes the abstract lookup. *)
Lemma tlookup_spec nb nn t m path :
  tree_rel nb nn t m -> tlookup t path 0 = spec_lookup m path.
Proof.
  intros [Hwf _ Hroot Hids Hreg Hnodes Hpos _ _]. rewrite tlookup_best by done.
  assert (forall q, tid t q = ids m q) as Hids'.
  { intros [|b q]; [|by apply Hids]. rewrite Hroot. unfold ids.
    destruct (m !! []) eqn:E; [|done]. by apply Hpos in E as [_ ?]. }
  rewrite (best_ext _ _ path 0 Hids'). unfold spec_lookup.
  destruct (m !! path) as [a|] eqn:Em.
  - destruct (Hpos _ _ Em) as [Ha _]. rewrite bool_decide_eq_false_2 by done. simpl.
    assert (ids m path = a) as Ei by (unfold ids; by rewrite Em).
    rewrite best_exact by (rewrite Ei; lia).
    specialize (Hids' path). unfold tid in Hids'.
    destruct (Hreg path) as [v Hv]; [eauto|]. rewrite Hv in *. simpl in Hids'. congruence.
  - rewrite bool_decide_eq_true_2 by done. simpl.
    destruct (get t path) as [v|] eqn:Eg.
    + assert (v = 0) as ->.
      { specialize (Hids' path). unfold tid, ids in Hids'. rewrite Em, Eg in Hids'. done. }
      destruct (Hnodes path) as [->|[[? ?]|Hf]]; [by exists 0| |congruence|].
      * destruct (forked m []); [done|]. unfold best. simpl. unfold claim, ids.
        by rewrite Em.
      * apply forked_spec in Hf. by rewrite Hf.
    + destruct (forked m path) eqn:Ef; [|done].
      apply forked_spec in Ef as (b1 & b2 & s1 & s2 & Hne & H1 & H2).
      destruct (node_at_parting t path b1 s1 b2 s2) as [v Hv]; auto. congruence.
Qed.

Lemma router_lookup_rel nb nn r m path :
  router_rel nb nn r m -> Forall is_ascii path ->
  RouterLookup r path = Ret (spec_lookup m path).
Proof.
  intros [Ht Hs] Ha. unfold RouterLookup. destruct Hs as [[-> ->]|(trees & Hrep & H0)].
  - rewrite <- (tlookup_spec _ _ _ _ _ tree_rel_new). unfold NewBuilder.
    rewrite tlookup_eq. by destruct path.
  - pose proof Hrep as (_ & _ & _ & _ & Hall). destruct (Hall _ _ H0) as (n & Hn & Hh & Hl).
    destruct (snap_arena r) as [|n0 arena] eqn:Ea; [done|]. injection Hn as ->.
    rewrite (lookup_loop_spec _ _ trees _ 0 n (builder r)); try done.
    + by rewrite (tlookup_spec _ _ _ _ _ Ht).
    + unfold nil_cost. destruct (is_nil _); lia.
Qed.

(** ** Building routers *)

(** The bytes and nodes a list of routes can take in the arena. *)
Definition total_bytes (routes : list (byte_string * Z)) : nat :=
  sum_list_with length routes.*1.

Definition valid_routes (routes : list (byte_string * Z)) : Prop :=
  Forall valid_route routes /\
  Z.of_nat (total_bytes routes) < 2 ^ 32 /\ Z.of_nat (1 + 2 * length routes) < 2 ^ 32.

Lemma add_all_rel nb nn t m routes :
  tree_rel nb nn t m -> Forall valid_route routes ->
  exists t', add_all t routes = Ret t' /\
    tree_rel (nb + total_bytes routes) (nn + 2 * length routes) t' (spec_adds m routes).
Proof.
  unfold total_bytes. revert nb nn t m. induction routes as [|[p a] routes IH];
    intros nb nn t m Ht Hv.
  - exists t. split; [done|]. csimpl. by rewrite !Nat.add_0_r.
  - apply Forall_cons in Hv as [Hv Hvs]. cbn [add_all].
    destruct (tree_rel_add _ _ _ _ _ _ Ht Hv) as (t1 & -> & Ht1). cbn [obind].
    destruct (IH _ _ _ _ Ht1 Hvs) as (t' & -> & Ht'). exists t'. split; [done|].
    eapply tree_rel_le; [exact Ht'|csimpl; lia|csimpl; lia].
Qed.

(** Registering routes one by one, as the compiler of the gateway does. *)
Fixpoint add_each (r : RahRouter) (routes : list (byte_string * Z)) : outcome RahRouter :=
  match routes with
  | [] => Ret r
  | (p, a) :: routes' => r' <-- RouterAdd r p a ;; add_each r' routes'
  end.

Lemma router_add_rel nb nn r m p a :
  router_rel nb nn r m -> valid_route (p, a) ->
  Z.of_nat (nb + length p) < 2 ^ 32 -> Z.of_nat (nn + 2) < 2 ^ 32 ->
  exists r', RouterAdd r p a = Ret r' /\ router_rel (nb + length p) (nn + 2) r' (<[p:=a]> m).
Proof.
  intros [Ht _] Hv Hb Hn. destruct (tree_rel_add _ _ _ _ _ _ Ht Hv) as (t' & Hadd & Ht').
  destruct (router_bake _ _ _ _ Ht' Hb Hn) as (arena & table & Hbk & Hr).
  unfold RouterAdd. rewrite Hadd. cbn [obind]. rewrite Hbk. cbn [obind]. eauto.
Qed.

Lemma add_each_rel nb nn r m routes :
  router_rel nb nn r m -> Forall valid_route routes ->
  Z.of_nat (nb + total_bytes routes) < 2 ^ 32 -> Z.of_nat (nn + 2 * length routes) < 2 ^ 32 ->
  exists r' nb' nn', add_each r routes = Ret r' /\ router_rel nb' nn' r' (spec_adds m routes).
Proof.
  unfold total_bytes. revert nb nn r m. induction routes as [|[p a] routes IH];
    intros nb nn r m Hr Hv Hb Hn.
  - exists r, nb, nn. done.
  - apply Forall_cons in Hv as [Hv Hvs]. csimpl in *.
    destruct (router_add_rel _ _ _ _ _ _ Hr Hv) as (r1 & Hadd & Hr1); [lia|lia|].
    cbn [add_each]. rewrite Hadd. cbn [obind]. apply (IH _ _ _ _ Hr1 Hvs); lia.
Qed.

Lemma AddMany_rel nb nn r m routes :
  router_rel nb nn r m -> Forall valid_route routes ->
  Z.of_nat (nb + total_bytes routes) < 2 ^ 32 -> Z.of_nat (nn + 2 * length routes) < 2 ^ 32 ->
  exists r', AddMany r routes = Ret r' /\
    router_rel (nb + total_bytes routes) (nn + 2 * length routes) r' (spec_adds m routes).
Proof.
  intros [Ht _] Hv Hb Hn. destruct (add_all_rel _ _ _ _ _ Ht Hv) as (t' & Hadd & Ht').
  destruct (router_bake _ _ _ _ Ht' Hb Hn) as (arena & table & Hbk & Hr).
  unfold AddMany. rewrite Hadd. cbn [obind]. rewrite Hbk. cbn [obind]. eauto.
Qed.

Lemma spec_adds_perm m routes routes' :
  NoDup routes.*1 -> routes ≡ₚ routes' -> spec_adds m routes = spec_adds m routes'.
Proof.
  intros Hnd Hp. revert m Hnd. unfold spec_adds.
  induction Hp as [|[p a] l l' Hp IH|[p a] [q b] l|l1 l2 l3 Hp1 IH1 Hp2 IH2]; intros m Hnd; simpl.
  - done.
  - csimpl in Hnd. apply NoDup_cons in Hnd as [_ Hnd]. by apply IH.
  - csimpl in Hnd. apply NoDup_cons in Hnd as [Hn _]. rewrite elem_of_cons in Hn.
    by rewrite (insert_insert_ne m) by (intros ->; apply Hn; by left).
  - rewrite IH1 by done. apply IH2. by rewrite <- Hp1.
Qed.

Lemma best_upto_inv f path n a :
  best_upto f path n 0 = a -> a <> 0 -> (n <= length path)%nat ->
  exists k, (k <= n)%nat /\ f (take k path) = a /\ boundary (drop k path) = true /\
    forall j, (k < j <= n)%nat -> f (take j path) = 0 \/ boundary (drop j path) = false.
Proof.
  intros Ha Hne. revert Ha. induction n as [|n IH]; cbn [best_upto]; unfold claim; intros Ha Hn.
  - destruct (negb (f (take 0 path) =? 0) && boundary (drop 0 path)) eqn:E; [|congruence].
    apply andb_true_iff in E as [_ E]. exists 0%nat. repeat split; try done. intros; lia.
  - destruct (negb (f (take (S n) path) =? 0) && boundary (drop (S n) path)) eqn:E.
    + apply andb_true_iff in E as [_ E]. exists (S n). repeat split; try done. intros; lia.
    + destruct (IH Ha) as (k & Hk & Hf & Hb & Hj); [lia|]. exists k. repeat split; try done; [lia|].
      intros j Hjk. destruct (decide (j = S n)) as [->|]; [|apply Hj; lia].
      apply andb_false_iff in E as [E|E]; [left|by right].
      by apply negb_false_iff, Z.eqb_eq in E.
Qed.

(** ** The documented lookup *)

(** [p] serves [path]: a prefix of it that ends on a segment boundary. *)
Definition serves (p path : byte_string) : Prop := exists rest, path = p ++ rest /\ (rest = [] \/ exists r, rest = slash :: r).

(** The id of the longest registered path that serves [path], 0 if there is none. *)
Inductive longest_match (m : gmap byte_string Z) (path : byte_string) : Z -> Prop :=
| lm_found p a : m !! p = Some a -> serves p path ->
    (forall p', is_Some (m !! p') -> serves p' path -> (length p' <= length p)%nat) -> longest_match m path a
| lm_none : (forall p, is_Some (m !! p) -> ~ serves p path) -> longest_match m path 0.

Lemma boundary_spec rest : boundary rest = true <-> rest = [] \/ exists r, rest = slash :: r.
Proof.
  destruct rest as [|c r]; cbn [boundary]; [split; [by left|done]|]. rewrite Z.eqb_eq. split; [intros ->; right; by exists r|].
  intros [?|[r' [= -> _]]]; done.
Qed.

Lemma serves_take p path : serves p path -> p = take (length p) path /\ boundary (drop (length p) path) = true /\ (length p <= length path)%nat.
Proof. intros (rest & -> & Hb%boundary_spec). rewrite take_app_length, drop_app_length, length_app. repeat split; [done|lia]. Qed.

Lemma best_upto_none f path n : best_upto f path n 0 = 0 -> forall k, (k <= n)%nat -> f (take k path) = 0 \/ boundary (drop k path) = false.
Proof.
  induction n as [|n IH]; cbn [best_upto]; unfold claim; intros H k Hk.
  - replace k with 0%nat by lia. destruct (Z.eqb_spec (f (take 0 path)) 0) as [E|E]; [by left|]. destruct (boundary (drop 0 path)); [done|by right].
  - destruct (Z.eqb_spec (f (take (S n) path)) 0) as [E|E]; cbn [negb andb] in H.
    + destruct (decide (k = S n)) as [->|]; [by left|]. apply IH; [done|lia].
    + destruct (boundary (drop (S n) path)) eqn:Eb; [done|]. destruct (decide (k = S n)) as [->|]; [by right|]. apply IH; [done|lia].
Qed.

Lemma best_longest m path : (forall q a, m !! q = Some a -> 0 < a) -> longest_match m path (best (ids m) path 0).
Proof.
  intros Hpos. destruct (decide (best (ids m) path 0 = 0)) as [E|E].
  - rewrite E. apply lm_none. intros p [a Ha] (Ep & Hb & Hl)%serves_take. destruct (best_upto_none _ _ _ E (length p) Hl) as [C|C]; [|congruence].
    rewrite <- Ep in C. unfold ids in C. rewrite Ha in C. apply Hpos in Ha. simpl in C. lia.
  - destruct (best_upto_inv _ _ _ _ eq_refl E ltac:(done)) as (k & Hk & Hf & Hb & Hmax). apply (lm_found _ _ (take k path)).
    + unfold ids in Hf at 1. destruct (m !! take k path) as [a|]; [by f_equal|]. exfalso. apply E. symmetry. exact Hf.
    + exists (drop k path). rewrite take_drop. split; [done|]. by apply boundary_spec.
    + intros p' [a' Ha'] (Ep & Hb' & Hl)%serves_take. rewrite length_take, Nat.min_l by done. destruct (decide (length p' <= k)%nat) as [|Hgt]; [done|].
      destruct (Hmax (length p')) as [C|C]; [lia| |congruence]. rewrite <- Ep in C. unfold ids in C. rewrite Ha' in C. apply Hpos in Ha'. simpl in C. lia.
Qed.

(** ** The theorems *)

(** C1: the router implements the documented lookup.  Whatever routes are
    registered (non-empty ASCII paths of less than 2^16 bytes, non-zero ids,
    within the 32-bit arena), registration succeeds, and looking up an ASCII
    path in the lock-free arena terminates without a panic and returns the id of
    the longest registered path that is a prefix of it on a segment boundary, 0
    when there is none.  The path must be registered itself or must not be one
    at which registered paths part: there the code answers 0
    ([fork_shadows_base_path]). *)
Theorem router_refines routes :
  valid_routes routes ->
  exists r, add_each RouterNew routes = Ret r /\
    forall path, Forall is_ascii path ->
      is_Some (spec_adds ∅ routes !! path) \/ ~ fork_point (spec_adds ∅ routes) path ->
      exists a, RouterLookup r path = Ret a /\ longest_match (spec_adds ∅ routes) path a.
Proof.
  intros (Hv & Hb & Hn).
  destruct (add_each_rel _ _ _ _ _ router_rel_new Hv) as (r & nb & nn & Hr & Hrel); [lia|lia|].
  exists r. split; [done|]. intros path Ha Hp. eexists. split; [by eapply router_lookup_rel|]. unfold spec_lookup.
  replace (_ && _) with false; [apply best_longest; intros q a Hq; by apply (tr_pos _ _ _ _ (proj1 Hrel)) in Hq as []|].
  symmetry. apply andb_false_iff. destruct Hp as [[a Hp]|Hp]; [left; apply bool_decide_eq_false_2; congruence|right].
  apply not_true_is_false. by rewrite forked_spec.
Qed.

(** The routes used by the witnesses below. *)
Definition demo_routes : list (byte_string * Z) :=
  [(bytes_of "/a", 1); (bytes_of "/a/bc", 2); (bytes_of "/a/bd", 3); (bytes_of "/Q9", 4)].

Lemma demo_routes_valid : valid_routes demo_routes.
Proof.
  split; [|split; vm_compute; done].
  repeat constructor; simpl; try done; vm_compute; done.
Qed.

Lemma router_refines_witness :
  exists r, add_each RouterNew demo_routes = Ret r /\
    exists a, RouterLookup r (bytes_of "/a/bc/d") = Ret a /\ longest_match (spec_adds ∅ demo_routes) (bytes_of "/a/bc/d") a.
Proof.
  destruct (router_refines demo_routes demo_routes_valid) as (r & Hr & Hl).
  exists r. split; [exact Hr|].
  apply Hl; [repeat constructor; vm_compute; done|right; rewrite <- forked_spec; vm_compute; congruence].
Defined.

(** C25: longest-prefix routing.  A non-zero answer of [Lookup] is the id of a
    registered route that is a prefix of the request path ending on a segment
    boundary, and no longer registered prefix ends on one. *)
Theorem router_longest_prefix routes r path a :
  valid_routes routes -> add_each RouterNew routes = Ret r -> Forall is_ascii path ->
  RouterLookup r path = Ret a -> a <> 0 ->
  exists p rest, path = p ++ rest /\ spec_adds ∅ routes !! p = Some a /\ boundary rest = true /\
    forall p' rest', path = p' ++ rest' -> is_Some (spec_adds ∅ routes !! p') ->
      boundary rest' = true -> (length p' <= length p)%nat.
Proof.
  intros (Hv & Hb & Hn) Hr Ha Hl Hne.
  destruct (add_each_rel _ _ _ _ _ router_rel_new Hv) as (r' & nb & nn & Hr' & Hrel); [lia|lia|].
  rewrite Hr in Hr'. injection Hr' as <-. rewrite (router_lookup_rel _ _ _ _ _ Hrel Ha) in Hl.
  injection Hl as Hl. unfold spec_lookup in Hl. destruct (_ && _); [congruence|].
  apply best_upto_inv in Hl as (k & Hk & Hf & Hbd & Hmax); [|done|done].
  exists (take k path), (drop k path). rewrite take_drop. split; [done|]. split; [|split; [done|]].
  - unfold ids in Hf. destruct (_ !! take k path); simpl in Hf; congruence.
  - intros p' rest' E [a' Ha'] Hbd'. rewrite length_take, Nat.min_l by done.
    destruct (decide (length p' <= k)%nat) as [|Hgt]; [done|].
    assert (length p' <= length path)%nat as Hlp by (rewrite E, length_app; lia).
    destruct (Hmax (length p')) as [C|C]; [lia| |].
    + rewrite E, take_app_length in C. unfold ids in C. rewrite Ha' in C. simpl in C.
      apply (tr_pos _ _ _ _ (proj1 Hrel)) in Ha' as [? _]. lia.
    + rewrite E, drop_app_length in C. congruence.
Qed.

Lemma router_longest_prefix_witness :
  exists p rest, bytes_of "/a/bc/d" = p ++ rest /\
    spec_adds ∅ demo_routes !! p = Some 2 /\ boundary rest = true.
Proof.
  destruct (add_each RouterNew demo_routes) as [r| |] eqn:E.
  2,3: exfalso; vm_compute in E; discriminate E.
  destruct (router_longest_prefix demo_routes r (bytes_of "/a/bc/d") 2 demo_routes_valid E)
    as (p & rest & H1 & H2 & H3 & _).
  - repeat constructor; vm_compute; done.
  - vm_compute in E. injection E as <-. vm_compute. reflexivity.
  - done.
  - exists p, rest. split; [exact H1|]. split; [exact H2|exact H3].
Defined.

(** C37: [AddMany] iterates over a Go map, in an order the language leaves
    unspecified; two orders of the same routes give routers that answer every
    ASCII path alike. *)
Theorem add_many_order_independent routes routes' r r' path :
  valid_routes routes -> NoDup routes.*1 -> routes ≡ₚ routes' ->
  AddMany RouterNew routes = Ret r -> AddMany RouterNew routes' = Ret r' ->
  Forall is_ascii path -> RouterLookup r path = RouterLookup r' path.
Proof.
  intros (Hv & Hb & Hn) Hnd Hperm Hr Hr' Ha.
  assert (total_bytes routes' = total_bytes routes) as Etb.
  { unfold total_bytes. by rewrite Hperm. }
  assert (length routes' = length routes) as El by by rewrite Hperm.
  destruct (AddMany_rel _ _ _ _ routes router_rel_new) as (r1 & E1 & H1); [done|lia|lia|].
  destruct (AddMany_rel _ _ _ _ routes' router_rel_new) as (r2 & E2 & H2);
    [by rewrite <- Hperm|lia|lia|].
  rewrite Hr in E1. injection E1 as <-. rewrite Hr' in E2. injection E2 as <-.
  rewrite (router_lookup_rel _ _ _ _ _ H1 Ha), (router_lookup_rel _ _ _ _ _ H2 Ha).
  by rewrite (spec_adds_perm ∅ routes routes').
Qed.

Lemma add_many_order_independent_witness :
  exists r r', AddMany RouterNew demo_routes = Ret r /\ AddMany RouterNew (reverse demo_routes) = Ret r' /\
    RouterLookup r (bytes_of "/a/bd") = RouterLookup r' (bytes_of "/a/bd").
Proof.
  destruct (AddMany RouterNew demo_routes) as [r| |] eqn:E.
  2,3: exfalso; vm_compute in E; discriminate E.
  destruct (AddMany RouterNew (reverse demo_routes)) as [r'| |] eqn:E'.
  2,3: exfalso; vm_compute in E'; discriminate E'.
  exists r, r'. split; [reflexivity|]. split; [reflexivity|].
  apply (add_many_order_independent demo_routes (reverse demo_routes) r r' (bytes_of "/a/bd")
           demo_routes_valid).
  - apply (bool_decide_unpack _). vm_compute. exact I.
  - symmetry. apply reverse_Permutation.
  - exact E.
  - exact E'.
  - repeat constructor; vm_compute; done.
Defined.

(** the structural exit of [Lookup].  With "/a", "/a/bc" and "/a/bd"
    registered, "/a/x" is served by "/a", but "/a/b", which ends exactly where
    the tree forks, gets no route although "/a" is a registered prefix of it
    on a segment boundary. *)
Theorem fork_shadows_base_path :
  exists r, add_each RouterNew demo_routes = Ret r /\
    RouterLookup r (bytes_of "/a/x") = Ret 1 /\
    best (ids (spec_adds ∅ demo_routes)) (bytes_of "/a/b") 0 = 1 /\
    RouterLookup r (bytes_of "/a/b") = Ret 0.
Proof. eexists. split; [vm_compute; reflexivity|]. vm_compute. auto. Qed.

(** the child lookup treats every byte from 128 on as if one of the two
    masks applied to it.  With "/1" and "/D" registered, looking up a path
    whose second byte is 0x84 indexes the arena out of range and panics. *)
Theorem lookup_non_ascii_panics :
  exists r, add_each RouterNew [(bytes_of "/1", 1); (bytes_of "/D", 2)] = Ret r /\
    RouterLookup r [slash; 0x84] = Panic.
Proof. eexists. split; [vm_compute; reflexivity|]. vm_compute. reflexivity. Qed.
