(* ===== verification/Atomic.v ===== *)
(** * Compare-and-swap loops

    Most counters of the gateway are updated by the same idiom: load a word,
    compute either an answer or a new word, compare-and-swap, retry when the
    swap fails.  This file models any number of goroutines running such loops
    on one shared word, as a step relation whose steps are the individual
    atomic memory operations, and proves once and for all that every
    interleaving is equivalent to running the loop bodies one after the other
    ([cas_linearizable]). *)

From S2P Require Import Prelude.
From stdpp Require Import base numbers list relations.

Local Open Scope Z_scope.

(** What one iteration decides after loading [old]: answer without writing,
    or try to swap in a new word and answer if that succeeds. *)
Inductive decision (R : Type) : Type :=
| Finish (r : R)
| Swap (new : Z) (r : R).
Arguments Finish {R} r.
Arguments Swap {R} new r.

(** The body of a loop, as a function of the loaded word. *)
Abbreviation body R := (Z -> decision R).

(** The uncontended execution of the loop: the effect on the word, the answer. *)
Definition atomically {R} (b : body R) (slot : Z) : Z * R :=
  match b slot with Finish r => (slot, r) | Swap new r => (new, r) end.

Section machine.
  Context {R : Type}.

  (** A goroutine: before the load, between load and swap, or done. *)
Inductive tstate : Type :=
  | Idle
  | Loaded (old : Z)
  | Done (r : R).

  (** The shared word, the goroutines, and the order in which they answered. *)
Record config : Type := mkConfig {
    cf_slot : Z;
    cf_threads : list (body R * tstate);
    cf_log : list (body R * R)
  }.

Inductive cas_step : config -> config -> Prop :=
  | step_load_finish slot ths log i b r :
      ths !! i = Some (b, Idle) -> b slot = Finish r ->
      cas_step (mkConfig slot ths log)
               (mkConfig slot (<[i:=(b, Done r)]> ths) (log ++ [(b, r)]))
  | step_load slot ths log i b new r :
      ths !! i = Some (b, Idle) -> b slot = Swap new r ->
      cas_step (mkConfig slot ths log) (mkConfig slot (<[i:=(b, Loaded slot)]> ths) log)
  | step_cas_ok slot ths log i b new r :
      ths !! i = Some (b, Loaded slot) -> b slot = Swap new r ->
      cas_step (mkConfig slot ths log)
               (mkConfig new (<[i:=(b, Done r)]> ths) (log ++ [(b, r)]))
  | step_cas_fail slot ths log i b old :
      ths !! i = Some (b, Loaded old) -> old <> slot ->
      cas_step (mkConfig slot ths log) (mkConfig slot (<[i:=(b, Idle)]> ths) log).

Definition start (slot : Z) (bs : list (body R)) : config :=
    mkConfig slot ((fun b => (b, Idle)) <$> bs) [].

  (** [runs slot log slot']: executing the logged bodies one after the other
      from [slot] gives the logged answers and ends with [slot']. *)
Inductive runs : Z -> list (body R * R) -> Z -> Prop :=
  | runs_nil slot : runs slot [] slot
  | runs_snoc slot log slot1 b slot2 r :
      runs slot log slot1 -> atomically b slot1 = (slot2, r) ->
      runs slot (log ++ [(b, r)]) slot2.

  (** Every interleaving of the loops is a sequential execution of their
      bodies, in the order in which they answer. *)
Lemma cas_linearizable slot bs c :
    rtc cas_step (start slot bs) c -> runs slot (cf_log c) (cf_slot c).
  Proof.
    revert c. apply (rtc_ind_r (fun c => runs slot (cf_log c) (cf_slot c))).
    - constructor.
    - intros c1 c2 _ Hstep IH.
      destruct Hstep as [? ? ? ? ? ? ? E|? ? ? ? ? ? ? ? E|? ? ? ? ? ? ? ? E|? ? ? ? ? ? ? E];
        simpl in *; try done; econstructor; try done; unfold atomically; by rewrite E.
  Qed.

  (** The bookkeeping of the goroutines: who they are and who has answered. *)
Definition done_count (t : body R * tstate) : nat :=
    match t.2 with Done _ => 1 | _ => 0 end.

Lemma insert_done (ths : list (body R * tstate)) i b s s' :
    ths !! i = Some (b, s) ->
    (sum_list_with done_count (<[i:=(b, s')]> ths) + done_count (b, s) =
     sum_list_with done_count ths + done_count (b, s'))%nat.
  Proof.
    revert i. induction ths as [|t ths IH]; intros i H; [done|].
    destruct i as [|i].
    - injection H as ->. simpl. lia.
    - simpl in *. specialize (IH i H). lia.
  Qed.

Lemma insert_bodies (ths : list (body R * tstate)) i b s s' :
    ths !! i = Some (b, s) -> (<[i:=(b, s')]> ths).*1 = ths.*1.
  Proof.
    intros H. rewrite list_fmap_insert. apply list_insert_id.
    by rewrite list_lookup_fmap, H.
  Qed.

  (** Each goroutine answers once, with one log entry for its own body. *)
Lemma cas_log_inv slot bs c :
    rtc cas_step (start slot bs) c ->
    (cf_threads c).*1 = bs /\
    length (cf_log c) = sum_list_with done_count (cf_threads c) /\
    Forall (fun e => e.1 ∈ bs) (cf_log c).
  Proof.
    revert c. apply (rtc_ind_r (fun c => (cf_threads c).*1 = bs /\
      length (cf_log c) = sum_list_with done_count (cf_threads c) /\
      Forall (fun e => e.1 ∈ bs) (cf_log c))).
    - simpl. split; [|split; [|constructor]].
      + rewrite <- list_fmap_compose. apply list_fmap_id.
      + induction bs; simpl; auto.
    - intros c1 c2 _ Hstep (IHb & IHl & IHf).
      assert (forall (ths : list (body R * tstate)) i b s, ths !! i = Some (b, s) -> ths.*1 = bs -> b ∈ bs) as Hin.
      { intros ths i b s H <-. apply list_elem_of_fmap. exists (b, s).
        split; [done|]. by eapply list_elem_of_lookup_2. }
      destruct Hstep as [? ? ? ? ? r E ?|slot0 ? ? ? ? ? ? E ?|? ? ? ? ? ? r E ?|? ? ? ? ? ? E ?];
        simpl in *; rewrite ?length_app, ?Forall_app;
        (split; [by rewrite (insert_bodies _ _ _ _ _ E)|]);
        [pose proof (insert_done _ _ _ _ (Done r) E) as HI
        |pose proof (insert_done _ _ _ _ (Loaded slot0) E) as HI
        |pose proof (insert_done _ _ _ _ (Done r) E) as HI
        |pose proof (insert_done _ _ _ _ Idle E) as HI];
        unfold done_count in HI at 2 4; simpl in HI; simpl length;
        (split; [lia|]); try done; (split; [done|]);
        (constructor; [by eapply Hin|constructor]).
  Qed.

  (** A goroutine is between load and swap only if it wants to swap. *)
Definition loaded_ok (ths : list (body R * tstate)) : Prop :=
    forall i b old, ths !! i = Some (b, Loaded old) -> exists new r, b old = Swap new r.

Lemma loaded_ok_insert ths i b s :
    loaded_ok ths -> (forall old, s = Loaded old -> exists new r, b old = Swap new r) ->
    loaded_ok (<[i:=(b, s)]> ths).
  Proof.
    intros Hok Hs j b' old. rewrite list_lookup_insert. case_decide; [|apply Hok].
    intros [= <- ->]. by apply Hs.
  Qed.

Lemma cas_loaded_ok slot bs c : rtc cas_step (start slot bs) c -> loaded_ok (cf_threads c).
  Proof.
    revert c. apply (rtc_ind_r (fun c => loaded_ok (cf_threads c))).
    - intros i b old. simpl. rewrite list_lookup_fmap. by destruct (bs !! i).
    - intros c1 c2 _ Hstep IH. destruct Hstep; simpl in *; apply loaded_ok_insert; try done.
      intros old [= <-]. eauto.
  Qed.

  (** No goroutine can be stuck: running one of them alone makes it answer. *)
Lemma cas_one_finishes slot ths log i b s :
    ths !! i = Some (b, s) -> loaded_ok ths -> done_count (b, s) = 0%nat ->
    exists slot' log' r,
      rtc cas_step (mkConfig slot ths log) (mkConfig slot' (<[i:=(b, Done r)]> ths) log').
  Proof.
    intros H Hok Hs.
    assert (forall ths0, ths0 !! i = Some (b, Idle) -> exists slot' log' r,
      rtc cas_step (mkConfig slot ths0 log) (mkConfig slot' (<[i:=(b, Done r)]> ths0) log')) as Hidle.
    { intros ths0 H0. destruct (b slot) as [r|new r] eqn:E.
      - eexists _, _, r. eapply rtc_once, step_load_finish; done.
      - eexists _, _, r. eapply rtc_l; [eapply step_load; done|].
        apply rtc_once. rewrite <- (list_insert_insert_eq ths0 i (b, Done r) (b, Loaded slot)).
        eapply step_cas_ok; [|done]. apply list_lookup_insert_eq. by eapply lookup_lt_Some. }
    destruct s as [|old|r]; [by apply Hidle| |done].
    destruct (Z.eq_dec old slot) as [->|Hne].
    - destruct (Hok _ _ _ H) as (new & r & E).
      eexists _, _, r. eapply rtc_once, step_cas_ok; done.
    - destruct (Hidle (<[i:=(b, Idle)]> ths)) as (slot' & log' & r & Hr).
      { apply list_lookup_insert_eq. by eapply lookup_lt_Some. }
      rewrite list_insert_insert_eq in Hr.
      exists slot', log', r. eapply rtc_l; [eapply step_cas_fail; done|done].
  Qed.

Definition all_done (c : config) : Prop :=
    forall i b s, cf_threads c !! i = Some (b, s) -> exists r, s = Done r.

Lemma done_le (ths : list (body R * tstate)) :
    (sum_list_with done_count ths <= length ths)%nat.
  Proof. induction ths as [|[b []] ths IH]; simpl; lia. Qed.

Lemma find_pending (ths : list (body R * tstate)) :
    (exists i b s, ths !! i = Some (b, s) /\ done_count (b, s) = 0%nat /\
       (sum_list_with done_count ths < length ths)%nat) \/
    (forall i b s, ths !! i = Some (b, s) -> exists r, s = Done r).
  Proof.
    induction ths as [|[b s] ths IH]; [by right|].
    destruct s as [|old|r].
    - left. exists 0%nat, b, Idle. pose proof (done_le ths).
      split; [done|]. split; [done|]. simpl. lia.
    - left. exists 0%nat, b, (Loaded old). pose proof (done_le ths).
      split; [done|]. split; [done|]. simpl. lia.
    - destruct IH as [(i & b' & s' & Hi & Hd & Hlt)|Hall].
      + left. exists (S i), b', s'. split; [done|]. split; [done|]. simpl. lia.
      + right. intros [|i] b' s' Hi; [injection Hi as <- <-; eauto|by eapply Hall].
  Qed.

  (** Termination: from every reachable state all goroutines can answer. *)
Lemma cas_can_finish slot bs c :
    rtc cas_step (start slot bs) c -> exists c', rtc cas_step c c' /\ all_done c'.
  Proof.
    intros Hr. remember (length bs - sum_list_with done_count (cf_threads c))%nat as n eqn:En.
    revert c Hr En. induction n as [n IH] using lt_wf_ind; intros c Hr En.
    destruct (find_pending (cf_threads c)) as [(i & b & s & Hi & Hd & Hlt)|Hall]; [|by exists c].
    destruct c as [sl ths log]. cbn [cf_threads] in *.
    destruct (cas_one_finishes sl ths log i b s Hi (cas_loaded_ok _ _ _ Hr) Hd)
      as (sl' & log' & r & Hone).
    pose proof (cas_log_inv _ _ _ Hr) as (Hb & _ & _).
    assert (length ths = length bs) as Hl by (rewrite <- Hb; by rewrite length_fmap).
    pose proof (insert_done _ _ _ _ (Done r) Hi) as HI. rewrite Hd in HI.
    change (done_count (b, Done r)) with 1%nat in HI.
    destruct (IH (length bs - sum_list_with done_count (<[i:=(b, Done r)]> ths))%nat)
      with (c := mkConfig sl' (<[i:=(b, Done r)]> ths) log') as (c' & Hc' & Hdone).
    - lia.
    - by transitivity (mkConfig sl ths log).
    - done.
    - exists c'. split; [by etransitivity|done].
  Qed.
End machine.
