(* ===== verification/Counters.v ===== *)
(** * Rate-limit counters

    [internal/engine/counter_arena.go], [rate_limit.go],
    [upstream_rate_limit.go] and [upstream_cost_window.go]: fixed-window
    counters packed as [epoch:32 | count:32] in one 64-bit word, updated by
    compare-and-swap loops, and the arenas that index them by tenant or by a
    hash of a key.  A loop is given by its body ([Atomic.body]): sequential
    code runs it with [atomically], and the concurrency theorems run any
    number of bodies in the machine of Atomic.v. *)

From S2P Require Import Prelude Atomic.
From stdpp Require Import base numbers list gmap.

Local Open Scope Z_scope.
Local Open Scope rah_scope.

(** ** The packed word *)

Definition pack (epoch count : Z) : Z := Z.lor (Z.shiftl epoch 32) count.
Definition epoch_of (w : Z) : Z := u32 (Z.shiftr w 32).
Definition count_of (w : Z) : Z := u32 (Z.land w 0xFFFFFFFF).

(** ** counter_arena.go: the shared CAS primitives *)

Definition counterEpochCAS (epoch limit : Z) : body (bool * Z) := fun old =>
  if limit =? 0 then Finish (false, 0)
  else
    let storedEpoch := epoch_of old in
    if negb (storedEpoch =? epoch) then
      Swap (pack epoch 1) (true, if 1 <? limit then u32 (limit - 1) else 0)
    else
      let count := count_of old in
      if limit <=? count then Finish (false, 0)
      else
        let newCount := u32 (count + 1) in
        Swap (u64 (old + 1)) (true, if newCount <? limit then u32 (limit - newCount) else 0).

Definition counterEpochCASBy (epoch limit delta : Z) : body (bool * Z) := fun old =>
  if limit =? 0 then Finish (false, 0)
  else
    let delta := if delta =? 0 then 1 else delta in
    let storedEpoch := epoch_of old in
    if negb (storedEpoch =? epoch) then
      if limit <? delta then Finish (false, 0)
      else Swap (pack epoch delta) (true, if delta <? limit then u32 (limit - delta) else 0)
    else
      let count := count_of old in
      let newCount := u32 (count + delta) in
      if limit <? newCount then Finish (false, 0)
      else Swap (pack epoch newCount) (true, if newCount <? limit then u32 (limit - newCount) else 0).

(** ** Hashing and sizing *)

Definition arenaFNV32a (b : byte_string) : Z :=
  foldl (fun h c => u32 (Z.lxor h c * 16777619)) 2166136261 b.

(** [bits.Len] of a positive number is the position of its top bit plus one. *)
Definition bits_len (n : Z) : Z := if n <=? 0 then 0 else Z.log2 n + 1.

Definition nextPow2 (n : Z) : Z := if n <=? 1 then 1 else Z.shiftl 1 (bits_len (n - 1)).

(** ** TenantCounterArena *)

Record TenantCounterArena : Type := mkTenantArena {
  tc_slots : list Z;
  numWindows : Z;
  maxTenants : Z
}.

Definition NewTenantCounterArena (maxT numW : Z) : TenantCounterArena :=
  let maxT := if maxT <=? 0 then 65536 else maxT in
  let numW := if numW <=? 0 then 1 else numW in
  mkTenantArena (replicate (Z.to_nat (maxT * numW)) 0) numW maxT.

(** Running a loop body on the word at [idx] of an arena. *)
Definition at_slot (slots : list Z) (idx : Z) (b : body (bool * Z))
  : outcome (list Z * (bool * Z)) :=
  w <-- go_index slots idx ;;
  let '(w', r) := atomically b w in Ret (<[Z.to_nat idx:=w']> slots, r).

Definition tenant_out_of_range (a : TenantCounterArena) (tenantID windowIdx : Z) : bool :=
  (maxTenants a <=? tenantID) || (windowIdx <? 0) || (numWindows a <=? windowIdx).

Definition tenant_index (a : TenantCounterArena) (tenantID windowIdx : Z) : Z :=
  tenantID * numWindows a + windowIdx.

Definition TenantIncrement (a : TenantCounterArena) (tenantID windowIdx epoch limit : Z)
  : outcome (TenantCounterArena * (bool * Z)) :=
  if limit =? 0 then Ret (a, (false, 0))
  else if tenant_out_of_range a tenantID windowIdx then Ret (a, (true, 0))
  else
    sr <-- at_slot (tc_slots a) (tenant_index a tenantID windowIdx) (counterEpochCAS epoch limit) ;;
    Ret (mkTenantArena sr.1 (numWindows a) (maxTenants a), sr.2).

Definition TenantIncrementBy (a : TenantCounterArena) (tenantID windowIdx epoch limit delta : Z)
  : outcome (TenantCounterArena * (bool * Z)) :=
  if limit =? 0 then Ret (a, (false, 0))
  else if tenant_out_of_range a tenantID windowIdx then Ret (a, (true, 0))
  else
    sr <-- at_slot (tc_slots a) (tenant_index a tenantID windowIdx) (counterEpochCASBy epoch limit delta) ;;
    Ret (mkTenantArena sr.1 (numWindows a) (maxTenants a), sr.2).

Definition TenantReadCurrent (a : TenantCounterArena) (tenantID windowIdx epoch : Z) : outcome Z :=
  if tenant_out_of_range a tenantID windowIdx then Ret 0
  else
    packed <-- go_index (tc_slots a) (tenant_index a tenantID windowIdx) ;;
    Ret (if negb (epoch_of packed =? epoch) then 0 else u32 packed).

(** ** SlotCounterArena *)

Record SlotCounterArena : Type := mkSlotArena {
  sc_slots : list Z;
  sc_mask : Z
}.

Definition NewSlotCounterArena (size : Z) : SlotCounterArena :=
  let size := if size <? 1024 then 1024 else size in
  let size := nextPow2 size in
  mkSlotArena (replicate (Z.to_nat size) 0) (u32 (size - 1)).

Definition slot_index (a : SlotCounterArena) (keyBytes : byte_string) (windowIdx : Z) : Z :=
  let h := arenaFNV32a keyBytes in
  let h := Z.lxor h (u32 (u32 windowIdx * 2654435761)) in
  Z.land h (sc_mask a).

Definition SlotIncrement (a : SlotCounterArena) (keyBytes : byte_string) (windowIdx epoch limit : Z)
  : outcome (SlotCounterArena * (bool * Z)) :=
  if limit =? 0 then Ret (a, (false, 0))
  else
    sr <-- at_slot (sc_slots a) (slot_index a keyBytes windowIdx) (counterEpochCAS epoch limit) ;;
    Ret (mkSlotArena sr.1 (sc_mask a), sr.2).

Definition SlotIncrementBy (a : SlotCounterArena) (keyBytes : byte_string)
    (windowIdx epoch limit delta : Z) : outcome (SlotCounterArena * (bool * Z)) :=
  if limit =? 0 then Ret (a, (false, 0))
  else
    sr <-- at_slot (sc_slots a) (slot_index a keyBytes windowIdx) (counterEpochCASBy epoch limit delta) ;;
    Ret (mkSlotArena sr.1 (sc_mask a), sr.2).

Definition SlotReadCurrent (a : SlotCounterArena) (keyBytes : byte_string) (windowIdx epoch : Z)
  : outcome Z :=
  packed <-- go_index (sc_slots a) (slot_index a keyBytes windowIdx) ;;
  Ret (if negb (epoch_of packed =? epoch) then 0 else u32 packed).

(** ** ConfigCounterRegistry; a nil receiver is [None] *)

Record ConfigCounterRegistry : Type := mkRegistry {
  tenantArenas : list (option TenantCounterArena);
  slotArenas : list (option SlotCounterArena);
  reg_cap : Z
}.

Definition NewConfigCounterRegistry (maxConfigs : Z) : ConfigCounterRegistry :=
  let n := if maxConfigs <=? 0 then 256 else maxConfigs in
  mkRegistry (replicate (Z.to_nat n) None) (replicate (Z.to_nat n) None) n.

Definition RegisterTenantConfig (r : ConfigCounterRegistry) (configID numW maxT : Z)
  : outcome ConfigCounterRegistry :=
  if reg_cap r <=? configID then Ret r
  else
    cur <-- go_index (tenantArenas r) configID ;;
    match cur with
    | Some _ => Ret r
    | None =>
      let maxT := if maxT =? 0 then 65536 else maxT in
      Ret (mkRegistry (<[Z.to_nat configID:=Some (NewTenantCounterArena maxT numW)]> (tenantArenas r))
                      (slotArenas r) (reg_cap r))
    end.

Definition RegisterSlotConfig (r : ConfigCounterRegistry) (configID numW arenaSize : Z)
  : outcome ConfigCounterRegistry :=
  if reg_cap r <=? configID then Ret r
  else
    cur <-- go_index (slotArenas r) configID ;;
    match cur with
    | Some _ => Ret r
    | None =>
      let arenaSize := if arenaSize =? 0 then 65536 else arenaSize in
      Ret (mkRegistry (tenantArenas r)
             (<[Z.to_nat configID:=Some (NewSlotCounterArena arenaSize)]> (slotArenas r)) (reg_cap r))
    end.

Definition TenantArena (r : option ConfigCounterRegistry) (configID : Z)
  : outcome (option TenantCounterArena) :=
  match r with
  | None => Ret None
  | Some r => if reg_cap r <=? configID then Ret None else go_index (tenantArenas r) configID
  end.

Definition SlotArena (r : option ConfigCounterRegistry) (configID : Z)
  : outcome (option SlotCounterArena) :=
  match r with
  | None => Ret None
  | Some r => if reg_cap r <=? configID then Ret None else go_index (slotArenas r) configID
  end.

(** ** rate_limit.go: the 32-bit rule word *)

Definition Mode (r : Z) : Z := u8 (Z.land r 0x07).
Definition Scope_ (r : Z) : Z := u8 (Z.land (Z.shiftr r 3) 0x07).
Definition Policy (r : Z) : Z := u8 (Z.land (Z.shiftr r 6) 0x03).
Definition Slot (r : Z) : Z := u8 (Z.land (Z.shiftr r 8) 0x3F).

Definition FinalLimit (r : Z) : Z :=
  let base := u32 (Z.land (Z.shiftr r 16) 0xFFFF) in
  let multi := Z.land (Z.shiftr r 14) 0x03 in
  u32 (base * nth (Z.to_nat multi) [1; 10; 100; 1000] 0).

(** ** CounterStore *)

(** [FixedWindow]: one atomic add, then a test of the low half. *)
Definition FixedWindow (limit : Z) (old : Z) : Z * bool :=
  let val := u64 (old + 1) in (val, count_of val <=? limit).

Definition FixedWindowEpoch (epoch limit : Z) : body (bool * Z) := fun old =>
  let storedEpoch := epoch_of old in
  if negb (storedEpoch =? epoch) then
    Swap (pack epoch 1) (true, if 1 <? limit then u32 (limit - 1) else 0)
  else
    let count := count_of old in
    if limit <=? count then Finish (false, 0)
    else
      let newCount := u32 (count + 1) in
      Swap (u64 (old + 1)) (true, if newCount <? limit then u32 (limit - newCount) else 0).

(** [TokenBucket]: the word is [LastUpdate:32 | Tokens:32]. *)
Definition TokenBucket (rate burst now : Z) : body (bool * Z) := fun oldState =>
  let lastUpdate := epoch_of oldState in
  let oldTokens := count_of oldState in
  let elapsed := u32 (now - lastUpdate) in
  let newTokens := Z.min (u32 (oldTokens + u32 (elapsed * rate))) burst in
  if newTokens <? 1 then Finish (false, 0)
  else
    let remaining := u32 (newTokens - 1) in
    Swap (pack now remaining) (true, remaining).

(** [GapInterval]: a load and, later, a store; not a compare-and-swap. *)
Definition gap_check (gap now lastWord : Z) : bool := negb (u32 (now - u32 lastWord) <? gap).

Definition GapInterval (gap now : Z) (word : Z) : Z * bool :=
  if gap_check gap now word then (now, true) else (word, false).

(** ** The instructions: what they read of the request and what they answer.
    [None] is "continue"; [Some status] stops the plan with that status. *)

Definition bucket_id (mode elapsed : Z) : Z :=
  if mode =? 1 then elapsed / 60
  else if mode =? 2 then elapsed / 3600
  else if mode =? 3 then elapsed / 86400
  else elapsed.

Definition fixed_window_index (tenantID ruleID bucketID arena_len : Z) : Z :=
  Z.lxor (Z.lxor tenantID ruleID) bucketID mod arena_len.

Definition FixedWindowStep_Execute (rule ruleID : Z) (arena : list Z) (tenantID unix : Z)
  : outcome (list Z * option Z) :=
  let elapsed := u32 unix in
  let bucketID := bucket_id (Mode rule) elapsed in
  let idx := fixed_window_index tenantID ruleID bucketID (u32 (Z.of_nat (length arena))) in
  w <-- go_index arena idx ;;
  let '(w', ok) := FixedWindow (FinalLimit rule) w in
  Ret (<[Z.to_nat idx:=w']> arena, if ok then None else Some 429).

Definition TokenBucketStep_Execute (rule burst rate : Z) (arena : list Z) (tenantID unix : Z)
  : outcome (list Z * option Z) :=
  let idx := Z.lxor tenantID rule mod u32 (Z.of_nat (length arena)) in
  sr <-- at_slot arena idx (TokenBucket rate burst (u32 unix)) ;;
  Ret (sr.1, if sr.2.1 then None else Some 429).

(** ** upstream_rate_limit.go *)

Record UpstreamRateWindow : Type := mkRateWindow {
  rw_epochDiv : Z;
  rw_limit : Z;
  rw_slot : Z
}.

Definition upstreamEpochAllow (epoch limit : Z) : body bool := fun old =>
  let storedEpoch := epoch_of old in
  if negb (storedEpoch =? epoch) then Swap (pack epoch 1) true
  else
    let count := count_of old in
    if limit <=? count then Finish false
    else Swap (u64 (old + 1)) true.

Definition UpstreamWindowFromWindow (window : string) (limit : Z) : UpstreamRateWindow :=
  let div := if (window =? "second")%string then 1
             else if (window =? "hour")%string then 3600
             else if (window =? "day")%string then 86400
             else 60 in
  mkRateWindow div limit 0.

(** [UpstreamRateLimiter.Allow]: the windows in order, stopping at the first
    exhausted one. *)
Fixpoint Allow (now : Z) (ws : list UpstreamRateWindow) : list UpstreamRateWindow * bool :=
  match ws with
  | [] => ([], true)
  | w :: ws' =>
    let epoch := now / rw_epochDiv w in
    let '(slot', ok) := atomically (upstreamEpochAllow epoch (rw_limit w)) (rw_slot w) in
    let w' := mkRateWindow (rw_epochDiv w) (rw_limit w) slot' in
    if ok then let '(ws'', r) := Allow now ws' in (w' :: ws'', r)
    else (w' :: ws', false)
  end.

(** The global registry: resource name to limiter. *)
Definition RegisterUpstreamLimit (reg : gmap string (list UpstreamRateWindow)) (key : string)
    (windows : list UpstreamRateWindow) : gmap string (list UpstreamRateWindow) :=
  match windows with
  | [] => reg
  | _ => match reg !! key with Some _ => reg | None => <[key:=take 4 windows]> reg end
  end.

Definition CheckUpstreamLimit (reg : gmap string (list UpstreamRateWindow)) (key : string) (unix : Z)
  : gmap string (list UpstreamRateWindow) * bool :=
  match reg !! key with
  | None => (reg, true)
  | Some ws => let '(ws', ok) := Allow (u32 unix) ws in (<[key:=ws']> reg, ok)
  end.

Definition windowName (div : Z) : string :=
  if div =? 1 then "second" else if div =? 3600 then "hour"
  else if div =? 86400 then "day" else "minute".

(** The first exhausted window, as (name, count, limit). *)
Fixpoint exhausted_window (now : Z) (ws : list UpstreamRateWindow) : option (string * Z * Z) :=
  match ws with
  | [] => None
  | w :: ws' =>
    let epoch := now / rw_epochDiv w in
    let count := if epoch_of (rw_slot w) =? epoch then count_of (rw_slot w) else 0 in
    if rw_limit w <=? count then Some (windowName (rw_epochDiv w), count, rw_limit w)
    else exhausted_window now ws'
  end.

Definition CheckUpstreamLimitWithDetail (reg : gmap string (list UpstreamRateWindow))
    (key : string) (unix : Z)
  : gmap string (list UpstreamRateWindow) * (option (string * Z * Z) * bool) :=
  match reg !! key with
  | None => (reg, (None, true))
  | Some ws =>
    let now := u32 unix in
    match exhausted_window now ws with
    | Some d => (reg, (Some d, false))
    | None => let '(ws', ok) := Allow now ws in (<[key:=ws']> reg, (None, ok))
    end
  end.

(** ** upstream_cost_window.go; costs are in micro-USD, already truncated *)

Record UpstreamCostWindow : Type := mkCostWindow {
  cw_epochDiv : Z;
  cw_limitMicro : Z;
  cw_slot : Z
}.

Definition cost_body (now costMicro limitMicro : Z) : body bool := fun old =>
  let newVal :=
    if negb (epoch_of old =? now) then pack now costMicro
    else pack now (u32 (count_of old + costMicro)) in
  Swap newVal (limitMicro <? count_of newVal).

Definition CostWindow_Record (w : UpstreamCostWindow) (unix costMicro : Z) : UpstreamCostWindow * bool :=
  let now := u32 unix / cw_epochDiv w in
  let '(slot', r) := atomically (cost_body now costMicro (cw_limitMicro w)) (cw_slot w) in
  (mkCostWindow (cw_epochDiv w) (cw_limitMicro w) slot', r).

(** [UpstreamCostLimiter.Record]: every window is charged. *)
Fixpoint CostLimiter_Record (ws : list UpstreamCostWindow) (unix costMicro : Z)
  : list UpstreamCostWindow * bool :=
  match ws with
  | [] => ([], false)
  | w :: ws' =>
    let '(w', ex) := CostWindow_Record w unix costMicro in
    let '(ws'', ex') := CostLimiter_Record ws' unix costMicro in
    (w' :: ws'', ex || ex')
  end.

Definition RegisterModelCostLimit (reg : gmap string (list UpstreamCostWindow)) (alias : string)
    (windows : list UpstreamCostWindow) : gmap string (list UpstreamCostWindow) :=
  match windows with
  | [] => reg
  | _ => match reg !! alias with Some _ => reg | None => <[alias:=take 4 windows]> reg end
  end.
