(* ===== verification/CountersSpec.v ===== *)
(** * What the rate-limit counters guarantee

    Refinement of the packed word to an abstract per-window count, the exact
    number of requests a window admits under any interleaving, isolation of
    tenants, safe indexing of the hashed arena, the token-bucket bound and the
    behaviour of multi-window limiters. *)

From S2P Require Import Prelude Atomic Counters.
From stdpp Require Import base numbers list gmap relations.

Local Open Scope Z_scope.
Local Open Scope rah_scope.

(** ** The packed word *)

Definition is_u32 (x : Z) : Prop := 0 <= x < 2 ^ 32.
Definition is_u64 (x : Z) : Prop := 0 <= x < 2 ^ 64.

Lemma pack_arith e c : is_u32 c -> pack e c = e * 2 ^ 32 + c.
Proof. intros Hc. unfold pack. by apply lor_shiftl_add. Qed.

Lemma pack_u64 e c : is_u32 e -> is_u32 c -> is_u64 (pack e c).
Proof. intros He Hc. rewrite pack_arith by done. unfold is_u32, is_u64 in *. lia. Qed.

Lemma epoch_of_div w : is_u64 w -> epoch_of w = w / 2 ^ 32.
Proof.
  intros Hw. unfold epoch_of. rewrite Z.shiftr_div_pow2 by lia. apply wrapu_small.
  unfold is_u64 in Hw. split; [apply Z.div_pos; lia|apply Z.div_lt_upper_bound; lia].
Qed.

Lemma count_of_mod w : count_of w = w mod 2 ^ 32.
Proof.
  unfold count_of. change 0xFFFFFFFF with (Z.ones 32). rewrite Z.land_ones by lia.
  unfold wrapu. rewrite Z.mod_mod; lia.
Qed.

Lemma count_of_u32 w : is_u32 (count_of w).
Proof. unfold count_of. apply wrapu_bound. lia. Qed.

Lemma epoch_of_u32 w : is_u32 (epoch_of w).
Proof. unfold epoch_of. apply wrapu_bound. lia. Qed.

Lemma epoch_of_pack e c : is_u32 e -> is_u32 c -> epoch_of (pack e c) = e.
Proof.
  intros He Hc. rewrite epoch_of_div by by apply pack_u64. rewrite pack_arith by done.
  rewrite Z.div_add_l by lia. rewrite Z.div_small by done. lia.
Qed.

Lemma count_of_pack e c : is_u32 c -> count_of (pack e c) = c.
Proof.
  intros Hc. rewrite count_of_mod, pack_arith by done.
  rewrite Z.add_comm, Z_mod_plus_full. by apply Z.mod_small.
Qed.

Lemma unpack w : is_u64 w -> w = pack (epoch_of w) (count_of w).
Proof.
  intros Hw. rewrite pack_arith by apply count_of_u32.
  rewrite epoch_of_div, count_of_mod by done. pose proof (Z.div_mod w (2 ^ 32)). lia.
Qed.

(** Incrementing the word increments its count, below the carry. *)
Lemma pack_succ w : is_u64 w -> count_of w + 1 < 2 ^ 32 ->
  u64 (w + 1) = pack (epoch_of w) (count_of w + 1).
Proof.
  intros Hw Hc. pose proof (count_of_u32 w) as Hb. unfold is_u32 in Hb.
  rewrite pack_arith by (unfold is_u32; lia).
  pose proof (epoch_of_u32 w) as He. unfold is_u32 in He.
  rewrite (unpack w Hw) at 1. rewrite pack_arith by done.
  rewrite wrapu_small; lia.
Qed.

#[export] Hint Resolve pack_u64 count_of_u32 epoch_of_u32 : rah.
#[export] Hint Rewrite epoch_of_pack count_of_pack using (auto with rah; unfold is_u32; lia) : rah.

(** The count of the window [epoch]: a word of another epoch counts as 0. *)
Definition view (epoch w : Z) : Z := if epoch_of w =? epoch then count_of w else 0.

Lemma view_pack e c : is_u32 e -> is_u32 c -> view e (pack e c) = c.
Proof.
  intros He Hc. unfold view. rewrite epoch_of_pack, count_of_pack by done. by rewrite Z.eqb_refl.
Qed.

Lemma view_bound e w : 0 <= view e w < 2 ^ 32.
Proof. unfold view. destruct (epoch_of w =? e); [apply count_of_u32|lia]. Qed.

(** ** The fixed-window counter *)

(** What one admission attempt in window [epoch] does to the abstract count. *)
Definition window_post (epoch limit w : Z) (res : Z * (bool * Z)) : Prop :=
  let '(w', (ok, remaining)) := res in
  is_u64 w' /\
  if view epoch w <? limit
  then ok = true /\ view epoch w' = view epoch w + 1 /\ remaining = limit - (view epoch w + 1)
  else ok = false /\ w' = w /\ remaining = 0.

Lemma FixedWindowEpoch_spec epoch limit w :
  is_u32 epoch -> is_u32 limit -> limit <> 0 -> is_u64 w ->
  window_post epoch limit w (atomically (FixedWindowEpoch epoch limit) w).
Proof.
  intros He Hl Hn Hw. unfold window_post, atomically, FixedWindowEpoch, view.
  unfold is_u32 in Hl. destruct (Z.eqb_spec (epoch_of w) epoch) as [E|E]; cbn [negb].
  - pose proof (count_of_u32 w) as Hc. unfold is_u32 in Hc.
    destruct (Z.ltb_spec (count_of w) limit) as [Hlt|Hge].
    2: { by rewrite (proj2 (Z.leb_le limit (count_of w))) by done. }
    rewrite (proj2 (Z.leb_gt limit (count_of w))) by done.
    assert (is_u32 (count_of w + 1)) by (unfold is_u32; lia).
    rewrite (wrapu_small 32 (count_of w + 1)) by lia. rewrite pack_succ by (done || lia).
    rewrite epoch_of_pack, count_of_pack, E, Z.eqb_refl by (done || apply epoch_of_u32).
    split; [apply pack_u64; done|]. split; [done|]. split; [done|].
    destruct (Z.ltb_spec (count_of w + 1) limit); [apply wrapu_small|]; lia.
  - rewrite (proj2 (Z.ltb_lt 0 limit)) by lia.
    rewrite epoch_of_pack, count_of_pack, Z.eqb_refl by (done || unfold is_u32; lia).
    split; [apply pack_u64; [done|unfold is_u32; lia]|]. split; [done|]. split; [done|].
    destruct (Z.ltb_spec 1 limit); [apply wrapu_small|]; lia.
Qed.

(** With a non-zero limit the three counters of the engine run the same loop. *)
Lemma counterEpochCAS_eq epoch limit w :
  limit <> 0 -> counterEpochCAS epoch limit w = FixedWindowEpoch epoch limit w.
Proof. intros H. unfold counterEpochCAS. by rewrite (proj2 (Z.eqb_neq limit 0)). Qed.

Lemma counterEpochCAS_spec epoch limit w :
  is_u32 epoch -> is_u32 limit -> limit <> 0 -> is_u64 w ->
  window_post epoch limit w (atomically (counterEpochCAS epoch limit) w).
Proof.
  intros. unfold atomically. rewrite counterEpochCAS_eq by done. by apply FixedWindowEpoch_spec.
Qed.

Lemma upstreamEpochAllow_eq epoch limit w :
  atomically (upstreamEpochAllow epoch limit) w =
  let '(w', r) := atomically (FixedWindowEpoch epoch limit) w in (w', r.1).
Proof.
  unfold atomically, upstreamEpochAllow, FixedWindowEpoch.
  destruct (negb _); [done|]. by destruct (limit <=? count_of w).
Qed.

(** ** Concurrent admission *)

(** The requests that were admitted, in a log of answers. *)
Definition admitted {B} (log : list (B * (bool * Z))) : Z :=
  Z.of_nat (length (filter (fun e => e.2.1 = true) log)).

Lemma admitted_snoc {B} (log : list (B * (bool * Z))) b ok rem :
  admitted (log ++ [(b, (ok, rem))]) = admitted log + (if ok : bool then 1 else 0).
Proof.
  unfold admitted. rewrite filter_app, length_app.
  destruct ok; [rewrite filter_cons_True by done|rewrite filter_cons_False by done];
    rewrite filter_nil; simpl; lia.
Qed.

Lemma window_runs epoch limit w log w' :
  is_u32 epoch -> is_u32 limit -> limit <> 0 -> is_u64 w ->
  runs w log w' -> Forall (fun e => e.1 = counterEpochCAS epoch limit) log ->
  is_u64 w' /\ view epoch w' = view epoch w + admitted log /\
  admitted log = Z.min (Z.of_nat (length log)) (Z.max 0 (limit - view epoch w)).
Proof.
  intros He Hl Hn Hw Hr. pose proof (view_bound epoch w) as Hv.
  induction Hr as [w|w log w1 b w2 [ok rem] Hr IH Hb]; intros Hf.
  - unfold admitted. rewrite filter_nil. simpl length. split; [done|]. lia.
  - apply Forall_app in Hf as [Hf [Hb' _]%Forall_cons]. cbn [fst] in Hb'. subst b.
    destruct (IH Hw Hv Hf) as (Hw1 & Hv1 & Ha).
    pose proof (counterEpochCAS_spec epoch limit w1 He Hl Hn Hw1) as Hp. rewrite Hb in Hp.
    destruct Hp as [Hw2 Hp]. rewrite admitted_snoc, length_app. simpl length.
    destruct (Z.ltb_spec (view epoch w1) limit).
    + destruct Hp as (-> & Hv2 & _). split; [done|]. lia.
    + destruct Hp as (-> & -> & _). split; [done|]. lia.
Qed.

(** C7: exact admission under contention.  However the loads and swaps of
    [n] goroutines interleave on one counter word, at every moment the number
    of admitted requests is the number of answered ones, capped by what the
    window had left: no interleaving admits one request too many or refuses
    one too early. *)
Theorem window_admits_exactly epoch limit w n c :
  is_u32 epoch -> is_u32 limit -> limit <> 0 -> is_u64 w ->
  rtc cas_step (start w (replicate n (counterEpochCAS epoch limit))) c ->
  admitted (cf_log c) =
  Z.min (Z.of_nat (length (cf_log c))) (Z.max 0 (limit - view epoch w)).
Proof.
  intros He Hl Hn Hw Hc. pose proof (cas_linearizable _ _ _ Hc) as Hr.
  destruct (cas_log_inv _ _ _ Hc) as (_ & _ & Hf).
  apply (window_runs epoch limit w (cf_log c) (cf_slot c)); try done.
  eapply Forall_impl; [exact Hf|]. intros e. simpl. rewrite elem_of_replicate. by intros [-> _].
Qed.

(** Three goroutines, a limit of two: two are admitted. *)
Lemma window_admits_exactly_witness :
  exists c, rtc cas_step (start 0 (replicate 3 (counterEpochCAS 7 2))) c /\
    length (cf_log c) = 3%nat /\ admitted (cf_log c) = 2.
Proof.
  assert (exists c, rtc cas_step (start 0 (replicate 3 (counterEpochCAS 7 2))) c /\
    length (cf_log c) = 3%nat) as (c & Hc & Hlen).
  { eexists. split.
    - eapply rtc_l; [eapply (step_load _ _ _ 0); reflexivity|].
      eapply rtc_l; [eapply (step_load _ _ _ 1); reflexivity|].
      eapply rtc_l; [eapply (step_cas_ok _ _ _ 0); reflexivity|].
      eapply rtc_l; [eapply (step_cas_fail _ _ _ 1); [reflexivity|vm_compute; discriminate]|].
      eapply rtc_l; [eapply (step_load _ _ _ 1); reflexivity|].
      eapply rtc_l; [eapply (step_cas_ok _ _ _ 1); reflexivity|].
      eapply rtc_l; [eapply (step_load_finish _ _ _ 2); reflexivity|].
      apply rtc_refl.
    - reflexivity. }
  exists c. split; [exact Hc|]. split; [exact Hlen|].
  rewrite (window_admits_exactly 7 2 0 3 c), Hlen by (exact Hc || (unfold is_u32, is_u64; lia)).
  vm_compute. reflexivity.
Defined.

(** ** Token-weighted counting *)

(** Without wrap-around, [counterEpochCASBy] admits exactly when the tokens
    still fit, charges exactly [delta], and leaves a refused window alone. *)
Lemma counterEpochCASBy_spec epoch limit delta w :
  is_u32 epoch -> is_u32 limit -> limit <> 0 -> is_u64 w -> 0 < delta ->
  view epoch w + delta < 2 ^ 32 ->
  let '(w', (ok, remaining)) := atomically (counterEpochCASBy epoch limit delta) w in
  is_u64 w' /\
  if view epoch w + delta <=? limit
  then ok = true /\ view epoch w' = view epoch w + delta /\ remaining = limit - (view epoch w + delta)
  else ok = false /\ w' = w /\ remaining = 0.
Proof.
  intros He Hl Hn Hw Hd Hov. unfold atomically, counterEpochCASBy, view in *. unfold is_u32 in Hl.
  rewrite (proj2 (Z.eqb_neq limit 0)), (proj2 (Z.eqb_neq delta 0)) by lia.
  destruct (Z.eqb_spec (epoch_of w) epoch) as [E|E]; cbn [negb].
  - pose proof (count_of_u32 w) as Hc. unfold is_u32 in Hc.
    assert (is_u32 (count_of w + delta)) by (unfold is_u32; lia).
    rewrite (wrapu_small 32 (count_of w + delta)) by lia.
    destruct (Z.leb_spec (count_of w + delta) limit) as [Hle|Hgt].
    2: { by rewrite (proj2 (Z.ltb_lt limit (count_of w + delta))) by done. }
    rewrite (proj2 (Z.ltb_ge limit (count_of w + delta))) by done.
    rewrite epoch_of_pack, count_of_pack, Z.eqb_refl by done.
    split; [by apply pack_u64|]. split; [done|]. split; [done|].
    destruct (Z.ltb_spec (count_of w + delta) limit); [apply wrapu_small|]; lia.
  - assert (is_u32 delta) by (unfold is_u32; lia). rewrite Z.add_0_l in *.
    destruct (Z.leb_spec delta limit) as [Hle|Hgt].
    2: { by rewrite (proj2 (Z.ltb_lt limit delta)) by done. }
    rewrite (proj2 (Z.ltb_ge limit delta)) by done.
    rewrite epoch_of_pack, count_of_pack, Z.eqb_refl by done.
    split; [by apply pack_u64|]. split; [done|]. split; [done|].
    destruct (Z.ltb_spec delta limit); [apply wrapu_small|]; lia.
Qed.

(** [count + delta] wraps at 32 bits.  A window that has already counted
    10 of 100 tokens refuses a request for 91 tokens, but admits one for
    4294967291 tokens and ends up with a lower count than before. *)
Theorem token_count_wraps :
  atomically (counterEpochCASBy 7 100 91) (pack 7 10) = (pack 7 10, (false, 0)) /\
  atomically (counterEpochCASBy 7 100 4294967291) (pack 7 10) = (pack 7 5, (true, 95)).
Proof. vm_compute. auto. Qed.

(** ** Arenas *)

Lemma at_slot_spec slots idx b w :
  0 <= idx -> slots !! Z.to_nat idx = Some w ->
  at_slot slots idx b = Ret (<[Z.to_nat idx:=(atomically b w).1]> slots, (atomically b w).2).
Proof.
  intros Hi Hw. unfold at_slot, go_index. rewrite (proj2 (Z.ltb_ge idx 0)) by done.
  rewrite Hw. cbn [obind]. by destruct (atomically b w).
Qed.

Record tenant_arena_ok (a : TenantCounterArena) : Prop := {
  ta_windows : 0 < numWindows a;
  ta_length : Z.of_nat (length (tc_slots a)) = maxTenants a * numWindows a;
  ta_words : Forall is_u64 (tc_slots a)
}.

Lemma NewTenantCounterArena_ok maxT numW : tenant_arena_ok (NewTenantCounterArena maxT numW).
Proof.
  unfold NewTenantCounterArena. split; cbn [numWindows maxTenants tc_slots].
  - destruct (Z.leb_spec numW 0); lia.
  - rewrite length_replicate. destruct (Z.leb_spec numW 0), (Z.leb_spec maxT 0); lia.
  - apply Forall_replicate. unfold is_u64. lia.
Qed.

Definition tenant_in_range (a : TenantCounterArena) (t win : Z) : Prop :=
  0 <= t < maxTenants a /\ 0 <= win < numWindows a.

Lemma tenant_range_bool a t win :
  tenant_in_range a t win -> tenant_out_of_range a t win = false.
Proof.
  intros [[? ?] [? ?]]. unfold tenant_out_of_range.
  by rewrite (proj2 (Z.leb_gt _ t)), (proj2 (Z.ltb_ge win 0)), (proj2 (Z.leb_gt _ win)) by lia.
Qed.

Lemma tenant_index_bound a t win :
  tenant_in_range a t win -> 0 <= tenant_index a t win < maxTenants a * numWindows a.
Proof. intros [[? ?] [? ?]]. unfold tenant_index. nia. Qed.

(** Distinct (tenant, window) pairs never share a word. *)
Lemma tenant_index_inj a t1 w1 t2 w2 :
  tenant_in_range a t1 w1 -> tenant_in_range a t2 w2 ->
  tenant_index a t1 w1 = tenant_index a t2 w2 -> t1 = t2 /\ w1 = w2.
Proof.
  intros [[? ?] [? ?]] [[? ?] [? ?]]. unfold tenant_index. intros E.
  assert (t1 = t2) by nia. subst. lia.
Qed.

Lemma tenant_slot a t win :
  tenant_arena_ok a -> tenant_in_range a t win ->
  exists w, tc_slots a !! Z.to_nat (tenant_index a t win) = Some w /\ is_u64 w.
Proof.
  intros [Hn Hl Hf] Hr. pose proof (tenant_index_bound a t win Hr) as Hb.
  destruct (lookup_lt_is_Some_2 (tc_slots a) (Z.to_nat (tenant_index a t win))) as [w Hw]; [lia|].
  exists w. split; [done|]. by eapply Forall_lookup_1 in Hf.
Qed.

Lemma read_view packed e : (if negb (epoch_of packed =? e) then 0 else u32 packed) = view e packed.
Proof.
  unfold view. destruct (epoch_of packed =? e); [|done]. cbn [negb]. by rewrite count_of_mod.
Qed.

Lemma TenantReadCurrent_spec a t win e w :
  tenant_in_range a t win -> tc_slots a !! Z.to_nat (tenant_index a t win) = Some w ->
  TenantReadCurrent a t win e = Ret (view e w).
Proof.
  intros Hr Hw. unfold TenantReadCurrent. rewrite tenant_range_bool by done.
  pose proof (tenant_index_bound a t win Hr). unfold go_index.
  rewrite (proj2 (Z.ltb_ge _ 0)) by lia. rewrite Hw. cbn [obind]. by rewrite read_view.
Qed.

(** C36: tenant counters are exact and isolated.  In a well-formed arena an
    increment never panics, answers from the count [ReadCurrent] reports for
    that tenant and window, adds one to it exactly when it admits, keeps the
    arena well formed, and leaves the count of every other tenant and window
    unchanged. *)
Theorem tenant_increment_isolated a t win epoch limit :
  tenant_arena_ok a -> tenant_in_range a t win ->
  is_u32 epoch -> is_u32 limit -> limit <> 0 ->
  exists a' ok remaining n,
    TenantIncrement a t win epoch limit = Ret (a', (ok, remaining)) /\ tenant_arena_ok a' /\
    TenantReadCurrent a t win epoch = Ret n /\
    ok = (n <? limit) /\
    TenantReadCurrent a' t win epoch = Ret (if ok then n + 1 else n) /\
    (ok = true -> remaining = limit - (n + 1)) /\
    forall t' win' epoch', tenant_in_range a t' win' -> (t', win') <> (t, win) ->
      TenantReadCurrent a' t' win' epoch' = TenantReadCurrent a t' win' epoch'.
Proof.
  intros Hok Hr He Hl Hn. destruct (tenant_slot a t win Hok Hr) as (w & Hw & Hw64).
  pose proof (tenant_index_bound a t win Hr) as Hb.
  pose proof (counterEpochCAS_spec epoch limit w He Hl Hn Hw64) as Hp.
  unfold TenantIncrement. rewrite (proj2 (Z.eqb_neq limit 0)), tenant_range_bool by done.
  rewrite (at_slot_spec _ _ _ w) by (done || lia).
  destruct (atomically (counterEpochCAS epoch limit) w) as [w' [ok rem]] eqn:Ea.
  cbn [obind fst snd]. destruct Hp as [Hw' Hp].
  set (a' := mkTenantArena _ _ _).
  assert (tc_slots a' !! Z.to_nat (tenant_index a' t win) = Some w') as Hwa'.
  { apply list_lookup_insert_eq. by eapply lookup_lt_Some. }
  exists a', ok, rem, (view epoch w). split; [done|]. split; [|split; [|split; [|split; [|split]]]].
  - destruct Hok as [H1 H2 H3]. split; [done| |by apply Forall_insert].
    unfold a'. cbn [tc_slots maxTenants numWindows]. by rewrite length_insert.
  - by apply TenantReadCurrent_spec.
  - destruct (view epoch w <? limit); by destruct Hp as [-> _].
  - rewrite (TenantReadCurrent_spec a' t win epoch w') by done. f_equal.
    destruct (view epoch w <? limit); destruct Hp as (-> & Hv & _); [done|by subst].
  - intros ->. destruct (view epoch w <? limit); [by destruct Hp as (_ & _ & ->)|by destruct Hp].
  - intros t' win' epoch' Hr' Hne. destruct (tenant_slot a t' win' Hok Hr') as (v & Hv & _).
    rewrite (TenantReadCurrent_spec a _ _ _ v) by assumption.
    apply TenantReadCurrent_spec; [exact Hr'|].
    pose proof (tenant_index_bound a t' win' Hr').
    unfold a'. cbn [tc_slots]. rewrite list_lookup_insert_ne; [exact Hv|].
    intros E. apply Hne.
    change (Z.to_nat (tenant_index a t win) = Z.to_nat (tenant_index a t' win')) in E.
    apply Z2Nat.inj in E; [|lia|lia].
    destruct (tenant_index_inj a t win t' win' Hr Hr' E) as [-> ->]. reflexivity.
Qed.

Lemma tenant_increment_isolated_witness :
  exists a' ok remaining,
    TenantIncrement (NewTenantCounterArena 4 2) 3 1 28000000 5 = Ret (a', (ok, remaining)) /\
    ok = true /\ TenantReadCurrent a' 3 1 28000000 = Ret 1 /\
    TenantReadCurrent a' 2 1 28000000 = Ret 0.
Proof.
  destruct (tenant_increment_isolated (NewTenantCounterArena 4 2) 3 1 28000000 5)
    as (a' & ok & rem & n & H1 & _ & H3 & H4 & H5 & _ & H7).
  - apply NewTenantCounterArena_ok.
  - split; vm_compute; split; congruence.
  - unfold is_u32. lia.
  - unfold is_u32. lia.
  - lia.
  - vm_compute in H3. injection H3 as <-. vm_compute in H4. subst ok.
    exists a', true, rem. split; [exact H1|]. split; [reflexivity|]. split; [exact H5|].
    rewrite H7; [vm_compute; reflexivity| |congruence].
    split; vm_compute; split; congruence.
Defined.

(** ** The hashed arena *)

Lemma nextPow2_spec n :
  1 <= n -> exists k, 0 <= k /\ nextPow2 n = 2 ^ k /\ n <= 2 ^ k /\ (2 <= n -> 2 ^ k < 2 * n).
Proof.
  intros Hn. unfold nextPow2, bits_len. destruct (Z.leb_spec n 1).
  - exists 0. split; [lia|]. split; [done|]. change (2 ^ 0) with 1. lia.
  - rewrite (proj2 (Z.leb_gt (n - 1) 0)) by lia. exists (Z.log2 (n - 1) + 1).
    pose proof (Z.log2_nonneg (n - 1)). rewrite Z.shiftl_1_l.
    destruct (Z.log2_spec (n - 1)) as [H1 H2]; [lia|]. rewrite Z.add_1_r.
    split; [lia|]. split; [done|]. rewrite Z.pow_succ_r in * by lia. lia.
Qed.

Record slot_arena_ok (a : SlotCounterArena) : Prop := {
  sa_size : exists k, 0 <= k <= 32 /\ Z.of_nat (length (sc_slots a)) = 2 ^ k /\ sc_mask a = 2 ^ k - 1;
  sa_words : Forall is_u64 (sc_slots a)
}.

Lemma NewSlotCounterArena_ok size : size <= 2 ^ 32 -> slot_arena_ok (NewSlotCounterArena size).
Proof.
  intros Hs. unfold NewSlotCounterArena.
  set (n := if size <? 1024 then 1024 else size).
  assert (1024 <= n <= 2 ^ 32) as Hn by (unfold n; destruct (Z.ltb_spec size 1024); lia).
  destruct (nextPow2_spec n) as (k & Hk & -> & Hle & Hlt); [lia|].
  assert (k <= 32) as Hk32.
  { destruct (Z_le_gt_dec k 32); [done|]. assert (2 ^ 33 <= 2 ^ k) by (apply Z.pow_le_mono_r; lia).
    change (2 ^ 33) with (2 * 2 ^ 32) in *. lia. }
  assert (2 ^ k <= 2 ^ 32) by (apply Z.pow_le_mono_r; lia).
  split; cbn [sc_slots sc_mask].
  - exists k. rewrite length_replicate, wrapu_small by lia. lia.
  - apply Forall_replicate. unfold is_u64. lia.
Qed.

Lemma slot_index_bound a key win :
  slot_arena_ok a -> 0 <= slot_index a key win < Z.of_nat (length (sc_slots a)).
Proof.
  intros [(k & Hk & Hl & Hm) _]. unfold slot_index. rewrite Hm, Hl.
  replace (2 ^ k - 1) with (Z.ones k) by (rewrite Z.ones_equiv; lia).
  rewrite Z.land_ones by lia. apply Z.mod_pos_bound. lia.
Qed.

Lemma SlotReadCurrent_spec a key win e w :
  slot_arena_ok a -> sc_slots a !! Z.to_nat (slot_index a key win) = Some w ->
  SlotReadCurrent a key win e = Ret (view e w).
Proof.
  intros Hok Hw. unfold SlotReadCurrent, go_index. pose proof (slot_index_bound a key win Hok).
  rewrite (proj2 (Z.ltb_ge _ 0)) by lia. rewrite Hw. cbn [obind]. by rewrite read_view.
Qed.

(** the hashed arena.  In a well-formed arena (and every arena made by the
    constructor for a size up to 2^32 is one) no key, window index or limit
    can index a word out of range; an increment answers from the current count
    of the key's word, adds one exactly when it admits, and changes the count
    of no key that hashes to another word. *)
Theorem slot_increment_safe a key win epoch limit :
  slot_arena_ok a -> is_u32 epoch -> is_u32 limit -> limit <> 0 ->
  exists a' ok remaining n,
    SlotIncrement a key win epoch limit = Ret (a', (ok, remaining)) /\ slot_arena_ok a' /\
    SlotReadCurrent a key win epoch = Ret n /\ ok = (n <? limit) /\
    SlotReadCurrent a' key win epoch = Ret (if ok then n + 1 else n) /\
    forall key' win' epoch', slot_index a key' win' <> slot_index a key win ->
      SlotReadCurrent a' key' win' epoch' = SlotReadCurrent a key' win' epoch'.
Proof.
  intros Hok He Hl Hn. pose proof (slot_index_bound a key win Hok) as Hb.
  destruct (lookup_lt_is_Some_2 (sc_slots a) (Z.to_nat (slot_index a key win))) as [w Hw]; [lia|].
  assert (is_u64 w) as Hw64 by (destruct Hok as [_ Hf]; by eapply Forall_lookup_1 in Hf).
  pose proof (counterEpochCAS_spec epoch limit w He Hl Hn Hw64) as Hp.
  unfold SlotIncrement. rewrite (proj2 (Z.eqb_neq limit 0)) by done.
  rewrite (at_slot_spec _ _ _ w) by (assumption || lia).
  destruct (atomically (counterEpochCAS epoch limit) w) as [w' [ok rem]].
  cbn [obind fst snd]. destruct Hp as [Hw' Hp]. set (a' := mkSlotArena _ _).
  assert (slot_arena_ok a') as Hok'.
  { destruct Hok as [(k & Hk & Hlen & Hm) Hf]. split.
    - exists k. unfold a'. cbn [sc_slots sc_mask]. rewrite length_insert.
      exact (conj Hk (conj Hlen Hm)).
    - by apply Forall_insert. }
  exists a', ok, rem, (view epoch w). split; [reflexivity|]. split; [exact Hok'|].
  split; [by apply SlotReadCurrent_spec|]. split; [|split].
  - destruct (view epoch w <? limit); by destruct Hp as [-> _].
  - rewrite (SlotReadCurrent_spec a' key win epoch w' Hok') by (apply list_lookup_insert_eq; lia).
    f_equal. destruct (view epoch w <? limit); destruct Hp as (-> & Hv & _); [done|by subst].
  - intros key' win' epoch' Hne. pose proof (slot_index_bound a key' win' Hok) as Hb'.
    destruct (lookup_lt_is_Some_2 (sc_slots a) (Z.to_nat (slot_index a key' win'))) as [v Hv']; [lia|].
    rewrite (SlotReadCurrent_spec a key' win' epoch' v Hok Hv').
    apply (SlotReadCurrent_spec a' key' win' epoch' v Hok').
    unfold a'. cbn [sc_slots]. rewrite list_lookup_insert_ne; [exact Hv'|].
    change (Z.to_nat (slot_index a key win) <> Z.to_nat (slot_index a key' win')).
    intros E. apply Z2Nat.inj in E; [by apply Hne|lia|lia].
Qed.

Lemma slot_increment_safe_witness :
  exists a' ok remaining,
    SlotIncrement (NewSlotCounterArena 10) (bytes_of "10.0.0.1") 0 28000000 5
      = Ret (a', (ok, remaining)) /\
    ok = true /\ SlotReadCurrent a' (bytes_of "10.0.0.1") 0 28000000 = Ret 1.
Proof.
  destruct (slot_increment_safe (NewSlotCounterArena 10) (bytes_of "10.0.0.1") 0 28000000 5)
    as (a' & ok & rem & n & H1 & _ & H3 & H4 & H5 & _).
  - apply NewSlotCounterArena_ok. lia.
  - unfold is_u32. lia.
  - unfold is_u32. lia.
  - lia.
  - vm_compute in H3. injection H3 as <-. vm_compute in H4. subst ok.
    exists a', true, rem. split; [exact H1|]. split; [reflexivity|]. exact H5.
Defined.

(** ** The registry of arenas *)

(** Registering an identifier again keeps the arena, and so the counters, that
    it has. *)
Lemma register_preserves r id numW maxT arena r' :
  TenantArena (Some r) id = Ret (Some arena) ->
  RegisterTenantConfig r id numW maxT = Ret r' -> r' = r.
Proof.
  unfold TenantArena, RegisterTenantConfig. destruct (reg_cap r <=? id); [done|].
  intros ->. cbn [obind]. congruence.
Qed.

(** ** The token bucket *)

Lemma TokenBucket_spec rate burst now w :
  is_u64 w -> is_u32 now -> is_u32 burst -> epoch_of w <= now -> 0 <= rate ->
  count_of w + (now - epoch_of w) * rate < 2 ^ 32 ->
  let tokens := Z.min (count_of w + (now - epoch_of w) * rate) burst in
  atomically (TokenBucket rate burst now) w =
  if tokens <? 1 then (w, (false, 0)) else (pack now (tokens - 1), (true, tokens - 1)).
Proof.
  intros Hw Hn Hb Hle Hr Hov tokens. pose proof (count_of_u32 w) as Hc. pose proof (epoch_of_u32 w) as He.
  unfold is_u32 in *. unfold atomically, TokenBucket.
  assert (0 <= (now - epoch_of w) * rate) by nia.
  rewrite (wrapu_small 32 (now - epoch_of w)) by lia.
  rewrite (wrapu_small 32 ((now - epoch_of w) * rate)) by lia.
  rewrite (wrapu_small 32 (count_of w + _)) by lia. fold tokens.
  destruct (Z.ltb_spec tokens 1); [done|]. rewrite wrapu_small by lia. done.
Qed.

(** Without that bound: never more tokens than the refill or the burst allow. *)
Lemma TokenBucket_le rate burst now w :
  is_u64 w -> is_u32 now -> is_u32 burst -> epoch_of w <= now -> 0 <= rate ->
  atomically (TokenBucket rate burst now) w = (w, (false, 0)) \/
  exists k, 0 <= k < burst /\ k + 1 <= count_of w + (now - epoch_of w) * rate /\
    atomically (TokenBucket rate burst now) w = (pack now k, (true, k)).
Proof.
  intros Hw Hn Hb Hle Hr. pose proof (count_of_u32 w) as Hc. pose proof (epoch_of_u32 w) as He.
  unfold is_u32 in *. unfold atomically, TokenBucket. assert (0 <= (now - epoch_of w) * rate) as H0 by nia.
  rewrite (wrapu_small 32 (now - epoch_of w)) by lia.
  set (x := (now - epoch_of w) * rate) in *. pose proof (Z.mod_le x (2 ^ 32) H0 ltac:(lia)) as Hx.
  pose proof (Z.mod_pos_bound x (2 ^ 32) ltac:(lia)).
  pose proof (Z.mod_le (count_of w + u32 x) (2 ^ 32) ltac:(unfold wrapu; lia) ltac:(lia)) as Hy.
  unfold wrapu in *. set (tok := Z.min _ burst).
  assert (tok <= burst /\ tok <= count_of w + x) as [Ht1 Ht2] by (unfold tok; lia).
  destruct (Z.ltb_spec tok 1); [by left|]. right. exists (tok - 1). rewrite Z.mod_small by lia.
  split; [lia|]. split; [lia|]. done.
Qed.

(** Requests at the times [ts], one after the other on one bucket. *)
Fixpoint bucket_run (rate burst : Z) (w : Z) (ts : list Z) : Z * Z :=
  match ts with
  | [] => (w, 0)
  | t :: ts' =>
    let '(w', (ok, _)) := atomically (TokenBucket rate burst t) w in
    let '(w'', n) := bucket_run rate burst w' ts' in
    (w'', n + if ok then 1 else 0)
  end.

Lemma bucket_run_bound rate burst w ts t0 tn :
  is_u64 w -> is_u32 burst -> 0 <= rate -> epoch_of w <= t0 ->
  StronglySorted Z.le (t0 :: ts) -> Forall (fun t => t <= tn) (t0 :: ts) -> is_u32 tn ->
  (bucket_run rate burst w ts).2 <= count_of w + rate * (tn - epoch_of w).
Proof.
  intros Hw Hb Hr He Hs Hf Hn. revert w t0 Hw He Hs Hf.
  induction ts as [|t ts IH]; intros w t0 Hw He Hs Hf; cbn [bucket_run snd].
  - pose proof (count_of_u32 w). inversion Hf; subst. unfold is_u32 in *. nia.
  - pose proof (epoch_of_u32 w) as Heu.
    inversion Hs as [|? ? Hs1 Hle1]; subst. inversion Hf as [|? ? ? Hf1]; subst.
    inversion Hle1; subst. inversion Hf1; subst. assert (is_u32 t) as Ht by (unfold is_u32 in *; lia).
    destruct (TokenBucket_le rate burst t w Hw Ht Hb ltac:(lia) Hr) as [->|(k & Hk & Hkt & ->)].
    + specialize (IH w t Hw ltac:(lia) Hs1 Hf1). destruct (bucket_run rate burst w ts). cbn [snd] in *. lia.
    + assert (is_u32 k) as Hk32 by (unfold is_u32 in *; lia).
      specialize (IH (pack t k) t (pack_u64 _ _ Ht Hk32)).
      rewrite (epoch_of_pack t k), (count_of_pack t k) in IH by done. specialize (IH ltac:(lia) Hs1 Hf1).
      destruct (bucket_run rate burst (pack t k) ts). cbn [snd] in *. nia.
Qed.

Lemma bucket_run_burst rate burst w t1 ts tn :
  is_u64 w -> is_u32 burst -> 0 <= rate -> epoch_of w <= t1 ->
  StronglySorted Z.le (t1 :: ts) -> Forall (fun t => t <= tn) (t1 :: ts) -> is_u32 tn ->
  (bucket_run rate burst w (t1 :: ts)).2 <= burst + rate * (tn - t1).
Proof.
  intros Hw Hb Hr He Hs Hf Hn. revert t1 He Hs Hf.
  induction ts as [|t2 ts IH]; intros t1 He Hs Hf; inversion Hs as [|? ? Hs1 Hle1]; subst;
    inversion Hf as [|? ? Ht1n Hf1]; subst; pose proof (epoch_of_u32 w) as Heu;
    assert (is_u32 t1) as Ht by (unfold is_u32 in *; lia); cbn [bucket_run];
    destruct (TokenBucket_le rate burst t1 w Hw Ht Hb He Hr) as [->|(k & Hk & _ & ->)].
  - cbn. unfold is_u32 in *. nia.
  - cbn. nia.
  - inversion Hle1; subst. specialize (IH t2 ltac:(lia) Hs1 Hf1). cbn [bucket_run] in IH.
    destruct (atomically (TokenBucket rate burst t2) w) as [w2 [ok2 r2]]. destruct (bucket_run rate burst w2 ts). cbn [snd] in *. nia.
  - assert (is_u32 k) as Hk32 by (unfold is_u32 in *; lia).
    pose proof (bucket_run_bound rate burst (pack t1 k) (t2 :: ts) t1 tn (pack_u64 _ _ Ht Hk32) Hb Hr) as Hrun.
    rewrite (epoch_of_pack t1 k), (count_of_pack t1 k) in Hrun by done. specialize (Hrun ltac:(lia) Hs Hf Hn).
    cbn [bucket_run] in Hrun.
    destruct (atomically (TokenBucket rate burst t2) (pack t1 k)) as [w2 [ok2 r2]]. destruct (bucket_run rate burst w2 ts).
    cbn [snd] in *. lia.
Qed.

(** C29: token-bucket conformance.  Requests that reach the bucket in time
    order, from time [t1] to time [tn], are admitted at most [burst] times
    plus [rate] per elapsed second, whatever word the bucket held before, as
    long as that word is not from the future; also when the refill arithmetic
    wraps around.  And where it does not wrap, a request is admitted exactly
    when the tokens left over plus the refill, cut at [burst], make at least
    one, takes exactly one of them and reports how many are left. *)
Theorem token_bucket_conformance rate burst w :
  is_u64 w -> is_u32 burst -> 0 <= rate ->
  (forall t1 ts tn, epoch_of w <= t1 ->
     StronglySorted Z.le (t1 :: ts) -> Forall (fun t => t <= tn) (t1 :: ts) -> is_u32 tn ->
     (bucket_run rate burst w (t1 :: ts)).2 <= burst + rate * (tn - t1)) /\
  (forall now, is_u32 now -> epoch_of w <= now -> count_of w + (now - epoch_of w) * rate < 2 ^ 32 ->
     let tokens := Z.min (count_of w + (now - epoch_of w) * rate) burst in
     atomically (TokenBucket rate burst now) w =
     if tokens <? 1 then (w, (false, 0)) else (pack now (tokens - 1), (true, tokens - 1))).
Proof.
  intros Hw Hb Hr. split.
  - intros t1 ts tn He Hs Hf Hn. by apply bucket_run_burst.
  - intros now Hn He Hov. by apply TokenBucket_spec.
Qed.

(** A bucket in use, and a fresh one (the word 0) at today's time with a rate
    whose first refill wraps. *)
Lemma token_bucket_conformance_witness :
  (let r := bucket_run 2 5 (pack 100 5) [100; 100; 100; 100; 100; 100; 101; 101; 101] in
   r.2 = 7 /\ r.2 <= 5 + 2 * (101 - 100)) /\
  (let r := bucket_run 3 2 0 [1750000000; 1750000000; 1750000000; 1750000001] in r.2 = 3 /\ r.2 <= 2 + 3 * 1) /\
  atomically (TokenBucket 2 5 101) (pack 100 1) = (pack 101 2, (true, 2)).
Proof.
  split; [|split].
  - split; [vm_compute; reflexivity|].
    destruct (token_bucket_conformance 2 5 (pack 100 5)) as [H _];
      [apply pack_u64; unfold is_u32; lia|unfold is_u32; lia|lia|].
    apply (H 100 [100; 100; 100; 100; 100; 101; 101; 101] 101);
      [vm_compute; congruence|repeat constructor; lia|repeat constructor; lia|unfold is_u32; lia].
  - split; [vm_compute; reflexivity|].
    destruct (token_bucket_conformance 3 2 0) as [H _]; [unfold is_u64; lia|unfold is_u32; lia|lia|].
    apply (H 1750000000 [1750000000; 1750000000; 1750000001] 1750000001);
      [vm_compute; congruence|repeat constructor; lia|repeat constructor; lia|unfold is_u32; lia].
  - destruct (token_bucket_conformance 2 5 (pack 100 1)) as [_ H];
      [apply pack_u64; unfold is_u32; lia|unfold is_u32; lia|lia|].
    rewrite (H 101); [vm_compute; reflexivity|unfold is_u32; lia|vm_compute; congruence|vm_compute; reflexivity].
Defined.

(** the order hypothesis of the token bucket is needed.  The clock is
    read before the loop, so a goroutine can reach an empty bucket that was
    last updated one second after its own reading; the unsigned subtraction
    wraps and the bucket is refilled to the brim instead of refusing. *)
Theorem token_bucket_stale_clock :
  atomically (TokenBucket 5 10 101) (pack 101 0) = (pack 101 0, (false, 0)) /\
  atomically (TokenBucket 5 10 100) (pack 101 0) = (pack 100 9, (true, 9)).
Proof. vm_compute. auto. Qed.

(** ** Multi-window limiters *)

Definition window_ok (now : Z) (w : UpstreamRateWindow) : Prop :=
  is_u64 (rw_slot w) /\ is_u32 (rw_limit w) /\ rw_limit w <> 0 /\ is_u32 (now / rw_epochDiv w).

(** The calls counted in the current window of [w]. *)
Definition used (now : Z) (w : UpstreamRateWindow) : Z := view (now / rw_epochDiv w) (rw_slot w).

Definition has_room (now : Z) (w : UpstreamRateWindow) : bool := used now w <? rw_limit w.

(** [w'] is [w] with one more call counted. *)
Definition charged (now : Z) (w w' : UpstreamRateWindow) : Prop :=
  rw_epochDiv w' = rw_epochDiv w /\ rw_limit w' = rw_limit w /\ used now w' = used now w + 1.

Lemma upstreamEpochAllow_spec now w :
  window_ok now w ->
  let '(slot', ok) := atomically (upstreamEpochAllow (now / rw_epochDiv w) (rw_limit w)) (rw_slot w) in
  ok = has_room now w /\
  let w' := mkRateWindow (rw_epochDiv w) (rw_limit w) slot' in
  if ok then charged now w w' else w' = w.
Proof.
  intros (Hs & Hl & Hn & He).
  pose proof (FixedWindowEpoch_spec _ _ _ He Hl Hn Hs) as Hp.
  rewrite upstreamEpochAllow_eq. unfold has_room, used, charged.
  destruct (atomically (FixedWindowEpoch _ _) _) as [s' [ok rem]]. cbn [fst]. destruct Hp as [_ Hp].
  destruct (view (now / rw_epochDiv w) (rw_slot w) <? rw_limit w).
  - destruct Hp as (-> & Hv & _). done.
  - destruct Hp as (-> & -> & _). split; [done|]. by destruct w.
Qed.

Lemma Allow_spec now ws :
  Forall (window_ok now) ws ->
  let '(ws', ok) := Allow now ws in
  ok = forallb (has_room now) ws /\
  if ok then Forall2 (charged now) ws ws'
  else exists pre pre' full post,
    ws = pre ++ full :: post /\ ws' = pre' ++ full :: post /\
    Forall2 (charged now) pre pre' /\ has_room now full = false.
Proof.
  induction ws as [|w ws IH]; intros Hf; cbn [Allow forallb]; [split; [done|constructor]|].
  apply Forall_cons in Hf as [Hw Hf]. specialize (IH Hf).
  pose proof (upstreamEpochAllow_spec now w Hw) as Hp.
  destruct (atomically _ _) as [s' ok]. destruct Hp as [Hok Hp]. destruct ok.
  - rewrite <- Hok. cbn [andb]. destruct (Allow now ws) as [ws'' r]. destruct IH as [-> IH].
    split; [done|]. destruct (forallb (has_room now) ws); [by constructor|].
    destruct IH as (pre & pre' & full & post & -> & -> & Hpre & Hfull).
    eexists (w :: pre), (_ :: pre'), full, post.
    split; [done|]. split; [done|]. split; [by constructor|done].
  - rewrite <- Hok. cbn [andb]. split; [done|]. exists [], [], w, ws.
    rewrite Hp. split; [done|]. split; [done|]. split; [constructor|done].
Qed.

(** the multi-window limiter.  [Allow] admits a call exactly when every
    configured window has room; an admitted call is counted once in every
    window, and a refused one only in the windows before the first full one. *)
Theorem allow_all_windows now ws :
  Forall (window_ok now) ws ->
  let '(ws', ok) := Allow now ws in
  ok = forallb (has_room now) ws /\
  if ok then Forall2 (charged now) ws ws'
  else exists pre pre' full post,
    ws = pre ++ full :: post /\ ws' = pre' ++ full :: post /\
    Forall2 (charged now) pre pre' /\ has_room now full = false.
Proof. apply Allow_spec. Qed.

Lemma allow_all_windows_witness :
  let ws := [UpstreamWindowFromWindow "second" 2; UpstreamWindowFromWindow "minute" 60] in
  exists ws', Allow 1700000000 ws = (ws', true) /\ Forall2 (charged 1700000000) ws ws'.
Proof.
  intros ws. pose proof (allow_all_windows 1700000000 ws) as H.
  destruct (Allow 1700000000 ws) as [ws' ok] eqn:E. exists ws'.
  assert (Forall (window_ok 1700000000) ws) as Hok.
  { repeat constructor; vm_compute; congruence. }
  destruct (H Hok) as [Hb Hc]. vm_compute in Hb. subst ok. split; [reflexivity|exact Hc].
Defined.

(** The detail lookup finds the first window without room. *)
Lemma exhausted_window_spec now ws :
  (exhausted_window now ws = None) <-> forallb (has_room now) ws = true.
Proof.
  induction ws as [|w ws IH]; cbn [exhausted_window forallb]; [done|].
  unfold has_room at 1, used, view.
  set (n := if epoch_of (rw_slot w) =? now / rw_epochDiv w then count_of (rw_slot w) else 0).
  destruct (Z.leb_spec (rw_limit w) n) as [H|H].
  - by rewrite (proj2 (Z.ltb_ge n (rw_limit w))).
  - rewrite (proj2 (Z.ltb_lt n (rw_limit w))) by done. cbn [andb]. exact IH.
Qed.

(** [CheckUpstreamLimitWithDetail] is all or nothing.  Run by itself, a
    refused call changes no counter of any resource and names the first full
    window, and an admitted call is counted exactly once in every window. *)
Theorem detail_check_all_or_nothing reg key unix ws :
  reg !! key = Some ws -> Forall (window_ok (u32 unix)) ws ->
  let '(reg', (detail, ok)) := CheckUpstreamLimitWithDetail reg key unix in
  ok = forallb (has_room (u32 unix)) ws /\
  if ok then detail = None /\ exists ws', reg' = <[key:=ws']> reg /\ Forall2 (charged (u32 unix)) ws ws'
  else reg' = reg /\ is_Some detail.
Proof.
  intros Hk Hf. unfold CheckUpstreamLimitWithDetail. rewrite Hk.
  pose proof (exhausted_window_spec (u32 unix) ws) as He.
  pose proof (Allow_spec (u32 unix) ws Hf) as Ha.
  destruct (exhausted_window (u32 unix) ws) as [d|].
  - destruct (forallb (has_room (u32 unix)) ws); [|split; [done|eauto]].
    by apply proj2 in He; specialize (He eq_refl).
  - rewrite (proj1 He eq_refl) in *. destruct (Allow (u32 unix) ws) as [ws' ok].
    destruct Ha as [-> Ha]. split; [done|]. split; [done|]. eauto.
Qed.

Lemma detail_check_all_or_nothing_witness :
  let ws := [UpstreamWindowFromWindow "second" 2; mkRateWindow 60 1 (pack 28333333 1)] in
  let reg := RegisterUpstreamLimit ∅ "openai" ws in
  exists d, CheckUpstreamLimitWithDetail reg "openai" 1700000000 = (reg, (Some d, false)).
Proof.
  intros ws reg. pose proof (detail_check_all_or_nothing reg "openai" 1700000000 ws) as H.
  destruct (CheckUpstreamLimitWithDetail reg "openai" 1700000000) as [reg' [detail ok]].
  assert (reg !! "openai" = Some ws) as Hk by (vm_compute; reflexivity).
  assert (Forall (window_ok (u32 1700000000)) ws) as Hok.
  { repeat constructor; vm_compute; congruence. }
  destruct (H Hk Hok) as [Hb Hc]. vm_compute in Hb. subst ok. destruct Hc as [-> [d ->]].
  exists d. reflexivity.
Defined.

(** ** Cost windows *)

Definition cost_view (unix : Z) (w : UpstreamCostWindow) : Z :=
  view (u32 unix / cw_epochDiv w) (cw_slot w).

Definition cost_window_ok (w : UpstreamCostWindow) : Prop :=
  is_u64 (cw_slot w) /\ 0 < cw_epochDiv w.

Lemma cost_epoch_u32 unix w : cost_window_ok w -> is_u32 (u32 unix / cw_epochDiv w).
Proof.
  intros [_ Hd]. pose proof (wrapu_bound 32 unix) as Hb. unfold is_u32.
  split; [apply Z.div_pos; lia|]. apply Z.div_lt_upper_bound; [lia|]. nia.
Qed.

(** Recording adds the cost and reports whether the total passed the limit. *)
Lemma CostWindow_Record_spec w unix cost :
  cost_window_ok w -> is_u32 cost -> cost_view unix w + cost < 2 ^ 32 ->
  let '(w', exceeded) := CostWindow_Record w unix cost in
  cost_window_ok w' /\ cw_epochDiv w' = cw_epochDiv w /\ cw_limitMicro w' = cw_limitMicro w /\
  cost_view unix w' = cost_view unix w + cost /\
  exceeded = (cw_limitMicro w <? cost_view unix w + cost).
Proof.
  intros Hw Hc Hov. pose proof (cost_epoch_u32 unix w Hw) as He.
  unfold CostWindow_Record, atomically, cost_body, cost_view, view in *.
  pose proof (count_of_u32 (cw_slot w)) as Hcu. unfold is_u32 in Hc, Hcu.
  destruct (Z.eqb_spec (epoch_of (cw_slot w)) (u32 unix / cw_epochDiv w)) as [E|E]; cbn [negb].
  - rewrite (wrapu_small 32 (count_of (cw_slot w) + cost)) by lia.
    assert (is_u32 (count_of (cw_slot w) + cost)) as Hs by (unfold is_u32; lia).
    cbn [cw_slot cw_epochDiv cw_limitMicro].
    rewrite epoch_of_pack, count_of_pack, Z.eqb_refl by assumption.
    split; [split; [by apply pack_u64|apply Hw]|]. auto.
  - assert (is_u32 cost) as Hs by (unfold is_u32; lia).
    cbn [cw_slot cw_epochDiv cw_limitMicro].
    rewrite epoch_of_pack, count_of_pack, Z.eqb_refl by assumption.
    split; [split; [by apply pack_u64|apply Hw]|]. auto.
Qed.

Definition exceeds (unix cost : Z) (w : UpstreamCostWindow) : bool :=
  cw_limitMicro w <? cost_view unix w + cost.

(** the cost limiter.  While the accumulated cost fits in 32 bits, a
    recorded cost is added to every window of the model, and the limiter
    reports an excess exactly when some window's total passes its limit. *)
Theorem cost_limiter_records ws unix cost :
  Forall cost_window_ok ws -> is_u32 cost ->
  Forall (fun w => cost_view unix w + cost < 2 ^ 32) ws ->
  let '(ws', exceeded) := CostLimiter_Record ws unix cost in
  exceeded = existsb (exceeds unix cost) ws /\
  Forall2 (fun w w' => cw_limitMicro w' = cw_limitMicro w /\
                       cost_view unix w' = cost_view unix w + cost) ws ws'.
Proof.
  intros Hok Hc. induction ws as [|w ws IH]; cbn [CostLimiter_Record existsb]; intros Hov.
  { split; [done|constructor]. }
  apply Forall_cons in Hok as [Hw Hok]. apply Forall_cons in Hov as [Hwo Hov].
  pose proof (CostWindow_Record_spec w unix cost Hw Hc Hwo) as Hp.
  destruct (CostWindow_Record w unix cost) as [w' ex]. specialize (IH Hok Hov).
  destruct (CostLimiter_Record ws unix cost) as [ws' ex'].
  destruct Hp as (_ & _ & Hl & Hv & ->). destruct IH as [-> IH]. split; [done|]. by constructor.
Qed.

Lemma cost_limiter_records_witness :
  let ws := [mkCostWindow 60 1000000 (pack 28333333 900000); mkCostWindow 86400 5000000 0] in
  exists ws', CostLimiter_Record ws 1700000000 200000 = (ws', true).
Proof.
  intros ws. pose proof (cost_limiter_records ws 1700000000 200000) as H.
  destruct (CostLimiter_Record ws 1700000000 200000) as [ws' ex]. exists ws'.
  destruct H as [Hb _].
  - repeat constructor; vm_compute; congruence.
  - unfold is_u32; lia.
  - repeat constructor; vm_compute; congruence.
  - vm_compute in Hb. by subst ex.
Defined.

(** the accumulated cost wraps at 32 bits.  A window 10 micro-USD below
    2^32 and far beyond its limit reports no excess for the next 100
    micro-USD and starts over from 90. *)
Theorem cost_wraps :
  CostWindow_Record (mkCostWindow 60 1000000 (pack 28333333 4294967286)) 1700000000 100 =
  (mkCostWindow 60 1000000 (pack 28333333 90), false).
Proof. vm_compute. reflexivity. Qed.
