(* ===== verification/Interleave.v ===== *)
(** * Goroutines as programs of atomic actions

    Code that touches shared memory through several atomic operations is
    modelled as a program: a tree of atomic actions, each of which updates the
    shared state and hands the state it found to the rest of the program.  A
    program can be run alone ([run]) or interleaved with any number of others,
    one atomic action at a time ([pstep]). *)

From S2P Require Import Prelude.
From stdpp Require Import base numbers list relations.

Inductive prog (S A : Type) : Type :=
| Return (a : A)
| Op (act : S -> S) (k : S -> prog S A).
Arguments Return {S A} a.
Arguments Op {S A} act k.

(** An atomic load: continue with the state as it is. *)
Definition Get {S A} (k : S -> prog S A) : prog S A := Op (fun s => s) k.

(** A store: nothing is learnt. *)
Definition Put {S A} (f : S -> S) (k : prog S A) : prog S A := Op f (fun _ => k).

(** An atomic add: the action, then the field's new value. *)
Definition AddGet {S A} (f : S -> S) (field : S -> Z) (k : Z -> prog S A) : prog S A :=
  Op f (fun s => k (field (f s))).

(** A compare-and-swap that succeeds exactly on the states satisfying [test]. *)
Definition Cas {S A} (test : S -> bool) (f : S -> S) (k : bool -> prog S A) : prog S A :=
  Op (fun s => if test s then f s else s) (fun s => k (test s)).

(** Running a program alone. *)
Fixpoint run {S A} (p : prog S A) (s : S) : S * A :=
  match p with
  | Return a => (s, a)
  | Op act k => run (k s) (act s)
  end.

(** Changing what a program returns. *)
Fixpoint pmap {S A B} (f : A -> B) (p : prog S A) : prog S B :=
  match p with
  | Return a => Return (f a)
  | Op act k => Op act (fun s => pmap f (k s))
  end.

Section machine.
Context {S A : Type}.

Abbreviation conf := (S * list (prog S A))%type.

Inductive pstep : conf -> conf -> Prop :=
| pstep_op s ps i act k :
    ps !! i = Some (Op act k) ->
    pstep (s, ps) (act s, <[i:=k s]> ps).

(** [acts_in R p]: every action that [p] may ever perform is an [R]-move,
    in whatever state the other goroutines have left behind. *)
Inductive acts_in (R : S -> S -> Prop) : prog S A -> Prop :=
| acts_return a : acts_in R (Return a)
| acts_op act k :
    (forall s, R s (act s)) -> (forall s, acts_in R (k s)) -> acts_in R (Op act k).

(** The rely-guarantee rule: when every goroutine only makes [R]-moves, every
    step of every interleaving is an [R]-move. *)
Lemma pstep_guarantee (R : S -> S -> Prop) c c' :
  Forall (acts_in R) c.2 -> pstep c c' -> R c.1 c'.1 /\ Forall (acts_in R) c'.2.
Proof.
  intros Hall Hstep. destruct Hstep as [s ps i act k Hi]. cbn [fst snd] in *.
  pose proof (proj1 (Forall_lookup _ _) Hall i _ Hi) as Hp.
  inversion Hp as [|? ? Hact Hk]; subst. split; [apply Hact|].
  by apply Forall_insert.
Qed.

Lemma psteps_guarantee (R : S -> S -> Prop) c c' :
  Forall (acts_in R) c.2 -> rtc pstep c c' ->
  rtc R c.1 c'.1 /\ Forall (acts_in R) c'.2.
Proof.
  intros Hall Hsteps. induction Hsteps as [c|c c1 c' Hstep _ IH]; [split; [constructor|done]|].
  destruct (pstep_guarantee R c c1 Hall Hstep) as [HR Hall1].
  destruct (IH Hall1) as [HR' Hall']. split; [|done]. by eapply rtc_l.
Qed.

(** An executable scheduler: the goroutine to move next, or nothing when it
    has returned. *)
Definition sched1 (c : conf) (i : nat) : conf :=
  match c.2 !! i with
  | Some (Op act k) => (act c.1, <[i:=k c.1]> c.2)
  | _ => c
  end.

Definition movable (c : conf) (i : nat) : bool :=
  match c.2 !! i with Some (Op _ _) => true | _ => false end.

Lemma sched1_pstep c i : movable c i = true -> pstep c (sched1 c i).
Proof.
  destruct c as [s ps]. unfold movable, sched1. cbn [fst snd].
  destruct (ps !! i) as [[a|act k]|] eqn:E; intros H; [done|by apply pstep_op|done].
Qed.

Lemma sched1_steps c i : rtc pstep c (sched1 c i).
Proof.
  destruct (movable c i) eqn:E; [by apply rtc_once, sched1_pstep|].
  unfold movable in E. unfold sched1. destruct (c.2 !! i) as [[a|act k]|]; [constructor|done|constructor].
Qed.

Lemma sched_steps c l : rtc pstep c (foldl sched1 c l).
Proof.
  revert c. induction l as [|i l IH]; intros c; [constructor|].
  simpl. etransitivity; [apply sched1_steps|apply IH].
Qed.

(** The same rule when every goroutine has moves of its own. *)
Lemma sched_guarantee (Rs : list (S -> S -> Prop)) c l :
  Forall2 acts_in Rs c.2 -> Forall2 acts_in Rs (foldl sched1 c l).2.
Proof.
  revert c. induction l as [|i l IH]; intros c Hall; [done|]. cbn [foldl]. apply IH. unfold sched1.
  destruct (c.2 !! i) as [[a|act k]|] eqn:E; [done| |done]. cbn [snd].
  destruct (Forall2_lookup_r _ _ _ _ _ Hall E) as (R & HR & Hp). inversion Hp as [|? ? _ Hk]; subst.
  rewrite <- (list_insert_id Rs i R HR). by apply Forall2_insert.
Qed.

Lemma sched1_guarantee (Rs : list (S -> S -> Prop)) c i R :
  Forall2 acts_in Rs c.2 -> Rs !! i = Some R -> sched1 c i = c \/ R c.1 (sched1 c i).1.
Proof.
  intros Hall HR. unfold sched1. destruct (c.2 !! i) as [[a|act k]|] eqn:E; [by left| |by left]. right. cbn [fst].
  pose proof (Forall2_lookup_lr _ _ _ _ _ _ Hall HR E) as Hp. inversion Hp as [|? ? Hact _]; subst. apply Hact.
Qed.

(** A single goroutine reaches exactly what [run] computes. *)
Lemma run_steps (p : prog S A) s : rtc pstep (s, [p]) ((run p s).1, [Return (run p s).2]).
Proof.
  revert s. induction p as [a|act k IH]; intros s; [constructor|].
  eapply rtc_l; [by apply (pstep_op s [Op act k] 0 act k)|]. apply IH.
Qed.

End machine.

Section moves.
Context {S : Type} (R : S -> S -> Prop).

Lemma acts_pmap {A B} (f : A -> B) (p : prog S A) : acts_in R p -> acts_in R (pmap f p).
Proof. induction 1; constructor; auto. Qed.

Lemma acts_put {A} f (k : prog S A) : (forall s, R s (f s)) -> acts_in R k -> acts_in R (Put f k).
Proof. intros Hf Hk. by constructor. Qed.

Lemma acts_addget {A} f field (k : Z -> prog S A) :
  (forall s, R s (f s)) -> (forall z, acts_in R (k z)) -> acts_in R (AddGet f field k).
Proof. intros Hf Hk. constructor; [done|intros; apply Hk]. Qed.

Context `{!Reflexive R}.

Lemma acts_get {A} (k : S -> prog S A) : (forall s, acts_in R (k s)) -> acts_in R (Get k).
Proof. intros Hk. by constructor. Qed.

Lemma acts_cas {A} test f (k : bool -> prog S A) :
  (forall s, test s = true -> R s (f s)) -> (forall b, acts_in R (k b)) -> acts_in R (Cas test f k).
Proof.
  intros Hf Hk. constructor; [|intros; apply Hk]. intros s.
  destruct (test s) eqn:E; [by apply Hf|reflexivity].
Qed.
End moves.

(** ** Counters

    Goroutines that share a counter which each of them raises a bounded number
    of times: as long as the counter and what may still be added stay below
    [T], every goroutine only ever sees values below [T]. *)

Section budget.
Context {S A : Type} (Inv : S -> Prop) (cnt : S -> Z) (T : Z).

(** [tame R n p]: from states where the counter is below [T], [p] makes only
    [R]-moves, keeps [Inv], and raises the counter at most [n] times by one. *)
Inductive tame (R : S -> S -> Prop) : nat -> prog S A -> Prop :=
| tame_return n a : tame R n (Return a)
| tame_op n act k :
    (forall s, Inv s -> (0 <= cnt s < T)%Z -> R s (act s) /\ Inv (act s) /\ (0 <= cnt (act s) <= cnt s)%Z) ->
    (forall s, Inv s -> (0 <= cnt s < T)%Z -> tame R n (k s)) -> tame R n (Op act k)
| tame_inc n act k :
    (forall s, Inv s -> (0 <= cnt s)%Z -> (cnt s + 1 < T)%Z -> R s (act s) /\ Inv (act s) /\ (0 <= cnt (act s) <= cnt s + 1)%Z) ->
    (forall s, Inv s -> (0 <= cnt s)%Z -> (cnt s + 1 < T)%Z -> tame R n (k s)) -> tame R (Datatypes.S n) (Op act k).

Definition budget (rns : list ((S -> S -> Prop) * nat)) : Z := Z.of_nat (sum_list rns.*2).

Definition tame_conf (rns : list ((S -> S -> Prop) * nat)) (c : S * list (prog S A)) : Prop :=
  Inv c.1 /\ (0 <= cnt c.1)%Z /\ (cnt c.1 + budget rns < T)%Z /\ Forall2 (fun rn p => tame rn.1 rn.2 p) rns c.2.

Lemma budget_insert rns i R n : rns !! i = Some (R, Datatypes.S n) -> (budget (<[i:=(R, n)]> rns) + 1 = budget rns)%Z.
Proof.
  unfold budget. revert i. induction rns as [|[R' m] rns IH]; intros [|i] H; [done|done|..]; simpl in H.
  - injection H as -> ->. csimpl. lia.
  - specialize (IH i H). csimpl. lia.
Qed.

Lemma budget_ge rns i R n : rns !! i = Some (R, n) -> (Z.of_nat n <= budget rns)%Z.
Proof.
  unfold budget. revert i. induction rns as [|[R' m] rns IH]; intros [|i] H; [done|done|..]; simpl in H.
  - injection H as -> ->. csimpl. lia.
  - specialize (IH i H). csimpl. lia.
Qed.

Lemma tame_step rns c i : tame_conf rns c ->
  exists rns', tame_conf rns' (sched1 c i) /\ rns'.*1 = rns.*1 /\
    forall R, rns.*1 !! i = Some R -> sched1 c i = c \/ R c.1 (sched1 c i).1.
Proof.
  intros (HI & Hpos & HT & Hall). unfold sched1. destruct (c.2 !! i) as [[a|act k]|] eqn:E.
  1, 3: exists rns; repeat split; [done..|]; intros R _; by left.
  destruct (Forall2_lookup_r _ _ _ _ _ Hall E) as ([R n] & HR & Hp). cbn [fst snd] in Hp.
  pose proof (budget_ge _ _ _ _ HR) as Hge.
  assert (forall R', rns.*1 !! i = Some R' -> R' = R) as Hsame.
  { intros R'. rewrite list_lookup_fmap, HR. by intros [= <-]. }
  assert (forall m, (<[i:=(R, m)]> rns).*1 = rns.*1) as Hfst.
  { intros m. rewrite list_fmap_insert. apply list_insert_id. by rewrite list_lookup_fmap, HR. }
  inversion Hp as [|n' ? ? Ha Hk|n' ? ? Ha Hk]; subst.
  - destruct (Ha c.1 HI ltac:(lia)) as (Hm & HI' & Hc). exists rns. split; [|split; [done|intros R' HR'; right; by rewrite (Hsame R' HR')]].
    split; [done|]. cbn [fst snd]. split; [lia|]. split; [lia|]. rewrite <- (list_insert_id rns i (R, n) HR). apply Forall2_insert; [done|]. apply Hk; [done|lia].
  - destruct (Ha c.1 HI ltac:(lia) ltac:(lia)) as (Hm & HI' & Hc). pose proof (budget_insert _ _ _ _ HR) as Hb.
    exists (<[i:=(R, n')]> rns). split; [|split; [apply Hfst|intros R' HR'; right; by rewrite (Hsame R' HR')]].
    split; [done|]. cbn [fst snd]. split; [lia|]. split; [lia|]. apply Forall2_insert; [done|]. apply Hk; [done|lia|lia].
Qed.

Lemma tame_sched rns c l : tame_conf rns c -> exists rns', tame_conf rns' (foldl sched1 c l) /\ rns'.*1 = rns.*1.
Proof.
  revert rns c. induction l as [|i l IH]; intros rns c H; [by exists rns|]. cbn [foldl].
  destruct (tame_step rns c i H) as (rns1 & H1 & E1 & _). destruct (IH rns1 _ H1) as (rns2 & H2 & E2). exists rns2. split; [done|congruence].
Qed.

(** Every step of every interleaving is a move of the goroutine that makes it. *)
Lemma tame_moves rns c l i R : tame_conf rns c -> rns.*1 !! i = Some R ->
  let before := foldl sched1 c l in sched1 before i = before \/ R before.1 (sched1 before i).1.
Proof.
  intros H HR. destruct (tame_sched rns c l H) as (rns1 & H1 & E1). destruct (tame_step rns1 _ i H1) as (_ & _ & _ & Hm).
  apply Hm. by rewrite E1.
Qed.

Lemma tame_put R n f k : (forall s, Inv s -> (0 <= cnt s < T)%Z -> R s (f s) /\ Inv (f s) /\ (0 <= cnt (f s) <= cnt s)%Z) ->
  tame R n k -> tame R n (Put f k).
Proof. intros Hf Hk. by apply tame_op. Qed.

Lemma tame_get R n k : Reflexive R -> (forall s, Inv s -> tame R n (k s)) -> tame R n (Get k).
Proof. intros HR Hk. apply tame_op; [|by auto]. intros s HI Hc. split; [done|]. split; [done|lia]. Qed.

Lemma tame_cas R n test f k : Reflexive R ->
  (forall s, Inv s -> (0 <= cnt s < T)%Z -> test s = true -> R s (f s) /\ Inv (f s) /\ (0 <= cnt (f s) <= cnt s)%Z) ->
  (forall b, tame R n (k b)) -> tame R n (Cas test f k).
Proof.
  intros HR Hf Hk. apply tame_op; [|by auto]. intros s HI Hc. destruct (test s) eqn:E; [by apply Hf|]. split; [done|]. split; [done|lia].
Qed.

(** Raising the counter, and learning its value. *)
Lemma tame_raise R n f k : (forall s, Inv s -> (0 <= cnt s)%Z -> (cnt s + 1 < T)%Z -> R s (f s) /\ Inv (f s) /\ (0 <= cnt (f s) <= cnt s + 1)%Z) ->
  (forall z, (z < T)%Z -> tame R n (k z)) -> tame R (Datatypes.S n) (AddGet f cnt k).
Proof. intros Hf Hk. apply tame_inc; [done|]. intros s HI H0 H1. destruct (Hf s HI H0 H1) as (_ & _ & ?). apply Hk. lia. Qed.

(** Raising another field. *)
Lemma tame_add R n f field k : (forall s, Inv s -> (0 <= cnt s < T)%Z -> R s (f s) /\ Inv (f s) /\ (0 <= cnt (f s) <= cnt s)%Z) ->
  (forall z, tame R n (k z)) -> tame R n (AddGet f field k).
Proof. intros Hf Hk. by apply tame_op. Qed.

End budget.

Lemma tame_pmap {S A B} Inv cnt T R n (f : A -> B) (p : prog S A) : tame Inv cnt T R n p -> tame Inv cnt T R n (pmap f p).
Proof. induction 1; cbn [pmap]; [by apply tame_return|by apply tame_op|by apply tame_inc]. Qed.
