(* ===== verification/Circuit.v ===== *)
(** * Circuit breakers

    [internal/engine/circuit_breaker.go] (breakers in a fixed arena, used as
    plan instructions) and [internal/engine/named_circuit.go] (breakers in a
    global registry).  Every operation is a program of the atomic loads, stores
    and swaps of the source, in the source's order (Interleave.v). *)

From S2P Require Import Prelude Interleave.
From stdpp Require Import base numbers list gmap.

Local Open Scope Z_scope.
Local Open Scope rah_scope.

Definition CBStateClosed : Z := 0.
Definition CBStateOpen : Z := 1.
Definition CBStateHalfOpen : Z := 2.

(** ** circuit_breaker.go *)

Record CircuitState : Type := mkCircuit {
  cs_state : Z;
  cs_failureCount : Z;
  cs_successCount : Z;
  cs_lastTripNs : Z;
  cs_failureThreshold : Z;
  cs_successThreshold : Z;
  cs_openDurationNs : Z
}.

Definition cs_set_state (v : Z) (c : CircuitState) : CircuitState :=
  mkCircuit v (cs_failureCount c) (cs_successCount c) (cs_lastTripNs c)
    (cs_failureThreshold c) (cs_successThreshold c) (cs_openDurationNs c).
Definition cs_set_failures (v : Z) (c : CircuitState) : CircuitState :=
  mkCircuit (cs_state c) v (cs_successCount c) (cs_lastTripNs c)
    (cs_failureThreshold c) (cs_successThreshold c) (cs_openDurationNs c).
Definition cs_set_successes (v : Z) (c : CircuitState) : CircuitState :=
  mkCircuit (cs_state c) (cs_failureCount c) v (cs_lastTripNs c)
    (cs_failureThreshold c) (cs_successThreshold c) (cs_openDurationNs c).
Definition cs_set_trip (v : Z) (c : CircuitState) : CircuitState :=
  mkCircuit (cs_state c) (cs_failureCount c) (cs_successCount c) v
    (cs_failureThreshold c) (cs_successThreshold c) (cs_openDurationNs c).

(** The zero value of the struct. *)
Definition cs_zero : CircuitState := mkCircuit 0 0 0 0 0 0 0.

Record CircuitBreakerArena : Type := mkCBArena {
  cb_states : list CircuitState;
  cb_count : Z
}.

Definition NewCircuitBreakerArena : CircuitBreakerArena := mkCBArena (replicate 256 cs_zero) 0.

Definition Count (a : CircuitBreakerArena) : Z := cb_count a.

(** [Alloc]: the counter is advanced also when the arena is full. *)
Definition Alloc (a : CircuitBreakerArena) (failureThresh successThresh openDurationMs : Z)
  : outcome (CircuitBreakerArena * option Z) :=
  let count := i32 (cb_count a + 1) in
  let idx := count - 1 in
  if 256 <=? idx then Ret (mkCBArena (cb_states a) count, None)
  else
    cs <-- go_index (cb_states a) idx ;;
    let cs' := mkCircuit (cs_state cs) (cs_failureCount cs) (cs_successCount cs) (cs_lastTripNs cs)
                 failureThresh successThresh (i64 (openDurationMs * time_Millisecond)) in
    Ret (mkCBArena (<[Z.to_nat idx:=cs']> (cb_states a)) count, Some idx).

(** [CircuitBreakerGateStep]: the next PC, and the response status it sets. *)
Definition CircuitBreakerGateStep (fallbackFlowStart pc now : Z)
  : prog CircuitState (Z * option Z) :=
  let next := i16 (pc + 1) in
  Get (fun c =>
    let s := cs_state c in
    if s =? CBStateClosed then Return (next, None)
    else if s =? CBStateOpen then
      Get (fun c' =>
        let lastTrip := cs_lastTripNs c' in
        if cs_openDurationNs c' <=? i64 (now - lastTrip) then
          Cas (fun x => cs_state x =? CBStateOpen) (cs_set_state CBStateHalfOpen) (fun ok =>
            if ok then Put (cs_set_successes 0) (Return (next, None))
            else Return (next, None))
        else if 0 <=? fallbackFlowStart then Return (fallbackFlowStart, None)
        else Return (StopPlan, Some 503))
    else if s =? CBStateHalfOpen then Return (next, None)
    else Return (next, None)).

(** [RecordCircuitOutcomeStep]: [isSuccess] is the verdict of the predicate
    (true when there is none), [now] the clock at the time of a trip. *)
Definition RecordCircuitOutcomeStep (isSuccess : bool) (pc now : Z) : prog CircuitState Z :=
  let next := i16 (pc + 1) in
  Get (fun c =>
    let s := cs_state c in
    if s =? CBStateClosed then
      if negb isSuccess then
        AddGet (fun x => cs_set_failures (i64 (cs_failureCount x + 1)) x) cs_failureCount (fun fc =>
          if cs_failureThreshold c <=? fc then
            Cas (fun x => cs_state x =? CBStateClosed) (cs_set_state CBStateOpen) (fun ok =>
              if ok then Put (cs_set_trip now) (Put (cs_set_failures 0) (Return next))
              else Return next)
          else Return next)
      else Put (cs_set_failures 0) (Return next)
    else if s =? CBStateHalfOpen then
      if isSuccess then
        AddGet (fun x => cs_set_successes (i64 (cs_successCount x + 1)) x) cs_successCount (fun sc =>
          if cs_successThreshold c <=? sc then
            Cas (fun x => cs_state x =? CBStateHalfOpen) (cs_set_state CBStateClosed) (fun ok =>
              if ok then Put (cs_set_failures 0) (Put (cs_set_successes 0) (Return next))
              else Return next)
          else Return next)
      else
        Cas (fun x => cs_state x =? CBStateHalfOpen) (cs_set_state CBStateOpen) (fun ok =>
          if ok then Put (cs_set_trip now) (Put (cs_set_failures 0) (Return next))
          else Return next)
    else Return next).

(** An instruction runs on [&arena.states[idx]]. *)
Definition on_circuit {A} (a : CircuitBreakerArena) (idx : Z) (p : prog CircuitState A)
  : outcome (CircuitBreakerArena * A) :=
  cs <-- go_index (cb_states a) idx ;;
  let '(cs', r) := run p cs in
  Ret (mkCBArena (<[Z.to_nat idx:=cs']> (cb_states a)) (cb_count a), r).

(** ** named_circuit.go *)

Record NamedCircuit : Type := mkNamed {
  nc_state : Z;
  nc_failureCount : Z;
  nc_successCount : Z;
  nc_lastTripNs : Z;
  nc_openDurationNs : Z;
  nc_name : string;
  nc_failureThreshold : Z;
  nc_successThreshold : Z
}.

Definition nc_set_state (v : Z) (c : NamedCircuit) : NamedCircuit :=
  mkNamed v (nc_failureCount c) (nc_successCount c) (nc_lastTripNs c) (nc_openDurationNs c)
    (nc_name c) (nc_failureThreshold c) (nc_successThreshold c).
Definition nc_set_failures (v : Z) (c : NamedCircuit) : NamedCircuit :=
  mkNamed (nc_state c) v (nc_successCount c) (nc_lastTripNs c) (nc_openDurationNs c)
    (nc_name c) (nc_failureThreshold c) (nc_successThreshold c).
Definition nc_set_successes (v : Z) (c : NamedCircuit) : NamedCircuit :=
  mkNamed (nc_state c) (nc_failureCount c) v (nc_lastTripNs c) (nc_openDurationNs c)
    (nc_name c) (nc_failureThreshold c) (nc_successThreshold c).
Definition nc_set_trip (v : Z) (c : NamedCircuit) : NamedCircuit :=
  mkNamed (nc_state c) (nc_failureCount c) (nc_successCount c) v (nc_openDurationNs c)
    (nc_name c) (nc_failureThreshold c) (nc_successThreshold c).
Definition nc_set_openDuration (v : Z) (c : NamedCircuit) : NamedCircuit :=
  mkNamed (nc_state c) (nc_failureCount c) (nc_successCount c) (nc_lastTripNs c) v
    (nc_name c) (nc_failureThreshold c) (nc_successThreshold c).

(** [namedCircuits]: names are never removed. *)
Abbreviation registry := (gmap string NamedCircuit).

Definition NewNamedCircuit (name : string) (failureThresh successThresh openDurationMs : Z) : NamedCircuit :=
  mkNamed 0 0 0 0 (i64 (openDurationMs * time_Millisecond)) name failureThresh successThresh.

Definition GetOrCreateNamedCircuit (reg : registry) (name : string)
    (failureThresh successThresh openDurationMs : Z) : registry * NamedCircuit :=
  let nc := NewNamedCircuit name failureThresh successThresh openDurationMs in
  match reg !! name with
  | Some actual => (reg, actual)
  | None => (<[name:=nc]> reg, nc)
  end.

(** What [IsNamedCircuitOpen] does once it has found the circuit. *)
Definition IsOpen (now : Z) : prog NamedCircuit bool :=
  Get (fun c =>
    let s := nc_state c in
    if s =? CBStateClosed then Return false
    else if s =? CBStateHalfOpen then Return false
    else if s =? CBStateOpen then
      Get (fun c1 => let lastTrip := nc_lastTripNs c1 in
      Get (fun c2 => let openDur := nc_openDurationNs c2 in
        if openDur <=? i64 (now - lastTrip) then
          Cas (fun x => nc_state x =? CBStateOpen) (nc_set_state CBStateHalfOpen) (fun _ => Return false)
        else Return true))
    else Return false).

Definition on_named {A} (reg : registry) (name : string) (p : prog NamedCircuit A) (dflt : A)
  : registry * A :=
  match reg !! name with
  | None => (reg, dflt)
  | Some nc => let '(nc', r) := run p nc in (<[name:=nc']> reg, r)
  end.

Definition IsNamedCircuitOpen (reg : registry) (name : string) (now : Z) : registry * bool :=
  on_named reg name (IsOpen now) false.

Definition GetNamedCircuitState (reg : registry) (name : string) : Z :=
  match reg !! name with None => CBStateClosed | Some nc => nc_state nc end.

(** The loop of [TripNamedCircuit] that drives the state to Open; it answers
    false when the iteration budget is used up. *)
Fixpoint trip_loop (fuel : nat) : prog NamedCircuit bool :=
  match fuel with
  | O => Return false
  | S fuel' =>
    Get (fun c => let old := nc_state c in
      Cas (fun x => nc_state x =? old) (nc_set_state CBStateOpen) (fun ok =>
        if ok || (old =? CBStateOpen) then Return true else trip_loop fuel'))
  end.

Definition Trip (fuel : nat) (openDurationOverrideMs now : Z) : prog NamedCircuit bool :=
  let rest := Put (nc_set_trip now) (Put (nc_set_failures 0) (Put (nc_set_successes 0)
                (trip_loop fuel))) in
  if 0 <? openDurationOverrideMs
  then Put (nc_set_openDuration (i64 (openDurationOverrideMs * time_Millisecond))) rest
  else rest.

Definition TripNamedCircuit (fuel : nat) (reg : registry) (name : string)
    (openDurationOverrideMs now : Z) : registry * bool :=
  let reg := (GetOrCreateNamedCircuit reg name 5 2 openDurationOverrideMs).1 in
  on_named reg name (Trip fuel openDurationOverrideMs now) true.

Definition Reset_ : prog NamedCircuit bool :=
  Put (nc_set_state CBStateClosed) (Put (nc_set_failures 0) (Put (nc_set_successes 0) (Return true))).

Definition ResetNamedCircuit (reg : registry) (name : string) : registry * bool :=
  on_named reg name Reset_ false.

(** What [RecordNamedCircuitOutcome] does once it has found the circuit: the
    pair (state changed, resulting state). *)
Definition RecordNamed (success : bool) (now : Z) : prog NamedCircuit (bool * Z) :=
  Get (fun c =>
    let s := nc_state c in
    if s =? CBStateClosed then
      if negb success then
        AddGet (fun x => nc_set_failures (i64 (nc_failureCount x + 1)) x) nc_failureCount (fun fc =>
          if nc_failureThreshold c <=? fc then
            Cas (fun x => nc_state x =? CBStateClosed) (nc_set_state CBStateOpen) (fun ok =>
              if ok then Put (nc_set_trip now) (Put (nc_set_failures 0) (Return (true, CBStateOpen)))
              else Return (false, CBStateClosed))
          else Return (false, CBStateClosed))
      else Put (nc_set_failures 0) (Return (false, CBStateClosed))
    else if s =? CBStateHalfOpen then
      if success then
        AddGet (fun x => nc_set_successes (i64 (nc_successCount x + 1)) x) nc_successCount (fun sc =>
          if nc_successThreshold c <=? sc then
            Cas (fun x => nc_state x =? CBStateHalfOpen) (nc_set_state CBStateClosed) (fun ok =>
              if ok then Put (nc_set_failures 0) (Put (nc_set_successes 0) (Return (true, CBStateClosed)))
              else Return (false, CBStateHalfOpen))
          else Return (false, CBStateHalfOpen))
      else
        Cas (fun x => nc_state x =? CBStateHalfOpen) (nc_set_state CBStateOpen) (fun ok =>
          if ok then Put (nc_set_trip now) (Put (nc_set_failures 0) (Put (nc_set_successes 0)
                       (Return (true, CBStateOpen))))
          else Return (false, CBStateHalfOpen))
    else if s =? CBStateOpen then Return (false, CBStateOpen)
    else Return (false, s)).

Definition RecordNamedCircuitOutcome (reg : registry) (name : string) (success : bool) (now : Z)
  : registry * (bool * Z) :=
  on_named reg name (RecordNamed success now) (false, CBStateClosed).
