(* ===== verification/CircuitSpec.v ===== *)
(** * Circuit breakers: specification, refinement and concurrency

    The breaker the two implementations share is a three-state machine
    ([breaker], [spec_gate], [spec_record]).  [Breaker] is the interface an implementation offers; both
    the arena circuits and the named circuits are instances, and what a client
    may rely on is proved against the interface.  The registry of named
    circuits is shown to refine a map from names to such breakers, the arena a
    table of circuits that probe one request at a time.  The
    last part is about interleavings of the atomic operations. *)

From S2P Require Import Prelude Interleave Circuit.
From stdpp Require Import base numbers list gmap relations.

Local Open Scope Z_scope.

(** ** The breaker *)

Record thresholds : Type := mkThresholds { th_fail : Z; th_succ : Z; th_dur : Z }.

Inductive breaker : Type :=
| BClosed (failures : Z)
| BOpen (since : Z)
| BHalfOpen (successes : Z).

#[export] Instance breaker_eq_dec : EqDecision breaker.
Proof. solve_decision. Defined.

(** The new state and whether the request may pass. *)
Definition spec_gate (th : thresholds) (now : Z) (b : breaker) : breaker * bool :=
  match b with
  | BOpen t => if th_dur th <=? now - t then (BHalfOpen 0, true) else (b, false)
  | _ => (b, true)
  end.

Definition spec_record (th : thresholds) (ok : bool) (now : Z) (b : breaker) : breaker :=
  match b with
  | BClosed n =>
    if ok then BClosed 0 else if th_fail th <=? n + 1 then BOpen now else BClosed (n + 1)
  | BHalfOpen n =>
    if ok then if th_succ th <=? n + 1 then BClosed 0 else BHalfOpen (n + 1) else BOpen now
  | BOpen _ => b
  end.

Definition code (b : breaker) : Z :=
  match b with
  | BClosed _ => CBStateClosed
  | BOpen _ => CBStateOpen
  | BHalfOpen _ => CBStateHalfOpen
  end.

(** Thresholds and clock readings as the source's 64-bit fields hold them, and
    the range of the counters in each state. *)
Definition time_ok (t : Z) : Prop := 0 <= t < 2 ^ 63.

Definition th_ok (th : thresholds) : Prop := th_fail th < 2 ^ 63 /\ th_succ th < 2 ^ 63.

Definition breaker_ok (th : thresholds) (b : breaker) : Prop :=
  match b with
  | BClosed n => 0 <= n < Z.max 1 (th_fail th)
  | BOpen t => time_ok t
  | BHalfOpen n => 0 <= n < Z.max 1 (th_succ th)
  end.

(** ** The interface *)

Class Breaker (S : Type) : Type := {
  br_out : Type;
  br_answer : bool -> br_out;
  br_gate : Z -> S -> S * br_out;
  br_record : bool -> Z -> S -> S;
  br_th : S -> thresholds;
  br_view : S -> breaker;
  br_inv : S -> Prop;
  br_gate_ok : forall now s, br_inv s -> time_ok now ->
    br_inv (br_gate now s).1 /\ br_th (br_gate now s).1 = br_th s /\
    br_view (br_gate now s).1 = (spec_gate (br_th s) now (br_view s)).1 /\
    (br_gate now s).2 = br_answer (spec_gate (br_th s) now (br_view s)).2;
  br_record_ok : forall ok now s, br_inv s -> time_ok now ->
    br_inv (br_record ok now s) /\ br_th (br_record ok now s) = br_th s /\
    br_view (br_record ok now s) = spec_record (br_th s) ok now (br_view s)
}.

Inductive event : Type :=
| EGate (now : Z)
| ERecord (ok : bool) (now : Z).

Definition event_time (e : event) : Z := match e with EGate t | ERecord _ t => t end.

Fixpoint spec_run (th : thresholds) (es : list event) (b : breaker) : breaker * list bool :=
  match es with
  | [] => (b, [])
  | EGate now :: es' =>
    let '(b', r) := spec_gate th now b in
    let '(b'', rs) := spec_run th es' b' in (b'', r :: rs)
  | ERecord ok now :: es' => spec_run th es' (spec_record th ok now b)
  end.

Fixpoint impl_run {S} `{Breaker S} (es : list event) (s : S) : S * list br_out :=
  match es with
  | [] => (s, [])
  | EGate now :: es' =>
    let '(s', r) := br_gate now s in
    let '(s'', rs) := impl_run es' s' in (s'', r :: rs)
  | ERecord ok now :: es' => impl_run es' (br_record ok now s)
  end.

(** Any implementation of the interface answers like this breaker. *)
Lemma impl_run_refines {S} `{Breaker S} (es : list event) (s : S) :
  br_inv s -> Forall (fun e => time_ok (event_time e)) es ->
  br_view (impl_run es s).1 = (spec_run (br_th s) es (br_view s)).1 /\
  (impl_run es s).2 = br_answer <$> (spec_run (br_th s) es (br_view s)).2.
Proof.
  revert s. induction es as [|[now|ok now] es IH]; intros s Hinv Hes; [done| |];
    inversion Hes as [|? ? Ht Hes']; subst; cbn [impl_run spec_run event_time] in *.
  - destruct (br_gate_ok now s Hinv Ht) as (Hi & Hth & Hv & Hr).
    destruct (br_gate now s) as [s' r]. cbn [fst snd] in *.
    destruct (spec_gate (br_th s) now (br_view s)) as [b' r'] eqn:Eg. cbn [fst snd] in *.
    destruct (IH s' Hi Hes') as [IH1 IH2]. rewrite Hth, Hv in IH1, IH2.
    destruct (impl_run es s'), (spec_run (br_th s) es b'). cbn [fst snd] in *.
    subst. done.
  - destruct (br_record_ok ok now s Hinv Ht) as (Hi & Hth & Hv).
    destruct (IH _ Hi Hes') as [IH1 IH2]. rewrite Hth, Hv in IH1, IH2. done.
Qed.

(** ** The implementations *)

Definition view_of (state fc sc trip : Z) : breaker :=
  if state =? CBStateClosed then BClosed fc
  else if state =? CBStateOpen then BOpen trip
  else BHalfOpen sc.

Definition known_state (s : Z) : Prop := s = CBStateClosed \/ s = CBStateOpen \/ s = CBStateHalfOpen.

Ltac run_circuit :=
  unfold view_of, code, CBStateClosed, CBStateOpen, CBStateHalfOpen in *;
  cbn [run Get Put AddGet Cas cs_state cs_failureCount cs_successCount cs_lastTripNs
       cs_failureThreshold cs_successThreshold cs_openDurationNs cs_set_state cs_set_failures
       cs_set_successes cs_set_trip nc_state nc_failureCount nc_successCount nc_lastTripNs
       nc_openDurationNs nc_name nc_failureThreshold nc_successThreshold nc_set_state
       nc_set_failures nc_set_successes nc_set_trip nc_set_openDuration
       th_fail th_succ th_dur fst snd negb orb andb Z.eqb Pos.eqb view_of spec_gate spec_record
       breaker_ok code] in *.

Ltac solve_breaker :=
  unfold known_state, th_ok, time_ok in *; run_circuit;
  repeat split; intros; try reflexivity; try assumption; try (by left); try (by right; left);
  try (by right; right); try lia.

Definition cs_th (c : CircuitState) : thresholds :=
  mkThresholds (cs_failureThreshold c) (cs_successThreshold c) (cs_openDurationNs c).
Definition cs_view (c : CircuitState) : breaker :=
  view_of (cs_state c) (cs_failureCount c) (cs_successCount c) (cs_lastTripNs c).
Definition cs_inv (c : CircuitState) : Prop :=
  known_state (cs_state c) /\ th_ok (cs_th c) /\ breaker_ok (cs_th c) (cs_view c).

Definition nc_th (c : NamedCircuit) : thresholds :=
  mkThresholds (nc_failureThreshold c) (nc_successThreshold c) (nc_openDurationNs c).
Definition nc_view (c : NamedCircuit) : breaker :=
  view_of (nc_state c) (nc_failureCount c) (nc_successCount c) (nc_lastTripNs c).

(** A named circuit does not reset its success counter when it starts probing;
    it relies on the counter being zero in the other two states. *)
Definition nc_inv (c : NamedCircuit) : Prop :=
  known_state (nc_state c) /\ th_ok (nc_th c) /\ breaker_ok (nc_th c) (nc_view c) /\
  (nc_state c <> CBStateHalfOpen -> nc_successCount c = 0).

Lemma elapsed_exact now t : time_ok now -> time_ok t -> i64 (now - t) = now - t.
Proof. unfold time_ok. intros. apply wraps_small; lia. Qed.

Lemma succ_exact n th : 0 <= n < Z.max 1 th -> th < 2 ^ 63 -> i64 (n + 1) = n + 1.
Proof. intros. apply wraps_small; lia. Qed.

Lemma gate_spec fb pc now c :
  cs_inv c -> time_ok now ->
  let r := run (CircuitBreakerGateStep fb pc now) c in
  let sp := spec_gate (cs_th c) now (cs_view c) in
  cs_inv r.1 /\ cs_th r.1 = cs_th c /\ cs_view r.1 = sp.1 /\
  r.2 = if sp.2 then (i16 (pc + 1), None)
        else if 0 <=? fb then (fb, None) else (StopPlan, Some 503).
Proof.
  destruct c as [s fc sc trip ft st dur]. unfold cs_inv, cs_th, cs_view, CircuitBreakerGateStep.
  intros (Hs & Hth & Hok) Hnow.
  destruct Hs as [Hs|[Hs|Hs]]; run_circuit; subst s; run_circuit.
  - solve_breaker.
  - rewrite elapsed_exact by done.
    destruct (dur <=? now - trip); run_circuit; [|destruct (0 <=? fb); run_circuit];
      solve_breaker.
  - solve_breaker.
Qed.

Lemma record_spec ok pc now c :
  cs_inv c -> time_ok now ->
  let r := run (RecordCircuitOutcomeStep ok pc now) c in
  cs_inv r.1 /\ cs_th r.1 = cs_th c /\
  cs_view r.1 = spec_record (cs_th c) ok now (cs_view c) /\ r.2 = i16 (pc + 1).
Proof.
  destruct c as [s fc sc trip ft st dur]. unfold cs_inv, cs_th, cs_view, RecordCircuitOutcomeStep.
  intros (Hs & Hth & Hok) Hnow.
  destruct Hs as [Hs|[Hs|Hs]]; run_circuit; subst s; destruct ok; run_circuit;
    try (rewrite (succ_exact _ _ Hok) by (by destruct Hth)); try (solve_breaker; done).
  - destruct (Z.leb_spec ft (fc + 1)); solve_breaker.
  - destruct (Z.leb_spec st (sc + 1)); solve_breaker.
Qed.

Lemma isopen_spec now c :
  nc_inv c -> time_ok now ->
  let r := run (IsOpen now) c in
  let sp := spec_gate (nc_th c) now (nc_view c) in
  nc_inv r.1 /\ nc_th r.1 = nc_th c /\ nc_view r.1 = sp.1 /\ r.2 = negb sp.2.
Proof.
  destruct c as [s fc sc trip dur nm ft st]. unfold nc_inv, nc_th, nc_view, IsOpen.
  intros (Hs & Hth & Hok & Hsc) Hnow.
  destruct Hs as [Hs|[Hs|Hs]]; run_circuit; subst s; run_circuit; try (solve_breaker; done).
  rewrite Hsc by lia. rewrite elapsed_exact by done.
  destruct (dur <=? now - trip); solve_breaker.
Qed.

Lemma recordnamed_spec ok now c :
  nc_inv c -> time_ok now ->
  let r := run (RecordNamed ok now) c in
  let b := spec_record (nc_th c) ok now (nc_view c) in
  nc_inv r.1 /\ nc_th r.1 = nc_th c /\ nc_view r.1 = b /\
  r.2 = (negb (code b =? code (nc_view c)), code b).
Proof.
  destruct c as [s fc sc trip dur nm ft st]. unfold nc_inv, nc_th, nc_view, RecordNamed.
  intros (Hs & Hth & Hok & Hsc) Hnow.
  destruct Hs as [Hs|[Hs|Hs]]; run_circuit; subst s; destruct ok; run_circuit;
    try (rewrite (succ_exact _ _ Hok) by (by destruct Hth)); try (solve_breaker; done).
  - destruct (Z.leb_spec ft (fc + 1)); solve_breaker; apply Hsc; lia.
  - destruct (Z.leb_spec st (sc + 1)); solve_breaker.
Qed.

Lemma trip_spec fuel ms now c :
  nc_inv c -> time_ok now ->
  let r := run (Trip (S fuel) ms now) c in
  nc_inv r.1 /\ nc_view r.1 = BOpen now /\ r.2 = true /\
  nc_th r.1 = mkThresholds (nc_failureThreshold c) (nc_successThreshold c)
    (if 0 <? ms then i64 (ms * time_Millisecond) else nc_openDurationNs c).
Proof.
  destruct c as [s fc sc trip dur nm ft st]. unfold nc_inv, nc_th, nc_view, Trip.
  intros (Hs & Hth & Hok & Hsc) Hnow.
  destruct (0 <? ms); cbn [trip_loop]; run_circuit; rewrite !Z.eqb_refl; solve_breaker.
Qed.

Lemma reset_spec c :
  nc_inv c ->
  let r := run Reset_ c in
  nc_inv r.1 /\ nc_th r.1 = nc_th c /\ nc_view r.1 = BClosed 0 /\ r.2 = true.
Proof.
  destruct c as [s fc sc trip dur nm ft st]. unfold nc_inv, nc_th, nc_view, Reset_.
  intros (Hs & Hth & Hok & Hsc). solve_breaker.
Qed.

(** An arena circuit, as the gate instruction at [pc] with fallback [fb] uses it. *)
#[export] Instance arena_breaker (pc fb : Z) : Breaker CircuitState.
Proof.
  refine {|
    br_answer b := if b : bool then (i16 (pc + 1), None)
                   else if 0 <=? fb then (fb, None) else (StopPlan, Some 503);
    br_gate now s := run (CircuitBreakerGateStep fb pc now) s;
    br_record ok now s := (run (RecordCircuitOutcomeStep ok pc now) s).1;
    br_th := cs_th; br_view := cs_view; br_inv := cs_inv |}.
  - intros now s Hs Ht. exact (gate_spec fb pc now s Hs Ht).
  - intros ok now s Hs Ht.
    destruct (record_spec ok pc now s Hs Ht) as (H1 & H2 & H3 & _). done.
Defined.

#[export] Instance named_breaker : Breaker NamedCircuit.
Proof.
  refine {|
    br_answer := negb;
    br_gate now s := run (IsOpen now) s;
    br_record ok now s := (run (RecordNamed ok now) s).1;
    br_th := nc_th; br_view := nc_view; br_inv := nc_inv |}.
  - intros now s Hs Ht. exact (isopen_spec now s Hs Ht).
  - intros ok now s Hs Ht.
    destruct (recordnamed_spec ok now s Hs Ht) as (H1 & H2 & H3 & _). done.
Defined.

(** ** What a client may rely on, whatever the implementation *)

Definition is_gate (e : event) : bool := match e with EGate _ => true | _ => false end.

Lemma spec_run_app th es es' b :
  spec_run th (es ++ es') b =
  let '(b1, r1) := spec_run th es b in
  let '(b2, r2) := spec_run th es' b1 in (b2, r1 ++ r2).
Proof.
  revert b. induction es as [|[now|ok now] es IH]; intros b; simpl.
  - by destruct (spec_run th es' b).
  - destruct (spec_gate th now b) as [b1 r]. rewrite IH.
    destruct (spec_run th es b1) as [b2 rs]. by destruct (spec_run th es' b2).
  - apply IH.
Qed.

(** Fewer failures than the threshold keep the breaker closed; the one that
    reaches it opens it. *)
Lemma spec_failures th n ts t :
  0 <= n -> n + Z.of_nat (length ts) + 1 = Z.max 1 (th_fail th) ->
  spec_run th (ERecord false <$> (ts ++ [t])) (BClosed n) = (BOpen t, []).
Proof.
  revert n. induction ts as [|t0 ts IH]; intros n Hn Hlen; cbn [length app] in *; csimpl.
  - rewrite (proj2 (Z.leb_le _ _)) by lia. done.
  - rewrite (proj2 (Z.leb_gt _ _)) by lia. apply IH; lia.
Qed.

Lemma spec_successes th n ts :
  0 <= n -> (length ts > 0)%nat -> n + Z.of_nat (length ts) = Z.max 1 (th_succ th) ->
  spec_run th (ERecord true <$> ts) (BHalfOpen n) = (BClosed 0, []).
Proof.
  revert n. induction ts as [|t0 ts IH]; intros n Hn Hpos Hlen; cbn [length] in *; [lia|]; csimpl.
  destruct ts as [|t1 ts].
  - simpl in *. by rewrite (proj2 (Z.leb_le _ _)) by lia.
  - rewrite (proj2 (Z.leb_gt _ _)) by (cbn [length] in *; lia). apply IH; cbn [length] in *; lia.
Qed.

Lemma spec_open_blocks th t es :
  Forall (fun e => event_time e < t + th_dur th) es ->
  spec_run th es (BOpen t) = (BOpen t, replicate (length (filter is_gate es)) false).
Proof.
  induction 1 as [|[now|ok now] es Ht _ IH]; [done| |]; cbn [event_time] in *; simpl.
  - rewrite (proj2 (Z.leb_gt _ _)) by lia. by rewrite IH.
  - apply IH.
Qed.

(** One whole life cycle: enough consecutive failures open the breaker, it
    refuses everything until its time is over, whatever outcomes are recorded
    meanwhile, then lets a probe pass and closes after enough successes. *)
Definition cycle (fails : list Z) (t : Z) (blocked : list event) (probe : Z) (succs : list Z)
  : list event :=
  (ERecord false <$> (fails ++ [t])) ++ blocked ++ [EGate probe] ++ (ERecord true <$> succs).

Lemma spec_cycle th fails t blocked probe succs :
  Z.of_nat (length fails) + 1 = Z.max 1 (th_fail th) ->
  Forall (fun e => event_time e < t + th_dur th) blocked ->
  t + th_dur th <= probe ->
  Z.of_nat (length succs) = Z.max 1 (th_succ th) ->
  spec_run th (cycle fails t blocked probe succs) (BClosed 0) =
  (BClosed 0, replicate (length (filter is_gate blocked)) false ++ [true]).
Proof.
  intros Hf Hb Hp Hs. unfold cycle. rewrite spec_run_app, spec_failures by lia.
  rewrite spec_run_app, spec_open_blocks by done.
  cbn [app spec_run spec_gate]. rewrite (proj2 (Z.leb_le _ _)) by lia.
  rewrite spec_successes by lia. done.
Qed.

(** over every implementation of the interface, [max 1 failureThreshold]
    consecutive failures open a fresh breaker, it then refuses every request
    until its open duration is over, whatever outcomes are recorded in the
    meantime, admits the first request after that, and is closed again after
    [max 1 successThreshold] successes. *)
Theorem breaker_cycle {S} `{Breaker S} (s : S) fails t blocked probe succs :
  br_inv s -> br_view s = BClosed 0 ->
  Forall (fun e => time_ok (event_time e)) (cycle fails t blocked probe succs) ->
  Z.of_nat (length fails) + 1 = Z.max 1 (th_fail (br_th s)) ->
  Forall (fun e => event_time e < t + th_dur (br_th s)) blocked ->
  t + th_dur (br_th s) <= probe ->
  Z.of_nat (length succs) = Z.max 1 (th_succ (br_th s)) ->
  let r := impl_run (cycle fails t blocked probe succs) s in
  br_view r.1 = BClosed 0 /\
  r.2 = replicate (length (filter is_gate blocked)) (br_answer false) ++ [br_answer true].
Proof.
  intros Hi Hv Ht Hf Hb Hp Hs r.
  destruct (impl_run_refines (cycle fails t blocked probe succs) s Hi Ht) as [Hview Hans].
  rewrite Hv, spec_cycle in Hview, Hans by done.
  split; [done|]. unfold r. rewrite Hans. cbn [snd].
  by rewrite fmap_app, fmap_replicate.
Qed.

Definition demo_named : NamedCircuit := NewNamedCircuit "payments" 2 1 1000.

Lemma breaker_cycle_witness :
  (impl_run (cycle [5] 7 [EGate 8; ERecord true 9; EGate 1000000006] 1000000007 [1000000008])
     demo_named).2 = [true; true; false].
Proof.
  assert (br_inv demo_named) as Hi.
  { split; [by left|]. split; [split; vm_compute; reflexivity|].
    split; [split; vm_compute; congruence|reflexivity]. }
  destruct (breaker_cycle demo_named [5] 7 [EGate 8; ERecord true 9; EGate 1000000006]
              1000000007 [1000000008] Hi eq_refl) as [_ E].
  - repeat constructor; vm_compute; congruence.
  - vm_compute. reflexivity.
  - repeat constructor; vm_compute; congruence.
  - vm_compute. congruence.
  - vm_compute. reflexivity.
  - rewrite E. vm_compute. reflexivity.
Defined.

(** ** The arena of circuits *)

Inductive aop : Type :=
| AAlloc (failureThresh successThresh openDurationMs : Z)
| AGate (idx fallback pc now : Z)
| ARecord (idx : Z) (ok : bool) (pc now : Z).

Inductive aans : Type :=
| AIdx (idx : option Z)
| APc (pc : Z) (status : option Z).

Definition arena_step (o : aop) (a : CircuitBreakerArena) : outcome (CircuitBreakerArena * aans) :=
  match o with
  | AAlloc f s ms => obind (Alloc a f s ms) (fun ar => Ret (ar.1, AIdx ar.2))
  | AGate idx fb pc now =>
    obind (on_circuit a idx (CircuitBreakerGateStep fb pc now)) (fun ar => Ret (ar.1, APc ar.2.1 ar.2.2))
  | ARecord idx ok pc now =>
    obind (on_circuit a idx (RecordCircuitOutcomeStep ok pc now)) (fun ar => Ret (ar.1, APc ar.2 None))
  end.

(** The table: one breaker with its thresholds per slot, and how many slots
    are handed out. *)
Abbreviation table := (list (thresholds * breaker) * Z)%type.

Definition table_new : table := (replicate 256 (mkThresholds 0 0 0, BClosed 0), 0).

Definition table_step (o : aop) (x : table) : outcome (table * aans) :=
  let '(cells, n) := x in
  match o with
  | AAlloc f s ms =>
    if 256 <=? n then Ret (x, AIdx None)
    else obind (go_index cells n) (fun c =>
      Ret ((<[Z.to_nat n:=(mkThresholds f s (ms * time_Millisecond), c.2)]> cells, n + 1), AIdx (Some n)))
  | AGate idx fb pc now =>
    obind (go_index cells idx) (fun c =>
      let '(b, admitted) := spec_gate c.1 now c.2 in
      Ret ((<[Z.to_nat idx:=(c.1, b)]> cells, n),
           if admitted then APc (i16 (pc + 1)) None
           else if 0 <=? fb then APc fb None else APc StopPlan (Some 503)))
  | ARecord idx ok pc now =>
    obind (go_index cells idx) (fun c =>
      Ret ((<[Z.to_nat idx:=(c.1, spec_record c.1 ok now c.2)]> cells, n), APc (i16 (pc + 1)) None))
  end.

Definition aop_ok (o : aop) : Prop :=
  match o with
  | AAlloc f s ms => f < 2 ^ 63 /\ s < 2 ^ 63 /\ 0 <= ms < 2 ^ 32
  | AGate _ _ _ now | ARecord _ _ _ now => time_ok now
  end.

(** The thresholds of the slots not handed out are zero; the allocation
    counter is ahead of the table once the arena is full, and [k] more
    operations do not make it overflow. *)
Definition arena_rel (k : nat) (a : CircuitBreakerArena) (x : table) : Prop :=
  x.1 = (fun c => (cs_th c, cs_view c)) <$> cb_states a /\
  length (cb_states a) = 256%nat /\ Forall cs_inv (cb_states a) /\
  (forall i c, x.2 <= Z.of_nat i -> cb_states a !! i = Some c -> cs_th c = mkThresholds 0 0 0) /\
  0 <= x.2 <= 256 /\ (cb_count a = x.2 \/ x.2 = 256 /\ 256 <= cb_count a) /\
  cb_count a + Z.of_nat k < 2 ^ 31.

Lemma go_index_fmap {A B} (f : A -> B) l i :
  go_index (f <$> l) i = obind (go_index l i) (fun a => Ret (f a)).
Proof.
  unfold go_index. destruct (i <? 0); [done|]. rewrite list_lookup_fmap.
  by destruct (l !! Z.to_nat i).
Qed.

(** Storing a circuit with the same thresholds keeps the relation. *)
Lemma arena_rel_store k a x i c c' :
  arena_rel (S k) a x -> cb_states a !! i = Some c -> cs_inv c' -> cs_th c' = cs_th c ->
  arena_rel k (mkCBArena (<[i:=c']> (cb_states a)) (cb_count a))
    (<[i:=(cs_th c, cs_view c')]> x.1, x.2).
Proof.
  intros (Hx & Hl & Hf & Hz & Hn & Hc & Hb) Hi Hinv Hth.
  unfold arena_rel; cbn [cb_states cb_count fst snd].
  split; [by rewrite Hx, list_fmap_insert, Hth|]. split; [by rewrite length_insert|].
  split; [by apply Forall_insert|]. split; [|split; [done|split; [done|lia]]].
  intros j c0 Hj. rewrite list_lookup_insert. case_decide as Hji; [|by apply Hz].
  destruct Hji as [<- _]. intros [= <-]. rewrite Hth. by eapply Hz.
Qed.

Lemma go_index_cases {A} (l : list A) i :
  go_index l i = Panic \/
  exists a, go_index l i = Ret a /\ l !! Z.to_nat i = Some a /\ 0 <= i < Z.of_nat (length l).
Proof.
  destruct (go_index l i) as [a| |] eqn:E; [|by left|].
  - right. exists a. destruct (go_index_Ret _ _ _ E). auto.
  - unfold go_index in E. destruct (i <? 0), (l !! Z.to_nat i); done.
Qed.

Lemma arena_step_alloc f s ms k a x :
  aop_ok (AAlloc f s ms) -> arena_rel (S k) a x ->
  sim (arena_rel k) (arena_step (AAlloc f s ms) a) (table_step (AAlloc f s ms) x).
Proof.
  destruct x as [cells n]. intros (Hf & Hs & Hms) (Hx & Hl & Hall & Hz & Hn & Hc & Hb).
  cbn [fst snd] in *. unfold arena_step, table_step, Alloc.
  rewrite (wraps_small 32) by lia. replace (cb_count a + 1 - 1) with (cb_count a) by lia.
  destruct (Z.leb_spec 256 n).
  - rewrite (proj2 (Z.leb_le _ _)) by lia. cbn. split; [|done].
    repeat split; cbn; try assumption; lia.
  - assert (cb_count a = n) as -> by lia. rewrite (proj2 (Z.leb_gt _ _)) by lia.
    destruct (lookup_lt_is_Some_2 (cb_states a) (Z.to_nat n)) as [c Hi]; [lia|].
    rewrite Hx, go_index_fmap, <- (Z2Nat.id n), (go_index_nat _ _ _ Hi) by lia.
    rewrite Nat2Z.id. cbn [obind sim fst snd]. split; [|done].
    assert (cs_th c = mkThresholds 0 0 0) as Hc0 by (eapply Hz; [|done]; lia).
    pose proof (proj1 (Forall_lookup _ _) Hall _ _ Hi) as (Hk & _ & Hok).
    rewrite Hc0 in Hok. rewrite (wraps_small 64) by (unfold time_Millisecond; lia).
    unfold arena_rel; cbn [cb_states cb_count fst snd].
    split; [rewrite list_fmap_insert; reflexivity|]. split; [by rewrite length_insert|].
    split; [|split; [|split; [lia|split; [left; reflexivity|lia]]]].
    + apply Forall_insert; [done|]. split; [done|]. split; [split; cbn; lia|].
      change (breaker_ok (mkThresholds f s (ms * time_Millisecond)) (cs_view c)).
      destruct (cs_view c); cbn [breaker_ok th_fail th_succ] in *; [lia|done|lia].
    + intros j c0 Hj Hc1. rewrite list_lookup_insert_ne in Hc1 by lia. eapply Hz; [|done]. lia.
Qed.

Lemma arena_step_sim o k a x :
  aop_ok o -> arena_rel (S k) a x -> sim (arena_rel k) (arena_step o a) (table_step o x).
Proof.
  destruct o as [f s ms|idx fb pc now|idx ok pc now]; [apply arena_step_alloc| |];
    destruct x as [cells n]; intros Ho Hrel; pose proof Hrel as (Hx & _ & Hall & _);
    cbn [fst snd] in *; unfold arena_step, table_step, on_circuit; rewrite Hx, go_index_fmap;
    (destruct (go_index_cases (cb_states a) idx) as [->|(c & -> & Hi & _)]; [done|]);
    cbn [obind fst snd]; pose proof (proj1 (Forall_lookup _ _) Hall _ _ Hi) as Hc.
  - destruct (gate_spec fb pc now c Hc Ho) as (H1 & H2 & H3 & H4).
    destruct (run (CircuitBreakerGateStep fb pc now) c) as [c' r]. cbn [fst snd obind] in *.
    destruct (spec_gate (cs_th c) now (cs_view c)) as [b adm]. cbn [fst snd sim] in *. subst b r.
    split; [|destruct adm, (0 <=? fb); reflexivity].
    rewrite <- Hx. exact (arena_rel_store k a (cells, n) _ c c' Hrel Hi H1 H2).
  - destruct (record_spec ok pc now c Hc Ho) as (H1 & H2 & H3 & H4).
    destruct (run (RecordCircuitOutcomeStep ok pc now) c) as [c' r]. cbn [fst snd obind] in *.
    cbn [sim]. rewrite H4. split; [|done].
    rewrite <- H3, <- Hx. exact (arena_rel_store k a (cells, n) _ c c' Hrel Hi H1 H2).
Qed.

Lemma arena_rel_new k : Z.of_nat k < 2 ^ 31 -> arena_rel k NewCircuitBreakerArena table_new.
Proof.
  intros Hk. unfold arena_rel, NewCircuitBreakerArena, table_new. cbn [cb_states cb_count fst snd].
  split; [by rewrite fmap_replicate|]. split; [by rewrite length_replicate|].
  split; [|split; [|lia]].
  - apply Forall_replicate. split; [by left|]. split; [split; cbn; lia|]. cbn. lia.
  - intros i c _ [-> _]%lookup_replicate_1. reflexivity.
Qed.

(** The arena's cells answer the requests one at a time as the machine above. *)
Lemma circuit_table_refines ops :
  Forall aop_ok ops -> Z.of_nat (length ops) < 2 ^ 31 ->
  answers arena_step ops NewCircuitBreakerArena = answers table_step ops table_new.
Proof.
  intros Hok Hlen. apply (answers_refine _ _ arena_rel aop_ok); [|done|by apply arena_rel_new].
  intros. by apply arena_step_sim.
Qed.

(** *** The documented table

    The circuits handed out so far, each with its thresholds, its state and
    whether a probe is under way.  In the half-open state one request probes at
    a time: the gate turns the others away until the outcome of the probe has
    been recorded. *)

Abbreviation cell := (thresholds * breaker * bool)%type.

Definition refusal (fb : Z) : aans := if 0 <=? fb then APc fb None else APc StopPlan (Some 503).

Definition doc_gate (c : cell) (now : Z) : cell * bool :=
  let '(th, b, probing) := c in
  match b with
  | BClosed _ => (c, true)
  | BOpen t => if th_dur th <=? now - t then (th, BHalfOpen 0, true, true) else (c, false)
  | BHalfOpen n => if probing then (c, false) else (th, BHalfOpen n, true, true)
  end.

(** [None]: no circuit was handed out with this index. *)
Definition cell_at (d : list cell) (idx : Z) : option cell := if 0 <=? idx then d !! Z.to_nat idx else None.

Definition doc_step (o : aop) (d : list cell) : list cell * aans :=
  match o with
  | AAlloc f s ms =>
    if (256 <=? length d)%nat then (d, AIdx None)
    else (d ++ [(mkThresholds f s (ms * time_Millisecond), BClosed 0, false)], AIdx (Some (Z.of_nat (length d))))
  | AGate idx fb pc now =>
    match cell_at d idx with
    | None => (d, refusal fb)
    | Some c => let '(c', pass) := doc_gate c now in
                (<[Z.to_nat idx:=c']> d, if pass then APc (i16 (pc + 1)) None else refusal fb)
    end
  | ARecord idx ok pc now =>
    match cell_at d idx with
    | None => (d, APc (i16 (pc + 1)) None)
    | Some (th, b, _) => (<[Z.to_nat idx:=(th, spec_record th ok now b, false)]> d, APc (i16 (pc + 1)) None)
    end
  end.

(** Gates and records name a circuit that was handed out, and no request comes
    to a half-open circuit before the outcome of the probe is recorded. *)
Definition serial (o : aop) (d : list cell) : bool :=
  match o with
  | AAlloc _ _ _ => true
  | AGate idx _ _ _ =>
    match cell_at d idx with
    | Some (_, BHalfOpen _, probing) => negb probing
    | Some _ => true
    | None => false
    end
  | ARecord idx _ _ _ => bool_decide (is_Some (cell_at d idx))
  end.

Definition table_rel (x : table) (d : list cell) : Prop :=
  length x.1 = 256%nat /\ x.2 = Z.of_nat (length d) /\ (length d <= 256)%nat /\
  take (length d) x.1 = d.*1 /\ drop (length d) x.1 = replicate (256 - length d) (mkThresholds 0 0 0, BClosed 0).

Lemma table_rel_at x d idx th b p :
  table_rel x d -> cell_at d idx = Some (th, b, p) ->
  go_index x.1 idx = Ret (th, b) /\
  forall b' p', table_rel (<[Z.to_nat idx:=(th, b')]> x.1, x.2) (<[Z.to_nat idx:=(th, b', p')]> d).
Proof.
  intros (Hl & Hn & Hle & Ht & Hd) Hc. unfold cell_at in Hc. destruct (Z.leb_spec 0 idx) as [Hi|]; [|done].
  pose proof (lookup_lt_Some _ _ _ Hc) as Hlt. split.
  - apply go_index_Z; [done|]. rewrite <- (lookup_take_lt x.1 (length d)), Ht, list_lookup_fmap, Hc by done. done.
  - intros b' p'. unfold table_rel. cbn [fst snd]. rewrite !length_insert. split; [done|]. split; [done|]. split; [done|].
    split; [|by rewrite drop_insert_lt].
    rewrite take_insert_lt, Ht, list_fmap_insert by done. done.
Qed.

Lemma table_doc_step o x d : aop_ok o -> serial o d = true -> table_rel x d ->
  exists x', table_step o x = Ret (x', (doc_step o d).2) /\ table_rel x' (doc_step o d).1.
Proof.
  intros Ho Hs Hrel. destruct x as [cells n]. destruct o as [f s ms|idx fb pc now|idx ok pc now]; cbn [serial doc_step table_step] in *.
  - destruct Hrel as (Hl & Hn & Hle & Ht & Hd). cbn [fst snd] in *. subst n.
    destruct (Nat.leb_spec 256 (length d)) as [Hge|Hlt].
    + rewrite (proj2 (Z.leb_le _ _)) by lia. eexists. split; [reflexivity|]. done.
    + rewrite (proj2 (Z.leb_gt _ _)) by lia.
      assert (cells !! length d = Some (mkThresholds 0 0 0, BClosed 0)) as Hc.
      { replace (length d) with (length d + 0)%nat by lia. rewrite <- lookup_drop, Hd. apply lookup_replicate. split; [done|lia]. }
      rewrite (go_index_nat _ _ _ Hc). cbn [obind snd fst]. eexists. split; [reflexivity|]. rewrite Nat2Z.id.
      unfold table_rel. cbn [fst snd]. rewrite length_insert, length_app. cbn [length]. split; [done|]. split; [lia|]. split; [lia|].
      rewrite Nat.add_1_r. split.
      * rewrite (take_S_r _ _ (mkThresholds f s (ms * time_Millisecond), BClosed 0)) by (apply list_lookup_insert_eq; lia).
        rewrite take_insert_ge, Ht, fmap_app by lia. done.
      * rewrite drop_insert_lt by lia. apply (f_equal (drop 1)) in Hd. rewrite drop_drop, drop_replicate in Hd.
        rewrite <- Nat.add_1_r. rewrite Hd. f_equal. lia.
  - destruct (cell_at d idx) as [[[th b] p]|] eqn:Hc; [|done]. destruct (table_rel_at _ _ _ _ _ _ Hrel Hc) as [Hg Hst].
    cbn [fst snd] in *. rewrite Hg. cbn [obind fst snd].
    destruct b as [k|t|k]; cbn [spec_gate doc_gate];
      [|destruct (th_dur th <=? now - t)|apply negb_true_iff in Hs as ->]; (eexists; split; [reflexivity|apply Hst]).
  - destruct (cell_at d idx) as [[[th b] p]|] eqn:Hc; [|by apply bool_decide_eq_true_1, is_Some_None in Hs].
    destruct (table_rel_at _ _ _ _ _ _ Hrel Hc) as [Hg Hst]. cbn [fst snd] in *. rewrite Hg.
    cbn [obind fst snd]. eexists. split; [reflexivity|apply Hst].
Qed.

(** C11: the arena of circuits, used through [Alloc] and the gate and record
    instructions, never panics and answers every sequence of fewer than 2^31
    operations like the documented table: slots are handed out in order and
    refused from the 257th on, circuits do not influence each other, a circuit
    opens after its failure threshold of consecutive failures, refuses (with
    the fallback or 503) until its time is over, then lets a probe pass and
    closes after its success threshold, or opens again on a failure.  The
    operations come one after the other, gates and records name circuits that
    were handed out, and no request comes to a half-open circuit between a
    probe and the record of its outcome ([serial]; there the table refuses,
    and the code lets the request pass). *)
Theorem circuit_arena_refines ops :
  Forall aop_ok ops -> Z.of_nat (length ops) < 2 ^ 31 -> honoured serial doc_step ops [] = true ->
  answers arena_step ops NewCircuitBreakerArena = Ret (replies doc_step ops []).
Proof.
  intros Hok Hlen Hser. rewrite circuit_table_refines by done.
  apply (answers_honoured _ _ (fun _ => table_rel) aop_ok serial); [|done|done|].
  - intros. by apply table_doc_step.
  - unfold table_rel, table_new. cbn [fst snd]. split; [by rewrite length_replicate|]. split; [done|]. split; [cbn; lia|]. done.
Qed.

Lemma circuit_arena_refines_witness :
  let ops := [AAlloc 1 1 10; ARecord 0 false 3 100; AGate 0 (-1) 2 200; AGate 0 9 2 10000100; ARecord 0 true 3 10000200;
              AGate 0 (-1) 2 10000300] in
  answers arena_step ops NewCircuitBreakerArena =
  Ret [AIdx (Some 0); APc 4 None; APc StopPlan (Some 503); APc 3 None; APc 4 None; APc 3 None].
Proof.
  intros ops. rewrite (circuit_arena_refines ops).
  - vm_compute. reflexivity.
  - repeat constructor; vm_compute; congruence.
  - vm_compute. reflexivity.
  - vm_compute. reflexivity.
Defined.

(** Outside that contract: a second request passes while the first is still
    probing. *)
Lemma second_probe_passes :
  let ops := [AAlloc 1 1 10; ARecord 0 false 3 100; AGate 0 (-1) 2 10000100; AGate 0 (-1) 2 10000101] in
  answers arena_step ops NewCircuitBreakerArena = Ret [AIdx (Some 0); APc 4 None; APc 3 None; APc 3 None] /\
  replies doc_step ops [] = [AIdx (Some 0); APc 4 None; APc 3 None; APc StopPlan (Some 503)].
Proof. split; vm_compute; reflexivity. Qed.

(** ** The registry of named circuits refines a map of breakers *)

Inductive nop : Type :=
| NCreate (name : string) (failureThresh successThresh openDurationMs : Z)
| NIsOpen (name : string) (now : Z)
| NState (name : string)
| NTrip (name : string) (openDurationOverrideMs now : Z)
| NReset (name : string)
| NRecord (name : string) (ok : bool) (now : Z).

Inductive nans : Type :=
| NCircuit (th : thresholds) (b : breaker)
| NBool (b : bool)
| NCode (state : Z)
| NChange (changed : bool) (state : Z).

Definition reg_step (o : nop) (reg : registry) : outcome (registry * nans) :=
  match o with
  | NCreate name f s ms =>
    let '(reg', c) := GetOrCreateNamedCircuit reg name f s ms in Ret (reg', NCircuit (nc_th c) (nc_view c))
  | NIsOpen name now => let '(reg', b) := IsNamedCircuitOpen reg name now in Ret (reg', NBool b)
  | NState name => Ret (reg, NCode (GetNamedCircuitState reg name))
  | NTrip name ms now => let '(reg', b) := TripNamedCircuit 1 reg name ms now in Ret (reg', NBool b)
  | NReset name => let '(reg', b) := ResetNamedCircuit reg name in Ret (reg', NBool b)
  | NRecord name ok now =>
    let '(reg', r) := RecordNamedCircuitOutcome reg name ok now in Ret (reg', NChange r.1 r.2)
  end.

Abbreviation nspec := (gmap string (thresholds * breaker)).

Definition nspec_create (m : nspec) (name : string) (f s ms : Z) : nspec * (thresholds * breaker) :=
  match m !! name with
  | Some c => (m, c)
  | None => let c := (mkThresholds f s (ms * time_Millisecond), BClosed 0) in (<[name:=c]> m, c)
  end.

Definition nspec_step (o : nop) (m : nspec) : outcome (nspec * nans) :=
  match o with
  | NCreate name f s ms =>
    let '(m', c) := nspec_create m name f s ms in Ret (m', NCircuit c.1 c.2)
  | NIsOpen name now =>
    match m !! name with
    | None => Ret (m, NBool false)
    | Some (th, b) =>
      let '(b', admitted) := spec_gate th now b in Ret (<[name:=(th, b')]> m, NBool (negb admitted))
    end
  | NState name => Ret (m, NCode (match m !! name with None => CBStateClosed | Some c => code c.2 end))
  | NTrip name ms now =>
    let '(m, (th, _)) := nspec_create m name 5 2 ms in
    let dur := if 0 <? ms then ms * time_Millisecond else th_dur th in
    Ret (<[name:=(mkThresholds (th_fail th) (th_succ th) dur, BOpen now)]> m, NBool true)
  | NReset name =>
    match m !! name with
    | None => Ret (m, NBool false)
    | Some (th, _) => Ret (<[name:=(th, BClosed 0)]> m, NBool true)
    end
  | NRecord name ok now =>
    match m !! name with
    | None => Ret (m, NChange false CBStateClosed)
    | Some (th, b) =>
      let b' := spec_record th ok now b in
      Ret (<[name:=(th, b')]> m, NChange (negb (code b' =? code b)) (code b'))
    end
  end.

Definition nop_ok (o : nop) : Prop :=
  match o with
  | NCreate _ f s ms => f < 2 ^ 63 /\ s < 2 ^ 63 /\ 0 <= ms < 2 ^ 32
  | NTrip _ ms now => 0 <= ms < 2 ^ 32 /\ time_ok now
  | NIsOpen _ now | NRecord _ _ now => time_ok now
  | NState _ | NReset _ => True
  end.

Definition reg_rel (reg : registry) (m : nspec) : Prop :=
  m = (fun c => (nc_th c, nc_view c)) <$> reg /\ map_Forall (fun _ c => nc_inv c) reg.

Lemma reg_rel_insert reg m name c :
  reg_rel reg m -> nc_inv c -> reg_rel (<[name:=c]> reg) (<[name:=(nc_th c, nc_view c)]> m).
Proof.
  intros [-> Hall] Hc. split; [by rewrite fmap_insert|]. by apply map_Forall_insert_2.
Qed.

(** Running a program on a named circuit, when the program keeps the
    invariant and [th'], [b'] describe what it leaves. *)
Lemma on_named_rel {A} reg m name (p : prog NamedCircuit A) dflt c :
  reg_rel reg m -> reg !! name = Some c -> nc_inv (run p c).1 ->
  reg_rel (on_named reg name p dflt).1
    (<[name:=(nc_th (run p c).1, nc_view (run p c).1)]> m) /\
  (on_named reg name p dflt).2 = (run p c).2.
Proof.
  intros Hrel E Hinv. unfold on_named. rewrite E.
  destruct (run p c) as [c' r]. cbn [fst snd] in *. split; [by apply reg_rel_insert|done].
Qed.

Lemma new_named_inv name f s ms :
  f < 2 ^ 63 -> s < 2 ^ 63 -> 0 <= ms < 2 ^ 32 ->
  nc_inv (NewNamedCircuit name f s ms) /\
  nc_th (NewNamedCircuit name f s ms) = mkThresholds f s (ms * time_Millisecond) /\
  nc_view (NewNamedCircuit name f s ms) = BClosed 0.
Proof.
  intros Hf Hs Hms. unfold nc_inv, nc_th, nc_view, NewNamedCircuit.
  rewrite (wraps_small 64) by (unfold time_Millisecond; lia). solve_breaker.
Qed.

Lemma create_rel reg m name f s ms :
  f < 2 ^ 63 -> s < 2 ^ 63 -> 0 <= ms < 2 ^ 32 -> reg_rel reg m ->
  let '(reg', c) := GetOrCreateNamedCircuit reg name f s ms in
  let '(m', x) := nspec_create m name f s ms in
  reg_rel reg' m' /\ reg' !! name = Some c /\ x = (nc_th c, nc_view c) /\ nc_inv c.
Proof.
  intros Hf Hs Hms Hrel. pose proof Hrel as [Hm Hall].
  unfold GetOrCreateNamedCircuit, nspec_create. rewrite Hm, lookup_fmap.
  destruct (reg !! name) as [c|] eqn:E; csimpl.
  - split; [by rewrite <- Hm|]. split; [done|]. split; [done|]. by eapply Hall.
  - destruct (new_named_inv name f s ms Hf Hs Hms) as (Hi & Hth & Hv).
    rewrite <- Hth, <- Hv, <- Hm.
    split; [by apply reg_rel_insert|]. split; [by rewrite lookup_insert_eq|]. done.
Qed.

Lemma reg_step_trip name ms now reg m :
  nop_ok (NTrip name ms now) -> reg_rel reg m ->
  sim reg_rel (reg_step (NTrip name ms now) reg) (nspec_step (NTrip name ms now) m).
Proof.
  intros [Hms Hnow] Hrel. unfold reg_step, nspec_step, TripNamedCircuit.
  pose proof (create_rel reg m name 5 2 ms ltac:(lia) ltac:(lia) Hms Hrel) as Hc.
  destruct (GetOrCreateNamedCircuit reg name 5 2 ms) as [reg1 c].
  destruct (nspec_create m name 5 2 ms) as [m1 x]. destruct Hc as (Hrel1 & Hl & -> & Hi).
  cbn [fst]. destruct (trip_spec 0 ms now c Hi Hnow) as (Hi' & Hv & Hr & Hth).
  destruct (on_named_rel reg1 m1 name (Trip 1 ms now) true c Hrel1 Hl Hi') as [Hrel2 Hans].
  destruct (on_named reg1 name (Trip 1 ms now) true) as [reg2 b]. cbn [fst snd sim] in *.
  rewrite Hth, Hv in Hrel2. subst b. rewrite Hr. split; [|done]. cbn [nc_th th_fail th_succ th_dur].
  destruct (Z.ltb_spec 0 ms); [|done].
  rewrite (wraps_small 64) in Hrel2 by (unfold time_Millisecond; lia). done.
Qed.

Lemma reg_step_sim o reg m :
  nop_ok o -> reg_rel reg m -> sim reg_rel (reg_step o reg) (nspec_step o m).
Proof.
  destruct o as [name f s ms|name now|name|name ms now|name|name ok now]; intros Ho Hrel;
    [| | |by apply reg_step_trip| |];
    pose proof Hrel as [Hm Hall]; unfold reg_step, nspec_step.
  - destruct Ho as (Hf & Hs & Hms). pose proof (create_rel reg m name f s ms Hf Hs Hms Hrel) as Hc.
    destruct (GetOrCreateNamedCircuit reg name f s ms), (nspec_create m name f s ms).
    destruct Hc as (Hrel1 & _ & -> & _). done.
  - unfold IsNamedCircuitOpen. rewrite Hm, lookup_fmap.
    destruct (reg !! name) as [c|] eqn:E; csimpl; [|unfold on_named; by rewrite E].
    destruct (isopen_spec now c (Hall _ _ E) Ho) as (Hi & Hth & Hv & Hr).
    destruct (on_named_rel reg m name (IsOpen now) false c Hrel E Hi) as [Hrel2 Hans].
    destruct (on_named reg name (IsOpen now) false) as [reg2 b]. cbn [fst snd] in *.
    destruct (spec_gate (nc_th c) now (nc_view c)). cbn [fst snd sim] in *.
    rewrite Hth, Hv, Hm in Hrel2. split; [done|]. by rewrite Hans, Hr.
  - split; [done|]. f_equal. unfold GetNamedCircuitState. rewrite Hm, lookup_fmap.
    destruct (reg !! name) as [c|] eqn:E; csimpl; [|done].
    destruct (Hall _ _ E) as ([Hs|[Hs|Hs]] & _); rewrite Hs; unfold nc_view, view_of; by rewrite Hs.
  - unfold ResetNamedCircuit. rewrite Hm, lookup_fmap.
    destruct (reg !! name) as [c|] eqn:E; csimpl; [|unfold on_named; by rewrite E].
    destruct (reset_spec c (Hall _ _ E)) as (Hi & Hth & Hv & Hr).
    destruct (on_named_rel reg m name Reset_ false c Hrel E Hi) as [Hrel2 Hans].
    destruct (on_named reg name Reset_ false) as [reg2 b]. cbn [fst snd sim] in *.
    rewrite Hth, Hv, Hm in Hrel2. split; [done|]. by rewrite Hans, Hr.
  - unfold RecordNamedCircuitOutcome. rewrite Hm, lookup_fmap.
    destruct (reg !! name) as [c|] eqn:E; csimpl; [|unfold on_named; by rewrite E].
    destruct (recordnamed_spec ok now c (Hall _ _ E) Ho) as (Hi & Hth & Hv & Hr).
    destruct (on_named_rel reg m name (RecordNamed ok now) (false, CBStateClosed) c Hrel E Hi)
      as [Hrel2 Hans].
    destruct (on_named reg name (RecordNamed ok now) (false, CBStateClosed)) as [reg2 b].
    cbn [fst snd sim] in *. rewrite Hth, Hv, Hm in Hrel2. split; [done|]. by rewrite Hans, Hr.
Qed.

(** C33: the registry of named circuits answers every sequence of create,
    check, state, trip, reset and record calls exactly like a map from names
    to breakers; in particular a circuit that never resets its
    success counter on entering the half-open state still counts from zero. *)
Theorem named_registry_refines ops :
  Forall nop_ok ops -> answers reg_step ops ∅ = answers nspec_step ops ∅.
Proof.
  intros Hok. apply (answers_refine _ _ (fun _ => reg_rel) nop_ok); [|done|].
  - intros. by apply reg_step_sim.
  - split; [by rewrite fmap_empty|apply map_Forall_empty].
Qed.

Lemma named_registry_refines_witness :
  answers reg_step
    [NCreate "a" 2 1 1000; NRecord "a" false 5; NRecord "a" false 6; NIsOpen "a" 7;
     NIsOpen "a" 1000000006; NState "a"; NRecord "a" true 1000000007; NTrip "b" 500 9; NIsOpen "b" 10] ∅ =
  Ret [NCircuit (mkThresholds 2 1 1000000000) (BClosed 0); NChange false CBStateClosed;
       NChange true CBStateOpen; NBool true; NBool false; NCode CBStateHalfOpen;
       NChange true CBStateClosed; NBool true; NBool true].
Proof.
  rewrite (named_registry_refines
    [NCreate "a" 2 1 1000; NRecord "a" false 5; NRecord "a" false 6; NIsOpen "a" 7;
     NIsOpen "a" 1000000006; NState "a"; NRecord "a" true 1000000007; NTrip "b" 500 9; NIsOpen "b" 10]).
  - vm_compute. reflexivity.
  - repeat constructor; vm_compute; congruence.
Defined.

(** ** Interleavings *)

(** What a goroutine is doing with a circuit, and the changes of state that
    are its own. *)
Inductive kind : Type := KCheck | KRecord (ok : bool) | KTrip | KReset.

#[export] Instance kind_eq_dec : EqDecision kind.
Proof. solve_decision. Defined.

Definition edge (k : kind) (s s' : Z) : Prop :=
  s' = s \/
  match k with
  | KCheck => s = CBStateOpen /\ s' = CBStateHalfOpen
  | KRecord true => s = CBStateHalfOpen /\ s' = CBStateClosed
  | KRecord false => (s = CBStateClosed \/ s = CBStateHalfOpen) /\ s' = CBStateOpen
  | KTrip => s' = CBStateOpen
  | KReset => s' = CBStateClosed
  end.

(** How many of the goroutines record the outcome [ok]. *)
Definition records (ok : bool) (ks : list kind) : Z := Z.of_nat (length (filter (.= KRecord ok) ks)).

(** A change of state along the goroutine's edges that respects the
    thresholds: when the counters stood at [fc] and [sc] before the goroutines
    [ks] ran, a closed circuit opens only if that many failures were there to
    be recorded, and a half-open one closes only if that many successes were. *)
Definition may_move (th : thresholds) (fc sc : Z) (ks : list kind) (k : kind) (s s' : Z) : Prop :=
  edge k s s' /\
  (k = KRecord false -> s = CBStateClosed -> s' = CBStateOpen -> th_fail th <= fc + records false ks) /\
  (k = KRecord true -> s = CBStateHalfOpen -> s' = CBStateClosed -> th_succ th <= sc + records true ks).

(** The goroutines of the gateway on an arena circuit, and on a named circuit. *)
Inductive cuser : Type :=
| CGate (fallback pc now : Z)
| CRecord (ok : bool) (pc now : Z).

Definition cprog (u : cuser) : prog CircuitState unit :=
  match u with
  | CGate fb pc now => pmap (fun _ => tt) (CircuitBreakerGateStep fb pc now)
  | CRecord ok pc now => pmap (fun _ => tt) (RecordCircuitOutcomeStep ok pc now)
  end.

Definition ckind (u : cuser) : kind := match u with CGate _ _ _ => KCheck | CRecord ok _ _ => KRecord ok end.

Inductive nuser : Type :=
| UIsOpen (now : Z)
| URecord (ok : bool) (now : Z)
| UTrip (fuel : nat) (openDurationOverrideMs now : Z)
| UReset.

Definition nprog (u : nuser) : prog NamedCircuit unit :=
  match u with
  | UIsOpen now => pmap (fun _ => tt) (IsOpen now)
  | URecord ok now => pmap (fun _ => tt) (RecordNamed ok now)
  | UTrip fuel ms now => pmap (fun _ => tt) (Trip fuel ms now)
  | UReset => pmap (fun _ => tt) Reset_
  end.

Definition nkind (u : nuser) : kind :=
  match u with UIsOpen _ => KCheck | URecord ok _ => KRecord ok | UTrip _ _ _ => KTrip | UReset => KReset end.

(** *** The edges *)

Definition cs_move (k : kind) (c c' : CircuitState) : Prop :=
  cs_th c' = cs_th c /\ edge k (cs_state c) (cs_state c').

(** A trip may set another open duration. *)
Definition nc_move (k : kind) (c c' : NamedCircuit) : Prop :=
  nc_failureThreshold c' = nc_failureThreshold c /\ nc_successThreshold c' = nc_successThreshold c /\
  (k <> KTrip -> nc_openDurationNs c' = nc_openDurationNs c) /\ edge k (nc_state c) (nc_state c').

#[export] Instance cs_move_refl k : Reflexive (cs_move k).
Proof. intros c. split; [done|by left]. Qed.

#[export] Instance nc_move_refl k : Reflexive (nc_move k).
Proof. intros c. repeat split. by left. Qed.

Lemma edge_same k s : edge k s s.
Proof. by left. Qed.

Ltac own_edge :=
  intros; repeat match goal with H : (_ =? _) = true |- _ => apply Z.eqb_eq in H end;
  unfold cs_move, nc_move; repeat split; cbn; try done;
  first [apply edge_same | right; cbn; solve [auto]].

Ltac acts :=
  repeat first
    [ apply acts_get; [exact _|intros ?]
    | apply acts_cas; [exact _|own_edge|intros ?]
    | apply acts_put; [own_edge|]
    | apply acts_addget; [own_edge|intros ?]
    | apply acts_return
    | match goal with |- acts_in _ (if ?b then _ else _) => destruct b end ].

Lemma cprog_acts u : acts_in (cs_move (ckind u)) (cprog u).
Proof.
  destruct u as [fb pc now|[] pc now]; apply acts_pmap; unfold CircuitBreakerGateStep, RecordCircuitOutcomeStep; cbn [ckind negb]; acts.
Qed.

Lemma trip_loop_acts fuel : acts_in (nc_move KTrip) (trip_loop fuel).
Proof. induction fuel as [|fuel IH]; cbn [trip_loop]; acts. exact IH. Qed.

Lemma nprog_acts u : acts_in (nc_move (nkind u)) (nprog u).
Proof.
  destruct u as [now|[] now|fuel ms now|]; apply acts_pmap; unfold IsOpen, RecordNamed, Trip, Reset_; cbn [nkind negb]; acts;
    apply trip_loop_acts.
Qed.

(** *** The thresholds *)

(** Only the goroutines recording the outcome [ok] raise its counter, each of
    them once, and only they are held to [R]. *)
Definition share {S} (R : S -> S -> Prop) (ok : bool) (k : kind) : (S -> S -> Prop) * nat :=
  match k with
  | KRecord ok' => if eqb ok' ok then (R, 1%nat) else ((fun _ _ => True), 0%nat)
  | _ => ((fun _ _ => True), 0%nat)
  end.

Lemma budget_share {S} (R : S -> S -> Prop) ok ks : budget (share R ok <$> ks) = records ok ks.
Proof.
  unfold budget, records, share. induction ks as [|k ks IH]; [done|]. rewrite filter_cons. csimpl.
  destruct (decide (k = KRecord ok)) as [->|Hne]; [rewrite eqb_reflx; cbn [snd length]; lia|].
  destruct k as [|ok'| |]; try (cbn [snd]; lia). destruct (eqb ok' ok) eqn:E; [apply eqb_prop in E; congruence|cbn [snd]; lia].
Qed.

(** The state does not go from [from] to [to]. *)
Definition no_jump {S} (state : S -> Z) (from to : Z) (s s' : S) : Prop := ~ (state s = from /\ state s' = to).

Ltac jumps := cbv [no_jump CBStateClosed CBStateOpen CBStateHalfOpen] in *; cbn in *; try done; intros [? ?]; lia.

Ltac held :=
  intros; repeat match goal with H : (_ =? _) = true |- _ => apply Z.eqb_eq in H end;
  split; [jumps|split; [done|cbn; rewrite ?wraps_small by lia; lia]].

Ltac tames :=
  repeat first
    [ apply tame_get; [intros ?; jumps|intros ? ?]
    | apply tame_cas; [intros ?; jumps|held|intros ?]
    | apply tame_put; [held|]
    | apply tame_raise; [held|intros ? ?]
    | apply tame_add; [held|intros ?]
    | apply tame_return
    | match goal with |- tame _ _ _ _ _ (if ?b then _ else _) => destruct b eqn:? end ];
  try lia.

Lemma cprog_fail_tame T u : T < 2 ^ 63 ->
  let rn := share (no_jump cs_state CBStateClosed CBStateOpen) false (ckind u) in
  tame (fun c => cs_failureThreshold c = T) cs_failureCount T rn.1 rn.2 (cprog u).
Proof.
  intros HT. destruct u as [fb pc now|[] pc now]; apply tame_pmap;
    unfold CircuitBreakerGateStep, RecordCircuitOutcomeStep; unfold share; cbn; tames.
Qed.

Lemma cprog_succ_tame T u : T < 2 ^ 63 ->
  let rn := share (no_jump cs_state CBStateHalfOpen CBStateClosed) true (ckind u) in
  tame (fun c => cs_successThreshold c = T) cs_successCount T rn.1 rn.2 (cprog u).
Proof.
  intros HT. destruct u as [fb pc now|[] pc now]; apply tame_pmap;
    unfold CircuitBreakerGateStep, RecordCircuitOutcomeStep; unfold share; cbn; tames.
Qed.

Lemma trip_loop_tame Inv cnt T fuel : (forall c v, Inv c -> Inv (nc_set_state v c)) -> (forall c v, cnt (nc_set_state v c) = cnt c) ->
  tame Inv cnt T (fun _ _ => True) 0 (trip_loop fuel).
Proof.
  intros HI Hc. induction fuel as [|fuel IH]; cbn [trip_loop]; [apply tame_return|].
  apply tame_get; [done|]. intros c0 _. apply tame_cas; [done| |].
  - intros c H0 Hcnt _. split; [done|]. split; [by apply HI|]. rewrite Hc. lia.
  - intros ok. destruct (ok || (nc_state c0 =? CBStateOpen)); [apply tame_return|exact IH].
Qed.

Lemma nprog_fail_tame T u : T < 2 ^ 63 ->
  let rn := share (no_jump nc_state CBStateClosed CBStateOpen) false (nkind u) in
  tame (fun c => nc_failureThreshold c = T) nc_failureCount T rn.1 rn.2 (nprog u).
Proof.
  intros HT. destruct u as [now|[] now|fuel ms now|]; apply tame_pmap;
    unfold IsOpen, RecordNamed, Trip, Reset_; unfold share; cbn; tames; by apply trip_loop_tame.
Qed.

Lemma nprog_succ_tame T u : T < 2 ^ 63 ->
  let rn := share (no_jump nc_state CBStateHalfOpen CBStateClosed) true (nkind u) in
  tame (fun c => nc_successThreshold c = T) nc_successCount T rn.1 rn.2 (nprog u).
Proof.
  intros HT. destruct u as [now|[] now|fuel ms now|]; apply tame_pmap;
    unfold IsOpen, RecordNamed, Trip, Reset_; unfold share; cbn; tames; by apply trip_loop_tame.
Qed.

(** *** Together *)

(** What the two rules above give for goroutines of kinds [kind_of] running
    [prg], on states with thresholds [th] and counters [fails] and [succs]. *)
Section interleaved.
Context {S U : Type} (prg : U -> prog S unit) (kind_of : U -> kind).
Context (state fails succs thf ths : S -> Z) (move : kind -> S -> S -> Prop).
Hypothesis prg_acts : forall u, acts_in (move (kind_of u)) (prg u).
Hypothesis fail_tame : forall T u, T < 2 ^ 63 ->
  let rn := share (no_jump state CBStateClosed CBStateOpen) false (kind_of u) in
  tame (fun c => thf c = T) fails T rn.1 rn.2 (prg u).
Hypothesis succ_tame : forall T u, T < 2 ^ 63 ->
  let rn := share (no_jump state CBStateHalfOpen CBStateClosed) true (kind_of u) in
  tame (fun c => ths c = T) succs T rn.1 rn.2 (prg u).
Hypothesis move_refl : forall k c, move k c c.
Hypothesis move_ths : forall k c c', move k c c' -> thf c' = thf c /\ ths c' = ths c.

(** A jump by a goroutine that records [ok] needs as many of them as the
    counter is short of the threshold. *)
Lemma jump_needs (cnt thr : S -> Z) ok from to c us l i u :
  (forall T u, T < 2 ^ 63 -> let rn := share (no_jump state from to) ok (kind_of u) in
     tame (fun c => thr c = T) cnt T rn.1 rn.2 (prg u)) ->
  0 <= cnt c -> thr c < 2 ^ 63 -> from <> to -> us !! i = Some u -> kind_of u = KRecord ok ->
  let before := foldl sched1 (c, prg <$> us) l in
  state before.1 = from -> state (sched1 before i).1 = to -> thr c <= cnt c + records ok (kind_of <$> us).
Proof.
  intros Htame Hc HT Hne Hu Hk before Hb Ha. destruct (Z.le_gt_cases (thr c) (cnt c + records ok (kind_of <$> us))) as [|Hlt]; [done|].
  set (R := no_jump state from to).
  assert (tame_conf (fun c' => thr c' = thr c) cnt (thr c) (share R ok <$> (kind_of <$> us)) (c, prg <$> us)) as Hconf.
  { split; [done|]. split; [done|]. split; [cbn [fst]; rewrite budget_share; lia|]. cbn [snd]. rewrite <- list_fmap_compose, Forall2_fmap.
    apply Forall_Forall2_diag. apply Forall_true. intros u'. apply (Htame (thr c) u' HT). }
  destruct (tame_moves _ _ _ _ _ l i R Hconf) as [Hsame|Hmove].
  - rewrite !list_lookup_fmap, Hu. cbn. unfold share. rewrite Hk, eqb_reflx. done.
  - fold before in Hsame. rewrite Hsame in Ha. congruence.
  - exfalso. apply Hmove. done.
Qed.

Lemma interleaved_moves c us l i u :
  0 <= fails c -> 0 <= succs c -> thf c < 2 ^ 63 -> ths c < 2 ^ 63 -> us !! i = Some u ->
  let before := foldl sched1 (c, prg <$> us) l in let after := sched1 before i in
  move (kind_of u) before.1 after.1 /\ thf after.1 = thf c /\ ths after.1 = ths c /\
  (edge (kind_of u) (state before.1) (state after.1) ->
   may_move (mkThresholds (thf c) (ths c) 0) (fails c) (succs c) (kind_of <$> us) (kind_of u) (state before.1) (state after.1)).
Proof.
  intros Hf Hs Hthf Hths Hu before after.
  assert (Forall2 acts_in ((fun u => move (kind_of u)) <$> us) (prg <$> us)) as Hall.
  { rewrite Forall2_fmap. apply Forall_Forall2_diag, Forall_true. apply prg_acts. }
  assert (move (kind_of u) before.1 after.1) as Hmove.
  { destruct (sched1_guarantee _ before i (move (kind_of u)) (sched_guarantee _ (c, prg <$> us) l Hall)) as [E|E];
      [by rewrite list_lookup_fmap, Hu|unfold after; rewrite E; apply move_refl|done]. }
  destruct (move_ths _ _ _ Hmove) as [E1 E2].
  assert (thf before.1 = thf c /\ ths before.1 = ths c) as [E3 E4].
  { destruct (psteps_guarantee (fun x y => thf y = thf x /\ ths y = ths x) (c, prg <$> us) before) as [Hr _].
    - apply Forall_fmap, Forall_true. intros u'. cbn. induction (prg_acts u') as [|? ? Ha _ IH]; constructor; [|done]. intros s. by eapply move_ths, Ha.
    - apply sched_steps.
    - cbn [fst] in Hr. clear -Hr. revert Hr. generalize before.1. intros d Hr. induction Hr as [|? ? ? [] _ []]; [done|]. split; congruence. }
  split; [done|]. split; [congruence|]. split; [congruence|]. intros Hedge. split; [done|]. cbn [th_fail th_succ]. split; intros Hk Hb Ha.
  - by eapply (jump_needs fails thf false); [apply fail_tame|..].
  - by eapply (jump_needs succs ths true); [apply succ_tame|..].
Qed.
End interleaved.

(** C34: any number of goroutines check the gate and record outcomes on an
    arena circuit, or check, record, trip and reset a named circuit, their
    atomic operations interleaved in any order.  Whatever happened before, the
    next step of a goroutine keeps the thresholds (a trip may set another open
    duration), and changes the state only along the goroutine's own edges: a
    check from Open to HalfOpen, a recorded success from HalfOpen to Closed, a
    recorded failure from Closed or HalfOpen to Open, a trip to Open, a reset
    to Closed.  A recorded failure opens a closed circuit only when the failure
    counter at the start and the goroutines that record failures together reach
    the failure threshold, a recorded success closes a half-open one only when
    the success counter and the goroutines that record successes reach the
    success threshold. *)
Theorem breaker_edges :
  (forall c us l i u, 0 <= cs_failureCount c -> 0 <= cs_successCount c -> th_ok (cs_th c) -> us !! i = Some u ->
     let before := foldl sched1 (c, cprog <$> us) l in let after := sched1 before i in
     cs_th after.1 = cs_th before.1 /\
     cs_failureThreshold after.1 = cs_failureThreshold c /\ cs_successThreshold after.1 = cs_successThreshold c /\
     may_move (cs_th c) (cs_failureCount c) (cs_successCount c) (ckind <$> us) (ckind u) (cs_state before.1) (cs_state after.1)) /\
  (forall c us l i u, 0 <= nc_failureCount c -> 0 <= nc_successCount c -> th_ok (nc_th c) -> us !! i = Some u ->
     let before := foldl sched1 (c, nprog <$> us) l in let after := sched1 before i in
     (nkind u <> KTrip -> nc_openDurationNs after.1 = nc_openDurationNs before.1) /\
     nc_failureThreshold after.1 = nc_failureThreshold c /\ nc_successThreshold after.1 = nc_successThreshold c /\
     may_move (nc_th c) (nc_failureCount c) (nc_successCount c) (nkind <$> us) (nkind u) (nc_state before.1) (nc_state after.1)).
Proof.
  split; intros c us l i u Hf Hs [Hthf Hths] Hu before after.
  - destruct (interleaved_moves cprog ckind cs_state cs_failureCount cs_successCount cs_failureThreshold cs_successThreshold cs_move
      cprog_acts cprog_fail_tame cprog_succ_tame cs_move_refl) with (c := c) (us := us) (l := l) (i := i) (u := u)
      as ((Hth & Hedge) & H1 & H2 & Hmay); try done.
    + intros k x y [Hth _]. by injection Hth.
    + split; [done|]. split; [done|]. split; [done|]. by apply Hmay.
  - destruct (interleaved_moves nprog nkind nc_state nc_failureCount nc_successCount nc_failureThreshold nc_successThreshold nc_move
      nprog_acts nprog_fail_tame nprog_succ_tame nc_move_refl) with (c := c) (us := us) (l := l) (i := i) (u := u)
      as ((Hth1 & Hth2 & Hdur & Hedge) & H1 & H2 & Hmay); try done.
    + intros k x y (? & ? & _). done.
    + split; [done|]. split; [done|]. split; [done|]. by apply Hmay.
Qed.

(** A gate that moves an open circuit whose time is over, and two failures
    that open a named circuit with a threshold of two. *)
Lemma breaker_edges_witness :
  (let c := mkCircuit CBStateOpen 0 0 5 1 1 10 in
   let before := foldl sched1 (c, cprog <$> [CGate (-1) 3 100]) [0; 0]%nat in
   cs_state (sched1 before 0).1 = CBStateHalfOpen /\ edge KCheck (cs_state before.1) (cs_state (sched1 before 0).1)) /\
  (let c := NewNamedCircuit "a" 2 1 1000 in
   let us := [URecord false 7; UReset; URecord false 9] in
   let before := foldl sched1 (c, nprog <$> us) [0; 2; 2; 0]%nat in
   nc_state (sched1 before 0).1 = CBStateOpen /\ 2 <= 0 + records false (nkind <$> us)).
Proof.
  split; intros c; [|intros us]; intros before.
  - split; [vm_compute; reflexivity|].
    destruct (proj1 breaker_edges c [CGate (-1) 3 100] [0; 0]%nat 0%nat (CGate (-1) 3 100)) as (_ & _ & _ & H & _);
      [vm_compute; congruence|vm_compute; congruence|split; vm_compute; reflexivity|reflexivity|exact H].
  - split; [vm_compute; reflexivity|].
    destruct (proj2 breaker_edges c us [0; 2; 2; 0]%nat 0%nat (URecord false 7)) as (_ & _ & _ & _ & H & _);
      [vm_compute; congruence|vm_compute; congruence|split; vm_compute; reflexivity|reflexivity|].
    apply H; vm_compute; reflexivity.
Defined.

(** the trip time is stored after the state.  With a threshold of one
    failure and an open duration of ten seconds, one goroutine records a
    failure and swaps the state to Open; before it stores the trip time,
    another one checks the gate, sees the previous trip time, and moves the
    circuit to HalfOpen at once.  When both are done, the request has been
    admitted in the very nanosecond of the trip. *)
Theorem trip_time_race :
  let now := 1700000000000000000 in
  let c := mkCircuit CBStateClosed 0 0 0 1 1 (10000 * time_Millisecond) in
  let rec := pmap (fun pc => (pc, None)) (RecordCircuitOutcomeStep false 7 now) in
  let gate := CircuitBreakerGateStep (-1) 3 now in
  exists c', rtc pstep (c, [rec; gate]) (c', [Return (8, None); Return (4, None)]) /\
             cs_state c' = CBStateHalfOpen /\ cs_lastTripNs c' = now.
Proof.
  cbv zeta. eexists. split; [|split].
  - etransitivity; [apply (sched_steps _ [0; 0; 0; 1; 1; 1; 1; 0; 0]%nat)|].
    vm_compute. apply rtc_refl.
  - vm_compute. reflexivity.
  - vm_compute. reflexivity.
Qed.

(** [TripNamedCircuit] can return with the circuit not open.  It loads
    Open; a goroutine whose open window is over moves the circuit to HalfOpen;
    the swap of the trip then fails, but because the loaded state was Open the
    loop stops. *)
Theorem trip_lost_race :
  let now := 1700000000000000000 in
  let c := mkNamed CBStateOpen 0 0 5 1000 "a" 5 2 in
  exists c', rtc pstep (c, [pmap negb (IsOpen now); Trip 3 0 now])
                       (c', [Return true; Return true]) /\
             nc_state c' = CBStateHalfOpen.
Proof.
  cbv zeta. eexists. split.
  - etransitivity; [apply (sched_steps _ [0; 0; 0; 1; 1; 1; 1; 0; 1]%nat)|].
    vm_compute. apply rtc_refl.
  - vm_compute. reflexivity.
Qed.
