(* ===== verification/Admission.v ===== *)
(** * Admission control: spike arrest, concurrency gate, egress limits

    [internal/engine/spike_arrest.go], [concurrency.go] and
    [egress_limiter.go]. *)

From S2P Require Import Prelude Atomic Interleave.
From Stdlib Require Import Floats.SpecFloat.
From stdpp Require Import base numbers list gmap.

Local Open Scope Z_scope.
Local Open Scope rah_scope.

(** ** spike_arrest.go *)

Module Spike.

Record spikeArrestKey : Type := mkKey { flowID : Z; tenantID : Z; keyHash : Z }.

#[export] Instance key_eq_dec : EqDecision spikeArrestKey.
Proof. solve_decision. Defined.

#[export] Instance key_countable : Countable spikeArrestKey.
Proof.
  apply (inj_countable' (fun k => (flowID k, tenantID k, keyHash k))
           (fun x => mkKey x.1.1 x.1.2 x.2)). by intros [].
Defined.

(** The store: the time of the last admitted request of every key. *)
Abbreviation SpikeArrestStore := (gmap spikeArrestKey Z).

(** One iteration of the loop of [Allow]. *)
Definition allow_body (now intervalNs : Z) : body bool := fun last =>
  if i64 (now - last) <? intervalNs then Finish false else Swap now true.

Definition SpikeAllow (store : SpikeArrestStore) (key : spikeArrestKey) (intervalNs now : Z)
  : SpikeArrestStore * bool :=
  let last := default 0 (store !! key) in
  let '(v, r) := atomically (allow_body now intervalNs) last in (<[key:=v]> store, r).

Definition fnv64a (b : byte_string) : Z :=
  foldl (fun h c => u64 (Z.lxor h c * 1099511628211)) 14695981039346656037 b.

(** The step: the tenant and the byte slots of the request; the next PC and
    the status it sets. *)
Definition SpikeArrestStep (store : SpikeArrestStore) (flowID intervalNs keySlot : Z)
    (tenant : Z) (byteSlots : list byte_string) (pc now : Z)
  : outcome (SpikeArrestStore * (Z * option Z)) :=
  h <-- (if (0 <=? keySlot) && (keySlot <? Z.of_nat (length byteSlots))
         then obind (go_index byteSlots keySlot) (fun b => Ret (fnv64a b)) else Ret 0) ;;
  let '(store', ok) := SpikeAllow store (mkKey flowID tenant h) intervalNs now in
  Ret (store', if ok then (i16 (pc + 1), None) else (StopPlan, Some 429)).

End Spike.

(** ** concurrency.go: the latency histogram *)

Module Latency.

Definition nBuckets : Z := 29.

Record latencyHist : Type := mkHist { buckets : list Z; count : Z }.

Definition bucketFor (ms : Z) : Z :=
  if ms <? 0 then 0
  else if ms <? 10 then ms
  else if ms <? 100 then 10 + (ms - 10) ÷ 10
  else if ms <? 1000 then 19 + (ms - 100) ÷ 100
  else 28.

Definition bucketUpperMs (i : Z) : Z :=
  if i <? 10 then i + 1
  else if i <? 19 then 10 + (i - 10 + 1) * 10
  else if i <? 28 then 100 + (i - 19 + 1) * 100
  else 9999.

Definition record (h : latencyHist) (ms : Z) : outcome latencyHist :=
  let c := i64 (count h + 1) in
  b <-- go_index (buckets h) (bucketFor ms) ;;
  Ret (mkHist (<[Z.to_nat (bucketFor ms):=i64 (b + 1)]> (buckets h)) c).

(** The scan of [p99Ms] over the buckets from index [i] on. *)
Fixpoint p99_scan (bs : list Z) (i cumulative threshold : Z) : Z :=
  match bs with
  | [] => 9999
  | b :: bs' =>
    let cumulative := i64 (cumulative + b) in
    if threshold <=? cumulative then bucketUpperMs i
    else p99_scan bs' (i + 1) cumulative threshold
  end.

Definition p99Ms (h : latencyHist) : Z :=
  let total := count h in
  if total =? 0 then 0
  else p99_scan (buckets h) 0 0 (total - total ÷ 100).

Definition reset (h : latencyHist) : latencyHist := mkHist ((fun _ => 0) <$> buckets h) 0.

Definition hist_zero : latencyHist := mkHist (replicate 29 0) 0.

Record LatencyRing : Type := mkRing { gens : list latencyHist; current : Z }.

Definition ring_zero : LatencyRing := mkRing [hist_zero; hist_zero] 0.

Definition Record_ (r : LatencyRing) (ms : Z) : outcome LatencyRing :=
  h <-- go_index (gens r) (current r) ;;
  h' <-- record h ms ;;
  Ret (mkRing (<[Z.to_nat (current r):=h']> (gens r)) (current r)).

(** [Rotate]: the new ring, and the frozen generation. *)
Definition Rotate (r : LatencyRing) : outcome (LatencyRing * latencyHist) :=
  let prev := current r in
  let next := u32 (1 - prev) in
  h <-- go_index (gens r) next ;;
  let gens' := <[Z.to_nat next:=reset h]> (gens r) in
  frozen <-- go_index gens' prev ;;
  Ret (mkRing gens' next, frozen).

End Latency.

(** ** concurrency.go: the semaphore *)

Module Gate.

Record ConcurrencyLimiter : Type := mkLimiter { active : Z; limit : Z; rejected : Z }.

(** A request in the gate: where it stands between two atomic operations. *)
Inductive lstate : Type :=
| LStart                 (* about to load [active] *)
| LGotActive (cur : Z)   (* about to load [limit] *)
| LRejecting             (* about to count the rejection *)
| LSwap (cur : Z)        (* about to swap [active] *)
| LHeld                  (* [TryAcquire] returned true *)
| LRefused               (* [TryAcquire] returned false *)
| LReleased.             (* [Release] returned *)

(** The next atomic operation of [TryAcquire]. *)
Definition acquire_step (st : lstate) (l : ConcurrencyLimiter) : option (ConcurrencyLimiter * lstate) :=
  match st with
  | LStart => Some (l, LGotActive (active l))
  | LGotActive cur => Some (l, if limit l <=? cur then LRejecting else LSwap cur)
  | LRejecting => Some (mkLimiter (active l) (limit l) (i64 (rejected l + 1)), LRefused)
  | LSwap cur =>
    Some (if active l =? cur then (mkLimiter (i64 (cur + 1)) (limit l) (rejected l), LHeld)
          else (l, LStart))
  | _ => None
  end.

Definition Release (l : ConcurrencyLimiter) : ConcurrencyLimiter :=
  mkLimiter (i64 (active l - 1)) (limit l) (rejected l).

Definition SetLimit (l : ConcurrencyLimiter) (n : Z) : ConcurrencyLimiter :=
  mkLimiter (active l) n (rejected l).

(** [TryAcquire] running alone. *)
Fixpoint try_acquire (fuel : nat) (st : lstate) (l : ConcurrencyLimiter)
  : outcome (ConcurrencyLimiter * bool) :=
  match st with
  | LHeld => Ret (l, true)
  | LRefused => Ret (l, false)
  | _ =>
    match fuel, acquire_step st l with
    | S fuel', Some (l', st') => try_acquire fuel' st' l'
    | _, _ => Fuel
    end
  end.

Definition TryAcquire (l : ConcurrencyLimiter) : outcome (ConcurrencyLimiter * bool) :=
  try_acquire 3 LStart l.

End Gate.

(** ** concurrency.go: the adaptive controller *)

Module Controller.
Import Latency Gate.

(** Binary64 arithmetic, as specified by IEEE 754. *)
Abbreviation float := spec_float.
Definition fmul (x y : float) : float := SFmul 53 1024 x y.
Definition fdiv (x y : float) : float := SFdiv 53 1024 x y.
Definition of_int (n : Z) : float := binary_normalize 53 1024 n 0 false.

(** A decimal literal: the nearest binary64 number. *)
Definition dec (num den : Z) : float := fdiv (of_int num) (of_int den).

Definition fgtb (x y : float) : bool := SFltb y x.

(** [int64(f)]: truncation toward zero; out of range the result is the
    smallest integer, as on amd64. *)
Definition to_int (f : float) : Z :=
  match f with
  | S754_zero _ => 0
  | S754_finite s m e =>
    let z := cond_Zopp s (if 0 <=? e then Z.shiftl (Zpos m) e else Z.shiftr (Zpos m) (- e)) in
    if (- 2 ^ 63 <=? z) && (z <? 2 ^ 63) then z else - 2 ^ 63
  | _ => - 2 ^ 63
  end.

Record ConcurrencyConfig : Type := mkCfg {
  Enabled : bool;
  Disabled : bool;
  TargetOverheadMs : Z;
  InitialLimit : Z;
  MinLimit : Z;
  MaxLimit : Z;
  AddStep : Z;
  CutFactor : float;
  TickSec : Z;
  MinSamples : Z;
  CooldownTicks : Z
}.

(** The part of the flow manager the gate uses, and the controller's own
    cooldown counter; [controller] says whether its goroutine was started. *)
Record Manager : Type := mkManager {
  Limiter : ConcurrencyLimiter;
  limiterEnabled : bool;
  liveConfig : ConcurrencyConfig;
  ring : LatencyRing;
  cooldown : Z;
  controller : bool
}.

Definition or_default (x d : Z) : Z := if x <=? 0 then d else x.

Definition fill_defaults (procs : Z) (cfg : ConcurrencyConfig) : ConcurrencyConfig :=
  mkCfg (Enabled cfg) (Disabled cfg) (or_default (TargetOverheadMs cfg) 50)
    (or_default (InitialLimit cfg) (i64 (procs * 1000)))
    (or_default (MinLimit cfg) (i64 (procs * 500)))
    (or_default (MaxLimit cfg) (i64 (procs * 4000)))
    (or_default (AddStep cfg) 50)
    (if SFleb (CutFactor cfg) (S754_zero false) then dec 85 100 else CutFactor cfg)
    (or_default (TickSec cfg) 2) (or_default (MinSamples cfg) 50) (or_default (CooldownTicks cfg) 3).

Definition StartController (procs : Z) (fm : Manager) (cfg : ConcurrencyConfig) : Manager :=
  if negb (Enabled cfg) then
    mkManager (Limiter fm) false cfg (ring fm) (cooldown fm) (controller fm)
  else
    let cfg := fill_defaults procs cfg in
    mkManager (SetLimit (Limiter fm) (InitialLimit cfg)) true cfg (ring fm) 0 true.

(** What the controller does on one tick of its ticker. *)
Definition tick (fm : Manager) : outcome Manager :=
  let cfg := liveConfig fm in
  rf <-- Rotate (ring fm) ;;
  let '(ring', frozen) := rf in
  if negb (limiterEnabled fm) then
    Ret (mkManager (Limiter fm) (limiterEnabled fm) cfg ring' 0 (controller fm))
  else if Disabled cfg then
    Ret (mkManager (Limiter fm) (limiterEnabled fm) cfg ring' (cooldown fm) (controller fm))
  else
    let cooldown := if 0 <? cooldown fm then cooldown fm - 1 else cooldown fm in
    let l := Limiter fm in
    let keep := mkManager l (limiterEnabled fm) cfg ring' cooldown (controller fm) in
    if count frozen <? MinSamples cfg then Ret keep
    else
      let p99 := p99Ms frozen in
      let cur := limit l in
      let act := active l in
      let utilization := fdiv (of_int act) (of_int cur) in
      if (TargetOverheadMs cfg <? p99) && fgtb utilization (dec 6 10) && (cooldown =? 0) then
        let next := to_int (fmul (of_int cur) (CutFactor cfg)) in
        let next := if next <? MinLimit cfg then MinLimit cfg else next in
        let next := if next <? act then act else next in
        Ret (mkManager (SetLimit l next) (limiterEnabled fm) cfg ring' (CooldownTicks cfg) (controller fm))
      else if (p99 <=? TargetOverheadMs cfg) && fgtb utilization (dec 8 10) then
        let next := i64 (cur + AddStep cfg) in
        let next := if MaxLimit cfg <? next then MaxLimit cfg else next in
        Ret (mkManager (SetLimit l next) (limiterEnabled fm) cfg ring' cooldown (controller fm))
      else Ret keep.

(** The decoded body of a PATCH request; absent fields are [None]. *)
Record Patch : Type := mkPatch {
  pEnabled : option bool;
  pDisabled : option bool;
  pLimit : option Z;
  pTargetOverheadMs : option Z;
  pMinLimit : option Z;
  pMaxLimit : option Z;
  pAddStep : option Z;
  pCutFactor : option float
}.

Inductive Request : Type :=
| PatchRequest (body : option Patch)   (* [None]: the JSON does not decode *)
| PostRequest (limit : option Z)       (* [None]: the query does not parse *)
| OtherRequest.

(** [ConcurrencyHandler]: the new state and the status. *)
Definition ConcurrencyHandler (fm : Manager) (r : Request) : Manager * Z :=
  match r with
  | PatchRequest None => (fm, 400)
  | PatchRequest (Some p) =>
    let c := liveConfig fm in
    let cur := mkCfg (default (Enabled c) (pEnabled p)) (default (Disabled c) (pDisabled p))
                 (default (TargetOverheadMs c) (pTargetOverheadMs p)) (InitialLimit c)
                 (default (MinLimit c) (pMinLimit p)) (default (MaxLimit c) (pMaxLimit p))
                 (default (AddStep c) (pAddStep p)) (default (CutFactor c) (pCutFactor p))
                 (TickSec c) (MinSamples c) (CooldownTicks c) in
    let l := match pLimit p with
             | Some n => if 0 <? n then SetLimit (Limiter fm) n else Limiter fm
             | None => Limiter fm
             end in
    (mkManager l (Enabled cur) cur (ring fm) (cooldown fm) (controller fm), 200)
  | PostRequest None => (fm, 400)
  | PostRequest (Some n) =>
    if n <=? 0 then (fm, 400)
    else (mkManager (SetLimit (Limiter fm) n) (limiterEnabled fm) (liveConfig fm) (ring fm)
            (cooldown fm) (controller fm), 200)
  | OtherRequest => (fm, 200)
  end.

(** The gate in the request path (cmd/rah-gateway/main.go): [true] lets the
    request in. *)
Definition gate (fm : Manager) : outcome (Manager * bool) :=
  if limiterEnabled fm then
    lr <-- TryAcquire (Limiter fm) ;;
    Ret (mkManager lr.1 (limiterEnabled fm) (liveConfig fm) (ring fm) (cooldown fm) (controller fm), lr.2)
  else Ret (fm, true).

End Controller.

(** ** egress_limiter.go *)

Module Egress.

(** A broadcast channel is named by a number; [closed] lists the channels that
    have been closed, and closing one twice panics. *)
Record egressBucket : Type := mkBucket {
  epoch : Z;
  count : Z;
  chan_gate : option nat;
  next_chan : nat;
  closed : list nat
}.

Definition new_bucket : egressBucket := mkBucket 0 0 None 0 [].

Definition set_epoch (e : Z) (b : egressBucket) : egressBucket :=
  mkBucket e (count b) (chan_gate b) (next_chan b) (closed b).
Definition set_count (n : Z) (b : egressBucket) : egressBucket :=
  mkBucket (epoch b) n (chan_gate b) (next_chan b) (closed b).
Definition set_gate (g : option nat) (b : egressBucket) : egressBucket :=
  mkBucket (epoch b) (count b) g (next_chan b) (closed b).

(** The counting part of [countForEpoch], as a program of its atomic
    operations: the claimed number, and whether this goroutine reset the
    window (and then wakes the waiters). *)
Definition claim (e : Z) : prog egressBucket (Z * bool) :=
  Get (fun b => let cur := epoch b in
    if cur =? e then AddGet (fun b => set_count (i64 (count b + 1)) b) count (fun n => Return (n, false))
    else
      Cas (fun b => epoch b =? cur) (set_epoch e) (fun ok =>
        if ok then Put (set_count 1) (Return (1, true))
        else AddGet (fun b => set_count (i64 (count b + 1)) b) count (fun n => Return (n, false)))).

(** [close(ch)]. *)
Definition close (ch : nat) (b : egressBucket) : outcome egressBucket :=
  if decide (ch ∈ closed b) then Panic
  else Ret (mkBucket (epoch b) (count b) (chan_gate b) (next_chan b) (ch :: closed b)).

(** Taking the channel out of the gate and closing it. *)
Definition wake (b : egressBucket) : outcome egressBucket :=
  match chan_gate b with
  | None => Ret b
  | Some ch => close ch (set_gate None b)
  end.

Definition countForEpoch (b : egressBucket) (e : Z) : outcome (egressBucket * Z) :=
  let '(b', (n, resetter)) := run (claim e) b in
  b'' <-- (if resetter then wake b' else Ret b') ;;
  Ret (b'', n).

(** [waitChannel]: the channel, and the delay of the timer it schedules when it
    creates the channel. *)
Definition waitChannel (b : egressBucket) (e windowNs now : Z) : egressBucket * (nat * option Z) :=
  match chan_gate b with
  | Some ch => (b, (ch, None))
  | None =>
    let ch := next_chan b in
    let next := i64 (i64 (i64 (e + 1) * windowNs) - now) in
    let next := if next <=? 0 then 1 else next in
    (mkBucket (epoch b) (count b) (Some ch) (S ch) (closed b), (ch, Some next))
  end.

(** The timer of channel [ch] fires. *)
Definition timer_fires (b : egressBucket) (ch : nat) : outcome egressBucket :=
  match chan_gate b with
  | Some g => if decide (g = ch) then close ch (set_gate None b) else Ret b
  | None => Ret b
  end.

(** [acquire] with in-memory counters, on the bucket of the resource:
    [None] is granted, [Some ch] the channel to wait on. *)
Definition acquire_bucket (b : egressBucket) (limit windowNs now : Z)
  : outcome (egressBucket * option nat) :=
  let e := now ÷ windowNs in
  bn <-- countForEpoch b e ;;
  if bn.2 <=? limit then Ret (bn.1, None)
  else let '(b', (ch, _)) := waitChannel bn.1 e windowNs now in Ret (b', Some ch).

Abbreviation EgressLimiterStore := (gmap string egressBucket).

Definition acquire (s : EgressLimiterStore) (resource : string) (limit windowNs now : Z)
  : outcome (EgressLimiterStore * option nat) :=
  let b := default new_bucket (s !! resource) in
  br <-- acquire_bucket b limit windowNs now ;;
  Ret (<[resource:=br.1]> s, br.2).

Inductive EgressBehavior : Type := EgressFail | EgressWait | EgressFallback.

(** How the blocking [select] of one round ends. *)
Inductive wakeup : Type := Woken | TimedOut | Disconnected.

(** What one round of the loop observes: the clock at [acquire], the clock at
    [time.Until], the cancellation flag, whether the request's context is
    already done (false for flows without a request), and how the wait ends. *)
Record round : Type := mkRound {
  r_now : Z;
  r_until : Z;
  r_cancelled : bool;
  r_done : bool;
  r_wake : wakeup
}.

(** The outcome of the step: the next PC, the status it sets, and whether it
    marks the request cancelled. *)
Record verdict : Type := mkVerdict { v_pc : Z; v_status : option Z; v_cancel : bool }.

Fixpoint egress_loop (rounds : list round) (s : EgressLimiterStore) (resource : string)
    (limit windowNs maxWaitNs : Z) (behavior : EgressBehavior) (fallbackPC failStatus pc : Z)
    (deadline : option Z) : outcome (EgressLimiterStore * verdict) :=
  match rounds with
  | [] => Fuel
  | r :: rounds' =>
    sa <-- acquire s resource limit windowNs (r_now r) ;;
    let s' := sa.1 in
    match sa.2 with
    | None => Ret (s', mkVerdict (i16 (pc + 1)) None false)
    | Some _ =>
      match behavior with
      | EgressFail => Ret (s', mkVerdict StopPlan (Some failStatus) false)
      | EgressFallback =>
        if 0 <=? fallbackPC then Ret (s', mkVerdict fallbackPC None false)
        else Ret (s', mkVerdict StopPlan (Some 503) false)
      | EgressWait =>
        let d := default (r_until r + maxWaitNs) deadline in
        if d - r_until r <=? 0 then Ret (s', mkVerdict StopPlan (Some 503) false)
        else if r_cancelled r then Ret (s', mkVerdict StopCancelled None false)
        else if r_done r then Ret (s', mkVerdict StopCancelled None true)
        else
          match r_wake r with
          | Woken => egress_loop rounds' s' resource limit windowNs maxWaitNs behavior
                       fallbackPC failStatus pc (Some d)
          | TimedOut => Ret (s', mkVerdict StopPlan (Some 503) false)
          | Disconnected => Ret (s', mkVerdict StopCancelled None true)
          end
      end
    end
  end.

Definition EgressRateLimitStep (rounds : list round) (s : EgressLimiterStore) (resource : string)
    (limit windowNs maxWaitNs : Z) (behavior : EgressBehavior) (fallbackPC failStatus pc : Z)
  : outcome (EgressLimiterStore * verdict) :=
  egress_loop rounds s resource limit windowNs maxWaitNs behavior fallbackPC failStatus pc None.

End Egress.
