(* ===== verification/AdmissionSpec.v ===== *)
(** * Admission control: theorems

    Spike arrest and the concurrency gate under every interleaving of their
    atomic operations, the percentile the latency ring reports, the bounds the
    adaptive controller keeps, and the egress limiter's windows and wake-ups. *)

From S2P Require Import Prelude Atomic Interleave Admission.
From Stdlib Require Import Floats.SpecFloat.
From stdpp Require Import base numbers list gmap relations sorting.

Local Open Scope Z_scope.

(** ** Spike arrest *)

Module SpikeSpec.
Import Spike.

(** The body of a goroutine, answering also with its own clock reading. *)
Definition tagged (interval now : Z) : body (Z * bool) := fun last =>
  match allow_body now interval last with
  | Finish r => Finish (now, r)
  | Swap new r => Swap new (now, r)
  end.

(** The clock readings of the admitted requests, in the order of admission. *)
Definition admitted (log : list (body (Z * bool) * (Z * bool))) : list Z :=
  omap (fun e : body (Z * bool) * (Z * bool) => if e.2.2 then Some e.2.1 else None) log.

Definition spaced (interval : Z) : list Z -> Prop := StronglySorted (fun a b : Z => a + interval <= b).

Lemma spike_admitted_snoc log b r :
  admitted (log ++ [(b, r)]) = admitted log ++ (if r.2 then [r.1] else []).
Proof. unfold admitted. rewrite omap_app. simpl. by destruct r as [t []]. Qed.

Lemma spaced_snoc interval l x :
  spaced interval l -> Forall (fun a => a + interval <= x) l -> spaced interval (l ++ [x]).
Proof.
  intros Hs Hf. apply StronglySorted_app. split; [|split; [done|repeat constructor]].
  intros a b Ha Hb%list_elem_of_singleton. subst. by eapply Forall_forall in Hf.
Qed.

(** Along a sequential run the word holds the last admission time, and every
    admission is at least an interval after all earlier ones. *)
Lemma spike_runs interval last log w :
  0 < interval -> 0 <= last < 2 ^ 63 ->
  Forall (fun e => exists now, e.1 = tagged interval now /\ 0 <= now < 2 ^ 63) log ->
  runs last log w ->
  spaced interval (admitted log) /\ Forall (fun a => last + interval <= a <= w) (admitted log) /\
  last <= w < 2 ^ 63.
Proof.
  intros Hi Hl Hlog Hruns. induction Hruns as [|last log w b w' r Hruns IH Hat].
  { split; [constructor|]. split; [constructor|lia]. }
  apply Forall_app in Hlog as [Hlog He]. inversion He as [|? ? (now & Hb & Hnow) _]; subst.
  cbn [fst] in Hb. subst b. destruct (IH Hl Hlog) as (Hs & Hf & Hw).
  rewrite spike_admitted_snoc. unfold atomically, tagged, allow_body in Hat.
  rewrite wraps_small in Hat by lia.
  destruct (Z.ltb_spec (now - w) interval); simplify_eq; cbn [fst snd].
  - rewrite app_nil_r. auto.
  - assert (Forall (fun a => a + interval <= w') (admitted log)) as Hgap.
    { eapply Forall_impl; [exact Hf|]. intros a Ha. cbn in Ha. lia. }
    split; [by apply spaced_snoc|]. split; [|lia]. apply Forall_app. split.
    + eapply Forall_impl; [exact Hf|]. intros a Ha. cbn in Ha |- *. lia.
    + repeat constructor; lia.
Qed.

(** C38: however the loads and swaps of any number of goroutines interleave,
    and however old their clock readings are when they reach the word, any two
    admitted requests of a key are at least one interval apart. *)
Theorem spike_arrest_spacing interval last nows c :
  0 < interval -> 0 <= last < 2 ^ 63 -> Forall (fun now => 0 <= now < 2 ^ 63) nows ->
  rtc cas_step (start last (tagged interval <$> nows)) c ->
  spaced interval (admitted (cf_log c)) /\
  Forall (fun a => last + interval <= a) (admitted (cf_log c)).
Proof.
  intros Hi Hl Hnows Hr.
  destruct (cas_log_inv _ _ _ Hr) as (_ & _ & Hlog).
  destruct (spike_runs interval last (cf_log c) (cf_slot c)) as (H1 & H2 & _);
    [done|done| |by eapply cas_linearizable|].
  - eapply Forall_impl; [exact Hlog|]. intros e (now & He & Hin)%list_elem_of_fmap.
    exists now. split; [done|]. by eapply Forall_forall in Hnows.
  - split; [done|]. eapply Forall_impl; [exact H2|]. intros a Ha. cbn in Ha |- *. lia.
Qed.

Lemma spike_arrest_spacing_witness :
  exists c, rtc cas_step (start 0 (tagged 5 <$> [10; 12])) c /\ admitted (cf_log c) = [10] /\
    spaced 5 (admitted (cf_log c)).
Proof.
  assert (exists c, rtc cas_step (start 0 (tagged 5 <$> [10; 12])) c /\ admitted (cf_log c) = [10])
    as (c & Hc & Ha).
  { eexists. split.
    - eapply rtc_l; [eapply (step_load _ _ _ 0); reflexivity|].
      eapply rtc_l; [eapply (step_load _ _ _ 1); reflexivity|].
      eapply rtc_l; [eapply (step_cas_ok _ _ _ 0); reflexivity|].
      eapply rtc_l; [eapply (step_cas_fail _ _ _ 1); [reflexivity|vm_compute; discriminate]|].
      eapply rtc_l; [eapply (step_load_finish _ _ _ 1); reflexivity|].
      apply rtc_refl.
    - reflexivity. }
  exists c. split; [exact Hc|]. split; [exact Ha|].
  apply (spike_arrest_spacing 5 0 [10; 12] c); [lia|lia|repeat constructor; lia|exact Hc].
Defined.

End SpikeSpec.

(** ** The concurrency gate *)

Module GateSpec.
Import Gate.

Abbreviation conf := (ConcurrencyLimiter * list lstate)%type.

(** Requests pass through the gate, one atomic operation at a time; the
    controller and the admin endpoint change the limit at any moment, to
    values up to [M]. *)
Inductive gate_step (M : Z) : conf -> conf -> Prop :=
| step_acquire l ths i st l' st' :
    ths !! i = Some st -> acquire_step st l = Some (l', st') ->
    gate_step M (l, ths) (l', <[i:=st']> ths)
| step_release l ths i :
    ths !! i = Some LHeld -> gate_step M (l, ths) (Release l, <[i:=LReleased]> ths)
| step_limit l ths n :
    n <= M -> gate_step M (l, ths) (SetLimit l n, ths).

Definition held (st : lstate) : nat := match st with LHeld => 1 | _ => 0 end.
Definition refused (st : lstate) : nat := match st with LRefused => 1 | _ => 0 end.

Lemma sum_insert {A} (f : A -> nat) (l : list A) i x y :
  l !! i = Some x ->
  (sum_list_with f (<[i:=y]> l) + f x = sum_list_with f l + f y)%nat.
Proof.
  revert i. induction l as [|z l IH]; intros [|i] H; simpl in *; simplify_eq; [lia|].
  specialize (IH i H). lia.
Qed.

Lemma sum_le {A} (f : A -> nat) (l : list A) :
  (forall x, f x <= 1)%nat -> (sum_list_with f l <= length l)%nat.
Proof. intros Hf. induction l as [|x l IH]; simpl; [lia|]. specialize (Hf x). lia. Qed.

(** What holds between any two atomic operations. *)
Definition gate_inv (M r0 : Z) (n : nat) (c : conf) : Prop :=
  length c.2 = n /\ active c.1 = Z.of_nat (sum_list_with held c.2) /\
  rejected c.1 = r0 + Z.of_nat (sum_list_with refused c.2) /\
  active c.1 <= M /\ limit c.1 <= M /\ Forall (fun st => match st with LSwap cur => cur < M | _ => True end) c.2.

Lemma gate_inv_step M r0 n c c' :
  0 <= r0 -> r0 + Z.of_nat n < 2 ^ 63 -> gate_inv M r0 n c -> gate_step M c c' -> gate_inv M r0 n c'.
Proof.
  intros Hr0 Hn (Hlen & Ha & Hrej & HaM & HlM & Hsw) Hstep.
  destruct Hstep as [l ths i st l' st' Hi Hst|l ths i Hi|l ths k Hk]; cbn [fst snd] in *.
  - pose proof (sum_insert held _ _ _ st' Hi) as Hheld.
    pose proof (sum_insert refused _ _ _ st' Hi) as Href.
    pose proof (sum_le held ths ltac:(intros []; simpl; lia)) as Hhl.
    pose proof (sum_le refused ths ltac:(intros []; simpl; lia)) as Hrl.
    pose proof (sum_le refused (<[i:=st']> ths) ltac:(intros []; simpl; lia)) as Hrl'.
    pose proof (sum_le held (<[i:=st']> ths) ltac:(intros []; simpl; lia)) as Hhl'.
    rewrite length_insert in Hrl', Hhl'.
    pose proof (proj1 (Forall_lookup _ _) Hsw _ _ Hi) as Hcur.
    destruct st as [|cur| |cur| | |]; simplify_eq/=; unfold gate_inv; cbn [fst snd active limit rejected];
      rewrite length_insert.
    + repeat split; try lia. by apply Forall_insert.
    + destruct (Z.leb_spec (limit l') cur); simpl in *; repeat split; try lia;
        apply Forall_insert; try done; lia.
    + rewrite wraps_small by lia. repeat split; try lia. by apply Forall_insert.
    + destruct (Z.eqb_spec (active l) cur) as [<-|Hne]; simplify_eq/=.
      * rewrite wraps_small by lia. repeat split; try lia. by apply Forall_insert.
      * repeat split; try lia. by apply Forall_insert.
  - pose proof (sum_insert held _ _ _ LReleased Hi) as Hheld.
    pose proof (sum_insert refused _ _ _ LReleased Hi) as Href.
    pose proof (sum_le held ths ltac:(intros []; simpl; lia)) as Hhl. simpl in Hheld, Href.
    unfold gate_inv, Release. cbn [fst snd active limit rejected]. rewrite length_insert.
    rewrite wraps_small by lia. repeat split; try lia. by apply Forall_insert.
  - done.
Qed.

Lemma gate_inv_reachable M r0 n c c' :
  0 <= r0 -> r0 + Z.of_nat n < 2 ^ 63 -> gate_inv M r0 n c -> rtc (gate_step M) c c' -> gate_inv M r0 n c'.
Proof.
  intros Hr0 Hn Hinv Hr. induction Hr as [|c c1 c' Hstep _ IH]; [done|].
  apply IH. by eapply gate_inv_step.
Qed.

Lemma gate_inv_start M r0 lim n :
  0 <= M -> lim <= M -> gate_inv M r0 n (mkLimiter 0 lim r0, replicate n LStart).
Proof.
  intros HM Hl. unfold gate_inv. cbn [fst snd active limit rejected].
  rewrite length_replicate. replace (sum_list_with held (replicate n LStart)) with 0%nat
    by (induction n; simpl; congruence).
  replace (sum_list_with refused (replicate n LStart)) with 0%nat by (induction n; simpl; congruence).
  repeat split; try lia. by apply Forall_replicate.
Qed.

(** C20: whatever the interleaving of the atomic operations of [n] requests
    and of changes of the limit, [active] is exactly the number of requests
    holding the gate, never more than the largest limit ever in force, and
    [rejected] has grown by exactly the number of refused requests; when all
    have left, [active] is zero again. *)
Theorem concurrency_gate_safe M r0 lim n l ths :
  0 <= M -> lim <= M -> 0 <= r0 -> r0 + Z.of_nat n < 2 ^ 63 ->
  rtc (gate_step M) (mkLimiter 0 lim r0, replicate n LStart) (l, ths) ->
  active l = Z.of_nat (sum_list_with held ths) /\ active l <= M /\
  rejected l = r0 + Z.of_nat (sum_list_with refused ths) /\
  (Forall (fun st => st = LReleased \/ st = LRefused) ths -> active l = 0).
Proof.
  intros HM Hl Hr0 Hn Hr.
  destruct (gate_inv_reachable M r0 n _ _ Hr0 Hn (gate_inv_start M r0 lim n HM Hl) Hr)
    as (_ & Ha & Hrej & HaM & _). cbn [fst snd] in *.
  repeat split; try done. intros Hall. rewrite Ha.
  clear -Hall. induction Hall as [|st ths [-> | ->] _ IH]; simpl; lia.
Qed.

Lemma concurrency_gate_safe_witness :
  let c := (mkLimiter 2 2 1, [LHeld; LHeld; LRefused]) in
  rtc (gate_step 2) (mkLimiter 0 2 0, replicate 3 LStart) c /\ active c.1 = 2 /\ rejected c.1 = 1.
Proof.
  intros c.
  assert (rtc (gate_step 2) (mkLimiter 0 2 0, replicate 3 LStart) c) as Hr.
  { do 3 (eapply rtc_l; [eapply (step_acquire _ _ _ 0); reflexivity|]).
    do 3 (eapply rtc_l; [eapply (step_acquire _ _ _ 1); reflexivity|]).
    do 3 (eapply rtc_l; [eapply (step_acquire _ _ _ 2); reflexivity|]). apply rtc_refl. }
  split; [exact Hr|].
  destruct (concurrency_gate_safe 2 0 2 3 (mkLimiter 2 2 1) [LHeld; LHeld; LRefused])
    as (Ha & _ & Hrej & _); [lia|lia|lia|cbn; lia|exact Hr|].
  split; [exact Ha|exact Hrej].
Defined.

(** Alone, [TryAcquire] answers within three atomic operations. *)
Lemma TryAcquire_spec l :
  - 2 ^ 63 <= active l < 2 ^ 63 - 1 ->
  TryAcquire l =
  Ret (if active l <? limit l then (mkLimiter (active l + 1) (limit l) (rejected l), true)
       else (mkLimiter (active l) (limit l) (i64 (rejected l + 1)), false)).
Proof.
  intros Ha. unfold TryAcquire. cbn [try_acquire acquire_step].
  rewrite Z.ltb_antisym. destruct (limit l <=? active l); cbn [negb try_acquire acquire_step]; [done|].
  rewrite Z.eqb_refl. cbn [try_acquire]. rewrite wraps_small by lia. done.
Qed.

End GateSpec.

(** ** The latency ring *)

Module LatencySpec.
Import Latency.

(** How many samples satisfy a test. *)
Fixpoint countp (p : Z -> bool) (ss : list Z) : Z :=
  match ss with
  | [] => 0
  | s :: ss' => (if p s then 1 else 0) + countp p ss'
  end.

Lemma countp_bound p ss : 0 <= countp p ss <= Z.of_nat (length ss).
Proof. induction ss as [|s ss IH]; simpl; [lia|]. destruct (p s); lia. Qed.

Lemma countp_ext p q ss : (forall s, p s = q s) -> countp p ss = countp q ss.
Proof. intros H. induction ss as [|s ss IH]; simpl; [done|]. by rewrite H, IH. Qed.

Lemma countp_le p q ss : (forall s, p s = true -> q s = true) -> countp p ss <= countp q ss.
Proof.
  intros H. induction ss as [|s ss IH]; simpl; [lia|].
  destruct (p s) eqn:E; [rewrite (H s E); lia|]. destruct (q s); lia.
Qed.

Lemma countp_all p ss : (forall s, p s = true) -> countp p ss = Z.of_nat (length ss).
Proof. intros H. induction ss as [|s ss IH]; simpl; [done|]. rewrite H. lia. Qed.

Lemma countp_split p q r ss :
  (forall s, p s = q s || r s) -> (forall s, q s && r s = false) ->
  countp p ss = countp q ss + countp r ss.
Proof.
  intros Hor Hand. induction ss as [|s ss IH]; simpl; [done|].
  specialize (Hor s). specialize (Hand s). rewrite Hor, IH. destruct (q s), (r s); simpl in *; lia.
Qed.

Lemma countp_app p ss ss' : countp p (ss ++ ss') = countp p ss + countp p ss'.
Proof. induction ss as [|s ss IH]; simpl; [done|]. lia. Qed.

(** Buckets are ordered intervals with exact upper bounds up to 1000 ms. *)
Lemma bucketFor_range ms : 0 <= bucketFor ms <= 28.
Proof.
  unfold bucketFor. destruct (Z.ltb_spec ms 0); [lia|]. destruct (Z.ltb_spec ms 10); [lia|].
  destruct (Z.ltb_spec ms 100); [rewrite Z.quot_div_nonneg by lia; div_lia|].
  destruct (Z.ltb_spec ms 1000); [rewrite Z.quot_div_nonneg by lia; div_lia|lia].
Qed.

Lemma bucketUpper_sound ms :
  0 <= ms < 1000 -> ms < bucketUpperMs (bucketFor ms) <= 2 * ms + 1.
Proof.
  intros Hms. unfold bucketFor, bucketUpperMs. rewrite (proj2 (Z.ltb_ge ms 0)) by lia.
  destruct (Z.ltb_spec ms 10); [rewrite (proj2 (Z.ltb_lt ms 10)) by lia; lia|].
  destruct (Z.ltb_spec ms 100).
  - rewrite Z.quot_div_nonneg by lia.
    rewrite (proj2 (Z.ltb_ge _ 10)), (proj2 (Z.ltb_lt _ 19)) by div_lia. div_lia.
  - rewrite (proj2 (Z.ltb_lt ms 1000)), Z.quot_div_nonneg by lia.
    rewrite (proj2 (Z.ltb_ge _ 10)), (proj2 (Z.ltb_ge _ 19)), (proj2 (Z.ltb_lt _ 28)) by div_lia. div_lia.
Qed.

Lemma bucketUpper_mono i j : 0 <= i -> j <= 28 -> i < j -> bucketUpperMs i < bucketUpperMs j.
Proof.
  intros. unfold bucketUpperMs.
  destruct (Z.ltb_spec i 10), (Z.ltb_spec j 10), (Z.ltb_spec i 19), (Z.ltb_spec j 19),
    (Z.ltb_spec i 28), (Z.ltb_spec j 28); lia.
Qed.

Lemma bucketUpper_le_iff i j :
  0 <= i <= 28 -> 0 <= j <= 28 -> (bucketUpperMs i <=? bucketUpperMs j) = (i <=? j).
Proof.
  intros. destruct (Z.leb_spec i j).
  - apply Z.leb_le. destruct (Z.eq_dec i j) as [->|]; [lia|].
    pose proof (bucketUpper_mono i j). lia.
  - apply Z.leb_gt. apply bucketUpper_mono; lia.
Qed.

(** [h] is the histogram of the samples [ss]. *)
Definition hist_rel (h : latencyHist) (ss : list Z) : Prop :=
  length (buckets h) = 29%nat /\ count h = Z.of_nat (length ss) /\
  forall i b, buckets h !! i = Some b -> b = countp (fun s => bucketFor s =? Z.of_nat i) ss.

Lemma hist_record_spec h ss ms :
  hist_rel h ss -> Z.of_nat (length ss) + 1 < 2 ^ 63 ->
  exists h', record h ms = Ret h' /\ hist_rel h' (ss ++ [ms]).
Proof.
  intros (Hl & Hc & Hb) Hlen. unfold record. pose proof (bucketFor_range ms) as Hr.
  destruct (lookup_lt_is_Some_2 (buckets h) (Z.to_nat (bucketFor ms))) as [b E]; [lia|].
  assert (go_index (buckets h) (bucketFor ms) = Ret b) as ->.
  { rewrite <- (Z2Nat.id (bucketFor ms)) by lia. by apply go_index_nat. }
  cbn [obind]. eexists; split; [reflexivity|]. rewrite Hc.
  rewrite (wraps_small 64 (Z.of_nat (length ss) + 1)) by lia.
  split; [cbn [buckets]; by rewrite length_insert|]. split; [cbn [count]; rewrite length_app; simpl; lia|].
  cbn [buckets]. intros i x. rewrite list_lookup_insert, countp_app. cbn [countp].
  pose proof (Hb _ _ E) as Hb0. rewrite Z2Nat.id in Hb0 by lia.
  pose proof (countp_bound (fun s => bucketFor s =? bucketFor ms) ss) as Hcb.
  case_decide as Hd.
  - destruct Hd as [<- _]. intros [= <-]. rewrite Z2Nat.id, Z.eqb_refl by lia.
    rewrite Hb0. apply wraps_small; lia.
  - intros Hx. rewrite (Hb _ _ Hx). destruct (Z.eqb_spec (bucketFor ms) (Z.of_nat i)) as [Ei|]; [|by rewrite !Z.add_0_r].
    exfalso. apply Hd. split; [lia|]. lia.
Qed.

(** The samples below bucket [k]. *)
Definition below (k : Z) (ss : list Z) : Z := countp (fun s => bucketFor s <? k) ss.

Lemma below_succ k ss : below (k + 1) ss = below k ss + countp (fun s => bucketFor s =? k) ss.
Proof.
  apply countp_split; intros s.
  - destruct (Z.ltb_spec (bucketFor s) (k + 1)), (Z.ltb_spec (bucketFor s) k),
      (Z.eqb_spec (bucketFor s) k); simpl; lia || done.
  - destruct (Z.ltb_spec (bucketFor s) k), (Z.eqb_spec (bucketFor s) k); simpl; lia || done.
Qed.

Lemma p99_scan_spec ss threshold bs i :
  Z.of_nat (length ss) < 2 ^ 63 -> i + Z.of_nat (length bs) = 29 -> 0 <= i ->
  (forall k b, bs !! k = Some b -> b = countp (fun s => bucketFor s =? i + Z.of_nat k) ss) ->
  below i ss < threshold <= below 29 ss ->
  exists j, i <= j <= 28 /\ p99_scan bs i (below i ss) threshold = bucketUpperMs j /\
    below j ss < threshold <= below (j + 1) ss.
Proof.
  intros Hlen. revert i. induction bs as [|b bs IH]; intros i Hi H0 Hb Ht; cbn [length] in *.
  { replace i with 29 in Ht by lia. lia. }
  cbn [p99_scan]. pose proof (Hb 0%nat b eq_refl) as Hb0. rewrite Z.add_0_r in Hb0.
  assert (below i ss + b = below (i + 1) ss) as Hs by (rewrite below_succ, Hb0; done).
  pose proof (countp_bound (fun s => bucketFor s <? i + 1) ss) as Hbd.
  rewrite wraps_small, Hs by (unfold below in *; lia).
  destruct (Z.leb_spec threshold (below (i + 1) ss)).
  - exists i. split; [lia|]. split; [done|lia].
  - destruct (IH (i + 1)) as (j & Hj & Hscan & Hth); [lia|lia| |lia|].
    + intros k b' Hk. rewrite (Hb (S k) b' Hk). apply countp_ext. intros s. f_equal. lia.
    + exists j. split; [lia|]. done.
Qed.

(** The bucket [p99Ms] picks. *)
Lemma p99Ms_bucket h ss :
  hist_rel h ss -> ss <> [] -> Z.of_nat (length ss) < 2 ^ 63 ->
  let threshold := Z.of_nat (length ss) - Z.of_nat (length ss) / 100 in
  exists j, 0 <= j <= 28 /\ p99Ms h = bucketUpperMs j /\
    below j ss < threshold <= below (j + 1) ss.
Proof.
  intros (Hl & Hc & Hb) Hne Hlen threshold. unfold p99Ms. rewrite Hc.
  assert (0 < Z.of_nat (length ss)) by (destruct ss; [done|simpl; lia]).
  destruct (Z.eqb_spec (Z.of_nat (length ss)) 0); [lia|].
  rewrite Z.quot_div_nonneg by lia. fold threshold.
  assert (below 0 ss = 0) as H0.
  { unfold below. rewrite (countp_ext _ (fun _ => false)).
    - clear. induction ss as [|s ss IH]; simpl; [done|lia].
    - intros s. pose proof (bucketFor_range s). destruct (Z.ltb_spec (bucketFor s) 0); [lia|done]. }
  assert (below 29 ss = Z.of_nat (length ss)) as H29.
  { apply countp_all. intros s. apply Z.ltb_lt. pose proof (bucketFor_range s). lia. }
  pose proof (p99_scan_spec ss threshold (buckets h) 0 Hlen) as Hscan. rewrite H0 in Hscan.
  apply Hscan; [lia|lia|done|]. unfold threshold in *.
  assert (Z.of_nat (length ss) / 100 < Z.of_nat (length ss)) by (apply Z.div_lt; lia).
  assert (0 <= Z.of_nat (length ss) / 100) by (apply Z.div_pos; lia). lia.
Qed.

(** The ring: the current generation is the histogram of the samples since the
    last rotation. *)
Definition ring_rel (r : LatencyRing) (ss : list Z) : Prop :=
  exists h0 h1, gens r = [h0; h1] /\ length (buckets h0) = 29%nat /\ length (buckets h1) = 29%nat /\
    (current r = 0 /\ hist_rel h0 ss \/ current r = 1 /\ hist_rel h1 ss).

Lemma Record_rel r ss ms :
  ring_rel r ss -> Z.of_nat (length ss) + 1 < 2 ^ 63 ->
  exists r', Record_ r ms = Ret r' /\ ring_rel r' (ss ++ [ms]).
Proof.
  intros (h0 & h1 & Hg & H0 & H1 & Hcur) Hlen. unfold Record_. rewrite Hg.
  destruct Hcur as [[-> Hh]|[-> Hh]]; destruct (hist_record_spec _ _ ms Hh Hlen) as (h' & E & Hh');
    try change (go_index [h0; h1] 0) with (Ret h0); try change (go_index [h0; h1] 1) with (Ret h1);
    cbn [obind]; rewrite E; cbn [obind]; eexists; (split; [reflexivity|]).
  - exists h', h1. split; [done|]. split; [by destruct Hh'|]. split; [done|]. left. done.
  - exists h0, h'. split; [done|]. split; [done|]. split; [by destruct Hh'|]. right. done.
Qed.

Lemma hist_rel_reset h : length (buckets h) = 29%nat -> hist_rel (reset h) [].
Proof.
  intros Hl. unfold reset. split; [cbn; by rewrite length_fmap|]. split; [done|]. cbn [buckets].
  intros i b. rewrite list_lookup_fmap. destruct (buckets h !! i); simpl; [|done]. by intros [= <-].
Qed.

Lemma Rotate_rel r ss :
  ring_rel r ss ->
  exists r' h, Rotate r = Ret (r', h) /\ hist_rel h ss /\ ring_rel r' [].
Proof.
  intros (h0 & h1 & Hg & H0 & H1 & Hcur). unfold Rotate. rewrite Hg.
  destruct Hcur as [[-> Hh]|[-> Hh]].
  - exists (mkRing [h0; reset h1] 1), h0. split; [reflexivity|]. split; [done|].
    exists h0, (reset h1). split; [done|]. split; [done|].
    split; [cbn; by rewrite length_fmap|]. right. split; [done|by apply hist_rel_reset].
  - exists (mkRing [reset h0; h1] 0), h1. split; [reflexivity|]. split; [done|].
    exists (reset h0), h1. split; [done|]. split; [cbn; by rewrite length_fmap|].
    split; [done|]. left. split; [done|by apply hist_rel_reset].
Qed.

(** A history of the ring: [Some ms] records a sample, [None] rotates. *)
Fixpoint ring_run (r : LatencyRing) (ops : list (option Z)) : outcome LatencyRing :=
  match ops with
  | [] => Ret r
  | Some ms :: ops' => obind (Record_ r ms) (fun r' => ring_run r' ops')
  | None :: ops' => obind (Rotate r) (fun rh => ring_run rh.1 ops')
  end.

(** The samples recorded since the last rotation. *)
Definition since_rotation (ops : list (option Z)) (ss : list Z) : list Z :=
  foldl (fun ss o => match o with Some ms => ss ++ [ms] | None => [] end) ss ops.

Lemma ring_run_rel ops r ss :
  ring_rel r ss -> Z.of_nat (length ss) + Z.of_nat (length ops) < 2 ^ 63 ->
  exists r', ring_run r ops = Ret r' /\ ring_rel r' (since_rotation ops ss) /\
    Z.of_nat (length (since_rotation ops ss)) < 2 ^ 63.
Proof.
  revert r ss. induction ops as [|[ms|] ops IH]; intros r ss Hrel Hlen; cbn [ring_run length] in *.
  - exists r. split; [done|]. split; [done|]. cbn. lia.
  - destruct (Record_rel r ss ms Hrel) as (r' & -> & Hrel'); [lia|]. cbn [obind].
    apply IH; [done|]. rewrite length_app. simpl. lia.
  - destruct (Rotate_rel r ss Hrel) as (r' & h & -> & _ & Hrel'). cbn [obind fst].
    apply IH; [done|]. simpl. lia.
Qed.

Lemma ring_rel_zero : ring_rel ring_zero [].
Proof.
  exists hist_zero, hist_zero. split; [done|]. split; [done|]. split; [done|]. left.
  split; [done|]. split; [done|]. split; [done|]. intros i b [-> _]%lookup_replicate_1. done.
Qed.

(** The samples that reach or pass [q] milliseconds are not within [q]. *)
Lemma over_bound q ss :
  q <= 1000 -> Forall (fun s => 0 <= s) ss ->
  countp (fun s => q <=? s) ss + countp (fun s => bucketUpperMs (bucketFor s) <=? q) ss <=
  Z.of_nat (length ss).
Proof.
  intros Hq Hpos. induction Hpos as [|s ss Hs _ IH]; [done|]. cbn [countp length].
  destruct (Z.leb_spec q s); [|destruct (bucketUpperMs (bucketFor s) <=? q); lia].
  destruct (Z.leb_spec (bucketUpperMs (bucketFor s)) q) as [Hle|]; [|lia].
  destruct (Z.ltb_spec s 1000).
  - pose proof (bucketUpper_sound s). lia.
  - assert (bucketFor s = 28) as E.
    { unfold bucketFor. repeat (rewrite (proj2 (Z.ltb_ge _ _)) by lia). done. }
    rewrite E in Hle. cbn in Hle. lia.
Qed.

Lemma since_rotation_pos ops acc :
  Forall (fun o => match o with Some ms => 0 <= ms | None => True end) ops ->
  Forall (fun s => 0 <= s) acc -> Forall (fun s => 0 <= s) (since_rotation ops acc).
Proof.
  intros Hpos. revert acc. induction Hpos as [|[ms|] ops Ho _ IH]; intros acc Hacc; simpl; [done| |].
  - apply IH. apply Forall_app. auto.
  - apply IH. constructor.
Qed.

(** after any history of recordings and rotations, [Rotate] freezes
    exactly the samples recorded since the previous rotation, and [p99Ms] of
    them is the nearest-rank 99th percentile at bucket resolution: at least
    99% of the samples lie in buckets that end by it, fewer than 99% in
    buckets that end before it, and below the overflow bucket at most 1% of
    the samples reach or exceed it in milliseconds. *)
Theorem p99_of_window ops :
  Forall (fun o => match o with Some ms => 0 <= ms | None => True end) ops ->
  Z.of_nat (length ops) < 2 ^ 63 ->
  exists r r' h, ring_run ring_zero ops = Ret r /\ Rotate r = Ret (r', h) /\
    let ss := since_rotation ops [] in
    let n := Z.of_nat (length ss) in
    let q := p99Ms h in
    count h = n /\
    (ss <> [] ->
     countp (fun s => bucketUpperMs (bucketFor s) <? q) ss < n - n / 100 <=
       countp (fun s => bucketUpperMs (bucketFor s) <=? q) ss /\
     (q < 9999 -> countp (fun s => q <=? s) ss <= n / 100)).
Proof.
  intros Hpos Hlen. destruct (ring_run_rel ops ring_zero [] ring_rel_zero) as (r & Hr & Hrel & Hl); [done|].
  destruct (Rotate_rel r _ Hrel) as (r' & h & Hrot & Hh & _).
  exists r, r', h. split; [done|]. split; [done|]. intros ss n q.
  split; [by destruct Hh as (_ & -> & _)|]. intros Hne.
  destruct (p99Ms_bucket h ss Hh Hne Hl) as (j & Hj & Hq & Hb). fold q in Hq. fold n in Hb.
  assert (countp (fun s => bucketUpperMs (bucketFor s) <=? q) ss = below (j + 1) ss) as Hle.
  { apply countp_ext. intros s. rewrite Hq, bucketUpper_le_iff by (done || apply bucketFor_range).
    destruct (Z.leb_spec (bucketFor s) j), (Z.ltb_spec (bucketFor s) (j + 1)); lia || done. }
  assert (countp (fun s => bucketUpperMs (bucketFor s) <? q) ss = below j ss) as Hlt.
  { apply countp_ext. intros s. rewrite Hq, !Z.ltb_antisym.
    by rewrite bucketUpper_le_iff by (done || apply bucketFor_range). }
  rewrite Hle, Hlt. split; [done|]. intros Hq9.
  assert (q <= 1000) as Hq1.
  { rewrite Hq in Hq9 |- *. pose proof (bucketUpper_le_iff j 27 Hj ltac:(lia)) as Hm.
    change (bucketUpperMs 27) with 1000 in Hm.
    destruct (Z.leb_spec j 27); [by apply Z.leb_le|]. replace j with 28 in Hq9 by lia. cbn in Hq9. lia. }
  pose proof (over_bound q ss Hq1 (since_rotation_pos ops [] Hpos (Forall_nil_2 _))) as Hover.
  rewrite Hle in Hover. fold n in Hover. lia.
Qed.

Lemma p99_of_window_witness :
  exists r r' h, ring_run ring_zero [Some 5; None; Some 3; Some 40] = Ret r /\ Rotate r = Ret (r', h) /\
    count h = 2 /\ p99Ms h = 50.
Proof.
  destruct (p99_of_window [Some 5; None; Some 3; Some 40]) as (r & r' & h & Hr & Hrot & Hc & _).
  - repeat constructor; lia.
  - cbn. lia.
  - exists r, r', h. split; [exact Hr|]. split; [exact Hrot|]. split; [exact Hc|].
    vm_compute in Hr. injection Hr as <-. vm_compute in Hrot. injection Hrot as <- <-.
    vm_compute. reflexivity.
Defined.

End LatencySpec.

(** ** The adaptive controller *)

Module ControllerSpec.
Import Latency Gate Controller LatencySpec.

Lemma if_max x y : (if x <? y then y else x) = Z.max x y.
Proof. destruct (Z.ltb_spec x y); lia. Qed.

Lemma if_min x y : (if y <? x then y else x) = Z.min x y.
Proof. destruct (Z.ltb_spec y x); lia. Qed.

(** one tick of the enabled controller reads the window since the last
    tick, touches neither the configuration nor the requests in flight, keeps
    the limit at or above [MinLimit], and does one of three things: it holds
    the limit; it cuts it, only with enough samples, a 99th percentile above
    the target and no cooldown, to the scaled limit but at least [MinLimit] and
    the number of active requests; or it grows it by [AddStep] up to
    [MaxLimit], only with enough samples and a percentile within the target. *)
Theorem controller_tick fm ss :
  let cfg := liveConfig fm in
  let l := Limiter fm in
  ring_rel (ring fm) ss -> Z.of_nat (length ss) < 2 ^ 63 ->
  limiterEnabled fm = true -> Disabled cfg = false ->
  MinLimit cfg <= MaxLimit cfg -> MinLimit cfg <= limit l ->
  0 <= AddStep cfg -> - 2 ^ 63 <= limit l -> limit l + AddStep cfg < 2 ^ 63 ->
  exists fm' h, tick fm = Ret fm' /\ hist_rel h ss /\ ring_rel (ring fm') [] /\
    liveConfig fm' = cfg /\ limiterEnabled fm' = true /\
    active (Limiter fm') = active l /\ rejected (Limiter fm') = rejected l /\
    MinLimit cfg <= limit (Limiter fm') /\
    (limit (Limiter fm') = limit l \/
     (MinSamples cfg <= Z.of_nat (length ss) /\ TargetOverheadMs cfg < p99Ms h /\
      cooldown fm <= 1 /\ cooldown fm' = CooldownTicks cfg /\
      limit (Limiter fm') =
        Z.max (Z.max (to_int (fmul (of_int (limit l)) (CutFactor cfg))) (MinLimit cfg)) (active l)) \/
     (MinSamples cfg <= Z.of_nat (length ss) /\ p99Ms h <= TargetOverheadMs cfg /\
      limit (Limiter fm') = Z.min (limit l + AddStep cfg) (MaxLimit cfg))).
Proof.
  intros cfg l Hring Hlen Hen Hdis Hmm Hlo Hadd Hneg Hov. unfold tick. fold cfg l.
  destruct (Rotate_rel _ _ Hring) as (r' & h & -> & Hh & Hr'). cbn [obind].
  rewrite Hen, Hdis. cbn [negb].
  assert (count h = Z.of_nat (length ss)) as Hcount by (by destruct Hh as (_ & -> & _)).
  rewrite Hcount.
  set (cd := if 0 <? cooldown fm then cooldown fm - 1 else cooldown fm).
  destruct (Z.ltb_spec (Z.of_nat (length ss)) (MinSamples cfg)) as [Hs|Hs];
    [by (eexists _, h; conjs; left)|].
  destruct (_ && _ && _) eqn:Ecut; [|destruct ((p99Ms h <=? _) && _) eqn:Egrow].
  - apply andb_true_iff in Ecut as [[Hp _]%andb_true_iff Hcd].
    eexists _, h. split; [reflexivity|].
    cbn [ring liveConfig limiterEnabled Limiter SetLimit active rejected limit cooldown].
    rewrite !if_max. conjs.
    right. left. apply Z.ltb_lt in Hp. apply Z.eqb_eq in Hcd. conjs. split; [|done]. unfold cd in Hcd. destruct (Z.ltb_spec 0 (cooldown fm)); lia.
  - apply andb_true_iff in Egrow as [Hp _].
    eexists _, h. split; [reflexivity|].
    cbn [ring liveConfig limiterEnabled Limiter SetLimit active rejected limit cooldown].
    rewrite wraps_small, if_min by lia. conjs.
    right. right. apply Z.leb_le in Hp. done.
  - eexists _, h. conjs. by left.
Qed.

(** A manager in production state: 60 requests of 1000 allowed in flight, a
    window of 60 fast samples. *)
Definition demo_cfg : ConcurrencyConfig :=
  fill_defaults 1 (mkCfg true false 0 0 0 0 0 (S754_zero false) 0 0 0).

Definition demo_manager (act : Z) (r : LatencyRing) : Manager :=
  mkManager (mkLimiter act 1000 0) true demo_cfg r 0 true.

Lemma controller_tick_witness :
  exists r fm', ring_run ring_zero (replicate 60 (Some 3)) = Ret r /\
    tick (demo_manager 900 r) = Ret fm' /\ limit (Limiter fm') = 1050.
Proof.
  destruct (ring_run_rel (replicate 60 (Some 3)) ring_zero [] ring_rel_zero) as (r & Hr & Hrel & Hl);
    [cbn; lia|].
  destruct (controller_tick (demo_manager 900 r) _ Hrel Hl) as (fm' & h & Ht & _);
    [vm_compute; first [reflexivity|congruence]..|].
  exists r, fm'. split; [exact Hr|]. split; [exact Ht|].
  vm_compute in Hr. injection Hr as <-. vm_compute in Ht. injection Ht as <-. reflexivity.
Defined.

(** Enabling the gate at run time.  A gateway started with the feature off
    stores neither defaults nor a limit; a later PATCH of [enabled] alone opens
    a gate of size zero that refuses every request, and no controller was
    started that could raise the limit. *)
Theorem patch_enable_refuses_all :
  let off := mkCfg false false 0 0 0 0 0 (S754_zero false) 0 0 0 in
  let fm0 := mkManager (mkLimiter 0 0 0) false off ring_zero 0 false in
  let fm1 := StartController 8 fm0 off in
  let fm2 := (ConcurrencyHandler fm1
                (PatchRequest (Some (mkPatch (Some true) None None None None None None None)))).1 in
  controller fm2 = false /\
  exists fm3, gate fm2 = Ret (fm3, false) /\ rejected (Limiter fm3) = 1.
Proof. vm_compute. eauto. Qed.

End ControllerSpec.

(** ** The egress limiter *)

Module EgressSpec.
Import Egress.

(** What happens to one bucket: calls ask for a slot, timers fire. *)
Inductive event : Type := EAcquire (now : Z) | ETimer (ch : nat).

(** The answer to a call: granted, or the channel to wait on. *)
Definition bucket_step (limit windowNs : Z) (e : event) (b : egressBucket)
  : outcome (egressBucket * option (option nat)) :=
  match e with
  | EAcquire now => obind (acquire_bucket b limit windowNs now) (fun br => Ret (br.1, Some br.2))
  | ETimer ch => obind (timer_fires b ch) (fun b' => Ret (b', None))
  end.

Fixpoint bucket_run (limit windowNs : Z) (es : list event) (b : egressBucket)
  : outcome (egressBucket * list (event * option (option nat))) :=
  match es with
  | [] => Ret (b, [])
  | e :: es' =>
    obind (bucket_step limit windowNs e b) (fun br =>
    obind (bucket_run limit windowNs es' br.1) (fun bt => Ret (bt.1, (e, br.2) :: bt.2)))
  end.

(** Every channel ever made is the one in the gate or closed, none twice. *)
Definition chan_inv (b : egressBucket) : Prop :=
  NoDup (closed b) /\
  (forall ch, (ch < next_chan b)%nat <-> ch ∈ closed b \/ chan_gate b = Some ch) /\
  (forall ch, chan_gate b = Some ch -> ch ∉ closed b).

Lemma close_gate b ch :
  chan_inv b -> chan_gate b = Some ch ->
  exists b', close ch (set_gate None b) = Ret b' /\ chan_inv b' /\ chan_gate b' = None /\
    ch ∈ closed b' /\ epoch b' = epoch b /\ count b' = count b /\ next_chan b' = next_chan b.
Proof.
  intros (Hnd & Hall & Hg) Hch. unfold close, set_gate. cbn [closed].
  rewrite decide_False by (by apply Hg). eexists. split; [reflexivity|].
  cbn [epoch count chan_gate next_chan closed]. split; [|set_solver].
  split; [constructor; [by apply Hg|done]|]. cbn [closed chan_gate next_chan]. split; [|done].
  intros c. rewrite elem_of_cons, Hall, Hch. clear. naive_solver.
Qed.

Lemma wake_inv b :
  chan_inv b -> exists b', wake b = Ret b' /\ chan_inv b' /\ chan_gate b' = None /\
    epoch b' = epoch b /\ count b' = count b /\ next_chan b' = next_chan b.
Proof.
  intros Hi. unfold wake. destruct (chan_gate b) as [ch|] eqn:E; [|by exists b].
  destruct (close_gate b ch Hi E) as (b' & -> & ? & ? & ? & ? & ? & ?). by exists b'.
Qed.

Lemma timer_inv b ch :
  chan_inv b -> exists b', timer_fires b ch = Ret b' /\ chan_inv b' /\
    epoch b' = epoch b /\ count b' = count b /\ next_chan b' = next_chan b.
Proof.
  intros Hi. unfold timer_fires. destruct (chan_gate b) as [g|] eqn:E; [|by exists b].
  destruct (decide (g = ch)) as [->|]; [|by exists b].
  destruct (close_gate b ch Hi E) as (b' & -> & ? & ? & ? & ? & ? & ?). by exists b'.
Qed.

Lemma waitChannel_inv b e w now :
  chan_inv b -> let '(b', (ch, _)) := waitChannel b e w now in
  chan_inv b' /\ chan_gate b' = Some ch /\ epoch b' = epoch b /\ count b' = count b /\
  (next_chan b <= next_chan b')%nat.
Proof.
  intros Hi. unfold waitChannel. destruct (chan_gate b) as [ch|] eqn:E; [by repeat (split; [done|])|].
  destruct Hi as (Hnd & Hall & Hg). rewrite E in Hall.
  cbn [chan_gate epoch count next_chan]. split; [|repeat split; lia].
  assert (next_chan b ∉ closed b) as Hfresh.
  { intros Hin. assert (next_chan b < next_chan b)%nat by (apply Hall; by left). lia. }
  split; [done|]. cbn [closed chan_gate next_chan]. split.
  - intros c. rewrite Nat.lt_succ_r, Nat.lt_eq_cases, Hall. clear. naive_solver.
  - by intros c [= <-].
Qed.

(** The count of a new call, given the count so far. *)
Lemma countForEpoch_spec b e :
  chan_inv b -> 0 <= count b < 2 ^ 63 - 1 ->
  let n := if epoch b =? e then count b + 1 else 1 in
  exists b', countForEpoch b e = Ret (b', n) /\ chan_inv b' /\ epoch b' = e /\ count b' = n /\
    next_chan b' = next_chan b.
Proof.
  intros Hi Hc n. unfold countForEpoch, claim. cbn [run Get AddGet Cas Put].
  unfold n. destruct (Z.eqb_spec (epoch b) e) as [E|E]; cbn [run AddGet Cas Put].
  - unfold set_count. cbn [count]. rewrite wraps_small by lia. cbn [obind].
    eexists. split; [reflexivity|]. by destruct b; cbn in *; subst.
  - rewrite Z.eqb_refl. cbn [run Put obind].
    destruct (wake_inv (set_count 1 (set_epoch e b)) Hi) as (b' & -> & Hi' & _ & He & Hcnt & Hn).
    cbn [obind]. exists b'. by rewrite He, Hcnt, Hn.
Qed.

Lemma acquire_spec b limit w now :
  chan_inv b -> 0 <= count b < 2 ^ 63 - 1 ->
  let e := now ÷ w in
  let n := if epoch b =? e then count b + 1 else 1 in
  exists b' r, acquire_bucket b limit w now = Ret (b', r) /\ chan_inv b' /\
    epoch b' = e /\ count b' = n /\ (next_chan b <= next_chan b')%nat /\
    (if n <=? limit then r = None else exists ch, r = Some ch /\ chan_gate b' = Some ch).
Proof.
  intros Hi Hc e n. unfold acquire_bucket. fold e.
  destruct (countForEpoch_spec b e Hi Hc) as (b1 & -> & Hi1 & He1 & Hc1 & Hn1). fold n in Hc1 |- *.
  cbn [obind fst snd]. destruct (n <=? limit).
  - exists b1, None. do 4 (split; [done|]). split; [lia|done].
  - pose proof (waitChannel_inv b1 e w now Hi1) as Hw.
    destruct (waitChannel b1 e w now) as [b2 [ch d]]. destruct Hw as (Hi2 & Hg & He2 & Hc2 & Hle).
    exists b2, (Some ch). do 2 (split; [done|]). split; [congruence|]. split; [congruence|].
    split; [lia|]. by exists ch.
Qed.

(** What the trace says of each call: granted exactly when it is among the
    first [limit] of its window ([seen] calls of window [e] came before). *)
Fixpoint exact (limit w e seen : Z) (tr : list (event * option (option nat))) : Prop :=
  match tr with
  | [] => True
  | (EAcquire now, r) :: tr' =>
    let n := if now ÷ w =? e then seen + 1 else 1 in
    (r = Some None <-> n <= limit) /\ exact limit w (now ÷ w) n tr'
  | (ETimer _, _) :: tr' => exact limit w e seen tr'
  end.

(** The channels handed out in a trace. *)
Definition waiting (tr : list (event * option (option nat))) : list nat :=
  omap (fun x : event * option (option nat) => mjoin x.2) tr.

Lemma bucket_run_spec limit w es b :
  chan_inv b -> 0 <= count b -> count b + Z.of_nat (length es) < 2 ^ 63 ->
  exists b' tr, bucket_run limit w es b = Ret (b', tr) /\ chan_inv b' /\
    (next_chan b <= next_chan b')%nat /\ exact limit w (epoch b) (count b) tr /\
    Forall (fun ch => (ch < next_chan b')%nat) (waiting tr).
Proof.
  revert b. induction es as [|[now|ch] es IH]; intros b Hi Hc Hlen; cbn [bucket_run bucket_step length] in *.
  { exists b, []. repeat (split; [solve [done|lia]|]). constructor. }
  - destruct (acquire_spec b limit w now Hi) as (b1 & r & -> & Hi1 & He1 & Hc1 & Hn1 & Hr); [lia|].
    cbn [obind fst snd]. set (n := if epoch b =? now ÷ w then count b + 1 else 1) in *.
    assert (1 <= n <= count b + 1) as Hn by (unfold n; destruct (epoch b =? now ÷ w); lia).
    destruct (IH b1 Hi1) as (b' & tr & -> & Hi' & Hn' & Hex & Hw); [lia|lia|]. cbn [obind fst snd].
    eexists _, _. split; [reflexivity|]. split; [done|]. split; [lia|].
    rewrite He1, Hc1 in Hex. split.
    + cbn [exact]. rewrite (Z.eqb_sym (now ÷ w)). fold n. split; [|done].
      destruct (Z.leb_spec n limit); [by subst|]. destruct Hr as (ch & -> & _). split; [done|lia].
    + destruct (n <=? limit); [by subst|]. destruct Hr as (ch & -> & Hg). csimpl. constructor; [|done].
      apply Nat.lt_le_trans with (next_chan b1); [|done]. apply Hi1. by right.
  - destruct (timer_inv b ch Hi) as (b1 & -> & Hi1 & He1 & Hc1 & Hn1). cbn [obind fst snd].
    destruct (IH b1 Hi1) as (b' & tr & -> & Hi' & Hn' & Hex & Hw); [lia|lia|]. cbn [obind fst snd].
    eexists _, _. split; [reflexivity|]. split; [done|]. split; [lia|].
    rewrite He1, Hc1 in Hex. done.
Qed.

Lemma chan_inv_new : chan_inv new_bucket.
Proof.
  split; [constructor|]. split; [|done]. intros ch. cbn. split; [lia|].
  intros [?%elem_of_nil|?]; done.
Qed.

(** served one call at a time, an egress bucket grants exactly the first
    [limit] of the consecutive calls that fall in one window and refuses the
    rest; no sequence of calls and
    timer firings closes a channel twice, and every channel a refused call was
    told to wait on is closed already or is the one the next window or the
    timer will close, so no waiter is forgotten. *)
Theorem egress_windows_exact limit w es :
  Z.of_nat (length es) < 2 ^ 63 ->
  exists b tr, bucket_run limit w es new_bucket = Ret (b, tr) /\ exact limit w 0 0 tr /\
    Forall (fun ch => ch ∈ closed b \/ chan_gate b = Some ch) (waiting tr).
Proof.
  intros Hlen. destruct (bucket_run_spec limit w es new_bucket chan_inv_new) as (b & tr & Hr & Hi & _ & Hex & Hw);
    [done|cbn; lia|].
  exists b, tr. split; [done|]. split; [done|]. eapply Forall_impl; [exact Hw|].
  intros ch. apply Hi.
Qed.

Lemma egress_windows_exact_witness :
  exists b tr, bucket_run 1 10 [EAcquire 11; EAcquire 12; EAcquire 23; ETimer 0] new_bucket = Ret (b, tr) /\
    exact 1 10 0 0 tr /\ tr.*2 = [Some None; Some (Some 0%nat); Some None; None].
Proof.
  destruct (egress_windows_exact 1 10 [EAcquire 11; EAcquire 12; EAcquire 23; ETimer 0])
    as (b & tr & Hr & Hex & _); [cbn; lia|].
  exists b, tr. split; [exact Hr|]. split; [exact Hex|].
  vm_compute in Hr. injection Hr as <- <-. reflexivity.
Defined.

(** Two goroutines that reach a fresh bucket together are both granted a slot
    of a window whose limit is one: one of them swaps the epoch, the other
    increments the counter, and the first then stores 1 over the increment. *)
Theorem egress_reset_race :
  exists b, rtc pstep (new_bucket, [claim 6; claim 6]) (b, [Return (1, true); Return (1, false)]) /\
    count b = 1.
Proof.
  eexists. split.
  - etransitivity; [apply (sched_steps _ [0; 0; 1; 1; 0]%nat)|]. vm_compute. apply rtc_refl.
  - reflexivity.
Qed.

End EgressSpec.
