(* ===== verification/Cond.v ===== *)
(** * The condition compiler

    [internal/engine/steps/cond_expr.go]: the lexer, the recursive-descent
    parser that builds condition closures at bake time, and
    [CompileCondition].  Strings are byte strings.  A parse either succeeds,
    fails ([Ret None], the source's error return) or, in the model only, runs
    out of its recursion budget ([Fuel]); CondSpec.v shows the budget is
    always enough. *)

From S2P Require Import Prelude.
From stdpp Require Import base numbers list gmap.

Local Open Scope Z_scope.
Local Open Scope rah_scope.

(** What a condition reads of the request context. *)
Record CondCtx : Type := mkCondCtx {
  ResponseStatus : Z;
  Method : byte_string;
  Path : byte_string;
  ByteSlots : list byte_string
}.

Abbreviation ConditionFunc := (CondCtx -> bool).

(** ** Byte-string helpers of the standard library *)

Definition beq (a b : byte_string) : bool := bool_decide (a = b).

Fixpoint has_prefix (s p : byte_string) : bool :=
  match p, s with
  | [], _ => true
  | x :: p', y :: s' => (x =? y) && has_prefix s' p'
  | _ :: _, [] => false
  end.

Definition has_suffix (s p : byte_string) : bool := has_prefix (reverse s) (reverse p).

Fixpoint contains (s p : byte_string) : bool :=
  has_prefix s p || match s with [] => false | _ :: s' => contains s' p end.

Definition cut_prefix (s p : byte_string) : byte_string * bool :=
  if has_prefix s p then (drop (length p) s, true) else (s, false).

(** The encodings of the white-space runes [strings.TrimSpace] removes. *)
Definition spaces : list byte_string :=
  [[9]; [10]; [11]; [12]; [13]; [32]; [0xC2; 0x85]; [0xC2; 0xA0]; [0xE1; 0x9A; 0x80];
   [0xE2; 0x80; 0x80]; [0xE2; 0x80; 0x81]; [0xE2; 0x80; 0x82]; [0xE2; 0x80; 0x83];
   [0xE2; 0x80; 0x84]; [0xE2; 0x80; 0x85]; [0xE2; 0x80; 0x86]; [0xE2; 0x80; 0x87];
   [0xE2; 0x80; 0x88]; [0xE2; 0x80; 0x89]; [0xE2; 0x80; 0x8A]; [0xE2; 0x80; 0xA8];
   [0xE2; 0x80; 0xA9]; [0xE2; 0x80; 0xAF]; [0xE2; 0x81; 0x9F]; [0xE3; 0x80; 0x80]].

(** Removing leading members of [sp]; each removal shortens the string. *)
Fixpoint trim_left (fuel : nat) (sp : list byte_string) (s : byte_string) : byte_string :=
  match fuel with
  | O => s
  | S fuel' =>
    match list_find (fun p => has_prefix s p = true) sp with
    | Some (_, p) => trim_left fuel' sp (drop (length p) s)
    | None => s
    end
  end.

Definition TrimSpace (s : byte_string) : byte_string :=
  let l := trim_left (length s) spaces s in
  reverse (trim_left (length l) (reverse <$> spaces) (reverse l)).

Definition is_digit (c : Z) : bool := (48 <=? c) && (c <=? 57).

(** [unicode.IsLetter] on the runes 0 to 255. *)
Definition is_letter (c : Z) : bool :=
  ((65 <=? c) && (c <=? 90)) || ((97 <=? c) && (c <=? 122)) ||
  (c =? 0xAA) || (c =? 0xB5) || (c =? 0xBA) ||
  ((0xC0 <=? c) && (c <=? 0xD6)) || ((0xD8 <=? c) && (c <=? 0xF6)) || ((0xF8 <=? c) && (c <=? 0xFF)).

(** The digit loop of [strconv.ParseUint(s, 10, 64)], from the value [n] read
    so far: a byte that is not a digit is a syntax error ([None]); a value past
    64 bits stops the loop at once with 2^64 - 1, whatever bytes follow.
    [1844674407370955162] is the [cutoff] MaxUint64/10 + 1. *)
Fixpoint digits_value (s : byte_string) (n : Z) : option Z :=
  match s with
  | [] => Some n
  | c :: s' =>
    if is_digit c then
      if 1844674407370955162 <=? n then Some (2 ^ 64 - 1)
      else let n1 := n * 10 + (c - 48) in
           if 2 ^ 64 <=? n1 then Some (2 ^ 64 - 1) else digits_value s' n1
    else None
  end.

(** [strconv.ParseInt(s, 10, 64)]: the value (also on errors) and whether
    there was no error. *)
Definition ParseInt (s : byte_string) : Z * bool :=
  let '(neg, ds) := match s with
                    | 45 :: s' => (true, s')
                    | 43 :: s' => (false, s')
                    | _ => (false, s)
                    end in
  match ds with
  | [] => (0, false)
  | _ =>
    match digits_value ds 0 with
    | None => (0, false)
    | Some v =>
      if neg then if v <=? 2 ^ 63 then (- v, true) else (- 2 ^ 63, false)
      else if v <? 2 ^ 63 then (v, true) else (2 ^ 63 - 1, false)
    end
  end.

(** [strconv.Itoa]: the decimal digits. *)
Fixpoint digits (fuel : nat) (n : Z) (acc : byte_string) : byte_string :=
  match fuel with
  | O => acc
  | S fuel' =>
    let acc' := (48 + n mod 10) :: acc in
    if n <? 10 then acc' else digits fuel' (n / 10) acc'
  end.

Definition Itoa (n : Z) : byte_string :=
  if n <? 0 then 45 :: digits 20 (- n) [] else digits 20 n [].

(** ** The lexer *)

Inductive tokenKind : Type :=
| tkIdent | tkStr | tkNum | tkAnd | tkOr | tkNot | tkEq | tkNe | tkLt | tkLe | tkGt | tkGe
| tkLParen | tkRParen | tkComma | tkEOF.

#[export] Instance tokenKind_eq_dec : EqDecision tokenKind.
Proof. solve_decision. Defined.

Record token : Type := mkTok { kind : tokenKind; val : byte_string }.

#[export] Instance token_eq_dec : EqDecision token.
Proof. solve_decision. Defined.

Definition is_space (c : Z) : bool := (c =? 32) || (c =? 9) || (c =? 13) || (c =? 10).

Definition is_ident_start (c : Z) : bool := (c =? 95) || is_letter c.
Definition is_ident_char (c : Z) : bool := (c =? 95) || (c =? 46) || is_letter c || is_digit c.

(** The longest prefix whose characters satisfy [p], and the rest. *)
Fixpoint span (p : Z -> bool) (s : byte_string) : byte_string * byte_string :=
  match s with
  | c :: s' => if p c then let '(a, b) := span p s' in (c :: a, b) else ([], s)
  | [] => ([], [])
  end.

(** The next character, if any, is [c]. *)
Definition next_is (s : byte_string) (p : Z -> bool) : bool :=
  match s with c :: _ => p c | [] => false end.

(** One step of the lexer at a character that is not white space: the token
    and the rest of the input. *)
Definition lex_one (ch : Z) (s : byte_string) : option (token * byte_string) :=
  if (ch =? 38) && next_is s (Z.eqb 38) then Some (mkTok tkAnd [38; 38], tail s)
  else if (ch =? 124) && next_is s (Z.eqb 124) then Some (mkTok tkOr [124; 124], tail s)
  else if (ch =? 33) && next_is s (Z.eqb 61) then Some (mkTok tkNe [33; 61], tail s)
  else if ch =? 33 then Some (mkTok tkNot [33], s)
  else if (ch =? 61) && next_is s (Z.eqb 61) then Some (mkTok tkEq [61; 61], tail s)
  else if ch =? 61 then Some (mkTok tkEq [61; 61], s)
  else if (ch =? 60) && next_is s (Z.eqb 61) then Some (mkTok tkLe [60; 61], tail s)
  else if ch =? 60 then Some (mkTok tkLt [60], s)
  else if (ch =? 62) && next_is s (Z.eqb 61) then Some (mkTok tkGe [62; 61], tail s)
  else if ch =? 62 then Some (mkTok tkGt [62], s)
  else if ch =? 40 then Some (mkTok tkLParen [40], s)
  else if ch =? 41 then Some (mkTok tkRParen [41], s)
  else if ch =? 44 then Some (mkTok tkComma [44], s)
  else if (ch =? 34) || (ch =? 39) then
    let '(str, rest) := span (fun c => negb (c =? ch)) s in
    match rest with
    | [] => None
    | _ :: rest' => Some (mkTok tkStr str, rest')
    end
  else if is_digit ch || ((ch =? 45) && next_is s is_digit) then
    let '(ds, rest) := span is_digit s in Some (mkTok tkNum (ch :: ds), rest)
  else if is_ident_start ch then
    let '(cs, rest) := span is_ident_char s in Some (mkTok tkIdent (ch :: cs), rest)
  else None.

Fixpoint tokenize_loop (fuel : nat) (expr : byte_string) : outcome (option (list token)) :=
  match expr with
  | [] => Ret (Some [mkTok tkEOF []])
  | ch :: s =>
    match fuel with
    | O => Fuel
    | S fuel' =>
      if is_space ch then tokenize_loop fuel' s
      else
        match lex_one ch s with
        | None => Ret None
        | Some (t, rest) =>
          out <-- tokenize_loop fuel' rest ;;
          Ret (cons t <$> out)
        end
    end
  end.

Definition tokenize (expr : byte_string) : outcome (option (list token)) :=
  tokenize_loop (length expr) expr.

(** ** The parser *)

Definition tok_eof : token := mkTok tkEOF [].

(** The parser state is the list of tokens from [pos] on. *)
Definition peek (ts : list token) : token := default tok_eof (head ts).
Definition consume (ts : list token) : token * list token := (peek ts, tail ts).

(** [expect]: [None] is the error return. *)
Definition expect (k : tokenKind) (ts : list token) : option (token * list token) :=
  let '(t, ts') := consume ts in if decide (kind t = k) then Some (t, ts') else None.

(** Sequencing of fallible parsing functions. *)
Definition pbind {A B} (m : outcome (option A)) (k : A -> outcome (option B)) : outcome (option B) :=
  match m with
  | Ret (Some a) => k a
  | Ret None => Ret None
  | Panic => Panic
  | Fuel => Fuel
  end.

Local Notation "'let?' p := m 'in' k" := (pbind m (fun p => k))
  (at level 10, p strict pattern, m at level 200, k at level 200).

Definition ok {A} (a : A) : outcome (option A) := Ret (Some a).
Definition err {A} : outcome (option A) := Ret None.
Definition lift {A} (m : option A) : outcome (option A) := Ret m.

Definition isStringPredicate (name : byte_string) : bool :=
  beq name (bytes_of "contains") || beq name (bytes_of "startsWith") ||
  beq name (bytes_of "endsWith") || beq name (bytes_of "matches").

Section compiler.

(** The regular expressions of the standard library, and the slots of the flow:
    a slot index is a position of [ctx.ByteSlots]. *)
Variable regexp_Compile : byte_string -> option (byte_string -> bool).
Variable slotMap : gmap byte_string nat.

Definition strip_slot (name : byte_string) : byte_string := (cut_prefix name (bytes_of "slot.")).1.

Definition resolveStringReader (name : byte_string) : CondCtx -> byte_string :=
  let name := strip_slot name in
  if beq name (bytes_of "status") then fun ctx => Itoa (ResponseStatus ctx)
  else if beq name (bytes_of "method") then fun ctx => Method ctx
  else if beq name (bytes_of "path") then fun ctx => Path ctx
  else match slotMap !! name with
       | Some idx => fun ctx => default [] (ByteSlots ctx !! idx)
       | None => fun _ => []
       end.

Definition resolveIntReader (name : byte_string) : CondCtx -> Z :=
  let name := strip_slot name in
  if beq name (bytes_of "status") then fun ctx => i64 (ResponseStatus ctx)
  else match slotMap !! name with
       | Some idx => fun ctx =>
           match ByteSlots ctx !! idx with
           | Some b => (ParseInt b).1
           | None => 0
           end
       | None => fun _ => 0
       end.

(** [idx >= len(ctx.ByteSlots) || len(ctx.ByteSlots[idx]) == 0]. *)
Definition slot_empty (idx : nat) (ctx : CondCtx) : bool :=
  match ByteSlots ctx !! idx with Some (_ :: _) => false | _ => true end.

(** The call [name(slot, "arg")], after the name. *)
Definition parsePredicate (name : byte_string) (ts : list token)
  : outcome (option (ConditionFunc * list token)) :=
  let? (_, ts) := lift (expect tkLParen ts) in
  let? (slotTok, ts) := lift (expect tkIdent ts) in
  let? (_, ts) := lift (expect tkComma ts) in
  let? (argTok, ts) := lift (expect tkStr ts) in
  let? (_, ts) := lift (expect tkRParen ts) in
  let reader := resolveStringReader (val slotTok) in
  let arg := val argTok in
  if beq name (bytes_of "contains") then ok (fun ctx => contains (reader ctx) arg, ts)
  else if beq name (bytes_of "startsWith") then ok (fun ctx => has_prefix (reader ctx) arg, ts)
  else if beq name (bytes_of "endsWith") then ok (fun ctx => has_suffix (reader ctx) arg, ts)
  else match regexp_Compile arg with
       | None => err
       | Some re => ok (fun ctx => re (reader ctx), ts)
       end.

(** The right-hand side of a comparison, after the operator. *)
Definition parseComparison (name : byte_string) (op : tokenKind) (ts : list token)
  : outcome (option (ConditionFunc * list token)) :=
  let rhs := peek ts in
  match kind rhs with
  | tkStr =>
    let reader := resolveStringReader name in
    match op with
    | tkEq => ok (fun ctx => beq (reader ctx) (val rhs), tail ts)
    | tkNe => ok (fun ctx => negb (beq (reader ctx) (val rhs)), tail ts)
    | _ => err
    end
  | tkIdent =>
    if beq (val rhs) (bytes_of "null") || beq (val rhs) (bytes_of "nil") then
      match op with
      | tkEq => ok (match slotMap !! name with
                    | Some idx => slot_empty idx
                    | None => fun _ => true
                    end, tail ts)
      | tkNe => ok (match slotMap !! name with
                    | Some idx => fun ctx => negb (slot_empty idx ctx)
                    | None => fun _ => false
                    end, tail ts)
      | _ => err
      end
    else err
  | tkNum =>
    let '(rhsInt, valid) := ParseInt (val rhs) in
    if valid then
      let reader := resolveIntReader name in
      match op with
      | tkEq => ok (fun ctx => reader ctx =? rhsInt, tail ts)
      | tkNe => ok (fun ctx => negb (reader ctx =? rhsInt), tail ts)
      | tkLt => ok (fun ctx => reader ctx <? rhsInt, tail ts)
      | tkLe => ok (fun ctx => reader ctx <=? rhsInt, tail ts)
      | tkGt => ok (fun ctx => rhsInt <? reader ctx, tail ts)
      | tkGe => ok (fun ctx => rhsInt <=? reader ctx, tail ts)
      | _ => err
      end
    else err
  | _ => err
  end.

(** A bare identifier: truthiness. *)
Definition truthiness (name : byte_string) : ConditionFunc :=
  let name := strip_slot name in
  if beq name (bytes_of "status") then fun ctx => negb (ResponseStatus ctx =? 0)
  else if beq name (bytes_of "method") then fun ctx => negb (beq (Method ctx) [])
  else if beq name (bytes_of "path") then fun ctx => negb (beq (Path ctx) [])
  else match slotMap !! name with
       | Some idx => fun ctx => negb (slot_empty idx ctx)
       | None => fun _ => false
       end.

Definition is_comparison (k : tokenKind) : bool :=
  match k with tkEq | tkNe | tkLt | tkLe | tkGt | tkGe => true | _ => false end.

(** [parsePrimary] at an identifier, which is consumed. *)
Definition parseIdent (name : byte_string) (ts : list token)
  : outcome (option (ConditionFunc * list token)) :=
  if isStringPredicate name then parsePredicate name ts
  else if is_comparison (kind (peek ts)) then parseComparison name (kind (peek ts)) (tail ts)
  else ok (truthiness name, ts).

Fixpoint parseOr (n : nat) (ts : list token) : outcome (option (ConditionFunc * list token)) :=
  match n with
  | O => Fuel
  | S n => let? (l, ts) := parseAnd n ts in or_loop n l ts
  end
with or_loop (n : nat) (l : ConditionFunc) (ts : list token)
  : outcome (option (ConditionFunc * list token)) :=
  match n with
  | O => Fuel
  | S n =>
    match kind (peek ts) with
    | tkOr => let? (r, ts) := parseAnd n (tail ts) in
              or_loop n (fun ctx => l ctx || r ctx) ts
    | _ => ok (l, ts)
    end
  end
with parseAnd (n : nat) (ts : list token) : outcome (option (ConditionFunc * list token)) :=
  match n with
  | O => Fuel
  | S n => let? (l, ts) := parseUnary n ts in and_loop n l ts
  end
with and_loop (n : nat) (l : ConditionFunc) (ts : list token)
  : outcome (option (ConditionFunc * list token)) :=
  match n with
  | O => Fuel
  | S n =>
    match kind (peek ts) with
    | tkAnd => let? (r, ts) := parseUnary n (tail ts) in
               and_loop n (fun ctx => l ctx && r ctx) ts
    | _ => ok (l, ts)
    end
  end
with parseUnary (n : nat) (ts : list token) : outcome (option (ConditionFunc * list token)) :=
  match n with
  | O => Fuel
  | S n =>
    match kind (peek ts) with
    | tkNot => let? (inner, ts) := parseUnary n (tail ts) in ok (fun ctx => negb (inner ctx), ts)
    | _ => parsePrimary n ts
    end
  end
with parsePrimary (n : nat) (ts : list token) : outcome (option (ConditionFunc * list token)) :=
  match n with
  | O => Fuel
  | S n =>
    match kind (peek ts) with
    | tkLParen =>
      let? (fn, ts) := parseOr n (tail ts) in
      let? (_, ts) := lift (expect tkRParen ts) in
      ok (fn, ts)
    | tkIdent => parseIdent (val (peek ts)) (tail ts)
    | _ => err
    end
  end.

Definition parseExpr (n : nat) (ts : list token) : outcome (option (ConditionFunc * list token)) :=
  parseOr n ts.

(** The recursion budget for a list of tokens. *)
Definition budget (ts : list token) : nat := 6 * length ts + 6.

Definition CompileCondition (expr : byte_string) : outcome (option ConditionFunc) :=
  let expr := TrimSpace expr in
  match expr with
  | [] => ok (fun _ => false)
  | _ =>
    tokens <-- tokenize expr ;;
    match tokens with
    | None => err
    | Some ts =>
      let? (fn, rest) := parseExpr (budget ts) ts in
      if decide (kind (peek rest) = tkEOF) then ok fn else err
    end
  end.

End compiler.
