(* ===== verification/CondSpec.v ===== *)
(** * The condition compiler: termination and round trip

    [CompileCondition] always answers (its recursion budget suffices for every
    input), and compiling the text of a condition gives a closure that
    evaluates it. *)

From S2P Require Import Prelude Cond.
From stdpp Require Import base numbers list gmap.

Local Open Scope Z_scope.

(** ** Termination *)

(** The parse answered, and consumed tokens only from the front. *)
Definition settled (L : nat) (m : outcome (option (ConditionFunc * list token))) : Prop :=
  match m with
  | Ret (Some (_, ts)) => (length ts <= L)%nat
  | Ret None => True
  | _ => False
  end.

Lemma settled_bind L L' m k :
  settled L m -> (forall f ts, (length ts <= L)%nat -> settled L' (k (f, ts))) -> settled L' (pbind m k).
Proof. intros Hm Hk. destruct m as [[[f ts]|]| |]; simpl in *; auto. Qed.

Lemma settled_weaken L L' m : settled L m -> (L <= L')%nat -> settled L' m.
Proof. intros Hm Hle. destruct m as [[[? ?]|]| |]; simpl in *; lia || done. Qed.

Lemma settled_expect L k ts (c : token * list token -> outcome (option (ConditionFunc * list token))) :
  (length ts <= L)%nat -> (forall t ts', (length ts' <= L)%nat -> settled L (c (t, ts'))) ->
  settled L (pbind (lift (expect k ts)) c).
Proof.
  intros Hl Hc. unfold lift, expect, consume. destruct (decide _); simpl; [|done].
  apply Hc. destruct ts; simpl in *; lia.
Qed.

Lemma peek_nonempty ts : kind (peek ts) <> tkEOF -> (length (tail ts) < length ts)%nat.
Proof. destruct ts; simpl; [done|lia]. Qed.

Lemma length_tail {A} (l : list A) : (length (tail l) <= length l)%nat.
Proof. destruct l; simpl; lia. Qed.

Section total.
Context (re : byte_string -> option (byte_string -> bool)) (sm : gmap byte_string nat).

Lemma settled_predicate name ts : settled (length ts) (parsePredicate re sm name ts).
Proof.
  unfold parsePredicate. repeat (apply settled_expect; [lia || done|intros ? ? ?]).
  repeat case_match; first [done|simpl; lia].
Qed.

Lemma settled_comparison name op ts : settled (length ts) (parseComparison sm name op ts).
Proof.
  unfold parseComparison. pose proof (length_tail ts).
  repeat case_match; first [done|simpl; lia].
Qed.

Lemma settled_ident name ts : settled (length ts) (parseIdent re sm name ts).
Proof.
  unfold parseIdent. destruct (isStringPredicate name); [apply settled_predicate|].
  destruct (is_comparison _); [|simpl; lia].
  pose proof (settled_comparison name (kind (peek ts)) (tail ts)) as H.
  pose proof (length_tail ts). destruct (parseComparison _ _ _ _) as [[[f r]|]| |]; simpl in *; lia || done.
Qed.

(** With six units of budget per token, every parsing function answers. *)
Lemma parse_settled n :
  (forall ts, (6 * length ts + 6 <= n)%nat -> settled (length ts) (parseOr re sm n ts)) /\
  (forall f ts, (6 * length ts + 1 <= n)%nat -> settled (length ts) (or_loop re sm n f ts)) /\
  (forall ts, (6 * length ts + 4 <= n)%nat -> settled (length ts) (parseAnd re sm n ts)) /\
  (forall f ts, (6 * length ts + 1 <= n)%nat -> settled (length ts) (and_loop re sm n f ts)) /\
  (forall ts, (6 * length ts + 2 <= n)%nat -> settled (length ts) (parseUnary re sm n ts)) /\
  (forall ts, (6 * length ts + 1 <= n)%nat -> settled (length ts) (parsePrimary re sm n ts)).
Proof.
  induction n as [|n (IHor & IHol & IHand & IHal & IHun & IHpr)]; [repeat split; intros; lia|].
  repeat split.
  - intros ts Hn. simpl. eapply settled_bind; [apply IHand; lia|].
    intros f ts' Hl. eapply settled_weaken; [apply IHol; lia|done].
  - intros f ts Hn. simpl. destruct (kind (peek ts)) eqn:E; try (simpl; lia).
    pose proof (peek_nonempty ts ltac:(congruence)) as Ht.
    eapply settled_bind; [apply IHand; lia|].
    intros f' ts' Hl. eapply settled_weaken; [apply IHol; lia|lia].
  - intros ts Hn. simpl. eapply settled_bind; [apply IHun; lia|].
    intros f ts' Hl. eapply settled_weaken; [apply IHal; lia|done].
  - intros f ts Hn. simpl. destruct (kind (peek ts)) eqn:E; try (simpl; lia).
    pose proof (peek_nonempty ts ltac:(congruence)) as Ht.
    eapply settled_bind; [apply IHun; lia|].
    intros f' ts' Hl. eapply settled_weaken; [apply IHal; lia|lia].
  - intros ts Hn. simpl. destruct (kind (peek ts)) eqn:E; try (apply IHpr; lia).
    pose proof (peek_nonempty ts ltac:(congruence)) as Ht.
    eapply settled_bind; [apply IHun; lia|]. intros f' ts' Hl. simpl. lia.
  - intros ts Hn. simpl. destruct (kind (peek ts)) eqn:E; try done.
    + pose proof (peek_nonempty ts ltac:(congruence)) as Ht.
      eapply settled_weaken; [apply settled_ident|lia].
    + pose proof (peek_nonempty ts ltac:(congruence)) as Ht.
      eapply settled_bind; [apply IHor; lia|].
      intros f' ts' Hl. apply settled_expect; [lia|]. intros. simpl. lia.
Qed.

Lemma length_span p s : (length (span p s).2 <= length s)%nat.
Proof.
  induction s as [|c s IH]; simpl; [done|]. destruct (p c); simpl; [|lia].
  destruct (span p s). simpl in *. lia.
Qed.

Lemma lex_one_shorter ch s t rest : lex_one ch s = Some (t, rest) -> (length rest <= length s)%nat.
Proof.
  unfold lex_one. pose proof (length_tail s) as Ht.
  pose proof (length_span (fun c => negb (c =? ch)) s) as H1.
  pose proof (length_span is_digit s) as H2. pose proof (length_span is_ident_char s) as H3.
  destruct (span (fun c => negb (c =? ch)) s) as [a1 r1], (span is_digit s) as [a2 r2],
    (span is_ident_char s) as [a3 r3]. intros H.
  repeat (case_match; simplify_eq/=; try lia).
Qed.

Lemma tokenize_total fuel s :
  (length s <= fuel)%nat -> exists r, tokenize_loop fuel s = Ret r.
Proof.
  revert s. induction fuel as [|fuel IH]; intros [|ch s] Hl; simpl in *; try lia; eauto.
  destruct (is_space ch); [apply IH; lia|].
  destruct (lex_one ch s) as [[t rest]|] eqn:E; [|eauto].
  pose proof (lex_one_shorter _ _ _ _ E). destruct (IH rest) as [r ->]; [lia|]. simpl. eauto.
Qed.

(** C30: the compiler is total.  On every input, for every slot table and
    whatever the regular-expression library answers, [CompileCondition]
    returns a closure or an error: it neither panics nor recurses for ever. *)
Theorem compile_condition_total expr : exists r, CompileCondition re sm expr = Ret r.
Proof.
  unfold CompileCondition. destruct (TrimSpace expr) as [|c s]; [eexists; reflexivity|].
  destruct (tokenize_total (length (c :: s)) (c :: s)) as [[ts|] E]; [done| |];
    unfold tokenize; rewrite E; cbn [obind]; [|eexists; reflexivity].
  pose proof (proj1 (parse_settled (budget ts)) ts ltac:(unfold budget; lia)) as Hs.
  unfold parseExpr. destruct (parseOr re sm (budget ts) ts) as [[[f rest]|]| |]; try done; simpl.
  - destruct (decide _); eexists; reflexivity.
  - eexists; reflexivity.
Qed.

End total.

(** ** Decimal numbers *)

Lemma is_digit_mod n : is_digit (48 + n mod 10) = true.
Proof.
  unfold is_digit. pose proof (Z.mod_pos_bound n 10 ltac:(lia)).
  apply andb_true_iff. split; apply Z.leb_le; lia.
Qed.

Lemma digits_value_step d s a :
  0 <= d < 10 -> 0 <= a -> a * 10 + d < 2 ^ 64 -> digits_value ((48 + d) :: s) a = digits_value s (a * 10 + d).
Proof.
  intros Hd Ha Hb. cbn [digits_value]. cbv zeta. replace (48 + d - 48) with d by lia.
  rewrite (proj2 (Z.leb_gt 1844674407370955162 a)) by lia.
  rewrite (proj2 (Z.leb_gt (2 ^ 64) (a * 10 + d))) by lia.
  replace (is_digit (48 + d)) with true; [done|].
  symmetry. apply andb_true_iff. split; apply Z.leb_le; lia.
Qed.

Lemma digits_spec fuel n acc :
  0 <= n < 10 ^ Z.of_nat fuel ->
  exists ds, digits fuel n acc = ds ++ acc /\ (fuel <> 0%nat -> ds <> []) /\ forallb is_digit ds = true /\
    forall a, 0 <= a -> a * 10 ^ Z.of_nat (length ds) + n < 2 ^ 64 ->
      digits_value (ds ++ acc) a = digits_value acc (a * 10 ^ Z.of_nat (length ds) + n).
Proof.
  revert n acc. induction fuel as [|fuel IH]; intros n acc Hn.
  { exists []. split; [done|]. split; [done|]. split; [done|]. intros a _ _. simpl. f_equal. simpl in Hn. lia. }
  cbn [digits]. destruct (Z.ltb_spec n 10) as [Hlt|Hge].
  - exists [48 + n mod 10]. split; [done|]. split; [done|].
    split; [cbn [forallb]; by rewrite is_digit_mod|]. rewrite Z.mod_small by lia.
    intros a Ha Hb. cbn [app length] in *. change (10 ^ Z.of_nat 1) with 10 in *. apply digits_value_step; lia.
  - rewrite Nat2Z.inj_succ, Z.pow_succ_r in Hn by lia.
    destruct (IH (n / 10) ((48 + n mod 10) :: acc)) as (ds & E & Hne & Hall & Hv).
    { split; [apply Z.div_pos; lia|]. apply Z.div_lt_upper_bound; lia. }
    exists (ds ++ [48 + n mod 10]). rewrite E, <- app_assoc. split; [done|].
    split; [intros _ []%app_nil; done|].
    split; [rewrite forallb_app, Hall; cbn [forallb]; by rewrite is_digit_mod|].
    intros a Ha. rewrite length_app. cbn [length]. rewrite Nat2Z.inj_add, Z.pow_add_r by lia.
    change (10 ^ Z.of_nat 1) with 10. intros Hb.
    pose proof (Z.div_mod n 10 ltac:(lia)). pose proof (Z.mod_pos_bound n 10 ltac:(lia)).
    pose proof (Z.pow_pos_nonneg 10 (Z.of_nat (length ds)) ltac:(lia) ltac:(lia)) as Hp.
    pose proof (Z.mul_nonneg_nonneg a _ Ha (Z.lt_le_incl _ _ Hp)).
    cbn [app]. rewrite Hv by lia. rewrite digits_value_step by lia. f_equal. lia.
Qed.

Lemma digits_top n :
  0 <= n <= 2 ^ 63 -> exists d ds, digits 20 n [] = d :: ds /\ forallb is_digit (d :: ds) = true /\
    digits_value (d :: ds) 0 = Some n.
Proof.
  intros Hn. destruct (digits_spec 20 n []) as (ds & E & Hne & Hall & Hv); [lia|].
  rewrite app_nil_r in *. destruct ds as [|d ds]; [by destruct Hne|]. exists d, ds.
  split; [done|]. split; [done|]. specialize (Hv 0). rewrite Z.mul_0_l in Hv. rewrite Hv by lia. done.
Qed.

(** A value past 64 bits: it is clamped, even when a byte that is
    no digit follows; a bad byte before that is a syntax error. *)
Example ParseInt_range_before_syntax :
  ParseInt (repeat 57 20 ++ [120]) = (2 ^ 63 - 1, false) /\ ParseInt (45 :: repeat 57 20 ++ [120]) = (- 2 ^ 63, false) /\
  ParseInt (repeat 57 19 ++ [120]) = (0, false) /\ ParseInt (repeat 57 19) = (2 ^ 63 - 1, false).
Proof. repeat split; vm_compute; reflexivity. Qed.

Lemma ParseInt_Itoa z : - 2 ^ 63 <= z < 2 ^ 63 -> ParseInt (Itoa z) = (z, true).
Proof.
  intros Hz. unfold Itoa. destruct (Z.ltb_spec z 0).
  - destruct (digits_top (- z)) as (d & ds & E & _ & Hv); [lia|]. rewrite E.
    unfold ParseInt. rewrite Hv. rewrite (proj2 (Z.leb_le _ _)) by lia. f_equal. lia.
  - destruct (digits_top z) as (d & ds & E & Hall & Hv); [lia|]. rewrite E.
    assert (d <> 45 /\ d <> 43) as [H45 H43].
    { cbn [forallb] in Hall. apply andb_true_iff in Hall as [Hd _]. unfold is_digit in Hd.
      apply andb_true_iff in Hd as [Hd _]. apply Z.leb_le in Hd. lia. }
    unfold ParseInt.
    replace (match d :: ds with 45 :: s' => (true, s') | 43 :: s' => (false, s') | _ => (false, d :: ds) end)
      with (false, d :: ds).
    + rewrite Hv. rewrite (proj2 (Z.ltb_lt _ _)) by lia. done.
    + destruct d as [|p|p]; try done.
      do 6 (destruct p as [p|p|]; try done).
Qed.

(** ** Conditions and their text *)

Inductive cmp : Type := CEq | CNe | CLt | CLe | CGt | CGe.
Inductive pred : Type := PContains | PStartsWith | PEndsWith | PMatches.

Inductive cexp : Type :=
| XOr (a b : cexp)
| XAnd (a b : cexp)
| XNot (a : cexp)
| XTruthy (name : byte_string)
| XStr (name : byte_string) (ne : bool) (s : byte_string)
| XNull (name : byte_string) (ne : bool)
| XNum (name : byte_string) (op : cmp) (z : Z)
| XPred (p : pred) (name arg : byte_string).

Definition cmp_kind (op : cmp) : tokenKind :=
  match op with CEq => tkEq | CNe => tkNe | CLt => tkLt | CLe => tkLe | CGt => tkGt | CGe => tkGe end.

Definition cmp_text (op : cmp) : byte_string :=
  match op with
  | CEq => bytes_of "==" | CNe => bytes_of "!=" | CLt => bytes_of "<" | CLe => bytes_of "<="
  | CGt => bytes_of ">" | CGe => bytes_of ">="
  end.

Definition cmp_fun (op : cmp) (x y : Z) : bool :=
  match op with
  | CEq => x =? y | CNe => negb (x =? y) | CLt => x <? y | CLe => x <=? y | CGt => y <? x | CGe => y <=? x
  end.

Definition pred_name (p : pred) : byte_string :=
  match p with
  | PContains => bytes_of "contains" | PStartsWith => bytes_of "startsWith"
  | PEndsWith => bytes_of "endsWith" | PMatches => bytes_of "matches"
  end.

Definition tok_cmp (op : cmp) : token := mkTok (cmp_kind op) (cmp_text op).
Definition tok_id (s : byte_string) : token := mkTok tkIdent s.
Definition parens (ts : list token) : list token := mkTok tkLParen [40] :: ts ++ [mkTok tkRParen [41]].

(** The tokens of a condition, with parentheses only where the precedence
    level (0 disjunction, 1 conjunction, 2 negation) needs them. *)
Fixpoint toks (lvl : nat) (e : cexp) : list token :=
  match e with
  | XOr a b =>
    let ts := toks 0 a ++ mkTok tkOr [124; 124] :: toks 1 b in
    match lvl with O => ts | _ => parens ts end
  | XAnd a b =>
    let ts := toks 1 a ++ mkTok tkAnd [38; 38] :: toks 2 b in
    match lvl with S (S _) => parens ts | _ => ts end
  | XNot a => mkTok tkNot [33] :: toks 2 a
  | XTruthy n => [tok_id n]
  | XStr n ne s => [tok_id n; tok_cmp (if ne then CNe else CEq); mkTok tkStr s]
  | XNull n ne => [tok_id n; tok_cmp (if ne then CNe else CEq); tok_id (bytes_of "null")]
  | XNum n op z => [tok_id n; tok_cmp op; mkTok tkNum (Itoa z)]
  | XPred p n arg =>
    [tok_id (pred_name p); mkTok tkLParen [40]; tok_id n; mkTok tkComma [44]; mkTok tkStr arg;
     mkTok tkRParen [41]]
  end.

Section meaning.
Context (re : byte_string -> option (byte_string -> bool)) (sm : gmap byte_string nat).

(** What a condition means. *)
Fixpoint ceval (e : cexp) (ctx : CondCtx) : bool :=
  match e with
  | XOr a b => ceval a ctx || ceval b ctx
  | XAnd a b => ceval a ctx && ceval b ctx
  | XNot a => negb (ceval a ctx)
  | XTruthy n => truthiness sm n ctx
  | XStr n ne s => xorb ne (beq (resolveStringReader sm n ctx) s)
  | XNull n ne => xorb ne (match sm !! n with Some idx => slot_empty idx ctx | None => true end)
  | XNum n op z => cmp_fun op (resolveIntReader sm n ctx) z
  | XPred p n arg =>
    let v := resolveStringReader sm n ctx in
    match p with
    | PContains => contains v arg
    | PStartsWith => has_prefix v arg
    | PEndsWith => has_suffix v arg
    | PMatches => match re arg with Some f => f v | None => false end
    end
  end.

(** Identifiers in ASCII that are not predicate names; strings that the lexer
    can quote; 64-bit numbers; regular expressions that compile. *)
Definition ident_ok (n : byte_string) : Prop :=
  match n with
  | [] => False
  | c :: cs => is_ident_start c = true /\ forallb is_ident_char cs = true /\ Forall is_ascii n
  end.

Definition str_ok (s : byte_string) : Prop := forallb (fun c => negb (c =? 34)) s = true.

Fixpoint cexp_ok (e : cexp) : Prop :=
  match e with
  | XOr a b | XAnd a b => cexp_ok a /\ cexp_ok b
  | XNot a => cexp_ok a
  | XTruthy n | XNull n _ => ident_ok n /\ isStringPredicate n = false
  | XStr n _ s => ident_ok n /\ isStringPredicate n = false /\ str_ok s
  | XNum n _ z => ident_ok n /\ isStringPredicate n = false /\ - 2 ^ 63 <= z < 2 ^ 63
  | XPred p n arg => ident_ok n /\ str_ok arg /\ (p = PMatches -> is_Some (re arg))
  end.

(** The unfolding equations of the parser. *)
Lemma parseOr_S n ts :
  parseOr re sm (S n) ts = pbind (parseAnd re sm n ts) (fun x => or_loop re sm n x.1 x.2).
Proof. simpl. destruct (parseAnd re sm n ts) as [[[f r]|]| |]; reflexivity. Qed.

Lemma or_loop_S n l ts :
  or_loop re sm (S n) l ts =
  match kind (peek ts) with
  | tkOr => pbind (parseAnd re sm n (tail ts)) (fun x => or_loop re sm n (fun ctx => l ctx || x.1 ctx) x.2)
  | _ => ok (l, ts)
  end.
Proof.
  simpl. destruct (kind (peek ts)); try reflexivity.
  destruct (parseAnd re sm n (tail ts)) as [[[f r]|]| |]; reflexivity.
Qed.

Lemma parseAnd_S n ts :
  parseAnd re sm (S n) ts = pbind (parseUnary re sm n ts) (fun x => and_loop re sm n x.1 x.2).
Proof. simpl. destruct (parseUnary re sm n ts) as [[[f r]|]| |]; reflexivity. Qed.

Lemma and_loop_S n l ts :
  and_loop re sm (S n) l ts =
  match kind (peek ts) with
  | tkAnd => pbind (parseUnary re sm n (tail ts)) (fun x => and_loop re sm n (fun ctx => l ctx && x.1 ctx) x.2)
  | _ => ok (l, ts)
  end.
Proof.
  simpl. destruct (kind (peek ts)); try reflexivity.
  destruct (parseUnary re sm n (tail ts)) as [[[f r]|]| |]; reflexivity.
Qed.

Lemma parseUnary_S n ts :
  parseUnary re sm (S n) ts =
  match kind (peek ts) with
  | tkNot => pbind (parseUnary re sm n (tail ts)) (fun x => ok (fun ctx => negb (x.1 ctx), x.2))
  | _ => parsePrimary re sm n ts
  end.
Proof.
  simpl. destruct (kind (peek ts)); try reflexivity.
  destruct (parseUnary re sm n (tail ts)) as [[[f r]|]| |]; reflexivity.
Qed.

Lemma parsePrimary_S n ts :
  parsePrimary re sm (S n) ts =
  match kind (peek ts) with
  | tkLParen => pbind (parseOr re sm n (tail ts)) (fun x =>
                pbind (lift (expect tkRParen x.2)) (fun y => ok (x.1, y.2)))
  | tkIdent => parseIdent re sm (val (peek ts)) (tail ts)
  | _ => err
  end.
Proof.
  simpl. destruct (kind (peek ts)); try reflexivity.
  destruct (parseOr re sm n (tail ts)) as [[[f r]|]| |]; try reflexivity. cbn [pbind fst snd].
  unfold lift. destruct (expect tkRParen r) as [[? ?]|]; reflexivity.
Qed.

(** A condition ends before one of these tokens. *)
Definition stop (ts : list token) : Prop :=
  match kind (peek ts) with tkOr | tkAnd | tkRParen | tkEOF => True | _ => False end.

Definition good (f : ConditionFunc) (e : cexp) : Prop := forall ctx, f ctx = ceval e ctx.

Definition unary_ok (e : cexp) : Prop := forall n rest,
  stop rest -> (6 * length (toks 2 e ++ rest) + 2 <= n)%nat ->
  exists f, parseUnary re sm n (toks 2 e ++ rest) = ok (f, rest) /\ good f e.

Definition and_ok (e : cexp) : Prop := forall n rest,
  stop rest -> (6 * length (toks 1 e ++ rest) + 4 <= n)%nat ->
  exists f n', parseAnd re sm n (toks 1 e ++ rest) = and_loop re sm n' f rest /\ good f e /\
    (6 * length rest + 1 <= n')%nat.

Definition or_ok (e : cexp) : Prop := forall n rest,
  stop rest -> kind (peek rest) <> tkAnd -> (6 * length (toks 0 e ++ rest) + 6 <= n)%nat ->
  exists f n', parseOr re sm n (toks 0 e ++ rest) = or_loop re sm n' f rest /\ good f e /\
    (6 * length rest + 1 <= n')%nat.

Lemma and_loop_stop n f ts :
  (1 <= n)%nat -> kind (peek ts) <> tkAnd -> and_loop re sm n f ts = ok (f, ts).
Proof. intros Hn Hk. destruct n; [lia|]. rewrite ?and_loop_S, ?or_loop_S. by destruct (kind (peek ts)). Qed.

Lemma or_loop_stop n f ts :
  (1 <= n)%nat -> kind (peek ts) <> tkOr -> or_loop re sm n f ts = ok (f, ts).
Proof. intros Hn Hk. destruct n; [lia|]. rewrite ?and_loop_S, ?or_loop_S. by destruct (kind (peek ts)). Qed.

Lemma unary_to_and e : toks 1 e = toks 2 e -> unary_ok e -> and_ok e.
Proof.
  intros E Hu n rest Hs Hn. rewrite E in *. destruct n as [|n]; [lia|]. rewrite parseAnd_S.
  destruct (Hu n rest Hs) as (f & -> & Hf); [lia|].
  exists f, n. split; [done|]. split; [done|]. rewrite length_app in Hn. lia.
Qed.

Lemma and_to_or e : toks 0 e = toks 1 e -> and_ok e -> or_ok e.
Proof.
  intros E Ha n rest Hs Hk Hn. rewrite E in *. destruct n as [|n]; [lia|]. rewrite parseOr_S.
  destruct (Ha n rest Hs) as (f & n' & -> & Hf & Hn'); [lia|].
  rewrite and_loop_stop by (lia || done).
  exists f, n. split; [done|]. split; [done|]. rewrite length_app in Hn. lia.
Qed.

Lemma or_to_unary e : toks 2 e = parens (toks 0 e) -> or_ok e -> unary_ok e.
Proof.
  intros E Ho n rest Hs Hn. rewrite E in *. unfold parens in *. cbn [app length] in *.
  rewrite <- app_assoc in *. cbn [app] in *.
  destruct n as [|[|n]]; [lia..|]. rewrite parseUnary_S. cbn [peek head default from_option id kind]. rewrite parsePrimary_S.
  cbn [peek head default from_option id kind tail].
  destruct (Ho n (mkTok tkRParen [41] :: rest)) as (f & n' & -> & Hf & Hn'); [done|done|lia|].
  rewrite or_loop_stop by (done || lia). exists f. done.
Qed.

Lemma leaf_unary e name ts :
  toks 2 e = tok_id name :: ts ->
  (forall rest, stop rest -> exists f, parseIdent re sm name (ts ++ rest) = ok (f, rest) /\ good f e) ->
  unary_ok e.
Proof.
  intros E Hi n rest Hs Hn. rewrite E in *. cbn [app length] in *.
  destruct n as [|[|n]]; [lia..|]. rewrite parseUnary_S. cbn [peek head default from_option id kind tok_id]. rewrite parsePrimary_S.
  cbn [peek head default from_option id kind val tok_id tail].
  by apply Hi.
Qed.

Lemma ident_truthy name : isStringPredicate name = false -> unary_ok (XTruthy name).
Proof.
  intros Hp. apply (leaf_unary _ name []); [done|]. intros rest Hs. cbn [app].
  unfold parseIdent. rewrite Hp. unfold stop in Hs.
  destruct (kind (peek rest)); try done; cbn [is_comparison]; eexists; split; try reflexivity; done.
Qed.

Lemma ident_comparison e name op ts :
  isStringPredicate name = false -> toks 2 e = tok_id name :: tok_cmp op :: ts ->
  (forall rest, exists f, parseComparison sm name (cmp_kind op) (ts ++ rest) = ok (f, rest) /\ good f e) ->
  unary_ok e.
Proof.
  intros Hp E Hc. apply (leaf_unary _ name (tok_cmp op :: ts)); [done|]. intros rest _.
  unfold parseIdent. rewrite Hp. cbn [app peek head default from_option id tok_cmp kind tail].
  replace (is_comparison (cmp_kind op)) with true by (by destruct op). apply Hc.
Qed.

Lemma beq_refl s : beq s s = true.
Proof. unfold beq. by apply bool_decide_eq_true. Qed.

Lemma xnum_unary name op z :
  isStringPredicate name = false -> - 2 ^ 63 <= z < 2 ^ 63 -> unary_ok (XNum name op z).
Proof.
  intros Hp Hz. apply (ident_comparison _ name op [mkTok tkNum (Itoa z)]); [done|done|].
  intros rest. unfold parseComparison. cbn [app peek head default from_option id kind val tail].
  rewrite ParseInt_Itoa by done.
  destruct op; cbn [cmp_kind]; eexists; (split; [reflexivity|]); intros ctx; done.
Qed.

Lemma xstr_unary name ne s : isStringPredicate name = false -> unary_ok (XStr name ne s).
Proof.
  intros Hp. apply (ident_comparison _ name (if ne then CNe else CEq) [mkTok tkStr s]); [done|done|].
  intros rest. unfold parseComparison. cbn [app peek head default from_option id kind val tail].
  destruct ne; cbn [cmp_kind]; eexists; (split; [reflexivity|]); intros ctx; simpl;
    by destruct (beq (resolveStringReader sm name ctx) s).
Qed.

Lemma xnull_unary name ne : isStringPredicate name = false -> unary_ok (XNull name ne).
Proof.
  intros Hp. apply (ident_comparison _ name (if ne then CNe else CEq) [tok_id (bytes_of "null")]); [done|done|].
  intros rest. unfold parseComparison. cbn [app peek head default from_option id kind val tail tok_id].
  rewrite beq_refl. cbn [orb].
  destruct ne; cbn [cmp_kind]; eexists; (split; [reflexivity|]); intros ctx; cbn [ceval];
    destruct (sm !! name) as [idx|]; simpl; try done; by destruct (slot_empty idx ctx).
Qed.

Lemma xpred_unary p name arg : (p = PMatches -> is_Some (re arg)) -> unary_ok (XPred p name arg).
Proof.
  intros Hre. eapply leaf_unary; [reflexivity|]. intros rest _. unfold parseIdent.
  replace (isStringPredicate (pred_name p)) with true by (destruct p; vm_compute; reflexivity).
  unfold parsePredicate, lift, expect, consume, pbind.
  cbn [app peek head default from_option id kind val tail tok_id].
  repeat (rewrite decide_True by done; cbn [peek head default from_option id kind val tail]).
  destruct p.
  - change (beq (pred_name PContains) (bytes_of "contains")) with true.
    eexists; split; [reflexivity|]. done.
  - change (beq (pred_name PStartsWith) (bytes_of "contains")) with false.
    change (beq (pred_name PStartsWith) (bytes_of "startsWith")) with true.
    eexists; split; [reflexivity|]. done.
  - change (beq (pred_name PEndsWith) (bytes_of "contains")) with false.
    change (beq (pred_name PEndsWith) (bytes_of "startsWith")) with false.
    change (beq (pred_name PEndsWith) (bytes_of "endsWith")) with true.
    eexists; split; [reflexivity|]. done.
  - change (beq (pred_name PMatches) (bytes_of "contains")) with false.
    change (beq (pred_name PMatches) (bytes_of "startsWith")) with false.
    change (beq (pred_name PMatches) (bytes_of "endsWith")) with false.
    destruct (Hre eq_refl) as [f Ef]. rewrite Ef.
    eexists; split; [reflexivity|]. intros ctx. cbn [ceval]. by rewrite Ef.
Qed.

Lemma or_or a b : or_ok a -> and_ok b -> or_ok (XOr a b).
Proof.
  intros Ha Hb n rest Hs Hk Hn. cbn [toks] in *. rewrite <- app_assoc in *. cbn [app] in *.
  destruct (Ha n (mkTok tkOr [124; 124] :: toks 1 b ++ rest)) as (fa & n1 & -> & Hfa & Hn1);
    [done|done|done|].
  destruct n1 as [|n1]; [lia|]. rewrite or_loop_S. cbn [peek head default from_option id kind tail]. cbn [length] in Hn1.
  destruct (Hb n1 rest Hs) as (fb & n2 & -> & Hfb & Hn2); [lia|].
  rewrite and_loop_stop by (lia || done). cbn [pbind ok].
  eexists _, n1. split; [reflexivity|]. split; [intros ctx; cbn [ceval]; by rewrite Hfa, Hfb|].
  rewrite length_app in Hn1. lia.
Qed.

Lemma and_and a b : and_ok a -> unary_ok b -> and_ok (XAnd a b).
Proof.
  intros Ha Hb n rest Hs Hn. cbn [toks] in *. rewrite <- app_assoc in *. cbn [app] in *.
  destruct (Ha n (mkTok tkAnd [38; 38] :: toks 2 b ++ rest)) as (fa & n1 & -> & Hfa & Hn1);
    [done|done|].
  destruct n1 as [|n1]; [lia|]. rewrite and_loop_S. cbn [peek head default from_option id kind tail]. cbn [length] in Hn1.
  destruct (Hb n1 rest Hs) as (fb & -> & Hfb); [lia|]. cbn [pbind ok].
  eexists _, n1. split; [reflexivity|]. split; [intros ctx; cbn [ceval]; by rewrite Hfa, Hfb|].
  rewrite length_app in Hn1. lia.
Qed.

Lemma parse_ok e : cexp_ok e -> unary_ok e /\ and_ok e /\ or_ok e.
Proof.
  assert (forall e, toks 0 e = toks 1 e -> toks 1 e = toks 2 e -> unary_ok e ->
            unary_ok e /\ and_ok e /\ or_ok e) as Hleaf.
  { intros e0 E0 E1 Hu. pose proof (unary_to_and e0 E1 Hu) as Ha. auto using and_to_or. }
  induction e as [a IHa b IHb|a IHa b IHb|a IHa|n|n ne s|n ne|n op z|p n arg]; intros Hok; cbn [cexp_ok] in Hok.
  - destruct Hok as [Ha Hb]. destruct (IHa Ha) as (_ & _ & Hoa). destruct (IHb Hb) as (_ & Hab & _).
    pose proof (or_or a b Hoa Hab) as Ho. pose proof (or_to_unary (XOr a b) eq_refl Ho) as Hu.
    auto using unary_to_and.
  - destruct Hok as [Ha Hb]. destruct (IHa Ha) as (_ & Haa & _). destruct (IHb Hb) as (Hub & _ & _).
    pose proof (and_and a b Haa Hub) as Han. pose proof (and_to_or (XAnd a b) eq_refl Han) as Ho.
    pose proof (or_to_unary (XAnd a b) eq_refl Ho) as Hu. auto.
  - apply Hleaf; [done|done|]. destruct (IHa Hok) as (Hu & _ & _).
    intros n rest Hs Hn. cbn [toks app length] in *.
    destruct n as [|n]; [lia|]. rewrite parseUnary_S. cbn [peek head default from_option id kind tail].
    destruct (Hu n rest Hs) as (f & -> & Hf); [lia|]. cbn [pbind ok].
    eexists; split; [reflexivity|]. intros ctx. cbn [ceval]. by rewrite Hf.
  - apply Hleaf; [done|done|]. apply ident_truthy. tauto.
  - apply Hleaf; [done|done|]. apply xstr_unary. tauto.
  - apply Hleaf; [done|done|]. apply xnull_unary. tauto.
  - apply Hleaf; [done|done|]. destruct Hok as (_ & Hp & Hz). by apply xnum_unary.
  - apply Hleaf; [done|done|]. apply xpred_unary. tauto.
Qed.

Lemma parse_toks e :
  cexp_ok e -> exists f, parseExpr re sm (budget (toks 0 e ++ [tok_eof])) (toks 0 e ++ [tok_eof]) = ok (f, [tok_eof]) /\
    good f e.
Proof.
  intros Hok. destruct (parse_ok e Hok) as (_ & _ & Ho). unfold parseExpr, budget.
  destruct (Ho _ [tok_eof] I ltac:(done) (le_n _)) as (f & n' & -> & Hf & Hn').
  rewrite or_loop_stop by (done || lia). by exists f.
Qed.

End meaning.

(** ** Text *)

(** The text of a token, and of a list of tokens separated by spaces. *)
Definition text (t : token) : byte_string :=
  match kind t with tkStr => 34 :: val t ++ [34] | _ => val t end.

Fixpoint render (ts : list token) : byte_string :=
  match ts with
  | [] => []
  | [t] => text t
  | t :: ts' => text t ++ 32 :: render ts'
  end.

Definition num_ok (s : byte_string) : Prop :=
  match s with
  | [] => False
  | c :: ds => forallb is_digit ds = true /\ (is_digit c = true \/ c = 45 /\ ds <> [])
  end.

Definition tok_ok (t : token) : Prop :=
  match kind t with
  | tkIdent => ident_ok (val t)
  | tkStr => str_ok (val t)
  | tkNum => num_ok (val t)
  | tkEOF => False
  | k => val t = match k with
                 | tkAnd => [38; 38] | tkOr => [124; 124] | tkNot => [33] | tkEq => [61; 61]
                 | tkNe => [33; 61] | tkLt => [60] | tkLe => [60; 61] | tkGt => [62] | tkGe => [62; 61]
                 | tkLParen => [40] | tkRParen => [41] | _ => [44]
                 end
  end.

(** What may follow a token. *)
Definition sep (rest : byte_string) : Prop := rest = [] \/ exists r, rest = 32 :: r.

Lemma span_all p s rest :
  forallb p s = true -> (forall r, rest <> 32 :: r \/ p 32 = false) -> sep rest ->
  span p (s ++ rest) = (s, rest).
Proof.
  intros Hs H32 Hsep. induction s as [|c s IH]; simpl in *.
  - destruct Hsep as [->|[r ->]]; [done|]. simpl. destruct (H32 r) as [?| ->]; done.
  - apply andb_true_iff in Hs as [-> Hs]. by rewrite IH.
Qed.

Lemma span_str s rest :
  str_ok s -> span (fun c => negb (c =? 34)) (s ++ 34 :: rest) = (s, 34 :: rest).
Proof.
  unfold str_ok. intros Hs. induction s as [|c s IH]; simpl in *; [done|].
  apply andb_true_iff in Hs as [-> Hs]. by rewrite IH.
Qed.

(** A byte that no space and no operator starts with. *)
Definition ident_byte (c : Z) : bool := (c =? 95) || ((65 <=? c) && (c <=? 90)) || ((97 <=? c) && (c <=? 122)).

Lemma ident_start_ascii c : is_ident_start c = true -> is_ascii c -> ident_byte c = true.
Proof.
  unfold is_ident_start, is_letter, ident_byte, is_ascii. intros H Ha.
  destruct (Z.eqb_spec c 95); [done|]. simpl in *.
  repeat (apply orb_true_iff in H as [H|H]); try (apply andb_true_iff in H as [H1 H2]);
    rewrite ?orb_true_iff, ?andb_true_iff; rewrite ?Z.leb_le, ?Z.eqb_eq in *; lia.
Qed.

Lemma lex_ident c cs rest :
  ident_byte c = true -> forallb is_ident_char cs = true -> sep rest ->
  is_space c = false /\ lex_one c (cs ++ rest) = Some (mkTok tkIdent (c :: cs), rest).
Proof.
  intros Hc Hcs Hsep.
  assert (95 = c \/ 65 <= c <= 90 \/ 97 <= c <= 122) as Hr.
  { unfold ident_byte in Hc. rewrite !orb_true_iff, !andb_true_iff, !Z.leb_le, Z.eqb_eq in Hc. lia. }
  split.
  { unfold is_space. repeat (rewrite (proj2 (Z.eqb_neq c _)) by lia). done. }
  unfold lex_one. repeat (rewrite (proj2 (Z.eqb_neq c _)) by lia). cbn [andb orb].
  replace (is_digit c) with false by
    (unfold is_digit; destruct (Z.leb_spec 48 c), (Z.leb_spec c 57); simpl; lia || done).
  cbn [orb]. replace (is_ident_start c) with true.
  - rewrite span_all; [done|done|by right|done].
  - unfold is_ident_start, is_letter. unfold ident_byte in Hc.
    destruct (c =? 95); [done|]. simpl in *. symmetry. apply orb_true_iff in Hc as [Hc|Hc]; rewrite Hc; cbn [orb]; rewrite ?orb_true_r; done.
Qed.

Lemma lex_num c ds rest :
  num_ok (c :: ds) -> sep rest ->
  is_space c = false /\ lex_one c (ds ++ rest) = Some (mkTok tkNum (c :: ds), rest).
Proof.
  intros [Hds Hc] Hsep.
  assert (48 <= c <= 57 \/ c = 45) as Hr.
  { destruct Hc as [Hc|[-> _]]; [left|by right]. unfold is_digit in Hc.
    apply andb_true_iff in Hc as [?%Z.leb_le ?%Z.leb_le]. lia. }
  split.
  { unfold is_space. repeat (rewrite (proj2 (Z.eqb_neq c _)) by lia). done. }
  unfold lex_one.
  repeat (rewrite (proj2 (Z.eqb_neq c 38)), (proj2 (Z.eqb_neq c 124)), (proj2 (Z.eqb_neq c 33)),
    (proj2 (Z.eqb_neq c 61)), (proj2 (Z.eqb_neq c 60)), (proj2 (Z.eqb_neq c 62)),
    (proj2 (Z.eqb_neq c 40)), (proj2 (Z.eqb_neq c 41)), (proj2 (Z.eqb_neq c 44)),
    (proj2 (Z.eqb_neq c 34)), (proj2 (Z.eqb_neq c 39)) by lia).
  cbn [andb orb]. replace (is_digit c || _) with true.
  - rewrite span_all; [done|done|by right|done].
  - symmetry. destruct Hc as [->|[-> Hne]]; [done|]. destruct ds as [|d ds]; [done|].
    cbn [forallb] in Hds. apply andb_true_iff in Hds as [Hd _]. simpl. by rewrite Hd.
Qed.

(** The lexer reads back one token. *)
Lemma lex_text t rest :
  tok_ok t -> sep rest ->
  exists ch s, text t ++ rest = ch :: s /\ is_space ch = false /\ lex_one ch s = Some (t, rest).
Proof.
  destruct t as [k v]. unfold tok_ok, text. cbn [kind val]. intros Hok Hsep.
  destruct k; cbn in Hok; try done;
    try (subst v; eexists _, _; split; [reflexivity|]; split; [reflexivity|];
         destruct Hsep as [->|[r ->]]; reflexivity).
  - destruct v as [|c cs]; [done|]. destruct Hok as (Hc & Hcs & Ha).
    eexists _, _. split; [reflexivity|]. inversion Ha. apply lex_ident; [|done|done].
    by apply ident_start_ascii.
  - eexists _, _. cbn [app]. rewrite <- app_assoc. cbn [app]. split; [reflexivity|]. split; [reflexivity|].
    unfold lex_one. cbn [Z.eqb Pos.eqb andb orb]. by rewrite span_str.
  - destruct v as [|c ds]; [done|]. eexists _, _. split; [reflexivity|]. by apply lex_num.
Qed.

Lemma render_cons t ts :
  exists rest, render (t :: ts) = text t ++ rest /\ sep rest /\
    (ts = [] /\ rest = [] \/ ts <> [] /\ rest = 32 :: render ts).
Proof.
  destruct ts as [|t' ts].
  - exists []. split; [cbn; by rewrite app_nil_r|]. split; [by left|]. by left.
  - exists (32 :: render (t' :: ts)). split; [done|]. split; [right; eauto|]. by right.
Qed.

Lemma tokenize_render ts fuel :
  Forall tok_ok ts -> (length (render ts) <= fuel)%nat ->
  tokenize_loop fuel (render ts) = Ret (Some (ts ++ [tok_eof])).
Proof.
  intros Hok. revert fuel. induction Hok as [|t ts Ht Hts IH]; intros fuel Hl.
  { by destruct fuel. }
  destruct (render_cons t ts) as (rest & E & Hsep & Hrest). rewrite E in *.
  destruct (lex_text t rest Ht Hsep) as (ch & s & Etxt & Hsp & Hlex). rewrite Etxt in *.
  destruct fuel as [|fuel]; [cbn in Hl; lia|]. cbn [tokenize_loop]. rewrite Hsp, Hlex.
  pose proof (lex_one_shorter _ _ _ _ Hlex) as Hshort. cbn [length] in Hl.
  destruct Hrest as [[-> ->]|[Hne ->]].
  - by destruct fuel.
  - destruct fuel as [|fuel]; [cbn in Hshort; lia|]. cbn [tokenize_loop].
    change (is_space 32) with true. cbn [length] in Hshort. rewrite IH by lia. done.
Qed.

(** Trimming leaves text alone that starts and ends with a plain byte. *)
Definition plain (c : Z) : Prop := 33 <= c < 128.

Lemma trim_plain fuel sp c s :
  plain c -> Forall (fun p => match p with h :: _ => h < 33 \/ 128 <= h | [] => False end) sp ->
  trim_left fuel sp (c :: s) = c :: s.
Proof.
  intros Hc Hsp. destruct fuel; [done|]. cbn [trim_left].
  rewrite (proj2 (list_find_None _ sp)); [done|].
  eapply Forall_impl; [exact Hsp|]. intros [|h p] Hh; [done|]. cbn [has_prefix].
  unfold plain in Hc. rewrite (proj2 (Z.eqb_neq h c)) by lia. done.
Qed.

Lemma TrimSpace_plain s c c' :
  plain c -> plain c' -> head s = Some c -> last s = Some c' -> TrimSpace s = s.
Proof.
  intros Hc Hc' Hh Hl. unfold TrimSpace. destruct s as [|x s]; [done|]. injection Hh as ->.
  rewrite trim_plain; [|done|repeat (constructor; [lia|]); constructor].
  apply last_Some in Hl as [l' El]. rewrite El, reverse_app. cbn [reverse app].
  change (reverse [c']) with [c']. cbn [app].
  rewrite trim_plain; [|done|repeat (constructor; [vm_compute; intuition congruence|]); constructor].
  by rewrite reverse_cons, reverse_involutive.
Qed.

Lemma ident_char_plain c : is_ident_char c = true -> is_ascii c -> plain c.
Proof.
  unfold is_ident_char, is_letter, is_digit, is_ascii, plain. intros H Ha.
  repeat (apply orb_true_iff in H as [H|H]); try (apply andb_true_iff in H as [H1 H2]);
    rewrite ?Z.leb_le, ?Z.eqb_eq in *; lia.
Qed.

Lemma digit_plain c : is_digit c = true -> plain c.
Proof. unfold is_digit, plain. rewrite andb_true_iff, !Z.leb_le. lia. Qed.

Lemma forallb_last p (l : byte_string) c : forallb p l = true -> last l = Some c -> p c = true.
Proof.
  intros Hl [l' ->]%last_Some. rewrite forallb_app in Hl. apply andb_true_iff in Hl as [_ Hc].
  cbn [forallb] in Hc. by rewrite andb_true_r in Hc.
Qed.

Lemma text_ends t :
  tok_ok t -> exists c c', head (text t) = Some c /\ last (text t) = Some c' /\ plain c /\ plain c'.
Proof.
  destruct t as [k v]. unfold tok_ok, text. cbn [kind val]. intros Hok.
  destruct k; cbn in Hok; try done;
    try (subst v; eexists _, _; split; [reflexivity|]; split; [reflexivity|]; split; vm_compute; intuition congruence).
  - destruct v as [|c cs]; [done|]. destruct Hok as (Hc & Hcs & Ha).
    destruct (last (c :: cs)) as [c'|] eqn:El; [|by apply last_None in El].
    exists c, c'. split; [done|]. split; [done|].
    assert (is_ident_char c = true) as Hc1.
    { unfold is_ident_start in Hc. unfold is_ident_char. apply orb_true_iff in Hc as [-> | ->];
        rewrite ?orb_true_r; done. }
    pose proof (proj1 (Forall_forall _ _) Ha) as Ha'.
    split; [apply ident_char_plain; [done|apply Ha'; left]|].
    apply ident_char_plain.
    + apply (forallb_last is_ident_char (c :: cs)); [cbn [forallb]; by rewrite Hc1|done].
    + apply Ha'. apply last_Some in El as [l' ->]. set_solver.
  - exists 34, 34. split; [done|]. split; [by rewrite app_comm_cons, last_snoc|]. split; vm_compute; intuition congruence.
  - destruct v as [|c ds]; [done|]. destruct Hok as [Hds Hc].
    assert (plain c) as Hpc by (destruct Hc as [?%digit_plain|[-> _]]; [done|split; vm_compute; congruence]).
    destruct (last (c :: ds)) as [c'|] eqn:El; [|by apply last_None in El].
    exists c, c'. split; [done|]. split; [done|]. split; [done|].
    destruct ds as [|d ds]; [by injection El as <-|]. rewrite last_cons_cons in El.
    apply digit_plain. by apply (forallb_last is_digit (d :: ds)).
Qed.

Lemma render_ends ts :
  Forall tok_ok ts -> ts <> [] ->
  exists c c', head (render ts) = Some c /\ last (render ts) = Some c' /\ plain c /\ plain c'.
Proof.
  intros Hok. induction Hok as [|t ts Ht Hts IH]; [done|]. intros _.
  destruct (text_ends t Ht) as (c & c' & Hh & Hl & Hc & Hc').
  destruct (render_cons t ts) as (rest & E & _ & [[-> ->]|[Hne ->]]); rewrite E.
  - rewrite app_nil_r. by exists c, c'.
  - destruct (IH Hne) as (d & d' & _ & Hl' & _ & Hd'). exists c, d'.
    split; [destruct (text t); [done|exact Hh]|]. split; [|done].
    rewrite last_app, last_cons, Hl'. done.
Qed.

Lemma num_ok_Itoa z : - 2 ^ 63 <= z < 2 ^ 63 -> num_ok (Itoa z).
Proof.
  intros Hz. unfold Itoa. destruct (Z.ltb_spec z 0).
  - destruct (digits_top (- z)) as (d & ds & -> & Hall & _); [lia|]. split; [done|]. by right.
  - destruct (digits_top z) as (d & ds & -> & Hall & _); [lia|].
    cbn [forallb] in Hall. apply andb_true_iff in Hall as [Hd Hds]. split; [done|]. by left.
Qed.

Lemma cmp_tok_ok op : tok_ok (tok_cmp op).
Proof. by destruct op. Qed.

Lemma const_ident_ok s :
  match s with c :: cs => is_ident_start c && forallb is_ident_char cs && forallb (fun x => (0 <=? x) && (x <? 128)) s
             | [] => false end = true -> tok_ok (tok_id s).
Proof.
  destruct s as [|c cs]; [done|]. rewrite !andb_true_iff. intros [[Hc Hcs] Ha].
  change (ident_ok (c :: cs)). split; [done|]. split; [done|].
  apply Forall_forall. intros x Hx. rewrite forallb_forall in Ha. apply list_elem_of_In in Hx.
  specialize (Ha x Hx). apply andb_true_iff in Ha as [?%Z.leb_le ?%Z.ltb_lt]. done.
Qed.

Lemma parens_ok ts : Forall tok_ok ts -> Forall tok_ok (parens ts).
Proof. intros H. unfold parens. constructor; [done|]. apply Forall_app. split; [done|]. by repeat constructor. Qed.

Lemma toks_ok re e lvl : cexp_ok re e -> Forall tok_ok (toks lvl e).
Proof.
  revert lvl. induction e as [a IHa b IHb|a IHa b IHb|a IHa|n|n ne s|n ne|n op z|p n arg];
    intros lvl Hok; cbn [cexp_ok toks] in *.
  - destruct Hok as [Ha Hb].
    assert (Forall tok_ok (toks 0 a ++ mkTok tkOr [124; 124] :: toks 1 b)) as H.
    { apply Forall_app. split; [by apply IHa|]. constructor; [done|]. by apply IHb. }
    destruct lvl; [done|by apply parens_ok].
  - destruct Hok as [Ha Hb].
    assert (Forall tok_ok (toks 1 a ++ mkTok tkAnd [38; 38] :: toks 2 b)) as H.
    { apply Forall_app. split; [by apply IHa|]. constructor; [done|]. by apply IHb. }
    destruct lvl as [|[|?]]; [done|done|by apply parens_ok].
  - constructor; [done|]. by apply IHa.
  - constructor; [|done]. by destruct Hok.
  - destruct Hok as (Hn & _ & Hs). constructor; [done|]. constructor; [apply cmp_tok_ok|]. constructor; done.
  - destruct Hok as (Hn & _). constructor; [done|]. constructor; [apply cmp_tok_ok|].
    constructor; [|done]. apply const_ident_ok. vm_compute. reflexivity.
  - destruct Hok as (Hn & _ & Hz). constructor; [done|]. constructor; [apply cmp_tok_ok|].
    constructor; [|done]. by apply num_ok_Itoa.
  - destruct Hok as (Hn & Hs & _).
    constructor; [apply const_ident_ok; destruct p; vm_compute; reflexivity|].
    by repeat (constructor; [done|]).
Qed.

Lemma toks_nonempty lvl e : toks lvl e <> [].
Proof.
  destruct e; cbn [toks]; try done.
  - by destruct (toks 0 e1), lvl.
  - by destruct (toks 1 e1), lvl as [|[|?]].
Qed.

(** Printing any condition with only the parentheses its precedences need and
    compiling the text gives a closure that evaluates the condition. *)
Lemma compile_render re sm e :
  cexp_ok re e ->
  exists f, CompileCondition re sm (render (toks 0 e)) = Ret (Some f) /\
    forall ctx, f ctx = ceval re sm e ctx.
Proof.
  intros Hok. pose proof (toks_ok re e 0 Hok) as Hts.
  destruct (render_ends (toks 0 e) Hts (toks_nonempty 0 e)) as (c & c' & Hh & Hl & Hc & Hc').
  unfold CompileCondition. rewrite (TrimSpace_plain _ c c') by done.
  unfold tokenize. rewrite (tokenize_render (toks 0 e)) by done.
  destruct (render (toks 0 e)) as [|x s]; [done|]. cbn [obind].
  destruct (parse_toks re sm e Hok) as (f & -> & Hf). cbn [pbind ok peek head default from_option id].
  exists f. split; [|exact Hf]. rewrite decide_True by done. done.
Qed.

(** ** What a condition says about a request

    Conditions over operands, with a meaning stated on the request itself: the
    response status, the method, the path and the values of the flow's
    variables.  Nothing below mentions the compiler's readers. *)

Inductive operand : Type := OStatus | OMethod | OPath | OVar (prefixed : bool) (name : byte_string).

Inductive cond : Type :=
| KOr (a b : cond)
| KAnd (a b : cond)
| KNot (a : cond)
| KTrue (o : operand)
| KText (o : operand) (ne : bool) (s : byte_string)
| KNull (name : byte_string) (ne : bool)
| KNum (o : operand) (op : cmp) (z : Z)
| KPred (p : pred) (o : operand) (arg : byte_string).

Definition slot_dot : byte_string := bytes_of "slot.".

(** How an operand is written. *)
Definition oname (o : operand) : byte_string :=
  match o with
  | OStatus => bytes_of "status" | OMethod => bytes_of "method" | OPath => bytes_of "path"
  | OVar pre n => if pre then slot_dot ++ n else n
  end.

Fixpoint core (e : cond) : cexp :=
  match e with
  | KOr a b => XOr (core a) (core b)
  | KAnd a b => XAnd (core a) (core b)
  | KNot a => XNot (core a)
  | KTrue o => XTruthy (oname o)
  | KText o ne s => XStr (oname o) ne s
  | KNull n ne => XNull n ne
  | KNum o op z => XNum (oname o) op z
  | KPred p o arg => XPred p (oname o) arg
  end.

Definition cond_text (e : cond) : byte_string := render (toks 0 (core e)).

Section holds.
Context (re : byte_string -> option (byte_string -> bool)) (sm : gmap byte_string nat).

(** The text of an operand: a variable that has no slot, or whose slot the
    request does not hold, is empty. *)
Definition otext (o : operand) (ctx : CondCtx) : byte_string :=
  match o with
  | OStatus => Itoa (ResponseStatus ctx)
  | OMethod => Method ctx
  | OPath => Path ctx
  | OVar _ n => default [] (sm !! n ≫= fun i => ByteSlots ctx !! i)
  end.

(** The number an operand stands for: what [strconv.ParseInt] makes of its text
    (0 when it is no number, the nearest 64-bit number out of range). *)
Definition onum (o : operand) (ctx : CondCtx) : Z :=
  match o with OStatus => ResponseStatus ctx | _ => (ParseInt (otext o ctx)).1 end.

Definition compares (op : cmp) (x y : Z) : Prop :=
  match op with CEq => x = y | CNe => x <> y | CLt => x < y | CLe => x <= y | CGt => x > y | CGe => x >= y end.

Fixpoint holds (e : cond) (ctx : CondCtx) : Prop :=
  match e with
  | KOr a b => holds a ctx \/ holds b ctx
  | KAnd a b => holds a ctx /\ holds b ctx
  | KNot a => ~ holds a ctx
  | KTrue OStatus => ResponseStatus ctx <> 0
  | KTrue o => otext o ctx <> []
  | KText o ne s => if ne then otext o ctx <> s else otext o ctx = s
  | KNull n ne => if ne then otext (OVar false n) ctx <> [] else otext (OVar false n) ctx = []
  | KNum o op z => compares op (onum o ctx) z
  | KPred PContains o arg => exists u v, otext o ctx = u ++ arg ++ v
  | KPred PStartsWith o arg => exists v, otext o ctx = arg ++ v
  | KPred PEndsWith o arg => exists u, otext o ctx = u ++ arg
  | KPred PMatches o arg => match re arg with Some f => f (otext o ctx) = true | None => False end
  end.

(** Variables are identifiers that are neither a predicate's name nor one of
    the request's own fields, and do not themselves start with [slot.]. *)
Definition var_ok (n : byte_string) : Prop :=
  ident_ok n /\ isStringPredicate n = false /\ has_prefix n slot_dot = false /\
  n <> bytes_of "status" /\ n <> bytes_of "method" /\ n <> bytes_of "path".

Definition operand_ok (o : operand) : Prop := match o with OVar _ n => var_ok n | _ => True end.

(** Numbers are compared with the status or a variable. *)
Definition numeric (o : operand) : Prop := match o with OStatus | OVar _ _ => True | _ => False end.

Fixpoint cond_ok (e : cond) : Prop :=
  match e with
  | KOr a b | KAnd a b => cond_ok a /\ cond_ok b
  | KNot a => cond_ok a
  | KTrue o => operand_ok o
  | KText o _ s => operand_ok o /\ str_ok s
  | KNull n _ => var_ok n
  | KNum o _ z => operand_ok o /\ numeric o /\ - 2 ^ 63 <= z < 2 ^ 63
  | KPred p o arg => operand_ok o /\ str_ok arg /\ (p = PMatches -> is_Some (re arg))
  end.

End holds.

Lemma beq_iff a b : beq a b = true <-> a = b.
Proof. apply bool_decide_eq_true. Qed.

Lemma has_prefix_spec p s : has_prefix s p = true <-> exists v, s = p ++ v.
Proof.
  revert s. induction p as [|x p IH]; intros s.
  { split; [by exists s|]. by destruct s. }
  destruct s as [|y s]; [split; [done|by intros (? & ?)]|]. cbn [has_prefix].
  rewrite andb_true_iff, Z.eqb_eq, IH. split; [intros (-> & v & ->); by exists v|intros (v & [= -> ->]); eauto].
Qed.

Lemma has_suffix_spec p s : has_suffix s p = true <-> exists u, s = u ++ p.
Proof.
  unfold has_suffix. rewrite has_prefix_spec. split; intros (v & E); exists (reverse v).
  - apply (f_equal reverse) in E. by rewrite reverse_app, !reverse_involutive in E.
  - by rewrite E, reverse_app.
Qed.

Lemma contains_spec p s : contains s p = true <-> exists u v, s = u ++ p ++ v.
Proof.
  induction s as [|y s IH]; cbn [contains]; rewrite orb_true_iff, has_prefix_spec.
  - split; [intros [(v & E)|?]; [by exists [], v|done]|]. intros (u & v & E). left.
    symmetry in E. apply app_nil in E as [-> E]. by exists v.
  - rewrite IH. split.
    + intros [(v & E)|(u & v & ->)]; [by exists [], v|by exists (y :: u), v].
    + intros ([|x u] & v & E); [left; by exists v|]. injection E as <- ->. right. by exists u, v.
Qed.

(** The compiler's readers give the operand's text, number and truth. *)
Lemma strip_slot_var pre n : has_prefix n slot_dot = false -> strip_slot (oname (OVar pre n)) = n.
Proof.
  intros H. unfold strip_slot, cut_prefix. fold slot_dot. destruct pre; cbn [oname].
  - rewrite (proj2 (has_prefix_spec _ _)) by by exists n. by rewrite drop_app_length.
  - by rewrite H.
Qed.

Lemma beq_no a b : a <> b -> beq a b = false.
Proof. intros H. by apply bool_decide_eq_false. Qed.

Lemma string_reader sm o ctx : operand_ok o -> resolveStringReader sm (oname o) ctx = otext sm o ctx.
Proof.
  destruct o as [| | |pre n]; [done..|]. intros (_ & _ & Hp & Hs & Hm & Hh). unfold resolveStringReader.
  rewrite strip_slot_var by done. rewrite !beq_no by done. cbn [otext]. by destruct (sm !! n).
Qed.

Lemma int_reader sm o ctx :
  operand_ok o -> numeric o -> - 2 ^ 63 <= ResponseStatus ctx < 2 ^ 63 -> resolveIntReader sm (oname o) ctx = onum sm o ctx.
Proof.
  intros Ho Hn Hs. destruct o as [| | |pre n]; try done.
  - change (i64 (ResponseStatus ctx) = ResponseStatus ctx). by apply wraps_small.
  - destruct Ho as (_ & _ & Hp & Hs' & _ & _). unfold resolveIntReader. rewrite strip_slot_var by done.
    rewrite beq_no by done. cbn [onum otext]. destruct (sm !! n) as [i|]; [|done]. cbn. by destruct (ByteSlots ctx !! i).
Qed.

Lemma slot_empty_iff i ctx : slot_empty i ctx = true <-> default [] (ByteSlots ctx !! i) = [].
Proof. unfold slot_empty. by destruct (ByteSlots ctx !! i) as [[|? ?]|]. Qed.
Lemma truth_reader sm o ctx : operand_ok o -> truthiness sm (oname o) ctx = true <-> holds (fun _ => None) sm (KTrue o) ctx.
Proof.
  destruct o as [| | |pre n]; intros Ho; cbn [holds otext].
  - change (negb (ResponseStatus ctx =? 0) = true <-> ResponseStatus ctx <> 0). rewrite negb_true_iff. by rewrite Z.eqb_neq.
  - change (negb (beq (Method ctx) []) = true <-> Method ctx <> []). rewrite negb_true_iff, <- beq_iff. by destruct (beq _ _).
  - change (negb (beq (Path ctx) []) = true <-> Path ctx <> []). rewrite negb_true_iff, <- beq_iff. by destruct (beq _ _).
  - destruct Ho as (_ & _ & Hp & Hs & Hm & Hh). unfold truthiness. rewrite strip_slot_var by done.
    rewrite !beq_no by done. destruct (sm !! n) as [i|]; [|done]. cbn [mbind option_bind].
    rewrite negb_true_iff, <- slot_empty_iff. by destruct (slot_empty i ctx).
Qed.

Lemma null_reader sm n ctx :
  match sm !! n with Some idx => slot_empty idx ctx | None => true end = true <-> otext sm (OVar false n) ctx = [].
Proof. cbn [otext]. destruct (sm !! n) as [i|]; [apply slot_empty_iff|done]. Qed.

Lemma cmp_fun_iff op x y : cmp_fun op x y = true <-> compares op x y.
Proof. destruct op; cbn [cmp_fun compares]; rewrite ?negb_true_iff, ?Z.eqb_neq, ?Z.eqb_eq, ?Z.ltb_lt, ?Z.leb_le; lia. Qed.

Lemma xorb_iff ne b (P : Prop) : (b = true <-> P) -> xorb ne b = true <-> (if ne then ~ P else P).
Proof. intros [H1 H2]. destruct ne, b; cbn; intuition congruence. Qed.

Lemma pred_holds re sm p o arg ctx :
  operand_ok o -> ceval re sm (XPred p (oname o) arg) ctx = true <-> holds re sm (KPred p o arg) ctx.
Proof.
  intros Ho. cbn [ceval]. rewrite string_reader by done.
  destruct p; [apply contains_spec|apply has_prefix_spec|apply has_suffix_spec|]. cbn [holds]. by destruct (re arg).
Qed.

Lemma ceval_holds re sm e ctx :
  cond_ok re e -> - 2 ^ 63 <= ResponseStatus ctx < 2 ^ 63 -> ceval re sm (core e) ctx = true <-> holds re sm e ctx.
Proof.
  intros Hok Hs. induction e as [a IHa b IHb|a IHa b IHb|a IHa|o|o ne s|n ne|o op z|p o arg]; cbn [cond_ok] in Hok; cbn [core].
  - destruct Hok. cbn [ceval holds]. by rewrite orb_true_iff, IHa, IHb.
  - destruct Hok. cbn [ceval holds]. by rewrite andb_true_iff, IHa, IHb.
  - cbn [ceval holds]. rewrite <- IHa by done. by destruct (ceval re sm (core a) ctx).
  - by apply truth_reader.
  - cbn [ceval holds]. rewrite string_reader by apply Hok. by apply (xorb_iff ne), beq_iff.
  - cbn [ceval]. by apply (xorb_iff ne), null_reader.
  - cbn [ceval holds]. rewrite int_reader by apply Hok || done. apply cmp_fun_iff.
  - destruct Hok as [Ho _]. exact (pred_holds re sm p o arg ctx Ho).
Qed.

Lemma ident_ok_prefixed n : ident_ok n -> ident_ok (slot_dot ++ n).
Proof.
  destruct n as [|c cs]; [done|]. intros (Hc & Hcs & Ha). split; [done|]. split.
  - change (forallb is_ident_char (tail slot_dot ++ c :: cs) = true). rewrite forallb_app. apply andb_true_iff. split; [done|].
    cbn [forallb]. rewrite Hcs, andb_true_r. revert Hc. unfold is_ident_start, is_ident_char.
    destruct (c =? 95), (is_letter c); rewrite ?orb_true_r; done.
  - apply Forall_app. split; [|done]. repeat constructor; vm_compute; congruence.
Qed.

Lemma oname_ok o : operand_ok o -> ident_ok (oname o) /\ isStringPredicate (oname o) = false.
Proof.
  destruct o as [| | |[] n]; intros Ho; try (split; [repeat constructor; vm_compute; congruence|done]).
  - destruct Ho as (Hi & _). split; [by apply ident_ok_prefixed|].
    cbn [oname]. unfold isStringPredicate. rewrite !beq_no; [done|..]; intros E; vm_compute in E; congruence.
  - by destruct Ho as (? & ? & _).
Qed.

Lemma core_ok re e : cond_ok re e -> cexp_ok re (core e).
Proof.
  induction e as [a IHa b IHb|a IHa b IHb|a IHa|o|o ne s|n ne|o op z|p o arg]; cbn [cond_ok core cexp_ok].
  - intros [? ?]. auto.
  - intros [? ?]. auto.
  - auto.
  - apply oname_ok.
  - intros [Ho ?]. by destruct (oname_ok o Ho).
  - by intros (? & ? & _).
  - intros (Ho & _ & ?). by destruct (oname_ok o Ho).
  - intros (Ho & ? & ?). by destruct (oname_ok o Ho).
Qed.

(** C12: the round trip.  The text of any condition over the status, the
    method, the path and the flow's variables, printed with only the
    parentheses its precedences need, compiles to a closure that is true of a
    request exactly when the condition holds of it. *)
Theorem compile_condition_roundtrip re sm (e : cond) :
  cond_ok re e ->
  exists f, CompileCondition re sm (cond_text e) = Ret (Some f) /\
    forall ctx, - 2 ^ 63 <= ResponseStatus ctx < 2 ^ 63 -> (f ctx = true <-> holds re sm e ctx).
Proof.
  intros Hok. destruct (compile_render re sm (core e) (core_ok re e Hok)) as (f & Hf & Hev).
  exists f. split; [exact Hf|]. intros ctx Hs. rewrite Hev. by apply ceval_holds.
Qed.

(** !(a || status >= 500) && contains(slot.b, x) *)
Definition demo_cond : cond :=
  KAnd (KNot (KOr (KTrue (OVar false (bytes_of "a"))) (KNum OStatus CGe 500)))
       (KPred PContains (OVar true (bytes_of "b")) (bytes_of "x")).

Lemma compile_condition_roundtrip_witness :
  let sm : gmap byte_string nat := {[ bytes_of "a" := 0%nat; bytes_of "b" := 1%nat ]} in
  exists f, CompileCondition (fun _ => None) sm (cond_text demo_cond) = Ret (Some f) /\
    f (mkCondCtx 200 [] [] [[]; bytes_of "axb"]) = true.
Proof.
  intros sm.
  destruct (compile_condition_roundtrip (fun _ => None) sm demo_cond) as (f & Hf & Hev).
  - repeat split; try (repeat constructor; vm_compute; congruence); try (vm_compute; congruence); done.
  - exists f. split; [exact Hf|]. apply Hev; [vm_compute; split; congruence|]. cbn [holds]. split.
    + intros [H|H]; [by vm_compute in H|]. cbn in H. lia.
    + exists (bytes_of "a"), (bytes_of "b"). vm_compute. reflexivity.
Defined.

(** The null test does not strip the [slot.] prefix that every other operand
    accepts: with a slot [x] holding a value, [slot.x] is true and yet
    [slot.x == null] is true as well. *)
Theorem null_test_ignores_slot_prefix :
  let sm : gmap byte_string nat := {[ bytes_of "x" := 0%nat ]} in
  let ctx := mkCondCtx 200 [] [] [bytes_of "value"] in
  exists f g, CompileCondition (fun _ => None) sm (bytes_of "slot.x") = Ret (Some f) /\
    CompileCondition (fun _ => None) sm (bytes_of "slot.x == null") = Ret (Some g) /\
    f ctx = true /\ g ctx = true.
Proof. do 2 eexists. split; [vm_compute; reflexivity|]. split; [vm_compute; reflexivity|]. split; vm_compute; reflexivity. Qed.
