(* ===== verification/Context.v ===== *)
(** * Arena and slots of the request context

    [internal/rctx/context.go], [arena.go] and [engine/slot_manager.go]: the
    per-request arena with its overflow block, slices as windows into shared
    memory, the byte, integer and boolean slots, and what a pooled context is
    reset to. *)

From S2P Require Import Prelude Bytes.
From stdpp Require Import base numbers list gmap.

Local Open Scope Z_scope.
Local Open Scope rah_scope.

Definition ArenaBlockSize : Z := 4096.
Definition ArenaInlineSize : Z := 1024.
Definition SlotValueThreshold : Z := 256.
Definition BaseByteSlots : Z := 48.
Definition BaseIntSlots : Z := 16.
Definition BaseBoolSlots : Z := 8.
Definition ExtIntSlots : Z := 16.
Definition OpKeysSize : Z := 512.

(** ** Memory and slices

    A slice is a window into one of the regions a request can write to: the
    inline arena, the borrowed block, the op-key buffer, or an object of its
    own on the heap.  Two slices of the same region may overlap, and a write
    through one is seen through the other. *)

Inductive region : Type :=
| RInline
| RExt
| RKeys
| RHeap (id : nat).

#[export] Instance region_eq_dec : EqDecision region.
Proof. solve_decision. Defined.

Record slice : Type := mkSlice { sl_reg : region; sl_off : Z; sl_len : Z }.

Record Mem : Type := mkMem {
  arenaInline : byte_string;
  arenaUsed : Z;
  arenaExt : option (byte_string * Z);   (* the borrowed block and its [used] *)
  poolBlock : byte_string;               (* what [arenaPool.Get] hands out: arbitrary contents *)
  opKeysBuf : byte_string;
  opKeysUsed : Z;
  heap : list byte_string;
  ArenaOverflowed : bool
}.

Definition contents (m : Mem) (r : region) : byte_string :=
  match r with
  | RInline => arenaInline m
  | RExt => match arenaExt m with Some (b, _) => b | None => [] end
  | RKeys => opKeysBuf m
  | RHeap id => default [] (heap m !! id)
  end.

Definition set_contents (m : Mem) (r : region) (b : byte_string) : Mem :=
  match r with
  | RInline => mkMem b (arenaUsed m) (arenaExt m) (poolBlock m) (opKeysBuf m) (opKeysUsed m) (heap m) (ArenaOverflowed m)
  | RExt => mkMem (arenaInline m) (arenaUsed m)
              (match arenaExt m with Some (_, u) => Some (b, u) | None => None end)
              (poolBlock m) (opKeysBuf m) (opKeysUsed m) (heap m) (ArenaOverflowed m)
  | RKeys => mkMem (arenaInline m) (arenaUsed m) (arenaExt m) (poolBlock m) b (opKeysUsed m) (heap m) (ArenaOverflowed m)
  | RHeap id => mkMem (arenaInline m) (arenaUsed m) (arenaExt m) (poolBlock m) (opKeysBuf m) (opKeysUsed m)
                  (<[id:=b]> (heap m)) (ArenaOverflowed m)
  end.

(** The bytes a slice shows. *)
Definition read (m : Mem) (s : slice) : byte_string :=
  take (Z.to_nat (sl_len s)) (drop (Z.to_nat (sl_off s)) (contents m (sl_reg s))).

(** [copy(s, data)]: as many bytes as fit. *)
Definition copy (m : Mem) (s : slice) (data : byte_string) : Mem :=
  let data := take (Z.to_nat (sl_len s)) data in
  set_contents m (sl_reg s) (splice (contents m (sl_reg s)) (Z.to_nat (sl_off s)) data).

(** [make([]byte, n)]. *)
Definition make_bytes (m : Mem) (n : Z) (overflow : bool) : Mem * slice :=
  (mkMem (arenaInline m) (arenaUsed m) (arenaExt m) (poolBlock m) (opKeysBuf m) (opKeysUsed m)
     (heap m ++ [replicate (Z.to_nat n) 0]) overflow,
   mkSlice (RHeap (length (heap m))) 0 n).

Definition Alloc (m : Mem) (n : Z) : Mem * slice :=
  let end_ := arenaUsed m + n in
  if end_ <=? ArenaInlineSize then
    (mkMem (arenaInline m) (i32 end_) (arenaExt m) (poolBlock m) (opKeysBuf m) (opKeysUsed m) (heap m)
       (ArenaOverflowed m),
     mkSlice RInline (arenaUsed m) n)
  else
    let '(b, used, over) := match arenaExt m with
                            | Some (b, used) => (b, used, ArenaOverflowed m)
                            | None => (poolBlock m, 0, true)
                            end in
    let end2 := used + n in
    if end2 <=? ArenaBlockSize then
      (mkMem (arenaInline m) (arenaUsed m) (Some (b, i32 end2)) (poolBlock m) (opKeysBuf m) (opKeysUsed m)
         (heap m) over,
       mkSlice RExt used n)
    else
      make_bytes (mkMem (arenaInline m) (arenaUsed m) (Some (b, used)) (poolBlock m) (opKeysBuf m)
                    (opKeysUsed m) (heap m) over) n true.

Definition AllocOpKey (m : Mem) (n : Z) : Mem * slice :=
  let end_ := opKeysUsed m + n in
  if end_ <=? OpKeysSize then
    (mkMem (arenaInline m) (arenaUsed m) (arenaExt m) (poolBlock m) (opKeysBuf m) (i32 end_) (heap m)
       (ArenaOverflowed m),
     mkSlice RKeys (opKeysUsed m) n)
  else Alloc m n.

(** ** Slots *)

Record Slots : Type := mkSlots {
  ByteSlots : list (option slice);
  intSlotBase : list Z;
  intSlotExt : option (list Z);
  BoolSlots : list bool
}.

Definition SetInt (s : Slots) (idx val : Z) : outcome Slots :=
  if idx <? BaseIntSlots then
    _ <-- go_index (intSlotBase s) idx ;;
    Ret (mkSlots (ByteSlots s) (<[Z.to_nat idx:=val]> (intSlotBase s)) (intSlotExt s) (BoolSlots s))
  else
    let ext := default (replicate (Z.to_nat ExtIntSlots) 0) (intSlotExt s) in
    _ <-- go_index ext (idx - BaseIntSlots) ;;
    Ret (mkSlots (ByteSlots s) (intSlotBase s) (Some (<[Z.to_nat (idx - BaseIntSlots):=val]> ext)) (BoolSlots s)).

Definition GetInt (s : Slots) (idx : Z) : outcome Z :=
  if idx <? BaseIntSlots then go_index (intSlotBase s) idx
  else match intSlotExt s with
       | Some ext => go_index ext (idx - BaseIntSlots)
       | None => Ret 0
       end.

(** Writing [ctx.ByteSlots[idx]]: panics outside the slots. *)
Definition put_slot (s : Slots) (idx : Z) (v : option slice) : outcome Slots :=
  _ <-- go_index (ByteSlots s) idx ;;
  Ret (mkSlots (<[Z.to_nat idx:=v]> (ByteSlots s)) (intSlotBase s) (intSlotExt s) (BoolSlots s)).

(** [Context.SetSlot]: writes past the end are dropped. *)
Definition SetSlot (s : Slots) (idx : Z) (v : option slice) : outcome Slots :=
  if idx <? Z.of_nat (length (ByteSlots s)) then put_slot s idx v else Ret s.

(** The part of the context the data steps use. *)
Record Context : Type := mkContext { mem : Mem; slots : Slots }.

(** What a slot holds. *)
Definition value (c : Context) (v : option slice) : byte_string :=
  match v with Some s => read (mem c) s | None => [] end.

Definition in_slots (c : Context) (idx : Z) : bool :=
  (0 <=? idx) && (idx <? Z.of_nat (length (ByteSlots (slots c)))).

(** [ExecutionState.WriteSlot] ([threshold] is [slotValueThreshold], 0 for
    the default). *)
Definition WriteSlot (c : Context) (slotValueThreshold idx : Z) (data : byte_string) : outcome Context :=
  if negb (in_slots c idx) then Ret c
  else
    let threshold := if 0 <? slotValueThreshold then slotValueThreshold else SlotValueThreshold in
    let n := Z.of_nat (length data) in
    let '(m, dst) := if n <=? threshold then Alloc (mem c) n else make_bytes (mem c) n true in
    let m := copy m dst data in
    s <-- put_slot (slots c) idx (Some dst) ;;
    Ret (mkContext m s).

Definition ReadSlot (c : Context) (idx : Z) : outcome byte_string :=
  if negb (in_slots c idx) then Ret []
  else v <-- go_index (ByteSlots (slots c)) idx ;; Ret (value c v).

(** [ReleaseOverflow] and the slot part of [Reset]. *)
Definition ReleaseOverflow (c : Context) : Context :=
  let m := mem c in
  mkContext
    (mkMem (arenaInline m) (arenaUsed m) None
       (match arenaExt m with Some (b, _) => b | None => poolBlock m end)
       (opKeysBuf m) (opKeysUsed m) (heap m) (ArenaOverflowed m))
    (mkSlots (ByteSlots (slots c)) (intSlotBase (slots c)) None (BoolSlots (slots c))).

Definition ResetSlots (c : Context) : Context :=
  let m := mem c in
  mkContext
    (mkMem (arenaInline m) 0 (arenaExt m) (poolBlock m) (opKeysBuf m) 0 (heap m) false)
    (mkSlots (replicate (Z.to_nat BaseByteSlots) None) (replicate (Z.to_nat BaseIntSlots) 0)
       (intSlotExt (slots c)) (replicate (Z.to_nat BaseBoolSlots) false)).

(** A context as the pool makes it. *)
Definition new_context (poolBlock : byte_string) : Context :=
  mkContext
    (mkMem (replicate (Z.to_nat ArenaInlineSize) 0) 0 None poolBlock
       (replicate (Z.to_nat OpKeysSize) 0) 0 [] false)
    (mkSlots (replicate (Z.to_nat BaseByteSlots) None) (replicate (Z.to_nat BaseIntSlots) 0) None
       (replicate (Z.to_nat BaseBoolSlots) false)).
