(* ===== verification/ContextSpec.v ===== *)
(** * The request context: theorems

    Slices handed out by the arena never overlap anything still in use, so a
    slot keeps the bytes written to it whatever is written elsewhere. *)

From S2P Require Import Prelude Bytes Context.
From stdpp Require Import base numbers list gmap.

Local Open Scope Z_scope.

(** ** Well-formed memory *)

(** How much of a region has been handed out. *)
Definition used (m : Mem) (r : region) : Z :=
  match r with
  | RInline => arenaUsed m
  | RExt => match arenaExt m with Some (_, u) => u | None => 0 end
  | RKeys => opKeysUsed m
  | RHeap _ => Z.of_nat (length (contents m r))
  end.

Record mem_ok (m : Mem) : Prop := mkMemOk {
  mo_inline : length (arenaInline m) = 1024%nat;
  mo_used : 0 <= arenaUsed m <= 1024;
  mo_pool : length (poolBlock m) = 4096%nat;
  mo_ext : forall b u, arenaExt m = Some (b, u) -> length b = 4096%nat /\ 0 <= u <= 4096;
  mo_keys : length (opKeysBuf m) = 512%nat;
  mo_kused : 0 <= opKeysUsed m <= 512
}.

Definition valid (m : Mem) (s : slice) : Prop :=
  0 <= sl_off s /\ 0 <= sl_len s /\ sl_off s + sl_len s <= used m (sl_reg s).

Definition disjoint (s s' : slice) : Prop :=
  sl_reg s <> sl_reg s' \/ sl_off s + sl_len s <= sl_off s' \/ sl_off s' + sl_len s' <= sl_off s.

(** Everything valid before stays valid and shows the same bytes. *)
Definition extends (m m' : Mem) : Prop :=
  forall s, valid m s -> valid m' s /\ read m' s = read m s.

Lemma extends_refl m : extends m m.
Proof. by split. Qed.

Lemma extends_trans m1 m2 m3 : extends m1 m2 -> extends m2 m3 -> extends m1 m3.
Proof.
  intros H12 H23 s Hs. destruct (H12 s Hs) as [Hv E]. destruct (H23 s Hv) as [Hv' E'].
  split; [done|]. by rewrite E'.
Qed.

Lemma used_bound m r : mem_ok m -> used m r <= Z.of_nat (length (contents m r)).
Proof.
  intros [? ? ? He ? ?]. destruct r; simpl; try lia.
  destruct (arenaExt m) as [[b u]|]; [|simpl; lia]. destruct (He b u eq_refl). lia.
Qed.

(** A region handed out only further, with its contents unchanged. *)
Lemma extends_same m m' :
  (forall r, used m r <= used m' r) ->
  (forall r o l, (o + l <= Z.to_nat (used m r))%nat ->
     take l (drop o (contents m' r)) = take l (drop o (contents m r))) ->
  extends m m'.
Proof.
  intros Hu Hc s (Ho & Hl & Hv). split; [repeat split; [done|done|]; specialize (Hu (sl_reg s)); lia|].
  unfold read. apply Hc. lia.
Qed.

Lemma heap_grow m b m' :
  mem_ok m -> heap m' = heap m ++ [b] -> arenaInline m' = arenaInline m -> arenaUsed m' = arenaUsed m ->
  (arenaExt m' = arenaExt m \/ arenaExt m = None) -> opKeysBuf m' = opKeysBuf m -> opKeysUsed m' = opKeysUsed m ->
  (forall b u, arenaExt m' = Some (b, u) -> 0 <= u) ->
  extends m m'.
Proof.
  intros Hok Hh Hi Hu He Hk Hku Hpos. apply extends_same.
  - intros [| | |id]; simpl; try lia.
    + destruct He as [->| ->]; [done|]. destruct (arenaExt m') as [[b' u']|]; [|done]. by eapply Hpos.
    + rewrite Hh. destruct (decide (id < length (heap m))%nat).
      * by rewrite lookup_app_l by done.
      * rewrite (lookup_ge_None_2 (heap m)) by lia. simpl. lia.
  - intros [| | |id] o l Hol; simpl in *; try congruence.
    + destruct He as [->|E]; [done|]. rewrite E in *. replace l with 0%nat by lia. done.
    + rewrite Hh. destruct (decide (id < length (heap m))%nat).
      * by rewrite lookup_app_l by done.
      * rewrite (lookup_ge_None_2 (heap m)) in * by lia. simpl in *. replace l with 0%nat by lia.
        by rewrite !take_0.
Qed.

(** What an allocation promises. *)
Definition allocated (m m' : Mem) (s : slice) (n : Z) : Prop :=
  mem_ok m' /\ extends m m' /\ valid m' s /\ sl_len s = n /\
  (forall s0, valid m s0 -> 0 < sl_len s0 -> disjoint s s0).

Lemma make_bytes_spec m n over :
  mem_ok m -> 0 <= n -> let '(m', s) := make_bytes m n over in allocated m m' s n.
Proof.
  intros Hok Hn. unfold make_bytes. split; [destruct Hok; constructor; simpl; assumption|].
  split; [apply (heap_grow m (replicate (Z.to_nat n) 0)); try done; [by left|];
    intros b u E; simpl in E; destruct (mo_ext m Hok b u E); lia|].
  split; [|split; [done|]].
  - repeat split; simpl; try lia. rewrite lookup_app_r, Nat.sub_diag by lia. simpl.
    rewrite length_replicate. lia.
  - intros s0 (Ho & Hl & Hv) Hpos. left. simpl. intros E. rewrite <- E in Hv. simpl in Hv.
    rewrite (lookup_ge_None_2 (heap m)) in Hv by lia. simpl in Hv. lia.
Qed.

Lemma alloc_inline_spec m n :
  mem_ok m -> 0 <= n -> arenaUsed m + n <= ArenaInlineSize ->
  allocated m (mkMem (arenaInline m) (i32 (arenaUsed m + n)) (arenaExt m) (poolBlock m) (opKeysBuf m)
                 (opKeysUsed m) (heap m) (ArenaOverflowed m))
    (mkSlice RInline (arenaUsed m) n) n.
Proof.
  unfold ArenaInlineSize. intros Hok Hn He. pose proof (mo_used m Hok).
  rewrite wraps_small by lia. split; [destruct Hok; constructor; simpl; first [assumption|lia]|].
  split; [apply extends_same; [intros []; simpl; lia|done]|].
  split; [repeat split; simpl; lia|]. split; [done|].
  intros s0 (Ho & Hl & Hv) Hpos. destruct (decide (sl_reg s0 = RInline)) as [E|E]; [|left; simpl; congruence].
  rewrite E in Hv. simpl in Hv. right. right. simpl. lia.
Qed.

(** The borrowed block, when it is the one to be filled. *)
Lemma alloc_ext_spec m b u over n :
  mem_ok m -> 0 <= n ->
  (arenaExt m = Some (b, u) \/ arenaExt m = None /\ b = poolBlock m /\ u = 0) ->
  u + n <= ArenaBlockSize ->
  allocated m (mkMem (arenaInline m) (arenaUsed m) (Some (b, i32 (u + n))) (poolBlock m) (opKeysBuf m)
                 (opKeysUsed m) (heap m) over)
    (mkSlice RExt u n) n.
Proof.
  unfold ArenaBlockSize. intros Hok Hn Hb Hu.
  assert (length b = 4096%nat /\ 0 <= u <= 4096) as [Hlb Hub].
  { destruct Hb as [E|(E & -> & ->)]; [by apply (mo_ext m Hok)|]. split; [apply (mo_pool m Hok)|lia]. }
  rewrite wraps_small by lia.
  assert (used m RExt <= u) as Hle by (simpl; destruct Hb as [-> |(-> & _ & ->)]; lia).
  split.
  { destruct Hok; constructor; simpl; try done. intros ? ? [= <- <-]. lia. }
  split.
  { apply extends_same.
    - intros []; simpl in *; lia.
    - intros [| | |id] o l Hol; simpl in *; try done.
      destruct Hb as [E|(E & -> & ->)]; rewrite E in *; [done|]. replace l with 0%nat by lia. done. }
  split; [repeat split; simpl; lia|]. split; [done|].
  intros s0 (Ho & Hl & Hv) Hpos. destruct (decide (sl_reg s0 = RExt)) as [E|E]; [|left; simpl; congruence].
  rewrite E in Hv. right. right. simpl in *. lia.
Qed.

Lemma Alloc_spec m n :
  mem_ok m -> 0 <= n -> let '(m', s) := Alloc m n in allocated m m' s n.
Proof.
  intros Hok Hn. unfold Alloc.
  destruct (Z.leb_spec (arenaUsed m + n) ArenaInlineSize); [by apply alloc_inline_spec|].
  set (x := match arenaExt m with Some (b, u) => (b, u, ArenaOverflowed m) | None => (poolBlock m, 0, true) end).
  destruct x as [[b u] over] eqn:Ex. unfold x in Ex.
  assert (arenaExt m = Some (b, u) \/ arenaExt m = None /\ b = poolBlock m /\ u = 0) as Hb.
  { destruct (arenaExt m) as [[b' u']|]; simplify_eq; [by left|by right]. }
  destruct (Z.leb_spec (u + n) ArenaBlockSize); [by apply alloc_ext_spec|].
  set (m1 := mkMem _ _ _ _ _ _ _ _).
  assert (mem_ok m1 /\ extends m m1) as [Hok1 Hext].
  { assert (length b = 4096%nat /\ 0 <= u <= 4096) as [Hlb Hub].
    { destruct Hb as [E|(E & -> & ->)]; [by apply (mo_ext m Hok)|]. split; [apply (mo_pool m Hok)|lia]. }
    split; [destruct Hok; constructor; simpl; try done; intros ? ? [= <- <-]; lia|].
    apply extends_same.
    - intros []; simpl; try lia. destruct Hb as [->|(-> & _ & ->)]; lia.
    - intros [| | |id] o l Hol; simpl in *; try done.
      destruct Hb as [E|(E & -> & ->)]; rewrite E in *; [done|]. replace l with 0%nat by lia. done. }
  pose proof (make_bytes_spec m1 n true Hok1 Hn) as Hm.
  destruct (make_bytes m1 n true) as [m2 s]. destruct Hm as (Hok2 & Hext2 & Hv & Hl & Hd).
  split; [done|]. split; [by eapply extends_trans|]. split; [done|]. split; [done|].
  intros s0 Hs0. apply Hd. by apply Hext.
Qed.

Lemma AllocOpKey_spec m n :
  mem_ok m -> 0 <= n -> let '(m', s) := AllocOpKey m n in allocated m m' s n.
Proof.
  intros Hok Hn. unfold AllocOpKey, OpKeysSize.
  destruct (Z.leb_spec (opKeysUsed m + n) 512); [|by apply Alloc_spec].
  pose proof (mo_kused m Hok). rewrite wraps_small by lia.
  split; [destruct Hok; constructor; simpl; first [assumption|lia]|].
  split; [apply extends_same; [intros []; simpl; lia|done]|].
  split; [repeat split; simpl; lia|]. split; [done|].
  intros s0 (Ho & Hl & Hv) Hpos. destruct (decide (sl_reg s0 = RKeys)) as [E|E]; [|left; simpl; congruence].
  rewrite E in Hv. simpl in Hv. right. right. simpl. lia.
Qed.

(** ** Writing through a slice *)

Lemma contents_set_other m r r' b : r <> r' -> contents (set_contents m r b) r' = contents m r'.
Proof.
  intros Hne. destruct r, r'; simpl; try done.
  by rewrite list_lookup_insert_ne by congruence.
Qed.

Lemma contents_set_same m r b :
  length b = length (contents m r) -> contents (set_contents m r b) r = b.
Proof.
  intros Hl. destruct r as [| | |id]; simpl in *; try done.
  - destruct (arenaExt m) as [[b' u]|]; [done|]. by destruct b.
  - destruct (decide (id < length (heap m))%nat).
    + by rewrite list_lookup_insert_eq.
    + rewrite (lookup_ge_None_2 (heap m)) in Hl by lia. simpl in Hl.
      rewrite list_insert_ge, (lookup_ge_None_2 (heap m)) by lia. by destruct b.
Qed.

Lemma used_set m r r' b : length b = length (contents m r) -> used (set_contents m r b) r' = used m r'.
Proof.
  intros Hl. destruct (decide (r = r')) as [<-|Hne].
  - destruct r as [| | |id]; try done.
    + simpl. by destruct (arenaExt m) as [[b' u]|].
    + unfold used. by rewrite contents_set_same, Hl.
  - destruct r' as [| | |id]; [by destruct r..|]. unfold used. by rewrite contents_set_other.
Qed.

Lemma set_contents_ok m r b : mem_ok m -> length b = length (contents m r) -> mem_ok (set_contents m r b).
Proof.
  intros Hok Hl. destruct Hok, r; constructor; simpl in *; try done; try congruence.
  destruct (arenaExt m) as [[b' u]|]; [|done]. intros ? ? [= <- <-].
  destruct (mo_ext0 b' u eq_refl). split; [congruence|done].
Qed.

(** Copying into an allocated slice shows up there and nowhere else. *)
Lemma copy_spec m s data :
  mem_ok m -> valid m s -> Z.of_nat (length data) = sl_len s ->
  mem_ok (copy m s data) /\ (forall s0, valid m s0 -> valid (copy m s data) s0) /\
  read (copy m s data) s = data /\
  (forall s0, valid m s0 -> disjoint s s0 \/ sl_len s0 = 0 -> read (copy m s data) s0 = read m s0).
Proof.
  intros Hok (Ho & Hlen & Hv) Hd. pose proof (used_bound m (sl_reg s) Hok) as Hub.
  unfold copy. rewrite take_ge by lia. set (b := splice _ _ _).
  assert (length b = length (contents m (sl_reg s))) as Hl by (apply length_splice; lia).
  split; [by apply set_contents_ok|].
  split; [intros s0 (H1 & H2 & H3); repeat split; try done; by rewrite used_set|].
  split.
  - unfold read. rewrite contents_set_same by done. replace (Z.to_nat (sl_len s)) with (length data) by lia.
    apply read_splice_same. lia.
  - intros s0 (H1 & H2 & H3) Hdis. unfold read.
    destruct (decide (sl_reg s = sl_reg s0)) as [E|E]; [|by rewrite contents_set_other].
    rewrite <- E, contents_set_same by done.
    destruct Hdis as [Hdis| ->]; [|by rewrite !take_0].
    apply read_splice_other; [lia|]. destruct Hdis as [?|[?|?]]; [done|right; lia|left; lia].
Qed.

(** An allocation followed by a copy into it. *)
Lemma store_spec m m1 s data :
  mem_ok m -> allocated m m1 s (Z.of_nat (length data)) ->
  let m2 := copy m1 s data in
  mem_ok m2 /\ valid m2 s /\ read m2 s = data /\ extends m m2.
Proof.
  intros Hok (Hok1 & Hext & Hv & Hl & Hd) m2.
  destruct (copy_spec m1 s data Hok1 Hv (eq_sym Hl)) as (Hok2 & Hval & Hread & Hother).
  split; [done|]. split; [by apply Hval|]. split; [done|].
  intros s0 Hs0. destruct (Hext s0 Hs0) as [Hv1 E1]. split; [by apply Hval|].
  unfold m2. rewrite Hother, E1; [done|done|].
  destruct (decide (sl_len s0 = 0)); [by right|]. left. apply Hd; [done|].
  destruct Hs0 as (_ & ? & _). lia.
Qed.

(** ** Slots *)

Record slots_ok (m : Mem) (s : Slots) : Prop := mkSlotsOk {
  so_bytes : length (ByteSlots s) = 48%nat;
  so_valid : Forall (fun v => match v with Some sl => valid m sl | None => True end) (ByteSlots s);
  so_ints : length (intSlotBase s) = 16%nat;
  so_ext : forall e, intSlotExt s = Some e -> length e = 16%nat;
  so_bools : length (BoolSlots s) = 8%nat
}.

Definition ctx_ok (c : Context) : Prop := mem_ok (mem c) /\ slots_ok (mem c) (slots c).

(** The bytes in every slot. *)
Definition values (c : Context) : list byte_string := value c <$> ByteSlots (slots c).

(** Growing the memory keeps the slots and what they hold. *)
Lemma slots_extend m m' s : extends m m' -> slots_ok m s -> slots_ok m' s.
Proof.
  intros He [? Hv ? ? ?]. constructor; try done. eapply Forall_impl; [exact Hv|].
  intros [sl|]; [|done]. intros Hsl. by apply He.
Qed.

Lemma values_extend m m' s :
  extends m m' -> slots_ok m s -> values (mkContext m' s) = values (mkContext m s).
Proof.
  intros He [? Hv ? ? ?]. unfold values. cbn [slots]. apply list_fmap_ext. intros i v Hi.
  destruct v as [sl|]; [|done]. pose proof (proj1 (Forall_lookup _ _) Hv i _ Hi) as Hsl.
  unfold value. cbn [mem]. by apply He.
Qed.

(** Writing a valid slice into a slot. *)
Lemma put_slot_spec m s idx v :
  slots_ok m s -> 0 <= idx < 48 -> match v with Some sl => valid m sl | None => True end ->
  exists s', put_slot s idx v = Ret s' /\ slots_ok m s' /\
    values (mkContext m s') = <[Z.to_nat idx:=value (mkContext m s) v]> (values (mkContext m s)) /\
    intSlotBase s' = intSlotBase s /\ intSlotExt s' = intSlotExt s /\ BoolSlots s' = BoolSlots s.
Proof.
  intros Hs Hi Hv. unfold put_slot.
  destruct (lookup_lt_is_Some_2 (ByteSlots s) (Z.to_nat idx)) as [x Hx]; [rewrite (so_bytes m s Hs); lia|].
  erewrite go_index_Z by (lia || exact Hx).
  cbn [obind]. eexists. split; [reflexivity|]. destruct Hs. split; [|split; [|done]].
  - constructor; simpl; try done; [by rewrite length_insert|]. by apply Forall_insert.
  - unfold values. cbn [slots ByteSlots]. rewrite list_fmap_insert. f_equal.
Qed.

Lemma values_lookup c idx v :
  ByteSlots (slots c) !! Z.to_nat idx = Some v -> values c !! Z.to_nat idx = Some (value c v).
Proof. intros H. unfold values. by rewrite list_lookup_fmap, H. Qed.

(** Allocating, filling, and storing in a slot: the common end of the data
    steps. *)
Lemma store_slot_spec c m1 sl idx data :
  ctx_ok c -> 0 <= idx < 48 -> allocated (mem c) m1 sl (Z.of_nat (length data)) ->
  exists s', put_slot (slots c) idx (Some sl) = Ret s' /\
    let c' := mkContext (copy m1 sl data) s' in
    ctx_ok c' /\ values c' = <[Z.to_nat idx:=data]> (values c) /\
    intSlotBase s' = intSlotBase (slots c) /\ intSlotExt s' = intSlotExt (slots c) /\
    BoolSlots s' = BoolSlots (slots c).
Proof.
  destruct c as [m s]. intros [Hm Hs] Hi Ha. cbn [mem slots] in *.
  destruct (store_spec m m1 sl data Hm Ha) as (Hm2 & Hv2 & Hr2 & He2).
  pose proof (slots_extend _ _ _ He2 Hs) as Hs2.
  destruct (put_slot_spec (copy m1 sl data) s idx (Some sl) Hs2 Hi Hv2) as (s' & Hp & Hok & Hval & Hints).
  exists s'. split; [done|]. cbv zeta. split; [done|]. split; [|done].
  rewrite Hval. rewrite (values_extend m) by done. f_equal. done.
Qed.

Lemma WriteSlot_spec c th idx data :
  ctx_ok c ->
  exists c', WriteSlot c th idx data = Ret c' /\ ctx_ok c' /\
    values c' = (if in_slots c idx then <[Z.to_nat idx:=data]> (values c) else values c) /\
    intSlotBase (slots c') = intSlotBase (slots c) /\ intSlotExt (slots c') = intSlotExt (slots c) /\
    BoolSlots (slots c') = BoolSlots (slots c).
Proof.
  intros Hc. unfold WriteSlot. destruct (in_slots c idx) eqn:Ei; cbn [negb]; [|by exists c].
  assert (0 <= idx < 48) as Hi.
  { unfold in_slots in Ei. apply andb_true_iff in Ei as [?%Z.leb_le ?%Z.ltb_lt].
    rewrite (so_bytes _ _ (proj2 Hc)) in *. lia. }
  set (n := Z.of_nat (length data)).
  set (x := if n <=? _ then _ else _).
  assert (let '(m1, sl) := x in allocated (mem c) m1 sl n) as Ha.
  { unfold x. destruct (n <=? _); [apply Alloc_spec|apply make_bytes_spec]; (apply Hc || lia). }
  destruct x as [m1 sl]. destruct (store_slot_spec c m1 sl idx data Hc Hi Ha) as (s' & -> & Hc' & Hv & Hints).
  cbn [obind]. eexists. split; [reflexivity|]. done.
Qed.

Lemma ReadSlot_spec c idx :
  ctx_ok c -> ReadSlot c idx = Ret (if in_slots c idx then default [] (values c !! Z.to_nat idx) else []).
Proof.
  intros Hc. unfold ReadSlot. destruct (in_slots c idx) eqn:Ei; cbn [negb]; [|done].
  unfold in_slots in Ei. apply andb_true_iff in Ei as [?%Z.leb_le ?%Z.ltb_lt].
  destruct (lookup_lt_is_Some_2 (ByteSlots (slots c)) (Z.to_nat idx)) as [v Hv]; [lia|].
  rewrite (values_lookup _ _ _ Hv). by erewrite go_index_Z by (lia || exact Hv).
Qed.

(** ** The context refines a table of values *)

(** What flow steps do with a context: write and read slots, allocate and fill
    scratch space and storage keys, count; and the pool recycles it. *)
Inductive sop : Type :=
| SWrite (threshold idx : Z) (data : byte_string)
| SRead (idx : Z)
| SScratch (data : byte_string)
| SOpKey (data : byte_string)
| SSetInt (idx v : Z)
| SGetInt (idx : Z)
| SRecycle.

Inductive sans : Type := SNone | SBytes (b : byte_string) | SInt (v : Z).

Definition scratch (c : Context) (alloc : Mem -> Z -> Mem * slice) (data : byte_string) : Context :=
  let '(m, s) := alloc (mem c) (Z.of_nat (length data)) in mkContext (copy m s data) (slots c).

Definition slot_step (o : sop) (c : Context) : outcome (Context * sans) :=
  match o with
  | SWrite th idx data => obind (WriteSlot c th idx data) (fun c' => Ret (c', SNone))
  | SRead idx => obind (ReadSlot c idx) (fun b => Ret (c, SBytes b))
  | SScratch data => Ret (scratch c Alloc data, SNone)
  | SOpKey data => Ret (scratch c AllocOpKey data, SNone)
  | SSetInt idx v => obind (SetInt (slots c) idx v) (fun s => Ret (mkContext (mem c) s, SNone))
  | SGetInt idx => obind (GetInt (slots c) idx) (fun v => Ret (c, SInt v))
  | SRecycle => Ret (ResetSlots (ReleaseOverflow c), SNone)
  end.

(** The specification: 48 byte strings and 32 integers. *)
Abbreviation table := (list byte_string * list Z)%type.

Definition table_new : table := (replicate 48 [], replicate 32 0).

Definition table_step (o : sop) (t : table) : outcome (table * sans) :=
  let '(bs, ns) := t in
  match o with
  | SWrite _ idx data =>
    Ret ((if (0 <=? idx) && (idx <? 48) then <[Z.to_nat idx:=data]> bs else bs, ns), SNone)
  | SRead idx => Ret (t, SBytes (if (0 <=? idx) && (idx <? 48) then default [] (bs !! Z.to_nat idx) else []))
  | SScratch _ | SOpKey _ => Ret (t, SNone)
  | SSetInt idx v => Ret ((bs, <[Z.to_nat idx:=v]> ns), SNone)
  | SGetInt idx => Ret (t, SInt (default 0 (ns !! Z.to_nat idx)))
  | SRecycle => Ret (table_new, SNone)
  end.

Definition sop_ok (o : sop) : Prop :=
  match o with SSetInt idx _ | SGetInt idx => 0 <= idx < 32 | _ => True end.

Definition ints (s : Slots) : list Z := intSlotBase s ++ default (replicate 16 0) (intSlotExt s).

Definition slot_rel (c : Context) (t : table) : Prop :=
  ctx_ok c /\ values c = t.1 /\ ints (slots c) = t.2.

Lemma in_slots_48 c idx : ctx_ok c -> in_slots c idx = (0 <=? idx) && (idx <? 48).
Proof. intros Hc. unfold in_slots. by rewrite (so_bytes _ _ (proj2 Hc)). Qed.

Lemma scratch_rel c t alloc data :
  (forall m n, mem_ok m -> 0 <= n -> let '(m', s) := alloc m n in allocated m m' s n) ->
  slot_rel c t -> slot_rel (scratch c alloc data) t.
Proof.
  intros Ha ([Hm Hs] & Hv & Hi). unfold scratch. destruct c as [m s]. cbn [mem slots] in *.
  specialize (Ha m (Z.of_nat (length data)) Hm ltac:(lia)).
  destruct (alloc m (Z.of_nat (length data))) as [m1 sl].
  destruct (store_spec m m1 sl data Hm Ha) as (Hm2 & _ & _ & He).
  split; [split; [done|by eapply slots_extend]|]. split; [|done]. by rewrite (values_extend m).
Qed.

Lemma setint_rel c t idx v :
  0 <= idx < 32 -> slot_rel c t ->
  exists s, SetInt (slots c) idx v = Ret s /\ slot_rel (mkContext (mem c) s) (t.1, <[Z.to_nat idx:=v]> t.2).
Proof.
  intros Hidx ([Hm Hs] & Hv & Hi). unfold SetInt, BaseIntSlots. destruct c as [m s]. cbn [mem slots] in *.
  destruct (Z.ltb_spec idx 16).
  - destruct (lookup_lt_is_Some_2 (intSlotBase s) (Z.to_nat idx)) as [x Hx]; [rewrite (so_ints _ _ Hs); lia|].
    erewrite go_index_Z by (lia || exact Hx). cbn [obind].
    eexists. split; [reflexivity|]. destruct Hs. split; [split; [done|]|split; [done|]].
    + constructor; simpl; try done. by rewrite length_insert.
    + rewrite <- Hi. unfold ints. cbn [slots intSlotBase intSlotExt fst snd].
      by rewrite insert_app_l by lia.
  - set (ext := default _ (intSlotExt s)).
    assert (length ext = 16%nat) as Hl.
    { unfold ext. destruct (intSlotExt s) as [e|] eqn:E; [by apply (so_ext _ _ Hs)|done]. }
    destruct (lookup_lt_is_Some_2 ext (Z.to_nat (idx - 16))) as [x Hx]; [lia|].
    erewrite go_index_Z by (lia || exact Hx). cbn [obind].
    eexists. split; [reflexivity|]. pose proof (so_ints _ _ Hs) as Hb. destruct Hs.
    split; [split; [done|]|split; [done|]].
    + constructor; simpl; try done. intros e [= <-]. by rewrite length_insert.
    + rewrite <- Hi. unfold ints. cbn [slots intSlotBase intSlotExt fst snd]. fold ext.
      rewrite insert_app_r_alt by lia.
      by replace (Z.to_nat idx - length (intSlotBase s))%nat with (Z.to_nat (idx - 16)) by lia.
Qed.

Lemma getint_rel c t idx :
  0 <= idx < 32 -> slot_rel c t -> GetInt (slots c) idx = Ret (default 0 (t.2 !! Z.to_nat idx)).
Proof.
  intros Hidx ([Hm Hs] & Hv & <-). unfold GetInt, BaseIntSlots, ints. destruct c as [m s]. cbn [mem slots] in *.
  pose proof (so_ints _ _ Hs) as Hb. destruct (Z.ltb_spec idx 16).
  - destruct (lookup_lt_is_Some_2 (intSlotBase s) (Z.to_nat idx)) as [x Hx]; [lia|].
    rewrite lookup_app_l by lia. rewrite Hx. by erewrite go_index_Z by (lia || exact Hx).
  - rewrite lookup_app_r by lia. destruct (intSlotExt s) as [e|] eqn:E; cbn [default from_option].
    + pose proof (so_ext _ _ Hs e E). destruct (lookup_lt_is_Some_2 e (Z.to_nat (idx - 16))) as [x Hx]; [lia|].
      erewrite go_index_Z by (lia || exact Hx).
      replace (Z.to_nat idx - length (intSlotBase s))%nat with (Z.to_nat (idx - 16)) by lia.
      unfold id. by rewrite Hx.
    + by rewrite lookup_replicate_2 by lia.
Qed.

Lemma recycle_rel c t : slot_rel c t -> slot_rel (ResetSlots (ReleaseOverflow c)) table_new.
Proof.
  intros ([Hm Hs] & _ & _). destruct Hm, Hs. split; [split|].
  - constructor; simpl; try done; try lia.
    destruct (arenaExt (mem c)) as [[b u]|]; [|done]. by destruct (mo_ext0 b u eq_refl).
  - constructor; simpl; try done. by repeat constructor.
  - done.
Qed.

Lemma slot_step_sim o c t :
  sop_ok o -> slot_rel c t -> sim slot_rel (slot_step o c) (table_step o t).
Proof.
  intros Ho Hrel. pose proof Hrel as (Hc & Hv & Hi). destruct t as [bs ns]. cbn [fst snd] in *.
  destruct o as [th idx data|idx|data|data|idx v|idx|]; cbn [slot_step table_step sop_ok] in *.
  - destruct (WriteSlot_spec c th idx data Hc) as (c' & -> & Hc' & Hv' & Hb & He & _). cbn [obind sim].
    split; [|done]. split; [done|]. rewrite Hv', in_slots_48, Hv by done.
    split; [done|]. unfold ints. cbn [snd]. by rewrite Hb, He.
  - rewrite ReadSlot_spec, in_slots_48, Hv by done. done.
  - split; [|done]. apply scratch_rel; [apply Alloc_spec|done].
  - split; [|done]. apply scratch_rel; [apply AllocOpKey_spec|done].
  - destruct (setint_rel c _ idx v Ho Hrel) as (s & -> & Hr). done.
  - rewrite (getint_rel c _ idx Ho Hrel). done.
  - split; [|done]. by eapply recycle_rel.
Qed.

(** C10: a context answers every sequence of slot writes and reads, scratch
    and key allocations, counter updates and recyclings exactly like a table
    of 48 byte strings and 32 integers.  Whatever the arena, the borrowed block
    (with arbitrary old contents) and the heap hand out, no write to one slot
    or scratch buffer is ever visible through another, and a recycled context
    shows nothing of the request before. *)
Theorem context_refines_table block ops :
  length block = 4096%nat -> Forall sop_ok ops ->
  answers slot_step ops (new_context block) = answers table_step ops table_new.
Proof.
  intros Hb Hok. apply (answers_refine _ _ (fun _ => slot_rel) sop_ok); [|done|].
  - intros. by apply slot_step_sim.
  - split; [split|done].
    + constructor; simpl; try done; lia.
    + constructor; simpl; try done. by repeat constructor.
Qed.

Lemma context_refines_table_witness :
  answers slot_step
    [SWrite 0 3 (replicate 200 7); SScratch (replicate 900 1); SWrite 0 4 [9]; SRead 3; SSetInt 20 5;
     SGetInt 20; SRecycle; SRead 4; SGetInt 20] (new_context (replicate 4096 66)) =
  Ret [SNone; SNone; SNone; SBytes (replicate 200 7); SNone; SInt 5; SNone; SBytes []; SInt 0].
Proof.
  rewrite (context_refines_table (replicate 4096 66)
    [SWrite 0 3 (replicate 200 7); SScratch (replicate 900 1); SWrite 0 4 [9]; SRead 3; SSetInt 20 5;
     SGetInt 20; SRecycle; SRead 4; SGetInt 20]).
  - vm_compute. reflexivity.
  - vm_compute. reflexivity.
  - repeat (constructor; [first [exact I|split; vm_compute; congruence]|]). constructor.
Defined.
