(* ===== verification/ArenaBuf.v ===== *)
(** * Buffers in the request arena

    Writing into a slice of arena memory the way the Go code does
    ([buf[pos] = x], [copy(buf[pos:], bs)], [buf[:n]]), and what such writes do:
    a buffer obtained from [Alloc] is private, so filling it changes nothing
    else. *)

From S2P Require Import Prelude Bytes Context ContextSpec.

Local Open Scope Z_scope.
Local Open Scope rah_scope.

(** [buf[pos] = x] *)
Definition mem_put (m : Mem) (b : slice) (pos x : Z) : outcome Mem :=
  if (0 <=? pos) && (pos <? sl_len b) then Ret (copy m (mkSlice (sl_reg b) (sl_off b + pos) 1) [x]) else Panic.

(** [copy(buf[pos:], bs)] *)
Definition mem_copy_at (m : Mem) (b : slice) (pos : Z) (bs : byte_string) : outcome Mem :=
  if (0 <=? pos) && (pos <=? sl_len b) then Ret (copy m (mkSlice (sl_reg b) (sl_off b + pos) (sl_len b - pos)) bs) else Panic.

(** [buf[:n]] *)
Definition slice_to (b : slice) (n : Z) : outcome slice :=
  if (0 <=? n) && (n <=? sl_len b) then Ret (mkSlice (sl_reg b) (sl_off b) n) else Panic.

(** ** Writing through a buffer *)

Lemma read_splice_within (C d : byte_string) off len pos :
  (off + len <= length C)%nat -> (pos + length d <= len)%nat ->
  take len (drop off (splice C (off + pos) d)) = splice (take len (drop off C)) pos d.
Proof.
  intros Hl Hp. apply list_eq. intros i. rewrite lookup_splice by (rewrite length_take, length_drop; lia).
  destruct (decide (i < len)%nat).
  - rewrite lookup_take_lt, lookup_drop, lookup_splice by lia. rewrite lookup_take_lt, lookup_drop by done.
    destruct (decide (pos <= i < pos + length d)%nat); [rewrite decide_True by lia; f_equal; lia|by rewrite decide_False by lia].
  - rewrite decide_False by lia. by rewrite !lookup_take_ge by lia.
Qed.

(** A slice apart from everything valid in [m0]. *)
Definition apart (m0 : Mem) (b : slice) : Prop := forall s0, valid m0 s0 -> 0 < sl_len s0 -> ContextSpec.disjoint b s0.

(** Memory [m], reached from [m0], with a private buffer [b]. *)
Record private (m0 m : Mem) (b : slice) : Prop := mkPrivate {
  pv_ok : mem_ok m; pv_ext : extends m0 m; pv_valid : valid m b; pv_apart : apart m0 b }.

Lemma alloc_private m0 m n b0 : private m0 m b0 -> 0 <= n ->
  let '(m', b) := Alloc m n in private m0 m' b /\ sl_len b = n /\ valid m' b0 /\ read m' b0 = read m b0.
Proof.
  intros [Hok He Hv Ha] Hn. pose proof (Alloc_spec m n Hok Hn) as H. destruct (Alloc m n) as [m' b]. destruct H as (Hok' & He' & Hv' & Hl & Hd).
  destruct (He' b0 Hv) as [Hvb Hrb]. split; [|done]. split; [done|by eapply extends_trans|done|]. intros s0 Hs0 Hp. apply Hd; [|done]. by apply He.
Qed.

Lemma copy_private m0 m b pos n data : private m0 m b -> 0 <= pos -> 0 <= n -> pos + n <= sl_len b ->
  let m' := copy m (mkSlice (sl_reg b) (sl_off b + pos) n) data in
  private m0 m' b /\ read m' b = splice (read m b) (Z.to_nat pos) (take (Z.to_nat n) data).
Proof.
  intros [Hok He (Hvo & Hvl & Hvu) Ha] Hp Hn Hl m'. pose proof (used_bound m (sl_reg b) Hok) as Hub. unfold m', copy. cbn [sl_len sl_reg sl_off].
  set (d := take (Z.to_nat n) data). assert (length d <= Z.to_nat n)%nat as Hd by (unfold d; rewrite length_take; lia).
  set (C := contents m (sl_reg b)) in *. set (b' := splice C _ d).
  assert (length b' = length C) as Hlen by (apply length_splice; lia). split.
  - split; [by apply set_contents_ok| | |done].
    + intros s0 Hs0. destruct (He s0 Hs0) as [(Ho & Hs & Hu) Hr]. split; [repeat split; try done; by rewrite used_set|]. rewrite <- Hr.
      unfold read. destruct (decide (sl_reg b = sl_reg s0)) as [E|E]; [|by rewrite contents_set_other]. rewrite <- E, contents_set_same by done.
      destruct (decide (sl_len s0 = 0)) as [->|Hz]; [by rewrite !take_0|].
      fold C; unfold b'; apply read_splice_other; [lia|]. destruct (Ha s0 Hs0) as [?|[?|?]]; [lia|done|right; lia|left; lia].
    + repeat split; try done. by rewrite used_set.
  - unfold read. rewrite contents_set_same by done. fold C. unfold b'.
    replace (Z.to_nat (sl_off b + pos)) with (Z.to_nat (sl_off b) + Z.to_nat pos)%nat by lia. apply read_splice_within; lia.
Qed.

Lemma read_length m b : mem_ok m -> valid m b -> Z.of_nat (length (read m b)) = sl_len b.
Proof.
  intros Hok (Ho & Hl & Hu). pose proof (used_bound m (sl_reg b) Hok). unfold read. rewrite length_take, length_drop. lia.
Qed.
