(* ===== verification/Request.v ===== *)
(** * Per-request bookkeeping of the context

    [internal/rctx]: the record of executed instructions (instr_block.go),
    transaction ids (txid.go), the timeout state that makes the context a
    [context.Context] (context.go), and the response side: buffered or
    streamed writes, headers and the final flush (context.go). *)

From S2P Require Import Prelude.
From stdpp Require Import base numbers list gmap.

Local Open Scope Z_scope.
Local Open Scope rah_scope.

(** ** Instruction trace (instr_block.go) *)

Module Trace.

Inductive InstrBlock : Type :=
| mkBlock (PCs Durs : list Z) (N : Z) (Next : option InstrBlock).

(** [&InstrBlock{}]. *)
Definition new_block : InstrBlock := mkBlock (replicate 64 0) (replicate 64 0) 0 None.

Record Instrs : Type := mkInstrs {
  InstrPC : list Z;
  InstrDurNs : list Z;
  InstrCount : Z;
  InstrOverflow : option InstrBlock
}.

(** [a[i] = v] on an array: panics outside it. *)
Definition store_at (l : list Z) (i v : Z) : outcome (list Z) :=
  _ <-- go_index l i ;; Ret (<[Z.to_nat i:=v]> l).

(** The walk to the last block and the write there, or in a new block behind it. *)
Fixpoint append_chain (b : InstrBlock) (pc durNs : Z) : outcome InstrBlock :=
  match b with
  | mkBlock PCs Durs N (Some next) =>
    next' <-- append_chain next pc durNs ;; Ret (mkBlock PCs Durs N (Some next'))
  | mkBlock PCs Durs N None =>
    if N <? Z.of_nat (length PCs) then
      PCs' <-- store_at PCs N pc ;;
      Durs' <-- store_at Durs N durNs ;;
      Ret (mkBlock PCs' Durs' (u8 (N + 1)) None)
    else
      let nb := mkBlock (<[0%nat:=pc]> (replicate 64 0)) (<[0%nat:=durNs]> (replicate 64 0)) 1 None in
      Ret (mkBlock PCs Durs N (Some nb))
  end.

Definition AppendInstr (c : Instrs) (pc durNs : Z) : outcome Instrs :=
  if InstrCount c <? 64 then
    pcs <-- store_at (InstrPC c) (InstrCount c) pc ;;
    durs <-- store_at (InstrDurNs c) (InstrCount c) durNs ;;
    Ret (mkInstrs pcs durs (u8 (InstrCount c + 1)) (InstrOverflow c))
  else
    b <-- append_chain (default new_block (InstrOverflow c)) pc durNs ;;
    Ret (mkInstrs (InstrPC c) (InstrDurNs c) (InstrCount c) (Some b)).

(** The calls [fn(pc, durNs)] of one array, in order: entries [i .. i+n-1]. *)
Fixpoint iter_array (pcs durs : list Z) (i : Z) (n : nat) : outcome (list (Z * Z)) :=
  match n with
  | O => Ret []
  | S n' =>
    pc <-- go_index pcs i ;;
    d <-- go_index durs i ;;
    rest <-- iter_array pcs durs (i + 1) n' ;;
    Ret ((pc, d) :: rest)
  end.

Fixpoint iter_chain (b : InstrBlock) : outcome (list (Z * Z)) :=
  match b with
  | mkBlock PCs Durs N Next =>
    l <-- iter_array PCs Durs 0 (Z.to_nat N) ;;
    match Next with
    | None => Ret l
    | Some b' => rest <-- iter_chain b' ;; Ret (l ++ rest)
    end
  end.

(** [IterInstructions]: the list of calls to [fn]. *)
Definition IterInstructions (c : Instrs) : outcome (list (Z * Z)) :=
  l <-- iter_array (InstrPC c) (InstrDurNs c) 0 (Z.to_nat (InstrCount c)) ;;
  match InstrOverflow c with
  | None => Ret l
  | Some b => rest <-- iter_chain b ;; Ret (l ++ rest)
  end.

Fixpoint chain_count (b : InstrBlock) : Z :=
  match b with
  | mkBlock _ _ N None => N
  | mkBlock _ _ N (Some b') => N + chain_count b'
  end.

Definition TotalInstrCount (c : Instrs) : Z :=
  InstrCount c + match InstrOverflow c with None => 0 | Some b => chain_count b end.

(** The trace part of [Context.Reset]: the arrays keep their contents. *)
Definition ResetInstrs (c : Instrs) : Instrs :=
  mkInstrs (InstrPC c) (InstrDurNs c) 0 None.

Fixpoint AppendAll (c : Instrs) (l : list (Z * Z)) : outcome Instrs :=
  match l with
  | [] => Ret c
  | (pc, d) :: l' => c' <-- AppendInstr c pc d ;; AppendAll c' l'
  end.

End Trace.

(** ** Transaction ids (txid.go) *)

Module TxID.

Record TxIDGenerator : Type := mkGen { fingerprint : Z * Z; counter : Z }.

(** [Generate]: the new generator state and the two words of the id. *)
Definition Generate (g : TxIDGenerator) (requestStartNs : Z) : TxIDGenerator * (Z * Z) :=
  let epochMs := Z.shiftr (u64 requestStartNs) 20 in
  let counter' := u64 (counter g + 1) in
  let seq := Z.land counter' (Z.ones 32) in
  (mkGen (fingerprint g) counter',
   (Z.lxor (fingerprint g).1 (Z.lor (shl 64 epochMs 32) seq), (fingerprint g).2)).

Definition hx : byte_string := bytes_of "0123456789abcdef".

(** [for i := at+n-1; i >= at; i-- { dst[i] = hx[v&0xf]; v >>= 4 }]. *)
Fixpoint hex_loop (dst : byte_string) (at_ : nat) (n : nat) (v : Z) : outcome byte_string :=
  match n with
  | O => Ret dst
  | S n' =>
    c <-- go_index hx (Z.land v 15) ;;
    _ <-- go_index dst (Z.of_nat (at_ + n')) ;;
    hex_loop (<[(at_ + n')%nat:=c]> dst) at_ n' (Z.shiftr v 4)
  end.

Definition FormatTxIDInto (dst : byte_string) (id : Z * Z) : outcome byte_string :=
  dst <-- hex_loop dst 0 16 id.1 ;;
  hex_loop dst 16 16 id.2.

End TxID.

(** ** Upstream timeouts (context.go)

    The context doubles as a [context.Context].  Channels are numbered; a
    closed channel stays closed, and closing it again is a panic.  A
    [sync.Once] is the flag that says whether it has run. *)

Module Timeout.

Inductive ctx_error : Type := DeadlineExceeded | Canceled.

Record State : Type := mkState {
  requestDeadline : option Z;      (* None: the zero time *)
  doneChan : option nat;           (* None: nil *)
  cancelOnce : bool;
  cancelState : Z;
  timedOut : Z;
  generation : Z;
  hadUpstreamTimeout : bool;
  closed : list bool               (* the channels made so far *)
}.

Definition make_chan (s : State) : State :=
  mkState (requestDeadline s) (Some (length (closed s))) (cancelOnce s) (cancelState s) (timedOut s)
    (generation s) (hadUpstreamTimeout s) (closed s ++ [false]).

Definition close_chan (s : State) (ch : nat) : outcome State :=
  match closed s !! ch with
  | Some false =>
    Ret (mkState (requestDeadline s) (doneChan s) (cancelOnce s) (cancelState s) (timedOut s)
           (generation s) (hadUpstreamTimeout s) (<[ch:=true]> (closed s)))
  | _ => Panic
  end.

Definition Deadline (s : State) : option Z := requestDeadline s.

Definition Done (s : State) : option nat :=
  match requestDeadline s with None => None | Some _ => doneChan s end.

Definition Err (s : State) : option ctx_error :=
  if cancelState s =? 1 then Some DeadlineExceeded
  else if cancelState s =? 2 then Some Canceled
  else None.

Definition SetUpstreamTimeout (s : State) (now d : Z) : State * Z :=
  let s1 := mkState (Some (now + d)) (doneChan s) (cancelOnce s) (cancelState s) (timedOut s)
              (generation s) true (closed s) in
  let s2 := match doneChan s with None => make_chan s1 | Some _ => s1 end in
  (s2, generation s2).

Definition ClearUpstreamTimeout (s : State) : State :=
  mkState None (doneChan s) (cancelOnce s) (cancelState s) (timedOut s)
    (generation s) (hadUpstreamTimeout s) (closed s).

Definition is_deadline (e : ctx_error) : bool :=
  match e with DeadlineExceeded => true | Canceled => false end.

Definition Cancel (s : State) (err : ctx_error) : outcome State :=
  let state := if is_deadline err then 1 else 2 in
  if cancelOnce s then Ret s
  else
    let s1 := mkState (requestDeadline s) (doneChan s) true state
                (if is_deadline err then 1 else timedOut s)
                (generation s) (hadUpstreamTimeout s) (closed s) in
    match doneChan s1 with Some ch => close_chan s1 ch | None => Ret s1 end.

Definition CancelIfGeneration (s : State) (capturedGen : Z) (err : ctx_error) : outcome State :=
  if negb (generation s =? capturedGen) then Ret s else Cancel s err.

Definition TimedOut (s : State) : bool := negb (timedOut s =? 0).

(** The timeout part of [Context.Reset]. *)
Definition ResetTimeout (s : State) : State :=
  if hadUpstreamTimeout s then
    let needNewChan := bool_decide (doneChan s = None)
                       || negb (cancelState s =? 0) || negb (timedOut s =? 0) in
    let s1 := mkState None (doneChan s) false 0 0 (u64 (generation s + 1)) false (closed s) in
    if needNewChan then make_chan s1 else s1
  else s.

(** A context as [InitSlots] leaves it. *)
Definition init : State := mkState None (Some 0%nat) false 0 0 0 false [false].

End Timeout.
