(* ===== verification/RequestSpec.v ===== *)
(** * Correctness of the per-request bookkeeping *)

From S2P Require Import Prelude Bits Request.
From stdpp Require Import base numbers list gmap.

Local Open Scope Z_scope.
Local Open Scope rah_scope.

Module TraceSpec.
Import Trace.

(** An array of 64 entries whose first [N] hold the list [l]. *)
Definition holds (pcs durs : list Z) (N : Z) (l : list (Z * Z)) : Prop :=
  length pcs = 64%nat /\ length durs = 64%nat /\ N = Z.of_nat (length l) /\ N <= 64 /\
  take (length l) pcs = l.*1 /\ take (length l) durs = l.*2.

(** A chain of blocks, all full but the last, which is not empty. *)
Inductive chain_holds : InstrBlock -> list (Z * Z) -> Prop :=
| chain_last pcs durs N l :
    holds pcs durs N l -> 0 < N -> chain_holds (mkBlock pcs durs N None) l
| chain_more pcs durs b l l' :
    holds pcs durs 64 l -> chain_holds b l' -> chain_holds (mkBlock pcs durs 64 (Some b)) (l ++ l').

Inductive trace_rel : Instrs -> list (Z * Z) -> Prop :=
| trace_inline pcs durs N l :
    holds pcs durs N l -> trace_rel (mkInstrs pcs durs N None) l
| trace_spilled pcs durs b l l' :
    holds pcs durs 64 l -> chain_holds b l' ->
    trace_rel (mkInstrs pcs durs 64 (Some b)) (l ++ l').

Lemma take_insert_end {A} (l l0 : list A) v :
  take (length l0) l = l0 -> (length l0 < length l)%nat ->
  take (S (length l0)) (<[length l0:=v]> l) = l0 ++ [v].
Proof.
  intros H Hlt. rewrite (take_S_r _ _ v) by (by apply list_lookup_insert_eq).
  by rewrite take_insert_ge, H by lia.
Qed.

Lemma store_at_ok l i v : 0 <= i < Z.of_nat (length l) -> store_at l i v = Ret (<[Z.to_nat i:=v]> l).
Proof.
  intros Hi. unfold store_at.
  destruct (lookup_lt_is_Some_2 l (Z.to_nat i)) as [x Hx]; [lia|].
  by rewrite (go_index_Z _ _ x) by (lia || done).
Qed.

(** Writing behind the last entry of an array that is not full. *)
Lemma holds_snoc pcs durs N l pc d :
  holds pcs durs N l -> N < 64 ->
  store_at pcs N pc = Ret (<[Z.to_nat N:=pc]> pcs) /\
  store_at durs N d = Ret (<[Z.to_nat N:=d]> durs) /\
  holds (<[Z.to_nat N:=pc]> pcs) (<[Z.to_nat N:=d]> durs) (u8 (N + 1)) (l ++ [(pc, d)]).
Proof.
  intros (Hp & Hd & -> & HN & Tp & Td) Hlt.
  rewrite !store_at_ok by lia. split_and!; [done|done|].
  rewrite wrapu_small by lia. rewrite Nat2Z.id. unfold holds.
  rewrite !length_insert, length_app, !fmap_app. cbn [length].
  rewrite Nat.add_1_r. split_and!; [done|done|lia|lia| |].
  - rewrite <- (length_fmap fst l). apply take_insert_end; rewrite length_fmap; [done|lia].
  - rewrite <- (length_fmap snd l). apply take_insert_end; rewrite length_fmap; [done|lia].
Qed.

Lemma holds_single pc d :
  holds (<[0%nat:=pc]> (replicate 64 0)) (<[0%nat:=d]> (replicate 64 0)) 1 [(pc, d)].
Proof. unfold holds. split_and!; done. Qed.

Lemma append_chain_spec b l pc d :
  chain_holds b l -> exists b', append_chain b pc d = Ret b' /\ chain_holds b' (l ++ [(pc, d)]).
Proof.
  induction 1 as [pcs durs N l H HN|pcs durs b l l' H Hb (b' & Eb & Hb')].
  - cbn [append_chain]. destruct H as (Hp & H') eqn:E. rewrite Hp. clear E.
    change (Z.of_nat 64) with 64. destruct (Z.ltb_spec N 64) as [Hlt|Hge].
    + destruct (holds_snoc pcs durs N l pc d (conj Hp H') Hlt) as (E1 & E2 & Hh).
      rewrite E1, E2. cbn [obind]. eexists; split; [done|]. constructor; [done|].
      rewrite wrapu_small; lia.
    + assert (N = 64) as -> by (destruct H' as (_ & _ & ? & _); lia).
      eexists; split; [done|]. apply chain_more; [done|]. constructor; [apply holds_single|lia].
  - cbn [append_chain]. rewrite Eb. cbn [obind]. eexists; split; [done|].
    rewrite <- app_assoc. by constructor.
Qed.

Lemma append_new_block pc d :
  exists b, append_chain new_block pc d = Ret b /\ chain_holds b [(pc, d)].
Proof. eexists; split; [reflexivity|]. constructor; [apply holds_single|done]. Qed.

Lemma AppendInstr_spec c l pc d :
  trace_rel c l -> exists c', AppendInstr c pc d = Ret c' /\ trace_rel c' (l ++ [(pc, d)]).
Proof.
  intros [pcs durs N l0 H|pcs durs b l0 l' H Hb]; unfold AppendInstr; cbn [InstrCount InstrPC InstrDurNs InstrOverflow].
  - destruct (Z.ltb_spec N 64) as [Hlt|Hge].
    + destruct (holds_snoc pcs durs N l0 pc d H Hlt) as (E1 & E2 & Hh).
      rewrite E1, E2. cbn [obind]. eexists; split; [done|]. by constructor.
    + assert (N = 64) as -> by (destruct H as (_ & _ & _ & ? & _); lia).
      destruct (append_new_block pc d) as (b' & Eb & Hb').
      cbn [default from_option id]. rewrite Eb. cbn [obind].
      eexists; split; [done|]. by constructor.
  - destruct (append_chain_spec b l' pc d Hb) as (b' & Eb & Hb').
    change (64 <? 64) with false. cbn [default from_option id]. rewrite Eb. cbn [obind].
    eexists; split; [done|]. rewrite <- app_assoc. by constructor.
Qed.
Lemma AppendAll_spec es c l :
  trace_rel c l -> exists c', AppendAll c es = Ret c' /\ trace_rel c' (l ++ es).
Proof.
  revert c l. induction es as [|[pc d] es IH]; intros c l H.
  - exists c. by rewrite app_nil_r.
  - destruct (AppendInstr_spec c l pc d H) as (c1 & E1 & H1).
    destruct (IH c1 _ H1) as (c2 & E2 & H2). exists c2. cbn [AppendAll]. rewrite E1. cbn [obind].
    by rewrite <- app_assoc in H2.
Qed.

(** Reading back what an array holds. *)
Lemma iter_array_suffix pcs durs l1 l2 :
  take (length (l1 ++ l2)) pcs = (l1 ++ l2).*1 -> take (length (l1 ++ l2)) durs = (l1 ++ l2).*2 ->
  iter_array pcs durs (Z.of_nat (length l1)) (length l2) = Ret l2.
Proof.
  revert l1. induction l2 as [|[pc d] l2 IH]; intros l1 Tp Td; [done|]. cbn [iter_array length].
  assert (pcs !! length l1 = Some pc) as Ep.
  { rewrite <- (lookup_take_lt pcs (length (l1 ++ (pc, d) :: l2))), Tp.
    - rewrite fmap_app, lookup_app_r; rewrite length_fmap; [|done]. by rewrite Nat.sub_diag.
    - rewrite length_app. simpl. lia. }
  assert (durs !! length l1 = Some d) as Ed.
  { rewrite <- (lookup_take_lt durs (length (l1 ++ (pc, d) :: l2))), Td.
    - rewrite fmap_app, lookup_app_r; rewrite length_fmap; [|done]. by rewrite Nat.sub_diag.
    - rewrite length_app. simpl. lia. }
  rewrite (go_index_nat _ _ _ Ep), (go_index_nat _ _ _ Ed). cbn [obind].
  replace (Z.of_nat (length l1) + 1) with (Z.of_nat (length (l1 ++ [(pc, d)]))) by (rewrite length_app; simpl; lia).
  rewrite (IH (l1 ++ [(pc, d)])); [done| |]; by rewrite <- app_assoc.
Qed.

Lemma iter_array_holds pcs durs N l : holds pcs durs N l -> iter_array pcs durs 0 (Z.to_nat N) = Ret l.
Proof.
  intros (_ & _ & -> & _ & Tp & Td). rewrite Nat2Z.id. by apply (iter_array_suffix pcs durs [] l).
Qed.

Lemma iter_chain_spec b l :
  chain_holds b l -> iter_chain b = Ret l /\ chain_count b = Z.of_nat (length l).
Proof.
  induction 1 as [pcs durs N l H HN|pcs durs b l l' H Hb [E1 E2]]; cbn [iter_chain chain_count].
  - rewrite (iter_array_holds _ _ _ _ H). split; [done|]. by destruct H as (_ & _ & -> & _).
  - rewrite (iter_array_holds _ _ _ _ H), E1, E2, length_app. split; [done|].
    destruct H as (_ & _ & ? & _). lia.
Qed.

Lemma trace_read c l :
  trace_rel c l -> IterInstructions c = Ret l /\ TotalInstrCount c = Z.of_nat (length l).
Proof.
  unfold IterInstructions, TotalInstrCount.
  intros [pcs durs N l0 H|pcs durs b l0 l' H Hb]; cbn [InstrCount InstrPC InstrDurNs InstrOverflow];
    rewrite (iter_array_holds _ _ _ _ H); cbn [obind].
  - split; [done|]. destruct H as (_ & _ & -> & _). lia.
  - destruct (iter_chain_spec b l' Hb) as [-> ->]. split; [done|].
    rewrite length_app. destruct H as (_ & _ & ? & _). lia.
Qed.

(** The instruction trace is exact.  Whatever an earlier request left in
    the pooled arrays, after [Reset] every instruction appended is recorded:
    no append panics, however many there are, [IterInstructions] reports
    exactly the appended pairs in order, across the inline arrays and the
    overflow chain, and [TotalInstrCount] is their number. *)
Theorem instr_trace_exact c0 es :
  length (InstrPC c0) = 64%nat -> length (InstrDurNs c0) = 64%nat ->
  exists c, AppendAll (ResetInstrs c0) es = Ret c /\
    IterInstructions c = Ret es /\ TotalInstrCount c = Z.of_nat (length es).
Proof.
  intros Hp Hd. destruct (AppendAll_spec es (ResetInstrs c0) []) as (c & E & H).
  - constructor. unfold holds. by split_and!.
  - exists c. split; [done|]. by apply trace_read.
Qed.

Lemma instr_trace_exact_witness :
  exists c, AppendAll (ResetInstrs (mkInstrs (replicate 64 9) (replicate 64 9) 64 (Some new_block)))
              (zip (seqZ 0 200) (seqZ 1000 200)) = Ret c /\
    IterInstructions c = Ret (zip (seqZ 0 200) (seqZ 1000 200)) /\ TotalInstrCount c = 200.
Proof.
  apply (instr_trace_exact (mkInstrs (replicate 64 9) (replicate 64 9) 64 (Some new_block))
           (zip (seqZ 0 200) (seqZ 1000 200))); reflexivity.
Defined.

End TraceSpec.

Module TxIDSpec.
Import TxID.

(** ** Hexadecimal digits *)

Definition hexchar (d : Z) : Z := if d <? 10 then 48 + d else 87 + d.
Definition hexval (c : Z) : Z := if c <? 58 then c - 48 else c - 87.

Fixpoint hexn (n : nat) (v : Z) : byte_string :=
  match n with O => [] | S n' => hexn n' (Z.shiftr v 4) ++ [hexchar (Z.land v 15)] end.

Definition parse_hex (s : byte_string) : Z := foldl (fun a c => 16 * a + hexval c) 0 s.

Lemma land_15 v : Z.land v 15 = v mod 16.
Proof. exact (Z.land_ones v 4 ltac:(lia)). Qed.

Lemma hx_lookup d : 0 <= d < 16 -> go_index hx d = Ret (hexchar d).
Proof.
  intros H. rewrite <- (Z2Nat.id d) by lia. assert (Z.to_nat d < 16)%nat as Hn by lia.
  revert Hn. generalize (Z.to_nat d) as n. intros n Hn. clear H d.
  do 16 (destruct n as [|n]; [reflexivity|]). lia.
Qed.

Lemma hexval_hexchar d : 0 <= d < 16 -> hexval (hexchar d) = d.
Proof.
  intros H. unfold hexchar, hexval. destruct (Z.ltb_spec d 10).
  - rewrite (proj2 (Z.ltb_lt _ _)) by lia. lia.
  - rewrite (proj2 (Z.ltb_ge _ _)) by lia. lia.
Qed.

Lemma hexn_length n v : length (hexn n v) = n.
Proof. revert v. induction n as [|n IH]; intros v; [done|]. cbn [hexn]. rewrite length_app, IH. simpl. lia. Qed.

Lemma parse_hexn n v : 0 <= v -> parse_hex (hexn n v) = v mod 16 ^ Z.of_nat n.
Proof.
  revert v. induction n as [|n IH]; intros v Hv; [by rewrite Z.mod_1_r|].
  cbn [hexn]. unfold parse_hex in *. rewrite foldl_app. cbn [foldl].
  rewrite IH by (by apply Z.shiftr_nonneg). rewrite land_15, hexval_hexchar by (apply Z.mod_pos_bound; lia).
  rewrite Z.shiftr_div_pow2 by lia. change (2 ^ 4) with 16.
  rewrite Nat2Z.inj_succ, Z.pow_succ_r by lia.
  rewrite (Z.rem_mul_r v 16 (16 ^ Z.of_nat n)) by lia. lia.
Qed.

(** What the loop leaves in the buffer. *)
Lemma hex_loop_spec n dst at_ v :
  (at_ + n <= length dst)%nat ->
  hex_loop dst at_ n v = Ret (take at_ dst ++ hexn n v ++ drop (at_ + n) dst).
Proof.
  revert dst v. induction n as [|n IH]; intros dst v Hlen; cbn [hex_loop hexn].
  - rewrite Nat.add_0_r. by rewrite app_nil_l, take_drop.
  - rewrite land_15, hx_lookup by (apply Z.mod_pos_bound; lia). cbn [obind].
    destruct (lookup_lt_is_Some_2 dst (at_ + n)) as [x Hx]; [lia|].
    rewrite (go_index_nat _ _ _ Hx). cbn [obind]. rewrite IH by (rewrite length_insert; lia).
    f_equal. rewrite take_insert_ge by lia. f_equal. rewrite <- app_assoc. f_equal.
    rewrite (drop_S _ (hexchar (v mod 16)) (at_ + n)) by (apply list_lookup_insert_eq; lia).
    cbn [app]. f_equal. rewrite drop_insert_lt by lia. f_equal. lia.
Qed.

Lemma FormatTxIDInto_spec dst id :
  (32 <= length dst)%nat ->
  FormatTxIDInto dst id = Ret (hexn 16 id.1 ++ hexn 16 id.2 ++ drop 32 dst).
Proof.
  intros H. unfold FormatTxIDInto. rewrite hex_loop_spec by lia. cbn [obind]. rewrite take_0, app_nil_l.
  rewrite hex_loop_spec by (rewrite length_app, hexn_length, length_drop; lia).
  f_equal. rewrite (take_app_length' _ _ 16) by (by rewrite hexn_length).
  rewrite drop_app_ge by (rewrite hexn_length; lia). by rewrite hexn_length, drop_drop.
Qed.

(** A run of the generator. *)
Fixpoint generate_all (g : TxIDGenerator) (ts : list Z) : list (Z * Z) :=
  match ts with
  | [] => []
  | t :: ts' => (Generate g t).2 :: generate_all (Generate g t).1 ts'
  end.

Definition gen_ok (g : TxIDGenerator) : Prop :=
  0 <= (fingerprint g).1 < 2 ^ 64 /\ 0 <= (fingerprint g).2 < 2 ^ 64 /\ 0 <= counter g < 2 ^ 64.

Lemma mod_64_32 x : (x mod 2 ^ 64) mod 2 ^ 32 = x mod 2 ^ 32.
Proof. apply Z.mod_mod_divide. by exists (2 ^ 32). Qed.

Lemma word_low t c :
  Z.land (Z.lor (shl 64 (Z.shiftr (u64 t) 20) 32) (Z.land c (Z.ones 32))) (Z.ones 32) = c mod 2 ^ 32.
Proof.
  rewrite Z.land_lor_distr_l, <- Z.land_assoc, Z.land_diag, !Z.land_ones by lia.
  unfold shl at 1, wrapu at 1. rewrite mod_64_32, Z.shiftl_mul_pow2, Z.mod_mul by lia.
  apply Z.lor_0_l.
Qed.

(** The low half of the first word determines the low half of the counter. *)
Lemma Generate_low g t :
  Z.land (Z.lxor (Generate g t).2.1 (fingerprint g).1) (Z.ones 32) = (counter g + 1) mod 2 ^ 32.
Proof.
  unfold Generate. cbn [fst snd]. rewrite Z.lxor_comm, <- Z.lxor_assoc, Z.lxor_nilpotent, Z.lxor_0_l.
  rewrite word_low. unfold wrapu. apply mod_64_32.
Qed.

Lemma generate_all_low ts g i id :
  generate_all g ts !! i = Some id ->
  Z.land (Z.lxor id.1 (fingerprint g).1) (Z.ones 32) = (counter g + 1 + Z.of_nat i) mod 2 ^ 32.
Proof.
  revert g i. induction ts as [|t ts IH]; intros g i H; [done|].
  destruct i as [|i]; cbn [generate_all lookup list_lookup] in H.
  - assert (id = (Generate g t).2) as -> by congruence. rewrite Generate_low. f_equal. lia.
  - apply IH in H. cbn [Generate fst snd fingerprint counter] in H. rewrite H. unfold wrapu.
    rewrite <- Z.add_assoc, <- Z.add_mod_idemp_l, mod_64_32, Z.add_mod_idemp_l by lia.
    f_equal. lia.
Qed.

Lemma generate_all_words ts g id :
  gen_ok g -> id ∈ generate_all g ts -> 0 <= id.1 < 2 ^ 64 /\ 0 <= id.2 < 2 ^ 64.
Proof.
  revert g. induction ts as [|t ts IH]; intros g (H1 & H2 & H3) Hin; [by apply elem_of_nil in Hin|].
  cbn [generate_all] in Hin. apply elem_of_cons in Hin as [->|Hin].
  - split; [|exact H2]. cbn [Generate fst snd].
    set (w := Z.lor _ _). assert (0 <= w < 2 ^ 64) as Hw; [|clearbody w].
    { assert (0 <= w) by (apply Z.lor_nonneg; split; [unfold shl; apply wrapu_bound; lia|apply Z.land_nonneg; right; vm_compute; congruence]).
      split; [done|]. apply Z.bounded_iff_bits_nonneg; [lia|done|].
      intros l Hl. unfold w. rewrite Z.lor_spec, Z.land_spec.
      rewrite (testbit_small 64) by (unfold shl; first [apply wrapu_bound; lia|lia]).
      rewrite Z.ones_spec_high by lia. by rewrite andb_false_r. }
    split; [apply Z.lxor_nonneg; lia|].
    apply Z.bounded_iff_bits_nonneg; [lia|apply Z.lxor_nonneg; lia|]. intros l Hl.
    by rewrite Z.lxor_spec, !(testbit_small 64) by lia.
  - apply (IH (Generate g t).1); [|done]. split; [exact H1|]. split; [exact H2|].
    cbn [Generate fst counter]. apply wrapu_bound. lia.
Qed.

(** C39: Transaction ids are unique and legible.  Up to 2^32 consecutive calls
    of [Generate], whatever the start times and wherever the counter stands,
    give pairwise different ids; [FormatTxIDInto] writes each into any buffer
    of at least 32 bytes without touching the rest, and the 32 hexadecimal
    digits read back as the two words of the id, so the formatted ids are
    pairwise different too. *)
Theorem txid_unique g ts dst :
  gen_ok g -> Z.of_nat (length ts) <= 2 ^ 32 -> (32 <= length dst)%nat ->
  NoDup (generate_all g ts) /\
  Forall (fun id => exists s, FormatTxIDInto dst id = Ret (s ++ drop 32 dst) /\ length s = 32%nat /\
                      (parse_hex (take 16 s), parse_hex (drop 16 s)) = id) (generate_all g ts).
Proof.
  intros Hg Hlen Hdst. split.
  - apply NoDup_alt. intros i j id Hi Hj.
    assert (length (generate_all g ts) = length ts) as Hl by (clear; revert g; induction ts; intros g; simpl; f_equal; auto).
    apply lookup_lt_Some in Hi as Hi'. apply lookup_lt_Some in Hj as Hj'.
    apply generate_all_low in Hi. apply generate_all_low in Hj. rewrite Hi in Hj.
    Z.to_euclidean_division_equations. lia.
  - apply Forall_forall. intros id Hin. apply (generate_all_words ts g id Hg) in Hin as [H1 H2].
    exists (hexn 16 id.1 ++ hexn 16 id.2). rewrite FormatTxIDInto_spec, <- app_assoc by done.
    split; [done|]. split; [by rewrite length_app, !hexn_length|].
    rewrite (take_app_length' _ _ 16), (drop_app_length' _ _ 16) by (by rewrite hexn_length).
    rewrite !parse_hexn by lia. change (16 ^ Z.of_nat 16) with (2 ^ 64).
    rewrite !Z.mod_small by lia. by destruct id.
Qed.

Lemma txid_unique_witness :
  NoDup (generate_all (mkGen (5, 2 ^ 63) (2 ^ 64 - 2)) [2 ^ 40; 7; 7; 2 ^ 60]).
Proof.
  apply (txid_unique (mkGen (5, 2 ^ 63) (2 ^ 64 - 2)) [2 ^ 40; 7; 7; 2 ^ 60] (replicate 40 0)).
  - unfold gen_ok. cbn [fingerprint counter fst snd]. lia.
  - vm_compute. congruence.
  - simpl. lia.
Defined.

(** A later id can be the smaller one: the fingerprint is mixed in by xor. *)
Lemma txid_not_time_ordered :
  let g := mkGen (2 ^ 32, 0) 0 in
  exists t1 t2, 0 <= t1 < t2 /\ (Generate (Generate g t1).1 t2).2.1 < (Generate g t1).2.1.
Proof. exists 0, (2 ^ 20). vm_compute. split_and!; congruence. Qed.

End TxIDSpec.

(** ** Timeouts

    The contract: the timers armed during one request cancel that request and
    no other.  Abstractly the context knows which request it serves, and every
    timer remembers the request that armed it. *)

Module TimeoutSpec.
Import Timeout.

Inductive top : Type :=
| Arm (now d : Z)
| Clear
| Fire (k : nat)           (* the [k]-th timer armed so far goes off *)
| Recycle                  (* the context serves the next request *)
| AskErr
| AskDone
| AskDeadline
| AskTimedOut.

Inductive tans : Type :=
| TNone
| TErr (e : option ctx_error)
| TDone (c : option bool)     (* nil, or a channel and whether it is closed *)
| TDeadline (d : option Z)
| TBool (b : bool).

(** The code, with the tokens its timers captured. *)
Definition tstep (o : top) (st : State * list Z) : outcome ((State * list Z) * tans) :=
  let '(s, toks) := st in
  match o with
  | Arm now d => let '(s', tok) := SetUpstreamTimeout s now d in Ret ((s', toks ++ [tok]), TNone)
  | Clear => Ret ((ClearUpstreamTimeout s, toks), TNone)
  | Fire k =>
    match toks !! k with
    | Some tok => s' <-- CancelIfGeneration s tok DeadlineExceeded ;; Ret ((s', toks), TNone)
    | None => Ret ((s, toks), TNone)
    end
  | Recycle => Ret ((ResetTimeout s, toks), TNone)
  | AskErr => Ret ((s, toks), TErr (Err s))
  | AskDone =>
    match Done s with
    | None => Ret ((s, toks), TDone None)
    | Some ch => match closed s !! ch with Some b => Ret ((s, toks), TDone (Some b)) | None => Panic end
    end
  | AskDeadline => Ret ((s, toks), TDeadline (Deadline s))
  | AskTimedOut => Ret ((s, toks), TBool (TimedOut s))
  end.

Record abs : Type := mkAbs {
  request : nat;
  deadline : option Z;
  expired : bool;
  timers : list nat          (* the request each timer was armed for *)
}.

Definition astep (o : top) (a : abs) : outcome (abs * tans) :=
  match o with
  | Arm now d => Ret (mkAbs (request a) (Some (now + d)) (expired a) (timers a ++ [request a]), TNone)
  | Clear => Ret (mkAbs (request a) None (expired a) (timers a), TNone)
  | Fire k =>
    Ret (mkAbs (request a) (deadline a) (expired a || bool_decide (timers a !! k = Some (request a))) (timers a), TNone)
  | Recycle => Ret (mkAbs (S (request a)) None false (timers a), TNone)
  | AskErr => Ret (a, TErr (if expired a then Some DeadlineExceeded else None))
  | AskDone => Ret (a, TDone (match deadline a with None => None | Some _ => Some (expired a) end))
  | AskDeadline => Ret (a, TDeadline (deadline a))
  | AskTimedOut => Ret (a, TBool (expired a))
  end.

Definition abs_init : abs := mkAbs 0 None false [].

Record rel (n : nat) (st : State * list Z) (a : abs) : Prop := {
  rel_gen : 0 <= generation st.1 /\ generation st.1 + Z.of_nat n < 2 ^ 64;
  rel_deadline : requestDeadline st.1 = deadline a;
  rel_chan : exists ch, doneChan st.1 = Some ch /\ closed st.1 !! ch = Some (expired a);
  rel_once : cancelOnce st.1 = expired a;
  rel_state : cancelState st.1 = if expired a then 1 else 0;
  rel_timed : timedOut st.1 = if expired a then 1 else 0;
  rel_had : hadUpstreamTimeout st.1 = false -> deadline a = None /\ expired a = false;
  rel_tokens : Forall2 (fun tok r => tok <= generation st.1 /\ (r <= request a)%nat /\
                 (tok = generation st.1 <-> r = request a) /\
                 (r = request a -> hadUpstreamTimeout st.1 = true)) st.2 (timers a)
}.

Lemma rel_mono n st a : rel (S n) st a -> rel n st a.
Proof. intros []. constructor; try done. lia. Qed.

Lemma fire_sim n s toks a tok :
  rel n (s, toks) a -> tok = generation s -> hadUpstreamTimeout s = true ->
  exists s', Cancel s DeadlineExceeded = Ret s' /\
    rel n (s', toks) (mkAbs (request a) (deadline a) true (timers a)).
Proof.
  intros [Hg Hd (ch & Hch & Hcl) Ho Hs Ht Hh Hk] -> Hhad. cbn [fst snd] in *.
  unfold Cancel. rewrite Ho. destruct (expired a) eqn:Ex.
  - exists s. split; [done|]. constructor; cbn [fst snd expired deadline timers request]; try done.
    by exists ch.
  - cbn [is_deadline doneChan]. rewrite Hch. unfold close_chan. cbn [closed]. rewrite Hcl.
    eexists; split; [done|]. constructor; cbn; try done.
    + exists ch. split; [done|]. apply list_lookup_insert_eq. by apply lookup_lt_Some in Hcl.
    + intros; congruence.
Qed.

Lemma recycle_sim n s toks a :
  rel (S n) (s, toks) a -> rel n (ResetTimeout s, toks) (mkAbs (S (request a)) None false (timers a)).
Proof.
  intros [Hg Hd (ch & Hch & Hcl) Ho Hs Ht Hh Hk]. cbn [fst snd] in *. unfold ResetTimeout.
  destruct (hadUpstreamTimeout s) eqn:Hhad.
  - rewrite Hch, (bool_decide_eq_false_2 (Some ch = None)), Hs, Ht by done.
    assert (u64 (generation s + 1) = generation s + 1) as Eg by (apply wrapu_small; lia).
    assert (Forall2 (fun tok r => tok <= generation s + 1 /\ (r <= S (request a))%nat /\
              (tok = generation s + 1 <-> r = S (request a)) /\
              (r = S (request a) -> false = true)) toks (timers a)) as Hk'.
    { eapply Forall2_impl; [exact Hk|]. cbn. intros tok r (? & ? & ? & ?). lia. }
    destruct (expired a) eqn:Ex; cbn [Z.eqb negb orb].
    + change (negb (1 =? 0)) with true. cbn [orb]. constructor; cbn; rewrite ?Eg; try done; [lia|].
      exists (length (closed s)). by rewrite lookup_app_r, Nat.sub_diag by done.
    + change (negb (0 =? 0)) with false. cbn [orb]. constructor; cbn; rewrite ?Eg; try done; [lia|]. by exists ch.
  - destruct (Hh eq_refl) as [Hda Hex]. rewrite Hex in *. constructor; cbn; try done; [lia|congruence| |].
    + by exists ch.
    + eapply Forall2_impl; [exact Hk|]. cbn. intros tok r (? & ? & ? & Hi).
      assert (r <> request a) by (intros ->; by specialize (Hi eq_refl)). lia.
Qed.

Lemma tstep_sim o n st a : rel (S n) st a -> sim (rel n) (tstep o st) (astep o a).
Proof.
  destruct st as [s toks]. intros H. pose proof (rel_mono _ _ _ H) as Hm.
  destruct o as [now d| |k| | | | |]; cbn [tstep astep sim].
  - destruct Hm as [Hg Hd (ch & Hch & Hcl) Ho Hs Ht Hh Hk]. cbn [fst snd] in *.
    unfold SetUpstreamTimeout. rewrite Hch. cbn. split; [|done]. constructor; cbn; try done.
    + by exists ch.
    + apply Forall2_app.
      * eapply Forall2_impl; [exact Hk|]. cbn. intros ?? (? & ? & ? & ?). done.
      * constructor; [|constructor]. split_and!; [lia|lia|done|done].
  - destruct Hm as [Hg Hd (ch & Hch & Hcl) Ho Hs Ht Hh Hk]. cbn [fst snd] in *.
    split; [|done]. constructor; cbn; try done; [by exists ch|].
    intros E. by destruct (Hh E).
  - pose proof (rel_tokens _ _ _ Hm) as Hk. cbn [fst snd] in Hk.
    destruct (toks !! k) as [tok|] eqn:Ek.
    + destruct (Forall2_lookup_l _ _ _ _ _ Hk Ek) as (r & Er & _ & _ & Hiff & Hhad). rewrite Er.
      unfold CancelIfGeneration. destruct (Z.eqb_spec (generation s) tok) as [Eg|Hne]; cbn [negb].
      * rewrite (bool_decide_eq_true_2 (Some r = _)), orb_true_r by (f_equal; by apply Hiff).
        destruct (fire_sim _ _ _ _ tok Hm) as (s' & E & Hr); [done|apply Hhad, Hiff; done|].
        rewrite E. cbn [obind]. done.
      * rewrite (bool_decide_eq_false_2 (Some r = _)), orb_false_r by (intros [= ?%Hiff]; congruence).
        by destruct a.
    + assert (timers a !! k = None) as Et by (apply lookup_ge_None; rewrite <- (Forall2_length _ _ _ Hk); by apply lookup_ge_None). rewrite Et.
      rewrite (bool_decide_eq_false_2 (None = _)), orb_false_r by done. by destruct a.
  - split; [|done]. by apply recycle_sim.
  - split; [done|]. unfold Err. rewrite (rel_state _ _ _ Hm : _ s = _). by destruct (expired a).
  - destruct (rel_chan _ _ _ Hm) as (ch & Hch & Hcl). cbn [fst] in *.
    unfold Done. rewrite (rel_deadline _ _ _ Hm : _ s = _), Hch.
    destruct (deadline a); [by rewrite Hcl|done].
  - split; [done|]. unfold Deadline. by rewrite (rel_deadline _ _ _ Hm : _ s = _).
  - split; [done|]. unfold TimedOut. rewrite (rel_timed _ _ _ Hm : _ s = _). by destruct (expired a).
Qed.

(** C21: A timeout stays within its request.  For every sequence of arming and
    clearing deadlines, timers going off (however late), context reuse and
    queries, the context behaves as one whose timers remember which request
    armed them: a timer left over from an earlier request changes nothing, one
    of the current request makes [Err] answer DeadlineExceeded and closes the
    channel [Done] returns, exactly once, and a recycled context starts
    without deadline, error or closed channel.  (2^64 reuses of one context
    would be needed to confuse two generations.) *)
Theorem timeout_refines os :
  Z.of_nat (length os) < 2 ^ 64 ->
  answers tstep os (init, []) = answers astep os abs_init.
Proof.
  intros Hlen. apply (answers_refine _ _ rel (fun _ => True)).
  - intros o k s1 s2 _. apply tstep_sim.
  - by apply Forall_true.
  - constructor; cbn [fst snd init abs_init generation requestDeadline deadline doneChan closed expired cancelOnce cancelState timedOut hadUpstreamTimeout timers];
      first [lia|by exists 0%nat|by constructor|done].
Qed.

Lemma timeout_refines_witness :
  answers tstep [Arm 0 5; AskDone; Recycle; Fire 0; AskErr; Arm 10 5; Fire 0; AskErr; Fire 1; Fire 1;
                 AskErr; AskDone; AskTimedOut; Recycle; AskErr; AskDeadline] (init, []) =
  Ret [TNone; TDone (Some false); TNone; TNone; TErr None; TNone; TNone; TErr None; TNone; TNone;
       TErr (Some DeadlineExceeded); TDone (Some true); TBool true; TNone; TErr None; TDeadline None].
Proof. etransitivity; [apply timeout_refines; vm_compute; reflexivity|vm_compute; reflexivity]. Defined.

(** A second upstream call of a request whose first call ran into its deadline
    is armed in vain: its context is cancelled from the start. *)
Lemma rearm_after_timeout_is_cancelled now1 d1 now2 d2 :
  answers tstep [Arm now1 d1; Fire 0; Clear; Arm now2 d2; AskErr; AskDone] (init, []) =
  Ret [TNone; TNone; TNone; TNone; TErr (Some DeadlineExceeded); TDone (Some true)].
Proof. reflexivity. Qed.

End TimeoutSpec.
