(* ===== verification/Response.v ===== *)
(** * Writing the response

    The response half of [internal/rctx/context.go] ([Write], [Finalize],
    [FinalizeHeaders], [SetResponseHeader] and the response part of [Reset]),
    the instructions of [engine/steps/response.go] and
    [engine/steps/error_handling.go] that stage a body, and the engine's
    generic error ([engine/error_response.go]).

    Bodies are staged by storing a slice, not by copying, so buffers are
    modelled with the memory they share: a heap of objects and slices with an
    offset, a length and a capacity into them. *)

From S2P Require Import Prelude.
From stdpp Require Import base numbers list.

Local Open Scope Z_scope.
Local Open Scope rah_scope.

(** ** Slices with capacity *)

Record gslice : Type := mkG { g_obj : nat; g_off : nat; g_len : nat; g_cap : nat }.

Abbreviation gheap := (list byte_string).

Definition gread (h : gheap) (s : gslice) : byte_string :=
  take (g_len s) (drop (g_off s) (default [] (h !! g_obj s))).

(** A nil slice shows no bytes. *)
Definition oread (h : gheap) (s : option gslice) : byte_string :=
  match s with Some s => gread h s | None => [] end.

(** Overwriting part of an object. *)
Definition overwrite (b : byte_string) (off : nat) (data : byte_string) : byte_string :=
  take off b ++ data ++ drop (off + length data) b.

(** [s[:0]]. *)
Definition empty_prefix (s : option gslice) : option gslice :=
  match s with Some s => Some (mkG (g_obj s) (g_off s) 0 (g_cap s)) | None => None end.

Definition gcap (s : option gslice) : nat := match s with Some s => g_cap s | None => 0%nat end.

Section append.

(** How much more than asked for the allocator hands out. *)
Variable spare : nat -> nat.

(** [append(s, p...)]: in place while the capacity lasts, else into a new object. *)
Definition go_append (h : gheap) (s : option gslice) (p : byte_string) : gheap * option gslice :=
  match p with
  | [] => (h, s)
  | _ =>
    let fresh :=
      let data := oread h s ++ p in
      let extra := spare (length data) in
      (h ++ [data ++ replicate extra 0],
       Some (mkG (length h) 0 (length data) (length data + extra))) in
    match s with
    | None => fresh
    | Some s' =>
      if (g_len s' + length p <=? g_cap s')%nat then
        (<[g_obj s' := overwrite (default [] (h !! g_obj s')) (g_off s' + g_len s') p]> h,
         Some (mkG (g_obj s') (g_off s') (g_len s' + length p) (g_cap s')))
      else fresh
    end
  end.

(** ** The response state of a context *)

Record HeaderMutation : Type := mkHM { hm_key : byte_string; hm_value : byte_string; hm_op : Z }.

(** The calls the context makes on its [ResponseWriter], in order. *)
Inductive wire : Type :=
| WSet (key value : byte_string)
| WDel (key : byte_string)
| WHeader (status : Z)
| WBody (p : byte_string).

Record Resp : Type := mkResp {
  heap : gheap;
  ByteSlots : list (option gslice);
  ResponseBuffer : option gslice;
  IsBuffered : bool;
  StreamResponseBody : bool;
  headerSent : bool;
  ResponseStatus : Z;
  ResponseHeaders : list HeaderMutation;
  ResHeaderCount : Z;
  ErrorCode : Z;
  Failed : bool;
  Writer : list wire
}.

Definition set_heap c h := mkResp h (ByteSlots c) (ResponseBuffer c) (IsBuffered c) (StreamResponseBody c)
  (headerSent c) (ResponseStatus c) (ResponseHeaders c) (ResHeaderCount c) (ErrorCode c) (Failed c) (Writer c).
Definition set_body c b := mkResp (heap c) (ByteSlots c) b true (StreamResponseBody c)
  (headerSent c) (ResponseStatus c) (ResponseHeaders c) (ResHeaderCount c) (ErrorCode c) (Failed c) (Writer c).
Definition set_buffer c b := mkResp (heap c) (ByteSlots c) b (IsBuffered c) (StreamResponseBody c)
  (headerSent c) (ResponseStatus c) (ResponseHeaders c) (ResHeaderCount c) (ErrorCode c) (Failed c) (Writer c).
Definition set_status c n := mkResp (heap c) (ByteSlots c) (ResponseBuffer c) (IsBuffered c) (StreamResponseBody c)
  (headerSent c) n (ResponseHeaders c) (ResHeaderCount c) (ErrorCode c) (Failed c) (Writer c).
Definition set_failed c b := mkResp (heap c) (ByteSlots c) (ResponseBuffer c) (IsBuffered c) (StreamResponseBody c)
  (headerSent c) (ResponseStatus c) (ResponseHeaders c) (ResHeaderCount c) (ErrorCode c) b (Writer c).
Definition set_error c b n := mkResp (heap c) (ByteSlots c) (ResponseBuffer c) (IsBuffered c) (StreamResponseBody c)
  (headerSent c) (ResponseStatus c) (ResponseHeaders c) (ResHeaderCount c) n b (Writer c).
Definition set_sent c := mkResp (heap c) (ByteSlots c) (ResponseBuffer c) (IsBuffered c) (StreamResponseBody c)
  true (ResponseStatus c) (ResponseHeaders c) (ResHeaderCount c) (ErrorCode c) (Failed c) (Writer c).
Definition emit c (l : list wire) := mkResp (heap c) (ByteSlots c) (ResponseBuffer c) (IsBuffered c)
  (StreamResponseBody c) (headerSent c) (ResponseStatus c) (ResponseHeaders c) (ResHeaderCount c) (ErrorCode c)
  (Failed c) (Writer c ++ l).

(** [ctx.ResponseHeaders[ctx.ResHeaderCount] = m; ctx.ResHeaderCount++] under its guard. *)
Definition add_header (c : Resp) (m : HeaderMutation) : Resp :=
  if ResHeaderCount c <? Z.of_nat (length (ResponseHeaders c)) then
    mkResp (heap c) (ByteSlots c) (ResponseBuffer c) (IsBuffered c) (StreamResponseBody c) (headerSent c)
      (ResponseStatus c) (<[Z.to_nat (ResHeaderCount c):=m]> (ResponseHeaders c)) (ResHeaderCount c + 1)
      (ErrorCode c) (Failed c) (Writer c)
  else c.

Definition SetResponseHeader (c : Resp) (key value : byte_string) : Resp := add_header c (mkHM key value 0).
Definition RemoveResponseHeaderStep (c : Resp) (name : byte_string) : Resp := add_header c (mkHM name [] 1).
Definition SetResponseStatusStep (c : Resp) (code : Z) : Resp := set_status c code.

Definition header_call (m : HeaderMutation) : wire :=
  if hm_op m =? 1 then WDel (hm_key m) else WSet (hm_key m) (hm_value m).

(** [flushResponseHeaders]: the first [ResHeaderCount] mutations, in order. *)
Definition flushResponseHeaders (c : Resp) : Resp :=
  emit c (map header_call (take (Z.to_nat (ResHeaderCount c)) (ResponseHeaders c))).

Definition Write (c : Resp) (p : byte_string) : Resp :=
  if IsBuffered c then
    let '(h, b) := go_append (heap c) (ResponseBuffer c) p in
    set_buffer (set_heap c h) b
  else
    let c := if headerSent c then c
             else let c := flushResponseHeaders c in set_sent (emit c [WHeader (ResponseStatus c)]) in
    emit c [WBody p].

Definition Finalize (c : Resp) : Resp :=
  if headerSent c then c
  else
    let c := flushResponseHeaders c in
    let c := emit c [WHeader (ResponseStatus c)] in
    let body := oread (heap c) (ResponseBuffer c) in
    let c := if IsBuffered c && negb (bool_decide (body = [])) then emit c [WBody body] else c in
    set_sent c.

Definition FinalizeHeaders (c : Resp) : Resp :=
  if headerSent c then c
  else
    let c := emit c (map (fun m => WSet (hm_key m) (hm_value m))
                       (take (Z.to_nat (ResHeaderCount c)) (ResponseHeaders c))) in
    set_sent (emit c [WHeader (ResponseStatus c)]).

(** [ctx.ResponseBuffer = ctx.ByteSlots[src]]. *)
Definition SetResponseBodyStep (c : Resp) (src : Z) : outcome Resp :=
  if StreamResponseBody c then Ret c
  else s <-- go_index (ByteSlots c) src ;; Ret (set_body c s).

(** [EarlyReturn]: [staticBody] is the slice captured when the flow was compiled. *)
Definition EarlyReturn (c : Resp) (status bodySlot : Z) (staticBody : option gslice) : outcome Resp :=
  let c := set_status c status in
  c <-- (if (0 <=? bodySlot) && (bodySlot <? Z.of_nat (length (ByteSlots c)))
         then s <-- go_index (ByteSlots c) bodySlot ;; Ret (set_body c s)
         else match staticBody with
              | Some _ => Ret (set_body c staticBody)
              | None => Ret (set_body c (ResponseBuffer c))
              end) ;;
  Ret (set_failed c false).

(** [Fail]'s effect on the error state (the message is not used here). *)
Definition Fail_ (c : Resp) (code : Z) : Resp := set_error c true code.

(** [applyGenericError]: [body], [status] as configured, [txID] the formatted id. *)
Definition applyGenericError (c : Resp) (body : byte_string) (status : Z) (txID : byte_string) : Resp :=
  let status := if (400 <=? ErrorCode c) && (ErrorCode c <? 600) then ErrorCode c else status in
  let c := set_status c status in
  let '(h, b) := go_append (heap c) (empty_prefix (ResponseBuffer c)) body in
  let c := set_body (set_heap c h) b in
  let c := SetResponseHeader c (bytes_of "Content-Type") (bytes_of "application/json") in
  SetResponseHeader c (bytes_of "X-Tx-Id") txID.

Definition maxHangover : nat := Z.to_nat (64 * 1024).

(** The response part of [Context.Reset] (with its new writer). *)
Definition ResetResponse (c : Resp) : Resp :=
  mkResp (heap c) (replicate (length (ByteSlots c)) None)
    (if (maxHangover <? gcap (ResponseBuffer c))%nat then None else empty_prefix (ResponseBuffer c))
    false false false 200 (ResponseHeaders c) 0 0 false [].

(** The end of [ProcessRequest] and of the request handler. *)
Definition finish (c : Resp) (body : byte_string) (status : Z) (txID : byte_string) : Resp :=
  let c := if Failed c && (ResponseStatus c <? 400) then applyGenericError c body status txID else c in
  Finalize c.

End append.

(** A context as the pool makes it, over the objects the compiled flows own. *)
Definition new_resp (objects : gheap) (nslots : nat) : Resp :=
  mkResp objects (replicate nslots None) None false false false 200 (replicate 32 (mkHM [] [] 0)) 0 0 false [].
