(* ===== verification/ResponseSpec.v ===== *)
(** * What the client of a request receives *)

From S2P Require Import Prelude Response.
From stdpp Require Import base numbers list.

Local Open Scope Z_scope.
Local Open Scope rah_scope.

(** ** The contract, on values

    A response under construction: no memory, no slices.  [v_sent] is what has
    been put on the wire: the header calls, the status and the chunks. *)

Record V : Type := mkV {
  v_slots : list byte_string;
  v_body : byte_string;
  v_buffered : bool;
  v_status : Z;
  v_headers : list HeaderMutation;
  v_error : Z;
  v_failed : bool;
  v_sent : option (list wire * Z * list byte_string)
}.

Inductive rop : Type :=
| OSlot (idx : Z) (s : gslice)        (* an instruction stores a slice in a slot *)
| OHeader (key value : byte_string)
| ORemoveHeader (key : byte_string)
| OStatus (code : Z)
| OBody (src : Z)
| OEarly (status bodySlot : Z) (static : option gslice)
| OFail (code : Z)
| OWrite (p : byte_string)
| OFinalizeHeaders.

Definition add_v (v : V) (m : HeaderMutation) : V :=
  mkV (v_slots v) (v_body v) (v_buffered v) (v_status v)
    (if (length (v_headers v) <? 32)%nat then v_headers v ++ [m] else v_headers v)
    (v_error v) (v_failed v) (v_sent v).

Definition stage (v : V) (b : byte_string) : V :=
  mkV (v_slots v) b true (v_status v) (v_headers v) (v_error v) (v_failed v) (v_sent v).

Definition with_sent (v : V) (s : option (list wire * Z * list byte_string)) : V :=
  mkV (v_slots v) (v_body v) (v_buffered v) (v_status v) (v_headers v) (v_error v) (v_failed v) s.

(** Start sending, unless that has happened. *)
Definition open_v (v : V) (call : HeaderMutation -> wire) (first : list byte_string) : V :=
  match v_sent v with
  | Some _ => v
  | None => with_sent v (Some (map call (v_headers v), v_status v, first))
  end.

Section spec.

(** The bytes a slice showed when the flows were compiled. *)
Variable bytes : gslice -> byte_string.

Definition slot_v (v : V) (idx : Z) : byte_string := default [] (v_slots v !! Z.to_nat idx).

(** An early return without a body slot and with no static body answers with
    an empty body; headers that were removed are deleted whenever they are
    sent. *)
Definition vstep (o : rop) (v : V) : V :=
  match o with
  | OSlot idx s =>
    mkV (<[Z.to_nat idx:=bytes s]> (v_slots v)) (v_body v) (v_buffered v) (v_status v) (v_headers v)
      (v_error v) (v_failed v) (v_sent v)
  | OHeader k x => add_v v (mkHM k x 0)
  | ORemoveHeader k => add_v v (mkHM k [] 1)
  | OStatus n => mkV (v_slots v) (v_body v) (v_buffered v) n (v_headers v) (v_error v) (v_failed v) (v_sent v)
  | OBody src => stage v (slot_v v src)
  | OEarly n slot static =>
    let v := mkV (v_slots v) (v_body v) (v_buffered v) n (v_headers v) (v_error v) false (v_sent v) in
    stage v (if (0 <=? slot) && (slot <? Z.of_nat (length (v_slots v))) then slot_v v slot
             else match static with Some s => bytes s | None => [] end)
  | OFail n => mkV (v_slots v) (v_body v) (v_buffered v) (v_status v) (v_headers v) n true (v_sent v)
  | OWrite p =>
    if v_buffered v then stage v (v_body v ++ p)
    else
      let v := open_v v header_call [] in
      with_sent v (match v_sent v with Some (hs, n, cs) => Some (hs, n, cs ++ [p]) | None => None end)
  | OFinalizeHeaders => open_v v header_call []
  end.

Definition has_slot (v : V) (idx : Z) : bool := (0 <=? idx) && (idx <? Z.of_nat (length (v_slots v))).

(** The slots that are named exist; an early return without any body comes
    before a body is staged; headers are not flushed ahead of the body while a
    removal is pending. *)
Definition orderly_op (o : rop) (v : V) : bool :=
  match o with
  | OSlot idx _ | OBody idx => has_slot v idx
  | OEarly _ slot None => has_slot v slot || bool_decide (v_body v = [])
  | OFinalizeHeaders => bool_decide (is_Some (v_sent v)) || forallb (fun m => negb (hm_op m =? 1)) (v_headers v)
  | _ => true
  end.

Fixpoint vrun (os : list rop) (v : V) : V :=
  match os with [] => v | o :: os' => vrun os' (vstep o v) end.

Fixpoint orderly (os : list rop) (v : V) : bool :=
  match os with [] => true | o :: os' => orderly_op o v && orderly os' (vstep o v) end.

(** The end of the request: a failed flow that set no error status answers
    with the generic error; then everything staged is sent. *)
Definition vfinish (v : V) (body : byte_string) (status : Z) (txID : byte_string) : V :=
  let v := if v_failed v && (v_status v <? 400)
           then let n := if (400 <=? v_error v) && (v_error v <? 600) then v_error v else status in
                let v := mkV (v_slots v) body true n (v_headers v) (v_error v) (v_failed v) (v_sent v) in
                add_v (add_v v (mkHM (bytes_of "Content-Type") (bytes_of "application/json") 0))
                  (mkHM (bytes_of "X-Tx-Id") txID 0)
           else v in
  open_v v header_call (if v_buffered v && negb (bool_decide (v_body v = [])) then [v_body v] else []).

End spec.

(** The calls on the writer that deliver a response. *)
Definition wire_of (s : option (list wire * Z * list byte_string)) : list wire :=
  match s with
  | None => []
  | Some (hs, n, cs) => hs ++ [WHeader n] ++ map WBody cs
  end.

Definition new_v (nslots : nat) : V := mkV (replicate nslots []) [] false 200 [] 0 false None.

Section refine.
Variable spare : nat -> nat.

Definition rstep (o : rop) (c : Resp) : outcome Resp :=
  match o with
  | OSlot idx s =>
    _ <-- go_index (ByteSlots c) idx ;;
    Ret (mkResp (heap c) (<[Z.to_nat idx:=Some s]> (ByteSlots c)) (ResponseBuffer c) (IsBuffered c)
           (StreamResponseBody c) (headerSent c) (ResponseStatus c) (ResponseHeaders c) (ResHeaderCount c)
           (ErrorCode c) (Failed c) (Writer c))
  | OHeader k x => Ret (SetResponseHeader c k x)
  | ORemoveHeader k => Ret (RemoveResponseHeaderStep c k)
  | OStatus n => Ret (SetResponseStatusStep c n)
  | OBody src => SetResponseBodyStep c src
  | OEarly n slot static => EarlyReturn c n slot static
  | OFail n => Ret (Fail_ c n)
  | OWrite p => Ret (Write spare c p)
  | OFinalizeHeaders => Ret (FinalizeHeaders c)
  end.

Fixpoint rrun (os : list rop) (c : Resp) : outcome Resp :=
  match os with [] => Ret c | o :: os' => c' <-- rstep o c ;; rrun os' c' end.

(** ** The slices the compiled flows share

    Those slices must not reach into each other: the spare capacity behind one
    shows no bytes of another. *)

Variables (K : list gslice) (objects : gheap).

Definition valid (h : gheap) (s : gslice) : Prop :=
  exists b, h !! g_obj s = Some b /\ (g_off s + g_cap s <= length b)%nat /\ (g_len s <= g_cap s)%nat.

Definition apart (s s' : gslice) : Prop :=
  g_obj s = g_obj s' ->
  (g_off s' + g_len s' <= g_off s + g_len s \/ g_off s + g_cap s <= g_off s')%nat.

Definition shared_ok : Prop :=
  Forall (valid objects) K /\ (forall s s', s ∈ K -> s' ∈ K -> apart s s').

Definition op_ok (o : rop) : Prop :=
  match o with OSlot _ s => s ∈ K | OEarly _ _ (Some s) => s ∈ K | _ => True end.

(** The buffer continues a shared slice, or has an object of its own. *)
Definition buffer_ok (s : gslice) : Prop :=
  (exists k, k ∈ K /\ g_obj s = g_obj k /\ g_off s = g_off k /\ g_cap s = g_cap k /\ (g_len k <= g_len s)%nat) \/
  (length objects <= g_obj s)%nat.

Definition heap_ok (h : gheap) : Prop :=
  (length objects <= length h)%nat /\ Forall (valid h) K /\ forall k, k ∈ K -> gread h k = gread objects k.

Definition slot_ok (s : option gslice) (b : byte_string) : Prop :=
  match s with None => b = [] | Some k => k ∈ K /\ b = gread objects k end.

Definition headers_ok (c : Resp) (v : V) : Prop :=
  length (ResponseHeaders c) = 32%nat /\ ResHeaderCount c = Z.of_nat (length (v_headers v)) /\
  (length (v_headers v) <= 32)%nat /\ take (length (v_headers v)) (ResponseHeaders c) = v_headers v.

Record rrel (c : Resp) (v : V) : Prop := {
  r_heap : heap_ok (heap c);
  r_slots : Forall2 slot_ok (ByteSlots c) (v_slots v);
  r_buffer : forall s, ResponseBuffer c = Some s -> valid (heap c) s /\ buffer_ok s;
  r_body : oread (heap c) (ResponseBuffer c) = v_body v;
  r_buffered : IsBuffered c = v_buffered v;
  r_stream : StreamResponseBody c = false;
  r_status : ResponseStatus c = v_status v;
  r_headers : headers_ok c v;
  r_error : ErrorCode c = v_error v /\ Failed c = v_failed v;
  r_sent : headerSent c = (match v_sent v with Some _ => true | None => false end);
  r_wire : Writer c = wire_of (v_sent v)
}.

(** ** Memory lemmas *)

Lemma gread_overwrite_self b off len cap p :
  (off + cap <= length b)%nat -> (len + length p <= cap)%nat ->
  take (len + length p) (drop off (overwrite b (off + len) p)) = take len (drop off b) ++ p.
Proof.
  intros Hb Hc. unfold overwrite.
  rewrite drop_app_le by (rewrite length_take; lia).
  rewrite <- take_drop_commute. rewrite app_assoc.
  rewrite take_app_le by (rewrite length_app, length_take, length_drop; lia).
  rewrite take_ge; [done|]. rewrite length_app, length_take, length_drop. lia.
Qed.

Lemma gread_overwrite_other b off len p o l :
  (off + len + length p <= length b)%nat ->
  (o + l <= off + len \/ off + len + length p <= o)%nat ->
  take l (drop o (overwrite b (off + len) p)) = take l (drop o b).
Proof.
  intros Hb Hd. unfold overwrite. apply list_eq. intros i.
  destruct (decide (i < l)%nat) as [Hi|Hi];
    [|by rewrite !lookup_take_ge by lia].
  rewrite !lookup_take_lt, !lookup_drop by lia. destruct Hd as [Hd|Hd].
  - rewrite lookup_app_l by (rewrite length_take; lia). by rewrite lookup_take_lt by lia.
  - rewrite lookup_app_r, length_take, lookup_app_r by (rewrite ?length_take; lia).
    rewrite lookup_drop. f_equal. lia.
Qed.

Lemma overwrite_length b off p :
  (off + length p <= length b)%nat -> length (overwrite b off p) = length b.
Proof. intros H. unfold overwrite. rewrite !length_app, length_take, length_drop. lia. Qed.

(** A shared slice keeps its bytes when an object is added ... *)
Lemma heap_ok_snoc h b : heap_ok h -> heap_ok (h ++ [b]).
Proof.
  intros (Hl & Hv & Hr). split; [rewrite length_app; simpl; lia|]. split.
  - eapply Forall_impl; [exact Hv|]. intros k (x & Hx & ?). exists x. split; [|done].
    by apply lookup_app_l_Some.
  - intros k Hk. rewrite <- (Hr k Hk). unfold gread. do 2 f_equal.
    rewrite Forall_forall in Hv. destruct (Hv k Hk) as (x & Hx & _).
    rewrite Hx. by rewrite (lookup_app_l_Some _ _ _ _ Hx).
Qed.

(** ... and when the buffer grows in place. *)
Lemma heap_ok_grow h s b p :
  shared_ok -> heap_ok h -> h !! g_obj s = Some b -> (g_off s + g_cap s <= length b)%nat -> buffer_ok s ->
  (g_len s + length p <= g_cap s)%nat ->
  heap_ok (<[g_obj s := overwrite b (g_off s + g_len s) p]> h).
Proof.
  intros [Hko Hap] (Hl & Hv & Hr) Hb Hlen Hbuf Hcap. split; [by rewrite length_insert|].
  assert (forall k x, k ∈ K -> g_obj s = g_obj k -> h !! g_obj k = Some x ->
            <[g_obj s := overwrite b (g_off s + g_len s) p]> h !! g_obj k = Some (overwrite x (g_off s + g_len s) p)) as Hin.
  { intros k x Hk E Hx. rewrite E in *. rewrite Hx in Hb. injection Hb as ->.
    apply list_lookup_insert_eq. by apply lookup_lt_Some in Hx. }
  rewrite Forall_forall in Hv. split.
  - apply Forall_forall. intros k Hk. destruct (Hv k Hk) as (x & Hx & Ho & Hc).
    destruct (decide (g_obj s = g_obj k)) as [E|Hne].
    + exists (overwrite x (g_off s + g_len s) p). split; [by apply Hin|].
      rewrite E, Hx in Hb. injection Hb as ->. rewrite overwrite_length by lia. done.
    + exists x. by rewrite list_lookup_insert_ne.
  - intros k Hk. rewrite <- (Hr k Hk). unfold gread. destruct (Hv k Hk) as (x & Hx & Ho & Hc).
    destruct (decide (g_obj s = g_obj k)) as [E|Hne]; [|by rewrite list_lookup_insert_ne].
    rewrite (Hin k x Hk E Hx), Hx. cbn [default from_option id].
    rewrite E, Hx in Hb. injection Hb as ->. apply gread_overwrite_other; [lia|].
    destruct Hbuf as [(k0 & Hk0 & E1 & E2 & E3 & E4)|Hge].
    + destruct (Hap k0 k Hk0 Hk); [congruence|lia|]. right. lia.
    + rewrite Forall_forall in Hko. destruct (Hko k Hk) as (y & Hy & _).
      apply lookup_lt_Some in Hy. rewrite E in Hge. lia.
Qed.

(** What [append] returns, wherever it put the bytes. *)
Lemma go_append_read h s p :
  (forall s', s = Some s' -> valid h s') ->
  let '(h', s'') := go_append spare h s p in
  oread h' s'' = oread h s ++ p /\ (forall s', s'' = Some s' -> valid h' s').
Proof.
  intros Hs. unfold go_append. destruct p as [|x p]; [by rewrite app_nil_r|].
  remember (x :: p) as q eqn:Eq. clear Eq.
  assert (forall d, d = oread h s ++ q -> let h' := h ++ [d ++ replicate (spare (length d)) 0] in
    let s0 := mkG (length h) 0 (length d) (length d + spare (length d)) in
    oread h' (Some s0) = d /\ (forall s', Some s0 = Some s' -> valid h' s')) as Hfresh.
  { intros d _. cbn zeta.
    assert ((h ++ [d ++ replicate (spare (length d)) 0]) !! length h = Some (d ++ replicate (spare (length d)) 0)) as E.
    { by rewrite lookup_app_r, Nat.sub_diag by done. }
    cbn [oread]. unfold gread. cbn [g_obj g_off g_len]. rewrite E. cbn [default from_option id]. rewrite drop_0.
    split; [by apply take_app_length|]. intros s' [= <-].
    eexists; split; [exact E|]. cbn [g_off g_cap g_len]. rewrite length_app, length_replicate. lia. }
  destruct s as [s|]; [|exact (Hfresh _ eq_refl)].
  destruct (Nat.leb_spec (g_len s + length q) (g_cap s)) as [Hle|_]; [|exact (Hfresh _ eq_refl)].
  destruct (Hs s eq_refl) as (b & Hb & Hoff & Hlen). rewrite Hb. cbn [default from_option id].
  assert (<[g_obj s:=overwrite b (g_off s + g_len s) q]> h !! g_obj s = Some (overwrite b (g_off s + g_len s) q)) as E.
  { apply list_lookup_insert_eq. by apply lookup_lt_Some in Hb. }
  split.
  - cbn [oread]. unfold gread. cbn [g_obj g_off g_len]. rewrite E, Hb. cbn [default from_option id].
    by eapply gread_overwrite_self.
  - intros s' [= <-]. eexists; split; [exact E|]. cbn [g_off g_cap g_len]. rewrite overwrite_length by lia. done.
Qed.

(** Appending to the response buffer leaves the shared slices alone. *)
Lemma go_append_shared h s p :
  shared_ok -> heap_ok h -> (forall s', s = Some s' -> valid h s' /\ buffer_ok s') ->
  let '(h', s'') := go_append spare h s p in heap_ok h' /\ (forall s', s'' = Some s' -> buffer_ok s').
Proof.
  intros Hok Hh Hs. unfold go_append. destruct p as [|x p].
  { split; [done|]. intros s' Hs'. by apply Hs. }
  remember (x :: p) as q eqn:Eq. clear Eq.
  assert (forall d n m, heap_ok (h ++ [d]) /\ (forall s', Some (mkG (length h) 0 n m) = Some s' -> buffer_ok s')) as Hfresh.
  { intros d n m. split; [by apply heap_ok_snoc|]. intros s' [= <-]. right. apply Hh. }
  destruct s as [s|]; [|apply Hfresh].
  destruct (Nat.leb_spec (g_len s + length q) (g_cap s)) as [Hle|_]; [|apply Hfresh].
  destruct (Hs s eq_refl) as [(b & Hb & Hoff & Hlen) Hbuf]. rewrite Hb. cbn [default from_option id].
  split; [by apply heap_ok_grow|]. intros s' [= <-].
  destruct Hbuf as [(k & ? & ? & ? & ? & ?)|]; [left|by right].
  exists k. cbn [g_obj g_off g_cap g_len]. split_and!; try done. lia.
Qed.

(** ** The simulation *)

Lemma add_header_headers c v m : headers_ok c v -> headers_ok (add_header c m) (add_v v m).
Proof.
  intros (Hl & Hn & Hle & Ht). unfold headers_ok, add_header, add_v.
  rewrite Hn, Hl. change (Z.of_nat 32) with 32.
  destruct (Nat.ltb_spec (length (v_headers v)) 32) as [Hlt|Hge].
  - rewrite (proj2 (Z.ltb_lt _ 32)) by lia. cbn [ResponseHeaders ResHeaderCount v_headers].
    rewrite length_insert, length_app, Nat2Z.id. cbn [length]. split_and!; [done|lia|lia|].
    rewrite Nat.add_1_r, (take_S_r _ _ m) by (apply list_lookup_insert_eq; lia).
    by rewrite take_insert_ge, Ht by lia.
  - rewrite (proj2 (Z.ltb_ge _ 32)) by lia. done.
Qed.

(** Adding a header touches nothing but the headers. *)
Lemma add_header_frame c m :
  heap (add_header c m) = heap c /\ ByteSlots (add_header c m) = ByteSlots c /\
  ResponseBuffer (add_header c m) = ResponseBuffer c /\ IsBuffered (add_header c m) = IsBuffered c /\
  StreamResponseBody (add_header c m) = StreamResponseBody c /\ ResponseStatus (add_header c m) = ResponseStatus c /\
  ErrorCode (add_header c m) = ErrorCode c /\ Failed (add_header c m) = Failed c /\
  headerSent (add_header c m) = headerSent c /\ Writer (add_header c m) = Writer c.
Proof. unfold add_header. by destruct (_ <? _). Qed.

Lemma add_header_sim c v m : rrel c v -> rrel (add_header c m) (add_v v m).
Proof.
  intros [Hh Hs Hb Hbd Hbf Hst Hsta Hhd He Hse Hw].
  destruct (add_header_frame c m) as (E1 & E2 & E3 & E4 & E5 & E6 & E7 & E8 & E9 & E10).
  constructor; rewrite ?E1, ?E2, ?E3, ?E4, ?E5, ?E6, ?E7, ?E8, ?E9, ?E10; try done.
  by apply add_header_headers.
Qed.

Lemma rrel_stage c v s b :
  rrel c v -> (forall s', s = Some s' -> valid (heap c) s' /\ buffer_ok s') -> oread (heap c) s = b ->
  rrel (set_body c s) (stage v b).
Proof. intros [] Hs Hb. by constructor. Qed.

Lemma slot_sim c v idx :
  rrel c v -> has_slot v idx = true ->
  exists s, go_index (ByteSlots c) idx = Ret s /\
    (forall s', s = Some s' -> valid (heap c) s' /\ buffer_ok s') /\ oread (heap c) s = slot_v v idx.
Proof.
  intros H Hi. pose proof (r_slots _ _ H) as Hs. unfold has_slot in Hi.
  destruct (lookup_lt_is_Some_2 (v_slots v) (Z.to_nat idx)) as [b Hb]; [lia|].
  destruct (Forall2_lookup_r _ _ _ _ _ Hs Hb) as (s & E & Hsb). exists s.
  split; [apply go_index_Z; [lia|done]|]. unfold slot_v. rewrite Hb. cbn [default from_option id].
  destruct (r_heap _ _ H) as (_ & Hv & Hr). destruct s as [k|]; cbn [slot_ok oread] in *; [|done].
  destruct Hsb as [Hk ->]. split; [|by apply Hr]. intros s' [= <-]. split.
  - rewrite Forall_forall in Hv. by apply Hv.
  - left. exists k. by split_and!.
Qed.

Lemma shared_buffer c k : heap_ok (heap c) -> k ∈ K ->
  (forall s', Some k = Some s' -> valid (heap c) s' /\ buffer_ok s') /\ oread (heap c) (Some k) = gread objects k.
Proof.
  intros (_ & Hv & Hr) Hk. split; [|by apply Hr]. intros s' [= <-]. split.
  - rewrite Forall_forall in Hv. by apply Hv.
  - left. exists k. by split_and!.
Qed.

Definition step_rel (x : outcome Resp) (v : V) : Prop := exists c, x = Ret c /\ rrel c v.

Lemma OWrite_sim c v p : shared_ok -> rrel c v -> rrel (Write spare c p) (vstep (gread objects) (OWrite p) v).
Proof.
  intros Hok H. cbn [vstep]. unfold Write. rewrite (r_buffered _ _ H).
  destruct (v_buffered v) eqn:Ebf.
  - pose proof (go_append_read (heap c) (ResponseBuffer c) p (fun s' E => proj1 (r_buffer _ _ H s' E))) as Hr.
    pose proof (go_append_shared (heap c) (ResponseBuffer c) p Hok (r_heap _ _ H) (r_buffer _ _ H)) as Hsh.
    destruct (go_append spare (heap c) (ResponseBuffer c) p) as [h' b]. destruct Hr as [Hrd Hv], Hsh as [Hh' Hb'].
    destruct H. constructor; cbn; try done; [eauto|by rewrite Hrd, r_body0|by rewrite <- Ebf].
  - pose proof (r_sent _ _ H) as Hs. pose proof (r_wire _ _ H) as Hw. unfold open_v.
    destruct (r_headers _ _ H) as (_ & Hn & _ & Ht).
    destruct (v_sent v) as [[[hs n] cs]|] eqn:Ev; rewrite Hs.
    + rewrite Ev. destruct H. constructor; cbn; try done. rewrite Hw. cbn [wire_of].
      by rewrite map_app, <- !app_assoc.
    + destruct H. constructor; cbn; try done. rewrite Hw, Hn, Nat2Z.id, Ht, r_status0. cbn [wire_of map app].
      by rewrite <- !app_assoc.
Qed.

Lemma OEarly_sim c v n slot static :
  op_ok (OEarly n slot static) -> orderly_op (OEarly n slot static) v = true -> rrel c v ->
  step_rel (EarlyReturn c n slot static) (vstep (gread objects) (OEarly n slot static) v).
Proof.
  intros Ho Hl H. unfold EarlyReturn. cbn [vstep ByteSlots set_status v_slots].
  set (v1 := mkV _ _ _ n _ _ _ _). set (c1 := set_status c n).
  assert (rrel (set_failed c1 false) v1) as H1 by (destruct H; destruct r_error0; by constructor).
  pose proof (Forall2_length _ _ _ (r_slots _ _ H)) as Hlen. rewrite Hlen.
  destruct ((0 <=? slot) && (slot <? Z.of_nat (length (v_slots v)))) eqn:Ei.
  - destruct (slot_sim _ v1 slot H1 Ei) as (s & E & Hs & Hb). unfold c1 in E. cbn [set_failed set_status ByteSlots] in E.
    rewrite E. cbn [obind]. eexists. split; [reflexivity|]. by apply (rrel_stage _ _ s _ H1).
  - destruct static as [s|]; cbn [obind]; (eexists; split; [reflexivity|]).
    + destruct (shared_buffer c s (r_heap _ _ H) Ho). by apply (rrel_stage _ _ (Some s) _ H1).
    + cbn [orderly_op] in Hl. unfold has_slot in Hl. rewrite Ei in Hl. apply bool_decide_eq_true_1 in Hl.
      apply (rrel_stage _ _ (ResponseBuffer c) _ H1); [apply (r_buffer _ _ H)|]. rewrite <- Hl. apply (r_body _ _ H).
Qed.

(** Without a pending removal, both ways of sending the headers agree. *)
Lemma finalize_headers_calls hs : forallb (fun m => negb (hm_op m =? 1)) hs = true ->
  map (fun m => WSet (hm_key m) (hm_value m)) hs = map header_call hs.
Proof using.
  induction hs as [|m hs IH]; [done|]. cbn. intros [Hm Hhs]%andb_true_iff. apply negb_true_iff in Hm.
  unfold header_call at 1. by rewrite Hm, IH.
Qed.

Lemma rstep_sim o c v :
  shared_ok -> op_ok o -> orderly_op o v = true -> rrel c v -> step_rel (rstep o c) (vstep (gread objects) o v).
Proof.
  intros Hok Ho Hl H. destruct o as [idx s|k x|k|n|src|n slot static|n|p|]; cbn [rstep]; [| | | | |by apply OEarly_sim|..].
  - destruct (slot_sim c v idx H Hl) as (s0 & -> & _). cbn [obind]. eexists. split; [reflexivity|].
    pose proof (r_slots _ _ H). destruct H. constructor; cbn; try done. by apply Forall2_insert.
  - eexists. split; [reflexivity|]. by apply add_header_sim.
  - eexists. split; [reflexivity|]. by apply add_header_sim.
  - eexists. split; [reflexivity|]. destruct H. by constructor.
  - unfold SetResponseBodyStep. rewrite (r_stream _ _ H). destruct (slot_sim c v src H Hl) as (s & -> & Hs & Hb).
    eexists. split; [reflexivity|]. by apply rrel_stage.
  - eexists. split; [reflexivity|]. destruct H as [? ? ? ? ? ? ? ? [] ? ?]. by constructor.
  - eexists. split; [reflexivity|]. by apply OWrite_sim.
  - eexists. split; [reflexivity|]. cbn [vstep orderly_op] in *. unfold FinalizeHeaders, open_v. rewrite (r_sent _ _ H).
    destruct (v_sent v) eqn:Ev; [done|]. cbn in Hl. destruct (r_headers _ _ H) as (_ & Hn & _ & Ht).
    destruct H. constructor; cbn; try done. rewrite Hn, Nat2Z.id, Ht, r_wire0, Ev, r_status0, finalize_headers_calls by done. done.
Qed.

Lemma rrun_sim os c v :
  shared_ok -> Forall op_ok os -> orderly (gread objects) os v = true -> rrel c v ->
  step_rel (rrun os c) (vrun (gread objects) os v).
Proof.
  intros Hok Hos. revert c v. induction Hos as [|o os Ho _ IH]; intros c v Hl H; [by exists c|]. cbn [rrun vrun orderly] in *.
  apply andb_true_iff in Hl as [Hl Hls].
  destruct (rstep_sim o c v Hok Ho Hl H) as (c' & -> & H'). cbn [obind]. by apply IH.
Qed.

(** The last flush; nothing is asked of the buffer but its bytes. *)
Lemma Finalize_wire c v :
  headerSent c = (match v_sent v with Some _ => true | None => false end) -> Writer c = wire_of (v_sent v) ->
  IsBuffered c = v_buffered v -> oread (heap c) (ResponseBuffer c) = v_body v -> ResponseStatus c = v_status v ->
  take (Z.to_nat (ResHeaderCount c)) (ResponseHeaders c) = v_headers v ->
  Writer (Finalize c) =
  wire_of (v_sent (open_v v header_call (if v_buffered v && negb (bool_decide (v_body v = [])) then [v_body v] else []))).
Proof.
  intros Hs Hw Hbf Hb Hst Ht. unfold Finalize, open_v. rewrite Hs. destruct (v_sent v) eqn:Ev.
  - by rewrite Hw, Ev.
  - cbn. rewrite Hbf, Hb. destruct (v_buffered v && _); cbn; rewrite Hw, Ht, Hst; cbn; by rewrite <- ?app_assoc.
Qed.

Lemma finish_wire c v body status txID :
  rrel c v -> Writer (finish spare c body status txID) = wire_of (v_sent (vfinish v body status txID)).
Proof.
  intros H. unfold finish, vfinish. destruct (r_error _ _ H) as [He Hf]. rewrite (r_status _ _ H), Hf.
  destruct (v_failed v && (v_status v <? 400)).
  - unfold applyGenericError. rewrite He.
    set (n := if (400 <=? v_error v) && _ then _ else _).
    cbn [set_status heap ResponseBuffer].
    assert (forall s', empty_prefix (ResponseBuffer c) = Some s' -> valid (heap c) s') as Hv.
    { intros s'. destruct (ResponseBuffer c) as [s|] eqn:E; [|done]. intros [= <-].
      destruct (r_buffer _ _ H s E) as [(b & ? & ? & ?) _]. exists b. split_and!; [done|done|cbn; lia]. }
    pose proof (go_append_read (heap c) _ body Hv) as Hr.
    destruct (go_append spare (heap c) (empty_prefix (ResponseBuffer c)) body) as [h' b]. destruct Hr as [Hrd _].
    assert (oread (heap c) (empty_prefix (ResponseBuffer c)) = []) as E0.
    { by destruct (ResponseBuffer c). }
    rewrite E0 in Hrd. cbn [app] in Hrd.
    set (c1 := set_body _ b). set (v1 := mkV _ body _ _ _ _ _ _). unfold SetResponseHeader.
    set (m1 := mkHM (bytes_of "Content-Type") _ _). set (m2 := mkHM (bytes_of "X-Tx-Id") _ _).
    assert (headers_ok c1 v1) as Hh1 by exact (r_headers _ _ H).
    destruct (add_header_headers _ _ m2 (add_header_headers _ _ m1 Hh1)) as (_ & Hn & _ & Ht).
    destruct (add_header_frame c1 m1) as (A1 & _ & A3 & A4 & _ & A6 & _ & _ & A9 & A10).
    destruct (add_header_frame (add_header c1 m1) m2) as (B1 & _ & B3 & B4 & _ & B6 & _ & _ & B9 & B10).
    apply Finalize_wire; rewrite ?B1, ?B3, ?B4, ?B6, ?B9, ?B10, ?A1, ?A3, ?A4, ?A6, ?A9, ?A10.
    + exact (r_sent _ _ H).
    + exact (r_wire _ _ H).
    + done.
    + exact Hrd.
    + done.
    + by rewrite Hn, Nat2Z.id.
  - destruct (r_headers _ _ H) as (_ & Hn & _ & Ht). destruct H.
    apply Finalize_wire; try done. by rewrite Hn, Nat2Z.id.
Qed.

Lemma new_resp_rel n : shared_ok -> rrel (new_resp objects n) (new_v n).
Proof.
  intros [Hv _]. constructor; cbn [heap ByteSlots ResponseBuffer IsBuffered StreamResponseBody headerSent
    ResponseStatus ErrorCode Failed Writer new_resp new_v v_slots v_body v_buffered v_status v_error v_failed v_sent];
    try done.
  - by apply Forall2_replicate.
  - split; [done|]. split; [done|]. split; [cbn; lia|done].
Qed.

End refine.



(** ** Defects *)

(** The generic error is written over whatever the buffer was staged from: two
    requests served by one pooled context, and the body an [early_return] was
    compiled with has changed for every later request. *)
Lemma generic_error_corrupts_static_body spare :
  let denied := bytes_of "access to this tenant is denied" in
  let static := mkG 0 0 (length denied) (length denied) in
  exists c1 c2,
    EarlyReturn (new_resp [denied] 48) 403 (-1) (Some static) = Ret c1 /\
    gread (heap c1) static = denied /\
    finish spare (Fail_ (ResetResponse (finish spare c1 [] 500 [])) 7) (bytes_of "request processing failed") 500 [] = c2 /\
    gread (heap c2) static = bytes_of "request processing failed" ++ bytes_of "denied".
Proof. do 2 eexists. repeat (split; [vm_compute; reflexivity|]). vm_compute. reflexivity. Qed.

(** [FinalizeHeaders] does not know about removals: it sets the header to the
    empty value instead. *)
Lemma finalize_headers_ignores_removal k :
  Writer (FinalizeHeaders (RemoveResponseHeaderStep (new_resp [] 48) k)) = [WSet k []; WHeader 200] /\
  Writer (Finalize (RemoveResponseHeaderStep (new_resp [] 48) k)) = [WDel k; WHeader 200].
Proof. done. Qed.

(** An early return documented to answer with an empty body keeps the one that
    was staged before. *)
Lemma early_return_keeps_body :
  let ops := [OSlot 0 (mkG 0 0 3 3); OBody 0; OEarly 204 (-1) None] in
  obind (rrun (fun n => n) ops (new_resp [bytes_of "abc"] 48)) (fun c => Ret (Writer (finish (fun n => n) c [] 500 [])))
  = Ret [WHeader 204; WBody (bytes_of "abc")].
Proof. vm_compute. reflexivity. Qed.
