(* ===== verification/Flow.v ===== *)
(** * The flow executor

    [internal/engine/executor.go] and the control-flow instructions of
    [internal/engine/steps/logic.go] and [error_handling.go]: the execution
    loop over a flat instruction table with absolute jumps, fragment calls with
    their link stack, loops, error capture, and the [on_error] wrappers.

    An instruction is a function of the request context (data plane) and the
    execution state (control plane) that returns the address of the next
    instruction. *)

From S2P Require Import Prelude Cond Context Request.
From stdpp Require Import base numbers list gmap.

Local Open Scope Z_scope.
Local Open Scope rah_scope.

(** The part of the request context the control-flow instructions use. *)
Record Ctx : Type := mkCtx {
  c_data : Context.Context;
  Failed : bool;
  c_status : Z;                     (* ResponseStatus *)
  ErrorCode : Z;
  ErrorMsg : option slice;
  c_body : option byte_string;      (* ResponseBuffer, when IsBuffered *)
  instrs : Trace.Instrs
}.

Definition set_data c d := mkCtx d (Failed c) (c_status c) (ErrorCode c) (ErrorMsg c) (c_body c) (instrs c).
Definition set_instrs c t := mkCtx (c_data c) (Failed c) (c_status c) (ErrorCode c) (ErrorMsg c) (c_body c) t.
Definition set_failed c b := mkCtx (c_data c) b (c_status c) (ErrorCode c) (ErrorMsg c) (c_body c) (instrs c).
Definition set_status c n := mkCtx (c_data c) (Failed c) n (ErrorCode c) (ErrorMsg c) (c_body c) (instrs c).
Definition set_body c b := mkCtx (c_data c) (Failed c) (c_status c) (ErrorCode c) (ErrorMsg c) b (instrs c).

(** [ctx.Failed = false; ctx.ErrorCode = 0; ctx.ErrorMsg = nil]. *)
Definition clear_error c := mkCtx (c_data c) false (c_status c) 0 None (c_body c) (instrs c).

(** ** Execution state (executor.go) *)

Record ExecutionState : Type := mkES {
  LinkStack : list Z;
  StackPtr : Z;
  PC : Z;
  ErrorHandlerPC : Z;
  LinkExt : option (list Z)
}.

Definition BorrowLinkExt : list Z := replicate 112 0.

Definition set_PC s pc := mkES (LinkStack s) (StackPtr s) pc (ErrorHandlerPC s) (LinkExt s).
Definition set_handler s h := mkES (LinkStack s) (StackPtr s) (PC s) h (LinkExt s).

Abbreviation InstructionFunc := (Ctx -> ExecutionState -> outcome (Ctx * ExecutionState * Z)).

Definition new_state (maxCallDepth : Z) : ExecutionState :=
  mkES (replicate 16 0) 0 0 0 (if 15 <? maxCallDepth then Some BorrowLinkExt else None).

(** A point of the execution: the next address, the context, the state. *)
Record conf : Type := mkConf { at_pc : Z; at_ctx : Ctx; at_state : ExecutionState }.

(** What is recorded for one instruction: [ns] is the measured time, when the
    telemetry measures. *)
Definition duration (ns : option Z) : Z :=
  match ns with Some ns => i32 (if ns <=? 0 then 1 else ns) | None => 0 end.

(** One turn of the loop, at an address inside the table. *)
Definition exec_step (table : list InstructionFunc) (ns : option Z) (c : conf) : outcome conf :=
  let state := set_PC (at_state c) (at_pc c) in
  action <-- go_index table (at_pc c) ;;
  r <-- action (at_ctx c) state ;;
  let '(ctx, state, pc) := r in
  let '(pc, state) :=
    if (pc =? StopPlan) && Failed ctx && negb (ErrorHandlerPC state =? 0)
    then (ErrorHandlerPC state, set_handler state 0)
    else (pc, state) in
  t <-- Trace.AppendInstr (instrs ctx) (PC state) (duration ns) ;;
  Ret (mkConf pc (set_instrs ctx t) state).

Definition tableLen (table : list InstructionFunc) : Z := i16 (Z.of_nat (length table)).

Definition running (table : list InstructionFunc) (c : conf) : bool :=
  (0 <=? at_pc c) && (at_pc c <? tableLen table).

(** The loop; [ns] lists the measured times of the instructions to come. *)
Fixpoint exec_loop (fuel : nat) (table : list InstructionFunc) (ns : nat -> option Z) (c : conf) : outcome conf :=
  match fuel with
  | O => Fuel
  | S fuel' =>
    if running table c then
      c' <-- exec_step table (ns O) c ;;
      if at_pc c' =? StopPlan then Ret c' else exec_loop fuel' table (fun i => ns (S i)) c'
    else Ret c
  end.

Definition Execute (fuel : nat) (ctx : Ctx) (table : list InstructionFunc) (startID maxCallDepth : Z)
    (ns : nat -> option Z) : outcome Ctx :=
  c <-- exec_loop fuel table ns (mkConf startID ctx (new_state maxCallDepth)) ;;
  Ret (at_ctx c).

(** ** Fragment calls (logic.go) *)

Definition CallFragment (entryID : Z) : InstructionFunc := fun ctx state =>
  let sp := StackPtr state in
  let ret := i16 (PC state + 1) in
  if sp <? 16 then
    _ <-- go_index (LinkStack state) sp ;;
    Ret (ctx, mkES (<[Z.to_nat sp:=ret]> (LinkStack state)) (i16 (sp + 1)) (PC state) (ErrorHandlerPC state)
                (LinkExt state), entryID)
  else if sp <? 128 then
    let ext := default BorrowLinkExt (LinkExt state) in
    _ <-- go_index ext (sp - 16) ;;
    Ret (ctx, mkES (LinkStack state) (i16 (sp + 1)) (PC state) (ErrorHandlerPC state)
                (Some (<[Z.to_nat (sp - 16):=ret]> ext)), entryID)
  else Ret (set_status (set_failed ctx true) 500, state, StopPlan).

Definition Return_ : InstructionFunc := fun ctx state =>
  let sp := i16 (StackPtr state - 1) in
  let state := mkES (LinkStack state) sp (PC state) (ErrorHandlerPC state) (LinkExt state) in
  if (sp <? 0) || ((16 <=? sp) && bool_decide (LinkExt state = None)) then
    Ret (set_status (set_failed ctx true) 500, state, StopPlan)
  else if sp <? 16 then
    pc <-- go_index (LinkStack state) sp ;; Ret (ctx, state, pc)
  else
    pc <-- go_index (default [] (LinkExt state)) (sp - 16) ;; Ret (ctx, state, pc).

Definition InternalJump (targetID : Z) : InstructionFunc := fun ctx state => Ret (ctx, state, targetID).

(** ** Loops and branches (logic.go) *)

(** The action of an IF gate for a compiled condition. *)
Definition IfGate (condFn : Ctx -> bool) (thenID elseID : Z) : InstructionFunc := fun ctx state =>
  Ret (ctx, state, if condFn ctx then thenID else elseID).

Definition get_int (c : Ctx) (slot : Z) : outcome Z := GetInt (slots (c_data c)) slot.

Definition set_int (c : Ctx) (slot v : Z) : outcome Ctx :=
  s <-- SetInt (slots (c_data c)) slot v ;;
  Ret (set_data c (mkContext (mem (c_data c)) s)).

Definition WhileGate (condFn : Ctx -> bool) (iterSlot maxIter bodyStart exitID : Z) : InstructionFunc :=
  let limit := if maxIter <=? 0 then 100 else maxIter in
  fun ctx state =>
    iter <-- get_int ctx iterSlot ;;
    if negb (condFn ctx) || (limit <=? iter) then
      ctx <-- set_int ctx iterSlot 0 ;; Ret (ctx, state, exitID)
    else
      ctx <-- set_int ctx iterSlot (i64 (iter + 1)) ;; Ret (ctx, state, bodyStart).

Definition WhileRepeat (gateID : Z) : InstructionFunc := fun ctx state => Ret (ctx, state, gateID).

(** ** Error handling (error_handling.go) *)

Definition Fail (code : Z) (msgSlot : Z) (staticMsg : option slice) : InstructionFunc := fun ctx state =>
  msg <-- (if in_slots (c_data ctx) msgSlot then go_index (ByteSlots (slots (c_data ctx))) msgSlot else Ret staticMsg) ;;
  Ret (mkCtx (c_data ctx) true (c_status ctx) code msg (c_body ctx) (instrs ctx), state, StopPlan).

(** [buf[n] = x; n++] on the six-byte buffer. *)
Definition push_buf (buf : byte_string) (x : Z) : outcome byte_string :=
  if (length buf <? 6)%nat then Ret (buf ++ [x]) else Panic.

Fixpoint code_digits (fuel : nat) (code : Z) (buf : byte_string) : outcome byte_string :=
  match fuel with
  | O => Fuel
  | S fuel' =>
    if 0 <? code then
      buf <-- push_buf buf (48 + Z.rem code 10) ;; code_digits fuel' (Z.quot code 10) buf
    else Ret buf
  end.

(** The decimal text of an error code, digits written backwards and reversed. *)
Definition code_text (code : Z) : outcome byte_string :=
  buf <-- (if code <? 0 then push_buf [] 45 else Ret []) ;;
  let code := if code <? 0 then i16 (- code) else code in
  if code =? 0 then push_buf buf 48
  else
    digits <-- code_digits 6 code buf ;;
    Ret (take (length buf) digits ++ reverse (drop (length buf) digits)).

(** Writing the code, and then the message, to their slots. *)
Definition capture_code (codeSlot code : Z) (d : Context.Context) : outcome Context.Context :=
  if in_slots d codeSlot then
    text <-- code_text code ;;
    let '(m, s) := Alloc (mem d) (Z.of_nat (length text)) in
    sl <-- put_slot (slots d) codeSlot (Some s) ;;
    Ret (mkContext (copy m s text) sl)
  else Ret d.

Definition capture_msg (msgSlot : Z) (msg : option slice) (d : Context.Context) : outcome Context.Context :=
  if in_slots d msgSlot then
    sl <-- put_slot (slots d) msgSlot msg ;; Ret (mkContext (mem d) sl)
  else Ret d.

Definition CaptureError (codeSlot msgSlot : Z) : InstructionFunc := fun ctx state =>
  d <-- capture_code codeSlot (ErrorCode ctx) (c_data ctx) ;;
  d <-- capture_msg msgSlot (ErrorMsg ctx) d ;;
  Ret (clear_error (set_data ctx d), state, i16 (PC state + 1)).

(** Did the wrapped instruction signal failure? *)
Definition signalled (ctx : Ctx) (pc : Z) : bool := (pc =? StopPlan) && Failed ctx.

Definition WrapOnErrorContinue (inner : InstructionFunc) : InstructionFunc := fun ctx state =>
  let savedPC := PC state in
  r <-- inner ctx state ;;
  let '(ctx, state, result) := r in
  if signalled ctx result then Ret (clear_error ctx, state, i16 (savedPC + 1))
  else Ret (ctx, state, result).

Definition WrapOnErrorJump (inner : InstructionFunc) (errFlowPC : Z) : InstructionFunc := fun ctx state =>
  r <-- inner ctx state ;;
  let '(ctx, state, result) := r in
  if signalled ctx result then Ret (set_failed ctx false, state, errFlowPC)
  else Ret (ctx, state, result).

Definition WrapOnErrorStatus (inner : InstructionFunc) (httpStatus : Z) (body : option byte_string)
  : InstructionFunc := fun ctx state =>
  r <-- inner ctx state ;;
  let '(ctx, state, result) := r in
  if signalled ctx result then
    let ctx := set_status ctx httpStatus in
    let ctx := match body with Some _ => set_body ctx body | None => ctx end in
    Ret (clear_error ctx, state, StopPlan)
  else Ret (ctx, state, result).

(** ** The fallback condition evaluator (logic.go) *)

Definition OpAnd : Z := -1.
Definition OpOr : Z := -2.

(** One token of the postfix plan; the result stack grows at its head.  [None]
    is the early [return false]. *)
Definition rpn_step (slots : list byte_string) (val : Z) (results : list bool) : option (list bool) :=
  if (val =? OpAnd) || (val =? OpOr) then
    match results with
    | r :: l :: rest => Some ((if val =? OpAnd then l && r else l || r) :: rest)
    | _ => None
    end
  else if (0 <=? val) && (val <? Z.of_nat (length slots)) then
    Some (negb (bool_decide (default [] (slots !! Z.to_nat val) = [])) :: results)
  else Some (false :: results).

Fixpoint rpn_run (slots : list byte_string) (plan : list Z) (results : list bool) : option (list bool) :=
  match plan with
  | [] => Some results
  | val :: plan' => match rpn_step slots val results with
                    | Some results' => rpn_run slots plan' results'
                    | None => None
                    end
  end.

(** [evaluateRPN]: the bottom of the stack is the answer. *)
Definition evaluateRPN (slots : list byte_string) (plan : list Z) : bool :=
  match rpn_run slots plan [] with
  | Some results => default false (last results)
  | None => false
  end.

(** [strings.Fields]: the maximal runs without white space. *)
Fixpoint fields_loop (fuel : nat) (s cur : byte_string) : list byte_string :=
  let flush := match cur with [] => [] | _ => [cur] end in
  match fuel with
  | O => flush
  | S fuel' =>
    match s with
    | [] => flush
    | c :: s' =>
      match list_find (fun p => has_prefix s p = true) spaces with
      | Some (_, p) => flush ++ fields_loop fuel' (drop (length p) s) []
      | None => fields_loop fuel' s' (cur ++ [c])
      end
    end
  end.

Definition Fields (s : byte_string) : list byte_string := fields_loop (S (length s)) s [].

(** [strings.Trim(s, cutset)] for a cutset of ASCII bytes. *)
Fixpoint drop_cut (cut s : byte_string) : byte_string :=
  match s with
  | c :: s' => if bool_decide (c ∈ cut) then drop_cut cut s' else s
  | [] => []
  end.

Definition Trim (s cut : byte_string) : byte_string := reverse (drop_cut cut (reverse (drop_cut cut s))).

Section rpn.
Variable slotMap : byte_string -> option Z.

Fixpoint rpn_tokens (toks : list byte_string) (pendingOp : option Z) (result : list Z) : list Z :=
  match toks with
  | [] => result
  | tok :: toks' =>
    let tok := Trim tok (bytes_of "()") in
    if beq tok (bytes_of "&&") then rpn_tokens toks' (Some OpAnd) result
    else if beq tok (bytes_of "||") then rpn_tokens toks' (Some OpOr) result
    else match slotMap tok with
         | None => rpn_tokens toks' pendingOp result
         | Some idx =>
           match pendingOp with
           | Some op => rpn_tokens toks' None (result ++ [idx; op])
           | None => rpn_tokens toks' None (result ++ [idx])
           end
         end
  end.

Definition parseToRPN (cond : byte_string) : list Z :=
  match TrimSpace cond with
  | [] => []
  | c => rpn_tokens (Fields c) None []
  end.

End rpn.
