(* ===== verification/FlowSpec.v ===== *)
(** * Correctness of the flow executor *)

From S2P Require Import Prelude Cond Context ContextSpec Request RequestSpec Flow.
From S2P Require Import CondSpec.
From stdpp Require Import base numbers list gmap relations.

Local Open Scope Z_scope.
Local Open Scope rah_scope.

(** ** The link stack *)

Module LinkSpec.

Inductive lop : Type := LCall (pc entry : Z) | LRet (pc : Z).

(** The two instructions on a given context; the answer is the next address
    and whether the flow was failed. *)
Definition lstep (ctx : Ctx) (o : lop) (s : ExecutionState) : outcome (ExecutionState * (Z * bool)) :=
  r <-- match o with
        | LCall pc entry => CallFragment entry ctx (set_PC s pc)
        | LRet pc => Return_ ctx (set_PC s pc)
        end ;;
  let '(ctx', s', next) := r in Ret (s', (next, Failed ctx')).

(** What the arrays and the pointer amount to: a stack of at most 128 return
    addresses.  Returning from an empty stack fails the flow and leaves a debt;
    calling with a debt is an index panic. *)
Record lstack : Type := mkL { addrs : list Z; debt : nat }.

Definition astep (o : lop) (l : lstack) : outcome (lstack * (Z * bool)) :=
  match o with
  | LCall pc entry =>
    if (0 <? debt l)%nat then Panic
    else if (length (addrs l) =? 128)%nat then Ret (l, (StopPlan, true))
    else Ret (mkL (i16 (pc + 1) :: addrs l) 0, (entry, false))
  | LRet pc =>
    match addrs l with
    | a :: rest => Ret (mkL rest 0, (a, false))
    | [] => Ret (mkL [] (S (debt l)), (StopPlan, true))
    end
  end.

(** Where the [i]-th address from the bottom is kept. *)
Definition kept (s : ExecutionState) (i : nat) : option Z :=
  if (i <? 16)%nat then LinkStack s !! i
  else match LinkExt s with Some ext => ext !! (i - 16)%nat | None => None end.

Record lrel (n : nat) (s : ExecutionState) (l : lstack) : Prop := {
  l_sp : StackPtr s = Z.of_nat (length (addrs l)) - Z.of_nat (debt l);
  l_debt : (debt l = 0)%nat \/ addrs l = [];
  l_room : Z.of_nat (debt l) + Z.of_nat n < 2 ^ 15;
  l_link : length (LinkStack s) = 16%nat;
  l_ext : forall ext, LinkExt s = Some ext -> length ext = 112%nat;
  l_depth : (length (addrs l) <= 128)%nat;
  l_kept : forall i a, reverse (addrs l) !! i = Some a -> kept s i = Some a
}.

Lemma lookup_reverse_cons {A} (a : A) l i :
  reverse (a :: l) !! i = if decide (i = length l) then Some a else reverse l !! i.
Proof.
  rewrite reverse_cons. destruct (decide (i = length l)) as [->|Hne].
  - rewrite lookup_app_r, length_reverse, Nat.sub_diag; [done|]. by rewrite length_reverse.
  - destruct (decide (i < length l)%nat) as [Hlt|Hge].
    + by rewrite lookup_app_l by (by rewrite length_reverse).
    + rewrite !lookup_ge_None_2; [done| |]; rewrite ?length_app, ?length_reverse; simpl; lia.
Qed.

(** Pushing on either part of the stack. *)
Lemma push_kept s s' a st :
  (forall i b, i <> length st -> kept s i = Some b -> kept s' i = Some b) -> kept s' (length st) = Some a ->
  (forall i b, reverse st !! i = Some b -> kept s i = Some b) ->
  forall i b, reverse (a :: st) !! i = Some b -> kept s' i = Some b.
Proof.
  intros Hother Hnew Hold i b. rewrite lookup_reverse_cons.
  destruct (decide (i = length st)) as [->|Hne]; [by intros [= <-]|].
  intros Hb. apply Hother; [done|]. by apply Hold.
Qed.

Lemma call_sim n ctx pc entry s l :
  Failed ctx = false -> lrel (S n) s l -> sim (lrel n) (lstep ctx (LCall pc entry) s) (astep (LCall pc entry) l).
Proof.
  intros Hf [Hsp Hd Hr Hl He Hdep Hk]. unfold lstep, CallFragment. cbn [StackPtr set_PC LinkStack LinkExt PC].
  destruct l as [st d]. cbn [addrs debt astep] in *. rewrite Hsp.
  destruct (Nat.ltb_spec 0 d) as [Hd0|Hd0].
  - destruct Hd as [Hd|Hd]; [lia|]. rewrite Hd. cbn [length]. rewrite (proj2 (Z.ltb_lt _ 16)) by lia.
    unfold go_index. by rewrite (proj2 (Z.ltb_lt _ 0)) by lia.
  - assert (d = 0)%nat as -> by lia. rewrite Z.sub_0_r.
    destruct (Z.ltb_spec (Z.of_nat (length st)) 16) as [Hlt|Hge].
    + rewrite (proj2 (Nat.eqb_neq _ 128)) by lia.
      destruct (lookup_lt_is_Some_2 (LinkStack s) (length st)) as [x Hx]; [lia|].
      rewrite (go_index_nat _ _ _ Hx). cbn [obind sim]. rewrite Hf. split; [|done].
      constructor; cbn [StackPtr addrs debt LinkStack LinkExt length]; try done; rewrite ?length_insert; try done; try lia.
      * rewrite wraps_small by lia. lia.
      * apply (push_kept s); [| |done].
        -- intros i b Hi. unfold kept. cbn [LinkStack LinkExt]. destruct (i <? 16)%nat; [|done].
           by rewrite Nat2Z.id, list_lookup_insert_ne by done.
        -- unfold kept. cbn [LinkStack LinkExt]. rewrite (proj2 (Nat.ltb_lt _ 16)) by lia.
           rewrite Nat2Z.id. apply list_lookup_insert_eq. lia.
    + destruct (Nat.eqb_spec (length st) 128) as [E|Hne].
      * rewrite E. cbn [obind sim]. split; [|done]. constructor; cbn; try done; lia.
      * rewrite (proj2 (Z.ltb_lt _ 128)) by lia.
        assert (length (default BorrowLinkExt (LinkExt s)) = 112%nat) as Hext.
        { destruct (LinkExt s) eqn:E; [by apply He|done]. }
        destruct (lookup_lt_is_Some_2 (default BorrowLinkExt (LinkExt s)) (length st - 16)) as [x Hx]; [lia|].
        replace (Z.of_nat (length st) - 16) with (Z.of_nat (length st - 16)) by lia.
        rewrite (go_index_nat _ _ _ Hx). cbn [obind sim]. rewrite Hf. split; [|done].
        constructor; cbn [StackPtr addrs debt LinkStack LinkExt length]; try done; try lia.
        -- rewrite wraps_small by lia. lia.
        -- intros ext [= <-]. by rewrite length_insert.
        -- rewrite Nat2Z.id. apply (push_kept s); [| |done].
           ++ intros i b Hi. unfold kept. cbn [LinkStack LinkExt]. destruct (Nat.ltb_spec i 16) as [|Hi16]; [done|].
              rewrite list_lookup_insert_ne by lia. by destruct (LinkExt s).
           ++ unfold kept. cbn [LinkStack LinkExt]. rewrite (proj2 (Nat.ltb_ge _ 16)) by lia.
              apply list_lookup_insert_eq. lia.
Qed.

Lemma return_sim n ctx pc s l :
  Failed ctx = false -> lrel (S n) s l -> sim (lrel n) (lstep ctx (LRet pc) s) (astep (LRet pc) l).
Proof.
  intros Hf [Hsp Hd Hr Hl He Hdep Hk]. unfold lstep, Return_. cbn [StackPtr set_PC LinkStack LinkExt PC].
  destruct l as [st d]. cbn [addrs debt astep] in *. rewrite Hsp.
  assert (i16 (Z.of_nat (length st) - Z.of_nat d - 1) = Z.of_nat (length st) - Z.of_nat d - 1) as ->
    by (apply wraps_small; lia).
  destruct st as [|a st].
  - cbn [length]. rewrite (proj2 (Z.ltb_lt _ 0)) by lia. cbn [orb obind sim]. split; [|done].
    constructor; cbn [StackPtr addrs debt LinkStack LinkExt length]; try done; first [lia|by right].
  - destruct Hd as [->|?]; [|done]. cbn [length] in *.
    replace (Z.of_nat (S (length st)) - Z.of_nat 0 - 1) with (Z.of_nat (length st)) by lia.
    assert (kept s (length st) = Some a) as Hka by (apply Hk; rewrite lookup_reverse_cons; by case_decide).
    assert (lrel n (mkES (LinkStack s) (Z.of_nat (length st)) pc (ErrorHandlerPC s) (LinkExt s)) (mkL st 0)) as Hrel.
    { constructor; cbn [StackPtr addrs debt LinkStack LinkExt]; try done; try lia; try by left.
      intros i b Hb. unfold kept. cbn [LinkStack LinkExt]. apply (Hk i b). rewrite lookup_reverse_cons.
      apply lookup_lt_Some in Hb as Hlt. rewrite length_reverse in Hlt. case_decide; [lia|done]. }
    rewrite (proj2 (Z.ltb_ge _ 0)) by lia. cbn [orb]. unfold kept in Hka.
    destruct (Nat.ltb_spec (length st) 16) as [Hlt|Hge].
    + rewrite (proj2 (Z.leb_gt 16 _)) by lia. cbn [andb]. rewrite (proj2 (Z.ltb_lt _ 16)) by lia.
      rewrite (go_index_nat _ _ _ Hka). cbn [obind sim]. by rewrite Hf.
    + destruct (LinkExt s) as [ext|]; [|done]. rewrite (bool_decide_eq_false_2 (Some ext = None)), andb_false_r by done.
      rewrite (proj2 (Z.ltb_ge _ 16)) by lia. cbn [default from_option id].
      replace (Z.of_nat (length st) - 16) with (Z.of_nat (length st - 16)) by lia.
      rewrite (go_index_nat _ _ _ Hka). cbn [obind sim]. by rewrite Hf.
Qed.

(** The two arrays keep the addresses, and the stack pointer the debt. *)
Lemma link_debt_refines ctx depth os :
  Failed ctx = false -> Z.of_nat (length os) < 2 ^ 15 ->
  answers (lstep ctx) os (new_state depth) = answers astep os (mkL [] 0).
Proof.
  intros Hf Hlen. apply (answers_refine _ _ lrel (fun _ => True)).
  - intros [pc entry|pc] k s1 s2 _ H; [by apply call_sim|by apply return_sim].
  - by apply Forall_true.
  - constructor; cbn [StackPtr addrs debt LinkStack LinkExt length new_state]; try done; try lia; try by left.
    intros ext. destruct (15 <? depth); [|done]. by intros [= <-].
Qed.

(** The documented stack: at most 128 return addresses, and whether a return
    has found it empty. *)
Definition doc_step (o : lop) (l : list Z * bool) : list Z * bool * (Z * bool) :=
  match o with
  | LCall pc entry =>
    if (length l.1 =? 128)%nat then (l, (StopPlan, true)) else (i16 (pc + 1) :: l.1, l.2, (entry, false))
  | LRet pc =>
    match l.1 with
    | a :: rest => (rest, l.2, (a, false))
    | [] => ([], true, (StopPlan, true))
    end
  end.

(** A flow that has returned too often makes no further call. *)
Definition balanced (o : lop) (l : list Z * bool) : bool :=
  match o with LCall _ _ => negb l.2 | LRet _ => true end.

Definition stack_rel (l : lstack) (d : list Z * bool) : Prop :=
  addrs l = d.1 /\ if d.2 then d.1 = [] else debt l = 0%nat.

Lemma link_doc_step o l d : balanced o d = true -> stack_rel l d ->
  exists l', astep o l = Ret (l', (doc_step o d).2) /\ stack_rel l' (doc_step o d).1.
Proof.
  destruct l as [st n], d as [st' u]. intros Hb [E Hu]. cbn [addrs debt fst snd] in *. subst st'.
  destruct o as [pc entry|pc]; cbn [astep doc_step balanced addrs debt fst snd] in *.
  - apply negb_true_iff in Hb as ->. subst n. cbn [Nat.ltb Nat.leb].
    destruct (length st =? 128)%nat; (eexists; split; [reflexivity|done]).
  - destruct st as [|a st]; (eexists; split; [reflexivity|]); [done|]. destruct u; done.
Qed.


Definition ctx0 : Ctx :=
  mkCtx (new_context []) false 200 0 None None (Trace.mkInstrs (replicate 64 0) (replicate 64 0) 0 None).


(** Outside that contract: the pointer stays below zero after an underflow, and
    a call is then an index panic. *)
Lemma call_after_underflow_panics :
  answers (lstep ctx0) [LRet 4; LCall 3 10] (new_state 0) = Panic.
Proof. vm_compute. reflexivity. Qed.

End LinkSpec.

(** ** Executions *)

Module ExecSpec.
Import TraceSpec.

(** One instruction, without the bookkeeping. *)
Definition act (table : list InstructionFunc) (c : conf) : outcome conf :=
  action <-- go_index table (at_pc c) ;;
  r <-- action (at_ctx c) (set_PC (at_state c) (at_pc c)) ;;
  let '(ctx, state, pc) := r in
  if (pc =? StopPlan) && Failed ctx && negb (ErrorHandlerPC state =? 0)
  then Ret (mkConf (ErrorHandlerPC state) ctx (set_handler state 0))
  else Ret (mkConf pc ctx state).

(** [steps table c pcs c']: from [c], executing the addresses [pcs] in turn
    leads to [c'], without stopping on the way. *)
Inductive steps (table : list InstructionFunc) : conf -> list Z -> conf -> Prop :=
| steps_nil c : steps table c [] c
| steps_cons c c1 pcs c2 :
    running table c = true -> act table c = Ret c1 -> at_pc c1 <> StopPlan ->
    steps table c1 pcs c2 -> steps table c (at_pc c :: pcs) c2.

(** [flow table c pcs c']: the whole execution from [c]. *)
Inductive flow (table : list InstructionFunc) : conf -> list Z -> conf -> Prop :=
| flow_halt c : running table c = false -> flow table c [] c
| flow_stop c c' :
    running table c = true -> act table c = Ret c' -> at_pc c' = StopPlan -> flow table c [at_pc c] c'
| flow_next c c1 pcs c2 :
    running table c = true -> act table c = Ret c1 -> at_pc c1 <> StopPlan ->
    flow table c1 pcs c2 -> flow table c (at_pc c :: pcs) c2.

Lemma steps_app table c1 p c2 q c3 : steps table c1 p c2 -> steps table c2 q c3 -> steps table c1 (p ++ q) c3.
Proof. induction 1; [done|]. intros H3. cbn [app]. econstructor; eauto. Qed.

Lemma steps_flow table c1 p c2 q c3 : steps table c1 p c2 -> flow table c2 q c3 -> flow table c1 (p ++ q) c3.
Proof. induction 1; [done|]. intros H3. cbn [app]. eapply flow_next; eauto. Qed.

(** Instructions do not look at the trace or move the program counter of the
    instruction being executed. *)
Definition with_trace (t : Trace.Instrs) (r : Ctx * ExecutionState * Z) : Ctx * ExecutionState * Z :=
  (set_instrs r.1.1 t, r.1.2, r.2).

Class TraceBlind (a : InstructionFunc) : Prop := {
  blind_trace ctx s t : a (set_instrs ctx t) s = (r <-- a ctx s ;; Ret (with_trace t r));
  blind_pc ctx s r : a ctx s = Ret r -> PC r.1.2 = PC s
}.

#[export] Instance jump_blind n : TraceBlind (InternalJump n).
Proof. split; [done|]. by intros ctx s r [= <-]. Qed.

#[export] Instance repeat_blind n : TraceBlind (WhileRepeat n).
Proof. split; [done|]. by intros ctx s r [= <-]. Qed.

#[export] Instance call_blind n : TraceBlind (CallFragment n).
Proof.
  split.
  - intros ctx s t. unfold CallFragment. destruct (_ <? 16); [by destruct (go_index _ _)|].
    destruct (_ <? 128); [by destruct (go_index _ _)|done].
  - intros ctx s r. unfold CallFragment. destruct (_ <? 16).
    { destruct (go_index _ _); [|done..]. by intros [= <-]. }
    destruct (_ <? 128); [|by intros [= <-]]. destruct (go_index _ _); [|done..]. by intros [= <-].
Qed.

#[export] Instance return_blind : TraceBlind Return_.
Proof.
  split.
  - intros ctx s t. unfold Return_. destruct (_ || _); [done|].
    destruct (_ <? 16); by destruct (go_index _ _).
  - intros ctx s r. unfold Return_. destruct (_ || _); [by intros [= <-]|].
    destruct (_ <? 16); (destruct (go_index _ _); [|done..]); by intros [= <-].
Qed.

#[export] Instance fail_blind code slot msg : TraceBlind (Fail code slot msg).
Proof.
  split.
  - intros ctx s t. unfold Fail. cbn [c_data set_instrs]. destruct (in_slots _ _); [by destruct (go_index _ _)|done].
  - intros ctx s r. unfold Fail. destruct (in_slots _ _); [destruct (go_index _ _); [|done..]|]; by intros [= <-].
Qed.

#[export] Instance continue_blind a : TraceBlind a -> TraceBlind (WrapOnErrorContinue a).
Proof.
  intros [Ht Hp]. split.
  - intros ctx s t. unfold WrapOnErrorContinue. rewrite Ht.
    destruct (a ctx s) as [[[c' s'] n]| |]; [|done..]. cbn [obind with_trace fst snd].
    unfold signalled. cbn [Failed set_instrs]. by destruct (_ && _).
  - intros ctx s r. unfold WrapOnErrorContinue. destruct (a ctx s) as [[[c' s'] n]| |] eqn:E; [|done..].
    apply Hp in E. cbn [obind fst snd] in *. destruct (signalled _ _); by intros [= <-].
Qed.

#[export] Instance onjump_blind a n : TraceBlind a -> TraceBlind (WrapOnErrorJump a n).
Proof.
  intros [Ht Hp]. split.
  - intros ctx s t. unfold WrapOnErrorJump. rewrite Ht.
    destruct (a ctx s) as [[[c' s'] m]| |]; [|done..]. cbn [obind with_trace fst snd].
    unfold signalled. cbn [Failed set_instrs]. by destruct (_ && _).
  - intros ctx s r. unfold WrapOnErrorJump. destruct (a ctx s) as [[[c' s'] m]| |] eqn:E; [|done..].
    apply Hp in E. cbn [obind fst snd] in *. destruct (signalled _ _); by intros [= <-].
Qed.

(** The durations recorded for [n] instructions. *)
Fixpoint durations (ns : nat -> option Z) (n : nat) : list Z :=
  match n with O => [] | S n' => duration (ns O) :: durations (fun i => ns (S i)) n' end.

Definition conf_trace (c : conf) (t : Trace.Instrs) : conf := mkConf (at_pc c) (set_instrs (at_ctx c) t) (at_state c).

(** One turn of the loop is [act] plus one more entry in the trace. *)
Lemma exec_step_act table ns c c1 es :
  Forall TraceBlind table -> act table c = Ret c1 ->
  forall t, trace_rel t es -> exists t', exec_step table ns (conf_trace c t) = Ret (conf_trace c1 t') /\
    trace_rel t' (es ++ [(at_pc c, duration ns)]).
Proof.
  intros Hb Ha t Ht. unfold exec_step, act in *. cbn [at_pc at_ctx at_state conf_trace].
  destruct (go_index table (at_pc c)) as [a| |] eqn:Ea; [|done..]. cbn [obind] in *.
  apply go_index_Ret in Ea as [_ Ea]. destruct (proj1 (Forall_lookup _ _) Hb _ _ Ea) as [Hbt Hbp].
  rewrite Hbt. destruct (a (at_ctx c) _) as [[[ctx s] pc]| |] eqn:E; [|done..].
  apply Hbp in E. cbn [fst snd set_PC PC] in E. cbn [obind with_trace fst snd Failed set_instrs] in *.
  destruct (AppendInstr_spec t es (at_pc c) (duration ns) Ht) as (t' & Et & Hr).
  destruct ((pc =? StopPlan) && Failed ctx && negb (ErrorHandlerPC s =? 0)); injection Ha as <-;
    cbn [PC set_handler instrs set_instrs]; rewrite E, Et; cbn [obind]; by eexists.
Qed.

Lemma exec_loop_flow table c pcs c' :
  Forall TraceBlind table -> flow table c pcs c' ->
  forall ns fuel t es, (length pcs < fuel)%nat -> trace_rel t es ->
  exists t', exec_loop fuel table ns (conf_trace c t) = Ret (conf_trace c' t') /\
    trace_rel t' (es ++ zip pcs (durations ns (length pcs))).
Proof.
  intros Hb. induction 1 as [c Hr|c c' Hr Ha Hs|c c1 pcs c2 Hr Ha Hs _ IH]; intros ns fuel t es Hf Ht;
    destruct fuel as [|fuel]; try (simpl in Hf; lia); cbn [exec_loop];
    change (running table (conf_trace c t)) with (running table c); rewrite Hr.
  - exists t. by rewrite app_nil_r.
  - destruct (exec_step_act table (ns 0%nat) c c' es Hb Ha t Ht) as (t' & E & Hr').
    rewrite E. cbn [obind conf_trace at_pc]. rewrite (proj2 (Z.eqb_eq _ _) Hs). by exists t'.
  - destruct (exec_step_act table (ns 0%nat) c c1 es Hb Ha t Ht) as (t1 & E & Hr1).
    rewrite E. cbn [obind conf_trace at_pc]. rewrite (proj2 (Z.eqb_neq _ _) Hs).
    destruct (IH (fun i => ns (S i)) fuel t1 _ ltac:(simpl in Hf; lia) Hr1) as (t' & E' & Hr').
    exists t'. split; [exact E'|]. cbn [length durations zip zip_with]. by rewrite <- app_assoc in Hr'.
Qed.

(** C19: Execution follows the instruction table and the trace is its record.
    Whenever the instructions of a table lead from the start address through
    the addresses [pcs] to the end of the flow (off the table, or StopPlan
    with no pending error handler), [Execute] returns the context they
    produce, given one more turn than instructions executed; and whatever
    the pooled context recorded before, its instruction trace lists exactly
    [pcs], in order, each with its measured duration. *)
Theorem execute_trace_exact table ns ctx start depth pcs c' fuel :
  Forall TraceBlind table ->
  length (Trace.InstrPC (instrs ctx)) = 64%nat -> length (Trace.InstrDurNs (instrs ctx)) = 64%nat ->
  flow table (mkConf start ctx (new_state depth)) pcs c' -> (length pcs < fuel)%nat ->
  exists t, Execute fuel (set_instrs ctx (Trace.ResetInstrs (instrs ctx))) table start depth ns =
              Ret (set_instrs (at_ctx c') t) /\
    Trace.IterInstructions t = Ret (zip pcs (durations ns (length pcs))) /\
    Trace.TotalInstrCount t = Z.of_nat (length pcs).
Proof.
  intros Hb H1 H2 Hf Hn.
  assert (trace_rel (Trace.ResetInstrs (instrs ctx)) []) as Ht by (constructor; unfold holds; by split_and!).
  destruct (exec_loop_flow table _ pcs c' Hb Hf ns fuel _ [] Hn Ht) as (t & E & Hr).
  exists t. unfold Execute. unfold conf_trace in E at 1. cbn [at_pc at_ctx at_state] in E. rewrite E.
  split; [done|]. apply trace_read in Hr as [-> ->]. split; [done|]. cbn [app].
  rewrite length_zip_with. f_equal.
  enough (length (durations ns (length pcs)) = length pcs) by lia.
  clear. generalize (length pcs) as n. intros n. revert ns. induction n as [|n IH]; intros ns; [done|].
  cbn [durations length]. by rewrite IH.
Qed.

(** A flow that calls a fragment twice, handles one error and stops. *)
Definition demo : list InstructionFunc :=
  [CallFragment 4; CallFragment 4; WrapOnErrorContinue (Fail 7 (-1) None); InternalJump 100; Return_].

(** An executable check for whole executions. *)
Fixpoint run_flow (n : nat) (table : list InstructionFunc) (c : conf) : option (list Z * conf) :=
  match n with
  | O => None
  | S n' =>
    if running table c then
      match act table c with
      | Ret c1 => if at_pc c1 =? StopPlan then Some ([at_pc c], c1)
                  else match run_flow n' table c1 with
                       | Some (pcs, c2) => Some (at_pc c :: pcs, c2)
                       | None => None
                       end
      | _ => None
      end
    else Some ([], c)
  end.

Lemma run_flow_sound n table c pcs c' : run_flow n table c = Some (pcs, c') -> flow table c pcs c'.
Proof.
  revert c pcs c'. induction n as [|n IH]; intros c pcs c'; [done|]. cbn [run_flow].
  destruct (running table c) eqn:Er; [|intros [= <- <-]; by constructor].
  destruct (act table c) as [c1| |] eqn:Ea; [|done..].
  destruct (Z.eqb_spec (at_pc c1) StopPlan); [intros [= <- <-]; by constructor|].
  destruct (run_flow n table c1) as [[q c2]|] eqn:E; [|done]. intros [= <- <-].
  eapply flow_next; eauto.
Qed.

Lemma demo_flow d t :
  let ctx := mkCtx d false 200 0 None None t in
  exists c', flow demo (mkConf 0 ctx (new_state 20)) [0; 4; 1; 4; 2; 3] c' /\ at_ctx c' = ctx.
Proof.
  intros ctx. eexists. split; [apply (run_flow_sound 8); vm_compute; reflexivity|reflexivity].
Qed.

Lemma execute_trace_exact_witness :
  exists t, Execute 8 (set_instrs LinkSpec.ctx0 (Trace.ResetInstrs (instrs LinkSpec.ctx0))) demo 0 20 (fun _ => Some 5) =
              Ret (set_instrs LinkSpec.ctx0 t) /\
    Trace.IterInstructions t = Ret [(0, 5); (4, 5); (1, 5); (4, 5); (2, 5); (3, 5)].
Proof.
  destruct (demo_flow (new_context []) (instrs LinkSpec.ctx0)) as (c' & Hf & Hc).
  destruct (execute_trace_exact demo (fun _ => Some 5) LinkSpec.ctx0 0 20 [0; 4; 1; 4; 2; 3] c' 8) as (t & E & Ht & _).
  - unfold demo. repeat (apply Forall_cons; split; [apply _|]). by apply Forall_nil.
  - reflexivity.
  - reflexivity.
  - exact Hf.
  - simpl. lia.
  - exists t. rewrite Hc in E. split; [exact E|exact Ht].
Defined.

(** *** Integer slots as loop counters *)

Lemma set_int_spec ctx slot v :
  ctx_ok (c_data ctx) -> 0 <= slot < 32 ->
  exists ctx', set_int ctx slot v = Ret ctx' /\ ctx_ok (c_data ctx') /\ get_int ctx' slot = Ret v.
Proof.
  intros [Hm Hs] Hi. unfold set_int, get_int, SetInt, GetInt, BaseIntSlots, ExtIntSlots.
  destruct (c_data ctx) as [m sl] eqn:Ed. cbn [mem slots] in *. destruct Hs as [H1 H2 H3 H4 H5].
  destruct (Z.ltb_spec slot 16) as [Hlt|Hge].
  - destruct (lookup_lt_is_Some_2 (intSlotBase sl) (Z.to_nat slot)) as [x Hx]; [lia|].
    erewrite go_index_Z by (lia || exact Hx). cbn [obind]. eexists; split; [reflexivity|].
    cbn [c_data set_data slots mem intSlotBase]. split.
    + split; [done|]. constructor; cbn; try done. by rewrite length_insert.
    + apply go_index_Z; [lia|]. apply list_lookup_insert_eq. lia.
  - set (ext := default (replicate (Z.to_nat 16) 0) (intSlotExt sl)).
    assert (length ext = 16%nat) as Hext.
    { unfold ext. destruct (intSlotExt sl) eqn:E; [by apply H4|done]. }
    destruct (lookup_lt_is_Some_2 ext (Z.to_nat (slot - 16))) as [x Hx]; [lia|].
    erewrite go_index_Z by (lia || exact Hx). cbn [obind]. eexists; split; [reflexivity|].
    cbn [c_data set_data slots mem intSlotExt]. split.
    + split; [done|]. constructor; cbn; try done. intros e [= <-]. by rewrite length_insert.
    + apply go_index_Z; [lia|]. apply list_lookup_insert_eq. lia.
Qed.

(** *** While loops *)

Section while.
Context (table : list InstructionFunc) (cond : Ctx -> bool) (body : Ctx -> Ctx).
Context (iterSlot maxIter gate bodyStart rep exitID : Z).

Definition limit : Z := if maxIter <=? 0 then 100 else maxIter.

(** The counter as the loop leaves it; the slot is in range, so the write succeeds. *)
Definition count_to (ctx : Ctx) (v : Z) : Ctx :=
  match set_int ctx iterSlot v with Ret ctx' => ctx' | _ => ctx end.

(** The loop as it is meant: [n] more rounds allowed, [i] done. *)
Fixpoint while_sem (n : nat) (i : Z) (ctx : Ctx) : Ctx :=
  match n with
  | O => count_to ctx 0
  | S n' => if cond ctx then while_sem n' (i + 1) (body (count_to ctx (i + 1))) else count_to ctx 0
  end.

Hypothesis Hgate : go_index table gate = Ret (WhileGate cond iterSlot maxIter bodyStart exitID).
Hypothesis Hrep : go_index table rep = Ret (WhileRepeat gate).
Hypothesis Haddr : 0 <= gate < tableLen table /\ 0 <= rep < tableLen table.
Hypothesis Htarget : bodyStart <> StopPlan /\ exitID <> StopPlan.
Hypothesis Hslot : 0 <= iterSlot < 32.
Hypothesis Hmax : maxIter < 2 ^ 62.

(** The body runs from its first instruction to the jump back, without using
    the counter of the loop. *)
Hypothesis Hbody : forall ctx s, ctx_ok (c_data ctx) ->
  exists pcs s', steps table (mkConf bodyStart ctx s) pcs (mkConf rep (body ctx) s') /\
    ctx_ok (c_data (body ctx)) /\ get_int (body ctx) iterSlot = get_int ctx iterSlot.

Lemma running_at pc ctx s : 0 <= pc < tableLen table -> running table (mkConf pc ctx s) = true.
Proof. intros H. unfold running. cbn [at_pc]. apply andb_true_iff. split; [apply Z.leb_le|apply Z.ltb_lt]; lia. Qed.

Lemma count_to_spec ctx v :
  ctx_ok (c_data ctx) ->
  set_int ctx iterSlot v = Ret (count_to ctx v) /\ ctx_ok (c_data (count_to ctx v)) /\
  get_int (count_to ctx v) iterSlot = Ret v.
Proof.
  intros H. destruct (set_int_spec ctx iterSlot v H Hslot) as (ctx' & E & ?). unfold count_to. by rewrite E.
Qed.

Lemma while_steps n i ctx s :
  Z.of_nat n = limit - i -> 0 <= i -> ctx_ok (c_data ctx) -> get_int ctx iterSlot = Ret i ->
  exists pcs s', steps table (mkConf gate ctx s) pcs (mkConf exitID (while_sem n i ctx) s').
Proof.
  assert (0 < limit < 2 ^ 62) as Hl by (unfold limit; destruct (Z.leb_spec maxIter 0); lia).
  revert i ctx s. induction n as [|n IH]; intros i ctx s Hn Hi Hok Hget; cbn [while_sem].
  - destruct (count_to_spec ctx 0 Hok) as (E0 & _ & _). exists [gate]. eexists.
    eapply (steps_cons table (mkConf gate ctx s)); [apply running_at, Haddr| | |constructor].
    + unfold act. cbn [at_pc at_ctx at_state]. rewrite Hgate. cbn [obind]. unfold WhileGate. fold limit.
      rewrite Hget. cbn [obind]. rewrite (proj2 (Z.leb_le limit i)), orb_true_r by lia. rewrite E0. cbn [obind].
      rewrite (proj2 (Z.eqb_neq exitID StopPlan)) by apply Htarget. reflexivity.
    + cbn [at_pc]. apply Htarget.
  - destruct (cond ctx) eqn:Ec.
    + destruct (count_to_spec ctx (i + 1) Hok) as (E1 & Hok1 & Hg1).
      destruct (Hbody (count_to ctx (i + 1)) (set_PC s gate) Hok1) as (pcs & s1 & Hst & Hok2 & Hg2).
      destruct (IH (i + 1) (body (count_to ctx (i + 1))) (set_PC s1 rep)) as (pcs' & s2 & Hst2); [lia|lia|done|by rewrite Hg2, Hg1|].
      exists (gate :: pcs ++ rep :: pcs'), s2.
      eapply (steps_cons table (mkConf gate ctx s)); [apply running_at, Haddr| | |].
      * unfold act. cbn [at_pc at_ctx at_state]. rewrite Hgate. cbn [obind]. unfold WhileGate. fold limit.
        rewrite Hget. cbn [obind]. rewrite Ec, (proj2 (Z.leb_gt limit i)) by lia. cbn [negb orb].
        rewrite wraps_small by lia. rewrite E1. cbn [obind].
        rewrite (proj2 (Z.eqb_neq bodyStart StopPlan)) by apply Htarget. reflexivity.
      * cbn [at_pc]. apply Htarget.
      * eapply steps_app; [exact Hst|].
        eapply (steps_cons table (mkConf rep _ s1)); [apply running_at, Haddr| | |exact Hst2].
        -- unfold act. cbn [at_pc at_ctx at_state]. rewrite Hrep. cbn [obind WhileRepeat].
           rewrite (proj2 (Z.eqb_neq gate StopPlan)) by (unfold StopPlan; lia). reflexivity.
        -- cbn [at_pc]. unfold StopPlan. lia.
    + destruct (count_to_spec ctx 0 Hok) as (E0 & _ & _). exists [gate]. eexists.
      eapply (steps_cons table (mkConf gate ctx s)); [apply running_at, Haddr| | |constructor].
      * unfold act. cbn [at_pc at_ctx at_state]. rewrite Hgate. cbn [obind]. unfold WhileGate. fold limit.
        rewrite Hget. cbn [obind]. rewrite Ec. cbn [negb orb]. rewrite E0. cbn [obind].
        rewrite (proj2 (Z.eqb_neq exitID StopPlan)) by apply Htarget. reflexivity.
      * cbn [at_pc]. apply Htarget.
Qed.

(** C31: While loops terminate and mean what they say.  Given a body that runs
    from its start to the jump back and leaves the loop counter alone, the
    gate and the jump execute the body as long as the condition holds, at
    most [maxIter] times (100 when none is given), and then reach the exit
    with the counter back at zero. *)
Theorem while_gate_terminates ctx s :
  ctx_ok (c_data ctx) -> get_int ctx iterSlot = Ret 0 ->
  exists pcs s', steps table (mkConf gate ctx s) pcs (mkConf exitID (while_sem (Z.to_nat limit) 0 ctx) s').
Proof.
  intros Hok Hget. apply while_steps; try done.
  assert (0 < limit) by (unfold limit; destruct (Z.leb_spec maxIter 0); lia). lia.
Qed.

End while.

(** A loop of three rounds around an instruction that only jumps on. *)
Definition spin : list InstructionFunc := [WhileGate (fun _ => true) 0 3 1 3; InternalJump 2; WhileRepeat 0].

Lemma ctx0_ok : ctx_ok (new_context (replicate 4096 0)).
Proof.
  split; constructor; cbn; try done; try lia.
  by repeat constructor.
Qed.

Lemma while_gate_terminates_witness :
  exists pcs s', steps spin (mkConf 0 (set_data LinkSpec.ctx0 (new_context (replicate 4096 0))) (new_state 0)) pcs
    (mkConf 3 (while_sem (fun _ => true) (fun c => c) 0 3 0 (set_data LinkSpec.ctx0 (new_context (replicate 4096 0)))) s').
Proof.
  apply (while_gate_terminates spin (fun _ => true) (fun c => c) 0 3 0 1 2 3);
    try reflexivity; try lia; try (split; vm_compute; congruence); try exact ctx0_ok.
  - split; split; vm_compute; congruence.
  - intros ctx s Hok. exists [1], (set_PC s 1). split; [|done].
    eapply (steps_cons spin (mkConf 1 ctx s)); [reflexivity|reflexivity|vm_compute; congruence|constructor].
Defined.

End ExecSpec.

(** ** Error capture and the fallback conditions *)

Module ErrorSpec.

Lemma digits_acc f n acc : digits f n acc = digits f n [] ++ acc.
Proof.
  revert n acc. induction f as [|f IH]; intros n acc; [done|]. cbn [digits].
  destruct (n <? 10); [done|]. rewrite IH, (IH _ [_]), <- app_assoc. done.
Qed.

(** The digits come out of the loop in reverse. *)
Lemma code_digits_spec k n buf fuel f :
  0 < n < 10 ^ Z.of_nat k -> (length buf + k <= 6)%nat -> (k < fuel)%nat -> (k <= f)%nat ->
  code_digits fuel n buf = Ret (buf ++ reverse (digits f n [])).
Proof.
  revert n buf fuel f. induction k as [|k IH]; intros n buf fuel f Hn Hb Hf Hk; [simpl in Hn; lia|].
  destruct fuel as [|fuel]; [lia|]. destruct f as [|f]; [lia|]. cbn [code_digits digits].
  rewrite (proj2 (Z.ltb_lt 0 n)) by lia. unfold push_buf. rewrite (proj2 (Nat.ltb_lt _ 6)) by lia. cbn [obind].
  rewrite Z.rem_mod_nonneg, Z.quot_div_nonneg by lia.
  rewrite Nat2Z.inj_succ, Z.pow_succ_r in Hn by lia.
  destruct (Z.ltb_spec n 10) as [Hlt|Hge].
  - rewrite Z.div_small by lia. destruct fuel as [|fuel]; [lia|]. done.
  - rewrite (IH (n `div` 10) _ fuel f); [|split; [apply Z.div_str_pos|apply Z.div_lt_upper_bound]; lia
                                          |rewrite length_app; simpl; lia|lia|lia].
    rewrite (digits_acc f _ [_]), reverse_app, <- app_assoc. done.
Qed.

Lemma code_text_pos n buf :
  0 < n < 2 ^ 15 -> (length buf <= 1)%nat ->
  (digits <-- code_digits 6 n buf ;; Ret (take (length buf) digits ++ reverse (drop (length buf) digits))) =
  Ret (buf ++ digits 20 n []).
Proof.
  intros Hn Hb. rewrite (code_digits_spec 5 n buf 6 20) by (first [lia|simpl; lia]). cbn [obind].
  by rewrite take_app_length, drop_app_length, reverse_involutive.
Qed.

(** Every error code of an [int16] but the least one. *)
Lemma code_text_Itoa code : - 2 ^ 15 < code < 2 ^ 15 -> code_text code = Ret (Itoa code).
Proof.
  intros H. unfold code_text, Itoa. destruct (Z.ltb_spec code 0) as [Hneg|Hpos].
  - cbn [obind push_buf length Nat.ltb Nat.leb app]. rewrite wraps_small by lia.
    rewrite (proj2 (Z.eqb_neq (- code) 0)) by lia. apply (code_text_pos (- code) [45]); simpl; lia.
  - cbn [obind]. destruct (Z.eqb_spec code 0) as [->|Hne]; [done|].
    apply (code_text_pos code []); simpl; lia.
Qed.

Definition put (idx : Z) (b : byte_string) (vs : list byte_string) : list byte_string :=
  if (0 <=? idx) && (idx <? Z.of_nat (length vs)) then <[Z.to_nat idx:=b]> vs else vs.

Lemma in_slots_values c idx : in_slots c idx = (0 <=? idx) && (idx <? Z.of_nat (length (values c))).
Proof. unfold in_slots, values. by rewrite length_fmap. Qed.

Lemma in_slots_range c idx : ctx_ok c -> in_slots c idx = true -> 0 <= idx < 48.
Proof.
  intros Hc Ei. unfold in_slots in Ei. apply andb_true_iff in Ei as [?%Z.leb_le ?%Z.ltb_lt].
  rewrite (so_bytes _ _ (proj2 Hc)) in *. lia.
Qed.

Lemma capture_code_spec d codeSlot code :
  ctx_ok d -> - 2 ^ 15 < code < 2 ^ 15 ->
  exists d', capture_code codeSlot code d = Ret d' /\ ctx_ok d' /\ values d' = put codeSlot (Itoa code) (values d) /\
    (forall s, valid (mem d) s -> valid (mem d') s /\ read (mem d') s = read (mem d) s).
Proof.
  intros Hok Hcode. unfold capture_code, put. rewrite <- in_slots_values.
  destruct (in_slots d codeSlot) eqn:Ei; [|by eexists].
  rewrite code_text_Itoa by done. cbn [obind]. set (text := Itoa code).
  pose proof (Alloc_spec (mem d) (Z.of_nat (length text)) (proj1 Hok) ltac:(lia)) as Ha.
  destruct (Alloc (mem d) (Z.of_nat (length text))) as [m1 sl].
  destruct (store_slot_spec d m1 sl codeSlot text Hok (in_slots_range _ _ Hok Ei) Ha) as (s' & -> & Hc' & Hv & _).
  cbn [obind]. eexists. split; [reflexivity|]. split; [exact Hc'|]. split; [exact Hv|].
  intros s Hs. destruct (store_spec (mem d) m1 sl text (proj1 Hok) Ha) as (_ & _ & _ & He).
  by apply He.
Qed.

(** C40: Capturing an error.  [capture_error] writes the decimal text of the
    error code and the error message to the chosen slots (each only when its
    index is a slot), leaves every other slot as it was, clears the error and
    goes on to the next instruction; it never panics.  The code -32768 is
    excluded. *)
Theorem capture_error_spec ctx state codeSlot msgSlot :
  ctx_ok (c_data ctx) -> - 2 ^ 15 < ErrorCode ctx < 2 ^ 15 ->
  (forall s, ErrorMsg ctx = Some s -> valid (mem (c_data ctx)) s) ->
  exists ctx', CaptureError codeSlot msgSlot ctx state = Ret (ctx', state, i16 (PC state + 1)) /\
    ctx_ok (c_data ctx') /\
    values (c_data ctx') = put msgSlot (value (c_data ctx) (ErrorMsg ctx))
                             (put codeSlot (Itoa (ErrorCode ctx)) (values (c_data ctx))) /\
    Failed ctx' = false /\ ErrorCode ctx' = 0 /\ ErrorMsg ctx' = None /\ c_status ctx' = c_status ctx.
Proof.
  intros Hok Hcode Hmsg. unfold CaptureError.
  destruct (capture_code_spec (c_data ctx) codeSlot (ErrorCode ctx) Hok Hcode) as (d & -> & Hd & Hv & Hext).
  cbn [obind]. unfold put at 1, capture_msg. rewrite <- Hv, <- in_slots_values.
  assert (value d (ErrorMsg ctx) = value (c_data ctx) (ErrorMsg ctx)) as Em.
  { destruct (ErrorMsg ctx) as [s|]; [|done]. by apply Hext, Hmsg. }
  destruct (in_slots d msgSlot) eqn:Ei; cbn [obind]; [|by eexists].
  destruct (put_slot_spec (mem d) (slots d) msgSlot (ErrorMsg ctx) (proj2 Hd) (in_slots_range _ _ Hd Ei)) as (s' & -> & Hs' & Hv' & _).
  { destruct (ErrorMsg ctx) as [s|]; [|done]. by apply Hext, Hmsg. }
  cbn [obind]. eexists. split; [reflexivity|]. cbn [c_data clear_error set_data Failed ErrorCode ErrorMsg c_status].
  split; [split; [apply Hd|exact Hs']|]. split; [|done]. rewrite Hv'. destruct d as [dm ds]. cbn [mem slots]. by rewrite Em.
Qed.

Lemma capture_error_spec_witness :
  let d := new_context (replicate 4096 0) in
  let ctx := mkCtx d true 502 (-504) None None (instrs LinkSpec.ctx0) in
  exists ctx', CaptureError 5 6 ctx (new_state 0) = Ret (ctx', new_state 0, 1) /\
    values (c_data ctx') = <[5%nat:=bytes_of "-504"]> (replicate 48 []) /\ Failed ctx' = false.
Proof.
  intros d ctx.
  destruct (capture_error_spec ctx (new_state 0) 5 6) as (ctx' & E & _ & Hv & Hf & _).
  - exact ExecSpec.ctx0_ok.
  - cbn [ErrorCode ctx]. lia.
  - done.
  - exists ctx'. split; [exact E|]. split; [|exact Hf]. rewrite Hv. vm_compute. reflexivity.
Defined.

(** The least code loses its digits. *)
Lemma least_code_text : code_text (- 2 ^ 15) = Ret (bytes_of "-").
Proof. reflexivity. Qed.

End ErrorSpec.

Module RPNSpec.

(** ** Old-style conditions: variables joined by && and ||

    Their meaning: a variable is true when its slot holds bytes, and the
    operators apply from left to right. *)

Definition plain (b : Z) : Prop := 33 <= b <= 126 /\ b <> 40 /\ b <> 41.

Definition variable (w : byte_string) : Prop :=
  w <> [] /\ Forall plain w /\ w <> bytes_of "&&" /\ w <> bytes_of "||".

Definition op_text (conj : bool) : byte_string := bytes_of (if conj then "&&" else "||").

Definition tail_text (l : list (bool * byte_string)) : byte_string :=
  concat (map (fun '(o, v) => [32] ++ op_text o ++ [32] ++ v) l).

Definition cond_text (v0 : byte_string) (l : list (bool * byte_string)) : byte_string := v0 ++ tail_text l.

Section meaning.
Variables (slotMap : byte_string -> option Z) (slots : list byte_string).

Definition holds_data (v : byte_string) : bool :=
  match slotMap v with
  | Some idx => negb (bool_decide (default [] (slots !! Z.to_nat idx) = []))
  | None => false
  end.

Definition meaning (v0 : byte_string) (l : list (bool * byte_string)) : bool :=
  foldl (fun acc '(o, v) => if o : bool then acc && holds_data v else acc || holds_data v) (holds_data v0) l.

(** *** Splitting into words *)

Lemma no_space_prefix sp c s :
  Forall (fun p => match p with x :: _ => x <> c | [] => False end) sp ->
  list_find (fun p => has_prefix (c :: s) p = true) sp = None.
Proof.
  intros H. apply list_find_None. eapply Forall_impl; [exact H|].
  intros [|x p]; [done|]. intros Hx. cbn [has_prefix]. by rewrite (proj2 (Z.eqb_neq _ _) Hx).
Qed.

Lemma plain_not_space c s : plain c -> list_find (fun p => has_prefix (c :: s) p = true) spaces = None.
Proof.
  intros [Hc _]. apply no_space_prefix. unfold spaces.
  repeat (apply Forall_cons; split; [lia|]). by apply Forall_nil.
Qed.

Lemma fields_word w : Forall plain w ->
  forall f s cur, fields_loop (length w + f) (w ++ s) cur = fields_loop f s (cur ++ w).
Proof.
  induction 1 as [|c w Hc _ IH]; intros f s cur; [by rewrite app_nil_r|].
  cbn [length Nat.add fields_loop app]. rewrite plain_not_space by done. rewrite IH. by rewrite <- app_assoc.
Qed.

Lemma fields_blank f s x w : fields_loop (S f) (32 :: s) (x :: w) = (x :: w) :: fields_loop f s [].
Proof. by destruct s. Qed.

Lemma op_plain o : Forall plain (op_text o) /\ length (op_text o) = 2%nat.
Proof. destruct o; (split; [|done]); repeat constructor; unfold plain; simpl; lia. Qed.

Lemma fields_tail l : Forall variable l.*2 ->
  forall f x w, (length (tail_text l) < f)%nat ->
  fields_loop f (tail_text l) (x :: w) = (x :: w) :: concat (map (fun '(o, v) => [op_text o; v]) l).
Proof.
  induction l as [|[o v] l IH]; intros Hl f x w Hf; [by destruct f|].
  cbn [fmap list_fmap] in Hl. apply Forall_cons in Hl as [(Hne & Hv & _) Hl].
  destruct (op_plain o) as [Ho Hol].
  assert (length (tail_text ((o, v) :: l)) = 4 + length v + length (tail_text l))%nat as Hlen.
  { unfold tail_text. cbn [map concat]. rewrite !length_app, Hol. simpl. lia. }
  destruct v as [|y v]; [done|]. cbn [snd] in Hv.
  assert (exists f', f = S (2 + S (length (y :: v) + f')) /\ length (tail_text l) < f')%nat as (f' & -> & Hf').
  { exists (f - 4 - length (y :: v))%nat. lia. }
  assert (tail_text ((o, y :: v) :: l) = 32 :: (op_text o ++ 32 :: ((y :: v) ++ tail_text l))) as ->.
  { unfold tail_text. cbn [map concat]. by rewrite <- !app_assoc. }
  rewrite fields_blank. f_equal. rewrite <- Hol, (fields_word _ Ho). rewrite app_nil_l.
  destruct (op_text o) as [|z op] eqn:Eo; [by destruct o|]. rewrite fields_blank.
  rewrite (fields_word _ Hv f' (tail_text l) []). rewrite (IH Hl f' y v Hf' : fields_loop f' (tail_text l) ([] ++ y :: v) = _).
  cbn [map concat app]. by rewrite Eo.
Qed.

Lemma Fields_cond v0 l : variable v0 -> Forall variable l.*2 ->
  Fields (cond_text v0 l) = v0 :: concat (map (fun '(o, v) => [op_text o; v]) l).
Proof.
  intros (Hne & Hv & _) Hl. unfold Fields, cond_text. rewrite length_app.
  replace (S (length v0 + length (tail_text l))) with (length v0 + S (length (tail_text l)))%nat by lia.
  rewrite (fields_word _ Hv), app_nil_l. destruct v0 as [|x v0]; [done|]. by rewrite fields_tail by (done || lia).
Qed.

Lemma cond_text_ends v0 l : variable v0 -> Forall variable l.*2 ->
  exists c s' d s'', cond_text v0 l = c :: s' /\ cond_text v0 l = s'' ++ [d] /\ plain c /\ plain d.
Proof.
  intros (Hne & Hv & _) Hl.
  assert (exists s'' d, cond_text v0 l = s'' ++ [d] /\ plain d) as (s'' & d & E & Hd).
  { unfold cond_text. destruct l as [|[o v] l _] using rev_ind.
    - destruct v0 as [|d v _] using rev_ind; [done|]. exists v, d. rewrite app_nil_r. split; [done|].
      apply Forall_app in Hv as [_ Hd]. exact (proj1 (Forall_singleton _ _) Hd).
    - rewrite fmap_app in Hl. apply Forall_app in Hl as [_ Hl]. apply Forall_singleton in Hl as (Hvne & Hv' & _).
      cbn [snd] in *. destruct v as [|d v _] using rev_ind; [done|]. apply Forall_app in Hv' as [_ Hd]. apply (proj1 (Forall_singleton _ _)) in Hd.
      exists (v0 ++ tail_text l ++ [32] ++ op_text o ++ [32] ++ v), d. split; [|done].
      unfold tail_text. rewrite map_app, concat_app. cbn [map concat]. by rewrite app_nil_r, <- !app_assoc. }
  destruct v0 as [|c v0]; [done|]. apply Forall_cons in Hv as [Hc _].
  exists c, (v0 ++ tail_text l), d, s''. by split_and!.
Qed.

(** *** From words to the plan *)

Lemma drop_cut_plain w : Forall plain w -> drop_cut (bytes_of "()") w = w.
Proof.
  intros [|c w' [_ [H40 H41]] _]; [done|]. cbn [drop_cut].
  rewrite bool_decide_eq_false_2; [done|].
  change (bytes_of _) with [40; 41]. intros [?|[?|?%elem_of_nil]%elem_of_cons]%elem_of_cons; done.
Qed.

Lemma Trim_plain w : Forall plain w -> Trim w (bytes_of "()") = w.
Proof.
  intros H. unfold Trim. rewrite (drop_cut_plain w) by done.
  rewrite drop_cut_plain by (by apply Forall_reverse). apply reverse_involutive.
Qed.

Definition code (o : bool) : Z := if o then OpAnd else OpOr.

Lemma rpn_tokens_op o toks p res :
  rpn_tokens slotMap (op_text o :: toks) p res = rpn_tokens slotMap toks (Some (code o)) res.
Proof. by destruct o. Qed.

Lemma rpn_tokens_var v idx toks p res :
  variable v -> slotMap v = Some idx ->
  rpn_tokens slotMap (v :: toks) p res =
  rpn_tokens slotMap toks None (res ++ idx :: match p with Some op => [op] | None => [] end).
Proof.
  intros (_ & Hp & H1 & H2) Hm. cbn [rpn_tokens]. rewrite Trim_plain by done. unfold beq.
  rewrite !bool_decide_eq_false_2 by done. rewrite Hm. by destruct p.
Qed.

Lemma rpn_tokens_tail l : Forall variable l.*2 -> Forall (fun v => is_Some (slotMap v)) l.*2 ->
  forall res, rpn_tokens slotMap (concat (map (fun '(o, v) => [op_text o; v]) l)) None res =
  res ++ concat (map (fun '(o, v) => [default 0 (slotMap v); code o]) l).
Proof.
  induction l as [|[o v] l IH]; intros Hl Hm res; [by rewrite app_nil_r|].
  cbn [fmap list_fmap] in *. apply Forall_cons in Hl as [Hv Hl], Hm as [[idx Hi] Hm].
  cbn [map concat app]. rewrite rpn_tokens_op, (rpn_tokens_var v idx) by done.
  rewrite IH by done. cbn [snd] in Hi. rewrite Hi. cbn [default from_option id]. by rewrite <- app_assoc.
Qed.

(** *** Evaluating the plan *)

Lemma rpn_step_var idx v res :
  slotMap v = Some idx -> 0 <= idx -> rpn_step slots idx res = Some (holds_data v :: res).
Proof.
  intros Hm Hi. unfold rpn_step, holds_data, OpAnd, OpOr. rewrite Hm.
  rewrite (proj2 (Z.eqb_neq idx (-1))), (proj2 (Z.eqb_neq idx (-2))) by lia. cbn [orb].
  rewrite (proj2 (Z.leb_le 0 idx)) by lia. cbn [andb].
  destruct (Z.ltb_spec idx (Z.of_nat (length slots))); [done|].
  by rewrite lookup_ge_None_2 by lia.
Qed.

Lemma rpn_run_tail l acc :
  Forall (fun v => exists idx, slotMap v = Some idx /\ 0 <= idx) l.*2 ->
  rpn_run slots (concat (map (fun '(o, v) => [default 0 (slotMap v); code o]) l)) [acc] =
  Some [foldl (fun acc '(o, v) => if o : bool then acc && holds_data v else acc || holds_data v) acc l].
Proof.
  revert acc. induction l as [|[o v] l IH]; intros acc Hl; [done|].
  cbn [fmap list_fmap] in Hl. apply Forall_cons in Hl as [(idx & Hm & Hi) Hl].
  cbn [map concat app rpn_run foldl]. cbn [snd] in Hm. rewrite Hm. cbn [default from_option id].
  rewrite (rpn_step_var idx v) by done. destruct o; apply IH, Hl.
Qed.

(** The fallback condition evaluator.  For a condition written as
    variables joined by && and ||, [parseToRPN] and [evaluateRPN] together
    decide what the text says: each variable is true when its slot holds
    bytes, and the operators apply from left to right. *)
Theorem rpn_left_to_right v0 l :
  Forall variable (v0 :: l.*2) ->
  Forall (fun v => exists idx, slotMap v = Some idx /\ 0 <= idx) (v0 :: l.*2) ->
  evaluateRPN slots (parseToRPN slotMap (cond_text v0 l)) = meaning v0 l.
Proof.
  intros [Hv0 Hl]%Forall_cons [(i0 & Hm0 & Hi0) Hm]%Forall_cons.
  destruct (cond_text_ends v0 l Hv0 Hl) as (c & s' & d & s'' & E1 & E2 & Hc & Hd).
  unfold parseToRPN.
  rewrite (CondSpec.TrimSpace_plain _ c d);
    [|unfold CondSpec.plain, plain in *; lia|unfold CondSpec.plain, plain in *; lia|by rewrite E1|by rewrite E2, last_snoc].
  rewrite E1, <- E1. rewrite Fields_cond by done.
  rewrite (rpn_tokens_var v0 i0) by done.
  rewrite rpn_tokens_tail; [|done|eapply Forall_impl; [exact Hm|]; intros v (i & -> & _); by eexists].
  unfold evaluateRPN. cbn [app rpn_run]. rewrite (rpn_step_var i0 v0) by done.
  rewrite rpn_run_tail by done. done.
Qed.

End meaning.

Lemma rpn_left_to_right_witness :
  let slotMap v := if beq v (bytes_of "header.X-Admin") then Some 3 else if beq v (bytes_of "query.role") then Some 7 else None in
  let slots := <[7%nat:=bytes_of "admin"]> (replicate 48 []) in
  evaluateRPN slots (parseToRPN slotMap (bytes_of "header.X-Admin && query.role || query.role")) = true.
Proof.
  intros slotMap slots.
  change (bytes_of "header.X-Admin && query.role || query.role") with
    (cond_text (bytes_of "header.X-Admin") [(true, bytes_of "query.role"); (false, bytes_of "query.role")]).
  rewrite (rpn_left_to_right slotMap slots).
  - reflexivity.
  - repeat (apply Forall_cons; split; [split; [done|]; split; [repeat constructor; unfold plain; simpl; lia|done]|]).
    by apply Forall_nil.
  - repeat (apply Forall_cons; split; [eexists; split; [reflexivity|lia]|]). by apply Forall_nil.
Defined.

(** An unknown variable does not drop its operator: the condition is false
    although the other variable is set. *)
Lemma rpn_unknown_variable :
  let slotMap v := if beq v (bytes_of "a") then Some 0 else None in
  evaluateRPN [[1]] (parseToRPN slotMap (bytes_of "nosuch || a")) = false.
Proof. reflexivity. Qed.

End RPNSpec.
