(* ===== verification/SubRouter.v ===== *)
(** * Second-stage routing: paths and methods within one API

    [internal/engine/sub_router.go], [api_definition.go], the compile-time half
    in [internal/control/sub_compiler.go] and the request-time half
    ([resolveSubPath]) in [internal/engine/manager.go]. *)

From S2P Require Import Prelude Cond.
From stdpp Require Import base numbers list gmap.

Local Open Scope Z_scope.
Local Open Scope rah_scope.

Record SubRouteNode : Type := mkSub {
  MaskLo : Z;
  MaskHi : Z;
  ChildIdx : Z;
  NumChildren : Z;
  PrefixLen : Z;
  HasParamChild : bool;
  ParamChildIdx : Z;
  AllowedMethods : Z;
  StrictMethods : Z;
  EndpointIdx : list Z
}.

Definition empty_node : SubRouteNode := mkSub 0 0 0 0 0 false 0 0 0 (replicate 5 0).

Definition node_of_len (n : Z) : SubRouteNode := mkSub 0 0 0 0 (u16 n) false 0 0 0 (replicate 5 0).

(** [mask & ((1 << char) - 1)], counted. *)
Definition rank (mask char : Z) : Z := popcount (Z.land mask (Z.ones char)).

Definition FindChildIdx (n : SubRouteNode) (char : Z) : Z :=
  if char <? 64 then
    if Z.land (MaskLo n) (shl 64 1 char) =? 0 then 0
    else u32 (ChildIdx n + rank (MaskLo n) char)
  else
    let char := char - 64 in
    if Z.land (MaskHi n) (shl 64 1 char) =? 0 then 0
    else u32 (ChildIdx n + rank (MaskHi n) char).

Record Endpoint : Type := mkEndpoint {
  EndpointId : Z;
  APIRateLimitId : Z;
  EndpointRateLimitId : Z;
  PathBindings : list (Z * byte_string)   (* BindPath instructions: parameter index and its name *)
}.

Record ApiDefinition : Type := mkApi {
  BaseRawPath : byte_string;
  AliasPaths : list byte_string;
  SubArena : list SubRouteNode;
  Endpoints : list Endpoint
}.

(** [BakeDefinition]. *)
Definition BakeDefinition (path : byte_string) : ApiDefinition := mkApi path [] [] [].

Definition MethodStringToIdx (m : byte_string) : Z :=
  if beq m (bytes_of "GET") then 0
  else if beq m (bytes_of "POST") then 1
  else if beq m (bytes_of "PUT") then 2
  else if beq m (bytes_of "DELETE") then 3
  else 4.

Definition MethodToIdx (m : byte_string) : Z :=
  match m with
  | [] => 4
  | c :: m' =>
    if c =? 71 then 0
    else if c =? 80 then
      match m' with
      | c2 :: _ => if c2 =? 79 then 1 else if c2 =? 85 then 2 else 4
      | [] => 4
      end
    else if c =? 68 then 3
    else 4
  end.

(** ** Building (sub_compiler.go) *)

Definition set_arena (d : ApiDefinition) (a : list SubRouteNode) : ApiDefinition :=
  mkApi (BaseRawPath d) (AliasPaths d) a (Endpoints d).

Definition boolToMask (val : bool) (idx : Z) : Z := if val then u8 (Z.shiftl 1 idx) else 0.

(** One method of a terminal node: [None] is the duplicate-route panic. *)
Definition register_method (n : SubRouteNode) (epIdx m : Z) (isStrict : bool) : option SubRouteNode :=
  if Z.land (AllowedMethods n) (u8 (Z.shiftl 1 m)) =? 0 then
    Some (mkSub (MaskLo n) (MaskHi n) (ChildIdx n) (NumChildren n) (PrefixLen n) (HasParamChild n) (ParamChildIdx n)
            (Z.lor (AllowedMethods n) (u8 (Z.shiftl 1 m))) (Z.lor (StrictMethods n) (boolToMask isStrict m))
            (<[Z.to_nat m:=epIdx]> (EndpointIdx n)))
  else None.

Fixpoint register_methods (n : SubRouteNode) (epIdx : Z) (ms : list Z) (isStrict : bool) : option SubRouteNode :=
  match ms with
  | [] => Some n
  | m :: ms' => match register_method n epIdx m isStrict with
                | Some n' => register_methods n' epIdx ms' isStrict
                | None => None
                end
  end.

Definition registerTerminal (d : ApiDefinition) (nodeIdx epIdx methodIdx : Z) (isAny isStrict : bool)
  : outcome ApiDefinition :=
  node <-- go_index (SubArena d) nodeIdx ;;
  match register_methods node epIdx (if isAny then [0; 1; 2; 3; 4] else [methodIdx]) isStrict with
  | Some node' => Ret (set_arena d (<[Z.to_nat nodeIdx:=node']> (SubArena d)))
  | None => Panic
  end.

(** The new child of [parent] for a segment that starts with [char]. *)
Definition add_child (parent : SubRouteNode) (char newIdx : Z) : SubRouteNode :=
  mkSub (if char <? 64 then Z.lor (MaskLo parent) (shl 64 1 char) else MaskLo parent)
        (if char <? 64 then MaskHi parent else Z.lor (MaskHi parent) (shl 64 1 (char - 64)))
        (if ChildIdx parent =? 0 then newIdx else ChildIdx parent)
        (u16 (NumChildren parent + 1)) (PrefixLen parent) (HasParamChild parent) (ParamChildIdx parent)
        (AllowedMethods parent) (StrictMethods parent) (EndpointIdx parent).

Definition compileStaticSegment (d : ApiDefinition) (parentIdx : Z) (seg : byte_string) (isLast : bool)
    (epIdx methodIdx : Z) (isAny isStrict : bool) : outcome (ApiDefinition * Z) :=
  match seg with
  | [] =>
    if isLast then d' <-- registerTerminal d parentIdx epIdx methodIdx isAny isStrict ;; Ret (d', parentIdx)
    else Ret (d, parentIdx)
  | char :: _ =>
    parent <-- go_index (SubArena d) parentIdx ;;
    let existingIdx := FindChildIdx parent char in
    if negb (existingIdx =? 0) then
      if isLast then d' <-- registerTerminal d existingIdx epIdx methodIdx isAny isStrict ;; Ret (d', existingIdx)
      else Ret (d, existingIdx)
    else
      let newIdx := u32 (Z.of_nat (length (SubArena d))) in
      let arena := SubArena d ++ [node_of_len (Z.of_nat (length seg))] in
      let arena := <[Z.to_nat parentIdx := add_child parent char newIdx]> arena in
      let d' := set_arena d arena in
      if isLast then d'' <-- registerTerminal d' newIdx epIdx methodIdx isAny isStrict ;; Ret (d'', newIdx)
      else Ret (d', newIdx)
  end.

(** [strings.Split(s, "/")]. *)
Fixpoint split_slash (s cur : byte_string) : list byte_string :=
  match s with
  | [] => [cur]
  | c :: s' => if c =? 47 then cur :: split_slash s' [] else split_slash s' (cur ++ [c])
  end.

Fixpoint drop_slash (s : byte_string) : byte_string :=
  match s with c :: s' => if c =? 47 then drop_slash s' else s | [] => [] end.

(** [strings.Trim(path, "/")]. *)
Definition trim_slash (s : byte_string) : byte_string := reverse (drop_slash (reverse (drop_slash s))).

Definition is_param (seg : byte_string) : bool := has_prefix seg [123] && has_suffix seg [125].

(** [seg[1 : len(seg)-1]]: panics on a lone brace. *)
Definition param_name (seg : byte_string) : outcome byte_string := go_slice seg 1 (Z.of_nat (length seg) - 1).

(** One segment of the route: a parameter gets a node of its own. *)
Definition bake_segment (d : ApiDefinition) (currIdx : Z) (seg : byte_string) (isLast : bool)
    (epIdx methodIdx : Z) (isAny isStrict : bool) : outcome (ApiDefinition * Z) :=
  if is_param seg then
    let newIdx := u32 (Z.of_nat (length (SubArena d))) in
    let arena := SubArena d ++ [node_of_len (Z.of_nat (length seg))] in
    cur <-- go_index arena currIdx ;;
    let cur' := mkSub (MaskLo cur) (MaskHi cur) (ChildIdx cur) (NumChildren cur) (PrefixLen cur) true newIdx
                  (AllowedMethods cur) (StrictMethods cur) (EndpointIdx cur) in
    let d' := set_arena d (<[Z.to_nat currIdx:=cur']> arena) in
    if isLast then d'' <-- registerTerminal d' newIdx epIdx methodIdx isAny isStrict ;; Ret (d'', newIdx)
    else Ret (d', newIdx)
  else compileStaticSegment d currIdx seg isLast epIdx methodIdx isAny isStrict.

Fixpoint bake_segments (d : ApiDefinition) (currIdx : Z) (segs : list byte_string) (paramIdx : Z)
    (epIdx methodIdx : Z) (isAny isStrict : bool) : outcome (ApiDefinition * list (Z * byte_string)) :=
  match segs with
  | [] => Ret (d, [])
  | seg :: segs' =>
    name <-- (if is_param seg then n <-- param_name seg ;; Ret [(paramIdx, n)] else Ret []) ;;
    r <-- bake_segment d currIdx seg (match segs' with [] => true | _ => false end) epIdx methodIdx isAny isStrict ;;
    let '(d', idx) := r in
    rest <-- bake_segments d' idx segs' (paramIdx + Z.of_nat (length name)) epIdx methodIdx isAny isStrict ;;
    let '(d'', binds) := rest in
    Ret (d'', name ++ binds)
  end.

Definition route_segments (path : byte_string) : list byte_string :=
  if beq path [] || beq path [47] then [[]] else split_slash (trim_slash path) [].

Definition BakeSubRouter (d : ApiDefinition) (path method : byte_string) (isStrict : bool)
    (apiRateLimitId endpointRateLimitId : Z) : outcome ApiDefinition :=
  if 255 <? Z.of_nat (length (Endpoints d)) then Panic
  else
    let epIdx := Z.of_nat (length (Endpoints d)) in
    let ep := mkEndpoint (u8 epIdx) apiRateLimitId endpointRateLimitId [] in
    let arena := match SubArena d with [] => [empty_node] | a => a end in
    let d1 := mkApi (BaseRawPath d) (AliasPaths d) arena (Endpoints d ++ [ep]) in
    r <-- bake_segments d1 0 (route_segments path) 0 epIdx (MethodStringToIdx method)
            (beq method (bytes_of "ANY")) isStrict ;;
    let '(d2, binds) := r in
    Ret (mkApi (BaseRawPath d2) (AliasPaths d2) (SubArena d2)
           (<[length (Endpoints d):=mkEndpoint (u8 epIdx) apiRateLimitId endpointRateLimitId binds]> (Endpoints d2))).

(** ** Resolving (manager.go) *)

Definition pathHasStrPrefix (path prefix : byte_string) : bool := has_prefix path prefix.

Inductive resolution : Type :=
| Resolved (ep : Endpoint)
| NotFound                 (* 404 *)
| MethodNotAllowed.        (* 405 *)

(** [ctx.Match.Params]: offsets into the request path, at most ten. *)
Definition maxParams : nat := 10.

Definition record_param (params : list (Z * Z)) (a b : Z) : list (Z * Z) :=
  if (length params <? maxParams)%nat then params ++ [(u32 a, u32 b)] else params.

(** The end of the current segment. *)
Fixpoint segment_end (s : byte_string) (pos : Z) : Z :=
  match s with
  | c :: s' => if c =? 47 then pos else segment_end s' (pos + 1)
  | [] => pos
  end.

Definition skip_slash (rel : byte_string) (pos : Z) : Z :=
  if (pos <? Z.of_nat (length rel)) && (default 0 (rel !! Z.to_nat pos) =? 47) then pos + 1 else pos.

Fixpoint resolve_loop (fuel : nat) (arena : list SubRouteNode) (rel : byte_string) (baseLen strPos currIdx : Z)
    (params : list (Z * Z)) : outcome (option Z * list (Z * Z)) :=
  match fuel with
  | O => Fuel
  | S fuel' =>
    if strPos <? Z.of_nat (length rel) then
      char <-- go_index rel strPos ;;
      curr <-- go_index arena currIdx ;;
      let nextIdx := FindChildIdx curr char in
      if negb (nextIdx =? 0) then
        next <-- go_index arena nextIdx ;;
        resolve_loop fuel' arena rel baseLen (skip_slash rel (strPos + PrefixLen next)) nextIdx params
      else if HasParamChild curr then
        let stop := segment_end (drop (Z.to_nat strPos) rel) strPos in
        resolve_loop fuel' arena rel baseLen (skip_slash rel stop) (ParamChildIdx curr)
          (record_param params (baseLen + strPos) (baseLen + stop))
      else Ret (None, params)
    else Ret (Some currIdx, params)
  end.

(** The length of the registered base path the request came in by. *)
Definition base_len (d : ApiDefinition) (path : byte_string) : Z :=
  if pathHasStrPrefix path (BaseRawPath d) then Z.of_nat (length (BaseRawPath d))
  else match list_find (fun a => pathHasStrPrefix path a = true) (AliasPaths d) with
       | Some (_, a) => Z.of_nat (length a)
       | None => 0
       end.

Definition resolveSubPath (d : ApiDefinition) (method path : byte_string) : outcome (resolution * list (Z * Z)) :=
  match SubArena d with
  | [] => Ret (NotFound, [])
  | arena =>
    let mIdx := MethodToIdx method in
    let baseLen := base_len d path in
    rel <-- go_slice path baseLen (Z.of_nat (length path)) ;;
    let strPos := match rel with c :: _ => if c =? 47 then 1 else 0 | [] => 0 end in
    r <-- resolve_loop (2 + length rel) arena rel baseLen strPos 0 [] ;;
    match r with
    | (None, params) => Ret (NotFound, params)
    | (Some currIdx, params) =>
      node <-- go_index arena currIdx ;;
      let bit := u8 (Z.shiftl 1 mIdx) in
      if Z.land (AllowedMethods node) bit =? 0 then Ret (MethodNotAllowed, params)
      else if negb (Z.land (StrictMethods node) bit =? 0) && bool_decide (last rel = Some 47) then
        Ret (NotFound, params)
      else
        ei <-- go_index (EndpointIdx node) mIdx ;;
        ep <-- go_index (Endpoints d) ei ;;
        Ret (Resolved ep, params)
    end
  end.

(** What [BindPath] reads for a parameter: the slice of the path. *)
Definition param_value (path : byte_string) (p : Z * Z) : outcome byte_string := go_slice path p.1 p.2.
