(* ===== verification/SubRouterSpec.v ===== *)
(** * Correctness of second-stage routing *)

From S2P Require Import Prelude Cond SubRouter.
From stdpp Require Import base numbers list gmap.

Local Open Scope Z_scope.
Local Open Scope rah_scope.

(** ** Routes and requests

    A route segment is a literal or a parameter; a parameter carries the value
    a request has in its place. *)

Inductive tseg : Type :=
| TStatic (s : byte_string)
| TParam (name value : byte_string).

Definition no_slash (s : byte_string) : Prop := Forall (fun c => c <> 47) s.

Definition tseg_ok (t : tseg) : Prop :=
  match t with
  | TStatic s => s <> [] /\ no_slash s /\ is_param s = false /\ Z.of_nat (length s) < 2 ^ 16 /\
                 (forall c s', s = c :: s' -> is_ascii c)
  | TParam name value => no_slash name /\ value <> [] /\ no_slash value
  end.

Definition route_text (t : tseg) : byte_string :=
  match t with TStatic s => s | TParam name _ => [123] ++ name ++ [125] end.

Definition request_text (t : tseg) : byte_string :=
  match t with TStatic s => s | TParam _ value => value end.

Definition slashed (f : tseg -> byte_string) (ts : list tseg) : byte_string :=
  concat (map (fun t => 47 :: f t) ts).

Definition values (ts : list tseg) : list byte_string :=
  omap (fun t => match t with TParam _ v => Some v | TStatic _ => None end) ts.

Fixpoint bindings (i : Z) (ts : list tseg) : list (Z * byte_string) :=
  match ts with
  | [] => []
  | TParam name _ :: ts' => (i, name) :: bindings (i + 1) ts'
  | TStatic _ :: ts' => bindings i ts'
  end.

(** ** Splitting the route text *)

Lemma split_slash_word w : no_slash w -> forall s cur, split_slash (w ++ s) cur = split_slash s (cur ++ w).
Proof.
  induction 1 as [|c w Hc _ IH]; intros s cur; [by rewrite app_nil_r|].
  cbn [app split_slash]. rewrite (proj2 (Z.eqb_neq _ _) Hc), IH. by rewrite <- app_assoc.
Qed.

Lemma split_slash_join f ts :
  Forall (fun t => no_slash (f t)) ts ->
  forall w, no_slash w -> split_slash (w ++ slashed f ts) [] = w :: map f ts.
Proof.
  induction 1 as [|t ts Ht _ IH]; intros w Hw; rewrite split_slash_word by done; cbn [app].
  - done.
  - unfold slashed. cbn [map concat app split_slash]. f_equal. by apply IH.
Qed.

Lemma drop_slash_word c w : c <> 47 -> drop_slash (c :: w) = c :: w.
Proof. intros H. cbn [drop_slash]. by rewrite (proj2 (Z.eqb_neq _ _) H). Qed.

(** Text with no slash at either end. *)
Lemma trim_slash_text c s d s' : c :: s = s' ++ [d] -> c <> 47 -> d <> 47 -> trim_slash (47 :: c :: s) = c :: s.
Proof.
  intros E Hc Hd. unfold trim_slash.
  change (drop_slash (47 :: c :: s)) with (drop_slash (c :: s)). rewrite drop_slash_word by done. rewrite E at 1. rewrite reverse_snoc, drop_slash_word by done.
  by rewrite <- reverse_snoc, <- E, reverse_involutive.
Qed.

Definition text_ok (f : tseg -> byte_string) (t : tseg) : Prop := f t <> [] /\ no_slash (f t).

Lemma last_of_slashed f ts :
  Forall (text_ok f) ts -> ts <> [] -> exists s d, slashed f ts = s ++ [d] /\ d <> 47.
Proof.
  intros H Hne. destruct ts as [|t ts _] using rev_ind; [done|].
  apply Forall_app in H as [_ H]. apply (proj1 (Forall_singleton _ _)) in H as [Hn Hs].
  destruct (f t) as [|d w _] eqn:E using rev_ind; [done|].
  apply Forall_app in Hs as [_ Hd]. apply (proj1 (Forall_singleton _ _)) in Hd.
  exists (slashed f ts ++ 47 :: w), d. split; [|done].
  unfold slashed. rewrite map_app, concat_app. cbn [map concat]. rewrite E, app_nil_r, <- app_assoc. done.
Qed.

Lemma route_text_ok t : tseg_ok t -> text_ok route_text t.
Proof.
  destruct t as [s|name v]; cbn.
  - by intros (? & ? & _).
  - intros (Hn & _). split; [by destruct name|]. apply Forall_cons. split; [done|].
    apply Forall_app. split; [done|]. by repeat constructor.
Qed.

Lemma request_text_ok t : tseg_ok t -> text_ok request_text t.
Proof. destruct t as [s|name v]; cbn; [by intros (? & ? & _)|by intros (_ & ? & ?)]. Qed.

Lemma route_segments_text ts :
  Forall tseg_ok ts -> ts <> [] -> route_segments (slashed route_text ts) = map route_text ts.
Proof.
  intros H Hne. assert (Forall (text_ok route_text) ts) as Ht by (eapply Forall_impl; [exact H|apply route_text_ok]).
  destruct (last_of_slashed _ _ Ht Hne) as (s' & d & E & Hd).
  destruct ts as [|t ts]; [done|]. apply Forall_cons in Ht as [[Hn Hs] Ht].
  destruct (route_text t) as [|c w] eqn:Et; [done|]. apply Forall_cons in Hs as Hs'. destruct Hs' as [Hc _].
  assert (slashed route_text (t :: ts) = 47 :: c :: w ++ slashed route_text ts) as E'.
  { unfold slashed. cbn [map concat]. by rewrite Et. }
  unfold route_segments, beq. rewrite !bool_decide_eq_false_2 by (rewrite E'; by intros [=]). cbn [orb].
  rewrite E'. destruct s' as [|x s']; [rewrite E' in E; by injection E as ? ?|].
  rewrite E' in E. injection E as _ E. rewrite (trim_slash_text c _ d s') by done.
  change (c :: w ++ slashed route_text ts) with ((c :: w) ++ slashed route_text ts).
  rewrite (split_slash_join route_text ts) with (w := c :: w); [cbn [map]; by rewrite Et| |done].
  eapply Forall_impl; [exact Ht|]. by intros x0 [_ ?].
Qed.

Lemma has_prefix_nil s : has_prefix s [] = true.
Proof. by destruct s. Qed.

Lemma is_param_param name : is_param ([123] ++ name ++ [125]) = true.
Proof.
  unfold is_param, has_suffix. rewrite app_assoc, reverse_snoc. change (reverse [125]) with [125].
  cbn [app has_prefix]. by rewrite !has_prefix_nil.
Qed.

Lemma param_name_text name : param_name ([123] ++ name ++ [125]) = Ret name.
Proof.
  unfold param_name, go_slice. rewrite !length_app. cbn [length].
  rewrite (proj2 (Z.leb_le 1 _)), (proj2 (Z.leb_le _ (Z.of_nat _))) by lia. cbn [Z.leb andb]. f_equal.
  change (Z.to_nat 1) with 1%nat. cbn [app drop].
  replace (Z.to_nat _) with (length name) by lia. by apply take_app_length.
Qed.

(** ** The arena of a single route: a chain of nodes *)

Section chain.
Context (epIdx methodIdx : Z) (isAny isStrict : bool).

Definition childless (n : SubRouteNode) : Prop :=
  MaskLo n = 0 /\ MaskHi n = 0 /\ ChildIdx n = 0 /\ HasParamChild n = false /\ AllowedMethods n = 0.

Definition methods : list Z := if isAny then [0; 1; 2; 3; 4] else [methodIdx].

(** The last node, with its methods. *)
Definition terminal (n : SubRouteNode) : SubRouteNode := default n (register_methods n epIdx methods isStrict).

(** A node linked to its successor at [next]. *)
Definition link (n : SubRouteNode) (t : tseg) (next : Z) : SubRouteNode :=
  match t with
  | TStatic (c :: _) => add_child n c next
  | TStatic [] => n
  | TParam _ _ => mkSub (MaskLo n) (MaskHi n) (ChildIdx n) (NumChildren n) (PrefixLen n) true next
                    (AllowedMethods n) (StrictMethods n) (EndpointIdx n)
  end.

Definition node_for (t : tseg) : SubRouteNode := node_of_len (Z.of_nat (length (route_text t))).

Fixpoint chain (k : Z) (n : SubRouteNode) (ts : list tseg) : list SubRouteNode :=
  match ts with
  | [] => [terminal n]
  | t :: ts' => link n t (k + 1) :: chain (k + 1) (node_for t) ts'
  end.

Lemma register_childless n : childless n -> register_methods n epIdx methods isStrict = Some (terminal n).
Proof.
  intros (_ & _ & _ & _ & H). unfold terminal. enough (is_Some (register_methods n epIdx methods isStrict)) as [x ->] by done.
  unfold methods. destruct isAny.
  - cbn [register_methods register_method]. unfold register_method at 1. rewrite H. cbn.
    by eexists.
  - cbn [register_methods]. unfold register_method. rewrite H, Z.land_0_l. by eexists.
Qed.

Lemma node_for_childless t : childless (node_for t).
Proof. done. Qed.

Lemma find_childless n c : childless n -> FindChildIdx n c = 0.
Proof.
  intros (H1 & H2 & _). unfold FindChildIdx. rewrite H1, H2, !Z.land_0_l. by destruct (c <? 64).
Qed.

Lemma bit_checks :
  forallb (fun c => negb (Z.land (shl 64 1 c) (shl 64 1 c) =? 0) && (rank (shl 64 1 c) c =? 0)) (seqZ 0 64) = true.
Proof. vm_compute. reflexivity. Qed.

Lemma bit_check c : 0 <= c < 64 -> Z.land (shl 64 1 c) (shl 64 1 c) <> 0 /\ rank (shl 64 1 c) c = 0.
Proof.
  intros Hc. pose proof bit_checks as H. rewrite forallb_forall in H.
  assert (In c (seqZ 0 64)) as Hin by (apply list_elem_of_In, elem_of_seqZ; lia).
  apply H, andb_true_iff in Hin as [H1 H2]. apply negb_true_iff, Z.eqb_neq in H1. by apply Z.eqb_eq in H2.
Qed.

(** A linked node finds its successor. *)
Lemma find_link n c s next :
  childless n -> is_ascii c -> 0 < next < 2 ^ 32 -> FindChildIdx (link n (TStatic (c :: s)) next) c = next.
Proof.
  intros (H1 & H2 & H3 & _) Hc Hn. unfold is_ascii in Hc. cbn [link]. unfold FindChildIdx, add_child.
  cbn [MaskLo MaskHi ChildIdx]. rewrite H1, H2, H3, !Z.lor_0_l. cbn [Z.eqb].
  destruct (Z.ltb_spec c 64) as [Hlt|Hge].
  - destruct (bit_check c) as [Hb ->]; [lia|]. rewrite (proj2 (Z.eqb_neq _ _) Hb). rewrite wrapu_small; lia.
  - destruct (bit_check (c - 64)) as [Hb ->]; [lia|]. rewrite (proj2 (Z.eqb_neq _ _) Hb). rewrite wrapu_small; lia.
Qed.

Lemma find_link_param n c name v next :
  childless n -> FindChildIdx (link n (TParam name v) next) c = 0.
Proof.
  intros (H1 & H2 & _). unfold FindChildIdx. cbn [link MaskLo MaskHi].
  rewrite H1, H2, !Z.land_0_l. by destruct (c <? 64).
Qed.

Lemma registerTerminal_last d pre n :
  SubArena d = pre ++ [n] -> childless n ->
  registerTerminal d (Z.of_nat (length pre)) epIdx methodIdx isAny isStrict = Ret (set_arena d (pre ++ [terminal n])).
Proof.
  intros Ha Hn. unfold registerTerminal. rewrite Ha.
  rewrite (go_index_nat _ _ n) by (by rewrite lookup_app_r, Nat.sub_diag by done). cbn [obind].
  fold methods. rewrite register_childless by done. rewrite Nat2Z.id. do 2 f_equal.
  rewrite insert_app_r_alt by done. by rewrite Nat.sub_diag.
Qed.

(** The arena after adding one segment below the last node. *)
Lemma bake_segment_last d pre n t (isLast : bool) :
  SubArena d = pre ++ [n] -> childless n -> tseg_ok t -> Z.of_nat (length pre) < 2 ^ 31 ->
  let k := Z.of_nat (length pre) in
  bake_segment d k (route_text t) isLast epIdx methodIdx isAny isStrict =
  Ret (set_arena d (pre ++ [link n t (k + 1); if isLast then terminal (node_for t) else node_for t]), k + 1).
Proof.
  intros Ha Hn Ht Hk k. unfold bake_segment.
  assert (u32 (Z.of_nat (length (pre ++ [n]))) = k + 1) as Eidx.
  { rewrite length_app. cbn [length]. rewrite wrapu_small by lia. unfold k. lia. }
  assert (forall m, <[Z.to_nat k := link n t (k + 1)]> ((pre ++ [n]) ++ [m]) = (pre ++ [link n t (k + 1)]) ++ [m]) as Eins.
  { intros m. unfold k. rewrite Nat2Z.id, <- app_assoc. rewrite insert_app_r_alt by done.
    rewrite Nat.sub_diag. by rewrite <- app_assoc. }
  assert (go_index (pre ++ [n]) k = Ret n) as Egn.
  { unfold k. apply go_index_nat. by rewrite lookup_app_r, Nat.sub_diag by done. }
  assert (go_index ((pre ++ [n]) ++ [node_for t]) k = Ret n) as Egn'.
  { unfold k. apply go_index_nat. rewrite <- app_assoc. by rewrite lookup_app_r, Nat.sub_diag by done. }
  assert (Z.of_nat (length (pre ++ [link n t (k + 1)])) = k + 1) as Elen.
  { rewrite length_app. cbn [length]. unfold k. lia. }
  assert ((if isLast
           then d'' <-- registerTerminal (set_arena d ((pre ++ [link n t (k + 1)]) ++ [node_for t])) (k + 1) epIdx methodIdx isAny isStrict ;;
                Ret (d'', k + 1)
           else Ret (set_arena d ((pre ++ [link n t (k + 1)]) ++ [node_for t]), k + 1)) =
          Ret (set_arena d (pre ++ [link n t (k + 1); if isLast then terminal (node_for t) else node_for t]), k + 1)) as Efin.
  { destruct isLast; [|by rewrite <- app_assoc]. 
    pose proof (registerTerminal_last (set_arena d ((pre ++ [link n t (k + 1)]) ++ [node_for t]))
                  (pre ++ [link n t (k + 1)]) (node_for t) eq_refl (node_for_childless t)) as E.
    rewrite Elen in E. rewrite E. cbn [obind]. do 2 f_equal. unfold set_arena. cbn [BaseRawPath AliasPaths Endpoints].
    f_equal. by rewrite <- app_assoc. }
  destruct t as [s|name v].
  - cbn [route_text]. destruct Ht as (Hne & _ & Hp & _ & Hasc). rewrite Hp. unfold compileStaticSegment.
    destruct s as [|c s]; [done|]. rewrite Ha, Egn. cbn [obind]. rewrite find_childless by done. cbn [Z.eqb negb].
    rewrite Eidx. change (add_child n c (k + 1)) with (link n (TStatic (c :: s)) (k + 1)).
    change (node_of_len (Z.of_nat (length (c :: s)))) with (node_for (TStatic (c :: s))).
    rewrite Eins. exact Efin.
  - cbn [route_text]. rewrite is_param_param, Ha.
    change (node_of_len (Z.of_nat (length ([123] ++ name ++ [125])))) with (node_for (TParam name v)).
    rewrite Egn'. cbn [obind]. rewrite Eidx.
    change (mkSub (MaskLo n) (MaskHi n) (ChildIdx n) (NumChildren n) (PrefixLen n) true (k + 1) (AllowedMethods n)
              (StrictMethods n) (EndpointIdx n)) with (link n (TParam name v) (k + 1)).
    rewrite Eins. exact Efin.
Qed.

Lemma bake_chain ts : Forall tseg_ok ts -> ts <> [] ->
  forall d pre n i, SubArena d = pre ++ [n] -> childless n -> Z.of_nat (length pre + length ts) < 2 ^ 31 ->
  bake_segments d (Z.of_nat (length pre)) (map route_text ts) i epIdx methodIdx isAny isStrict =
  Ret (set_arena d (pre ++ chain (Z.of_nat (length pre)) n ts), bindings i ts).
Proof.
  induction ts as [|t ts IH]; intros Hts Hne d pre n i Ha Hn Hlen; [done|].
  apply Forall_cons in Hts as [Ht Hts]. cbn [map bake_segments].
  assert ((if is_param (route_text t) then n <-- param_name (route_text t) ;; Ret [(i, n)] else Ret []) =
          Ret (match t with TParam name _ => [(i, name)] | _ => [] end)) as ->.
  { destruct t as [s|name v]; cbn [route_text].
    - by destruct Ht as (_ & _ & -> & _).
    - rewrite is_param_param, param_name_text. done. }
  cbn [obind]. cbn [length] in Hlen.
  rewrite (bake_segment_last d pre n t) by (done || lia). cbn [obind].
  destruct ts as [|t2 ts].
  - cbn [map bake_segments obind]. cbn [chain]. by destruct t.
  - set (k := Z.of_nat (length pre)). set (j := (i + _)).
    assert (Z.of_nat (length (pre ++ [link n t (k + 1)])) = k + 1) as Elen by (rewrite length_app; cbn [length]; unfold k; lia).
    pose proof (IH Hts ltac:(done) (set_arena d (pre ++ [link n t (k + 1); node_for t])) (pre ++ [link n t (k + 1)])
                  (node_for t) j) as E.
    rewrite Elen in E. cbn [map] in E |- *. cbv iota. rewrite E; clear E.
    + cbn [obind chain set_arena BaseRawPath AliasPaths Endpoints]. rewrite <- app_assoc. cbn [app].
      do 2 f_equal. subst j. destruct t; cbn [bindings length app]; [by rewrite Z.add_0_r|done].
    + cbn [set_arena SubArena]. by rewrite <- app_assoc.
    + done.
    + rewrite length_app. cbn [length] in *. lia.
Qed.

(** *** Walking the chain *)

Lemma register_methods_prefix ms n n' :
  register_methods n epIdx ms isStrict = Some n' -> PrefixLen n' = PrefixLen n.
Proof.
  revert n. induction ms as [|m ms IH]; intros n; cbn [register_methods]; [by intros [= <-]|].
  destruct (register_method n epIdx m isStrict) as [n1|] eqn:E; [|done]. intros H%IH. rewrite H.
  unfold register_method in E. destruct (_ =? 0); [|done]. by injection E as <-.
Qed.

Lemma chain_head k n ts : exists x l, chain k n ts = x :: l /\ PrefixLen x = PrefixLen n.
Proof.
  destruct ts as [|t ts]; cbn [chain]; (eexists _, _; split; [reflexivity|]).
  - unfold terminal. destruct (register_methods n epIdx methods isStrict) eqn:E; [|done].
    by apply register_methods_prefix in E.
  - by destruct t as [[|c s]|name v].
Qed.

Definition sep (ts : list tseg) : byte_string := match ts with [] => [] | _ => [47] end.

Definition rest_text (ts : list tseg) : byte_string :=
  match ts with [] => [] | t :: ts' => request_text t ++ slashed request_text ts' end.

Lemma slashed_sep ts : slashed request_text ts = sep ts ++ rest_text ts.
Proof. by destruct ts. Qed.

(** The offsets of the parameter values. *)
Fixpoint spans (off : Z) (ts : list tseg) : list (Z * Z) :=
  match ts with
  | [] => []
  | TStatic s :: ts' => spans (off + Z.of_nat (length s) + 1) ts'
  | TParam _ v :: ts' =>
    (off, off + Z.of_nat (length v)) :: spans (off + Z.of_nat (length v) + 1) ts'
  end.

Lemma skip_sep dn w ts :
  skip_slash (dn ++ w ++ sep ts ++ rest_text ts) (Z.of_nat (length dn) + Z.of_nat (length w)) =
  Z.of_nat (length (dn ++ w ++ sep ts)).
Proof.
  unfold skip_slash. rewrite !length_app.
  replace (Z.to_nat (Z.of_nat (length dn) + Z.of_nat (length w))) with (length (dn ++ w)) by (rewrite length_app; lia).
  destruct ts as [|t ts]; cbn [sep rest_text length].
  - rewrite (proj2 (Z.ltb_ge _ _)) by lia. cbn [andb]. lia.
  - rewrite (proj2 (Z.ltb_lt _ _)) by lia. rewrite (app_assoc dn w).
    rewrite lookup_app_r, Nat.sub_diag by done. cbn. lia.
Qed.

Lemma segment_end_word w : no_slash w -> forall s pos, (s = [] \/ head s = Some 47) ->
  segment_end (w ++ s) pos = pos + Z.of_nat (length w).
Proof.
  induction 1 as [|c w Hc _ IH]; intros s pos Hs; cbn [app segment_end length].
  - destruct s as [|x s]; cbn [segment_end]; [lia|]. destruct Hs as [?|[= ->]]; [done|].
    change (47 =? 47) with true. lia.
  - rewrite (proj2 (Z.eqb_neq _ _) Hc), IH by done. lia.
Qed.

Lemma record_param_take params a b :
  (length params <= 10)%nat -> 0 <= a < 2 ^ 32 -> 0 <= b < 2 ^ 32 ->
  record_param params a b = take 10 (params ++ [(a, b)]).
Proof.
  intros Hl Ha Hb. unfold record_param, maxParams. rewrite !wrapu_small by done.
  destruct (Nat.ltb_spec (length params) 10) as [Hlt|Hge].
  - rewrite take_ge; [done|]. rewrite length_app. simpl. lia.
  - rewrite take_app_le by lia. by rewrite take_ge by lia.
Qed.

Lemma take_take_app {A} n (l k : list A) : take n (take n l ++ k) = take n (l ++ k).
Proof.
  destruct (decide (length l <= n)%nat); [by rewrite (take_ge l)|].
  rewrite !take_app_le by (rewrite ?length_take; lia). rewrite take_take. f_equal. lia.
Qed.

(** The first node of a chain that continues at [k + 1]. *)
Lemma chain_next pre n t ts : let k := Z.of_nat (length pre) in
  exists x, go_index (pre ++ link n t (k + 1) :: chain (k + 1) (node_for t) ts) (k + 1) = Ret x /\
    PrefixLen x = PrefixLen (node_for t).
Proof.
  intros k. destruct (chain_head (k + 1) (node_for t) ts) as (x & l & -> & Epx). exists x. split; [|done].
  apply go_index_Z; [lia|]. rewrite lookup_app_r by (unfold k; lia).
  by replace (Z.to_nat (k + 1) - length pre)%nat with 1%nat by (unfold k; lia).
Qed.

Lemma spans_sep dn w ts b :
  spans (b + Z.of_nat (length (dn ++ w ++ sep ts))) ts = spans (b + Z.of_nat (length dn) + Z.of_nat (length w) + 1) ts.
Proof. destruct ts as [|t ts]; [done|]. f_equal. rewrite !length_app. cbn [sep length]. lia. Qed.

Lemma resolve_chain ts : Forall tseg_ok ts ->
  forall pre n dn params fuel baseLen, childless n ->
  Z.of_nat (length pre + length ts) < 2 ^ 31 -> (length params <= 10)%nat -> (length ts < fuel)%nat ->
  0 <= baseLen -> baseLen + Z.of_nat (length (dn ++ rest_text ts)) < 2 ^ 32 ->
  let k := Z.of_nat (length pre) in
  resolve_loop fuel (pre ++ chain k n ts) (dn ++ rest_text ts) baseLen (Z.of_nat (length dn)) k params =
  Ret (Some (k + Z.of_nat (length ts)), take 10 (params ++ spans (baseLen + Z.of_nat (length dn)) ts)).
Proof.
  induction ts as [|t ts IH]; intros Hts pre n dn params fuel baseLen Hn Hpre Hpar Hfuel Hb Hlen k;
    destruct fuel as [|fuel]; cbn [length] in Hfuel; try lia.
  { cbn [resolve_loop rest_text length spans]. rewrite app_nil_r, Z.ltb_irrefl, app_nil_r, Z.add_0_r.
    by rewrite take_ge by lia. }
  apply Forall_cons in Hts as [Ht Hts].
  assert (dn ++ rest_text (t :: ts) = dn ++ request_text t ++ sep ts ++ rest_text ts) as Erel
    by (cbn [rest_text]; by rewrite slashed_sep).
  destruct (request_text_ok t Ht) as [Hrne Hrns]. destruct (request_text t) as [|c w] eqn:Er; [done|].
  cbn [resolve_loop]. rewrite Erel. rewrite Erel in Hlen. rewrite !length_app in Hlen. cbn [length] in Hlen.
  rewrite (proj2 (Z.ltb_lt _ _)) by (rewrite !length_app; cbn [length]; lia).
  rewrite (go_index_nat (dn ++ _) (length dn) c) by (by rewrite lookup_app_r, Nat.sub_diag by done).
  cbn [obind chain].
  rewrite (go_index_nat (pre ++ _) (length pre) (link n t (k + 1))) by (by rewrite lookup_app_r, Nat.sub_diag by done).
  cbn [obind].
  assert (Z.of_nat (length (pre ++ [link n t (k + 1)])) = k + 1) as Ek by (rewrite length_app; cbn [length]; unfold k; lia).
  pose proof (IH Hts (pre ++ [link n t (k + 1)]) (node_for t) (dn ++ (c :: w) ++ sep ts)) as IH'.
  cbv zeta in IH'. rewrite Ek in IH'. rewrite <- !app_assoc in IH'.
  assert (0 < k + 1 < 2 ^ 32) as Hk by (unfold k; cbn [length] in Hpre; lia).
  destruct t as [s|name v]; cbn [request_text] in Er; subst.
  - destruct Ht as (_ & _ & _ & Hs16 & Hasc).
    rewrite find_link by (done || by eapply Hasc). rewrite (proj2 (Z.eqb_neq (k + 1) 0)) by lia. cbn [negb].
    destruct (chain_next pre n (TStatic (c :: w)) ts) as (x & Ex & Epx). fold k in Ex. rewrite Ex.
    cbn [obind]. rewrite Epx. cbn [node_for route_text PrefixLen node_of_len]. rewrite wrapu_small by lia.
    rewrite (skip_sep dn (c :: w) ts).
    cbn [app] in IH' |- *.
    rewrite IH'; try done; rewrite ?length_app; cbn [length] in *; try lia.
    + f_equal. f_equal; [f_equal; lia|]. cbn [spans length]. do 2 f_equal. pose proof (spans_sep dn (c :: w) ts baseLen) as Esp.
      rewrite length_app in Esp. exact Esp.
    + rewrite length_app. cbn [length]. rewrite !length_app. lia.
  - rewrite find_link_param by done. cbn [Z.eqb negb link HasParamChild ParamChildIdx].
    rewrite Nat2Z.id, drop_app_length.
    rewrite (segment_end_word (c :: w)) by (first [done|by destruct ts; [left|right]]).
    rewrite (skip_sep dn (c :: w) ts). rewrite record_param_take by (cbn [length]; lia).
    cbn [app] in IH' |- *.
    rewrite IH'; try done; rewrite ?length_app, ?length_take; cbn [length] in *; try lia.
    + f_equal. f_equal; [f_equal; lia|]. rewrite take_take_app, <- app_assoc. cbn [app spans length].
      do 3 f_equal; [f_equal; lia|]. pose proof (spans_sep dn (c :: w) ts baseLen) as Esp.
      rewrite length_app in Esp. exact Esp.
    + rewrite length_app. cbn [length]. rewrite !length_app. lia.
Qed.

(** *** The last node *)

Lemma chain_last ts k n pre :
  exists n', (pre ++ chain k n ts) !! (length pre + length ts)%nat = Some (terminal n') /\
    (n' = n \/ exists t, n' = node_for t).
Proof.
  revert k n pre. induction ts as [|t ts IH]; intros k n pre; cbn [chain length].
  - exists n. rewrite lookup_app_r by lia. replace (length pre + 0 - length pre)%nat with 0%nat by lia. auto.
  - destruct (IH (k + 1) (node_for t) (pre ++ [link n t (k + 1)])) as (n' & E & Hn').
    exists n'. rewrite <- app_assoc, length_app in E. cbn [app length] in E.
    replace (length pre + S (length ts))%nat with (length pre + 1 + length ts)%nat by lia. split; [done|].
    right. destruct Hn' as [->|?]; [by exists t|done].
Qed.

Lemma terminal_method len m :
  0 <= m <= 4 -> isAny = true \/ methodIdx = m ->
  let n := terminal (node_of_len len) in
  Z.land (AllowedMethods n) (u8 (Z.shiftl 1 m)) <> 0 /\ go_index (EndpointIdx n) m = Ret epIdx.
Proof.
  intros Hm H. unfold terminal, methods.
  assert (m = 0 \/ m = 1 \/ m = 2 \/ m = 3 \/ m = 4) as Hc by lia.
  destruct isAny.
  - destruct_or! Hc; subst m; (split; [vm_compute; congruence|reflexivity]).
  - destruct H as [?| ->]; [done|]. destruct_or! Hc; subst m; (split; [vm_compute; congruence|reflexivity]).
Qed.

End chain.

(** ** The values of the parameters *)

Lemma spans_values ts base dn :
  Forall2 (fun p v => param_value (base ++ dn ++ rest_text ts) p = Ret v)
    (spans (Z.of_nat (length base) + Z.of_nat (length dn)) ts) (values ts).
Proof.
  revert dn. induction ts as [|t ts IH]; intros dn; [constructor|].
  assert (base ++ dn ++ rest_text (t :: ts) = base ++ (dn ++ request_text t ++ sep ts) ++ rest_text ts) as E.
  { cbn [rest_text]. rewrite slashed_sep. by rewrite <- !app_assoc. }
  pose proof (IH (dn ++ request_text t ++ sep ts)) as IH'. rewrite <- E in IH'.
  rewrite spans_sep in IH'.
  destruct t as [s|name v]; cbn [spans values omap list_omap request_text] in *; [exact IH'|].
  constructor; [|exact IH']. rewrite E. unfold param_value, go_slice. cbn [fst snd].
  rewrite !length_app. rewrite (proj2 (Z.leb_le 0 _)), (proj2 (Z.leb_le _ (_ + _))), (proj2 (Z.leb_le _ (Z.of_nat _))) by lia.
  cbn [andb]. f_equal. replace (Z.to_nat (Z.of_nat (length base) + Z.of_nat (length dn))) with (length (base ++ dn))
    by (rewrite length_app; lia).
  rewrite <- !app_assoc, (app_assoc base dn), drop_app_length.
  replace (Z.to_nat _) with (length v) by lia. apply take_app_length.
Qed.

Lemma has_prefix_app p s : has_prefix (p ++ s) p = true.
Proof. induction p as [|c p IH]; [by destruct s|]. cbn [app has_prefix]. by rewrite Z.eqb_refl, IH. Qed.

Lemma rest_text_length ts : Forall tseg_ok ts -> (length ts <= length (rest_text ts))%nat.
Proof.
  intros Hts. destruct ts as [|t ts]; [simpl; lia|]. cbn [rest_text length].
  apply Forall_cons in Hts as [Ht Hts]. destruct (request_text_ok t Ht) as [Hne _].
  rewrite length_app. destruct (request_text t); [done|]. cbn [length].
  enough (length ts <= length (slashed request_text ts))%nat by lia. clear.
  induction ts as [|t ts IH]; [simpl; lia|]. unfold slashed in *. cbn [map concat length app]. rewrite length_app. lia.
Qed.

Lemma MethodToIdx_range m : 0 <= MethodToIdx m <= 4.
Proof.
  unfold MethodToIdx. destruct m as [|c m']; [lia|]. repeat (destruct (_ =? _); [lia|]).
  destruct (c =? 80); [|destruct (c =? 68); lia]. destruct m' as [|c2 m']; [lia|].
  destruct (c2 =? 79); [lia|]. destruct (c2 =? 85); lia.
Qed.

(** A request text does not end in a slash. *)
Lemma request_last ts : Forall tseg_ok ts -> ts <> [] -> last (slashed request_text ts) <> Some 47.
Proof.
  intros Hts Hne. destruct (last_of_slashed request_text ts) as (s & d & E & Hd);
    [eapply Forall_impl; [exact Hts|apply request_text_ok]|done|].
  rewrite E, last_snoc. congruence.
Qed.

(** C15: A single route resolves the requests it describes.  Bake one route,
    literal segments and {parameters} in any mixture, into a fresh API
    definition and nothing else; any request for it (the base path, the
    literals, a non-empty value for each parameter) with the route's method, or
    any method for ANY, resolves to the route's endpoint with its rate-limit ids
    and parameter bindings, and the recorded offsets cut exactly the parameter
    values (the first ten) out of the request path.  With several routes this
    does not hold ([siblings_swapped], [parameter_node_replaced]). *)
Theorem single_route_resolves base ts method m (isStrict : bool) rl1 rl2 :
  Forall tseg_ok ts -> ts <> [] ->
  Z.of_nat (length ts) < 2 ^ 30 -> Z.of_nat (length base + length (slashed request_text ts)) < 2 ^ 32 ->
  method = bytes_of "ANY" \/ MethodStringToIdx method = MethodToIdx m ->
  exists d params, BakeSubRouter (BakeDefinition base) (slashed route_text ts) method isStrict rl1 rl2 = Ret d /\
    resolveSubPath d m (base ++ slashed request_text ts) =
      Ret (Resolved (mkEndpoint 0 rl1 rl2 (bindings 0 ts)), params) /\
    Forall2 (fun p v => param_value (base ++ slashed request_text ts) p = Ret v) params (take 10 (values ts)).
Proof.
  intros Hts Hne Hcount Hlen Hmeth. unfold BakeSubRouter. cbn [BakeDefinition Endpoints SubArena length BaseRawPath AliasPaths app].
  change (255 <? Z.of_nat 0) with false. cbn iota. rewrite route_segments_text by done.
  set (mi := MethodStringToIdx method) in *. set (any := beq method (bytes_of "ANY")).
  rewrite (bake_chain 0 mi any isStrict ts Hts Hne (mkApi base [] [empty_node] _) [] empty_node 0 eq_refl) by (done || simpl; lia).
  cbn [obind set_arena BaseRawPath AliasPaths SubArena Endpoints length insert list_insert].
  set (arena := [] ++ chain _ _ _ _ _ _ _).
  assert (arena = chain 0 mi any isStrict 0 empty_node ts) as Ea by reflexivity. clearbody arena. subst arena.
  set (arena := chain 0 mi any isStrict 0 empty_node ts).
  eexists _, (take 10 (spans (Z.of_nat (length base) + 1) ts)). split; [reflexivity|].
  unfold resolveSubPath. cbn [SubArena Endpoints].
  destruct (chain_head 0 mi any isStrict 0 empty_node ts) as (x & l & Ex & _).
  fold arena in Ex. rewrite Ex. rewrite <- Ex. clear x l Ex.
  unfold base_len. cbn [BaseRawPath]. unfold pathHasStrPrefix. rewrite has_prefix_app.
  unfold go_slice. rewrite (proj2 (Z.leb_le 0 _)), (proj2 (Z.leb_le (Z.of_nat (length base)) _)), (proj2 (Z.leb_le _ _))
    by (rewrite ?length_app; lia).
  cbn [andb obind]. rewrite Nat2Z.id, drop_app_length, take_ge by (rewrite length_app; lia).
  assert (slashed request_text ts = [47] ++ rest_text ts) as Es by (rewrite slashed_sep; by destruct ts).
  rewrite Es. cbn [app]. change (47 =? 47) with true. cbn iota.
  rewrite Es in Hlen. cbn [app length] in Hlen.
  pose proof (resolve_chain 0 mi any isStrict ts Hts [] empty_node [47] [] (2 + length (47 :: rest_text ts)) (Z.of_nat (length base)) ltac:(done)) as Hres.
  cbn [length app] in Hres. fold arena in Hres.
  change (Z.of_nat 1) with 1 in Hres. change (Z.of_nat 0) with 0 in Hres.
  pose proof (rest_text_length ts Hts) as Hfu.
  fold arena in Hres. cbn [length].
  rewrite Hres by (lia || (simpl; lia)). cbn [obind].
  destruct (chain_last 0 mi any isStrict ts 0 empty_node []) as (n' & El & Hn'). cbn [app length Nat.add] in El. fold arena in El.
  rewrite (go_index_Z _ (0 + Z.of_nat (length ts)) (terminal 0 mi any isStrict n')) by
    (lia || by replace (Z.to_nat (0 + Z.of_nat (length ts))) with (length ts) by lia).
  cbn [obind].
  assert (exists len, n' = node_of_len len) as (len & ->).
  { destruct Hn' as [->|[t ->]]; [exists 0; reflexivity|by eexists]. }
  destruct (terminal_method 0 mi any isStrict len (MethodToIdx m) (MethodToIdx_range m)) as [Ha Hep].
  { destruct Hmeth as [->|?]; [by left|by right]. }
  rewrite (proj2 (Z.eqb_neq _ _) Ha).
  pose proof (request_last ts Hts Hne) as Hlast. rewrite Es in Hlast. cbn [app] in Hlast.
  rewrite (bool_decide_eq_false_2 (last _ = _)), andb_false_r by done.
  rewrite Hep. cbn [obind]. split; [reflexivity|].
  apply Forall2_take. pose proof (spans_values ts base [47]) as Hsp. cbn [length app] in Hsp. exact Hsp.
Qed.

Lemma single_route_resolves_witness :
  let ts := [TStatic (bytes_of "users"); TParam (bytes_of "id") (bytes_of "42"); TStatic (bytes_of "orders")] in
  exists d params,
    BakeSubRouter (BakeDefinition (bytes_of "/api")) (bytes_of "/users/{id}/orders") (bytes_of "GET") true 7 9 = Ret d /\
    resolveSubPath d (bytes_of "GET") (bytes_of "/api/users/42/orders") =
      Ret (Resolved (mkEndpoint 0 7 9 [(0, bytes_of "id")]), params) /\
    Forall2 (fun p v => param_value (bytes_of "/api/users/42/orders") p = Ret v) params [bytes_of "42"].
Proof.
  intros ts.
  apply (single_route_resolves (bytes_of "/api") ts (bytes_of "GET") (bytes_of "GET") true 7 9).
  - unfold ts. apply Forall_cons; split; [|apply Forall_cons; split; [|apply Forall_cons; split; [|by apply Forall_nil]]].
    + split; [done|]. split; [by repeat constructor|]. split; [done|]. split; [vm_compute; done|].
      intros c s' [= <- _]. vm_compute. split; congruence.
    + split; [by repeat constructor|]. split; [done|]. by repeat constructor.
    + split; [done|]. split; [by repeat constructor|]. split; [done|]. split; [vm_compute; done|].
      intros c s' [= <- _]. vm_compute. split; congruence.
  - done.
  - vm_compute. done.
  - vm_compute. done.
  - right. reflexivity.
Defined.

(** ** Defects *)

(** Bake several routes, then ask for a path. *)
Fixpoint bake_all (d : ApiDefinition) (rs : list (string * string)) : outcome ApiDefinition :=
  match rs with
  | [] => Ret d
  | (path, method) :: rs' => d' <-- BakeSubRouter d (bytes_of path) (bytes_of method) false 0 0 ;; bake_all d' rs'
  end.

Definition served_by (rs : list (string * string)) (method path : string) : outcome (option Z) :=
  d <-- bake_all (BakeDefinition (bytes_of "/api")) rs ;;
  r <-- resolveSubPath d (bytes_of method) (bytes_of path) ;;
  Ret (match r.1 with Resolved ep => Some (EndpointId ep) | _ => None end).

(** Only the first character of a literal segment is compared. *)
Lemma literal_matched_by_first_character :
  served_by [("/users"%string, "GET"%string)] "GET" "/api/uxxxx" = Ret (Some 0) /\
  served_by [("/users"%string, "GET"%string)] "GET" "/api/u" = Ret (Some 0).
Proof. split; vm_compute; reflexivity. Qed.

(** Children are addressed by rank but stored in registration order: two
    routes registered in descending order answer for each other. *)
Lemma siblings_swapped :
  served_by [("/b"%string, "GET"%string); ("/a"%string, "GET"%string)] "GET" "/api/a" = Ret (Some 0) /\
  served_by [("/b"%string, "GET"%string); ("/a"%string, "GET"%string)] "GET" "/api/b" = Ret (Some 1).
Proof. split; vm_compute; reflexivity. Qed.

(** A second route through a parameter replaces the first. *)
Lemma parameter_node_replaced :
  served_by [("/{id}/x"%string, "GET"%string); ("/{id}/y"%string, "GET"%string)] "GET" "/api/7/y" = Ret (Some 1) /\
  served_by [("/{id}/x"%string, "GET"%string); ("/{id}/y"%string, "GET"%string)] "GET" "/api/7/x" = Ret None.
Proof. split; vm_compute; reflexivity. Qed.

(** A path that stops inside a route is answered 405, not 404. *)
Lemma inner_path_is_405 :
  (d <-- bake_all (BakeDefinition (bytes_of "/api")) [("/users/all"%string, "GET"%string)] ;;
   resolveSubPath d (bytes_of "GET") (bytes_of "/api/users")) = Ret (MethodNotAllowed, []).
Proof. vm_compute. reflexivity. Qed.
