(* ===== verification/Ring.v ===== *)
(** * The lock-free rings

    The gateway has five bounded queues built on Vyukov's sequence-number
    protocol: the scheduler's dispatch ring (scheduler/dispatch_ring.go), the
    ingest ring (ingest/ring.go), the log ring (gatewaylog/ring.go) and the
    two index rings of the timer wheel (engine/steps/timer_wheel.go), and a
    sixth inside every slot of the scheduler's wheel (scheduler/wheel.go).

    A call of push or pop is modelled by the point it has reached in its loop
    ([gor]); [push_step] and [pop_step] perform its next atomic memory
    operation on the shared ring.  Go's atomics are sequentially consistent,
    and the payload of a cell is only touched between the claim of a position
    and the store of the cell's sequence number. *)

From S2P Require Import Prelude.

Local Open Scope Z_scope.
Local Open Scope rah_scope.

Record cell (A : Type) : Type := mkCell { c_seq : Z; c_val : A }.
Arguments mkCell {A}.
Arguments c_seq {A}.
Arguments c_val {A}.

Record ring (A : Type) : Type := mkRing {
  enqPos : Z;
  deqPos : Z;
  mask : Z;
  cells : list (cell A)
}.
Arguments mkRing {A}.
Arguments enqPos {A}.
Arguments deqPos {A}.
Arguments mask {A}.
Arguments cells {A}.

Section ring.
Context {A : Type}.

(** What differs between the rings: the width of a position, how often push
    may go round its loop ([None]: for ever), and what pop leaves in a cell. *)
Record kind : Type := mkKind { width : Z; spin_limit : option nat; cleared : A -> A }.

Definition cell_index (r : ring A) (pos : Z) : nat := Z.to_nat (Z.land pos (mask r)).

Definition set_enq (r : ring A) (pos : Z) : ring A := mkRing pos (deqPos r) (mask r) (cells r).
Definition set_deq (r : ring A) (pos : Z) : ring A := mkRing (enqPos r) pos (mask r) (cells r).

Definition on_cell (r : ring A) (pos : Z) (f : cell A -> cell A) : ring A :=
  mkRing (enqPos r) (deqPos r) (mask r) (alter f (cell_index r pos) (cells r)).

(** [cells[i].seq.Store(i)] for every [i], the payloads at their zero value. *)
Definition new_cells (n : nat) (zero : A) : list (cell A) :=
  (fun i => mkCell (Z.of_nat i) zero) <$> seq 0 n.

Definition new_ring (n : nat) (zero : A) : ring A := mkRing 0 0 (Z.of_nat n - 1) (new_cells n zero).

(** ** Calls in progress *)

Inductive gor : Type :=
| Push0 (spins : option nat) (v : A)          (* at the head of the loop *)
| Push1 (spins : option nat) (v : A) (pos : Z)  (* enqPos loaded *)
| Push2 (spins : option nat) (v : A) (pos : Z)  (* seq loaded, diff == 0 *)
| Push3 (v : A) (pos : Z)                     (* position claimed *)
| Push4 (v : A) (pos : Z)                     (* payload written *)
| PushRet (v : A) (ticket : option Z)         (* returned true at a position, or false *)
| Pop0
| Pop1 (pos : Z)
| Pop2 (pos : Z)
| Pop3 (pos : Z)                              (* position claimed *)
| Pop4 (pos : Z) (v : A)                      (* payload read *)
| Pop5 (pos : Z) (v : A)                      (* payload cleared *)
| PopRet (ticket : option (Z * A))            (* returned an item, or none *)
| Crashed.                                    (* index out of range *)

(** [int64(seq) - int64(pos)] *)
Definition seq_diff (K : kind) (seq pos : Z) : Z :=
  wraps (width K) (wraps (width K) seq - wraps (width K) pos).

Definition push_step (K : kind) (t : gor) (r : ring A) : option (ring A * gor) :=
  match t with
  | Push0 (Some O) v => Some (r, PushRet v None)
  | Push0 n v => Some (r, Push1 n v (enqPos r))
  | Push1 n v pos =>
    match cells r !! cell_index r pos with
    | None => Some (r, Crashed)
    | Some c =>
      let diff := seq_diff K (c_seq c) pos in
      Some (r, if diff =? 0 then Push2 n v pos
               else if diff <? 0 then PushRet v None
               else Push0 (pred <$> n) v)
    end
  | Push2 n v pos =>
    Some (if enqPos r =? pos then (set_enq r (wrapu (width K) (pos + 1)), Push3 v pos)
          else (r, Push0 (pred <$> n) v))
  | Push3 v pos => Some (on_cell r pos (fun c => mkCell (c_seq c) v), Push4 v pos)
  | Push4 v pos =>
    Some (on_cell r pos (fun c => mkCell (wrapu (width K) (pos + 1)) (c_val c)), PushRet v (Some pos))
  | _ => None
  end.

Definition pop_step (K : kind) (t : gor) (r : ring A) : option (ring A * gor) :=
  match t with
  | Pop0 => Some (r, Pop1 (deqPos r))
  | Pop1 pos =>
    match cells r !! cell_index r pos with
    | None => Some (r, Crashed)
    | Some c =>
      let diff := seq_diff K (c_seq c) (wrapu (width K) (pos + 1)) in
      Some (r, if diff =? 0 then Pop2 pos else if diff <? 0 then PopRet None else Pop0)
    end
  | Pop2 pos =>
    Some (if deqPos r =? pos then (set_deq r (wrapu (width K) (pos + 1)), Pop3 pos) else (r, Pop0))
  | Pop3 pos =>
    match cells r !! cell_index r pos with
    | None => Some (r, Crashed)
    | Some c => Some (r, Pop4 pos (c_val c))
    end
  | Pop4 pos v => Some (on_cell r pos (fun c => mkCell (c_seq c) (cleared K (c_val c))), Pop5 pos v)
  | Pop5 pos v =>
    Some (on_cell r pos (fun c => mkCell (wrapu (width K) (wrapu (width K) (pos + mask r) + 1)) (c_val c)),
          PopRet (Some (pos, v)))
  | _ => None
  end.

Definition gor_step (K : kind) (t : gor) (r : ring A) : option (ring A * gor) :=
  match push_step K t r with Some x => Some x | None => pop_step K t r end.

(** Running one call with nothing else going on. *)
Fixpoint alone (fuel : nat) (K : kind) (t : gor) (r : ring A) : outcome (ring A * gor) :=
  match fuel with
  | O => Fuel
  | S fuel' =>
    match gor_step K t r with
    | None => Ret (r, t)
    | Some (r', t') => alone fuel' K t' r'
    end
  end.

Definition pushed (t : gor) : outcome bool :=
  match t with PushRet _ (Some _) => Ret true | PushRet _ None => Ret false | _ => Panic end.

Definition popped (t : gor) : outcome (option A) :=
  match t with PopRet (Some (_, v)) => Ret (Some v) | PopRet None => Ret None | _ => Panic end.

(** A call of push or pop on a ring nobody else is using: seven steps are the
    longest path through the loop. *)
Definition push_alone (K : kind) (v : A) (r : ring A) : outcome (ring A * bool) :=
  rt <-- alone 7 K (Push0 (spin_limit K) v) r ;;
  b <-- pushed rt.2 ;; Ret (rt.1, b).

Definition pop_alone (K : kind) (r : ring A) : outcome (ring A * option A) :=
  rt <-- alone 7 K Pop0 r ;;
  o <-- popped rt.2 ;; Ret (rt.1, o).

End ring.
Arguments kind A : clear implicits.
Arguments gor A : clear implicits.

(** ** ingest/ring.go *)

Module Ingest.
Section ingest.
Context {Event : Type} (zero : Event).

Definition nextPow2_64 (n : Z) : Z :=
  if n =? 0 then 1
  else
    let n := u64 (n - 1) in
    let n := Z.lor n (Z.shiftr n 1) in
    let n := Z.lor n (Z.shiftr n 2) in
    let n := Z.lor n (Z.shiftr n 4) in
    let n := Z.lor n (Z.shiftr n 8) in
    let n := Z.lor n (Z.shiftr n 16) in
    let n := Z.lor n (Z.shiftr n 32) in
    u64 (n + 1).

Definition NewRing (capacity : Z) : ring Event :=
  let sz := nextPow2_64 (u64 capacity) in
  let sz := Z.max sz 2 in
  new_ring (Z.to_nat sz) zero.

Definition ingest_kind : kind Event := mkKind 64 None (fun e => e).

Definition TryPush (e : Event) (r : ring Event) : outcome (ring Event * bool) := push_alone ingest_kind e r.
Definition Pop (r : ring Event) : outcome (ring Event * option Event) := pop_alone ingest_kind r.

Definition Len (r : ring Event) : Z :=
  if deqPos r <? enqPos r then i64 (u64 (enqPos r - deqPos r)) else 0.
End ingest.
End Ingest.

(** ** scheduler/dispatch_ring.go *)

Module Dispatch.
Section dispatch.
Context {ScheduledEvent : Type}.

(** A pointer cell, [None] the nil pointer; the notify channel has room for
    one token. *)
Record DispatchRing : Type := mkDispatch {
  d_ring : ring (option ScheduledEvent);
  NotifyCh : bool
}.

Definition maxPushSpins : nat := Z.to_nat 10000.

Definition dispatch_kind : kind (option ScheduledEvent) := mkKind 64 (Some maxPushSpins) (fun _ => None).

Definition NewDispatchRing (cap : Z) : outcome DispatchRing :=
  if (cap =? 0) || negb (Z.land cap (u64 (cap - 1)) =? 0) then Panic
  else Ret (mkDispatch (new_ring (Z.to_nat cap) None) false).

Definition DispatchTryPush (ev : ScheduledEvent) (r : DispatchRing) : outcome (DispatchRing * bool) :=
  rb <-- push_alone dispatch_kind (Some ev) (d_ring r) ;;
  Ret (mkDispatch rb.1 (NotifyCh r || rb.2), rb.2).

Definition DispatchTryPop (r : DispatchRing) : outcome (DispatchRing * option ScheduledEvent) :=
  ro <-- pop_alone dispatch_kind (d_ring r) ;;
  Ret (mkDispatch ro.1 (NotifyCh r), mjoin ro.2).
End dispatch.
Arguments DispatchRing ScheduledEvent : clear implicits.
End Dispatch.

(** ** gatewaylog/ring.go: many producers, one consumer *)

Module LogRing.
Section log.
Context {LogBuf : Type}.

Definition RingCap : nat := Z.to_nat (2 ^ 13).

Definition log_kind : kind (option LogBuf) := mkKind 64 None (fun _ => None).

Definition NewLogRing : ring (option LogBuf) := new_ring RingCap None.

Definition TryEnqueue (msg : LogBuf) (r : ring (option LogBuf)) : outcome (ring (option LogBuf) * bool) :=
  push_alone log_kind (Some msg) r.

(** The single consumer claims nothing: it reads the cell at its tail,
    recycles it and moves on. *)
Definition Dequeue (r : ring (option LogBuf)) : outcome (ring (option LogBuf) * option LogBuf) :=
  let tail := deqPos r in
  match cells r !! cell_index r tail with
  | None => Panic
  | Some c =>
    if negb (c_seq c =? u64 (tail + 1)) then Ret (r, None)
    else
      let r := on_cell r tail (fun c => mkCell (c_seq c) None) in
      let r := on_cell r tail (fun c => mkCell (u64 (tail + Z.of_nat RingCap)) (c_val c)) in
      Ret (set_deq r (u64 (tail + 1)), c_val c)
  end.
End log.
End LogRing.
