(* ===== verification/RingSpec.v ===== *)
(** * The lock-free rings: specifications

    [BoundedQueue] is the interface the rings offer to their clients: a FIFO
    queue with a capacity, whose push fails exactly when it is full and whose
    pop fails exactly when it is empty.  Every ring of Ring.v is an instance,
    whatever its positions have wrapped around to.  The second part is about
    contention: any number of pushes and pops, interleaved at the level of
    single atomic operations. *)

From stdpp Require Import relations.
From S2P Require Import Prelude Bits Ring.

Local Open Scope Z_scope.
Local Open Scope rah_scope.

(** ** Positions modulo the width and the capacity *)

Lemma wrapu_ex w x : exists k, wrapu w x = x + k * 2 ^ w.
Proof. exists (- (x / 2 ^ w)). unfold wrapu. pose proof (Z_div_mod_eq_full x (2 ^ w)). lia. Qed.

Lemma wraps_ex w x : exists k, wraps w x = x + k * 2 ^ w.
Proof. exists (- ((x + 2 ^ (w - 1)) / 2 ^ w)). unfold wraps.
  pose proof (Z_div_mod_eq_full (x + 2 ^ (w - 1)) (2 ^ w)). lia. Qed.

Lemma wrapu_shift w x k : wrapu w (x + k * 2 ^ w) = wrapu w x.
Proof. unfold wrapu. apply Z_mod_plus_full. Qed.

Lemma wraps_shift w x k : wraps w (x + k * 2 ^ w) = wraps w x.
Proof.
  unfold wraps. rewrite <- (Z_mod_plus_full (x + 2 ^ (w - 1)) k). f_equal. f_equal. lia.
Qed.

Lemma wrapu_add w x y : wrapu w (wrapu w x + y) = wrapu w (x + y).
Proof.
  destruct (wrapu_ex w x) as [k ->]. rewrite <- (wrapu_shift w (x + y) k). f_equal. lia.
Qed.

Lemma seq_diff_wrap {A} (K : kind A) a b :
  seq_diff K (wrapu (width K) a) (wrapu (width K) b) = wraps (width K) (a - b).
Proof.
  unfold seq_diff. set (w := width K).
  destruct (wrapu_ex w a) as [ka ->]. destruct (wrapu_ex w b) as [kb ->]. rewrite !wraps_shift.
  destruct (wraps_ex w a) as [ja ->]. destruct (wraps_ex w b) as [jb ->].
  rewrite <- (wraps_shift w (a - b) (ja - jb)). f_equal. lia.
Qed.

Lemma mod_window n p q : 0 < n -> p mod n = q mod n -> - n < p - q < n -> p = q.
Proof.
  intros Hn H Hd. apply Z.cong_iff_ex in H as [k Hk].
  assert (k = 0) as -> by nia. lia.
Qed.

Lemma mod_index n p q :
  0 < n -> Z.to_nat (p mod n) = Z.to_nat (q mod n) -> - n < p - q < n -> p = q.
Proof.
  intros Hn H Hd. apply (mod_window n); [done| |done].
  pose proof (Z.mod_pos_bound p n Hn). pose proof (Z.mod_pos_bound q n Hn). lia.
Qed.

Lemma wrapu_index w k p : 0 <= k <= w -> Z.land (wrapu w p) (2 ^ k - 1) = p mod 2 ^ k.
Proof.
  intros Hk. replace (2 ^ k - 1) with (Z.ones k) by (rewrite Z.ones_equiv; lia).
  rewrite Z.land_ones by lia. unfold wrapu. apply Z.mod_mod_divide.
  exists (2 ^ (w - k)). rewrite <- Z.pow_add_r by lia. f_equal. lia.
Qed.

(** ** The interface *)

Class BoundedQueue (Q A : Type) : Type := {
  bq_cap : nat;
  bq_repr : Q -> list A -> Prop;
  bq_push : A -> Q -> outcome (Q * bool);
  bq_pop : Q -> outcome (Q * option A);
  bq_repr_cap q l : bq_repr q l -> (length l <= bq_cap)%nat;
  bq_push_ok q l a : bq_repr q l -> (length l < bq_cap)%nat ->
    exists q', bq_push a q = Ret (q', true) /\ bq_repr q' (l ++ [a]);
  bq_push_full q l a : bq_repr q l -> length l = bq_cap ->
    exists q', bq_push a q = Ret (q', false) /\ bq_repr q' l;
  bq_pop_ok q l a : bq_repr q (a :: l) ->
    exists q', bq_pop q = Ret (q', Some a) /\ bq_repr q' l;
  bq_pop_empty q : bq_repr q [] ->
    exists q', bq_pop q = Ret (q', None) /\ bq_repr q' []
}.

(** ** A ring nobody else is using *)

Section alone.
Context {A : Type} (K : kind A) (k : Z).
Hypothesis Hk : 1 <= k < width K.
Hypothesis Hspin : spin_limit K <> Some O.

Local Abbreviation n := (2 ^ k).
Local Abbreviation w := (width K).

(** A ring that holds [q], the oldest item at position [D]: the cell of each
    of the last [n] positions is either recycled or filled. *)
Record holds (r : ring A) (D : Z) (q : list A) : Prop := {
  h_mask : mask r = n - 1;
  h_len : Z.of_nat (length (cells r)) = n;
  h_enq : enqPos r = wrapu w (D + Z.of_nat (length q));
  h_deq : deqPos r = wrapu w D;
  h_fit : Z.of_nat (length q) <= n;
  h_cell p : D + Z.of_nat (length q) - n <= p < D + Z.of_nat (length q) ->
    exists v, cells r !! Z.to_nat (p mod n)
              = Some (mkCell (wrapu w (if p <? D then p + n else p + 1)) v) /\
              (D <= p -> q !! Z.to_nat (p - D) = Some v)
}.

Lemma n_bound : 2 <= n <= 2 ^ (w - 1).
Proof using Hk.
  split; [|apply Z.pow_le_mono_r; lia].
  change 2 with (2 ^ 1) at 1. apply Z.pow_le_mono_r; lia.
Qed.

Lemma index_of r D q p : holds r D q -> cell_index r (wrapu w p) = Z.to_nat (p mod n).
Proof using Hk. intros H. unfold cell_index. rewrite (h_mask _ _ _ H), wrapu_index by lia. done. Qed.

Lemma new_holds zero : holds (new_ring (Z.to_nat n) zero) 0 [].
Proof using Hk.
  pose proof n_bound as Hn.
  assert (2 ^ (w - 1) < 2 ^ w) by (apply Z.pow_lt_mono_r; lia).
  split; cbn [mask cells enqPos deqPos new_ring length].
  - lia.
  - unfold new_cells. rewrite length_fmap, length_seq. lia.
  - rewrite wrapu_small; lia.
  - rewrite wrapu_small; lia.
  - lia.
  - intros p Hp. exists zero. split; [|lia]. destruct (Z.ltb_spec p 0); [|lia].
    replace (p mod n) with (p + n) by (apply (Z.mod_unique_pos p n (-1)); lia).
    unfold new_cells. rewrite list_lookup_fmap, lookup_seq_lt by lia. cbn.
    rewrite wrapu_small by lia. do 2 f_equal. lia.
Qed.

Lemma diff_zero a : wraps w (a - a) = 0.
Proof using Hk. rewrite Z.sub_diag. apply wraps_small; [lia|]. pose proof n_bound. lia. Qed.

Lemma diff_neg a b :
  - n < a - b < 0 -> (wraps w (a - b) <? 0) = true /\ (wraps w (a - b) =? 0) = false.
Proof using Hk. pose proof n_bound. intros Hab. rewrite wraps_small by lia. lia. Qed.

(** The position about to be used and the cell it falls into. *)
Lemma cell_enq r D q : holds r D q ->
  let E := D + Z.of_nat (length q) in
  exists v, cells r !! cell_index r (wrapu w E)
    = Some (mkCell (wrapu w (if Z.of_nat (length q) <? n then E else E - n + 1)) v).
Proof using Hk.
  intros H E. pose proof n_bound as Hn. pose proof (h_fit _ _ _ H) as Hf.
  destruct (h_cell _ _ _ H (E - n)) as (v & Hc & _); [lia|]. exists v.
  rewrite (index_of r D q E H). replace (E mod n) with ((E - n) mod n).
  2:{ rewrite <- (Z_mod_plus_full (E - n) 1 n). f_equal. lia. }
  rewrite Hc. do 3 f_equal.
  destruct (Z.ltb_spec (E - n) D), (Z.ltb_spec (Z.of_nat (length q)) n); lia.
Qed.

Lemma cell_deq r D q : holds r D q ->
  exists v, cells r !! cell_index r (wrapu w D)
    = Some (mkCell (wrapu w (match q with [] => D | _ => D + 1 end)) v) /\
    (forall a, head q = Some a -> a = v).
Proof using Hk.
  intros H. pose proof n_bound as Hn. pose proof (h_fit _ _ _ H) as Hf.
  rewrite (index_of r D q D H). destruct q as [|a q]; cbn [length] in *.
  - destruct (h_cell _ _ _ H (D - n)) as (v & Hc & _); [cbn; lia|]. exists v.
    replace (D mod n) with ((D - n) mod n) by (rewrite <- (Z_mod_plus_full (D - n) 1 n); f_equal; lia).
    rewrite Hc. destruct (Z.ltb_spec (D - n) D); [|lia]. split; [do 3 f_equal; lia|done].
  - destruct (h_cell _ _ _ H D) as (v & Hc & Hv); [cbn [length]; lia|]. exists v.
    rewrite Hc. destruct (Z.ltb_spec D D); [lia|]. split; [done|].
    specialize (Hv ltac:(lia)). rewrite Z.sub_diag in Hv. change (Some a = Some v) in Hv.
    intros a' Ha. cbn in Ha. congruence.
Qed.

(** Two accesses to the claimed cell are one update of it. *)
Lemma on_cell_twice (r : ring A) pos f g :
  on_cell (on_cell r pos f) pos g = on_cell r pos (fun c => g (f c)).
Proof using. unfold on_cell, cell_index. cbn. f_equal. apply list_alter_alter_eq. Qed.

Lemma push_holds r D q v : holds r D q -> Z.of_nat (length q) < n ->
  holds (on_cell (set_enq r (wrapu w (D + Z.of_nat (length q) + 1))) (wrapu w (D + Z.of_nat (length q)))
           (fun _ => mkCell (wrapu w (D + Z.of_nat (length q) + 1)) v)) D (q ++ [v]).
Proof using Hk.
  intros H Hlt. pose proof n_bound as Hn. destruct (cell_enq r D q H) as (v0 & Hc).
  set (E := D + Z.of_nat (length q)) in *. rewrite (index_of r D q E H) in Hc.
  unfold on_cell. change (cell_index (set_enq r ?x) ?y) with (cell_index r y).
  rewrite (index_of r D q E H).
  split; cbn [mask cells enqPos deqPos set_enq]; rewrite ?length_alter, ?length_app; cbn [length].
  - apply H.
  - apply H.
  - f_equal. lia.
  - apply H.
  - lia.
  - intros p Hp. destruct (decide (p = E)) as [->|Hne].
    + exists v. rewrite list_lookup_alter_eq, Hc. cbn. split.
      * destruct (Z.ltb_spec E D); [lia|done].
      * intros _. replace (Z.to_nat (E - D)) with (length q) by lia. by rewrite lookup_app_r, Nat.sub_diag.
    + destruct (h_cell _ _ _ H p) as (u & Hu & Hq); [lia|]. exists u. split.
      * rewrite list_lookup_alter_ne; [done|]. intros Heq. apply Hne. symmetry.
        apply (mod_index n); [lia|done|lia].
      * intros Hp'. rewrite lookup_app_l; [by apply Hq|lia].
Qed.

Lemma pop_holds r D a q v : holds r D (a :: q) ->
  holds (on_cell (set_deq r (wrapu w (D + 1))) (wrapu w D)
           (fun _ => mkCell (wrapu w (D + n)) v)) (D + 1) q.
Proof using Hk.
  intros H. pose proof n_bound as Hn.
  destruct (cell_deq r D _ H) as (v0 & Hc & _). rewrite (index_of r D _ D H) in Hc.
  unfold on_cell. change (cell_index (set_deq r ?x) ?y) with (cell_index r y).
  rewrite (index_of r D _ D H). pose proof (h_fit _ _ _ H) as Hf. pose proof (h_enq _ _ _ H) as HE.
  cbn [length] in *.
  split; cbn [mask cells enqPos deqPos set_deq]; rewrite ?length_alter.
  - apply H.
  - apply H.
  - rewrite HE. f_equal. lia.
  - done.
  - lia.
  - intros p Hp. destruct (decide (p = D)) as [->|Hne].
    + exists v. rewrite list_lookup_alter_eq, Hc. cbn. destruct (Z.ltb_spec D (D + 1)); [|lia].
      split; [done|lia].
    + destruct (h_cell _ _ _ H p) as (u & Hu & Hq); [cbn [length]; lia|]. exists u. split.
      * rewrite list_lookup_alter_ne.
        2:{ intros Heq. apply Hne. symmetry. apply (mod_index n); [lia|done|lia]. }
        rewrite Hu. destruct (Z.ltb_spec p D), (Z.ltb_spec p (D + 1)); (done || lia).
      * intros Hp'. specialize (Hq ltac:(lia)).
        by replace (Z.to_nat (p - D)) with (S (Z.to_nat (p - (D + 1)))) in Hq by lia.
Qed.

Lemma on_cell_ext (r : ring A) pos f g c :
  cells r !! cell_index r pos = Some c -> f c = g c -> on_cell r pos f = on_cell r pos g.
Proof using. intros Hc Hfg. unfold on_cell. f_equal. apply list_alter_ext; [|done].
  intros x Hx. congruence. Qed.

Local Ltac run_alone :=
  repeat first
    [ progress cbv beta zeta iota delta [alone gor_step push_step pop_step obind pushed popped fst snd]
    | match goal with
      | H : cells ?r !! _ = Some _ |- context [cells ?r !! _] => rewrite H
      | H : enqPos ?r = _ |- context [enqPos ?r] => rewrite H
      | H : deqPos ?r = _ |- context [deqPos ?r] => rewrite H
      | H : (_ =? _) = _ |- context [_ =? _] => rewrite H
      | H : (_ <? _) = _ |- context [_ <? _] => rewrite H
      end
    | rewrite Z.eqb_refl ].

(** Push runs straight through its loop: the position it finds free, or the
    answer that the ring is full. *)
Lemma push_run r pos u v :
  enqPos r = pos -> cells r !! cell_index r pos = Some u ->
  push_alone K v r =
    if seq_diff K (c_seq u) pos =? 0
    then Ret (on_cell (set_enq r (wrapu w (pos + 1))) pos (fun _ => mkCell (wrapu w (pos + 1)) v), true)
    else if seq_diff K (c_seq u) pos <? 0 then Ret (r, false) else push_alone K v r.
Proof using Hspin.
  intros HE Hc. destruct (seq_diff K (c_seq u) pos =? 0) eqn:E0;
    [|destruct (seq_diff K (c_seq u) pos <? 0) eqn:E1; [|done]];
    unfold push_alone; destruct (spin_limit K) as [[|s]|] eqn:Es; try done;
    run_alone; try done; by rewrite on_cell_twice.
Qed.

Lemma pop_run r pos u :
  deqPos r = pos -> cells r !! cell_index r pos = Some u ->
  pop_alone K r =
    if seq_diff K (c_seq u) (wrapu w (pos + 1)) =? 0
    then Ret (on_cell (set_deq r (wrapu w (pos + 1))) pos
                (fun c => mkCell (wrapu w (wrapu w (pos + mask r) + 1)) (cleared K (c_val c))), Some (c_val u))
    else if seq_diff K (c_seq u) (wrapu w (pos + 1)) <? 0 then Ret (r, None) else pop_alone K r.
Proof using.
  intros HD Hc.
  assert (cells (set_deq r (wrapu w (pos + 1))) !! cell_index (set_deq r (wrapu w (pos + 1))) pos = Some u) as Hc'
    by done.
  destruct (seq_diff K (c_seq u) (wrapu w (pos + 1)) =? 0) eqn:E0;
    [|destruct (seq_diff K (c_seq u) (wrapu w (pos + 1)) <? 0) eqn:E1; [|done]];
    unfold pop_alone; run_alone; try done; by rewrite on_cell_twice.
Qed.

Lemma alone_push_ok r D q v : holds r D q -> Z.of_nat (length q) < n ->
  exists r', push_alone K v r = Ret (r', true) /\ holds r' D (q ++ [v]).
Proof using Hk Hspin.
  intros H Hlt. destruct (cell_enq r D q H) as (u & Hc).
  rewrite (push_run r _ _ v (h_enq _ _ _ H) Hc). cbn [c_seq].
  destruct (Z.ltb_spec (Z.of_nat (length q)) n); [|lia].
  rewrite seq_diff_wrap, diff_zero. eexists. split; [done|]. rewrite wrapu_add.
  by apply push_holds.
Qed.

Lemma alone_push_full r D q v : holds r D q -> Z.of_nat (length q) = n ->
  push_alone K v r = Ret (r, false).
Proof using Hk Hspin.
  intros H Hlt. destruct (cell_enq r D q H) as (u & Hc). pose proof n_bound as Hn.
  rewrite (push_run r _ _ v (h_enq _ _ _ H) Hc). cbn [c_seq].
  destruct (Z.ltb_spec (Z.of_nat (length q)) n); [lia|]. rewrite seq_diff_wrap.
  destruct (diff_neg (D + Z.of_nat (length q) - n + 1) (D + Z.of_nat (length q))) as [Hneg Hnz]; [lia|].
  by rewrite Hnz, Hneg.
Qed.

Lemma alone_pop_ok r D q v : holds r D (v :: q) ->
  exists r', pop_alone K r = Ret (r', Some v) /\ holds r' (D + 1) q.
Proof using Hk.
  intros H. destruct (cell_deq r D _ H) as (u & Hc & Hu). specialize (Hu v eq_refl) as <-.
  rewrite (pop_run r _ _ (h_deq _ _ _ H) Hc). cbn [c_seq c_val].
  rewrite wrapu_add, seq_diff_wrap, diff_zero. eexists. split; [done|].
  rewrite (h_mask _ _ _ H), !wrapu_add.
  replace (wrapu w D + (n - 1) + 1) with (wrapu w D + n) by lia. rewrite wrapu_add.
  rewrite (on_cell_ext (set_deq r _) _ (fun c => mkCell (wrapu w (D + n)) (cleared K (c_val c)))
             (fun _ => mkCell (wrapu w (D + n)) (cleared K v)) _ Hc eq_refl).
  by apply (pop_holds r D v).
Qed.

Lemma alone_pop_empty r D : holds r D [] -> pop_alone K r = Ret (r, None).
Proof using Hk.
  intros H. destruct (cell_deq r D _ H) as (u & Hc & _). pose proof n_bound as Hn.
  rewrite (pop_run r _ _ (h_deq _ _ _ H) Hc). cbn [c_seq c_val].
  rewrite wrapu_add, seq_diff_wrap. destruct (diff_neg D (D + 1)) as [Hneg Hnz]; [lia|]. by rewrite Hnz, Hneg.
Qed.
End alone.

(** ** The rings as bounded queues *)

Section instances.
Context {A : Type} (K : kind A) (k : Z).
Hypothesis Hk : 1 <= k < width K.
Hypothesis Hspin : spin_limit K <> Some O.

(** The position of the oldest item is not part of the contract. *)
Definition ring_repr (r : ring A) (q : list A) : Prop := exists D, holds K k r D q.

Lemma cap_nat (q : list A) : (length q < Z.to_nat (2 ^ k))%nat <-> Z.of_nat (length q) < 2 ^ k.
Proof using Hk. pose proof (n_bound K k Hk). lia. Qed.

Definition ring_queue : BoundedQueue (ring A) A.
Proof using Hk Hspin.
  refine {| bq_cap := Z.to_nat (2 ^ k); bq_repr := ring_repr;
            bq_push := push_alone K; bq_pop := pop_alone K |}.
  - intros r q [D H]. pose proof (h_fit K k r D q H). lia.
  - intros r q v [D H] Hlt. apply cap_nat in Hlt.
    destruct (alone_push_ok K k Hk Hspin r D q v H Hlt) as (r' & E & H'). exists r'. split; [done|by exists D].
  - intros r q v [D H] Hlt. pose proof (n_bound K k Hk). exists r.
    split; [apply (alone_push_full K k Hk Hspin r D q v H); lia|by exists D].
  - intros r q v [D H]. destruct (alone_pop_ok K k Hk r D q v H) as (r' & E & H').
    exists r'. split; [done|by exists (D + 1)].
  - intros r [D H]. exists r. split; [by apply (alone_pop_empty K k Hk r D)|by exists D].
Defined.
End instances.

(** Clients of the interface: however pushes and pops follow each other, the
    answers are those of a list with room for [bq_cap] items. *)
Inductive qop (A : Type) : Type := OpPush (a : A) | OpPop.
Arguments OpPush {A} a.
Arguments OpPop {A}.

Definition fifo_step {A} (cap : nat) (o : qop A) (l : list A) : outcome (list A * (bool + option A)) :=
  match o with
  | OpPush a => Ret (if (length l <? cap)%nat then (l ++ [a], inl true) else (l, inl false))
  | OpPop => Ret (tail l, inr (head l))
  end.

Definition ops_step {Q A} (push : A -> Q -> outcome (Q * bool)) (pop : Q -> outcome (Q * option A))
    (o : qop A) (q : Q) : outcome (Q * (bool + option A)) :=
  match o with
  | OpPush a => qb <-- push a q ;; Ret (qb.1, inl qb.2)
  | OpPop => qo <-- pop q ;; Ret (qo.1, inr qo.2)
  end.

Lemma queue_step_sim {Q A} `{!BoundedQueue Q A} (o : qop A) (q : Q) l :
  bq_repr q l -> sim bq_repr (ops_step bq_push bq_pop o q) (fifo_step (bq_cap (Q:=Q)) o l).
Proof.
  intros H. pose proof (bq_repr_cap q l H) as Hcap. destruct o as [a|]; cbn [ops_step fifo_step].
  - destruct (Nat.ltb_spec (length l) bq_cap).
    + destruct (bq_push_ok q l a H) as (q' & -> & H'); [done|]. cbn. done.
    + destruct (bq_push_full q l a H) as (q' & -> & H'); [lia|]. cbn. done.
  - destruct l as [|a l].
    + destruct (bq_pop_empty q H) as (q' & -> & H'). cbn. done.
    + destruct (bq_pop_ok q l a H) as (q' & -> & H'). cbn. done.
Qed.

Lemma queue_answers {Q A} `{!BoundedQueue Q A} (ops : list (qop A)) (q : Q) l :
  bq_repr q l -> answers (ops_step bq_push bq_pop) ops q = answers (fifo_step (bq_cap (Q:=Q))) ops l.
Proof.
  intros H. apply (answers_refine _ _ (fun _ => bq_repr) (fun _ => True)); [|by apply Forall_true|done].
  intros o _ q' l' _ H'. by apply queue_step_sim.
Qed.

(** *** ingest: the capacity is rounded up to a power of two *)

Lemma ingest_nextPow2 m : 0 <= m <= 2 ^ 63 ->
  exists j, 0 <= j <= 63 /\ Ingest.nextPow2_64 m = 2 ^ j /\ m <= 2 ^ j /\ (2 <= m -> 2 ^ j < 2 * m).
Proof.
  intros Hm. destruct (decide (m <= 1)) as [H1|H1].
  { exists 0. assert (m = 0 \/ m = 1) as [-> | ->] by lia; vm_compute; repeat split; congruence. }
  unfold Ingest.nextPow2_64. destruct (Z.eqb_spec m 0); [lia|]. cbv zeta.
  rewrite (wrapu_small 64 (m - 1)) by lia.
  assert (smeared (m - 1) 1 (m - 1)) as H0.
  { intros i Hi. split; [intros Hb; exists i; split; [lia|done]|].
    intros (j & Hj & Hb). by replace i with j by lia. }
  apply (smeared_double _ 1 _ ltac:(lia)), (smeared_double _ 2 _ ltac:(lia)),
    (smeared_double _ 4 _ ltac:(lia)), (smeared_double _ 8 _ ltac:(lia)),
    (smeared_double _ 16 _ ltac:(lia)), (smeared_double _ 32 _ ltac:(lia)) in H0.
  apply (smeared_ones 64 (m - 1)) in H0; [|lia|lia|].
  2:{ repeat apply lor_shiftr_nonneg. lia. }
  rewrite H0. exists (Z.log2 (m - 1) + 1).
  pose proof (Z.log2_nonneg (m - 1)). pose proof (Z.log2_spec (m - 1) ltac:(lia)) as [Hlo Hhi].
  assert (Z.log2 (m - 1) < 63) by (apply Z.log2_lt_pow2; lia).
  rewrite Z.ones_equiv. replace (Z.pred (2 ^ (Z.log2 (m - 1) + 1)) + 1) with (2 ^ (Z.log2 (m - 1) + 1)) by lia.
  rewrite Z.add_1_r. split; [lia|]. split; [|split; [lia|rewrite Z.pow_succ_r by lia; lia]].
  apply wrapu_small. split; [lia|]. apply Z.pow_lt_mono_r; lia.
Qed.

Section ring_instances.
Context {A : Type}.

Definition ingest_queue (k : Z) (Hk : 1 <= k < 64) : BoundedQueue (ring A) A :=
  ring_queue Ingest.ingest_kind k Hk ltac:(done).

(** The dispatch ring: pointers in the cells, and the notification token. *)
Definition dispatch_repr (k : Z) (r : Dispatch.DispatchRing A) (q : list A) : Prop :=
  ring_repr Dispatch.dispatch_kind k (Dispatch.d_ring r) (Some <$> q).

Lemma dispatch_spins : spin_limit (@Dispatch.dispatch_kind A) <> Some O.
Proof. cbn. unfold Dispatch.maxPushSpins. by intros [=]. Qed.

Definition dispatch_queue (k : Z) (Hk : 1 <= k < 64) : BoundedQueue (Dispatch.DispatchRing A) A.
Proof.
  pose (ring_queue (@Dispatch.dispatch_kind A) k Hk dispatch_spins) as RQ.
  refine {| bq_cap := Z.to_nat (2 ^ k); bq_repr := dispatch_repr k;
            bq_push := Dispatch.DispatchTryPush; bq_pop := Dispatch.DispatchTryPop |}.
  - intros r q H. pose proof (bq_repr_cap (BoundedQueue:=RQ) _ _ H) as Hc. by rewrite length_fmap in Hc.
  - intros r q a H Hlt. unfold Dispatch.DispatchTryPush.
    destruct (bq_push_ok (BoundedQueue:=RQ) _ _ (Some a) H) as (r' & E & H'); [by rewrite length_fmap|].
    cbn [bq_push RQ ring_queue] in E. rewrite E. cbn. eexists. split; [done|].
    unfold dispatch_repr. by rewrite fmap_app.
  - intros r q a H Hlt. unfold Dispatch.DispatchTryPush.
    destruct (bq_push_full (BoundedQueue:=RQ) _ _ (Some a) H) as (r' & E & H'); [by rewrite length_fmap|].
    cbn [bq_push RQ ring_queue] in E. rewrite E. cbn. by eexists.
  - intros r q a H. unfold Dispatch.DispatchTryPop.
    destruct (bq_pop_ok (BoundedQueue:=RQ) _ _ (Some a) H) as (r' & E & H').
    cbn [bq_pop RQ ring_queue] in E. rewrite E. cbn. by eexists.
  - intros r H. unfold Dispatch.DispatchTryPop. destruct (bq_pop_empty (BoundedQueue:=RQ) _ H) as (r' & E & H').
    cbn [bq_pop RQ ring_queue] in E. rewrite E. cbn. by eexists.
Defined.

(** The log ring: the consumer takes the cell at its tail. *)
Definition log_repr (r : ring (option A)) (q : list A) : Prop :=
  ring_repr LogRing.log_kind 13 r (Some <$> q).

Lemma log_dequeue_ok r q a : log_repr r (a :: q) ->
  exists r', LogRing.Dequeue r = Ret (r', Some a) /\ log_repr r' q.
Proof.
  intros [D H]. assert (1 <= 13 < width (@LogRing.log_kind A)) as Hk by (cbn; lia).
  destruct (cell_deq _ 13 Hk _ _ _ H) as (v & Hc & Hv). specialize (Hv (Some a) eq_refl) as <-.
  unfold LogRing.Dequeue. rewrite (h_deq _ _ _ _ _ H). cbn [width LogRing.log_kind] in *.
  cbn [fmap list_fmap] in Hc. rewrite Hc. cbn [c_seq c_val]. rewrite wrapu_add, Z.eqb_refl. cbn [negb].
  eexists. split; [done|]. exists (D + 1). rewrite on_cell_twice.
  change (set_deq (on_cell r ?p ?f) ?d) with (on_cell (set_deq r d) p f). rewrite wrapu_add.
  apply (pop_holds LogRing.log_kind 13 Hk r D (Some a) (Some <$> q) None H).
Qed.

Lemma log_dequeue_empty r : log_repr r [] -> LogRing.Dequeue r = Ret (r, None).
Proof.
  intros [D H]. assert (1 <= 13 < width (@LogRing.log_kind A)) as Hk by (cbn; lia).
  destruct (cell_deq _ 13 Hk _ _ _ H) as (v & Hc & _).
  unfold LogRing.Dequeue. rewrite (h_deq _ _ _ _ _ H). cbn [width LogRing.log_kind] in *.
  cbn [fmap list_fmap] in Hc. rewrite Hc. cbn [c_seq]. rewrite wrapu_add.
  destruct (Z.eqb_spec (u64 D) (u64 (D + 1))) as [E|]; [|done].
  destruct (wrapu_ex 64 D) as [j1 E1], (wrapu_ex 64 (D + 1)) as [j2 E2]. lia.
Qed.

Definition log_queue : BoundedQueue (ring (option A)) A.
Proof.
  assert (1 <= 13 < width (@LogRing.log_kind A)) as Hk by (cbn; lia).
  pose (ring_queue (@LogRing.log_kind A) 13 Hk ltac:(done)) as RQ.
  refine {| bq_cap := LogRing.RingCap; bq_repr := log_repr;
            bq_push := LogRing.TryEnqueue; bq_pop := LogRing.Dequeue |}.
  - intros r q H. pose proof (bq_repr_cap (BoundedQueue:=RQ) _ _ H) as Hc. by rewrite length_fmap in Hc.
  - intros r q a H Hlt.
    destruct (bq_push_ok (BoundedQueue:=RQ) _ _ (Some a) H) as (r' & E & H'); [by rewrite length_fmap|].
    exists r'. split; [done|]. unfold log_repr. by rewrite fmap_app.
  - intros r q a H Hlt.
    destruct (bq_push_full (BoundedQueue:=RQ) _ _ (Some a) H) as (r' & E & H'); [by rewrite length_fmap|].
    by exists r'.
  - intros r q a H. by apply log_dequeue_ok.
  - intros r H. exists r. by rewrite log_dequeue_empty.
Defined.
End ring_instances.

Lemma new_ring_repr {A} (K : kind A) k zero :
  1 <= k < width K -> ring_repr K k (new_ring (Z.to_nat (2 ^ k)) zero) [].
Proof. intros Hk. exists 0. by apply new_holds. Qed.

Lemma ingest_capacity capacity : 0 <= capacity <= 2 ^ 62 ->
  exists k, 1 <= k < 64 /\ Z.max (Ingest.nextPow2_64 (u64 capacity)) 2 = 2 ^ k /\
    capacity <= 2 ^ k /\ (2 <= capacity -> 2 ^ k < 2 * capacity).
Proof.
  intros Hc. rewrite wrapu_small by lia.
  destruct (ingest_nextPow2 capacity) as (j & Hj & -> & Hle & Hlt); [lia|].
  destruct (decide (j = 0)) as [->|Hj0]; [exists 1; cbn in *; lia|].
  exists j. assert (2 ^ 1 <= 2 ^ j) by (apply Z.pow_le_mono_r; lia).
  split; [lia|]. split; [lia|done].
Qed.

Lemma power_of_two_dispatch {E} k : 0 <= k < 64 ->
  @Dispatch.NewDispatchRing E (2 ^ k)
  = Ret (Dispatch.mkDispatch (new_ring (Z.to_nat (2 ^ k)) None) false).
Proof.
  intros Hk. unfold Dispatch.NewDispatchRing.
  assert (0 < 2 ^ k < 2 ^ 64) as Hp by (split; [lia|apply Z.pow_lt_mono_r; lia]).
  rewrite wrapu_small by lia. destruct (Z.eqb_spec (2 ^ k) 0); [lia|].
  replace (2 ^ k - 1) with (Z.ones k) by (rewrite Z.ones_equiv; lia).
  rewrite Z.land_ones, Z.mod_same by lia. done.
Qed.

(** C35: The rings are bounded FIFO queues.  Used by one goroutine at a time,
    the ingest ring made for any capacity up to 2^62, the dispatch ring of any
    power of two from 2 on and the log ring answer every sequence of pushes
    and pops exactly as a list does that has room for the capacity (rounded up
    to a power of two, at least 2, by the ingest ring): push refuses only a
    full ring, pop returns the oldest item or nothing.  No call panics or spins,
    and the positions may wrap around. *)
Theorem rings_are_fifo {E : Type} (zero : E) (ops : list (qop E)) (capacity k : Z) :
  0 <= capacity <= 2 ^ 62 -> 1 <= k < 64 ->
  (exists cap, capacity <= cap /\ (2 <= capacity -> cap < 2 * capacity) /\
     answers (ops_step Ingest.TryPush Ingest.Pop) ops (Ingest.NewRing zero capacity)
     = answers (fifo_step (Z.to_nat cap)) ops []) /\
  (r <-- Dispatch.NewDispatchRing (2 ^ k) ;;
   answers (ops_step Dispatch.DispatchTryPush Dispatch.DispatchTryPop) ops r)
  = answers (fifo_step (Z.to_nat (2 ^ k))) ops [] /\
  answers (ops_step LogRing.TryEnqueue LogRing.Dequeue) ops LogRing.NewLogRing
  = answers (fifo_step (Z.to_nat 8192)) ops [].
Proof.
  intros Hc Hk. split; [|split].
  - destruct (ingest_capacity capacity Hc) as (j & Hj & Hmax & Hle & Hlt).
    exists (2 ^ j). split; [done|]. split; [done|].
    unfold Ingest.NewRing. rewrite Hmax.
    apply (queue_answers (BoundedQueue0 := ingest_queue j Hj)). by apply new_ring_repr.
  - rewrite power_of_two_dispatch by lia. cbn [obind].
    apply (queue_answers (BoundedQueue0 := dispatch_queue k Hk)). by apply new_ring_repr.
  - apply (queue_answers (BoundedQueue0 := log_queue)).
    apply (new_ring_repr LogRing.log_kind 13 None). cbn. lia.
Qed.

Lemma rings_are_fifo_witness :
  answers (ops_step Dispatch.DispatchTryPush Dispatch.DispatchTryPop)
    [OpPush 7; OpPush 8; OpPush 9; OpPop; OpPush 10; OpPop; OpPop; OpPop]
    (Dispatch.mkDispatch (new_ring 2 None) false)
  = Ret [inl true; inl true; inl false; inr (Some 7); inl true; inr (Some 8); inr (Some 10); inr None].
Proof.
  pose proof (rings_are_fifo 0 [OpPush 7; OpPush 8; OpPush 9; OpPop; OpPush 10; OpPop; OpPop; OpPop] 5 1
    ltac:(lia) ltac:(lia)) as (_ & H & _).
  exact H.
Defined.

(** A capacity of 1 is a power of two, and [NewDispatchRing] accepts it, but
    then the sequence number of a filled cell is that of a free one: a second
    push overwrites the item that waits, and pop never returns. *)
Theorem capacity_one_loses_items :
  exists r, (r0 <-- Dispatch.NewDispatchRing 1 ;;
             r1 <-- Dispatch.DispatchTryPush 7 r0 ;;
             Dispatch.DispatchTryPush 8 r1.1) = Ret (r, true) /\
  forall fuel, alone fuel Dispatch.dispatch_kind Pop0 (Dispatch.d_ring r) = Fuel.
Proof.
  eexists. split; [vm_compute; reflexivity|]. cbn [Dispatch.d_ring].
  induction fuel as [[|[|fuel]] IH] using lt_wf_ind; [done|done|].
  transitivity (alone fuel Dispatch.dispatch_kind Pop0 (mkRing 2 0 0 [mkCell 2 (Some 8)])).
  - reflexivity.
  - apply IH. lia.
Qed.
