(* ===== verification/RingConc.v ===== *)
(** * The lock-free rings under contention

    Any number of push and pop calls run on one ring, interleaved at the level
    of single memory operations.  The proof keeps a ghost history: the list of
    all items in the order their positions were claimed, and the phase each
    position is in. *)

From stdpp Require Import relations.
From S2P Require Import Prelude Ring RingSpec.

Local Open Scope Z_scope.
Local Open Scope rah_scope.

(** ** Interleaving *)

Section machine.
Context {A : Type} (K : kind A).

Inductive rstep : ring A * list (gor A) -> ring A * list (gor A) -> Prop :=
| rstep_gor r ts i t r' t' :
    ts !! i = Some t -> gor_step K t r = Some (r', t') ->
    rstep (r, ts) (r', <[i:=t']> ts).

(** A call about to start. *)
Definition fresh (t : gor A) : Prop :=
  match t with Push0 _ _ | Pop0 => True | _ => False end.

Definition returned (t : gor A) : Prop :=
  match t with PushRet _ _ | PopRet _ => True | _ => False end.

(** The position (and item) a push has claimed, the position a pop has. *)
Definition push_ticket (t : gor A) : option (Z * A) :=
  match t with
  | Push3 v p | Push4 v p | PushRet v (Some p) => Some (p, v)
  | _ => None
  end.

Definition pop_ticket (t : gor A) : option Z :=
  match t with
  | Pop3 p | Pop4 p _ | Pop5 p _ | PopRet (Some (p, _)) => Some p
  | _ => None
  end.

Definition pushed_item (t : gor A) : option A :=
  match t with PushRet v (Some _) => Some v | _ => None end.

Definition popped_item (t : gor A) : option (Z * A) :=
  match t with PopRet o => o | _ => None end.

(** An executable scheduler: which call moves next. *)
Definition sched (c : ring A * list (gor A)) (i : nat) : ring A * list (gor A) :=
  match c.2 !! i with
  | Some t => match gor_step K t c.1 with Some (r', t') => (r', <[i:=t']> c.2) | None => c end
  | None => c
  end.

Lemma sched_rtc c l : rtc rstep c (foldl sched c l).
Proof.
  revert c. induction l as [|i l IH]; intros [r ts]; [constructor|]. cbn [foldl].
  etransitivity; [|apply IH]. unfold sched. cbn [fst snd].
  destruct (ts !! i) as [t|] eqn:Hi; [|constructor].
  destruct (gor_step K t r) as [[r' t']|] eqn:E; [|constructor]. by apply rtc_once, (rstep_gor r ts i t).
Qed.
End machine.

(** ** Lists of tickets *)

Section tickets.
Context {T B : Type} (f : T -> option B).

Lemma omap_step (t : T) (ts : list T) :
  omap f (t :: ts) = match f t with Some b => b :: omap f ts | None => omap f ts end.
Proof. cbn. by destruct (f t). Qed.

Lemma omap_insert_same (ts : list T) i t t' :
  ts !! i = Some t -> f t' = f t -> omap f (<[i:=t']> ts) = omap f ts.
Proof.
  revert i. induction ts as [|u ts IH]; intros [|i] Hi Hf; try done;
    [change (<[0%nat:=t']> (u :: ts)) with (t' :: ts)
    |change (<[S i:=t']> (u :: ts)) with (u :: <[i:=t']> ts)]; rewrite !omap_step.
  - injection Hi as ->. by rewrite Hf.
  - by rewrite (IH i).
Qed.

Lemma omap_insert_new (ts : list T) i t t' b :
  ts !! i = Some t -> f t = None -> f t' = Some b ->
  omap f (<[i:=t']> ts) ≡ₚ omap f ts ++ [b].
Proof.
  revert i. induction ts as [|u ts IH]; intros [|i] Hi Hn Hs; try done;
    [change (<[0%nat:=t']> (u :: ts)) with (t' :: ts)
    |change (<[S i:=t']> (u :: ts)) with (u :: <[i:=t']> ts)]; rewrite !omap_step.
  - injection Hi as ->. rewrite Hn, Hs. apply Permutation_cons_append.
  - pose proof (IH i Hi Hn Hs) as HP. destruct (f u); [by rewrite HP|done].
Qed.

Lemma omap_In (ts : list T) i t b : ts !! i = Some t -> f t = Some b -> b ∈ omap f ts.
Proof. intros Hi Hf. apply list_elem_of_omap. exists t. split; [|done]. by eapply list_elem_of_lookup_2. Qed.

(** Different threads never hold the same ticket. *)
Lemma omap_unique {C} (key : B -> C) (ts : list T) i j t u b c :
  NoDup (key <$> omap f ts) -> ts !! i = Some t -> ts !! j = Some u ->
  f t = Some b -> f u = Some c -> key b = key c -> i = j.
Proof.
  revert i j. induction ts as [|x ts IH]; intros i j Hnd Hi Hj Ht Hu Hk; [done|].
  rewrite omap_step in Hnd. destruct i as [|i], j as [|j]; cbn in Hi, Hj; [done| | |].
  - injection Hi as ->. rewrite Ht in Hnd. cbn in Hnd. apply NoDup_cons in Hnd as [Hn _].
    destruct Hn. rewrite Hk. apply list_elem_of_fmap. exists c. split; [done|]. by eapply omap_In.
  - injection Hj as ->. rewrite Hu in Hnd. cbn in Hnd. apply NoDup_cons in Hnd as [Hn _].
    destruct Hn. rewrite <- Hk. apply list_elem_of_fmap. exists b. split; [done|]. by eapply omap_In.
  - f_equal. apply IH; try done. destruct (f x); cbn in Hnd; [by apply NoDup_cons in Hnd as [_ ?]|done].
Qed.

Lemma omap_length_le (ts : list T) : (length (omap f ts) <= length ts)%nat.
Proof. induction ts as [|t ts IH]; [cbn; lia|]. rewrite omap_step. destruct (f t); cbn; lia. Qed.
End tickets.

(** The items of [log] with their positions. *)
Definition numbered {A} (log : list A) : list (Z * A) := imap (fun i v => (Z.of_nat i, v)) log.

Lemma numbered_snoc {A} (log : list A) v :
  numbered (log ++ [v]) = numbered log ++ [(Z.of_nat (length log), v)].
Proof. unfold numbered. rewrite imap_app. cbn. by rewrite Nat.add_0_r. Qed.

Lemma numbered_lookup {A} (log : list A) p v :
  (p, v) ∈ numbered log <-> 0 <= p /\ log !! Z.to_nat p = Some v.
Proof.
  unfold numbered. rewrite elem_of_lookup_imap. split.
  - intros (i & y & [= -> ->] & Hi). rewrite Nat2Z.id. split; [lia|done].
  - intros [Hp Hl]. exists (Z.to_nat p), v. split; [f_equal; lia|done].
Qed.

Lemma numbered_NoDup {A} (log : list A) : NoDup (fst <$> numbered log).
Proof.
  unfold numbered. rewrite fmap_imap. apply NoDup_alt. intros i j x.
  rewrite !list_lookup_imap. destruct (log !! i), (log !! j); cbn; try done.
  intros [= <-] [= Hij]. lia.
Qed.

Lemma numbered_items {A} (log : list A) : snd <$> numbered log = log.
Proof.
  apply list_eq. intros i. unfold numbered. rewrite list_lookup_fmap, list_lookup_imap. by destruct (log !! i).
Qed.

Lemma length_numbered {A} (log : list A) : length (numbered log) = length log.
Proof. apply length_imap. Qed.

(** ** The invariant *)

Section invariant.
Context {A : Type} (K : kind A) (k : Z).
Hypothesis Hk : 1 <= k < width K.

Local Abbreviation n := (2 ^ k).
Local Abbreviation w := (width K).

(** A position is claimed and being written, holds an item, is claimed and
    being read, or has been recycled. *)
Inductive phase : Type := Writing | Full | Reading | Recycled.

Local Abbreviation history := (list A).

Definition phase_seq (p : Z) (ph : phase) : Z :=
  match ph with Writing => p | Full | Reading => p + 1 | Recycled => p + n end.

Definition val_at (r : ring A) (p : Z) (v : A) : Prop :=
  exists s, cells r !! Z.to_nat (p mod n) = Some (mkCell s v).

(** What a call knows at each point of its loop. *)
Definition knows (r : ring A) (log : history) (ph : Z -> phase) (t : gor A) : Prop :=
  match t with
  | Push1 _ _ pos => 0 <= pos <= Z.of_nat (length log)
  | Push2 _ _ pos => 0 <= pos <= Z.of_nat (length log) /\
                     (pos = Z.of_nat (length log) -> ph (pos - n) = Recycled)
  | Push3 _ p => ph p = Writing
  | Push4 v p => ph p = Writing /\ val_at r p v
  | Pop1 pos => 0 <= pos <= deqPos r
  | Pop2 pos => 0 <= pos <= deqPos r /\ (pos = deqPos r -> ph pos = Full /\ pos < Z.of_nat (length log))
  | Pop3 p => ph p = Reading /\ exists v, val_at r p v /\ log !! Z.to_nat p = Some v
  | Pop4 p v | Pop5 p v => ph p = Reading /\ log !! Z.to_nat p = Some v
  | PopRet (Some (p, v)) => log !! Z.to_nat p = Some v
  | Crashed => False
  | _ => True
  end.

(** The claims in progress. *)
Definition busy (p : Z) (x : phase) (t : gor A) : Prop :=
  match x, t with
  | Writing, (Push3 _ q | Push4 _ q) => q = p
  | Reading, (Pop3 q | Pop4 q _ | Pop5 q _) => q = p
  | _, _ => False
  end.

Record inv (r : ring A) (log : history) (ph : Z -> phase) (ts : list (gor A)) : Prop := {
  i_mask : mask r = n - 1;
  i_len : Z.of_nat (length (cells r)) = n;
  i_enq : enqPos r = Z.of_nat (length log);
  i_deq : 0 <= deqPos r <= Z.of_nat (length log);
  i_old p : p < Z.of_nat (length log) - n -> ph p = Recycled;
  i_live p : deqPos r <= p < Z.of_nat (length log) -> ph p = Writing \/ ph p = Full;
  i_gone p : p < deqPos r -> ph p = Reading \/ ph p = Recycled;
  i_cell p : Z.of_nat (length log) - n <= p < Z.of_nat (length log) ->
    exists v, cells r !! Z.to_nat (p mod n) = Some (mkCell (phase_seq p (ph p)) v) /\
              (ph p = Full -> log !! Z.to_nat p = Some v);
  i_pushes : omap push_ticket ts ≡ₚ numbered log;
  i_pops : omap pop_ticket ts ≡ₚ Z.of_nat <$> seq 0 (Z.to_nat (deqPos r));
  i_knows i t : ts !! i = Some t -> knows r log ph t;
  i_busy p x : p < Z.of_nat (length log) -> ph p = x -> x = Writing \/ x = Reading ->
    exists i t, ts !! i = Some t /\ busy p x t
}.

(** The cell of a position inside the current window. *)
Lemma window_pos (E pos : Z) : exists p, E - n <= p < E /\ p mod n = pos mod n.
Proof using Hk.
  pose proof (n_bound K k Hk) as Hn. exists (E - 1 - (E - 1 - pos) mod n).
  pose proof (Z.mod_pos_bound (E - 1 - pos) n ltac:(lia)). split; [lia|].
  rewrite Zminus_mod_idemp_r. f_equal. lia.
Qed.

Lemma cell_index_mod r log ph ts pos : inv r log ph ts -> 0 <= pos -> cell_index r pos = Z.to_nat (pos mod n).
Proof using Hk.
  intros H Hp. unfold cell_index. rewrite (i_mask _ _ _ _ H).
  replace (n - 1) with (Z.ones k) by (rewrite Z.ones_equiv; lia). by rewrite Z.land_ones by lia.
Qed.

(** Tickets are positions that have been claimed, each by one call. *)
Lemma push_ticket_log r log ph ts i t p v :
  inv r log ph ts -> ts !! i = Some t -> push_ticket t = Some (p, v) ->
  0 <= p < Z.of_nat (length log) /\ log !! Z.to_nat p = Some v.
Proof using.
  intros H Hi Ht. pose proof (omap_In push_ticket ts i t _ Hi Ht) as Hin.
  rewrite (i_pushes _ _ _ _ H) in Hin. apply numbered_lookup in Hin as [Hp Hl].
  split; [|done]. apply lookup_lt_Some in Hl. lia.
Qed.

Lemma pop_ticket_range r log ph ts i t p :
  inv r log ph ts -> ts !! i = Some t -> pop_ticket t = Some p -> 0 <= p < deqPos r.
Proof using.
  intros H Hi Ht. pose proof (omap_In pop_ticket ts i t _ Hi Ht) as Hin.
  rewrite (i_pops _ _ _ _ H) in Hin. apply list_elem_of_fmap in Hin as (x & -> & Hx).
  apply elem_of_seq in Hx. lia.
Qed.

Lemma push_unique r log ph ts i j t u p v v' :
  inv r log ph ts -> ts !! i = Some t -> ts !! j = Some u ->
  push_ticket t = Some (p, v) -> push_ticket u = Some (p, v') -> i = j.
Proof using.
  intros H Hi Hj Ht Hu.
  apply (omap_unique push_ticket fst ts i j t u (p, v) (p, v')); try done.
  rewrite (i_pushes _ _ _ _ H). apply numbered_NoDup.
Qed.

Lemma pop_unique r log ph ts i j t u p :
  inv r log ph ts -> ts !! i = Some t -> ts !! j = Some u ->
  pop_ticket t = Some p -> pop_ticket u = Some p -> i = j.
Proof using.
  intros H Hi Hj Ht Hu. apply (omap_unique pop_ticket id ts i j t u p p); try done.
  rewrite list_fmap_id, (i_pops _ _ _ _ H). apply (NoDup_fmap_2 Z.of_nat), NoDup_seq.
Qed.

Lemma log_le r log ph ts : inv r log ph ts -> (length log <= length ts)%nat.
Proof using.
  intros H. rewrite <- (length_numbered log), <- (Permutation_length (i_pushes _ _ _ _ H)).
  apply omap_length_le.
Qed.

(** What loading a sequence number tells: it belongs to a position of the
    window that shares the cell. *)
Lemma load_cell r log ph ts pos : inv r log ph ts -> 0 <= pos ->
  exists p v, Z.of_nat (length log) - n <= p < Z.of_nat (length log) /\ p mod n = pos mod n /\
    cells r !! cell_index r pos = Some (mkCell (phase_seq p (ph p)) v).
Proof using Hk.
  intros H Hp. destruct (window_pos (Z.of_nat (length log)) pos) as (p & Hw & Hm).
  destruct (i_cell _ _ _ _ H p Hw) as (v & Hc & _). exists p, v. split; [done|]. split; [done|].
  by rewrite (cell_index_mod r log ph ts pos H Hp), <- Hm.
Qed.

Lemma load_diff r log ph ts p pos :
  inv r log ph ts -> Z.of_nat (length ts) + n < 2 ^ (w - 1) ->
  Z.of_nat (length log) - n <= p < Z.of_nat (length log) -> 0 <= pos <= Z.of_nat (length log) + 1 ->
  seq_diff K (phase_seq p (ph p)) pos = phase_seq p (ph p) - pos.
Proof using Hk.
  intros H Hb Hp Hpos. pose proof (log_le _ _ _ _ H). pose proof (n_bound K k Hk).
  assert (Z.of_nat (length log) - n <= phase_seq p (ph p) < Z.of_nat (length log) + n) as Hs
    by (destruct (ph p); cbn [phase_seq]; lia).
  unfold seq_diff. rewrite (wraps_small w (phase_seq p (ph p))), (wraps_small w pos) by lia.
  apply wraps_small; lia.
Qed.

Lemma claim_small r log ph ts : inv r log ph ts -> Z.of_nat (length ts) + n < 2 ^ (w - 1) ->
  forall x, 0 <= x <= Z.of_nat (length log) + n -> wrapu w x = x.
Proof using Hk.
  intros H Hb x Hx. apply wrapu_small. pose proof (log_le _ _ _ _ H).
  assert (2 ^ (w - 1) < 2 ^ w) by (apply Z.pow_lt_mono_r; lia). lia.
Qed.

(** What the other calls know survives a step. *)
Lemma knows_frame r log ph r' log' ph' t :
  knows r log ph t -> log `prefix_of` log' -> deqPos r <= deqPos r' ->
  (forall p, p < Z.of_nat (length log) -> ph p = Recycled -> ph' p = Recycled) ->
  (deqPos r' = deqPos r -> deqPos r < Z.of_nat (length log) ->
     ph (deqPos r) = Full -> ph' (deqPos r) = Full) ->
  (forall p x, busy p x t -> ph' p = ph p /\ forall v, val_at r p v -> val_at r' p v) ->
  knows r' log' ph' t.
Proof using Hk.
  intros Ht Hlog HD Hrec Hfull Hb. pose proof (prefix_length _ _ Hlog) as Hl. pose proof (n_bound K k Hk).
  assert (forall p v, log !! p = Some v -> log' !! p = Some v) as Hlk
    by (intros; by eapply prefix_lookup_Some).
  destruct t as [| |? ? pos|v p|v p| | |pos|pos|p|p v|p v|[[p v]|]|];
    cbn [knows] in *; try done; try lia; auto.
  - destruct Ht as [Hp Hr]. split; [lia|]. intros ->. apply Hrec; [lia|]. apply Hr. lia.
  - by destruct (Hb p Writing eq_refl) as [-> _].
  - destruct Ht as [Ht Hv]. destruct (Hb p Writing eq_refl) as [-> Hv']; auto.
  - destruct Ht as [Hp Hr]. split; [lia|]. intros ->. destruct Hr as [Hr Hlt]; [lia|].
    split; [|lia]. replace (deqPos r') with (deqPos r) in * by lia. apply Hfull; (done || lia).
  - destruct Ht as [Ht (v & Hv & Hl')]. destruct (Hb p Reading eq_refl) as [-> Hv'].
    split; [done|]. exists v. auto.
  - destruct Ht as [Ht Hl']. destruct (Hb p Reading eq_refl) as [-> _]; auto.
  - destruct Ht as [Ht Hl']. destruct (Hb p Reading eq_refl) as [-> _]; auto.
Qed.

(** Steps that touch nothing shared. *)
Lemma inv_local r log ph ts i t t' :
  inv r log ph ts -> ts !! i = Some t ->
  push_ticket t' = push_ticket t -> pop_ticket t' = pop_ticket t ->
  (forall p x, busy p x t -> busy p x t') -> knows r log ph t' ->
  inv r log ph (<[i:=t']> ts).
Proof using.
  intros H Hi Hpu Hpo Hb Ht'. destruct H. constructor; try done.
  - by rewrite (omap_insert_same _ ts i t t').
  - by rewrite (omap_insert_same _ ts i t t').
  - intros j u. rewrite list_lookup_insert. case_decide as Hij; [|apply i_knows0].
    intros [= <-]. done.
  - intros p x Hp Hph Hx. destruct (i_busy0 p x Hp Hph Hx) as (j & u & Hj & Hu).
    destruct (decide (i = j)) as [<-|Hne].
    + exists i, t'. rewrite list_lookup_insert_eq by (by eapply lookup_lt_Some).
      split; [done|]. apply Hb. congruence.
    + exists j, u. by rewrite list_lookup_insert_ne.
Qed.

Definition upd (ph : Z -> phase) (p : Z) (x : phase) : Z -> phase := fun q => if q =? p then x else ph q.

Lemma upd_eq ph p x : upd ph p x p = x.
Proof using. unfold upd. by rewrite Z.eqb_refl. Qed.

Lemma upd_ne ph p x q : q <> p -> upd ph p x q = ph q.
Proof using. unfold upd. intros. by destruct (Z.eqb_spec q p). Qed.

(** A claim in progress is on a position of the window, in that phase. *)
Lemma busy_window r log ph ts i t p x :
  inv r log ph ts -> ts !! i = Some t -> busy p x t ->
  0 <= p /\ Z.of_nat (length log) - n <= p < Z.of_nat (length log) /\ ph p = x /\
  (if deqPos r <=? p then x = Writing else x = Reading).
Proof using Hk.
  intros H Hi Hb. pose proof (i_knows _ _ _ _ H i t Hi) as Hkn. pose proof (i_deq _ _ _ _ H) as HD.
  assert (ph p = x /\ (x = Writing \/ x = Reading)) as [Hph Hx].
  { destruct x, t; cbn in Hb; try done; subst; cbn in Hkn;
      first [exact (conj Hkn (or_introl eq_refl)) | destruct Hkn as [Hkn ?]; auto]. }
  assert (Z.of_nat (length log) - n <= p) as Hlo.
  { destruct (Z.le_gt_cases (Z.of_nat (length log) - n) p) as [|Hlt]; [done|].
    rewrite (i_old _ _ _ _ H p ltac:(lia)) in Hph. subst x. destruct Hx; done. }
  assert (0 <= p < Z.of_nat (length log)) as Hr.
  { destruct x, t as [| | |v q|v q| | | | |q|q v|q v| |]; cbn in Hb; try done; subst.
    1,2: by apply (push_ticket_log r log ph ts i _ p v H Hi).
    all: pose proof (pop_ticket_range r log ph ts i _ p H Hi eq_refl); lia. }
  split; [lia|]. split; [lia|]. split; [done|]. destruct (Z.leb_spec (deqPos r) p).
  - pose proof (i_live _ _ _ _ H p ltac:(lia)) as Hl. rewrite Hph in Hl. destruct Hx, Hl; congruence.
  - pose proof (i_gone _ _ _ _ H p ltac:(lia)) as Hl. rewrite Hph in Hl. destruct Hx, Hl; congruence.
Qed.

(** Nobody else is busy with the position of a claim. *)
Lemma busy_alone r log ph ts i t p x :
  inv r log ph ts -> ts !! i = Some t -> busy p x t ->
  forall j u y, j <> i -> ts !! j = Some u -> ~ busy p y u.
Proof using Hk.
  intros H Hi Hb j u y Hji Hj Hu.
  destruct (busy_window _ _ _ _ _ _ _ _ H Hi Hb) as (_ & _ & Hx & _).
  destruct (busy_window _ _ _ _ _ _ _ _ H Hj Hu) as (_ & _ & Hy & _). rewrite Hx in Hy. subst y.
  apply Hji. destruct x, t, u; cbn in Hb, Hu; try done; subst;
    first [by eapply (push_unique r log ph ts) | by eapply (pop_unique r log ph ts)].
Qed.

Lemma busy_inj t p x q y : busy p x t -> busy q y t -> q = p.
Proof using. destruct x, t; cbn; try done; intros ->; destruct y; cbn; done. Qed.

(** Steps on the cell of a position the call has claimed. *)
Lemma inv_cell r log ph ts i t t' p y x f :
  inv r log ph ts -> ts !! i = Some t -> busy p y t ->
  push_ticket t' = push_ticket t -> pop_ticket t' = pop_ticket t ->
  (if deqPos r <=? p then x = Writing \/ x = Full else x = Reading \/ x = Recycled) ->
  (x = Writing \/ x = Reading -> busy p x t') ->
  (forall v, cells r !! Z.to_nat (p mod n) = Some (mkCell (phase_seq p y) v) ->
     c_seq (f (mkCell (phase_seq p y) v)) = phase_seq p x /\
     (x = Full -> log !! Z.to_nat p = Some (c_val (f (mkCell (phase_seq p y) v))))) ->
  knows (on_cell r p f) log (upd ph p x) t' ->
  inv (on_cell r p f) log (upd ph p x) (<[i:=t']> ts).
Proof using Hk.
  intros H Hi Hmine Hpu Hpo Hx Hb Hf Ht'. pose proof (n_bound K k Hk) as Hn.
  destruct (busy_window _ _ _ _ _ _ _ _ H Hi Hmine) as (Hp0 & Hp & Hph & Hy).
  pose proof (busy_alone _ _ _ _ _ _ _ _ H Hi Hmine) as Hothers.
  assert (y = Writing \/ y = Reading) as Hwr by (destruct y, t; cbn in Hmine; auto; done).
  pose proof (cell_index_mod r log ph ts p H Hp0) as Hix.
  pose proof (i_knows _ _ _ _ H) as Hknows. pose proof (i_deq _ _ _ _ H).
  pose proof (fun j u q z => busy_window r log ph ts j u q z H) as Hwin.
  destruct H. unfold on_cell in *. rewrite Hix in *. constructor;
    cbn [mask cells enqPos deqPos] in *; rewrite ?length_alter; try done.
  - intros q Hq. rewrite upd_ne by lia. auto.
  - intros q Hq. destruct (decide (q = p)) as [->|Hne]; [|rewrite upd_ne by done; auto].
    rewrite upd_eq. destruct (Z.leb_spec (deqPos r) p); [done|lia].
  - intros q Hq. destruct (decide (q = p)) as [->|Hne]; [|rewrite upd_ne by done; auto].
    rewrite upd_eq. destruct (Z.leb_spec (deqPos r) p); [lia|done].
  - intros q Hq. destruct (i_cell0 q Hq) as (v & Hc & Hv). destruct (decide (q = p)) as [->|Hne].
    + rewrite upd_eq, list_lookup_alter_eq, Hc. rewrite Hph in *. destruct (Hf _ Hc) as [Hs Hl].
      destruct (f (mkCell (phase_seq p y) v)) as [s u] eqn:Ef. cbn in Hs, Hl. subst s.
      exists u. cbn. by rewrite Ef.
    + exists v. rewrite upd_ne by done. rewrite list_lookup_alter_ne; [done|].
      intros He. apply Hne. symmetry. apply (mod_index n); [lia|done|lia].
  - by rewrite (omap_insert_same _ ts i t t').
  - by rewrite (omap_insert_same _ ts i t t').
  - intros j u. rewrite list_lookup_insert. case_decide as Hij; [intros [= <-]; done|].
    intros Hj. assert (j <> i) as Hji.
    { intros ->. apply Hij. split; [done|]. by eapply lookup_lt_Some. }
    apply (knows_frame r log ph); cbn [deqPos]; [by eapply Hknows|done|lia| | |].
    + intros q Hq Hr. rewrite upd_ne; [done|]. intros ->. destruct Hwr; congruence.
    + intros _ _ Hr. rewrite upd_ne; [done|]. intros Heq. rewrite Heq in Hr. destruct Hwr; congruence.
    + intros q z Hbusy. assert (q <> p) as Hqp by (intros ->; by apply (Hothers j u z Hji Hj)).
      split; [by apply upd_ne|]. intros v [s' Hs']. exists s'. cbn [cells].
      rewrite list_lookup_alter_ne; [done|]. intros He. apply Hqp. symmetry.
      destruct (Hwin j u q z Hj Hbusy) as (_ & Hq & _). apply (mod_index n); [lia|done|lia].
  - intros q z Hq Hz Hzz. destruct (decide (q = p)) as [->|Hne].
    + rewrite upd_eq in Hz. subst z. exists i, t'.
      rewrite list_lookup_insert_eq by (by eapply lookup_lt_Some). auto.
    + rewrite upd_ne in Hz by done. destruct (i_busy0 q z Hq Hz Hzz) as (j & u & Hj & Hu).
      exists j, u. rewrite list_lookup_insert_ne; [done|]. intros <-.
      apply Hne. assert (u = t) as -> by congruence. by apply (busy_inj t p y q z).
Qed.

(** Claiming a position to write. *)
Lemma inv_push_claim r log ph ts i sp v :
  inv r log ph ts -> ts !! i = Some (Push2 sp v (Z.of_nat (length log))) ->
  inv (set_enq r (Z.of_nat (length log) + 1)) (log ++ [v]) (upd ph (Z.of_nat (length log)) Writing)
    (<[i:=Push3 v (Z.of_nat (length log))]> ts).
Proof using Hk.
  intros H Hi. pose proof (n_bound K k Hk) as Hn. set (E := Z.of_nat (length log)) in *.
  destruct (i_knows _ _ _ _ H i _ Hi) as [_ Hrec]. specialize (Hrec eq_refl).
  pose proof (fun j u q z => busy_window r log ph ts j u q z H) as Hwin.
  assert (Z.of_nat (length (log ++ [v])) = E + 1) as EL by (rewrite length_app; cbn; lia).
  destruct H. constructor; rewrite ?EL; cbn [mask cells enqPos deqPos set_enq]; try (done || lia).
  - intros p Hp. rewrite upd_ne by lia. destruct (decide (p = E - n)) as [->|]; [done|]. apply i_old0. lia.
  - intros p Hp. destruct (decide (p = E)) as [->|]; [rewrite upd_eq; by left|].
    rewrite upd_ne by done. apply i_live0. lia.
  - intros p Hp. rewrite upd_ne by lia. by apply i_gone0.
  - intros p Hp. destruct (decide (p = E)) as [->|Hne].
    + destruct (i_cell0 (E - n) ltac:(lia)) as (u & Hc & _). exists u. rewrite upd_eq. split; [|done].
      replace (E mod n) with ((E - n) mod n) by (rewrite <- (Z_mod_plus_full (E - n) 1 n); f_equal; lia).
      rewrite Hc, Hrec. cbn [phase_seq]. do 2 f_equal. lia.
    + destruct (i_cell0 p ltac:(lia)) as (u & Hc & Hu). exists u. rewrite upd_ne by done.
      split; [done|]. intros Hf. specialize (Hu Hf). rewrite lookup_app_l; [done|]. by eapply lookup_lt_Some.
  - rewrite numbered_snoc, <- i_pushes0. by apply (omap_insert_new _ ts i _ _ _ Hi).
  - by rewrite (omap_insert_same _ ts i _ _ Hi).
  - intros j u. rewrite list_lookup_insert. case_decide as Hij.
    { intros [= <-]. cbn. by rewrite upd_eq. }
    intros Hj. apply (knows_frame r log ph); cbn [deqPos set_enq]; [by eapply i_knows0|by eexists|lia| | |].
    + intros p Hp Hr. by rewrite upd_ne by lia.
    + intros _ HD Hr. by rewrite upd_ne by lia.
    + intros p z Hb. destruct (Hwin j u p z Hj Hb) as (_ & Hp & _). split; [rewrite upd_ne by lia; done|done].
  - intros p x Hp Hx Hwr. destruct (decide (p = E)) as [->|Hne].
    + rewrite upd_eq in Hx. subst x. exists i, (Push3 v E).
      by rewrite list_lookup_insert_eq by (by eapply lookup_lt_Some).
    + rewrite upd_ne in Hx by done. destruct (i_busy0 p x ltac:(lia) Hx Hwr) as (j & u & Hj & Hu).
      exists j, u. rewrite list_lookup_insert_ne; [done|]. intros <-.
      assert (u = Push2 sp v E) as -> by congruence. destruct x; done.
Qed.

(** Claiming a position to read. *)
Lemma inv_pop_claim r log ph ts i :
  inv r log ph ts -> ts !! i = Some (Pop2 (deqPos r)) ->
  inv (set_deq r (deqPos r + 1)) log (upd ph (deqPos r) Reading) (<[i:=Pop3 (deqPos r)]> ts).
Proof using Hk.
  intros H Hi. pose proof (n_bound K k Hk) as Hn. set (D := deqPos r) in *.
  destruct (i_knows _ _ _ _ H i _ Hi) as [_ Hfull]. specialize (Hfull eq_refl) as [Hfull HDE].
  pose proof (fun j u q z => busy_window r log ph ts j u q z H) as Hwin.
  assert (Z.of_nat (length log) - n <= D) as HDn.
  { destruct (Z.le_gt_cases (Z.of_nat (length log) - n) D) as [|Hlt]; [done|].
    rewrite (i_old _ _ _ _ H D) in Hfull by lia. done. }
  destruct H. fold D in i_deq0, i_live0, i_gone0, i_pops0.
  constructor; cbn [mask cells enqPos deqPos set_deq]; try (done || lia).
  - intros p Hp. rewrite upd_ne by lia. by apply i_old0.
  - intros p Hp. rewrite upd_ne by lia. apply i_live0. lia.
  - intros p Hp. destruct (decide (p = D)) as [->|]; [rewrite upd_eq; by left|].
    rewrite upd_ne by done. apply i_gone0. lia.
  - intros p Hp. destruct (i_cell0 p Hp) as (u & Hc & Hu). exists u. destruct (decide (p = D)) as [->|Hne].
    + rewrite upd_eq. rewrite Hfull in Hc. done.
    + by rewrite upd_ne.
  - by rewrite (omap_insert_same _ ts i _ _ Hi).
  - pose proof (omap_insert_new pop_ticket ts i _ (Pop3 D) D Hi eq_refl eq_refl) as HP.
    rewrite HP, i_pops0.
    replace (Z.to_nat (D + 1)) with (S (Z.to_nat D)) by lia.
    rewrite seq_S, fmap_app. cbn. by replace (Z.of_nat (Z.to_nat D)) with D by lia.
  - intros j u. rewrite list_lookup_insert. case_decide as Hij.
    { intros [= <-]. cbn. rewrite upd_eq. split; [done|].
      destruct (i_cell0 D ltac:(lia)) as (v & Hc & Hv). exists v. split; [by eexists|by apply Hv]. }
    intros Hj. apply (knows_frame r log ph); cbn [deqPos set_deq]; [by eapply i_knows0|done|lia| | |].
    + intros p Hp Hr. rewrite upd_ne; [done|]. intros ->. congruence.
    + intros HD. lia.
    + intros p z Hb. destruct (Hwin j u p z Hj Hb) as (_ & Hp & Hz & Hwr). split; [|done].
      rewrite upd_ne; [done|]. intros ->. rewrite Hfull in Hz. subst z. by destruct (_ <=? _).
  - intros p x Hp Hx Hwr. destruct (decide (p = D)) as [->|Hne].
    + rewrite upd_eq in Hx. subst x. exists i, (Pop3 D).
      by rewrite list_lookup_insert_eq by (by eapply lookup_lt_Some).
    + rewrite upd_ne in Hx by done. destruct (i_busy0 p x ltac:(lia) Hx Hwr) as (j & u & Hj & Hu).
      exists j, u. rewrite list_lookup_insert_ne; [done|]. intros <-.
      assert (u = Pop2 D) as -> by congruence. destruct x; done.
Qed.

Lemma phase_seq_pos p pos ph E :
  E - n <= p < E -> p mod n = pos mod n -> 0 <= pos <= E -> phase_seq p ph = pos ->
  pos = E -> p = E - n /\ ph = Recycled.
Proof using Hk.
  intros Hp Hm Hpos Hs ->. pose proof (n_bound K k Hk) as Hn.
  assert (p = E - n) as ->.
  { apply (mod_window n); [lia| |lia]. rewrite Hm, <- (Z_mod_plus_full (E - n) 1 n). f_equal. lia. }
  destruct ph; cbn [phase_seq] in Hs; (lia || done).
Qed.

Lemma phase_seq_next p pos ph E :
  E - n <= p < E -> p mod n = pos mod n -> 0 <= pos <= E -> E - n <= pos ->
  phase_seq p ph = pos + 1 -> p = pos /\ (ph = Full \/ ph = Reading).
Proof using Hk.
  intros Hp Hm Hpos Hlo Hs. pose proof (n_bound K k Hk) as Hn.
  destruct ph; cbn [phase_seq] in Hs.
  - exfalso. assert (p mod n = (p - 1) mod n) as Hm' by (rewrite Hm; f_equal; lia).
    apply (mod_window n) in Hm'; lia.
  - split; [lia|by left].
  - split; [lia|by right].
  - exfalso. assert (pos = p + n - 1) as -> by lia.
    assert ((p - 1) mod n = p mod n) as Hm'.
    { rewrite Hm, <- (Z_mod_plus_full (p - 1) 1 n). f_equal. lia. }
    apply (mod_window n) in Hm'; lia.
Qed.

(** The window starts at or before the next position to read. *)
Lemma window_deq r log ph ts : inv r log ph ts -> Z.of_nat (length log) - n <= deqPos r.
Proof using Hk.
  intros H. pose proof (n_bound K k Hk). pose proof (i_deq _ _ _ _ H).
  destruct (Z.le_gt_cases (Z.of_nat (length log) - n) (deqPos r)) as [|Hlt]; [done|].
  pose proof (i_old _ _ _ _ H (deqPos r) ltac:(lia)).
  destruct (i_live _ _ _ _ H (deqPos r)) as [|]; [lia|congruence|congruence].
Qed.

Lemma inv_push_step r log ph ts i t r' t' :
  inv r log ph ts -> Z.of_nat (length ts) + n < 2 ^ (w - 1) -> ts !! i = Some t ->
  push_step K t r = Some (r', t') -> exists log' ph', inv r' log' ph' (<[i:=t']> ts).
Proof using Hk.
  intros H Hb Hi Hs. pose proof (n_bound K k Hk) as Hn. pose proof (i_deq _ _ _ _ H) as HD.
  pose proof (i_knows _ _ _ _ H i t Hi) as Hkn.
  destruct t as [sp v|sp v pos|sp v pos|v p|v p| | | | | | | | |]; cbn [push_step] in Hs; try done.
  - exists log, ph. assert (r' = r) as -> by (destruct sp as [[|?]|]; congruence).
    eapply inv_local; [done|done|..]; destruct sp as [[|?]|]; injection Hs as <-; try done;
      cbn [knows]; rewrite (i_enq _ _ _ _ H); lia.
  - exists log, ph. cbn [knows] in Hkn.
    destruct (load_cell r log ph ts pos H) as (p & u & Hp & Hm & Hc); [lia|].
    rewrite Hc in Hs. cbn [c_seq] in Hs. rewrite (load_diff r log ph ts p pos H Hb Hp) in Hs by lia.
    destruct (Z.eqb_spec (phase_seq p (ph p) - pos) 0) as [E0|E0].
    + injection Hs as <- <-. eapply inv_local; [done|done|done|done|done|]. cbn [knows].
      split; [done|]. intros HE.
      destruct (phase_seq_pos p pos (ph p) (Z.of_nat (length log)) Hp Hm ltac:(lia) ltac:(lia) HE) as [-> Hr].
      by rewrite HE.
    + assert (r' = r) as -> by (destruct (_ <? 0); congruence).
      eapply inv_local; [done|done|..]; destruct (_ <? 0); injection Hs as <-; done.
  - destruct (Z.eqb_spec (enqPos r) pos) as [HE|HE]; injection Hs as <- <-.
    + rewrite (i_enq _ _ _ _ H) in HE. subst pos.
      rewrite (claim_small r log ph ts H Hb) by lia. do 2 eexists. by eapply inv_push_claim.
    + exists log, ph. by eapply inv_local.
  - injection Hs as <- <-. destruct (busy_window _ _ _ _ i _ p Writing H Hi eq_refl) as (Hp0 & Hp & Hph & Hle).
    destruct (Z.leb_spec (deqPos r) p) as [HDp|]; [|done].
    exists log, (upd ph p Writing).
    eapply (inv_cell r log ph ts i _ _ p Writing); try done.
    + destruct (Z.leb_spec (deqPos r) p); [by left|lia].
    + cbn [knows]. rewrite upd_eq. split; [done|]. unfold val_at, on_cell. cbn [cells].
      rewrite (cell_index_mod r log ph ts p H Hp0), list_lookup_alter_eq.
      destruct (i_cell _ _ _ _ H p Hp) as (u & -> & _). cbn. by eexists.
  - injection Hs as <- <-. destruct (busy_window _ _ _ _ i _ p Writing H Hi eq_refl) as (Hp0 & Hp & Hph & Hle).
    destruct (Z.leb_spec (deqPos r) p) as [HDp|]; [|done]. destruct Hkn as [_ [s Hv]].
    exists log, (upd ph p Full).
    eapply (inv_cell r log ph ts i _ _ p Writing); try done.
    + destruct (Z.leb_spec (deqPos r) p); [by right|lia].
    + intros [?|?]; done.
    + intros u Hu. rewrite Hv in Hu. injection Hu as -> <-. cbn [c_seq c_val phase_seq].
      split; [apply (claim_small r log ph ts H Hb); lia|]. intros _.
      by apply (push_ticket_log r log ph ts i _ p v H Hi).
Qed.

Lemma inv_pop_step r log ph ts i t r' t' :
  inv r log ph ts -> Z.of_nat (length ts) + n < 2 ^ (w - 1) -> ts !! i = Some t ->
  pop_step K t r = Some (r', t') -> exists log' ph', inv r' log' ph' (<[i:=t']> ts).
Proof using Hk.
  intros H Hb Hi Hs. pose proof (n_bound K k Hk) as Hn. pose proof (i_deq _ _ _ _ H) as HD.
  pose proof (i_knows _ _ _ _ H i t Hi) as Hkn. pose proof (window_deq _ _ _ _ H) as HDn.
  destruct t as [| | | | | | |pos|pos|p|p v|p v| |]; cbn [pop_step] in Hs; try done.
  - exists log, ph. injection Hs as <- <-. eapply inv_local; try done. cbn [knows]. lia.
  - exists log, ph. cbn [knows] in Hkn.
    destruct (load_cell r log ph ts pos H) as (p & u & Hp & Hm & Hc); [lia|].
    rewrite Hc in Hs. cbn [c_seq] in Hs.
    rewrite (claim_small r log ph ts H Hb), (load_diff r log ph ts p (pos + 1) H Hb Hp) in Hs by lia.
    destruct (Z.eqb_spec (phase_seq p (ph p) - (pos + 1)) 0) as [E0|E0].
    + injection Hs as <- <-. eapply inv_local; [done|done|done|done|done|]. cbn [knows].
      split; [done|]. intros ->.
      destruct (phase_seq_next p (deqPos r) (ph p) (Z.of_nat (length log)) Hp Hm) as [-> Hr]; [lia|done|lia|].
      split; [|lia]. destruct (i_live _ _ _ _ H (deqPos r) ltac:(lia)), Hr; congruence.
    + assert (r' = r) as -> by (destruct (_ <? 0); congruence).
      eapply inv_local; [done|done|..]; destruct (_ <? 0); injection Hs as <-; done.
  - destruct (Z.eqb_spec (deqPos r) pos) as [HE|HE]; injection Hs as <- <-.
    + subst pos. rewrite (claim_small r log ph ts H Hb) by lia. do 2 eexists. by eapply inv_pop_claim.
    + exists log, ph. by eapply inv_local.
  - destruct (busy_window _ _ _ _ i _ p Reading H Hi eq_refl) as (Hp0 & Hp & Hph & Hle).
    destruct Hkn as [_ (v & [s Hv] & Hl)].
    rewrite (cell_index_mod r log ph ts p H Hp0), Hv in Hs. injection Hs as <- <-.
    exists log, ph. eapply inv_local; done.
  - injection Hs as <- <-. destruct (busy_window _ _ _ _ i _ p Reading H Hi eq_refl) as (Hp0 & Hp & Hph & Hle).
    destruct (Z.leb_spec (deqPos r) p) as [|HDp]; [done|]. destruct Hkn as [_ Hl].
    exists log, (upd ph p Reading). eapply (inv_cell r log ph ts i _ _ p Reading); try done.
    + destruct (Z.leb_spec (deqPos r) p); [lia|by left].
    + cbn [knows]. by rewrite upd_eq.
  - injection Hs as <- <-. destruct (busy_window _ _ _ _ i _ p Reading H Hi eq_refl) as (Hp0 & Hp & Hph & Hle).
    destruct (Z.leb_spec (deqPos r) p) as [|HDp]; [done|]. destruct Hkn as [_ Hl].
    exists log, (upd ph p Recycled). eapply (inv_cell r log ph ts i _ _ p Reading); try done.
    + destruct (Z.leb_spec (deqPos r) p); [lia|by right].
    + intros [?|?]; done.
    + intros u Hu. cbn [c_seq c_val phase_seq]. split; [|done]. rewrite (i_mask _ _ _ _ H).
      rewrite wrapu_add. replace (p + (n - 1) + 1) with (p + n) by lia.
      apply (claim_small r log ph ts H Hb). lia.
Qed.
End invariant.

Section reachable.
Context {A : Type} (K : kind A) (k : Z).
Hypothesis Hk : 1 <= k < width K.

Lemma omap_fresh {B} (f : gor A -> option B) ts :
  (forall t, fresh t -> f t = None) -> Forall fresh ts -> omap f ts = [].
Proof using.
  intros Hf. induction 1 as [|t ts Ht _ IH]; [done|]. by rewrite omap_step, (Hf t Ht).
Qed.

Lemma inv_init (zero : A) ts :
  Forall fresh ts -> inv k (new_ring (Z.to_nat (2 ^ k)) zero) [] (fun _ => Recycled) ts.
Proof using Hk.
  intros Hf. pose proof (n_bound K k Hk) as Hn.
  assert (forall i t, ts !! i = Some t -> fresh t) as Hfr by (intros; by eapply Forall_lookup_1).
  constructor; cbn [mask cells enqPos deqPos new_ring length]; try (done || lia).
  - unfold new_cells. rewrite length_fmap, length_seq. lia.
  - by right.
  - intros p Hp. exists zero. split; [|done]. cbn [phase_seq].
    replace (p mod 2 ^ k) with (p + 2 ^ k) by (apply (Z.mod_unique_pos p (2 ^ k) (-1)); lia).
    unfold new_cells. rewrite list_lookup_fmap, lookup_seq_lt by lia. cbn. do 2 f_equal. lia.
  - rewrite (omap_fresh _ ts); [done| |done]. by intros [].
  - rewrite (omap_fresh _ ts); [done| |done]. by intros [].
  - intros i t Hi. specialize (Hfr i t Hi). by destruct t.
  - intros p x _ <- [?|?]; done.
Qed.

Lemma rstep_length c c' : rstep K c c' -> length c'.2 = length c.2.
Proof using. intros [r ts i t r' t' _ _]. cbn. apply length_insert. Qed.

Lemma rsteps_length c c' : rtc (rstep K) c c' -> length c'.2 = length c.2.
Proof using. induction 1 as [|c c1 c' Hs _ IH]; [done|]. by rewrite IH, (rstep_length c c1). Qed.

Lemma inv_reachable (c c' : ring A * list (gor A)) :
  Z.of_nat (length c.2) + 2 ^ k < 2 ^ (width K - 1) ->
  rtc (rstep K) c c' -> (exists log ph, inv k c.1 log ph c.2) -> exists log ph, inv k c'.1 log ph c'.2.
Proof using Hk.
  intros Hb Hr. induction Hr as [c|c c1 c' Hstep _ IH]; [done|]. intros (log & ph & H).
  apply IH; [by rewrite (rstep_length _ _ Hstep)|].
  destruct Hstep as [r ts i t r' t' Hi Hs]. cbn [fst snd] in *. unfold gor_step in Hs.
  destruct (push_step K t r) as [x|] eqn:E.
  - injection Hs as ->. by eapply (inv_push_step K k Hk).
  - by eapply (inv_pop_step K k Hk).
Qed.

(** *** When every call has returned *)

Lemma quiet_phase (r : ring A) log ph ts p : inv k r log ph ts -> Forall returned ts ->
  p < Z.of_nat (length log) -> ph p = if p <? deqPos r then Recycled else Full.
Proof using.
  intros H Hret Hp.
  assert (forall x, x = Writing \/ x = Reading -> ph p <> x) as Hno.
  { intros x Hx Hph. destruct (i_busy _ _ _ _ _ H p x Hp Hph Hx) as (i & t & Hi & Hb).
    pose proof (Forall_lookup_1 _ _ _ _ Hret Hi). destruct x, t; done. }
  destruct (Z.ltb_spec p (deqPos r)).
  - destruct (i_gone _ _ _ _ _ H p) as [E|E]; [done| |done]. exfalso. by apply (Hno Reading); auto.
  - destruct (i_live _ _ _ _ _ H p) as [E|E]; [lia| |done]. exfalso. by apply (Hno Writing); auto.
Qed.

Lemma quiet_repr (r : ring A) log ph ts :
  inv k r log ph ts -> Forall returned ts -> Z.of_nat (length ts) + 2 ^ k < 2 ^ (width K - 1) ->
  ring_repr K k r (drop (Z.to_nat (deqPos r)) log).
Proof using Hk.
  intros H Hret Hb. pose proof (n_bound K k Hk) as Hn. pose proof (i_deq _ _ _ _ _ H) as HD.
  pose proof (claim_small K k Hk _ _ _ _ H Hb) as Hsm. pose proof (window_deq K k Hk _ _ _ _ H) as Hw.
  exists (deqPos r).
  assert (Z.of_nat (length (drop (Z.to_nat (deqPos r)) log)) = Z.of_nat (length log) - deqPos r) as EL
    by (rewrite length_drop; lia).
  assert (2 ^ (width K - 1) < 2 ^ width K) by (apply Z.pow_lt_mono_r; lia).
  constructor; rewrite ?EL.
  - apply H.
  - apply H.
  - rewrite Hsm by lia. rewrite (i_enq _ _ _ _ _ H). lia.
  - rewrite Hsm; lia.
  - lia.
  - intros p Hp. destruct (i_cell _ _ _ _ _ H p ltac:(lia)) as (v & Hc & Hv). exists v.
    rewrite (quiet_phase _ _ _ _ p H Hret) in Hc, Hv by lia. rewrite Hc.
    split.
    + do 2 f_equal. destruct (Z.ltb_spec p (deqPos r)); cbn [phase_seq]; rewrite Hsm; lia.
    + intros HDp. destruct (Z.ltb_spec p (deqPos r)); [lia|]. rewrite lookup_drop.
      replace (Z.to_nat (deqPos r) + Z.to_nat (p - deqPos r))%nat with (Z.to_nat p) by lia. by apply Hv.
Qed.

Lemma quiet_pushed (ts : list (gor A)) : Forall returned ts -> omap pushed_item ts = snd <$> omap push_ticket ts.
Proof using.
  induction 1 as [|t ts Ht _ IH]; [done|]. rewrite !omap_step.
  destruct t as [| | | | |v [p|]| | | | | | | |]; try done. cbn. by rewrite IH.
Qed.

(** The item at a position of the history. *)
Definition item_at (log : list A) (p : Z) : option (Z * A) := pair p <$> log !! Z.to_nat p.

Lemma quiet_popped log (ts : list (gor A)) : Forall returned ts ->
  (forall i p v, ts !! i = Some (PopRet (Some (p, v))) -> log !! Z.to_nat p = Some v) ->
  omap popped_item ts = omap (item_at log) (omap pop_ticket ts).
Proof using.
  induction 1 as [|t ts Ht _ IH]; intros Hl; [done|]. rewrite (omap_step popped_item), (omap_step pop_ticket).
  rewrite IH by (intros i p v; apply (Hl (S i))).
  destruct t as [| | | | | | | | | | | |[[p v]|]|]; try done. cbn [popped_item pop_ticket].
  rewrite omap_step. unfold item_at at 2. by rewrite (Hl 0%nat p v eq_refl).
Qed.

Lemma items_of_positions (log : list A) m : (m <= length log)%nat ->
  omap (item_at log) (Z.of_nat <$> seq 0 m) = take m (numbered log).
Proof using.
  induction m as [|m IH]; intros Hm; [done|]. rewrite seq_S, fmap_app, omap_app, IH by lia. cbn [Nat.add].
  destruct (lookup_lt_is_Some_2 log m ltac:(lia)) as [v Hv].
  rewrite (take_S_r (numbered log) m (Z.of_nat m, v)).
  - cbn. unfold item_at. by rewrite Nat2Z.id, Hv.
  - unfold numbered. by rewrite list_lookup_imap, Hv.
Qed.
End reachable.

(** C8: The rings under contention.  Let any number of push and pop calls run
    on a new ring, interleaved one memory operation at a time, fewer calls
    than a position can count.  No call indexes out of range, and there is one
    history of items such that every push that returned true put its item at
    a position of its own, and every pop that returned an item got the one the
    history has at a position of its own below the read position.  Once every
    call has returned, the items pushed are exactly the history, the items
    popped are its oldest ones, each popped once, and the ring holds the rest
    in order. *)
Theorem ring_linearizable {A : Type} (K : kind A) (k : Z) (zero : A) (ts0 ts : list (gor A)) (r : ring A) :
  1 <= k < width K -> Forall fresh ts0 -> Z.of_nat (length ts0) + 2 ^ k < 2 ^ (width K - 1) ->
  rtc (rstep K) (new_ring (Z.to_nat (2 ^ k)) zero, ts0) (r, ts) ->
  (Crashed ∉ ts) /\
  exists log : list A,
    0 <= deqPos r <= enqPos r /\ enqPos r <= deqPos r + 2 ^ k /\ enqPos r = Z.of_nat (length log) /\
    (forall i v p, ts !! i = Some (PushRet v (Some p)) ->
       0 <= p < enqPos r /\ log !! Z.to_nat p = Some v) /\
    (forall i p v, ts !! i = Some (PopRet (Some (p, v))) ->
       0 <= p < deqPos r /\ log !! Z.to_nat p = Some v) /\
    (Forall returned ts ->
       omap pushed_item ts ≡ₚ log /\
       omap popped_item ts ≡ₚ take (Z.to_nat (deqPos r)) (numbered log) /\
       ring_repr K k r (drop (Z.to_nat (deqPos r)) log)).
Proof.
  intros Hk Hf Hb Hr.
  destruct (inv_reachable K k Hk (new_ring (Z.to_nat (2 ^ k)) zero, ts0) (r, ts) Hb Hr) as (log & ph & H).
  { do 2 eexists. by apply (inv_init K k Hk). }
  pose proof (rsteps_length K _ _ Hr) as Elen.
  cbn [fst snd] in *. pose proof (i_enq _ _ _ _ _ H) as HE. pose proof (i_deq _ _ _ _ _ H) as HD.
  assert (forall i p v, ts !! i = Some (PopRet (Some (p, v))) -> log !! Z.to_nat p = Some v) as Hpop
    by (intros i p v Hi; apply (i_knows _ _ _ _ _ H i _ Hi)).
  split.
  { intros Hin. apply list_elem_of_lookup_1 in Hin as [i Hi]. apply (i_knows _ _ _ _ _ H i _ Hi). }
  exists log. rewrite HE. pose proof (window_deq K k Hk _ _ _ _ H).
  split; [lia|]. split; [lia|]. split; [done|]. split; [|split].
  - intros i v p Hi. by apply (push_ticket_log k r log ph ts i _ p v H Hi).
  - intros i p v Hi. split; [by apply (pop_ticket_range k r log ph ts i _ p H Hi)|by apply (Hpop i)].
  - intros Hret. split; [|split].
    + rewrite (quiet_pushed ts Hret), (i_pushes _ _ _ _ _ H). by rewrite numbered_items.
    + rewrite (quiet_popped log ts Hret Hpop), (i_pops _ _ _ _ _ H).
      rewrite items_of_positions by lia. done.
    + apply (quiet_repr K k Hk r log ph ts H Hret). lia.
Qed.

(** Two pushes race for the first position while a pop waits between them. *)
Definition race : ring Z * list (gor Z) :=
  foldl (sched Ingest.ingest_kind) (new_ring (Z.to_nat (2 ^ 1)) 0, [Push0 None 7; Pop0; Push0 None 8])
    [0; 2; 0; 2; 2; 0; 2; 2; 1; 1; 1; 1; 1; 1; 0; 0; 0; 0; 0]%nat.

Lemma ring_linearizable_witness :
  race.2 = [PushRet 7 (Some 1); PopRet (Some (0, 8)); PushRet 8 (Some 0)] /\
  exists log : list Z, omap pushed_item race.2 ≡ₚ log /\ ring_repr Ingest.ingest_kind 1 race.1 (drop 1 log).
Proof.
  assert (race.2 = [PushRet 7 (Some 1); PopRet (Some (0, 8)); PushRet 8 (Some 0)]) as Hrace
    by (vm_compute; reflexivity).
  assert (race.1 = mkRing 2 1 1 [mkCell 2 8; mkCell 2 7]) as Hring by (vm_compute; reflexivity).
  split; [done|].
  assert (rtc (rstep Ingest.ingest_kind)
            (new_ring (Z.to_nat (2 ^ 1)) 0, [Push0 None 7; Pop0; Push0 None 8]) (race.1, race.2)) as Hr
    by (rewrite <- surjective_pairing; unfold race; apply sched_rtc).
  destruct (ring_linearizable Ingest.ingest_kind 1 0 [Push0 None 7; Pop0; Push0 None 8] race.2 race.1)
    as (_ & log & _ & _ & _ & _ & _ & Hq).
  - cbn. lia.
  - repeat constructor.
  - cbn. lia.
  - exact Hr.
  - destruct Hq as (Hpush & _ & Hrest); [rewrite Hrace; repeat constructor|].
    rewrite Hring in Hrest at 2. exists log. split; [exact Hpush|exact Hrest].
Defined.
