(* ===== verification/Scheduler.v ===== *)
(** * The task scheduler (internal/scheduler)

    Schedules live in a store; a loader arms those due soon in a timing wheel
    of 3600 one-second slots, each a lock-free ring; the ticker drains the slot
    of the current second into the dispatch ring, from which workers take
    events and run their flows.  The model is of the in-process store.

    Times are nanoseconds since the epoch.  The cron expression parser is a
    third-party package and a parameter: [cron_next expr t] is [None] when
    [expr] does not parse and otherwise the next fire time after [t].  The flow
    runner is injected by the caller and may be missing ([has_runner]):
    [results] lists its answers, [true] a nil error. *)

From S2P Require Import Prelude Ring.

Local Open Scope Z_scope.
Local Open Scope rah_scope.

(** ** types.go *)

Record Schedule : Type := mkSchedule {
  s_Name : string;
  s_Cron : string;
  s_FlowName : string;
  s_TenantAlias : string;
  s_Enabled : bool;
  s_TimeoutSec : Z;
  s_Constants : option (gmap string string);
  s_NextRunAt : Z;
  s_LastRunAt : Z;
  s_LastStatus : string;
  s_RetryCount : Z;
  s_RetryIntervalSec : Z;
  s_DeadLetterFlow : string
}.

Definition set_run (s : Schedule) (next last : Z) (status : string) : Schedule :=
  mkSchedule (s_Name s) (s_Cron s) (s_FlowName s) (s_TenantAlias s) (s_Enabled s) (s_TimeoutSec s)
    (s_Constants s) next last status (s_RetryCount s) (s_RetryIntervalSec s) (s_DeadLetterFlow s).

Record ScheduledEvent : Type := mkEvent {
  e_Name : string;
  e_FlowName : string;
  e_TenantAlias : string;
  e_TimeoutSec : Z;
  e_Constants : option (gmap string string);
  e_ScheduledAt : Z;
  e_Cron : string;
  e_Epoch : Z;
  e_RetryCount : Z;
  e_RetryIntervalSec : Z;
  e_DeadLetterFlow : string
}.

Inductive ClaimResult : Type := ClaimUnset | ClaimWon | ClaimLost | ClaimError.

Record ExecutionRecord : Type := mkRec {
  r_Name : string;
  r_StartedAt : Z;
  r_FinishedAt : Z;
  r_Status : string;
  r_Error : string
}.

(** [t.Unix()] *)
Definition Unix (t : Z) : Z := t / time_Second.

(** ** wheel.go *)

Definition wheelSlotCap : Z := 64.
Definition maxScheduleSpins : nat := Z.to_nat 10000.

(** A cell's payload: the epoch and the event pointer. *)
Definition wheel_kind : kind (Z * option ScheduledEvent) :=
  mkKind 32 (Some maxScheduleSpins) (fun c => (c.1, None)).

Abbreviation wheelSlot := (ring (Z * option ScheduledEvent)).

Record SchedulerWheel : Type := mkWheel {
  w_slots : list wheelSlot;
  w_dispatch : Dispatch.DispatchRing ScheduledEvent
}.

Definition NewSchedulerWheel (dispatch : Dispatch.DispatchRing ScheduledEvent) : SchedulerWheel :=
  mkWheel (replicate (Z.to_nat 3600) (new_ring (Z.to_nat wheelSlotCap) (0, None))) dispatch.

Definition slot_of (unix : Z) : nat := Z.to_nat (u32 unix mod 3600).

Definition wheel_Schedule (w : SchedulerWheel) (event : ScheduledEvent) : outcome (SchedulerWheel * bool) :=
  let i := slot_of (Unix (e_ScheduledAt event)) in
  match w_slots w !! i with
  | None => Panic
  | Some slot =>
    rb <-- push_alone wheel_kind (e_Epoch event, Some event) slot ;;
    Ret (mkWheel (<[i:=rb.1]> (w_slots w)) (w_dispatch w), rb.2)
  end.

(** One round of [tick]'s loop: the event taken from the slot, if any. *)
Definition tick_take (slot : wheelSlot) : outcome (wheelSlot * option (option ScheduledEvent)) :=
  let pos := deqPos slot in
  match cells slot !! cell_index slot pos with
  | None => Panic
  | Some c =>
    let diff := seq_diff wheel_kind (c_seq c) (u32 (pos + 1)) in
    if diff =? 0 then
      let ev := (c_val c).2 in
      let slot := on_cell slot pos (fun c => mkCell (c_seq c) ((c_val c).1, None)) in
      let slot := set_deq slot (u32 (pos + 1)) in
      let slot := on_cell slot pos (fun c => mkCell (u32 (pos + wheelSlotCap)) (c_val c)) in
      Ret (slot, Some ev)
    else if diff <? 0 then Ret (slot, None)
    else Fuel
  end.

(** The events that were taken but not dispatched go back to the event pool. *)
Fixpoint tick_loop (fuel : nat) (slot : wheelSlot) (dispatch : Dispatch.DispatchRing ScheduledEvent)
    (currentEpoch : Z) (dropped : list ScheduledEvent)
  : outcome (wheelSlot * Dispatch.DispatchRing ScheduledEvent * list ScheduledEvent) :=
  match fuel with
  | O => Fuel
  | S fuel' =>
    se <-- tick_take slot ;;
    match se.2 with
    | None => Ret (se.1, dispatch, dropped)
    | Some None => Panic
    | Some (Some ev) =>
      if e_Epoch ev =? currentEpoch then
        db <-- Dispatch.DispatchTryPush ev dispatch ;;
        tick_loop fuel' se.1 db.1 currentEpoch (if db.2 then dropped else dropped ++ [ev])
      else tick_loop fuel' se.1 dispatch currentEpoch (dropped ++ [ev])
    end
  end.

Definition wheel_tick (w : SchedulerWheel) (slotIdx : nat) (now : Z)
  : outcome (SchedulerWheel * list ScheduledEvent) :=
  match w_slots w !! slotIdx with
  | None => Panic
  | Some slot =>
    let currentEpoch := u32 (Unix now ÷ 3600) in
    sd <-- tick_loop (S (Z.to_nat wheelSlotCap)) slot (w_dispatch w) currentEpoch [] ;;
    Ret (mkWheel (<[slotIdx:=sd.1.1]> (w_slots w)) sd.1.2, sd.2)
  end.

(** [tickLoop] on one tick of its ticker. *)
Definition tick_at (w : SchedulerWheel) (t now : Z) : outcome (SchedulerWheel * list ScheduledEvent) :=
  wheel_tick w (slot_of (Unix t)) now.

(** ** store.go: the in-process store *)

Record MemoryStore : Type := mkStore {
  schedules : gmap string Schedule;
  history : gmap string (list ExecutionRecord)
}.

Definition NewMemoryStore : MemoryStore := mkStore ∅ ∅.

(** A call of the injected runner: flow, tenant, constants, timeout. *)
Abbreviation runner_call := (string * string * option (gmap string string) * Z)%type.

Section scheduler.
Context (cron_next : string -> Z -> option Z) (has_runner : bool).

(** An error is its message; [inr] carries the schedule with its next run. *)
Definition Upsert (ms : MemoryStore) (s : Schedule) (now : Z) : string + MemoryStore * Schedule :=
  if bool_decide (s_Cron s = "") then inl "cron expression required"
  else
    match cron_next (s_Cron s) now with
    | None => inl "invalid cron expression"
    | Some next =>
      let s := set_run s next (s_LastRunAt s) (s_LastStatus s) in
      inr (mkStore (<[s_Name s:=s]> (schedules ms))
             (match history ms !! s_Name s with
              | Some _ => history ms
              | None => <[s_Name s:=[]]> (history ms)
              end), s)
    end.

Definition Delete (ms : MemoryStore) (name : string) : MemoryStore :=
  mkStore (delete name (schedules ms)) (delete name (history ms)).

Definition due (s : Schedule) (now windowSec : Z) : bool :=
  s_Enabled s && (now <=? s_NextRunAt s) && (s_NextRunAt s <? now + windowSec * time_Second).

Definition event_of (s : Schedule) : ScheduledEvent :=
  mkEvent (s_Name s) (s_FlowName s) (s_TenantAlias s) (s_TimeoutSec s) (s_Constants s) (s_NextRunAt s)
    (s_Cron s) 0 (s_RetryCount s) (s_RetryIntervalSec s) (s_DeadLetterFlow s).

(** The map is iterated in an order the language leaves open: [order]. *)
Definition ListDueWithin (ms : MemoryStore) (order : list string) (windowSec now : Z) : list ScheduledEvent :=
  omap (fun name => s ← schedules ms !! name; if due s now windowSec then Some (event_of s) else None) order.

Definition Claim (ms : MemoryStore) (name : string) : ClaimResult :=
  match schedules ms !! name with None => ClaimLost | Some _ => ClaimWon end.

Definition RecordExecution (ms : MemoryStore) (rec : ExecutionRecord) (nextRun : Z) : string + MemoryStore :=
  match schedules ms !! r_Name rec with
  | None => inl ("schedule not found: " +:+ r_Name rec)
  | Some s =>
    let h := default [] (history ms !! r_Name rec) ++ [rec] in
    let h := if (100 <? length h)%nat then tail h else h in
    inr (mkStore (<[r_Name rec:=set_run s nextRun (r_FinishedAt rec) (r_Status rec)]> (schedules ms))
           (<[r_Name rec:=h]> (history ms)))
  end.

Definition ListHistory (ms : MemoryStore) (name : string) (limit : Z) : list ExecutionRecord :=
  match history ms !! name with
  | None => []
  | Some h =>
    let limit := if limit <=? 0 then 100 else limit in
    let limit := if Z.of_nat (length h) <? limit then Z.of_nat (length h) else limit in
    drop (Z.to_nat (Z.of_nat (length h) - limit)) h
  end.

(** ** loader.go and scheduler.go *)

Record Scheduler : Type := mkSched {
  sc_store : MemoryStore;
  sc_wheel : SchedulerWheel;
  sc_armed : gmap string Z;
  sc_cancelled : gmap string Z;
  lookaheadSec : Z
}.

Definition set_wheel (s : Scheduler) (w : SchedulerWheel) : Scheduler :=
  mkSched (sc_store s) w (sc_armed s) (sc_cancelled s) (lookaheadSec s).
Definition set_armed (s : Scheduler) (a : gmap string Z) : Scheduler :=
  mkSched (sc_store s) (sc_wheel s) a (sc_cancelled s) (lookaheadSec s).
Definition set_store (s : Scheduler) (ms : MemoryStore) : Scheduler :=
  mkSched ms (sc_wheel s) (sc_armed s) (sc_cancelled s) (lookaheadSec s).
Definition set_cancelled (s : Scheduler) (c : gmap string Z) : Scheduler :=
  mkSched (sc_store s) (sc_wheel s) (sc_armed s) c (lookaheadSec s).

Definition New (lookahead : Z) : outcome Scheduler :=
  let lookahead := if lookahead <=? 0 then 3600 else lookahead in
  dispatch <-- Dispatch.NewDispatchRing 512 ;;
  Ret (mkSched NewMemoryStore (NewSchedulerWheel dispatch) ∅ ∅ lookahead).

(** The copy of an event that is put into the wheel. *)
Definition pooled (ev : ScheduledEvent) : ScheduledEvent :=
  mkEvent (e_Name ev) (e_FlowName ev) (e_TenantAlias ev) (e_TimeoutSec ev) (e_Constants ev)
    (e_ScheduledAt ev) (e_Cron ev) (u32 (Unix (e_ScheduledAt ev) ÷ 3600)) (e_RetryCount ev)
    (e_RetryIntervalSec ev) (e_DeadLetterFlow ev).

Definition load_event (s : Scheduler) (ev : ScheduledEvent) : outcome Scheduler :=
  let scheduledUnix := Unix (e_ScheduledAt ev) in
  if bool_decide (sc_armed s !! e_Name ev = Some scheduledUnix) then Ret s
  else
    wb <-- wheel_Schedule (sc_wheel s) (pooled ev) ;;
    let s := set_wheel s wb.1 in
    Ret (set_armed s (if wb.2 then <[e_Name ev:=scheduledUnix]> (sc_armed s)
                      else delete (e_Name ev) (sc_armed s))).

Fixpoint load_events (s : Scheduler) (evs : list ScheduledEvent) : outcome Scheduler :=
  match evs with
  | [] => Ret s
  | ev :: evs => s <-- load_event s ev ;; load_events s evs
  end.

Definition LoadUpcoming (s : Scheduler) (order : list string) (now : Z) : outcome Scheduler :=
  load_events s (ListDueWithin (sc_store s) order (lookaheadSec s) now).

(** [now] is the clock when the store computes the next run, [now'] when the
    lookahead is checked. *)
Definition UpsertSchedule (s : Scheduler) (sc : Schedule) (now now' : Z) : outcome (Scheduler * option string) :=
  if bool_decide (s_Name sc = "") then Ret (s, Some "schedule name required")
  else if bool_decide (s_Cron sc = "") then Ret (s, Some "cron expression required")
  else if bool_decide (s_FlowName sc = "") then Ret (s, Some "flow name required")
  else
    match Upsert (sc_store s) sc now with
    | inl err => Ret (s, Some err)
    | inr (ms, sc) =>
      let s := set_store s ms in
      if due sc now' (lookaheadSec s) then
        wb <-- wheel_Schedule (sc_wheel s) (pooled (event_of sc)) ;; Ret (set_wheel s wb.1, None)
      else Ret (s, None)
    end.

Definition DeleteSchedule (s : Scheduler) (name : string) (now : Z) : Scheduler :=
  let s := set_cancelled s (<[name:=now + (lookaheadSec s + 60) * time_Second]> (sc_cancelled s)) in
  set_store s (Delete (sc_store s) name).

(** ** executor.go *)

Definition flow_call (ev : ScheduledEvent) (flow : string) : runner_call :=
  (flow, e_TenantAlias ev, e_Constants ev, e_TimeoutSec ev).

(** The attempts of [runWithRetry] from number [i] on: [None] a nil error.
    [expired i] tells whether the flow's context ends during the wait before
    attempt [i]; an exhausted [results] counts as success. *)
Fixpoint retry_loop (n : nat) (i : Z) (ev : ScheduledEvent) (expired : Z -> bool) (results : list bool)
    (lastErr : option string) : option string * list runner_call * list bool :=
  match n with
  | O => (lastErr, [], results)
  | S n' =>
    if (0 <? i) && (0 <? e_RetryIntervalSec ev) && expired i then (Some "context deadline exceeded", [], results)
    else
      let ok := default true (head results) in
      if ok then (None, [flow_call ev (e_FlowName ev)], tail results)
      else
        let '(err, calls, rest) := retry_loop n' (i + 1) ev expired (tail results) (Some "runner failed") in
        (err, flow_call ev (e_FlowName ev) :: calls, rest)
  end.

Definition runWithRetry (ev : ScheduledEvent) (expired : Z -> bool) (results : list bool)
  : option string * list runner_call * list bool :=
  if negb has_runner then (Some "no runner configured for scheduler", [], results)
  else retry_loop (Z.to_nat (e_RetryCount ev + 1)) 0 ev expired results None.

(** What [handle] reads from the clock: before the claim, and at the start and
    the end of the run. *)
Record clock : Type := mkClock { at_check : Z; at_start : Z; at_finish : Z }.

Definition next_run (ev : ScheduledEvent) (finishedAt : Z) : Z :=
  let fallback := finishedAt + 60 * time_Second in
  if bool_decide (e_Cron ev = "") then fallback
  else default fallback (cron_next (e_Cron ev) finishedAt).

Definition handle (s : Scheduler) (ev : ScheduledEvent) (c : clock) (expired : Z -> bool) (results : list bool)
  : Scheduler * list runner_call :=
  let cancelled := sc_cancelled s !! e_Name ev in
  let s := match cancelled with
           | Some _ => set_cancelled s (delete (e_Name ev) (sc_cancelled s))
           | None => s
           end in
  if match cancelled with Some exp => at_check c <? exp | None => false end then (s, [])
  else
    match Claim (sc_store s) (e_Name ev) with
    | ClaimWon =>
      let '(execErr, calls, rest) := runWithRetry ev expired results in
      let nextRun := next_run ev (at_finish c) in
      let status := match execErr with None => "ok" | Some _ => "failed" end in
      let dead := match execErr with
                  | Some _ => if bool_decide (e_DeadLetterFlow ev = "") || negb has_runner then []
                              else [flow_call ev (e_DeadLetterFlow ev)]
                  | None => []
                  end in
      let rec := mkRec (e_Name ev) (at_start c) (at_finish c) status (default "" execErr) in
      (match RecordExecution (sc_store s) rec nextRun with
       | inl _ => s
       | inr ms => set_store s ms
       end, calls ++ dead)
    | _ => (s, [])
    end.

(** One round of a worker: take an event, if there is one, and handle it. *)
Definition worker (s : Scheduler) (c : clock) (expired : Z -> bool) (results : list bool)
  : outcome (Scheduler * option (list runner_call)) :=
  de <-- Dispatch.DispatchTryPop (w_dispatch (sc_wheel s)) ;;
  let s := set_wheel s (mkWheel (w_slots (sc_wheel s)) de.1) in
  match de.2 with
  | None => Ret (s, None)
  | Some ev => let '(s, calls) := handle s ev c expired results in Ret (s, Some calls)
  end.

(** One tick of the ticker, at its time [t], with the clock read at [now]. *)
Definition ticker (s : Scheduler) (t now : Z) : outcome Scheduler :=
  wd <-- tick_at (sc_wheel s) t now ;; Ret (set_wheel s wd.1).
End scheduler.
