(* ===== verification/SchedulerSpec.v ===== *)
(** * The task scheduler: specifications

    The wheel refines an abstract wheel of 3600 lists and a dispatch list; an
    event armed less than an hour ahead is dispatched by the tick of its second
    and by no earlier one, and a worker then runs its flow.  Three consequences
    of the way events are armed that the code does not intend are at the end. *)

From S2P Require Import Prelude Ring RingSpec Scheduler.

Local Open Scope Z_scope.
Local Open Scope rah_scope.

(** ** The wheel *)

Definition payload (ev : ScheduledEvent) : Z * option ScheduledEvent := (e_Epoch ev, Some ev).

Definition slot_repr (slot : wheelSlot) (q : list ScheduledEvent) : Prop :=
  ring_repr wheel_kind 6 slot (payload <$> q).

Lemma wheel_kind_ok : 1 <= 6 < width wheel_kind.
Proof. cbn. lia. Qed.

Lemma wheel_spins : spin_limit wheel_kind <> Some O.
Proof. cbn. unfold maxScheduleSpins. by intros [=]. Qed.

Lemma tick_take_ok slot q ev : slot_repr slot (ev :: q) ->
  exists slot', tick_take slot = Ret (slot', Some (Some ev)) /\ slot_repr slot' q.
Proof.
  intros [D H]. destruct (cell_deq _ 6 wheel_kind_ok _ _ _ H) as (v & Hc & Hv).
  specialize (Hv (payload ev) eq_refl) as <-.
  unfold tick_take. rewrite (h_deq _ _ _ _ _ H). cbn [fmap list_fmap] in Hc. rewrite Hc. cbn [c_seq c_val].
  change 32 with (width wheel_kind). rewrite wrapu_add, seq_diff_wrap, (diff_zero _ 6 wheel_kind_ok).
  cbn [Z.eqb payload snd]. eexists. split; [done|]. exists (D + 1).
  change (set_deq (on_cell slot ?p ?f) ?d) with (on_cell (set_deq slot d) p f).
  rewrite on_cell_twice, wrapu_add. cbn [c_val].
  rewrite (on_cell_ext (set_deq slot _) _ (fun c => mkCell _ ((c_val c).1, None))
             (fun _ => mkCell (wrapu (width wheel_kind) (D + 2 ^ 6)) (e_Epoch ev, None)) _ Hc eq_refl).
  apply (pop_holds wheel_kind 6 wheel_kind_ok slot D (payload ev) (payload <$> q) _ H).
Qed.

Lemma tick_take_empty slot : slot_repr slot [] -> tick_take slot = Ret (slot, None).
Proof.
  intros [D H]. destruct (cell_deq _ 6 wheel_kind_ok _ _ _ H) as (v & Hc & _).
  unfold tick_take. rewrite (h_deq _ _ _ _ _ H). cbn [fmap list_fmap] in Hc. rewrite Hc. cbn [c_seq c_val].
  change 32 with (width wheel_kind). rewrite wrapu_add, seq_diff_wrap.
  destruct (diff_neg wheel_kind 6 wheel_kind_ok D (D + 1)) as [Hneg Hnz]; [cbn; lia|]. by rewrite Hnz, Hneg.
Qed.

(** The slots and the dispatch ring as bounded queues. *)
#[local] Instance dispatch_512 : BoundedQueue (Dispatch.DispatchRing ScheduledEvent) ScheduledEvent :=
  dispatch_queue 9 ltac:(lia).

Definition slot_push (ev : ScheduledEvent) (slot : wheelSlot) : outcome (wheelSlot * bool) :=
  push_alone wheel_kind (payload ev) slot.

Definition slot_pop (slot : wheelSlot) : outcome (wheelSlot * option ScheduledEvent) :=
  se <-- tick_take slot ;; Ret (se.1, mjoin se.2).

#[local] Instance slot_queue : BoundedQueue wheelSlot ScheduledEvent.
Proof.
  pose (ring_queue wheel_kind 6 wheel_kind_ok wheel_spins) as RQ.
  refine {| bq_cap := Z.to_nat 64; bq_repr := slot_repr; bq_push := slot_push; bq_pop := slot_pop |}.
  - intros r q H. pose proof (bq_repr_cap (BoundedQueue:=RQ) _ _ H) as Hc. by rewrite length_fmap in Hc.
  - intros r q a H Hlt.
    destruct (bq_push_ok (BoundedQueue:=RQ) _ _ (payload a) H) as (r' & E & H'); [by rewrite length_fmap|].
    exists r'. split; [done|]. unfold slot_repr. by rewrite fmap_app.
  - intros r q a H Hlt.
    destruct (bq_push_full (BoundedQueue:=RQ) _ _ (payload a) H) as (r' & E & H'); [by rewrite length_fmap|].
    by exists r'.
  - intros r q a H. unfold slot_pop. destruct (tick_take_ok r q a H) as (r' & -> & H'). by exists r'.
  - intros r H. exists r. unfold slot_pop. by rewrite tick_take_empty.
Defined.

(** What a tick does to the dispatch list and the list of dropped events. *)
Fixpoint drain (ep : Z) (q l dropped : list ScheduledEvent) : list ScheduledEvent * list ScheduledEvent :=
  match q with
  | [] => (l, dropped)
  | ev :: q =>
    if e_Epoch ev =? ep then
      if (length l <? Z.to_nat 512)%nat then drain ep q (l ++ [ev]) dropped else drain ep q l (dropped ++ [ev])
    else drain ep q l (dropped ++ [ev])
  end.

Lemma tick_loop_spec q fuel slot d l ep dropped :
  slot_repr slot q -> bq_repr d l -> (length q < fuel)%nat ->
  exists slot' d', tick_loop fuel slot d ep dropped = Ret (slot', d', (drain ep q l dropped).2) /\
    slot_repr slot' [] /\ bq_repr d' (drain ep q l dropped).1.
Proof.
  revert fuel slot d l dropped. induction q as [|ev q IH]; intros fuel slot d l dropped Hs Hd Hf;
    (destruct fuel as [|fuel]; [cbn in Hf; lia|]); cbn [tick_loop].
  - rewrite (tick_take_empty slot Hs). cbn. by exists slot, d.
  - destruct (tick_take_ok slot q ev Hs) as (slot' & -> & Hs'). cbn [obind fst snd drain].
    cbn [length] in Hf. destruct (e_Epoch ev =? ep); [|apply IH; (done || lia)].
    pose proof (bq_repr_cap d l Hd) as Hcap. change bq_cap with (Z.to_nat 512) in Hcap.
    destruct (Nat.ltb_spec (length l) (Z.to_nat 512)) as [Hlt|Hge].
    + destruct (bq_push_ok d l ev Hd Hlt) as (d' & E & Hd'). cbn [bq_push dispatch_512 dispatch_queue] in E.
      rewrite E. cbn [obind fst snd]. apply IH; (done || lia).
    + destruct (bq_push_full d l ev Hd) as (d' & E & Hd'); [change bq_cap with (Z.to_nat 512); lia|].
      cbn [bq_push dispatch_512 dispatch_queue] in E. rewrite E. cbn [obind fst snd]. apply IH; (done || lia).
Qed.

(** ** The abstract wheel *)

Record wheel_repr (w : SchedulerWheel) (slots : list (list ScheduledEvent)) (l : list ScheduledEvent) : Prop := {
  wr_slots : Forall2 slot_repr (w_slots w) slots;
  wr_len : length slots = Z.to_nat 3600;
  wr_dispatch : bq_repr (w_dispatch w) l
}.

Inductive wop : Type := WArm (ev : ScheduledEvent) | WTick (t now : Z) | WPop.
Inductive wans : Type := AArm (ok : bool) | ATick (dropped : list ScheduledEvent) | APop (ev : option ScheduledEvent).

Definition wheel_step (o : wop) (w : SchedulerWheel) : outcome (SchedulerWheel * wans) :=
  match o with
  | WArm ev => wb <-- wheel_Schedule w ev ;; Ret (wb.1, AArm wb.2)
  | WTick t now => wd <-- tick_at w t now ;; Ret (wd.1, ATick wd.2)
  | WPop => de <-- Dispatch.DispatchTryPop (w_dispatch w) ;; Ret (mkWheel (w_slots w) de.1, APop de.2)
  end.

Definition abs_step (o : wop) (a : list (list ScheduledEvent) * list ScheduledEvent)
  : outcome (list (list ScheduledEvent) * list ScheduledEvent * wans) :=
  let '(slots, l) := a in
  match o with
  | WArm ev =>
    let i := slot_of (Unix (e_ScheduledAt ev)) in
    let q := default [] (slots !! i) in
    Ret (if (length q <? Z.to_nat 64)%nat then (<[i:=q ++ [ev]]> slots, l, AArm true) else (slots, l, AArm false))
  | WTick t now =>
    let i := slot_of (Unix t) in
    let '(l', dropped) := drain (u32 (Unix now ÷ 3600)) (default [] (slots !! i)) l [] in
    Ret (<[i:=[]]> slots, l', ATick dropped)
  | WPop => Ret (slots, tail l, APop (head l))
  end.

Lemma slot_of_lt unix : (slot_of unix < Z.to_nat 3600)%nat.
Proof. unfold slot_of. pose proof (Z.mod_pos_bound (u32 unix) 3600). lia. Qed.

Lemma wheel_slot w slots l unix : wheel_repr w slots l ->
  exists slot q, w_slots w !! slot_of unix = Some slot /\ slots !! slot_of unix = Some q /\ slot_repr slot q.
Proof.
  intros H. pose proof (slot_of_lt unix) as Hi. rewrite <- (wr_len _ _ _ H) in Hi.
  apply lookup_lt_is_Some_2 in Hi as [q Hq].
  destruct (Forall2_lookup_r _ _ _ _ _ (wr_slots _ _ _ H) Hq) as (slot & Hs & Hr). eauto.
Qed.

(** Replacing one slot, and the dispatch ring. *)
Lemma wheel_update w slots l i slot q d l' : wheel_repr w slots l ->
  slot_repr slot q -> bq_repr d l' ->
  wheel_repr (mkWheel (<[i:=slot]> (w_slots w)) d) (<[i:=q]> slots) l'.
Proof.
  intros H Hs Hd. constructor; cbn [w_slots w_dispatch].
  - apply Forall2_insert; [apply H|done].
  - rewrite length_insert. apply H.
  - done.
Qed.

Lemma new_wheel_repr :
  exists d, Dispatch.NewDispatchRing 512 = Ret d /\
  wheel_repr (NewSchedulerWheel d) (replicate (Z.to_nat 3600) []) [].
Proof.
  exists (Dispatch.mkDispatch (new_ring (Z.to_nat 512) None) false). split.
  { change 512 with (2 ^ 9). apply power_of_two_dispatch. lia. }
  constructor.
  - apply Forall2_replicate. apply (new_ring_repr wheel_kind 6). apply wheel_kind_ok.
  - apply length_replicate.
  - apply (new_ring_repr Dispatch.dispatch_kind 9 None). cbn. lia.
Qed.

Lemma schedule_arms w slots l ev : wheel_repr w slots l ->
  exists w' b slots', wheel_Schedule w ev = Ret (w', b) /\ wheel_repr w' slots' l /\
    abs_step (WArm ev) (slots, l) = Ret (slots', l, AArm b).
Proof.
  intros H. destruct (wheel_slot w slots l (Unix (e_ScheduledAt ev)) H) as (slot & q & Hs & Hq & Hr).
  unfold wheel_Schedule, abs_step. rewrite Hs, Hq. cbn [default from_option id].
  pose proof (bq_repr_cap slot q Hr) as Hcap. change bq_cap with (Z.to_nat 64) in Hcap.
  destruct (Nat.ltb_spec (length q) (Z.to_nat 64)) as [Hlt|Hge].
  - destruct (bq_push_ok (BoundedQueue:=slot_queue) slot q ev Hr Hlt) as (slot' & E & Hr').
    change (push_alone wheel_kind (payload ev) slot = Ret (slot', true)) in E. unfold payload in E.
    rewrite E. cbn [obind fst snd]. eexists _, _, _. split; [reflexivity|]. split; [|reflexivity].
    apply (wheel_update w slots l); [done|done|apply H].
  - destruct (bq_push_full (BoundedQueue:=slot_queue) slot q ev Hr) as (slot' & E & Hr'); [change bq_cap with (Z.to_nat 64); lia|].
    change (push_alone wheel_kind (payload ev) slot = Ret (slot', false)) in E. unfold payload in E.
    rewrite E. cbn [obind fst snd]. eexists _, _, _. split; [reflexivity|]. split; [|reflexivity].
    rewrite <- (list_insert_id slots (slot_of (Unix (e_ScheduledAt ev))) q) by done.
    apply (wheel_update w slots l); [done|done|apply H].
Qed.

Lemma tick_drains w slots l t now : wheel_repr w slots l ->
  let q := default [] (slots !! slot_of (Unix t)) in
  let ep := u32 (Unix now ÷ 3600) in
  exists w', tick_at w t now = Ret (w', (drain ep q l []).2) /\
    wheel_repr w' (<[slot_of (Unix t):=[]]> slots) (drain ep q l []).1.
Proof.
  intros H q ep. destruct (wheel_slot w slots l (Unix t) H) as (slot & q' & Hs & Hq & Hr).
  assert (q = q') as -> by (unfold q; by rewrite Hq).
  pose proof (bq_repr_cap slot q' Hr) as Hcap. change bq_cap with (Z.to_nat 64) in Hcap.
  destruct (tick_loop_spec q' (S (Z.to_nat wheelSlotCap)) slot (w_dispatch w) l ep [] Hr (wr_dispatch _ _ _ H))
    as (slot' & d' & E & Hs' & Hd'); [unfold wheelSlotCap; lia|].
  unfold tick_at, wheel_tick. rewrite Hs. fold ep. rewrite E. cbn [obind fst snd].
  eexists. split; [done|]. by apply (wheel_update w slots l).
Qed.

Lemma wheel_pop w slots l : wheel_repr w slots l ->
  exists d, Dispatch.DispatchTryPop (w_dispatch w) = Ret (d, head l) /\ wheel_repr (mkWheel (w_slots w) d) slots (tail l).
Proof.
  intros H. destruct l as [|ev l].
  - destruct (bq_pop_empty _ (wr_dispatch _ _ _ H)) as (d & E & Hd). exists d. split; [exact E|].
    constructor; [apply H|apply H|exact Hd].
  - destruct (bq_pop_ok _ _ _ (wr_dispatch _ _ _ H)) as (d & E & Hd). exists d. split; [exact E|].
    constructor; [apply H|apply H|exact Hd].
Qed.

(** C22: The timing wheel is 3600 bounded queues.  Whatever sequence of arming,
    ticking and taking from the dispatch ring, the wheel answers as an abstract
    wheel of lists: an event goes to the slot of its second unless 64 wait
    there; a tick empties the slot of its second, in order, into a dispatch
    list with room for 512, keeping only the events of the current hour; the
    workers take events in the order they were dispatched.  No operation
    panics or loops for ever. *)
Theorem scheduler_wheel_refines (ops : list wop) :
  (d <-- Dispatch.NewDispatchRing 512 ;; answers wheel_step ops (NewSchedulerWheel d))
  = answers abs_step ops (replicate (Z.to_nat 3600) [], []).
Proof.
  destruct new_wheel_repr as (d & -> & H). cbn [obind].
  apply (answers_refine _ _ (fun _ w a => wheel_repr w a.1 a.2) (fun _ => True)); [|by apply Forall_true|exact H].
  intros o _ w [slots l] _ Hw. cbn [fst snd] in Hw. destruct o as [ev|t now|].
  - destruct (schedule_arms w slots l ev Hw) as (w' & b & slots' & E & Hw' & ->).
    cbn [wheel_step]. rewrite E. done.
  - destruct (tick_drains w slots l t now Hw) as (w' & E & Hw'). cbn [wheel_step abs_step]. rewrite E.
    cbn [obind fst snd]. by destruct (drain _ _ _ _).
  - destruct (wheel_pop w slots l Hw) as (d' & E & Hw'). cbn [wheel_step abs_step]. rewrite E. done.
Qed.

(** ** From the store to the flow *)

Fixpoint tick_all (s : Scheduler) (ts : list (Z * Z)) : outcome Scheduler :=
  match ts with
  | [] => Ret s
  | (t, now) :: ts => s <-- ticker s t now ;; tick_all s ts
  end.

(** Ticks of empty slots dispatch nothing and touch no other slot. *)
Lemma ticker_idle s slots l t now : wheel_repr (sc_wheel s) slots l -> slots !! slot_of (Unix t) = Some [] ->
  exists s', ticker s t now = Ret s' /\ wheel_repr (sc_wheel s') slots l /\ s' = set_wheel s (sc_wheel s').
Proof.
  intros H Hq. destruct (tick_drains (sc_wheel s) slots l t now H) as (w' & E & Hw').
  rewrite Hq in E, Hw'. cbn in E, Hw'. rewrite list_insert_id in Hw' by done.
  unfold ticker. rewrite E. cbn [obind fst]. eexists. split; [reflexivity|]. by split.
Qed.

Lemma tick_all_idle ts s slots l : wheel_repr (sc_wheel s) slots l ->
  Forall (fun p => slots !! slot_of (Unix p.1) = Some []) ts ->
  exists s', tick_all s ts = Ret s' /\ wheel_repr (sc_wheel s') slots l /\ s' = set_wheel s (sc_wheel s').
Proof.
  revert s. induction ts as [|[t now] ts IH]; intros s H Hts.
  - exists s. split; [done|]. split; [done|]. by destruct s.
  - apply Forall_cons in Hts as [Ht Hts]. cbn [fst tick_all] in *.
    destruct (ticker_idle s slots l t now H Ht) as (s1 & -> & H1 & E1). cbn [obind].
    destruct (IH s1 H1 Hts) as (s2 & -> & H2 & E2). exists s2. split; [done|]. split; [done|].
    rewrite E2 at 1. by rewrite E1.
Qed.

(** Seconds less than an hour apart have different slots. *)
Lemma slot_of_inj a b : 0 <= a < 2 ^ 32 -> 0 <= b < 2 ^ 32 -> a < b < a + 3600 -> slot_of a <> slot_of b.
Proof.
  intros Ha Hb Hab H. unfold slot_of in H. rewrite !wrapu_small in H by lia.
  apply (mod_index 3600) in H; lia.
Qed.

Lemma due_window s now w : due s now w = true ->
  now <= s_NextRunAt s /\ s_NextRunAt s < now + w * time_Second.
Proof. unfold due. rewrite !andb_true_iff. lia. Qed.

Section on_time.
Context (cron_next : string -> Z -> option Z) (has_runner : bool).

Lemma upsert_arms s slots l sc t0 t1 next :
  wheel_repr (sc_wheel s) slots l -> (length (default [] (slots !! slot_of (Unix next))) < Z.to_nat 64)%nat ->
  s_Name sc <> "" -> s_Cron sc <> "" -> s_FlowName sc <> "" -> cron_next (s_Cron sc) t0 = Some next ->
  let sc' := set_run sc next (s_LastRunAt sc) (s_LastStatus sc) in
  due sc' t1 (lookaheadSec s) = true ->
  exists s', UpsertSchedule cron_next s sc t0 t1 = Ret (s', None) /\
    wheel_repr (sc_wheel s')
      (<[slot_of (Unix next):=default [] (slots !! slot_of (Unix next)) ++ [pooled (event_of sc')]]> slots) l /\
    schedules (sc_store s') !! s_Name sc = Some sc' /\ sc_cancelled s' = sc_cancelled s.
Proof.
  intros H Hlt Hn Hc Hf Hnext sc' Hdue. unfold UpsertSchedule, Upsert.
  rewrite !bool_decide_eq_false_2 by done. rewrite Hnext. fold sc'.
  change (lookaheadSec (set_store s ?ms)) with (lookaheadSec s). rewrite Hdue.
  change (sc_wheel (set_store s ?ms)) with (sc_wheel s).
  destruct (schedule_arms (sc_wheel s) slots l (pooled (event_of sc')) H) as (w' & b & slots' & E & Hw' & Ha).
  rewrite E. cbn [obind fst snd]. unfold abs_step in Ha.
  change (e_ScheduledAt (pooled (event_of sc'))) with next in Ha.
  destruct (Nat.ltb_spec (length (default [] (slots !! slot_of (Unix next)))) (Z.to_nat 64)); [|lia].
  injection Ha as <- <-. eexists. split; [reflexivity|]. cbn. split; [exact Hw'|].
  split; [|done]. apply lookup_insert_eq.
Qed.

(** A worker that finds nothing. *)
Lemma worker_idle s slots c expired results : wheel_repr (sc_wheel s) slots [] ->
  exists s', worker cron_next has_runner s c expired results = Ret (s', None).
Proof.
  intros H. destruct (wheel_pop _ _ _ H) as (d & E & _). unfold worker. rewrite E. cbn. by eexists.
Qed.

Lemma worker_handles s slots ev l c expired results : wheel_repr (sc_wheel s) slots (ev :: l) ->
  exists s' calls, worker cron_next has_runner s c expired results = Ret (s', Some calls) /\
    wheel_repr (sc_wheel s') slots l /\
    exists w, handle cron_next has_runner (set_wheel s w) ev c expired results = (s', calls).
Proof.
  intros H. destruct (wheel_pop _ _ _ H) as (d & E & Hd). unfold worker. rewrite E. cbn [obind fst snd head].
  cbn [tail] in Hd. set (s1 := set_wheel s _) in *.
  destruct (handle cron_next has_runner s1 ev c expired results) as [s' calls] eqn:Eh.
  exists s', calls. split; [done|]. split; [|by eexists].
  assert (sc_wheel s' = sc_wheel s1) as ->; [|exact Hd].
  revert Eh. unfold handle, set_wheel, set_store, set_cancelled, runWithRetry. cbn [sc_cancelled sc_store].
  repeat first [case_match; simplify_eq; try done | intros [= <- <-]; done].
Qed.

(** *** What one firing runs

    [fired ev expired results calls]: the flow is called [k] times, once and
    again after each failure; the last call succeeds, or no retry is left, or
    the deadline of the run passes in the wait before the next one, and then
    the dead-letter flow is called when there is one. *)
Definition fired (ev : ScheduledEvent) (expired : Z -> bool) (results : list bool) (calls : list runner_call) : Prop :=
  exists k : nat, Z.of_nat k <= e_RetryCount ev /\ (forall j, (j < k)%nat -> results !! j = Some false) /\
    let runs := replicate (S k) (flow_call ev (e_FlowName ev)) in
    (default true (results !! k) = true /\ calls = runs \/
     results !! k = Some false /\
     (Z.of_nat k = e_RetryCount ev \/ 0 < e_RetryIntervalSec ev /\ expired (Z.of_nat k + 1) = true) /\
     calls = runs ++ (if bool_decide (e_DeadLetterFlow ev = "") then [] else [flow_call ev (e_DeadLetterFlow ev)])).

Lemma retry_loop_S n i ev expired results lastErr :
  retry_loop (S n) i ev expired results lastErr =
  if (0 <? i) && (0 <? e_RetryIntervalSec ev) && expired i then (Some "context deadline exceeded"%string, [], results)
  else if default true (head results) then (None, [flow_call ev (e_FlowName ev)], tail results)
       else let '(err, calls, rest) := retry_loop n (i + 1) ev expired (tail results) (Some "runner failed"%string) in
            (err, flow_call ev (e_FlowName ev) :: calls, rest).
Proof using. reflexivity. Qed.

(** The loop from attempt [i] on, when that attempt is made. *)
Lemma retry_loop_spec n i ev expired results lastErr :
  0 <= i -> (0 <? i) && (0 <? e_RetryIntervalSec ev) && expired i = false ->
  exists k err rest, retry_loop (S n) i ev expired results lastErr = (err, replicate (S k) (flow_call ev (e_FlowName ev)), rest) /\
    (k <= n)%nat /\ (forall j, (j < k)%nat -> results !! j = Some false) /\
    (default true (results !! k) = true /\ err = None \/
     results !! k = Some false /\ (k = n \/ 0 < e_RetryIntervalSec ev /\ expired (i + Z.of_nat k + 1) = true) /\ is_Some err).
Proof using.
  revert i results lastErr. induction n as [|n IH]; intros i results lastErr Hi Hex; rewrite retry_loop_S, Hex;
    (destruct results as [|[] results]; cbn [head tail default from_option id];
     [exists 0%nat; do 2 eexists; split; [reflexivity|split; [lia|split; [lia|by left]]]..|]).
  - exists 0%nat. do 2 eexists. split; [reflexivity|]. split; [lia|]. split; [lia|]. right. split; [done|]. split; [by left|by eexists].
  - destruct ((0 <? i + 1) && (0 <? e_RetryIntervalSec ev) && expired (i + 1)) eqn:Eex.
    + exists 0%nat. do 2 eexists. rewrite retry_loop_S, Eex. split; [reflexivity|]. split; [lia|]. split; [lia|]. right.
      split; [done|]. split; [|by eexists]. right. rewrite Z.add_0_r. apply andb_true_iff in Eex as [[_ ?]%andb_true_iff ?]. split; [lia|done].
    + destruct (IH (i + 1) results (Some "runner failed"%string) ltac:(lia) Eex) as (k & err & rest & -> & Hk & Hj & Hend).
      exists (S k), err, rest. split; [reflexivity|]. split; [lia|]. split.
      { intros [|j] Hlt; [done|]. apply Hj. lia. }
      destruct Hend as [?|(? & Hlast & ?)]; [by left|]. right. split; [done|]. split; [|done].
      destruct Hlast as [->|[? He]]; [by left|right]. split; [done|]. by replace (i + Z.of_nat (S k) + 1) with (i + 1 + Z.of_nat k + 1) by lia.
Qed.

(** A claimed event runs its flow and advances its schedule. *)
Lemma handle_runs s ev c expired results sc :
  has_runner = true -> 0 <= e_RetryCount ev ->
  sc_cancelled s !! e_Name ev = None -> schedules (sc_store s) !! e_Name ev = Some sc ->
  exists s' calls, handle cron_next has_runner s ev c expired results = (s', calls) /\ fired ev expired results calls /\
    s_NextRunAt <$> schedules (sc_store s') !! e_Name ev = Some (next_run cron_next ev (at_finish c)) /\
    sc_cancelled s' = sc_cancelled s.
Proof.
  intros -> Hr Hc Hs. unfold handle. rewrite Hc. unfold Claim. rewrite Hs.
  unfold runWithRetry. cbn [negb]. replace (Z.to_nat (e_RetryCount ev + 1)) with (S (Z.to_nat (e_RetryCount ev))) by lia.
  destruct (retry_loop_spec (Z.to_nat (e_RetryCount ev)) 0 ev expired results None ltac:(lia) eq_refl)
    as (k & err & rest & -> & Hk & Hj & Hend).
  unfold RecordExecution. cbn [r_Name]. rewrite Hs. do 2 eexists. split; [reflexivity|].
  split; [|split; [cbn; by rewrite lookup_insert_eq|done]].
  exists k. split; [lia|]. split; [done|].
  destruct Hend as [[Hok ->]|(Hbad & Hlast & [e ->])]; [left; split; [done|by rewrite app_nil_r]|right].
  split; [done|]. split; [destruct Hlast as [->|?]; [left; lia|by right]|]. by rewrite orb_false_r.
Qed.
End on_time.

Lemma fired_once ev expired results calls :
  fired ev expired results calls -> default true (head results) = true -> calls = [flow_call ev (e_FlowName ev)].
Proof.
  intros (k & _ & Hj & Hend) Hok. destruct k as [|k].
  - destruct Hend as [[_ ->]|(Hbad & _)]; [done|]. destruct results; [done|]. cbn in *. congruence.
  - specialize (Hj 0%nat ltac:(lia)). destruct results; [done|]. cbn in *. congruence.
Qed.

Lemma drain_room ep q l : Forall (fun ev => e_Epoch ev = ep) q -> (length l + length q <= Z.to_nat 512)%nat ->
  drain ep q l [] = (l ++ q, []).
Proof.
  revert l. induction q as [|ev q IH]; intros l Hep Hlen; [by rewrite app_nil_r|].
  apply Forall_cons in Hep as [Hev Hep]. cbn [drain length] in *. rewrite Hev, Z.eqb_refl.
  destruct (Nat.ltb_spec (length l) (Z.to_nat 512)); [|lia].
  rewrite IH; [|done|rewrite length_app; cbn; lia]. by rewrite <- app_assoc.
Qed.

Lemma unix_window t1 next la : la <= 3600 -> next < t1 + la * time_Second -> Unix next <= Unix t1 + 3600.
Proof.
  intros Hla Hn. unfold Unix, time_Second in *. rewrite <- Z.div_add by lia. apply Z.div_le_mono; lia.
Qed.


(** A job whose next run is always [gap] seconds away. *)
Definition every (gap : Z) : string -> Z -> option Z := fun _ t => Some (t + gap * time_Second).
Definition job : Schedule := mkSchedule "job" "0 * * * * *" "nightly" "acme" true 30 None 0 0 "" 0 0 "".
Definition clock_at (sec : Z) : clock := mkClock (sec * time_Second) (sec * time_Second) (sec * time_Second).
Definition job_call : runner_call := ("nightly", "acme", None, 30).

Definition new_sched : Scheduler :=
  mkSched NewMemoryStore (NewSchedulerWheel (Dispatch.mkDispatch (new_ring (Z.to_nat (2 ^ 9)) None) false)) ∅ ∅ 3600.


(** ** What the code does not intend *)

(** [UpsertSchedule] arms the event but does not tell the loader, which arms
    it a second time: the flow runs twice for one fire time. *)
Theorem upsert_and_load_run_twice :
  (s <-- New 3600 ;;
   su <-- UpsertSchedule (every 60) s job 0 0 ;;
   s <-- LoadUpcoming su.1 ["job"] 0 ;;
   s <-- ticker s (60 * time_Second) (60 * time_Second) ;;
   w1 <-- worker (every 60) true s (clock_at 60) (fun _ => false) [] ;;
   w2 <-- worker (every 60) true w1.1 (clock_at 60) (fun _ => false) [] ;;
   Ret (w1.2, w2.2)) = Ret (Some [job_call], Some [job_call]).
Proof. vm_compute. reflexivity. Qed.

(** Nothing arms a schedule whose next run has passed: a schedule that fires
    more often than the loader runs (every half lookahead) fires once. *)
Theorem overdue_schedule_never_armed (s : Scheduler) (order : list string) (now : Z) :
  (forall name sc, schedules (sc_store s) !! name = Some sc -> s_NextRunAt sc < now) ->
  LoadUpcoming s order now = Ret s.
Proof.
  intros H. unfold LoadUpcoming, ListDueWithin.
  replace (omap _ order) with ([] : list ScheduledEvent); [done|].
  induction order as [|name order IH]; [done|]. cbn. rewrite <- IH.
  destruct (schedules (sc_store s) !! name) as [sc|] eqn:E; [|done]. cbn. unfold due.
  specialize (H name sc E). destruct (Z.leb_spec now (s_NextRunAt sc)); [lia|]. by rewrite andb_false_r.
Qed.

(** With a lookahead of two hours, an event armed 4000 seconds ahead meets the
    tick of its slot an hour early, which takes it for a stale one. *)
Theorem far_event_is_dropped :
  (s <-- New 7200 ;;
   su <-- UpsertSchedule (every 4000) s job 0 0 ;;
   s <-- ticker su.1 (400 * time_Second) (400 * time_Second) ;;
   s <-- ticker s (4000 * time_Second) (4000 * time_Second) ;;
   w <-- worker (every 4000) true s (clock_at 4000) (fun _ => false) [] ;;
   Ret w.2) = Ret None.
Proof. vm_compute. reflexivity. Qed.

(** Deleting a schedule and creating it again loses the new schedule's first
    run to the old cancellation mark. *)
Theorem recreated_schedule_is_cancelled :
  (s <-- New 3600 ;;
   su <-- UpsertSchedule (every 60) (DeleteSchedule s "job" 0) job 0 0 ;;
   s <-- ticker su.1 (60 * time_Second) (60 * time_Second) ;;
   w <-- worker (every 60) true s (clock_at 60) (fun _ => false) [] ;;
   Ret w.2) = Ret (Some []).
Proof. vm_compute. reflexivity. Qed.
