(* ===== verification/TimerWheel.v ===== *)
(** * The timer wheel of the upstream steps (engine/steps/timer_wheel.go)

    Response-body and request deadlines are kept in a hashed wheel of one-second
    slots.  An entry index is drawn from a ring of free indices, a position in
    the slot from the slot's ring of recycled positions or, when that is empty,
    from its high-water mark; the tick of a second fires what its slot holds.

    The sizes are parameters: the source has [wheelSize = 4096],
    [maxWheelEntries = 2^19] and [maxPerSlot = 512].  The operations are
    modelled one at a time; a fire reference is owned by whoever swaps it out
    of the table, so it is a value here, and the pool it is recycled through
    has no counterpart. *)

From S2P Require Import Prelude Ring.

Local Open Scope Z_scope.
Local Open Scope rah_scope.

Definition wheelKindBody : Z := 0.
Definition wheelKindCtx : Z := 1.

(** [body] and [ctx] name a response body and a request context; [None] is nil. *)
Record fireRef : Type := mkRef { f_kind : Z; f_body : option Z; f_ctx : option Z; f_gen : Z }.

(** The two index rings differ only in their size. *)
Definition index_kind : kind Z := mkKind 64 None (fun v => v).

Definition enqueue (idx : Z) (r : ring Z) : outcome (ring Z * bool) := push_alone index_kind idx r.
Definition dequeue (r : ring Z) : outcome (ring Z * option Z) := pop_alone index_kind r.

Record wheelSlot : Type := mkSlot {
  writePos : Z;
  posRing : ring Z;
  buf : list Z
}.

Record wheel : Type := mkTW {
  wheelSlots : list wheelSlot;
  wheelEntries : list Z;                  (* cancelled *)
  wheelFire : list (option fireRef);
  wheelFreeRing : ring Z;
  wheelCurrent : Z
}.

Record wheelHandle : Type := mkHandle { h_idx : Z; h_slot : Z; h_pos : Z }.

Definition no_handle : wheelHandle := mkHandle 0 0 0.

(** What a timer does when it fires. *)
Inductive fired : Type := CloseBody (body : Z) | CancelCtx (ctx gen : Z).

(** [a[i] = v] on an array: panics outside its bounds. *)
Definition go_store {A} (l : list A) (i : Z) (v : A) : outcome (list A) :=
  _ <-- go_index l i ;; Ret (<[Z.to_nat i:=v]> l).

Definition with_slots (w : wheel) (s : list wheelSlot) : wheel :=
  mkTW s (wheelEntries w) (wheelFire w) (wheelFreeRing w) (wheelCurrent w).
Definition with_entries (w : wheel) (e : list Z) : wheel :=
  mkTW (wheelSlots w) e (wheelFire w) (wheelFreeRing w) (wheelCurrent w).
Definition with_fire (w : wheel) (f : list (option fireRef)) : wheel :=
  mkTW (wheelSlots w) (wheelEntries w) f (wheelFreeRing w) (wheelCurrent w).
Definition with_free (w : wheel) (r : ring Z) : wheel :=
  mkTW (wheelSlots w) (wheelEntries w) (wheelFire w) r (wheelCurrent w).

Section wheel.
Context (wheelSize maxWheelEntries maxPerSlot : Z).

Definition wheelMask : Z := wheelSize - 1.

Fixpoint seed (n : nat) (i : Z) (r : ring Z) : outcome (ring Z) :=
  match n with
  | O => Ret r
  | S n' => rb <-- enqueue (u32 (i + 1)) r ;; seed n' (i + 1) rb.1
  end.

(** [StartTimerWheel] on the zeroed package variables. *)
Definition StartTimerWheel : outcome wheel :=
  free <-- seed (Z.to_nat (maxWheelEntries - 1)) 0 (new_ring (Z.to_nat maxWheelEntries) 0) ;;
  Ret (mkTW (replicate (Z.to_nat wheelSize)
               (mkSlot 0 (new_ring (Z.to_nat maxPerSlot) 0) (replicate (Z.to_nat maxPerSlot) 0)))
         (replicate (Z.to_nat maxWheelEntries) 0)
         (replicate (Z.to_nat maxWheelEntries) None) free 0).

Definition cancel (h : wheelHandle) (w : wheel) : outcome wheel :=
  if h_idx h =? 0 then Ret w
  else
    entries <-- go_store (wheelEntries w) (h_idx h) 1 ;;
    let w := with_entries w entries in
    ref <-- go_index (wheelFire w) (h_idx h) ;;
    let w := with_fire w (<[Z.to_nat (h_idx h):=None]> (wheelFire w)) in
    match ref with
    | None => Ret w
    | Some _ =>
      s <-- go_index (wheelSlots w) (h_slot h) ;;
      b <-- go_store (buf s) (h_pos h) 0 ;;
      slots <-- go_store (wheelSlots w) (h_slot h) (mkSlot (writePos s) (posRing s) b) ;;
      let w := with_slots w slots in
      rb <-- enqueue (h_idx h) (wheelFreeRing w) ;;
      Ret (with_free w rb.1)
    end.

(** What a reference that has not been cancelled does. *)
Definition fire (ref : fireRef) : list fired :=
  if f_kind ref =? wheelKindBody then
    match f_body ref with Some b => [CloseBody b] | None => [] end
  else if f_kind ref =? wheelKindCtx then
    match f_ctx ref with Some c => [CancelCtx c (f_gen ref)] | None => [] end
  else [].

(** [wheelTick] at position [i] of slot [slot], whose contents are [s]: take
    the reference, fire it unless it was cancelled, and free the index. *)
Definition fire_position (slot i : Z) (s : wheelSlot) (w : wheel) : outcome (wheel * list fired) :=
  idx <-- go_index (buf s) i ;;
  if negb (idx =? 0) then
    ref <-- go_index (wheelFire w) idx ;;
    let w := with_fire w (<[Z.to_nat idx:=None]> (wheelFire w)) in
    match ref with
    | None => Ret (w, [])
    | Some ref =>
      c <-- go_index (wheelEntries w) idx ;;
      let out := if c =? 0 then fire ref else [] in
      rb <-- enqueue idx (wheelFreeRing w) ;;
      b <-- go_store (buf s) i 0 ;;
      slots <-- go_store (wheelSlots w) slot (mkSlot (writePos s) (posRing s) b) ;;
      Ret (with_slots (with_free w rb.1) slots, out)
    end
  else Ret (w, []).

(** The loop of [wheelTick] over the positions [i], ..., [i + n - 1]. *)
Fixpoint tick_positions (n : nat) (i : Z) (slot : Z) (w : wheel) : outcome (wheel * list fired) :=
  match n with
  | O => Ret (w, [])
  | S n' =>
    s <-- go_index (wheelSlots w) slot ;;
    wf <-- fire_position slot i s w ;;
    s <-- go_index (wheelSlots wf.1) slot ;;
    rb <-- enqueue i (posRing s) ;;
    slots <-- go_store (wheelSlots wf.1) slot (mkSlot (writePos s) rb.1 (buf s)) ;;
    rest <-- tick_positions n' (i + 1) slot (with_slots wf.1 slots) ;;
    Ret (rest.1, wf.2 ++ rest.2)
  end.

Definition wheelTick (slot : Z) (w : wheel) : outcome (wheel * list fired) :=
  s <-- go_index (wheelSlots w) slot ;;
  let count := writePos s in
  slots <-- go_store (wheelSlots w) slot (mkSlot 0 (posRing s) (buf s)) ;;
  tick_positions (Z.to_nat count) 0 slot (with_slots w slots).

(** One tick of [runWheelTicker] at time [unix]. *)
Definition run_tick (unix : Z) (w : wheel) : outcome (wheel * list fired) :=
  let slot := Z.land (u32 unix) wheelMask in
  wheelTick slot (mkTW (wheelSlots w) (wheelEntries w) (wheelFire w) (wheelFreeRing w) slot).

(** The body shared by [scheduleBody] and [scheduleCtx]. *)
Definition schedule (ref : fireRef) (dur : Z) (w : wheel) : outcome (wheel * wheelHandle) :=
  fi <-- dequeue (wheelFreeRing w) ;;
  let w := with_free w fi.1 in
  match fi.2 with
  | None => Ret (w, no_handle)
  | Some idx =>
    let secs := u32 (u32 (dur ÷ time_Second) + 1) in
    let slotIdx := Z.land (u32 (wheelCurrent w + secs)) wheelMask in
    s <-- go_index (wheelSlots w) slotIdx ;;
    pi <-- dequeue (posRing s) ;;
    let '(s, pos) := match pi.2 with
                     | Some pos => (mkSlot (writePos s) pi.1 (buf s), pos)
                     | None => (mkSlot (u32 (writePos s + 1)) pi.1 (buf s), u32 (u32 (writePos s + 1) - 1))
                     end in
    if bool_decide (pi.2 = None) && (maxPerSlot <=? pos) then
      slots <-- go_store (wheelSlots w) slotIdx (mkSlot (u32 (writePos s + 4294967295)) (posRing s) (buf s)) ;;
      rb <-- enqueue idx (wheelFreeRing w) ;;
      Ret (with_free (with_slots w slots) rb.1, no_handle)
    else
      entries <-- go_store (wheelEntries w) idx 0 ;;
      refs <-- go_store (wheelFire w) idx (Some ref) ;;
      b <-- go_store (buf s) pos idx ;;
      slots <-- go_store (wheelSlots w) slotIdx (mkSlot (writePos s) (posRing s) b) ;;
      Ret (mkTW slots entries refs (wheelFreeRing w) (wheelCurrent w), mkHandle idx (u16 slotIdx) (u16 pos))
  end.

Definition scheduleBody (body : Z) (dur : Z) (w : wheel) : outcome (wheel * wheelHandle) :=
  schedule (mkRef wheelKindBody (Some body) None 0) dur w.

Definition scheduleCtx (ctx gen : Z) (dur : Z) (w : wheel) : outcome (wheel * wheelHandle) :=
  schedule (mkRef wheelKindCtx None (Some ctx) gen) dur w.
End wheel.
