(* ===== verification/TimerWheelSpec.v ===== *)
(** * The timer wheel: specifications

    For one revolution (until a slot that has held timers comes round again)
    the wheel refines a table of armed timers: a timer fires in the tick of its
    slot, once, unless it was cancelled.  After that the recycled positions of
    a slot are handed out below a high-water mark that starts at zero, and the
    timers there are lost: [recycled_timer_never_fires]. *)

From S2P Require Import Prelude Ring RingSpec TimerWheel.

Local Open Scope Z_scope.
Local Open Scope rah_scope.

Section spec.
Context (ks kn kp : Z).
Hypothesis Hks : 0 <= ks <= 16.
Hypothesis Hkn : 1 <= kn <= 31.
Hypothesis Hkp : 1 <= kp <= 16.

Local Abbreviation wheelSize := (2 ^ ks).
Local Abbreviation maxWheelEntries := (2 ^ kn).
Local Abbreviation maxPerSlot := (2 ^ kp).

(** ** The abstract wheel *)

Abbreviation timer := (Z * fireRef)%type.

(** A slot's positions, a cancelled one [None]; [None] for a slot whose
    positions have been recycled. *)
Record aw : Type := mkAW {
  a_free : list Z;
  a_slots : list (option (list (option timer)));
  a_current : Z
}.

Definition a_start : aw :=
  mkAW (seqZ 1 (maxWheelEntries - 1)) (replicate (Z.to_nat wheelSize) (Some [])) 0.

Inductive top : Type := TSched (ref : fireRef) (dur : Z) | TCancel (h : wheelHandle) | TTick (unix : Z).
Inductive tans : Type := RHandle (h : wheelHandle) | RDone | RFired (out : list fired).

Definition slot_at (cur dur : Z) : Z :=
  Z.land (u32 (cur + u32 (u32 (dur ÷ time_Second) + 1))) (wheelMask wheelSize).

Definition armed_in (es : list (option timer)) : list timer := omap id es.

(** [None]: the operation is outside the first revolution, or cancels a handle
    whose index has been given to another timer. *)
Definition a_step (o : top) (a : aw) : option (aw * tans) :=
  match o with
  | TSched ref dur =>
    match a_free a with
    | [] => Some (a, RHandle no_handle)
    | idx :: free =>
      let i := slot_at (a_current a) dur in
      match a_slots a !! Z.to_nat i with
      | Some (Some es) =>
        if Z.of_nat (length es) <? maxPerSlot then
          Some (mkAW free (<[Z.to_nat i:=Some (es ++ [Some (idx, ref)])]> (a_slots a)) (a_current a),
                RHandle (mkHandle idx i (Z.of_nat (length es))))
        else Some (mkAW (free ++ [idx]) (a_slots a) (a_current a), RHandle no_handle)
      | _ => None
      end
    end
  | TCancel h =>
    if h_idx h =? 0 then Some (a, RDone)
    else if bool_decide (h_idx h ∈ a_free a) then Some (a, RDone)
    else
      match a_slots a !! Z.to_nat (h_slot h) with
      | Some (Some es) =>
        match es !! Z.to_nat (h_pos h) with
        | Some (Some (idx, _)) =>
          if (idx =? h_idx h) && (0 <=? h_slot h) && (0 <=? h_pos h) then
            Some (mkAW (a_free a ++ [idx])
                    (<[Z.to_nat (h_slot h):=Some (<[Z.to_nat (h_pos h):=None]> es)]> (a_slots a)) (a_current a), RDone)
          else None
        | _ => None
        end
      | _ => None
      end
  | TTick unix =>
    let i := Z.land (u32 unix) (wheelMask wheelSize) in
    match a_slots a !! Z.to_nat i with
    | Some (Some es) =>
      Some (mkAW (a_free a ++ (armed_in es).*1)
              (<[Z.to_nat i:=match es with [] => Some [] | _ => None end]> (a_slots a)) i,
            RFired (armed_in es ≫= (fun t => fire t.2)))
    | _ => None
    end
  end.

Fixpoint a_run (ops : list top) (a : aw) : option (list tans) :=
  match ops with
  | [] => Some []
  | o :: ops => '(a, r) ← a_step o a; rs ← a_run ops a; Some (r :: rs)
  end.

Definition w_step (o : top) (w : wheel) : outcome (wheel * tans) :=
  match o with
  | TSched ref dur => wh <-- schedule wheelSize maxPerSlot ref dur w ;; Ret (wh.1, RHandle wh.2)
  | TCancel h => w <-- cancel h w ;; Ret (w, RDone)
  | TTick unix => wf <-- run_tick wheelSize unix w ;; Ret (wf.1, RFired wf.2)
  end.

(** ** The invariant *)

Lemma free_kind_ok : 1 <= kn < width index_kind.
Proof using Hkn. cbn. lia. Qed.
Lemma pos_kind_ok : 1 <= kp < width index_kind.
Proof using Hkp. cbn. lia. Qed.
Lemma index_spins : spin_limit index_kind <> Some O.
Proof using. done. Qed.

Definition free_queue : BoundedQueue (ring Z) Z := ring_queue index_kind kn free_kind_ok index_spins.
Definition pos_queue : BoundedQueue (ring Z) Z := ring_queue index_kind kp pos_kind_ok index_spins.

(** The tables of the wheel with the indices [free] and the armed timers [arm]. *)
Record tables (e : list Z) (f : list (option fireRef)) (r : ring Z) (free : list Z) (arm : list timer) : Prop := {
  t_ring : ring_repr index_kind kn r free;
  t_part : free ++ arm.*1 ≡ₚ seqZ 1 (maxWheelEntries - 1);
  t_entries : Z.of_nat (length e) = maxWheelEntries;
  t_fire : Z.of_nat (length f) = maxWheelEntries;
  t_armed idx ref : (idx, ref) ∈ arm -> f !! Z.to_nat idx = Some (Some ref) /\ e !! Z.to_nat idx = Some 0;
  t_free idx : idx ∈ free -> f !! Z.to_nat idx = Some None
}.

Definition code (e : option timer) : Z := match e with Some (idx, _) => idx | None => 0 end.

Definition slot_ok (s : wheelSlot) (x : option (list (option timer))) : Prop :=
  Z.of_nat (length (buf s)) = maxPerSlot /\
  match x with
  | None => True
  | Some es =>
    Z.of_nat (length es) <= maxPerSlot /\ writePos s = Z.of_nat (length es) /\
    ring_repr index_kind kp (posRing s) [] /\ take (length es) (buf s) = code <$> es
  end.

Definition armed_of (x : option (list (option timer))) : list timer :=
  match x with Some es => armed_in es | None => [] end.

Definition all_armed (slots : list (option (list (option timer)))) : list timer := slots ≫= armed_of.

Record wheel_ok (w : wheel) (a : aw) : Prop := {
  ok_tables : tables (wheelEntries w) (wheelFire w) (wheelFreeRing w) (a_free a) (all_armed (a_slots a));
  ok_slots : Forall2 slot_ok (wheelSlots w) (a_slots a);
  ok_len : length (a_slots a) = Z.to_nat wheelSize;
  ok_current : wheelCurrent w = a_current a
}.

Lemma tables_perm e f r free arm arm' : arm ≡ₚ arm' -> tables e f r free arm -> tables e f r free arm'.
Proof using.
  intros HP H. destruct H. constructor; try done.
  - by rewrite <- HP.
  - intros idx ref. rewrite <- HP. auto.
Qed.

Lemma tables_range e f r free arm idx : tables e f r free arm -> idx ∈ free ++ arm.*1 -> 1 <= idx < maxWheelEntries.
Proof using. intros H. rewrite (t_part _ _ _ _ _ H), elem_of_seqZ. lia. Qed.

Lemma tables_NoDup e f r free arm : tables e f r free arm -> NoDup (free ++ arm.*1).
Proof using. intros H. rewrite (t_part _ _ _ _ _ H). apply NoDup_seqZ. Qed.

Lemma tables_count e f r free arm : tables e f r free arm ->
  Z.of_nat (length free) + Z.of_nat (length arm) = maxWheelEntries - 1.
Proof using Hkn.
  intros H. pose proof (Permutation_length (t_part _ _ _ _ _ H)) as Hl.
  rewrite length_app, length_fmap, length_seqZ in Hl. assert (0 < 2 ^ kn) by (apply Z.pow_pos_nonneg; lia). lia.
Qed.

(** Writing the tables at the index of one timer leaves the others alone. *)
Lemma index_ne idx idx' : 0 <= idx -> 0 <= idx' -> idx <> idx' -> Z.to_nat idx <> Z.to_nat idx'.
Proof using. lia. Qed.

(** Drawing a free index and arming it. *)
Lemma tables_arm e f r idx free arm ref : tables e f r (idx :: free) arm ->
  1 <= idx < maxWheelEntries /\
  exists r', dequeue r = Ret (r', Some idx) /\
    tables (<[Z.to_nat idx:=0]> e) (<[Z.to_nat idx:=Some ref]> f) r' free ((idx, ref) :: arm) /\
    ring_repr index_kind kn r' free.
Proof using Hkn.
  intros H. pose proof (tables_range _ _ _ _ _ idx H ltac:(by left)) as Hr. split; [done|].
  destruct (bq_pop_ok (BoundedQueue:=free_queue) r free idx (t_ring _ _ _ _ _ H)) as (r' & E & Hr').
  exists r'. split; [exact E|]. split; [|exact Hr'].
  pose proof (tables_NoDup _ _ _ _ _ H) as Hnd. cbn [app] in Hnd. apply NoDup_cons in Hnd as [Hni Hnd].
  pose proof (fun x => tables_range e f r _ arm x H) as Hrng. destruct H. constructor.
  - exact Hr'.
  - rewrite <- t_part0. cbn. by rewrite Permutation_middle.
  - by rewrite length_insert.
  - by rewrite length_insert.
  - intros i' ref' Hin. apply elem_of_cons in Hin as [[= -> ->]|Hin].
    + rewrite !list_lookup_insert_eq by lia. done.
    + assert (i' ∈ arm.*1) as Hin1 by (apply list_elem_of_fmap; by exists (i', ref')).
      assert (i' <> idx) as Hne by (intros ->; apply Hni, elem_of_app; by right).
      pose proof (Hrng i' ltac:(apply elem_of_app; by right)).
      rewrite !list_lookup_insert_ne by lia. by apply t_armed0.
  - intros i' Hin. assert (i' <> idx) as Hne by (intros ->; apply Hni, elem_of_app; by left).
    pose proof (Hrng i' ltac:(apply elem_of_app; left; by right)).
    rewrite list_lookup_insert_ne by lia. apply t_free0. by right.
Qed.

(** Releasing an armed timer. *)
Lemma tables_release e f r idx ref free arm : tables e f r free ((idx, ref) :: arm) ->
  exists r', enqueue idx r = Ret (r', true) /\
    forall c, tables (<[Z.to_nat idx:=c]> e) (<[Z.to_nat idx:=None]> f) r' (free ++ [idx]) arm.
Proof using Hkn.
  intros H. pose proof (tables_count _ _ _ _ _ H) as Hc. cbn [length] in Hc.
  destruct (bq_push_ok (BoundedQueue:=free_queue) r free idx (t_ring _ _ _ _ _ H)) as (r' & E & Hr').
  { cbn [bq_cap free_queue ring_queue]. lia. }
  exists r'. split; [exact E|]. intros c.
  pose proof (tables_NoDup _ _ _ _ _ H) as Hnd. cbn in Hnd. rewrite <- Permutation_middle in Hnd.
  apply NoDup_cons in Hnd as [Hni Hnd].
  pose proof (fun x => tables_range e f r _ _ x H) as Hrng. destruct H. constructor.
  - exact Hr'.
  - rewrite <- t_part0. cbn. by rewrite <- app_assoc.
  - by rewrite length_insert.
  - by rewrite length_insert.
  - intros i' ref' Hin. assert (i' ∈ arm.*1) as Hin1 by (apply list_elem_of_fmap; by exists (i', ref')).
    assert (i' <> idx) as Hne by (intros ->; apply Hni, elem_of_app; by right).
    pose proof (Hrng i' ltac:(apply elem_of_app; right; by right)).
    pose proof (Hrng idx ltac:(apply elem_of_app; right; by left)).
    rewrite !list_lookup_insert_ne by lia. apply t_armed0. by right.
  - intros i' Hin. pose proof (Hrng idx ltac:(apply elem_of_app; right; by left)).
    apply elem_of_app in Hin as [Hin| ->%list_elem_of_singleton].
    + assert (i' <> idx) as Hne by (intros ->; apply Hni, elem_of_app; by left).
      pose proof (Hrng i' ltac:(apply elem_of_app; by left)).
      rewrite list_lookup_insert_ne by lia. by apply t_free0.
    + apply list_lookup_insert_eq. lia.
Qed.

(** Cancelling a handle whose index is free changes nothing that matters. *)
Lemma tables_stale e f r idx free arm c : tables e f r free arm -> idx ∈ free ->
  tables (<[Z.to_nat idx:=c]> e) (<[Z.to_nat idx:=None]> f) r free arm.
Proof using Hkn.
  intros H Hin. pose proof (tables_NoDup _ _ _ _ _ H) as Hnd.
  pose proof (fun x => tables_range e f r _ _ x H) as Hrng. pose proof (t_free _ _ _ _ _ H idx Hin) as Hf.
  rewrite (list_insert_id f) by done. destruct H. constructor; try done.
  - by rewrite length_insert.
  - intros i' ref' Hin'. assert (i' ∈ arm.*1) as Hin1 by (apply list_elem_of_fmap; by exists (i', ref')).
    pose proof (Hrng i' ltac:(apply elem_of_app; by right)). pose proof (Hrng idx ltac:(apply elem_of_app; by left)).
    assert (i' <> idx) as Hne.
    { intros ->. apply NoDup_app in Hnd as (_ & Hd & _). by apply (Hd idx). }
    rewrite list_lookup_insert_ne by lia. by apply t_armed0.
Qed.

(** *** Slots *)

Lemma bind_insert {A B} (g : A -> list B) (l : list A) i x y :
  l !! i = Some x -> (<[i:=y]> l ≫= g) ++ g x ≡ₚ (l ≫= g) ++ g y.
Proof using.
  revert i. induction l as [|z l IH]; intros [|i] Hi; try done.
  - injection Hi as ->. cbn. rewrite !(Permutation_app_comm _ (g x)), (Permutation_app_comm (g y)). cbn.
    by rewrite <- app_assoc.
  - change (<[S i:=y]> (z :: l)) with (z :: <[i:=y]> l). cbn. rewrite <- !app_assoc. by rewrite (IH i Hi).
Qed.

Lemma armed_replace slots i es x :
  slots !! i = Some (Some es) ->
  all_armed (<[i:=x]> slots) ++ armed_in es
  ≡ₚ all_armed slots ++ armed_of x.
Proof using. intros H. apply (bind_insert armed_of slots i _ x H). Qed.

Lemma armed_push es t : armed_in (es ++ [Some t]) = armed_in es ++ [t].
Proof using. unfold armed_in. by rewrite omap_app. Qed.

Lemma armed_drop es p t :
  es !! p = Some (Some t) -> armed_in es ≡ₚ t :: armed_in (<[p:=None]> es).
Proof using.
  intros H. rewrite <- (take_drop_middle es p _ H) at 1.
  rewrite insert_take_drop by (by eapply lookup_lt_Some). unfold armed_in. rewrite !omap_app. cbn.
  symmetry. apply Permutation_middle.
Qed.

Lemma slot_lookup w a i : wheel_ok w a -> 0 <= i < wheelSize ->
  exists s x, go_index (wheelSlots w) i = Ret s /\ a_slots a !! Z.to_nat i = Some x /\ slot_ok s x.
Proof using Hks.
  intros H Hi. destruct (lookup_lt_is_Some_2 (a_slots a) (Z.to_nat i)) as [x Hx].
  { rewrite (ok_len _ _ H). lia. }
  destruct (Forall2_lookup_r _ _ _ _ _ (ok_slots _ _ H) Hx) as (s & Hs & Hok).
  exists s, x. split; [|done]. apply go_index_Z; [lia|done].
Qed.

Lemma go_store_ok {A} (l : list A) i v : 0 <= i < Z.of_nat (length l) ->
  go_store l i v = Ret (<[Z.to_nat i:=v]> l).
Proof using.
  intros Hi. unfold go_store. destruct (lookup_lt_is_Some_2 l (Z.to_nat i)) as [x Hx]; [lia|].
  by rewrite (go_index_Z l i x) by (done || lia).
Qed.

Lemma slots_length w a : wheel_ok w a -> Z.of_nat (length (wheelSlots w)) = wheelSize.
Proof using Hks.
  intros H. rewrite (Forall2_length _ _ _ (ok_slots _ _ H)), (ok_len _ _ H).
  assert (0 < 2 ^ ks) by (apply Z.pow_pos_nonneg; lia). lia.
Qed.

Lemma mask_range x : 0 <= Z.land (u32 x) (wheelMask wheelSize) < wheelSize.
Proof using Hks.
  unfold wheelMask. replace (wheelSize - 1) with (Z.ones ks) by (rewrite Z.ones_equiv; lia).
  rewrite Z.land_ones by lia. apply Z.mod_pos_bound. apply Z.pow_pos_nonneg; lia.
Qed.

(** Replacing one slot of the wheel. *)
Lemma slots_insert w a i s x : wheel_ok w a -> slot_ok s x ->
  Forall2 slot_ok (<[i:=s]> (wheelSlots w)) (<[i:=x]> (a_slots a)).
Proof using. intros H Hs. apply Forall2_insert; [apply H|done]. Qed.

Lemma armed_add slots i es t : slots !! i = Some (Some es) ->
  all_armed (<[i:=Some (es ++ [Some t])]> slots) ≡ₚ t :: all_armed slots.
Proof using.
  intros H. pose proof (armed_replace slots i es (Some (es ++ [Some t])) H) as HP. cbn [armed_of] in HP.
  rewrite armed_push in HP. apply (Permutation_app_inv_r (armed_in es)). rewrite HP. cbn.
  rewrite app_assoc. symmetry. apply Permutation_cons_append.
Qed.

Lemma armed_cancel slots i es p t : slots !! i = Some (Some es) -> es !! p = Some (Some t) ->
  all_armed slots ≡ₚ t :: all_armed (<[i:=Some (<[p:=None]> es)]> slots).
Proof using.
  intros H Hp. pose proof (armed_replace slots i es (Some (<[p:=None]> es)) H) as HP. cbn [armed_of] in HP.
  rewrite (armed_drop es p t Hp) in HP. apply (Permutation_app_inv_r (armed_in (<[p:=None]> es))).
  rewrite <- HP. cbn. symmetry. apply Permutation_middle.
Qed.

Lemma armed_clear slots i es : slots !! i = Some (Some es) ->
  all_armed slots ≡ₚ armed_in es ++ all_armed (<[i:=match es with [] => Some [] | _ => None end]> slots).
Proof using.
  intros H. pose proof (armed_replace slots i es (match es with [] => Some [] | _ => None end) H) as HP.
  assert (armed_of (match es with [] => Some [] | _ => None end) = []) as E by (by destruct es).
  rewrite E, app_nil_r in HP. rewrite <- HP. apply Permutation_app_comm.
Qed.

(** The slot after one more timer. *)
Lemma slot_ok_push s es idx ref pr :
  slot_ok s (Some es) -> Z.of_nat (length es) < maxPerSlot -> ring_repr index_kind kp pr [] ->
  slot_ok (mkSlot (Z.of_nat (length es) + 1) pr (<[length es:=idx]> (buf s))) (Some (es ++ [Some (idx, ref)])).
Proof using Hkp.
  intros (Hbuf & Hfit & Hwp & _ & Htake) Hlt Hpr. split; cbn [buf]; [by rewrite length_insert|].
  rewrite length_app. cbn [length writePos posRing buf]. split; [lia|]. split; [lia|]. split; [done|].
  rewrite Nat.add_1_r, (take_S_r _ _ idx) by (apply list_lookup_insert_eq; lia).
  rewrite take_insert_ge by lia. by rewrite Htake, fmap_app.
Qed.

(** *** Scheduling *)

(** An index taken for a slot that turns out to be full goes back to the end
    of the free list. *)
Lemma tables_return e f r r' idx free arm : tables e f r (idx :: free) arm -> ring_repr index_kind kn r' free ->
  exists r2, enqueue idx r' = Ret (r2, true) /\ tables e f r2 (free ++ [idx]) arm.
Proof using Hkn Hks Hkp.
  intros HT Hr'. pose proof (tables_count _ _ _ _ _ HT) as Hc. cbn [length] in Hc.
  destruct (bq_push_ok (BoundedQueue:=free_queue) r' free idx Hr') as (r2 & E2 & Hr2).
  { cbn [bq_cap free_queue ring_queue]. lia. }
  exists r2. split; [exact E2|]. destruct HT. constructor; try done.
  - rewrite <- t_part0. cbn. rewrite <- app_assoc. symmetry. apply Permutation_middle.
  - intros j Hj. apply t_free0. rewrite elem_of_app, list_elem_of_singleton in Hj. rewrite elem_of_cons. tauto.
Qed.

Lemma write_pos_undo n : Z.of_nat n + 1 < 2 ^ 32 -> u32 (Z.of_nat n + 1 + 4294967295) = Z.of_nat n.
Proof using.
  intros H. replace (Z.of_nat n + 1 + 4294967295) with (Z.of_nat n + 1 * 2 ^ 32) by lia.
  rewrite wrapu_shift. apply wrapu_small. lia.
Qed.

Lemma sched_ok w a ref dur a' r : wheel_ok w a -> a_step (TSched ref dur) a = Some (a', r) ->
  exists w', w_step (TSched ref dur) w = Ret (w', r) /\ wheel_ok w' a'.
Proof using Hks Hkn Hkp.
  intros H Ha. destruct w as [wslots went wfire wfree wcur]. pose proof (ok_tables _ _ H) as HT.
  pose proof (slots_length _ _ H) as Hlen. cbn [wheelEntries wheelFire wheelFreeRing wheelSlots] in HT, Hlen.
  pose proof (ok_current _ _ H) as Hcur. cbn [wheelCurrent] in Hcur. cbn [a_step] in Ha.
  unfold w_step, schedule. cbn [wheelFreeRing]. destruct (a_free a) as [|idx free] eqn:Ef.
  { destruct (bq_pop_empty (BoundedQueue:=free_queue) _ (t_ring _ _ _ _ _ HT)) as (r' & E & Hr').
    change (dequeue wfree = Ret (r', None)) in E. rewrite E. injection Ha as <- <-.
    eexists. split; [reflexivity|]. destruct H. constructor; try done.
    cbn [wheelEntries wheelFire wheelFreeRing with_free]. rewrite Ef. destruct HT. by constructor. }
  destruct (tables_arm _ _ _ _ _ _ ref HT) as (Hidx & r' & E & HT' & Hr'). rewrite E.
  cbn [obind fst snd with_free wheelCurrent wheelSlots wheelEntries wheelFire wheelFreeRing].
  rewrite Hcur. fold (slot_at (a_current a) dur).
  assert (0 <= slot_at (a_current a) dur < wheelSize) as Hi by apply mask_range.
  set (i := slot_at (a_current a) dur) in *.
  destruct (slot_lookup _ _ i H Hi) as (s & x & Es & Ex & Hs). cbn [wheelSlots] in Es. rewrite Es. cbn [obind].
  rewrite Ex in Ha. destruct x as [es|]; [|done]. pose proof Hs as (Hbuf & Hfit & Hwp & Hpr & Htake).
  destruct (bq_pop_empty (BoundedQueue:=pos_queue) _ Hpr) as (pr & Ep & Hpr').
  change (dequeue (posRing s) = Ret (pr, None)) in Ep. rewrite Ep.
  cbn [obind fst snd writePos posRing buf]. rewrite bool_decide_eq_true_2 by done. cbn [andb].
  assert (2 ^ kp <= 2 ^ 16) by (apply Z.pow_le_mono_r; lia).
  assert (2 ^ ks <= 2 ^ 16) by (apply Z.pow_le_mono_r; lia).
  rewrite Hwp, (wrapu_small 32 (Z.of_nat (length es) + 1)), Z.add_simpl_r, (wrapu_small 32 (Z.of_nat (length es))) by lia.
  destruct (Z.ltb_spec (Z.of_nat (length es)) maxPerSlot) as [Hlt|Hge]; injection Ha as <- <-.
  - destruct (Z.leb_spec maxPerSlot (Z.of_nat (length es))); [lia|].
    rewrite !go_store_ok by (rewrite ?(t_entries _ _ _ _ _ HT), ?(t_fire _ _ _ _ _ HT); cbn [length]; lia).
    cbn [obind fst snd]. rewrite go_store_ok by lia. cbn [obind fst snd].
    eexists. rewrite (wrapu_small 16 i), (wrapu_small 16 (Z.of_nat (length es))) by lia.
    split; [reflexivity|]. constructor; cbn [wheelEntries wheelFire wheelFreeRing wheelSlots wheelCurrent a_slots a_free a_current].
    + eapply tables_perm; [symmetry; by apply armed_add|exact HT'].
    + rewrite Nat2Z.id. apply (slots_insert _ a _ _ _ H). by apply slot_ok_push.
    + rewrite length_insert. apply H.
    + done.
  - destruct (Z.leb_spec maxPerSlot (Z.of_nat (length es))); [|lia].
    rewrite go_store_ok by lia. cbn [obind].
    rewrite write_pos_undo by lia.
    destruct (tables_return _ _ _ _ _ _ _ HT Hr') as (r2 & E2 & HT2). rewrite E2. cbn [obind fst snd].
    eexists. split; [reflexivity|].
    constructor; cbn [wheelEntries wheelFire wheelFreeRing wheelSlots wheelCurrent a_slots a_free a_current with_free with_slots].
    + exact HT2.
    + rewrite <- (list_insert_id (a_slots a) (Z.to_nat i) (Some es)) by done.
      apply (slots_insert _ a _ _ _ H). by repeat split.
    + apply H.
    + done.
Qed.

Local Ltac wsimpl :=
  cbn [obind fst snd wheelSlots wheelEntries wheelFire wheelFreeRing wheelCurrent
       with_slots with_entries with_fire with_free a_slots a_free a_current].

(** *** Cancelling *)

Lemma slot_ok_cancel s es p t :
  slot_ok s (Some es) -> es !! p = Some (Some t) ->
  slot_ok (mkSlot (writePos s) (posRing s) (<[p:=0]> (buf s))) (Some (<[p:=None]> es)).
Proof using.
  intros (Hbuf & Hfit & Hwp & Hpr & Htake) Hp. split; cbn [buf writePos posRing]; [by rewrite length_insert|].
  rewrite length_insert. do 3 (split; [done|]). apply lookup_lt_Some in Hp.
  rewrite take_insert_lt by lia. rewrite Htake. symmetry. apply list_fmap_insert.
Qed.

Lemma cancel_ok w a h a' r : wheel_ok w a -> a_step (TCancel h) a = Some (a', r) ->
  exists w', w_step (TCancel h) w = Ret (w', r) /\ wheel_ok w' a'.
Proof using Hks Hkn Hkp.
  intros H Ha. destruct w as [wslots went wfire wfree wcur]. pose proof (ok_tables _ _ H) as HT.
  pose proof (slots_length _ _ H) as Hlen. cbn [wheelEntries wheelFire wheelFreeRing wheelSlots] in HT, Hlen.
  cbn [a_step] in Ha. unfold w_step, cancel.
  destruct (Z.eqb_spec (h_idx h) 0) as [E0|E0].
  { injection Ha as <- <-. eexists. split; [reflexivity|exact H]. }
  wsimpl.
  case_bool_decide as Hfree.
  { injection Ha as <- <-. pose proof (tables_range _ _ _ _ _ (h_idx h) HT ltac:(apply elem_of_app; by left)) as Hr.
    rewrite go_store_ok by (rewrite (t_entries _ _ _ _ _ HT); lia). wsimpl.
    rewrite (go_index_Z wfire (h_idx h) None) by (lia || by apply (t_free _ _ _ _ _ HT)). wsimpl.
    eexists. split; [reflexivity|]. destruct H. constructor; try done. cbn. by apply tables_stale. }
  destruct (a_slots a !! Z.to_nat (h_slot h)) as [[es|]|] eqn:Ex; try done.
  destruct (es !! Z.to_nat (h_pos h)) as [[[idx ref]|]|] eqn:Ep; try done.
  destruct (Z.eqb_spec idx (h_idx h)) as [->|]; [|done].
  destruct (Z.leb_spec 0 (h_slot h)), (Z.leb_spec 0 (h_pos h)); try done. injection Ha as <- <-.
  pose proof (armed_cancel _ _ _ _ _ Ex Ep) as HP. pose proof (tables_perm _ _ _ _ _ _ HP HT) as HT1.
  pose proof (tables_range _ _ _ _ _ (h_idx h) HT1 ltac:(apply elem_of_app; right; by left)) as Hr.
  destruct (tables_release _ _ _ _ _ _ _ HT1) as (r' & Eq & HT2).
  destruct (t_armed _ _ _ _ _ HT1 (h_idx h) ref ltac:(by left)) as [Hf _].
  rewrite go_store_ok by (rewrite (t_entries _ _ _ _ _ HT); lia). wsimpl.
  rewrite (go_index_Z wfire (h_idx h) (Some ref)) by (done || lia). wsimpl.
  pose proof (lookup_lt_Some _ _ _ Ex) as Hsl. rewrite (ok_len _ _ H) in Hsl.
  destruct (slot_lookup _ _ (h_slot h) H) as (s & x & Es & Ex' & Hs); [lia|]. cbn [wheelSlots] in Es.
  rewrite Ex in Ex'. injection Ex' as <-. rewrite Es. wsimpl.
  pose proof Hs as (Hbuf & Hfit & _). pose proof (lookup_lt_Some _ _ _ Ep) as Hpl.
  rewrite go_store_ok by lia. wsimpl. rewrite go_store_ok by lia. wsimpl.
  rewrite Eq. wsimpl. eexists. split; [reflexivity|].
  constructor; wsimpl.
  - apply HT2.
  - apply (slots_insert _ a _ _ _ H). by eapply slot_ok_cancel.
  - rewrite length_insert. apply H.
  - apply (ok_current _ _ H).
Qed.

(** *** Ticking *)

Lemma tables_fired e f r free idx ref arm :
  tables e f r free ((idx, ref) :: arm) ->
  e !! Z.to_nat idx = Some 0 /\ f !! Z.to_nat idx = Some (Some ref) /\ 1 <= idx < maxWheelEntries /\
  exists r', enqueue idx r = Ret (r', true) /\ tables e (<[Z.to_nat idx:=None]> f) r' (free ++ [idx]) arm.
Proof using Hkn.
  intros H. destruct (t_armed _ _ _ _ _ H idx ref ltac:(by left)) as [Hf He].
  pose proof (tables_range _ _ _ _ _ idx H ltac:(apply elem_of_app; right; by left)).
  destruct (tables_release _ _ _ _ _ _ _ H) as (r' & Eq & HT). do 3 (split; [done|]).
  exists r'. split; [done|]. specialize (HT 0). by rewrite list_insert_id in HT.
Qed.

Lemma fire_position_ok x rest i slot w s free others :
  0 <= slot -> wheelSlots w !! Z.to_nat slot = Some s -> 0 <= i ->
  Z.of_nat (length (buf s)) = maxPerSlot -> buf s !! Z.to_nat i = Some (code x) ->
  tables (wheelEntries w) (wheelFire w) (wheelFreeRing w) free (armed_in (x :: rest) ++ others) ->
  exists w' b, fire_position slot i s w = Ret (w', armed_in [x] ≫= (fun t => fire t.2)) /\
    wheelSlots w' = <[Z.to_nat slot:=mkSlot (writePos s) (posRing s) b]> (wheelSlots w) /\
    Z.of_nat (length b) = maxPerSlot /\ drop (S (Z.to_nat i)) b = drop (S (Z.to_nat i)) (buf s) /\
    wheelCurrent w' = wheelCurrent w /\
    tables (wheelEntries w') (wheelFire w') (wheelFreeRing w') (free ++ (armed_in [x]).*1) (armed_in rest ++ others).
Proof using Hkn Hkp.
  intros Hslot Hs Hi Hbuf Hidx HT. unfold fire_position. rewrite (go_index_Z _ i _ Hi Hidx). wsimpl.
  destruct x as [[idx ref]|]; cbn [code] in *.
  - destruct (tables_fired _ _ _ _ _ _ _ HT) as (He & Hf & Hr & r' & Eq & HT').
    destruct (Z.eqb_spec idx 0); [lia|]. cbn [negb].
    rewrite (go_index_Z _ idx _ ltac:(lia) Hf). wsimpl.
    rewrite (go_index_Z _ idx _ ltac:(lia) He). wsimpl. rewrite Eq. wsimpl. cbn [Z.eqb].
    pose proof (lookup_lt_Some _ _ _ Hs). pose proof (lookup_lt_Some _ _ _ Hidx).
    rewrite go_store_ok by lia. wsimpl. rewrite go_store_ok by lia. wsimpl.
    do 2 eexists. split; [cbn; by rewrite app_nil_r|]. wsimpl.
    split; [done|]. split; [by rewrite length_insert|]. split; [|split; [done|exact HT']].
    apply drop_insert_lt. lia.
  - cbn [Z.eqb negb]. exists w, (buf s). split; [done|]. split.
    { rewrite list_insert_id; [done|]. by destruct s. }
    do 3 (split; [done|]). cbn. by rewrite app_nil_r.
Qed.

Lemma tick_positions_ok rest i slot w s free others q :
  0 <= slot -> wheelSlots w !! Z.to_nat slot = Some s -> 0 <= i ->
  Z.of_nat (length (buf s)) = maxPerSlot ->
  take (length rest) (drop (Z.to_nat i) (buf s)) = code <$> rest ->
  ring_repr index_kind kp (posRing s) q -> Z.of_nat (length q) + Z.of_nat (length rest) <= maxPerSlot ->
  tables (wheelEntries w) (wheelFire w) (wheelFreeRing w) free (armed_in rest ++ others) ->
  exists w' s', tick_positions (length rest) i slot w = Ret (w', armed_in rest ≫= (fun t => fire t.2)) /\
    wheelSlots w' = <[Z.to_nat slot:=s']> (wheelSlots w) /\ Z.of_nat (length (buf s')) = maxPerSlot /\
    (rest = [] -> s' = s) /\ wheelCurrent w' = wheelCurrent w /\
    tables (wheelEntries w') (wheelFire w') (wheelFreeRing w') (free ++ (armed_in rest).*1) others.
Proof using Hkn Hkp.
  intros Hslot. revert i w s free q.
  induction rest as [|x rest IH]; intros i w s free q Hs Hi Hbuf Htake Hq Hroom HT.
  { exists w, s. cbn. rewrite list_insert_id, app_nil_r by done. done. }
  cbn [length] in *. cbn [tick_positions]. rewrite (go_index_Z _ slot s Hslot Hs). wsimpl.
  destruct (buf s !! Z.to_nat i) as [idx|] eqn:Hidx.
  2:{ rewrite drop_ge in Htake by (by apply lookup_ge_None). done. }
  rewrite (drop_S _ idx (Z.to_nat i) Hidx) in Htake. cbn in Htake. injection Htake as -> Htake.
  destruct (fire_position_ok x rest i slot w s free others Hslot Hs Hi Hbuf Hidx HT)
    as (w1 & b1 & -> & Hslots1 & Hbuf1 & Hdrop1 & Hcur1 & HT1). wsimpl.
  pose proof (lookup_lt_Some _ _ _ Hs) as Hl.
  assert (wheelSlots w1 !! Z.to_nat slot = Some (mkSlot (writePos s) (posRing s) b1)) as Hs1
    by (rewrite Hslots1; by apply list_lookup_insert_eq).
  rewrite (go_index_Z _ slot _ Hslot Hs1). wsimpl. cbn [posRing writePos buf].
  destruct (bq_push_ok (BoundedQueue:=pos_queue) _ q i Hq) as (pr & Ep & Hpr).
  { cbn [bq_cap pos_queue ring_queue]. lia. }
  change (enqueue i (posRing s) = Ret (pr, true)) in Ep. rewrite Ep. wsimpl.
  rewrite go_store_ok by (rewrite Hslots1, length_insert; lia). wsimpl.
  destruct (IH (i + 1) (with_slots w1 (<[Z.to_nat slot:=mkSlot (writePos s) pr b1]> (wheelSlots w1)))
              (mkSlot (writePos s) pr b1) (free ++ (armed_in [x]).*1) (q ++ [i]))
    as (w' & s' & -> & Hslots' & Hbuf' & _ & Hcur' & HT').
  - wsimpl. apply list_lookup_insert_eq. rewrite Hslots1, length_insert. lia.
  - lia.
  - done.
  - cbn [buf]. replace (Z.to_nat (i + 1)) with (S (Z.to_nat i)) by lia. by rewrite Hdrop1.
  - exact Hpr.
  - rewrite length_app. cbn [length]. lia.
  - exact HT1.
  - wsimpl. exists w', s'. split.
    { do 2 f_equal. destruct x as [t|]; cbn; [by rewrite app_nil_r|done]. }
    rewrite Hslots'. wsimpl. rewrite Hslots1, !list_insert_insert_eq.
    split; [done|]. split; [done|]. split; [done|]. split; [rewrite Hcur'; exact Hcur1|].
    rewrite <- app_assoc in HT'. by destruct x.
Qed.

Lemma tick_ok w a unix a' r : wheel_ok w a -> a_step (TTick unix) a = Some (a', r) ->
  exists w', w_step (TTick unix) w = Ret (w', r) /\ wheel_ok w' a'.
Proof using Hks Hkn Hkp.
  intros H Ha. cbn [a_step] in Ha. unfold w_step, run_tick, wheelTick.
  pose proof (mask_range unix) as Hi. set (i := Z.land (u32 unix) (wheelMask wheelSize)) in *.
  destruct (slot_lookup _ _ i H Hi) as (s & x & Es & Ex & Hs). wsimpl. rewrite Es. wsimpl.
  rewrite Ex in Ha. destruct x as [es|]; [|done]. injection Ha as <- <-.
  pose proof Hs as (Hbuf & Hfit & Hwp & Hpr & Htake). pose proof (slots_length _ _ H) as Hlen.
  rewrite go_store_ok by lia. wsimpl. rewrite Hwp, Nat2Z.id.
  pose proof (tables_perm _ _ _ _ _ _ (armed_clear _ _ _ Ex) (ok_tables _ _ H)) as HT.
  destruct (tick_positions_ok es 0 i
    (mkTW (<[Z.to_nat i:=mkSlot 0 (posRing s) (buf s)]> (wheelSlots w)) (wheelEntries w) (wheelFire w)
       (wheelFreeRing w) i) (mkSlot 0 (posRing s) (buf s)) (a_free a)
    (all_armed (<[Z.to_nat i:=match es with [] => Some [] | _ => None end]> (a_slots a))) [])
    as (w' & s' & E & Hslots' & Hbuf' & Hs' & Hcur' & HT'); wsimpl; try done; try lia.
  - apply list_lookup_insert_eq. lia.
  - change (mkTW ?a ?b ?c ?d ?e) with (mkTW a b c d e) in E. unfold with_slots. wsimpl.
    rewrite E. wsimpl. eexists. split; [reflexivity|]. constructor; wsimpl.
    + exact HT'.
    + rewrite Hslots'. wsimpl. rewrite list_insert_insert_eq. apply (slots_insert _ a _ _ _ H).
      destruct es as [|e es]; [|by split]. rewrite Hs' by done. by repeat split.
    + rewrite length_insert. apply H.
    + rewrite Hcur'. done.
Qed.

(** *** Starting *)

Lemma seed_ok n i r l :
  ring_repr index_kind kn r l -> (length l + n <= Z.to_nat maxWheelEntries)%nat -> 0 <= i ->
  i + Z.of_nat n < 2 ^ 32 ->
  exists r', seed n i r = Ret r' /\ ring_repr index_kind kn r' (l ++ seqZ (i + 1) (Z.of_nat n)).
Proof using Hkn.
  revert i r l. induction n as [|n IH]; intros i r l Hr Hl Hi Hb; cbn [seed].
  { exists r. by rewrite app_nil_r. }
  rewrite (wrapu_small 32) by lia.
  destruct (bq_push_ok (BoundedQueue:=free_queue) r l (i + 1) Hr) as (r1 & E & Hr1).
  { cbn [bq_cap free_queue ring_queue]. lia. }
  change (enqueue (i + 1) r = Ret (r1, true)) in E. rewrite E. cbn [obind fst].
  destruct (IH (i + 1) r1 (l ++ [i + 1])) as (r' & -> & Hr'); [exact Hr1|rewrite length_app; cbn; lia|lia|lia|].
  exists r'. split; [done|]. rewrite <- app_assoc in Hr'. cbn [app] in Hr'.
  rewrite (seqZ_cons (i + 1)) by lia. by replace (Z.pred (Z.of_nat (S n))) with (Z.of_nat n) by lia.
Qed.

Lemma start_ok : exists w, StartTimerWheel wheelSize maxWheelEntries maxPerSlot = Ret w /\ wheel_ok w a_start.
Proof using Hks Hkn Hkp.
  assert (2 ^ 1 <= 2 ^ kn <= 2 ^ 31) as HN by (split; apply Z.pow_le_mono_r; lia).
  assert (2 ^ 1 <= 2 ^ kp) as HP by (apply Z.pow_le_mono_r; lia).
  unfold StartTimerWheel.
  destruct (seed_ok (Z.to_nat (maxWheelEntries - 1)) 0 (new_ring (Z.to_nat maxWheelEntries) 0) [])
    as (r & -> & Hr); [by apply new_ring_repr, free_kind_ok|cbn; lia|lia|lia|].
  cbn [obind app] in *. rewrite Z2Nat.id in Hr by lia. eexists. split; [reflexivity|].
  assert (all_armed (replicate (Z.to_nat wheelSize) (Some [])) = []) as Harm.
  { induction (Z.to_nat wheelSize) as [|m IH]; [done|]. exact IH. }
  constructor; cbn [wheelEntries wheelFire wheelFreeRing wheelSlots wheelCurrent a_slots a_free a_current a_start].
  - rewrite Harm. constructor.
    + exact Hr.
    + by rewrite app_nil_r.
    + rewrite length_replicate. lia.
    + rewrite length_replicate. lia.
    + intros idx ref Hin. by apply not_elem_of_nil in Hin.
    + intros idx Hin. apply elem_of_seqZ in Hin. apply lookup_replicate_2. lia.
  - apply Forall2_replicate. split; cbn [buf]; [rewrite length_replicate; lia|].
    cbn [length writePos posRing]. split; [lia|]. split; [done|]. split; [by apply new_ring_repr, pos_kind_ok|done].
  - apply length_replicate.
  - done.
Qed.

Lemma step_ok w a o a' r : wheel_ok w a -> a_step o a = Some (a', r) ->
  exists w', w_step o w = Ret (w', r) /\ wheel_ok w' a'.
Proof using Hks Hkn Hkp.
  destruct o; [apply sched_ok|apply cancel_ok|apply tick_ok].
Qed.

Lemma run_ok ops w a rs : wheel_ok w a -> a_run ops a = Some rs -> answers w_step ops w = Ret rs.
Proof using Hks Hkn Hkp.
  revert w a rs. induction ops as [|o ops IH]; intros w a rs H Ha; cbn in Ha |- *.
  { by injection Ha as <-. }
  destruct (a_step o a) as [[a1 r]|] eqn:E; [|done]. cbn in Ha.
  destruct (a_run ops a1) as [rs1|] eqn:E1; [|done]. injection Ha as <-.
  destruct (step_ok w a o a1 r H E) as (w1 & -> & H1). cbn. by rewrite (IH w1 a1 rs1 H1 E1).
Qed.
End spec.

(** C28: The first revolution of the timer wheel.  For any wheel, entry and
    slot sizes that are powers of two in the range of the code's types, start
    the wheel and run any sequence of schedules, cancellations and ticks that
    the abstract wheel accounts for: no slot is used again after it held
    timers and was ticked, and a cancelled handle is either armed or its index
    free.  The wheel then answers as the abstract one does.  A timer goes to
    the slot of the first whole second after its duration, or is refused when
    the indices or the slot's positions are used up; a cancelled timer never
    fires; the tick of a slot fires exactly the timers armed in it, in order,
    and returns every index.  No access is out of range. *)
Theorem timer_wheel_first_revolution (ks kn kp : Z) (ops : list top) (rs : list tans) :
  0 <= ks <= 16 -> 1 <= kn <= 31 -> 1 <= kp <= 16 ->
  a_run ks kp ops (a_start ks kn) = Some rs ->
  (w <-- StartTimerWheel (2 ^ ks) (2 ^ kn) (2 ^ kp) ;; answers (w_step ks kp) ops w) = Ret rs.
Proof.
  intros Hks Hkn Hkp Ha. destruct (start_ok ks kn kp Hks Hkn Hkp) as (w & -> & Hw). cbn [obind].
  by apply (run_ok ks kn kp Hks Hkn Hkp ops w (a_start ks kn)).
Qed.

Definition body_ref (b : Z) : fireRef := mkRef wheelKindBody (Some b) None 0.

Lemma timer_wheel_first_revolution_witness :
  (w <-- StartTimerWheel (2 ^ 2) (2 ^ 3) (2 ^ 1) ;;
   answers (w_step 2 1)
     [TSched (body_ref 70) 0; TSched (body_ref 71) 500000000; TSched (body_ref 72) 0; TSched (body_ref 73) 1000000000;
      TCancel (mkHandle 1 1 0); TTick 1; TTick 2] w)
  = Ret [RHandle (mkHandle 1 1 0); RHandle (mkHandle 2 1 1); RHandle no_handle; RHandle (mkHandle 4 2 0); RDone;
         RFired [CloseBody 71]; RFired [CloseBody 73]].
Proof. apply (timer_wheel_first_revolution 2 3 1); [lia|lia|lia|vm_compute; reflexivity]. Defined.

(** The tick resets the high-water mark of a slot to zero and puts its
    positions on the recycle ring; the next timer of that slot gets a recycled
    position, which leaves the mark at zero, and the next tick of the slot
    looks at no position at all: the timer is lost. *)
Theorem recycled_timer_never_fires :
  (w <-- StartTimerWheel (2 ^ 2) (2 ^ 3) (2 ^ 1) ;;
   answers (w_step 2 1)
     [TSched (body_ref 70) 0; TTick 1; TTick 2; TTick 3; TTick 4; TSched (body_ref 71) 0; TTick 5] w)
  = Ret [RHandle (mkHandle 1 1 0); RFired [CloseBody 70]; RFired []; RFired []; RFired [];
         RHandle (mkHandle 2 1 0); RFired []].
Proof. vm_compute. reflexivity. Qed.
