(* ===== verification/OpBuffer.v ===== *)
(** * The storage operation buffer (rctx/ops.go, FlowManager.flushOps)

    Flow steps do not write to the cache or the registry themselves: they
    append operations to a buffer of 64, and a flush hands the buffered
    operations to the executors in one batch.  An operation holds slices into
    the request's memory, so what is submitted is what those slices show at
    the time of the flush.

    The executors are reached through an interface; [cacheExec] and
    [registryExec] give the result of every operation of a batch ([None] for
    a miss), and are [None] when not configured.  The JSON queries of the
    extract step (a third-party package) are the parameters [json_get] and
    [json_elems]. *)

From S2P Require Import Prelude Context.

Local Open Scope Z_scope.
Local Open Scope rah_scope.

Inductive OpType : Type := OpPut | OpGet.
Inductive OpTarget : Type := TargetCache | TargetRegistryURL | TargetRegistryID | TargetRegistryMeta.

#[export] Instance OpType_eq_dec : EqDecision OpType.
Proof. solve_decision. Defined.

Definition DefaultMaxOps : Z := 64.

Record StorageOp : Type := mkOp {
  op_type : OpType;
  op_target : OpTarget;
  op_async : bool;
  op_tenant : Z;
  op_ttl : Z;
  op_key : option slice;
  op_value : option slice;
  op_dest : Z
}.

(** The zero value an array element starts with. *)
Definition zero_op : StorageOp := mkOp OpPut TargetCache false 0 0 None None 0.

(** An operation as an executor sees it. *)
Record Submitted : Type := mkSub_ {
  su_type : OpType;
  su_target : OpTarget;
  su_async : bool;
  su_tenant : Z;
  su_ttl : Z;
  su_key : byte_string;
  su_value : byte_string;
  su_dest : Z
}.

(** A batch: which executor, whether the flush waits, the operations. *)
Record Batch : Type := mkBatch { b_cache : bool; b_sync : bool; b_ops : list Submitted }.

(** The part of the context the buffer uses; [submitted] collects the batches. *)
Record OpCtx : Type := mkOpCtx {
  oc : Context;
  opsBase : list StorageOp;
  OpCount : Z;
  TenantID : Z;
  submitted : list Batch
}.

Definition with_oc (c : OpCtx) (x : Context) : OpCtx := mkOpCtx x (opsBase c) (OpCount c) (TenantID c) (submitted c).
Definition with_tenant (c : OpCtx) (t : Z) : OpCtx := mkOpCtx (oc c) (opsBase c) (OpCount c) t (submitted c).
Definition log_batch (c : OpCtx) (b : Batch) : OpCtx :=
  mkOpCtx (oc c) (opsBase c) (OpCount c) (TenantID c) (submitted c ++ [b]).

Definition ResetOps (c : OpCtx) : OpCtx :=
  let m := mem (oc c) in
  mkOpCtx (mkContext (mkMem (arenaInline m) (arenaUsed m) (arenaExt m) (poolBlock m) (opKeysBuf m) 0 (heap m)
                        (ArenaOverflowed m)) (slots (oc c)))
    (opsBase c) 0 (TenantID c) (submitted c).

Section buffer.
Context (cacheExec registryExec : option (list Submitted -> list (option byte_string))).

(** The pool wires the auto-flush only when an executor is configured. *)
Definition wired : bool := bool_decide (is_Some cacheExec) || bool_decide (is_Some registryExec).
Definition MaxOps : Z := if wired then DefaultMaxOps else 0.

(** What an executor reads of an operation. *)
Definition submit_op (c : Context) (o : StorageOp) : Submitted :=
  mkSub_ (op_type o) (op_target o) (op_async o) (op_tenant o) (op_ttl o) (value c (op_key o)) (value c (op_value o))
    (op_dest o).

Definition needs_sync (ops : list StorageOp) : bool :=
  existsb (fun o => bool_decide (op_type o = OpGet) || negb (op_async o)) ops.

(** The result of a GET is a fresh object of the executor's, stored in its slot. *)
Definition write_result (c : Context) (o : StorageOp) (r : option byte_string) : outcome Context :=
  match op_type o, r with
  | OpGet, Some data =>
    if op_dest o <? Z.of_nat (length (ByteSlots (slots c))) then
      let '(m, s) := make_bytes (mem c) (Z.of_nat (length data)) (ArenaOverflowed (mem c)) in
      sl <-- put_slot (slots c) (op_dest o) (Some s) ;;
      Ret (mkContext (copy m s data) sl)
    else Ret c
  | _, _ => Ret c
  end.

Fixpoint write_results (c : Context) (ops : list StorageOp) (rs : list (option byte_string)) : outcome Context :=
  match ops with
  | [] => Ret c
  | o :: ops => c <-- write_result c o (mjoin (head rs)) ;; write_results c ops (tail rs)
  end.

Definition is_cache (o : StorageOp) : bool := match op_target o with TargetCache => true | _ => false end.

Definition flushOps (c : OpCtx) : outcome OpCtx :=
  if OpCount c =? 0 then Ret c
  else
    ops <-- go_slice (opsBase c) 0 (OpCount c) ;;
    let c := ResetOps c in
    let cacheOps := base.filter (fun o => is_cache o = true) ops in
    let registryOps := base.filter (fun o => is_cache o = false) ops in
    let cacheSync := needs_sync cacheOps in
    let registrySync := needs_sync registryOps in
    let cacheIn := submit_op (oc c) <$> cacheOps in
    let registryIn := submit_op (oc c) <$> registryOps in
    let useCache := bool_decide (is_Some cacheExec) && negb (bool_decide (cacheOps = [])) in
    let useRegistry := bool_decide (is_Some registryExec) && negb (bool_decide (registryOps = [])) in
    let c := if useCache then log_batch c (mkBatch true cacheSync cacheIn) else c in
    let c := if useRegistry then log_batch c (mkBatch false registrySync registryIn) else c in
    match cacheExec with
    | Some exec =>
      if useCache && cacheSync then
        x <-- write_results (oc c) cacheOps (exec cacheIn) ;; Ret (with_oc c x)
      else Ret c
    | None => Ret c
    end.

(** [if ctx.MaxOps > 0 && ctx.OpCount >= ctx.MaxOps { ctx.OnFlush(ctx) }] *)
Definition make_room (c : OpCtx) : outcome OpCtx :=
  if (0 <? MaxOps) && (MaxOps <=? OpCount c) then
    if wired then flushOps c else Ret c
  else Ret c.

Definition push_op (c : OpCtx) (o : StorageOp) : outcome OpCtx :=
  _ <-- go_index (opsBase c) (OpCount c) ;;
  Ret (mkOpCtx (oc c) (<[Z.to_nat (OpCount c):=o]> (opsBase c)) (OpCount c + 1) (TenantID c) (submitted c)).

Definition EmitPut (c : OpCtx) (key value : option slice) (target : OpTarget) (async : bool) (ttl : Z)
  : outcome OpCtx :=
  c <-- make_room c ;; push_op c (mkOp OpPut target async (TenantID c) ttl key value 0).

Definition EmitGet (c : OpCtx) (key : option slice) (target : OpTarget) (destSlot : Z) : outcome OpCtx :=
  c <-- make_room c ;; push_op c (mkOp OpGet target false (TenantID c) 0 key None destSlot).

(** ** Steps *)

(** [ctx.ByteSlots[i]] and its length. *)
Definition slot (c : OpCtx) (i : Z) : outcome (option slice) := go_index (ByteSlots (slots (oc c))) i.
Definition empty (v : option slice) : bool := match v with Some s => sl_len s =? 0 | None => true end.

Definition globalCacheTenantID : Z := 0.

Definition CachePut (keySlot valueSlot ttl : Z) (c : OpCtx) : outcome OpCtx :=
  key <-- slot c keySlot ;;
  val <-- slot c valueSlot ;;
  if negb (empty key) && negb (empty val) then EmitPut c key val TargetCache true ttl else Ret c.

Definition CachePutGlobal (keySlot valueSlot ttl : Z) (c : OpCtx) : outcome OpCtx :=
  key <-- slot c keySlot ;;
  val <-- slot c valueSlot ;;
  if negb (empty key) && negb (empty val) then
    let saved := TenantID c in
    c <-- EmitPut (with_tenant c globalCacheTenantID) key val TargetCache true ttl ;;
    Ret (with_tenant c saved)
  else Ret c.

Definition CacheGetBatched (keySlot destSlot : Z) (c : OpCtx) : outcome OpCtx :=
  key <-- slot c keySlot ;;
  if empty key then Ret c else EmitGet c key TargetCache destSlot.

Definition CacheGetGlobalBatched (keySlot destSlot : Z) (c : OpCtx) : outcome OpCtx :=
  key <-- slot c keySlot ;;
  if empty key then Ret c
  else
    let saved := TenantID c in
    c <-- EmitGet (with_tenant c globalCacheTenantID) key TargetCache destSlot ;;
    Ret (with_tenant c saved).

Definition BatchFlush (c : OpCtx) : outcome OpCtx :=
  if (0 <? OpCount c) && wired then flushOps c else Ret c.

(** The end of [ProcessRequest]. *)
Definition finish_request (c : OpCtx) : outcome OpCtx :=
  if wired && (0 <? OpCount c) then flushOps c else Ret c.

(** *** extract.go *)

Record ExtractOp : Type := mkExtract {
  x_path : byte_string;
  x_prefix : byte_string;
  x_type : OpType;
  x_target : OpTarget;
  x_dest : Z;
  x_valueSlot : Z;
  x_valuePath : byte_string;
  x_async : bool;
  x_ttl : Z
}.

(** [[]byte(s)]: a fresh object. *)
Definition fresh_bytes (c : OpCtx) (data : byte_string) : OpCtx * slice :=
  let x := oc c in
  let '(m, s) := make_bytes (mem x) (Z.of_nat (length data)) (ArenaOverflowed (mem x)) in
  (with_oc c (mkContext (copy m s data) (slots x)), s).

(** The key of an operation, built in the key buffer. *)
Definition build_key (c : OpCtx) (prefix extracted : byte_string) : OpCtx * slice :=
  let x := oc c in
  let '(m, s) := AllocOpKey (mem x) (Z.of_nat (length prefix + length extracted)) in
  (with_oc c (mkContext (copy m s (prefix ++ extracted)) (slots x)), s).

(** One field that was found: emit its operation.  [valueOf] is what
    [ValuePath] selects, when the step uses it. *)
Definition emit_field (c : OpCtx) (op : ExtractOp) (extracted : byte_string) (valueOf : option byte_string)
  : outcome OpCtx :=
  let '(c, key) := build_key c (x_prefix op) extracted in
  match x_type op with
  | OpGet => EmitGet c (Some key) (x_target op) (x_dest op)
  | OpPut =>
    if 0 <=? x_valueSlot op then
      val <-- slot c (x_valueSlot op) ;; EmitPut c (Some key) val (x_target op) (x_async op) (x_ttl op)
    else
      let '(c, val) := fresh_bytes c (default extracted valueOf) in
      EmitPut c (Some key) (Some val) (x_target op) (x_async op) (x_ttl op)
  end.

Context (json_get : byte_string -> byte_string -> option byte_string).
Context (json_elems : byte_string -> byte_string -> option (list byte_string)).

Definition found (doc path : byte_string) : option byte_string :=
  match json_get doc path with Some (b :: bs) => Some (b :: bs) | _ => None end.

Fixpoint emit_fields (c : OpCtx) (doc : byte_string) (useValuePath : bool) (ops : list ExtractOp) : outcome OpCtx :=
  match ops with
  | [] => Ret c
  | op :: ops =>
    c <-- match found doc (x_path op) with
          | None => Ret c
          | Some extracted =>
            emit_field c op extracted
              (if useValuePath && negb (bool_decide (x_valuePath op = []))
               then Some (default [] (json_get doc (x_valuePath op))) else None)
          end ;;
    emit_fields c doc useValuePath ops
  end.

Definition JSONExtractEmit (bodySlot : Z) (ops : list ExtractOp) (c : OpCtx) : outcome OpCtx :=
  body <-- slot c bodySlot ;;
  if empty body then Ret c else emit_fields c (value (oc c) body) false ops.

Fixpoint emit_elems (c : OpCtx) (elems : list byte_string) (ops : list ExtractOp) : outcome OpCtx :=
  match elems with
  | [] => Ret c
  | e :: elems => c <-- emit_fields c e true ops ;; emit_elems c elems ops
  end.

Definition JSONForeachEmit (bodySlot : Z) (arrayPath : byte_string) (ops : list ExtractOp) (c : OpCtx)
  : outcome OpCtx :=
  body <-- slot c bodySlot ;;
  if empty body then Ret c
  else match json_elems (value (oc c) body) arrayPath with
       | None => Ret c
       | Some elems => emit_elems c elems ops
       end.
End buffer.

(** A request's context with an empty buffer. *)
Definition new_opctx (block : byte_string) (tenant : Z) : OpCtx :=
  mkOpCtx (new_context block) (replicate (Z.to_nat DefaultMaxOps) zero_op) 0 tenant [].
