(* ===== verification/OpBufferSpec.v ===== *)
(** * The storage operation buffer: specifications

    Between two flushes the request goes on writing slots and allocating; the
    buffered operations hold slices into the same memory.  The buffer refines
    an abstract one that stores the bytes themselves, as long as no key built
    in the key buffer is emitted at the moment the buffer is full. *)

From S2P Require Import Prelude Context ContextSpec OpBuffer.

Local Open Scope Z_scope.
Local Open Scope rah_scope.

Section spec.
Context (exec : list Submitted -> list (option byte_string)).
Context (registryExec : option (list Submitted -> list (option byte_string))).

Local Abbreviation cacheExec := (Some exec).

(** ** The abstract buffer *)

Record ab : Type := mkAB {
  a_vals : list byte_string;
  a_pend : list Submitted;
  a_tenant : Z;
  a_log : list Batch
}.

Definition su_cache (s : Submitted) : bool := match su_target s with TargetCache => true | _ => false end.

Definition su_sync (l : list Submitted) : bool :=
  existsb (fun s => bool_decide (su_type s = OpGet) || negb (su_async s)) l.

Definition a_result (vals : list byte_string) (s : Submitted) (r : option byte_string) : list byte_string :=
  match su_type s, r with
  | OpGet, Some data => <[Z.to_nat (su_dest s):=data]> vals
  | _, _ => vals
  end.

Fixpoint a_results (vals : list byte_string) (l : list Submitted) (rs : list (option byte_string)) : list byte_string :=
  match l with
  | [] => vals
  | s :: l => a_results (a_result vals s (mjoin (head rs))) l (tail rs)
  end.

Definition batch_of (cache : bool) (l : list Submitted) : list Batch :=
  match l with [] => [] | _ => [mkBatch cache (su_sync l) l] end.

(** Both executors are waited for when they have a get or a synchronous put,
    and the results of the gets are written back. *)
Definition a_flush (a : ab) : ab :=
  let c := base.filter (fun s => su_cache s = true) (a_pend a) in
  let r := base.filter (fun s => su_cache s = false) (a_pend a) in
  let vals := if su_sync c then a_results (a_vals a) c (exec c) else a_vals a in
  mkAB (match registryExec with
        | Some rexec => if su_sync r then a_results vals r (rexec r) else vals
        | None => vals
        end) [] (a_tenant a)
    (a_log a ++ batch_of true c ++ (match registryExec with Some _ => batch_of false r | None => [] end)).

Definition a_room (a : ab) : ab := if (64 <=? length (a_pend a))%nat then a_flush a else a.

Definition a_push (a : ab) (s : Submitted) : ab := mkAB (a_vals a) (a_pend a ++ [s]) (a_tenant a) (a_log a).

Definition val_of (a : ab) (i : Z) : byte_string := default [] (a_vals a !! Z.to_nat i).

(** What steps do: write a slot, queue operations from slots or from an
    extracted field, flush, read a slot. *)
Inductive bop : Type :=
| BWrite (threshold idx : Z) (data : byte_string)
| BPut (global : bool) (keySlot valueSlot ttl : Z)
| BGet (global : bool) (keySlot destSlot : Z)
| BExtract (op : ExtractOp) (extracted : byte_string) (valueOf : option byte_string)
| BFlush
| BRead (idx : Z).

Inductive bans : Type := BLog (log : list Batch) | BBytes (b : byte_string).

Definition tenant_for (a : ab) (global : bool) : Z := if global then globalCacheTenantID else a_tenant a.

(** [None]: the key of an extracted field would be emitted into a full buffer. *)
Definition a_step (o : bop) (a : ab) : option (ab * bans) :=
  match o with
  | BWrite _ idx data =>
    let a := mkAB (if (0 <=? idx) && (idx <? 48) then <[Z.to_nat idx:=data]> (a_vals a) else a_vals a)
               (a_pend a) (a_tenant a) (a_log a) in
    Some (a, BLog (a_log a))
  | BPut global k v ttl =>
    let key := val_of a k in
    let val := val_of a v in
    let a := if bool_decide (key = []) || bool_decide (val = []) then a
             else a_push (a_room a) (mkSub_ OpPut TargetCache true (tenant_for a global) ttl key val 0) in
    Some (a, BLog (a_log a))
  | BGet global k d =>
    let key := val_of a k in
    let a := if bool_decide (key = []) then a
             else a_push (a_room a) (mkSub_ OpGet TargetCache false (tenant_for a global) 0 key [] d) in
    Some (a, BLog (a_log a))
  | BExtract op extracted valueOf =>
    if (64 <=? length (a_pend a))%nat then None
    else
      let key := x_prefix op ++ extracted in
      let val := if 0 <=? x_valueSlot op then val_of a (x_valueSlot op) else default extracted valueOf in
      let a := a_push a
                 (match x_type op with
                  | OpGet => mkSub_ OpGet (x_target op) false (a_tenant a) 0 key [] (x_dest op)
                  | OpPut => mkSub_ OpPut (x_target op) (x_async op) (a_tenant a) (x_ttl op) key val 0
                  end) in
      Some (a, BLog (a_log a))
  | BFlush => let a := match a_pend a with [] => a | _ => a_flush a end in Some (a, BLog (a_log a))
  | BRead idx => Some (a, BBytes (val_of a idx))
  end.

Fixpoint a_run (ops : list bop) (a : ab) : option (list bans) :=
  match ops with
  | [] => Some []
  | o :: ops => '(a, r) ← a_step o a; rs ← a_run ops a; Some (r :: rs)
  end.

(** The slots an operation names exist, and no get goes to the registry. *)
Definition bop_ok (o : bop) : Prop :=
  match o with
  | BWrite _ _ _ | BFlush => True
  | BPut _ k v _ => 0 <= k < 48 /\ 0 <= v < 48
  | BGet _ k d => 0 <= k < 48 /\ 0 <= d < 48
  | BExtract op _ _ => x_valueSlot op < 48 /\ (x_type op = OpGet -> x_target op = TargetCache /\ 0 <= x_dest op < 48)
  | BRead idx => 0 <= idx < 48
  end.

(** ** The buffer *)

Definition b_step (o : bop) (c : OpCtx) : outcome (OpCtx * bans) :=
  match o with
  | BWrite th idx data => x <-- WriteSlot (oc c) th idx data ;; Ret (with_oc c x, BLog (submitted c))
  | BPut global k v ttl =>
    c <-- (if global then CachePutGlobal cacheExec registryExec k v ttl c
           else CachePut cacheExec registryExec k v ttl c) ;;
    Ret (c, BLog (submitted c))
  | BGet global k d =>
    c <-- (if global then CacheGetGlobalBatched cacheExec registryExec k d c
           else CacheGetBatched cacheExec registryExec k d c) ;;
    Ret (c, BLog (submitted c))
  | BExtract op extracted valueOf =>
    c <-- emit_field cacheExec registryExec c op extracted valueOf ;; Ret (c, BLog (submitted c))
  | BFlush => c <-- BatchFlush cacheExec registryExec c ;; Ret (c, BLog (submitted c))
  | BRead idx => b <-- ReadSlot (oc c) idx ;; Ret (c, BBytes b)
  end.

(** ** The relation *)

Definition ok_slice (m : Mem) (v : option slice) : Prop := match v with Some s => valid m s | None => True end.

Definition op_ok (m : Mem) (o : StorageOp) : Prop := ok_slice m (op_key o) /\ ok_slice m (op_value o).

(** No slot points into the key buffer. *)
Definition no_keys (s : Slots) : Prop :=
  Forall (fun v => match v with Some sl => sl_reg sl <> RKeys | None => True end) (ByteSlots s).

Definition dest_ok (s : Submitted) : Prop := su_type s = OpGet -> su_cache s = true /\ 0 <= su_dest s < 48.

Record rel (c : OpCtx) (a : ab) : Prop := {
  r_ctx : ctx_ok (oc c);
  r_nokeys : no_keys (slots (oc c));
  r_vals : values (oc c) = a_vals a;
  r_base : length (opsBase c) = 64%nat;
  r_count : OpCount c = Z.of_nat (length (a_pend a));
  r_ops : submit_op (oc c) <$> take (length (a_pend a)) (opsBase c) = a_pend a;
  r_valid : Forall (op_ok (mem (oc c))) (take (length (a_pend a)) (opsBase c));
  r_dest : Forall dest_ok (a_pend a);
  r_tenant : TenantID c = a_tenant a;
  r_log : submitted c = a_log a
}.

(** Growing the memory leaves the buffered operations as they are. *)
Lemma submit_extends m m' s s' o : extends m m' -> op_ok m o ->
  submit_op (mkContext m' s') o = submit_op (mkContext m s) o /\ op_ok m' o.
Proof using.
  intros He [Hk Hv]. unfold submit_op, value. cbn [mem].
  assert (forall v, ok_slice m v ->
    match v with Some sl => read m' sl | None => [] end = match v with Some sl => read m sl | None => [] end
    /\ ok_slice m' v) as H.
  { intros [sl|]; [|done]. intros Hs. destruct (He sl Hs). done. }
  destruct (H _ Hk) as [-> ?], (H _ Hv) as [-> ?]. done.
Qed.

Lemma ops_extends m m' s s' ops : extends m m' -> Forall (op_ok m) ops ->
  submit_op (mkContext m' s') <$> ops = submit_op (mkContext m s) <$> ops /\ Forall (op_ok m') ops.
Proof using.
  intros He. induction 1 as [|o ops Ho _ [IH1 IH2]]; [done|]. cbn.
  destruct (submit_extends m m' s s' o He Ho) as [-> ?]. rewrite IH1. split; [done|by constructor].
Qed.

(** A step on memory and slots that keeps the buffer. *)
Lemma rel_context c a x vals :
  rel c a -> ctx_ok x -> no_keys (slots x) -> extends (mem (oc c)) (mem x) -> values x = vals ->
  rel (with_oc c x) (mkAB vals (a_pend a) (a_tenant a) (a_log a)).
Proof using.
  intros H Hx Hn He Hv. destruct c as [[m s] base n t l], x as [m' s']. destruct H.
  cbn [oc mem slots opsBase OpCount TenantID submitted with_oc a_pend a_vals a_tenant a_log] in *.
  destruct (ops_extends m m' s s' _ He r_valid0) as [Hs Hok].
  constructor; cbn [oc mem slots opsBase OpCount TenantID submitted a_pend a_vals a_tenant a_log]; try done.
  etransitivity; [exact Hs|done].
Qed.

Lemma Alloc_reg m n : sl_reg (Alloc m n).2 <> RKeys.
Proof using.
  unfold Alloc, make_bytes. repeat case_match; simplify_eq; cbn; done.
Qed.

Lemma put_slot_nokeys s i sl s' : no_keys s -> sl_reg sl <> RKeys -> put_slot s i (Some sl) = Ret s' -> no_keys s'.
Proof using.
  intros Hn Hr Hp. unfold put_slot in Hp. destruct (go_index (ByteSlots s) i); try done. injection Hp as <-.
  unfold no_keys. cbn [ByteSlots]. by apply Forall_insert.
Qed.

(** Storing new bytes in a slot. *)
Lemma store_rel c a m1 sl idx data :
  rel c a -> 0 <= idx < 48 -> allocated (mem (oc c)) m1 sl (Z.of_nat (length data)) -> sl_reg sl <> RKeys ->
  exists s', put_slot (slots (oc c)) idx (Some sl) = Ret s' /\
    rel (with_oc c (mkContext (copy m1 sl data) s'))
      (mkAB (<[Z.to_nat idx:=data]> (a_vals a)) (a_pend a) (a_tenant a) (a_log a)) /\
    extends (mem (oc c)) (copy m1 sl data).
Proof using.
  intros H Hi Ha Hr. pose proof (store_spec (mem (oc c)) m1 sl data (proj1 (r_ctx _ _ H)) Ha) as (_ & _ & _ & He).
  destruct (store_slot_spec (oc c) m1 sl idx data (r_ctx _ _ H) Hi Ha) as (s' & Hp & Hc & Hv & _).
  exists s'. split; [done|]. split; [|done]. apply rel_context; [done|done| |done|].
  - by eapply put_slot_nokeys; [apply (r_nokeys _ _ H)| |].
  - by rewrite Hv, (r_vals _ _ H).
Qed.

Lemma write_rel c a th idx data : rel c a ->
  exists x, WriteSlot (oc c) th idx data = Ret x /\
    rel (with_oc c x) (mkAB (if (0 <=? idx) && (idx <? 48) then <[Z.to_nat idx:=data]> (a_vals a) else a_vals a)
                         (a_pend a) (a_tenant a) (a_log a)).
Proof using.
  intros H. unfold WriteSlot. rewrite (in_slots_48 _ idx (r_ctx _ _ H)).
  destruct ((0 <=? idx) && (idx <? 48)) eqn:Ei; cbn [negb].
  2:{ exists (oc c). split; [done|]. destruct H. by constructor. }
  set (x := if _ <=? _ then _ else _).
  assert (allocated (mem (oc c)) x.1 x.2 (Z.of_nat (length data)) /\ sl_reg x.2 <> RKeys) as [Ha Hr].
  { unfold x. destruct (Z.of_nat (length data) <=? _).
    - pose proof (Alloc_spec (mem (oc c)) (Z.of_nat (length data)) (proj1 (r_ctx _ _ H)) ltac:(lia)).
      pose proof (Alloc_reg (mem (oc c)) (Z.of_nat (length data))). by destruct (Alloc _ _).
    - split; [|done]. by apply make_bytes_spec; [apply H|lia]. }
  destruct x as [m1 sl]. cbn [fst snd] in *.
  destruct (store_rel c a m1 sl idx data H ltac:(lia) Ha Hr) as (s' & -> & Hrel & _). cbn [obind].
  by eexists.
Qed.

(** *** The flush *)

Lemma reset_read c s : read (mem (oc (ResetOps c))) s = read (mem (oc c)) s.
Proof using. by destruct s as [[] ? ?]. Qed.

Lemma reset_submit c o : submit_op (oc (ResetOps c)) o = submit_op (oc c) o.
Proof using.
  unfold submit_op, value. destruct (op_key o), (op_value o); by rewrite ?reset_read.
Qed.

Lemma reset_rel c a : rel c a ->
  rel (ResetOps c) (mkAB (a_vals a) [] (a_tenant a) (a_log a)).
Proof using.
  intros H. destruct H. destruct r_ctx0 as [Hm Hs]. constructor; cbn [a_pend a_vals a_tenant a_log length take]; try done.
  - split.
    + destruct Hm. constructor; cbn; (done || lia).
    + destruct Hs. constructor; try done. unfold no_keys in r_nokeys0. cbn [slots oc ResetOps] in *.
      apply Forall_forall. intros [sl|] Hin; [|done].
      pose proof (proj1 (Forall_forall _ _) so_valid _ Hin) as (? & ? & Hu).
      pose proof (proj1 (Forall_forall _ _) r_nokeys0 _ Hin) as Hk. cbn in Hk.
      repeat split; try done. by destruct (sl_reg sl).
Qed.

Lemma write_result_rel c a x0 o r : rel c a -> a_pend a = [] -> dest_ok (submit_op x0 o) ->
  exists x, write_result (oc c) o r = Ret x /\
    rel (with_oc c x) (mkAB (a_result (a_vals a) (submit_op x0 o) r) [] (a_tenant a) (a_log a)) /\
    extends (mem (oc c)) (mem x).
Proof using.
  intros H Hp Hd. unfold write_result, a_result. cbn [su_type su_dest submit_op] in *.
  assert (rel (with_oc c (oc c)) (mkAB (a_vals a) [] (a_tenant a) (a_log a))) as Hid.
  { destruct H. rewrite Hp in *. by constructor. }
  unfold dest_ok in Hd. cbn in Hd.
  pose proof (extends_refl (mem (oc c))).
  destruct (op_type o); [by eexists|]. destruct r as [data|]; [|by eexists].
  specialize (Hd eq_refl) as [_ Hd]. rewrite (so_bytes _ _ (proj2 (r_ctx _ _ H))).
  zcases.
  pose proof (make_bytes_spec (mem (oc c)) (Z.of_nat (length data)) (ArenaOverflowed (mem (oc c)))
    (proj1 (r_ctx _ _ H)) ltac:(lia)) as Ha.
  destruct (make_bytes _ _ _) as [m1 sl] eqn:Em.
  assert (sl_reg sl <> RKeys) as Hr by (unfold make_bytes in Em; by injection Em as _ <-).
  destruct (store_rel c a m1 sl (op_dest o) data H ltac:(lia) Ha Hr) as (s' & -> & Hrel & He). cbn [obind].
  eexists. split; [reflexivity|]. by rewrite Hp in Hrel.
Qed.

Lemma write_results_rel x0 ops rs c a : rel c a -> a_pend a = [] -> Forall dest_ok (submit_op x0 <$> ops) ->
  exists x, write_results (oc c) ops rs = Ret x /\
    rel (with_oc c x) (mkAB (a_results (a_vals a) (submit_op x0 <$> ops) rs) [] (a_tenant a) (a_log a)) /\
    extends (mem (oc c)) (mem x).
Proof using.
  revert rs c a. induction ops as [|o ops IH]; intros rs c a H Hp Hd; cbn in *.
  { exists (oc c). split; [done|]. split; [|apply extends_refl]. destruct H. rewrite Hp in *. by constructor. }
  apply Forall_cons in Hd as [Ho Hd].
  destruct (write_result_rel c a x0 o (mjoin (head rs)) H Hp Ho) as (x & -> & Hx & He). cbn [obind].
  destruct (IH (tail rs) _ _ Hx eq_refl Hd) as (x' & E & Hx' & He'). exists x'.
  split; [exact E|]. split; [exact Hx'|]. by eapply extends_trans.
Qed.

Lemma filter_submit (x : Context) (b : bool) (ops : list StorageOp) :
  base.filter (fun s => su_cache s = b) (submit_op x <$> ops)
  = submit_op x <$> base.filter (fun o => is_cache o = b) ops.
Proof using.
  induction ops as [|o ops IH]; [done|]. cbn [fmap list_fmap]. rewrite !filter_cons.
  change (su_cache (submit_op x o)) with (is_cache o).
  destruct (decide (is_cache o = b)); [cbn; by f_equal|done].
Qed.

Lemma sync_submit (x : Context) (ops : list StorageOp) : su_sync (submit_op x <$> ops) = needs_sync ops.
Proof using. unfold su_sync, needs_sync. induction ops as [|o ops IH]; [done|]. cbn. by rewrite IH. Qed.

Lemma batch_submit (x : Context) cache (ops : list StorageOp) :
  batch_of cache (submit_op x <$> ops)
  = if negb (bool_decide (ops = [])) then [mkBatch cache (needs_sync ops) (submit_op x <$> ops)] else [].
Proof using.
  destruct ops as [|o ops]; [done|]. rewrite <- (sync_submit x). done.
Qed.

Lemma rel_log c a l : rel c a ->
  rel (mkOpCtx (oc c) (opsBase c) (OpCount c) (TenantID c) l) (mkAB (a_vals a) (a_pend a) (a_tenant a) l).
Proof using. intros []. by constructor. Qed.

(** The batches of a flush, in terms of the buffered operations. *)
Definition flush_log (x : Context) (cops rops : list StorageOp) : list Batch :=
  (if negb (bool_decide (cops = [])) then [mkBatch true (needs_sync cops) (submit_op x <$> cops)] else [])
  ++ match registryExec with
     | Some _ => if negb (bool_decide (rops = [])) then [mkBatch false (needs_sync rops) (submit_op x <$> rops)] else []
     | None => []
     end.

(** Without gets there is nothing to write back. *)
Lemma a_results_puts vals l rs : Forall (fun s => su_type s <> OpGet) l -> a_results vals l rs = vals.
Proof using.
  intros H. revert vals rs. induction H as [|s l Hs _ IH]; intros vals rs; [done|]. cbn [a_results].
  rewrite IH. unfold a_result. by destruct (su_type s).
Qed.

Lemma a_flush_eq a x ops :
  submit_op x <$> ops = a_pend a -> Forall dest_ok (a_pend a) ->
  let cops := base.filter (fun o => is_cache o = true) ops in
  let rops := base.filter (fun o => is_cache o = false) ops in
  a_flush a = mkAB (if needs_sync cops then a_results (a_vals a) (submit_op x <$> cops) (exec (submit_op x <$> cops))
                    else a_vals a) [] (a_tenant a) (a_log a ++ flush_log x cops rops).
Proof using.
  intros E Hd cops rops. unfold a_flush, flush_log.
  assert (Forall (fun s => su_type s <> OpGet) (base.filter (fun s => su_cache s = false) (a_pend a))) as Hr.
  { apply Forall_forall. intros s [Hs Hin]%list_elem_of_filter Hg. rewrite Forall_forall in Hd.
    destruct (Hd s Hin Hg). congruence. }
  assert (forall vals, match registryExec with
      | Some rexec => if su_sync (base.filter (fun s => su_cache s = false) (a_pend a))
          then a_results vals (base.filter (fun s => su_cache s = false) (a_pend a)) (rexec (base.filter (fun s => su_cache s = false) (a_pend a)))
          else vals
      | None => vals end = vals) as ->.
  { intros vals. destruct registryExec; [|done]. rewrite a_results_puts by done. by destruct (su_sync _). }
  rewrite <- E, !filter_submit. fold cops rops. by rewrite !batch_submit, sync_submit.
Qed.

Lemma buffered r c a : rel c a -> r = Z.of_nat (length (a_pend a)) ->
  go_slice (opsBase c) 0 r = Ret (take (length (a_pend a)) (opsBase c)).
Proof using.
  intros H ->. assert (length (a_pend a) <= 64)%nat as Hle.
  { rewrite <- (r_ops _ _ H), length_fmap, length_take, (r_base _ _ H). lia. }
  unfold go_slice. rewrite (r_base _ _ H).
  rewrite (proj2 (Z.leb_le 0 (Z.of_nat (length (a_pend a))))), (proj2 (Z.leb_le (Z.of_nat (length (a_pend a))) (Z.of_nat 64)))
    by lia. cbn [Z.leb Z.compare andb]. by rewrite Z.sub_0_r, Nat2Z.id.
Qed.

(** Slices outside the key buffer survive a flush. *)
Definition keeps (m m' : Mem) : Prop :=
  forall s, valid m s -> sl_reg s <> RKeys -> valid m' s /\ read m' s = read m s.

Lemma keeps_reset c m' : extends (mem (oc (ResetOps c))) m' -> keeps (mem (oc c)) m'.
Proof using.
  intros He s Hv Hr. destruct (He s) as [Hv' Er].
  - destruct Hv as (? & ? & Hu). repeat split; try done. by destruct (sl_reg s).
  - split; [done|]. rewrite Er. apply reset_read.
Qed.

Lemma flush_rel c a : rel c a -> a_pend a <> [] ->
  exists c', flushOps cacheExec registryExec c = Ret c' /\ rel c' (a_flush a) /\ keeps (mem (oc c)) (mem (oc c')).
Proof using.
  intros H Hne. unfold flushOps. rewrite (r_count _ _ H).
  destruct (Z.eqb_spec (Z.of_nat (length (a_pend a))) 0) as [E|_].
  { destruct (a_pend a); [done|cbn in E; lia]. }
  rewrite (buffered _ c a H eq_refl). cbn [obind].
  set (ops := take (length (a_pend a)) (opsBase c)).
  assert (submit_op (oc (ResetOps c)) <$> ops = a_pend a) as Hops.
  { etransitivity; [|exact (r_ops _ _ H)]. apply list_fmap_ext. intros i o _. apply reset_submit. }
  rewrite (a_flush_eq a (oc (ResetOps c)) ops Hops (r_dest _ _ H)).
  set (cops := base.filter (fun o => is_cache o = true) ops).
  set (rops := base.filter (fun o => is_cache o = false) ops).
  set (x0 := oc (ResetOps c)) in *. rewrite (bool_decide_eq_true_2 (is_Some cacheExec)) by done. cbn [andb].
  set (c1 := if negb _ then log_batch _ _ else _). set (c2 := if _ && _ then log_batch c1 _ else c1).
  assert (oc c2 = x0 /\ rel c2 (mkAB (a_vals a) [] (a_tenant a) (a_log a ++ flush_log x0 cops rops))) as [Eoc Hrel].
  { pose proof (reset_rel c a H) as HR. pose proof (r_log _ _ H) as Hlog.
    assert (c2 = mkOpCtx x0 (opsBase c) 0 (TenantID c) (a_log a ++ flush_log x0 cops rops)) as ->.
    { unfold c2, c1, flush_log. rewrite <- Hlog.
      destruct registryExec as [re|]; cbn [andb].
      - rewrite (bool_decide_eq_true_2 (is_Some (Some re))) by done. cbn [andb].
        destruct (bool_decide (cops = [])), (bool_decide (rops = [])); unfold log_batch;
          cbn [negb submitted oc opsBase OpCount TenantID app]; rewrite ?app_nil_r, <- ?app_assoc; reflexivity.
      - rewrite bool_decide_eq_false_2 by (by intros [? ?]). cbn [andb].
        destruct (bool_decide (cops = [])); unfold log_batch;
          cbn [negb submitted oc opsBase OpCount TenantID app]; rewrite ?app_nil_r; reflexivity. }
    split; [done|]. exact (rel_log _ _ _ HR). }
  assert (Forall dest_ok (submit_op x0 <$> cops)) as Hd.
  { unfold cops. rewrite <- filter_submit, Hops. apply Forall_forall. intros z Hz.
    apply list_elem_of_filter in Hz as [_ Hz]. by apply (proj1 (Forall_forall _ _) (r_dest _ _ H)). }
  destruct (bool_decide (cops = [])) eqn:Ec; cbn [negb andb].
  - apply bool_decide_eq_true_1 in Ec. exists c2. split; [done|]. split; [by rewrite Ec in Hrel |- *|].
    apply keeps_reset. fold x0. rewrite Eoc. apply extends_refl.
  - destruct (needs_sync cops).
    2:{ exists c2. split; [done|]. split; [done|]. apply keeps_reset. fold x0. rewrite Eoc. apply extends_refl. }
    destruct (write_results_rel x0 cops (exec (submit_op x0 <$> cops)) c2 _ Hrel eq_refl Hd) as (x & -> & Hx & He).
    cbn [obind]. eexists. split; [reflexivity|]. split; [exact Hx|]. apply keeps_reset. fold x0. rewrite <- Eoc. exact He.
Qed.

(** *** Emitting *)

Lemma room_rel c a : rel c a ->
  exists c', make_room cacheExec registryExec c = Ret c' /\ rel c' (a_room a) /\
    (length (a_pend (a_room a)) < 64)%nat /\ keeps (mem (oc c)) (mem (oc c')) /\
    ((length (a_pend a) < 64)%nat -> c' = c).
Proof using.
  intros H. unfold make_room, MaxOps, wired. rewrite (bool_decide_eq_true_2 (is_Some cacheExec)) by done.
  cbn [orb]. unfold DefaultMaxOps. cbn [Z.ltb Z.compare andb]. rewrite (r_count _ _ H). unfold a_room.
  destruct (Nat.leb_spec 64 (length (a_pend a))) as [Hge|Hlt].
  - destruct (Z.leb_spec 64 (Z.of_nat (length (a_pend a)))); [|lia].
    destruct (flush_rel c a H) as (c' & -> & Hr & Hk); [by destruct (a_pend a); cbn in Hge; [lia|]|].
    exists c'. split; [done|]. split; [done|]. split; [cbn; lia|]. split; [done|]. lia.
  - destruct (Z.leb_spec 64 (Z.of_nat (length (a_pend a)))); [lia|].
    exists c. split; [done|]. split; [done|]. split; [done|]. split; [by split|done].
Qed.

Lemma push_rel c a o s : rel c a -> (length (a_pend a) < 64)%nat ->
  op_ok (mem (oc c)) o -> submit_op (oc c) o = s -> dest_ok s ->
  exists c', push_op c o = Ret c' /\ rel c' (a_push a s).
Proof using.
  intros H Hlt Hok Hs Hd. unfold push_op. rewrite (r_count _ _ H).
  destruct (lookup_lt_is_Some_2 (opsBase c) (length (a_pend a))) as [z Hz]; [by rewrite (r_base _ _ H)|].
  rewrite (go_index_Z _ _ z) by (lia || by rewrite Nat2Z.id). cbn [obind]. rewrite Nat2Z.id.
  eexists. split; [reflexivity|]. pose proof (r_base _ _ H) as Hb. destruct H.
  assert (take (S (length (a_pend a))) (<[length (a_pend a):=o]> (opsBase c))
          = take (length (a_pend a)) (opsBase c) ++ [o]) as Et.
  { rewrite (take_S_r _ _ o) by (apply list_lookup_insert_eq; lia). by rewrite take_insert_ge by lia. }
  constructor; cbn [oc opsBase OpCount TenantID submitted a_push a_pend a_vals a_tenant a_log];
    rewrite ?length_app, ?Nat.add_1_r; cbn [length]; rewrite ?Nat.add_1_r, ?Et; try done.
  - by rewrite length_insert.
  - lia.
  - by rewrite fmap_app, r_ops0; cbn; rewrite Hs.
  - apply Forall_app. split; [done|by apply Forall_singleton].
  - apply Forall_app. split; [done|by apply Forall_singleton].
Qed.


Lemma slot_rel_val c a i : rel c a -> 0 <= i < 48 ->
  exists v, slot c i = Ret v /\ value (oc c) v = val_of a i /\ ok_slice (mem (oc c)) v /\
    (match v with Some sl => sl_reg sl <> RKeys | None => True end) /\
    (empty v = bool_decide (val_of a i = [])).
Proof using.
  intros H Hi. pose proof (proj2 (r_ctx _ _ H)) as Hs. unfold slot.
  destruct (lookup_lt_is_Some_2 (ByteSlots (slots (oc c))) (Z.to_nat i)) as [v Hv].
  { rewrite (so_bytes _ _ Hs). lia. }
  exists v. split; [by apply go_index_Z; [lia|]|].
  assert (value (oc c) v = val_of a i) as Ev.
  { unfold val_of. rewrite <- (r_vals _ _ H). by rewrite (values_lookup _ _ _ Hv). }
  assert (ok_slice (mem (oc c)) v) as Hok by exact (proj1 (Forall_lookup _ _) (so_valid _ _ Hs) _ _ Hv).
  split; [done|]. split; [done|]. split; [exact (proj1 (Forall_lookup _ _) (r_nokeys _ _ H) _ _ Hv)|].
  rewrite <- Ev. destruct v as [sl|]; [|done]. cbn. destruct Hok as (Ho & Hl & Hu).
  pose proof (used_bound (mem (oc c)) (sl_reg sl) (proj1 (r_ctx _ _ H))) as Hub.
  assert (length (read (mem (oc c)) sl) = Z.to_nat (sl_len sl)) as Hlen.
  { unfold read. rewrite length_take, length_drop. lia. }
  destruct (Z.eqb_spec (sl_len sl) 0) as [E|E].
  - rewrite E in Hlen. symmetry. apply bool_decide_eq_true_2. by apply length_zero_iff_nil.
  - symmetry. apply bool_decide_eq_false_2. intros Hnil. rewrite Hnil in Hlen. cbn in Hlen. lia.
Qed.

(** A slice that a flush keeps. *)
Lemma kept_value c c' v : keeps (mem (oc c)) (mem (oc c')) -> ok_slice (mem (oc c)) v ->
  (match v with Some sl => sl_reg sl <> RKeys | None => True end) ->
  ok_slice (mem (oc c')) v /\ value (oc c') v = value (oc c) v.
Proof using. intros Hk Hv Hr. destruct v as [sl|]; [|done]. by apply Hk. Qed.

Lemma rel_tenant c a t : rel c a -> rel (with_tenant c t) (mkAB (a_vals a) (a_pend a) t (a_log a)).
Proof using. intros []. by constructor. Qed.

(** Emitting from slots, also into a full buffer. *)
Lemma emit_rel c a (mk : Z -> StorageOp) s :
  rel c a ->
  (forall c', keeps (mem (oc c)) (mem (oc c')) -> op_ok (mem (oc c')) (mk (a_tenant a)) /\
     submit_op (oc c') (mk (a_tenant a)) = s) ->
  dest_ok s ->
  exists c', (c' <-- make_room cacheExec registryExec c ;; push_op c' (mk (TenantID c'))) = Ret c' /\
    rel c' (a_push (a_room a) s).
Proof using.
  intros H Hs Hd. destruct (room_rel c a H) as (c1 & -> & H1 & Hlt & Hk & _). cbn [obind].
  destruct (Hs c1 Hk) as [Hok Hsub]. rewrite (r_tenant _ _ H1).
  assert (a_tenant (a_room a) = a_tenant a) as -> by (unfold a_room; by destruct (_ <=? _)%nat).
  by apply push_rel.
Qed.

Lemma put_rel c a global k v ttl : rel c a -> 0 <= k < 48 -> 0 <= v < 48 ->
  exists c' a', a_step (BPut global k v ttl) a = Some (a', BLog (a_log a')) /\ rel c' a' /\
    (if global then CachePutGlobal cacheExec registryExec k v ttl c
     else CachePut cacheExec registryExec k v ttl c) = Ret c'.
Proof using.
  intros H Hk Hv. destruct (slot_rel_val c a k H Hk) as (kv & Ek & Evk & Hok & Hrk & Hempk).
  destruct (slot_rel_val c a v H Hv) as (vv & Ev & Evv & Hov & Hrv & Hempv).
  cbn [a_step]. unfold CachePutGlobal, CachePut. rewrite Ek. cbn [obind]. rewrite Ev. cbn [obind]. rewrite Hempk, Hempv.
  destruct (bool_decide (val_of a k = []) || bool_decide (val_of a v = [])) eqn:Ee.
  { exists c, a. split; [done|]. split; [done|].
    apply orb_true_iff in Ee as [-> | ->]; cbn [negb andb]; rewrite ?andb_false_r; by destruct global. }
  apply orb_false_iff in Ee as [-> ->]. cbn [negb andb].
  assert (forall t c0 a0, rel c0 a0 -> oc c0 = oc c -> a_tenant a0 = t ->
    exists c', EmitPut cacheExec registryExec c0 kv vv TargetCache true ttl = Ret c' /\
      rel c' (a_push (a_room a0) (mkSub_ OpPut TargetCache true t ttl (val_of a k) (val_of a v) 0))) as Hemit.
  { intros t c0 a0 H0 Eoc Et. apply (emit_rel c0 a0 (fun t => mkOp OpPut TargetCache true t ttl kv vv 0)); [done| |done].
    intros c' Hkp. rewrite Eoc in Hkp.
    destruct (kept_value c c' kv Hkp Hok Hrk) as [? E1]. destruct (kept_value c c' vv Hkp Hov Hrv) as [? E2].
    split; [by split|]. unfold submit_op. cbn. by rewrite E1, E2, Evk, Evv, Et. }
  destruct global; cbn [tenant_for].
  - destruct (Hemit globalCacheTenantID (with_tenant c globalCacheTenantID) _ (rel_tenant c a _ H) eq_refl eq_refl)
      as (c1 & -> & H1). cbn [obind]. do 2 eexists. split; [reflexivity|]. split; [|reflexivity].
    apply (rel_tenant _ _ (TenantID c)) in H1. rewrite (r_tenant _ _ H) in H1 |- *.
    unfold a_push, a_room, a_flush in H1 |- *. cbn [a_vals a_pend a_tenant a_log] in H1.
    by destruct (64 <=? length (a_pend a))%nat.
  - destruct (Hemit (a_tenant a) c a H eq_refl eq_refl) as (c1 & -> & H1). cbn [obind].
    do 2 eexists. split; [reflexivity|]. by split.
Qed.

Lemma get_rel c a global k d : rel c a -> 0 <= k < 48 -> 0 <= d < 48 ->
  exists c' a', a_step (BGet global k d) a = Some (a', BLog (a_log a')) /\ rel c' a' /\
    (if global then CacheGetGlobalBatched cacheExec registryExec k d c
     else CacheGetBatched cacheExec registryExec k d c) = Ret c'.
Proof using.
  intros H Hk Hd. destruct (slot_rel_val c a k H Hk) as (kv & Ek & Evk & Hok & Hrk & Hempk).
  cbn [a_step]. unfold CacheGetGlobalBatched, CacheGetBatched. rewrite Ek. cbn [obind]. rewrite Hempk.
  destruct (bool_decide (val_of a k = [])) eqn:Ee.
  { exists c, a. split; [done|]. split; [done|]. by destruct global. }
  assert (forall t c0 a0, rel c0 a0 -> oc c0 = oc c -> a_tenant a0 = t ->
    exists c', EmitGet cacheExec registryExec c0 kv TargetCache d = Ret c' /\
      rel c' (a_push (a_room a0) (mkSub_ OpGet TargetCache false t 0 (val_of a k) [] d))) as Hemit.
  { intros t c0 a0 H0 Eoc Et. apply (emit_rel c0 a0 (fun t => mkOp OpGet TargetCache false t 0 kv None d)); [done| |by intros _].
    intros c' Hkp. rewrite Eoc in Hkp. destruct (kept_value c c' kv Hkp Hok Hrk) as [? E1].
    split; [by split|]. unfold submit_op. cbn. by rewrite E1, Evk, Et. }
  destruct global; cbn [tenant_for].
  - destruct (Hemit globalCacheTenantID (with_tenant c globalCacheTenantID) _ (rel_tenant c a _ H) eq_refl eq_refl)
      as (c1 & -> & H1). cbn [obind]. do 2 eexists. split; [reflexivity|]. split; [|reflexivity].
    apply (rel_tenant _ _ (TenantID c)) in H1. rewrite (r_tenant _ _ H) in H1 |- *.
    unfold a_push, a_room, a_flush in H1 |- *. cbn [a_vals a_pend a_tenant a_log] in H1.
    by destruct (64 <=? length (a_pend a))%nat.
  - destruct (Hemit (a_tenant a) c a H eq_refl eq_refl) as (c1 & -> & H1). cbn [obind].
    do 2 eexists. split; [reflexivity|]. by split.
Qed.

(** New bytes outside the slots: scratch space for a key or a value. *)
Lemma scratch_rel_ops c a m1 sl data : rel c a -> allocated (mem (oc c)) m1 sl (Z.of_nat (length data)) ->
  let c' := with_oc c (mkContext (copy m1 sl data) (slots (oc c))) in
  rel c' a /\ valid (mem (oc c')) sl /\ read (mem (oc c')) sl = data /\ extends (mem (oc c)) (mem (oc c')).
Proof using.
  intros H Ha c'. destruct (r_ctx _ _ H) as [Hm Hs].
  destruct (store_spec (mem (oc c)) m1 sl data Hm Ha) as (Hm2 & Hv & Hr & He).
  split; [|done]. destruct a as [vals pend t l].
  apply (rel_context c (mkAB vals pend t l) (mkContext (copy m1 sl data) (slots (oc c))) vals); try done.
  - split; [done|]. by eapply slots_extend.
  - apply (r_nokeys _ _ H).
  - rewrite (values_extend (mem (oc c))) by done. pose proof (r_vals _ _ H) as E. cbn [a_vals] in E. rewrite <- E. by destruct (oc c).
Qed.

Lemma submit_eq c ty tg asy t ttl k v d kb vb : value c k = kb -> value c v = vb ->
  submit_op c (mkOp ty tg asy t ttl k v d) = mkSub_ ty tg asy t ttl kb vb d.
Proof using. by intros <- <-. Qed.

(** Emitting into a buffer with room. *)
Lemma emit_room_rel c a o s : rel c a -> (length (a_pend a) < 64)%nat -> op_ok (mem (oc c)) (o (a_tenant a)) ->
  submit_op (oc c) (o (a_tenant a)) = s -> dest_ok s ->
  exists c', (c' <-- make_room cacheExec registryExec c ;; push_op c' (o (TenantID c'))) = Ret c' /\ rel c' (a_push a s).
Proof using.
  intros H Hlt Hok Hs Hd. destruct (room_rel c a H) as (c1 & E & _ & _ & _ & Hid). rewrite (Hid Hlt) in E. rewrite E.
  cbn [obind]. rewrite (r_tenant _ _ H). by apply push_rel.
Qed.

Lemma extract_rel c a op extracted valueOf a' r : rel c a -> bop_ok (BExtract op extracted valueOf) ->
  a_step (BExtract op extracted valueOf) a = Some (a', r) ->
  exists c', emit_field cacheExec registryExec c op extracted valueOf = Ret c' /\ rel c' a' /\ r = BLog (a_log a').
Proof using.
  intros H [Hvs Hds] Ha. cbn [a_step] in Ha.
  destruct (Nat.leb_spec 64 (length (a_pend a))) as [|Hlt]; [done|]. injection Ha as <- <-.
  set (key := x_prefix op ++ extracted). unfold emit_field, build_key.
  pose proof (AllocOpKey_spec (mem (oc c)) (Z.of_nat (length (x_prefix op) + length extracted))
    (proj1 (r_ctx _ _ H)) ltac:(lia)) as Hal.
  destruct (AllocOpKey _ _) as [m1 sk]. rewrite <- length_app in Hal. fold key in Hal.
  destruct (scratch_rel_ops c a m1 sk key H Hal) as (H1 & Hv1 & Hr1 & _).
  set (c1 := with_oc c (mkContext (copy m1 sk key) (slots (oc c)))) in *. fold key. fold c1.
  destruct (x_type op) eqn:Ety.
  - destruct (Z.leb_spec 0 (x_valueSlot op)) as [Hge|Hneg].
    + destruct (slot_rel_val c1 a (x_valueSlot op) H1 ltac:(lia)) as (vv & -> & Evv & Hov & _). cbn [obind].
      destruct (emit_room_rel c1 a (fun t => mkOp OpPut (x_target op) (x_async op) t (x_ttl op) (Some sk) vv 0)
                  (mkSub_ OpPut (x_target op) (x_async op) (a_tenant a) (x_ttl op) key (val_of a (x_valueSlot op)) 0) H1 Hlt)
        as (c' & E & Hrel); [by split|by apply submit_eq|done|].
      exists c'. split; [exact E|]. by split.
    + unfold fresh_bytes. set (data := default extracted valueOf).
      pose proof (make_bytes_spec (mem (oc c1)) (Z.of_nat (length data)) (ArenaOverflowed (mem (oc c1)))
        (proj1 (r_ctx _ _ H1)) ltac:(lia)) as Hmb. destruct (make_bytes _ _ _) as [m2 sv].
      destruct (scratch_rel_ops c1 a m2 sv data H1 Hmb) as (H2 & Hv2 & Hr2 & He2).
      set (c2 := with_oc c1 (mkContext (copy m2 sv data) (slots (oc c1)))) in *.
      destruct (He2 sk Hv1) as [Hv1' Hr1'].
      destruct (emit_room_rel c2 a (fun t => mkOp OpPut (x_target op) (x_async op) t (x_ttl op) (Some sk) (Some sv) 0)
                  (mkSub_ OpPut (x_target op) (x_async op) (a_tenant a) (x_ttl op) key data 0) H2 Hlt)
        as (c' & E & Hrel); [by split|apply submit_eq; [by etransitivity|done]|done|].
      exists c'. split; [exact E|]. by split.
  - destruct (emit_room_rel c1 a (fun t => mkOp OpGet (x_target op) false t 0 (Some sk) None (x_dest op))
                (mkSub_ OpGet (x_target op) false (a_tenant a) 0 key [] (x_dest op)) H1 Hlt)
      as (c' & E & Hrel); [by split|by apply submit_eq|intros _; destruct (Hds eq_refl) as [Ht ?]; unfold su_cache; cbn [su_target su_dest]; by rewrite Ht|].
    exists c'. split; [exact E|]. by split.
Qed.

Lemma step_rel c a o a' r : rel c a -> bop_ok o -> a_step o a = Some (a', r) ->
  exists c', b_step o c = Ret (c', r) /\ rel c' a'.
Proof using.
  intros H Ho Ha. destruct o as [th idx data|global k v ttl|global k d|op extracted valueOf| |idx]; cbn [b_step].
  - injection Ha as <- <-. destruct (write_rel c a th idx data H) as (x & -> & Hx). cbn [obind].
    eexists. split; [|exact Hx]. by rewrite (r_log _ _ H).
  - destruct Ho as [Hk Hv]. destruct (put_rel c a global k v ttl H Hk Hv) as (c' & a1 & Ha1 & Hr & ->).
    rewrite Ha1 in Ha. injection Ha as <- <-. cbn [obind]. exists c'. by rewrite (r_log _ _ Hr).
  - destruct Ho as [Hk Hd]. destruct (get_rel c a global k d H Hk Hd) as (c' & a1 & Ha1 & Hr & ->).
    rewrite Ha1 in Ha. injection Ha as <- <-. cbn [obind]. exists c'. by rewrite (r_log _ _ Hr).
  - destruct (extract_rel c a op extracted valueOf a' r H Ho Ha) as (c' & -> & Hr & ->). cbn [obind].
    exists c'. by rewrite (r_log _ _ Hr).
  - injection Ha as <- <-. unfold BatchFlush, wired.
    rewrite (bool_decide_eq_true_2 (is_Some cacheExec)), (r_count _ _ H) by done. cbn [orb]. rewrite andb_true_r.
    destruct (a_pend a) as [|s l] eqn:Ep.
    + exists c. split; [|done]. by rewrite <- (r_log _ _ H).
    + destruct (flush_rel c a H) as (c' & E & Hr & _); [by rewrite Ep|].
      destruct (Z.ltb_spec 0 (Z.of_nat (length (s :: l)))); [|cbn in *; lia].
      rewrite E. cbn [obind]. exists c'. by rewrite (r_log _ _ Hr).
  - injection Ha as <- <-. cbn in Ho. rewrite (ReadSlot_spec _ idx (r_ctx _ _ H)), (in_slots_48 _ idx (r_ctx _ _ H)).
    zcases. cbn [andb obind].
    exists c. unfold val_of. by rewrite (r_vals _ _ H).
Qed.

Lemma run_rel ops c a rs : rel c a -> Forall bop_ok ops -> a_run ops a = Some rs -> answers b_step ops c = Ret rs.
Proof using.
  revert c a rs. induction ops as [|o ops IH]; intros c a rs H Hok Ha; cbn in Ha |- *; [by injection Ha as <-|].
  apply Forall_cons in Hok as [Ho Hok].
  destruct (a_step o a) as [[a1 r]|] eqn:E; [|done]. cbn in Ha.
  destruct (a_run ops a1) as [rs1|] eqn:E1; [|done]. injection Ha as <-.
  destruct (step_rel c a o a1 r H Ho E) as (c1 & -> & H1). cbn. by rewrite (IH c1 a1 rs1 H1 Hok E1).
Qed.

Lemma new_rel block tenant : length block = 4096%nat ->
  rel (new_opctx block tenant) (mkAB (replicate 48 []) [] tenant []).
Proof using.
  intros Hb. constructor; try done.
  - split.
    + constructor; simpl; try done; lia.
    + constructor; simpl; try done. by repeat constructor.
  - by repeat constructor.
Qed.
End spec.

(** C14: The operation buffer submits what the steps queued.  For every
    sequence of slot writes, cache puts and gets (global or for the tenant),
    extracted fields, flushes and slot reads, with a configured cache executor
    [exec] and any registry executor, the buffer that holds slices into the
    request's arena, key buffer and heap produces the same batches and the
    same slot contents as the abstract buffer that holds the bytes
    themselves: each operation is submitted once, in emission order, with the
    key and value bytes it had when it was queued (even though slots were
    overwritten since), with the tenant of its emission (0 for the global
    steps), the 65th operation flushes the 64 before it, and the results of
    gets reach their destination slots.  The destination slots exist and no
    get is extracted for the registry ([bop_ok]; the code drops its result),
    and the abstract run is undefined when an extracted key is emitted into a
    full buffer (there the code corrupts the key). *)
Theorem op_buffer_refines exec registryExec block tenant ops rs :
  length block = 4096%nat ->
  Forall bop_ok ops ->
  a_run exec registryExec ops (mkAB (replicate 48 []) [] tenant []) = Some rs ->
  answers (b_step exec registryExec) ops (new_opctx block tenant) = Ret rs.
Proof. intros Hb Hok Ha. eapply run_rel; [by apply new_rel|done..]. Qed.

(** A cache that answers every get with its key. *)
Definition echo (l : list Submitted) : list (option byte_string) :=
  (fun s => match su_type s with OpGet => Some (su_key s) | OpPut => None end) <$> l.

Definition buffer_demo : list bop :=
  [BWrite 1024 0 [107]; BWrite 1024 1 [118; 118]; BPut false 0 1 60;
   BWrite 1024 0 [106]; BGet true 0 2;
   BExtract (mkExtract [] [112; 58] OpPut TargetRegistryID 0 (-1) [] false 9) [120] None; BFlush; BRead 2].

Definition buffer_demo_log : list Batch :=
  [mkBatch true true [mkSub_ OpPut TargetCache true 7 60 [107] [118; 118] 0; mkSub_ OpGet TargetCache false 0 0 [106] [] 2];
   mkBatch false true [mkSub_ OpPut TargetRegistryID false 7 9 [112; 58; 120] [120] 0]].

Lemma op_buffer_refines_witness :
  answers (b_step echo (Some echo)) buffer_demo (new_opctx (replicate 4096 0) 7)
  = Ret (replicate 6 (BLog []) ++ [BLog buffer_demo_log; BBytes [106]]).
Proof.
  apply op_buffer_refines.
  - apply length_replicate.
  - repeat constructor; cbn; (discriminate || lia).
  - vm_compute. reflexivity.
Defined.

(** ** Where the buffer departs from its specification *)

Definition field (prefix : byte_string) : bop :=
  BExtract (mkExtract [] prefix OpPut TargetCache 0 0 [] true 0) [] None.

(** [ResetOps] frees the key buffer while the key of the operation being
    emitted still lies in it: the 65th extracted field is submitted with
    bytes of the 66th. *)
Lemma auto_flush_corrupts_key :
  exists rs,
    answers (b_step echo None)
      (replicate 64 (field [1]) ++ [field [2]; field (replicate 65 3); BFlush])
      (new_opctx (replicate 4096 0) 7) = Ret rs /\
    (match last rs with Some (BLog [_; b]) => su_key <$> b_ops b | _ => [] end) = [[3]; replicate 65 3].
Proof. eexists. split; [vm_compute; reflexivity|]. vm_compute. reflexivity. Qed.

(** The documentation of [DestSlot] gives -1 as "discard"; a hit panics. *)
Lemma discarded_get_panics :
  answers (b_step echo None)
    [BWrite 1024 0 [107]; BGet false 0 (-1); BFlush] (new_opctx (replicate 4096 0) 7) = Panic.
Proof. vm_compute. reflexivity. Qed.

Fixpoint repeat_step (n : nat) (f : OpCtx -> outcome OpCtx) (c : OpCtx) : outcome OpCtx :=
  match n with O => Ret c | S n => c <-- f c ;; repeat_step n f c end.

(** Without executors nothing empties the buffer: the 65th operation is out of
    range of the array. *)
Lemma unwired_buffer_panics key block tenant :
  (exists c, repeat_step 64 (fun c => EmitGet None None c key TargetCache 0) (new_opctx block tenant) = Ret c) /\
  repeat_step 65 (fun c => EmitGet None None c key TargetCache 0) (new_opctx block tenant) = Panic.
Proof. split; [eexists|]; vm_compute; reflexivity. Qed.

(** A registry get is submitted and waited for, and its result is dropped. *)
Lemma registry_get_dropped :
  answers (b_step echo (Some echo))
    [BExtract (mkExtract [] [107] OpGet TargetRegistryID 5 0 [] false 0) [] None; BFlush; BRead 5]
    (new_opctx (replicate 4096 0) 7)
  = Ret [BLog []; BLog [mkBatch false true [mkSub_ OpGet TargetRegistryID false 7 0 [107] [] 5]]; BBytes []].
Proof. vm_compute. reflexivity. Qed.
