(* ===== verification/CacheIndex.v ===== *)
(** * The index of the in-memory cache

    [internal/cache/index_inline.go], [cache_types.go] and the tag encoding of
    [hash.go]: a sharded trie whose nodes carry four inline (tag, value) slots
    and eight children.  Nodes live in a pool and are named by number; number
    0 is "no child".  Collapsed children are put in a queue and reused once a
    grace period has passed, so the memory is modelled, not just the tree: a
    node is whatever the pool holds under its number.

    The pool's chunks are modelled by their concatenation, which grows by whole
    chunks.  Operations run one at a time (writers hold the shard's lock);
    [now] is the time the operation reads. *)

From S2P Require Import Prelude.

Local Open Scope Z_scope.
Local Open Scope rah_scope.

Definition iSlots : nat := 4.
Definition iFanout : nat := 8.
Definition iBits : Z := 3.
Definition iMask : Z := 7.
Definition iMaxDepth : nat := 10.
Definition iDefaultShardBits : Z := 8.
Definition iMaxShardBits : Z := 20.
Definition iEmpty : Z := 0.
Definition iTombstone : Z := 2 ^ 64 - 1.
Definition iNullChild : Z := 0.
Definition iChunkBits : Z := 10.
Definition iChunkSize : Z := 1024.
Definition iGracePeriodNs : Z := 10000000.

(** ** Values and back-pointers (cache_types.go) *)

Definition xValTypeMask : Z := Z.shiftl 3 48.
Definition xValTypeSlabRAM : Z := 0.

Definition PackSlabVal (gen expTrunc classID tierID offset : Z) : Z :=
  Z.lor (Z.lor (Z.lor (Z.lor (Z.lor (Z.shiftl (Z.land gen 3) 62) (Z.shiftl (Z.land expTrunc 4095) 50))
    xValTypeSlabRAM) (Z.shiftl (Z.land classID 3) 46)) (Z.shiftl (Z.land tierID 3) 44))
    (Z.land offset (Z.ones 44)).

Definition Unpack (v : Z) : Z * Z * Z :=
  (u8 (Z.shiftr v 62), Z.land (Z.shiftr v 50) 4095, Z.land v xValTypeMask).

Definition UnpackSlab (v : Z) : Z * Z * Z :=
  (Z.land (Z.shiftr v 46) 3, Z.land (Z.shiftr v 44) 3, Z.land v (Z.ones 44)).

Definition xPtrLaneTiny : Z := 0.
Definition xPtrLaneHash : Z := Z.shiftl 1 47.
Definition xPtrTagMask : Z := Z.ones 39.

Definition packXTagRef (laneBit47 shard tagLower39 : Z) : Z :=
  Z.lor (Z.lor (Z.land laneBit47 xPtrLaneHash) (Z.shiftl shard 39)) (Z.land tagLower39 xPtrTagMask).

Definition laneBit (p : Z) : Z := Z.land (Z.shiftr p 47) 1.
Definition tagBits (p : Z) : Z := Z.land p xPtrTagMask.

(** ** Tags of short keys (hash.go) *)

(** [k |= uint64(b) << (i * w)] over the bytes of the key. *)
Fixpoint pack_key (w i : Z) (key : byte_string) (k : Z) : Z :=
  match key with
  | [] => k
  | b :: key => pack_key w (i + 1) key (Z.lor k (u64 (Z.shiftl (if w =? 7 then Z.land b 127 else b) (i * w))))
  end.

Definition makeTagTiny (tenantID : Z) (key : byte_string) : Z :=
  let n := Z.of_nat (length key) in
  let tag :=
    if n =? 6 then
      let k42 := pack_key 7 0 key 0 in
      Z.lor (Z.lor (Z.lor (Z.shiftl 1 63) (u64 (Z.shiftl tenantID 47))) (u64 (Z.shiftl k42 5))) (Z.land tenantID 31)
    else
      let k40 := pack_key 8 0 key 0 in
      Z.lor (Z.lor (Z.lor (Z.shiftl (Z.land n 7) 60) (u64 (Z.shiftl tenantID 44))) (u64 (Z.shiftl k40 4)))
        (Z.land tenantID 15) in
  let tag := if tag =? iEmpty then Z.lor tag 4 else tag in
  if tag =? iTombstone then Z.lxor tag 4 else tag.

(** ** Nodes *)

Record iSlot : Type := mkISlot { tag : Z; val : Z }.

Record iNode : Type := mkINode {
  slots : list iSlot;
  children : list Z;
  freedAt : Z;
  h2word : Z
}.

Definition zero_node : iNode := mkINode (replicate iSlots (mkISlot 0 0)) (replicate iFanout 0) 0 0.

Definition resetNode (n : iNode) : iNode :=
  mkINode (replicate iSlots (mkISlot iEmpty 0)) (replicate iFanout iNullChild) (freedAt n) 0.

Definition h2ForTag (tag : Z) : Z :=
  let h := u16 (Z.shiftr tag 48) in if h =? 0 then 1 else h.

Definition h2Set (word i v : Z) : Z :=
  Z.lor (Z.ldiff word (u64 (Z.shiftl 65535 (i * 16)))) (u64 (Z.shiftl v (i * 16))).

(** The constants 0x0001000100010001 and 0x8000800080008000. *)
Definition h2Ones : Z := 281479271743489.
Definition h2Highs : Z := 9223512776490647552.

Definition h2AnyMatch (word queryH2 : Z) : bool :=
  let x := Z.lxor word (u64 (queryH2 * h2Ones)) in
  negb (Z.land (Z.ldiff (u64 (x - h2Ones)) x) h2Highs =? 0).

(** ** The node pool *)

Record iNodePool : Type := mkPool {
  nodes : list iNode;
  next : Z;
  ready : list Z;
  readyHd : Z
}.

Definition set_nodes (p : iNodePool) (l : list iNode) : iNodePool := mkPool l (next p) (ready p) (readyHd p).

Definition ensure (p : iNodePool) (maxIdx : Z) : iNodePool :=
  let needed := (Z.shiftr maxIdx iChunkBits + 1) * iChunkSize in
  let cur := Z.of_nat (length (nodes p)) in
  if needed <=? cur then p else set_nodes p (nodes p ++ replicate (Z.to_nat (needed - cur)) zero_node).

Definition node (p : iNodePool) (idx : Z) : outcome iNode := go_index (nodes p) idx.
Definition set_node (p : iNodePool) (idx : Z) (n : iNode) : iNodePool := set_nodes p (<[Z.to_nat idx:=n]> (nodes p)).

(** [p.next.Add(1) - 1], and the backing of the number it claims. *)
Definition bump (p : iNodePool) : iNodePool * Z :=
  let claim (p : iNodePool) := (mkPool (nodes p) (u32 (next p + 1)) (ready p) (readyHd p), u32 (u32 (next p + 1) - 1)) in
  let '(p, idx) := claim p in
  let '(p, idx) := if idx =? iNullChild then claim p else (p, idx) in
  (ensure p idx, idx).

Definition alloc (now : Z) (p : iNodePool) : outcome (iNodePool * Z) :=
  if readyHd p <? Z.of_nat (length (ready p)) then
    idx <-- go_index (ready p) (readyHd p) ;;
    n <-- node p idx ;;
    if iGracePeriodNs <=? i64 (now - freedAt n) then
      Ret (set_node (mkPool (nodes p) (next p) (ready p) (readyHd p + 1)) idx (resetNode n), idx)
    else Ret (bump p)
  else Ret (bump p).

Fixpoint stamp (now : Z) (p : iNodePool) (indices : list Z) : outcome iNodePool :=
  match indices with
  | [] => Ret p
  | idx :: indices =>
    n <-- node p idx ;;
    stamp now (set_node p idx (mkINode (slots n) (children n) now (h2word n))) indices
  end.

Definition freeLater (now : Z) (p : iNodePool) (indices : list Z) : outcome iNodePool :=
  p <-- stamp now p indices ;;
  let r := ready p ++ indices in
  if Z.quot (Z.of_nat (length r)) 2 <? readyHd p
  then Ret (mkPool (nodes p) (next p) (drop (Z.to_nat (readyHd p)) r) 0)
  else Ret (mkPool (nodes p) (next p) r (readyHd p)).

(** ** The index *)

Record InlineIndex : Type := mkIndex { pool : iNodePool; shards : list Z; shardMask : Z; shardBits : Z }.

Definition set_pool (x : InlineIndex) (p : iNodePool) : InlineIndex := mkIndex p (shards x) (shardMask x) (shardBits x).

Fixpoint alloc_roots (now : Z) (p : iNodePool) (n : nat) : outcome (iNodePool * list Z) :=
  match n with
  | O => Ret (p, [])
  | S n =>
    r <-- alloc now p ;;
    rs <-- alloc_roots now r.1 n ;;
    Ret (rs.1, r.2 :: rs.2)
  end.

Definition NewInlineIndex (now bits : Z) : outcome InlineIndex :=
  let bits := if bits =? 0 then iDefaultShardBits else bits in
  if iMaxShardBits <? bits then Panic
  else
    let numShards := Z.shiftl 1 bits in
    let p := ensure (mkPool [] 1 [] 0) (numShards + 1) in
    r <-- alloc_roots now p (Z.to_nat numShards) ;;
    Ret (mkIndex r.1 r.2 (numShards - 1) bits).

Definition root (x : InlineIndex) (t : Z) : outcome Z := go_index (shards x) (Z.land t (shardMask x)).
Definition branch (t shift : Z) : Z := Z.land (Z.shiftr t shift) iMask.

(** The number of levels a traversal visits. *)
Definition levels : nat := S iMaxDepth.

Definition is_free (s : iSlot) : bool := (tag s =? iEmpty) || (tag s =? iTombstone).

Definition find_tag (ss : list iSlot) (t : Z) : option (nat * iSlot) := list_find (fun s => tag s = t) ss.

Fixpoint get_loop (fuel : nat) (p : iNodePool) (nodeIdx shift t : Z) : outcome (option Z) :=
  match fuel with
  | O => Ret None
  | S fuel =>
    if nodeIdx =? iNullChild then Ret None
    else
      n <-- node p nodeIdx ;;
      match (if h2AnyMatch (h2word n) (h2ForTag t) then find_tag (slots n) t else None) with
      | Some (_, s) => Ret (Some (val s))
      | None =>
        c <-- go_index (children n) (branch t shift) ;;
        get_loop fuel p c (shift + iBits) t
      end
  end.

Definition IndexGet (x : InlineIndex) (t : Z) : outcome (option Z) :=
  r <-- root x t ;; get_loop levels (pool x) r (shardBits x) t.

(** Where [insertAt] writes: the slot, and whether it holds the tag already. *)
Fixpoint insert_pos (ss : list iSlot) (i : nat) (t : Z) (tomb : option nat) : option (nat * bool) :=
  match ss with
  | [] => match tomb with Some i => Some (i, false) | None => None end
  | s :: ss =>
    if tag s =? t then Some (i, true)
    else if tag s =? iEmpty then Some (i, false)
    else if tag s =? iTombstone then insert_pos ss (S i) t (Some (default i tomb))
    else insert_pos ss (S i) t tomb
  end.

(** [None]: all slots are taken by other tags. *)
Definition insertAt (n : iNode) (t v : Z) : option iNode :=
  match insert_pos (slots n) 0 t None with
  | None => None
  | Some (i, same) =>
    Some (mkINode (<[i:=mkISlot t v]> (slots n)) (children n) (freedAt n)
            (if same then h2word n else h2Set (h2word n) (Z.of_nat i) (h2ForTag t)))
  end.

Definition set_child (n : iNode) (b c : Z) : iNode :=
  mkINode (slots n) (<[Z.to_nat b:=c]> (children n)) (freedAt n) (h2word n).

Fixpoint upsert_loop (fuel : nat) (now : Z) (p : iNodePool) (nodeIdx shift t v : Z) : outcome iNodePool :=
  match fuel with
  | O => Ret p
  | S fuel' =>
    n <-- node p nodeIdx ;;
    match insertAt n t v with
    | Some n' => Ret (set_node p nodeIdx n')
    | None =>
      c <-- go_index (children n) (branch t shift) ;;
      if c =? iNullChild then
        match fuel' with
        | O => Ret p
        | S _ =>
          r <-- alloc now p ;;
          let '(p, c) := r in
          child <-- node p c ;;
          let p := set_node p c (default child (insertAt child t v)) in
          n <-- node p nodeIdx ;;
          Ret (set_node p nodeIdx (set_child n (branch t shift) c))
        end
      else upsert_loop fuel' now p c (shift + iBits) t v
    end
  end.

Definition IndexSet (now : Z) (x : InlineIndex) (t v : Z) : outcome InlineIndex :=
  r <-- root x t ;;
  p <-- upsert_loop levels now (pool x) r (shardBits x) t v ;;
  Ret (set_pool x p).

Definition SetTagGetPtr (now : Z) (x : InlineIndex) (t v lane : Z) : outcome (InlineIndex * Z) :=
  x <-- IndexSet now x t v ;;
  Ret (x, packXTagRef lane (u8 (Z.land t (shardMask x))) t).

(** ** Deleting *)

Definition tombstone (n : iNode) (i : nat) : iNode :=
  mkINode (<[i:=mkISlot iTombstone 0]> (slots n)) (children n) (freedAt n) (h2Set (h2word n) (Z.of_nat i) 0).

(** The nodes visited, deepest first. *)
Fixpoint findPath (fuel : nat) (p : iNodePool) (nodeIdx shift t : Z) (path : list Z) : outcome (option (iNodePool * list Z)) :=
  match fuel with
  | O => Ret None
  | S fuel =>
    if nodeIdx =? iNullChild then Ret None
    else
      n <-- node p nodeIdx ;;
      match find_tag (slots n) t with
      | Some (i, _) => Ret (Some (set_node p nodeIdx (tombstone n i), nodeIdx :: path))
      | None =>
        c <-- go_index (children n) (branch t shift) ;;
        findPath fuel p c (shift + iBits) t (nodeIdx :: path)
      end
  end.

(** The live entries of the children; [None] refuses the collapse. *)
Fixpoint collect_slots (ss acc : list iSlot) : option (list iSlot) :=
  match ss with
  | [] => Some acc
  | s :: ss =>
    if is_free s then collect_slots ss acc
    else if (iSlots <=? length acc)%nat then None
    else collect_slots ss (acc ++ [s])
  end.

Fixpoint collect (p : iNodePool) (cs : list Z) (acc : list iSlot) : outcome (option (list iSlot)) :=
  match cs with
  | [] => Ret (Some acc)
  | c :: cs =>
    if c =? iNullChild then collect p cs acc
    else
      n <-- node p c ;;
      if existsb (fun g => negb (g =? iNullChild)) (children n) then Ret None
      else match collect_slots (slots n) acc with
           | None => Ret None
           | Some acc => collect p cs acc
           end
  end.

(** The entries go to the free slots, in order. *)
Fixpoint fill (ss : list iSlot) (i : Z) (es : list iSlot) (w : Z) : list iSlot * Z :=
  match ss, es with
  | s :: ss, e :: es' =>
    if is_free s then let '(ss, w) := fill ss (i + 1) es' (h2Set w i (h2ForTag (tag e))) in (e :: ss, w)
    else let '(ss, w) := fill ss (i + 1) es w in (s :: ss, w)
  | _, _ => (ss, w)
  end.

Definition tryCollapse (p : iNodePool) (parentIdx : Z) : outcome (option (iNodePool * list Z)) :=
  parent <-- node p parentIdx ;;
  live <-- collect p (children parent) [] ;;
  match live with
  | None => Ret None
  | Some es =>
    if (length (base.filter (fun s => is_free s = true) (slots parent)) <? length es)%nat then Ret None
    else
      let '(ss, w) := fill (slots parent) 0 es (h2word parent) in
      Ret (Some (set_node p parentIdx (mkINode ss (replicate iFanout iNullChild) (freedAt parent) w),
                 base.filter (fun c => c <> iNullChild) (children parent)))
  end.

Fixpoint collapse_up (p : iNodePool) (path freed : list Z) : outcome (iNodePool * list Z) :=
  match path with
  | _ :: ((parentIdx :: _) as path) =>
    r <-- tryCollapse p parentIdx ;;
    match r with
    | Some (p, detached) => collapse_up p path (freed ++ detached)
    | None => Ret (p, freed)
    end
  | _ => Ret (p, freed)
  end.

(** [if len(freed) > 0 { idx.pool.freeLater(freed) }] *)
Definition release (now : Z) (x : InlineIndex) (r : iNodePool * list Z) : outcome InlineIndex :=
  p <-- match r.2 with [] => Ret r.1 | _ => freeLater now r.1 r.2 end ;;
  Ret (set_pool x p).

Definition IndexDelete (now : Z) (x : InlineIndex) (t : Z) : outcome (InlineIndex * bool) :=
  r <-- root x t ;;
  found <-- findPath levels (pool x) r (shardBits x) t [] ;;
  match found with
  | None => Ret (x, false)
  | Some (p, path) =>
    freed <-- collapse_up p path [] ;;
    x <-- release now x freed ;;
    Ret (x, true)
  end.

(** ** Slab entries *)

Definition refers (v physOff gen2b : Z) : bool :=
  let '(gen, _, typ) := Unpack v in
  let '(_, _, off) := UnpackSlab v in
  (typ =? xValTypeSlabRAM) && (off =? physOff) && (gen =? gen2b).

Definition find_ref (ss : list iSlot) (t physOff gen2b : Z) : option (nat * iSlot) :=
  list_find (fun s => tag s = t /\ refers (val s) physOff gen2b = true) ss.

Fixpoint live_loop (fuel : nat) (p : iNodePool) (nodeIdx shift t physOff gen2b : Z) : outcome bool :=
  match fuel with
  | O => Ret false
  | S fuel =>
    if nodeIdx =? iNullChild then Ret false
    else
      n <-- node p nodeIdx ;;
      match find_ref (slots n) t physOff gen2b with
      | Some _ => Ret true
      | None =>
        c <-- go_index (children n) (branch t shift) ;;
        live_loop fuel p c (shift + iBits) t physOff gen2b
      end
  end.

Definition IsLive (x : InlineIndex) (t physOff gen2b : Z) : outcome bool :=
  r <-- root x t ;; live_loop levels (pool x) r (shardBits x) t physOff gen2b.

Fixpoint tomb_loop (fuel : nat) (p : iNodePool) (nodeIdx shift t physOff gen2b : Z) : outcome (iNodePool * bool) :=
  match fuel with
  | O => Ret (p, false)
  | S fuel =>
    if nodeIdx =? iNullChild then Ret (p, false)
    else
      n <-- node p nodeIdx ;;
      match find_ref (slots n) t physOff gen2b with
      | Some (i, _) => Ret (set_node p nodeIdx (tombstone n i), true)
      | None =>
        c <-- go_index (children n) (branch t shift) ;;
        tomb_loop fuel p c (shift + iBits) t physOff gen2b
      end
  end.

Definition TryTombstone (x : InlineIndex) (t physOff gen2b : Z) : outcome (InlineIndex * bool) :=
  r <-- root x t ;;
  q <-- tomb_loop levels (pool x) r (shardBits x) t physOff gen2b ;;
  Ret (set_pool x q.1, q.2).

(** ** Compaction *)

Definition compactNode (p : iNodePool) (nodeIdx : Z) : outcome (iNodePool * list Z) :=
  if nodeIdx =? iNullChild then Ret (p, [])
  else
    r <-- tryCollapse p nodeIdx ;;
    Ret (default (p, []) r).

(** The children of a node; [bs] are the branches still to visit. *)
Fixpoint deep_children (rec : iNodePool -> Z -> outcome (iNodePool * list Z)) (nodeIdx : Z) (bs : list Z)
  (p : iNodePool) (freed : list Z) : outcome (iNodePool * list Z) :=
  match bs with
  | [] => Ret (p, freed)
  | b :: bs =>
    n <-- node p nodeIdx ;;
    c <-- go_index (children n) b ;;
    if c =? iNullChild then deep_children rec nodeIdx bs p freed
    else r <-- rec p c ;; deep_children rec nodeIdx bs r.1 (freed ++ r.2)
  end.

(** Children before their parent. *)
Fixpoint deepCompactNode (fuel : nat) (p : iNodePool) (nodeIdx : Z) : outcome (iNodePool * list Z) :=
  match fuel with
  | O => Fuel
  | S fuel =>
    if nodeIdx =? iNullChild then Ret (p, [])
    else
      r <-- deep_children (deepCompactNode fuel) nodeIdx (seqZ 0 8) p [] ;;
      d <-- tryCollapse r.1 nodeIdx ;;
      match d with
      | Some (p, detached) => Ret (p, r.2 ++ detached)
      | None => Ret r
      end
  end.

Fixpoint compact_shards (f : iNodePool -> Z -> outcome (iNodePool * list Z)) (now : Z) (rs : list Z) (x : InlineIndex)
  : outcome InlineIndex :=
  match rs with
  | [] => Ret x
  | r :: rs =>
    q <-- f (pool x) r ;;
    x <-- release now x q ;;
    compact_shards f now rs x
  end.

Definition CompactAll (now : Z) (x : InlineIndex) : outcome InlineIndex := compact_shards compactNode now (shards x) x.

Definition DeepCompactAll (now : Z) (x : InlineIndex) : outcome InlineIndex :=
  compact_shards (deepCompactNode (S levels)) now (shards x) x.

(** ** Statistics *)

Definition TotalNodes (x : InlineIndex) : Z :=
  let p := pool x in
  let n := (next p - 1) - (Z.of_nat (length (ready p)) - readyHd p) in
  if n <? 0 then 0 else n.

Definition NumShards (x : InlineIndex) : Z := Z.of_nat (length (shards x)).
