(* ===== verification/CacheBits.v ===== *)
(** * The filter word of an index node

    [h2word] packs a 16-bit fingerprint of each of the four slots of a node.
    [h2AnyMatch] tests all four at once with the "has a zero group" trick;
    this file proves that the test is exact and that [h2Set] writes one group
    and no other. *)

From S2P Require Import Prelude CacheIndex.

Local Open Scope Z_scope.
Local Open Scope rah_scope.

(** The 16-bit group [i] of a word. *)
Definition grp (w i : Z) : Z := Z.land (Z.shiftr w (16 * i)) 65535.

Lemma testbit_65535 j : 0 <= j -> Z.testbit 65535 j = (j <? 16).
Proof.
  intros Hj. change 65535 with (Z.ones 16). destruct (Z.ltb_spec j 16).
  - by apply Z.ones_spec_low.
  - by apply Z.ones_spec_high.
Qed.

Lemma grp_testbit w i j : 0 <= i -> 0 <= j -> Z.testbit (grp w i) j = Z.testbit w (16 * i + j) && (j <? 16).
Proof.
  intros Hi Hj. unfold grp. rewrite Z.land_spec, Z.shiftr_spec, testbit_65535 by done. f_equal. f_equal. lia.
Qed.

Lemma grp_bound w i : 0 <= grp w i < 2 ^ 16.
Proof. unfold grp. change 65535 with (Z.ones 16). rewrite Z.land_ones by lia. apply Z.mod_pos_bound. lia. Qed.

Lemma grp_lxor a b i : 0 <= i -> grp (Z.lxor a b) i = Z.lxor (grp a i) (grp b i).
Proof.
  intros Hi. apply Z.bits_inj'. intros j Hj. rewrite Z.lxor_spec, !grp_testbit, Z.lxor_spec by done.
  destruct (j <? 16); by rewrite ?andb_true_r, ?andb_false_r.
Qed.

Lemma grp_div w i : 0 <= i -> grp w i = (w / 2 ^ (16 * i)) mod 2 ^ 16.
Proof.
  intros Hi. unfold grp. change 65535 with (Z.ones 16). rewrite Z.land_ones, Z.shiftr_div_pow2 by lia. done.
Qed.

Lemma testbit_u64_shl x n j : 0 <= n -> 0 <= j -> Z.testbit (u64 (Z.shiftl x n)) j = (j <? 64) && Z.testbit x (j - n).
Proof.
  intros Hn Hj. unfold wrapu. rewrite <- Z.land_ones, Z.land_spec by lia. rewrite Z.shiftl_spec by done.
  destruct (Z.ltb_spec j 64); [rewrite Z.ones_spec_low by lia|rewrite Z.ones_spec_high by lia];
    by rewrite ?andb_true_r, ?andb_false_r.
Qed.

Lemma testbit_neg x j : j < 0 -> Z.testbit x j = false.
Proof. intros. destruct j; [lia|lia|done]. Qed.

Lemma grp_h2Set w i v j : 0 <= i < 4 -> 0 <= v < 2 ^ 16 -> 0 <= j < 4 ->
  grp (h2Set w i v) j = if i =? j then v else grp w j.
Proof.
  intros Hi Hv Hj. apply Z.bits_inj'. intros k Hk. rewrite grp_testbit by lia. unfold h2Set.
  rewrite Z.lor_spec, Z.ldiff_spec, !testbit_u64_shl by lia.
  destruct (Z.ltb_spec k 16) as [Hk16|Hk16].
  - rewrite andb_true_r, (proj2 (Z.ltb_lt (16 * j + k) 64)) by lia. cbn [andb].
    destruct (Z.eqb_spec i j) as [->|Hne].
    + replace (16 * j + k - j * 16) with k by lia. rewrite testbit_65535, (proj2 (Z.ltb_lt k 16)) by lia. cbn [negb].
      by rewrite andb_false_r.
    + rewrite grp_testbit, (proj2 (Z.ltb_lt k 16)), andb_true_r by lia.
      assert (Z.testbit 65535 (16 * j + k - i * 16) = false /\ Z.testbit v (16 * j + k - i * 16) = false) as [-> ->].
      { destruct (decide (j < i)); [split; apply testbit_neg; lia|].
        split; [rewrite testbit_65535 by lia; apply Z.ltb_ge; lia|]. apply (testbit_small 16); lia. }
      by rewrite andb_true_r, orb_false_r.
  - rewrite andb_false_r. symmetry. destruct (i =? j); [by apply (testbit_small 16)|].
    apply (testbit_small 16); [apply grp_bound|done].
Qed.

Lemma bounded_bits n x : 0 <= n -> 0 <= x -> (forall j, n <= j -> Z.testbit x j = false) -> x < 2 ^ n.
Proof.
  intros Hn Hx H. assert (x = x mod 2 ^ n) as ->; [|apply Z.mod_pos_bound; lia].
  rewrite <- Z.land_ones by done. apply Z.bits_inj'. intros j Hj. rewrite Z.land_spec.
  destruct (Z.ltb_spec j n); [rewrite Z.ones_spec_low by lia; by rewrite andb_true_r|].
  rewrite Z.ones_spec_high by lia. rewrite andb_false_r. by apply H.
Qed.

Lemma h2Set_bound w i v : 0 <= w < 2 ^ 64 -> 0 <= i -> 0 <= h2Set w i v < 2 ^ 64.
Proof.
  intros Hw Hi. assert (0 <= h2Set w i v) as H0.
  { unfold h2Set. apply Z.lor_nonneg. split; [apply Z.ldiff_nonneg; lia|apply wrapu_bound; lia]. }
  split; [done|]. apply bounded_bits; [lia|done|]. intros j Hj. unfold h2Set.
  rewrite Z.lor_spec, Z.ldiff_spec, !testbit_u64_shl by lia. rewrite (proj2 (Z.ltb_ge j 64)) by lia.
  by rewrite (testbit_small 64) by lia.
Qed.

Lemma highs_bits j : 0 <= j -> Z.testbit h2Highs j = true -> j ∈ [15; 31; 47; 63].
Proof.
  intros Hj H. destruct (Z.leb_spec 64 j); [rewrite (testbit_small 64) in H; [done|unfold h2Highs; lia|done]|].
  assert (forallb (fun j => negb (Z.testbit h2Highs j) || bool_decide (j ∈ [15; 31; 47; 63])) (seqZ 0 64) = true) as F
    by (vm_compute; reflexivity).
  rewrite forallb_forall in F. specialize (F j). rewrite H in F. cbn [negb orb] in F.
  apply bool_decide_eq_true_1 in F; [done|]. apply list_elem_of_In, elem_of_seqZ. lia.
Qed.

(** The borrow-free formulation of the zero-group test. *)
Lemma zero_group_bits x :
  0 <= x < 2 ^ 64 ->
  negb (Z.land (Z.ldiff (u64 (x - h2Ones)) x) h2Highs =? 0) = true <->
  exists n, (n = 15 \/ n = 31 \/ n = 47 \/ n = 63) /\ Z.testbit (u64 (x - h2Ones)) n = true /\ Z.testbit x n = false.
Proof.
  intros Hx. rewrite negb_true_iff, Z.eqb_neq. split.
  - intros H. destruct (decide (Exists (fun n => Z.testbit (u64 (x - h2Ones)) n = true /\ Z.testbit x n = false) [15; 31; 47; 63])) as [He|Hn].
    + apply Exists_exists in He as (n & Hn & ? & ?). exists n. split; [|done].
      repeat (apply elem_of_cons in Hn as [->|Hn]; [tauto|]). by apply elem_of_nil in Hn.
    + destruct H. apply Z.bits_inj'. intros j Hj. rewrite Z.land_spec, Z.ldiff_spec, Z.bits_0.
      destruct (Z.testbit h2Highs j) eqn:Eh; [|by rewrite andb_false_r]. rewrite andb_true_r.
      destruct (Z.testbit (u64 (x - h2Ones)) j && negb (Z.testbit x j)) eqn:E; [|done].
      destruct Hn. apply Exists_exists. exists j. split; [by apply highs_bits|].
      by apply andb_true_iff in E as [? ?%negb_true_iff].
  - intros (n & Hn & Ht & Hf) E. assert (Z.testbit 0 n = true) as C; [|by rewrite Z.bits_0 in C].
    rewrite <- E, Z.land_spec, Z.ldiff_spec, Ht, Hf. by destruct Hn as [->|[->|[->| ->]]].
Qed.

Lemma top_bit w i : 0 <= i -> Z.testbit w (16 * i + 15) = (2 ^ 15 <=? grp w i).
Proof.
  intros Hi. pose proof (grp_testbit w i 15 Hi ltac:(lia)) as E. rewrite andb_true_r in E. rewrite <- E.
  pose proof (grp_bound w i) as Hb. pose proof (Z.testbit_spec' (grp w i) 15 ltac:(lia)) as Es.
  destruct (Z.testbit (grp w i) 15), (Z.leb_spec (2 ^ 15) (grp w i)); cbn [Z.b2z] in Es; (done || div_lia).
Qed.

(** A word split into its groups. *)
Lemma word_groups x : 0 <= x < 2 ^ 64 -> x = grp x 0 + 2 ^ 16 * grp x 1 + 2 ^ 32 * grp x 2 + 2 ^ 48 * grp x 3.
Proof. intros Hx. rewrite !grp_div by lia. cbn [Z.mul]. change (2 ^ (16 * 0)) with 1. div_lia. Qed.

Definition concat4 (x0 x1 x2 x3 : Z) : Z := x0 + 2 ^ 16 * x1 + 2 ^ 32 * x2 + 2 ^ 48 * x3.

Lemma grp_concat4 x0 x1 x2 x3 i :
  0 <= x0 < 2 ^ 16 -> 0 <= x1 < 2 ^ 16 -> 0 <= x2 < 2 ^ 16 -> 0 <= x3 < 2 ^ 16 -> 0 <= i < 4 ->
  grp (concat4 x0 x1 x2 x3) i = if i =? 0 then x0 else if i =? 1 then x1 else if i =? 2 then x2 else x3.
Proof.
  intros ? ? ? ? Hi. unfold concat4.
  assert (i = 0 \/ i = 1 \/ i = 2 \/ i = 3) as [->|[->|[->| ->]]] by lia; rewrite grp_div by lia;
    cbn [Z.eqb Pos.eqb Z.mul Pos.mul]; [change (2 ^ 0) with 1|change (2 ^ (16 * 1)) with (2 ^ 16)|..]; div_lia.
Qed.

Lemma zero_group_iff x0 x1 x2 x3 :
  0 <= x0 < 2 ^ 16 -> 0 <= x1 < 2 ^ 16 -> 0 <= x2 < 2 ^ 16 -> 0 <= x3 < 2 ^ 16 ->
  let x := concat4 x0 x1 x2 x3 in
  (exists n, (n = 15 \/ n = 31 \/ n = 47 \/ n = 63) /\ Z.testbit (u64 (x - h2Ones)) n = true /\ Z.testbit x n = false) <->
  x0 = 0 \/ x1 = 0 \/ x2 = 0 \/ x3 = 0.
Proof.
  intros H0 H1 H2 H3 x.
  assert (forall i y, 0 <= i < 4 -> (Z.testbit (u64 y) (16 * i + 15) = true /\ Z.testbit x (16 * i + 15) = false <->
    2 ^ 15 <= grp (u64 y) i /\ grp x i < 2 ^ 15)) as Hbit.
  { intros i y Hi. rewrite !top_bit by lia. by rewrite Z.leb_le, Z.leb_gt. }
  split.
  - intros (n & Hn & Hb).
    assert (exists i, 0 <= i < 4 /\ n = 16 * i + 15) as (i & Hi & ->).
    { destruct Hn as [->|[->|[->| ->]]]; [exists 0|exists 1|exists 2|exists 3]; lia. }
    apply Hbit in Hb as [Hy Hx]; [|done].
    destruct (decide (x0 = 0)), (decide (x1 = 0)), (decide (x2 = 0)), (decide (x3 = 0)); try tauto.
    exfalso. assert (u64 (x - h2Ones) = concat4 (x0 - 1) (x1 - 1) (x2 - 1) (x3 - 1)) as Ey.
    { unfold x, concat4, h2Ones. rewrite wrapu_small by lia. lia. }
    rewrite Ey, grp_concat4 in Hy by lia. unfold x in Hx. rewrite grp_concat4 in Hx by lia.
    repeat destruct (_ =? _); lia.
  - intros Hz.
    assert (exists i, 0 <= i < 4 /\ grp x i = 0 /\ grp (u64 (x - h2Ones)) i = 65535) as (i & Hi & Ex & Ey).
    { unfold x. destruct (decide (x0 = 0)); [exists 0|destruct (decide (x1 = 0)); [exists 1|destruct (decide (x2 = 0)); [exists 2|exists 3]]];
        (split; [lia|]); (split; [rewrite grp_concat4 by lia; cbn; lia|]); rewrite grp_div by lia; unfold concat4, h2Ones, wrapu.
      - change (2 ^ (16 * 0)) with 1. div_lia.
      - change (2 ^ (16 * 1)) with (2 ^ 16). div_lia.
      - change (2 ^ (16 * 2)) with (2 ^ 32). div_lia.
      - change (2 ^ (16 * 3)) with (2 ^ 48). div_lia. }
    exists (16 * i + 15). split; [lia|]. apply Hbit; [done|]. lia.
Qed.

Lemma grp_broadcast q i : 0 <= q < 2 ^ 16 -> 0 <= i < 4 -> grp (u64 (q * h2Ones)) i = q.
Proof.
  intros Hq Hi. replace (u64 (q * h2Ones)) with (concat4 q q q q).
  - rewrite grp_concat4 by done. repeat destruct (_ =? _); done.
  - unfold concat4, h2Ones. rewrite wrapu_small; lia.
Qed.

(** The filter is exact: it passes iff some group is the one searched for. *)
Lemma h2AnyMatch_spec w q : 0 <= w < 2 ^ 64 -> 0 <= q < 2 ^ 16 ->
  h2AnyMatch w q = true <-> exists i, 0 <= i < 4 /\ grp w i = q.
Proof.
  intros Hw Hq. unfold h2AnyMatch. set (x := Z.lxor w _).
  assert (0 <= x < 2 ^ 64) as Hx.
  { assert (0 <= x) by (apply Z.lxor_nonneg; split; intros _; [apply wrapu_bound; lia|lia]).
    split; [done|]. apply bounded_bits; [lia|done|]. intros j Hj. unfold x.
    rewrite Z.lxor_spec, !(testbit_small 64); [done|apply wrapu_bound; lia|done|done|done]. }
  rewrite zero_group_bits by done. rewrite (word_groups x Hx). fold (concat4 (grp x 0) (grp x 1) (grp x 2) (grp x 3)).
  rewrite zero_group_iff by apply grp_bound.
  assert (forall i, 0 <= i < 4 -> (grp x i = 0 <-> grp w i = q)) as Hg.
  { intros i Hi. unfold x. rewrite grp_lxor, grp_broadcast, Z.lxor_eq_0_iff by lia. done. }
  rewrite !Hg by lia. split.
  - intros [?|[?|[?|?]]]; [exists 0|exists 1|exists 2|exists 3]; (split; [lia|done]).
  - intros (i & Hi & E). assert (i = 0 \/ i = 1 \/ i = 2 \/ i = 3) as [->|[->|[->| ->]]] by lia; tauto.
Qed.

Lemma h2ForTag_range t : 1 <= h2ForTag t < 2 ^ 16.
Proof.
  unfold h2ForTag. pose proof (wrapu_bound 16 (Z.shiftr t 48) ltac:(lia)).
  destruct (Z.eqb_spec (u16 (Z.shiftr t 48)) 0); lia.
Qed.
