(* ===== verification/CacheTrie.v ===== *)
(** * The trie of the cache index, as a map from paths to slots

    The nodes of a shard form a trie; a path is the shard number followed by
    the branches taken.  Here the trie is a finite map from paths to the four
    slots of the node at that path.  [trie_ok T m] says that the trie stores
    the map [m] from tags to values; the operations of CacheIndex.v change the
    trie in four ways (a slot is written, a slot is deleted, a child is added,
    the children of a node are pulled into it) and each keeps the invariant. *)

From S2P Require Import Prelude CacheIndex.

Local Open Scope Z_scope.
Local Open Scope rah_scope.

Definition live_tag (t : Z) : Prop := t <> iEmpty /\ t <> iTombstone.

#[export] Instance live_tag_dec t : Decision (live_tag t).
Proof. unfold live_tag. apply _. Defined.

Lemma is_free_true s : is_free s = true <-> ~ live_tag (tag s).
Proof.
  unfold is_free, live_tag. rewrite orb_true_iff, !Z.eqb_eq. destruct (decide (tag s = iEmpty)); [tauto|].
  destruct (decide (tag s = iTombstone)); tauto.
Qed.

Lemma is_free_false s : is_free s = false <-> live_tag (tag s).
Proof. rewrite <- not_true_iff_false, is_free_true. destruct (decide (live_tag (tag s))); tauto. Qed.

Abbreviation trie := (gmap (list Z) (list iSlot)).
Abbreviation live_slots := (base.filter (fun s => is_free s = false)).
Abbreviation free_slots := (base.filter (fun s => is_free s = true)).

Section trie.
Context (B : Z).

(** The path of the node a tag visits at level [k]: shard, then branches. *)
Definition level (t : Z) (k : nat) : list Z :=
  Z.land t (Z.ones B) :: ((fun i => branch t (B + iBits * Z.of_nat i)) <$> seq 0 k).

Lemma level_S t k : level t (S k) = level t k ++ [branch t (B + iBits * Z.of_nat k)].
Proof. unfold level. by rewrite seq_S, fmap_app. Qed.

Lemma level_length t k : length (level t k) = S k.
Proof. unfold level. cbn. by rewrite length_fmap, length_seq. Qed.

Lemma level_prefix t k k' : (k <= k')%nat -> level t k = take (S k) (level t k').
Proof.
  intros Hk. induction k' as [|k' IH]; [replace k with 0%nat by lia; done|].
  destruct (decide (k = S k')) as [->|Hne]; [rewrite take_ge; [done|by rewrite level_length]|].
  rewrite level_S, take_app_le by (rewrite level_length; lia). apply IH. lia.
Qed.

(** ** The trie as a map from paths to slots *)

Definition at_ (T : trie) (p : list Z) (j : nat) (s : iSlot) : Prop :=
  exists ss, T !! p = Some ss /\ ss !! j = Some s.

Record trie_ok (T : trie) (m : gmap Z Z) : Prop := {
  t_len p ss : T !! p = Some ss -> length ss = 4%nat;
  t_depth p ss : T !! p = Some ss -> (1 <= length p <= 11)%nat;
  t_closed p b : p <> [] -> is_Some (T !! (p ++ [b])) -> is_Some (T !! p) /\ 0 <= b < 8;
  t_suffix p ss j k s s' : T !! p = Some ss -> ss !! j = Some s -> ss !! k = Some s' ->
    (j <= k)%nat -> tag s = iEmpty -> tag s' = iEmpty;
  t_place p j s : at_ T p j s -> live_tag (tag s) -> p = level (tag s) (pred (length p));
  t_uniq p j s p' j' s' : at_ T p j s -> at_ T p' j' s' -> tag s = tag s' -> live_tag (tag s) -> p = p' /\ j = j';
  t_map t v : m !! t = Some v <-> live_tag t /\ exists p j, at_ T p j (mkISlot t v)
}.

(** Nodes that have children are full. *)
Definition full_parents (T : trie) : Prop :=
  forall p b j s, is_Some (T !! (p ++ [b])) -> at_ T p j s -> live_tag (tag s).

(** *** Looking up *)

Lemma level_Some T m t p j s : trie_ok T m -> at_ T p j s -> tag s = t -> live_tag t ->
  exists k, (k <= 10)%nat /\ p = level t k /\ forall k', (k' <= k)%nat -> is_Some (T !! level t k').
Proof.
  intros H Hat <- Hl. pose proof (t_place _ _ H _ _ _ Hat Hl) as Ep. destruct Hat as (ss & Hp & _).
  pose proof (t_depth _ _ H _ _ Hp) as Hd. exists (pred (length p)). split; [lia|]. split; [done|].
  set (k := pred (length p)) in *. clearbody k. clear Hd. revert Hp. rewrite Ep. clear Ep. revert ss.
  induction k as [|k IH]; intros ss Hp k' Hk'.
  - replace k' with 0%nat by lia. by exists ss.
  - destruct (decide (k' = S k)) as [->|]; [by exists ss|].
    rewrite level_S in Hp. destruct (t_closed _ _ H (level (tag s) k) (branch (tag s) (B + iBits * Z.of_nat k))) as [[ss' Hss] _];
      [done|by eexists|]. apply (IH ss' Hss). lia.
Qed.

(** The first slot on the path of a tag that satisfies [P]: level, position, contents. *)
Section seek.
Context (P : iSlot -> Prop) `{P_dec : forall s, Decision (P s)}.

Fixpoint seek (T : trie) (t : Z) (k fuel : nat) : option (nat * nat * iSlot) :=
  match fuel with
  | O => None
  | S fuel =>
    match T !! level t k with
    | None => None
    | Some ss => match list_find P ss with
                 | Some (j, s) => Some (k, j, s)
                 | None => seek T t (S k) fuel
                 end
    end
  end.

Lemma seek_Some T t k fuel k0 j s : seek T t k fuel = Some (k0, j, s) -> at_ T (level t k0) j s /\ P s.
Proof.
  revert k. induction fuel as [|fuel IH]; intros k Hs; [done|]. cbn [seek] in Hs.
  destruct (T !! level t k) as [ss|] eqn:Hss; [|done].
  destruct (list_find P ss) as [[j' s']|] eqn:E; [|by apply IH in Hs].
  injection Hs as <- <- <-. apply list_find_Some in E as (? & ? & _). split; [by exists ss|done].
Qed.

Lemma seek_None T m t k fuel k0 j s : trie_ok T m -> live_tag t -> tag s = t -> seek T t k fuel = None ->
  (k <= k0)%nat -> (k0 < k + fuel)%nat -> at_ T (level t k0) j s -> ~ P s.
Proof.
  intros H Hl Ht. revert k. induction fuel as [|fuel IH]; intros k Hs Hk Hf Ha; [lia|]. cbn [seek] in Hs.
  destruct (level_Some T m t _ j s H Ha Ht Hl) as (k1 & _ & E1 & Hpre).
  assert (k1 = k0) as -> by (apply (f_equal length) in E1; rewrite !level_length in E1; lia).
  destruct (Hpre k ltac:(lia)) as [ss Hss]. rewrite Hss in Hs.
  destruct (list_find P ss) as [[? ?]|] eqn:E; [done|]. apply list_find_None in E.
  destruct (decide (k0 = k)) as [->|Hne]; [|apply (IH (S k) Hs); [lia|lia|done]].
  destruct Ha as (ss' & Hss' & Hj). assert (ss' = ss) as -> by congruence. by apply (Forall_lookup_1 _ _ _ _ E Hj).
Qed.

(** Looking for entries of one tag decides on the abstract map. *)
Lemma seek_spec T m t : trie_ok T m -> live_tag t -> (forall s, P s -> tag s = t) ->
  match seek T t 0 11 with
  | Some (k, j, s) => tag s = t /\ P s /\ m !! t = Some (val s) /\ at_ T (level t k) j s
  | None => forall v, m !! t = Some v -> ~ P (mkISlot t v)
  end.
Proof.
  intros H Hl HP. destruct (seek T t 0 11) as [[[k j] s]|] eqn:E.
  - apply seek_Some in E as [Ha Hs]. pose proof (HP s Hs) as Ht. split; [done|]. split; [done|]. split; [|done].
    apply (t_map _ _ H). split; [done|]. exists (level t k), j. subst t. by destruct s.
  - intros v Hm. apply (t_map _ _ H) in Hm as (_ & q & j & Ha).
    destruct (level_Some T m t q j _ H Ha eq_refl Hl) as (k0 & Hk0 & -> & _).
    by apply (seek_None T m t 0 11 k0 j (mkISlot t v) H Hl eq_refl E); [lia|lia|].
Qed.
End seek.

(** *** Writing one slot *)

Lemma at_write T p ss j s1 q k s : T !! p = Some ss -> (j < length ss)%nat ->
  at_ (<[p:=<[j:=s1]> ss]> T) q k s <-> (q = p /\ k = j /\ s = s1) \/ (~ (q = p /\ k = j) /\ at_ T q k s).
Proof.
  intros Hp Hj. unfold at_. destruct (decide (q = p)) as [->|Hq].
  - rewrite lookup_insert_eq. destruct (decide (k = j)) as [->|Hk].
    + split.
      * intros (ss' & [= <-] & Hs). rewrite list_lookup_insert_eq in Hs by done. left. by injection Hs as <-.
      * intros [(_ & _ & ->)|[[] _]]; [|done]. eexists. split; [done|]. by apply list_lookup_insert_eq.
    + split.
      * intros (ss' & [= <-] & Hs). rewrite list_lookup_insert_ne in Hs by done. right. split; [tauto|]. by exists ss.
      * intros [(_ & C & _)|[_ (ss' & E & Hs)]]; [done|]. eexists. split; [done|].
        rewrite list_lookup_insert_ne by done. congruence.
  - rewrite lookup_insert_ne by done. split; [intros H; right; by split; [tauto|]|].
    by intros [(C & _)|[_ H]].
Qed.

Lemma trie_write T m p ss j s0 s1 m' : trie_ok T m -> T !! p = Some ss -> ss !! j = Some s0 ->
  tag s1 <> iEmpty -> (live_tag (tag s1) -> p = level (tag s1) (pred (length p))) ->
  (forall i s, (i < j)%nat -> ss !! i = Some s -> tag s <> iEmpty) ->
  (forall q i s, at_ T q i s -> tag s = tag s1 -> live_tag (tag s1) -> q = p /\ i = j) ->
  (forall t v, m' !! t = Some v <->
     live_tag t /\ (mkISlot t v = s1 \/ exists q i, ~ (q = p /\ i = j) /\ at_ T q i (mkISlot t v))) ->
  trie_ok (<[p:=<[j:=s1]> ss]> T) m'.
Proof.
  intros H Hp Hj Hne Hpl Hbefore Hu Hm. pose proof (lookup_lt_Some _ _ _ Hj) as Hlt.
  assert (forall q, is_Some (<[p:=<[j:=s1]> ss]> T !! q) <-> is_Some (T !! q)) as Hdom.
  { intros q. destruct (decide (q = p)) as [->|]; [rewrite lookup_insert_eq, Hp; split; by eexists|by rewrite lookup_insert_ne]. }
  constructor.
  - intros q ss' Hq. destruct (decide (q = p)) as [->|]; [|rewrite lookup_insert_ne in Hq by done; by eapply t_len].
    rewrite lookup_insert_eq in Hq. injection Hq as <-. rewrite length_insert. by eapply t_len.
  - intros q ss' Hq. destruct (proj1 (Hdom q) ltac:(by eexists)) as [ss0 Hss0]. by eapply t_depth.
  - intros q b Hq Hb. rewrite Hdom in Hb |- *. by apply (t_closed _ _ H).
  - intros q ss' i k s s' Hq Hi Hk Hik Hs. destruct (decide (q = p)) as [->|].
    2:{ rewrite lookup_insert_ne in Hq by done. by eapply (t_suffix _ _ H q ss' i k). }
    rewrite lookup_insert_eq in Hq. injection Hq as <-.
    destruct (decide (i = j)) as [->|Hij].
    { rewrite list_lookup_insert_eq in Hi by done. injection Hi as <-. done. }
    rewrite list_lookup_insert_ne in Hi by done.
    assert (~ (i < j)%nat) by (intros C; by apply (Hbefore i s C Hi)).
    rewrite list_lookup_insert_ne in Hk by lia. by eapply (t_suffix _ _ H p ss i k).
  - intros q i s Hat Hl. apply at_write in Hat as [(-> & -> & ->)|[_ Hat]]; [by apply Hpl|by eapply (t_place _ _ H)|done|done].
  - intros q i s q' i' s' Ha Ha' Et Hl. apply at_write in Ha, Ha'; try done.
    destruct Ha as [(-> & -> & ->)|[Hn Ha]], Ha' as [(-> & -> & ->)|[Hn' Ha']].
    + done.
    + destruct Hn'. by apply (Hu q' i' s').
    + destruct Hn. by apply (Hu q i s); [|..|rewrite <- Et].
    + by eapply (t_uniq _ _ H).
  - intros t v. rewrite Hm. split; intros [Hl Hx]; (split; [done|]).
    + destruct Hx as [<-|(q & i & Hn & Ha)]; [exists p, j|exists q, i]; apply at_write; try done; [by left|by right].
    + destruct Hx as (q & i & Ha). apply at_write in Ha as [(-> & -> & <-)|[Hn Ha]]; try done; [by left|].
      right. by exists q, i.
Qed.

(** Storing a tag that no other slot holds. *)
Lemma trie_put T m p ss j s0 t v : trie_ok T m -> T !! p = Some ss -> ss !! j = Some s0 -> live_tag t ->
  p = level t (pred (length p)) -> tag s0 = t \/ ~ live_tag (tag s0) ->
  (forall i s, (i < j)%nat -> ss !! i = Some s -> tag s <> iEmpty) ->
  (forall q i s, at_ T q i s -> tag s = t -> q = p /\ i = j) ->
  trie_ok (<[p:=<[j:=mkISlot t v]> ss]> T) (<[t:=v]> m).
Proof.
  intros H Hp Hj Hl Hpl Hs0 Hb Hu. eapply trie_write; try done; [apply Hl|by intros q i s ? ? _; apply (Hu q i s)|].
  intros t' v'. destruct (decide (t' = t)) as [->|Hne].
  - rewrite lookup_insert_eq. split.
    + intros [= <-]. split; [done|by left].
    + intros [_ [[= ->]|(q & i & Hn & Ha)]]; [done|]. destruct Hn. by apply (Hu q i _ Ha).
  - rewrite lookup_insert_ne by done. rewrite (t_map _ _ H). split; intros [Hl' Hx]; (split; [done|]).
    + destruct Hx as (q & i & Ha). right. exists q, i. split; [|done]. intros [-> ->].
      destruct Ha as (ss' & E & Ha). assert (s0 = mkISlot t' v') as -> by congruence. cbn in Hs0. by destruct Hs0.
    + destruct Hx as [[= -> _]|(q & i & _ & Ha)]; [done|by exists q, i].
Qed.

(** Deleting the slot that holds a tag. *)
Lemma trie_tombstone T m p ss j s0 t : trie_ok T m -> T !! p = Some ss -> ss !! j = Some s0 -> tag s0 = t -> live_tag t ->
  trie_ok (<[p:=<[j:=mkISlot iTombstone 0]> ss]> T) (delete t m).
Proof.
  intros H Hp Hj <- Hl. assert (at_ T p j s0) as Hat by (by exists ss).
  eapply trie_write; try done.
  - intros C. cbn in C. by destruct C.
  - intros i s Hi Hs C. destruct Hl as [Hl _]. apply Hl. by eapply (t_suffix _ _ H p ss i j s s0); [..|lia|].
  - intros q i s _ _ C. cbn in C. by destruct C.
  - intros t' v'. destruct (decide (t' = tag s0)) as [->|Hne].
    + rewrite lookup_delete_eq. split; [done|]. intros [_ [E|(q & i & Hn & Ha)]].
      * injection E as E _. by destruct Hl.
      * destruct Hn. by apply (t_uniq _ _ H _ _ _ _ _ _ Ha Hat).
    + rewrite lookup_delete_ne by done. rewrite (t_map _ _ H). split; intros [Hl' Hx]; (split; [done|]).
      * destruct Hx as (q & i & Ha). right. exists q, i. split; [|done]. intros [-> ->].
        destruct Ha as (ss' & E & Ha). assert (s0 = mkISlot t' v') as -> by congruence. done.
      * destruct Hx as [E|(q & i & _ & Ha)]; [injection E as -> _; by destruct Hl'|by exists q, i].
Qed.

(** *** A new child *)

Definition single (t v : Z) : list iSlot := [mkISlot t v; mkISlot 0 0; mkISlot 0 0; mkISlot 0 0].

Lemma at_new T q ss p j s : T !! q = None -> at_ (<[q:=ss]> T) p j s <-> (p = q /\ ss !! j = Some s) \/ at_ T p j s.
Proof.
  intros Hq. unfold at_. destruct (decide (p = q)) as [->|Hne].
  - rewrite lookup_insert_eq, Hq. split; [intros (x & [= <-] & ?); by left|]. intros [[_ ?]|(x & ? & _)]; [by eexists|done].
  - rewrite lookup_insert_ne by done. split; [by right|]. by intros [[? _]|?].
Qed.

Lemma single_lookup t v j s : single t v !! j = Some s -> live_tag (tag s) -> j = 0%nat /\ s = mkISlot t v.
Proof.
  intros Hj Hl. destruct j as [|[|[|[|j]]]]; cbn in Hj; (done || injection Hj as <-; by destruct Hl).
Qed.

Lemma trie_child T m t v k : trie_ok T m -> live_tag t -> (k < 10)%nat ->
  is_Some (T !! level t k) -> T !! level t (S k) = None -> m !! t = None ->
  0 <= branch t (B + iBits * Z.of_nat k) < 8 ->
  trie_ok (<[level t (S k):=single t v]> T) (<[t:=v]> m).
Proof.
  intros H Hl Hk Hs Hnone Hm Hbr. set (q := level t (S k)) in *.
  assert (forall p j s, at_ (<[q:=single t v]> T) p j s -> live_tag (tag s) ->
    (p = q /\ j = 0%nat /\ s = mkISlot t v) \/ at_ T p j s) as Hat.
  { intros p j s Ha Hls. apply at_new in Ha as [[-> Hj]|Ha]; [|by right|done]. left.
    by destruct (single_lookup _ _ _ _ Hj Hls) as [-> ->]. }
  assert (forall p j s, at_ T p j s -> tag s = t -> False) as Habs.
  { intros p j [t' v'] Ha E. cbn in E. subst t'. assert (m !! t = Some v') as C; [|by rewrite Hm in C].
    apply (t_map _ _ H). split; [done|]. by exists p, j. }
  constructor.
  - intros p ss Hp. destruct (decide (p = q)) as [->|]; [|rewrite lookup_insert_ne in Hp by done; by eapply (t_len _ _ H)].
    rewrite lookup_insert_eq in Hp. by injection Hp as <-.
  - intros p ss Hp. destruct (decide (p = q)) as [->|]; [|rewrite lookup_insert_ne in Hp by done; by eapply (t_depth _ _ H)].
    unfold q. rewrite level_length. lia.
  - intros p b Hne Hb. destruct (decide (p ++ [b] = q)) as [E|Hq].
    + unfold q in E. rewrite level_S in E. apply app_inj_tail in E as [-> ->]. split; [|done].
      rewrite lookup_insert_ne; [done|]. intros E. apply (f_equal length) in E. unfold q in E. rewrite !level_length in E. lia.
    + rewrite lookup_insert_ne in Hb by done. destruct (t_closed _ _ H p b Hne Hb) as [Hp ?]. split; [|done].
      destruct (decide (p = q)) as [->|]; [by rewrite lookup_insert_eq; eexists|by rewrite lookup_insert_ne].
  - intros p ss i j s s' Hp Hi Hj Hij He. destruct (decide (p = q)) as [->|].
    2:{ rewrite lookup_insert_ne in Hp by done. by eapply (t_suffix _ _ H p ss i j). }
    rewrite lookup_insert_eq in Hp. injection Hp as <-. destruct (decide (live_tag (tag s'))) as [C|C].
    + destruct (single_lookup _ _ _ _ Hj C) as [-> ->]. assert (i = 0%nat) as -> by lia. injection Hi as <-. done.
    + destruct j as [|[|[|[|j]]]]; cbn in Hj; (done || injection Hj as <-; (done || by destruct C)).
  - intros p j s Ha Hls. apply Hat in Ha as [(-> & _ & ->)|Ha]; [|by eapply (t_place _ _ H)|done].
    unfold q. by rewrite level_length.
  - intros p j s p' j' s' Ha Ha' E Hls. apply Hat in Ha; [|done]. apply Hat in Ha'; [|by rewrite <- E].
    destruct Ha as [(-> & -> & ->)|Ha], Ha' as [(-> & -> & ->)|Ha'].
    + done.
    + by destruct (Habs _ _ _ Ha').
    + by destruct (Habs _ _ _ Ha).
    + by eapply (t_uniq _ _ H).
  - intros t' v'. split.
    + intros E. destruct (decide (t' = t)) as [->|Hne].
      * rewrite lookup_insert_eq in E. injection E as <-. split; [done|]. exists q, 0%nat. apply at_new; [done|by left].
      * rewrite lookup_insert_ne in E by done. apply (t_map _ _ H) in E as (? & p & j & Ha). split; [done|].
        exists p, j. apply at_new; [done|by right].
    + intros (Hl' & p & j & Ha). apply Hat in Ha as [(-> & _ & [= -> ->])|Ha]; [apply lookup_insert_eq| |done].
      rewrite lookup_insert_ne; [|intros <-; by eapply Habs]. apply (t_map _ _ H). split; [done|]. by exists p, j.
Qed.

(** *** Collapsing *)

(** The live entries of the children of [p], in branch order. *)
Definition lives (T : trie) (p : list Z) (bs : list Z) : list iSlot :=
  concat ((fun b => match T !! (p ++ [b]) with Some ss => live_slots ss | None => [] end) <$> bs).

Lemma elem_lives T p bs s : s ∈ lives T p bs <-> live_tag (tag s) /\ exists b j, b ∈ bs /\ at_ T (p ++ [b]) j s.
Proof.
  unfold lives. induction bs as [|b bs IH]; cbn [fmap list_fmap concat].
  { rewrite elem_of_nil. split; [done|]. intros (_ & b & j & C & _). by apply elem_of_nil in C. }
  rewrite elem_of_app, IH. setoid_rewrite elem_of_cons. split.
  - intros [Hs|(Hl & b' & j & Hb & Ha)]; [|split; [done|]; exists b', j; auto].
    destruct (T !! (p ++ [b])) as [ss|] eqn:E; [|by apply elem_of_nil in Hs].
    apply list_elem_of_filter in Hs as [Hf Hs]. apply list_elem_of_lookup in Hs as [j Hj].
    split; [by apply is_free_false|]. exists b, j. split; [by left|]. by exists ss.
  - intros (Hl & b' & j & [->|Hb] & Ha); [left|right; split; [done|]; by exists b', j].
    destruct Ha as (ss & -> & Hj). apply list_elem_of_filter. split; [by apply is_free_false|].
    by eapply list_elem_of_lookup_2.
Qed.

Lemma NoDup_live_tags ss :
  (forall i j s s', ss !! i = Some s -> ss !! j = Some s' -> tag s = tag s' -> live_tag (tag s) -> i = j) ->
  NoDup (tag <$> live_slots ss).
Proof.
  induction ss as [|s ss IH]; intros H; [constructor|].
  assert (NoDup (tag <$> live_slots ss)) as Hnd.
  { apply IH. intros i j s1 s2 H1 H2 E Hl. enough (S i = S j) by lia. by apply (H (S i) (S j) s1 s2). }
  rewrite filter_cons. destruct (decide (is_free s = false)) as [Hf|]; [|done]. cbn. constructor; [|done].
  intros C. apply list_elem_of_fmap in C as (s' & E & Hs'). apply list_elem_of_filter in Hs' as [_ Hs'].
  apply list_elem_of_lookup in Hs' as [j Hj]. by assert (0 = S j)%nat by (by apply (H 0%nat (S j) s s'); [..|apply is_free_false]).
Qed.

Lemma NoDup_lives T m p bs : trie_ok T m -> NoDup bs -> NoDup (tag <$> lives T p bs).
Proof.
  intros H. induction 1 as [|b bs Hb Hnd IH]; [constructor|].
  change (lives T p (b :: bs)) with ((match T !! (p ++ [b]) with Some ss => live_slots ss | None => [] end) ++ lives T p bs).
  rewrite fmap_app. apply NoDup_app. split; [|split; [|done]].
  - destruct (T !! (p ++ [b])) as [ss|] eqn:E; [|constructor]. apply NoDup_live_tags.
    intros i j s s' Hi Hj Et Hl. by apply (t_uniq _ _ H (p ++ [b]) i s (p ++ [b]) j s'); [exists ss|exists ss|..].
  - intros t Ht C. apply list_elem_of_fmap in C as (s' & -> & Hs'). apply elem_lives in Hs' as (Hl & b' & j' & Hb' & Ha').
    destruct (T !! (p ++ [b])) as [ss|] eqn:E; [|by apply elem_of_nil in Ht].
    apply list_elem_of_fmap in Ht as (s & Et & Hs). apply list_elem_of_filter in Hs as [_ Hs].
    apply list_elem_of_lookup in Hs as [j Hj].
    destruct (t_uniq _ _ H (p ++ [b']) j' s' (p ++ [b]) j s Ha') as [E' _]; [by exists ss|done|done|].
    apply app_inj_tail in E' as [_ ->]. done.
Qed.

(** **** Filling the free slots *)

Lemma fill_spec ss i es w : (length es <= length (free_slots ss))%nat ->
  let ss' := (fill ss i es w).1 in
  length ss' = length ss /\
  (forall j s, ss !! j = Some s -> is_free s = false -> ss' !! j = Some s) /\
  (forall e, e ∈ es -> exists j s, ss !! j = Some s /\ is_free s = true /\ ss' !! j = Some e) /\
  (forall j s', ss' !! j = Some s' -> ss !! j = Some s' \/
     s' ∈ es /\ exists s, ss !! j = Some s /\ is_free s = true).
Proof.
  revert i es w. induction ss as [|s ss IH]; intros i es w Hle; cbn [fill].
  { destruct es; [|cbn in Hle; lia]. cbn. split; [done|]. split; [done|]. split; [|auto].
    intros e C. by apply elem_of_nil in C. }
  destruct es as [|e es]; cbn [fst].
  { split; [done|]. split; [auto|]. split; [|auto]. intros e C. by apply elem_of_nil in C. }
  rewrite filter_cons in Hle. destruct (is_free s) eqn:Hf.
  - destruct (decide (true = true)) as [_|]; [|done]. cbn [length] in Hle.
    specialize (IH (i + 1) es (h2Set w i (h2ForTag (tag e))) ltac:(lia)).
    destruct (fill ss (i + 1) es _) as [ss' w']. cbn [fst] in *. destruct IH as (IH1 & IH2 & IH3 & IH4).
    split; [cbn; by rewrite IH1|]. split; [|split].
    + intros [|j] s0 Hj H0; cbn in *; [congruence|]. by apply IH2.
    + intros e0 [->|He]%elem_of_cons; [by exists 0%nat, s|]. destruct (IH3 e0 He) as (j & s0 & ? & ? & ?). by exists (S j), s0.
    + intros [|j] s' Hj; cbn in *.
      * injection Hj as <-. right. split; [by left|]. by exists s.
      * destruct (IH4 j s' Hj) as [?|[? ?]]; [by left|]. right. split; [by right|done].
  - destruct (decide (false = true)) as [|_]; [done|].
    specialize (IH (i + 1) (e :: es) w ltac:(done)). destruct (fill ss (i + 1) (e :: es) w) as [ss' w']. cbn [fst] in *.
    destruct IH as (IH1 & IH2 & IH3 & IH4).
    split; [cbn; by rewrite IH1|]. split; [|split].
    + intros [|j] s0 Hj H0; cbn in *; [done|]. by apply IH2.
    + intros e0 He. destruct (IH3 e0 He) as (j & s0 & ? & ? & ?). by exists (S j), s0.
    + intros [|j] s' Hj; cbn in *; [by left|by apply IH4].
Qed.

(** An entry is written once. *)
Lemma fill_inj ss i es w j j' s s' : NoDup (tag <$> es) -> (length es <= length (free_slots ss))%nat ->
  (forall e k s0, e ∈ es -> ss !! k = Some s0 -> tag s0 <> tag e) ->
  let ss' := (fill ss i es w).1 in
  ss' !! j = Some s -> ss' !! j' = Some s' -> tag s = tag s' -> s ∈ es -> j = j'.
Proof.
  revert i es w j j'. induction ss as [|x ss IH]; intros i es w j j' Hnd Hle Hne ss' Hj Hj' Et Hs; subst ss'; cbn [fill] in *.
  { destruct es; [by apply elem_of_nil in Hs|cbn in Hle; lia]. }
  destruct es as [|e es]; [by apply elem_of_nil in Hs|].
  rewrite filter_cons in Hle. destruct (is_free x) eqn:Hf.
  - destruct (decide (true = true)) as [_|]; [|done]. cbn [length] in Hle.
    cbn in Hnd. apply NoDup_cons in Hnd as [Hni Hnd].
    pose proof (fill_spec ss (i + 1) es (h2Set w i (h2ForTag (tag e))) ltac:(lia)) as (_ & _ & _ & Hback).
    specialize (IH (i + 1) es (h2Set w i (h2ForTag (tag e)))).
    destruct (fill ss (i + 1) es _) as [ss' w']. cbn [fst] in *.
    assert (forall k r, ss' !! k = Some r -> tag r <> tag e) as Hno.
    { intros k r Hk C. destruct (Hback k r Hk) as [Hk'|[Hr _]]; [by apply (Hne e (S k) r); [left|..]|].
      apply Hni. rewrite <- C. by apply list_elem_of_fmap_2. }
    destruct j as [|j], j' as [|j']; cbn in Hj, Hj'; [done|..].
    + injection Hj as <-. by destruct (Hno j' s' Hj').
    + injection Hj' as <-. by destruct (Hno j s Hj).
    + f_equal. apply IH; try done; [lia|by intros e0 k s0 He Hk; apply (Hne e0 (S k)); [right|]|].
      apply elem_of_cons in Hs as [->|?]; [|done]. by destruct (Hno j e Hj).
  - destruct (decide (false = true)) as [|_]; [done|].
    specialize (IH (i + 1) (e :: es) w). destruct (fill ss (i + 1) (e :: es) w) as [ss' w']. cbn [fst] in *.
    destruct j as [|j], j' as [|j']; cbn in Hj, Hj'; [done|..].
    + injection Hj as <-. by destruct (Hne x 0%nat x).
    + injection Hj' as <-. by destruct (Hne s 0%nat x).
    + f_equal. apply IH; try done. intros e0 k s0 He Hk. by apply (Hne e0 (S k)).
Qed.

Lemma fill_suffix ss i es w : (forall j k s s', ss !! j = Some s -> ss !! k = Some s' -> (j <= k)%nat -> tag s = iEmpty -> tag s' = iEmpty) ->
  (forall e, e ∈ es -> tag e <> iEmpty) ->
  forall j k s s', (fill ss i es w).1 !! j = Some s -> (fill ss i es w).1 !! k = Some s' -> (j <= k)%nat ->
  tag s = iEmpty -> tag s' = iEmpty.
Proof.
  revert i es w. induction ss as [|x ss IH]; intros i es w Hsuf He; cbn [fill]; [done|].
  destruct es as [|e es]; [exact Hsuf|].
  assert (forall j k s s', ss !! j = Some s -> ss !! k = Some s' -> (j <= k)%nat -> tag s = iEmpty -> tag s' = iEmpty) as Hsuf'.
  { intros j k s s' Hj Hk Hle. apply (Hsuf (S j) (S k)); [done|done|lia]. }
  destruct (is_free x) eqn:Hf.
  - specialize (IH (i + 1) es (h2Set w i (h2ForTag (tag e))) Hsuf' ltac:(intros; apply He; by right)).
    destruct (fill ss (i + 1) es _) as [ss' w']. cbn [fst] in *.
    intros [|j] [|k] s s' Hj Hk Hle Hs; cbn in Hj, Hk; try lia.
    + congruence.
    + injection Hj as <-. by destruct (He e ltac:(by left)).
    + by eapply (IH j k); [..|lia|].
  - specialize (IH (i + 1) (e :: es) w Hsuf' He). destruct (fill ss (i + 1) (e :: es) w) as [ss' w']. cbn [fst] in *.
    intros [|j] [|k] s s' Hj Hk Hle Hs; cbn in Hj, Hk; try lia.
    + congruence.
    + injection Hj as <-. apply is_free_false in Hf. by destruct Hf.
    + by eapply (IH j k); [..|lia|].
Qed.

Definition child_of (p q : list Z) : Prop := length q = S (length p) /\ take (length p) q = p.

#[local] Instance child_of_dec p q : Decision (child_of p q).
Proof. unfold child_of. apply _. Defined.

Lemma child_of_app p b : child_of p (p ++ [b]).
Proof. split; [rewrite length_app; cbn; lia|]. by rewrite take_app_length. Qed.

Lemma child_of_inv p q : child_of p q -> exists b, q = p ++ [b].
Proof.
  intros [Hl Ht]. rewrite <- (take_drop (length p) q), Ht.
  destruct (drop (length p) q) as [|b [|c l]] eqn:E; apply (f_equal length) in E; rewrite length_drop in E; cbn in E; try lia.
  by exists b.
Qed.

(** The trie without the children of [p]. *)
Definition prune {A} (p : list Z) (M : gmap (list Z) A) : gmap (list Z) A :=
  base.filter (fun kv => ~ child_of p kv.1) M.

Lemma prune_lookup {A} (p : list Z) (M : gmap (list Z) A) (q : list Z) : prune p M !! q = if decide (child_of p q) then None else M !! q.
Proof.
  unfold prune. rewrite map_lookup_filter. destruct (M !! q) as [x|]; cbn; [|by destruct (decide _)].
  destruct (decide (child_of p q)) as [Hc|Hc]; [rewrite option_guard_False by tauto; done|].
  by rewrite option_guard_True.
Qed.

Lemma not_child_self p : ~ child_of p p.
Proof. intros [E _]. lia. Qed.

Definition collapsed (T : trie) (p : list Z) (ss : list iSlot) (w : Z) : trie :=
  <[p:=(fill ss 0 (lives T p (seqZ 0 8)) w).1]> (prune p T).

Section collapse.
Context (T : trie) (m : gmap Z Z) (p : list Z) (ss : list iSlot) (w : Z).
Context (H : trie_ok T m) (Hne : p <> []) (Hp : T !! p = Some ss).
Context (Hroom : (length (lives T p (seqZ 0 8)) <= length (free_slots ss))%nat).
Context (Hleaf : forall b b', T !! ((p ++ [b]) ++ [b']) = None).

Local Abbreviation es := (lives T p (seqZ 0 8)).

Lemma child_entries b j s : at_ T (p ++ [b]) j s -> live_tag (tag s) -> s ∈ es.
Proof using All.
  intros Ha Hl. apply elem_lives. split; [done|]. exists b, j. split; [|done].
  destruct (t_closed _ _ H p b Hne) as [_ Hb]; [destruct Ha as (x & Hx & _); by exists x|]. apply elem_of_seqZ. lia.
Qed.

Lemma entry_absent e k s0 : e ∈ es -> ss !! k = Some s0 -> tag s0 <> tag e.
Proof using All.
  intros He Hk C. apply elem_lives in He as (Hl & b & j & _ & Ha).
  destruct (t_uniq _ _ H _ _ _ p k s0 Ha) as [E _]; [by exists ss|done|done|].
  apply (f_equal length) in E. rewrite length_app in E. cbn in E. lia.
Qed.

Lemma entry_moved q j s e : ~ child_of p q -> at_ T q j s -> e ∈ es -> tag s = tag e -> False.
Proof using All.
  intros Hc Ha He Et. apply elem_lives in He as (Hl & b & i & _ & Ha').
  destruct (t_uniq _ _ H _ _ _ _ _ _ Ha' Ha) as [<- _]; [done|done|]. apply Hc, child_of_app.
Qed.

(** Where a live entry of the collapsed trie was before. *)
Lemma collapsed_at q j s : at_ (collapsed T p ss w) q j s -> live_tag (tag s) ->
  (~ child_of p q /\ at_ T q j s /\ s ∉ es) \/ (q = p /\ s ∈ es).
Proof using All.
  intros (ss' & Hq & Hj) Hl. unfold collapsed in Hq. destruct (decide (q = p)) as [->|Hqp].
  - rewrite lookup_insert_eq in Hq. injection Hq as <-.
    destruct (fill_spec ss 0 es w Hroom) as (_ & _ & _ & Hback).
    destruct (Hback j s Hj) as [Hss|[He _]]; [|by right]. left. split; [apply not_child_self|]. split; [by exists ss|].
    intros He. by apply (entry_absent s j s).
  - rewrite lookup_insert_ne, prune_lookup in Hq by done. destruct (decide (child_of p q)) as [|Hc]; [done|]. left.
    split; [done|]. split; [by exists ss'|]. intros He. apply elem_lives in He as (_ & b & i & _ & Ha).
    destruct (t_uniq _ _ H _ _ _ _ _ _ Ha ltac:(by exists ss')) as [<- _]; [done|done|]. apply Hc, child_of_app.
Qed.

Lemma collapsed_has t v : live_tag t -> (exists q j, at_ (collapsed T p ss w) q j (mkISlot t v)) <-> (exists q j, at_ T q j (mkISlot t v)).
Proof using All.
  intros Hl. split.
  - intros (q & j & Ha). destruct (collapsed_at _ _ _ Ha Hl) as [(_ & Ha' & _)|[_ He]]; [by exists q, j|].
    apply elem_lives in He as (_ & b & i & _ & Ha'). by eexists _, _.
  - intros (q & j & Ha). destruct (fill_spec ss 0 es w Hroom) as (_ & Hkeep & Hput & _).
    destruct (decide (child_of p q)) as [Hc|Hc].
    + apply child_of_inv in Hc as [b ->]. destruct (Hput _ (child_entries _ _ _ Ha Hl)) as (k & s0 & _ & _ & Hk).
      exists p, k. eexists. split; [apply lookup_insert_eq|done].
    + exists q, j. destruct Ha as (x & Hx & Hj). destruct (decide (q = p)) as [->|Hqp].
      * assert (x = ss) as -> by congruence. eexists. split; [apply lookup_insert_eq|]. apply Hkeep; [done|by apply is_free_false].
      * exists x. unfold collapsed. rewrite lookup_insert_ne, prune_lookup by done. by destruct (decide _).
Qed.

Lemma collapsed_dom q : is_Some (collapsed T p ss w !! q) -> is_Some (T !! q) /\ ~ child_of p q.
Proof using Hp.
  intros [x Hx]. unfold collapsed in Hx. destruct (decide (q = p)) as [->|]; [split; [by exists ss|apply not_child_self]|].
  rewrite lookup_insert_ne, prune_lookup in Hx by done. destruct (decide (child_of p q)); [done|]. split; [by exists x|done].
Qed.

Lemma trie_collapse : trie_ok (collapsed T p ss w) m.
Proof using All.
  destruct (fill_spec ss 0 es w Hroom) as (Hlen & Hkeep & Hput & Hback).
  constructor.
  - intros q x Hq. unfold collapsed in Hq. destruct (decide (q = p)) as [->|].
    + rewrite lookup_insert_eq in Hq. injection Hq as <-. rewrite Hlen. by eapply (t_len _ _ H).
    + rewrite lookup_insert_ne, prune_lookup in Hq by done. destruct (decide _); [done|]. by eapply (t_len _ _ H).
  - intros q x Hq. destruct (collapsed_dom q ltac:(by exists x)) as [[y Hy] _]. by eapply (t_depth _ _ H).
  - intros q b Hq Hb. destruct (collapsed_dom _ Hb) as [Hb' Hc]. destruct (t_closed _ _ H q b Hq Hb') as [[y Hy] ?].
    split; [|done]. unfold collapsed. destruct (decide (q = p)) as [->|]; [rewrite lookup_insert_eq; by eexists|].
    rewrite lookup_insert_ne, prune_lookup by done. destruct (decide (child_of p q)) as [C|]; [|by exists y].
    apply child_of_inv in C as [b' ->]. rewrite Hleaf in Hb'. by destruct Hb'.
  - intros q x i k s s' Hq Hi Hk Hik He. unfold collapsed in Hq. destruct (decide (q = p)) as [->|].
    + rewrite lookup_insert_eq in Hq. injection Hq as <-. eapply (fill_suffix ss 0 es w); [| |exact Hi|exact Hk|done|done].
      * intros j0 k0 s0 s0' Hj0 Hk0. by apply (t_suffix _ _ H p ss).
      * intros e [Hl _]%elem_lives. by destruct Hl.
    + rewrite lookup_insert_ne, prune_lookup in Hq by done. destruct (decide _); [done|]. by eapply (t_suffix _ _ H q x i k).
  - intros q j s Ha Hl. destruct (collapsed_at _ _ _ Ha Hl) as [(_ & Ha' & _)|[-> He]]; [by eapply (t_place _ _ H)|].
    apply elem_lives in He as (_ & b & i & _ & Ha'). pose proof (t_place _ _ H _ _ _ Ha' Hl) as E.
    rewrite length_app, Nat.add_1_r in E. cbn [pred] in E. destruct p as [|p0 p1] eqn:Ep; [done|]. cbn [length pred] in *.
    rewrite level_S in E. by apply app_inj_tail in E as [-> _].
  - intros q j s q' j' s' Ha Ha' Et Hl.
    destruct (collapsed_at _ _ _ Ha Hl) as [(Hc & Hb & Hn)|[-> He]],
      (collapsed_at _ _ _ Ha' ltac:(by rewrite <- Et)) as [(Hc' & Hb' & Hn')|[-> He']].
    + by eapply (t_uniq _ _ H).
    + by destruct (entry_moved q j s s' Hc Hb He' Et).
    + by destruct (entry_moved q' j' s' s Hc' Hb' He (eq_sym Et)).
    + split; [done|]. destruct Ha as (x & Hx & Hj), Ha' as (x' & Hx' & Hj').
      unfold collapsed in Hx, Hx'. rewrite lookup_insert_eq in Hx, Hx'. injection Hx as <-. injection Hx' as <-.
      eapply (fill_inj ss 0 es w); [eapply NoDup_lives; [done|apply NoDup_seqZ]|done|apply entry_absent|done..].
  - intros t v. rewrite (t_map _ _ H). split; intros [Hl Hx]; (split; [done|]); by apply collapsed_has.
Qed.
End collapse.

(** *** Inserting *)

Lemma insert_pos_eq ss i t tomb : live_tag t ->
  insert_pos ss i t tomb =
  match list_find (fun s => tag s = t \/ tag s = iEmpty) ss with
  | Some (j, s) => Some ((i + j)%nat, bool_decide (tag s = t))
  | None => match tomb with
            | Some k => Some (k, false)
            | None => match list_find (fun s => tag s = iTombstone) ss with
                      | Some (j, _) => Some ((i + j)%nat, false)
                      | None => None
                      end
            end
  end.
Proof.
  intros Hl. revert i tomb. induction ss as [|s ss IH]; intros i tomb; cbn [insert_pos list_find]; [done|].
  destruct (Z.eqb_spec (tag s) t) as [E|E].
  { rewrite decide_True by auto. rewrite bool_decide_eq_true_2 by done. by rewrite Nat.add_0_r. }
  destruct (Z.eqb_spec (tag s) iEmpty) as [E0|E0].
  { rewrite decide_True by auto. rewrite bool_decide_eq_false_2 by done. by rewrite Nat.add_0_r. }
  rewrite decide_False by tauto. destruct (Z.eqb_spec (tag s) iTombstone) as [E1|E1].
  - rewrite IH, (decide_True (P := tag s = iTombstone)) by done.
    destruct (list_find _ ss) as [[j s']|]; cbn; [do 2 f_equal; lia|].
    destruct tomb; cbn; [done|]. by rewrite Nat.add_0_r.
  - rewrite IH, (decide_False (P := tag s = iTombstone)) by done.
    destruct (list_find (fun s => tag s = t \/ _) ss) as [[j s']|]; cbn; [do 2 f_equal; lia|].
    destruct tomb; [done|]. destruct (list_find (fun s => tag s = iTombstone) ss) as [[j s']|]; cbn; [do 2 f_equal; lia|done].
Qed.

Lemma insert_pos_None ss t j s : live_tag t -> insert_pos ss 0 t None = None -> ss !! j = Some s ->
  live_tag (tag s) /\ tag s <> t.
Proof.
  intros Hl. rewrite insert_pos_eq by done.
  destruct (list_find (fun s => tag s = t \/ _) ss) as [[? ?]|] eqn:E1; [done|].
  destruct (list_find (fun s => tag s = iTombstone) ss) as [[? ?]|] eqn:E2; [done|]. intros _ Hj.
  apply list_find_None in E1, E2. pose proof (Forall_lookup_1 _ _ _ _ E1 Hj). pose proof (Forall_lookup_1 _ _ _ _ E2 Hj).
  cbn in *. unfold live_tag. tauto.
Qed.

Lemma insert_pos_Some T m p ss t j same : trie_ok T m -> T !! p = Some ss -> live_tag t ->
  insert_pos ss 0 t None = Some (j, same) ->
  exists s0, ss !! j = Some s0 /\
    (forall i s, (i < j)%nat -> ss !! i = Some s -> tag s <> iEmpty) /\
    if same then tag s0 = t else ~ live_tag (tag s0) /\ forall i s, ss !! i = Some s -> tag s <> t.
Proof.
  intros H Hp Hl. rewrite insert_pos_eq by done.
  destruct (list_find (fun s => tag s = t \/ _) ss) as [[k s]|] eqn:E1.
  - apply list_find_Some in E1 as (Hk & Ht & Hbefore). intros [= <- <-]. exists s. split; [done|]. split.
    { intros i s' Hi Hs' C. apply (Hbefore i s' Hs' Hi). auto. }
    case_bool_decide as Hd; [done|]. destruct Ht as [|He]; [done|]. split; [by intros [? _]|].
    intros i s' Hs' C. destruct (decide (i < k)%nat); [by apply (Hbefore i s' Hs'); auto|].
    destruct Hl as [Hl _]. apply Hl. rewrite <- C. by eapply (t_suffix _ _ H p ss k i s s'); [..|lia|].
  - apply list_find_None in E1.
    destruct (list_find (fun s => tag s = iTombstone) ss) as [[k s]|] eqn:E2; [|done].
    apply list_find_Some in E2 as (Hk & Ht & _). intros [= <- <-]. exists s. split; [done|]. split.
    + intros i s' _ Hs' C. by apply (Forall_lookup_1 _ _ _ _ E1 Hs'); auto.
    + split; [by intros [_ ?]|]. intros i s' Hs' C. by apply (Forall_lookup_1 _ _ _ _ E1 Hs'); auto.
Qed.

(** The levels above [k] are passed: they exist and do not hold the tag. *)
Definition passed (T : trie) (t : Z) (k : nat) : Prop :=
  forall k', (k' < k)%nat -> exists ss, T !! level t k' = Some ss /\
    forall j s, ss !! j = Some s -> live_tag (tag s) /\ tag s <> t.

Lemma passed_S T t k ss : passed T t k -> T !! level t k = Some ss ->
  (forall j s, ss !! j = Some s -> live_tag (tag s) /\ tag s <> t) -> passed T t (S k).
Proof.
  intros Hp Hk Hss k' Hlt. destruct (decide (k' = k)) as [->|]; [by exists ss|]. apply Hp. lia.
Qed.

Lemma passed_at T m t k q i s : trie_ok T m -> passed T t k -> live_tag t -> at_ T q i s -> tag s = t ->
  exists k0, (k <= k0 <= 10)%nat /\ q = level t k0 /\ forall k', (k' <= k0)%nat -> is_Some (T !! level t k').
Proof.
  intros H Hpass Hl Ha Et. destruct (level_Some T m t q i s H Ha Et Hl) as (k0 & Hk0 & -> & Hpre).
  exists k0. split; [|done]. split; [|done]. destruct (decide (k <= k0)%nat); [done|].
  destruct (Hpass k0 ltac:(lia)) as (ss & Hss & Hno). destruct Ha as (ss' & Hss' & Hi). assert (ss' = ss) as -> by congruence.
  by destruct (Hno i s Hi).
Qed.

Lemma trie_insert T m t v k ss j same : trie_ok T m -> live_tag t -> passed T t k -> T !! level t k = Some ss ->
  insert_pos ss 0 t None = Some (j, same) -> m !! t = None \/ full_parents T ->
  trie_ok (<[level t k:=<[j:=mkISlot t v]> ss]> T) (<[t:=v]> m).
Proof.
  intros H Hl Hpass Hk Hpos Hcond.
  destruct (insert_pos_Some T m _ ss t j same H Hk Hl Hpos) as (s0 & Hj & Hb & Hsame).
  apply (trie_put T m _ ss j s0 t v H Hk Hj Hl); [by rewrite level_length| |done|].
  { destruct same; [by left|right; apply Hsame]. }
  intros q i s Ha Et. destruct Hcond as [Hm|Hfull].
  { exfalso. destruct s as [t' v']. cbn in Et. subst t'. assert (m !! t = Some v') as C; [|by rewrite Hm in C].
    apply (t_map _ _ H). split; [done|]. by exists q, i. }
  destruct (passed_at T m t k q i s H Hpass Hl Ha Et) as (k0 & Hk0 & -> & Hpre).
  destruct same.
  - apply (t_uniq _ _ H _ _ _ _ _ s0 Ha); [by exists ss|congruence|by rewrite Et].
  - destruct Hsame as [Hfree Hno]. destruct (decide (k0 = k)) as [->|Hne].
    + destruct Ha as (ss' & Hss' & Hi). assert (ss' = ss) as -> by congruence. by destruct (Hno i s Hi).
    + destruct Hfree. apply (Hfull (level t k) (branch t (B + iBits * Z.of_nat k)) j s0); [|by exists ss].
      rewrite <- level_S. apply Hpre. lia.
Qed.

(** With no room on the whole path, the deepest node holds four tags of the same route. *)
Definition same_route (t t' : Z) : Prop := level t 10 = level t' 10.

#[local] Instance same_route_dec t t' : Decision (same_route t t').
Proof. unfold same_route. apply _. Defined.

Definition crowd (m : gmap Z Z) (t : Z) : nat := size (base.filter (fun kv => same_route t kv.1) m).

Lemma trie_absent T m t : trie_ok T m -> live_tag t -> passed T t 11 -> m !! t = None.
Proof.
  intros H Hl Hp. destruct (m !! t) as [v|] eqn:E; [|done]. apply (t_map _ _ H) in E as (_ & q & i & Ha).
  destruct (passed_at T m t 11 q i _ H Hp Hl Ha eq_refl) as (k0 & ? & _). lia.
Qed.

Lemma filter_all (ss : list iSlot) : (forall (j : nat) s, ss !! j = Some s -> is_free s = false) -> live_slots ss = ss.
Proof.
  induction ss as [|s ss IH]; intros Hall; [done|]. rewrite filter_cons_True by (by apply (Hall 0%nat)).
  f_equal. apply IH. intros j. apply (Hall (S j)).
Qed.

Lemma trie_crowd T m t : trie_ok T m -> live_tag t -> passed T t 11 -> (4 <= crowd m t)%nat.
Proof.
  intros H Hl Hp. destruct (Hp 10%nat ltac:(lia)) as (ss & Hss & Hall).
  assert (NoDup (tag <$> live_slots ss)) as Hnd.
  { apply NoDup_live_tags. intros i j s s' Hi Hj Et Hls.
    by apply (t_uniq _ _ H (level t 10) i s (level t 10) j s'); [exists ss|exists ss|..]. }
  assert (live_slots ss = ss) as Ef.
  { apply filter_all. intros j s Hj. apply is_free_false. by apply (Hall j s). }
  rewrite Ef in Hnd. unfold crowd. rewrite <- size_dom.
  replace 4%nat with (size (list_to_set (tag <$> ss) : gset Z)).
  - apply subseteq_size. intros t' Ht'. apply elem_of_list_to_set, list_elem_of_fmap in Ht' as (s & -> & Hs).
    apply list_elem_of_lookup in Hs as [j Hj]. destruct (Hall j s Hj) as [Hls _]. apply elem_of_dom.
    exists (val s). apply map_lookup_filter_Some. split.
    + apply (t_map _ _ H). split; [done|]. exists (level t 10), j, ss. split; [done|]. rewrite Hj. by destruct s.
    + cbn. unfold same_route. pose proof (t_place _ _ H (level t 10) j s ltac:(by exists ss) Hls) as E.
      by rewrite level_length in E.
  - rewrite size_list_to_set by done. rewrite length_fmap. by eapply (t_len _ _ H).
Qed.

(** *** Full parents *)

Lemma full_write T p ss j s1 : full_parents T -> T !! p = Some ss -> (j < length ss)%nat -> live_tag (tag s1) ->
  full_parents (<[p:=<[j:=s1]> ss]> T).
Proof.
  intros Hf Hp Hj Hl q b k s Hb Ha. apply at_write in Ha as [(_ & _ & ->)|[_ Ha]]; [done| |done|done].
  apply (Hf q b k s); [|done]. destruct (decide (q ++ [b] = p)) as [E|]; [rewrite E; by exists ss|].
  by rewrite lookup_insert_ne in Hb.
Qed.

Lemma full_child T m t v k : trie_ok T m -> full_parents T -> passed T t (S k) -> T !! level t (S k) = None ->
  full_parents (<[level t (S k):=single t v]> T).
Proof.
  intros H Hf Hpass Hnone q b i s Hb Ha. apply at_new in Ha; [|done].
  destruct (decide (q ++ [b] = level t (S k))) as [E|Hne].
  - rewrite level_S in E. apply app_inj_tail in E as [-> _].
    destruct (Hpass k ltac:(lia)) as (ss & Hss & Hall). destruct Ha as [[E _]|(ss' & Hss' & Hi)].
    + apply (f_equal length) in E. rewrite !level_length in E. lia.
    + assert (ss' = ss) as -> by congruence. by apply (Hall i s).
  - rewrite lookup_insert_ne in Hb by done. destruct Ha as [[-> _]|Ha]; [|by apply (Hf q b i s)].
    destruct (t_closed _ _ H (level t (S k)) b) as [[? C] _]; [done|done|]. by rewrite Hnone in C.
Qed.

Lemma full_collapse T p ss w : full_parents T -> T !! p = Some ss ->
  full_parents (collapsed T p ss w).
Proof.
  intros Hf Hp q b j s Hb Ha. apply (collapsed_dom T p ss w) in Hb as [Hb Hc]; [|done].
  assert (q <> p) as Hne by (intros ->; apply Hc, child_of_app).
  apply (Hf q b j s Hb). destruct Ha as (x & Hx & Hj). unfold collapsed in Hx.
  rewrite lookup_insert_ne, prune_lookup in Hx by done. destruct (decide _); [done|]. by exists x.
Qed.
End trie.
