(* ===== verification/CacheMem.v ===== *)
(** * The memory of the cache index

    The pool's memory against the trie of CacheTrie.v: [mem_ok x L T F] says
    that the node at path [p] of the trie [T] is stored under the number
    [L !! p], that the children stored in a node are the numbers of its
    children, that the filter words match the slots, and that the numbers on
    the free list and those in [F] (claimed or detached by the running
    operation) belong to no path.  Traversals of the memory are searches of
    the trie; claiming, linking, detaching and queueing nodes keep the
    invariant. *)

From S2P Require Import Prelude CacheIndex CacheBits CacheTrie.

Local Open Scope Z_scope.
Local Open Scope rah_scope.

Definition h2_ok (n : iNode) : Prop :=
  0 <= h2word n < 2 ^ 64 /\
  forall j s, slots n !! j = Some s -> grp (h2word n) (Z.of_nat j) = if is_free s then 0 else h2ForTag (tag s).

Definition kids (L : gmap (list Z) Z) (p : list Z) : list Z := (fun b => default 0 (L !! (p ++ [b]))) <$> seqZ 0 8.

Definition waiting (p : iNodePool) : list Z := drop (Z.to_nat (readyHd p)) (ready p).

Record mem_ok (x : InlineIndex) (L : gmap (list Z) Z) (T : trie) (F : list Z) : Prop := {
  k_bits : 1 <= shardBits x <= 20;
  k_mask : shardMask x = Z.ones (shardBits x);
  k_shards s : 0 <= s < 2 ^ shardBits x -> exists r, shards x !! Z.to_nat s = Some r /\ L !! [s] = Some r;
  k_roots r : r ∈ shards x -> exists s, L !! [s] = Some r;
  k_node p i : L !! p = Some i -> exists n, nodes (pool x) !! Z.to_nat i = Some n /\ T !! p = Some (slots n) /\
    h2_ok n /\ children n = kids L p;
  k_dom p : is_Some (T !! p) -> is_Some (L !! p);
  k_range p i : L !! p = Some i -> 1 <= i < next (pool x);
  k_inj p q i : L !! p = Some i -> L !! q = Some i -> p = q;
  k_next : 1 <= next (pool x) <= Z.of_nat (length (nodes (pool x)));
  k_fresh i n : next (pool x) <= Z.of_nat i -> nodes (pool x) !! i = Some n -> n = zero_node;
  k_hd : 0 <= readyHd (pool x) <= Z.of_nat (length (ready (pool x)));
  k_nodup : NoDup (F ++ waiting (pool x));
  k_free i : i ∈ F ++ waiting (pool x) -> 1 <= i < next (pool x) /\ forall p, L !! p <> Some i
}.

Lemma branch_range t sh : 0 <= branch t sh < 8.
Proof. unfold branch, iMask. change 7 with (Z.ones 3). rewrite Z.land_ones by lia. apply Z.mod_pos_bound. lia. Qed.

Lemma kids_lookup L p b : 0 <= b < 8 -> go_index (kids L p) b = Ret (default 0 (L !! (p ++ [b]))).
Proof.
  intros Hb. apply go_index_Z; [lia|]. unfold kids. rewrite list_lookup_fmap, lookup_seqZ_lt by lia. cbn [fmap option_fmap option_map].
  by replace (0 + Z.of_nat (Z.to_nat b)) with b by lia.
Qed.

Lemma null_child (L : gmap (list Z) Z) x T F p : mem_ok x L T F -> (default 0 (L !! p) =? iNullChild) = bool_decide (L !! p = None).
Proof.
  intros H. destruct (L !! p) as [i|] eqn:E; cbn; [|done]. pose proof (k_range _ _ _ _ H _ _ E).
  apply Z.eqb_neq. unfold iNullChild. lia.
Qed.

Lemma filter_exact n t : length (slots n) = 4%nat -> h2_ok n -> live_tag t ->
  (if h2AnyMatch (h2word n) (h2ForTag t) then find_tag (slots n) t else None) = find_tag (slots n) t.
Proof.
  intros Hlen [Hb Hg] Hl. destruct (h2AnyMatch _ _) eqn:E; [done|].
  destruct (find_tag (slots n) t) as [[j s]|] eqn:Ef; [|done]. exfalso.
  unfold find_tag in Ef. apply list_find_Some in Ef as (Hj & Ht & _).
  pose proof (h2ForTag_range t). apply not_true_iff_false in E. apply E. apply h2AnyMatch_spec; [done|lia|].
  pose proof (lookup_lt_Some _ _ _ Hj). exists (Z.of_nat j). split; [lia|]. rewrite (Hg j s Hj).
  rewrite (proj2 (is_free_false s)) by (by rewrite Ht). by rewrite Ht.
Qed.

(** *** Traversals *)

Section walks.
Context (x : InlineIndex) (L : gmap (list Z) Z) (T : trie) (F : list Z) (m : gmap Z Z).
Context (H : mem_ok x L T F) (HT : trie_ok (shardBits x) T m).

Local Abbreviation B := (shardBits x).
Local Abbreviation num t k := (default 0 (L !! level B t k)).

Lemma level_node t k : match T !! level B t k with
  | None => L !! level B t k = None
  | Some ss => exists i n, L !! level B t k = Some i /\ node (pool x) i = Ret n /\ slots n = ss /\ h2_ok n /\
      length ss = 4%nat /\ children n = kids L (level B t k)
  end.
Proof using H HT.
  destruct (L !! level B t k) as [i|] eqn:E.
  - destruct (k_node _ _ _ _ H _ _ E) as (n & Hn & -> & Hh & Hc). pose proof (k_range _ _ _ _ H _ _ E) as Hr.
    exists i, n. split; [done|]. split; [by apply go_index_Z; [lia|]|]. split; [done|]. split; [done|]. split; [|done].
    eapply (t_len _ _ _ HT (level B t k)). by destruct (k_node _ _ _ _ H _ _ E) as (n' & Hn' & -> & _ & _); congruence.
  - destruct (T !! level B t k) as [ss|] eqn:E'; [|done].
    destruct (k_dom _ _ _ _ H (level B t k)) as [? C]; [by eexists|]. by rewrite E in C.
Qed.

Lemma next_child t k n : children n = kids L (level B t k) ->
  go_index (children n) (branch t (B + iBits * Z.of_nat k)) = Ret (num t (S k)).
Proof using. intros ->. rewrite kids_lookup by apply branch_range. by rewrite level_S. Qed.

Lemma shift_S k : B + iBits * Z.of_nat k + iBits = B + iBits * Z.of_nat (S k).
Proof using. unfold iBits. lia. Qed.

Lemma root_ok t : 0 <= t -> root x t = Ret (num t 0).
Proof using H.
  intros Ht. unfold root. rewrite (k_mask _ _ _ _ H). pose proof (k_bits _ _ _ _ H).
  assert (0 <= Z.land t (Z.ones B) < 2 ^ B) as Hs by (rewrite Z.land_ones by lia; apply Z.mod_pos_bound; lia).
  destruct (k_shards _ _ _ _ H _ Hs) as (r & Hr & HL). unfold level. cbn [seq fmap list_fmap]. rewrite HL. cbn.
  apply go_index_Z; [lia|done].
Qed.

Lemma get_loop_ok t k fuel : live_tag t ->
  get_loop fuel (pool x) (num t k) (B + iBits * Z.of_nat k) t =
  Ret ((fun r => val r.2) <$> seek B (fun s => tag s = t) T t k fuel).
Proof using H HT.
  intros Hl. revert k. induction fuel as [|fuel IH]; intros k; [done|]. cbn [get_loop seek].
  rewrite (null_child L x T F _ H). pose proof (level_node t k) as Hn. destruct (T !! level B t k) as [ss|].
  - destruct Hn as (i & n & Hi & Hn & <- & Hh & Hlen & Hc). rewrite Hi. cbn [default from_option id].
    rewrite bool_decide_eq_false_2 by done. rewrite Hn. cbn [obind]. rewrite filter_exact by done. unfold find_tag.
    destruct (list_find _ (slots n)) as [[j s]|]; [done|]. rewrite (next_child t k n Hc). cbn [obind].
    rewrite shift_S. apply IH.
  - rewrite Hn. by rewrite bool_decide_eq_true_2.
Qed.

Lemma live_loop_ok t off gen k fuel : live_tag t ->
  live_loop fuel (pool x) (num t k) (B + iBits * Z.of_nat k) t off gen =
  Ret (bool_decide (is_Some (seek B (fun s => tag s = t /\ refers (val s) off gen = true) T t k fuel))).
Proof using H HT.
  intros Hl. revert k. induction fuel as [|fuel IH]; intros k; [done|]. cbn [live_loop seek].
  rewrite (null_child L x T F _ H). pose proof (level_node t k) as Hn. destruct (T !! level B t k) as [ss|].
  - destruct Hn as (i & n & Hi & Hn & <- & Hh & Hlen & Hc). rewrite Hi. cbn [default from_option id].
    rewrite bool_decide_eq_false_2 by done. rewrite Hn. cbn [obind]. unfold find_ref.
    destruct (list_find _ (slots n)) as [[j s]|]; [by rewrite bool_decide_eq_true_2|]. rewrite (next_child t k n Hc). cbn [obind].
    rewrite shift_S. apply IH.
  - rewrite Hn. rewrite bool_decide_eq_true_2 by done. by rewrite bool_decide_eq_false_2 by (by intros [? ?]).
Qed.

(** The node numbers of the levels [k .. 0]. *)
Definition trail (t : Z) (path : list Z) : Prop :=
  forall j i, path !! j = Some i -> L !! level B t (length path - 1 - j) = Some i.

Lemma trail_cons t k i path : length path = k -> trail t path -> L !! level B t k = Some i -> trail t (i :: path).
Proof using.
  intros <- Hp Hi [|j] i' Hj; cbn in Hj |- *.
  - injection Hj as <-. by rewrite Nat.sub_0_r, Nat.sub_0_r.
  - pose proof (Hp j i' Hj) as E. replace (length path - 0 - S j)%nat with (length path - 1 - j)%nat by lia. done.
Qed.

Lemma tomb_loop_ok t off gen k fuel : live_tag t ->
  tomb_loop fuel (pool x) (num t k) (B + iBits * Z.of_nat k) t off gen =
  match seek B (fun s => tag s = t /\ refers (val s) off gen = true) T t k fuel with
  | None => Ret (pool x, false)
  | Some (k0, j, _) => n <-- node (pool x) (num t k0) ;; Ret (set_node (pool x) (num t k0) (tombstone n j), true)
  end.
Proof using H HT.
  intros Hl. revert k. induction fuel as [|fuel IH]; intros k; [done|]. cbn [tomb_loop seek].
  rewrite (null_child L x T F _ H). pose proof (level_node t k) as Hn. destruct (T !! level B t k) as [ss|].
  - destruct Hn as (i & n & Hi & Hn & <- & Hh & Hlen & Hc). rewrite Hi. cbn [default from_option id].
    rewrite bool_decide_eq_false_2 by done. rewrite Hn. cbn [obind]. unfold find_ref.
    destruct (list_find _ (slots n)) as [[j s]|]; [rewrite Hi; cbn [default from_option id]; by rewrite Hn|].
    rewrite (next_child t k n Hc). cbn [obind]. rewrite shift_S. apply IH.
  - rewrite Hn. by rewrite bool_decide_eq_true_2.
Qed.

Lemma findPath_ok t k fuel path : live_tag t -> length path = k -> trail t path ->
  match seek B (fun s => tag s = t) T t k fuel with
  | None => findPath fuel (pool x) (num t k) (B + iBits * Z.of_nat k) t path = Ret None
  | Some (k0, j, _) => exists path', length path' = S k0 /\ trail t path' /\
      findPath fuel (pool x) (num t k) (B + iBits * Z.of_nat k) t path =
      (n <-- node (pool x) (num t k0) ;; Ret (Some (set_node (pool x) (num t k0) (tombstone n j), path')))
  end.
Proof using H HT.
  intros Hl. revert k path. induction fuel as [|fuel IH]; intros k path Hlen Hp; [done|]. cbn [findPath seek].
  rewrite (null_child L x T F _ H). pose proof (level_node t k) as Hn. destruct (T !! level B t k) as [ss|].
  - destruct Hn as (i & n & Hi & Hn & <- & Hh & Hl4 & Hc). rewrite Hi. cbn [default from_option id].
    rewrite bool_decide_eq_false_2 by done. rewrite Hn. cbn [obind]. unfold find_tag.
    destruct (list_find _ (slots n)) as [[j s]|].
    + exists (i :: path). split; [cbn; by rewrite Hlen|]. split; [by apply (trail_cons t k)|].
      rewrite Hi. cbn [default from_option id]. by rewrite Hn.
    + rewrite (next_child t k n Hc). cbn [obind]. rewrite shift_S.
      apply (IH (S k) (i :: path)); [cbn; by rewrite Hlen|by apply (trail_cons t k)].
  - rewrite Hn. by rewrite bool_decide_eq_true_2.
Qed.
End walks.

(** *** Filter words *)

Lemma h2_write n j s1 : h2_ok n -> length (slots n) = 4%nat -> (j < 4)%nat ->
  forall h, 0 <= h < 2 ^ 16 -> h = (if is_free s1 then 0 else h2ForTag (tag s1)) ->
  h2_ok (mkINode (<[j:=s1]> (slots n)) (children n) (freedAt n) (h2Set (h2word n) (Z.of_nat j) h)).
Proof.
  intros [Hb Hg] Hlen Hj h Hh Eh. split; cbn [h2word slots]; [apply h2Set_bound; lia|].
  intros k s Hk. pose proof (lookup_lt_Some _ _ _ Hk) as Hlt. rewrite length_insert, Hlen in Hlt.
  rewrite grp_h2Set by lia. destruct (Z.eqb_spec (Z.of_nat j) (Z.of_nat k)) as [E|E].
  - apply Nat2Z.inj in E as <-. rewrite list_lookup_insert_eq in Hk by lia. by injection Hk as <-.
  - rewrite list_lookup_insert_ne in Hk by lia. by apply Hg.
Qed.

Lemma h2_insertAt n t v n' : length (slots n) = 4%nat -> h2_ok n -> live_tag t -> insertAt n t v = Some n' ->
  (forall j, insert_pos (slots n) 0 t None = Some (j, true) -> exists s, slots n !! j = Some s /\ tag s = t) ->
  (forall j same, insert_pos (slots n) 0 t None = Some (j, same) -> (j < 4)%nat) ->
  h2_ok n' /\ children n' = children n.
Proof.
  intros Hlen Hh Hl. unfold insertAt. destruct (insert_pos (slots n) 0 t None) as [[j [|]]|] eqn:E; intros [= <-] Hs Hj.
  - split; [|done]. destruct (Hs j eq_refl) as (s & Hjs & Ht). destruct Hh as [Hb Hg]. split; [done|].
    intros k s' Hk. cbn [h2word slots] in *. destruct (decide (k = j)) as [->|Hne].
    + rewrite list_lookup_insert_eq in Hk by (by eapply lookup_lt_Some). injection Hk as <-. rewrite (Hg j s Hjs).
      rewrite (proj2 (is_free_false s)), (proj2 (is_free_false (mkISlot t v))) by (rewrite ?Ht; done). by rewrite Ht.
    + rewrite list_lookup_insert_ne in Hk by done. by apply Hg.
  - split; [|done]. pose proof (h2ForTag_range t). apply h2_write; [done|done|by eapply Hj|lia|].
    by rewrite (proj2 (is_free_false (mkISlot t v))).
Qed.

Lemma h2_tombstone n j : length (slots n) = 4%nat -> h2_ok n -> (j < 4)%nat -> h2_ok (tombstone n j).
Proof. intros. apply h2_write; [done|done|done|lia|done]. Qed.

Lemma h2_fill ss i es w : 0 <= i -> i + Z.of_nat (length ss) <= 4 -> 0 <= w < 2 ^ 64 ->
  (forall e, e ∈ es -> live_tag (tag e)) ->
  (forall j s, ss !! j = Some s -> grp w (i + Z.of_nat j) = if is_free s then 0 else h2ForTag (tag s)) ->
  let r := fill ss i es w in
  0 <= r.2 < 2 ^ 64 /\ (forall g, 0 <= g < i -> grp r.2 g = grp w g) /\
  (forall j s, r.1 !! j = Some s -> grp r.2 (i + Z.of_nat j) = if is_free s then 0 else h2ForTag (tag s)).
Proof.
  revert i es w. induction ss as [|s ss IH]; intros i es w Hi Hlen Hw He Hg; cbn [fill]; [by destruct es|].
  destruct es as [|e es]; [done|]. cbn [length] in Hlen.
  assert (forall w', (forall g, i < g < 4 -> grp w' g = grp w g) ->
    forall j s, ss !! j = Some s -> grp w' (i + 1 + Z.of_nat j) = if is_free s then 0 else h2ForTag (tag s)) as Hg'.
  { intros w' Hw' j s0 Hj. pose proof (lookup_lt_Some _ _ _ Hj). rewrite Hw' by lia.
    rewrite <- (Hg (S j) s0 Hj). f_equal. lia. }
  destruct (is_free s) eqn:Hf.
  - pose proof (h2ForTag_range (tag e)).
    specialize (IH (i + 1) es (h2Set w i (h2ForTag (tag e))) ltac:(lia) ltac:(lia) (h2Set_bound _ _ _ Hw Hi)
      ltac:(intros; apply He; by right)). cbv zeta in IH.
    destruct IH as (IH1 & IH2 & IH3).
    { apply Hg'. intros g Hgr. rewrite grp_h2Set by lia. destruct (Z.eqb_spec i g); [lia|done]. }
    destruct (fill ss (i + 1) es _) as [ss' w']. cbn [fst snd] in *. split; [done|]. split.
    + intros g Hgr. rewrite IH2 by lia. rewrite grp_h2Set by lia. destruct (Z.eqb_spec i g); [lia|done].
    + intros [|j] s0 Hj; cbn in Hj.
      * injection Hj as <-. rewrite Z.add_0_r, IH2, grp_h2Set, Z.eqb_refl by lia.
        by rewrite (proj2 (is_free_false e)) by (apply He; by left).
      * rewrite <- (IH3 j s0 Hj). f_equal. lia.
  - specialize (IH (i + 1) (e :: es) w ltac:(lia) ltac:(lia) Hw He (Hg' w ltac:(done))). cbv zeta in IH.
    destruct IH as (IH1 & IH2 & IH3). destruct (fill ss (i + 1) (e :: es) w) as [ss' w']. cbn [fst snd] in *.
    split; [done|]. split; [intros g Hgr; apply IH2; lia|].
    intros [|j] s0 Hj; cbn in Hj.
    + injection Hj as <-. rewrite IH2 by lia. by apply (Hg 0%nat).
    + rewrite <- (IH3 j s0 Hj). f_equal. lia.
Qed.

(** *** Changing memory *)

(** The slots of a node change. *)
Lemma mem_slots x L T F p i n n' : mem_ok x L T F -> L !! p = Some i -> nodes (pool x) !! Z.to_nat i = Some n ->
  children n' = children n -> h2_ok n' ->
  mem_ok (set_pool x (set_node (pool x) i n')) L (<[p:=slots n']> T) F.
Proof.
  intros H Hp Hn Hc Hh. pose proof (k_range _ _ _ _ H _ _ Hp) as Hr.
  constructor; cbn [pool set_pool shards shardMask shardBits set_node set_nodes nodes next ready readyHd]; try apply H.
  - intros q i' Hq. destruct (decide (q = p)) as [->|Hne].
    + assert (i' = i) as -> by congruence. exists n'. rewrite list_lookup_insert_eq by (by eapply lookup_lt_Some).
      rewrite lookup_insert_eq. split; [done|]. split; [done|]. split; [done|]. rewrite Hc.
      by destruct (k_node _ _ _ _ H _ _ Hp) as (n0 & Hn0 & _ & _ & <-); congruence.
    + assert (i' <> i) as Hi by (intros ->; apply Hne; by eapply (k_inj _ _ _ _ H)).
      pose proof (k_range _ _ _ _ H _ _ Hq). rewrite list_lookup_insert_ne, lookup_insert_ne by (done || lia).
      by apply (k_node _ _ _ _ H).
  - intros q. destruct (decide (q = p)) as [->|]; [by rewrite Hp|]. rewrite lookup_insert_ne by done. apply (k_dom _ _ _ _ H).
  - rewrite length_insert. apply H.
  - intros j n0 Hj Hn0. rewrite list_lookup_insert_ne in Hn0 by lia. by apply (k_fresh _ _ _ _ H j).
Qed.

(** A node outside the trie changes. *)
Lemma mem_limbo x L T F i n' : mem_ok x L T F -> i ∈ F -> mem_ok (set_pool x (set_node (pool x) i n')) L T F.
Proof.
  intros H Hi. destruct (k_free _ _ _ _ H i ltac:(apply elem_of_app; by left)) as [Hr Hout].
  constructor; cbn [pool set_pool shards shardMask shardBits set_node set_nodes nodes next ready readyHd]; try apply H.
  - intros q i' Hq. assert (i' <> i) by (intros ->; by apply (Hout q)). pose proof (k_range _ _ _ _ H _ _ Hq).
    rewrite list_lookup_insert_ne by lia. by apply (k_node _ _ _ _ H).
  - rewrite length_insert. apply H.
  - intros j n0 Hj Hn0. rewrite list_lookup_insert_ne in Hn0 by lia. by apply (k_fresh _ _ _ _ H j).
Qed.

Lemma mem_perm x L T F F' : F ≡ₚ F' -> mem_ok x L T F -> mem_ok x L T F'.
Proof. intros HF H. constructor; try apply H; [rewrite <- HF; apply H|]. intros i. rewrite <- HF. apply H. Qed.

Lemma limbo_node x L T F i : mem_ok x L T F -> i ∈ F ++ waiting (pool x) -> exists n, nodes (pool x) !! Z.to_nat i = Some n.
Proof.
  intros H Hi. destruct (k_free _ _ _ _ H i Hi) as [Hr _]. pose proof (k_next _ _ _ _ H).
  apply lookup_lt_is_Some_2. lia.
Qed.

(** *** Claiming a node *)

Lemma ensure_spec p i : 0 <= i ->
  exists k, nodes (ensure p i) = nodes p ++ replicate k zero_node /\ i < Z.of_nat (length (nodes (ensure p i))) /\
    next (ensure p i) = next p /\ ready (ensure p i) = ready p /\ readyHd (ensure p i) = readyHd p.
Proof.
  intros Hi. unfold ensure, iChunkBits, iChunkSize. rewrite Z.shiftr_div_pow2 by lia. change (2 ^ 10) with 1024.
  destruct (Z.leb_spec ((i / 1024 + 1) * 1024) (Z.of_nat (length (nodes p)))) as [Hle|Hlt].
  - exists 0%nat. cbn [replicate]. rewrite app_nil_r. split; [done|]. split; [div_lia|done].
  - eexists. cbn [nodes set_nodes next ready readyHd]. split; [reflexivity|].
    rewrite length_app, length_replicate. split; [div_lia|done].
Qed.

Lemma mem_bump x L T F : mem_ok x L T F -> next (pool x) < 2 ^ 32 - 1 ->
  let '(p, c) := bump (pool x) in
  mem_ok (set_pool x p) L T (c :: F) /\ nodes p !! Z.to_nat c = Some zero_node /\ next p = next (pool x) + 1.
Proof.
  intros H Hn. pose proof (k_next _ _ _ _ H) as Hnx. unfold bump.
  rewrite (wrapu_small 32 (next (pool x) + 1)), Z.add_simpl_r, (wrapu_small 32 (next (pool x))) by lia.
  destruct (Z.eqb_spec (next (pool x)) iNullChild) as [E|_]; [unfold iNullChild in E; lia|].
  set (q := mkPool _ (next (pool x) + 1) _ _).
  destruct (ensure_spec q (next (pool x)) ltac:(lia)) as (k & En & Hlen & Enx & Er & Eh).
  assert (forall j n, nodes (ensure q (next (pool x))) !! j = Some n -> next (pool x) <= Z.of_nat j -> n = zero_node) as Hfresh.
  { intros j n Hj Hle. rewrite En in Hj. apply lookup_app_Some in Hj as [Hj|[_ Hj]].
    - by apply (k_fresh _ _ _ _ H j).
    - by apply lookup_replicate in Hj as [-> _]. }
  split; [|split; [|by rewrite Enx]].
  2:{ destruct (lookup_lt_is_Some_2 (nodes (ensure q (next (pool x)))) (Z.to_nat (next (pool x)))) as [n Hj]; [lia|].
      rewrite Hj. f_equal. apply (Hfresh (Z.to_nat (next (pool x)))); [done|lia]. }
  assert (waiting (ensure q (next (pool x))) = waiting (pool x)) as Ew by (unfold waiting; by rewrite Er, Eh).
  constructor; cbn [pool set_pool shards shardMask shardBits]; rewrite ?Enx, ?Er, ?Eh, ?Ew; cbn [next q ready readyHd]; try apply H.
  - intros p i Hp. destruct (k_node _ _ _ _ H _ _ Hp) as (n & Hnode & ?). exists n. split; [|done].
    rewrite En. by apply lookup_app_l_Some.
  - intros p i Hp. pose proof (k_range _ _ _ _ H _ _ Hp). lia.
  - lia.
  - intros j n Hj Hn'. apply (Hfresh j n Hn'). lia.
  - cbn. constructor; [|apply H]. intros C. pose proof (proj1 (k_free _ _ _ _ H _ C)). lia.
  - intros i. cbn. rewrite elem_of_cons. intros [->|Hi].
    + split; [lia|]. intros p Hp. pose proof (k_range _ _ _ _ H _ _ Hp). lia.
    + destruct (k_free _ _ _ _ H i Hi). split; [lia|done].
Qed.

Definition blank (n : iNode) : Prop :=
  slots n = replicate 4 (mkISlot 0 0) /\ children n = replicate 8 0 /\ h2word n = 0.

Lemma mem_alloc now x L T F : mem_ok x L T F -> next (pool x) < 2 ^ 32 - 1 ->
  exists p c n, alloc now (pool x) = Ret (p, c) /\ mem_ok (set_pool x p) L T (c :: F) /\
    nodes p !! Z.to_nat c = Some n /\ blank n /\ next p <= next (pool x) + 1.
Proof.
  intros H Hn. unfold alloc.
  assert (exists p c n, Ret (bump (pool x)) = Ret (p, c) /\ mem_ok (set_pool x p) L T (c :: F) /\
    nodes p !! Z.to_nat c = Some n /\ blank n /\ next p <= next (pool x) + 1) as Hbump.
  { pose proof (mem_bump x L T F H Hn) as Hb. destruct (bump (pool x)) as [p c]. destruct Hb as (Hm & Hz & Hx).
    exists p, c, zero_node. split; [done|]. split; [done|]. split; [done|]. split; [done|lia]. }
  destruct (Z.ltb_spec (readyHd (pool x)) (Z.of_nat (length (ready (pool x))))) as [Hlt|_]; [|exact Hbump].
  pose proof (k_hd _ _ _ _ H) as Hhd.
  destruct (lookup_lt_is_Some_2 (ready (pool x)) (Z.to_nat (readyHd (pool x)))) as [c Hc]; [lia|].
  rewrite (go_index_Z _ _ c) by (lia || done). cbn [obind].
  assert (waiting (pool x) = c :: drop (Z.to_nat (readyHd (pool x) + 1)) (ready (pool x))) as Ew.
  { unfold waiting. rewrite (drop_S _ c) by done. do 2 f_equal. lia. }
  destruct (limbo_node _ _ _ _ c H) as [n Hnode]; [rewrite Ew; apply elem_of_app; right; by left|].
  destruct (k_free _ _ _ _ H c ltac:(rewrite Ew; apply elem_of_app; right; by left)) as [Hr Hout].
  unfold node. rewrite (go_index_Z _ _ n) by (lia || done). cbn [obind].
  destruct (_ <=? _); [|exact Hbump].
  set (p := mkPool (nodes (pool x)) (next (pool x)) (ready (pool x)) (readyHd (pool x) + 1)).
  exists (set_node p c (resetNode n)), c, (resetNode n). split; [done|].
  assert (F ++ waiting (pool x) ≡ₚ (c :: F) ++ waiting p) as HP.
  { rewrite Ew. cbn. by rewrite Permutation_middle. }
  assert (mem_ok (set_pool x p) L T (c :: F)) as Hm.
  { constructor; cbn [pool set_pool shards shardMask shardBits p nodes next ready readyHd]; try apply H; [lia|..].
    - rewrite <- HP. apply H.
    - intros i Hi. apply (k_free _ _ _ _ H). by rewrite HP. }
  split; [apply (mem_limbo _ _ _ _ c (resetNode n) Hm); by left|].
  split; [cbn; apply list_lookup_insert_eq; by eapply lookup_lt_Some|]. split; [done|]. cbn. lia.
Qed.

(** *** Linking a child *)

Lemma kids_insert L p b c q : 0 <= b < 8 ->
  kids (<[p ++ [b]:=c]> L) q = if decide (q = p) then <[Z.to_nat b:=c]> (kids L p) else kids L q.
Proof.
  intros Hb. apply list_eq. intros j. destruct (decide (j < 8)%nat) as [Hj|Hj].
  2:{ rewrite !lookup_ge_None_2; [done|..]; [destruct (decide (q = p))|]; rewrite ?length_insert; unfold kids;
        rewrite ?length_fmap, ?length_seqZ; lia. }
  assert (forall M r, kids M r !! j = Some (default 0 (M !! (r ++ [Z.of_nat j])))) as Hk.
  { intros M r. unfold kids. rewrite list_lookup_fmap, lookup_seqZ_lt by lia. done. }
  rewrite Hk. destruct (decide (q = p)) as [->|Hne].
  - destruct (decide (Z.to_nat b = j)) as [<-|Hbj].
    + rewrite list_lookup_insert_eq by (unfold kids; rewrite length_fmap, length_seqZ; lia).
      rewrite Z2Nat.id by lia. by rewrite lookup_insert_eq.
    + rewrite list_lookup_insert_ne by done. rewrite Hk, lookup_insert_ne; [done|].
      intros E. apply app_inj_tail in E as [_ E]. lia.
  - rewrite Hk, lookup_insert_ne; [done|]. intros E. by apply app_inj_tail in E as [<- _].
Qed.

Lemma kids_none (L : gmap (list Z) Z) p : (forall b, L !! (p ++ [b]) = None) -> kids L p = replicate 8 0.
Proof.
  intros Hn. transitivity ((fun _ : Z => 0) <$> seqZ 0 8); [|reflexivity].
  apply list_fmap_ext. intros j b _. by rewrite Hn.
Qed.

Lemma mem_link x L T F p i b c ni nc : mem_ok x L T (c :: F) -> p <> [] -> L !! p = Some i ->
  nodes (pool x) !! Z.to_nat i = Some ni -> nodes (pool x) !! Z.to_nat c = Some nc ->
  h2_ok nc -> children nc = replicate 8 0 -> 0 <= b < 8 -> L !! (p ++ [b]) = None ->
  (forall b', L !! ((p ++ [b]) ++ [b']) = None) ->
  mem_ok (set_pool x (set_node (pool x) i (set_child ni b c))) (<[p ++ [b]:=c]> L) (<[p ++ [b]:=slots nc]> T) F.
Proof.
  intros H Hne Hp Hni Hnc Hh Hcc Hb Hnone Hleaf. pose proof (k_range _ _ _ _ H _ _ Hp) as Hr.
  destruct (k_free _ _ _ _ H c ltac:(by left)) as [Hrc Hout].
  assert (i <> c) as Hic by (intros ->; by apply (Hout p)).
  assert (forall s, [s] <> p ++ [b]) as Hroot by (intros s E; destruct p as [|? [|]]; done).
  constructor; cbn [pool set_pool shards shardMask shardBits set_node set_nodes nodes next ready readyHd]; try apply H.
  - intros s Hs. destruct (k_shards _ _ _ _ H s Hs) as (r & ? & ?). exists r. rewrite lookup_insert_ne by done. done.
  - intros r Hrin. destruct (k_roots _ _ _ _ H r Hrin) as [s ?]. exists s. by rewrite lookup_insert_ne by done.
  - intros q i' Hq. rewrite kids_insert by done. destruct (decide (q = p ++ [b])) as [->|Hqb].
    + rewrite lookup_insert_eq in Hq. injection Hq as <-. exists nc. rewrite lookup_insert_eq, list_lookup_insert_ne by lia.
      split; [done|]. split; [done|]. split; [done|].
      destruct (decide _) as [E|]; [apply (f_equal length) in E; rewrite length_app in E; cbn in E; lia|].
      by rewrite kids_none.
    + rewrite lookup_insert_ne in Hq by done. rewrite lookup_insert_ne by done. destruct (decide (q = p)) as [->|Hqp].
      * assert (i' = i) as -> by congruence. destruct (k_node _ _ _ _ H _ _ Hp) as (n & Hn & HT & Hhn & Hc).
        assert (n = ni) as -> by congruence. eexists. rewrite list_lookup_insert_eq by (by eapply lookup_lt_Some).
        split; [done|]. split; [done|]. split; [done|]. cbn [set_child children]. by rewrite Hc.
      * assert (i' <> i) by (intros ->; apply Hqp; by eapply (k_inj _ _ _ _ H)). pose proof (k_range _ _ _ _ H _ _ Hq).
        rewrite list_lookup_insert_ne by lia. by apply (k_node _ _ _ _ H).
  - intros q. destruct (decide (q = p ++ [b])) as [->|]; [rewrite !lookup_insert_eq; by eexists|].
    rewrite !lookup_insert_ne by done. apply (k_dom _ _ _ _ H).
  - intros q i' Hq. destruct (decide (q = p ++ [b])) as [->|]; [rewrite lookup_insert_eq in Hq; by injection Hq as <-|].
    rewrite lookup_insert_ne in Hq by done. by apply (k_range _ _ _ _ H q).
  - intros q q' j Hq Hq'. destruct (decide (q = p ++ [b])) as [->|], (decide (q' = p ++ [b])) as [->|]; [done|..].
    + rewrite lookup_insert_eq in Hq. rewrite lookup_insert_ne in Hq' by done. injection Hq as <-. by destruct (Hout q').
    + rewrite lookup_insert_eq in Hq'. rewrite lookup_insert_ne in Hq by done. injection Hq' as <-. by destruct (Hout q).
    + rewrite lookup_insert_ne in Hq, Hq' by done. by eapply (k_inj _ _ _ _ H).
  - rewrite length_insert. apply H.
  - intros j n0 Hj Hn0. rewrite list_lookup_insert_ne in Hn0 by lia. by apply (k_fresh _ _ _ _ H j).
  - pose proof (k_nodup _ _ _ _ H) as Hnd. cbn in Hnd. by apply NoDup_cons in Hnd as [_ ?].
  - intros j Hj. destruct (k_free _ _ _ _ H j ltac:(cbn; by right)) as [Hrj Hj']. split; [done|]. intros q Hq.
    destruct (decide (q = p ++ [b])) as [->|]; [|rewrite lookup_insert_ne in Hq by done; by apply (Hj' q)].
    rewrite lookup_insert_eq in Hq. injection Hq as <-.
    pose proof (k_nodup _ _ _ _ H) as Hnd. cbn in Hnd. by apply NoDup_cons in Hnd as [? _].
Qed.

(** *** Detaching the children of a node *)

Abbreviation nonzero := (base.filter (fun c => c <> iNullChild)).

Lemma detached_elem x L T F p i : mem_ok x L T F -> i ∈ nonzero (kids L p) -> exists b, L !! (p ++ [b]) = Some i.
Proof.
  intros H Hi. apply list_elem_of_filter in Hi as [Hne Hi]. unfold kids in Hi.
  apply list_elem_of_fmap in Hi as (b & -> & _). exists b. destruct (L !! (p ++ [b])); [done|by destruct Hne].
Qed.

Lemma detached_nodup x L T F p : mem_ok x L T F -> NoDup (nonzero (kids L p)).
Proof.
  intros H. unfold kids. generalize (NoDup_seqZ 0 8). generalize (seqZ 0 8). induction 1 as [|b bs Hb Hnd IH]; [constructor|].
  cbn [fmap list_fmap]. rewrite filter_cons. destruct (decide _) as [Hne|]; [|done]. constructor; [|done].
  intros C. apply list_elem_of_filter in C as [_ C]. apply list_elem_of_fmap in C as (b' & E & Hb').
  destruct (L !! (p ++ [b])) as [i|] eqn:E1; [|by destruct Hne]. destruct (L !! (p ++ [b'])) as [i'|] eqn:E2; cbn in E, Hne; [|done].
  subst i'. pose proof (k_inj _ _ _ _ H _ _ _ E1 E2) as Ep. apply app_inj_tail in Ep as [_ ->]. done.
Qed.

Lemma kids_prune L p q : (forall b b', L !! ((p ++ [b]) ++ [b']) = None) ->
  kids (prune p L) q = if decide (q = p) then replicate 8 0 else kids L q.
Proof.
  intros Hleaf. destruct (decide (q = p)) as [->|Hne].
  - apply kids_none. intros b. rewrite prune_lookup. by rewrite decide_True by apply child_of_app.
  - unfold kids. apply list_fmap_ext. intros j b _. rewrite prune_lookup. rewrite decide_False; [done|].
    intros C. apply child_of_inv in C as [b' E]. by apply app_inj_tail in E as [<- _].
Qed.

Lemma mem_detach x L T F p i n n' : mem_ok x L T F -> p <> [] -> L !! p = Some i ->
  nodes (pool x) !! Z.to_nat i = Some n -> (forall b b', L !! ((p ++ [b]) ++ [b']) = None) ->
  h2_ok n' -> children n' = replicate 8 0 ->
  mem_ok (set_pool x (set_node (pool x) i n')) (prune p L) (<[p:=slots n']> (prune p T)) (F ++ nonzero (children n)).
Proof.
  intros H Hne Hp Hn Hleaf Hh Hc. pose proof (k_range _ _ _ _ H _ _ Hp) as Hr.
  assert (children n = kids L p) as Ek by (destruct (k_node _ _ _ _ H _ _ Hp) as (n0 & ? & _ & _ & <-); congruence).
  rewrite Ek. assert (forall q j, prune p L !! q = Some j -> L !! q = Some j /\ ~ child_of p q) as Hpr.
  { intros q j Hq. rewrite prune_lookup in Hq. by destruct (decide (child_of p q)). }
  assert (forall s, ~ child_of p [s]) as Hroot by (intros s [E _]; destruct p; cbn in E; [done|lia]).
  constructor; cbn [pool set_pool shards shardMask shardBits set_node set_nodes nodes next ready readyHd]; try apply H.
  - intros s Hs. destruct (k_shards _ _ _ _ H s Hs) as (r & ? & ?). exists r. rewrite prune_lookup. by rewrite decide_False by done.
  - intros r Hrin. destruct (k_roots _ _ _ _ H r Hrin) as [s ?]. exists s. rewrite prune_lookup. by rewrite decide_False by done.
  - intros q i' Hq. rewrite kids_prune by done. apply Hpr in Hq as [Hq Hnc]. destruct (decide (q = p)) as [->|Hqp].
    + assert (i' = i) as -> by congruence. exists n'. rewrite lookup_insert_eq, list_lookup_insert_eq by (by eapply lookup_lt_Some).
      done.
    + assert (i' <> i) by (intros ->; apply Hqp; by eapply (k_inj _ _ _ _ H)). pose proof (k_range _ _ _ _ H _ _ Hq).
      rewrite list_lookup_insert_ne, lookup_insert_ne, prune_lookup by (done || lia). rewrite decide_False by done.
      by apply (k_node _ _ _ _ H).
  - intros q Hq. rewrite prune_lookup. destruct (decide (q = p)) as [->|Hqp].
    + rewrite decide_False by apply not_child_self. by rewrite Hp.
    + rewrite lookup_insert_ne, prune_lookup in Hq by done. destruct (decide (child_of p q)); [by destruct Hq|].
      by apply (k_dom _ _ _ _ H).
  - intros q j Hq. apply Hpr in Hq as [Hq _]. by apply (k_range _ _ _ _ H q).
  - intros q q' j Hq Hq'. apply Hpr in Hq as [Hq _], Hq' as [Hq' _]. by eapply (k_inj _ _ _ _ H).
  - rewrite length_insert. apply H.
  - intros j n0 Hj Hn0. rewrite list_lookup_insert_ne in Hn0 by lia. by apply (k_fresh _ _ _ _ H j).
  - rewrite (Permutation_app_comm F), <- app_assoc. apply NoDup_app. split; [by eapply detached_nodup|]. split; [|apply H].
    intros j Hj C. destruct (detached_elem _ _ _ _ _ _ H Hj) as [b Hb]. by apply (proj2 (k_free _ _ _ _ H j C) (p ++ [b])).
  - intros j Hj. rewrite (Permutation_app_comm F), <- app_assoc in Hj. apply elem_of_app in Hj as [Hj|Hj].
    + destruct (detached_elem _ _ _ _ _ _ H Hj) as [b Hb]. split; [by apply (k_range _ _ _ _ H _ _ Hb)|].
      intros q Hq. apply Hpr in Hq as [Hq Hnc]. apply Hnc. rewrite (k_inj _ _ _ _ H _ _ _ Hq Hb). apply child_of_app.
    + destruct (k_free _ _ _ _ H j Hj) as [? Hout]. split; [done|]. intros q Hq. apply Hpr in Hq as [Hq _]. by apply (Hout q).
Qed.

(** *** Queueing detached nodes *)

Lemma stamp_ok now x L T F l : (forall i, i ∈ l -> i ∈ F) -> mem_ok x L T F ->
  exists p, stamp now (pool x) l = Ret p /\ mem_ok (set_pool x p) L T F /\
    next p = next (pool x) /\ ready p = ready (pool x) /\ readyHd p = readyHd (pool x).
Proof.
  revert x. induction l as [|i l IH]; intros x Hl H; cbn [stamp].
  { exists (pool x). split; [done|]. split; [by destruct x|done]. }
  assert (i ∈ F) as Hi by (apply Hl; by left).
  destruct (limbo_node _ _ _ _ i H ltac:(apply elem_of_app; by left)) as [n Hn].
  pose proof (proj1 (k_free _ _ _ _ H i ltac:(apply elem_of_app; by left))). unfold node.
  rewrite (go_index_Z _ _ n) by (lia || done). cbn [obind].
  destruct (IH _ ltac:(intros; apply Hl; by right) (mem_limbo _ _ _ _ i (mkINode (slots n) (children n) now (h2word n)) H Hi)) as (p & E & Hm & En & Er & Eh).
  exists p. split; [exact E|]. done.
Qed.

Lemma freeLater_ok now x L T F : mem_ok x L T F ->
  exists p, freeLater now (pool x) F = Ret p /\ mem_ok (set_pool x p) L T [] /\ next p = next (pool x).
Proof.
  intros H. unfold freeLater. destruct (stamp_ok now x L T F F ltac:(done) H) as (p & -> & Hm & En & Er & Eh). cbn [obind].
  rewrite Er, Eh. pose proof (k_hd _ _ _ _ H) as Hhd.
  assert (forall q, nodes q = nodes p -> next q = next p -> 0 <= readyHd q <= Z.of_nat (length (ready q)) ->
    waiting q ≡ₚ F ++ waiting (pool x) -> mem_ok (set_pool x q) L T []) as Hq.
  { intros q E1 E2 E3 HP. pose proof Hm as Hm0. constructor; cbn [pool set_pool shards shardMask shardBits app] in *;
      rewrite ?E1, ?E2; try apply Hm; [done|..].
    - rewrite HP. replace (waiting (pool x)) with (waiting p) by (unfold waiting; by rewrite Er, Eh). apply Hm.
    - intros i. rewrite HP. replace (waiting (pool x)) with (waiting p) by (unfold waiting; by rewrite Er, Eh).
      apply (k_free _ _ _ _ Hm). }
  assert (drop (Z.to_nat (readyHd (pool x))) (ready (pool x) ++ F) ≡ₚ F ++ waiting (pool x)) as HP.
  { rewrite drop_app_le by lia. apply Permutation_app_comm. }
  destruct (_ <? _); eexists; (split; [reflexivity|]); (split; [|exact En]); apply Hq; try done; cbn [readyHd ready].
  - rewrite length_drop, length_app. lia.
  - rewrite length_app. lia.
Qed.

(** *** Collapsing *)

Lemma collect_slots_ok ss acc : collect_slots ss acc = None \/ collect_slots ss acc = Some (acc ++ live_slots ss).
Proof.
  revert acc. induction ss as [|s ss IH]; intros acc; cbn [collect_slots]; [right; cbn; by rewrite app_nil_r|].
  rewrite filter_cons. destruct (is_free s) eqn:Ef.
  - destruct (decide (true = false)) as [|_]; [done|]. apply IH.
  - destruct (decide (false = false)) as [_|]; [|done]. destruct (_ <=? _)%nat; [by left|].
    destruct (IH (acc ++ [s])) as [->| ->]; [by left|right]. by rewrite <- app_assoc.
Qed.

Lemma path_stored x L T F m q : mem_ok x L T F -> trie_ok (shardBits x) T m -> is_Some (L !! q) -> is_Some (T !! q).
Proof. intros H HT [i Hi]. destruct (k_node _ _ _ _ H _ _ Hi) as (n & _ & -> & _). by eexists. Qed.

Lemma leaf_child x L T F m q : mem_ok x L T F -> trie_ok (shardBits x) T m -> q <> [] ->
  existsb (fun g => negb (g =? iNullChild)) (kids L q) = false -> forall b, L !! (q ++ [b]) = None.
Proof.
  intros H HT Hq He b. destruct (L !! (q ++ [b])) as [i|] eqn:E; [|done]. exfalso.
  destruct (t_closed _ _ _ HT q b Hq) as [_ Hb]; [eapply path_stored; [done|done|by eexists]|].
  apply not_true_iff_false in He. apply He. apply existsb_exists. exists i. split.
  - apply list_elem_of_In. unfold kids. apply list_elem_of_fmap. exists b. rewrite E. split; [done|]. apply elem_of_seqZ. lia.
  - pose proof (k_range _ _ _ _ H _ _ E). apply negb_true_iff, Z.eqb_neq. unfold iNullChild. lia.
Qed.

Lemma no_grandchild x L T F m q b : mem_ok x L T F -> trie_ok (shardBits x) T m -> q <> [] -> L !! q = None -> L !! (q ++ [b]) = None.
Proof.
  intros H HT Hq Hn. destruct (L !! (q ++ [b])) eqn:E; [|done]. exfalso.
  destruct (t_closed _ _ _ HT q b Hq) as [C _]; [eapply path_stored; [done|done|by eexists]|].
  destruct (k_dom _ _ _ _ H _ C) as [? C']. by rewrite Hn in C'.
Qed.

Lemma collect_ok x L T F m p bs acc : mem_ok x L T F -> trie_ok (shardBits x) T m ->
  collect (pool x) ((fun b => default 0 (L !! (p ++ [b]))) <$> bs) acc = Ret None \/
  (collect (pool x) ((fun b => default 0 (L !! (p ++ [b]))) <$> bs) acc = Ret (Some (acc ++ lives T p bs)) /\
   forall b b', b ∈ bs -> L !! ((p ++ [b]) ++ [b']) = None).
Proof.
  intros H HT. revert acc. induction bs as [|b bs IH]; intros acc; cbn [fmap list_fmap collect].
  { right. cbn. rewrite app_nil_r. split; [done|]. intros b b' C. by apply elem_of_nil in C. }
  change (lives T p (b :: bs)) with ((match T !! (p ++ [b]) with Some ss => live_slots ss | None => [] end) ++ lives T p bs).
  rewrite (null_child L x T F _ H). destruct (L !! (p ++ [b])) as [i|] eqn:E.
  - rewrite bool_decide_eq_false_2 by done. cbn [default from_option id].
    destruct (k_node _ _ _ _ H _ _ E) as (n & Hn & Hss & _ & Hc). pose proof (k_range _ _ _ _ H _ _ E).
    unfold node. rewrite (go_index_Z _ _ n) by (lia || done). cbn [obind].
    destruct (existsb _ (children n)) eqn:Ex; [by left|]. rewrite Hc in Ex.
    pose proof (leaf_child x L T F m (p ++ [b]) H HT ltac:(by destruct p) Ex) as Hleaf.
    destruct (collect_slots_ok (slots n) acc) as [->| ->]; [by left|]. rewrite Hss.
    destruct (IH (acc ++ live_slots (slots n))) as [->|[-> Hbs]]; [by left|right].
    split; [by rewrite <- app_assoc|]. intros b0 b' [->|Hb]%elem_of_cons; [apply Hleaf|by apply Hbs].
  - rewrite bool_decide_eq_true_2 by done.
    assert (T !! (p ++ [b]) = None) as ->.
    { destruct (T !! (p ++ [b])) eqn:E'; [|done]. destruct (k_dom _ _ _ _ H (p ++ [b])) as [? C]; [by eexists|]. by rewrite E in C. }
    destruct (IH acc) as [->|[-> Hbs]]; [by left|right]. split; [done|].
    intros b0 b' [->|Hb]%elem_of_cons; [|by apply Hbs].
    eapply no_grandchild; [done|done|by destruct p|done].
Qed.

Lemma tryCollapse_ok x L T F m p i : mem_ok x L T F -> trie_ok (shardBits x) T m -> p <> [] -> L !! p = Some i ->
  tryCollapse (pool x) i = Ret None \/
  exists q d T', tryCollapse (pool x) i = Ret (Some (q, d)) /\ mem_ok (set_pool x q) (prune p L) T' (F ++ d) /\
    trie_ok (shardBits x) T' m /\ (full_parents T -> full_parents T') /\ next q = next (pool x).
Proof.
  intros H HT Hne Hp. destruct (k_node _ _ _ _ H _ _ Hp) as (n & Hn & Hss & Hh & Hc).
  pose proof (k_range _ _ _ _ H _ _ Hp). unfold tryCollapse, node. rewrite (go_index_Z _ _ n) by (lia || done). cbn [obind].
  rewrite Hc. destruct (collect_ok x L T F m p (seqZ 0 8) [] H HT) as [E|[E Hleaf]];
    unfold kids; rewrite E; cbn [obind]; [by left|]. cbn [app]. fold (kids L p).
  destruct (Nat.ltb_spec (length (free_slots (slots n))) (length (lives T p (seqZ 0 8)))) as [|Hroom]; [by left|]. right.
  assert (forall b b', L !! ((p ++ [b]) ++ [b']) = None) as HleafL.
  { intros b b'. destruct (L !! ((p ++ [b]) ++ [b'])) eqn:E'; [|done]. exfalso.
    destruct (t_closed _ _ _ HT (p ++ [b]) b') as [C _]; [by destruct p|eapply path_stored; [done|done|by eexists]|].
    destruct (t_closed _ _ _ HT p b Hne C) as [_ Hb].
    by rewrite (Hleaf b b') in E' by (apply elem_of_seqZ; lia). }
  assert (forall b b', T !! ((p ++ [b]) ++ [b']) = None) as HleafT.
  { intros b b'. destruct (T !! ((p ++ [b]) ++ [b'])) eqn:E'; [|done]. exfalso.
    destruct (k_dom _ _ _ _ H ((p ++ [b]) ++ [b'])) as [? C]; [by eexists|]. by rewrite HleafL in C. }
  pose proof (t_len _ _ _ HT _ _ Hss) as Hlen.
  destruct Hh as [Hw Hg].
  pose proof (h2_fill (slots n) 0 (lives T p (seqZ 0 8)) (h2word n) ltac:(lia) ltac:(lia) Hw
    ltac:(intros e He; apply elem_lives in He; apply He) Hg) as (Hw' & _ & Hg').
  destruct (fill (slots n) 0 (lives T p (seqZ 0 8)) (h2word n)) as [ss' w'] eqn:Ef. cbn [fst snd] in *.
  eexists _, _, (collapsed T p (slots n) (h2word n)). split; [reflexivity|].
  assert (ss' = (fill (slots n) 0 (lives T p (seqZ 0 8)) (h2word n)).1) as Ess by (by rewrite Ef).
  split; [|split; [by apply trie_collapse|split; [by intros Hf; apply full_collapse|done]]].
  pose proof (mem_detach x L T F p i n (mkINode ss' (replicate 8 0) (freedAt n) w') H Hne Hp Hn HleafL ltac:(by split) eq_refl) as Hm.
  rewrite Hc in Hm. cbn [slots] in Hm. rewrite Ess in Hm at 2. exact Hm.
Qed.
