(* ===== verification/CacheIndexSpec.v ===== *)
(** * The cache index refines a map

    Every operation of the index against the map of tags to values it stores
    ([holds_map]), the refinement of whole sequences of operations, and the
    inputs on which the index is not a map. *)

From S2P Require Import Prelude CacheIndex CacheBits CacheTrie CacheMem.

Local Open Scope Z_scope.
Local Open Scope rah_scope.

(** ** The operations *)

(** The index stores [m]; [clean]: nothing has been deleted. *)
Definition holds_map (x : InlineIndex) (m : gmap Z Z) (clean : bool) : Prop :=
  exists L T, mem_ok x L T [] /\ trie_ok (shardBits x) T m /\ (clean = true -> full_parents T).

Definition tag_ok (t : Z) : Prop := 0 < t < 2 ^ 64 - 1.

Lemma tag_ok_live t : tag_ok t -> live_tag t /\ 0 <= t.
Proof. unfold tag_ok, live_tag, iEmpty, iTombstone. lia. Qed.

Lemma shift_0 x : shardBits x = shardBits x + iBits * Z.of_nat 0.
Proof. unfold iBits. lia. Qed.

Lemma IndexGet_ok x m c t : holds_map x m c -> tag_ok t -> IndexGet x t = Ret (m !! t).
Proof.
  intros (L & T & H & HT & _) Ht. apply tag_ok_live in Ht as [Hl Ht]. unfold IndexGet.
  rewrite (root_ok x L T [] H t Ht). cbn [obind]. rewrite (shift_0 x) at 2. rewrite (get_loop_ok x L T [] m H HT) by done.
  pose proof (seek_spec (shardBits x) (fun s => tag s = t) T m t HT Hl ltac:(done)) as Hs. unfold levels, iMaxDepth.
  destruct (seek _ _ T t 0 11) as [[[k j] s]|].
  - destruct Hs as (_ & _ & -> & _). done.
  - destruct (m !! t) as [v|] eqn:E; [|done]. by destruct (Hs v eq_refl).
Qed.

Lemma IsLive_ok x m c t off gen : holds_map x m c -> tag_ok t ->
  IsLive x t off gen = Ret (match m !! t with Some v => refers v off gen | None => false end).
Proof.
  intros (L & T & H & HT & _) Ht. apply tag_ok_live in Ht as [Hl Ht]. unfold IsLive.
  rewrite (root_ok x L T [] H t Ht). cbn [obind]. rewrite (shift_0 x) at 2. rewrite (live_loop_ok x L T [] m H HT) by done.
  pose proof (seek_spec (shardBits x) (fun s => tag s = t /\ refers (val s) off gen = true) T m t HT Hl ltac:(by intros ? [? _])) as Hs.
  unfold levels, iMaxDepth. destruct (seek _ _ T t 0 11) as [[[k j] s]|].
  - destruct Hs as (_ & [_ Hr] & -> & _). by rewrite Hr.
  - rewrite bool_decide_eq_false_2 by (by intros [? ?]). destruct (m !! t) as [v|] eqn:E; [|done].
    destruct (refers v off gen) eqn:Er; [|done]. by destruct (Hs v eq_refl).
Qed.

(** *** Set *)

Lemma h2_zero cs fa : h2_ok (mkINode (replicate 4 (mkISlot 0 0)) cs fa 0).
Proof.
  split; [cbn; lia|]. cbn [slots h2word]. intros j s Hj. apply lookup_replicate in Hj as [-> Hj].
  rewrite grp_div by lia. by rewrite Z.div_0_l, Z.mod_0_l by (try apply Z.pow_nonzero; lia).
Qed.

Lemma insertAt_blank n t v : blank n -> live_tag t ->
  exists n', insertAt n t v = Some n' /\ slots n' = single t v /\ children n' = replicate 8 0 /\ h2_ok n'.
Proof.
  destruct n as [ss cs fa w]. intros (Es & Ec & Eh) Hlive. cbn in Es, Ec, Eh. subst ss cs w. pose proof Hlive as [Hl _].
  unfold insertAt. cbn [slots insert_pos replicate tag].
  destruct (Z.eqb_spec 0 t) as [E|_]; [by subst t|]. eexists. split; [reflexivity|]. split; [done|]. split; [done|].
  apply (h2_write (mkINode (replicate 4 (mkISlot 0 0)) (replicate 8 0) fa 0) 0 (mkISlot t v)); [|done|lia| |].
  - apply h2_zero.
  - pose proof (h2ForTag_range t). lia.
  - by rewrite (proj2 (is_free_false (mkISlot t v))).
Qed.

(** What an insertion does to the whole index. *)
Definition stored (x : InlineIndex) (T : trie) (m : gmap Z Z) (t v : Z) (r : outcome iNodePool) : Prop :=
  exists q L' T', r = Ret q /\ next q <= next (pool x) + 1 /\ mem_ok (set_pool x q) L' T' [] /\
    trie_ok (shardBits x) T' (<[t:=v]> m) /\ (full_parents T -> full_parents T').

Lemma store_in_node x L T m t v k i n n' : mem_ok x L T [] -> trie_ok (shardBits x) T m -> live_tag t ->
  m !! t = None \/ full_parents T -> passed (shardBits x) T t k -> L !! level (shardBits x) t k = Some i ->
  T !! level (shardBits x) t k = Some (slots n) -> nodes (pool x) !! Z.to_nat i = Some n -> h2_ok n ->
  insertAt n t v = Some n' -> stored x T m t v (Ret (set_node (pool x) i n')).
Proof.
  intros H HT Hl Hcond Hpass Hi Hss Hn0 Hh Eins. pose proof (t_len _ _ _ HT _ _ Hss) as Hlen.
  pose proof Eins as Eins'. unfold insertAt in Eins'.
  destruct (insert_pos (slots n) 0 t None) as [[j same]|] eqn:Epos; [|done].
  destruct (insert_pos_Some _ T m _ _ t j same HT Hss Hl Epos) as (s0 & Hj & _ & Hsame).
  assert (h2_ok n' /\ children n' = children n) as [Hh' Hc'].
  { eapply (h2_insertAt n t v n'); [done|done|done|done|..]; rewrite Epos.
    - intros j0 [= <- ->]. by exists s0.
    - intros j0 same0 [= <- <-]. apply lookup_lt_Some in Hj. lia. }
  injection Eins' as En'. assert (slots n' = <[j:=mkISlot t v]> (slots n)) as Es' by (by rewrite <- En').
  eexists _, L, _. split; [reflexivity|]. split; [cbn; lia|]. split; [by eapply mem_slots|]. rewrite Es'. split.
  - by eapply trie_insert.
  - intros Hfull. eapply full_write; [done|done|by eapply lookup_lt_Some|done].
Qed.

Lemma store_in_child now x L T m t v k i : mem_ok x L T [] -> trie_ok (shardBits x) T m -> live_tag t ->
  next (pool x) < 2 ^ 32 - 1 -> (k < 10)%nat -> passed (shardBits x) T t (S k) ->
  L !! level (shardBits x) t k = Some i -> L !! level (shardBits x) t (S k) = None ->
  stored x T m t v
    (r <-- alloc now (pool x) ;;
     let '(p, c) := r in
     child <-- node p c ;;
     let p := set_node p c (default child (insertAt child t v)) in
     n <-- node p i ;;
     Ret (set_node p i (set_child n (branch t (shardBits x + iBits * Z.of_nat k)) c))).
Proof.
  intros H HT Hl Hnx Hk Hpass Hi Hchild. pose proof (k_range _ _ _ _ H _ _ Hi) as Hr.
  destruct (mem_alloc now x L T [] H Hnx) as (q & c & nc & Ealloc & Hm1 & Hnc & Hblank & Hq). rewrite Ealloc. cbn [obind].
  unfold node at 1. destruct (k_free _ _ _ _ Hm1 c ltac:(by left)) as [Hrc Hout]. cbn [pool set_pool] in Hrc.
  rewrite (go_index_Z _ _ nc) by (lia || done). cbn [obind].
  destruct (insertAt_blank nc t v Hblank Hl) as (nc' & -> & Esl & Ech & Hh'). cbn [default from_option id].
  set (x1 := set_pool x (set_node q c nc')).
  assert (mem_ok x1 L T [c]) as Hm2 by (apply (mem_limbo _ _ _ _ c nc' Hm1); by left).
  destruct (k_node _ _ _ _ Hm2 _ _ Hi) as (n1 & Hn1 & Hss1 & _ & _).
  change (set_node q c nc') with (pool x1). unfold node. rewrite (go_index_Z _ _ n1) by (lia || done). cbn [obind].
  assert (nodes (pool x1) !! Z.to_nat c = Some nc') as Hnc' by (cbn; apply list_lookup_insert_eq; by eapply lookup_lt_Some).
  assert (T !! level (shardBits x) t (S k) = None) as HTn.
  { destruct (T !! level (shardBits x) t (S k)) eqn:E; [|done].
    destruct (k_dom _ _ _ _ H (level (shardBits x) t (S k))) as [? C]; [by eexists|]. by rewrite Hchild in C. }
  assert (m !! t = None) as Hmt.
  { destruct (m !! t) as [v0|] eqn:E; [|done]. exfalso. apply (t_map _ _ _ HT) in E as (_ & p & j & Ha).
    destruct (passed_at _ T m t (S k) p j _ HT Hpass Hl Ha eq_refl) as (k0 & Hk0 & _ & Hpre).
    destruct (Hpre (S k) ltac:(lia)) as [? C]. by rewrite HTn in C. }
  eexists _, (<[level (shardBits x) t (S k):=c]> L), (<[level (shardBits x) t (S k):=single t v]> T).
  split; [reflexivity|]. split; [cbn; lia|]. rewrite <- Esl. split; [|split].
  - rewrite level_S. change (set_pool x (set_node (pool x1) i ?y)) with (set_pool x1 (set_node (pool x1) i y)).
    eapply (mem_link x1); try done; [apply branch_range|by rewrite <- level_S|].
    intros b'. rewrite <- level_S. by eapply no_grandchild.
  - rewrite Esl. eapply trie_child; try done; apply branch_range.
  - intros Hfull. rewrite Esl. by eapply full_child.
Qed.

Lemma upsert_loop_ok now x L T m t v fuel k : mem_ok x L T [] -> trie_ok (shardBits x) T m -> live_tag t ->
  next (pool x) < 2 ^ 32 - 1 -> m !! t = None \/ full_parents T ->
  (m !! t = None -> (crowd (shardBits x) m t < 4)%nat) ->
  (fuel + k = 11)%nat -> (1 <= fuel)%nat -> passed (shardBits x) T t k -> is_Some (L !! level (shardBits x) t k) ->
  stored x T m t v
    (upsert_loop fuel now (pool x) (default 0 (L !! level (shardBits x) t k)) (shardBits x + iBits * Z.of_nat k) t v).
Proof.
  intros H HT Hl Hnx Hcond Hcrowd. revert k. induction fuel as [|fuel IH]; intros k Hk Hf Hpass [i Hi]; [lia|].
  cbn [upsert_loop]. rewrite Hi. cbn [default from_option id].
  pose proof (level_node x L T [] m H HT t k) as Hn. destruct (T !! level (shardBits x) t k) as [ss|] eqn:Hss.
  2:{ by rewrite Hi in Hn. }
  destruct Hn as (i' & n & Hi' & Hn & <- & Hh & Hlen & Hc). assert (i' = i) as -> by congruence. rewrite Hn. cbn [obind].
  pose proof Hn as Hn0. unfold node in Hn0. apply go_index_Ret in Hn0 as [_ Hn0].
  destruct (insertAt n t v) as [n'|] eqn:Eins; [by eapply store_in_node|].
  unfold insertAt in Eins. destruct (insert_pos (slots n) 0 t None) as [[j same]|] eqn:Epos; [done|].
  assert (passed (shardBits x) T t (S k)) as Hpass'.
  { eapply passed_S; [done|done|]. intros j s Hj. by eapply insert_pos_None. }
  rewrite (next_child x L t k n Hc). cbn [obind]. rewrite (null_child L x T [] _ H).
  destruct (L !! level (shardBits x) t (S k)) as [c|] eqn:Hchild.
  - rewrite bool_decide_eq_false_2 by done. rewrite shift_S. rewrite <- Hchild.
    destruct fuel as [|fuel]; [|apply (IH (S k)); [lia|lia|done|by rewrite Hchild]].
    exfalso. destruct (path_stored _ _ _ _ _ _ H HT ltac:(by eexists)) as [ss' Hss'].
    pose proof (t_depth _ _ _ HT _ _ Hss') as Hd. rewrite level_length in Hd. lia.
  - rewrite bool_decide_eq_true_2 by done. destruct fuel as [|fuel]; [|eapply store_in_child; try done; lia].
    exfalso. assert (k = 10%nat) as -> by lia. pose proof (trie_absent _ _ _ _ HT Hl Hpass') as Hm.
    pose proof (trie_crowd _ _ _ _ HT Hl Hpass'). specialize (Hcrowd Hm). lia.
Qed.

Lemma IndexSet_ok now x m c t v : holds_map x m c -> tag_ok t -> next (pool x) < 2 ^ 32 - 1 ->
  m !! t = None \/ c = true -> (m !! t = None -> (crowd (shardBits x) m t < 4)%nat) ->
  exists y, IndexSet now x t v = Ret y /\ holds_map y (<[t:=v]> m) c /\ next (pool y) <= next (pool x) + 1 /\
    shardBits y = shardBits x.
Proof.
  intros (L & T & H & HT & Hc) Ht Hnx Hcond Hcrowd. apply tag_ok_live in Ht as [Hl Ht]. unfold IndexSet.
  rewrite (root_ok x L T [] H t Ht). cbn [obind].
  destruct (upsert_loop_ok now x L T m t v levels 0 H HT Hl Hnx) as (q & L' & T' & E & Hq & Hm & HT' & Hf);
    [by destruct Hcond as [?| ->]; [left|right; apply Hc]|done|done|unfold levels; lia|by intros k' Hk'; lia| |].
  { pose proof (k_bits _ _ _ _ H). destruct (k_shards _ _ _ _ H (Z.land t (Z.ones (shardBits x)))) as (r & _ & Hr).
    - rewrite Z.land_ones by lia. apply Z.mod_pos_bound. lia.
    - by exists r. }
  rewrite <- shift_0 in E. rewrite E. cbn [obind]. eexists. split; [reflexivity|]. split; [|done]. exists L', T'. split; [done|]. split; [done|]. auto.
Qed.

(** *** Delete *)

Lemma mem_tombstone x L T F m t k j s : mem_ok x L T F -> trie_ok (shardBits x) T m -> live_tag t ->
  at_ T (level (shardBits x) t k) j s -> tag s = t ->
  exists i n T', L !! level (shardBits x) t k = Some i /\ node (pool x) i = Ret n /\
    mem_ok (set_pool x (set_node (pool x) i (tombstone n j))) L T' F /\ trie_ok (shardBits x) T' (delete t m).
Proof.
  intros H HT Hl (ss & Hss & Hj) Ht. pose proof (level_node x L T F m H HT t k) as Hn. rewrite Hss in Hn.
  destruct Hn as (i & n & Hi & Hn & <- & Hh & Hlen & Hc). eexists i, n, _. split; [done|]. split; [done|].
  pose proof Hn as Hn0. unfold node in Hn0. apply go_index_Ret in Hn0 as [_ Hn0]. split.
  - eapply mem_slots; [done|done|done|done|]. apply h2_tombstone; [done|done|]. apply lookup_lt_Some in Hj. lia.
  - by eapply trie_tombstone.
Qed.

Lemma collapse_up_ok x L T m t path F : mem_ok x L T F -> trie_ok (shardBits x) T m -> trail x L t path ->
  exists q freed L' T', collapse_up (pool x) path F = Ret (q, freed) /\ mem_ok (set_pool x q) L' T' freed /\
    trie_ok (shardBits x) T' m /\ next q = next (pool x).
Proof.
  revert x L T F. induction path as [|d path IH]; intros x L T F H HT Htr; cbn [collapse_up].
  { exists (pool x), F, L, T. split; [done|]. split; [by destruct x|done]. }
  destruct path as [|par rest].
  { exists (pool x), F, L, T. split; [done|]. split; [by destruct x|done]. }
  assert (L !! level (shardBits x) t (length rest) = Some par) as Hpar.
  { pose proof (Htr 1%nat par eq_refl) as E. cbn [length] in E. by replace (S (S (length rest)) - 1 - 1)%nat with (length rest) in E by lia. }
  destruct (tryCollapse_ok x L T F m (level (shardBits x) t (length rest)) par H HT ltac:(done) Hpar) as [E|(q & d' & T' & E & Hm & HT' & _ & Hnx)];
    rewrite E; cbn [obind].
  { exists (pool x), F, L, T. split; [done|]. split; [by destruct x|done]. }
  destruct (IH (set_pool x q) _ _ _ Hm HT') as (q' & freed & L' & T'' & E' & Hm' & HT'' & Hnx').
  { intros j i Hj. pose proof (Htr (S j) i Hj) as E'. cbn [length shardBits set_pool] in E' |- *. rewrite prune_lookup.
    replace (S (length rest) - 1 - j)%nat with (S (S (length rest)) - 1 - S j)%nat by lia.
    rewrite decide_False; [done|]. intros [C _]. rewrite !level_length in C. lia. }
  exists q', freed, L', T''. split; [exact E'|]. split; [done|]. split; [done|]. by rewrite Hnx'.
Qed.

Lemma release_ok now x q L T freed : mem_ok (set_pool x q) L T freed ->
  exists y, release now x (q, freed) = Ret y /\ mem_ok y L T [] /\ next (pool y) = next q /\ shardBits y = shardBits x /\
    shards y = shards x.
Proof.
  intros H. unfold release. cbn [fst snd]. destruct freed as [|f freed].
  { cbn [obind]. eexists. split; [reflexivity|]. done. }
  destruct (freeLater_ok now _ _ _ _ H) as (p & E & Hm & Hn). cbn [pool set_pool] in E. rewrite E. cbn [obind].
  eexists. split; [reflexivity|]. done.
Qed.

Lemma IndexDelete_ok now x m c t : holds_map x m c -> tag_ok t ->
  exists y, IndexDelete now x t = Ret (y, bool_decide (is_Some (m !! t))) /\
    holds_map y (delete t m) (c && bool_decide (m !! t = None)) /\ next (pool y) = next (pool x) /\ shardBits y = shardBits x.
Proof.
  intros (L & T & H & HT & Hc) Ht. apply tag_ok_live in Ht as [Hl Ht]. unfold IndexDelete.
  rewrite (root_ok x L T [] H t Ht). cbn [obind].
  pose proof (findPath_ok x L T [] m H HT t 0 levels [] Hl eq_refl ltac:(done)) as Hfp.
  pose proof (seek_spec (shardBits x) (fun s => tag s = t) T m t HT Hl ltac:(done)) as Hs. unfold levels, iMaxDepth in Hfp |- *.
  rewrite <- shift_0 in Hfp. destruct (seek _ _ T t 0 11) as [[[k j] s]|].
  - destruct Hs as (Hts & _ & Hm & Ha). destruct Hfp as (path & Hlen & Htr & ->).
    destruct (mem_tombstone x L T [] m t k j s H HT Hl Ha Hts) as (i & n & T' & Hi & Hn & Hm' & HT'). rewrite Hi.
    cbn [default from_option id]. rewrite Hn. cbn [obind].
    destruct (collapse_up_ok (set_pool x (set_node (pool x) i (tombstone n j))) L T' (delete t m) t path [] Hm' HT' Htr)
      as (q & freed & L' & T'' & E & Hm'' & HT'' & Hnx). cbn [pool set_pool] in E. rewrite E. cbn [obind].
    destruct (release_ok now x q L' T'' freed Hm'') as (y & -> & Hy & Hny & Hby & _). cbn [obind].
    exists y. rewrite Hm, bool_decide_eq_true_2, (bool_decide_eq_false_2 (Some _ = None)), andb_false_r by done.
    split; [done|]. split; [|rewrite Hny, Hnx; done]. exists L', T''. split; [done|]. rewrite Hby. done.
  - rewrite Hfp. cbn [obind]. assert (m !! t = None) as Hm by (destruct (m !! t) eqn:E; [by destruct (Hs z eq_refl)|done]).
    exists x. rewrite Hm, bool_decide_eq_false_2, (bool_decide_eq_true_2 (None = None)), andb_true_r by (done || by intros [? ?]).
    split; [done|]. split; [|done]. rewrite delete_id by done. by exists L, T.
Qed.

Lemma TryTombstone_ok x m c t off gen : holds_map x m c -> tag_ok t ->
  let hit := match m !! t with Some v => refers v off gen | None => false end in
  exists y, TryTombstone x t off gen = Ret (y, hit) /\
    holds_map y (if hit then delete t m else m) (c && negb hit) /\ next (pool y) = next (pool x) /\ shardBits y = shardBits x.
Proof.
  intros (L & T & H & HT & Hc) Ht hit. apply tag_ok_live in Ht as [Hl Ht]. unfold TryTombstone.
  rewrite (root_ok x L T [] H t Ht). cbn [obind].
  pose proof (tomb_loop_ok x L T [] m H HT t off gen 0 levels Hl) as Htl. rewrite <- shift_0 in Htl.
  pose proof (seek_spec (shardBits x) (fun s => tag s = t /\ refers (val s) off gen = true) T m t HT Hl ltac:(by intros ? [? _])) as Hs.
  unfold levels, iMaxDepth in Htl |- *. rewrite Htl. destruct (seek _ _ T t 0 11) as [[[k j] s]|].
  - destruct Hs as (Hts & [_ Hr] & Hm & Ha).
    destruct (mem_tombstone x L T [] m t k j s H HT Hl Ha Hts) as (i & n & T' & Hi & Hn & Hm' & HT'). rewrite Hi.
    cbn [default from_option id]. rewrite Hn. cbn [obind]. unfold hit. rewrite Hm, Hr. cbn [negb fst snd]. rewrite andb_false_r.
    eexists. split; [reflexivity|]. split; [|done]. by exists L, T'.
  - cbn [obind fst snd]. assert (hit = false) as ->.
    { unfold hit. destruct (m !! t) as [v|] eqn:E; [|done]. destruct (refers v off gen) eqn:Er; [|done]. by destruct (Hs v eq_refl). }
    cbn [negb]. rewrite andb_true_r. eexists. split; [reflexivity|]. split; [|done]. exists L, T. by destruct x.
Qed.

(** *** Compaction *)

Definition under (p r : list Z) : Prop := exists b s, r = p ++ b :: s.

Lemma child_under p b r : under (p ++ [b]) r -> under p r.
Proof. intros (b' & s & ->). exists b, (b' :: s). by rewrite <- app_assoc. Qed.

Lemma not_under_self p : ~ under p p.
Proof. intros (b & s & E). apply (f_equal length) in E. rewrite length_app in E. cbn in E. lia. Qed.

(** What compacting at [p] keeps: the map, and everything not below [p]. *)
Definition compacts (x : InlineIndex) (L : gmap (list Z) Z) (T : trie) (F : list Z) (m : gmap Z Z) (p : list Z)
    (r : outcome (iNodePool * list Z)) : Prop :=
  exists q d L' T', r = Ret (q, d) /\ mem_ok (set_pool x q) L' T' (F ++ d) /\ trie_ok (shardBits x) T' m /\
    (full_parents T -> full_parents T') /\ next q = next (pool x) /\ forall r, ~ under p r -> L' !! r = L !! r.

Lemma tryCollapse_compacts x L T F m p i : mem_ok x L T F -> trie_ok (shardBits x) T m -> p <> [] -> L !! p = Some i ->
  compacts x L T F m p (r <-- tryCollapse (pool x) i ;; Ret (default (pool x, []) r)).
Proof.
  intros H HT Hne Hp. destruct (tryCollapse_ok x L T F m p i H HT Hne Hp) as [E|(q & d & T' & E & Hm & HT' & Hf & Hnx)];
    rewrite E; cbn [obind default from_option].
  - exists (pool x), [], L, T. rewrite app_nil_r. split; [done|]. split; [by destruct x|done].
  - exists q, d, (prune p L), T'. do 5 (split; [done|]). intros r Hr. rewrite prune_lookup, decide_False; [done|].
    intros C. apply child_of_inv in C as [b ->]. apply Hr. by exists b, [].
Qed.

Lemma deep_children_ok fuel x L T F m p i bs freed :
  (forall x L T F q c, mem_ok x L T F -> trie_ok (shardBits x) T m -> q <> [] -> L !! q = Some c -> (12 <= fuel + length q)%nat ->
     compacts x L T F m q (deepCompactNode fuel (pool x) c)) ->
  mem_ok x L T (F ++ freed) -> trie_ok (shardBits x) T m -> p <> [] -> L !! p = Some i -> (12 <= S fuel + length p)%nat ->
  (forall b, b ∈ bs -> 0 <= b < 8) ->
  exists q d L' T', deep_children (deepCompactNode fuel) i bs (pool x) freed = Ret (q, freed ++ d) /\
    mem_ok (set_pool x q) L' T' (F ++ freed ++ d) /\ trie_ok (shardBits x) T' m /\
    (full_parents T -> full_parents T') /\ next q = next (pool x) /\ forall r, ~ under p r -> L' !! r = L !! r.
Proof.
  intros IHf. revert x L T freed. induction bs as [|b bs IH]; intros x L T freed H HT Hne Hp Hf Hb; cbn [deep_children].
  { exists (pool x), [], L, T. rewrite app_nil_r. split; [done|]. split; [by destruct x|done]. }
  destruct (k_node _ _ _ _ H _ _ Hp) as (n & Hn & _ & _ & Hc). pose proof (k_range _ _ _ _ H _ _ Hp).
  unfold node at 1. rewrite (go_index_Z _ _ n) by (lia || done). cbn [obind]. rewrite Hc, kids_lookup by (apply Hb; by left).
  cbn [obind]. rewrite (null_child L x T (F ++ freed) _ H). destruct (L !! (p ++ [b])) as [c|] eqn:E.
  2:{ rewrite bool_decide_eq_true_2 by done. apply IH; try done. intros b' Hb'. apply Hb. by right. }
  rewrite bool_decide_eq_false_2 by done. cbn [default from_option id].
  destruct (IHf x L T (F ++ freed) (p ++ [b]) c H HT ltac:(by destruct p) E) as (q & d & L1 & T1 & E1 & H1 & HT1 & Hf1 & Hn1 & Hfr1);
    [rewrite length_app; cbn; lia|].
  rewrite E1. cbn [obind fst snd].
  assert (forall r, ~ under p r -> L1 !! r = L !! r) as Hfr by (intros r Hr; apply Hfr1; intros C; by apply Hr, (child_under p b)).
  rewrite <- app_assoc in H1.
  destruct (IH (set_pool x q) L1 T1 (freed ++ d) H1 HT1 Hne) as (q' & d' & L2 & T2 & E2 & H2 & HT2 & Hf2 & Hn2 & Hfr2).
  { rewrite Hfr; [done|]. apply not_under_self. }
  { done. }
  { intros b' Hb'. apply Hb. by right. }
  exists q', (d ++ d'), L2, T2. rewrite app_assoc. split; [exact E2|]. rewrite <- !app_assoc in H2 |- *. split; [done|].
  split; [done|]. split; [auto|]. split; [by rewrite Hn2|]. intros r Hr. by rewrite Hfr2, Hfr.
Qed.

Lemma deepCompactNode_ok fuel m : forall x L T F p i, mem_ok x L T F -> trie_ok (shardBits x) T m -> p <> [] ->
  L !! p = Some i -> (12 <= fuel + length p)%nat -> compacts x L T F m p (deepCompactNode fuel (pool x) i).
Proof.
  induction fuel as [|fuel IH]; intros x L T F p i H HT Hne Hp Hf.
  { exfalso. destruct (path_stored _ _ _ _ _ _ H HT ltac:(by eexists)) as [ss Hss]. pose proof (t_depth _ _ _ HT _ _ Hss). lia. }
  cbn [deepCompactNode]. pose proof (k_range _ _ _ _ H _ _ Hp) as Hr.
  destruct (Z.eqb_spec i iNullChild) as [C|_]; [unfold iNullChild in C; lia|].
  assert (mem_ok x L T (F ++ [])) as H0 by (by rewrite app_nil_r).
  destruct (deep_children_ok fuel x L T F m p i (seqZ 0 8) [] IH H0 HT Hne Hp Hf) as (q & d & L1 & T1 & E1 & H1 & HT1 & Hf1 & Hn1 & Hfr1).
  { intros b Hb. apply elem_of_seqZ in Hb. lia. }
  rewrite E1. cbn [obind fst snd app] in *.
  assert (L1 !! p = Some i) as Hp1 by (rewrite Hfr1; [done|apply not_under_self]).
  destruct (tryCollapse_compacts (set_pool x q) L1 T1 (F ++ d) m p i H1 HT1 Hne Hp1) as (q2 & d2 & L2 & T2 & E2 & H2 & HT2 & Hf2 & Hn2 & Hfr2).
  cbn [pool set_pool] in *. exists q2, (d ++ d2), L2, T2.
  destruct (tryCollapse q i) as [[[q3 d3]|]| |]; cbn in E2; try done.
  - injection E2 as -> ->. split; [done|]. rewrite app_assoc. split; [done|]. split; [done|]. split; [auto|].
    split; [congruence|]. intros r Hur. by rewrite Hfr2, Hfr1.
  - injection E2 as -> <-. rewrite app_nil_r in H2. rewrite app_nil_r. split; [done|]. split; [done|]. split; [done|]. split; [auto|].
    split; [congruence|]. intros r Hur. by rewrite Hfr2, Hfr1.
Qed.

Lemma compact_shards_ok f now rs x m c :
  (forall x L T p i, mem_ok x L T [] -> trie_ok (shardBits x) T m -> length p = 1%nat -> L !! p = Some i ->
     compacts x L T [] m p (f (pool x) i)) ->
  holds_map x m c -> (forall r, r ∈ rs -> r ∈ shards x) ->
  exists y, compact_shards f now rs x = Ret y /\ holds_map y m c /\ next (pool y) = next (pool x) /\ shardBits y = shardBits x.
Proof.
  intros Hcf. revert x. induction rs as [|r rs IH]; intros x Hx Hrs; cbn [compact_shards]; [by exists x|].
  destruct Hx as (L & T & H & HT & Hc). destruct (k_roots _ _ _ _ H r) as [s Hs]; [apply Hrs; by left|].
  destruct (Hcf x L T [s] r H HT eq_refl Hs) as (q & d & L' & T' & E & Hm & HT' & Hf & Hnx & _). rewrite E. cbn [obind].
  destruct (release_ok now x q L' T' d Hm) as (y & -> & Hy & Hny & Hby & Hsy). cbn [obind].
  destruct (IH y) as (z & -> & Hz & Hnz & Hbz).
  - exists L', T'. split; [done|]. rewrite Hby. split; [done|]. intros Hcl. apply Hf. by apply Hc.
  - rewrite Hsy. intros r' Hr'. apply Hrs. by right.
  - exists z. split; [done|]. split; [done|]. by rewrite Hnz, Hbz, Hny, Hnx.
Qed.

Lemma CompactAll_ok now x m c : holds_map x m c ->
  exists y, CompactAll now x = Ret y /\ holds_map y m c /\ next (pool y) = next (pool x) /\ shardBits y = shardBits x.
Proof.
  intros Hx. apply compact_shards_ok; [|done|done]. intros x' L T p i H HT Hl Hp.
  unfold compactNode. pose proof (k_range _ _ _ _ H _ _ Hp).
  destruct (Z.eqb_spec i iNullChild) as [C|_]; [unfold iNullChild in C; lia|].
  by apply tryCollapse_compacts; [..|intros ->|].
Qed.

Lemma DeepCompactAll_ok now x m c : holds_map x m c ->
  exists y, DeepCompactAll now x = Ret y /\ holds_map y m c /\ next (pool y) = next (pool x) /\ shardBits y = shardBits x.
Proof.
  intros Hx. apply compact_shards_ok; [|done|done]. intros x' L T p i H HT Hl Hp.
  apply deepCompactNode_ok; try done; [by intros ->|]. unfold levels, iMaxDepth. lia.
Qed.

(** *** A new index *)

Lemma alloc_roots_ok now n p : ready p = [] -> readyHd p = 0 -> Forall (fun x => x = zero_node) (nodes p) ->
  1 <= next p -> next p + Z.of_nat n < 2 ^ 32 ->
  exists q, alloc_roots now p n = Ret (q, seqZ (next p) (Z.of_nat n)) /\ ready q = [] /\ readyHd q = 0 /\
    Forall (fun x => x = zero_node) (nodes q) /\ next q = next p + Z.of_nat n /\
    (next p <= Z.of_nat (length (nodes p)) -> next q <= Z.of_nat (length (nodes q))).
Proof.
  revert p. induction n as [|n IH]; intros p Hr Hh Hz Hn Hb.
  { exists p. cbn. rewrite Z.add_0_r. done. }
  cbn [alloc_roots]. unfold alloc. rewrite Hr, Hh. change (0 <? Z.of_nat (length (@nil Z))) with false. cbn [obind fst snd].
  unfold bump. rewrite (wrapu_small 32 (next p + 1)), Z.add_simpl_r, (wrapu_small 32 (next p)) by lia.
  destruct (Z.eqb_spec (next p) iNullChild) as [E|_]; [unfold iNullChild in E; lia|]. cbn [fst snd].
  set (p1 := mkPool _ (next p + 1) _ _).
  destruct (ensure_spec p1 (next p) ltac:(lia)) as (k & En & Hlen & Enx & Er & Eh).
  destruct (IH (ensure p1 (next p))) as (q & E & Hq1 & Hq2 & Hq3 & Hq4 & Hq5).
  - by rewrite Er.
  - by rewrite Eh.
  - rewrite En. apply Forall_app. split; [done|]. by apply Forall_replicate.
  - rewrite Enx. cbn. lia.
  - rewrite Enx. cbn [next p1]. lia.
  - rewrite E. cbn [obind fst snd]. exists q. rewrite Enx in Hq4, Hq5 |- *. cbn [next p1] in Hq4, Hq5 |- *.
    split.
    { rewrite (seqZ_cons (next p)) by lia.
      by replace (Z.pred (Z.of_nat (S n))) with (Z.of_nat n) by lia. } do 3 (split; [done|]). split; [lia|]. intros _. apply Hq5. lia.
Qed.

(** The paths of a new index: one root per shard, numbered from 1. *)
Definition root_paths (N : Z) : gmap (list Z) Z := kmap (fun s => [s]) (map_seqZ 0 (seqZ 1 N)).

Lemma root_paths_lookup N p i : root_paths N !! p = Some i <-> exists s, p = [s] /\ 0 <= s < N /\ i = s + 1.
Proof.
  assert (Inj (=) (=) (fun s : Z => [s])) as Hinj by (intros s s'; by intros [= ->]).
  unfold root_paths. rewrite (lookup_kmap_Some (fun s : Z => [s])). split; intros (s & -> & Hs); exists s; (split; [done|]).
  - apply lookup_map_seqZ_Some in Hs as [Hs Hi]. apply lookup_seqZ in Hi as [-> Hi]. lia.
  - apply lookup_map_seqZ_Some. split; [lia|]. apply lookup_seqZ. lia.
Qed.

Definition root_trie (N : Z) : trie := (fun _ => replicate 4 (mkISlot 0 0)) <$> root_paths N.

Lemma root_trie_lookup N p ss : root_trie N !! p = Some ss -> exists s, p = [s] /\ ss = replicate 4 (mkISlot 0 0).
Proof.
  intros Hp. unfold root_trie in Hp. rewrite lookup_fmap in Hp. apply fmap_Some in Hp as (i & Hp & ->).
  apply root_paths_lookup in Hp as (s & -> & _). by exists s.
Qed.

Lemma root_trie_ok B N : trie_ok B (root_trie N) ∅ /\ full_parents (root_trie N).
Proof.
  assert (forall p j s, at_ (root_trie N) p j s -> ~ live_tag (tag s)) as Hdead.
  { intros p j s (ss & Hp & Hj) [C _]. apply root_trie_lookup in Hp as (? & -> & ->). by apply lookup_replicate in Hj as [-> _]. }
  split; [constructor|].
  - by intros p ss (? & -> & ->)%root_trie_lookup.
  - intros p ss (? & -> & ->)%root_trie_lookup. cbn. lia.
  - intros p b' Hne [ss Hp]. apply root_trie_lookup in Hp as (s & E' & _). destruct p as [|? [|]]; done.
  - intros p ss i j s s' (? & -> & ->)%root_trie_lookup Hi Hj _ _. by apply lookup_replicate in Hj as [-> _].
  - intros p j s Ha Hl. by destruct (Hdead _ _ _ Ha).
  - intros p j s p' j' s' Ha _ _ Hl. by destruct (Hdead _ _ _ Ha).
  - intros t v. rewrite lookup_empty. split; [done|]. intros (Hl & p & j & Ha). by destruct (Hdead _ _ _ Ha).
  - intros p b' j s [ss Hp] (ss' & Hp' & _). apply root_trie_lookup in Hp as (s1 & E1 & _), Hp' as (s2 & -> & _). done.
Qed.

Lemma root_mem_ok q b : 1 <= b <= 20 -> ready q = [] -> readyHd q = 0 -> Forall (fun x => x = zero_node) (nodes q) ->
  next q = 1 + 2 ^ b -> next q <= Z.of_nat (length (nodes q)) ->
  mem_ok (mkIndex q (seqZ 1 (2 ^ b)) (2 ^ b - 1) b) (root_paths (2 ^ b)) (root_trie (2 ^ b)) [].
Proof.
  intros Hb Hr Hh Hz Hn Hlen. assert (0 < 2 ^ b) as HN by lia.
  constructor; cbn [pool shards shardMask shardBits].
  - done.
  - rewrite Z.ones_equiv. lia.
  - intros s Hs. exists (s + 1). split; [apply lookup_seqZ; lia|]. apply root_paths_lookup. by exists s.
  - intros r Hr'. apply elem_of_seqZ in Hr'. exists (r - 1). apply root_paths_lookup. exists (r - 1). split; [done|]. lia.
  - intros p i Hp. pose proof Hp as Hp'. apply root_paths_lookup in Hp' as (s & -> & Hs & ->).
    destruct (lookup_lt_is_Some_2 (nodes q) (Z.to_nat (s + 1))) as [n Hn']; [lia|].
    pose proof (Forall_lookup_1 _ _ _ _ Hz Hn') as ->. exists zero_node. split; [done|].
    unfold root_trie. rewrite lookup_fmap, Hp. split; [done|]. split; [apply h2_zero|]. symmetry. apply kids_none. intros b'.
    destruct (root_paths (2 ^ b) !! ([s] ++ [b'])) eqn:E'; [|done]. by apply root_paths_lookup in E' as (? & ? & _).
  - intros p. unfold root_trie. rewrite lookup_fmap. by intros ?%fmap_is_Some.
  - intros p i Hp. apply root_paths_lookup in Hp as (s & -> & Hs & ->). lia.
  - intros p p' i Hp Hp'. apply root_paths_lookup in Hp as (s & -> & Hs & ->), Hp' as (s' & -> & Hs' & E'). f_equal. lia.
  - lia.
  - intros i n _ Hn'. by apply (Forall_lookup_1 _ _ _ _ Hz Hn').
  - rewrite Hr, Hh. cbn. lia.
  - unfold waiting. rewrite Hr, drop_nil. constructor.
  - unfold waiting. rewrite Hr, drop_nil. intros i C. by apply elem_of_nil in C.
Qed.

Lemma NewInlineIndex_ok now bits : 0 <= bits <= 20 ->
  exists x, NewInlineIndex now bits = Ret x /\ holds_map x ∅ true /\ next (pool x) <= 2 ^ 20 + 1 /\
    shardBits x = if bits =? 0 then 8 else bits.
Proof.
  intros Hb. unfold NewInlineIndex, iDefaultShardBits, iMaxShardBits. set (b := if bits =? 0 then 8 else bits).
  assert (1 <= b <= 20) as Hb1 by (unfold b; destruct (Z.eqb_spec bits 0); lia).
  destruct (Z.ltb_spec 20 b); [lia|]. rewrite Z.shiftl_1_l.
  assert (2 <= 2 ^ b <= 2 ^ 20) as HN by (split; [change 2 with (2 ^ 1) at 1|]; apply Z.pow_le_mono_r; lia).
  destruct (ensure_spec (mkPool [] 1 [] 0) (2 ^ b + 1) ltac:(lia)) as (k & En & Hlen & Enx & Er & Eh).
  cbn [nodes app next ready readyHd] in *.
  destruct (alloc_roots_ok now (Z.to_nat (2 ^ b)) (ensure (mkPool [] 1 [] 0) (2 ^ b + 1))) as (q & E & Hq1 & Hq2 & Hq3 & Hq4 & Hq5).
  { done. } { done. } { rewrite En. by apply Forall_replicate. } { lia. } { lia. }
  rewrite E. cbn [obind fst snd]. rewrite Z2Nat.id, Enx in * by lia. specialize (Hq5 ltac:(lia)).
  eexists. split; [reflexivity|]. split; [|split; [cbn; lia|done]].
  destruct (root_trie_ok b (2 ^ b)) as [HT Hf]. exists (root_paths (2 ^ b)), (root_trie (2 ^ b)). split; [by apply root_mem_ok|done].
Qed.

(** ** Refinement *)

(** The abstract index: the map, and whether nothing has been deleted yet. *)
Record aindex : Type := mkA { a_map : gmap Z Z; a_clean : bool }.

Inductive iop : Type :=
| IGet (t : Z)
| ISet (now t v : Z)
| IDelete (now t : Z)
| IIsLive (t physOff gen2b : Z)
| ITombstone (t physOff gen2b : Z)
| ICompact (now : Z)
| IDeepCompact (now : Z).

Inductive ians : Type := AVal (v : option Z) | ABool (b : bool) | ADone.

Definition i_step (o : iop) (x : InlineIndex) : outcome (InlineIndex * ians) :=
  match o with
  | IGet t => v <-- IndexGet x t ;; Ret (x, AVal v)
  | ISet now t v => x <-- IndexSet now x t v ;; Ret (x, ADone)
  | IDelete now t => r <-- IndexDelete now x t ;; Ret (r.1, ABool r.2)
  | IIsLive t off gen => b <-- IsLive x t off gen ;; Ret (x, ABool b)
  | ITombstone t off gen => r <-- TryTombstone x t off gen ;; Ret (r.1, ABool r.2)
  | ICompact now => x <-- CompactAll now x ;; Ret (x, ADone)
  | IDeepCompact now => x <-- DeepCompactAll now x ;; Ret (x, ADone)
  end.

Definition refers_to (m : gmap Z Z) (t off gen : Z) : bool :=
  match m !! t with Some v => refers v off gen | None => false end.

(** [None]: a tag is set again after a deletion, or four other tags already
    take the same route. *)
Definition ai_step (B : Z) (o : iop) (a : aindex) : option (aindex * ians) :=
  let m := a_map a in
  match o with
  | IGet t => Some (a, AVal (m !! t))
  | ISet _ t v =>
    match m !! t with
    | Some _ => if a_clean a then Some (mkA (<[t:=v]> m) true, ADone) else None
    | None => if (crowd B m t <? 4)%nat then Some (mkA (<[t:=v]> m) (a_clean a), ADone) else None
    end
  | IDelete _ t => Some (mkA (delete t m) (a_clean a && bool_decide (m !! t = None)), ABool (bool_decide (is_Some (m !! t))))
  | IIsLive t off gen => Some (a, ABool (refers_to m t off gen))
  | ITombstone t off gen =>
    let hit := refers_to m t off gen in
    Some (mkA (if hit then delete t m else m) (a_clean a && negb hit), ABool hit)
  | ICompact _ | IDeepCompact _ => Some (a, ADone)
  end.

Fixpoint ai_run (B : Z) (ops : list iop) (a : aindex) : option (list ians) :=
  match ops with
  | [] => Some []
  | o :: ops => '(a, r) ← ai_step B o a; rs ← ai_run B ops a; Some (r :: rs)
  end.

Definition iop_ok (o : iop) : Prop :=
  match o with
  | IGet t | ISet _ t _ | IDelete _ t | IIsLive t _ _ | ITombstone t _ _ => tag_ok t
  | ICompact _ | IDeepCompact _ => True
  end.

Lemma i_step_ok o x a a' r : holds_map x (a_map a) (a_clean a) -> iop_ok o -> next (pool x) < 2 ^ 32 - 1 ->
  ai_step (shardBits x) o a = Some (a', r) ->
  exists y, i_step o x = Ret (y, r) /\ holds_map y (a_map a') (a_clean a') /\ next (pool y) <= next (pool x) + 1 /\
    shardBits y = shardBits x.
Proof.
  intros Hx Ho Hn Ha. destruct a as [m c]. cbn [a_map a_clean] in *.
  destruct o as [t|now t v|now t|t off gen|t off gen|now|now]; cbn [i_step ai_step iop_ok a_map a_clean] in *.
  - injection Ha as <- <-. rewrite (IndexGet_ok x m c t Hx Ho). cbn [obind]. exists x. do 2 (split; [done|]). split; [lia|done].
  - assert ((m !! t = None \/ c = true) /\ (m !! t = None -> (crowd (shardBits x) m t < 4)%nat) /\
      a' = mkA (<[t:=v]> m) c /\ r = ADone) as (Hc & Hcr & -> & ->).
    { destruct (m !! t) eqn:E; [destruct c; [|done]|destruct (Nat.ltb_spec (crowd (shardBits x) m t) 4); [|done]];
        injection Ha as <- <-; (split; [auto|]; split; done). }
    destruct (IndexSet_ok now x m c t v Hx Ho Hn Hc Hcr) as (y & -> & Hy & ? & ?). cbn [obind]. by exists y.
  - injection Ha as <- <-. destruct (IndexDelete_ok now x m c t Hx Ho) as (y & -> & Hy & E & ?). cbn [obind fst snd].
    exists y. do 2 (split; [done|]). split; [lia|done].
  - injection Ha as <- <-. rewrite (IsLive_ok x m c t off gen Hx Ho). cbn [obind]. exists x. do 2 (split; [done|]). split; [lia|done].
  - injection Ha as <- <-. destruct (TryTombstone_ok x m c t off gen Hx Ho) as (y & -> & Hy & E & ?). cbn [obind fst snd].
    exists y. do 2 (split; [done|]). split; [lia|done].
  - injection Ha as <- <-. destruct (CompactAll_ok now x m c Hx) as (y & -> & Hy & E & ?). cbn [obind].
    exists y. do 2 (split; [done|]). split; [lia|done].
  - injection Ha as <- <-. destruct (DeepCompactAll_ok now x m c Hx) as (y & -> & Hy & E & ?). cbn [obind].
    exists y. do 2 (split; [done|]). split; [lia|done].
Qed.

Lemma i_run_ok ops x a rs : holds_map x (a_map a) (a_clean a) -> Forall iop_ok ops ->
  next (pool x) + Z.of_nat (length ops) < 2 ^ 32 -> ai_run (shardBits x) ops a = Some rs -> answers i_step ops x = Ret rs.
Proof.
  revert x a rs. induction ops as [|o ops IH]; intros x a rs Hx Hok Hn Ha; cbn [ai_run answers length] in *; [by injection Ha as <-|].
  apply Forall_cons in Hok as [Ho Hok]. destruct (ai_step (shardBits x) o a) as [[a' r]|] eqn:E; [|done]. cbn in Ha.
  destruct (ai_run (shardBits x) ops a') as [rs'|] eqn:E'; [|done]. injection Ha as <-.
  destruct (i_step_ok o x a a' r Hx Ho ltac:(lia) E) as (y & -> & Hy & Hny & Hby). cbn [obind].
  rewrite <- Hby in E'. cbn. by rewrite (IH y a' rs' Hy Hok ltac:(lia) E').
Qed.

(** C9: The cache index is a map as long as no present tag is set again after
    a deletion and no fifth tag takes a route that four tags of the map take.
    For every number of shards and every sequence of fewer than 2^31 lookups,
    insertions, deletions, liveness checks, tombstones and (deep) compactions,
    at whatever times, on which the abstract run is defined, the index built of
    4-slot trie nodes with filter words, recycled node numbers and collapsing
    children answers exactly as a finite map from tags to values: no operation
    panics, no entry is lost, duplicated or read under another tag, compaction
    is invisible, and recycled nodes carry nothing over.  The abstract run is
    undefined when a present tag is set again after some tag was deleted (there
    the index may keep both values and compaction bring the old one back:
    [deleted_tag_resurfaces], [compaction_revives_old_value]), and when four
    tags in the map agree with a new one on the shard and on all ten branches
    (the depth ceiling, where the source drops the insertion). *)
Theorem index_refines_map now bits ops rs :
  0 <= bits <= 20 -> Forall iop_ok ops -> Z.of_nat (length ops) < 2 ^ 31 ->
  ai_run (if bits =? 0 then 8 else bits) ops (mkA ∅ true) = Some rs ->
  exists x, NewInlineIndex now bits = Ret x /\ answers i_step ops x = Ret rs.
Proof.
  intros Hb Hok Hlen Ha. destruct (NewInlineIndex_ok now bits Hb) as (x & -> & Hx & Hn & Hs).
  exists x. split; [done|]. rewrite <- Hs in Ha. by apply (i_run_ok ops x (mkA ∅ true)); [..|lia|].
Qed.

Definition index_demo : list iop :=
  ((fun k => ISet 0 (2 * k) k) <$> seqZ 1 9) ++
  [IGet 12; ISet 0 12 60; IGet 12; IDelete 5 2; IGet 2; IDelete 6 4; IDelete 7 18; ICompact 8; IDeepCompact 9;
   ISet 20000000 34 17; IGet 34; IGet 6; IIsLive 6 3 0; ITombstone 6 3 0; IGet 6; IGet 18].

Definition index_demo_answers : list ians :=
  replicate 9 ADone ++
  [AVal (Some 6); ADone; AVal (Some 60); ABool true; AVal None; ABool true; ABool true; ADone; ADone;
   ADone; AVal (Some 17); AVal (Some 3); ABool true; ABool true; AVal None; AVal None].

Lemma index_refines_map_witness :
  exists x, NewInlineIndex 0 1 = Ret x /\ answers i_step index_demo x = Ret index_demo_answers.
Proof.
  apply index_refines_map.
  - lia.
  - repeat constructor; cbn; unfold tag_ok; lia.
  - vm_compute. reflexivity.
  - vm_compute. reflexivity.
Defined.

(** ** Where the index departs from a map *)

Definition run_new (ops : list iop) : outcome (list ians) := x <-- NewInlineIndex 0 1 ;; answers i_step ops x.

(** [upsert] takes the first tombstone on the path without looking for the tag
    further down: the old entry stays below the new one and comes back when
    the new one is deleted. *)
Lemma deleted_tag_resurfaces :
  run_new (((fun k => ISet 0 (2 * k) k) <$> seqZ 1 5) ++ [IDelete 0 2; ISet 0 10 50; IGet 10; IDelete 0 10; IGet 10])
  = Ret (replicate 5 ADone ++ [ABool true; ADone; AVal (Some 50); ABool true; AVal (Some 5)]).
Proof. vm_compute. reflexivity. Qed.

(** A compaction alone can bring the old value back. *)
Lemma compaction_revives_old_value :
  run_new (((fun k => ISet 0 (2 * k) k) <$> seqZ 1 5) ++ [IDelete 0 4; ISet 0 10 50; IDelete 0 2; IGet 10; ICompact 0; IGet 10])
  = Ret (replicate 5 ADone ++ [ABool true; ADone; ABool true; AVal (Some 50); ADone; AVal (Some 5)]).
Proof. vm_compute. reflexivity. Qed.

Lemma tagBits_bound sp : 0 <= tagBits sp < 2 ^ 39.
Proof. unfold tagBits, xPtrTagMask. rewrite Z.land_ones by lia. apply Z.mod_pos_bound. lia. Qed.

(** The back-pointer of a slab entry keeps 39 bits of the tag, and the cleaner
    passes those to [TryTombstone], which compares whole tags: with tags from
    2^39 on (the tags the cache makes), it never finds an entry. *)
Lemma cleaner_finds_nothing x m c sp off gen : holds_map x m c -> (forall t v, m !! t = Some v -> 2 ^ 39 <= t) ->
  0 < tagBits sp -> exists y, TryTombstone x (tagBits sp) off gen = Ret (y, false) /\ holds_map y m c.
Proof.
  intros Hx Hm Hsp. pose proof (tagBits_bound sp).
  destruct (TryTombstone_ok x m c (tagBits sp) off gen Hx ltac:(unfold tag_ok; lia)) as (y & E & Hy & _).
  destruct (m !! tagBits sp) as [v|] eqn:Et; [apply Hm in Et; lia|]. exists y. rewrite andb_true_r in Hy. done.
Qed.
