(* ===== verification/Cache.v ===== *)
(** * The in-memory cache

    [internal/cache/regions.go], [cache_manager.go], [clock.go], [backend.go]
    and the rest of [cache_types.go] and [hash.go].  Values live in regions,
    one per size class and lifetime tier: arrays of fixed-size slots that are
    written round robin.  Two indices (CacheIndex.v) map the tag of a key to
    the place of its latest value.

    A slot is its header and the bytes behind it; a byte offset [physOff] names
    the slot [physOff / stride], every offset handed out being a multiple of
    the stride.  Operations run one at a time (a write holds the region's
    lock); [now] is the second the coarse clock shows, [ns] the nanosecond the
    index reads for the grace period of its nodes.

    The hash of [hash/maphash] and the persistent backend are parameters. *)

From S2P Require Import Prelude Bytes OpBuffer CacheIndex.

Local Open Scope Z_scope.
Local Open Scope rah_scope.

(** ** Slots (cache_types.go) *)

Definition EntryHeaderSize : Z := 16.

Record EntryHeader : Type := mkHeader {
  Expiry : Z;
  Gen : Z;
  KeyMid : Z;
  h_TenantID : Z;
  ValueLen : Z;
  XSlotPtrB : list Z
}.

Record SlabSlot : Type := mkSlot { hdr : EntryHeader; data : byte_string }.

Definition zero_header : EntryHeader := mkHeader 0 0 0 0 0 (replicate 6 0).

Definition ExpTrunc (unixSec : Z) : Z := Z.land (Z.shiftr unixSec 5) 4095.
Definition ExpTruncExpired (trunc nowSec : Z) : bool := trunc <? Z.land (Z.shiftr nowSec 5) 4095.

Definition xSlotPtrTo6 (p : Z) : list Z :=
  [u8 p; u8 (Z.shiftr p 8); u8 (Z.shiftr p 16); u8 (Z.shiftr p 24); u8 (Z.shiftr p 32); u8 (Z.shiftr p 40)].

Definition xSlotPtrFrom6 (b : list Z) : Z := from_le b.

(** ** Regions (regions.go) *)

Definition reallocGrowThreshold : Z := 70.
Definition defaultShrinkThreshold : Z := 10.

(** [(total + 7) &^ 7] *)
Definition regionStride (sizeClass : Z) : Z := Z.ldiff (u32 (u32 (EntryHeaderSize + sizeClass) + 7)) 7.

Record overwrittenEntry : Type := mkOld { o_tenantID : Z; o_valueLen : Z; o_slotPtr : Z }.

Record Region : Type := mkRegion {
  buf : list SlabSlot;
  count : Z;
  stride : Z;
  ttlSeconds : Z;
  writeSlot : Z;
  maxCount : Z;
  minCount : Z
}.

(** [make([]byte, n * stride)] *)
Definition zero_slot (stride : Z) : SlabSlot := mkSlot zero_header (replicate (Z.to_nat (stride - EntryHeaderSize)) 0).
Definition make_buf (n stride : Z) : list SlabSlot := replicate (Z.to_nat n) (zero_slot stride).

Definition initialSlots : Z := 64.

Definition NewRegion (ttl stride maxSlots : Z) : outcome Region :=
  if stride =? 0 then Panic
  else
    let maxSlots := if maxSlots =? 0 then Z.shiftl 4 20 / stride else maxSlots in
    let maxSlots := if maxSlots <? initialSlots then initialSlots else maxSlots in
    Ret (mkRegion (make_buf initialSlots stride) initialSlots stride ttl 0 maxSlots initialSlots).

(** The old slots are copied, so that offsets stay valid. *)
Definition grow (r : Region) (oldCount : Z) : Region :=
  let newCount := u64 (oldCount * 2) in
  let newCount := if maxCount r <? newCount then maxCount r else newCount in
  mkRegion (take (Z.to_nat newCount) (take (Z.to_nat oldCount) (buf r) ++ make_buf (newCount - oldCount) (stride r)))
    newCount (stride r) (ttlSeconds r) (writeSlot r) (maxCount r) (minCount r).

Definition headerAt (r : Region) (physOff : Z) : outcome SlabSlot := go_index (buf r) (physOff / stride r).

Definition set_slot (r : Region) (physOff : Z) (s : SlabSlot) : Region :=
  mkRegion (<[Z.to_nat (physOff / stride r):=s]> (buf r)) (count r) (stride r) (ttlSeconds r) (writeSlot r)
    (maxCount r) (minCount r).

Definition advance (r : Region) : Region :=
  mkRegion (buf r) (count r) (stride r) (ttlSeconds r) (u64 (writeSlot r + 1)) (maxCount r) (minCount r).

(** Growth at 70 % while below the cap. *)
Definition maybe_grow (r : Region) : Region :=
  if (u64 (count r * reallocGrowThreshold) / 100 <=? writeSlot r) && (count r <? maxCount r) then grow r (count r) else r.

(** The slot and the generation the next write uses. *)
Definition claimSlot (r : Region) : Z * Z :=
  if maxCount r <=? count r then (writeSlot r mod maxCount r, u8 (writeSlot r / maxCount r)) else (writeSlot r, 0).

Definition expiry_of (now ttl : Z) : Z := if ttl =? 0 then now else u32 (now + ttl).

(** What the write stores in the slot: the bytes behind the value stay. *)
Definition fill_slot (now tenantID keyMid gen ttl : Z) (value : byte_string) (s : SlabSlot) : SlabSlot :=
  mkSlot (mkHeader (expiry_of now ttl) gen keyMid tenantID (u16 (Z.of_nat (length value))) (replicate 6 0))
    (value ++ drop (length value) (data s)).

(** The evicted entry, for the accounting. *)
Definition evicted (s : SlabSlot) : option overwrittenEntry :=
  let h := hdr s in
  if 0 <? Expiry h then Some (mkOld (h_TenantID h) (ValueLen h) (xSlotPtrFrom6 (XSlotPtrB h))) else None.

(** [None]: the value does not fit, or the slot's old entry is still live. *)
Definition RegionWrite (now : Z) (r : Region) (tenantID keyMid : Z) (value : byte_string) (ttl : Z)
    (canRecycle : Z -> Z -> Z -> outcome bool) : outcome (Region * option (Z * Z * option overwrittenEntry)) :=
  if u64 (stride r - EntryHeaderSize) <? Z.of_nat (length value) then Ret (r, None)
  else
    let r := maybe_grow r in
    let '(physSlot, gen) := claimSlot r in
    let physOff := u64 (physSlot * stride r) in
    s <-- headerAt r physOff ;;
    let sp := xSlotPtrFrom6 (XSlotPtrB (hdr s)) in
    free <-- (if (maxCount r <=? count r) && (0 <? Expiry (hdr s)) && negb (sp =? 0)
              then canRecycle sp physOff gen else Ret true) ;;
    if free then
      Ret (set_slot (advance r) physOff (fill_slot now tenantID keyMid gen ttl value s),
           Some (physOff, gen, evicted s))
    else Ret (r, None).

Definition RegionRead (now : Z) (r : Region) (physOff gen2b expTrunc keyMid : Z) : outcome (option byte_string) :=
  if ExpTruncExpired expTrunc now then Ret None
  else
    let bufLen := count r * stride r in
    if bufLen <? physOff + EntryHeaderSize then Ret None
    else
      s <-- headerAt r physOff ;;
      let h := hdr s in
      if negb (Z.land (Gen h) 3 =? gen2b) then Ret None
      else if Expiry h <? now then Ret None
      else if negb (KeyMid h =? keyMid) then Ret None
      else if bufLen <? physOff + EntryHeaderSize + ValueLen h then Ret None
      else v <-- go_slice (data s) 0 (ValueLen h) ;; Ret (Some v).

Definition UpdateXSlotPtr (r : Region) (physOff sp : Z) : outcome Region :=
  if count r * stride r <? physOff + EntryHeaderSize then Ret r
  else
    s <-- headerAt r physOff ;;
    let h := hdr s in
    Ret (set_slot r physOff
           (mkSlot (mkHeader (Expiry h) (Gen h) (KeyMid h) (h_TenantID h) (ValueLen h) (xSlotPtrTo6 sp)) (data s))).

Definition SlotCount (r : Region) : Z := count r.
Definition ResidentBytes (r : Region) : Z := u64 (count r * stride r).

(** The number of unexpired entries; [None] when one lies in the upper half. *)
Fixpoint scan_active (now half slot active : Z) (l : list SlabSlot) : option Z :=
  match l with
  | [] => Some active
  | s :: l =>
    if (Expiry (hdr s) =? 0) || (Expiry (hdr s) <? now) then scan_active now half (slot + 1) active l
    else if half <=? slot then None
    else scan_active now half (slot + 1) (active + 1) l
  end.

Definition TryShrink (r : Region) (shrinkPct nowSecs : Z) : Region * bool :=
  let cnt := count r in
  if (cnt <? maxCount r) || (maxCount r <? 2) || (maxCount r <=? minCount r) then (r, false)
  else
    let half := maxCount r / 2 in
    let threshold := u64 (cnt * shrinkPct) / 100 in
    match scan_active nowSecs half 0 0 (take (Z.to_nat cnt) (buf r)) with
    | None => (r, false)
    | Some active =>
      if threshold <=? active then (r, false)
      else (mkRegion (take (Z.to_nat half) (buf r)) half (stride r) (ttlSeconds r) (writeSlot r mod half) half (minCount r), true)
    end.

(** ** Tags of keys (hash.go, cache_manager.go) *)

(** A key needs the hashed lane unless a tiny tag can hold it exactly. *)
Definition isHashLane (key : byte_string) : bool :=
  if (6 <? length key)%nat then true
  else if (length key =? 6)%nat then existsb (fun b => 128 <=? b) key
  else false.

Definition at_key (key : byte_string) (i : nat) : Z := nth i key 0.

Definition middleByte (key : byte_string) : Z :=
  match key with [] => 0 | _ => at_key key (length key / 2) end.

Definition hashLaneBig16 (tID : Z) (key : byte_string) : Z :=
  let ln := length key in
  if (ln =? 0)%nat then (if tID =? 0 then 1 else tID)
  else
    let h := Z.lor (at_key key 0) (Z.shiftl (at_key key (ln - 1)) 8) in
    let h := Z.lxor h (Z.shiftl (Z.land (at_key key (ln / 2)) 15) 4) in
    let h := Z.lxor h (Z.shiftl (Z.land (at_key key (ln / 4)) 7) 9) in
    let h := Z.lxor h (Z.shiftl (Z.land (at_key key (ln * 3 / 4)) 7) 13) in
    let h := Z.lxor h tID in
    let r := u16 (Z.lxor h (Z.shiftr h 16)) in
    if r =? 0 then 1 else r.

(** ** The backend (backend.go) *)

Record BackendEntry : Type := mkEntry { be_TenantID : Z; be_Key : byte_string; be_Value : byte_string; be_Expiry : Z }.

(** An implementation, as a state with the methods of the interface; the
    errors the callers look at are booleans. *)
Class CacheBackend (B : Type) : Type := {
  bGet : B -> Z -> byte_string -> B * option (byte_string * Z);
  bSet : B -> BackendEntry -> B * bool;
  bSetBatch : B -> list BackendEntry -> B;
  bDelete : B -> Z -> byte_string -> B * bool;
  bDeleteTenant : B -> Z -> B * bool;
  bSweep : B -> B
}.

#[export] Instance NoopBackend : CacheBackend unit := {|
  bGet := fun b _ _ => (b, None);
  bSet := fun b _ => (b, true);
  bSetBatch := fun b _ => b;
  bDelete := fun b _ _ => (b, true);
  bDeleteTenant := fun b _ => (b, true);
  bSweep := fun b => b
|}.

(** ** The manager (cache_manager.go) *)

Definition asyncQueueSize : nat := 2048.
Definition eventChanSize : nat := 4096.
Definition cleanerBatchSize : Z := 256.

Record WriteEvent : Type := mkEvent { we_TenantID : Z; we_Key : byte_string; we_Value : byte_string; we_TTL : Z }.

Section manager.
Context {B : Type} `{!CacheBackend B}.
Context (hashH1Only : Z -> byte_string -> Z).

(** The tag of the hashed lane. *)
Definition hashTag (tenantID : Z) (key : byte_string) : Z :=
  let tag := Z.lor (Z.land (hashH1Only tenantID key) (Z.ones 48)) (Z.shiftl (hashLaneBig16 tenantID key) 48) in
  let tag := if tag =? iEmpty then Z.lor tag (Z.shiftl 1 48) else tag in
  if tag =? iTombstone then Z.lxor tag (Z.shiftl 1 48) else tag.

Definition tagOf (tenantID : Z) (key : byte_string) : Z :=
  if isHashLane key then hashTag tenantID key else makeTagTiny tenantID key.

Definition keyMidOf (key : byte_string) : Z := if isHashLane key then middleByte key else 0.

Record CacheManager : Type := mkCM {
  sizeClasses : list Z;
  ttlTiers : list Z;
  regions : list (list Region);
  cleanSlots : list (list Z);
  tinyIdx : InlineIndex;
  hashIdx : InlineIndex;
  tenantLimit : Z;
  tenantUsage : gmap Z Z;
  globalUsed : Z;
  backend : B;
  asyncQueue : list BackendEntry;
  eventCh : list WriteEvent;
  nowSec : Z;
  shrinkThreshold : Z
}.

Definition set_regions (cm : CacheManager) (rs : list (list Region)) : CacheManager :=
  mkCM (sizeClasses cm) (ttlTiers cm) rs (cleanSlots cm) (tinyIdx cm) (hashIdx cm) (tenantLimit cm) (tenantUsage cm)
    (globalUsed cm) (backend cm) (asyncQueue cm) (eventCh cm) (nowSec cm) (shrinkThreshold cm).
Definition set_clean (cm : CacheManager) (cs : list (list Z)) : CacheManager :=
  mkCM (sizeClasses cm) (ttlTiers cm) (regions cm) cs (tinyIdx cm) (hashIdx cm) (tenantLimit cm) (tenantUsage cm)
    (globalUsed cm) (backend cm) (asyncQueue cm) (eventCh cm) (nowSec cm) (shrinkThreshold cm).
Definition set_idx (cm : CacheManager) (hashLane : bool) (x : InlineIndex) : CacheManager :=
  mkCM (sizeClasses cm) (ttlTiers cm) (regions cm) (cleanSlots cm) (if hashLane then tinyIdx cm else x)
    (if hashLane then x else hashIdx cm) (tenantLimit cm) (tenantUsage cm)
    (globalUsed cm) (backend cm) (asyncQueue cm) (eventCh cm) (nowSec cm) (shrinkThreshold cm).
Definition set_usage (cm : CacheManager) (u : gmap Z Z) (g : Z) : CacheManager :=
  mkCM (sizeClasses cm) (ttlTiers cm) (regions cm) (cleanSlots cm) (tinyIdx cm) (hashIdx cm) (tenantLimit cm) u
    g (backend cm) (asyncQueue cm) (eventCh cm) (nowSec cm) (shrinkThreshold cm).
Definition set_backend (cm : CacheManager) (b : B) (q : list BackendEntry) : CacheManager :=
  mkCM (sizeClasses cm) (ttlTiers cm) (regions cm) (cleanSlots cm) (tinyIdx cm) (hashIdx cm) (tenantLimit cm)
    (tenantUsage cm) (globalUsed cm) b q (eventCh cm) (nowSec cm) (shrinkThreshold cm).
Definition set_events (cm : CacheManager) (e : list WriteEvent) : CacheManager :=
  mkCM (sizeClasses cm) (ttlTiers cm) (regions cm) (cleanSlots cm) (tinyIdx cm) (hashIdx cm) (tenantLimit cm)
    (tenantUsage cm) (globalUsed cm) (backend cm) (asyncQueue cm) e (nowSec cm) (shrinkThreshold cm).
Definition set_now (cm : CacheManager) (now : Z) : CacheManager :=
  mkCM (sizeClasses cm) (ttlTiers cm) (regions cm) (cleanSlots cm) (tinyIdx cm) (hashIdx cm) (tenantLimit cm)
    (tenantUsage cm) (globalUsed cm) (backend cm) (asyncQueue cm) (eventCh cm) now (shrinkThreshold cm).

Definition idx_of (cm : CacheManager) (hashLane : bool) : InlineIndex := if hashLane then hashIdx cm else tinyIdx cm.

(** *** Construction *)

Fixpoint new_regions (stride maxSlots : Z) (tiers : list Z) : outcome (list Region) :=
  match tiers with
  | [] => Ret []
  | ttl :: tiers =>
    r <-- NewRegion ttl stride maxSlots ;;
    rs <-- new_regions stride maxSlots tiers ;;
    Ret (r :: rs)
  end.

Fixpoint new_matrix (regionMemory : Z) (tiers classes : list Z) : outcome (list (list Region)) :=
  match classes with
  | [] => Ret []
  | c :: classes =>
    let stride := regionStride c in
    if stride =? 0 then Panic
    else
      row <-- new_regions stride (regionMemory / stride) tiers ;;
      rows <-- new_matrix regionMemory tiers classes ;;
      Ret (row :: rows)
  end.

Definition allocateRegions (totalMemory : Z) (classes tiers : list Z) : outcome (list (list Region) * list (list Z)) :=
  let totalRegions := Z.of_nat (length classes * length tiers) in
  rs <-- new_matrix (totalMemory / totalRegions) tiers classes ;;
  Ret (rs, replicate (length classes) (replicate (length tiers) 0)).

(** [None]: the error of an empty configuration.  [b] is the backend in use,
    [now] the first reading of the clock. *)
Definition NewCacheManager (ns now totalMemory : Z) (classes tiers : list Z) (limit : Z) (b : B)
  : outcome (option CacheManager) :=
  if ((length classes =? 0) || (length tiers =? 0))%nat then Ret None
  else
    tiny <-- NewInlineIndex ns 0 ;;
    hash <-- NewInlineIndex ns 0 ;;
    r <-- allocateRegions totalMemory classes tiers ;;
    Ret (Some (mkCM classes tiers r.1 r.2 tiny hash limit ∅ 0 b [] [] now defaultShrinkThreshold)).

(** *** Routing *)

Fixpoint first_at_least (x : Z) (i : nat) (l : list Z) : option nat :=
  match l with [] => None | y :: l => if x <=? y then Some i else first_at_least x (S i) l end.

Definition selectSizeClass (cm : CacheManager) (valueLen : Z) : nat :=
  default (length (sizeClasses cm) - 1)%nat (first_at_least (u32 valueLen) 0 (sizeClasses cm)).

Definition selectTTLTier (cm : CacheManager) (ttl : Z) : nat :=
  default (length (ttlTiers cm) - 1)%nat (first_at_least ttl 0 (ttlTiers cm)).

Definition getTenantCounter (cm : CacheManager) (t : Z) : Z := default 0 (tenantUsage cm !! t).

Definition region_at (cm : CacheManager) (c t : nat) : option Region := regions cm !! c ≫= (.!! t).

Definition set_region (cm : CacheManager) (c t : nat) (r : Region) : CacheManager :=
  set_regions cm (alter (fun row => <[t:=r]> row) c (regions cm)).

(** *** Backend writes and events *)

Definition enqueueWrite (cm : CacheManager) (e : BackendEntry) : CacheManager * bool :=
  if (length (asyncQueue cm) <? asyncQueueSize)%nat then (set_backend cm (backend cm) (asyncQueue cm ++ [e]), true)
  else let '(b, ok) := bSet (backend cm) e in (set_backend cm b (asyncQueue cm), ok).

(** One round of [asyncWriteLoop]: everything queued, in one batch. *)
Definition asyncWriteLoop (cm : CacheManager) : CacheManager :=
  match asyncQueue cm with
  | [] => cm
  | batch => set_backend cm (bSetBatch (backend cm) batch) []
  end.

Definition enqueueEvent (cm : CacheManager) (ev : WriteEvent) : CacheManager :=
  if (length (eventCh cm) <? eventChanSize)%nat then set_events cm (eventCh cm ++ [ev]) else cm.

(** One round of [eventDispatchLoop]: the event the subscribers receive. *)
Definition eventDispatchLoop (cm : CacheManager) : CacheManager * option WriteEvent :=
  match eventCh cm with
  | [] => (cm, None)
  | ev :: evs => (set_events cm evs, Some ev)
  end.

(** *** Put *)

Definition subUsage (cm : CacheManager) (tenantID entrySize : Z) : CacheManager :=
  set_usage cm (<[tenantID:=u64 (getTenantCounter cm tenantID - entrySize)]> (tenantUsage cm))
    (u64 (globalUsed cm - entrySize)).

Definition addUsage (cm : CacheManager) (tenantID entrySize : Z) : CacheManager :=
  set_usage cm (<[tenantID:=u64 (getTenantCounter cm tenantID + entrySize)]> (tenantUsage cm))
    (u64 (globalUsed cm + entrySize)).

Definition canRecycle (cm : CacheManager) (sp physOff gen2b : Z) : outcome bool :=
  live <-- IsLive (idx_of cm (negb (laneBit sp =? 0))) (tagBits sp) physOff gen2b ;;
  Ret (negb live).

(** [getTenantCounter] adds the counter when the tenant has none. *)
Definition touch (cm : CacheManager) (tenantID : Z) : CacheManager :=
  set_usage cm (<[tenantID:=getTenantCounter cm tenantID]> (tenantUsage cm)) (globalUsed cm).

(** The slab, the index and the accounting, once the backend has its copy. *)
Definition put_slab (ns : Z) (cm : CacheManager) (tenantID : Z) (key value : byte_string) (ttl : Z) (backendOK : bool)
  : outcome (CacheManager * (Z * bool)) :=
  let entrySize := EntryHeaderSize + Z.of_nat (length value) in
  let expiry := expiry_of (nowSec cm) ttl in
  let classID := selectSizeClass cm (Z.of_nat (length value)) in
  let tierID := selectTTLTier cm ttl in
  match region_at cm classID tierID with
  | None => Panic
  | Some region =>
    let hashLane := isHashLane key in
    w <-- RegionWrite (nowSec cm) region tenantID (keyMidOf key) value ttl (canRecycle cm) ;;
    match w with
    | (region, None) => Ret (set_region cm classID tierID region, (0, backendOK))
    | (region, Some (physOff, gen, old)) =>
      let cm := set_region cm classID tierID region in
      let cm := match old with
                | Some o => subUsage cm (o_tenantID o) (u16 (EntryHeaderSize + o_valueLen o))
                | None => cm
                end in
      let ptr := PackSlabVal (Z.land gen 3) (ExpTrunc expiry) (u8 (Z.of_nat classID)) (u8 (Z.of_nat tierID)) physOff in
      r <-- SetTagGetPtr ns (idx_of cm hashLane) (tagOf tenantID key) ptr (if hashLane then xPtrLaneHash else xPtrLaneTiny) ;;
      let '(x, sp) := r in
      let cm := set_idx cm hashLane x in
      region <-- (if sp =? 0 then Ret region else UpdateXSlotPtr region physOff sp) ;;
      let cm := set_region cm classID tierID region in
      Ret (addUsage cm tenantID entrySize, (ptr, true))
    end
  end.

Definition Cache_put (ns : Z) (cm : CacheManager) (tenantID : Z) (key value : byte_string) (ttl : Z)
  : outcome (CacheManager * (Z * bool)) :=
  let entrySize := EntryHeaderSize + Z.of_nat (length value) in
  let cm := touch cm tenantID in
  if (0 <? tenantLimit cm) && (tenantLimit cm <? u64 (getTenantCounter cm tenantID + entrySize)) then Ret (cm, (0, false))
  else
    let expiry := expiry_of (nowSec cm) ttl in
    let '(cm, backendOK) := enqueueWrite cm (mkEntry tenantID key value expiry) in
    put_slab ns cm tenantID key value ttl backendOK.

Definition Cache_Put (ns : Z) (cm : CacheManager) (tenantID : Z) (key value : byte_string) (ttl : Z)
  : outcome (CacheManager * (Z * bool)) :=
  r <-- Cache_put ns cm tenantID key value ttl ;;
  let '(cm, (ptr, ok)) := r in
  Ret (if ok : bool then enqueueEvent cm (mkEvent tenantID key value ttl) else cm, (ptr, ok)).

Definition Update := Cache_put.

(** *** Get *)

(** The in-memory part: the index, then the slab. *)
Definition get_slab (cm : CacheManager) (tenantID : Z) (key : byte_string) : outcome (option byte_string) :=
  found <-- IndexGet (idx_of cm (isHashLane key)) (tagOf tenantID key) ;;
  match found with
  | None => Ret None
  | Some rawVal =>
    let '(gen2b, expTrunc, typ) := Unpack rawVal in
    if typ =? xValTypeSlabRAM then
      let '(classID, tierID, physOff) := UnpackSlab rawVal in
      match region_at cm (Z.to_nat classID) (Z.to_nat tierID) with
      | None => Ret None
      | Some region => RegionRead (nowSec cm) region physOff gen2b expTrunc (keyMidOf key)
      end
    else Ret None
  end.

Definition CacheGet (ns : Z) (cm : CacheManager) (tenantID : Z) (key : byte_string)
  : outcome (CacheManager * option byte_string) :=
  hit <-- get_slab cm tenantID key ;;
  match hit with
  | Some v => Ret (cm, Some v)
  | None =>
    let '(b, r) := bGet (backend cm) tenantID key in
    let cm := set_backend cm b (asyncQueue cm) in
    match r with
    | None => Ret (cm, None)
    | Some (v, expiry) =>
      let ttl := if nowSec cm <? expiry then expiry - nowSec cm else 0 in
      u <-- Update ns cm tenantID key v ttl ;;
      Ret (u.1, Some v)
    end
  end.

(** *** Batches *)

Fixpoint submit_ops (ns : Z) (cm : CacheManager) (ops : list Submitted) (puts : list BackendEntry)
    (rs : list (option byte_string)) : outcome (CacheManager * list BackendEntry * list (option byte_string)) :=
  match ops with
  | [] => Ret (cm, puts, rs)
  | op :: ops =>
    match su_type op with
    | OpPut =>
      r <-- Cache_Put ns cm (su_tenant op) (su_key op) (su_value op) (su_ttl op) ;;
      let cm := r.1 in
      let expiry := if 0 <? su_ttl op then u32 (nowSec cm + su_ttl op) else 0 in
      submit_ops ns cm ops (puts ++ [mkEntry (su_tenant op) (su_key op) (su_value op) expiry]) (rs ++ [None])
    | OpGet =>
      r <-- CacheGet ns cm (su_tenant op) (su_key op) ;;
      submit_ops ns r.1 ops puts (rs ++ [r.2])
    end
  end.

Definition Submit (ns : Z) (cm : CacheManager) (ops : list Submitted) : outcome (CacheManager * list (option byte_string)) :=
  r <-- submit_ops ns cm ops [] [] ;;
  let '(cm, puts, rs) := r in
  Ret (match puts with [] => cm | _ => set_backend cm (bSetBatch (backend cm) puts) (asyncQueue cm) end, rs).

(** *** Deleting *)

Definition deleteKey (ns : Z) (cm : CacheManager) (tenantID : Z) (key : byte_string) : outcome (CacheManager * bool) :=
  r <-- IndexDelete ns (idx_of cm (isHashLane key)) (tagOf tenantID key) ;;
  Ret (set_idx cm (isHashLane key) r.1, r.2).

(** [Invalidate] also tells the other instances ([OnInvalidate]); what it
    does to this one is the same. *)
Definition InvalidateLocal (ns : Z) (cm : CacheManager) (tenantID : Z) (key : byte_string) : outcome (CacheManager * bool) :=
  r <-- deleteKey ns cm tenantID key ;;
  let '(b, ok) := bDelete (backend r.1) tenantID key in
  Ret (set_backend r.1 b (asyncQueue r.1), ok).

Definition DeleteTenant (cm : CacheManager) (tenantID : Z) : CacheManager * bool :=
  let cm := set_usage cm (delete tenantID (tenantUsage cm)) (globalUsed cm) in
  let '(b, ok) := bDeleteTenant (backend cm) tenantID in
  (set_backend cm b (asyncQueue cm), ok).

(** *** Exists and Incr *)

Definition Exists (cm : CacheManager) (tenantID : Z) (key : byte_string) : outcome bool :=
  found <-- IndexGet (idx_of cm (isHashLane key)) (tagOf tenantID key) ;;
  match found with
  | None => Ret false
  | Some rawVal =>
    let '(_, expTrunc, typ) := Unpack rawVal in
    if negb (typ =? xValTypeSlabRAM) then Ret false
    else Ret (negb (ExpTruncExpired expTrunc (nowSec cm)))
  end.

(** The addition in place; [None]: the slot holds no live counter. *)
Definition incr_slot (now : Z) (r : Region) (physOff delta : Z) : outcome (option (Region * Z)) :=
  s <-- headerAt r physOff ;;
  let h := hdr s in
  if (now <? Expiry h) && (ValueLen h =? 8) then
    cur <-- go_slice (data s) 0 8 ;;
    let newVal := i64 (i64 (from_le cur) + delta) in
    Ret (Some (set_slot r physOff (mkSlot h (to_le8 newVal ++ drop 8 (data s))), newVal))
  else Ret None.

Definition incr_found (cm : CacheManager) (tenantID : Z) (key : byte_string) (delta : Z) : outcome (option (CacheManager * Z)) :=
  found <-- IndexGet (idx_of cm (isHashLane key)) (tagOf tenantID key) ;;
  match found with
  | None => Ret None
  | Some rawVal =>
    let '(_, _, typ) := Unpack rawVal in
    if typ =? xValTypeSlabRAM then
      let '(classID, tierID, physOff) := UnpackSlab rawVal in
      let c := Z.to_nat classID in
      let t := Z.to_nat tierID in
      match region_at cm c t with
      | None => Ret None
      | Some region =>
        r <-- incr_slot (nowSec cm) region physOff delta ;;
        Ret (match r with Some (region, v) => Some (set_region cm c t region, v) | None => None end)
      end
    else Ret None
  end.

Definition Incr (ns : Z) (cm : CacheManager) (tenantID : Z) (key : byte_string) (delta ttl : Z)
  : outcome (CacheManager * option Z) :=
  found <-- incr_found cm tenantID key delta ;;
  match found with
  | Some (cm, v) => Ret (cm, Some v)
  | None =>
    r <-- Cache_Put ns cm tenantID key (to_le8 delta) ttl ;;
    let '(cm, (_, ok)) := r in
    Ret (cm, if ok : bool then Some delta else None)
  end.

(** *** The cleaner *)

(** The [i]-th slot of a batch; the result counts the entries tombstoned. *)
Fixpoint sweep_slots (n : nat) (i : Z) (r : Region) (start now : Z) (cm : CacheManager) (cleaned : Z)
  : outcome (CacheManager * Z) :=
  match n with
  | O => Ret (cm, cleaned)
  | S n =>
    let slot := u64 (start + i) mod count r in
    let physOff := u64 (slot * stride r) in
    s <-- headerAt r physOff ;;
    let h := hdr s in
    if (Expiry h =? 0) || (now <=? Expiry h) then sweep_slots n (i + 1) r start now cm cleaned
    else
      let sp := xSlotPtrFrom6 (XSlotPtrB h) in
      if sp =? 0 then sweep_slots n (i + 1) r start now cm cleaned
      else
        let lane := negb (laneBit sp =? 0) in
        q <-- TryTombstone (idx_of cm lane) (tagBits sp) physOff (Z.land (Gen h) 3) ;;
        sweep_slots n (i + 1) r start now (set_idx cm lane q.1) (if q.2 : bool then cleaned + 1 else cleaned)
  end.

Definition sweepBatch (cm : CacheManager) (c t : nat) (now : Z) : outcome (CacheManager * Z) :=
  match region_at cm c t, cleanSlots cm !! c ≫= (.!! t) with
  | Some r, Some start =>
    if count r =? 0 then Ret (cm, 0)
    else
      q <-- sweep_slots (Z.to_nat cleanerBatchSize) 0 r start now cm 0 ;;
      Ret (set_clean q.1 (alter (fun row => <[t:=u64 (start + cleanerBatchSize) mod count r]> row) c (cleanSlots q.1)), q.2)
  | _, _ => Panic
  end.

(** The pass of an idle cleaner over one region. *)
Definition shrinkRegion (cm : CacheManager) (c t : nat) (now : Z) : outcome CacheManager :=
  match region_at cm c t with
  | Some r => Ret (set_region cm c t (TryShrink r (shrinkThreshold cm) now).1)
  | None => Panic
  end.

Definition Stats (cm : CacheManager) : Z := globalUsed cm.
End manager.

Arguments CacheManager : clear implicits.
