(* ===== verification/CacheTags.v ===== *)
(** * The bit fields of the cache: what encodings keep

    The packed words of the cache read back: index values, the six-byte
    back-pointers of slab entries, little-endian counters, and the tags of
    short keys, which determine the tenant and the key. *)

From S2P Require Import Prelude Bytes OpBuffer CacheIndex CacheBits CacheTrie CacheIndexSpec Cache.

Local Open Scope Z_scope.

(** Fields that do not overlap are added. *)
Lemma lor_add n a b : 0 <= n -> a mod 2 ^ n = 0 -> 0 <= b < 2 ^ n -> Z.lor a b = a + b.
Proof.
  intros Hn Ha Hb. assert (a = Z.shiftl (a / 2 ^ n) n) as E.
  { rewrite Z.shiftl_mul_pow2 by done. pose proof (Z.div_mod a (2 ^ n)). lia. }
  rewrite E at 1. rewrite lor_shiftl_add by done. rewrite Z.shiftl_mul_pow2 in E by done. lia.
Qed.

Lemma land_mod n x : 0 <= n -> Z.land x (Z.ones n) = x mod 2 ^ n.
Proof. apply Z.land_ones. Qed.

Lemma land_3 x : Z.land x 3 = x mod 4.
Proof. change 3 with (Z.ones 2). by rewrite Z.land_ones. Qed.
Lemma land_7 x : Z.land x 7 = x mod 8.
Proof. change 7 with (Z.ones 3). by rewrite Z.land_ones. Qed.
Lemma land_low4 x : Z.land x 15 = x mod 16.
Proof. change 15 with (Z.ones 4). by rewrite Z.land_ones. Qed.
Lemma land_31 x : Z.land x 31 = x mod 32.
Proof. change 31 with (Z.ones 5). by rewrite Z.land_ones. Qed.
Lemma land_127 x : Z.land x 127 = x mod 128.
Proof. change 127 with (Z.ones 7). by rewrite Z.land_ones. Qed.
Lemma land_4095 x : Z.land x 4095 = x mod 4096.
Proof. change 4095 with (Z.ones 12). by rewrite Z.land_ones. Qed.

Ltac bits_arith :=
  rewrite ?land_3, ?land_7, ?land_low4, ?land_31, ?land_127, ?land_4095, ?Z.shiftl_mul_pow2, ?Z.shiftr_div_pow2, ?land_mod by lia.

(** ** Index values *)

Lemma PackSlabVal_add gen ex c t off : 0 <= gen < 4 -> 0 <= ex < 4096 -> 0 <= c < 4 -> 0 <= t < 4 -> 0 <= off < 2 ^ 44 ->
  PackSlabVal gen ex c t off = gen * 2 ^ 62 + ex * 2 ^ 50 + c * 2 ^ 46 + t * 2 ^ 44 + off.
Proof.
  intros Hg He Hc Ht Ho. unfold PackSlabVal, xValTypeSlabRAM. bits_arith. rewrite Z.lor_0_r.
  rewrite !(Z.mod_small _ 4), (Z.mod_small _ 4096), (Z.mod_small off) by lia.
  rewrite (lor_add 62 (gen * 2 ^ 62)) by div_lia. rewrite (lor_add 48 _ (c * 2 ^ 46)) by div_lia.
  rewrite (lor_add 46 _ (t * 2 ^ 44)) by div_lia. by rewrite (lor_add 44 _ off) by div_lia.
Qed.

Lemma land_type v : 0 <= v < 2 ^ 64 -> (v / 2 ^ 48) mod 4 = 0 -> Z.land v xValTypeMask = 0.
Proof.
  intros Hv E. apply Z.bits_inj'. intros j Hj. rewrite Z.land_spec, Z.testbit_0_l. unfold xValTypeMask.
  rewrite Z.shiftl_spec by done. destruct (Z_lt_le_dec j 48); [by rewrite (testbit_neg 3) by lia; rewrite andb_false_r|].
  destruct (Z_lt_le_dec j 50); [|rewrite (testbit_small 2 3) by lia; by rewrite andb_false_r].
  assert (Z.testbit v j = false) as ->; [|done].
  assert (j = 48 \/ j = 49) as [->| ->] by lia; apply Z.b2z_inj; rewrite Z.testbit_spec' by lia; cbn [Z.b2z]; div_lia.
Qed.

(** Every field of a slab value reads back. *)
Lemma PackSlabVal_fields gen ex c t off :
  0 <= gen < 4 -> 0 <= ex < 4096 -> 0 <= c < 4 -> 0 <= t < 4 -> 0 <= off < 2 ^ 44 ->
  Unpack (PackSlabVal gen ex c t off) = (gen, ex, xValTypeSlabRAM) /\
  UnpackSlab (PackSlabVal gen ex c t off) = (c, t, off).
Proof.
  intros Hg He Hc Ht Ho. rewrite PackSlabVal_add by done. unfold Unpack, UnpackSlab. set (v := gen * _ + _ + _ + _ + _).
  assert (v = gen * 2 ^ 62 + ex * 2 ^ 50 + c * 2 ^ 46 + t * 2 ^ 44 + off) as Ev by done. clearbody v.
  rewrite (land_type v) by div_lia. bits_arith. rewrite (wrapu_small 8) by div_lia.
  split; repeat f_equal; div_lia.
Qed.

Lemma ExpTrunc_range e : 0 <= ExpTrunc e < 4096.
Proof. unfold ExpTrunc. bits_arith. div_lia. Qed.

(** In one window of 2^17 seconds the truncated comparison is the order of
    the 32-second periods. *)
Lemma ExpTruncExpired_window e now : 0 <= e -> 0 <= now -> e / 2 ^ 17 = now / 2 ^ 17 ->
  ExpTruncExpired (ExpTrunc e) now = (e / 32 <? now / 32).
Proof.
  intros He Hn Hw. unfold ExpTruncExpired, ExpTrunc. bits_arith. change (2 ^ 5) with 32.
  destruct (Z.ltb_spec (e / 32) (now / 32)), (Z.ltb_spec ((e / 32) mod 4096) ((now / 32) mod 4096)); div_lia.
Qed.

(** ** Little-endian bytes *)

Lemma xSlotPtr_roundtrip p : 0 <= p < 2 ^ 48 -> xSlotPtrFrom6 (xSlotPtrTo6 p) = p.
Proof.
  intros Hp. unfold xSlotPtrFrom6, xSlotPtrTo6. change (u8 p) with (p mod 256). rewrite !u8_shiftr by lia.
  rewrite !from_le_byte by (repeat constructor; apply Z.mod_pos_bound; lia). cbn [from_le]. div_lia.
Qed.

(** A back-pointer gives the lane and the low bits of the tag. *)
Definition backptr (hashLane : bool) (tag : Z) : Z :=
  packXTagRef (if hashLane then xPtrLaneHash else xPtrLaneTiny) (u8 (Z.land tag 255)) tag.

Lemma backptr_add hl tag : backptr hl tag = (if hl then 2 ^ 47 else 0) + (tag mod 256) * 2 ^ 39 + tag mod 2 ^ 39.
Proof.
  unfold backptr, packXTagRef, xPtrTagMask, xPtrLaneHash, xPtrLaneTiny. change 255 with (Z.ones 8). rewrite !Z.land_ones by lia.
  rewrite (wrapu_small 8) by div_lia. rewrite !Z.shiftl_mul_pow2 by lia.
  replace (Z.land (if hl then 1 * 2 ^ 47 else 0) (1 * 2 ^ 47)) with (if hl then 2 ^ 47 else 0) by (by destruct hl).
  rewrite (lor_add 47 (if hl then _ else _)) by (destruct hl; div_lia). by rewrite (lor_add 39) by (destruct hl; div_lia).
Qed.

Lemma backptr_fields hl tag : 0 <= backptr hl tag < 2 ^ 48 /\ laneBit (backptr hl tag) = (if hl then 1 else 0) /\
  tagBits (backptr hl tag) = tag mod 2 ^ 39.
Proof.
  rewrite backptr_add. unfold laneBit, tagBits, xPtrTagMask. change 1 with (Z.ones 1) at 1. rewrite !Z.land_ones, Z.shiftr_div_pow2 by lia.
  destruct hl; div_lia.
Qed.

(** ** Tags of short keys *)

Fixpoint radix (w : Z) (key : byte_string) : Z :=
  match key with [] => 0 | b :: key => b + 2 ^ w * radix w key end.

Lemma radix_range w key : 0 <= w -> Forall (fun b => 0 <= b < 2 ^ w) key ->
  0 <= radix w key < 2 ^ (w * Z.of_nat (length key)).
Proof.
  intros Hw. induction 1 as [|b key Hb _ IH]; cbn [radix length]; [cbn; rewrite Z.mul_0_r; cbn; lia|].
  rewrite Nat2Z.inj_succ, Z.mul_succ_r, Z.add_comm, Z.pow_add_r by lia. nia.
Qed.

Lemma radix_inj w k1 k2 : 0 <= w -> length k1 = length k2 -> Forall (fun b => 0 <= b < 2 ^ w) k1 ->
  Forall (fun b => 0 <= b < 2 ^ w) k2 -> radix w k1 = radix w k2 -> k1 = k2.
Proof.
  intros Hw. revert k2. induction k1 as [|b1 k1 IH]; intros [|b2 k2] Hl H1 H2 E; try done.
  apply Forall_cons in H1 as [Hb1 H1], H2 as [Hb2 H2]. cbn [radix] in E.
  assert (b1 = b2) as ->.
  { apply (f_equal (fun x => x mod 2 ^ w)) in E. rewrite !(Z.mul_comm (2 ^ w)), !Z_mod_plus_full, !Z.mod_small in E by lia. done. }
  f_equal. apply IH; [by injection Hl|done|done|]. assert (0 < 2 ^ w) by lia. nia.
Qed.

Lemma pack_key_radix w i key k : w = 7 \/ w = 8 -> Forall (fun b => 0 <= b < 2 ^ w) key -> 0 <= i ->
  0 <= k < 2 ^ (i * w) -> (i + Z.of_nat (length key)) * w <= 64 ->
  pack_key w i key k = k + radix w key * 2 ^ (i * w).
Proof.
  intros Hw Hk. revert i k. induction Hk as [|b key Hb _ IH]; intros i k Hi Hk Hl; cbn [pack_key radix length] in *; [lia|].
  assert ((if w =? 7 then Z.land b 127 else b) = b) as ->.
  { destruct Hw as [-> | ->]; cbn [Z.eqb]; [|done]. change (7 =? 7) with true. cbn iota. rewrite land_127. apply Z.mod_small. cbn in Hb. lia. }
  assert (0 < 2 ^ (i * w)) as Hp by lia. rewrite Z.shiftl_mul_pow2 by lia.
  assert (2 ^ ((i + 1) * w) = 2 ^ w * 2 ^ (i * w)) as Ep.
  { rewrite Z.mul_add_distr_r, Z.mul_1_l, Z.add_comm, Z.pow_add_r by lia. done. }
  assert (2 ^ ((i + 1) * w) <= 2 ^ 64) by (apply Z.pow_le_mono_r; lia).
  rewrite (wrapu_small 64) by nia. rewrite Z.lor_comm, (lor_add (i * w)); [|lia|by apply Z.mod_mul; lia|done].
  rewrite IH by nia. rewrite Ep. ring.
Qed.

(** The keys of the tiny lane. *)
Definition tiny_key (t : Z) (key : byte_string) : Prop :=
  0 <= t < 2 ^ 16 /\ Forall is_byte key /\ isHashLane key = false.

Lemma tiny_key_cases t key : tiny_key t key ->
  (length key = 6%nat /\ Forall (fun b => 0 <= b < 2 ^ 7) key) \/
  ((length key <= 5)%nat /\ Forall (fun b => 0 <= b < 2 ^ 8) key).
Proof.
  intros (_ & Hb & Hl). unfold isHashLane in Hl. destruct (Nat.ltb_spec 6 (length key)) as [|H6]; [done|].
  destruct (Nat.eqb_spec (length key) 6) as [E|]; [left|right; split; [lia|done]]. split; [done|].
  apply Forall_forall. intros b Hin. pose proof (proj1 (Forall_forall _ _) Hb b Hin) as Hr. unfold is_byte in Hr.
  destruct (Z_lt_le_dec b 128) as [|Hbig]; [cbn; lia|].
  assert (existsb (fun b => 128 <=? b) key = true) as Hex; [|congruence].
  apply existsb_exists. exists b. split; [by apply list_elem_of_In|lia].
Qed.

(** Replacing the two reserved words touches one bit. *)
Lemma sanitise_low base lo : base mod 16 = 0 -> 0 <= base -> 0 <= lo < 16 -> base + lo <= iTombstone ->
  let tag := if base + lo =? iEmpty then Z.lor (base + lo) 4 else base + lo in
  let tag := if tag =? iTombstone then Z.lxor tag 4 else tag in
  exists lo', tag = base + lo' /\ 0 <= lo' < 16 /\ 0 < tag < iTombstone.
Proof.
  unfold iEmpty, iTombstone. intros Hb H0 Hlo Hle. destruct (Z.eqb_spec (base + lo) 0) as [E|E]; cbn zeta.
  { assert (base = 0 /\ lo = 0) as [-> ->] by lia. change (Z.lor (0 + 0) 4) with 4. exists 4. vm_compute. intuition congruence. }
  destruct (Z.eqb_spec (base + lo) (2 ^ 64 - 1)) as [E'|E'].
  - assert (base = 2 ^ 64 - 16 /\ lo = 15) as [-> ->] by div_lia. exists 11. vm_compute. intuition congruence.
  - exists lo. lia.
Qed.

Lemma makeTagTiny_6 t key : 0 <= t < 2 ^ 16 -> length key = 6%nat -> Forall (fun b => 0 <= b < 2 ^ 7) key ->
  exists lo, makeTagTiny t key = 2 ^ 63 + t * 2 ^ 47 + radix 7 key * 32 + lo /\ 0 <= lo < 32 /\ tag_ok (makeTagTiny t key).
Proof.
  intros Ht Hl Hk. pose proof (radix_range 7 key ltac:(lia) Hk) as Hd. rewrite Hl in Hd.
  unfold makeTagTiny. rewrite Hl. change (Z.of_nat 6 =? 6) with true. cbn iota zeta.
  rewrite pack_key_radix, Z.add_0_l by (rewrite ?Hl; auto; cbn; lia). rewrite Z.mul_1_r.
  bits_arith. rewrite (wrapu_small 64 (t * 2 ^ 47)), (wrapu_small 64 (radix 7 key * 2 ^ 5)) by (cbn in Hd |- *; lia).
  rewrite (lor_add 63 (1 * 2 ^ 63)) by div_lia. rewrite (lor_add 47 _ (radix 7 key * 2 ^ 5)) by (cbn in Hd; div_lia).
  rewrite (lor_add 5 _ (t mod 32)) by (change (2 ^ 5) with 32; div_lia).
  set (hi := 16 * ((t mod 32) / 16)).
  destruct (sanitise_low (1 * 2 ^ 63 + t * 2 ^ 47 + radix 7 key * 2 ^ 5 + hi) (t mod 16)) as (lo & E & Hlo & Hr);
    [unfold hi; cbn in Hd; div_lia| |div_lia|unfold iTombstone, hi; cbn in Hd; div_lia|].
  { unfold hi. cbn in Hd. div_lia. }
  replace (1 * 2 ^ 63 + t * 2 ^ 47 + radix 7 key * 2 ^ 5 + t mod 32)
    with (1 * 2 ^ 63 + t * 2 ^ 47 + radix 7 key * 2 ^ 5 + hi + t mod 16) by (unfold hi; div_lia).
  cbn zeta in E, Hr. exists (hi + lo). rewrite E in Hr |- *. unfold tag_ok, iTombstone in *. split; [lia|]. split; [unfold hi; div_lia|done].
Qed.

Lemma makeTagTiny_5 t key : 0 <= t < 2 ^ 16 -> (length key <= 5)%nat -> Forall (fun b => 0 <= b < 2 ^ 8) key ->
  exists lo, makeTagTiny t key = Z.of_nat (length key) * 2 ^ 60 + t * 2 ^ 44 + radix 8 key * 16 + lo /\ 0 <= lo < 16 /\
    tag_ok (makeTagTiny t key).
Proof.
  intros Ht Hl Hk. pose proof (radix_range 8 key ltac:(lia) Hk) as Hd.
  assert (2 ^ (8 * Z.of_nat (length key)) <= 2 ^ 40) as Hp by (apply Z.pow_le_mono_r; lia). change (2 ^ 40) with 1099511627776 in Hp.
  unfold makeTagTiny. destruct (Z.eqb_spec (Z.of_nat (length key)) 6) as [C|_]; [lia|]. cbn zeta.
  rewrite pack_key_radix, Z.add_0_l by (auto; cbn; lia). rewrite Z.mul_1_r.
  bits_arith. rewrite (Z.mod_small _ 8) by lia.
  rewrite (wrapu_small 64 (t * 2 ^ 44)), (wrapu_small 64 (radix 8 key * 2 ^ 4)) by lia.
  rewrite (lor_add 60 (_ * 2 ^ 60)) by div_lia. rewrite (lor_add 44 _ (radix 8 key * 2 ^ 4)) by div_lia.
  rewrite (lor_add 4 _ (t mod 16)) by (change (2 ^ 4) with 16; div_lia).
  destruct (sanitise_low (Z.of_nat (length key) * 2 ^ 60 + t * 2 ^ 44 + radix 8 key * 2 ^ 4) (t mod 16)) as (lo & E & Hlo & Hr);
    [div_lia|lia|div_lia|unfold iTombstone; div_lia|].
  cbn zeta in E, Hr. exists lo. rewrite E in Hr |- *. unfold tag_ok, iTombstone in *. lia.
Qed.

(** A tiny tag names its tenant and its key. *)
Lemma makeTagTiny_inj t1 k1 t2 k2 : tiny_key t1 k1 -> tiny_key t2 k2 -> makeTagTiny t1 k1 = makeTagTiny t2 k2 ->
  t1 = t2 /\ k1 = k2.
Proof.
  intros H1 H2 E. pose proof H1 as (Ht1 & _ & _). pose proof H2 as (Ht2 & _ & _).
  destruct (tiny_key_cases _ _ H1) as [[L1 F1]|[L1 F1]], (tiny_key_cases _ _ H2) as [[L2 F2]|[L2 F2]].
  - destruct (makeTagTiny_6 t1 k1) as (lo1 & E1 & R1 & _), (makeTagTiny_6 t2 k2) as (lo2 & E2 & R2 & _); try done.
    rewrite E1, E2 in E. pose proof (radix_range 7 k1 ltac:(lia) F1) as D1. pose proof (radix_range 7 k2 ltac:(lia) F2) as D2.
    rewrite L1 in D1. rewrite L2 in D2. cbn in D1, D2.
    assert (t1 = t2 /\ radix 7 k1 = radix 7 k2) as [-> Ed] by lia. split; [done|]. apply (radix_inj 7); [lia|congruence|done..].
  - destruct (makeTagTiny_6 t1 k1) as (lo1 & E1 & R1 & _), (makeTagTiny_5 t2 k2) as (lo2 & E2 & R2 & _); try done.
    pose proof (radix_range 7 k1 ltac:(lia) F1) as D1. pose proof (radix_range 8 k2 ltac:(lia) F2) as D2.
    assert (2 ^ (8 * Z.of_nat (length k2)) <= 2 ^ 40) by (apply Z.pow_le_mono_r; lia). lia.
  - destruct (makeTagTiny_5 t1 k1) as (lo1 & E1 & R1 & _), (makeTagTiny_6 t2 k2) as (lo2 & E2 & R2 & _); try done.
    pose proof (radix_range 8 k1 ltac:(lia) F1) as D1. pose proof (radix_range 7 k2 ltac:(lia) F2) as D2.
    assert (2 ^ (8 * Z.of_nat (length k1)) <= 2 ^ 40) by (apply Z.pow_le_mono_r; lia). lia.
  - destruct (makeTagTiny_5 t1 k1) as (lo1 & E1 & R1 & _), (makeTagTiny_5 t2 k2) as (lo2 & E2 & R2 & _); try done.
    rewrite E1, E2 in E. pose proof (radix_range 8 k1 ltac:(lia) F1) as D1. pose proof (radix_range 8 k2 ltac:(lia) F2) as D2.
    assert (2 ^ (8 * Z.of_nat (length k1)) <= 2 ^ 40) by (apply Z.pow_le_mono_r; lia).
    assert (2 ^ (8 * Z.of_nat (length k2)) <= 2 ^ 40) by (apply Z.pow_le_mono_r; lia).
    assert (length k1 = length k2 /\ t1 = t2 /\ radix 8 k1 = radix 8 k2) as (El & -> & Ed) by lia.
    split; [done|]. by apply (radix_inj 8); [lia|..].
Qed.

Lemma makeTagTiny_ok t key : tiny_key t key -> (t, key) <> (0, []) ->
  tag_ok (makeTagTiny t key) /\ 2 ^ 39 <= makeTagTiny t key.
Proof.
  intros H Hne. pose proof H as (Ht & _ & _). destruct (tiny_key_cases _ _ H) as [[L F]|[L F]].
  - destruct (makeTagTiny_6 t key) as (lo & E & R & Hok); [done..|]. split; [done|].
    pose proof (radix_range 7 key ltac:(lia) F). lia.
  - destruct (makeTagTiny_5 t key) as (lo & E & R & Hok); [done..|]. split; [done|].
    pose proof (radix_range 8 key ltac:(lia) F).
    destruct key as [|b key]; [|cbn [length] in *; lia]. assert (t <> 0) by (intros ->; done). cbn [length] in *. lia.
Qed.

(** ** Tags of the hashed lane *)

Lemma hashLaneBig16_range t key : 0 <= t < 2 ^ 16 -> 1 <= hashLaneBig16 t key < 2 ^ 16.
Proof.
  intros Ht. unfold hashLaneBig16. destruct (length key =? 0)%nat; [zcases|].
  set (r := u16 _). assert (0 <= r < 2 ^ 16) by (unfold r; apply wrapu_bound; lia). zcases.
Qed.

Lemma hashTag_ok H1 t key : 0 <= t < 2 ^ 16 ->
  tag_ok (hashTag H1 t key) /\ 2 ^ 39 <= hashTag H1 t key /\ hashTag H1 t key mod 2 ^ 39 = H1 t key mod 2 ^ 39.
Proof.
  intros Ht. pose proof (hashLaneBig16_range t key Ht) as Hb. unfold hashTag.
  rewrite Z.lor_comm, Z.land_ones by lia. rewrite lor_shiftl_add by div_lia.
  set (h := hashLaneBig16 t key) in *. set (x := H1 t key). cbn zeta. unfold tag_ok, iEmpty, iTombstone.
  destruct (Z.eqb_spec (h * 2 ^ 48 + x mod 2 ^ 48) 0); [div_lia|].
  destruct (Z.eqb_spec (h * 2 ^ 48 + x mod 2 ^ 48) (2 ^ 64 - 1)) as [E|]; [|div_lia].
  rewrite E. change (Z.lxor (2 ^ 64 - 1) (Z.shiftl 1 48)) with (2 ^ 64 - 1 - 2 ^ 48). div_lia.
Qed.
