(* ===== verification/CacheRegion.v ===== *)
(** * Regions of the cache: a bounded log

    A region is read as the sequence of all entries ever written to it, oldest
    first.  The [n]-th write goes to slot [n mod maxCount] with generation
    [n / maxCount], so the last [maxCount] entries are intact. *)

From S2P Require Import Prelude Bytes OpBuffer CacheIndex CacheBits CacheTrie CacheIndexSpec Cache CacheTags.

Local Open Scope Z_scope.
Local Open Scope rah_scope.

Record aentry : Type := mkAE { e_tenant : Z; e_key : byte_string; e_val : byte_string; e_exp : Z }.

Abbreviation zlen l := (Z.of_nat (length l)).

(** The back-pointer the entry's key calls for. *)
Section region.
Context (sp_of : aentry -> Z).
Context (sp_range : forall e, 0 <= sp_of e < 2 ^ 48).

(** A slot that holds [e] since the lap [g]; its back-pointer is set or not yet. *)
Record holds (s : SlabSlot) (e : aentry) (g : Z) : Prop := {
  h_exp : Expiry (hdr s) = e_exp e;
  h_gen : Gen (hdr s) = u8 g;
  h_mid : KeyMid (hdr s) = keyMidOf (e_key e);
  h_tenant : h_TenantID (hdr s) = e_tenant e;
  h_len : ValueLen (hdr s) = zlen (e_val e);
  h_ptr : XSlotPtrB (hdr s) = replicate 6 0 \/ XSlotPtrB (hdr s) = xSlotPtrTo6 (sp_of e);
  h_val : take (length (e_val e)) (data s) = e_val e
}.

(** The configuration of a region: [cap] slots of [st] bytes. *)
Record geometry (cap st : Z) : Prop := {
  g_cap : 64 <= cap;
  g_st : 16 < st <= 65535;
  g_mem : cap * st <= 2 ^ 44
}.

Definition entry_ok (st : Z) (e : aentry) : Prop := 0 < e_exp e /\ zlen (e_val e) <= st - 16.

Record region_ok (cap st : Z) (r : Region) (log : list aentry) : Prop := {
  g_geo : geometry cap st;
  g_stride : stride r = st;
  g_max : maxCount r = cap;
  g_write : writeSlot r = zlen log;
  g_count : count r = zlen (buf r);
  g_range : 64 <= count r <= cap;
  g_linear : count r < cap -> zlen log <= count r * 70 / 100;
  g_data : forall i s, buf r !! i = Some s -> zlen (data s) = st - 16;
  g_old : forall n e, log !! n = Some e -> zlen log <= Z.of_nat n + cap ->
            exists s, buf r !! Z.to_nat (Z.of_nat n mod cap) = Some s /\ holds s e (Z.of_nat n / cap);
  g_new : forall i s, buf r !! i = Some s -> zlen log <= Z.of_nat i -> Expiry (hdr s) = 0;
  g_entries : Forall (entry_ok st) log
}.

(** The entry the next write overwrites. *)
Definition victim (cap : Z) (log : list aentry) : option aentry :=
  if cap <=? zlen log then log !! Z.to_nat (zlen log - cap) else None.

Lemma u64_id x : 0 <= x < 2 ^ 64 -> u64 x = x.
Proof. apply wrapu_small. Qed.

Lemma region_small cap st r log : region_ok cap st r log -> count r <= 2 ^ 40 /\ cap <= 2 ^ 40.
Proof.
  intros [Hg _ _ _ _ Hr _ _ _ _ _]. destruct Hg as [Hc Hs Hm]. assert (cap <= 2 ^ 40) by nia. lia.
Qed.

(** The slots a write leaves alone after growing. *)
Lemma grow_ok cap st r log : region_ok cap st r log -> count r < cap ->
  zlen log = count r * 70 / 100 -> region_ok cap st (grow r (count r)) log /\ count r < count (grow r (count r)).
Proof.
  intros H Hc Hl. destruct (region_small _ _ _ _ H) as [Hs1 Hs2]. destruct H as [Hg Hst Hmax Hw Hcnt Hr Hlin Hd Ho Hn He].
  unfold grow. rewrite u64_id by lia. rewrite Hmax. set (nc := if cap <? count r * 2 then cap else count r * 2).
  assert (count r < nc <= cap /\ (nc < cap -> nc = count r * 2)) as [Hnc Hnc2].
  { unfold nc. destruct (Z.ltb_spec cap (count r * 2)); lia. }
  rewrite (take_ge (buf r)) by lia. unfold make_buf. rewrite (take_ge (_ ++ _)) by (rewrite length_app, length_replicate; lia).
  split; [|cbn [count]; lia]. constructor; cbn [stride maxCount writeSlot count buf]; try done.
  - rewrite length_app, length_replicate. lia.
  - lia.
  - intros Hlt. rewrite Hl. specialize (Hnc2 Hlt). rewrite Hnc2. apply Z.div_le_mono; lia.
  - intros i s [E|[_ [-> _]%lookup_replicate]]%lookup_app_Some; [by eapply Hd|]. unfold zero_slot, EntryHeaderSize. cbn [data]. rewrite length_replicate, Hst. destruct Hg. lia.
  - intros n e E Hle. destruct (Ho n e E Hle) as (s & Es & Hh). exists s. split; [|done]. by apply lookup_app_l_Some.
  - intros i s [E|[_ [-> _]%lookup_replicate]]%lookup_app_Some Hi; [by eapply Hn|done].
Qed.

Lemma maybe_grow_ok cap st r log : region_ok cap st r log ->
  region_ok cap st (maybe_grow r) log /\ (count (maybe_grow r) < cap -> zlen log < count (maybe_grow r) * 70 / 100).
Proof.
  intros H. destruct (region_small _ _ _ _ H) as [Hs1 Hs2]. pose proof H as [Hg Hst Hmax Hw Hcnt Hr Hlin Hd Ho Hn He].
  unfold maybe_grow, reallocGrowThreshold. rewrite u64_id, Hw, Hmax by lia.
  destruct (Z.leb_spec (count r * 70 / 100) (zlen log)) as [Hle|Hlt]; cbn [andb]; [|done].
  destruct (Z.ltb_spec (count r) cap) as [Hlt|]; [|by split; [|lia]].
  specialize (Hlin Hlt). destruct (grow_ok cap st r log H Hlt ltac:(lia)) as [Hok Hmore]. split; [done|].
  intros Hlt'. assert (count (grow r (count r)) = count r * 2) as ->.
  { unfold grow in *. cbn [count] in *. rewrite u64_id, Hmax in * by lia. destruct (Z.ltb_spec cap (count r * 2)); lia. }
  div_lia.
Qed.

Lemma headerAt_slot r st i s : stride r = st -> 0 < st -> 0 <= i -> buf r !! Z.to_nat i = Some s -> headerAt r (i * st) = Ret s.
Proof. intros Hst Hp Hi E. unfold headerAt. rewrite Hst, Z.div_mul by lia. by apply go_index_Z. Qed.

Lemma set_slot_buf r st i s : stride r = st -> 0 < st -> buf (set_slot r (i * st) s) = <[Z.to_nat i:=s]> (buf r).
Proof. intros Hst Hp. unfold set_slot. cbn [buf]. by rewrite Hst, Z.div_mul by lia. Qed.

Lemma claim_ok cap st r log : region_ok cap st r log -> (count r < cap -> zlen log < count r * 70 / 100) ->
  claimSlot r = (zlen log mod cap, u8 (zlen log / cap)) /\ zlen log mod cap < count r /\ (cap <= zlen log -> count r = cap).
Proof.
  intros [Hg _ Hmax Hw _ Hr _ _ _ _ _] Hlt. destruct Hg as [Hc _ _]. unfold claimSlot. rewrite Hmax, Hw.
  destruct (Z.leb_spec cap (count r)) as [Hle|Hs].
  - split; [done|]. pose proof (Z.mod_pos_bound (zlen log) cap). lia.
  - specialize (Hlt Hs). assert (zlen log < count r) by div_lia.
    rewrite Z.mod_small, Z.div_small by lia. split; [done|]. lia.
Qed.

(** The slot the next write uses, before the write. *)
Lemma claimed_slot cap st r log : region_ok cap st r log -> zlen log mod cap < count r ->
  exists s, buf r !! Z.to_nat (zlen log mod cap) = Some s /\
    match victim cap log with
    | Some v => holds s v (zlen log / cap - 1) /\ 0 < Expiry (hdr s)
    | None => Expiry (hdr s) = 0
    end.
Proof.
  intros [Hg _ _ _ Hcnt Hr _ _ Ho Hn He] Hlt. destruct Hg as [Hc _ _]. pose proof (Z.mod_pos_bound (zlen log) cap ltac:(lia)) as Hm.
  unfold victim. destruct (Z.leb_spec cap (zlen log)) as [Hle|Hs].
  - destruct (lookup_lt_is_Some_2 log (Z.to_nat (zlen log - cap)) ltac:(lia)) as [v Ev]. rewrite Ev.
    destruct (Ho _ v Ev ltac:(lia)) as (s & Es & Hh). rewrite Z2Nat.id in Es, Hh by lia.
    replace (zlen log - cap) with (zlen log + (-1) * cap) in Es, Hh by lia. rewrite Z_mod_plus_full in Es. rewrite Z_div_plus_full in Hh by lia.
    exists s. split; [done|]. split; [by replace (zlen log / cap - 1) with (zlen log / cap + -1) by lia|].
    rewrite (h_exp _ _ _ Hh). by apply (Forall_lookup_1 _ _ _ _ He) in Ev as [? _].
  - rewrite Z.mod_small in * by lia. destruct (lookup_lt_is_Some_2 (buf r) (Z.to_nat (zlen log)) ltac:(lia)) as [s Es].
    exists s. split; [done|]. by apply (Hn _ _ Es); lia.
Qed.

Lemma take_app_prefix {A} (v l : list A) : take (length v) (v ++ drop (length v) l) = v.
Proof. by rewrite take_app_length. Qed.

Lemma fill_slot_holds now t mid ttl v g e st s : zlen (data s) = st - 16 -> st <= 65535 -> zlen v <= st - 16 ->
  e_tenant e = t -> mid = keyMidOf (e_key e) -> e_val e = v -> e_exp e = expiry_of now ttl ->
  holds (fill_slot now t mid (u8 g) ttl v s) e g /\ zlen (data (fill_slot now t mid (u8 g) ttl v s)) = st - 16.
Proof.
  intros Hd Hst Hv Ht -> Ev Ex. unfold fill_slot. split.
  - constructor; cbn [hdr data Expiry Gen KeyMid h_TenantID ValueLen XSlotPtrB]; try (subst; done); [|by left|by rewrite Ev, take_app_prefix].
    rewrite (wrapu_small 16) by lia. by rewrite Ev.
  - cbn [data]. rewrite length_app, length_drop. lia.
Qed.

Lemma same_slot_far cap a b : 0 < cap -> a mod cap = b mod cap -> a < b -> a + cap <= b.
Proof.
  intros Hc E Hlt. pose proof (Z.div_mod a cap ltac:(lia)). pose proof (Z.div_mod b cap ltac:(lia)).
  assert (a / cap < b / cap) by nia. nia.
Qed.

(** Overwriting the claimed slot appends to the log. *)
Lemma region_append cap st r log e s : region_ok cap st r log -> zlen log mod cap < count r ->
  (count r < cap -> zlen log < count r * 70 / 100) -> zlen log + 1 < 2 ^ 64 -> entry_ok st e ->
  holds s e (zlen log / cap) -> zlen (data s) = st - 16 ->
  region_ok cap st (set_slot (advance r) (zlen log mod cap * st) s) (log ++ [e]).
Proof.
  intros [Hg Hst Hmax Hw Hcnt Hr Hlin Hd Ho Hn He] Hlt Hs Hbig Hok Hh Hlen. pose proof Hg as [Hc Hsr _].
  pose proof (Z.mod_pos_bound (zlen log) cap ltac:(lia)) as Hm. set (p := zlen log mod cap) in *.
  assert (buf (set_slot (advance r) (p * st) s) = <[Z.to_nat p:=s]> (buf r)) as Eb by (rewrite (set_slot_buf _ st); [done|done|lia]).
  assert (zlen (log ++ [e]) = zlen log + 1) as El by (rewrite length_app; cbn; lia).
  constructor; rewrite ?Eb, ?El; cbn [stride maxCount writeSlot count set_slot advance]; try done.
  - rewrite Hw. apply u64_id. lia.
  - by rewrite length_insert.
  - lia.
  - intros i s' [(_ & -> & _)|[_ E]]%list_lookup_insert_Some; [done|by eapply Hd].
  - intros n e' [E|[Hge E]]%lookup_app_Some Hle.
    + apply lookup_lt_Some in E as Hlt'. destruct (Ho n e' E ltac:(lia)) as (s' & Es & Hh'). exists s'. split; [|done].
      rewrite list_lookup_insert_ne; [done|]. intros C. apply (f_equal Z.of_nat) in C.
      pose proof (Z.mod_pos_bound (Z.of_nat n) cap ltac:(lia)). rewrite !Z2Nat.id in C by lia. unfold p in C.
      pose proof (same_slot_far cap (Z.of_nat n) (zlen log)). lia.
    + apply list_lookup_singleton_Some in E as [E <-]. assert (n = length log) as -> by lia. exists s. split; [|done].
      apply list_lookup_insert_eq. lia.
  - intros i s' [(<- & _ & Hi)|[Hne E]]%list_lookup_insert_Some Hle.
    + assert (p <= zlen log) by (apply Z.mod_le; lia). lia.
    + apply (Hn _ _ E). lia.
  - apply Forall_app. split; [done|]. by apply Forall_singleton.
Qed.

Definition old_of (old : option overwrittenEntry) (v : option aentry) : Prop :=
  match old, v with
  | Some o, Some v => o_tenantID o = e_tenant v /\ o_valueLen o = zlen (e_val v)
  | None, None => True
  | _, _ => False
  end.

Lemma from6_ptr l e : l = replicate 6 0 \/ l = xSlotPtrTo6 (sp_of e) -> xSlotPtrFrom6 l = 0 \/ xSlotPtrFrom6 l = sp_of e.
Proof using sp_range. intros [-> | ->]; [by left|right]. apply xSlotPtr_roundtrip, sp_range. Qed.

Lemma Write_ok cap st now r log t mid v ttl rec e : region_ok cap st r log -> zlen log + 1 < 2 ^ 64 -> entry_ok st e ->
  e_tenant e = t -> mid = keyMidOf (e_key e) -> e_val e = v -> e_exp e = expiry_of now ttl ->
  (forall w, victim cap log = Some w -> sp_of w <> 0 -> forall off g, rec (sp_of w) off g = Ret true) ->
  exists r' old, RegionWrite now r t mid v ttl rec = Ret (r', Some (zlen log mod cap * st, u8 (zlen log / cap), old)) /\
    region_ok cap st r' (log ++ [e]) /\ old_of old (victim cap log).
Proof using sp_range.
  intros H Hbig Hok Ht Hmid Hv Hx Hrec. unfold RegionWrite, EntryHeaderSize. pose proof H as [Hg Hst _ _ _ _ _ _ _ _ _].
  pose proof Hg as [Hc Hsr Hmem]. rewrite Hst. pose proof Hok as [_ Hvl]. rewrite Hv in Hvl. rewrite u64_id by lia.
  destruct (Z.ltb_spec (st - 16) (zlen v)); [lia|].
  destruct (maybe_grow_ok _ _ _ _ H) as [H1 Hs]. set (r1 := maybe_grow r) in *.
  pose proof H1 as [_ Hst1 Hmax1 _ Hcnt1 Hr1 _ Hd1 _ _ _]. destruct (claim_ok _ _ _ _ H1 Hs) as (-> & Hlt & Hfull).
  pose proof (Z.mod_pos_bound (zlen log) cap ltac:(lia)) as Hm.
  rewrite Hst1, (u64_id (_ * st)) by nia.
  destruct (claimed_slot _ _ _ _ H1 Hlt) as (s & Es & Hvic). rewrite (headerAt_slot r1 st _ s) by (done || lia). cbn [obind].
  destruct (fill_slot_holds now t mid ttl v (zlen log / cap) e st s) as [Hh Hlen]; [by eapply Hd1|lia|done..|].
  pose proof (region_append _ _ _ _ _ _ H1 Hlt Hs Hbig Hok Hh Hlen) as Hfin.
  assert (old_of (evicted s) (victim cap log)) as Hold.
  { unfold evicted. destruct (victim cap log) as [w|].
    - destruct Hvic as [Hw Hpos]. rewrite (proj2 (Z.ltb_lt _ _) Hpos). cbn. by rewrite (h_tenant _ _ _ Hw), (h_len _ _ _ Hw).
    - by rewrite Hvic. }
  eexists _, _. split; [|by split; [exact Hfin|exact Hold]].
  destruct (_ && _ && _) eqn:Eg; cbn [obind]; [|done].
  apply andb_prop in Eg as [[_ Hpos]%andb_prop Hne]. destruct (victim cap log) as [w|]; [|by rewrite Hvic in Hpos].
  destruct Hvic as [Hw _]. apply negb_true_iff, Z.eqb_neq in Hne. destruct (from6_ptr _ _ (h_ptr _ _ _ Hw)) as [C|E]; [done|].
  rewrite E in Hne |- *. by rewrite (Hrec w eq_refl Hne).
Qed.

(** The write that now occupies the slot of write [n]: [j] laps later. *)
Lemma occupant cap st r log n e : region_ok cap st r log -> log !! n = Some e ->
  exists j e' s, 0 <= j /\ Z.of_nat n + j * cap < zlen log <= Z.of_nat n + j * cap + cap /\
    log !! Z.to_nat (Z.of_nat n + j * cap) = Some e' /\ (j = 0 -> e' = e) /\
    0 <= Z.of_nat n mod cap < count r /\ buf r !! Z.to_nat (Z.of_nat n mod cap) = Some s /\ holds s e' (Z.of_nat n / cap + j).
Proof.
  intros [[Hc _ _] _ _ _ Hcnt _ _ _ Ho _ _] E. apply lookup_lt_Some in E as Hn.
  set (j := (zlen log - 1 - Z.of_nat n) / cap). assert (0 <= j) as Hj by (apply Z.div_pos; lia).
  pose proof (Z.div_mod (zlen log - 1 - Z.of_nat n) cap ltac:(lia)) as Hdm. fold j in Hdm.
  pose proof (Z.mod_pos_bound (zlen log - 1 - Z.of_nat n) cap ltac:(lia)) as Hmb.
  destruct (lookup_lt_is_Some_2 log (Z.to_nat (Z.of_nat n + j * cap)) ltac:(lia)) as [e' E'].
  destruct (Ho _ e' E' ltac:(lia)) as (s & Es & Hh). rewrite Z2Nat.id in Es, Hh by lia. rewrite Z_mod_plus_full in Es.
  rewrite Z_div_plus_full in Hh by lia. pose proof (Z.mod_pos_bound (Z.of_nat n) cap ltac:(lia)).
  exists j, e', s. split; [done|]. split; [lia|]. split; [done|]. split.
  { intros ->. rewrite Z.mul_0_l, Z.add_0_r, Nat2Z.id in E'. congruence. }
  split; [|done]. apply lookup_lt_Some in Es. lia.
Qed.

Definition resident (cap : Z) (log : list aentry) (n : nat) : bool := zlen log <=? Z.of_nat n + cap.

Lemma resident_slot cap st r log n e : region_ok cap st r log -> log !! n = Some e -> resident cap log n = true ->
  exists s, 0 <= Z.of_nat n mod cap < count r /\ buf r !! Z.to_nat (Z.of_nat n mod cap) = Some s /\ holds s e (Z.of_nat n / cap).
Proof.
  intros H E Hr. destruct (occupant _ _ _ _ _ _ H E) as (j & e' & s & Hj & Hlt & _ & He & Hp & Es & Hh).
  unfold resident in Hr. apply Z.leb_le in Hr. destruct (g_geo _ _ _ _ H) as [Hc _ _]. assert (j = 0) as -> by nia.
  rewrite (He eq_refl), Z.add_0_r in Hh. by exists s.
Qed.

Lemma gen_bits g j : 0 <= j < 4 -> (Z.land (u8 (g + j)) 3 =? g mod 4) = (j =? 0).
Proof.
  intros Hj. rewrite land_3. unfold wrapu. change (2 ^ 8) with 256.
  destruct (Z.eqb_spec (((g + j) mod 256) mod 4) (g mod 4)), (Z.eqb_spec j 0); try done; div_lia.
Qed.

Lemma in_bounds p cnt st : 0 <= p < cnt -> 16 < st -> p * st + st <= cnt * st.
Proof. nia. Qed.

(** A read finds the value as long as no more than three later laps touched
    the slot; it is a hit only for the intact, unexpired value. *)
Lemma Read_ok cap st now r log n e : region_ok cap st r log -> log !! n = Some e -> 0 <= now ->
  zlen log <= Z.of_nat n + 4 * cap -> (resident cap log n = true -> e_exp e / 2 ^ 17 = now / 2 ^ 17) ->
  RegionRead now r (Z.of_nat n mod cap * st) ((Z.of_nat n / cap) mod 4) (ExpTrunc (e_exp e)) (keyMidOf (e_key e))
  = Ret (if resident cap log n && (now <=? e_exp e) then Some (e_val e) else None).
Proof.
  intros H E Hnow Hlap Hwin. destruct (g_geo _ _ _ _ H) as [Hc Hsr Hmem].
  destruct (occupant _ _ _ _ _ _ H E) as (j & e' & s & Hj & Hlt & E' & He & Hp & Es & Hh).
  assert (resident cap log n = (j =? 0)) as Hres.
  { unfold resident. destruct (Z.leb_spec (zlen log) (Z.of_nat n + cap)), (Z.eqb_spec j 0); try done; nia. }
  rewrite Hres in Hwin |- *. unfold RegionRead, EntryHeaderSize. rewrite (g_stride _ _ _ _ H).
  pose proof (in_bounds _ _ st Hp ltac:(lia)) as Hb.
  destruct (Z.ltb_spec (count r * st) (Z.of_nat n mod cap * st + 16)); [lia|].
  rewrite (headerAt_slot r st _ s) by (done || apply H || lia). cbn [obind]. rewrite (h_gen _ _ _ Hh), gen_bits by nia.
  destruct (Z.eqb_spec j 0) as [Ej|]; cbn [negb andb]; [|by destruct (ExpTruncExpired _ _)].
  subst j. specialize (Hwin eq_refl). rewrite (He eq_refl) in *. rewrite (h_exp _ _ _ Hh), (h_mid _ _ _ Hh), Z.eqb_refl, (h_len _ _ _ Hh). cbn [negb].
  destruct (Forall_lookup_1 _ _ _ _ (g_entries _ _ _ _ H) E) as [Hpos Hvl].
  rewrite ExpTruncExpired_window by (done || lia).
  destruct (Z.leb_spec now (e_exp e)) as [Hle|Hgt].
  - destruct (Z.ltb_spec (e_exp e / 32) (now / 32)); [div_lia|]. destruct (Z.ltb_spec (e_exp e) now); [lia|].
    destruct (Z.ltb_spec (count r * st) (Z.of_nat n mod cap * st + 16 + zlen (e_val e))); [lia|].
    unfold go_slice. pose proof (g_data _ _ _ _ H _ _ Es).
    rewrite (proj2 (Z.leb_le 0 (zlen (e_val e)))), (proj2 (Z.leb_le (zlen (e_val e)) (zlen (data s)))) by lia. cbn [andb obind].
    change (0 <=? 0) with true. cbn [andb obind]. rewrite Z.sub_0_r, Nat2Z.id. change (Z.to_nat 0) with 0%nat.
    rewrite drop_0. by rewrite (h_val _ _ _ Hh).
  - destruct (_ <? _); [done|]. by rewrite (proj2 (Z.ltb_lt _ _) Hgt).
Qed.

(** Changing the entry of an intact slot in place. *)
Lemma region_update cap st r log n e' s : region_ok cap st r log -> (n < length log)%nat -> resident cap log n = true ->
  holds s e' (Z.of_nat n / cap) -> zlen (data s) = st - 16 -> entry_ok st e' ->
  region_ok cap st (set_slot r (Z.of_nat n mod cap * st) s) (<[n:=e']> log).
Proof.
  intros H Hn Hres Hh Hlen Hok. unfold resident in Hres. apply Z.leb_le in Hres.
  destruct H as [Hg Hst Hmax Hw Hcnt Hr Hlin Hd Ho Hnew He]. pose proof Hg as [Hc Hsr _].
  pose proof (Z.mod_pos_bound (Z.of_nat n) cap ltac:(lia)) as Hm.
  assert (buf (set_slot r (Z.of_nat n mod cap * st) s) = <[Z.to_nat (Z.of_nat n mod cap):=s]> (buf r)) as Eb
    by (rewrite (set_slot_buf _ st); [done|done|lia]).
  constructor; rewrite ?Eb, ?length_insert; cbn [stride maxCount writeSlot count set_slot]; try done.
  - intros i s' [(_ & -> & _)|[_ E]]%list_lookup_insert_Some; [done|by eapply Hd].
  - intros m e2 [(<- & -> & _)|[Hne E]]%list_lookup_insert_Some Hle.
    + exists s. split; [|done]. apply list_lookup_insert_eq.
      destruct (lookup_lt_is_Some_2 log n Hn) as [e0 E0]. destruct (Ho n e0 E0 ltac:(lia)) as (s0 & Es & _).
      by apply lookup_lt_Some in Es.
    + apply lookup_lt_Some in E as Hlt. destruct (Ho m e2 E ltac:(lia)) as (s' & Es & Hh'). exists s'. split; [|done].
      rewrite list_lookup_insert_ne; [done|]. intros C. apply (f_equal Z.of_nat) in C.
      pose proof (Z.mod_pos_bound (Z.of_nat m) cap ltac:(lia)). rewrite !Z2Nat.id in C by lia.
      pose proof (same_slot_far cap (Z.of_nat n) (Z.of_nat m)). pose proof (same_slot_far cap (Z.of_nat m) (Z.of_nat n)). lia.
  - intros i s' [(<- & _ & Hi)|[Hne E]]%list_lookup_insert_Some Hle; [|by eapply Hnew].
    assert (Z.of_nat n mod cap <= Z.of_nat n) by (apply Z.mod_le; lia). lia.
  - by apply Forall_insert.
Qed.

Lemma UpdateXSlotPtr_ok cap st r log n e : region_ok cap st r log -> log !! n = Some e -> resident cap log n = true ->
  exists r', UpdateXSlotPtr r (Z.of_nat n mod cap * st) (sp_of e) = Ret r' /\ region_ok cap st r' log.
Proof.
  intros H E Hres. destruct (resident_slot _ _ _ _ _ _ H E Hres) as (s & Hp & Es & Hh). destruct (g_geo _ _ _ _ H) as [Hc Hsr _].
  unfold UpdateXSlotPtr, EntryHeaderSize. rewrite (g_stride _ _ _ _ H). pose proof (in_bounds _ _ st Hp ltac:(lia)).
  destruct (Z.ltb_spec (count r * st) (Z.of_nat n mod cap * st + 16)); [lia|].
  rewrite (headerAt_slot r st _ s) by (done || apply H || lia). cbn [obind]. eexists. split; [done|].
  rewrite <- (list_insert_id log n e E). apply region_update; [done|by apply lookup_lt_Some in E|done| | |].
  - destruct Hh. constructor; cbn; try done. by right.
  - cbn [data]. by eapply g_data.
  - by apply (Forall_lookup_1 _ _ _ _ (g_entries _ _ _ _ H) E).
Qed.

(** What the counter at an intact entry becomes. *)
Definition bump_val (e : aentry) (delta : Z) : Z := i64 (i64 (from_le (e_val e)) + delta).
Definition bumped (e : aentry) (delta : Z) : aentry := mkAE (e_tenant e) (e_key e) (to_le8 (bump_val e delta)) (e_exp e).

Lemma incr_slot_ok cap st now r log n e delta : region_ok cap st r log -> log !! n = Some e -> resident cap log n = true ->
  (forall v, sp_of (mkAE (e_tenant e) (e_key e) v (e_exp e)) = sp_of e) ->
  exists r', incr_slot now r (Z.of_nat n mod cap * st) delta =
    Ret (if (now <? e_exp e) && (zlen (e_val e) =? 8) then Some (r', bump_val e delta) else None) /\
    ((now <? e_exp e) && (zlen (e_val e) =? 8) = true -> region_ok cap st r' (<[n:=bumped e delta]> log)).
Proof.
  intros H E Hres Hsp. destruct (resident_slot _ _ _ _ _ _ H E Hres) as (s & Hp & Es & Hh). destruct (g_geo _ _ _ _ H) as [Hc Hsr _].
  unfold incr_slot. rewrite (headerAt_slot r st _ s) by (done || apply H || lia). cbn [obind].
  rewrite (h_exp _ _ _ Hh), (h_len _ _ _ Hh). destruct ((now <? e_exp e) && (zlen (e_val e) =? 8)) eqn:Ec; [|by exists r].
  apply andb_prop in Ec as [_ E8%Z.eqb_eq]. destruct (Forall_lookup_1 _ _ _ _ (g_entries _ _ _ _ H) E) as [Hpos Hvl].
  pose proof (g_data _ _ _ _ H _ _ Es) as Hd. assert (take 8 (data s) = e_val e) as Ev.
  { pose proof (h_val _ _ _ Hh) as Hv. by replace (length (e_val e)) with 8%nat in Hv by lia. }
  assert (go_slice (data s) 0 8 = Ret (e_val e)) as ->.
  { unfold go_slice. rewrite (proj2 (Z.leb_le 8 (zlen (data s)))) by lia. cbn [andb]. change (Z.to_nat (8 - 0)) with 8%nat.
    change (Z.to_nat 0) with 0%nat. by rewrite drop_0, Ev. }
  cbn [obind]. eexists. split; [done|]. intros _. apply region_update; [done|by apply lookup_lt_Some in E|done| | |].
  - destruct Hh. constructor; cbn [hdr data bumped e_exp e_key e_tenant e_val]; rewrite ?to_le8_length; try done.
    + lia.
    + unfold bumped. by rewrite Hsp.
  - cbn [data]. rewrite length_app, length_drop, to_le8_length. lia.
  - split; cbn [bumped e_exp e_val]; [done|]. rewrite to_le8_length. lia.
Qed.

Lemma region_new cap st ttl : geometry cap st -> region_ok cap st (mkRegion (make_buf 64 st) 64 st ttl 0 cap 64) [].
Proof.
  intros Hg. pose proof Hg as [Hc Hs _]. unfold make_buf.
  constructor; cbn [stride maxCount writeSlot count buf length]; try done; try lia.
  - intros i s [-> _]%lookup_replicate. unfold zero_slot, EntryHeaderSize. cbn [data]. rewrite length_replicate. lia.
  - by intros i s [-> _]%lookup_replicate _.
Qed.
End region.
