(* ===== verification/CacheSpec.v ===== *)
(** * The cache refines a map of bounded logs

    The abstract cache keeps, for every size class and lifetime tier, the
    sequence of entries ever written there, and for every key the place of its
    latest write.  Only the last [cap_of] entries of a sequence are kept; a
    key whose entry is among them and not past its expiry is a hit.  A tenant's
    usage is the size of its kept entries.  The backend, the queue of pending
    backend writes and the queue of events are the same on both sides. *)

From S2P Require Import Prelude Bytes OpBuffer CacheIndex CacheBits CacheTrie CacheMem CacheIndexSpec Cache CacheTags CacheRegion.

Local Open Scope Z_scope.
Local Open Scope rah_scope.

Definition sumZ (l : list Z) : Z := foldr Z.add 0 l.

Definition esize (e : aentry) : Z := 16 + zlen (e_val e).

(** The entries still in memory. *)
Definition kept (cap : Z) (log : list aentry) : list aentry := drop (length log - Z.to_nat cap) log.

Definition log_usage (p : aentry -> bool) (cap : Z) (log : list aentry) : Z :=
  sumZ (esize <$> base.filter (fun e => p e = true) (kept cap log)).

(** ** Sums *)

Lemma sum_update {A} (f g : A -> Z) l x : NoDup l -> x ∈ l -> (forall y, y ∈ l -> y <> x -> f y = g y) ->
  sumZ (g <$> l) = sumZ (f <$> l) - f x + g x.
Proof.
  intros Hnd. induction Hnd as [|y l Hy Hnd IH]; intros Hin Hfg; [by apply elem_of_nil in Hin|]. cbn.
  apply elem_of_cons in Hin as [->|Hin].
  - assert (sumZ (g <$> l) = sumZ (f <$> l)) as E; [|fold (sumZ (g <$> l)) (sumZ (f <$> l)); lia].
    f_equal. apply list_fmap_ext. intros i z Hz. symmetry. apply Hfg; [right; by eapply list_elem_of_lookup_2|].
    intros ->. apply Hy. by eapply list_elem_of_lookup_2.
  - fold (sumZ (g <$> l)) (sumZ (f <$> l)). rewrite IH, (Hfg y); [lia|by left|by intros ->|done|].
    intros z Hz. apply Hfg. by right.
Qed.

Lemma sum_bound {A} (f : A -> Z) l b : (forall x, x ∈ l -> 0 <= f x <= b) -> 0 <= sumZ (f <$> l) <= b * zlen l.
Proof.
  induction l as [|x l IH]; intros Hb; cbn [length sumZ foldr fmap list_fmap]; [cbn; lia|].
  pose proof (Hb x ltac:(by left)). destruct IH as [? ?]; [intros y Hy; apply Hb; by right|]. unfold sumZ in *. cbn. lia.
Qed.

Lemma sumZ_app l1 l2 : sumZ (l1 ++ l2) = sumZ l1 + sumZ l2.
Proof. induction l1 as [|x l1 IH]; cbn; [done|]. fold (sumZ (l1 ++ l2)) (sumZ l1). lia. Qed.

Definition counted (p : aentry -> bool) (e : aentry) : Z := if p e then esize e else 0.

Lemma filter_sum p l : sumZ (esize <$> base.filter (fun e => p e = true) l) = sumZ (counted p <$> l).
Proof.
  induction l as [|e l IH]; [done|]. rewrite filter_cons, fmap_cons. cbn [sumZ foldr]. fold (sumZ (counted p <$> l)). rewrite <- IH.
  unfold counted. destruct (decide (p e = true)) as [E|E]; [by rewrite E|]. apply not_true_is_false in E. by rewrite E.
Qed.

Lemma log_usage_app p cap log e : 0 < cap ->
  log_usage p cap (log ++ [e]) = log_usage p cap log + counted p e - default 0 (counted p <$> victim cap log).
Proof.
  intros Hc. unfold log_usage. rewrite !filter_sum. unfold kept, victim. rewrite length_app. cbn [length].
  destruct (Z.leb_spec cap (zlen log)) as [Hle|Hlt].
  - destruct (lookup_lt_is_Some_2 log (Z.to_nat (zlen log - cap)) ltac:(lia)) as [v Ev]. rewrite Ev. cbn.
    replace (Z.to_nat (zlen log - cap)) with (length log - Z.to_nat cap)%nat in Ev by lia.
    rewrite drop_app_le by lia. rewrite (drop_S log v (length log - Z.to_nat cap)) by done.
    replace (length log + 1 - Z.to_nat cap)%nat with (S (length log - Z.to_nat cap)) by lia.
    rewrite fmap_app, sumZ_app. cbn. fold (sumZ (counted p <$> drop (S (length log - Z.to_nat cap)) log)). lia.
  - replace (length log + 1 - Z.to_nat cap)%nat with 0%nat by lia. replace (length log - Z.to_nat cap)%nat with 0%nat by lia.
    rewrite !drop_0, fmap_app, sumZ_app. cbn. lia.
Qed.

Lemma log_usage_insert p cap log n e e' : log !! n = Some e -> counted p e' = counted p e ->
  log_usage p cap (<[n:=e']> log) = log_usage p cap log.
Proof.
  intros E Hc. unfold log_usage. rewrite !filter_sum. unfold kept. rewrite length_insert. f_equal.
  rewrite !fmap_drop. f_equal. rewrite list_fmap_insert, Hc. apply list_insert_id. by rewrite list_lookup_fmap, E.
Qed.

Lemma log_usage_bound p cap st log : 0 <= cap -> 16 <= st -> Forall (entry_ok st) log -> 0 <= log_usage p cap log <= st * cap.
Proof.
  intros Hc Hst He. unfold log_usage. rewrite filter_sum.
  destruct (sum_bound (counted p) (kept cap log) st) as [Hlo Hhi].
  { intros e Hin. apply subseteq_drop in Hin. pose proof (proj1 (Forall_forall _ _) He e Hin) as [_ Hl]. unfold counted, esize.
    destruct (p e); lia. }
  assert (zlen (kept cap log) <= cap) by (unfold kept; rewrite length_drop; lia). nia.
Qed.

Abbreviation ckey := (Z * byte_string)%type.

Section spec.
Context {B : Type} `{!CacheBackend B}.
Context (H1 : Z -> byte_string -> Z) (mem : Z) (classes tiers : list Z) (limit : Z).

Abbreviation tg k := (tagOf H1 k.1 k.2).
Abbreviation lane k := (isHashLane k.2).

(** The number of slots of a region of the class. *)
Definition cap_of (sz : Z) : Z :=
  let n := mem / zlen (list_prod classes tiers) / regionStride sz in
  Z.max 64 (if n =? 0 then 2 ^ 22 / regionStride sz else n).

Definition class_size (c : nat) : Z := nth c classes 0.
Abbreviation cap c := (cap_of (class_size c)).
Abbreviation st c := (regionStride (class_size c)).

Record acache : Type := mkAC {
  a_logs : gmap (nat * nat) (list aentry);
  a_where : gmap ckey (nat * nat * nat);
  a_tinyclean : bool;
  a_hashclean : bool;
  a_backend : B;
  a_queue : list BackendEntry;
  a_events : list WriteEvent;
  a_now : Z
}.

Definition log_at (a : acache) (c t : nat) : list aentry := default [] (a_logs a !! (c, t)).

Definition coords : list (nat * nat) := list_prod (seq 0 (length classes)) (seq 0 (length tiers)).

Definition usage (p : aentry -> bool) (a : acache) : Z :=
  sumZ ((fun ct => log_usage p (cap ct.1) (log_at a ct.1 ct.2)) <$> coords).

Definition of_tenant (t : Z) (e : aentry) : bool := e_tenant e =? t.

Definition clean_of (a : acache) (hash : bool) : bool := if hash then a_hashclean a else a_tinyclean a.

Definition with_backend (a : acache) (b : B) (q : list BackendEntry) : acache :=
  mkAC (a_logs a) (a_where a) (a_tinyclean a) (a_hashclean a) b q (a_events a) (a_now a).
Definition with_events (a : acache) (e : list WriteEvent) : acache :=
  mkAC (a_logs a) (a_where a) (a_tinyclean a) (a_hashclean a) (a_backend a) (a_queue a) e (a_now a).
Definition with_now (a : acache) (now : Z) : acache :=
  mkAC (a_logs a) (a_where a) (a_tinyclean a) (a_hashclean a) (a_backend a) (a_queue a) (a_events a) now.
Definition with_log (a : acache) (c t : nat) (log : list aentry) : acache :=
  mkAC (<[(c, t):=log]> (a_logs a)) (a_where a) (a_tinyclean a) (a_hashclean a) (a_backend a) (a_queue a) (a_events a) (a_now a).
Definition with_where (a : acache) (w : gmap ckey (nat * nat * nat)) (hash clean : bool) : acache :=
  mkAC (a_logs a) w (if hash then a_tinyclean a else clean) (if hash then clean else a_hashclean a)
    (a_backend a) (a_queue a) (a_events a) (a_now a).

(** A new entry at the end of its sequence; the key points at it. *)
Definition a_append (a : acache) (c t : nat) (e : aentry) : acache :=
  let k := (e_tenant e, e_key e) in
  with_where (with_log a c t (log_at a c t ++ [e])) (<[k:=(c, t, length (log_at a c t))]> (a_where a)) (lane k)
    (clean_of a (lane k)).

Definition a_write (a : acache) (e : BackendEntry) : acache * bool :=
  if (length (a_queue a) <? asyncQueueSize)%nat then (with_backend a (a_backend a) (a_queue a ++ [e]), true)
  else let '(b, ok) := bSet (a_backend a) e in (with_backend a b (a_queue a), ok).

Definition a_class (len : Z) : nat := default (length classes - 1)%nat (first_at_least len 0 classes).
Definition a_tier (ttl : Z) : nat := default (length tiers - 1)%nat (first_at_least ttl 0 tiers).

(** [None] here and below: outside what the cache promises.  A put must not
    reach past the 32-bit clock, not replace a key of an index from which
    entries were deleted, and not replace a known key by a value too large for
    its slab. *)
Definition a_put (a : acache) (k : ckey) (v : byte_string) (ttl : Z) : option (acache * bool) :=
  let len := zlen v in
  if (2 ^ 32 <=? a_now a + ttl) || (2 ^ 32 <=? len) then None
  else if (0 <? limit) && (limit <? usage (of_tenant k.1) a + (16 + len)) then Some (a, false)
  else
    let '(a, ok) := a_write a (mkEntry k.1 k.2 v (a_now a + ttl)) in
    let c := a_class len in
    if st c - 16 <? len then if bool_decide (is_Some (a_where a !! k)) then None else Some (a, ok)
    else if bool_decide (is_Some (a_where a !! k)) && negb (clean_of a (lane k)) then None
    else Some (a_append a c (a_tier ttl) (mkAE k.1 k.2 v (a_now a + ttl)), true).

Definition a_Put (a : acache) (k : ckey) (v : byte_string) (ttl : Z) : option (acache * bool) :=
  r ← a_put a k v ttl;
  Some (if (r.2 : bool) && (length (a_events r.1) <? eventChanSize)%nat
        then with_events r.1 (a_events r.1 ++ [mkEvent k.1 k.2 v ttl]) else r.1, r.2).

(** Where the key's latest entry is, if it is known. *)
Definition a_find (a : acache) (k : ckey) : option (nat * nat * nat * aentry) :=
  '(c, t, n) ← a_where a !! k;
  e ← log_at a c t !! n;
  Some (c, t, n, e).

Definition same_window (x y : Z) : bool := x / 2 ^ 17 =? y / 2 ^ 17.

(** Outside: the slot was rewritten four times or more, or the clock and the
    expiry lie in different periods of 2^17 seconds. *)
Definition a_hit (a : acache) (k : ckey) : option (option byte_string) :=
  match a_find a k with
  | None => Some None
  | Some (c, t, n, e) =>
    if resident (cap c) (log_at a c t) n then
      if same_window (e_exp e) (a_now a) then Some (if a_now a <=? e_exp e then Some (e_val e) else None) else None
    else if zlen (log_at a c t) <=? Z.of_nat n + 4 * cap c then Some None
    else None
  end.

Definition a_get (a : acache) (k : ckey) : option (acache * option byte_string) :=
  hit ← a_hit a k;
  match hit with
  | Some v => Some (a, Some v)
  | None =>
    let '(b, r) := bGet (a_backend a) k.1 k.2 in
    let a := with_backend a b (a_queue a) in
    match r with
    | None => Some (a, None)
    | Some (v, expiry) =>
      u ← a_put a k v (if a_now a <? expiry then expiry - a_now a else 0);
      Some (u.1, Some v)
    end
  end.

(** Whether the key is present and not expired.  Outside: an entry that is no
    longer kept, or that ran out less than 32 seconds ago (the index keeps the
    expiry to 32 seconds), and different periods of 2^17 seconds. *)
Definition a_exists (a : acache) (k : ckey) : option bool :=
  match a_find a k with
  | None => Some false
  | Some (c, t, n, e) =>
    if same_window (e_exp e) (a_now a) then
      if a_now a / 32 <=? e_exp e / 32
      then if resident (cap c) (log_at a c t) n && (a_now a <=? e_exp e) then Some true else None
      else Some false
    else None
  end.

(** Outside: the key's entry is known but no longer kept. *)
Definition a_incr (a : acache) (k : ckey) (delta ttl : Z) : option (acache * option Z) :=
  let init :=
    r ← a_Put a k (to_le8 delta) ttl;
    Some (r.1, if r.2 : bool then Some delta else None) in
  match a_find a k with
  | None => init
  | Some (c, t, n, e) =>
    if resident (cap c) (log_at a c t) n then
      if (a_now a <? e_exp e) && (zlen (e_val e) =? 8)
      then Some (with_log a c t (<[n:=bumped e delta]> (log_at a c t)), Some (bump_val e delta))
      else init
    else None
  end.

Definition a_invalidate (a : acache) (k : ckey) : acache * bool :=
  let a := with_where a (delete k (a_where a)) (lane k) (clean_of a (lane k) && bool_decide (a_where a !! k = None)) in
  let '(b, ok) := bDelete (a_backend a) k.1 k.2 in
  (with_backend a b (a_queue a), ok).

Fixpoint a_submit_ops (a : acache) (ops : list Submitted) (puts : list BackendEntry) (rs : list (option byte_string))
  : option (acache * list BackendEntry * list (option byte_string)) :=
  match ops with
  | [] => Some (a, puts, rs)
  | op :: ops =>
    match su_type op with
    | OpPut =>
      r ← a_Put a (su_tenant op, su_key op) (su_value op) (su_ttl op);
      a_submit_ops r.1 ops
        (puts ++ [mkEntry (su_tenant op) (su_key op) (su_value op) (if 0 <? su_ttl op then a_now a + su_ttl op else 0)])
        (rs ++ [None])
    | OpGet =>
      r ← a_get a (su_tenant op, su_key op);
      a_submit_ops r.1 ops puts (rs ++ [r.2])
    end
  end.

Definition a_submit (a : acache) (ops : list Submitted) : option (acache * list (option byte_string)) :=
  '(a, puts, rs) ← a_submit_ops a ops [] [];
  Some (match puts with [] => a | _ => with_backend a (bSetBatch (a_backend a) puts) (a_queue a) end, rs).
(** ** What the cache is used for

    [K] are the keys in use.  Their tags must not collide; no five of them may
    take the same route through an index; the pair of tenant 0 and the empty
    key is left out, and hashes have a bit set among the 39 that back-pointers
    keep. *)

Context (K : list ckey).

Definition key_ok (k : ckey) : Prop := (0 <= k.1 < 2 ^ 16 /\ Forall is_byte k.2) /\ k <> (0, []) /\
  (lane k = true -> H1 k.1 k.2 mod 2 ^ 39 <> 0).

Definition apart (k k' : ckey) : Prop := lane k = true -> lane k' = true -> tg k = tg k' -> k = k'.

Definition same_path (k k' : ckey) : Prop := lane k' = lane k /\ level 8 (tg k') 10 = level 8 (tg k) 10.

#[local] Instance same_path_dec k k' : Decision (same_path k k').
Proof using. unfold same_path. apply _. Defined.

Record universe_ok : Prop := {
  u_keys : Forall key_ok K;
  u_apart : Forall (fun k => Forall (apart k) K) K;
  u_spread : Forall (fun k => (length (base.filter (same_path k) K) <= 4)%nat) K
}.

Record config_ok : Prop := {
  f_classes : (1 <= length classes <= 4)%nat;
  f_tiers : (1 <= length tiers <= 4)%nat;
  f_sizes : Forall (fun sz => 0 < sz <= 65512) classes;
  f_mem : 0 <= mem <= 2 ^ 44;
  f_limit : 0 <= limit < 2 ^ 63
}.

Definition sp_of (e : aentry) : Z := backptr (isHashLane (e_key e)) (tagOf H1 (e_tenant e) (e_key e)).

Definition enc (c t n : nat) (exp : Z) : Z :=
  PackSlabVal ((Z.of_nat n / cap c) mod 4) (ExpTrunc exp) (Z.of_nat c) (Z.of_nat t) (Z.of_nat n mod cap c * st c).

(** The index holds exactly the places of the keys of its lane. *)
Definition indexed (hl : bool) (m : gmap Z Z) (a : acache) : Prop :=
  (forall k c t n e, a_find a k = Some (c, t, n, e) -> lane k = hl -> m !! tg k = Some (enc c t n (e_exp e))) /\
  (forall tag v, m !! tag = Some v -> exists k, is_Some (a_where a !! k) /\ lane k = hl /\ tg k = tag).

Definition in_range (c t : nat) : Prop := (c < length classes)%nat /\ (t < length tiers)%nat.

(** [w]: how many more insertions the counters have room for. *)
Definition idx_rel (w : Z) (x : InlineIndex) (hl : bool) (a : acache) : Prop :=
  exists m, holds_map x m (clean_of a hl) /\ shardBits x = 8 /\ indexed hl m a /\ next (pool x) + w < 2 ^ 32.

Record rel (w : Z) (cm : CacheManager B) (a : acache) : Prop := {
  l_cfg : sizeClasses cm = classes /\ ttlTiers cm = tiers /\ tenantLimit cm = limit;
  l_regions : forall c t, in_range c t ->
    exists r, region_at cm c t = Some r /\ region_ok sp_of (cap c) (st c) r (log_at a c t);
  l_keys : forall c t e, e ∈ log_at a c t -> (e_tenant e, e_key e) ∈ K;
  l_where : forall k c t n, a_where a !! k = Some (c, t, n) ->
    in_range c t /\ exists e, log_at a c t !! n = Some e /\ (e_tenant e, e_key e) = k;
  l_idx : forall hl, idx_rel w (idx_of cm hl) hl a;
  l_usage : forall t, getTenantCounter cm t = usage (of_tenant t) a;
  l_total : globalUsed cm = usage (fun _ => true) a;
  l_back : backend cm = a_backend a /\ asyncQueue cm = a_queue a /\ eventCh cm = a_events a;
  l_now : nowSec cm = a_now a /\ 0 < a_now a < 2 ^ 32;
  l_room : forall c t, zlen (log_at a c t) + w < 2 ^ 63;
  l_clean : forall c t, in_range c t -> exists start, cleanSlots cm !! c ≫= (.!! t) = Some start /\ 0 <= start
}.

Context (HU : universe_ok) (HC : config_ok).

(** ** Geometry *)

Lemma ldiff_7 x : Z.ldiff x 7 = x / 8 * 8.
Proof using. change 7 with (Z.ones 3). by rewrite Z.ldiff_ones_r, Z.shiftl_mul_pow2, Z.shiftr_div_pow2 by lia. Qed.

Lemma regionStride_bounds sz : 0 < sz <= 65512 -> 16 + sz <= regionStride sz <= 16 + sz + 7.
Proof using.
  intros Hs. unfold regionStride, EntryHeaderSize. rewrite !(wrapu_small 32) by (rewrite ?(wrapu_small 32) by lia; lia).
  rewrite ldiff_7. div_lia.
Qed.

Lemma class_size_bounds c : (c < length classes)%nat -> 0 < class_size c <= 65512.
Proof using HC.
  intros Hc. unfold class_size. destruct (lookup_lt_is_Some_2 _ _ Hc) as [sz E]. rewrite (nth_lookup_Some _ _ _ _ E).
  by apply (Forall_lookup_1 _ _ _ _ (f_sizes HC) E).
Qed.

Lemma geo c : (c < length classes)%nat -> geometry (cap c) (st c).
Proof using HC.
  intros Hc. pose proof (class_size_bounds c Hc) as Hs. pose proof (regionStride_bounds _ Hs) as Hst. pose proof (f_mem HC).
  unfold cap_of. set (S := regionStride (class_size c)) in *. set (N := zlen (list_prod classes tiers)).
  assert (0 < N) as HN by (unfold N; rewrite length_prod; pose proof (f_classes HC); pose proof (f_tiers HC); nia).
  assert (0 <= mem / N <= mem) as HM.
  { split; [by apply Z.div_pos; lia|]. apply Z.div_le_upper_bound; nia. }
  constructor; [lia|lia|].
  assert (2 ^ 22 / S * S <= 2 ^ 22) by (rewrite Z.mul_comm; apply Z.mul_div_le; lia).
  assert (mem / N / S * S <= mem / N) by (rewrite Z.mul_comm; apply Z.mul_div_le; lia).
  destruct (Z.eqb_spec (mem / N / S) 0); apply Z.max_case_strong; intros; nia.
Qed.

Lemma cap_pos c : 64 <= cap c.
Proof using. unfold cap_of. lia. Qed.

(** ** Tags *)

Lemma in_K k : k ∈ K -> key_ok k.
Proof using HU. intros Hk. by apply (proj1 (Forall_forall _ _) (u_keys HU)). Qed.

Lemma tiny_in_K k : k ∈ K -> lane k = false -> tiny_key k.1 k.2.
Proof using HU. intros Hk Hl. destruct (in_K k Hk) as [[? ?] _]. done. Qed.

Lemma tag_facts k : k ∈ K -> tag_ok (tg k) /\ 2 ^ 39 <= tg k.
Proof using HU.
  intros Hk. destruct (in_K k Hk) as [[Ht _] [Hne _]]. unfold tagOf. destruct (lane k) eqn:El.
  - by destruct (hashTag_ok H1 k.1 k.2 Ht) as (? & ? & _).
  - apply makeTagTiny_ok; [by apply tiny_in_K|by destruct k].
Qed.

Lemma tg_inj k k' : k ∈ K -> k' ∈ K -> lane k = lane k' -> tg k = tg k' -> k = k'.
Proof using HU.
  intros Hk Hk' Hl Ht. destruct (lane k) eqn:El.
  - pose proof (proj1 (Forall_forall _ _) (u_apart HU) k Hk) as Ha. by apply (proj1 (Forall_forall _ _) Ha k' Hk').
  - unfold tagOf in Ht. rewrite El, <- Hl in Ht. destruct (makeTagTiny_inj k.1 k.2 k'.1 k'.2) as [E1 E2]; [by apply tiny_in_K..|done|].
    destruct k, k'. cbn in *. by subst.
Qed.

(** The low bits a back-pointer keeps are never a whole tag. *)
Lemma backptr_partial e : (e_tenant e, e_key e) ∈ K -> sp_of e <> 0 -> 0 < tagBits (sp_of e) < 2 ^ 39.
Proof using HU.
  intros Hk Hne. set (k := (e_tenant e, e_key e)) in *. unfold sp_of in *. change (isHashLane (e_key e)) with (lane k) in *.
  change (tagOf H1 (e_tenant e) (e_key e)) with (tg k) in *.
  destruct (backptr_fields (lane k) (tg k)) as (_ & _ & ->). pose proof (Z.mod_pos_bound (tg k) (2 ^ 39) ltac:(lia)).
  assert (tg k mod 2 ^ 39 <> 0); [|lia]. intros Hz. destruct (in_K k Hk) as [[Ht _] [_ Hh]].
  destruct (lane k) eqn:El.
  - apply (Hh eq_refl). unfold tagOf in Hz. rewrite El in Hz. destruct (hashTag_ok H1 k.1 k.2 Ht) as (_ & _ & E). congruence.
  - apply Hne. rewrite backptr_add, Hz. assert (tg k mod 256 = 0) as ->; [|done]. clear - Hz. div_lia.
Qed.

Lemma sp_range e : 0 <= sp_of e < 2 ^ 48.
Proof using. apply backptr_fields. Qed.

(** ** The index *)

Definition known (a : acache) : Prop := forall k, is_Some (a_where a !! k) -> k ∈ K.

Lemma indexed_large hl m a t : known a -> indexed hl m a -> t < 2 ^ 39 -> m !! t = None.
Proof using HU.
  intros Hk [_ Hm] Ht. destruct (m !! t) as [v|] eqn:E; [|done]. destruct (Hm t v E) as (k & Hw & _ & <-).
  destruct (tag_facts k (Hk k Hw)) as [_ ?]. lia.
Qed.

Lemma partial_not_live w x hl a t off g : idx_rel w x hl a -> known a -> 0 < t < 2 ^ 39 -> IsLive x t off g = Ret false.
Proof using HU.
  intros (m & Hm & _ & Hi & _) Hk Ht. rewrite (IsLive_ok x m _ t off g Hm) by (unfold tag_ok; lia).
  by rewrite (indexed_large hl m a t Hk Hi) by lia.
Qed.

Lemma partial_not_swept w x hl a t off g : idx_rel w x hl a -> known a -> 0 < t < 2 ^ 39 ->
  exists y, TryTombstone x t off g = Ret (y, false) /\ idx_rel w y hl a.
Proof using HU.
  intros (m & Hm & Hb & Hi & Hn) Hk Ht. destruct (TryTombstone_ok x m _ t off g Hm) as (y & E & Hy & Hny & Hby); [unfold tag_ok; lia|].
  rewrite (indexed_large hl m a t Hk Hi) in E, Hy by lia. exists y. split; [done|]. rewrite andb_true_r in Hy.
  exists m. split; [done|]. split; [congruence|]. split; [done|]. lia.
Qed.

Lemma indexed_lookup hl m a k : known a -> k ∈ K -> indexed hl m a -> lane k = hl ->
  (forall k c t n, a_where a !! k = Some (c, t, n) -> is_Some (log_at a c t !! n)) ->
  m !! tg k = (fun '(c, t, n, e) => enc c t n (e_exp e)) <$> a_find a k.
Proof using HU.
  intros Hkn Hk [Hf Hm] Hl Hw. destruct (a_find a k) as [[[[c t] n] e]|] eqn:E; cbn; [by apply Hf|].
  destruct (m !! tg k) as [v|] eqn:Em; [|done]. destruct (Hm _ _ Em) as (k' & Hw' & Hl' & Ht).
  assert (k' = k) as -> by (apply tg_inj; [by apply Hkn|done|congruence|done]).
  destruct Hw' as [[[c t] n] Ew]. unfold a_find in E. rewrite Ew in E. cbn in E. destruct (Hw k c t n Ew) as [e Ee]. by rewrite Ee in E.
Qed.

Lemma filter_length_lt {A} (P Q : A -> Prop) `{!forall x, Decision (P x), !forall x, Decision (Q x)} l x :
  x ∈ l -> P x -> ~ Q x -> (length (base.filter (fun y => P y /\ Q y) l) < length (base.filter P l))%nat.
Proof using.
  intros Hin HP HQ. induction l as [|y l IH]; [by apply elem_of_nil in Hin|]. rewrite !filter_cons.
  assert (length (base.filter (fun y => P y /\ Q y) l) <= length (base.filter P l))%nat as Hle.
  { clear. induction l as [|y l IH]; [done|]. rewrite !filter_cons. destruct (decide (P y /\ Q y)) as [[? ?]|], (decide (P y)); cbn; try done; lia. }
  apply elem_of_cons in Hin as [<-|Hin].
  - rewrite (decide_False (P := P x /\ Q x)) by tauto. rewrite decide_True by done. cbn. lia.
  - specialize (IH Hin). destruct (decide (P y /\ Q y)) as [[? ?]|], (decide (P y)); cbn; try done; lia.
Qed.

Lemma crowd_small hl m a k : known a -> indexed hl m a -> k ∈ K -> lane k = hl -> m !! tg k = None -> (crowd 8 m (tg k) < 4)%nat.
Proof using HU.
  intros Hkn [_ Hm] Hk Hl Hnone. unfold crowd. set (m' := base.filter _ m).
  assert (length (map_to_list m').*1 <= length ((fun k => tg k) <$> base.filter (fun k' => same_path k k' /\ k' <> k) K))%nat as Hle.
  { apply submseteq_length, NoDup_submseteq; [apply NoDup_fst_map_to_list|]. intros x Hx.
    apply list_elem_of_fmap in Hx as ([x' v] & -> & Hx). apply elem_of_map_to_list in Hx. unfold m' in Hx.
    apply map_lookup_filter_Some in Hx as [Hx Hr]. cbn in *. destruct (Hm _ _ Hx) as (k' & Hw & Hl' & <-).
    apply list_elem_of_fmap. exists k'. split; [done|]. apply list_elem_of_filter. split; [|by apply Hkn]. split; [by split; [congruence|]|].
    intros ->. congruence. }
  rewrite length_fmap, length_map_to_list, length_fmap in Hle.
  pose proof (proj1 (Forall_forall _ _) (u_spread HU) k Hk) as Hs. cbn in Hs.
  pose proof (filter_length_lt (same_path k) (fun k' => k' <> k) K k Hk ltac:(done) ltac:(tauto)). lia.
Qed.

(** ** Appending *)

Definition placed (a : acache) : Prop := forall k c t n, a_where a !! k = Some (c, t, n) -> is_Some (log_at a c t !! n).

Lemma log_at_with a c t log c' t' : log_at (with_log a c t log) c' t' = if decide ((c', t') = (c, t)) then log else log_at a c' t'.
Proof using.
  unfold log_at, with_log. cbn [a_logs]. destruct (decide ((c', t') = (c, t))) as [E|E]; [by rewrite E, lookup_insert_eq|].
  by rewrite lookup_insert_ne by congruence.
Qed.

Lemma log_at_append a c t e c' t' :
  log_at (a_append a c t e) c' t' = if decide ((c', t') = (c, t)) then log_at a c t ++ [e] else log_at a c' t'.
Proof using. apply log_at_with. Qed.

Lemma a_find_append a c t e k : placed a ->
  a_find (a_append a c t e) k =
    if decide (k = (e_tenant e, e_key e)) then Some (c, t, length (log_at a c t), e) else a_find a k.
Proof using.
  intros Hp. unfold a_find. change (a_where (a_append a c t e))
    with (<[(e_tenant e, e_key e):=(c, t, length (log_at a c t))]> (a_where a)).
  destruct (decide (k = (e_tenant e, e_key e))) as [->|Hne].
  - rewrite lookup_insert_eq. cbn. rewrite log_at_append, decide_True by done. by rewrite lookup_app_r, Nat.sub_diag by lia.
  - rewrite lookup_insert_ne by done. destruct (a_where a !! k) as [[[c' t'] n]|] eqn:E; [|done]. cbn.
    destruct (Hp k c' t' n E) as [e' E']. rewrite log_at_append. destruct (decide ((c', t') = (c, t))) as [[= -> ->]|]; [|done].
    by rewrite lookup_app_l by (by apply lookup_lt_Some in E').
Qed.

Lemma clean_append a c t e hl : clean_of (a_append a c t e) hl = clean_of a hl.
Proof using. unfold a_append, with_where, clean_of. cbn. destruct hl, (isHashLane (e_key e)); done. Qed.

Lemma known_append a c t e : known a -> (e_tenant e, e_key e) ∈ K -> known (a_append a c t e).
Proof using.
  intros Hk He k. cbn. destruct (decide (k = (e_tenant e, e_key e))) as [->|]; [done|]. rewrite lookup_insert_ne by done. apply Hk.
Qed.

Lemma placed_append a c t e : placed a -> placed (a_append a c t e).
Proof using.
  intros Hp k c' t' n. cbn. destruct (decide (k = (e_tenant e, e_key e))) as [->|].
  - rewrite lookup_insert_eq. intros [= <- <- <-]. rewrite log_at_append, decide_True by done. rewrite lookup_app_r, Nat.sub_diag by lia. by eexists.
  - rewrite lookup_insert_ne by done. intros E. destruct (Hp k c' t' n E) as [e' E']. rewrite log_at_append.
    destruct (decide _) as [[= -> ->]|]; [|by eexists]. rewrite lookup_app_l by (by apply lookup_lt_Some in E'). by eexists.
Qed.

Lemma indexed_append hl m a c t e k : known a -> placed a -> indexed hl m a -> k = (e_tenant e, e_key e) -> k ∈ K -> lane k = hl ->
  indexed hl (<[tg k:=enc c t (length (log_at a c t)) (e_exp e)]> m) (a_append a c t e).
Proof using HU.
  intros Hkn Hp [Hf Hm] -> HK Hl. set (k := (e_tenant e, e_key e)) in *. split.
  - intros k' c' t' n e' Ef Hl'. rewrite a_find_append in Ef by done. fold k in Ef.
    destruct (decide (k' = k)) as [->|Hne]; [injection Ef as <- <- <- <-; by rewrite lookup_insert_eq|].
    rewrite lookup_insert_ne; [by apply Hf|]. intros Et. apply Hne. symmetry. apply tg_inj; [done| |congruence|done].
    apply Hkn. unfold a_find in Ef. destruct (a_where a !! k'); [by eexists|done].
  - intros tag v Hv. apply lookup_insert_Some in Hv as [[<- _]|[_ Hv]].
    + exists k. split; [|done]. cbn. fold k. rewrite lookup_insert_eq. by eexists.
    + destruct (Hm tag v Hv) as (k' & Hw & Hl' & Ht). exists k'. split; [|done]. cbn.
      destruct (decide (k' = (e_tenant e, e_key e))) as [->|]; [rewrite lookup_insert_eq; by eexists|by rewrite lookup_insert_ne].
Qed.

Lemma indexed_append_other hl m a c t e : placed a -> indexed hl m a -> isHashLane (e_key e) <> hl -> indexed hl m (a_append a c t e).
Proof using.
  intros Hp [Hf Hm] Hl. split.
  - intros k' c' t' n e' Ef Hl'. rewrite a_find_append in Ef by done. destruct (decide _) as [->|]; [done|]. by apply Hf.
  - intros tag v Hv. destruct (Hm tag v Hv) as (k' & Hw & Hl' & Ht). exists k'. split; [|done]. cbn.
    rewrite lookup_insert_ne; [done|]. by intros <-.
Qed.

Lemma idx_append ns w x hl a c t e k : idx_rel w x hl a -> known a -> placed a -> k = (e_tenant e, e_key e) -> k ∈ K ->
  lane k = hl -> 0 < w -> a_where a !! k = None \/ clean_of a hl = true ->
  exists y, IndexSet ns x (tg k) (enc c t (length (log_at a c t)) (e_exp e)) = Ret y /\ idx_rel (w - 1) y hl (a_append a c t e) /\
    shardBits y = 8.
Proof using HU.
  intros (m & Hm & Hb & Hi & Hn) Hkn Hp Ek HK Hl Hw Hcl. destruct (tag_facts k HK) as [Htag _].
  pose proof (indexed_lookup hl m a k Hkn HK Hi Hl Hp) as Hlk.
  destruct (IndexSet_ok ns x m (clean_of a hl) (tg k) (enc c t (length (log_at a c t)) (e_exp e)) Hm Htag) as (y & E & Hy & Hny & Hby).
  - lia.
  - destruct Hcl as [Hno|]; [left|by right]. rewrite Hlk. unfold a_find. by rewrite Hno.
  - intros Hno. rewrite Hb. by apply (crowd_small hl m a).
  - exists y. split; [done|]. split; [|congruence]. eexists. split; [by rewrite clean_append|]. split; [congruence|].
    split; [by apply indexed_append|lia].
Qed.

Lemma idx_append_other w x hl a c t e : idx_rel w x hl a -> placed a -> isHashLane (e_key e) <> hl ->
  idx_rel (w - 1) x hl (a_append a c t e).
Proof using.
  intros (m & Hm & Hb & Hi & Hn) Hp Hl. exists m. rewrite clean_append. split; [done|]. split; [done|]. split; [|lia].
  by apply indexed_append_other.
Qed.

(** ** Usage *)

Definition entries_ok (a : acache) : Prop := forall c t, in_range c t -> Forall (entry_ok (st c)) (log_at a c t).

Lemma coords_elem c t : (c, t) ∈ coords <-> in_range c t.
Proof using. unfold coords, in_range. rewrite list_elem_of_In, in_prod_iff, !in_seq. lia. Qed.

Lemma NoDup_prod {A A'} (l : list A) (l' : list A') : NoDup l -> NoDup l' -> NoDup (list_prod l l').
Proof using.
  intros Hl Hl'. induction Hl as [|x l Hx Hl IH]; cbn; [constructor|]. apply NoDup_app. split; [|split; [|done]].
  - change (map (fun y => (x, y)) l') with ((fun y => (x, y)) <$> l'). apply NoDup_fmap_2; [by intros ? ? [= ->]|done].
  - intros [a b] Ha Hb. apply list_elem_of_In, in_map_iff in Ha as (y & [= <- <-] & _).
    apply list_elem_of_In, in_prod_iff in Hb as [Hb _]. by apply Hx, list_elem_of_In.
Qed.

Lemma coords_NoDup : NoDup coords.
Proof using. unfold coords. apply NoDup_prod; apply NoDup_seq. Qed.

Lemma usage_bound p a : entries_ok a -> 0 <= usage p a <= 2 ^ 48.
Proof using HC.
  intros He. unfold usage. pose proof (f_classes HC). pose proof (f_tiers HC).
  destruct (sum_bound (fun ct => log_usage p (cap ct.1) (log_at a ct.1 ct.2)) coords (2 ^ 44)) as [Hlo Hhi].
  - intros [c t] Hin. apply coords_elem in Hin. cbn. destruct (geo c) as [Hc Hs Hm]; [apply Hin|].
    pose proof (log_usage_bound p (cap c) (st c) (log_at a c t) ltac:(lia) ltac:(lia) (He c t Hin)). lia.
  - split; [done|]. unfold coords in *. rewrite length_prod, !length_seq in *. nia.
Qed.

Lemma usage_log p a a' c t : in_range c t ->
  (forall c' t', (c', t') <> (c, t) -> log_at a' c' t' = log_at a c' t') ->
  usage p a' = usage p a - log_usage p (cap c) (log_at a c t) + log_usage p (cap c) (log_at a' c t).
Proof using.
  intros Hr Hl. unfold usage.
  rewrite (sum_update (fun ct => log_usage p (cap ct.1) (log_at a ct.1 ct.2)) (fun ct => log_usage p (cap ct.1) (log_at a' ct.1 ct.2)) coords (c, t));
    [done|apply coords_NoDup|by apply coords_elem|].
  intros [c' t'] _ Hne. cbn. by rewrite Hl.
Qed.

Lemma usage_append p a c t e : in_range c t ->
  usage p (a_append a c t e) = usage p a + counted p e - default 0 (counted p <$> victim (cap c) (log_at a c t)).
Proof using.
  intros Hr. rewrite (usage_log p a _ c t Hr).
  - rewrite log_at_append, decide_True, log_usage_app by (done || pose proof (cap_pos c); lia). lia.
  - intros c' t' Hne. by rewrite log_at_append, decide_False.
Qed.

(** ** The manager's fields *)

Lemma region_at_set (cm : CacheManager B) c t r c' t' : is_Some (region_at cm c t) ->
  region_at (set_region cm c t r) c' t' = if decide ((c', t') = (c, t)) then Some r else region_at cm c' t'.
Proof using.
  unfold region_at, set_region. cbn [regions set_regions]. intros [r0 E].
  destruct (regions cm !! c) as [row|] eqn:Er; [|done]. cbn in E. apply lookup_lt_Some in E.
  destruct (decide ((c', t') = (c, t))) as [[= -> ->]|Hne].
  - rewrite list_lookup_alter_eq, Er. cbn. by apply list_lookup_insert_eq.
  - destruct (decide (c' = c)) as [->|Hc]; [|by rewrite list_lookup_alter_ne].
    rewrite list_lookup_alter_eq, Er. cbn. rewrite list_lookup_insert_ne; [done|]. congruence.
Qed.

Lemma first_at_least_range x i l n : first_at_least x i l = Some n -> (i <= n < i + length l)%nat.
Proof using.
  revert i. induction l as [|y l IH]; intros i; cbn [first_at_least length]; [done|]. destruct (x <=? y); [intros [= ->]; lia|].
  intros E. apply IH in E. lia.
Qed.

Lemma pick_range len ttl : in_range (a_class len) (a_tier ttl).
Proof using HC.
  pose proof (f_classes HC). pose proof (f_tiers HC). unfold in_range, a_class, a_tier.
  destruct (first_at_least len 0 classes) as [n|] eqn:E1, (first_at_least ttl 0 tiers) as [m|] eqn:E2; cbn;
    try apply first_at_least_range in E1; try apply first_at_least_range in E2; lia.
Qed.
End spec.

Arguments acache : clear implicits.
