(* ===== verification/CacheRefine.v ===== *)
(** * The cache manager implements the map of bounded logs

    Every operation of the manager keeps the relation [rel] of CacheSpec.v and
    answers what the abstract cache answers. *)

From S2P Require Import Prelude Bytes OpBuffer CacheIndex CacheBits CacheTrie CacheMem CacheIndexSpec Cache CacheTags CacheRegion CacheSpec.

Local Open Scope Z_scope.
Local Open Scope rah_scope.

Section refine.
Context {B : Type} `{!CacheBackend B}.
Context (H1 : Z -> byte_string -> Z) (mem : Z) (classes tiers : list Z) (limit : Z) (K : list ckey).
Context (HU : universe_ok H1 K) (HC : config_ok mem classes tiers limit).

Abbreviation tg k := (tagOf H1 k.1 k.2).
Abbreviation lane k := (isHashLane k.2).
Abbreviation cap c := (cap_of mem classes tiers (class_size classes c)).
Abbreviation st c := (regionStride (class_size classes c)).
Abbreviation rel := (CacheSpec.rel H1 mem classes tiers limit K).
Abbreviation in_range := (CacheSpec.in_range classes tiers).
Abbreviation usage := (CacheSpec.usage mem classes tiers).
Abbreviation enc := (CacheSpec.enc mem classes tiers).
Abbreviation idx_rel := (CacheSpec.idx_rel H1 mem classes tiers).
Abbreviation sp_of := (CacheSpec.sp_of H1).
Implicit Types (cm : CacheManager B) (a : acache B) (k : ckey).

Lemma rel_placed w cm a : rel w cm a -> placed a.
Proof using. intros H k c t n E. destruct (l_where _ _ _ _ _ _ _ _ _ H k c t n E) as (_ & e & Ee & _). by exists e. Qed.

Lemma rel_known w cm a : rel w cm a -> known K a.
Proof using.
  intros H k [[[c t] n] E]. destruct (l_where _ _ _ _ _ _ _ _ _ H k c t n E) as (_ & e & Ee & <-).
  eapply (l_keys _ _ _ _ _ _ _ _ _ H). by eapply list_elem_of_lookup_2.
Qed.

Lemma rel_entries w cm a : rel w cm a -> entries_ok classes tiers a.
Proof using.
  intros H c t Hr. destruct (l_regions _ _ _ _ _ _ _ _ _ H c t Hr) as (r & _ & Hok). exact (g_entries _ _ _ _ _ Hok).
Qed.

Lemma rel_usage w cm a p : rel w cm a -> 0 <= usage p a <= 2 ^ 48.
Proof using HC. intros H. apply (usage_bound mem classes tiers limit HC). by eapply rel_entries. Qed.

(** The back-pointer of a slab entry never names a live index entry. *)
Lemma canRecycle_ok w cm a e off g : rel w cm a -> (e_tenant e, e_key e) ∈ K -> sp_of e <> 0 ->
  canRecycle cm (sp_of e) off g = Ret true.
Proof using HU.
  intros H Hk Hne. pose proof (backptr_partial H1 K HU e Hk Hne) as Hb. unfold canRecycle.
  by rewrite (partial_not_live H1 mem classes tiers K HU w _ _ a _ off g (l_idx _ _ _ _ _ _ _ _ _ H _) (rel_known _ _ _ H) Hb).
Qed.

Lemma idx_of_set cm hl x hl' : idx_of (set_idx cm hl x) hl' = if bool_decide (hl' = hl) then x else idx_of cm hl'.
Proof using. by destruct hl, hl'. Qed.

(** The index after an append: the entry's lane is [y]. *)
Lemma idx_rel_append ns w cm a c t e : rel w cm a -> (e_tenant e, e_key e) ∈ K -> 0 < w ->
  a_where a !! (e_tenant e, e_key e) = None \/ clean_of a (isHashLane (e_key e)) = true ->
  exists y, SetTagGetPtr ns (idx_of cm (isHashLane (e_key e))) (tagOf H1 (e_tenant e) (e_key e)) (enc c t (length (log_at a c t)) (e_exp e))
      (if isHashLane (e_key e) then xPtrLaneHash else xPtrLaneTiny) = Ret (y, sp_of e) /\
    forall hl, idx_rel (w - 1) (if bool_decide (hl = isHashLane (e_key e)) then y else idx_of cm hl) hl (a_append a c t e).
Proof using HU.
  intros H Hk Hw Hcl. set (k := (e_tenant e, e_key e)) in *.
  destruct (idx_append H1 mem classes tiers K HU ns w (idx_of cm (lane k)) (lane k) a c t e k) as (y & E & Hy & Hby);
    [apply H|by eapply rel_known|by eapply rel_placed|done..|].
  exists y. unfold SetTagGetPtr. unfold k in E, Hy. cbn [fst snd] in E, Hy. rewrite E. cbn [obind]. split.
  - do 2 f_equal. destruct Hy as (m & (L & T & Hm & _) & _). rewrite (k_mask _ _ _ _ Hm), Hby. done.
  - intros hl. destruct (bool_decide_reflect (hl = isHashLane (e_key e))) as [->|Hne]; [done|].
    apply idx_append_other; [apply H|by eapply rel_placed|congruence].
Qed.

Lemma ptr_enc c t n exp (log : list aentry) : in_range c t -> n = zlen log ->
  PackSlabVal (Z.land (u8 (n / cap c)) 3) (ExpTrunc exp) (u8 (Z.of_nat c)) (u8 (Z.of_nat t)) (n mod cap c * st c)
  = enc c t (length log) exp.
Proof using HC.
  intros [Hc Ht] ->. pose proof (f_classes _ _ _ _ HC). pose proof (f_tiers _ _ _ _ HC). unfold CacheSpec.enc. rewrite land_3.
  rewrite (wrapu_small 8 (Z.of_nat c)), (wrapu_small 8 (Z.of_nat t)) by lia. f_equal. unfold wrapu. change (2 ^ 8) with 256. div_lia.
Qed.

(** *** Accounting *)

Lemma counter_sub cm o s t : getTenantCounter (subUsage cm o s) t = if t =? o then u64 (getTenantCounter cm o - s) else getTenantCounter cm t.
Proof using.
  unfold getTenantCounter at 1. unfold subUsage. cbn [tenantUsage set_usage]. destruct (Z.eqb_spec t o) as [->|].
  - by rewrite lookup_insert_eq.
  - by rewrite lookup_insert_ne by congruence.
Qed.

Lemma counter_add cm o s t : getTenantCounter (addUsage cm o s) t = if t =? o then u64 (getTenantCounter cm o + s) else getTenantCounter cm t.
Proof using.
  unfold getTenantCounter at 1. unfold addUsage. cbn [tenantUsage set_usage]. destruct (Z.eqb_spec t o) as [->|].
  - by rewrite lookup_insert_eq.
  - by rewrite lookup_insert_ne by congruence.
Qed.

(** Giving back the evicted entry. *)
Definition give_back (cm : CacheManager B) (old : option overwrittenEntry) : CacheManager B :=
  match old with
  | Some o => subUsage cm (o_tenantID o) (u16 (EntryHeaderSize + o_valueLen o))
  | None => cm
  end.

Lemma entries_append a c t e : entries_ok classes tiers a -> entry_ok (st c) e -> entries_ok classes tiers (a_append a c t e).
Proof using.
  intros Ha He c' t' Hr. rewrite log_at_append. destruct (decide _) as [[= -> ->]|]; [|by apply Ha].
  apply Forall_app. split; [by apply Ha|by apply Forall_singleton].
Qed.

Lemma append_usage_bound w cm a c t e : rel w cm a -> in_range c t -> entry_ok (st c) e -> forall p,
  0 <= usage p a + counted p e - default 0 (counted p <$> victim (cap c) (log_at a c t)) <= 2 ^ 48.
Proof using HC.
  intros H Hr He p. rewrite <- usage_append by done. apply (usage_bound mem classes tiers limit HC). apply entries_append; [|done].
  by eapply rel_entries.
Qed.

(** The counters after the evicted entry left and the new one came. *)
Lemma counters_ok w cm a cm1 c t e old : rel w cm a -> in_range c t -> old_of old (victim (cap c) (log_at a c t)) -> entry_ok (st c) e ->
  tenantUsage cm1 = tenantUsage cm -> globalUsed cm1 = globalUsed cm ->
  (forall o, getTenantCounter (addUsage (give_back cm1 old) (e_tenant e) (esize e)) o = usage (of_tenant o) (a_append a c t e)) /\
  globalUsed (addUsage (give_back cm1 old) (e_tenant e) (esize e)) = usage (fun _ => true) (a_append a c t e).
Proof using HC.
  intros H Hr Hold He Eu Eg. pose proof (geo mem classes tiers limit HC c (proj1 Hr)) as [Hc Hs _].
  assert (forall o, getTenantCounter cm1 o = usage (of_tenant o) a) as Hu.
  { intros o. rewrite <- (l_usage _ _ _ _ _ _ _ _ _ H). unfold getTenantCounter. by rewrite Eu. }
  pose proof (l_total _ _ _ _ _ _ _ _ _ H) as Ht. rewrite <- Eg in Ht.
  pose proof (append_usage_bound w cm a c t e H Hr He) as Hfin. destruct He as [_ Hlen].
  assert (0 <= esize e <= 2 ^ 16) as Hse by (unfold esize; lia).
  pose proof (rel_usage w cm a) as Hub. unfold give_back, EntryHeaderSize.
  destruct old as [o1|], (victim (cap c) (log_at a c t)) as [v|] eqn:Ev; try done.
  - destruct Hold as [-> ->]. assert (entry_ok (st c) v) as [_ Hlv].
    { unfold victim in Ev. destruct (_ <=? _); [|done]. eapply (Forall_lookup_1 _ _ _ _ (rel_entries _ _ _ H c t Hr)), Ev. }
    assert (u16 (16 + zlen (e_val v)) = esize v) as -> by (apply wrapu_small; unfold esize; lia).
    cbn [fmap option_fmap option_map default from_option id] in Hfin. unfold counted, of_tenant in *.
    split; [intros o; specialize (Hfin (fun e => e_tenant e =? o))|specialize (Hfin (fun _ => true))]; rewrite usage_append by done;
      rewrite Ev; cbn [fmap option_fmap option_map default from_option id]; unfold counted.
    + rewrite counter_add, !counter_sub, !Hu. unfold of_tenant. revert Hfin. specialize (Hub (fun e => e_tenant e =? o) H).
      destruct e as [te ? ? ?], v as [tv ? ? ?]. cbn [e_tenant].
      repeat match goal with |- context [?x =? ?y] => destruct (Z.eqb_spec x y); subst; try done end; intros Hfin;
        unfold wrapu; rewrite ?Zplus_mod_idemp_l, ?Z.mod_small by lia; lia.
    + cbn [addUsage subUsage globalUsed set_usage]. rewrite Ht. unfold wrapu. rewrite Zplus_mod_idemp_l, Z.mod_small; lia.
  - cbn [fmap option_fmap option_map default from_option id] in Hfin. unfold counted, of_tenant in *.
    split; [intros o; specialize (Hfin (fun e => e_tenant e =? o))|specialize (Hfin (fun _ => true))]; rewrite usage_append by done;
      rewrite Ev; cbn [fmap option_fmap option_map default from_option id]; unfold counted.
    + rewrite counter_add, !Hu. unfold of_tenant. revert Hfin. specialize (Hub (fun e => e_tenant e =? o) H).
      destruct e as [te ? ? ?]. cbn [e_tenant].
      repeat match goal with |- context [?x =? ?y] => destruct (Z.eqb_spec x y); subst; try done end; intros Hfin;
        unfold wrapu; rewrite ?Z.mod_small by lia; lia.
    + cbn [addUsage globalUsed set_usage]. rewrite Ht, u64_id; lia.
Qed.

(** *** Put *)

(** The manager after a store: only the region, the lane's index and the
    counters differ. *)
Lemma rel_store w cm a cm' c t e y r : rel w cm a -> in_range c t -> (e_tenant e, e_key e) ∈ K -> 0 < w ->
  (forall hl, idx_rel (w - 1) (if bool_decide (hl = isHashLane (e_key e)) then y else idx_of cm hl) hl (a_append a c t e)) ->
  region_ok sp_of (cap c) (st c) r (log_at a c t ++ [e]) ->
  (forall o, getTenantCounter cm' o = usage (of_tenant o) (a_append a c t e)) ->
  globalUsed cm' = usage (fun _ => true) (a_append a c t e) ->
  (forall c' t', region_at cm' c' t' = if decide ((c', t') = (c, t)) then Some r else region_at cm c' t') ->
  (forall hl, idx_of cm' hl = if bool_decide (hl = isHashLane (e_key e)) then y else idx_of cm hl) ->
  (sizeClasses cm', ttlTiers cm', tenantLimit cm', cleanSlots cm', backend cm', asyncQueue cm', eventCh cm', nowSec cm')
  = (sizeClasses cm, ttlTiers cm, tenantLimit cm, cleanSlots cm, backend cm, asyncQueue cm, eventCh cm, nowSec cm) ->
  rel (w - 1) cm' (a_append a c t e).
Proof using.
  intros H Hr Hk Hw Hidx Hreg Hu Hg Hra Hio [= E1 E2 E3 E4 E5 E6 E7 E8].
  constructor; rewrite ?E1, ?E2, ?E3, ?E4, ?E5, ?E6, ?E7, ?E8; try apply H; try done.
  - intros c' t' Hr'. rewrite Hra, log_at_append. destruct (decide ((c', t') = (c, t))) as [[= -> ->]|]; [by exists r|by apply H].
  - intros c' t' e' Hin. rewrite log_at_append in Hin. destruct (decide _) as [_|]; [|by eapply H].
    apply elem_of_app in Hin as [Hin|Hin]; [by eapply H|]. by apply list_elem_of_singleton in Hin as ->.
  - intros k c' t' n E. cbn in E. apply lookup_insert_Some in E as [[<- [= <- <- <-]]|[_ E]].
    + split; [done|]. exists e. rewrite log_at_append, decide_True by done. by rewrite lookup_app_r, Nat.sub_diag by lia.
    + destruct (l_where _ _ _ _ _ _ _ _ _ H k c' t' n E) as (Hr' & e' & Ee & Ek). split; [done|]. exists e'. split; [|done].
      rewrite log_at_append. destruct (decide _) as [[= -> ->]|]; [|done]. by apply lookup_app_l_Some.
  - intros hl. rewrite Hio. apply Hidx.
  - intros c' t'. pose proof (l_room _ _ _ _ _ _ _ _ _ H c' t'). pose proof (l_room _ _ _ _ _ _ _ _ _ H c t).
    rewrite log_at_append. destruct (decide _); [|lia]. rewrite length_app. cbn. lia.
Qed.

Lemma rel_same_region w cm a c t r : rel w cm a -> region_at cm c t = Some r -> rel w (set_region cm c t r) a.
Proof using.
  intros H E. constructor; try apply H. intros c' t' Hr. rewrite region_at_set by (by eexists).
  destruct (decide _) as [[= -> ->]|]; [|by apply H]. destruct (l_regions _ _ _ _ _ _ _ _ _ H c t Hr) as (r' & E' & Hok).
  exists r. split; [done|]. congruence.
Qed.

Lemma victim_key w cm a c t v : rel w cm a -> victim (cap c) (log_at a c t) = Some v -> (e_tenant v, e_key v) ∈ K.
Proof using.
  intros H Ev. unfold victim in Ev. destruct (_ <=? _); [|done]. eapply (l_keys _ _ _ _ _ _ _ _ _ H). by eapply list_elem_of_lookup_2.
Qed.

Lemma put_slab_ok ns w cm a k v ttl bok : let len := zlen v in let c := a_class classes len in let t := a_tier tiers ttl in
  let e := mkAE k.1 k.2 v (a_now a + ttl) in
  rel w cm a -> k ∈ K -> 0 < w -> 0 <= ttl -> a_now a + ttl < 2 ^ 32 -> len < 2 ^ 32 -> len <= st c - 16 ->
  a_where a !! k = None \/ clean_of a (lane k) = true ->
  exists cm' ptr, put_slab H1 ns cm k.1 k.2 v ttl bok = Ret (cm', (ptr, true)) /\ rel (w - 1) cm' (a_append a c t e).
Proof using HU HC.
  intros len c t e H Hk Hw Httl Hnow Hlen Hfit Hcl. pose proof (pick_range mem classes tiers limit HC len ttl) as Hr. fold c t in Hr.
  destruct (l_cfg _ _ _ _ _ _ _ _ _ H) as (Ec & Et & El). destruct (l_now _ _ _ _ _ _ _ _ _ H) as [En Hn].
  assert (expiry_of (nowSec cm) ttl = a_now a + ttl) as Ex.
  { unfold expiry_of. rewrite En. destruct (Z.eqb_spec ttl 0) as [->|]; [lia|]. apply wrapu_small. lia. }
  unfold put_slab, selectSizeClass, selectTTLTier. rewrite Ec, Et, Ex, (wrapu_small 32) by (fold len; lia).
  change (default (length classes - 1)%nat (first_at_least (Z.of_nat (length v)) 0 classes)) with c.
  change (default (length tiers - 1)%nat (first_at_least ttl 0 tiers)) with t.
  destruct (l_regions _ _ _ _ _ _ _ _ _ H c t Hr) as (r & Er & Hreg). rewrite Er.
  assert (entry_ok (st c) e) as He by (split; cbn; [lia|done]).
  assert ((e_tenant e, e_key e) = k) as Ek by (by destruct k).
  destruct (Write_ok sp_of (CacheSpec.sp_range H1) (cap c) (st c) (nowSec cm) r (log_at a c t) k.1 (keyMidOf k.2) v ttl (canRecycle cm) e)
    as (r1 & old & EW & Hreg1 & Hold); [done| |done..| |].
  { pose proof (l_room _ _ _ _ _ _ _ _ _ H c t). lia. }
  { intros v' Ev Hne off g. eapply canRecycle_ok; [done| |done]. by eapply victim_key. }
  rewrite EW. cbn [obind]. cbv zeta.
  destruct (idx_rel_append ns w cm a c t e H) as (y & ES & Hidx); [by rewrite Ek|done|by rewrite Ek|].
  change (match old with Some o => _ | None => _ end) with (give_back (set_region cm c t r1) old).
  assert (idx_of (give_back (set_region cm c t r1) old) (isHashLane k.2) = idx_of cm (isHashLane k.2)) as -> by (by destruct old).
  rewrite (ptr_enc c t _ (a_now a + ttl) (log_at a c t) Hr eq_refl). cbn [e_tenant e_key e e_exp] in ES. rewrite ES. cbn [obind].
  assert (exists r2, (if sp_of e =? 0 then Ret r1 else UpdateXSlotPtr r1 (zlen (log_at a c t) mod cap c * st c) (sp_of e)) = Ret r2 /\
    region_ok sp_of (cap c) (st c) r2 (log_at a c t ++ [e])) as (r2 & -> & Hreg2).
  { destruct (sp_of e =? 0); [by exists r1|]. eapply UpdateXSlotPtr_ok; [done| |].
    - by rewrite lookup_app_r, Nat.sub_diag by lia.
    - unfold resident. apply Z.leb_le. rewrite length_app. cbn. pose proof (cap_pos mem classes tiers c). lia. }
  cbn [obind]. eexists _, _. split; [reflexivity|].
  destruct (counters_ok w cm a (set_region cm c t r1) c t e old H Hr Hold He eq_refl eq_refl) as [Hu Hg].
  apply (rel_store w cm a _ c t e y r2); try done; [by rewrite Ek|..].
  - intros c' t'. transitivity (region_at (set_region (set_region cm c t r1) c t r2) c' t'); [by destruct old|].
    rewrite region_at_set by (rewrite region_at_set by (by eexists); rewrite decide_True by done; by eexists).
    destruct (decide _); [done|]. rewrite region_at_set by (by eexists). by rewrite decide_False.
  - intros hl. transitivity (idx_of (set_idx (give_back (set_region cm c t r1) old) (lane k) y) hl); [done|].
    rewrite idx_of_set. by destruct old.
  - by destruct old.
Qed.

Lemma put_slab_big ns w cm a k v ttl bok : rel w cm a -> zlen v < 2 ^ 32 -> st (a_class classes (zlen v)) - 16 < zlen v ->
  exists cm', put_slab H1 ns cm k.1 k.2 v ttl bok = Ret (cm', (0, bok)) /\ rel w cm' a.
Proof using HC.
  intros H Hlen Hbig. pose proof (pick_range mem classes tiers limit HC (zlen v) ttl) as Hr.
  destruct (l_cfg _ _ _ _ _ _ _ _ _ H) as (Ec & Et & _). unfold put_slab, selectSizeClass, selectTTLTier.
  rewrite Ec, Et, (wrapu_small 32) by lia. fold (a_class classes (zlen v)) (a_tier tiers ttl).
  destruct (l_regions _ _ _ _ _ _ _ _ _ H _ _ Hr) as (r & Er & Hreg). rewrite Er.
  pose proof (geo mem classes tiers limit HC _ (proj1 Hr)) as [_ Hs _].
  unfold RegionWrite, EntryHeaderSize. rewrite (g_stride _ _ _ _ _ Hreg), u64_id by lia. rewrite (proj2 (Z.ltb_lt _ _) Hbig). cbn [obind].
  eexists. split; [done|]. by apply rel_same_region.
Qed.

Lemma idx_rel_le w w' x hl a : w' <= w -> idx_rel w x hl a -> idx_rel w' x hl a.
Proof using. intros Hle (m & ? & ? & ? & ?). exists m. do 3 (split; [done|]). lia. Qed.

Lemma rel_le w w' cm a : w' <= w -> rel w cm a -> rel w' cm a.
Proof using.
  intros Hle H. constructor; try apply H.
  - intros hl. eapply idx_rel_le; [done|]. apply H.
  - intros c t. pose proof (l_room _ _ _ _ _ _ _ _ _ H c t). lia.
Qed.

Lemma touch_rel w cm a t : rel w cm a -> rel w (touch cm t) a.
Proof using.
  intros H. constructor; try apply H. intros o. rewrite <- (l_usage _ _ _ _ _ _ _ _ _ H). unfold getTenantCounter at 1, touch. cbn [tenantUsage set_usage].
  destruct (decide (o = t)) as [->|]; [by rewrite lookup_insert_eq|by rewrite lookup_insert_ne].
Qed.

Lemma rel_backend w cm a b q : rel w cm a -> rel w (set_backend cm b q) (with_backend a b q).
Proof using.
  intros H. constructor; try apply H. split; [done|]. split; [done|]. apply H.
Qed.

Lemma enqueueWrite_ok w cm a e : rel w cm a ->
  exists cm', enqueueWrite cm e = (cm', (a_write a e).2) /\ rel w cm' (a_write a e).1.
Proof using.
  intros H. destruct (l_back _ _ _ _ _ _ _ _ _ H) as (Eb & Eq & _). unfold enqueueWrite, a_write. rewrite Eb, Eq.
  destruct (length (a_queue a) <? asyncQueueSize)%nat; [|destruct (bSet (a_backend a) e) as [b ok]];
    (eexists; split; [done|]; by apply rel_backend).
Qed.

Lemma a_write_frame a e : a_where (a_write a e).1 = a_where a /\ a_now (a_write a e).1 = a_now a /\
  (forall hl, clean_of (a_write a e).1 hl = clean_of a hl).
Proof using. unfold a_write. destruct (_ <? _)%nat; [done|]. by destruct (bSet _ _). Qed.

Lemma put_ok ns w cm a k v ttl a' ok : rel w cm a -> k ∈ K -> 0 < w -> 0 <= ttl ->
  a_put mem classes tiers limit a k v ttl = Some (a', ok) ->
  exists cm' ptr, Cache_put H1 ns cm k.1 k.2 v ttl = Ret (cm', (ptr, ok)) /\ rel (w - 1) cm' a'.
Proof using HU HC.
  intros H Hk Hw Httl Ha. unfold a_put in Ha. destruct (_ || _) eqn:Eov in Ha; [done|]. apply orb_false_iff in Eov as [E1 E2].
  apply Z.leb_gt in E1, E2. unfold Cache_put. pose proof (touch_rel w cm a k.1 H) as Ht.
  destruct (l_cfg _ _ _ _ _ _ _ _ _ Ht) as (_ & _ & ->). rewrite (l_usage _ _ _ _ _ _ _ _ _ Ht).
  pose proof (rel_usage w _ a (of_tenant k.1) Ht). unfold EntryHeaderSize. rewrite u64_id by lia.
  destruct (_ && _) eqn:Eq; [injection Ha as <- <-; eexists _, _; split; [done|]; by apply (rel_le w); [lia|]|].
  destruct (l_now _ _ _ _ _ _ _ _ _ Ht) as [En Hn]. rewrite En.
  assert (expiry_of (a_now a) ttl = a_now a + ttl) as ->.
  { unfold expiry_of. destruct (Z.eqb_spec ttl 0) as [->|]; [lia|]. apply wrapu_small. lia. }
  set (be := mkEntry k.1 k.2 v (a_now a + ttl)) in *. destruct (enqueueWrite_ok w _ a be Ht) as (cm1 & -> & Hr1).
  destruct (a_write_frame a be) as (Fw & Fn & Fc). destruct (a_write a be) as [a1 bok]. cbn [fst snd] in *.
  destruct (Z.ltb_spec (st (a_class classes (zlen v)) - 16) (zlen v)) as [Hbig|Hfit].
  - destruct (bool_decide _) in Ha; [done|]. injection Ha as <- <-. destruct (put_slab_big ns w cm1 a1 k v ttl bok Hr1) as (cm2 & -> & Hr2); [lia..|].
    eexists _, _. split; [done|]. by apply (rel_le w); [lia|].
  - destruct (_ && _) eqn:Ecl in Ha; [done|]. injection Ha as <- <-. rewrite <- Fn in *.
    destruct (put_slab_ok ns w cm1 a1 k v ttl bok Hr1) as (cm2 & ptr & -> & Hr2); try done.
    + rewrite Fw, Fc in *. apply andb_false_iff in Ecl as [E%bool_decide_eq_false|E]; [left; by apply eq_None_not_Some|right].
      by destruct (clean_of a (lane k)).
    + by exists cm2, ptr.
Qed.

Lemma Put_ok ns w cm a k v ttl a' ok : rel w cm a -> k ∈ K -> 0 < w -> 0 <= ttl ->
  a_Put mem classes tiers limit a k v ttl = Some (a', ok) ->
  exists cm' ptr, Cache_Put H1 ns cm k.1 k.2 v ttl = Ret (cm', (ptr, ok)) /\ rel (w - 1) cm' a'.
Proof using HU HC.
  intros H Hk Hw Httl Ha. unfold a_Put in Ha. destruct (a_put _ _ _ _ a k v ttl) as [[a1 ok1]|] eqn:E; [|done]. injection Ha as <- <-.
  destruct (put_ok ns w cm a k v ttl a1 ok1 H Hk Hw Httl E) as (cm1 & ptr & Ep & Hr). unfold Cache_Put. rewrite Ep. cbn [obind].
  eexists _, _. split; [done|]. cbn [fst snd]. destruct ok1; [|done]. cbn [andb]. unfold enqueueEvent.
  destruct (l_back _ _ _ _ _ _ _ _ _ Hr) as (Eb & Eq & ->). destruct (_ <? _)%nat; [|done]. constructor; try apply Hr. done.
Qed.

(** *** Get *)

(** What the index says of a key. *)
Lemma lookup_ok w cm a k : rel w cm a -> k ∈ K ->
  IndexGet (idx_of cm (lane k)) (tg k) = Ret ((fun '(c, t, n, e) => enc c t n (e_exp e)) <$> a_find a k).
Proof using HU.
  intros H Hk. destruct (l_idx _ _ _ _ _ _ _ _ _ H (lane k)) as (m & Hm & _ & Hi & _). destruct (tag_facts H1 K HU k Hk) as [Ht _].
  rewrite (IndexGet_ok _ m _ (tg k) Hm Ht).
  by rewrite (indexed_lookup H1 mem classes tiers K HU (lane k) m a k (rel_known _ _ _ H) Hk Hi eq_refl (rel_placed _ _ _ H)).
Qed.

Lemma find_ok w cm a k c t n e : rel w cm a -> a_find a k = Some (c, t, n, e) ->
  in_range c t /\ log_at a c t !! n = Some e /\ (e_tenant e, e_key e) = k.
Proof using.
  intros H E. unfold a_find in E. destruct (a_where a !! k) as [[[c' t'] n']|] eqn:Ew; [|done]. cbn in E.
  destruct (l_where _ _ _ _ _ _ _ _ _ H k c' t' n' Ew) as (Hr & e' & Ee & Ek). rewrite Ee in E. cbn in E. by injection E as <- <- <- <-.
Qed.

Lemma enc_fields c t n exp : in_range c t ->
  Unpack (enc c t n exp) = ((Z.of_nat n / cap c) mod 4, ExpTrunc exp, xValTypeSlabRAM) /\
  UnpackSlab (enc c t n exp) = (Z.of_nat c, Z.of_nat t, Z.of_nat n mod cap c * st c).
Proof using HC.
  intros [Hc Ht]. pose proof (f_classes _ _ _ _ HC). pose proof (f_tiers _ _ _ _ HC).
  destruct (geo mem classes tiers limit HC c Hc) as [Hcap Hs Hm]. pose proof (Z.mod_pos_bound (Z.of_nat n) (cap c) ltac:(lia)).
  apply PackSlabVal_fields; [apply Z.mod_pos_bound; lia|apply ExpTrunc_range|lia|lia|nia].
Qed.

Lemma get_slab_ok w cm a k h : rel w cm a -> k ∈ K -> a_hit mem classes tiers a k = Some h -> get_slab H1 cm k.1 k.2 = Ret h.
Proof using HU HC.
  intros H Hk Ha. unfold get_slab. rewrite (lookup_ok w cm a k H Hk). cbn [obind]. unfold a_hit in Ha.
  destruct (a_find a k) as [[[[c t] n] e]|] eqn:Ef; cbn [fmap option_fmap option_map]; [|by injection Ha as <-].
  destruct (find_ok _ _ _ _ _ _ _ _ H Ef) as (Hr & Ee & Ek). destruct (enc_fields c t n (e_exp e) Hr) as [-> ->].
  change (xValTypeSlabRAM =? xValTypeSlabRAM) with true. cbn iota. rewrite !Nat2Z.id.
  destruct (l_regions _ _ _ _ _ _ _ _ _ H c t Hr) as (r & Er & Hreg). rewrite Er.
  destruct (l_now _ _ _ _ _ _ _ _ _ H) as [-> Hn]. rewrite <- Ek. cbn [snd].
  rewrite (Read_ok sp_of (cap c) (st c) (a_now a) r (log_at a c t) n e Hreg Ee).
  - destruct (resident (cap c) (log_at a c t) n); cbn [andb]; [by destruct (same_window _ _); simplify_eq|].
    destruct (_ <=? _); [by injection Ha as <-|done].
  - lia.
  - unfold resident in Ha. destruct (Z.leb_spec (zlen (log_at a c t)) (Z.of_nat n + cap c)); [pose proof (cap_pos mem classes tiers c); lia|].
    destruct (Z.leb_spec (zlen (log_at a c t)) (Z.of_nat n + 4 * cap c)); [done|by simplify_eq].
  - intros Hres. rewrite Hres in Ha. destruct (same_window (e_exp e) (a_now a)) eqn:Es; [|done]. by apply Z.eqb_eq in Es.
Qed.

Lemma CacheGet_ok ns w cm a k a' r : rel w cm a -> k ∈ K -> 0 < w -> a_get mem classes tiers limit a k = Some (a', r) ->
  exists cm', CacheGet H1 ns cm k.1 k.2 = Ret (cm', r) /\ rel (w - 1) cm' a'.
Proof using HU HC.
  intros H Hk Hw Ha. unfold a_get in Ha. destruct (a_hit _ _ _ a k) as [h|] eqn:Eh; [|done]. cbn [mbind option_bind] in Ha.
  unfold CacheGet. rewrite (get_slab_ok w cm a k h H Hk Eh). cbn [obind].
  destruct h as [v|]; [injection Ha as <- <-; eexists; split; [done|]; by apply (rel_le w); [lia|]|].
  destruct (l_back _ _ _ _ _ _ _ _ _ H) as (Eb & Eq & _). rewrite Eb, Eq. destruct (bGet (a_backend a) k.1 k.2) as [b [[v expiry]|]].
  2:{ injection Ha as <- <-. eexists. split; [done|]. apply (rel_le w); [lia|]. by apply rel_backend. }
  pose proof (rel_backend w cm a b (a_queue a) H) as Hb. set (a1 := with_backend a b (a_queue a)) in *.
  destruct (l_now _ _ _ _ _ _ _ _ _ Hb) as [-> Hn]. destruct (a_put _ _ _ _ a1 k v _) as [[a2 ok]|] eqn:Ep; [|done].
  assert (0 <= (if a_now a1 <? expiry then expiry - a_now a1 else 0)) as Httl by (destruct (Z.ltb_spec (a_now a1) expiry); lia).
  injection Ha as <- <-. destruct (put_ok ns w _ a1 k v _ a2 ok Hb Hk Hw Httl Ep) as (cm2 & ptr & E2 & H2).
  unfold Update. rewrite E2. cbn [obind fst]. by exists cm2.
Qed.

(** *** Exists and Incr *)

Lemma Exists_ok w cm a k b : rel w cm a -> k ∈ K -> a_exists mem classes tiers a k = Some b -> Exists H1 cm k.1 k.2 = Ret b.
Proof using HU HC.
  intros H Hk Ha. unfold Exists. rewrite (lookup_ok w cm a k H Hk). cbn [obind]. unfold a_exists in Ha.
  destruct (a_find a k) as [[[[c t] n] e]|] eqn:Ef; cbn [fmap option_fmap option_map]; [|by injection Ha as <-].
  destruct (find_ok _ _ _ _ _ _ _ _ H Ef) as (Hr & Ee & Ek). destruct (enc_fields c t n (e_exp e) Hr) as [-> _].
  change (negb (xValTypeSlabRAM =? xValTypeSlabRAM)) with false. cbn iota. destruct (l_now _ _ _ _ _ _ _ _ _ H) as [-> Hn].
  destruct (same_window (e_exp e) (a_now a)) eqn:Es; [|done]. apply Z.eqb_eq in Es.
  assert ((a_now a / 32 <=? e_exp e / 32) = b) as <- by (destruct (_ / 32 <=? _); [destruct (_ && _)|]; congruence).
  destruct (Forall_lookup_1 _ _ _ _ (rel_entries _ _ _ H c t Hr) Ee) as [Hpos _].
  rewrite ExpTruncExpired_window by (done || lia). by rewrite Z.leb_antisym.
Qed.

Lemma bumped_find a c t n e delta k c' t' n' e' : log_at a c t !! n = Some e ->
  a_find (with_log a c t (<[n:=bumped e delta]> (log_at a c t))) k = Some (c', t', n', e') ->
  exists e0, a_find a k = Some (c', t', n', e0) /\ e_exp e' = e_exp e0.
Proof using.
  intros Ee E. unfold a_find in *. change (a_where (with_log a c t _)) with (a_where a) in E.
  destruct (a_where a !! k) as [[[c1 t1] n1]|]; [|done]. cbn in E |- *. rewrite log_at_with in E.
  destruct (decide ((c1, t1) = (c, t))) as [[= -> ->]|].
  - destruct (<[n:=bumped e delta]> (log_at a c t) !! n1) as [e1|] eqn:E1; [|done]. injection E as <- <- <- <-.
    apply list_lookup_insert_Some in E1 as [(<- & <- & _)|[_ E1]]; [rewrite Ee|rewrite E1]; by eexists.
  - destruct (log_at a c1 t1 !! n1) as [e1|]; [|done]. injection E as <- <- <- <-. by eexists.
Qed.

Lemma rel_bumped w cm a c t n e delta r : rel w cm a -> in_range c t -> log_at a c t !! n = Some e -> zlen (e_val e) = 8 ->
  region_ok sp_of (cap c) (st c) r (<[n:=bumped e delta]> (log_at a c t)) ->
  rel w (set_region cm c t r) (with_log a c t (<[n:=bumped e delta]> (log_at a c t))).
Proof using.
  intros H Hr Ee E8 Hreg. set (a' := with_log a c t _).
  assert (forall c' t', (c', t') <> (c, t) -> log_at a' c' t' = log_at a c' t') as Hother.
  { intros c' t' Hne. unfold a'. by rewrite log_at_with, decide_False. }
  assert (log_at a' c t = <[n:=bumped e delta]> (log_at a c t)) as Hlog by (unfold a'; by rewrite log_at_with, decide_True).
  assert (forall p, counted p (bumped e delta) = counted p e -> usage p a' = usage p a) as Hus.
  { intros p Hp. rewrite (usage_log mem classes tiers p a a' c t Hr Hother), Hlog, (log_usage_insert p (cap c) _ n e) by done. lia. }
  assert (esize (bumped e delta) = esize e) as Hes by (unfold esize; cbn [bumped e_val]; rewrite to_le8_length; lia).
  assert (is_Some (region_at cm c t)) as Hsome by (destruct (l_regions _ _ _ _ _ _ _ _ _ H c t Hr) as (r0 & -> & _); by eexists).
  constructor; try apply H.
  - intros c' t' Hr'. rewrite region_at_set by done. destruct (decide ((c', t') = (c, t))) as [[= -> ->]|Hne]; [rewrite Hlog; by exists r|].
    rewrite Hother by done. by apply H.
  - intros c' t' e' Hin. destruct (decide ((c', t') = (c, t))) as [[= -> ->]|Hne]; [|rewrite Hother in Hin by done; by eapply H].
    rewrite Hlog in Hin. apply list_elem_of_lookup_1 in Hin as [i Hi].
    apply list_lookup_insert_Some in Hi as [(_ & <- & _)|[_ Hi]]; [cbn [bumped e_tenant e_key]|];
      eapply (l_keys _ _ _ _ _ _ _ _ _ H); by eapply list_elem_of_lookup_2.
  - intros k c' t' n' E. destruct (l_where _ _ _ _ _ _ _ _ _ H k c' t' n' E) as (Hr' & e' & Ee' & Ek). split; [done|].
    destruct (decide ((c', t') = (c, t))) as [[= -> ->]|Hne]; [|rewrite Hother by done; by exists e'].
    rewrite Hlog. destruct (decide (n' = n)) as [->|Hn]; [|rewrite list_lookup_insert_ne by done; by exists e'].
    exists (bumped e delta). rewrite list_lookup_insert_eq by (by apply lookup_lt_Some in Ee). split; [done|]. cbn. congruence.
  - intros hl. destruct (l_idx _ _ _ _ _ _ _ _ _ H hl) as (m & Hm & Hb & [Hf Hi] & Hn). exists m. do 2 (split; [done|]). split; [|done].
    split; [|done]. intros k c' t' n' e' Ef Hl. destruct (bumped_find a c t n e delta k c' t' n' e' Ee Ef) as (e0 & E0 & ->). by apply Hf.
  - intros o. rewrite Hus; [apply H|]. unfold counted, of_tenant. by rewrite Hes.
  - rewrite Hus; [apply H|]. unfold counted. by rewrite Hes.
  - intros c' t'. pose proof (l_room _ _ _ _ _ _ _ _ _ H c' t'). destruct (decide ((c', t') = (c, t))) as [[= -> ->]|Hne]; [|by rewrite Hother].
    by rewrite Hlog, length_insert.
Qed.

Lemma Incr_ok ns w cm a k delta ttl a' r : rel w cm a -> k ∈ K -> 0 < w -> 0 <= ttl ->
  a_incr mem classes tiers limit a k delta ttl = Some (a', r) ->
  exists cm', Incr H1 ns cm k.1 k.2 delta ttl = Ret (cm', r) /\ rel (w - 1) cm' a'.
Proof using HU HC.
  intros H Hk Hw Httl Ha. unfold Incr.
  assert (forall a1 r1, (r ← a_Put mem classes tiers limit a k (to_le8 delta) ttl; Some (r.1, if r.2 : bool then Some delta else None)) = Some (a1, r1) ->
    exists cm', (p <-- Cache_Put H1 ns cm k.1 k.2 (to_le8 delta) ttl ;; let '(cm, (_, ok)) := p in Ret (cm, if ok : bool then Some delta else None))
      = Ret (cm', r1) /\ rel (w - 1) cm' a1) as Hinit.
  { intros a1 r1 E. destruct (a_Put _ _ _ _ a k (to_le8 delta) ttl) as [[a2 ok]|] eqn:Ep; [|done]. injection E as <- <-.
    destruct (Put_ok ns w cm a k (to_le8 delta) ttl a2 ok H Hk Hw Httl Ep) as (cm' & ptr & -> & Hr). by exists cm'. }
  unfold a_incr in Ha. unfold incr_found. rewrite (lookup_ok w cm a k H Hk). cbn [obind].
  destruct (a_find a k) as [[[[c t] n] e]|] eqn:Ef; cbn [fmap option_fmap option_map]; [|by apply Hinit].
  destruct (find_ok _ _ _ _ _ _ _ _ H Ef) as (Hr & Ee & Ek). destruct (enc_fields c t n (e_exp e) Hr) as [-> ->].
  change (xValTypeSlabRAM =? xValTypeSlabRAM) with true. cbn iota. rewrite !Nat2Z.id.
  destruct (l_regions _ _ _ _ _ _ _ _ _ H c t Hr) as (rg & Er & Hreg). rewrite Er. destruct (l_now _ _ _ _ _ _ _ _ _ H) as [En _]. rewrite En.
  destruct (resident (cap c) (log_at a c t) n) eqn:Hres; [|done].
  destruct (incr_slot_ok sp_of (cap c) (st c) (a_now a) rg (log_at a c t) n e delta Hreg Ee Hres ltac:(done)) as (rg' & -> & Hreg').
  cbn [obind]. destruct ((a_now a <? e_exp e) && (zlen (e_val e) =? 8)) eqn:Eg; [|by apply Hinit].
  injection Ha as <- <-. cbn [obind]. eexists. split; [done|]. apply (rel_le w); [lia|].
  apply andb_prop in Eg as [_ E8%Z.eqb_eq]. apply rel_bumped; auto.
Qed.

(** *** Invalidation *)

Lemma find_None w cm a k : rel w cm a -> a_find a k = None <-> a_where a !! k = None.
Proof using.
  intros H. unfold a_find. destruct (a_where a !! k) as [[[c t] n]|] eqn:E; [|done]. cbn.
  destruct (rel_placed _ _ _ H k c t n E) as [e ->]. done.
Qed.

Lemma indexed_delete w cm a hl m k b : rel w cm a -> indexed H1 mem classes tiers hl m a -> k ∈ K -> lane k = hl ->
  indexed H1 mem classes tiers hl (delete (tg k) m) (with_where a (delete k (a_where a)) hl b).
Proof using HU.
  intros H [Hf Hi] Hk Hl. set (a' := with_where _ _ _ _).
  assert (forall k', k' <> k -> a_find a' k' = a_find a k' /\ a_where a' !! k' = a_where a !! k') as Hsame.
  { intros k' Hne. unfold a_find. unfold a'. cbn [with_where a_where]. by rewrite lookup_delete_ne. }
  split.
  - intros k' c t n e Ef Hl'. destruct (decide (k' = k)) as [->|Hne].
    { unfold a_find, a' in Ef. cbn [with_where a_where] in Ef. by rewrite lookup_delete_eq in Ef. }
    destruct (Hsame k' Hne) as [Es Ew]. rewrite Es in Ef. rewrite lookup_delete_ne; [by apply Hf|].
    intros Et. apply Hne. symmetry. apply (tg_inj H1 K HU); [done| |congruence|done].
    apply (rel_known _ _ _ H). unfold a_find in Ef. destruct (a_where a !! k'); [by eexists|done].
  - intros tag v Hv. apply lookup_delete_Some in Hv as [Hne Hv]. destruct (Hi tag v Hv) as (k' & Hw & Hl' & <-).
    exists k'. split; [|done]. destruct (Hsame k') as [_ ->]; [by intros ->|done].
Qed.

Lemma InvalidateLocal_ok ns w cm a k : rel w cm a -> k ∈ K ->
  exists cm', InvalidateLocal H1 ns cm k.1 k.2 = Ret (cm', (a_invalidate a k).2) /\ rel w cm' (a_invalidate a k).1.
Proof using HU.
  intros H Hk. unfold InvalidateLocal, deleteKey, a_invalidate. set (a1 := with_where _ _ _ _).
  destruct (l_idx _ _ _ _ _ _ _ _ _ H (lane k)) as (m & Hm & Hb & Hi & Hn). destruct (tag_facts H1 K HU k Hk) as [Ht _].
  destruct (IndexDelete_ok ns _ m _ (tg k) Hm Ht) as (y & -> & Hy & Hny & Hby). cbn [obind fst snd].
  assert (rel w (set_idx cm (lane k) y) a1) as Hr.
  { constructor; try apply H.
    - intros k' c t n E. unfold a1 in E. cbn in E. apply lookup_delete_Some in E as [_ E]. by apply (l_where _ _ _ _ _ _ _ _ _ H k').
    - intros hl. rewrite idx_of_set. destruct (bool_decide_reflect (hl = lane k)) as [->|Hne].
      + exists (delete (tg k) m). split.
        * rewrite (indexed_lookup H1 mem classes tiers K HU (lane k) m a k (rel_known _ _ _ H) Hk Hi eq_refl (rel_placed _ _ _ H)) in Hy.
          assert (clean_of a1 (lane k) = clean_of a (lane k) && bool_decide (a_where a !! k = None)) as -> by (unfold a1; by destruct (lane k)).
          erewrite (bool_decide_ext (a_where a !! k = None)); [exact Hy|]. rewrite fmap_None. symmetry. by eapply find_None.
        * split; [congruence|]. split; [|lia]. by eapply indexed_delete.
      + destruct (l_idx _ _ _ _ _ _ _ _ _ H hl) as (m2 & Hm2 & Hb2 & [Hf2 Hi2] & Hn2). exists m2. split; [|split; [done|split; [|done]]].
        * replace (clean_of a1 hl) with (clean_of a hl); [done|]. unfold a1. by destruct hl, (lane k).
        * split.
          -- intros k' c t n e Ef Hl. apply Hf2; [|done]. unfold a_find, a1 in Ef. cbn in Ef.
             rewrite lookup_delete_ne in Ef; [done|]. by intros <-.
          -- intros tag v Hv. destruct (Hi2 tag v Hv) as (k' & Hw & Hl & Et). exists k'. split; [|done]. unfold a1. cbn.
             rewrite lookup_delete_ne; [done|]. by intros <-. }
  destruct (l_back _ _ _ _ _ _ _ _ _ Hr) as (-> & -> & _). destruct (bDelete (a_backend a1) k.1 k.2) as [b ok].
  eexists. split; [done|]. cbn [fst]. by apply rel_backend.
Qed.

(** *** The cleaner *)

Lemma rel_idx w cm a hl y : rel w cm a -> idx_rel w y hl a -> rel w (set_idx cm hl y) a.
Proof using.
  intros H Hy. constructor; try apply H. intros hl'. rewrite idx_of_set.
  destruct (bool_decide_reflect (hl' = hl)) as [->|]; [done|apply H].
Qed.

(** Every slot is unused or holds an entry of the log. *)
Lemma slot_content c r log i : region_ok sp_of (cap c) (st c) r log -> 0 <= i < count r ->
  exists s, headerAt r (i * st c) = Ret s /\ (Expiry (hdr s) = 0 \/ exists e g, e ∈ log /\ holds sp_of s e g).
Proof using.
  intros Hok Hi. pose proof (g_geo _ _ _ _ _ Hok) as [Hc Hs _]. pose proof (g_range _ _ _ _ _ Hok) as Hr.
  destruct (lookup_lt_is_Some_2 (buf r) (Z.to_nat i)) as [s Es]; [pose proof (g_count _ _ _ _ _ Hok); lia|].
  exists s. split; [apply headerAt_slot; [apply Hok|lia|lia|done]|].
  destruct (Z_lt_le_dec i (zlen log)) as [Hlt|Hge]; [right|left; apply (g_new _ _ _ _ _ Hok _ _ Es); lia].
  destruct (lookup_lt_is_Some_2 log (Z.to_nat i)) as [e Ee]; [lia|].
  destruct (occupant sp_of _ _ _ _ _ _ Hok Ee) as (j & e' & s' & _ & _ & E' & _ & _ & Es' & Hh).
  rewrite Z2Nat.id, Z.mod_small in Es' by lia. assert (s' = s) as -> by congruence.
  exists e', (Z.of_nat (Z.to_nat i) / cap c + j). split; [|done]. by eapply list_elem_of_lookup_2.
Qed.

Lemma sweep_slots_ok w c r log n : region_ok sp_of (cap c) (st c) r log -> (forall e, e ∈ log -> (e_tenant e, e_key e) ∈ K) ->
  forall i cm a start now cl, rel w cm a ->
  exists cm', sweep_slots n i r start now cm cl = Ret (cm', cl) /\ rel w cm' a /\ cleanSlots cm' = cleanSlots cm.
Proof using HU.
  intros Hok Hlog. pose proof (g_geo _ _ _ _ _ Hok) as [Hc Hs Hm]. pose proof (g_range _ _ _ _ _ Hok) as Hr.
  induction n as [|n IH]; intros i cm a start now cl H; cbn [sweep_slots]; [by exists cm|].
  set (slot := u64 (start + i) mod count r). assert (0 <= slot < count r) as Hslot by (apply Z.mod_pos_bound; lia).
  rewrite (g_stride _ _ _ _ _ Hok), u64_id by nia. destruct (slot_content c r log slot Hok Hslot) as (s & -> & Hs'). cbn [obind].
  destruct ((Expiry (hdr s) =? 0) || (now <=? Expiry (hdr s))) eqn:Ee; [by apply IH|].
  destruct Hs' as [E0|(e & g & Hin & Hh)]; [by rewrite E0 in Ee|].
  destruct (from6_ptr sp_of (CacheSpec.sp_range H1) _ _ (h_ptr _ _ _ _ Hh)) as [-> | ->]; [by apply IH|].
  destruct (Z.eqb_spec (sp_of e) 0) as [_|Hne]; [by apply IH|].
  pose proof (backptr_partial H1 K HU e (Hlog e Hin) Hne) as Hb. set (hl := negb (laneBit (sp_of e) =? 0)).
  destruct (partial_not_swept H1 mem classes tiers K HU w (idx_of cm hl) hl a (tagBits (sp_of e)) (slot * st c)
    (Z.land (Gen (hdr s)) 3) (l_idx _ _ _ _ _ _ _ _ _ H hl) (rel_known _ _ _ H) Hb) as (y & -> & Hy). cbn [obind fst snd].
  destruct (IH (i + 1) (set_idx cm hl y) a start now cl (rel_idx _ _ _ _ _ H Hy)) as (cm' & -> & Hr' & Hcs). by exists cm'.
Qed.

Lemma sweepBatch_ok w cm a c t now : rel w cm a -> in_range c t -> exists cm', sweepBatch cm c t now = Ret (cm', 0) /\ rel w cm' a.
Proof using HU.
  intros H Hr. unfold sweepBatch. destruct (l_regions _ _ _ _ _ _ _ _ _ H c t Hr) as (r & -> & Hok).
  destruct (l_clean _ _ _ _ _ _ _ _ _ H c t Hr) as (start & Es & Hst). rewrite Es.
  pose proof (g_range _ _ _ _ _ Hok) as Hrg. destruct (Z.eqb_spec (count r) 0); [lia|].
  destruct (sweep_slots_ok w c r _ (Z.to_nat cleanerBatchSize) Hok (l_keys _ _ _ _ _ _ _ _ _ H c t) 0 cm a start now 0 H) as (cm' & -> & Hr' & Hcs).
  cbn [obind fst snd]. eexists. split; [done|]. constructor; try apply Hr'. intros c' t' Hr2. rewrite Hcs. cbn [cleanSlots set_clean].
  assert (0 <= u64 (start + cleanerBatchSize) mod count r) as Hpos by (apply Z.mod_pos_bound; lia).
  destruct (l_clean _ _ _ _ _ _ _ _ _ H c' t' Hr2) as (s' & Es' & Hs').
  destruct (cleanSlots cm !! c) as [row|] eqn:Erow; [|done]. cbn in Es. apply lookup_lt_Some in Es.
  destruct (decide (c' = c)) as [->|Hne]; [|rewrite list_lookup_alter_ne by done; by exists s'].
  rewrite list_lookup_alter_eq, Erow. cbn. rewrite Erow in Es'. cbn in Es'. destruct (decide (t' = t)) as [->|Hnt].
  - rewrite list_lookup_insert_eq by done. by eexists.
  - rewrite list_lookup_insert_ne by done. by exists s'.
Qed.

(** *** Batches *)

Lemma a_Put_now a k v ttl a' ok : a_Put mem classes tiers limit a k v ttl = Some (a', ok) -> a_now a + ttl < 2 ^ 32 /\ a_now a' = a_now a.
Proof using.
  intros E. unfold a_Put in E. destruct (a_put _ _ _ _ a k v ttl) as [[a1 ok1]|] eqn:Ep; [|done]. injection E as <- <-.
  unfold a_put in Ep. destruct (_ || _) eqn:Eov in Ep; [done|]. apply orb_false_iff in Eov as [Eov%Z.leb_gt _]. split; [done|].
  assert (a_now a1 = a_now a) as <-.
  { match type of Ep with (if ?b then _ else _) = _ => destruct b end; [by injection Ep as <- <-|]. set (be := mkEntry k.1 k.2 v (a_now a + ttl)) in *.
    destruct (a_write_frame a be) as (_ & Fn & _). destruct (a_write a be) as [a2 ok2]. cbn [fst] in Fn.
    match type of Ep with (if ?b then _ else _) = _ => destruct b end; [destruct (bool_decide _); [done|by injection Ep as <- <-]|].
    match type of Ep with (if ?b then _ else _) = _ => destruct b end; [done|]. by injection Ep as <- <-. }
  cbn [fst snd]. destruct ok1; cbn [andb]; [|done]. by destruct (_ <? _)%nat.
Qed.

Definition sub_ok (op : Submitted) : Prop := (su_tenant op, su_key op) ∈ K /\ 0 <= su_ttl op.

Lemma submit_ops_ok ns w cm a ops puts rs a' puts' rs' : rel w cm a -> Forall sub_ok ops -> zlen ops <= w ->
  a_submit_ops mem classes tiers limit a ops puts rs = Some (a', puts', rs') ->
  exists cm', submit_ops H1 ns cm ops puts rs = Ret (cm', puts', rs') /\ rel (w - zlen ops) cm' a'.
Proof using HU HC.
  intros H Hok. revert w cm a puts rs H. induction Hok as [|op ops [Hk Httl] _ IH]; intros w cm a puts rs H Hw Ha; cbn [submit_ops a_submit_ops length] in *.
  { injection Ha as <- <- <-. exists cm. split; [done|]. by rewrite Z.sub_0_r. }
  destruct (su_type op).
  - destruct (a_Put _ _ _ _ a (su_tenant op, su_key op) (su_value op) (su_ttl op)) as [[a1 ok]|] eqn:Ep; [|done]. cbn in Ha.
    destruct (Put_ok ns w cm a (su_tenant op, su_key op) (su_value op) (su_ttl op) a1 ok H Hk ltac:(lia) Httl Ep) as (cm1 & ptr & Ec & Hr).
    cbn [fst snd] in Ec. rewrite Ec. cbn [obind fst].
    destruct (a_Put_now _ _ _ _ _ _ Ep) as [Hlt En]. destruct (l_now _ _ _ _ _ _ _ _ _ Hr) as [-> Hn]. rewrite En in *.
    replace (if 0 <? su_ttl op then u32 (a_now a + su_ttl op) else 0) with (if 0 <? su_ttl op then a_now a + su_ttl op else 0)
      by (destruct (Z.ltb_spec 0 (su_ttl op)); [|done]; rewrite (wrapu_small 32); lia).
    destruct (IH (w - 1) cm1 a1 _ _ Hr ltac:(lia) Ha) as (cm2 & -> & Hr2). exists cm2. split; [done|].
    by replace (w - Z.of_nat (S (length ops))) with (w - 1 - zlen ops) by lia.
  - destruct (a_get _ _ _ _ a (su_tenant op, su_key op)) as [[a1 r]|] eqn:Ep; [|done]. cbn in Ha.
    destruct (CacheGet_ok ns w cm a (su_tenant op, su_key op) a1 r H Hk ltac:(lia) Ep) as (cm1 & Ec & Hr).
    cbn [fst snd] in Ec. rewrite Ec. cbn [obind fst snd].
    destruct (IH (w - 1) cm1 a1 _ _ Hr ltac:(lia) Ha) as (cm2 & -> & Hr2). exists cm2. split; [done|].
    by replace (w - Z.of_nat (S (length ops))) with (w - 1 - zlen ops) by lia.
Qed.

Lemma Submit_ok ns w cm a ops a' rs : rel w cm a -> Forall sub_ok ops -> zlen ops <= w ->
  a_submit mem classes tiers limit a ops = Some (a', rs) ->
  exists cm', Submit H1 ns cm ops = Ret (cm', rs) /\ rel (w - zlen ops) cm' a'.
Proof using HU HC.
  intros H Hok Hw Ha. unfold a_submit in Ha. destruct (a_submit_ops _ _ _ _ a ops [] []) as [[[a1 puts] rs1]|] eqn:E; [|done].
  injection Ha as <- <-. destruct (submit_ops_ok ns w cm a ops [] [] a1 puts rs1 H Hok Hw E) as (cm1 & E1 & Hr).
  unfold Submit. rewrite E1. cbn [obind]. eexists. split; [done|]. destruct puts as [|p puts]; [done|].
  destruct (l_back _ _ _ _ _ _ _ _ _ Hr) as (-> & -> & _). by apply rel_backend.
Qed.

(** ** Sequences of operations *)

Inductive cop : Type :=
| CPut (ns : Z) (k : ckey) (v : byte_string) (ttl : Z)
| CUpdate (ns : Z) (k : ckey) (v : byte_string) (ttl : Z)
| CGet (ns : Z) (k : ckey)
| CExists (k : ckey)
| CIncr (ns : Z) (k : ckey) (delta ttl : Z)
| CInvalidate (ns : Z) (k : ckey)
| CSubmit (ns : Z) (ops : list Submitted)
| CForget (tenant : Z)
| CSweep (c t : nat)
| CDrain
| CDispatch
| CTick (now : Z).

Inductive cans : Type :=
| ROk (b : bool)
| RVal (v : option byte_string)
| RInt (v : option Z)
| RMany (vs : list (option byte_string))
| RSwept (n : Z)
| REvent (ev : option WriteEvent)
| RDone.

Definition c_step (o : cop) (cm : CacheManager B) : outcome (CacheManager B * cans) :=
  match o with
  | CPut ns k v ttl => r <-- Cache_Put H1 ns cm k.1 k.2 v ttl ;; Ret (r.1, ROk r.2.2)
  | CUpdate ns k v ttl => r <-- Update H1 ns cm k.1 k.2 v ttl ;; Ret (r.1, ROk r.2.2)
  | CGet ns k => r <-- CacheGet H1 ns cm k.1 k.2 ;; Ret (r.1, RVal r.2)
  | CExists k => b <-- Exists H1 cm k.1 k.2 ;; Ret (cm, ROk b)
  | CIncr ns k delta ttl => r <-- Incr H1 ns cm k.1 k.2 delta ttl ;; Ret (r.1, RInt r.2)
  | CInvalidate ns k => r <-- InvalidateLocal H1 ns cm k.1 k.2 ;; Ret (r.1, ROk r.2)
  | CSubmit ns ops => r <-- Submit H1 ns cm ops ;; Ret (r.1, RMany r.2)
  | CForget t => let '(cm, ok) := DeleteTenant cm t in Ret (cm, ROk ok)
  | CSweep c t => r <-- sweepBatch cm c t (nowSec cm) ;; Ret (r.1, RSwept r.2)
  | CDrain => Ret (asyncWriteLoop cm, RDone)
  | CDispatch => let '(cm, ev) := eventDispatchLoop cm in Ret (cm, REvent ev)
  | CTick now => Ret (set_now cm now, RDone)
  end.

(** Forgetting a tenant is only promised once none of its entries is kept. *)
Definition ac_step (o : cop) (a : acache B) : option (acache B * cans) :=
  match o with
  | CPut _ k v ttl => r ← a_Put mem classes tiers limit a k v ttl; Some (r.1, ROk r.2)
  | CUpdate _ k v ttl => r ← a_put mem classes tiers limit a k v ttl; Some (r.1, ROk r.2)
  | CGet _ k => r ← a_get mem classes tiers limit a k; Some (r.1, RVal r.2)
  | CExists k => b ← a_exists mem classes tiers a k; Some (a, ROk b)
  | CIncr _ k delta ttl => r ← a_incr mem classes tiers limit a k delta ttl; Some (r.1, RInt r.2)
  | CInvalidate _ k => let '(a, ok) := a_invalidate a k in Some (a, ROk ok)
  | CSubmit _ ops => r ← a_submit mem classes tiers limit a ops; Some (r.1, RMany r.2)
  | CForget t =>
    if usage (of_tenant t) a =? 0
    then let '(b, ok) := bDeleteTenant (a_backend a) t in Some (with_backend a b (a_queue a), ROk ok) else None
  | CSweep _ _ => Some (a, RSwept 0)
  | CDrain => Some (match a_queue a with [] => a | q => with_backend a (bSetBatch (a_backend a) q) [] end, RDone)
  | CDispatch => Some (match a_events a with [] => (a, REvent None) | ev :: evs => (with_events a evs, REvent (Some ev)) end)
  | CTick now => Some (with_now a now, RDone)
  end.

Definition cop_ok (o : cop) : Prop :=
  match o with
  | CPut _ k _ ttl | CUpdate _ k _ ttl | CIncr _ k _ ttl => k ∈ K /\ 0 <= ttl
  | CGet _ k | CExists k | CInvalidate _ k => k ∈ K
  | CSubmit _ ops => Forall sub_ok ops
  | CSweep c t => in_range c t
  | CForget _ | CDrain | CDispatch => True
  | CTick now => 0 < now < 2 ^ 32
  end.

(** How many insertions an operation may make. *)
Definition cost (o : cop) : Z := match o with CSubmit _ ops => 1 + zlen ops | _ => 1 end.

Fixpoint ac_run (ops : list cop) (a : acache B) : option (list cans) :=
  match ops with
  | [] => Some []
  | o :: ops => r ← ac_step o a; rs ← ac_run ops r.1; Some (r.2 :: rs)
  end.

Lemma DeleteTenant_ok w cm a t : rel w cm a -> usage (of_tenant t) a = 0 ->
  exists cm', DeleteTenant cm t = (cm', (bDeleteTenant (a_backend a) t).2) /\
    rel w cm' (with_backend a (bDeleteTenant (a_backend a) t).1 (a_queue a)).
Proof using.
  intros H Hu. unfold DeleteTenant. cbn [backend set_usage asyncQueue]. destruct (l_back _ _ _ _ _ _ _ _ _ H) as (-> & -> & _).
  destruct (bDeleteTenant (a_backend a) t) as [b ok]. eexists. split; [done|]. cbn [fst]. apply rel_backend.
  constructor; try apply H. intros o. rewrite <- (l_usage _ _ _ _ _ _ _ _ _ H). unfold getTenantCounter at 1. cbn [tenantUsage set_usage].
  destruct (decide (o = t)) as [->|Hne]; [|by rewrite lookup_delete_ne].
  rewrite lookup_delete_eq. cbn. by rewrite (l_usage _ _ _ _ _ _ _ _ _ H).
Qed.

(** Background work of the queues and the clock. *)
Lemma queue_step_ok w cm a o a' r : rel w cm a -> cop_ok o -> ac_step o a = Some (a', r) ->
  match o with CDrain | CDispatch | CTick _ => True | _ => False end ->
  exists cm', c_step o cm = Ret (cm', r) /\ rel w cm' a'.
Proof using.
  intros H Ho Ha Hq. destruct (l_back _ _ _ _ _ _ _ _ _ H) as (Eb & Eq & Ev).
  destruct o; try done; cbn [c_step ac_step] in *.
  - injection Ha as <- <-. eexists. split; [done|]. unfold asyncWriteLoop. rewrite Eq. destruct (a_queue a) eqn:E; [done|]. rewrite Eb. by apply rel_backend.
  - unfold eventDispatchLoop. rewrite Ev. destruct (a_events a) as [|ev evs] eqn:E; injection Ha as <- <-; (eexists; split; [done|]); [done|].
    constructor; try apply H. done.
  - injection Ha as <- <-. eexists. split; [done|]. constructor; try apply H. done.
Qed.

Lemma c_step_ok w cm a o a' r : rel w cm a -> cop_ok o -> cost o <= w -> ac_step o a = Some (a', r) ->
  exists cm', c_step o cm = Ret (cm', r) /\ rel (w - cost o) cm' a'.
Proof using HU HC.
  intros H Ho Hw Ha.
  assert (forall x, (exists cm', x = Ret (cm', r) /\ rel w cm' a') -> exists cm', x = Ret (cm', r) /\ rel (w - cost o) cm' a') as Hsame.
  { intros x (cm' & -> & Hr). exists cm'. split; [done|]. apply (rel_le w); [|done]. destruct o; cbn in *; lia. }
  destruct o as [ns k v ttl|ns k v ttl|ns k|k|ns k delta ttl|ns k|ns ops|t|c t| | |now];
    try (apply Hsame, (queue_step_ok w cm a _ a' r H Ho Ha); exact I); cbn [c_step ac_step cop_ok cost] in *.
  - destruct (a_Put _ _ _ _ a k v ttl) as [[a1 ok]|] eqn:E; [|done]. injection Ha as <- <-. destruct Ho as [Hk Httl].
    destruct (Put_ok ns w cm a k v ttl a1 ok H Hk ltac:(lia) Httl E) as (cm' & ptr & -> & Hr). by exists cm'.
  - destruct (a_put _ _ _ _ a k v ttl) as [[a1 ok]|] eqn:E; [|done]. injection Ha as <- <-. destruct Ho as [Hk Httl].
    destruct (put_ok ns w cm a k v ttl a1 ok H Hk ltac:(lia) Httl E) as (cm' & ptr & Ep & Hr). unfold Update. rewrite Ep. by exists cm'.
  - destruct (a_get _ _ _ _ a k) as [[a1 v]|] eqn:E; [|done]. injection Ha as <- <-.
    destruct (CacheGet_ok ns w cm a k a1 v H Ho ltac:(lia) E) as (cm' & -> & Hr). by exists cm'.
  - destruct (a_exists mem classes tiers a k) as [b|] eqn:E; [|done]. injection Ha as <- <-. apply Hsame. rewrite (Exists_ok w cm a k b H Ho E). by exists cm.
  - destruct (a_incr _ _ _ _ a k delta ttl) as [[a1 v]|] eqn:E; [|done]. injection Ha as <- <-. destruct Ho as [Hk Httl].
    destruct (Incr_ok ns w cm a k delta ttl a1 v H Hk ltac:(lia) Httl E) as (cm' & -> & Hr). by exists cm'.
  - apply Hsame. destruct (InvalidateLocal_ok ns w cm a k H Ho) as (cm' & -> & Hr). destruct (a_invalidate a k) as [a1 ok].
    injection Ha as <- <-. by exists cm'.
  - destruct (a_submit _ _ _ _ a ops) as [[a1 rs]|] eqn:E; [|done]. injection Ha as <- <-.
    destruct (Submit_ok ns w cm a ops a1 rs H Ho ltac:(lia) E) as (cm' & -> & Hr). exists cm'. split; [done|].
    eapply rel_le; [|exact Hr]. lia.
  - apply Hsame. destruct (Z.eqb_spec (usage (of_tenant t) a) 0) as [Hu|]; [|done].
    destruct (DeleteTenant_ok w cm a t H Hu) as (cm' & -> & Hr). destruct (bDeleteTenant (a_backend a) t) as [b ok].
    injection Ha as <- <-. by exists cm'.
  - apply Hsame. injection Ha as <- <-. destruct (sweepBatch_ok w cm a c t (nowSec cm) H Ho) as (cm' & -> & Hr). by exists cm'.
Qed.

Lemma c_run_ok ops cm a w rs : rel w cm a -> Forall cop_ok ops -> sumZ (cost <$> ops) <= w -> ac_run ops a = Some rs ->
  answers c_step ops cm = Ret rs.
Proof using HU HC.
  revert cm a w rs. induction ops as [|o ops IH]; intros cm a w rs H Hok Hw Ha; cbn [ac_run answers] in *; [by injection Ha as <-|].
  apply Forall_cons in Hok as [Ho Hok]. cbn [fmap list_fmap sumZ foldr] in Hw. fold (sumZ (cost <$> ops)) in Hw.
  assert (0 <= sumZ (cost <$> ops)) as Hpos.
  { clear. induction ops as [|o ops IH]; [done|]. cbn. fold (sumZ (cost <$> ops)). assert (1 <= cost o) by (destruct o; cbn; lia).
    unfold sumZ, fmap, list_fmap in *. lia. }
  destruct (ac_step o a) as [[a' r]|] eqn:E; [|done]. cbn in Ha. destruct (ac_run ops a') as [rs'|] eqn:E'; [|done]. injection Ha as <-.
  unfold sumZ in *. cbn in Hw. destruct (c_step_ok w cm a o a' r H Ho ltac:(lia) E) as (cm' & -> & Hr). cbn [obind fst snd].
  rewrite (IH cm' a' (w - cost o) rs' Hr Hok) by (done || lia). done.
Qed.
End refine.
