(* ===== verification/CacheManagerSpec.v ===== *)
(** * The in-memory cache: the theorem and the limits of it *)

From S2P Require Import Prelude Bytes OpBuffer CacheIndex CacheBits CacheTrie CacheMem CacheIndexSpec Cache CacheTags CacheRegion CacheSpec CacheRefine.

Local Open Scope Z_scope.
Local Open Scope rah_scope.

Section create.
Context {B : Type} `{!CacheBackend B}.
Context (H1 : Z -> byte_string -> Z) (mem : Z) (classes tiers : list Z) (limit : Z) (K : list ckey).
Context (HC : config_ok mem classes tiers limit).

Definition empty_cache (now : Z) (b : B) : acache B := mkAC ∅ ∅ true true b [] [] now.

Abbreviation per_region := (mem / zlen (list_prod classes tiers)).

(** A region as the constructor makes it. *)
Definition fresh_region (sz ttl : Z) : Region :=
  mkRegion (make_buf 64 (regionStride sz)) 64 (regionStride sz) ttl 0 (cap_of mem classes tiers sz) 64.

Lemma NewRegion_ok sz ttl : 0 < sz <= 65512 -> NewRegion ttl (regionStride sz) (per_region / regionStride sz) = Ret (fresh_region sz ttl).
Proof using.
  intros Hs. pose proof (regionStride_bounds sz Hs). unfold NewRegion, initialSlots, fresh_region, cap_of.
  destruct (Z.eqb_spec (regionStride sz) 0); [lia|]. change (Z.shiftl 4 20) with (2 ^ 22).
  do 2 f_equal. destruct (_ =? 0); zcases.
Qed.

Lemma new_regions_ok sz ts : 0 < sz <= 65512 ->
  new_regions (regionStride sz) (per_region / regionStride sz) ts = Ret (fresh_region sz <$> ts).
Proof using.
  intros Hs. induction ts as [|ttl ts IH]; cbn [new_regions]; [done|]. rewrite NewRegion_ok by done. cbn [obind]. by rewrite IH.
Qed.

Lemma new_matrix_ok cs : Forall (fun sz => 0 < sz <= 65512) cs ->
  new_matrix per_region tiers cs = Ret ((fun sz => fresh_region sz <$> tiers) <$> cs).
Proof using.
  induction 1 as [|sz cs Hs _ IH]; cbn [new_matrix]; [done|]. pose proof (regionStride_bounds sz Hs).
  destruct (Z.eqb_spec (regionStride sz) 0); [lia|]. rewrite new_regions_ok by done. cbn [obind]. by rewrite IH.
Qed.

Lemma lookup_matrix {A} (f : Z -> Z -> A) c t : (c < length classes)%nat -> (t < length tiers)%nat ->
  exists ttl, ((fun sz => f sz <$> tiers) <$> classes) !! c ≫= (.!! t) = Some (f (class_size classes c) ttl).
Proof using.
  intros Hc Ht. destruct (lookup_lt_is_Some_2 _ _ Hc) as [sz Es], (lookup_lt_is_Some_2 _ _ Ht) as [ttl Et].
  exists ttl. rewrite list_lookup_fmap, Es. cbn. rewrite list_lookup_fmap, Et. cbn. unfold class_size. by rewrite (nth_lookup_Some _ _ _ _ Es).
Qed.

Lemma usage_empty p now b : usage mem classes tiers p (empty_cache now b) = 0.
Proof using. unfold usage. induction (coords classes tiers) as [|ct l IH]; [done|]. cbn. by unfold sumZ in IH. Qed.

Lemma NewCacheManager_ok ns now b w : 0 < now < 2 ^ 32 -> w < 2 ^ 31 ->
  exists cm, NewCacheManager ns now mem classes tiers limit b = Ret (Some cm) /\ rel H1 mem classes tiers limit K w cm (empty_cache now b).
Proof using HC.
  intros Hnow Hw. pose proof (f_classes _ _ _ _ HC) as Hcl. pose proof (f_tiers _ _ _ _ HC) as Hti. unfold NewCacheManager.
  rewrite (proj2 (Nat.eqb_neq (length classes) 0)), (proj2 (Nat.eqb_neq (length tiers) 0)) by lia. cbn [orb].
  destruct (NewInlineIndex_ok ns 0 ltac:(lia)) as (x & -> & Hx & Hn & Hs). cbn [obind].
  unfold allocateRegions. replace (Z.of_nat (length classes * length tiers)) with (zlen (list_prod classes tiers)) by (by rewrite length_prod).
  rewrite new_matrix_ok by apply HC. cbn [obind fst snd]. eexists. split; [done|].
  assert (forall hl, idx_rel H1 mem classes tiers w x hl (empty_cache now b)) as Hidx.
  { intros hl. exists ∅. split; [by destruct hl|]. split; [done|]. split; [|lia]. split; [|done]. intros k c t n e E. done. }
  constructor; cbn [sizeClasses ttlTiers tenantLimit cleanSlots backend asyncQueue eventCh nowSec globalUsed].
  - done.
  - intros c t [Hc Ht]. unfold region_at. cbn [regions]. destruct (lookup_matrix fresh_region c t Hc Ht) as [ttl ->].
    eexists. split; [done|]. by apply region_new, (geo mem classes tiers limit).
  - intros c t e Hin. by apply elem_of_nil in Hin.
  - intros k c t n E. done.
  - intros hl. by destruct hl.
  - intros t. by rewrite usage_empty.
  - by rewrite usage_empty.
  - done.
  - done.
  - intros c t. change (0 + w < 2 ^ 63). lia.
  - intros c t [Hc Ht]. exists 0. split; [|done]. rewrite lookup_replicate_2 by done. cbn. by apply lookup_replicate_2.
Qed.
End create.


(** The hypotheses are decidable. *)

#[local] Instance is_byte_dec b : Decision (is_byte b).
Proof. unfold is_byte. apply _. Defined.

#[local] Instance key_ok_dec H1 k : Decision (key_ok H1 k).
Proof. unfold key_ok. apply _. Defined.

#[local] Instance apart_dec H1 k k' : Decision (apart H1 k k').
Proof. unfold apart. apply _. Defined.

#[local] Instance cop_ok_dec classes tiers K o : Decision (cop_ok classes tiers K o).
Proof.
  assert (forall op, Decision (sub_ok K op)) by (intros op; unfold sub_ok; apply _).
  destruct o; cbn [cop_ok]; unfold in_range; apply _.
Defined.

Definition universe_check (H1 : Z -> byte_string -> Z) (K : list ckey) : bool :=
  bool_decide (Forall (key_ok H1) K) && bool_decide (Forall (fun k => Forall (apart H1 k) K) K) &&
  bool_decide (Forall (fun k => (length (base.filter (same_path H1 k) K) <= 4)%nat) K).

Lemma universe_check_ok H1 K : universe_check H1 K = true -> universe_ok H1 K.
Proof.
  unfold universe_check. intros [[?%bool_decide_eq_true ?%bool_decide_eq_true]%andb_prop ?%bool_decide_eq_true]%andb_prop. by constructor.
Qed.

(** A hash for the examples. *)
Definition demo_hash (t : Z) (key : byte_string) : Z := 1 + t + 65536 * radix 8 key.

Definition demo_keys : list ckey :=
  [(1, bytes_of "a"); (2, bytes_of "a"); (1, bytes_of "session-1"); (2, bytes_of "hits")].

Definition demo_ops : list cop :=
  [CPut 0 (1, bytes_of "a") [1; 2] 60; CPut 0 (2, bytes_of "a") [3] 60; CGet 0 (1, bytes_of "a"); CGet 0 (2, bytes_of "a");
   CUpdate 0 (1, bytes_of "a") [4] 10; CGet 0 (1, bytes_of "a"); CPut 0 (1, bytes_of "session-1") [9; 9; 9] 300;
   CIncr 0 (2, bytes_of "hits") 5 60; CIncr 0 (2, bytes_of "hits") (-7) 60; CSweep 0 0;
   CSubmit 0 [mkSub_ OpPut TargetCache true 2 60 (bytes_of "a") [8] 0; mkSub_ OpGet TargetCache false 2 0 (bytes_of "a") [] 0];
   CTick 1020; CGet 0 (1, bytes_of "a"); CGet 0 (1, bytes_of "session-1"); CInvalidate 0 (1, bytes_of "session-1");
   CGet 0 (1, bytes_of "session-1"); CExists (2, bytes_of "a"); CDispatch; CDrain].

Definition demo_answers : list cans :=
  [ROk true; ROk true; RVal (Some [1; 2]); RVal (Some [3]); ROk true; RVal (Some [4]); ROk true; RInt (Some 5); RInt (Some (-2));
   RSwept 0; RMany [None; Some [8]]; RDone; RVal None; RVal (Some [9; 9; 9]); ROk true; RVal None; ROk true;
   REvent (Some (mkEvent 1 (bytes_of "a") [1; 2] 60)); RDone].


(** ** Where the cache leaves its promise

    A small cache (one class of 8 bytes, one tier, no backend) driven into the
    situations the theorem excludes. *)

Fixpoint play (ops : list cop) (cm : CacheManager unit) : outcome (CacheManager unit) :=
  match ops with
  | [] => Ret cm
  | o :: ops => r <-- c_step demo_hash o cm ;; play ops r.1
  end.

(** [ops], then [f], then the answers to [qs]. *)
Definition scenario (now mem limit : Z) (ops : list cop) (f : CacheManager unit -> outcome (CacheManager unit)) (qs : list cop)
  : outcome (list cans) :=
  cm <-- NewCacheManager 0 now mem [8] [600] limit tt ;;
  match cm with
  | None => Panic
  | Some cm => cm <-- play ops cm ;; cm <-- f cm ;; answers (c_step demo_hash) qs cm
  end.

(** [n] entries of a tenant, under the one-byte keys from [from] on. *)
Definition puts (tenant from n ttl : Z) : list cop := (fun i => CPut 0 (tenant, [i]) [tenant] ttl) <$> seqZ from n.

(** Halving a region starts its generations again at 0: the next write lands
    on a live entry without changing the generation the index knows, and
    tenant 1 reads the value of tenant 2. *)
Lemma shrink_leaks_value :
  scenario 1000 3072 0 (puts 1 0 36 5 ++ puts 1 36 1 500 ++ puts 1 37 63 5 ++ [CTick 1020; CGet 0 (1, [36])])
    (fun cm => shrinkRegion cm 0 0 1020) [CGet 0 (1, [36]); CPut 0 (2, [7]) [22] 60; CGet 0 (1, [36])]
  = Ret [RVal (Some [1]); ROk true; RVal (Some [22])].
Proof. vm_compute. reflexivity. Qed.

(** A counter whose slot was cut off by a shrink makes [Incr] index past the
    buffer (with the region's lock held). *)
Lemma incr_after_shrink_panics :
  scenario 1000 3072 0 (puts 1 0 100 5 ++ [CTick 1020]) (fun cm => shrinkRegion cm 0 0 1020) [CIncr 0 (1, [90]) 1 60] = Panic.
Proof. vm_compute. reflexivity. Qed.

(** The index keeps two bits of the generation: four laps later a stale entry
    is taken for a live one. *)
Lemma fourth_lap_leaks_value :
  scenario 1000 1536 0 (puts 1 0 1 500 ++ puts 3 0 255 5 ++ [CPut 0 (2, [7]) [22] 60]) Ret [CGet 0 (1, [0])] = Ret [RVal (Some [22])].
Proof. vm_compute. reflexivity. Qed.

(** [Incr] does not compare generations: it adds to whoever has the slot now. *)
Lemma incr_hits_other_counter :
  scenario 1000 1536 0 ([CIncr 0 (1, [0]) 5 60] ++ puts 3 0 63 5 ++ [CIncr 0 (2, [7]) 100 60]) Ret
    [CIncr 0 (1, [0]) 1 60; CIncr 0 (2, [7]) 0 60] = Ret [RInt (Some 101); RInt (Some 101)].
Proof. vm_compute. reflexivity. Qed.

(** Forgetting a tenant drops its counter but not its entries; when those are
    overwritten the counter wraps below zero and the tenant is locked out. *)
Lemma forgotten_tenant_locked_out :
  scenario 1000 1536 10000 (puts 1 0 2 60 ++ [CForget 1] ++ puts 3 0 66 60) Ret [CPut 0 (1, [0]) [1] 60] = Ret [ROk false].
Proof. vm_compute. reflexivity. Qed.

(** The 12-bit expiry wraps every 2^17 seconds: just before that, an entry is
    expired as soon as it is written. *)
Lemma window_wrap_expires_early :
  scenario (13000 * 2 ^ 17 - 10) 1536 0 [] Ret [CPut 0 (1, [0]) [1] 60; CGet 0 (1, [0]); CExists (1, [0])]
  = Ret [ROk true; RVal None; ROk false].
Proof. vm_compute. reflexivity. Qed.

(** A value too large for the slabs is accepted, and the old one is served. *)
Lemma oversized_put_keeps_old :
  scenario 1000 1536 0 [] Ret [CPut 0 (1, [0]) [1] 60; CPut 0 (1, [0]) (replicate 9 2) 60; CGet 0 (1, [0])]
  = Ret [ROk true; ROk true; RVal (Some [1])].
Proof. vm_compute. reflexivity. Qed.

(** Tenants that agree modulo 16 share the route of a short key; the index has
    room for 44 of them and drops the next without a word. *)
Lemma crowded_route_drops :
  scenario 1000 1536 0 ((fun i => CPut 0 (16 * i, bytes_of "user") [i] 60) <$> seqZ 1 44) Ret
    [CPut 0 (16 * 45, bytes_of "user") [45] 60; CGet 0 (16 * 45, bytes_of "user"); CGet 0 (16 * 44, bytes_of "user")]
  = Ret [ROk true; RVal None; RVal (Some [44])].
Proof. vm_compute. reflexivity. Qed.

(** [Exists] answers for entries that were overwritten or ran out up to half a
    minute ago. *)
Lemma exists_without_value :
  scenario 1000 1536 0 (puts 1 0 1 8 ++ [CTick 1020]) Ret [CGet 0 (1, [0]); CExists (1, [0])] = Ret [RVal None; ROk true].
Proof. vm_compute. reflexivity. Qed.

(** ** Shrinking keeps what is live *)

Lemma scan_active_lower now half l slot act res : scan_active now half slot act l = Some res ->
  forall i s, l !! i = Some s -> 0 < Expiry (hdr s) -> now <= Expiry (hdr s) -> slot + Z.of_nat i < half.
Proof.
  revert slot act. induction l as [|s0 l IH]; intros slot act E i s Hi Hp Hn; cbn [scan_active] in E; [done|].
  destruct i as [|i]; cbn in Hi.
  - injection Hi as <-. rewrite (proj2 (Z.eqb_neq _ 0)), (proj2 (Z.ltb_ge _ _)) in E by lia. cbn [orb] in E.
    destruct (Z.leb_spec half slot); [done|]. lia.
  - assert (exists act', scan_active now half (slot + 1) act' l = Some res) as [act' E'].
    { destruct (_ || _); [by eexists|]. destruct (half <=? slot); [done|]. by eexists. }
    pose proof (IH _ _ E' i s Hi Hp Hn). lia.
Qed.

(** Every unexpired entry keeps its slot; what is cut off has expired. *)
Lemma TryShrink_keeps r pct now i s : count r = zlen (buf r) -> buf r !! i = Some s ->
  0 < Expiry (hdr s) -> now <= Expiry (hdr s) -> buf (TryShrink r pct now).1 !! i = Some s.
Proof.
  intros Hc Hi Hp Hn. unfold TryShrink. destruct (_ || _); [done|]. rewrite take_ge by lia.
  destruct (scan_active now _ 0 0 (buf r)) as [act|] eqn:E; [|done]. destruct (_ <=? _); [done|]. cbn [fst buf].
  pose proof (scan_active_lower _ _ _ _ _ _ E i s Hi Hp Hn). by rewrite lookup_take_lt by lia.
Qed.
