(* ===== verification/Registry.v ===== *)
(** * The tenant registry

    [internal/registry]: the snapshot requests read ([types.go],
    [registry_engine.go], [registry_tiers.go]) and the manager that builds it
    ([registry_manager.go]).  A tenant is known by aliases and has a number;
    its service URLs, identifiers and metadata lie in three matrices, one row
    per tenant and one column per key, whose cells name values of a common
    pool.  Aliases are found through an open-addressing hash table.

    Strings are byte strings.  The manager's lock serialises the operations,
    so the global state ([State], [nextAvailableTenantID]) is part of the
    manager's (RegistryManager.v).  Every operation that writes a slice shared
    with earlier snapshots publishes the snapshot it wrote to, so for
    operations that do not overlap a snapshot is a value.

    [hash] is [hash/maphash] with the process's seed. *)

From S2P Require Import Prelude.

Local Open Scope Z_scope.
Local Open Scope rah_scope.

(** ** The snapshot (types.go) *)

Record AliasSlot : Type := mkAlias { as_Hash : Z; as_Offset : Z; as_Len : Z; as_TenantID : Z }.

Definition empty_alias : AliasSlot := mkAlias 0 0 0 0.

Record AliasTable : Type := mkAliasTable { at_Slots : list AliasSlot; at_Mask : Z; StringArena : byte_string }.

Record RateLimitConfig : Type := mkRLC { PerSec : Z; PerMin : Z; BurstFactor : Z }.

Record TenantRateLimitModifier : Type := mkModifier { ScalePct : Z; m_Flags : Z }.

Record TenantRateLimitEntry : Type := mkRLE { e_PerSec : Z; e_PerMin : Z; e_Flags : Z }.

Record TenantV2ConfigOverride : Type := mkV2 { v2_Flags : Z; ScaleOverridePct : Z; WindowLimits : list Z }.

(** [TenantRateLimitTable] and [TenantV2OverrideTable]: parallel arrays, the
    numbers ascending. *)
Record table (E : Type) : Type := mkTable { ids : list Z; entries : list E }.
Arguments mkTable {E} ids entries.
Arguments ids {E} t.
Arguments entries {E} t.

Record RegistryNode : Type := mkRNode { PrefixOffset : Z; PrefixLen : Z; ChildBase : Z; ChildCount : Z; r_Value : Z }.

Record PropStore : Type := mkStore { Matrix : list Z; Stride : Z; Keys : list RegistryNode; StringPool : byte_string }.

Definition empty_store : PropStore := mkStore [] 0 [] [].

(** The three property stores of a snapshot. *)
Inductive namespace : Type := NsURL | NsID | NsMeta.

#[export] Instance namespace_eq_dec : EqDecision namespace.
Proof. solve_decision. Defined.

Record TenantRegistry : Type := mkReg {
  Aliases : AliasTable;
  RateLimitConfigs : list RateLimitConfig;
  TenantModifiers : list TenantRateLimitModifier;
  TenantRateLimits : list (option (table TenantRateLimitEntry));
  TenantV2Overrides : list (option (table TenantV2ConfigOverride));
  URLs : PropStore;
  IDs : PropStore;
  Meta : PropStore;
  ValuePool : list byte_string;
  MaxTenants : Z
}.

Definition store_of (reg : TenantRegistry) (ns : namespace) : PropStore :=
  match ns with NsURL => URLs reg | NsID => IDs reg | NsMeta => Meta reg end.

Definition with_store (reg : TenantRegistry) (ns : namespace) (s : PropStore) : TenantRegistry :=
  mkReg (Aliases reg) (RateLimitConfigs reg) (TenantModifiers reg) (TenantRateLimits reg) (TenantV2Overrides reg)
    (match ns with NsURL => s | _ => URLs reg end) (match ns with NsID => s | _ => IDs reg end)
    (match ns with NsMeta => s | _ => Meta reg end) (ValuePool reg) (MaxTenants reg).

Definition with_max (reg : TenantRegistry) (n : Z) : TenantRegistry :=
  mkReg (Aliases reg) (RateLimitConfigs reg) (TenantModifiers reg) (TenantRateLimits reg) (TenantV2Overrides reg)
    (URLs reg) (IDs reg) (Meta reg) (ValuePool reg) n.
Definition with_values (reg : TenantRegistry) (vs : list byte_string) : TenantRegistry :=
  mkReg (Aliases reg) (RateLimitConfigs reg) (TenantModifiers reg) (TenantRateLimits reg) (TenantV2Overrides reg)
    (URLs reg) (IDs reg) (Meta reg) vs (MaxTenants reg).
Definition with_aliases (reg : TenantRegistry) (t : AliasTable) : TenantRegistry :=
  mkReg t (RateLimitConfigs reg) (TenantModifiers reg) (TenantRateLimits reg) (TenantV2Overrides reg)
    (URLs reg) (IDs reg) (Meta reg) (ValuePool reg) (MaxTenants reg).
Definition with_limits (reg : TenantRegistry) (cs : list RateLimitConfig) (ms : list TenantRateLimitModifier)
    (rs : list (option (table TenantRateLimitEntry))) (vs : list (option (table TenantV2ConfigOverride))) : TenantRegistry :=
  mkReg (Aliases reg) cs ms rs vs (URLs reg) (IDs reg) (Meta reg) (ValuePool reg) (MaxTenants reg).

(** ** Keys of a property store (registry_engine.go, registry_manager.go) *)

(** The first child whose prefix starts with [c]. *)
Fixpoint find_child (nodes : list RegistryNode) (pool : byte_string) (base c : Z) (i : Z) (n : nat) : outcome (option Z) :=
  match n with
  | O => Ret None
  | S n =>
    child <-- go_index nodes (u32 (base + i)) ;;
    b <-- go_index pool (PrefixOffset child) ;;
    if b =? c then Ret (Some (u32 (base + i))) else find_child nodes pool base c (i + 1) n
  end.

Fixpoint find_walk (fuel : nat) (nodes : list RegistryNode) (pool input : byte_string) (currIdx : Z) : outcome (option Z) :=
  match fuel with
  | O => Fuel
  | S fuel =>
    node <-- go_index nodes currIdx ;;
    prefix <-- go_slice pool (PrefixOffset node) (u32 (PrefixOffset node + PrefixLen node)) ;;
    if (length input <? length prefix)%nat then Ret None
    else if negb (bool_decide (take (length prefix) input = prefix)) then Ret None
    else
      match drop (length prefix) input with
      | [] => Ret (Some (r_Value node))
      | c :: rest =>
        child <-- find_child nodes pool (ChildBase node) c 0 (Z.to_nat (ChildCount node)) ;;
        match child with
        | None => Ret None
        | Some idx => find_walk fuel nodes pool (c :: rest) idx
        end
      end
  end.

Definition findKeyID (s : PropStore) (input : byte_string) : outcome (option Z) :=
  match Keys s, input with
  | [], _ | _, [] => Ret None
  | _, _ => find_walk (S (S (length input))) (Keys s) (StringPool s) input 0
  end.

Definition insertIntoPropertiesRadix (s : PropStore) (key : byte_string) (val : Z) : PropStore :=
  let nodes := match Keys s with [] => [mkRNode 0 0 1 0 0] | ns => ns end in
  let nodes := nodes ++ [mkRNode (u32 (Z.of_nat (length (StringPool s)))) (u16 (Z.of_nat (length key))) 0 0 (u16 val)] in
  let nodes := match nodes with
               | r :: ns => mkRNode (PrefixOffset r) (PrefixLen r) (ChildBase r) (u16 (ChildCount r + 1)) (r_Value r) :: ns
               | [] => []
               end in
  mkStore (Matrix s) (Stride s) nodes (StringPool s ++ key).

(** One row of the new matrix: the old row, then zeroes. *)
Definition migrate_row (old : PropStore) (newStride : Z) (tID : Z) : list Z :=
  if (0 <? Stride old) && (u32 (tID * Stride old) + Stride old <=? Z.of_nat (length (Matrix old)))
  then take (Z.to_nat (Stride old)) (drop (Z.to_nat (u32 (tID * Stride old))) (Matrix old))
         ++ replicate (Z.to_nat (newStride - Stride old)) 0
  else replicate (Z.to_nat newStride) 0.

Definition expandPropStore (old : PropStore) (maxTenants newStride : Z) : PropStore :=
  mkStore (concat (migrate_row old newStride <$> seqZ 0 maxTenants)) newStride (Keys old) (StringPool old).

Definition resolveOrCreateStoreKey (s : PropStore) (key : byte_string) : outcome (Z * bool) :=
  f <-- findKeyID s key ;;
  Ret (match f with Some k => (k, false) | None => (u16 (Stride s), true) end).

(** [resolveOrCreateURLKey], [resolveOrCreateIDKey], [resolveOrCreateMetaKey]. *)
Definition resolveOrCreateKey (ns : namespace) (reg : TenantRegistry) (key : byte_string) : outcome (Z * TenantRegistry) :=
  f <-- resolveOrCreateStoreKey (store_of reg ns) key ;;
  let '(kID, needsExpand) := f in
  if negb needsExpand then Ret (kID, reg)
  else
    let maxTenants := if MaxTenants reg =? 0 then 128 else MaxTenants reg in
    let s := expandPropStore (store_of reg ns) maxTenants (u32 (Stride (store_of reg ns) + 1)) in
    Ret (kID, with_max (with_store reg ns (insertIntoPropertiesRadix s key kID)) maxTenants).

(** ** Values *)

Definition internValue (reg : TenantRegistry) (value : byte_string) : TenantRegistry * Z :=
  match value with
  | [] => (reg, 0)
  | _ =>
    let pool := match ValuePool reg with [] => [[]] | p => p end in
    match list_find (fun v => v = value) pool with
    | Some (i, _) => (with_values reg pool, u32 (Z.of_nat i))
    | None => (with_values reg (pool ++ [value]), u32 (Z.of_nat (length pool)))
    end
  end.

Definition matrix_index (s : PropStore) (tenantID keyID : Z) : Z := u32 (u32 (tenantID * Stride s) + keyID).

Definition getPropByKeyID (s : PropStore) (pool : list byte_string) (tenantID keyID : Z) : option byte_string :=
  match Matrix s !! Z.to_nat (matrix_index s tenantID keyID) with
  | None => None
  | Some vID => if vID =? 0 then None else pool !! Z.to_nat vID
  end.

(** [atomic.StoreUint32(&store.Matrix[idx], v)] *)
Definition set_cell (s : PropStore) (tenantID keyID v : Z) : outcome PropStore :=
  _ <-- go_index (Matrix s) (matrix_index s tenantID keyID) ;;
  Ret (mkStore (<[Z.to_nat (matrix_index s tenantID keyID):=v]> (Matrix s)) (Stride s) (Keys s) (StringPool s)).

(** ** Aliases *)

Definition nextPow2_32 (n : Z) : Z :=
  if n =? 0 then 1
  else
    let n := u32 (n - 1) in
    let n := Z.lor n (Z.shiftr n 1) in
    let n := Z.lor n (Z.shiftr n 2) in
    let n := Z.lor n (Z.shiftr n 4) in
    let n := Z.lor n (Z.shiftr n 8) in
    let n := Z.lor n (Z.shiftr n 16) in
    u32 (n + 1).

Section alias_table.
Context (hash : byte_string -> Z).

Fixpoint alias_loop (fuel : nat) (t : AliasTable) (h : Z) (alias : byte_string) (idx : Z) : outcome (option Z) :=
  match fuel with
  | O => Fuel
  | S fuel =>
    slot <-- go_index (at_Slots t) idx ;;
    if as_TenantID slot =? 0 then Ret None
    else
      hit <-- (if as_Hash slot =? h then
                 stored <-- go_slice (StringArena t) (as_Offset slot) (u32 (as_Offset slot + as_Len slot)) ;;
                 Ret (bool_decide (stored = alias))
               else Ret false) ;;
      if hit : bool then Ret (Some (as_TenantID slot)) else alias_loop fuel t h alias (Z.land (u32 (idx + 1)) (at_Mask t))
  end.

(** The search stops at the latest when it has seen every slot. *)
Definition AliasLookup (t : AliasTable) (alias : byte_string) : outcome (option Z) :=
  match at_Slots t with
  | [] => Ret None
  | _ => let h := hash alias in
         alias_loop (S (length (at_Slots t))) t h alias (Z.land (u32 h) (at_Mask t))
  end.

Fixpoint probe (fuel : nat) (slots : list AliasSlot) (mask idx : Z) : outcome Z :=
  match fuel with
  | O => Fuel
  | S fuel =>
    s <-- go_index slots idx ;;
    if as_TenantID s =? 0 then Ret idx else probe fuel slots mask (Z.land (u32 (idx + 1)) mask)
  end.

Fixpoint place_all (entries : list (byte_string * Z)) (slots : list AliasSlot) (mask : Z) (arena : byte_string)
  : outcome (list AliasSlot * byte_string) :=
  match entries with
  | [] => Ret (slots, arena)
  | (alias, tenantID) :: entries =>
    let h := hash alias in
    idx <-- probe (S (length slots)) slots mask (Z.land (u32 h) mask) ;;
    place_all entries
      (<[Z.to_nat idx:=mkAlias h (u32 (Z.of_nat (length arena))) (u16 (Z.of_nat (length alias))) tenantID]> slots)
      mask (arena ++ alias)
  end.

(** [uint32(float64(n)/0.75) + 1]: a third of [n] is never so close to an
    integer that the division could round to it. *)
Definition table_size (n : Z) : Z :=
  let size := nextPow2_32 (u32 (4 * n / 3 + 1)) in
  if size <? 8 then 8 else size.

(** The table of a map visited in the given order. *)
Definition build_table (entries : list (byte_string * Z)) : outcome AliasTable :=
  match entries with
  | [] => Ret (mkAliasTable [] 0 [])
  | _ =>
    let size := table_size (Z.of_nat (length entries)) in
    r <-- place_all entries (replicate (Z.to_nat size) empty_alias) (u32 (size - 1)) [] ;;
    Ret (mkAliasTable r.1 (u32 (size - 1)) r.2)
  end.
End alias_table.

(** ** Override tables *)

(** The binary search of the override tables: the position of [id], or where
    it has to be inserted. *)
Fixpoint table_search (fuel : nat) (ids : list Z) (id lo hi insertAt : Z) : outcome (Z + Z) :=
  match fuel with
  | O => Fuel
  | S fuel =>
    if hi <? lo then Ret (inr insertAt)
    else
      let mid := Z.shiftr (lo + hi) 1 in
      x <-- go_index ids mid ;;
      if x =? id then Ret (inl mid)
      else if x <? id then table_search fuel ids id (mid + 1) hi insertAt
      else table_search fuel ids id lo (mid - 1) mid
  end.

Definition search_ids (ids : list Z) (id : Z) : outcome (Z + Z) :=
  table_search (S (length ids)) ids id 0 (Z.of_nat (length ids) - 1) (Z.of_nat (length ids)).

(** [find] of [TenantV2OverrideTable] *)
Definition table_find {E} (t : table E) (id : Z) : outcome (option E) :=
  r <-- search_ids (ids t) id ;;
  match r with
  | inl mid => e <-- go_index (entries t) mid ;; Ret (Some e)
  | inr _ => Ret None
  end.

(** [append(l, zero); copy(l[i+1:], l[i:]); l[i] = x] *)
Definition insert_at {A} (i : Z) (x : A) (l : list A) : list A := take (Z.to_nat i) l ++ x :: drop (Z.to_nat i) l.

(** [append(l[:i], l[i+1:]...)] *)
Definition remove_at {A} (i : Z) (l : list A) : list A := take (Z.to_nat i) l ++ drop (S (Z.to_nat i)) l.

Definition table_upsert {E} (t : table E) (id : Z) (e : E) : outcome (table E) :=
  r <-- search_ids (ids t) id ;;
  match r with
  | inl mid => _ <-- go_index (entries t) mid ;; Ret (mkTable (ids t) (<[Z.to_nat mid:=e]> (entries t)))
  | inr i => Ret (mkTable (insert_at i id (ids t)) (insert_at i e (entries t)))
  end.

Definition table_remove {E} (t : table E) (id : Z) : outcome (table E) :=
  r <-- search_ids (ids t) id ;;
  Ret (match r with
       | inl mid => mkTable (remove_at mid (ids t)) (remove_at mid (entries t))
       | inr _ => t
       end).

Definition LookupV2Override (reg : option TenantRegistry) (tenantID configID : Z) : outcome (option TenantV2ConfigOverride) :=
  match reg ≫= fun reg => mjoin (TenantV2Overrides reg !! Z.to_nat tenantID) with
  | None => Ret None
  | Some tbl => table_find tbl configID
  end.

(** ** Reading a snapshot *)

(** [GetURLByKeyID], [GetIDByKeyID], [GetMetaByKeyID] *)
Definition GetByKeyID (ns : namespace) (reg : option TenantRegistry) (tenantID keyID : Z) : option byte_string :=
  match reg with
  | None => None
  | Some reg => if Stride (store_of reg ns) =? 0 then None else getPropByKeyID (store_of reg ns) (ValuePool reg) tenantID keyID
  end.

Definition GetURLByKeyName (reg : option TenantRegistry) (tenantID : Z) (keyName : byte_string) : outcome (option byte_string) :=
  match reg with
  | None => Ret None
  | Some reg =>
    k <-- findKeyID (URLs reg) keyName ;;
    Ret (k ≫= fun keyID => getPropByKeyID (URLs reg) (ValuePool reg) tenantID keyID)
  end.

Definition TenantTierName (reg : option TenantRegistry) (tenantID : Z) : outcome byte_string :=
  match reg with
  | None => Ret []
  | Some reg =>
    if Stride (Meta reg) =? 0 then Ret []
    else
      k <-- findKeyID (Meta reg) (bytes_of "tier") ;;
      Ret (default [] (k ≫= fun keyID => getPropByKeyID (Meta reg) (ValuePool reg) tenantID keyID))
  end.

(** ** Tiers (registry_tiers.go) *)

Record TierDef : Type := mkTier { ConfigName : byte_string; OverallName : byte_string; AllowedAPIs : list byte_string; BlockedAPIs : list byte_string }.

Definition TierStore : Type := gmap byte_string TierDef.

Record RateLimitResolution : Type := mkResolution { rr_Config : byte_string; rr_Overall : byte_string; rr_Allowed : bool; rr_Multiplier : Z }.

(** [multiplier] is the result of [TenantRLMultiplier]. *)
Definition ResolveTierRateLimit (tiers : TierStore) (reg : option TenantRegistry) (tenantID : Z) (apiName : byte_string) (multiplier : Z)
  : outcome RateLimitResolution :=
  tierName <-- TenantTierName reg tenantID ;;
  Ret (match tierName with
       | [] => mkResolution [] [] true multiplier
       | _ =>
         match tiers !! tierName with
         | None => mkResolution [] [] true multiplier
         | Some tier =>
           if bool_decide (apiName ∈ BlockedAPIs tier) then mkResolution [] [] false multiplier
           else if negb (Nat.eqb (length (AllowedAPIs tier)) 0) && negb (bool_decide (apiName ∈ AllowedAPIs tier))
           then mkResolution [] [] false multiplier
           else mkResolution (ConfigName tier) (OverallName tier) true multiplier
         end
       end).
