(* ===== verification/RegistryManager.v ===== *)
(** * The management plane of the tenant registry

    [RegistryManager] of [internal/registry/registry_manager.go]: the alias
    map, the mirror of the tenants' properties and the snapshot ([Active]),
    with every operation that changes them.  Operations run under the
    manager's lock, so each is a function on the state; a [Panic] is a run-time
    panic of the operation.  What the operations send to the datastore is
    collected in [store_log], one entry per goroutine started.

    [hash] is [hash/maphash] with the process's seed.  [iter n m] is the order
    in which the [n]-th [range] over the alias map visits [m]: the language
    leaves it open, so nothing is assumed but that it visits every entry
    once. *)

From S2P Require Import Prelude Registry.

Local Open Scope Z_scope.
Local Open Scope rah_scope.

(** ** State *)

(** [TraceSampleRateOverride] is only ever set to 1.0 or 0: [TraceFull]. *)
Record TenantRecord : Type := mkRecord {
  rec_Aliases : list byte_string;
  ServiceURLs : gmap byte_string byte_string;
  Identifiers : gmap byte_string byte_string;
  Metadata : gmap byte_string byte_string;
  CreatedAt : Z;
  LogLevel : byte_string;
  DebugEnabled : bool;
  TraceFull : bool
}.

Definition empty_record : TenantRecord := mkRecord [] ∅ ∅ ∅ 0 [] false false.

Definition record_props (rec : TenantRecord) (ns : namespace) : gmap byte_string byte_string :=
  match ns with NsURL => ServiceURLs rec | NsID => Identifiers rec | NsMeta => Metadata rec end.

Definition with_props (rec : TenantRecord) (ns : namespace) (p : gmap byte_string byte_string) : TenantRecord :=
  mkRecord (rec_Aliases rec) (match ns with NsURL => p | _ => ServiceURLs rec end)
    (match ns with NsID => p | _ => Identifiers rec end) (match ns with NsMeta => p | _ => Metadata rec end)
    (CreatedAt rec) (LogLevel rec) (DebugEnabled rec) (TraceFull rec).

Definition with_rec_aliases (rec : TenantRecord) (l : list byte_string) : TenantRecord :=
  mkRecord l (ServiceURLs rec) (Identifiers rec) (Metadata rec) (CreatedAt rec) (LogLevel rec) (DebugEnabled rec) (TraceFull rec).

(** The calls made to the datastore. *)
Inductive StoreCall : Type :=
| PutTenantAliases (primary : byte_string) (aliases : list byte_string)
| PutProp (ns : namespace) (primary key value : byte_string)
| PutBatch (primary : byte_string) (urls idents meta : gmap byte_string byte_string)
| PutTenantID (primary : byte_string) (id : Z)
| StoreDeleteTenant (primary : byte_string)
| PutRateLimitConfig (name : byte_string) (cfg : RateLimitConfig).

(** No store, a [TenantRegistryStore], or another implementation. *)
Inductive store_kind : Type := NoStore | TenantStore | OtherStore.

Record RegistryManager : Type := mkManager {
  aliasMap : gmap byte_string Z;
  rateLimitNames : gmap byte_string Z;
  nextRLConfigID : Z;
  tenantData : gmap Z TenantRecord;
  tenantIDs : list Z;
  nextTestTenantID : Z;
  Active : option TenantRegistry;
  FreeSlots : list Z;
  nextAvailableTenantID : Z;
  rm_store : store_kind;
  store_log : list (list StoreCall);
  range_count : nat
}.

Definition NewRegistryManager : RegistryManager :=
  mkManager ∅ ∅ 0 ∅ [] 0 None [] 1 NoStore [] 0.

Definition set_aliasMap (m : RegistryManager) (x : gmap byte_string Z) : RegistryManager :=
  mkManager x (rateLimitNames m) (nextRLConfigID m) (tenantData m) (tenantIDs m) (nextTestTenantID m) (Active m)
    (FreeSlots m) (nextAvailableTenantID m) (rm_store m) (store_log m) (range_count m).
Definition set_tenantData (m : RegistryManager) (x : gmap Z TenantRecord) : RegistryManager :=
  mkManager (aliasMap m) (rateLimitNames m) (nextRLConfigID m) x (tenantIDs m) (nextTestTenantID m) (Active m)
    (FreeSlots m) (nextAvailableTenantID m) (rm_store m) (store_log m) (range_count m).
Definition set_tenantIDs (m : RegistryManager) (x : list Z) : RegistryManager :=
  mkManager (aliasMap m) (rateLimitNames m) (nextRLConfigID m) (tenantData m) x (nextTestTenantID m) (Active m)
    (FreeSlots m) (nextAvailableTenantID m) (rm_store m) (store_log m) (range_count m).
Definition set_nextTest (m : RegistryManager) (x : Z) : RegistryManager :=
  mkManager (aliasMap m) (rateLimitNames m) (nextRLConfigID m) (tenantData m) (tenantIDs m) x (Active m)
    (FreeSlots m) (nextAvailableTenantID m) (rm_store m) (store_log m) (range_count m).
Definition set_Active (m : RegistryManager) (x : TenantRegistry) : RegistryManager :=
  mkManager (aliasMap m) (rateLimitNames m) (nextRLConfigID m) (tenantData m) (tenantIDs m) (nextTestTenantID m) (Some x)
    (FreeSlots m) (nextAvailableTenantID m) (rm_store m) (store_log m) (range_count m).
Definition set_slots (m : RegistryManager) (free : list Z) (next : Z) : RegistryManager :=
  mkManager (aliasMap m) (rateLimitNames m) (nextRLConfigID m) (tenantData m) (tenantIDs m) (nextTestTenantID m) (Active m)
    free next (rm_store m) (store_log m) (range_count m).
Definition set_names (m : RegistryManager) (names : gmap byte_string Z) (next : Z) : RegistryManager :=
  mkManager (aliasMap m) names next (tenantData m) (tenantIDs m) (nextTestTenantID m) (Active m)
    (FreeSlots m) (nextAvailableTenantID m) (rm_store m) (store_log m) (range_count m).
Definition put_store (m : RegistryManager) (s : store_kind) : RegistryManager :=
  mkManager (aliasMap m) (rateLimitNames m) (nextRLConfigID m) (tenantData m) (tenantIDs m) (nextTestTenantID m) (Active m)
    (FreeSlots m) (nextAvailableTenantID m) s (store_log m) (range_count m).
Definition log_calls (m : RegistryManager) (cs : list StoreCall) : RegistryManager :=
  mkManager (aliasMap m) (rateLimitNames m) (nextRLConfigID m) (tenantData m) (tenantIDs m) (nextTestTenantID m) (Active m)
    (FreeSlots m) (nextAvailableTenantID m) (rm_store m) (store_log m ++ [cs]) (range_count m).
Definition tick_range (m : RegistryManager) : RegistryManager :=
  mkManager (aliasMap m) (rateLimitNames m) (nextRLConfigID m) (tenantData m) (tenantIDs m) (nextTestTenantID m) (Active m)
    (FreeSlots m) (nextAvailableTenantID m) (rm_store m) (store_log m) (S (range_count m)).

Definition SetStore (m : RegistryManager) (s : store_kind) : RegistryManager := put_store m s.

(** ** Persistence *)

Definition persist (m : RegistryManager) (cs : list StoreCall) : RegistryManager :=
  match rm_store m with NoStore => m | _ => log_calls m cs end.

(** [persistTenantBatch] and, for another kind of store, [persistTenant]. *)
Definition persistTenantBatch (m : RegistryManager) (rec : TenantRecord) : RegistryManager :=
  match rm_store m, rec_Aliases rec with
  | NoStore, _ | _, [] => m
  | TenantStore, primary :: _ =>
    log_calls m [PutTenantAliases primary (rec_Aliases rec);
                 PutBatch primary (ServiceURLs rec) (Identifiers rec) (Metadata rec)]
  | OtherStore, primary :: _ =>
    let puts ns := (fun kv => PutProp ns primary kv.1 kv.2) <$> map_to_list (record_props rec ns) in
    log_calls m (PutTenantAliases primary (rec_Aliases rec) :: puts NsURL ++ puts NsID ++ puts NsMeta)
  end.

Definition persistTenantID (m : RegistryManager) (primary : byte_string) (id : Z) : RegistryManager :=
  match rm_store m with TenantStore => log_calls m [PutTenantID primary id] | _ => m end.

(** ** The sorted slice of tenants *)

(** [sort.Search] *)
Fixpoint search_from (fuel : nat) (f : Z -> bool) (i j : Z) : outcome Z :=
  match fuel with
  | O => Fuel
  | S fuel =>
    if i <? j then
      let h := Z.shiftr (i + j) 1 in
      if f h then search_from fuel f i h else search_from fuel f (h + 1) j
    else Ret i
  end.

Definition sort_Search (l : list Z) (p : Z -> bool) : outcome Z :=
  search_from (S (length l)) (fun i => p (nth (Z.to_nat i) l 0)) 0 (Z.of_nat (length l)).

Definition insertSortedTenantID (l : list Z) (tID : Z) : outcome (list Z) :=
  pos <-- sort_Search l (fun x => tID <=? x) ;;
  Ret (if bool_decide (l !! Z.to_nat pos = Some tID) then l else insert_at pos tID l).

Definition removeSortedTenantID (l : list Z) (tID : Z) : outcome (list Z) :=
  pos <-- sort_Search l (fun x => tID <=? x) ;;
  Ret (if bool_decide (l !! Z.to_nat pos = Some tID) then remove_at pos l else l).

Record TenantSummary : Type := mkSummary {
  ts_TenantID : Z; ts_Aliases : list byte_string; ServiceURLCount : nat; IdentifierCount : nat; MetadataCount : nat }.

Definition summary (m : RegistryManager) (tID : Z) : TenantSummary :=
  match tenantData m !! tID with
  | None => mkSummary tID [] 0 0 0
  | Some rec => mkSummary tID (rec_Aliases rec) (size (ServiceURLs rec)) (size (Identifiers rec)) (size (Metadata rec))
  end.

Definition ListTenants (m : RegistryManager) (cursor limit : Z) : outcome (list TenantSummary * Z) :=
  let limit := if (limit <=? 0) || (1000 <? limit) then 100 else limit in
  let n := Z.of_nat (length (tenantIDs m)) in
  start <-- (if 0 <? cursor then sort_Search (tenantIDs m) (fun x => cursor <? x) else Ret 0) ;;
  let stop := if n <? start + limit then n else start + limit in
  page <-- go_slice (tenantIDs m) start stop ;;
  nextCursor <-- (if stop <? n then go_index (tenantIDs m) (stop - 1) else Ret 0) ;;
  Ret (summary m <$> page, nextCursor).

(** ** Internal helpers *)

Definition TestTenantRangeStart : Z := 61440.
Definition TestTenantRangeEnd : Z := 65535.

Definition empty_modifier : TenantRateLimitModifier := mkModifier 0 0.
Definition empty_config : RateLimitConfig := mkRLC 0 0 0.

Definition activeOrEmpty (m : RegistryManager) : TenantRegistry :=
  match Active m with
  | Some live => live
  | None => mkReg (mkAliasTable [] 0 []) [empty_config] (replicate 128 empty_modifier) (replicate 128 None)
              (replicate 128 None) empty_store empty_store empty_store [] 128
  end.

(** [if needed > len(l) { grown := make(..., needed); copy(grown, l) }] *)
Definition grow_slice {A} (d : A) (needed : Z) (l : list A) : list A :=
  l ++ replicate (Z.to_nat needed - length l) d.

Definition expand_rows (newMax : Z) (s : PropStore) : PropStore :=
  if 0 <? Stride s then expandPropStore s newMax (Stride s) else s.

(** The growth of the per-tenant slices and matrices for a new tenant, shared
    by [resolveOrCreateTenant] and [RegisterTestTenant]. *)
Definition grow_tenant (reg : TenantRegistry) (tID : Z) : TenantRegistry :=
  let needed := tID + 1 in
  let reg := with_limits reg (RateLimitConfigs reg) (grow_slice empty_modifier needed (TenantModifiers reg))
               (grow_slice None needed (TenantRateLimits reg)) (grow_slice None needed (TenantV2Overrides reg)) in
  if MaxTenants reg <? needed then
    let newMax := u16 (needed + 127) in
    mkReg (Aliases reg) (RateLimitConfigs reg) (TenantModifiers reg) (TenantRateLimits reg) (TenantV2Overrides reg)
      (expand_rows newMax (URLs reg)) (expand_rows newMax (IDs reg)) (expand_rows newMax (Meta reg)) (ValuePool reg) newMax
  else reg.

Definition forceAssignTenantID (m : RegistryManager) (id : Z) : RegistryManager :=
  let next := Z.max (nextAvailableTenantID m) (id + 1) in
  let free := match list_find (fun slot => slot = id) (FreeSlots m) with
              | Some (i, _) => remove_at (Z.of_nat i) (FreeSlots m)
              | None => FreeSlots m
              end in
  set_slots m free next.

(** The recycled number on top of the stack, or the next one. *)
Definition allocTenantID (m : RegistryManager) : Z * RegistryManager :=
  match last (FreeSlots m) with
  | Some tID => (tID, set_slots m (take (length (FreeSlots m) - 1) (FreeSlots m)) (nextAvailableTenantID m))
  | None => let next := u32 (nextAvailableTenantID m + 1) in (u16 (u32 (next - 1)), set_slots m [] next)
  end.

Definition resolveOrCreateTenant (m : RegistryManager) (reg : TenantRegistry) (alias : byte_string)
  : outcome (Z * RegistryManager * TenantRegistry) :=
  match aliasMap m !! alias with
  | Some id => Ret (id, m, reg)
  | None =>
    let '(tID, m) := allocTenantID m in
    let m := set_aliasMap m (<[alias:=tID]> (aliasMap m)) in
    l <-- insertSortedTenantID (tenantIDs m) tID ;;
    let m := persistTenantID (set_tenantIDs m l) alias tID in
    Ret (tID, m, grow_tenant reg tID)
  end.

Section manager.
Context (hash : byte_string -> Z) (iter : nat -> gmap byte_string Z -> list (byte_string * Z)).

(** [range m.aliasMap] *)
Definition range_aliases (m : RegistryManager) : list (byte_string * Z) * RegistryManager :=
  (iter (range_count m) (aliasMap m), tick_range m).

Definition rebuildAliasTable (m : RegistryManager) : outcome (AliasTable * RegistryManager) :=
  let '(entries, m) := range_aliases m in
  t <-- build_table hash entries ;;
  Ret (t, m).

(** The aliases of a tenant, in the order of the alias map. *)
Definition aliases_of (entries : list (byte_string * Z)) (tID : Z) : list byte_string :=
  (filter (fun e : byte_string * Z => e.2 = tID) entries).*1.

Definition ensureTenantRecord (m : RegistryManager) (tID : Z) : TenantRecord * RegistryManager :=
  match tenantData m !! tID with
  | Some rec => (rec, m)
  | None => let '(entries, m) := range_aliases m in
            let rec := with_rec_aliases empty_record (aliases_of entries tID) in
            (rec, set_tenantData m (<[tID:=rec]> (tenantData m)))
  end.

(** ** Properties *)

(** [resolveOrCreate...Key], [internValue] and the store into the matrix. *)
Definition write_prop (ns : namespace) (reg : TenantRegistry) (tID : Z) (key value : byte_string) : outcome TenantRegistry :=
  f <-- resolveOrCreateKey ns reg key ;;
  let '(reg, vID) := internValue f.2 value in
  s <-- set_cell (store_of reg ns) tID f.1 vID ;;
  Ret (with_store reg ns s).

(** [applyURLProp], [applyIDProp], [applyMetaProp]; [rec] is the tenant's
    record afterwards. *)
Definition applyProp (ns : namespace) (m : RegistryManager) (alias name value : byte_string) : outcome (TenantRecord * RegistryManager) :=
  f <-- resolveOrCreateTenant m (activeOrEmpty m) alias ;;
  let '(tID, m, reg) := f in
  reg <-- write_prop ns reg tID name value ;;
  g <-- rebuildAliasTable m ;;
  let reg := with_aliases reg g.1 in
  let '(rec, m) := ensureTenantRecord g.2 tID in
  let rec := with_props rec ns (<[name:=value]> (record_props rec ns)) in
  Ret (rec, set_Active (set_tenantData m (<[tID:=rec]> (tenantData m))) reg).

(** [AddServiceURL], [AddIdentifier], [AddMeta] *)
Definition AddProp (ns : namespace) (m : RegistryManager) (alias name value : byte_string) : outcome RegistryManager :=
  f <-- applyProp ns m alias name value ;;
  primary <-- go_index (rec_Aliases f.1) 0 ;;
  Ret (persist f.2 [PutProp ns primary name value]).

(** [DeleteServiceURL], [DeleteIdentifier], [DeleteMeta] *)
Definition DeleteProp (ns : namespace) (m : RegistryManager) (alias name : byte_string) : outcome RegistryManager :=
  match aliasMap m !! alias with
  | None => Ret m
  | Some tID =>
    let reg := activeOrEmpty m in
    k <-- findKeyID (store_of reg ns) name ;;
    match k with
    | None => Ret m
    | Some kID =>
      let s := store_of reg ns in
      let s := if matrix_index s tID kID <? u32 (Z.of_nat (length (Matrix s)))
               then mkStore (<[Z.to_nat (matrix_index s tID kID):=0]> (Matrix s)) (Stride s) (Keys s) (StringPool s) else s in
      let '(rec, m) := ensureTenantRecord m tID in
      let rec := with_props rec ns (delete name (record_props rec ns)) in
      let m := set_Active (set_tenantData m (<[tID:=rec]> (tenantData m))) (with_store reg ns s) in
      primary <-- go_index (rec_Aliases rec) 0 ;;
      Ret (persist m [PutProp ns primary name []])
    end
  end.

(** [EnsureURLKeyID], [EnsureIDKeyID], [EnsureMetaKeyID] *)
Definition EnsureKeyID (ns : namespace) (m : RegistryManager) (key : byte_string) : outcome (RegistryManager * Z) :=
  f <-- resolveOrCreateKey ns (activeOrEmpty m) key ;;
  Ret (set_Active m f.2, f.1).

(** ** Tenants *)

Definition AddAlias (m : RegistryManager) (existingAlias newAlias : byte_string) : outcome RegistryManager :=
  f <-- resolveOrCreateTenant m (activeOrEmpty m) existingAlias ;;
  let '(tID, m, reg) := f in
  let m := set_aliasMap m (<[newAlias:=tID]> (aliasMap m)) in
  g <-- rebuildAliasTable m ;;
  let reg := with_aliases reg g.1 in
  let '(entries, m) := range_aliases g.2 in
  let rec := with_rec_aliases (default empty_record (tenantData m !! tID)) (aliases_of entries tID) in
  let m := set_Active (set_tenantData m (<[tID:=rec]> (tenantData m))) reg in
  primary <-- go_index (rec_Aliases rec) 0 ;;
  Ret (persist m [PutTenantAliases primary (rec_Aliases rec)]).

(** A [range] over one of the maps given to [UpsertTenantState]; the lists are
    the maps in the order visited. *)
Fixpoint write_props (ns : namespace) (reg : TenantRegistry) (tID : Z) (kvs : list (byte_string * byte_string)) : outcome TenantRegistry :=
  match kvs with
  | [] => Ret reg
  | (k, v) :: kvs => reg <-- write_prop ns reg tID k v ;; write_props ns reg tID kvs
  end.

Definition merge_props (kvs : list (byte_string * byte_string)) (p : gmap byte_string byte_string) : gmap byte_string byte_string :=
  foldl (fun p kv => <[kv.1:=kv.2]> p) p kvs.

Definition UpsertTenantState (m : RegistryManager) (aliases : list byte_string)
    (serviceURLs identifiers metadata : list (byte_string * byte_string)) : outcome RegistryManager :=
  match aliases with
  | [] => Ret m
  | alias :: others =>
    f <-- resolveOrCreateTenant m (activeOrEmpty m) alias ;;
    let '(tID, m, reg) := f in
    let m := set_aliasMap m (foldl (fun am a => <[a:=tID]> am) (aliasMap m) others) in
    reg <-- write_props NsURL reg tID serviceURLs ;;
    reg <-- write_props NsID reg tID identifiers ;;
    reg <-- write_props NsMeta reg tID metadata ;;
    g <-- rebuildAliasTable m ;;
    let reg := with_aliases reg g.1 in
    let '(entries, m) := range_aliases g.2 in
    let rec := with_rec_aliases (default empty_record (tenantData m !! tID)) (aliases_of entries tID) in
    let rec := with_props rec NsURL (merge_props serviceURLs (ServiceURLs rec)) in
    let rec := with_props rec NsID (merge_props identifiers (Identifiers rec)) in
    let rec := with_props rec NsMeta (merge_props metadata (Metadata rec)) in
    let m := set_Active (set_tenantData m (<[tID:=rec]> (tenantData m))) reg in
    Ret (persistTenantBatch m rec)
  end.

Definition zeroStoreRow (s : PropStore) (tid : Z) : PropStore :=
  if Stride s =? 0 then s
  else
    let start := u32 (tid * Stride s) in
    if u32 (Z.of_nat (length (Matrix s))) <? u32 (start + Stride s) then s
    else mkStore (take (Z.to_nat start) (Matrix s) ++ replicate (Z.to_nat (Stride s)) 0
                    ++ drop (Z.to_nat start + Z.to_nat (Stride s)) (Matrix s)) (Stride s) (Keys s) (StringPool s).

Definition zero_rows (reg : TenantRegistry) (tid : Z) : TenantRegistry :=
  mkReg (Aliases reg) (RateLimitConfigs reg) (TenantModifiers reg) (TenantRateLimits reg) (TenantV2Overrides reg)
    (zeroStoreRow (URLs reg) tid) (zeroStoreRow (IDs reg) tid) (zeroStoreRow (Meta reg) tid) (ValuePool reg) (MaxTenants reg).

Definition DeleteTenant (m : RegistryManager) (alias : byte_string) : outcome RegistryManager :=
  match aliasMap m !! alias with
  | None => Ret m
  | Some tID =>
    let primaryAlias := match tenantData m !! tID with
                        | Some rec => match rec_Aliases rec with a :: _ => a | [] => alias end
                        | None => alias
                        end in
    let m := set_aliasMap m (filter (fun e => e.2 <> tID) (aliasMap m)) in
    let reg := zero_rows (activeOrEmpty m) tID in
    let m := set_slots m (FreeSlots m ++ [tID]) (nextAvailableTenantID m) in
    g <-- rebuildAliasTable m ;;
    let m := set_Active g.2 (with_aliases reg g.1) in
    let m := set_tenantData m (delete tID (tenantData m)) in
    l <-- removeSortedTenantID (tenantIDs m) tID ;;
    Ret (persist (set_tenantIDs m l) [StoreDeleteTenant primaryAlias])
  end.

(** ** Test tenants *)

Definition test_alias (runID : byte_string) : byte_string := bytes_of "__test__" ++ runID.

Definition RegisterTestTenant (m : RegistryManager) (now : Z) (runID : byte_string) : outcome (RegistryManager * (byte_string * Z)) :=
  let tID := if nextTestTenantID m =? 0 then TestTenantRangeStart else nextTestTenantID m in
  let m := set_nextTest m (if TestTenantRangeEnd <=? tID then TestTenantRangeStart else tID + 1) in
  let al := test_alias runID in
  let m := set_aliasMap m (<[al:=tID]> (aliasMap m)) in
  l <-- insertSortedTenantID (tenantIDs m) tID ;;
  let m := set_tenantIDs m l in
  let m := set_tenantData m (<[tID:=mkRecord [al] ∅ ∅ ∅ now [] false false]> (tenantData m)) in
  let reg := grow_tenant (activeOrEmpty m) tID in
  g <-- rebuildAliasTable m ;;
  Ret (set_Active g.2 (with_aliases reg g.1), (al, tID)).

Definition DeleteTestTenant (m : RegistryManager) (runID : byte_string) : outcome RegistryManager :=
  DeleteTenant m (test_alias runID).

Definition expired_alias (m : RegistryManager) (cutoff tID : Z) : option byte_string :=
  if (tID <? TestTenantRangeStart) || (TestTenantRangeEnd <? tID) then None
  else
    rec ← tenantData m !! tID;
    if CreatedAt rec =? 0 then None
    else if CreatedAt rec <? cutoff then head (rec_Aliases rec) else None.

Fixpoint delete_tenants (m : RegistryManager) (aliases : list byte_string) : outcome RegistryManager :=
  match aliases with
  | [] => Ret m
  | al :: aliases => m <-- DeleteTenant m al ;; delete_tenants m aliases
  end.

Definition sweepExpiredTestTenants (m : RegistryManager) (now maxAgeSeconds : Z) : outcome RegistryManager :=
  delete_tenants m (omap (expired_alias m (i64 (now - maxAgeSeconds))) (tenantIDs m)).

(** ** Rate limits *)

(** [l[i] = x] after the slice has been grown to hold index [i]. *)
Definition put_grown {A} (d : A) (i : Z) (x : A) (l : list A) : list A := <[Z.to_nat i:=x]> (grow_slice d (i + 1) l).

Definition SetRateLimitConfig (m : RegistryManager) (configID : Z) (p : RateLimitConfig) : RegistryManager :=
  let reg := activeOrEmpty m in
  set_Active m (with_limits reg (put_grown empty_config configID p (RateLimitConfigs reg)) (TenantModifiers reg)
                  (TenantRateLimits reg) (TenantV2Overrides reg)).

Definition SetTenantRateLimitModifier (m : RegistryManager) (tenantID : Z) (md : TenantRateLimitModifier) : RegistryManager :=
  let reg := activeOrEmpty m in
  set_Active m (with_limits reg (RateLimitConfigs reg) (put_grown empty_modifier tenantID md (TenantModifiers reg))
                  (TenantRateLimits reg) (TenantV2Overrides reg)).

(** The tenant's table, made when there is none, with the entry put. *)
Definition upsert_override {E} (l : list (option (table E))) (tenantID id : Z) (e : E) : outcome (list (option (table E))) :=
  let l := grow_slice None (tenantID + 1) l in
  t <-- table_upsert (default (mkTable [] []) (mjoin (l !! Z.to_nat tenantID))) id e ;;
  Ret (<[Z.to_nat tenantID:=Some t]> l).

Definition UpsertTenantRateLimitOverride (m : RegistryManager) (tenantID policyID : Z) (e : TenantRateLimitEntry) : outcome RegistryManager :=
  let reg := activeOrEmpty m in
  l <-- upsert_override (TenantRateLimits reg) tenantID policyID e ;;
  Ret (set_Active m (with_limits reg (RateLimitConfigs reg) (TenantModifiers reg) l (TenantV2Overrides reg))).

Definition UpsertTenantV2Override (m : RegistryManager) (tenantID configID : Z) (e : TenantV2ConfigOverride) : outcome RegistryManager :=
  let reg := activeOrEmpty m in
  l <-- upsert_override (TenantV2Overrides reg) tenantID configID e ;;
  Ret (set_Active m (with_limits reg (RateLimitConfigs reg) (TenantModifiers reg) (TenantRateLimits reg) l)).

Definition DeleteTenantV2Override (m : RegistryManager) (tenantID configID : Z) : outcome RegistryManager :=
  let reg := activeOrEmpty m in
  match mjoin (TenantV2Overrides reg !! Z.to_nat tenantID) with
  | None => Ret m
  | Some t =>
    r <-- search_ids (ids t) configID ;;
    match r with
    | inr _ => Ret m
    | inl _ => t <-- table_remove t configID ;;
               Ret (set_Active m (with_limits reg (RateLimitConfigs reg) (TenantModifiers reg) (TenantRateLimits reg)
                                    (<[Z.to_nat tenantID:=Some t]> (TenantV2Overrides reg))))
    end
  end.

Definition UpsertNamedRateLimitConfig (m : RegistryManager) (name : byte_string) (cfg : RateLimitConfig) : RegistryManager * Z :=
  match rateLimitNames m !! name with
  | Some id =>
    let reg := activeOrEmpty m in
    let reg := with_limits reg (<[Z.to_nat id:=cfg]> (RateLimitConfigs reg)) (TenantModifiers reg) (TenantRateLimits reg) (TenantV2Overrides reg) in
    (persist (set_Active m reg) [PutRateLimitConfig name cfg], id)
  | None =>
    let id := u16 (nextRLConfigID m + 1) in
    let m := set_names m (<[name:=id]> (rateLimitNames m)) id in
    (persist (SetRateLimitConfig m id cfg) [PutRateLimitConfig name cfg], id)
  end.

Definition GetRateLimitConfigId (m : RegistryManager) (name : byte_string) : option Z := rateLimitNames m !! name.

Definition GetRateLimitConfig (m : RegistryManager) (name : byte_string) : option RateLimitConfig :=
  id ← rateLimitNames m !! name;
  Some (default empty_config (Active m ≫= fun reg => RateLimitConfigs reg !! Z.to_nat id)).

Definition EnsureRateLimitV2ID (m : RegistryManager) (name : byte_string) : RegistryManager * Z :=
  match rateLimitNames m !! name with
  | Some id => (m, id)
  | None => let id := u16 (nextRLConfigID m + 1) in (set_names m (<[name:=id]> (rateLimitNames m)) id, id)
  end.

(** ** Debugging switches of a tenant *)

Definition set_debug (rec : TenantRecord) (level : byte_string) (on : bool) : TenantRecord :=
  mkRecord (rec_Aliases rec) (ServiceURLs rec) (Identifiers rec) (Metadata rec) (CreatedAt rec) level on on.

(** [None]: the tenant is unknown. *)
Definition SetTenantDebug (m : RegistryManager) (alias : byte_string) (enabled : bool) : option RegistryManager :=
  tID ← aliasMap m !! alias;
  let '(rec, m) := ensureTenantRecord m tID in
  let rec := set_debug rec (if enabled then bytes_of "debug" else []) enabled in
  Some (persistTenantBatch (set_tenantData m (<[tID:=rec]> (tenantData m))) rec).

Definition log_levels : list byte_string := [bytes_of "debug"; bytes_of "info"; bytes_of "warn"; bytes_of "error"; []].

Definition SetTenantLogLevel (m : RegistryManager) (alias level : byte_string) : option RegistryManager :=
  if negb (bool_decide (level ∈ log_levels)) then None
  else
    tID ← aliasMap m !! alias;
    let '(rec, m) := ensureTenantRecord m tID in
    let rec := mkRecord (rec_Aliases rec) (ServiceURLs rec) (Identifiers rec) (Metadata rec) (CreatedAt rec) level
                 (DebugEnabled rec) (TraceFull rec) in
    Some (persistTenantBatch (set_tenantData m (<[tID:=rec]> (tenantData m))) rec).

(** [(1.0, true)] or [(0, false)] *)
Definition TenantTraceSampleRate (m : RegistryManager) (tenantID : Z) : bool :=
  match tenantData m !! tenantID with Some rec => DebugEnabled rec || TraceFull rec | None => false end.

Definition TenantName (m : RegistryManager) (tID : Z) : byte_string :=
  match tenantData m !! tID with Some rec => default [] (head (rec_Aliases rec)) | None => [] end.

(** ** Restoring a snapshot of the datastore *)

Record StoredTenant : Type := mkStored {
  st_Aliases : list byte_string; PersistedID : Z;
  st_URLs : list (byte_string * byte_string); st_IDs : list (byte_string * byte_string); st_Meta : list (byte_string * byte_string) }.

Record TenantV2OverrideRecord : Type := mkV2Record {
  ov_Alias : byte_string; ov_Config : byte_string; ov_Blocked : bool; ov_RLDisabled : bool; ov_Scale : Z; ov_Limits : list Z }.

Record TenantModifierRecord : Type := mkModRecord { md_Alias : byte_string; md_Scale : Z; md_Blocked : bool; md_RLDisabled : bool }.

Record RegistrySnapshot : Type := mkSnapshot {
  sn_Tenants : list StoredTenant; sn_RateLimits : list (byte_string * RateLimitConfig);
  V2Overrides : list TenantV2OverrideRecord; Modifiers : list TenantModifierRecord }.

Definition flags_of (blocked disabled : bool) : Z := Z.lor (if blocked then 1 else 0) (if disabled then 2 else 0).

Definition restore_tenant (m : RegistryManager) (t : StoredTenant) : outcome RegistryManager :=
  match st_Aliases t with
  | [] => Ret m
  | primary :: _ =>
    m <-- (if PersistedID t =? 0 then Ret m
           else
             let m := forceAssignTenantID m (PersistedID t) in
             match aliasMap m !! primary with
             | Some _ => Ret m
             | None =>
               let m := set_aliasMap m (<[primary:=PersistedID t]> (aliasMap m)) in
               l <-- insertSortedTenantID (tenantIDs m) (PersistedID t) ;;
               Ret (set_tenantIDs m l)
             end) ;;
    UpsertTenantState m (st_Aliases t) (st_URLs t) (st_IDs t) (st_Meta t)
  end.

Fixpoint restore_tenants (m : RegistryManager) (ts : list StoredTenant) : outcome RegistryManager :=
  match ts with
  | [] => Ret m
  | t :: ts => m <-- restore_tenant m t ;; restore_tenants m ts
  end.

Fixpoint restore_overrides (m : RegistryManager) (l : list TenantV2OverrideRecord) : outcome RegistryManager :=
  match l with
  | [] => Ret m
  | ov :: l =>
    m <-- match aliasMap m !! ov_Alias ov, rateLimitNames m !! ov_Config ov with
          | Some tID, Some configID =>
            UpsertTenantV2Override m tID configID (mkV2 (flags_of (ov_Blocked ov) (ov_RLDisabled ov)) (ov_Scale ov) (ov_Limits ov))
          | _, _ => Ret m
          end ;;
    restore_overrides m l
  end.

Definition restore_modifier (m : RegistryManager) (md : TenantModifierRecord) : RegistryManager :=
  match aliasMap m !! md_Alias md with
  | None => m
  | Some tID => SetTenantRateLimitModifier m tID (mkModifier (md_Scale md) (flags_of (md_Blocked md) (md_RLDisabled md)))
  end.

Definition RestoreFromSnapshot (m : RegistryManager) (snap : RegistrySnapshot) : outcome RegistryManager :=
  let m := foldl (fun m rl => (UpsertNamedRateLimitConfig m rl.1 rl.2).1) m (sn_RateLimits snap) in
  m <-- restore_tenants m (sn_Tenants snap) ;;
  m <-- restore_overrides m (V2Overrides snap) ;;
  Ret (foldl restore_modifier m (Modifiers snap)).
End manager.
