(* ===== verification/RegistrySteps.v ===== *)
(** * The registry steps of a flow

    [internal/engine/steps/registry.go]: resolving the tenant of a request and
    loading, writing and deleting its properties.  The values in the slots are
    byte strings (the steps store slices of the value pool, which is never
    overwritten). *)

From S2P Require Import Prelude Registry RegistryManager.

Local Open Scope Z_scope.
Local Open Scope rah_scope.

(** The part of the request context the steps use. *)
Record RegCtx : Type := mkRegCtx { rc_ByteSlots : list byte_string; rc_ResponseStatus : Z; rc_TenantID : Z; rc_TenantKey : byte_string }.

Definition reg_status (ctx : RegCtx) (st : Z) : RegCtx := mkRegCtx (rc_ByteSlots ctx) st (rc_TenantID ctx) (rc_TenantKey ctx).
Definition set_tenant (ctx : RegCtx) (tID : Z) (alias : byte_string) : RegCtx := mkRegCtx (rc_ByteSlots ctx) (rc_ResponseStatus ctx) tID alias.

(** [ctx.ByteSlots[slot] = val] *)
Definition store_slot (ctx : RegCtx) (slot : Z) (val : byte_string) : outcome RegCtx :=
  _ <-- go_index (rc_ByteSlots ctx) slot ;;
  Ret (mkRegCtx (<[Z.to_nat slot:=val]> (rc_ByteSlots ctx)) (rc_ResponseStatus ctx) (rc_TenantID ctx) (rc_TenantKey ctx)).

(** [keySlot >= len(ctx.ByteSlots) || len(ctx.ByteSlots[keySlot]) == 0] *)
Definition slot_value (ctx : RegCtx) (slot : Z) : outcome byte_string :=
  if Z.of_nat (length (rc_ByteSlots ctx)) <=? slot then Ret [] else go_index (rc_ByteSlots ctx) slot.

Section steps.
Context (hash : byte_string -> Z) (iter : nat -> gmap byte_string Z -> list (byte_string * Z)).

Definition RegistryLookup (keySlot onHitJumpPC : Z) (active : option TenantRegistry) (ctx : RegCtx) (pc : Z) : outcome (RegCtx * Z) :=
  alias <-- slot_value ctx keySlot ;;
  match alias, active with
  | [], _ => Ret (reg_status ctx 401, StopPlan)
  | _, None => Ret (reg_status ctx 503, StopPlan)
  | _, Some reg =>
    f <-- AliasLookup hash (Aliases reg) alias ;;
    Ret (match f with
         | None => if 0 <=? onHitJumpPC then (ctx, i16 (pc + 1)) else (reg_status ctx 401, StopPlan)
         | Some tID => (set_tenant ctx tID alias, if 0 <=? onHitJumpPC then onHitJumpPC else i16 (pc + 1))
         end)
  end.

(** [LoadServiceURL], [LoadIdentifier], [LoadMeta] *)
Definition LoadProp (ns : namespace) (keyID destSlot : Z) (active : option TenantRegistry) (ctx : RegCtx) (pc : Z) : outcome (RegCtx * Z) :=
  match GetByKeyID ns active (rc_TenantID ctx) keyID with
  | Some val => ctx <-- store_slot ctx destSlot val ;; Ret (ctx, i16 (pc + 1))
  | None => Ret (ctx, i16 (pc + 1))
  end.

Definition LoadServiceURLVar (keySlot destSlot : Z) (active : option TenantRegistry) (ctx : RegCtx) (pc : Z) : outcome (RegCtx * Z) :=
  keyName <-- slot_value ctx keySlot ;;
  match keyName with
  | [] => Ret (ctx, i16 (pc + 1))
  | _ =>
    r <-- GetURLByKeyName active (rc_TenantID ctx) keyName ;;
    match r with
    | Some val => ctx <-- store_slot ctx destSlot val ;; Ret (ctx, i16 (pc + 1))
    | None => Ret (ctx, i16 (pc + 1))
    end
  end.

(** [SetServiceURL], [SetIdentifier], [SetMeta] *)
Definition SetProp (ns : namespace) (name : byte_string) (srcSlot : Z) (m : RegistryManager) (ctx : RegCtx) (pc : Z) : outcome (RegistryManager * Z) :=
  val <-- slot_value ctx srcSlot ;;
  match val with
  | [] => Ret (m, i16 (pc + 1))
  | _ => m <-- AddProp hash iter ns m (rc_TenantKey ctx) name val ;; Ret (m, i16 (pc + 1))
  end.

(** [DeleteServiceURL], [DeleteIdentifier], [DeleteMeta] *)
Definition DeletePropStep (ns : namespace) (name : byte_string) (m : RegistryManager) (ctx : RegCtx) (pc : Z) : outcome (RegistryManager * Z) :=
  m <-- DeleteProp iter ns m (rc_TenantKey ctx) name ;; Ret (m, i16 (pc + 1)).
End steps.
