(* ===== verification/RegistryAliases.v ===== *)
(** * The alias table is a map

    The open-addressing table that [rebuildAliasTable] builds from the alias
    map answers [Lookup] like the map, whatever the hash function and the
    order of the entries: a probe never runs for ever and never compares
    outside the string arena. *)

From S2P Require Import Prelude Bits Registry.

Local Open Scope Z_scope.
Local Open Scope rah_scope.

(** ** The size of the table *)

Lemma nextPow2_32_spec m : 2 <= m <= 2 ^ 31 ->
  exists j, 1 <= j <= 31 /\ nextPow2_32 m = 2 ^ j /\ m <= 2 ^ j < 2 * m.
Proof.
  intros Hm. unfold nextPow2_32. destruct (Z.eqb_spec m 0); [lia|]. cbv zeta. rewrite (wrapu_small 32 (m - 1)) by lia.
  assert (smeared (m - 1) 1 (m - 1)) as H0.
  { intros i Hi. split; [intros Hb; exists i; split; [lia|done]|]. intros (j & Hj & Hb). by replace i with j by lia. }
  apply (smeared_double _ 1 _ ltac:(lia)), (smeared_double _ 2 _ ltac:(lia)),
    (smeared_double _ 4 _ ltac:(lia)), (smeared_double _ 8 _ ltac:(lia)), (smeared_double _ 16 _ ltac:(lia)) in H0.
  apply (smeared_ones 32 (m - 1)) in H0; [|lia|lia|].
  2:{ repeat (apply Z.lor_nonneg; split; [|apply Z.shiftr_nonneg]); lia. }
  rewrite H0. exists (Z.log2 (m - 1) + 1).
  pose proof (Z.log2_nonneg (m - 1)). pose proof (Z.log2_spec (m - 1) ltac:(lia)) as [Hlo Hhi].
  assert (Z.log2 (m - 1) < 31) by (apply Z.log2_lt_pow2; lia).
  rewrite Z.ones_equiv. replace (Z.pred (2 ^ (Z.log2 (m - 1) + 1)) + 1) with (2 ^ (Z.log2 (m - 1) + 1)) by lia.
  rewrite Z.add_1_r in *. split; [lia|]. split; [|rewrite Z.pow_succ_r in * by lia; lia].
  apply wrapu_small. split; [lia|]. apply Z.pow_lt_mono_r; lia.
Qed.

Lemma table_size_spec n : 0 < n < 65536 -> exists k, 3 <= k <= 31 /\ table_size n = 2 ^ k /\ n < 2 ^ k.
Proof.
  intros Hn. unfold table_size. assert (2 <= 4 * n / 3 + 1 <= 2 ^ 17 /\ n < 4 * n / 3 + 1) as [Hm Hlt] by div_lia.
  rewrite wrapu_small by (change (2 ^ 17) with 131072 in Hm; change (2 ^ 32) with 4294967296; lia).
  destruct (nextPow2_32_spec (4 * n / 3 + 1)) as (j & Hj & -> & Hl).
  { change (2 ^ 17) with 131072 in Hm. change (2 ^ 31) with 2147483648. lia. }
  destruct (Z.ltb_spec (2 ^ j) 8) as [H8|H8].
  - exists 3. change (2 ^ 3) with 8. lia.
  - exists j. split; [|split; [done|lia]]. split; [|lia]. apply Z.nlt_ge. intros ?.
    assert (2 ^ j < 2 ^ 3) by (apply Z.pow_lt_mono_r; lia). change (2 ^ 3) with 8 in *. lia.
Qed.

Lemma NoDup_fst_inj {A B} (l : list (A * B)) a b b' : NoDup l.*1 -> (a, b) ∈ l -> (a, b') ∈ l -> b = b'.
Proof.
  intros Hnd [i Hi]%list_elem_of_lookup [j Hj]%list_elem_of_lookup.
  assert (i = j) as -> by (apply (NoDup_lookup l.*1 i j a); [done| |]; rewrite list_lookup_fmap; [by rewrite Hi|by rewrite Hj]).
  congruence.
Qed.

(** ** Linear probing *)

Section probing.
Context (hash : byte_string -> Z) (k : Z) (Hk : 3 <= k <= 31).

Abbreviation N := (2 ^ k).
Abbreviation mask := (u32 (2 ^ k - 1)).

Lemma size_pos : 8 <= N <= 2 ^ 31.
Proof using Hk. change 8 with (2 ^ 3). split; apply Z.pow_le_mono_r; lia. Qed.

Lemma mask_ones : mask = Z.ones k.
Proof using Hk. pose proof size_pos. rewrite Z.ones_equiv, wrapu_small; lia. Qed.

Lemma home_slot h : Z.land (u32 h) mask = h mod N.
Proof using Hk.
  rewrite mask_ones, Z.land_ones by lia. unfold wrapu. apply Z.mod_mod_divide.
  exists (2 ^ (32 - k)). rewrite <- Z.pow_add_r by lia. f_equal. lia.
Qed.

(** The [d]-th position of a probe that starts at [s]. *)
Definition pos (s d : Z) : Z := (s + d) mod N.

Lemma pos_range s d : 0 <= pos s d < N.
Proof using Hk. apply Z.mod_pos_bound. pose proof size_pos. lia. Qed.

Lemma pos_step s d : pos (pos s 1) d = pos s (d + 1).
Proof using Hk. pose proof size_pos. unfold pos. rewrite Zplus_mod_idemp_l. f_equal. lia. Qed.

Lemma pos_0 s : 0 <= s < N -> pos s 0 = s.
Proof using Hk. intros Hs. unfold pos. rewrite Z.add_0_r. by apply Z.mod_small. Qed.

Lemma next_slot s : 0 <= s < N -> Z.land (u32 (s + 1)) mask = pos s 1.
Proof using Hk. intros Hs. apply home_slot. Qed.

(** A position some probe from [s] reaches. *)
Lemma pos_onto s e : 0 <= e < N -> exists d, 0 <= d < N /\ pos s d = e.
Proof using Hk.
  intros He. pose proof size_pos. exists ((e - s) mod N). split; [apply Z.mod_pos_bound; lia|].
  unfold pos. rewrite Zplus_mod_idemp_r. replace (s + (e - s)) with e by lia. by apply Z.mod_small.
Qed.

Definition free (s : AliasSlot) : Prop := as_TenantID s = 0.

#[local] Instance free_dec s : Decision (free s).
Proof. unfold free. apply _. Defined.

(** The slot of an alias. *)
Definition holds (arena : byte_string) (s : AliasSlot) (e : byte_string * Z) : Prop :=
  as_TenantID s = e.2 /\ e.2 <> 0 /\ as_Hash s = hash e.1 /\
  0 <= as_Offset s <= as_Offset s + as_Len s /\ as_Offset s + as_Len s < 2 ^ 32 /\ go_slice arena (as_Offset s) (as_Offset s + as_Len s) = Ret e.1.

Definition slot_at (slots : list AliasSlot) (i : Z) (P : AliasSlot -> Prop) : Prop :=
  exists s, slots !! Z.to_nat i = Some s /\ P s.

Record placed_ok (slots : list AliasSlot) (arena : byte_string) (placed : list (byte_string * Z)) : Prop := {
  po_len : Z.of_nat (length slots) = N;
  po_count : (length (filter (fun s => ~ free s) slots) = length placed)%nat;
  po_slots : forall (i : nat) (s : AliasSlot), slots !! i = Some s -> free s \/ exists e, e ∈ placed /\ holds arena s e;
  po_found : forall e, e ∈ placed ->
    exists d, 0 <= d < N /\ slot_at slots (pos (hash e.1 mod N) d) (fun s => holds arena s e) /\
              forall j, 0 <= j < d -> slot_at slots (pos (hash e.1 mod N) j) (fun s => ~ free s)
}.

Lemma slot_index slots i P : 0 <= i -> slot_at slots i P -> exists s, go_index slots i = Ret s /\ P s.
Proof using. intros Hi (s & E & HP). exists s. split; [by apply go_index_Z|done]. Qed.

Lemma some_slot (slots : list AliasSlot) i : Z.of_nat (length slots) = N -> 0 <= i < N -> exists s, slots !! Z.to_nat i = Some s.
Proof using Hk. intros Hl Hi. apply lookup_lt_is_Some_2. lia. Qed.

(** A table that is not full has a free slot, which every probe reaches. *)
Lemma free_slot slots arena placed s : placed_ok slots arena placed -> Z.of_nat (length placed) < N ->
  exists d, 0 <= d < N /\ slot_at slots (pos s d) free.
Proof using Hk.
  intros [Hl Hc _ _] Hn. destruct (decide (Exists free slots)) as [He|He].
  - apply Exists_exists in He as (x & [i Hi]%list_elem_of_lookup & Hx). apply lookup_lt_Some in Hi as ?.
    destruct (pos_onto s (Z.of_nat i)) as (d & Hd & Ed); [lia|]. exists d. split; [done|]. exists x. by rewrite Ed, Nat2Z.id.
  - exfalso. rewrite <- Forall_Exists_neg, Forall_forall in He. rewrite filter_every in Hc by done. lia.
Qed.

(** Looking up: a probe stops at the first slot that is free or the alias's. *)
Lemma alias_loop_found slots arena m placed a t d : forall fuel s, placed_ok slots arena placed -> NoDup placed.*1 -> (a, t) ∈ placed ->
  0 <= s < N -> 0 <= d < Z.of_nat fuel -> slot_at slots (pos s d) (fun x => holds arena x (a, t)) ->
  (forall j, 0 <= j < d -> slot_at slots (pos s j) (fun x => ~ free x)) -> m = mask ->
  alias_loop fuel (mkAliasTable slots m arena) (hash a) a s = Ret (Some t).
Proof using Hk.
  intros fuel. revert d. induction fuel as [|fuel IH]; intros d s Hp Hnd Hin Hs Hd Hat Hbefore ->; [lia|].
  assert (slot_at slots s (fun x => exists e, e ∈ placed /\ holds arena x e)) as Hslot.
  { destruct (decide (d = 0)) as [->|].
    - rewrite pos_0 in Hat by done. destruct Hat as (x & E & Hx). exists x. eauto.
    - destruct (Hbefore 0) as (x & E & Hx); [lia|]. rewrite pos_0 in E by done. exists x. split; [done|].
      destruct (po_slots _ _ _ Hp _ _ E) as [?|?]; done. }
  apply slot_index in Hslot as (x & E & [a' t'] & Hin' & Ht & Ht0 & Hh & Ho & Hb & Hsl); [|lia]. cbn [fst snd] in *.
  cbn [alias_loop at_Slots at_Mask StringArena]. rewrite E. cbn [obind].
  destruct (Z.eqb_spec (as_TenantID x) 0); [congruence|].
  assert (a' = a -> t' = t) as Huniq.
  { intros ->. by apply (NoDup_fst_inj placed a). }
  assert (forall hit, hit = bool_decide (a' = a) ->
    (if hit : bool then Ret (Some (as_TenantID x)) else alias_loop fuel (mkAliasTable slots mask arena) (hash a) a (Z.land (u32 (s + 1)) mask))
    = Ret (Some t)) as Hgo.
  { intros hit ->. case_bool_decide as Ea; [by rewrite Ht, (Huniq Ea)|]. rewrite next_slot by done.
    assert (d <> 0).
    { intros ->. rewrite pos_0 in Hat by done. destruct Hat as (y & Ey & (_ & _ & _ & _ & _ & Hy)). cbn in Hy.
      apply go_index_Ret in E as [_ E]. rewrite E in Ey. injection Ey as <-. congruence. }
    apply (IH (d - 1)); try done; [apply pos_range|lia|rewrite pos_step; by replace (d - 1 + 1) with d by lia|].
    intros j Hj. rewrite pos_step. apply Hbefore. lia. }
  destruct (Z.eqb_spec (as_Hash x) (hash a)) as [Eh|Eh].
  - rewrite wrapu_small, Hsl by lia. cbn [obind]. by apply Hgo.
  - cbn [obind]. apply (Hgo false). rewrite bool_decide_eq_false_2; [done|]. intros ->. congruence.
Qed.

Lemma alias_loop_absent slots arena m placed a d : forall fuel s, placed_ok slots arena placed -> a ∉ placed.*1 ->
  0 <= s < N -> 0 <= d < Z.of_nat fuel -> slot_at slots (pos s d) free -> m = mask ->
  alias_loop fuel (mkAliasTable slots m arena) (hash a) a s = Ret None.
Proof using Hk.
  intros fuel. revert d. induction fuel as [|fuel IH]; intros d s Hp Hn Hs Hd Hat ->; [lia|].
  destruct (some_slot slots s (po_len _ _ _ Hp) Hs) as [x E].
  cbn [alias_loop at_Slots at_Mask StringArena]. rewrite (go_index_Z _ _ x) by (done || lia). cbn [obind].
  destruct (Z.eqb_spec (as_TenantID x) 0) as [|Hx]; [done|].
  assert (alias_loop fuel (mkAliasTable slots mask arena) (hash a) a (Z.land (u32 (s + 1)) mask) = Ret None) as Hgo.
  { rewrite next_slot by done. assert (d <> 0) by (intros ->; rewrite pos_0 in Hat by done; destruct Hat as (y & Ey & Hy); congruence).
    apply (IH (d - 1)); try done; [apply pos_range|lia|]. rewrite pos_step. by replace (d - 1 + 1) with d by lia. }
  destruct (po_slots _ _ _ Hp _ _ E) as [?|([a' t'] & Hin & _ & _ & _ & Ho & Hb & Hsl)]; [done|]. cbn [fst snd] in *.
  destruct (as_Hash x =? hash a); cbn [obind]; [|done]. rewrite wrapu_small, Hsl by lia. cbn [obind].
  rewrite bool_decide_eq_false_2; [done|]. intros ->. apply Hn, list_elem_of_fmap. by exists (a, t').
Qed.

(** Inserting: the first free slot of the probe. *)
Lemma probe_ok slots d : forall fuel s, Z.of_nat (length slots) = N -> 0 <= s < N -> 0 <= d < Z.of_nat fuel -> slot_at slots (pos s d) free ->
  exists e, 0 <= e <= d /\ probe fuel slots mask s = Ret (pos s e) /\ slot_at slots (pos s e) free /\
            forall j, 0 <= j < e -> slot_at slots (pos s j) (fun x => ~ free x).
Proof using Hk.
  intros fuel. revert d. induction fuel as [|fuel IH]; intros d s Hl Hs Hd Hat; [lia|].
  destruct (some_slot slots s Hl Hs) as [x E]. cbn [probe]. rewrite (go_index_Z _ _ x) by (done || lia). cbn [obind].
  destruct (Z.eqb_spec (as_TenantID x) 0) as [Hx|Hx].
  - exists 0. rewrite pos_0 by done. split; [lia|]. split; [done|]. split; [by exists x|]. lia.
  - assert (d <> 0) by (intros ->; rewrite pos_0 in Hat by done; destruct Hat as (y & Ey & Hy); congruence).
    rewrite next_slot by done. destruct (IH (d - 1) (pos s 1)) as (e & He & -> & Hf & Hb); [done|apply pos_range|lia| |].
    { rewrite pos_step. by replace (d - 1 + 1) with d by lia. }
    rewrite pos_step in *. exists (e + 1). split; [lia|]. split; [done|]. split; [done|].
    intros j Hj. destruct (decide (j = 0)) as [->|]; [rewrite pos_0 by done; by exists x|].
    replace j with (j - 1 + 1) by lia. rewrite <- pos_step. apply Hb. lia.
Qed.

Lemma go_slice_app {A} (l l' : list A) a b r : go_slice l a b = Ret r -> go_slice (l ++ l') a b = Ret r.
Proof using.
  unfold go_slice. rewrite length_app. destruct (Z.leb_spec 0 a), (Z.leb_spec a b), (Z.leb_spec b (Z.of_nat (length l))); try done.
  intros [= <-]. rewrite (proj2 (Z.leb_le b _)) by lia. cbn [andb]. f_equal. rewrite drop_app_le by lia. rewrite take_app_le; [done|].
  rewrite length_drop. lia.
Qed.

Lemma holds_app arena more s e : holds arena s e -> holds (arena ++ more) s e.
Proof using. intros (? & ? & ? & ? & ? & ?). repeat split; try (done || lia). by apply go_slice_app. Qed.

Lemma filter_insert_length (slots : list AliasSlot) i x y : slots !! i = Some x -> free x -> ~ free y ->
  length (filter (fun s => ~ free s) (<[i:=y]> slots)) = S (length (filter (fun s => ~ free s) slots)).
Proof using.
  intros E Hx Hy. rewrite insert_take_drop by (by eapply lookup_lt_Some).
  rewrite <- (take_drop_middle _ _ _ E) at 3. rewrite !filter_app, !length_app, (filter_cons_True _ y), (filter_cons_False _ x) by auto.
  cbn. lia.
Qed.

Definition slot_of (arena : byte_string) (e : byte_string * Z) : AliasSlot :=
  mkAlias (hash e.1) (u32 (Z.of_nat (length arena))) (u16 (Z.of_nat (length e.1))) e.2.

Lemma holds_new arena e : e.2 <> 0 -> Z.of_nat (length e.1) < 65536 -> Z.of_nat (length arena) + Z.of_nat (length e.1) < 2 ^ 32 ->
  holds (arena ++ e.1) (slot_of arena e) e.
Proof using.
  intros H0 Hl Hb. unfold holds, slot_of. cbn [as_TenantID as_Hash as_Offset as_Len]. change (2 ^ 32) with 4294967296 in *.
  rewrite !wrapu_small by lia. repeat split; try (done || lia). unfold go_slice. rewrite length_app.
  rewrite !(proj2 (Z.leb_le _ _)) by lia. cbn [andb]. f_equal. rewrite Nat2Z.id, drop_app_length, take_ge; [done|lia].
Qed.

Lemma slot_at_insert (slots : list AliasSlot) i j y P : Z.to_nat j <> i -> slot_at slots j P -> slot_at (<[i:=y]> slots) j P.
Proof using. intros Hne (s & E & HP). exists s. by rewrite list_lookup_insert_ne. Qed.

Lemma slot_at_insert_mono (slots : list AliasSlot) i j x y (P : AliasSlot -> Prop) : slots !! i = Some x -> P y -> slot_at slots j P -> slot_at (<[i:=y]> slots) j P.
Proof using.
  intros E Hy (s & Es & HP). destruct (decide (Z.to_nat j = i)) as [<-|]; [|by apply slot_at_insert; [|exists s]].
  exists y. rewrite list_lookup_insert_eq; [done|by eapply lookup_lt_Some].
Qed.

Lemma placed_step slots arena placed e d x : placed_ok slots arena placed -> e.2 <> 0 -> Z.of_nat (length e.1) < 65536 ->
  Z.of_nat (length arena) + Z.of_nat (length e.1) < 2 ^ 32 -> 0 <= d < N ->
  slots !! Z.to_nat (pos (hash e.1 mod N) d) = Some x -> free x ->
  (forall j, 0 <= j < d -> slot_at slots (pos (hash e.1 mod N) j) (fun x => ~ free x)) ->
  placed_ok (<[Z.to_nat (pos (hash e.1 mod N) d):=slot_of arena e]> slots) (arena ++ e.1) (e :: placed).
Proof using.
  intros Hp H0 Hlen Hb Hd Ex Hx Hbefore. assert (~ free (slot_of arena e)) as Hnf by done. apply lookup_lt_Some in Ex as Hlt.
  pose proof (holds_new arena e H0 Hlen Hb) as Hnew. constructor.
  - rewrite length_insert. apply Hp.
  - rewrite (filter_insert_length _ _ x) by done. cbn. f_equal. apply Hp.
  - intros i s [(<- & <- & _)|[Hne E]]%list_lookup_insert_Some.
    + right. exists e. split; [by left|done].
    + destruct (po_slots _ _ _ Hp _ _ E) as [?|(e' & Hin & Hh)]; [by left|right].
      exists e'. split; [by right|by apply holds_app].
  - intros e' [->|Hin]%elem_of_cons.
    + exists d. split; [done|]. split; [exists (slot_of arena e); by rewrite list_lookup_insert_eq|].
      intros j Hj. eapply slot_at_insert_mono; eauto.
    + destruct (po_found _ _ _ Hp _ Hin) as (d' & Hd' & (s & Es & Hs) & Hb'). exists d'. split; [done|]. split.
      * apply slot_at_insert; [|exists s; split; [done|by apply holds_app]].
        intros E. rewrite E, Ex in Es. injection Es as ->. destruct Hs as (Hs1 & Hs2 & _). congruence.
      * intros j Hj. eapply slot_at_insert_mono; eauto.
Qed.

Definition entry_ok (e : byte_string * Z) : Prop := e.2 <> 0 /\ Z.of_nat (length e.1) < 65536.

Lemma place_all_ok es : forall slots arena placed, placed_ok slots arena placed -> Forall entry_ok es ->
  Z.of_nat (length placed) + Z.of_nat (length es) < N -> Z.of_nat (length arena + sum_list_with (fun e => length e.1) es) < 2 ^ 32 ->
  exists slots' arena', place_all hash es slots mask arena = Ret (slots', arena') /\ placed_ok slots' arena' (reverse es ++ placed).
Proof using Hk.
  induction es as [|[a t] es IH]; intros slots arena placed Hp Hok Hn Hb.
  { exists slots, arena. done. }
  apply Forall_cons in Hok as [[H0 Hlen] Hok]. cbn [length sum_list_with fst snd] in *.
  destruct (free_slot slots arena placed (hash a mod N) Hp ltac:(lia)) as (d & Hd & Hf).
  cbn [place_all]. rewrite home_slot. assert (0 <= hash a mod N < N) as Hr by (apply Z.mod_pos_bound; pose proof size_pos; lia).
  destruct (probe_ok slots d (S (length slots)) (hash a mod N) (po_len _ _ _ Hp) Hr) as (e & He & -> & (x & Ex & Hx) & Hbefore); [|done|].
  { rewrite Nat2Z.inj_succ, (po_len _ _ _ Hp). lia. }
  cbn [obind]. pose proof (placed_step slots arena placed (a, t) e x Hp H0 Hlen ltac:(cbn [fst]; lia) ltac:(lia) Ex Hx Hbefore) as Hp'.
  destruct (IH _ _ _ Hp' Hok) as (slots' & arena' & E & Hp''); [cbn [length]; lia|rewrite length_app; cbn [fst]; lia|].
  exists slots', arena'. split; [exact E|]. by rewrite reverse_cons, <- app_assoc.
Qed.

Lemma placed_empty : placed_ok (replicate (Z.to_nat N) empty_alias) [] [].
Proof using Hk.
  pose proof size_pos. constructor.
  - rewrite length_replicate. lia.
  - induction (Z.to_nat N); [done|]. cbn [replicate]. rewrite filter_cons_False by (intros Hn; by apply Hn). done.
  - intros i s [-> _]%lookup_replicate. by left.
  - intros e He. by apply elem_of_nil in He.
Qed.

Lemma alias_lookup_ok slots arena placed a : placed_ok slots arena placed -> NoDup placed.*1 -> Z.of_nat (length placed) < N ->
  exists r, AliasLookup hash (mkAliasTable slots mask arena) a = Ret r /\
            match r with Some t => (a, t) ∈ placed | None => a ∉ placed.*1 end.
Proof using Hk.
  intros Hp Hnd Hn. pose proof size_pos. unfold AliasLookup. cbn [at_Slots at_Mask].
  assert (Z.of_nat (length slots) = N) as Hl by apply Hp.
  assert (0 <= hash a mod N < N) as Hr by (apply Z.mod_pos_bound; lia).
  destruct slots as [|x0 slots0] eqn:Es; [cbn in Hl; lia|]. rewrite <- Es in *. clear Es. rewrite home_slot.
  destruct (decide (a ∈ placed.*1)) as [([a' t] & -> & Hin)%list_elem_of_fmap|Hno].
  - exists (Some t). split; [|done]. destruct (po_found _ _ _ Hp _ Hin) as (d & Hd & Hat & Hbefore).
    apply (alias_loop_found slots arena mask placed a' t d); try done. lia.
  - exists None. split; [|done]. destruct (free_slot slots arena placed (hash a mod N) Hp Hn) as (d & Hd & Hf).
    apply (alias_loop_absent slots arena mask placed a d); try done. lia.
Qed.
End probing.

(** ** The table of a map *)

Lemma sum_lengths_le (es : list (byte_string * Z)) : Forall entry_ok es ->
  Z.of_nat (sum_list_with (fun e => length e.1) es) <= 65535 * Z.of_nat (length es).
Proof. induction 1 as [|e es [_ He] _ IH]; cbn [sum_list_with length]; lia. Qed.

(** The table built from a map, in whatever order, answers like the map. *)
Lemma build_table_ok (hash : byte_string -> Z) (am : gmap byte_string Z) es : es ≡ₚ map_to_list am -> Forall entry_ok es -> Z.of_nat (size am) < 65536 ->
  exists t, build_table hash es = Ret t /\ forall a, AliasLookup hash t a = Ret (am !! a).
Proof.
  intros Hperm Hok Hsz. assert (length es = size am) as Hlen by (by rewrite Hperm, length_map_to_list).
  assert (NoDup es.*1) as Hnd by (rewrite Hperm; apply NoDup_fst_map_to_list).
  assert (es <> [] -> exists t, build_table hash es = Ret t /\ forall a, AliasLookup hash t a = Ret (am !! a)) as Hmain.
  { intros Hne. assert (0 < Z.of_nat (length es)) by (destruct es; [done|cbn; lia]).
    destruct (table_size_spec (Z.of_nat (length es))) as (k & Hk & Ek & Hlt); [lia|].
    pose proof (sum_lengths_le es Hok). change (2 ^ 32) with 4294967296 in *.
    destruct (place_all_ok hash k Hk es _ [] [] (placed_empty hash k Hk) Hok) as (slots & arena & E & Hp); [cbn [length]; lia|cbn [length]; change (2 ^ 32) with 4294967296; lia|].
    exists (mkAliasTable slots (u32 (2 ^ k - 1)) arena). split.
    { unfold build_table. rewrite Ek, E. by destruct es. }
    intros a. rewrite app_nil_r in Hp. assert (NoDup (reverse es).*1) as Hnd' by (by rewrite fmap_reverse, (reverse_Permutation es.*1)).
    destruct (alias_lookup_ok hash k Hk slots arena _ a Hp Hnd') as (r & -> & Hr); [by rewrite length_reverse|]. f_equal. destruct r as [t|].
    - rewrite elem_of_reverse, Hperm, elem_of_map_to_list in Hr. done.
    - destruct (am !! a) as [t|] eqn:Ea; [|done]. exfalso. apply Hr, list_elem_of_fmap. exists (a, t). split; [done|].
      by rewrite elem_of_reverse, Hperm, elem_of_map_to_list. }
  destruct es as [|e0 es0]; [|by apply Hmain].
  assert (am = ∅) as -> by (apply map_size_empty_iff; by rewrite <- Hlen). eexists. split; [done|]. intros a. by rewrite lookup_empty.
Qed.
