(* ===== verification/RegistryStore.v ===== *)
(** * Property stores

    What the flat radix arena and the matrix of a [PropStore] mean: the keys
    in the order of their creation, and a value number for every tenant and
    key.  Expanding a store for a new key or more tenants keeps every cell. *)

From S2P Require Import Prelude Registry.

Local Open Scope Z_scope.
Local Open Scope rah_scope.

Abbreviation zlen l := (Z.of_nat (length l)).

(** ** Keys

    The names a namespace may use: no two start with the same byte. *)

Record names_ok (U : list byte_string) : Prop := {
  no_key : forall k, k ∈ U -> exists b rest, k = b :: rest /\ is_byte b /\ zlen k < 65536;
  no_head : forall k k', k ∈ U -> k' ∈ U -> head k = head k' -> k = k'
}.

Fixpoint leaves (off i : Z) (keys : list byte_string) : list RegistryNode :=
  match keys with
  | [] => []
  | k :: keys => mkRNode off (zlen k) 0 0 i :: leaves (off + zlen k) (i + 1) keys
  end.

Definition nodes_of (keys : list byte_string) : list RegistryNode :=
  match keys with [] => [] | _ => mkRNode 0 0 1 (zlen keys) 0 :: leaves 0 0 keys end.

Record store_ok (U : list byte_string) (rows : Z) (s : PropStore) (keys : list byte_string) : Prop := {
  so_nodup : NoDup keys;
  so_names : keys ⊆ U;
  so_nodes : Keys s = nodes_of keys;
  so_pool : StringPool s = concat keys;
  so_stride : Stride s = zlen keys;
  so_matrix : zlen (Matrix s) = rows * Stride s
}.

Definition key_index (keys : list byte_string) (k : byte_string) : option Z :=
  (fun p => Z.of_nat p.1) <$> list_find (fun k' => k' = k) keys.

Lemma leaves_lookup keys : forall off i j k, keys !! j = Some k ->
  leaves off i keys !! j = Some (mkRNode (off + zlen (concat (take j keys))) (zlen k) 0 0 (i + Z.of_nat j)).
Proof.
  induction keys as [|k0 keys IH]; intros off i j k E; [done|]. destruct j as [|j]; cbn in E.
  - injection E as ->. cbn. do 2 f_equal; lia.
  - cbn [leaves take concat]. cbn [lookup list_lookup]. rewrite (IH _ _ _ k E). rewrite length_app. do 2 f_equal; lia.
Qed.

Lemma leaves_length off i keys : length (leaves off i keys) = length keys.
Proof. revert off i. induction keys as [|k keys IH]; intros off i; [done|]. cbn. by rewrite IH. Qed.

Lemma leaves_snoc keys k : forall off i, leaves off i (keys ++ [k]) = leaves off i keys ++ [mkRNode (off + zlen (concat keys)) (zlen k) 0 0 (i + zlen keys)].
Proof.
  induction keys as [|k0 keys IH]; intros off i; cbn [app leaves concat].
  - cbn. do 2 f_equal; lia.
  - rewrite IH, length_app. cbn [length]. do 3 f_equal; f_equal; lia.
Qed.

(** Where a key's bytes lie in the pool. *)
Lemma concat_slice (keys : list byte_string) j k : keys !! j = Some k ->
  drop (length (concat (take j keys))) (concat keys) = k ++ concat (drop (S j) keys).
Proof. intros E. rewrite <- (take_drop_middle keys j k E) at 2. by rewrite concat_app, drop_app_length. Qed.

Lemma nodes_of_cons keys j k : keys !! j = Some k -> nodes_of keys = mkRNode 0 0 1 (zlen keys) 0 :: leaves 0 0 keys.
Proof. by destruct keys. Qed.

Section keys.
Context (U : list byte_string) (HU : names_ok U).

(** Distinct first bytes: at most 256 keys. *)
Lemma keys_bound keys : NoDup keys -> keys ⊆ U -> zlen keys <= 256.
Proof using HU.
  intros Hnd Hsub. set (f := fun k : byte_string => default 0 (head k)).
  assert (NoDup (f <$> keys)) as Hf.
  { apply NoDup_fmap_2_strong; [|done]. intros k k' Hk Hk' E. apply (no_head U HU); [auto|auto|].
    destruct (no_key U HU k) as (b & r & -> & _); [auto|]. destruct (no_key U HU k') as (b' & r' & -> & _); [auto|].
    cbn in *. by rewrite E. }
  assert ((f <$> keys) ⊆+ seqZ 0 256) as Hs.
  { apply NoDup_submseteq; [done|]. intros x (k & -> & Hk)%list_elem_of_fmap. apply elem_of_seqZ.
    destruct (no_key U HU k) as (b & r & -> & Hb & _); [auto|]. unfold is_byte in Hb. cbn. lia. }
  apply submseteq_length in Hs. rewrite length_fmap, length_seqZ in Hs. lia.
Qed.

Lemma pool_bound keys : NoDup keys -> keys ⊆ U -> zlen (concat keys) < 2 ^ 24.
Proof using HU.
  intros Hnd Hsub. pose proof (keys_bound keys Hnd Hsub) as Hb.
  assert (zlen (concat keys) <= 65535 * zlen keys) as H; [|change (2 ^ 24) with 16777216; lia].
  clear Hnd Hb. induction keys as [|k keys IH]; cbn [concat length]; [lia|]. rewrite length_app.
  destruct (no_key U HU k) as (b & r & -> & _ & Hl); [apply Hsub; by left|].
  assert (keys ⊆ U) as Hs by (intros x Hx; apply Hsub; by right). specialize (IH Hs). lia.
Qed.

Lemma key_index_Some keys k i : key_index keys k = Some i -> 0 <= i < zlen keys /\ keys !! Z.to_nat i = Some k.
Proof using.
  unfold key_index. destruct (list_find _ keys) as [[j k']|] eqn:E; [|done]. cbn. intros [= <-].
  apply list_find_Some in E as (E & -> & _). apply lookup_lt_Some in E as ?. rewrite Nat2Z.id. split; [lia|done].
Qed.

Lemma key_index_None keys k : key_index keys k = None -> k ∉ keys.
Proof using.
  unfold key_index. destruct (list_find _ keys) as [|] eqn:E; [done|]. intros _ Hin.
  apply list_find_None in E. rewrite Forall_forall in E. by apply (E k).
Qed.

Lemma key_index_lookup keys k j : NoDup keys -> keys !! j = Some k -> key_index keys k = Some (Z.of_nat j).
Proof using.
  intros Hnd E. destruct (key_index keys k) as [i|] eqn:Ei.
  - apply key_index_Some in Ei as [Hi Ei]. f_equal. pose proof (NoDup_lookup _ _ _ _ Hnd E Ei). lia.
  - apply key_index_None in Ei. exfalso. apply Ei. by eapply list_elem_of_lookup_2.
Qed.

Section find.
Context (keys : list byte_string) (Hnd : NoDup keys) (Hsub : keys ⊆ U).

Lemma node_at j k : keys !! j = Some k ->
  go_index (nodes_of keys) (1 + Z.of_nat j) = Ret (mkRNode (zlen (concat (take j keys))) (zlen k) 0 0 (Z.of_nat j)).
Proof using.
  intros E. replace (1 + Z.of_nat j) with (Z.of_nat (S j)) by lia. apply go_index_nat. rewrite (nodes_of_cons keys j k E). by apply (leaves_lookup keys 0 0 j k E).
Qed.

Lemma head_at j b r : keys !! j = Some (b :: r) -> go_index (concat keys) (zlen (concat (take j keys))) = Ret b.
Proof using.
  intros E. apply go_index_nat. rewrite <- (Nat.add_0_r (length _)), <- lookup_drop, (concat_slice keys j (b :: r) E). done.
Qed.

(** The first key that starts with [c], from the [j]-th on. *)
Lemma find_child_ok c n : forall j, (j + n = length keys)%nat ->
  find_child (nodes_of keys) (concat keys) 1 c (Z.of_nat j) n =
  Ret ((fun p => 1 + Z.of_nat (j + p.1)) <$> list_find (fun k => head k = Some c) (drop j keys)).
Proof using HU Hnd Hsub.
  pose proof (keys_bound keys Hnd Hsub). induction n as [|n IH]; intros j Hj.
  { rewrite drop_ge by lia. done. }
  destruct (lookup_lt_is_Some_2 keys j ltac:(lia)) as [k E]. destruct (no_key U HU k) as (b & r & Ek & _); [apply Hsub; by eapply list_elem_of_lookup_2|].
  cbn [find_child]. rewrite wrapu_small, (node_at j k E) by lia. cbn [obind PrefixOffset]. rewrite Ek in E. rewrite (head_at j b r E). cbn [obind].
  rewrite (drop_S _ _ _ E). cbn [list_find]. destruct (Z.eqb_spec b c) as [->|Hne].
  - rewrite decide_True by done. cbn. do 3 f_equal. lia.
  - rewrite decide_False by (cbn; congruence). replace (Z.of_nat j + 1) with (Z.of_nat (S j)) by lia. rewrite IH by lia.
    rewrite <- option_fmap_compose. f_equal. destruct (list_find _ (drop (S j) keys)) as [[i x]|]; [|done]. cbn. do 2 f_equal. lia.
Qed.

Lemma find_walk_leaf fuel j key : keys !! j = Some key ->
  find_walk (S fuel) (nodes_of keys) (concat keys) key (1 + Z.of_nat j) = Ret (Some (Z.of_nat j)).
Proof using HU Hnd Hsub.
  intros Ej. cbn [find_walk]. rewrite (node_at j key Ej). cbn [obind PrefixOffset PrefixLen r_Value ChildBase ChildCount].
  pose proof (pool_bound keys Hnd Hsub) as Hp. change (2 ^ 24) with 16777216 in Hp.
  pose proof (f_equal length (concat_slice keys j key Ej)) as Hd. rewrite length_drop, length_app in Hd.
  destruct (no_key U HU key) as (b & r & Ek & _); [apply Hsub; by eapply list_elem_of_lookup_2|].
  assert (0 < length key)%nat by (rewrite Ek; cbn; lia).
  rewrite wrapu_small by lia. unfold go_slice. rewrite !(proj2 (Z.leb_le _ _)) by lia. cbn [andb obind].
  rewrite Nat2Z.id, (concat_slice keys j key Ej). replace (Z.to_nat _) with (length key) by lia. rewrite take_app_length.
  rewrite Nat.ltb_irrefl, take_ge by lia. rewrite bool_decide_eq_true_2 by done. cbn [negb]. by rewrite drop_ge by lia.
Qed.

Lemma find_walk_root fuel b r : keys <> [] ->
  find_walk (S fuel) (nodes_of keys) (concat keys) (b :: r) 0 =
  match list_find (fun k => head k = Some b) keys with
  | None => Ret None
  | Some (j, _) => find_walk fuel (nodes_of keys) (concat keys) (b :: r) (1 + Z.of_nat j)
  end.
Proof using HU Hnd Hsub.
  intros Hne. assert (nodes_of keys !! Z.to_nat 0 = Some (mkRNode 0 0 1 (zlen keys) 0)) as E0 by (unfold nodes_of; by destruct keys).
  cbn [find_walk]. rewrite (go_index_Z _ 0 _ ltac:(lia) E0). cbn [obind PrefixOffset PrefixLen ChildBase ChildCount r_Value].
  replace (go_slice (concat keys) 0 (u32 (0 + 0))) with (Ret (@nil Z)).
  2:{ change (u32 (0 + 0)) with 0. unfold go_slice. by rewrite (proj2 (Z.leb_le 0 (zlen (concat keys)))) by lia. }
  cbn [obind]. change (length (b :: r) <? length [])%nat with false. change (take (length []) (b :: r)) with (@nil Z).
  rewrite bool_decide_eq_true_2 by done. cbn [negb]. change (drop (length []) (b :: r)) with (b :: r). cbn iota.
  pose proof (find_child_ok b (length keys) 0 ltac:(lia)) as Hc. change (Z.of_nat 0) with 0 in Hc. rewrite drop_0 in Hc.
  rewrite Nat2Z.id, Hc. cbn [obind]. by destruct (list_find _ keys) as [[j k]|].
Qed.

Lemma findKeyID_ok s rows key : store_ok U rows s keys -> key ∈ U -> findKeyID s key = Ret (key_index keys key).
Proof using HU Hnd Hsub.
  intros Hs Hkey. destruct (no_key U HU key Hkey) as (b & r & Ek & _ & Hl). unfold findKeyID.
  rewrite (so_nodes _ _ _ _ Hs), (so_pool _ _ _ _ Hs). destruct (decide (keys = [])) as [->|Hne]; [by destruct key|].
  assert (nodes_of keys <> []) as Hn by (unfold nodes_of; by destruct keys). destruct (nodes_of keys) as [|n0 ns] eqn:En; [done|].
  rewrite Ek. cbn iota. rewrite <- Ek, <- En. rewrite Ek at 2. rewrite find_walk_root by done.
  destruct (list_find _ keys) as [[j k]|] eqn:Ef.
  - apply list_find_Some in Ef as (Ej & Hh & _). assert (k = key) as ->.
    { apply (no_head U HU); [apply Hsub; by eapply list_elem_of_lookup_2|done|]. by rewrite Hh, Ek. }
    rewrite <- Ek, find_walk_leaf by done. by rewrite (key_index_lookup keys key j Hnd).
  - apply list_find_None in Ef. rewrite Forall_forall in Ef. destruct (key_index keys key) as [i|] eqn:Ei; [|done].
    apply key_index_Some in Ei as [_ Ei]. exfalso. apply (Ef key); [by eapply list_elem_of_lookup_2|by rewrite Ek].
Qed.
End find.
End keys.

(** ** The matrix *)

(** The value number of a tenant and a key. *)
Definition mat (s : PropStore) (c i : Z) : option Z := Matrix s !! Z.to_nat (c * Stride s + i).

Lemma concat_lookup {A} (rows : list (list A)) n c i : (forall r, r ∈ rows -> length r = n) -> (i < n)%nat ->
  concat rows !! (c * n + i)%nat = rows !! c ≫= (fun r => r !! i).
Proof.
  revert c. induction rows as [|r rows IH]; intros c Hr Hi; [by destruct c|]. assert (length r = n) as Hl by (apply Hr; by left).
  cbn [concat]. destruct c as [|c].
  - rewrite lookup_app_l by lia. by cbn.
  - rewrite lookup_app_r by lia. replace (S c * n + i - length r)%nat with (c * n + i)%nat by lia. rewrite IH; [done|intros r' Hin; apply Hr; by right|done].
Qed.

Lemma concat_uniform_length {A} (rows : list (list A)) n : (forall r, r ∈ rows -> length r = n) -> length (concat rows) = (length rows * n)%nat.
Proof.
  induction rows as [|r rows IH]; intros Hr; [done|]. cbn [concat length]. rewrite length_app, IH, Hr; [lia|by left|intros r' Hin; apply Hr; by right].
Qed.

Section expand.
Context (old : PropStore) (rows rows' stride' : Z).
Context (Hlen : zlen (Matrix old) = rows * Stride old) (Hs : 0 <= Stride old <= stride') (Hs' : stride' <= 256).
Context (Hr : 0 <= rows <= rows') (Hr' : rows' <= 65536).

Lemma migrate_row_length c : 0 <= c < rows' -> zlen (migrate_row old stride' c) = stride'.
Proof using Hlen Hs Hs' Hr Hr'.
  intros Hc. unfold migrate_row. destruct (_ && _) eqn:E; [|rewrite length_replicate; lia].
  apply andb_true_iff in E as [E1 E2]. apply Z.leb_le in E2. pose proof (wrapu_bound 32 (c * Stride old)).
  rewrite length_app, length_take, length_drop, length_replicate. lia.
Qed.

Lemma migrate_row_lookup c i : 0 <= c < rows' -> 0 <= i < stride' ->
  migrate_row old stride' c !! Z.to_nat i = (if (c <? rows) && (i <? Stride old) then mat old c i else Some 0).
Proof using Hlen Hs Hs' Hr Hr'.
  intros Hc Hi. unfold migrate_row, mat. assert (0 <= c * Stride old <= 65536 * 256) by nia. rewrite wrapu_small by lia.
  destruct (Z.ltb_spec 0 (Stride old)) as [Hp|Hp]; cbn [andb].
  - destruct (Z.leb_spec (c * Stride old + Stride old) (zlen (Matrix old))) as [Hle|Hle].
    + assert (c < rows) by nia. rewrite (proj2 (Z.ltb_lt c rows)) by done. cbn [andb].
      assert (length (take (Z.to_nat (Stride old)) (drop (Z.to_nat (c * Stride old)) (Matrix old))) = Z.to_nat (Stride old)) as Ht.
      { rewrite length_take, length_drop. lia. }
      destruct (Z.ltb_spec i (Stride old)).
      * rewrite lookup_app_l by lia. rewrite lookup_take_lt by lia. rewrite lookup_drop. f_equal. lia.
      * rewrite lookup_app_r by lia. apply lookup_replicate_2. lia.
    + assert (rows <= c) by nia. rewrite (proj2 (Z.ltb_ge c rows)) by done. apply lookup_replicate_2. lia.
  - rewrite (proj2 (Z.ltb_ge i (Stride old))) by lia. rewrite andb_false_r. apply lookup_replicate_2. lia.
Qed.

Lemma expand_rows_uniform r : r ∈ migrate_row old stride' <$> seqZ 0 rows' -> length r = Z.to_nat stride'.
Proof using Hlen Hs Hs' Hr Hr'.
  intros (c & -> & Hc)%list_elem_of_fmap. apply elem_of_seqZ in Hc. pose proof (migrate_row_length c). lia.
Qed.

Lemma expand_length : zlen (Matrix (expandPropStore old rows' stride')) = rows' * stride'.
Proof using Hlen Hs Hs' Hr Hr'.
  cbn [expandPropStore Matrix]. rewrite (concat_uniform_length _ _ expand_rows_uniform), length_fmap, length_seqZ. nia.
Qed.

Lemma expand_mat c i : 0 <= c < rows' -> 0 <= i < stride' ->
  mat (expandPropStore old rows' stride') c i = (if (c <? rows) && (i <? Stride old) then mat old c i else Some 0).
Proof using Hlen Hs Hs' Hr Hr'.
  intros Hc Hi. rewrite <- migrate_row_lookup by done. unfold mat at 1. cbn [expandPropStore Matrix Stride].
  replace (Z.to_nat (c * stride' + i)) with (Z.to_nat c * Z.to_nat stride' + Z.to_nat i)%nat by nia.
  rewrite (concat_lookup _ (Z.to_nat stride') _ _ expand_rows_uniform) by lia.
  rewrite list_lookup_fmap. rewrite (lookup_seqZ_lt 0 rows' (Z.to_nat c)) by lia. cbn. by rewrite Z2Nat.id by lia.
Qed.
End expand.

(** ** A new key *)

Lemma cell_range n rows c i : 0 <= c < rows -> 0 <= i < n -> 0 <= c * n /\ 0 <= c * n + i < rows * n.
Proof.
  intros Hc Hi. assert (0 <= c * n) by (apply Z.mul_nonneg_nonneg; lia).
  assert ((c + 1) * n <= rows * n) by (apply Z.mul_le_mono_nonneg_r; lia). lia.
Qed.

Section stores.
Context (U : list byte_string) (HU : names_ok U).

Lemma nodes_of_snoc s keys key : Keys s = nodes_of keys -> StringPool s = concat keys -> NoDup keys -> keys ⊆ U -> key ∈ U ->
  Keys (insertIntoPropertiesRadix s key (zlen keys)) = nodes_of (keys ++ [key]).
Proof using HU.
  intros Hn Hp Hnd Hsub Hkey. pose proof (keys_bound U HU keys Hnd Hsub). pose proof (pool_bound U HU keys Hnd Hsub) as Hb. change (2 ^ 24) with 16777216 in Hb.
  destruct (no_key U HU key Hkey) as (b & r & _ & _ & Hl).
  unfold insertIntoPropertiesRadix. cbn [Keys]. rewrite Hn, Hp, !wrapu_small by lia.
  destruct keys as [|k0 ks] eqn:Ek; [done|]. rewrite <- Ek in *. unfold nodes_of at 1. rewrite Ek at 1. cbn [app PrefixOffset PrefixLen ChildBase ChildCount r_Value].
  rewrite (nodes_of_cons (keys ++ [key]) (length keys) key) by apply list_lookup_middle, eq_refl.
  rewrite leaves_snoc, length_app, wrapu_small by lia. cbn [length]. f_equal. f_equal. lia.
Qed.

Lemma add_key_ok s rows keys key : store_ok U rows s keys -> 0 <= rows <= 65536 -> key ∈ U -> key ∉ keys ->
  let s' := insertIntoPropertiesRadix (expandPropStore s rows (u32 (Stride s + 1))) key (u16 (Stride s)) in
  store_ok U rows s' (keys ++ [key]) /\
  forall c i, 0 <= c < rows -> 0 <= i < zlen keys + 1 -> mat s' c i = if i <? zlen keys then mat s c i else Some 0.
Proof using HU.
  intros [Hnd Hsub Hn Hp Hst Hm] Hrows Hkey Hnew. cbv zeta.
  assert (NoDup (keys ++ [key]) /\ (keys ++ [key]) ⊆ U) as [Hnd' Hsub'].
  { split; [apply NoDup_app; split; [done|]; split; [|apply NoDup_singleton]; intros x Hx ->%list_elem_of_singleton; done|].
    intros x [Hx| ->%list_elem_of_singleton]%elem_of_app; auto. }
  pose proof (keys_bound U HU _ Hnd' Hsub') as Hb. rewrite length_app in Hb. cbn in Hb.
  rewrite !wrapu_small, Hst by lia. set (e := expandPropStore s rows (zlen keys + 1)).
  split.
  - constructor; [done|done| | | |].
    + apply nodes_of_snoc; done.
    + cbn. rewrite Hp. rewrite concat_app. cbn. by rewrite app_nil_r.
    + cbn. rewrite length_app. cbn. lia.
    + change (zlen (Matrix e) = rows * (zlen keys + 1)). unfold e. apply (expand_length s rows); lia.
  - intros c i Hc Hi. change (mat e c i = if i <? zlen keys then mat s c i else Some 0). unfold e.
    rewrite (expand_mat s rows) by lia. rewrite (proj2 (Z.ltb_lt c rows)), Hst by lia. done.
Qed.

(** More rows. *)
Lemma more_rows_ok s rows rows' keys : store_ok U rows s keys -> 0 <= rows <= rows' -> rows' <= 65536 -> Stride s <> 0 ->
  store_ok U rows' (expandPropStore s rows' (Stride s)) keys /\
  forall c i, 0 <= c < rows' -> 0 <= i < zlen keys -> mat (expandPropStore s rows' (Stride s)) c i = if c <? rows then mat s c i else Some 0.
Proof using HU.
  intros [Hnd Hsub Hn Hp Hst Hm] Hr Hr' H0. pose proof (keys_bound U HU _ Hnd Hsub) as Hb. split.
  - constructor; [done|done|done|done|done|]. apply (expand_length s rows); cbn [expandPropStore Stride]; lia.
  - intros c i Hc Hi. rewrite (expand_mat s rows) by lia. rewrite (proj2 (Z.ltb_lt i _)) by lia. by rewrite andb_true_r.
Qed.

(** Writing a cell and clearing a row. *)
Lemma mat_index s rows keys c i : store_ok U rows s keys -> 0 <= rows <= 65536 -> 0 <= c < rows -> 0 <= i < zlen keys ->
  matrix_index s c i = c * Stride s + i /\ 0 <= c * Stride s + i < zlen (Matrix s).
Proof using HU.
  intros [Hnd Hsub Hn Hp Hst Hm] Hr Hc Hi. pose proof (keys_bound U HU _ Hnd Hsub) as Hb. unfold matrix_index.
  rewrite Hst in *. destruct (cell_range (zlen keys) rows c i Hc Hi). assert (rows * zlen keys <= 65536 * 256) by (apply Z.mul_le_mono_nonneg; lia).
  rewrite (wrapu_small 32 (c * _)) by lia. rewrite wrapu_small by lia. lia.
Qed.

Lemma same_cell n c i c' i' : 0 <= i < n -> 0 <= i' < n -> 0 <= c -> 0 <= c' -> c * n + i = c' * n + i' -> c = c' /\ i = i'.
Proof using. intros. apply (Z.div_mod_unique n); lia. Qed.

Definition put_cell (s : PropStore) (c i v : Z) : PropStore :=
  mkStore (<[Z.to_nat (c * Stride s + i):=v]> (Matrix s)) (Stride s) (Keys s) (StringPool s).

Lemma put_cell_ok s rows keys c i v : store_ok U rows s keys -> 0 <= c < rows -> 0 <= i < zlen keys ->
  store_ok U rows (put_cell s c i v) keys /\
  forall c' i', 0 <= c' < rows -> 0 <= i' < zlen keys -> mat (put_cell s c i v) c' i' = if (c' =? c) && (i' =? i) then Some v else mat s c' i'.
Proof using.
  intros [Hnd Hsub Hn Hp Hst Hm] Hc Hi. split; [constructor; cbn; rewrite ?length_insert; done|].
  intros c' i' Hc' Hi'. unfold mat, put_cell. cbn [Matrix Stride].
  destruct (cell_range (Stride s) rows c i), (cell_range (Stride s) rows c' i'); [lia..|].
  destruct (Z.eqb_spec c' c) as [->|], (Z.eqb_spec i' i) as [->|]; cbn [andb].
  { rewrite list_lookup_insert_eq; [done|]. lia. }
  all: rewrite list_lookup_insert_ne; [done|]; intros E; pose proof (same_cell (Stride s) c i) as Hsame.
  - destruct (Hsame c i'); lia.
  - destruct (Hsame c' i); lia.
  - destruct (Hsame c' i'); lia.
Qed.
End stores.

(** ** The snapshot

    [P c ns k] is the value a tenant's key was given, if any; [keys] lists the
    keys of each namespace. *)

Definition props : Type := Z -> namespace -> byte_string -> option byte_string.

(** An empty value is not seen. *)
Definition visible (o : option byte_string) : option byte_string :=
  match o with Some [] => None | _ => o end.

Definition denotes (pool : list byte_string) (v : Z) (o : option byte_string) : Prop :=
  match o with None => v = 0 | Some x => 0 < v /\ pool !! Z.to_nat v = Some x end.

Lemma denotes_mono pool pool' v o : pool `prefix_of` pool' -> denotes pool v o -> denotes pool' v o.
Proof. intros [l ->] H. destruct o as [x|]; [|done]. destruct H as [Hv E]. split; [done|]. by apply lookup_app_l_Some. Qed.

Section snapshot.
Context (U : namespace -> list byte_string) (HU : forall ns, names_ok (U ns)).

Record reg_ok (keys : namespace -> list byte_string) (reg : TenantRegistry) (P : props) : Prop := {
  ro_store : forall ns, store_ok (U ns) (MaxTenants reg) (store_of reg ns) (keys ns);
  ro_cells : forall ns c i k, 0 <= c < MaxTenants reg -> keys ns !! i = Some k ->
    exists v, mat (store_of reg ns) c (Z.of_nat i) = Some v /\ denotes (ValuePool reg) v (visible (P c ns k));
  ro_keys : forall c ns k, k ∉ keys ns -> P c ns k = None;
  ro_rows : forall c ns k, ~ 0 <= c < MaxTenants reg -> P c ns k = None;
  ro_max : 128 <= MaxTenants reg <= 65535;
  ro_pool : ValuePool reg = [] \/ head (ValuePool reg) = Some []
}.

Lemma reg_ok_ext keys reg P P' : (forall c ns k, P c ns k = P' c ns k) -> reg_ok keys reg P -> reg_ok keys reg P'.
Proof using.
  intros HP [H1 H2 H3 H4 H5 H6]. constructor; try done.
  - intros ns c i k Hc Hk. rewrite <- HP. eauto.
  - intros c ns k Hk. rewrite <- HP. eauto.
  - intros c ns k Hc. rewrite <- HP. eauto.
Qed.

(** Only the stores, the values and the capacity matter. *)
Lemma reg_ok_same keys reg reg' P : (forall ns, store_of reg' ns = store_of reg ns) -> ValuePool reg' = ValuePool reg ->
  MaxTenants reg' = MaxTenants reg -> reg_ok keys reg P -> reg_ok keys reg' P.
Proof using.
  intros Hs Hv Hm [H1 H2 H3 H4 H5 H6].
  constructor; intros; rewrite ?Hs, ?Hv, ?Hm in *; eauto.
Qed.

(** Reading a cell. *)
Lemma getProp_ok keys reg P ns c i k : reg_ok keys reg P -> 0 <= c < MaxTenants reg -> keys ns !! i = Some k ->
  getPropByKeyID (store_of reg ns) (ValuePool reg) c (Z.of_nat i) = visible (P c ns k).
Proof using HU.
  intros H Hc Hk. destruct (ro_cells _ _ _ H ns c i k Hc Hk) as (v & Ev & Hd). apply lookup_lt_Some in Hk as ?.
  pose proof (ro_max _ _ _ H). unfold getPropByKeyID.
  destruct (mat_index (U ns) (HU ns) _ _ _ c (Z.of_nat i) (ro_store _ _ _ H ns)) as [-> _]; [lia..|].
  unfold mat in Ev. rewrite Ev. destruct (visible (P c ns k)) as [x|].
  - destruct Hd as [Hv Ex]. by rewrite (proj2 (Z.eqb_neq v 0)) by lia.
  - rewrite Hd. done.
Qed.

Definition upd (P : props) (c : Z) (ns : namespace) (k : byte_string) (o : option byte_string) : props :=
  fun c' ns' k' => if bool_decide (c' = c /\ ns' = ns /\ k' = k) then o else P c' ns' k'.

Lemma store_of_with reg ns s ns' : store_of (with_store reg ns s) ns' = if bool_decide (ns' = ns) then s else store_of reg ns'.
Proof using. by destruct ns, ns'. Qed.

(** Writing a cell whose value number stands for [o]. *)
Lemma put_cell_reg keys reg P ns c i k v o : reg_ok keys reg P -> 0 <= c < MaxTenants reg -> keys ns !! i = Some k ->
  denotes (ValuePool reg) v (visible o) ->
  reg_ok keys (with_store reg ns (put_cell (store_of reg ns) c (Z.of_nat i) v)) (upd P c ns k o).
Proof using.
  intros H Hc Hk Hv. apply lookup_lt_Some in Hk as Hi. set (s := put_cell _ _ _ _).
  destruct (put_cell_ok (U ns) (store_of reg ns) _ _ c (Z.of_nat i) v (ro_store _ _ _ H ns)) as [Hs Hm]; [lia..|]. fold s in Hs, Hm.
  destruct H as [H1 H2 H3 H4 H5 H6]. constructor.
  - intros ns'. rewrite store_of_with. case_bool_decide as E; [subst; done|apply H1].
  - intros ns' c' i' k' Hc' Hk'. cbn [with_store MaxTenants ValuePool] in *. rewrite store_of_with. unfold upd.
    apply lookup_lt_Some in Hk' as ?. case_bool_decide as E; [subst ns'|].
    + rewrite Hm by lia. assert (k' = k <-> i' = i) as Hki.
      { split; [intros ->; by eapply NoDup_lookup; [apply (H1 ns)|..]|intros ->; congruence]. }
      destruct (Z.eqb_spec c' c), (Z.eqb_spec (Z.of_nat i') (Z.of_nat i)); cbn [andb].
      * rewrite bool_decide_eq_true_2 by (split; [done|]; split; [done|]; apply Hki; lia). eauto.
      * rewrite bool_decide_eq_false_2 by (intros (_ & _ & ?%Hki); lia). eauto.
      * rewrite bool_decide_eq_false_2 by (intros (? & _); done). eauto.
      * rewrite bool_decide_eq_false_2 by (intros (? & _); done). eauto.
    + rewrite bool_decide_eq_false_2 by (intros (_ & ? & _); done). eauto.
  - intros c' ns' k' Hn. unfold upd. rewrite bool_decide_eq_false_2; [eauto|]. intros (_ & -> & ->). apply Hn. by eapply list_elem_of_lookup_2.
  - intros c' ns' k' Hn. unfold upd. rewrite bool_decide_eq_false_2; [eauto|]. intros (-> & _). done.
  - done.
  - done.
Qed.
End snapshot.
