(* ===== verification/RegistryRefine.v ===== *)
(** * The registry refines a map from aliases to tenants

    The specification: aliases name tenants, tenants have properties, and a
    tenant's identity is never used again.  The manager recycles tenant
    numbers, keeps the properties in matrices and a mirror, and looks aliases
    up in a hash table; its operations and the request steps answer alike. *)

From S2P Require Import Prelude Registry RegistryManager RegistryAliases RegistryStore.

Local Open Scope Z_scope.
Local Open Scope rah_scope.

(** ** Writing properties *)

Definition add_key (l : list byte_string) (k : byte_string) : list byte_string := if bool_decide (k ∈ l) then l else l ++ [k].

Definition ensure (keys : namespace -> list byte_string) (ns : namespace) (k : byte_string) : namespace -> list byte_string :=
  fun ns' => if bool_decide (ns' = ns) then add_key (keys ns') k else keys ns'.

(** What is not a property. *)
Definition frame (reg reg' : TenantRegistry) : Prop :=
  MaxTenants reg' = MaxTenants reg /\ Aliases reg' = Aliases reg.

Section writes.
Context (U : namespace -> list byte_string) (HU : forall ns, names_ok (U ns)).

Lemma ensure_index keys ns k : exists i, ensure keys ns k ns !! i = Some k /\ key_index (ensure keys ns k ns) k = Some (Z.of_nat i).
Proof using.
  unfold ensure, add_key. rewrite bool_decide_eq_true_2 by done. destruct (key_index _ k) as [i|] eqn:E.
  - apply key_index_Some in E as [Hi E]. exists (Z.to_nat i). rewrite Z2Nat.id by lia. done.
  - apply key_index_None in E. exfalso. apply E. case_bool_decide; [done|]. apply elem_of_app. right. by left.
Qed.

Lemma resolveOrCreateKey_ok keys reg P ns k : reg_ok U keys reg P -> k ∈ U ns ->
  exists i reg', resolveOrCreateKey ns reg k = Ret (Z.of_nat i, reg') /\ ensure keys ns k ns !! i = Some k /\
    reg_ok U (ensure keys ns k) reg' P /\ frame reg reg' /\ ValuePool reg' = ValuePool reg.
Proof using HU.
  intros H Hk. pose proof (ro_store _ _ _ _ H ns) as Hs. pose proof (ro_max _ _ _ _ H) as Hmax.
  unfold resolveOrCreateKey, resolveOrCreateStoreKey.
  rewrite (findKeyID_ok (U ns) (HU ns) (keys ns) (so_nodup _ _ _ _ Hs) (so_names _ _ _ _ Hs) _ _ k Hs Hk). cbn [obind].
  destruct (ensure_index keys ns k) as (i & Hi & Ei). destruct (key_index (keys ns) k) as [j|] eqn:E; cbn [negb].
  - assert (forall ns', ensure keys ns k ns' = keys ns') as Hsame.
    { intros ns'. unfold ensure, add_key. case_bool_decide; [subst|done]. rewrite bool_decide_eq_true_2; [done|].
      apply key_index_Some in E as [_ E]. by eapply list_elem_of_lookup_2. }
    exists i, reg. rewrite Hsame in Ei. assert (j = Z.of_nat i) as -> by congruence. split; [done|]. split; [done|]. split; [|done].
    destruct H as [H1 H2 H3 H4 H5 H6]. constructor; try done; intros; rewrite Hsame in *; eauto.
  - apply key_index_None in E as Hnew.
    destruct (Z.eqb_spec (MaxTenants reg) 0) as [?|_]; [lia|].
    destruct (add_key_ok (U ns) (HU ns) _ _ _ k Hs ltac:(lia) Hk Hnew) as [Hs' Hm]. cbv zeta in Hs', Hm.
    set (s' := insertIntoPropertiesRadix _ k _) in *.
    assert (ensure keys ns k ns = keys ns ++ [k]) as Ee.
    { unfold ensure, add_key. by rewrite bool_decide_eq_true_2, bool_decide_eq_false_2. }
    pose proof (keys_bound (U ns) (HU ns) _ (so_nodup _ _ _ _ Hs') (so_names _ _ _ _ Hs')) as Hb. rewrite length_app in Hb. cbn in Hb.
    exists (length (keys ns)), (with_max (with_store reg ns s') (MaxTenants reg)).
    split; [cbn iota; do 2 f_equal; rewrite (so_stride _ _ _ _ Hs), wrapu_small; lia|].
    split; [rewrite Ee; by apply list_lookup_middle|]. split; [|done].
    assert (forall ns', store_of (with_max (with_store reg ns s') (MaxTenants reg)) ns' = if bool_decide (ns' = ns) then s' else store_of reg ns') as Hst
      by (intros ns'; rewrite <- store_of_with; by destruct ns').
    destruct H as [H1 H2 H3 H4 H5 H6]. constructor; try done.
    + intros ns'. rewrite Hst. unfold ensure. case_bool_decide; [subst ns'|by apply H1]. unfold add_key. by rewrite bool_decide_eq_false_2.
    + intros ns' c i' k' Hc Hk'. rewrite Hst. destruct (decide (ns' = ns)) as [->|Hne].
      2:{ unfold ensure in Hk'. rewrite bool_decide_eq_false_2 in * by done. eauto. }
      rewrite bool_decide_eq_true_2 by done. rewrite Ee in Hk'. apply lookup_lt_Some in Hk' as Hlt. rewrite length_app in Hlt. cbn in Hlt.
      rewrite Hm by (cbn in Hc; lia). destruct (Z.ltb_spec (Z.of_nat i') (zlen (keys ns))).
      * rewrite lookup_app_l in Hk' by lia. apply (H2 ns c i' k'); done.
      * exists 0. split; [done|]. rewrite lookup_app_r in Hk' by lia. apply list_lookup_singleton_Some in Hk' as [_ <-]. by rewrite H3.
    + intros c ns' k' Hn. apply H3. intros Hin. apply Hn. unfold ensure. case_bool_decide; [|done]. unfold add_key. case_bool_decide; [done|].
      apply elem_of_app. by left.
Qed.

Lemma internValue_ok reg value : (ValuePool reg = [] \/ head (ValuePool reg) = Some []) -> zlen (ValuePool reg) + 1 < 2 ^ 32 ->
  exists pool v, internValue reg value = (with_values reg pool, v) /\ denotes pool v (visible (Some value)) /\
    ValuePool reg `prefix_of` pool /\ (pool = [] \/ head pool = Some []) /\ zlen pool <= Z.max 1 (zlen (ValuePool reg)) + 1.
Proof using.
  intros Hp Hb. destruct value as [|b r].
  { exists (ValuePool reg), 0. split; [by destruct reg|]. split; [done|]. split; [done|]. split; [done|]. lia. }
  unfold internValue. set (pool := match ValuePool reg with [] => [[]] | p => p end).
  assert (head pool = Some [] /\ ValuePool reg `prefix_of` pool /\ zlen pool <= Z.max 1 (zlen (ValuePool reg))) as (Hh & Hpre & Hl).
  { unfold pool. destruct (ValuePool reg) as [|x l] eqn:E; cbn; [split; [done|split; [apply prefix_nil|lia]]|].
    destruct Hp as [?|Hp]; [done|]. split; [done|]. split; [done|]. lia. }
  destruct (list_find _ pool) as [[i x]|] eqn:Ef.
  - apply list_find_Some in Ef as (Ei & -> & _). exists pool. eexists. split; [done|]. apply lookup_lt_Some in Ei as ?.
    rewrite wrapu_small by lia. split; [|split; [done|split; [by right|lia]]]. split; [|by rewrite Nat2Z.id].
    destruct i; [|lia]. destruct pool; [done|]. cbn in *. congruence.
  - exists (pool ++ [b :: r]). eexists. split; [done|]. rewrite wrapu_small by lia.
    split; [split; [destruct pool; [done|cbn; lia]|rewrite Nat2Z.id; by apply list_lookup_middle]|].
    split; [by apply prefix_app_r|]. split; [right; by destruct pool|]. rewrite length_app. cbn. lia.
Qed.

Lemma write_prop_ok keys reg P ns c k value : reg_ok U keys reg P -> k ∈ U ns -> 0 <= c < MaxTenants reg -> zlen (ValuePool reg) + 1 < 2 ^ 32 ->
  exists reg', write_prop ns reg c k value = Ret reg' /\ reg_ok U (ensure keys ns k) reg' (upd P c ns k (Some value)) /\
    frame reg reg' /\ zlen (ValuePool reg') <= Z.max 1 (zlen (ValuePool reg)) + 1.
Proof using HU.
  intros H Hk Hc Hb. unfold write_prop. destruct (resolveOrCreateKey_ok keys reg P ns k H Hk) as (i & r1 & -> & Hi & H1 & [Hm Ha] & Hv).
  cbn [obind fst snd]. rewrite <- Hv in Hb. destruct (internValue_ok r1 value (ro_pool _ _ _ _ H1) Hb) as (pool & v & -> & Hd & Hpre & Hp & Hl).
  set (r2 := with_values r1 pool).
  assert (reg_ok U (ensure keys ns k) r2 P) as H2.
  { destruct H1 as [A1 A2 A3 A4 A5 A6]. constructor; try done.
    intros ns' c' i' k' Hc' Hk'. destruct (A2 ns' c' i' k' Hc' Hk') as (v' & E & Hd'). exists v'. split; [exact E|]. by apply (denotes_mono (ValuePool r1)). }
  apply lookup_lt_Some in Hi as Hlt. assert (0 <= c < MaxTenants r2) as Hc2 by (change (MaxTenants r2) with (MaxTenants r1); lia).
  destruct (mat_index (U ns) (HU ns) _ _ _ c (Z.of_nat i) (ro_store _ _ _ _ H2 ns)) as [Ec Hr]; [pose proof (ro_max _ _ _ _ H2); lia|lia|lia|].
  assert (set_cell (store_of r2 ns) c (Z.of_nat i) v = Ret (put_cell (store_of r2 ns) c (Z.of_nat i) v)) as Eset.
  { unfold set_cell. rewrite Ec. destruct (lookup_lt_is_Some_2 (Matrix (store_of r2 ns)) (Z.to_nat (c * Stride (store_of r2 ns) + Z.of_nat i))) as [x Ex]; [lia|].
    rewrite (go_index_Z _ _ x) by (done || lia). done. }
  rewrite Eset. cbn [obind]. eexists. split; [done|]. split; [by apply put_cell_reg|]. split; [done|]. rewrite <- Hv. exact Hl.
Qed.

Definition ensure_all (keys : namespace -> list byte_string) (ns : namespace) (kvs : list (byte_string * byte_string)) : namespace -> list byte_string :=
  foldl (fun ks kv => ensure ks ns kv.1) keys kvs.

Definition upd_all (P : props) (c : Z) (ns : namespace) (kvs : list (byte_string * byte_string)) : props :=
  foldl (fun P kv => upd P c ns kv.1 (Some kv.2)) P kvs.

Lemma write_props_ok ns c kvs : forall keys reg P, reg_ok U keys reg P -> Forall (fun kv => kv.1 ∈ U ns) kvs -> 0 <= c < MaxTenants reg ->
  Z.max 1 (zlen (ValuePool reg)) + zlen kvs < 2 ^ 32 ->
  exists reg', write_props ns reg c kvs = Ret reg' /\ reg_ok U (ensure_all keys ns kvs) reg' (upd_all P c ns kvs) /\
    frame reg reg' /\ Z.max 1 (zlen (ValuePool reg')) <= Z.max 1 (zlen (ValuePool reg)) + zlen kvs.
Proof using HU.
  induction kvs as [|[k v] kvs IH]; intros keys reg P H Hk Hc Hb.
  { exists reg. split; [done|]. split; [done|]. split; [done|]. cbn. lia. }
  apply Forall_cons in Hk as [Hk Hks]. cbn [length] in Hb.
  destruct (write_prop_ok keys reg P ns c k v H Hk Hc ltac:(lia)) as (r1 & E & H1 & [Hm Ha] & Hl).
  destruct (IH _ r1 _ H1 Hks) as (r2 & E2 & H2 & [Hm2 Ha2] & Hl2); [lia|lia|].
  exists r2. cbn [write_props]. rewrite E. cbn [obind]. split; [done|]. split; [exact H2|]. split; [split; congruence|]. cbn [length]. lia.
Qed.

(** The properties one write, or one batch, leaves. *)
Lemma upd_all_other P c ns kvs c' ns' k : ~ (c' = c /\ ns' = ns) -> upd_all P c ns kvs c' ns' k = P c' ns' k.
Proof using.
  intros Hne. unfold upd_all. revert P. induction kvs as [|kv kvs IH]; intros P; cbn [foldl]; [done|].
  rewrite IH. unfold upd. by rewrite bool_decide_eq_false_2 by tauto.
Qed.

Lemma upd_all_same P c ns kvs m k : (forall k, P c ns k = m !! k) -> upd_all P c ns kvs c ns k = merge_props kvs m !! k.
Proof using.
  unfold upd_all, merge_props. revert P m. induction kvs as [|[k0 v0] kvs IH]; intros P m HP; cbn [foldl fst snd]; [done|].
  apply IH. intros k'. unfold upd. destruct (decide (k' = k0)) as [->|].
  - by rewrite bool_decide_eq_true_2, lookup_insert_eq.
  - rewrite bool_decide_eq_false_2 by tauto. by rewrite lookup_insert_ne.
Qed.

(** ** Rows *)

Lemma expand_rows_ok ns s rows rows' keys : store_ok (U ns) rows s keys -> 0 <= rows <= rows' -> rows' <= 65536 ->
  store_ok (U ns) rows' (expand_rows rows' s) keys /\
  forall c i, 0 <= c < rows' -> 0 <= i < zlen keys -> mat (expand_rows rows' s) c i = if c <? rows then mat s c i else Some 0.
Proof using HU.
  intros Hs Hr Hr'. unfold expand_rows. destruct (Z.ltb_spec 0 (Stride s)) as [Hp|Hp].
  - apply more_rows_ok; try done. lia.
  - pose proof (so_stride _ _ _ _ Hs). assert (Stride s = 0) as E0 by lia. destruct Hs as [A1 A2 A3 A4 A5 A6].
    split; [|lia]. constructor; try done. rewrite A6, E0. lia.
Qed.

Lemma grow_tenant_ok keys reg P c : reg_ok U keys reg P -> 0 <= c <= 65407 ->
  reg_ok U keys (grow_tenant reg c) P /\ c < MaxTenants (grow_tenant reg c) /\ MaxTenants reg <= MaxTenants (grow_tenant reg c) /\
  ValuePool (grow_tenant reg c) = ValuePool reg.
Proof using HU.
  intros H Hc. pose proof (ro_max _ _ _ _ H) as Hmax. unfold grow_tenant. cbn [with_limits MaxTenants].
  destruct (Z.ltb_spec (MaxTenants reg) (c + 1)) as [Hlt|Hge].
  - rewrite wrapu_small by lia. cbn [MaxTenants ValuePool]. split; [|split; [lia|split; [lia|done]]].
    assert (forall ns, store_ok (U ns) (c + 1 + 127) (expand_rows (c + 1 + 127) (store_of reg ns)) (keys ns) /\
      forall c' i, 0 <= c' < c + 1 + 127 -> 0 <= i < zlen (keys ns) ->
        mat (expand_rows (c + 1 + 127) (store_of reg ns)) c' i = if c' <? MaxTenants reg then mat (store_of reg ns) c' i else Some 0) as Hrows.
    { intros ns. apply expand_rows_ok; [apply H|lia|lia]. }
    set (reg' := mkReg _ _ _ _ _ _ _ _ _ _).
    assert (forall ns, store_of reg' ns = expand_rows (c + 1 + 127) (store_of reg ns)) as Hst by (by intros []).
    destruct H as [H1 H2 H3 H4 H5 H6]. constructor; cbn [reg' MaxTenants ValuePool]; try done.
    + intros ns. rewrite Hst. apply Hrows.
    + intros ns c' i k Hc' Hk. apply lookup_lt_Some in Hk as ?. rewrite Hst. rewrite (proj2 (Hrows ns)) by lia.
      destruct (Z.ltb_spec c' (MaxTenants reg)); [apply H2; [lia|done]|]. exists 0. split; [done|]. by rewrite H4 by lia.
    + intros c' ns k Hn. apply H4. lia.
    + lia.
  - split; [|split; [cbn; lia|split; [cbn; lia|done]]]. by apply (reg_ok_same U keys reg); [intros []|..].
Qed.

(** Clearing a tenant's row. *)
Definition drop_row (P : props) (c : Z) : props := fun c' ns k => if c' =? c then None else P c' ns k.

Lemma zeroStoreRow_ok ns s rows keys c : store_ok (U ns) rows s keys -> 0 <= rows <= 65536 -> 0 <= c < rows ->
  store_ok (U ns) rows (zeroStoreRow s c) keys /\
  forall c' i, 0 <= c' < rows -> 0 <= i < zlen keys -> mat (zeroStoreRow s c) c' i = if c' =? c then Some 0 else mat s c' i.
Proof using HU.
  intros Hs Hr Hc. pose proof (so_stride _ _ _ _ Hs) as Hst. pose proof (so_matrix _ _ _ _ Hs) as Hm.
  pose proof (keys_bound (U ns) (HU ns) keys (so_nodup _ _ _ _ Hs) (so_names _ _ _ _ Hs)) as Hb.
  unfold zeroStoreRow. destruct (Z.eqb_spec (Stride s) 0) as [E0|E0]; [split; [done|lia]|].
  destruct (cell_range (Stride s) rows c (Stride s - 1) Hc ltac:(lia)) as [Hlo Hhi].
  assert (rows * Stride s <= 65536 * 256) by (apply Z.mul_le_mono_nonneg; lia).
  rewrite (wrapu_small 32 (c * _)) by lia. rewrite (wrapu_small 32 (_ + _)), (wrapu_small 32 (zlen _)) by lia.
  destruct (Z.ltb_spec (zlen (Matrix s)) (c * Stride s + Stride s)); [lia|].
  set (start := Z.to_nat (c * Stride s)). set (n := Z.to_nat (Stride s)). set (M := _ ++ _ ++ _).
  assert (length (take start (Matrix s)) = start) as Ht by (rewrite length_take; lia).
  assert (zlen M = zlen (Matrix s)) as HlM by (unfold M; rewrite !length_app, length_replicate, length_drop; lia).
  split; [destruct Hs; constructor; cbn [Matrix Stride Keys StringPool]; try done; congruence|].
  intros c' i Hc' Hi. unfold mat. cbn [Matrix Stride]. destruct (cell_range (Stride s) rows c' i Hc' ltac:(lia)) as [Hlo' Hhi'].
  unfold M. destruct (Z.eqb_spec c' c) as [->|Hne].
  - rewrite lookup_app_r by lia. rewrite Ht. rewrite lookup_app_l by (rewrite length_replicate; lia). apply lookup_replicate_2. lia.
  - assert (c' * Stride s + i < c * Stride s \/ c * Stride s + Stride s <= c' * Stride s + i) as [Hl|Hg].
    { destruct (Z.lt_ge_cases c' c).
      - left. destruct (cell_range (Stride s) c c' i); lia.
      - right. assert ((c + 1) * Stride s <= c' * Stride s) by (apply Z.mul_le_mono_nonneg_r; lia). lia. }
    + rewrite lookup_app_l by lia. apply lookup_take_lt. lia.
    + rewrite lookup_app_r by lia. rewrite lookup_app_r by (rewrite length_replicate; lia). rewrite lookup_drop, length_replicate. f_equal. lia.
Qed.

Lemma zero_rows_ok keys reg P c : reg_ok U keys reg P -> 0 <= c < MaxTenants reg -> reg_ok U keys (zero_rows reg c) (drop_row P c).
Proof using HU.
  intros H Hc. pose proof (ro_max _ _ _ _ H) as Hmax.
  assert (forall ns, store_of (zero_rows reg c) ns = zeroStoreRow (store_of reg ns) c) as Hst by (by intros []).
  assert (forall ns, _) as Hz by (intros ns; exact (zeroStoreRow_ok ns _ _ _ c (ro_store _ _ _ _ H ns) ltac:(lia) Hc)).
  destruct H as [H1 H2 H3 H4 H5 H6]. constructor; cbn [zero_rows MaxTenants ValuePool]; try done.
  - intros ns. rewrite Hst. apply Hz.
  - intros ns c' i k Hc' Hk. apply lookup_lt_Some in Hk as ?. rewrite Hst, (proj2 (Hz ns)) by lia. unfold drop_row.
    destruct (Z.eqb_spec c' c); [by exists 0|]. by apply H2.
  - intros c' ns k Hn. unfold drop_row. destruct (c' =? c); [done|]. by apply H3.
  - intros c' ns k Hn. unfold drop_row. destruct (c' =? c); [done|]. by apply H4.
Qed.
End writes.
