(* ===== verification/RegistrySpec.v ===== *)
(** * The specification of the tenant registry

    Aliases name tenants and tenants have properties; the identity of a tenant
    is never used again.  [core] relates the manager to it: every live tenant
    has a number of its own, recycled numbers belong to nobody, and the mirror
    holds the properties. *)

From S2P Require Import Prelude Registry RegistryManager RegistrySteps RegistryAliases RegistryStore RegistryRefine.

Local Open Scope Z_scope.
Local Open Scope rah_scope.

(** ** The abstract registry *)

Record aregistry : Type := mkAR {
  a_alias : gmap byte_string nat;
  a_next : nat;
  a_props : nat -> namespace -> gmap byte_string byte_string;
  a_keys : namespace -> list byte_string;
  a_live : bool
}.

Definition empty_registry : aregistry := mkAR ∅ 0 (fun _ _ => ∅) (fun _ => []) false.

(** The tenant of an alias, a new one when the alias is unknown. *)
Definition tenant_of (s : aregistry) (alias : byte_string) : nat * aregistry :=
  match a_alias s !! alias with
  | Some n => (n, s)
  | None => (a_next s, mkAR (<[alias:=a_next s]> (a_alias s)) (S (a_next s)) (a_props s) (a_keys s) (a_live s))
  end.

Definition set_props (s : aregistry) (n : nat) (p : namespace -> gmap byte_string byte_string) : aregistry :=
  mkAR (a_alias s) (a_next s) (fun n' => if bool_decide (n' = n) then p else a_props s n') (a_keys s) (a_live s).

Definition set_keys (s : aregistry) (keys : namespace -> list byte_string) : aregistry :=
  mkAR (a_alias s) (a_next s) (a_props s) keys true.

Definition set_alias (s : aregistry) (am : gmap byte_string nat) : aregistry :=
  mkAR am (a_next s) (a_props s) (a_keys s) true.

Definition on_ns (ns : namespace) (f : gmap byte_string byte_string -> gmap byte_string byte_string)
    (p : namespace -> gmap byte_string byte_string) : namespace -> gmap byte_string byte_string :=
  fun ns' => if bool_decide (ns' = ns) then f (p ns') else p ns'.

(** ** Operations and answers *)

Inductive rop : Type :=
| OSet (ns : namespace) (alias key value : byte_string)
| OUnset (ns : namespace) (alias key : byte_string)
| OKey (ns : namespace) (key : byte_string)
| OAlias (existing new : byte_string)
| OUpsert (aliases : list byte_string) (urls idents meta : list (byte_string * byte_string))
| ODrop (alias : byte_string)
| OTest (now : Z) (runID : byte_string)
| OLoad (ns : namespace) (alias : byte_string) (keyID : Z)
| OLoadVar (alias key : byte_string)
| ORecord (alias : byte_string).

Inductive rres : Type :=
| RDone
| RKey (id : Z)
| RTest (alias : byte_string)
| RRequest (status : Z) (value : byte_string)
| RRecord (props : option (gmap byte_string byte_string * gmap byte_string byte_string * gmap byte_string byte_string)).

(** A request for a tenant: 401 for nobody's alias, 503 before the first
    configuration, otherwise the tenant's value. *)
Definition request (s : aregistry) (alias : byte_string) (val : nat -> option byte_string) : rres :=
  match alias with
  | [] => RRequest 401 []
  | _ =>
    if negb (a_live s) then RRequest 503 []
    else match a_alias s !! alias with
         | None => RRequest 401 []
         | Some n => RRequest 0 (default [] (val n))
         end
  end.

(** [None]: a key number nobody was given. *)
Definition a_step (o : rop) (s : aregistry) : option (aregistry * rres) :=
  match o with
  | OSet ns alias key value =>
    let '(n, s) := tenant_of s alias in
    let s := set_keys s (ensure (a_keys s) ns key) in
    Some (set_props s n (on_ns ns (fun p => <[key:=value]> p) (a_props s n)), RDone)
  | OUnset ns alias key =>
    Some (match a_alias s !! alias with
          | None => s
          | Some n => set_props s n (on_ns ns (fun p => delete key p) (a_props s n))
          end, RDone)
  | OKey ns key =>
    let s := set_keys s (ensure (a_keys s) ns key) in
    id ← key_index (a_keys s ns) key;
    Some (s, RKey id)
  | OAlias existing new =>
    let '(n, s) := tenant_of s existing in
    Some (set_alias s (<[new:=n]> (a_alias s)), RDone)
  | OUpsert [] _ _ _ => Some (s, RDone)
  | OUpsert (alias :: others) urls idents meta =>
    let '(n, s) := tenant_of s alias in
    let s := set_alias s (foldl (fun am a => <[a:=n]> am) (a_alias s) others) in
    let s := set_keys s (ensure_all (ensure_all (ensure_all (a_keys s) NsURL urls) NsID idents) NsMeta meta) in
    Some (set_props s n (fun ns => merge_props (match ns with NsURL => urls | NsID => idents | NsMeta => meta end) (a_props s n ns)), RDone)
  | ODrop alias =>
    Some (match a_alias s !! alias with
          | None => s
          | Some n => set_alias s (filter (fun e => e.2 <> n) (a_alias s))
          end, RDone)
  | OTest _ runID =>
    Some (mkAR (<[test_alias runID:=a_next s]> (a_alias s)) (S (a_next s)) (a_props s) (a_keys s) true, RTest (test_alias runID))
  | OLoad ns alias keyID =>
    key ← a_keys s ns !! Z.to_nat keyID;
    if keyID <? 0 then None else
    Some (s, request s alias (fun n => visible (a_props s n ns !! key)))
  | OLoadVar alias key => Some (s, request s alias (fun n => visible (a_props s n NsURL !! key)))
  | ORecord alias =>
    Some (s, RRecord ((fun n => (a_props s n NsURL, a_props s n NsID, a_props s n NsMeta)) <$> (a_alias s !! alias)))
  end.

Fixpoint a_run (os : list rop) (s : aregistry) : option (list rres) :=
  match os with
  | [] => Some []
  | o :: os => sr ← a_step o s; rs ← a_run os sr.1; Some (sr.2 :: rs)
  end.

(** ** The same on the manager *)

Section steps.
Context (hash : byte_string -> Z) (iter : nat -> gmap byte_string Z -> list (byte_string * Z)).

(** The steps of a request: [registry_lookup], then a load into slot 2. *)
Definition run_request (active : option TenantRegistry) (alias key : byte_string)
    (load : option TenantRegistry -> RegCtx -> Z -> outcome (RegCtx * Z)) : outcome rres :=
  f <-- RegistryLookup hash 0 (-1) active (mkRegCtx [alias; key; []] 0 0 []) 0 ;;
  if f.2 =? StopPlan then Ret (RRequest (rc_ResponseStatus f.1) [])
  else
    g <-- load active f.1 f.2 ;;
    v <-- slot_value g.1 2 ;;
    Ret (RRequest (rc_ResponseStatus g.1) v).

Definition r_step (o : rop) (m : RegistryManager) : outcome (RegistryManager * rres) :=
  match o with
  | OSet ns alias key value => m <-- AddProp hash iter ns m alias key value ;; Ret (m, RDone)
  | OUnset ns alias key => m <-- DeleteProp iter ns m alias key ;; Ret (m, RDone)
  | OKey ns key => f <-- EnsureKeyID ns m key ;; Ret (f.1, RKey f.2)
  | OAlias existing new => m <-- AddAlias hash iter m existing new ;; Ret (m, RDone)
  | OUpsert aliases urls idents meta => m <-- UpsertTenantState hash iter m aliases urls idents meta ;; Ret (m, RDone)
  | ODrop alias => m <-- DeleteTenant hash iter m alias ;; Ret (m, RDone)
  | OTest now runID => f <-- RegisterTestTenant hash iter m now runID ;; Ret (f.1, RTest f.2.1)
  | OLoad ns alias keyID => r <-- run_request (Active m) alias [] (LoadProp ns keyID 2) ;; Ret (m, r)
  | OLoadVar alias key => r <-- run_request (Active m) alias key (LoadServiceURLVar 1 2) ;; Ret (m, r)
  | ORecord alias =>
    Ret (m, RRecord (c ← aliasMap m !! alias; rec ← tenantData m !! c; Some (ServiceURLs rec, Identifiers rec, Metadata rec)))
  end.
End steps.
