(* ===== verification/RegistryCore.v ===== *)
(** * The manager and the abstract registry

    The relation between the two and what the helpers of the manager do to
    it. *)

From S2P Require Import Prelude Registry RegistryManager RegistrySteps RegistryAliases RegistryStore RegistryRefine RegistrySpec.

Local Open Scope Z_scope.
Local Open Scope rah_scope.

Definition mirror (td : gmap Z TenantRecord) : props :=
  fun c ns k => td !! c ≫= fun rec => record_props rec ns !! k.

Definition test_next (m : RegistryManager) : Z := if nextTestTenantID m =? 0 then TestTenantRangeStart else nextTestTenantID m.

(** Numbers given out so far. *)
Definition given (m : RegistryManager) (c : Z) : Prop :=
  1 <= c < nextAvailableTenantID m \/ TestTenantRangeStart <= c < test_next m.

(** [num] is the number of each live tenant, [pend] a tenant whose record is
    still to be made, [cap] the number of rows; [wt], [wx] and [wa] bound the
    tenants, test tenants and aliases still to come. *)
Record core (num : gmap nat Z) (pend : option nat) (cap wt wx wa : Z) (m : RegistryManager) (s : aregistry) : Prop := {
  co_alias : forall a, aliasMap m !! a = (a_alias s !! a ≫= fun n => num !! n);
  co_known : forall a n, a_alias s !! a = Some n -> is_Some (num !! n);
  co_inj : forall n n' c, num !! n = Some c -> num !! n' = Some c -> n = n';
  co_next : forall n c, num !! n = Some c -> (n < a_next s)%nat;
  co_new : forall n ns, (a_next s <= n)%nat -> a_props s n ns = ∅;
  co_data : forall n c, num !! n = Some c ->
    match tenantData m !! c with
    | Some rec => rec_Aliases rec <> [] /\ forall ns, record_props rec ns = a_props s n ns
    | None => pend = Some n /\ forall ns, a_props s n ns = ∅
    end;
  co_nodata : forall c, (forall n, num !! n <> Some c) -> tenantData m !! c = None;
  co_given : forall n c, num !! n = Some c -> given m c /\ c < cap;
  co_free : NoDup (FreeSlots m) /\ forall c, c ∈ FreeSlots m -> given m c /\ forall n, num !! n <> Some c;
  co_short : forall a, is_Some (aliasMap m !! a) -> zlen a < 65536;
  co_ids : 1 <= nextAvailableTenantID m /\ nextAvailableTenantID m + wt <= TestTenantRangeStart;
  co_tests : (nextTestTenantID m = 0 \/ TestTenantRangeStart <= nextTestTenantID m) /\ test_next m + wx <= 65408;
  co_count : Z.of_nat (size (aliasMap m)) + wa < 65536
}.

(** [core] sees only part of the manager. *)
Definition same_core (m m' : RegistryManager) : Prop :=
  aliasMap m' = aliasMap m /\ tenantData m' = tenantData m /\ FreeSlots m' = FreeSlots m /\
  nextAvailableTenantID m' = nextAvailableTenantID m /\ nextTestTenantID m' = nextTestTenantID m.

Lemma core_same num pend cap wt wx wa m m' s : same_core m m' -> core num pend cap wt wx wa m s -> core num pend cap wt wx wa m' s.
Proof.
  intros (E1 & E2 & E3 & E4 & E5) [H1 H2 H3 H4 H5 H6 H7 H8 H9 H10 H11 H12 H13].
  assert (test_next m' = test_next m) as Et by (unfold test_next; by rewrite E5).
  assert (forall c, given m' c <-> given m c) as Eg by (intros c; unfold given; by rewrite E4, Et).
  constructor; rewrite ?E1, ?E2, ?E3, ?E4, ?E5, ?Et; try done.
  - intros n c Hn. rewrite Eg. eauto.
  - destruct H9 as [? H9]. split; [done|]. intros c Hc. rewrite Eg. eauto.
Qed.

Lemma core_weaken num pend cap cap' wt wx wa wt' wx' wa' m s : core num pend cap wt wx wa m s -> cap <= cap' -> wt' <= wt -> wx' <= wx -> wa' <= wa ->
  core num pend cap' wt' wx' wa' m s.
Proof.
  intros [H1 H2 H3 H4 H5 H6 H7 H8 H9 H10 H11 H12 H13] ? ? ? ?. constructor; try done.
  - intros n c Hn. destruct (H8 n c Hn). split; [done|lia].
  - lia.
  - lia.
  - lia.
Qed.

Lemma given_bounds num pend cap wt wx wa m s c : core num pend cap wt wx wa m s -> 0 <= wt -> 0 <= wx -> given m c -> 1 <= c < 65408.
Proof. intros H ? ? Hg. pose proof (co_ids _ _ _ _ _ _ _ _ H). pose proof (co_tests _ _ _ _ _ _ _ _ H). unfold given, TestTenantRangeStart in *. lia. Qed.

(** ** The alias table *)

Section tables.
Context (hash : byte_string -> Z) (iter : nat -> gmap byte_string Z -> list (byte_string * Z)).
Context (Hiter : forall n am, iter n am ≡ₚ map_to_list am).

Lemma same_core_refl m : same_core m m.
Proof using. done. Qed.

Lemma same_core_trans m1 m2 m3 : same_core m1 m2 -> same_core m2 m3 -> same_core m1 m3.
Proof using. unfold same_core. intros (? & ? & ? & ? & ?) (? & ? & ? & ? & ?). repeat split; congruence. Qed.

Lemma rebuild_like num pend cap wt wx wa m m' s : core num pend cap wt wx wa m s -> aliasMap m' = aliasMap m -> 0 <= wt -> 0 <= wx -> 0 <= wa ->
  exists t, rebuildAliasTable hash iter m' = Ret (t, tick_range m') /\ forall a, AliasLookup hash t a = Ret (aliasMap m !! a).
Proof using Hiter.
  intros H E Ht Hx Hw. unfold rebuildAliasTable, range_aliases. rewrite E. generalize (range_count m'). intros rc.
  destruct (build_table_ok hash (aliasMap m) (iter rc (aliasMap m)) (Hiter _ _)) as (t & -> & Ht').
  - apply Forall_forall. intros [a c] Hin. rewrite Hiter, elem_of_map_to_list in Hin. split; cbn [fst snd].
    + rewrite (co_alias _ _ _ _ _ _ _ _ H) in Hin. destruct (a_alias s !! a) as [n|]; cbn in Hin; [|done].
      destruct (co_given _ _ _ _ _ _ _ _ H n c Hin) as [Hg _]. apply (given_bounds _ _ _ _ _ _ _ _ _ H) in Hg; lia.
    + apply (co_short _ _ _ _ _ _ _ _ H). eauto.
  - pose proof (co_count _ _ _ _ _ _ _ _ H). lia.
  - exists t. done.
Qed.

Lemma rebuild_ok num pend cap wt wx wa m s : core num pend cap wt wx wa m s -> 0 <= wt -> 0 <= wx -> 0 <= wa ->
  exists t, rebuildAliasTable hash iter m = Ret (t, tick_range m) /\ forall a, AliasLookup hash t a = Ret (aliasMap m !! a).
Proof using Hiter. intros H. by apply (rebuild_like _ _ _ _ _ _ m m s H). Qed.

(** The aliases of a tenant that has one. *)
Lemma aliases_of_nonempty n am a c : am !! a = Some c -> aliases_of (iter n am) c <> [].
Proof using Hiter.
  intros E. unfold aliases_of. assert ((a, c) ∈ iter n am) as Hin by (rewrite Hiter; by apply elem_of_map_to_list).
  intros Hn. apply fmap_nil_inv in Hn. assert ((a, c) ∈ filter (fun e : byte_string * Z => e.2 = c) (iter n am)) as Hf by (by apply list_elem_of_filter).
  rewrite Hn in Hf. by apply elem_of_nil in Hf.
Qed.
End tables.

(** ** The sorted slice *)

Lemma search_from_ret f : forall fuel i j, i <= j -> j - i < Z.of_nat fuel -> exists r, search_from fuel f i j = Ret r /\ i <= r <= j.
Proof.
  induction fuel as [|fuel IH]; intros i j Hij Hf; cbn [search_from]; [lia|].
  destruct (Z.ltb_spec i j) as [Hlt|Hge]; [|exists i; split; [done|lia]].
  assert (i <= Z.shiftr (i + j) 1 < j) as Hh by (rewrite Z.shiftr_div_pow2 by lia; change (2 ^ 1) with 2; div_lia).
  destruct (f _).
  - destruct (IH i (Z.shiftr (i + j) 1)) as (r & -> & Hr); [lia..|]. exists r. split; [done|lia].
  - destruct (IH (Z.shiftr (i + j) 1 + 1) j) as (r & -> & Hr); [lia..|]. exists r. split; [done|lia].
Qed.

Lemma sort_Search_ret l p : exists r, sort_Search l p = Ret r /\ 0 <= r <= zlen l.
Proof. apply search_from_ret; lia. Qed.

Lemma insertSorted_ret l c : exists l', insertSortedTenantID l c = Ret l'.
Proof. unfold insertSortedTenantID. destruct (sort_Search_ret l (fun x => c <=? x)) as (r & -> & _). cbn. eauto. Qed.

Lemma removeSorted_ret l c : exists l', removeSortedTenantID l c = Ret l'.
Proof. unfold removeSortedTenantID. destruct (sort_Search_ret l (fun x => c <=? x)) as (r & -> & _). cbn. eauto. Qed.

(** ** A new number *)

Lemma alias_size (am : gmap byte_string Z) a c : (size (<[a:=c]> am) <= S (size am))%nat.
Proof. rewrite map_size_insert. destruct (am !! a); cbn; lia. Qed.

Lemma alloc_ok num pend cap wt wx wa m s : core num pend cap (wt + 1) wx wa m s -> 0 <= wt -> 0 <= wx ->
  exists c m', allocTenantID m = (c, m') /\ given m' c /\ 1 <= c < 65408 /\ (forall n, num !! n <> Some c) /\
    (c ∉ FreeSlots m') /\ NoDup (FreeSlots m') /\ FreeSlots m' ⊆ FreeSlots m /\ (forall c', given m c' -> given m' c') /\
    1 <= nextAvailableTenantID m' <= nextAvailableTenantID m + 1 /\ aliasMap m' = aliasMap m /\ tenantData m' = tenantData m /\
    nextTestTenantID m' = nextTestTenantID m /\ Active m' = Active m.
Proof.
  intros H Ht Hx. destruct (co_free _ _ _ _ _ _ _ _ H) as [Hnd Hfree]. destruct (co_ids _ _ _ _ _ _ _ _ H) as [H1 Hids]. unfold TestTenantRangeStart in Hids.
  unfold allocTenantID. destruct (last (FreeSlots m)) as [c|] eqn:El.
  - apply last_Some in El as [l El]. destruct (Hfree c) as [Hg Hn]; [rewrite El; apply elem_of_app; right; by left|].
    pose proof (given_bounds _ _ _ _ _ _ _ _ c H ltac:(lia) Hx Hg).
    eexists _, _. split; [done|]. cbn [set_slots FreeSlots nextAvailableTenantID aliasMap tenantData nextTestTenantID Active].
    rewrite El in *. rewrite length_app. cbn [length]. replace (length l + 1 - 1)%nat with (length l) by lia. rewrite take_app_length.
    apply NoDup_app in Hnd as (Hl & Hd & _). split; [done|]. split; [done|]. split; [done|]. split; [intros Hin; apply (Hd c Hin); by left|].
    split; [done|]. split; [intros x Hin; apply elem_of_app; by left|]. split; [done|]. split; [lia|done].
  - apply last_None in El. eexists _, _. split; [done|]. cbn [set_slots FreeSlots nextAvailableTenantID aliasMap tenantData nextTestTenantID Active].
    rewrite (wrapu_small 32 (_ + 1)) by lia. replace (nextAvailableTenantID m + 1 - 1) with (nextAvailableTenantID m) by lia.
    rewrite (wrapu_small 32), (wrapu_small 16) by lia.
    split; [left; cbn; lia|]. split; [lia|]. split.
    { intros n Hn. destruct (co_given _ _ _ _ _ _ _ _ H n _ Hn) as [[?|?] _]; unfold TestTenantRangeStart in *; lia. }
    split; [by intros ?%elem_of_nil|]. split; [constructor|]. split; [by rewrite El|].
    split; [intros c' [?|?]; [left; cbn; lia|by right]|]. split; [lia|done].
Qed.

(** [m1] is the manager after a number [c] nobody has was taken. *)
Record takes (num : gmap nat Z) (m m1 : RegistryManager) (c : Z) : Prop := {
  tk_alias : aliasMap m1 = aliasMap m;
  tk_data : tenantData m1 = tenantData m;
  tk_mono : forall c', given m c' -> given m1 c';
  tk_given : given m1 c;
  tk_fresh : forall n, num !! n <> Some c;
  tk_free : (c ∉ FreeSlots m1) /\ NoDup (FreeSlots m1) /\ FreeSlots m1 ⊆ FreeSlots m
}.

Lemma core_add num cap cap' wt wx wa wt' wx' m m1 s alias c live : core num None cap wt' wx' (wa + 1) m s -> takes num m m1 c ->
  (1 <= nextAvailableTenantID m1 /\ nextAvailableTenantID m1 + wt <= TestTenantRangeStart) ->
  ((nextTestTenantID m1 = 0 \/ TestTenantRangeStart <= nextTestTenantID m1) /\ test_next m1 + wx <= 65408) ->
  cap <= cap' -> c < cap' -> zlen alias < 65536 ->
  core (<[a_next s:=c]> num) (Some (a_next s)) cap' wt wx wa (set_aliasMap m1 (<[alias:=c]> (aliasMap m1)))
    (mkAR (<[alias:=a_next s]> (a_alias s)) (S (a_next s)) (a_props s) (a_keys s) live).
Proof.
  intros H [Ea Ed Hmono Hg Hfresh (Hcf & Hnd & Hsub)] Hids Htests Hcap Hc Hal.
  assert (num !! a_next s = None) as Hn0.
  { destruct (num !! a_next s) as [c'|] eqn:E; [|done]. apply (co_next _ _ _ _ _ _ _ _ H) in E. lia. }
  destruct H as [H1 H2 H3 H4 H5 H6 H7 H8 H9 H10 H11 H12 H13].
  assert (forall a n, a_alias s !! a = Some n -> n <> a_next s) as Hne by (intros a n E ->; destruct (H2 a _ E) as [? ?]; congruence).
  constructor; cbn [set_aliasMap aliasMap tenantData FreeSlots nextAvailableTenantID nextTestTenantID a_alias a_next a_props]; rewrite ?Ea, ?Ed; try done.
  - intros a. destruct (decide (a = alias)) as [->|Hna]; [by rewrite !lookup_insert_eq; cbn; rewrite lookup_insert_eq|].
    rewrite !lookup_insert_ne, H1 by done. destruct (a_alias s !! a) as [n|] eqn:E; cbn; [|done].
    rewrite lookup_insert_ne; [done|]. intros <-. by apply (Hne a (a_next s)).
  - intros a n [[_ <-]|[_ E]]%lookup_insert_Some; [rewrite lookup_insert_eq; eauto|].
    destruct (H2 a n E) as [c' E']. rewrite lookup_insert_ne; [eauto|]. intros <-. congruence.
  - intros n n' c' [[<- <-]|[? E]]%lookup_insert_Some [[<- E2]|[? E']]%lookup_insert_Some; try done.
    + by apply Hfresh in E'.
    + subst. by apply Hfresh in E.
    + eauto.
  - intros n c' [[<- <-]|[? E%H4]]%lookup_insert_Some; lia.
  - intros n ns Hn. apply H5. lia.
  - intros n c' [[<- <-]|[? E]]%lookup_insert_Some.
    + rewrite (H7 c Hfresh). split; [done|]. intros ns. by apply H5.
    + specialize (H6 n c' E). destruct (tenantData m !! c'); [done|]. by destruct H6.
  - intros c' Hc'. apply H7. intros n E. apply (Hc' n). rewrite lookup_insert_ne; [done|]. intros <-. congruence.
  - intros n c' [[<- <-]|[? E]]%lookup_insert_Some; [split; [exact Hg|done]|]. destruct (H8 n c' E). split; [by apply Hmono|lia].
  - split; [done|]. intros c' Hin. destruct H9 as [_ H9]. destruct (H9 c' (Hsub _ Hin)) as [? Hn]. split; [by apply Hmono|].
    intros n [[_ <-]|[_ E]]%lookup_insert_Some; [done|by apply (Hn n)].
  - intros a [c' E]. apply lookup_insert_Some in E as [[<- _]|[_ E]]; [done|]. apply H10. eauto.
  - pose proof (alias_size (aliasMap m) alias c). lia.
Qed.

(** Making or updating the record of a tenant. *)
Lemma core_record num pend cap wt wx wa m s n c rec p : core num pend cap wt wx wa m s -> (pend = None \/ pend = Some n) -> num !! n = Some c ->
  rec_Aliases rec <> [] -> (forall ns, record_props rec ns = p ns) ->
  core num None cap wt wx wa (set_tenantData m (<[c:=rec]> (tenantData m))) (set_props s n p).
Proof.
  intros [H1 H2 H3 H4 H5 H6 H7 H8 H9 H10 H11 H12 H13] Hpend Hn Hrec Hp.
  constructor; cbn [set_tenantData aliasMap tenantData FreeSlots nextAvailableTenantID nextTestTenantID set_props a_alias a_next a_props]; try done.
  - intros n' ns Hn'. rewrite bool_decide_eq_false_2; [by apply H5|]. intros ->. apply H4 in Hn. lia.
  - intros n' c' E. destruct (decide (n' = n)) as [->|Hne].
    + assert (c' = c) as -> by congruence. rewrite lookup_insert_eq, bool_decide_eq_true_2 by done. done.
    + rewrite lookup_insert_ne by (intros <-; apply Hne; eauto). rewrite bool_decide_eq_false_2 by done.
      specialize (H6 n' c' E). destruct (tenantData m !! c'); [done|]. destruct H6 as [-> ?]. destruct Hpend; congruence.
  - intros c' Hc'. rewrite lookup_insert_ne; [by apply H7|]. intros <-. by apply (Hc' n).
Qed.

(** Pointing an alias at a live tenant. *)
Lemma core_alias num pend cap wt wx wa m s n c a : core num pend cap wt wx (wa + 1) m s -> num !! n = Some c -> zlen a < 65536 ->
  core num pend cap wt wx wa (set_aliasMap m (<[a:=c]> (aliasMap m))) (set_alias s (<[a:=n]> (a_alias s))).
Proof.
  intros [H1 H2 H3 H4 H5 H6 H7 H8 H9 H10 H11 H12 H13] Hn Ha.
  constructor; cbn [set_aliasMap aliasMap tenantData FreeSlots nextAvailableTenantID nextTestTenantID set_alias a_alias a_next a_props]; try done.
  - intros a'. destruct (decide (a' = a)) as [->|Hna]; [by rewrite !lookup_insert_eq; cbn|]. by rewrite !lookup_insert_ne, H1 by done.
  - intros a' n' [[_ <-]|[_ E]]%lookup_insert_Some; [eauto|by eapply H2].
  - intros a' [c' E]. apply lookup_insert_Some in E as [[<- _]|[_ E]]; [done|]. apply H10. eauto.
  - pose proof (alias_size (aliasMap m) a c). lia.
Qed.

(** Dropping a tenant: its aliases go, its number is free. *)
Lemma core_drop num cap wt wx wa m s n c : core num None cap wt wx wa m s -> num !! n = Some c ->
  core (delete n num) None cap wt wx wa
    (set_tenantData (set_slots (set_aliasMap m (filter (fun e => e.2 <> c) (aliasMap m))) (FreeSlots m ++ [c]) (nextAvailableTenantID m))
       (delete c (tenantData m)))
    (set_alias s (filter (fun e => e.2 <> n) (a_alias s))).
Proof.
  intros [H1 H2 H3 H4 H5 H6 H7 H8 H9 H10 H11 H12 H13] Hn.
  constructor; cbn [set_tenantData set_slots set_aliasMap aliasMap tenantData FreeSlots nextAvailableTenantID nextTestTenantID set_alias a_alias a_next a_props]; try done.
  - intros a. destruct (a_alias s !! a) as [n'|] eqn:E.
    + destruct (H2 a n' E) as [c' E']. assert (aliasMap m !! a = Some c') as Ea by (by rewrite H1, E).
      destruct (decide (n' = n)) as [->|Hne].
      * rewrite (map_lookup_filter_None_2 _ (a_alias s)) by (right; intros x; rewrite E; intros [= <-]; cbn; tauto). cbn.
        apply map_lookup_filter_None_2. right. intros x. rewrite Ea. intros [= <-]. cbn. assert (c' = c) by congruence. tauto.
      * rewrite (map_lookup_filter_Some_2 _ _ a n') by done. cbn. rewrite lookup_delete_ne, E' by done.
        apply map_lookup_filter_Some_2; [done|]. cbn. intros ->. apply Hne. eauto.
    + rewrite !map_lookup_filter_None_2; [done|by left|]. left. by rewrite H1, E.
  - intros a n' [E Hne]%map_lookup_filter_Some. cbn in Hne. rewrite lookup_delete_ne by done. eauto.
  - intros n1 n2 c' [_ E1]%lookup_delete_Some [_ E2]%lookup_delete_Some. eauto.
  - intros n' c' [_ E]%lookup_delete_Some. eauto.
  - intros n' c' [Hne E]%lookup_delete_Some. rewrite lookup_delete_ne by (intros <-; apply Hne; eauto). by apply H6.
  - intros c' Hc'. apply lookup_delete_None. destruct (decide (c = c')) as [?|Hne]; [by left|right]. apply H7. intros n' E. apply (Hc' n').
    rewrite lookup_delete_ne; [done|]. intros <-. congruence.
  - intros n' c' [_ E]%lookup_delete_Some. exact (H8 n' c' E).
  - destruct H9 as [Hnd H9]. split.
    + apply NoDup_app. split; [done|]. split; [|apply NoDup_singleton]. intros x Hx ->%list_elem_of_singleton. by apply (proj2 (H9 c Hx) n).
    + intros c' [Hin| ->%list_elem_of_singleton]%elem_of_app.
      * destruct (H9 c' Hin) as [? Hno]. split; [done|]. intros n' [_ E]%lookup_delete_Some. by apply (Hno n').
      * split; [by apply (H8 n c)|]. intros n' [Hne E]%lookup_delete_Some. apply Hne. eauto.
  - intros a [c' [E _]%map_lookup_filter_Some]. apply H10. eauto.
  - pose proof (map_subseteq_size _ _ (map_filter_subseteq (fun e : byte_string * Z => e.2 <> c) (aliasMap m))). lia.
Qed.

(** ** The relation *)

Section relation.
Context (hash : byte_string -> Z) (U : namespace -> list byte_string).

Definition active_ok (m : RegistryManager) (live : bool) : Prop :=
  if live then exists reg, Active m = Some reg /\ forall a, AliasLookup hash (Aliases reg) a = Ret (aliasMap m !! a)
  else Active m = None /\ aliasMap m = ∅.

Record rel (wt wx wa wv : Z) (m : RegistryManager) (s : aregistry) : Prop := {
  re_num : exists num, core num None (MaxTenants (activeOrEmpty m)) wt wx wa m s;
  re_reg : reg_ok U (a_keys s) (activeOrEmpty m) (mirror (tenantData m));
  re_active : active_ok m (a_live s);
  re_pool : Z.max 1 (zlen (ValuePool (activeOrEmpty m))) + wv < 2 ^ 32
}.

(** A finished operation that published [reg] with a fresh alias table. *)
Lemma rel_publish num wt wx wa wv m m' s reg t : core num None (MaxTenants reg) wt wx wa m' s -> reg_ok U (a_keys s) reg (mirror (tenantData m')) ->
  same_core m' m -> Active m = Some (with_aliases reg t) -> (forall a, AliasLookup hash t a = Ret (aliasMap m' !! a)) -> a_live s = true ->
  Z.max 1 (zlen (ValuePool reg)) + wv < 2 ^ 32 -> rel wt wx wa wv m s.
Proof using.
  intros Hc Hr Hs Ha Ht Hl Hp. assert (activeOrEmpty m = with_aliases reg t) as E by (unfold activeOrEmpty; by rewrite Ha).
  pose proof Hs as (E1 & E2 & _). constructor.
  - exists num. rewrite E. by apply (core_same _ _ _ _ _ _ m').
  - rewrite E, E2. by apply (reg_ok_same U _ reg); [intros []|..].
  - rewrite Hl. exists (with_aliases reg t). split; [done|]. by rewrite E1.
  - by rewrite E.
Qed.
End relation.

(** Resolving or creating the tenant of an alias. *)
Lemma resolve_ok U (HU : forall ns, names_ok (U ns)) num wt wx wa m reg s alias :
  core num None (MaxTenants reg) (wt + 1) wx (wa + 1) m s -> reg_ok U (a_keys s) reg (mirror (tenantData m)) -> 0 <= wt -> 0 <= wx -> zlen alias < 65536 ->
  exists c m' reg' num', resolveOrCreateTenant m reg alias = Ret (c, m', reg') /\ num' !! (tenant_of s alias).1 = Some c /\
    core num' (Some (tenant_of s alias).1) (MaxTenants reg') wt wx wa m' (tenant_of s alias).2 /\
    reg_ok U (a_keys s) reg' (mirror (tenantData m')) /\ aliasMap m' !! alias = Some c /\ ValuePool reg' = ValuePool reg /\ Active m' = Active m.
Proof.
  intros H Hr Ht Hx Ha. unfold resolveOrCreateTenant, tenant_of. pose proof (co_alias _ _ _ _ _ _ _ _ H alias) as E.
  destruct (a_alias s !! alias) as [n|] eqn:En; cbn [mbind option_bind fst snd] in *.
  - destruct (co_known _ _ _ _ _ _ _ _ H alias n En) as [c Ec]. rewrite Ec in E. rewrite E. exists c, m, reg, num. split; [done|]. split; [done|].
    split; [|done]. apply (core_weaken _ _ _ (MaxTenants reg) _ _ _ wt wx wa) in H; [|lia..].
    destruct H as [H1 H2 H3 H4 H5 H6 H7 H8 H9 H10 H11 H12 H13]. constructor; try done.
    intros n' c' E'. specialize (H6 n' c' E'). destruct (tenantData m !! c'); [done|]. by destruct H6.
  - rewrite E. destruct (alloc_ok _ _ _ wt _ _ _ _ H Ht Hx) as (c & m1 & -> & Hg & Hb & Hf & Hcf & Hnd & Hsub & Hmono & Hids & Ea & Ed & Etst & Eact).
    cbn [set_aliasMap tenantIDs]. destruct (insertSorted_ret (tenantIDs m1) c) as [l ->]. cbn [obind].
    destruct (grow_tenant_ok U HU _ _ _ c Hr ltac:(lia)) as (Hr' & Hc & Hm & Hv).
    eexists c, _, (grow_tenant reg c), (<[a_next s:=c]> num). split; [done|]. split; [by rewrite lookup_insert_eq|].
    set (m2 := set_aliasMap m1 _). set (m3 := persistTenantID _ _ _).
    assert (same_core m2 m3) as Hsame by (unfold m3, persistTenantID; destruct (rm_store _); done).
    pose proof Hsame as (E1 & E2 & _). split; [|split; [|split; [|split; [done|]]]].
    + apply (core_same _ _ _ _ _ _ m2 m3); [done|]. pose proof (co_ids _ _ _ _ _ _ _ _ H). pose proof (co_tests _ _ _ _ _ _ _ _ H) as Htst.
      apply (core_add num (MaxTenants reg) _ _ _ _ (wt + 1) wx m); try done; [lia|]. unfold test_next in *. by rewrite Etst.
    + rewrite E2. cbn. by rewrite Ed.
    + rewrite E1. cbn. by rewrite lookup_insert_eq.
    + unfold m3, persistTenantID. by destruct (rm_store _).
Qed.
