(* ===== verification/RegistryOps.v ===== *)
(** * Every operation of the registry refines its specification *)

From S2P Require Import Prelude Registry RegistryManager RegistrySteps RegistryAliases RegistryStore RegistryRefine RegistrySpec RegistryCore.

Local Open Scope Z_scope.
Local Open Scope rah_scope.

(** [core] sees only the aliases and the properties of the specification. *)
Lemma core_spec num pend cap wt wx wa m s s' : a_alias s' = a_alias s -> a_next s' = a_next s -> (forall n ns, a_props s' n ns = a_props s n ns) ->
  core num pend cap wt wx wa m s -> core num pend cap wt wx wa m s'.
Proof.
  intros E1 E2 E3 [H1 H2 H3 H4 H5 H6 H7 H8 H9 H10 H11 H12 H13]. constructor; rewrite ?E1, ?E2; try done.
  - intros n ns Hn. rewrite E3. eauto.
  - intros n c Hn. specialize (H6 n c Hn). destruct (tenantData m !! c) as [rec|].
    + destruct H6 as [? H6]. split; [done|]. intros ns. by rewrite E3.
    + destruct H6 as [? H6]. split; [done|]. intros ns. by rewrite E3.
Qed.

Lemma mirror_core num pend cap wt wx wa m s n c ns k : core num pend cap wt wx wa m s -> num !! n = Some c ->
  mirror (tenantData m) c ns k = a_props s n ns !! k.
Proof.
  intros H Hn. pose proof (co_data _ _ _ _ _ _ _ _ H n c Hn) as Hd. unfold mirror.
  destruct (tenantData m !! c) as [rec|]; cbn; destruct Hd as [_ ->]; [done|]. by rewrite lookup_empty.
Qed.

Lemma mirror_insert td c rec c' ns k : mirror (<[c:=rec]> td) c' ns k = if bool_decide (c' = c) then record_props rec ns !! k else mirror td c' ns k.
Proof. unfold mirror. case_bool_decide as E; [subst; by rewrite lookup_insert_eq|by rewrite lookup_insert_ne]. Qed.

Lemma record_props_with rec ns p ns' : record_props (with_props rec ns p) ns' = if bool_decide (ns' = ns) then p else record_props rec ns'.
Proof. by destruct ns, ns'. Qed.

Lemma on_ns_insert ns key value q ns' k : on_ns ns (fun p => <[key:=value]> p) q ns' !! k = if bool_decide (ns' = ns /\ k = key) then Some value else q ns' !! k.
Proof.
  unfold on_ns. destruct (decide (ns' = ns)) as [->|]; [rewrite (bool_decide_eq_true_2 (ns = ns)) by done|by rewrite !bool_decide_eq_false_2 by tauto].
  destruct (decide (k = key)) as [->|]; [by rewrite lookup_insert_eq, bool_decide_eq_true_2|]. by rewrite lookup_insert_ne, bool_decide_eq_false_2 by (congruence || tauto).
Qed.

Lemma on_ns_delete ns key q ns' k : on_ns ns (fun p => delete key p) q ns' !! k = if bool_decide (ns' = ns /\ k = key) then None else q ns' !! k.
Proof.
  unfold on_ns. destruct (decide (ns' = ns)) as [->|]; [rewrite (bool_decide_eq_true_2 (ns = ns)) by done|by rewrite !bool_decide_eq_false_2 by tauto].
  destruct (decide (k = key)) as [->|]; [by rewrite lookup_delete_eq, bool_decide_eq_true_2|]. by rewrite lookup_delete_ne, bool_decide_eq_false_2 by (congruence || tauto).
Qed.

(** The mirror after one tenant's record changed. *)
Lemma mirror_upd num pend cap wt wx wa m s n c rec p ns key o : core num pend cap wt wx wa m s -> num !! n = Some c ->
  (forall ns, record_props rec ns = p ns) ->
  (forall ns' k, p ns' !! k = if bool_decide (ns' = ns /\ k = key) then o else a_props s n ns' !! k) ->
  forall c' ns' k, upd (mirror (tenantData m)) c ns key o c' ns' k = mirror (<[c:=rec]> (tenantData m)) c' ns' k.
Proof.
  intros H Hn Hrec Hp c' ns' k. rewrite mirror_insert, Hrec, Hp. unfold upd.
  destruct (decide (c' = c)) as [->|]; [|by rewrite !bool_decide_eq_false_2 by tauto]. rewrite (bool_decide_eq_true_2 (c = c)) by done.
  rewrite (mirror_core _ _ _ _ _ _ _ _ n c ns' k H Hn).
  destruct (decide (ns' = ns /\ k = key)) as [[-> ->]|]; [by rewrite !bool_decide_eq_true_2 by done|by rewrite !bool_decide_eq_false_2 by tauto].
Qed.

Definition batch (ns : namespace) (urls idents meta : list (byte_string * byte_string)) : list (byte_string * byte_string) :=
  match ns with NsURL => urls | NsID => idents | NsMeta => meta end.

Definition upd_batch (P : props) (c : Z) (urls idents meta : list (byte_string * byte_string)) : props :=
  upd_all (upd_all (upd_all P c NsURL urls) c NsID idents) c NsMeta meta.

Lemma upd_batch_ok (P : props) (c : Z) (urls idents meta : list (byte_string * byte_string)) (q : namespace -> gmap byte_string byte_string) (c' : Z) (ns : namespace) (k : byte_string) : (forall ns k, P c ns k = q ns !! k) ->
  upd_batch P c urls idents meta c' ns k = if bool_decide (c' = c) then merge_props (batch ns urls idents meta) (q ns) !! k else P c' ns k.
Proof.
  intros HP. unfold upd_batch. case_bool_decide as E; [subst c'|by rewrite !upd_all_other by tauto].
  destruct ns; cbn [batch].
  - rewrite !upd_all_other by (intros [_ ?]; done). by apply upd_all_same.
  - rewrite upd_all_other by (intros [_ ?]; done). apply upd_all_same. intros k'. by rewrite upd_all_other by (intros [_ ?]; done).
  - apply upd_all_same. intros k'. by rewrite !upd_all_other by (intros [_ ?]; done).
Qed.

Section ops.
Context (hash : byte_string -> Z) (iter : nat -> gmap byte_string Z -> list (byte_string * Z)).
Context (Hiter : forall n am, iter n am ≡ₚ map_to_list am).
Context (U : namespace -> list byte_string) (HU : forall ns, names_ok (U ns)).

Lemma ensure_record_ok num pend cap wt wx wa m s n c a : core num pend cap wt wx wa m s -> num !! n = Some c -> aliasMap m !! a = Some c ->
  exists rec m', ensureTenantRecord iter m c = (rec, m') /\ rec_Aliases rec <> [] /\ (forall ns, record_props rec ns = a_props s n ns) /\
    (forall rec', same_core (set_tenantData m (<[c:=rec']> (tenantData m))) (set_tenantData m' (<[c:=rec']> (tenantData m')))) /\
    Active m' = Active m.
Proof using Hiter.
  intros H Hn Ha. pose proof (co_data _ _ _ _ _ _ _ _ H n c Hn) as Hd. unfold ensureTenantRecord.
  destruct (tenantData m !! c) as [rec|] eqn:E; [exists rec, m; destruct Hd; done|]. cbn [range_aliases].
  eexists _, _. split; [done|]. split; [by apply (aliases_of_nonempty iter Hiter _ _ a)|]. destruct Hd as [_ Hd].
  split; [intros ns; rewrite Hd; by destruct ns|]. split; [|done]. intros rec'. unfold same_core. cbn. by rewrite insert_insert_eq.
Qed.

Lemma go_index_head (l : list byte_string) : l <> [] -> exists a, go_index l 0 = Ret a.
Proof using. destruct l as [|a l]; [done|]. by exists a. Qed.

Lemma same_persist m m' cs : same_core m m' -> same_core m (persist m' cs).
Proof using. unfold persist. by destruct (rm_store m'). Qed.

Lemma Active_persist m cs : Active (persist m cs) = Active m.
Proof using. unfold persist. by destruct (rm_store m). Qed.

Lemma same_persistBatch m m' rec : same_core m m' -> same_core m (persistTenantBatch m' rec).
Proof using. unfold persistTenantBatch. by destruct (rm_store m'), (rec_Aliases rec). Qed.

Lemma Active_persistBatch m rec : Active (persistTenantBatch m rec) = Active m.
Proof using. unfold persistTenantBatch. by destruct (rm_store m), (rec_Aliases rec). Qed.

(** Setting a property. *)
Lemma set_ok wt wx wa wv m s ns alias key value : rel hash U (wt + 1) wx (wa + 1) (wv + 1) m s -> 0 <= wt -> 0 <= wx -> 0 <= wa -> 0 <= wv ->
  zlen alias < 65536 -> key ∈ U ns ->
  let '(n, s1) := tenant_of s alias in
  let s2 := set_keys s1 (ensure (a_keys s1) ns key) in
  exists m', AddProp hash iter ns m alias key value = Ret m' /\
    rel hash U wt wx wa wv m' (set_props s2 n (on_ns ns (fun p => <[key:=value]> p) (a_props s2 n))).
Proof using Hiter HU.
  intros [[num Hc] Hr Hact Hp] Ht Hx Ha Hv Hal Hk.
  destruct (resolve_ok U HU num wt wx wa m _ s alias Hc Hr Ht Hx Hal) as (c & m1 & reg1 & num1 & E1 & Hn & Hc1 & Hr1 & Hal1 & Hv1 & Hact1).
  assert (a_keys (tenant_of s alias).2 = a_keys s) as Ek by (unfold tenant_of; by destruct (a_alias s !! alias)).
  destruct (tenant_of s alias) as [n s1] eqn:Et. cbn [fst snd] in *. cbv zeta. unfold AddProp, applyProp. rewrite E1. cbn [obind].
  destruct (co_given _ _ _ _ _ _ _ _ Hc1 n c Hn) as [Hg Hcap]. apply (given_bounds _ _ _ _ _ _ _ _ _ Hc1 Ht Hx) in Hg.
  destruct (write_prop_ok U HU _ reg1 _ ns c key value Hr1 Hk ltac:(lia)) as (reg2 & -> & Hr2 & [Hmax Hali] & Hpool); [rewrite Hv1; lia|]. cbn [obind].
  destruct (rebuild_ok hash iter Hiter _ _ _ _ _ _ _ _ Hc1 Ht Hx Ha) as (t & -> & Htab). cbn [obind fst snd].
  assert (core num1 (Some n) (MaxTenants reg2) wt wx wa (tick_range m1) s1) as Hc2 by (rewrite Hmax; by apply (core_same _ _ _ _ _ _ m1)).
  destruct (ensure_record_ok _ _ _ _ _ _ _ _ n c alias Hc2 Hn Hal1) as (rec & m2 & -> & Hne & Hrec & Hsame & Hact2). cbn [obind fst snd].
  set (rec' := with_props rec ns _). assert (rec_Aliases rec' <> []) as Hne' by exact Hne.
  destruct (go_index_head _ Hne') as [prim ->]. cbn [obind]. eexists. split; [done|].
  set (p := on_ns ns _ _). assert (forall ns', record_props rec' ns' = p ns') as Hprops.
  { intros ns'. unfold rec', p, on_ns. rewrite record_props_with, Hrec. case_bool_decide; [by subst|done]. }
  pose proof (core_record _ _ _ _ _ _ _ _ n c rec' p Hc2 (or_intror eq_refl) Hn Hne' Hprops) as Hc3.
  eapply (rel_publish hash U num1 _ _ _ _ _ _ _ reg2 t); [by apply (core_spec _ _ _ _ _ _ _ (set_props s1 n p))| | |by rewrite Active_persist| |done|].
  - cbn [set_props set_keys a_keys]. rewrite Ek. eapply reg_ok_ext; [|exact Hr2]. intros c' ns' k'. cbn [set_tenantData tenantData tick_range].
    apply (mirror_upd _ _ _ _ _ _ m1 s1 n c rec' p ns key (Some value) Hc1 Hn Hprops). intros. apply on_ns_insert.
  - apply same_persist. apply (same_core_trans _ _ _ (Hsame rec')). done.
  - done.
  - rewrite Hv1 in Hpool. lia.
Qed.

Lemma known_live wt wx wa wv m s a n : rel hash U wt wx wa wv m s -> a_alias s !! a = Some n ->
  a_live s = true /\ exists num c reg, core num None (MaxTenants (activeOrEmpty m)) wt wx wa m s /\ num !! n = Some c /\ aliasMap m !! a = Some c /\
    Active m = Some reg /\ forall a, AliasLookup hash (Aliases reg) a = Ret (aliasMap m !! a).
Proof using.
  intros [[num Hc] _ Hact _] E. destruct (co_known _ _ _ _ _ _ _ _ Hc a n E) as [c Ec].
  assert (aliasMap m !! a = Some c) as Ea by (rewrite (co_alias _ _ _ _ _ _ _ _ Hc), E; done).
  destruct (a_live s); [|destruct Hact as [_ Hact]; rewrite Hact in Ea; done].
  destruct Hact as (reg & Er & Hl). split; [done|]. exists num, c, reg. done.
Qed.

Lemma rel_props wt wx wa wv m s s' : a_alias s' = a_alias s -> a_next s' = a_next s -> (forall n ns, a_props s' n ns = a_props s n ns) ->
  a_keys s' = a_keys s -> a_live s' = a_live s -> rel hash U wt wx wa wv m s -> rel hash U wt wx wa wv m s'.
Proof using.
  intros E1 E2 E3 E4 E5 [[num Hc] Hr Ha Hp]. constructor; rewrite ?E4, ?E5; try done. exists num. by apply (core_spec _ _ _ _ _ _ _ s).
Qed.

(** Removing a property. *)
Lemma unset_ok wt wx wa wv m s ns alias key : rel hash U wt wx wa wv m s -> 0 <= wt -> 0 <= wx -> key ∈ U ns ->
  exists m', DeleteProp iter ns m alias key = Ret m' /\
    rel hash U wt wx wa wv m' (match a_alias s !! alias with
                               | None => s
                               | Some n => set_props s n (on_ns ns (fun p => delete key p) (a_props s n))
                               end).
Proof using Hiter HU.
  intros H Ht Hx Hk. unfold DeleteProp. destruct (a_alias s !! alias) as [n|] eqn:En.
  2:{ destruct (re_num _ _ _ _ _ _ _ _ H) as [num Hc]. rewrite (co_alias _ _ _ _ _ _ _ _ Hc), En. cbn. eauto. }
  destruct (known_live _ _ _ _ _ _ _ _ H En) as (Hl & num & c & live & Hc & Hn & Ea & Er & Hlook). rewrite Ea.
  pose proof (re_reg _ _ _ _ _ _ _ _ H) as Hr. set (reg := activeOrEmpty m) in *. assert (reg = live) as Ereg by (unfold reg, activeOrEmpty; by rewrite Er).
  pose proof (ro_store _ _ _ _ Hr ns) as Hs. pose proof (ro_max _ _ _ _ Hr) as Hmax.
  rewrite (findKeyID_ok (U ns) (HU ns) _ (so_nodup _ _ _ _ Hs) (so_names _ _ _ _ Hs) _ _ key Hs Hk). cbn [obind].
  destruct (key_index (a_keys s ns) key) as [i|] eqn:Ei.
  2:{ eexists. split; [done|]. apply key_index_None in Ei. apply (rel_props _ _ _ _ _ s); try done. intros n' ns'. cbn [set_props a_props].
      case_bool_decide; [subst n'|done]. unfold on_ns. case_bool_decide; [subst ns'|done]. apply delete_id.
      rewrite <- (mirror_core _ _ _ _ _ _ _ _ n c ns key Hc Hn). by apply (ro_keys _ _ _ _ Hr). }
  apply key_index_Some in Ei as [Hi Ei]. destruct (co_given _ _ _ _ _ _ _ _ Hc n c Hn) as [Hg Hcap]. apply (given_bounds _ _ _ _ _ _ _ _ _ Hc Ht Hx) in Hg.
  destruct (mat_index (U ns) (HU ns) _ _ _ c i Hs ltac:(lia) ltac:(lia) Hi) as [Ec Hlen].
  pose proof (keys_bound (U ns) (HU ns) _ (so_nodup _ _ _ _ Hs) (so_names _ _ _ _ Hs)) as Hb.
  assert (zlen (Matrix (store_of reg ns)) <= 65536 * 256).
  { rewrite (so_matrix _ _ _ _ Hs), (so_stride _ _ _ _ Hs). apply Z.mul_le_mono_nonneg; lia. }
  rewrite Ec, (wrapu_small 32) by lia. rewrite (proj2 (Z.ltb_lt _ _)) by lia. fold (put_cell (store_of reg ns) c i 0).
  destruct (ensure_record_ok _ _ _ _ _ _ _ _ n c alias Hc Hn Ea) as (rec & m2 & -> & Hne & Hrec & Hsame & Hact2).
  set (rec' := with_props rec ns _). assert (rec_Aliases rec' <> []) as Hne' by exact Hne.
  destruct (go_index_head _ Hne') as [prim ->]. cbn [obind]. eexists. split; [done|].
  set (p := on_ns ns _ _). assert (forall ns', record_props rec' ns' = p ns') as Hprops.
  { intros ns'. unfold rec', p, on_ns. rewrite record_props_with, Hrec. case_bool_decide; [by subst|done]. }
  replace i with (Z.of_nat (Z.to_nat i)) by lia.
  pose proof (put_cell_reg U _ _ _ ns c (Z.to_nat i) key 0 None Hr ltac:(lia) Ei eq_refl) as Hr'. set (reg' := with_store _ _ _) in *.
  eapply (rel_publish hash U num _ _ _ _ _ _ _ reg' (Aliases reg')); [|
    |apply same_persist, (same_core_trans _ _ _ (Hsame rec')); done|rewrite Active_persist; by destruct reg'|change (forall a, AliasLookup hash (Aliases reg) a = Ret (aliasMap m !! a)); rewrite Ereg; exact Hlook|done|apply H].
  - apply (core_record _ _ _ _ _ _ _ _ n c rec' p Hc (or_introl eq_refl) Hn Hne' Hprops).
  - eapply reg_ok_ext; [|exact Hr']. apply (mirror_upd _ _ _ _ _ _ m s n c rec' p ns key None Hc Hn Hprops). intros. apply on_ns_delete.
Qed.

(** A key's number. *)
Lemma key_ok wt wx wa wv m s ns key : rel hash U wt wx wa wv m s -> key ∈ U ns ->
  exists m' i, EnsureKeyID ns m key = Ret (m', i) /\ key_index (ensure (a_keys s) ns key ns) key = Some i /\
    rel hash U wt wx wa wv m' (set_keys s (ensure (a_keys s) ns key)).
Proof using HU.
  intros [[num Hc] Hr Hact Hp] Hk. unfold EnsureKeyID.
  destruct (resolveOrCreateKey_ok U HU _ _ _ ns key Hr Hk) as (i & reg & -> & Hi & Hr' & [Hmax Hal] & Hv). cbn [obind fst snd].
  eexists _, _. split; [done|]. split; [apply (key_index_lookup _ _ _ (so_nodup _ _ _ _ (ro_store _ _ _ _ Hr' ns)) Hi)|].
  assert (forall a, AliasLookup hash (Aliases reg) a = Ret (aliasMap m !! a)) as Hlook.
  { rewrite Hal. unfold active_ok, activeOrEmpty in *. destruct (a_live s).
    - destruct Hact as (live & -> & Hl). done.
    - destruct Hact as [-> ->]. intros a. done. }
  eapply (rel_publish hash U num _ _ _ _ _ m _ reg (Aliases reg)); try done.
  - rewrite Hmax. by apply (core_spec _ _ _ _ _ _ _ s).
  - by destruct reg.
  - by rewrite Hv.
Qed.

Lemma default_record num pend cap wt wx wa m s n c ns : core num pend cap wt wx wa m s -> num !! n = Some c ->
  record_props (default empty_record (tenantData m !! c)) ns = a_props s n ns.
Proof using.
  intros H Hn. pose proof (co_data _ _ _ _ _ _ _ _ H n c Hn) as Hd. destruct (tenantData m !! c); cbn; destruct Hd as [_ Hd]; rewrite Hd; [done|by destruct ns].
Qed.

(** Adding an alias. *)
Lemma alias_ok wt wx wa wv m s existing new : rel hash U (wt + 1) wx (wa + 2) wv m s -> 0 <= wt -> 0 <= wx -> 0 <= wa ->
  zlen existing < 65536 -> zlen new < 65536 ->
  let '(n, s1) := tenant_of s existing in
  exists m', AddAlias hash iter m existing new = Ret m' /\ rel hash U wt wx wa wv m' (set_alias s1 (<[new:=n]> (a_alias s1))).
Proof using Hiter HU.
  intros [[num Hc] Hr Hact Hp] Ht Hx Ha He Hnew. replace (wa + 2) with (wa + 1 + 1) in Hc by lia.
  destruct (resolve_ok U HU num wt wx (wa + 1) m _ s existing Hc Hr Ht Hx He) as (c & m1 & reg1 & num1 & E1 & Hn & Hc1 & Hr1 & Hal1 & Hv1 & Hact1).
  assert (a_keys (tenant_of s existing).2 = a_keys s) as Ek by (unfold tenant_of; by destruct (a_alias s !! existing)).
  destruct (tenant_of s existing) as [n s1] eqn:Et. cbn [fst snd] in *. unfold AddAlias. rewrite E1. cbn [obind].
  pose proof (core_alias _ _ _ _ _ _ _ _ n c new Hc1 Hn Hnew) as Hc2. set (m2 := set_aliasMap m1 _) in *.
  destruct (rebuild_ok hash iter Hiter _ _ _ _ _ _ _ _ Hc2 Ht Hx Ha) as (t & -> & Htab). cbn [obind fst snd]. unfold range_aliases. cbn [fst snd].
  set (rec := with_rec_aliases _ _). assert (rec_Aliases rec <> []) as Hne.
  { apply (aliases_of_nonempty iter Hiter _ _ new). cbn. by rewrite lookup_insert_eq. }
  destruct (go_index_head _ Hne) as [prim ->]. cbn [obind]. eexists. split; [done|].
  assert (forall ns, record_props rec ns = a_props s1 n ns) as Hprops.
  { intros ns. rewrite <- (default_record _ _ _ _ _ _ _ _ n c ns Hc1 Hn). by destruct ns. }
  pose proof (core_record _ _ _ _ _ _ _ _ n c rec (a_props s1 n) Hc2 (or_intror eq_refl) Hn Hne Hprops) as Hc3.
  eapply (rel_publish hash U num1 _ _ _ _ _ _ _ reg1 t); [apply (core_spec _ _ _ _ _ _ _ _ (set_alias s1 (<[new:=n]> (a_alias s1)))) in Hc3; [exact Hc3|done..|]| | |by rewrite Active_persist| |done|].
  - intros n' ns. cbn. by case_bool_decide; subst.
  - cbn [set_alias a_keys set_tenantData tenantData m2 set_aliasMap]. rewrite Ek. eapply reg_ok_ext; [|exact Hr1]. intros c' ns k.
    rewrite mirror_insert. case_bool_decide as Ec; [subst c'|done]. by rewrite Hprops, (mirror_core _ _ _ _ _ _ _ _ n c ns k Hc1 Hn).
  - by apply same_persist.
  - done.
  - by rewrite Hv1.
Qed.

(** Several aliases for one tenant. *)
Lemma core_aliases num pend cap wt wx wa s n c others : num !! n = Some c -> Forall (fun a => zlen a < 65536) others ->
  forall m am, core num pend cap wt wx (wa + zlen others) m (set_alias s am) ->
  core num pend cap wt wx wa (set_aliasMap m (foldl (fun am a => <[a:=c]> am) (aliasMap m) others)) (set_alias s (foldl (fun am a => <[a:=n]> am) am others)).
Proof using.
  intros Hn. induction others as [|a others IH]; intros Hs m am Hc; cbn [foldl length] in *.
  { replace (wa + Z.of_nat 0) with wa in Hc by lia. by apply (core_same _ _ _ _ _ _ m). }
  apply Forall_cons in Hs as [Ha Hs]. replace (wa + Z.of_nat (S (length others))) with (wa + zlen others + 1) in Hc by lia.
  pose proof (core_alias _ _ _ _ _ _ _ _ n c a Hc Hn Ha) as Hc'. apply (IH Hs (set_aliasMap m (<[a:=c]> (aliasMap m))) (<[a:=n]> am)) in Hc'.
  by apply (core_same _ _ _ _ _ _ _ _ _ (same_core_refl _)) in Hc'.
Qed.

Lemma aliases_keep (am : gmap byte_string Z) c a others : am !! a = Some c -> foldl (fun am x => <[x:=c]> am) am others !! a = Some c.
Proof using.
  revert am. induction others as [|x others IH]; intros am E; cbn [foldl]; [done|]. apply IH.
  destruct (decide (x = a)) as [->|]; [by rewrite lookup_insert_eq|by rewrite lookup_insert_ne].
Qed.

Lemma upsert_ok wt wx wa wv m s alias others urls idents meta :
  rel hash U (wt + 1) wx (wa + zlen (alias :: others)) (wv + zlen urls + zlen idents + zlen meta) m s -> 0 <= wt -> 0 <= wx -> 0 <= wa -> 0 <= wv ->
  Forall (fun a => zlen a < 65536) (alias :: others) -> (forall ns, Forall (fun kv => kv.1 ∈ U ns) (batch ns urls idents meta)) ->
  let '(n, s1) := tenant_of s alias in
  let s2 := set_alias s1 (foldl (fun am a => <[a:=n]> am) (a_alias s1) others) in
  let s3 := set_keys s2 (ensure_all (ensure_all (ensure_all (a_keys s2) NsURL urls) NsID idents) NsMeta meta) in
  exists m', UpsertTenantState hash iter m (alias :: others) urls idents meta = Ret m' /\
    rel hash U wt wx wa wv m' (set_props s3 n (fun ns => merge_props (batch ns urls idents meta) (a_props s3 n ns))).
Proof using Hiter HU.
  intros [[num Hc] Hr Hact Hp] Ht Hx Ha Hv Hal Hk. apply Forall_cons in Hal as [Hal Hothers]. cbn [length] in Hc.
  replace (wa + Z.of_nat (S (length others))) with (wa + zlen others + 1) in Hc by lia.
  destruct (resolve_ok U HU num wt wx (wa + zlen others) m _ s alias Hc Hr Ht Hx Hal) as (c & m1 & reg1 & num1 & E1 & Hn & Hc1 & Hr1 & Hal1 & Hv1 & Hact1).
  assert (a_keys (tenant_of s alias).2 = a_keys s) as Ek by (unfold tenant_of; by destruct (a_alias s !! alias)).
  destruct (tenant_of s alias) as [n s1] eqn:Et. cbn [fst snd] in *. cbv zeta. unfold UpsertTenantState. rewrite E1. cbn [obind].
  assert (core num1 (Some n) (MaxTenants reg1) wt wx (wa + zlen others) m1 (set_alias s1 (a_alias s1))) as Hc1' by (by apply (core_spec _ _ _ _ _ _ _ s1)).
  pose proof (core_aliases _ _ _ _ _ wa s1 n c others Hn Hothers m1 (a_alias s1) Hc1') as Hc2. set (m2 := set_aliasMap m1 _) in *.
  destruct (co_given _ _ _ _ _ _ _ _ Hc1 n c Hn) as [Hg Hcap]. apply (given_bounds _ _ _ _ _ _ _ _ _ Hc1 Ht Hx) in Hg.
  destruct (write_props_ok U HU NsURL c urls _ reg1 _ Hr1 (Hk NsURL) ltac:(lia)) as (r1 & -> & H1 & [M1 _] & P1); [rewrite Hv1; lia|]. cbn [obind].
  destruct (write_props_ok U HU NsID c idents _ r1 _ H1 (Hk NsID) ltac:(lia)) as (r2 & -> & H2 & [M2 _] & P2); [rewrite Hv1 in P1; lia|]. cbn [obind].
  destruct (write_props_ok U HU NsMeta c meta _ r2 _ H2 (Hk NsMeta) ltac:(lia)) as (r3 & -> & H3 & [M3 _] & P3); [rewrite Hv1 in P1; lia|]. cbn [obind].
  destruct (rebuild_ok hash iter Hiter _ _ _ _ _ _ _ _ Hc2 Ht Hx Ha) as (t & -> & Htab). cbn [obind fst snd]. unfold range_aliases. cbn [fst snd].
  set (rec := with_props (with_props (with_props _ _ _) _ _) _ _). eexists. split; [done|]. pose (p := fun ns => merge_props (batch ns urls idents meta) (a_props s1 n ns)).
  assert (rec_Aliases rec <> []) as Hne by (apply (aliases_of_nonempty iter Hiter _ _ alias); by apply aliases_keep).
  assert (forall ns, record_props rec ns = p ns) as Hprops.
  { intros ns. unfold p. cbn [set_keys set_alias a_props]. rewrite <- (default_record _ _ _ _ _ _ _ _ n c ns Hc1 Hn). by destruct ns. }
  pose proof (core_record _ _ _ _ _ _ _ _ n c rec p Hc2 (or_intror eq_refl) Hn Hne Hprops) as Hc3.
  assert (MaxTenants r3 = MaxTenants reg1) as Hmax by congruence.
  match goal with |- rel _ _ _ _ _ _ _ ?S => assert (core num1 None (MaxTenants r3) wt wx wa (set_tenantData m2 (<[c:=rec]> (tenantData m2))) S) as Hc4 end.
  { rewrite Hmax. by apply (core_spec _ _ _ _ _ _ _ (set_props (set_alias s1 (foldl (fun am a => <[a:=n]> am) (a_alias s1) others)) n p)). }
  eapply (rel_publish hash U num1 _ _ _ _ _ _ _ r3 t); [exact Hc4| |by apply same_persistBatch|by rewrite Active_persistBatch|done|done|rewrite Hv1 in P1; lia].
  cbn [set_props set_keys set_alias a_keys set_tenantData tenantData m2 set_aliasMap]. rewrite Ek. eapply reg_ok_ext; [|exact H3].
  intros c' ns k. fold (upd_batch (mirror (tenantData m1)) c urls idents meta).
  rewrite (upd_batch_ok _ _ _ _ _ (a_props s1 n)) by (intros; by apply (mirror_core _ _ _ _ _ _ _ _ n c _ _ Hc1 Hn)).
  rewrite mirror_insert, Hprops. done.
Qed.

(** Removing a tenant. *)
Lemma drop_ok wt wx wa wv m s alias : rel hash U wt wx wa wv m s -> 0 <= wt -> 0 <= wx -> 0 <= wa ->
  exists m', DeleteTenant hash iter m alias = Ret m' /\
    rel hash U wt wx wa wv m' (match a_alias s !! alias with
                               | None => s
                               | Some n => set_alias s (filter (fun e => e.2 <> n) (a_alias s))
                               end).
Proof using Hiter HU.
  intros H Ht Hx Ha. unfold DeleteTenant. destruct (a_alias s !! alias) as [n|] eqn:En.
  2:{ destruct (re_num _ _ _ _ _ _ _ _ H) as [num Hc]. rewrite (co_alias _ _ _ _ _ _ _ _ Hc), En. cbn. eauto. }
  destruct (known_live _ _ _ _ _ _ _ _ H En) as (Hl & num & c & live & Hc & Hn & Ea & Er & Hlook). rewrite Ea.
  destruct (co_given _ _ _ _ _ _ _ _ Hc n c Hn) as [Hg Hcap]. apply (given_bounds _ _ _ _ _ _ _ _ _ Hc Ht Hx) in Hg.
  pose proof (core_drop _ _ _ _ _ _ _ n c Hc Hn) as Hc1. set (m1 := set_slots _ _ _). set (m2 := set_tenantData _ _) in Hc1.
  destruct (rebuild_like hash iter Hiter _ _ _ _ _ _ m2 m1 _ Hc1 eq_refl Ht Hx Ha) as (t & -> & Htab). cbn [obind fst snd set_tenantData set_Active tenantIDs].
  destruct (removeSorted_ret (tenantIDs (tick_range m1)) c) as [l ->]. cbn [obind]. eexists. split; [done|].
  pose proof (zero_rows_ok U HU _ _ _ c (re_reg _ _ _ _ _ _ _ _ H) ltac:(lia)) as Hr.
  eapply (rel_publish hash U (delete n num) _ _ _ _ _ m2 _ (zero_rows (activeOrEmpty m) c) t);
    [exact Hc1| |by apply same_persist|by rewrite Active_persist|done|done|apply H].
  eapply reg_ok_ext; [|exact Hr]. intros c' ns k. unfold drop_row, mirror. cbn [m2 set_tenantData tenantData].
  destruct (Z.eqb_spec c' c) as [->|]; [by rewrite lookup_delete_eq|by rewrite lookup_delete_ne by congruence].
Qed.

(** Registering a test tenant. *)
Lemma test_ok wt wx wa wv m s now runID : rel hash U wt (wx + 1) (wa + 1) wv m s -> 0 <= wt -> 0 <= wx -> 0 <= wa -> zlen (test_alias runID) < 65536 ->
  exists m' c, RegisterTestTenant hash iter m now runID = Ret (m', (test_alias runID, c)) /\
    rel hash U wt wx wa wv m' (mkAR (<[test_alias runID:=a_next s]> (a_alias s)) (S (a_next s)) (a_props s) (a_keys s) true).
Proof using Hiter HU.
  intros [[num Hc] Hr Hact Hp] Ht Hx Ha Hal. unfold RegisterTestTenant. fold (test_next m). set (c := test_next m).
  pose proof (co_tests _ _ _ _ _ _ _ _ Hc) as [Hz Htst]. pose proof (co_ids _ _ _ _ _ _ _ _ Hc) as Hids. fold c in Htst.
  assert (TestTenantRangeStart <= c) as Hlo by (unfold c, test_next; destruct (Z.eqb_spec (nextTestTenantID m) 0); lia).
  unfold TestTenantRangeStart, TestTenantRangeEnd in *. destruct (Z.leb_spec 65535 c); [lia|].
  set (m1 := set_nextTest m (c + 1)). assert (test_next m1 = c + 1) as En1 by (unfold test_next; cbn; destruct (Z.eqb_spec (c + 1) 0); lia).
  assert (forall c', given m c' -> c' <> c) as Hng by (intros c' [?|[_ Hlt]] ->; [lia|unfold c in Hlt; lia]).
  assert (takes num m m1 c) as Htk.
  { constructor; try done.
    - intros c' [?|[? Hlt]]; [by left|right]. rewrite En1. split; [done|]. unfold c. lia.
    - right. rewrite En1. unfold TestTenantRangeStart. lia.
    - intros n E. destruct (co_given _ _ _ _ _ _ _ _ Hc n c E) as [Hg _]. by apply (Hng c).
    - destruct (co_free _ _ _ _ _ _ _ _ Hc) as [Hnd Hf]. split; [|done]. intros Hin. destruct (Hf c Hin) as [Hg _]. by apply (Hng c). }
  destruct (grow_tenant_ok U HU _ _ _ c Hr ltac:(lia)) as (Hr' & Hcap & Hm & Hv).
  pose proof (core_add num _ _ wt wx wa wt (wx + 1) m m1 s (test_alias runID) c true Hc Htk Hids ltac:(unfold TestTenantRangeStart; rewrite En1; cbn; lia) Hm Hcap Hal) as Hc1.
  assert ((<[a_next s:=c]> num) !! a_next s = Some c) as Hn by (by rewrite lookup_insert_eq).
  set (m2 := set_aliasMap m1 _) in *. cbn [set_aliasMap tenantIDs]. destruct (insertSorted_ret (tenantIDs m2) c) as [l ->]. cbn [obind].
  set (rec := mkRecord _ _ _ _ _ _ _ _). assert (forall ns, record_props rec ns = a_props s (a_next s) ns) as Hprops.
  { intros ns. rewrite (co_new _ _ _ _ _ _ _ _ Hc) by lia. by destruct ns. }
  pose proof (core_record _ _ _ _ _ _ _ _ (a_next s) c rec _ Hc1 (or_intror eq_refl) Hn ltac:(done) Hprops) as Hc2.
  set (m3 := set_tenantData (set_tenantIDs m2 l) _). set (m4 := set_tenantData m2 _) in Hc2.
  destruct (rebuild_like hash iter Hiter _ _ _ _ _ _ m4 m3 _ Hc2 eq_refl Ht Hx Ha) as (t & -> & Htab). cbn [obind fst snd]. eexists _, _. split; [done|].
  eapply (rel_publish hash U _ _ _ _ _ _ m4 _ (grow_tenant (activeOrEmpty m) c) t); [apply (core_spec _ _ _ _ _ _ _ _ (mkAR (<[test_alias runID:=a_next s]> (a_alias s)) (S (a_next s)) (a_props s) (a_keys s) true)) in Hc2;
      [exact Hc2|done..|]| |done|done|done|done|by rewrite Hv].
  - intros n ns. cbn. by case_bool_decide; subst.
  - eapply reg_ok_ext; [|exact Hr']. intros c' ns k. cbn [m4 set_tenantData tenantData m2 set_aliasMap m1 set_nextTest]. rewrite mirror_insert.
    case_bool_decide as Ec; [subst c'|done]. rewrite Hprops, (co_new _ _ _ _ _ _ _ _ Hc), lookup_empty by lia. unfold mirror.
    rewrite (co_nodata _ _ _ _ _ _ _ _ Hc c (tk_fresh _ _ _ _ Htk)). done.
Qed.

(** ** Requests *)

Lemma request_ok wt wx wa wv m s alias key load val : rel hash U wt wx wa wv m s ->
  (forall reg n num c, activeOrEmpty m = reg -> Active m = Some reg -> core num None (MaxTenants reg) wt wx wa m s -> num !! n = Some c ->
     exists pc, load (Some reg) (mkRegCtx [alias; key; []] 0 c alias) 1 = Ret (mkRegCtx [alias; key; default [] (val n)] 0 c alias, pc)) ->
  run_request hash (Active m) alias key load = Ret (request s alias val).
Proof using.
  intros H Hload. unfold run_request, RegistryLookup, request, slot_value. cbn [length rc_ByteSlots].
  change (Z.of_nat 3 <=? 0) with false. cbn iota. change (go_index [alias; key; []] 0) with (Ret alias). cbn [obind].
  destruct alias as [|b r]; [done|]. destruct (re_num _ _ _ _ _ _ _ _ H) as [num Hc]. pose proof (re_active _ _ _ _ _ _ _ _ H) as Hact.
  destruct (a_live s) eqn:El; cbn [negb]; [|destruct Hact as [-> _]; done].
  destruct Hact as (reg & Er & Hlook). assert (activeOrEmpty m = reg) as Eo by (unfold activeOrEmpty; by rewrite Er).
  rewrite Er, Hlook. cbn [obind]. rewrite (co_alias _ _ _ _ _ _ _ _ Hc). destruct (a_alias s !! (b :: r)) as [n|] eqn:En; [|done].
  cbn [mbind option_bind]. destruct (co_known _ _ _ _ _ _ _ _ Hc _ n En) as [c Ec]. rewrite Ec. change (0 <=? -1) with false. cbn [fst snd set_tenant rc_ByteSlots rc_ResponseStatus].
  change (i16 (0 + 1) =? StopPlan) with false. cbn iota. change (i16 (0 + 1)) with 1. rewrite Eo in Hc.
  unfold set_tenant. cbn [rc_ByteSlots rc_ResponseStatus]. destruct (Hload reg n num c Eo Er Hc Ec) as (pc & ->). done.
Qed.

Lemma stored_value keys reg num wt wx wa m s n c ns i key : keys = a_keys s -> reg_ok U keys reg (mirror (tenantData m)) ->
  core num None (MaxTenants reg) wt wx wa m s -> 0 <= wt -> 0 <= wx -> num !! n = Some c -> keys ns !! i = Some key ->
  getPropByKeyID (store_of reg ns) (ValuePool reg) c (Z.of_nat i) = visible (a_props s n ns !! key).
Proof using HU.
  intros -> Hr Hc Ht Hx Hn Hk. destruct (co_given _ _ _ _ _ _ _ _ Hc n c Hn) as [Hg Hcap]. apply (given_bounds _ _ _ _ _ _ _ _ _ Hc Ht Hx) in Hg.
  rewrite (getProp_ok U HU _ _ _ ns c i key Hr ltac:(lia) Hk). by rewrite (mirror_core _ _ _ _ _ _ _ _ n c ns key Hc Hn).
Qed.

Lemma load_ok wt wx wa wv m s ns alias keyID key : rel hash U wt wx wa wv m s -> 0 <= wt -> 0 <= wx -> 0 <= keyID -> a_keys s ns !! Z.to_nat keyID = Some key ->
  run_request hash (Active m) alias [] (LoadProp ns keyID 2) = Ret (request s alias (fun n => visible (a_props s n ns !! key))).
Proof using HU.
  intros H Ht Hx Hid Hk. eapply request_ok; [exact H|]. intros reg n num c Eo Er Hc Hn. pose proof (re_reg _ _ _ _ _ _ _ _ H) as Hr. rewrite Eo in Hr.
  unfold LoadProp, GetByKeyID. cbn [rc_TenantID]. rewrite (so_stride _ _ _ _ (ro_store _ _ _ _ Hr ns)). apply lookup_lt_Some in Hk as Hlt.
  destruct (Z.eqb_spec (zlen (a_keys s ns)) 0); [lia|]. replace keyID with (Z.of_nat (Z.to_nat keyID)) by lia.
  rewrite (stored_value _ _ _ _ _ _ _ _ n c ns (Z.to_nat keyID) key eq_refl Hr Hc Ht Hx Hn Hk).
  destruct (visible _) as [v|]; cbn; eauto.
Qed.

Lemma load_var_ok wt wx wa wv m s alias key : rel hash U wt wx wa wv m s -> 0 <= wt -> 0 <= wx -> key ∈ U NsURL ->
  run_request hash (Active m) alias key (LoadServiceURLVar 1 2) = Ret (request s alias (fun n => visible (a_props s n NsURL !! key))).
Proof using HU.
  intros H Ht Hx Hk. eapply request_ok; [exact H|]. intros reg n num c Eo Er Hc Hn. pose proof (re_reg _ _ _ _ _ _ _ _ H) as Hr. rewrite Eo in Hr.
  unfold LoadServiceURLVar, slot_value. cbn [rc_ByteSlots length rc_TenantID]. change (Z.of_nat 3 <=? 1) with false. cbn iota.
  change (go_index [alias; key; []] 1) with (Ret key). cbn [obind]. destruct (no_key (U NsURL) (HU NsURL) key Hk) as (b & r & Ek & _).
  assert (GetURLByKeyName (Some reg) c key = Ret (visible (a_props s n NsURL !! key))) as Eget.
  { unfold GetURLByKeyName. pose proof (ro_store _ _ _ _ Hr NsURL) as Hs. change (URLs reg) with (store_of reg NsURL).
    rewrite (findKeyID_ok (U NsURL) (HU NsURL) _ (so_nodup _ _ _ _ Hs) (so_names _ _ _ _ Hs) _ _ key Hs Hk). cbn [obind]. f_equal.
    destruct (key_index _ key) as [i|] eqn:Ei; cbn.
    - apply key_index_Some in Ei as [Hi Ei]. replace i with (Z.of_nat (Z.to_nat i)) by lia. exact (stored_value _ _ _ _ _ _ _ _ n c NsURL _ key eq_refl Hr Hc Ht Hx Hn Ei).
    - apply key_index_None in Ei. rewrite <- (mirror_core _ _ _ _ _ _ _ _ n c NsURL key Hc Hn). by rewrite (ro_keys _ _ _ _ Hr). }
  rewrite Ek in *. rewrite Eget. cbn [obind]. destruct (visible _) as [v|]; cbn; eauto.
Qed.
End ops.
