(* ===== verification/RegistryManagerSpec.v ===== *)
(** * The tenant registry: the theorem and the limits of it *)

From S2P Require Import Prelude Registry RegistryManager RegistrySteps RegistryAliases RegistryStore RegistryRefine RegistrySpec RegistryCore RegistryOps.

Local Open Scope Z_scope.
Local Open Scope rah_scope.

(** ** What a sequence may contain *)

Definition short (a : byte_string) : Prop := zlen a < 65536.

Definition rop_ok (U : namespace -> list byte_string) (o : rop) : Prop :=
  match o with
  | OSet ns alias key _ => short alias /\ key ∈ U ns
  | OUnset ns _ key | OKey ns key => key ∈ U ns
  | OAlias existing new => short existing /\ short new
  | OUpsert aliases urls idents meta => Forall short aliases /\ forall ns, Forall (fun kv => kv.1 ∈ U ns) (batch ns urls idents meta)
  | OTest _ runID => short (test_alias runID)
  | OLoadVar _ key => key ∈ U NsURL
  | ODrop _ | OLoad _ _ _ | ORecord _ => True
  end.

(** What an operation can add at most. *)
Definition adds_tenants (o : rop) : Z := match o with OSet _ _ _ _ | OAlias _ _ | OUpsert _ _ _ _ => 1 | _ => 0 end.
Definition adds_tests (o : rop) : Z := match o with OTest _ _ => 1 | _ => 0 end.
Definition adds_aliases (o : rop) : Z :=
  match o with OSet _ _ _ _ | OTest _ _ => 1 | OAlias _ _ => 2 | OUpsert aliases _ _ _ => zlen aliases | _ => 0 end.
Definition adds_values (o : rop) : Z :=
  match o with OSet _ _ _ _ => 1 | OUpsert _ urls idents meta => zlen urls + zlen idents + zlen meta | _ => 0 end.

Definition sum_of (f : rop -> Z) (os : list rop) : Z := foldr (fun o z => f o + z) 0 os.

Lemma sum_of_nonneg f os : (forall o, 0 <= f o) -> 0 <= sum_of f os.
Proof. intros Hf. induction os as [|o os IH]; [done|]. change (0 <= f o + sum_of f os). pose proof (Hf o). lia. Qed.

Section theorem.
Context (hash : byte_string -> Z) (iter : nat -> gmap byte_string Z -> list (byte_string * Z)).
Context (Hiter : forall n am, iter n am ≡ₚ map_to_list am).
Context (U : namespace -> list byte_string) (HU : forall ns, names_ok (U ns)).

Lemma rel_weaken wt wx wa wv wt' wx' wa' wv' m s : rel hash U wt wx wa wv m s -> wt' <= wt -> wx' <= wx -> wa' <= wa -> wv' <= wv ->
  rel hash U wt' wx' wa' wv' m s.
Proof using.
  intros [[num Hc] Hr Ha Hp] ? ? ? ?. constructor; try done; [|lia]. exists num. by eapply core_weaken; [exact Hc|lia..].
Qed.

Lemma rel_init wt wx wa wv : 0 <= wt < 61440 -> 0 <= wx <= 3968 -> 0 <= wa < 65536 -> 0 <= wv < 2 ^ 32 - 1 ->
  rel hash U wt wx wa wv NewRegistryManager empty_registry.
Proof using.
  intros Ht Hx Ha Hv. constructor.
  - exists ∅. constructor; cbn; try done.
    + split; [constructor|]. intros c Hc. by apply elem_of_nil in Hc.
    + intros a [c E]. done.
    + unfold TestTenantRangeStart. lia.
    + unfold test_next, TestTenantRangeStart. cbn. lia.
    + change (0 + wa < 65536). lia.
  - constructor; cbn; try done; [|by left]. intros []; constructor; cbn; try done; by (constructor || apply list_subseteq_nil).
  - done.
  - cbn [zlen length ValuePool activeOrEmpty NewRegistryManager Active]. change (Z.of_nat 0) with 0. lia.
Qed.

Lemma r_step_ok wt wx wa wv o m s s' r : rel hash U (adds_tenants o + wt) (adds_tests o + wx) (adds_aliases o + wa) (adds_values o + wv) m s ->
  0 <= wt -> 0 <= wx -> 0 <= wa -> 0 <= wv -> rop_ok U o -> a_step o s = Some (s', r) ->
  exists m', r_step hash iter o m = Ret (m', r) /\ rel hash U wt wx wa wv m' s'.
Proof using Hiter HU.
  intros H Ht Hx Ha Hv Hok Es.
  destruct o as [ns alias key value|ns alias key|ns key|existing new|aliases urls idents meta|alias|now runID|ns alias keyID|alias key|alias];
    cbn [adds_tenants adds_tests adds_aliases adds_values rop_ok a_step r_step] in *; rewrite ?Z.add_0_l in H.
  - destruct Hok as [Hal Hk]. rewrite !(Z.add_comm 1) in H. pose proof (set_ok hash iter Hiter U HU wt wx wa wv m s ns alias key value H Ht Hx Ha Hv Hal Hk) as Hs.
    destruct (tenant_of s alias) as [n s1]. injection Es as <- <-. destruct Hs as (m' & -> & Hs). by exists m'.
  - injection Es as <- <-. destruct (unset_ok hash iter Hiter U HU wt wx wa wv m s ns alias key H Ht Hx Hok) as (m' & -> & Hs). by exists m'.
  - destruct (key_ok hash U HU wt wx wa wv m s ns key H Hok) as (m' & i & E & Ei & Hs). cbn [set_keys a_keys] in Es. rewrite Ei in Es. injection Es as <- <-.
    rewrite E. by exists m'.
  - destruct Hok as [He Hn]. rewrite (Z.add_comm 1), (Z.add_comm 2) in H. pose proof (alias_ok hash iter Hiter U HU wt wx wa wv m s existing new H Ht Hx Ha He Hn) as Hs.
    destruct (tenant_of s existing) as [n s1]. injection Es as <- <-. destruct Hs as (m' & -> & Hs). by exists m'.
  - destruct Hok as [Hal Hk]. destruct aliases as [|alias others].
    { injection Es as <- <-. exists m. split; [done|]. eapply rel_weaken; [exact H|cbn; lia..]. }
    assert (rel hash U (wt + 1) wx (wa + zlen (alias :: others)) (wv + zlen urls + zlen idents + zlen meta) m s) as H' by (eapply rel_weaken; [exact H|lia..]).
    pose proof (upsert_ok hash iter Hiter U HU wt wx wa wv m s alias others urls idents meta H' Ht Hx Ha Hv Hal Hk) as Hs.
    destruct (tenant_of s alias) as [n s1]. injection Es as <- <-. destruct Hs as (m' & -> & Hs). by exists m'.
  - injection Es as <- <-. destruct (drop_ok hash iter Hiter U HU wt wx wa wv m s alias H Ht Hx Ha) as (m' & -> & Hs). by exists m'.
  - rewrite !(Z.add_comm 1) in H. injection Es as <- <-. destruct (test_ok hash iter Hiter U HU wt wx wa wv m s now runID H Ht Hx Ha Hok) as (m' & c & -> & Hs). by exists m'.
  - destruct (a_keys s ns !! Z.to_nat keyID) as [key|] eqn:Ek; [|done]. cbn [mbind option_bind] in Es. destruct (Z.ltb_spec keyID 0); [done|].
    injection Es as <- <-. rewrite (load_ok hash U HU wt wx wa wv m s ns alias keyID key H Ht Hx ltac:(lia) Ek). by exists m.
  - injection Es as <- <-. rewrite (load_var_ok hash U HU wt wx wa wv m s alias key H Ht Hx Hok). by exists m.
  - injection Es as <- <-. exists m. split; [|done]. do 3 f_equal. destruct (re_num _ _ _ _ _ _ _ _ H) as [num Hc].
    rewrite (co_alias _ _ _ _ _ _ _ _ Hc). destruct (a_alias s !! alias) as [n|] eqn:En; [|done]. cbn [mbind option_bind fmap option_fmap option_map].
    destruct (co_known _ _ _ _ _ _ _ _ Hc alias n En) as [c Ec]. rewrite Ec. cbn [mbind option_bind]. pose proof (co_data _ _ _ _ _ _ _ _ Hc n c Ec) as Hd.
    destruct (tenantData m !! c) as [rec|]; [|by destruct Hd]. destruct Hd as [_ Hd]. by rewrite <- (Hd NsURL), <- (Hd NsID), <- (Hd NsMeta).
Qed.

Lemma r_run_ok os : forall rs m s, rel hash U (sum_of adds_tenants os) (sum_of adds_tests os) (sum_of adds_aliases os) (sum_of adds_values os) m s ->
  Forall (rop_ok U) os -> a_run os s = Some rs -> answers (r_step hash iter) os m = Ret rs.
Proof using Hiter HU.
  induction os as [|o os IH]; intros rs m s H Hok Er; cbn [a_run answers] in *; [by injection Er as <-|].
  apply Forall_cons in Hok as [Ho Hos]. destruct (a_step o s) as [[s' r]|] eqn:Es; [|done]. cbn [mbind option_bind fst snd] in Er.
  destruct (a_run os s') as [rs'|] eqn:Er'; [|done]. injection Er as <-.
  destruct (r_step_ok _ _ _ _ o m s s' r H) as (m' & -> & H'); [try (apply sum_of_nonneg; intros []; cbn; lia)..|done|done|].
  cbn [obind fst snd]. by rewrite (IH rs' m' s' H' Hos Er').
Qed.
End theorem.


(** ** A concrete registry *)

Lemma names_ok_intro U : Forall (fun k => match k with b :: _ => is_byte b /\ zlen k < 65536 | [] => False end) U -> NoDup (head <$> U) -> names_ok U.
Proof.
  intros Hf Hnd. rewrite Forall_forall in Hf. constructor.
  - intros k Hk. specialize (Hf k Hk). destruct k as [|b r]; [done|]. destruct Hf. by exists b, r.
  - intros k k' [i Hi]%list_elem_of_lookup [j Hj]%list_elem_of_lookup E.
    assert (i = j) as -> by (apply (NoDup_lookup (head <$> U) i j (head k)); [done| |]; rewrite list_lookup_fmap; [by rewrite Hi|by rewrite Hj, E]).
    congruence.
Qed.

Definition sample_keys (ns : namespace) : list byte_string :=
  match ns with
  | NsURL => [bytes_of "primary"; bytes_of "health"]
  | NsID => [bytes_of "api_key"]
  | NsMeta => [bytes_of "tier"; bytes_of "region"]
  end.

Lemma sample_keys_ok ns : names_ok (sample_keys ns).
Proof.
  apply names_ok_intro; destruct ns; cbn; [..|]; try (apply (bool_decide_unpack _); by vm_compute);
    repeat constructor; unfold is_byte; lia.
Qed.

#[local] Instance forall_ns_dec (P : namespace -> Prop) `{!forall ns, Decision (P ns)} : Decision (forall ns, P ns).
Proof.
  destruct (decide (P NsURL)); [|right; auto]. destruct (decide (P NsID)); [|right; auto]. destruct (decide (P NsMeta)); [|right; auto].
  left. by intros [].
Defined.

#[local] Instance rop_ok_dec U o : Decision (rop_ok U o).
Proof. destruct o; cbn [rop_ok]; unfold short; apply _. Defined.

Definition sample_hash (a : byte_string) : Z := foldr Z.add 0 a.
Definition sample_iter (_ : nat) (am : gmap byte_string Z) : list (byte_string * Z) := map_to_list am.

Abbreviation acme := (bytes_of "acme").
Abbreviation globex := (bytes_of "globex").
Abbreviation initech := (bytes_of "initech").

(** [acme] is deleted and its number goes to [initech], which sees nothing of
    [acme]'s. *)
Definition sample_ops : list rop :=
  [OKey NsURL (bytes_of "primary"); OSet NsURL acme (bytes_of "primary") (bytes_of "http://a"); OAlias acme (bytes_of "acme.com");
   OLoad NsURL (bytes_of "acme.com") 0; OUpsert [globex] [(bytes_of "primary", bytes_of "http://g")] [] [(bytes_of "tier", bytes_of "gold")];
   OTest 100 (bytes_of "run1"); ODrop acme; OLoad NsURL acme 0; OSet NsMeta initech (bytes_of "tier") (bytes_of "free"); OLoad NsURL initech 0;
   OLoadVar globex (bytes_of "primary"); OUnset NsURL globex (bytes_of "primary"); OLoadVar globex (bytes_of "primary")].

Definition sample_answers : list rres :=
  [RKey 0; RDone; RDone; RRequest 0 (bytes_of "http://a"); RDone; RTest (bytes_of "__test__run1"); RDone; RRequest 401 []; RDone; RRequest 0 [];
   RRequest 0 (bytes_of "http://g"); RDone; RRequest 0 []].


(** ** Outside the promise *)

Abbreviation run := (answers (r_step sample_hash sample_iter)).

(** Two keys with the same first letter: the second is never found, so a
    value set under it goes to a new column each time and neither the name nor
    the key number a flow was compiled with reads it. *)
Lemma same_letter_key_lost :
  run [OKey NsURL (bytes_of "primary"); OKey NsURL (bytes_of "payments"); OSet NsURL acme (bytes_of "payments") (bytes_of "http://p");
       OLoad NsURL acme 1; OLoadVar acme (bytes_of "payments"); OKey NsURL (bytes_of "payments")] NewRegistryManager =
  Ret [RKey 0; RKey 1; RDone; RRequest 0 []; RRequest 0 []; RKey 3].
Proof. vm_compute. reflexivity. Qed.

(** A key of length 0 makes every later search panic. *)
Lemma empty_key_panics :
  run [OSet NsURL acme [] (bytes_of "x"); OSet NsURL acme (bytes_of "primary") (bytes_of "http://a")] NewRegistryManager = Panic.
Proof. vm_compute. reflexivity. Qed.

(** A tenant number of 65408 makes the capacity wrap round to 0: growing the
    matrices drops every property of every tenant. *)
Lemma capacity_wraps reg ns : MaxTenants reg <= 65408 -> 0 < Stride (store_of reg ns) ->
  MaxTenants (grow_tenant reg 65408) = 0 /\ Matrix (store_of (grow_tenant reg 65408) ns) = [].
Proof.
  intros Hm Hs. unfold grow_tenant. cbn [with_limits MaxTenants]. rewrite (proj2 (Z.ltb_lt _ _)) by lia.
  change (u16 (65408 + 1 + 127)) with 0. split; [done|].
  destruct ns; cbn [store_of URLs IDs Meta] in *; unfold expand_rows; by rewrite (proj2 (Z.ltb_lt _ _)).
Qed.

Definition run_ops (os : list rop) (m : RegistryManager) : outcome RegistryManager :=
  foldl (fun m o => m <-- m ;; f <-- r_step sample_hash sample_iter o m ;; Ret f.1) (Ret m) os.

(** A deleted tenant's rate-limit modifier stays: the tenant that gets its
    number is blocked. *)
Lemma recycled_number_blocked :
  (m <-- run_ops [OSet NsURL acme (bytes_of "primary") (bytes_of "http://a")] NewRegistryManager ;;
   m <-- run_ops [ODrop acme; OSet NsURL globex (bytes_of "primary") (bytes_of "http://g")] (SetTenantRateLimitModifier m 1 (mkModifier 0 1)) ;;
   Ret (aliasMap m !! globex, Active m ≫= fun reg => TenantModifiers reg !! 1%nat)) = Ret (Some 1, Some (mkModifier 0 1)).
Proof. vm_compute. reflexivity. Qed.

(** Restoring a tenant whose number is beyond the capacity of a new registry
    (128 rows): its alias is entered beforehand, so the matrices are not
    grown, and the first property panics. *)
Lemma restore_beyond_capacity_panics :
  RestoreFromSnapshot sample_hash sample_iter NewRegistryManager
    (mkSnapshot [mkStored [acme] 200 [(bytes_of "primary", bytes_of "http://a")] [] []] [] [] []) = Panic.
Proof. vm_compute. reflexivity. Qed.

(** A request that resolved its tenant before the tenant was deleted reads the
    credentials of the tenant that got its number. *)
Lemma stale_tenant_reads_other :
  (m <-- run_ops [OSet NsID acme (bytes_of "api_key") (bytes_of "A")] NewRegistryManager ;;
   f <-- RegistryLookup sample_hash 0 (-1) (Active m) (mkRegCtx [acme; []] 0 0 []) 0 ;;
   m <-- run_ops [ODrop acme; OSet NsID globex (bytes_of "api_key") (bytes_of "G")] m ;;
   g <-- LoadProp NsID 0 1 (Active m) f.1 f.2 ;;
   Ret (rc_TenantKey g.1, rc_ByteSlots g.1)) = Ret (acme, [acme; bytes_of "G"]).
Proof. vm_compute. reflexivity. Qed.

(** A run registered twice: the sweep of the first registration deletes the
    second, which is 10 seconds old. *)
Lemma sweep_deletes_young :
  (m <-- run_ops [OTest 100 (bytes_of "r"); OTest 4000 (bytes_of "r")] NewRegistryManager ;;
   m <-- sweepExpiredTestTenants sample_hash sample_iter m 4010 3600 ;;
   Ret (aliasMap m !! test_alias (bytes_of "r"), tenantIDs m)) = Ret (None, [61440]).
Proof. vm_compute. reflexivity. Qed.

(** A tenant made by setting a property: its aliases, by which a restart finds
    the tenants, are never sent to the store. *)
Lemma aliases_not_persisted :
  (m <-- run_ops [OSet NsURL acme (bytes_of "primary") (bytes_of "http://a")] (SetStore NewRegistryManager TenantStore) ;;
   Ret (store_log m)) = Ret [[PutTenantID acme 1]; [PutProp NsURL acme (bytes_of "primary") (bytes_of "http://a")]].
Proof. vm_compute. reflexivity. Qed.
