(* ===== verification/RegistryOverrides.v ===== *)
(** * Sorted tables: rate-limit overrides and the list of tenants

    The override tables of a tenant are parallel sorted arrays searched by
    halving; they implement a map.  The sorted slice of tenants, read page by
    page from the cursor of the previous page, shows every tenant once. *)

From stdpp Require Import sorting.
From S2P Require Import Prelude Registry RegistryManager RegistryStore RegistryCore.

Local Open Scope Z_scope.
Local Open Scope rah_scope.

Abbreviation sorted := (StronglySorted Z.lt).

Lemma sorted_lookup l i j x y : sorted l -> l !! i = Some x -> l !! j = Some y -> (i < j)%nat -> x < y.
Proof.
  intros Hs. revert i j. induction Hs as [|a l Hs IH Ha]; intros i j Hi Hj Hij; [done|].
  destruct j as [|j]; [lia|]. cbn in Hj. destruct i as [|i]; cbn in Hi.
  - injection Hi as <-. rewrite Forall_forall in Ha. apply Ha. by eapply list_elem_of_lookup_2.
  - eapply (IH i j); [done..|lia].
Qed.

Lemma sorted_NoDup l : sorted l -> NoDup l.
Proof.
  induction 1 as [|a l Hs IH Ha]; constructor; [|done]. intros Hin. rewrite Forall_forall in Ha. specialize (Ha a Hin). lia.
Qed.

(** ** Binary search *)

(** The result of a search in a sorted list. *)
Definition search_spec (l : list Z) (id : Z) (r : Z + Z) : Prop :=
  match r with
  | inl i => 0 <= i /\ l !! Z.to_nat i = Some id
  | inr i => 0 <= i <= zlen l /\ (forall j x, l !! j = Some x -> if Z.of_nat j <? i then x < id else id < x)
  end.

Lemma table_search_ok l id : sorted l -> forall fuel lo hi, 0 <= lo -> lo <= hi + 1 -> hi < zlen l -> hi - lo + 1 < Z.of_nat fuel ->
  (forall j x, l !! j = Some x -> Z.of_nat j < lo -> x < id) -> (forall j x, l !! j = Some x -> hi < Z.of_nat j -> id < x) ->
  exists r, table_search fuel l id lo hi (hi + 1) = Ret r /\ search_spec l id r.
Proof.
  intros Hs fuel. induction fuel as [|fuel IH]; intros lo hi Hlo Hle Hhi Hf Hlow Hup; [lia|]. cbn [table_search].
  destruct (Z.ltb_spec hi lo) as [Hlt|Hge].
  { exists (inr (hi + 1)). split; [done|]. split; [lia|]. intros j x Hj. destruct (Z.ltb_spec (Z.of_nat j) (hi + 1)); [apply (Hlow j); [done|lia]|apply (Hup j); [done|lia]]. }
  set (mid := Z.shiftr (lo + hi) 1). assert (lo <= mid <= hi) as Hm by (unfold mid; rewrite Z.shiftr_div_pow2 by lia; change (2 ^ 1) with 2; div_lia).
  destruct (lookup_lt_is_Some_2 l (Z.to_nat mid)) as [x Ex]; [lia|]. rewrite (go_index_Z _ _ x) by (done || lia). cbn [obind].
  destruct (Z.eqb_spec x id) as [->|]; [exists (inl mid); split; [done|split; [lia|done]]|].
  destruct (Z.ltb_spec x id) as [Hx|Hx].
  - apply IH; [lia..| |done]. intros j y Hj Hjm. destruct (decide (j = Z.to_nat mid)) as [->|]; [congruence|].
    assert (y < x) by (apply (sorted_lookup l j (Z.to_nat mid)); [done..|lia]). lia.
  - replace (table_search fuel l id lo (mid - 1) mid) with (table_search fuel l id lo (mid - 1) (mid - 1 + 1)) by (f_equal; lia).
    apply IH; [lia..|done|]. intros j y Hj Hjm. destruct (decide (j = Z.to_nat mid)) as [->|]; [assert (x = y) by congruence; lia|].
    assert (x < y) by (apply (sorted_lookup l (Z.to_nat mid) j); [done..|lia]). lia.
Qed.

Lemma search_ids_ok l id : sorted l -> exists r, search_ids l id = Ret r /\ search_spec l id r.
Proof.
  intros Hs. unfold search_ids. pose proof (table_search_ok l id Hs (S (length l)) 0 (zlen l - 1)) as H.
  replace (zlen l - 1 + 1) with (zlen l) in H by lia. apply H; [lia..|]. intros j x Hj%lookup_lt_Some ?. lia.
Qed.

(** ** Inserting and removing *)

Lemma sorted_insert_at l id i : sorted l -> search_spec l id (inr i) -> sorted (insert_at i id l).
Proof.
  intros Hs [Hi Hspec]. unfold insert_at. rewrite <- (take_drop (Z.to_nat i) l) in Hs. apply StronglySorted_app_1_l in Hs as Hl. apply StronglySorted_app_1_r in Hs as Hr.
  assert (forall x, x ∈ take (Z.to_nat i) l -> x < id) as Hlow.
  { intros x [j Hj]%list_elem_of_lookup. apply lookup_take_Some in Hj as [Hj Hlt]. specialize (Hspec j x Hj). by rewrite (proj2 (Z.ltb_lt _ _)) in Hspec by lia. }
  assert (forall x, x ∈ drop (Z.to_nat i) l -> id < x) as Hup.
  { intros x [j Hj]%list_elem_of_lookup. rewrite lookup_drop in Hj. specialize (Hspec _ x Hj). by rewrite (proj2 (Z.ltb_ge _ _)) in Hspec by lia. }
  apply StronglySorted_app_2; [|done|constructor; [done|by apply Forall_forall]].
  intros x y Hx [->|Hy]%elem_of_cons; [auto|]. pose proof (Hlow x Hx). pose proof (Hup y Hy). lia.
Qed.

Lemma insert_at_perm {A} i (x : A) l : insert_at i x l ≡ₚ x :: l.
Proof. unfold insert_at. rewrite <- Permutation_middle. by rewrite take_drop. Qed.

Lemma remove_at_perm {A} i (x : A) l : l !! Z.to_nat i = Some x -> x :: remove_at i l ≡ₚ l.
Proof. intros E. unfold remove_at. rewrite Permutation_middle. by rewrite take_drop_middle. Qed.

Lemma sorted_remove_at l i : sorted l -> sorted (remove_at i l).
Proof.
  intros Hs. unfold remove_at. destruct (l !! Z.to_nat i) as [x|] eqn:E.
  - rewrite <- (take_drop_middle l _ _ E) in Hs. apply StronglySorted_app in Hs as (H1 & H2 & H3). apply StronglySorted_inv in H3 as [H3 _].
    apply StronglySorted_app_2; [|done|done]. intros a b Ha Hb. apply H1; [done|by right].
  - apply lookup_ge_None in E. rewrite (drop_ge l) by lia. rewrite app_nil_r, take_ge by lia. done.
Qed.

(** ** Tables *)

Section tables.
Context {E : Type}.
Implicit Types (t : table E) (e : E).

Definition table_ok t : Prop := sorted (ids t) /\ length (entries t) = length (ids t).

Definition table_map t : gmap Z E := list_to_map (zip (ids t) (entries t)).

Lemma table_keys t : table_ok t -> (zip (ids t) (entries t)).*1 = ids t.
Proof using. intros [_ Hl]. apply fst_zip. lia. Qed.

Lemma table_NoDup t : table_ok t -> NoDup (zip (ids t) (entries t)).*1.
Proof using. intros Ht. rewrite table_keys by done. by apply sorted_NoDup, Ht. Qed.

Lemma table_lookup t k e : table_ok t -> table_map t !! k = Some e <-> exists i, ids t !! i = Some k /\ entries t !! i = Some e.
Proof using.
  intros Ht. unfold table_map. rewrite <- elem_of_list_to_map by (by apply table_NoDup). rewrite list_elem_of_lookup. setoid_rewrite lookup_zip_with_Some.
  split; [intros (i & x & y & [= -> ->] & ? & ?); eauto|intros (i & ? & ?); exists i, k, e; done].
Qed.

Lemma table_absent t k i : table_ok t -> search_spec (ids t) k (inr i) -> table_map t !! k = None.
Proof using.
  intros Ht [_ Hs]. apply eq_None_not_Some. intros [e (j & Hj & _)%table_lookup]; [|done]. specialize (Hs j k Hj). destruct (_ <? _); lia.
Qed.

Lemma table_entry t k i : table_ok t -> search_spec (ids t) k (inl i) -> exists e, go_index (entries t) i = Ret e /\ table_map t !! k = Some e.
Proof using.
  intros Ht [Hi Hk]. destruct (lookup_lt_is_Some_2 (entries t) (Z.to_nat i)) as [e Ee].
  { destruct Ht as [_ ->]. by eapply lookup_lt_Some. }
  exists e. split; [by apply go_index_Z|]. apply table_lookup; eauto.
Qed.

Lemma table_find_ok t k : table_ok t -> table_find t k = Ret (table_map t !! k).
Proof using.
  intros Ht. unfold table_find. destruct (search_ids_ok (ids t) k (proj1 Ht)) as ([i|i] & -> & Hs); cbn [obind].
  - destruct (table_entry t k i Ht Hs) as (e & -> & ->). done.
  - by rewrite (table_absent t k i).
Qed.

Lemma zip_insert_at i k e t : table_ok t -> zip (insert_at i k (ids t)) (insert_at i e (entries t)) = insert_at i (k, e) (zip (ids t) (entries t)).
Proof using.
  intros [_ Hl]. unfold insert_at. rewrite zip_with_app by (rewrite !length_take; lia). cbn [zip_with].
  by rewrite zip_with_take, zip_with_drop.
Qed.

Lemma zip_remove_at i t : table_ok t -> zip (remove_at i (ids t)) (remove_at i (entries t)) = remove_at i (zip (ids t) (entries t)).
Proof using.
  intros [_ Hl]. unfold remove_at. rewrite zip_with_app by (rewrite !length_take; lia). by rewrite zip_with_take, zip_with_drop.
Qed.

Lemma table_upsert_ok t k e : table_ok t -> exists t', table_upsert t k e = Ret t' /\ table_ok t' /\ table_map t' = <[k:=e]> (table_map t).
Proof using.
  intros Ht. unfold table_upsert. destruct (search_ids_ok (ids t) k (proj1 Ht)) as ([i|i] & -> & Hs); cbn [obind].
  - destruct (table_entry t k i Ht Hs) as (e0 & Eg & _). rewrite Eg. cbn [obind]. eexists. split; [done|]. apply go_index_Ret in Eg as [Hi Eg]. destruct Hs as [_ Hk].
    assert (table_ok (mkTable (ids t) (<[Z.to_nat i:=e]> (entries t)))) as Ht' by (split; [apply Ht|cbn; rewrite length_insert; apply Ht]).
    split; [done|]. apply map_eq. intros k'. apply option_eq. intros e'. rewrite (table_lookup _ _ _ Ht'). cbn [ids entries].
    destruct (decide (k' = k)) as [->|Hne].
    + rewrite lookup_insert_eq. split.
      * intros (j & Hj & He). assert (j = Z.to_nat i) as -> by (eapply NoDup_lookup; [apply sorted_NoDup, Ht|done..]). rewrite list_lookup_insert_eq in He; [done|]. by eapply lookup_lt_Some.
      * intros [= <-]. exists (Z.to_nat i). rewrite list_lookup_insert_eq; [done|]. by eapply lookup_lt_Some.
    + rewrite lookup_insert_ne, (table_lookup _ _ _ Ht) by done.
      split; intros (j & Hj & He); exists j; (split; [done|]); rewrite list_lookup_insert_ne in * by (intros <-; congruence); done.
  - eexists. split; [done|]. split.
    + split; cbn [ids entries]; [by apply sorted_insert_at; [apply Ht|]|]. by rewrite !insert_at_perm; cbn; f_equal; apply Ht.
    + unfold table_map. cbn [ids entries]. rewrite zip_insert_at by done. rewrite <- list_to_map_cons. symmetry. apply list_to_map_proper; [|by rewrite insert_at_perm].
      cbn. constructor; [|by apply table_NoDup]. rewrite table_keys by done. intros Hin. apply list_elem_of_lookup in Hin as [j Hj].
      destruct Hs as [_ Hs]. specialize (Hs j k Hj). destruct (_ <? _); lia.
Qed.

Lemma table_remove_ok t k : table_ok t -> exists t', table_remove t k = Ret t' /\ table_ok t' /\ table_map t' = delete k (table_map t).
Proof using.
  intros Ht. unfold table_remove. destruct (search_ids_ok (ids t) k (proj1 Ht)) as ([i|i] & -> & Hs); cbn [obind].
  - eexists. split; [done|]. destruct (table_entry t k i Ht Hs) as (e & [Hi Ee]%go_index_Ret & _). destruct Hs as [_ Hk]. split.
    + split; cbn [ids entries]; [apply sorted_remove_at, Ht|]. pose proof (Permutation_length (remove_at_perm i _ _ Hk)). pose proof (Permutation_length (remove_at_perm i _ _ Ee)).
      cbn in *. pose proof (proj2 Ht). lia.
    + unfold table_map. cbn [ids entries]. rewrite zip_remove_at by done. set (z := zip _ _).
      assert (z !! Z.to_nat i = Some (k, e)) as Ez by (apply lookup_zip_with_Some; eauto).
      assert (NoDup ((k, e) :: remove_at i z).*1) as Hnd by (rewrite (remove_at_perm i _ _ Ez); by apply table_NoDup).
      rewrite <- (list_to_map_proper _ _ Hnd (remove_at_perm i _ _ Ez)). cbn [list_to_map]. rewrite list_to_map_cons. cbn in Hnd. apply NoDup_cons in Hnd as [Hn _].
      rewrite delete_insert_id; [done|]. by apply not_elem_of_list_to_map_1.
  - exists t. split; [done|]. split; [done|]. by rewrite delete_id by (by apply (table_absent t k i)).
Qed.
End tables.

(** ** Overrides are a map from tenant and configuration *)

Inductive vop : Type :=
| VUpsert (tenantID configID : Z) (e : TenantV2ConfigOverride)
| VDelete (tenantID configID : Z)
| VLookup (tenantID configID : Z).

Inductive vres : Type := VDone | VFound (o : option TenantV2ConfigOverride).

Definition v_step (o : vop) (m : RegistryManager) : outcome (RegistryManager * vres) :=
  match o with
  | VUpsert t c e => m <-- UpsertTenantV2Override m t c e ;; Ret (m, VDone)
  | VDelete t c => m <-- DeleteTenantV2Override m t c ;; Ret (m, VDone)
  | VLookup t c => r <-- LookupV2Override (Active m) t c ;; Ret (m, VFound r)
  end.

Definition av_step (o : vop) (s : gmap (Z * Z) TenantV2ConfigOverride) : outcome (gmap (Z * Z) TenantV2ConfigOverride * vres) :=
  match o with
  | VUpsert t c e => Ret (<[(t, c):=e]> s, VDone)
  | VDelete t c => Ret (delete (t, c) s, VDone)
  | VLookup t c => Ret (s, VFound (s !! (t, c)))
  end.

Definition vop_ok (o : vop) : Prop := match o with VUpsert t _ _ | VDelete t _ | VLookup t _ => 0 <= t end.

(** A tenant's table and its part of the map. *)
Definition row_ok (o : option (table TenantV2ConfigOverride)) (f : Z -> option TenantV2ConfigOverride) : Prop :=
  match o with
  | Some t => table_ok t /\ forall c, table_map t !! c = f c
  | None => forall c, f c = None
  end.

Definition overrides_rel (m : RegistryManager) (s : gmap (Z * Z) TenantV2ConfigOverride) : Prop :=
  forall t, 0 <= t -> row_ok (mjoin (TenantV2Overrides (activeOrEmpty m) !! Z.to_nat t)) (fun c => s !! (t, c)).

Lemma grow_slice_lookup {A} needed (l : list (option A)) i : mjoin (grow_slice None needed l !! i) = mjoin (l !! i).
Proof.
  unfold grow_slice. destruct (decide (i < length l)%nat); [by rewrite lookup_app_l|]. rewrite lookup_app_r by lia. rewrite (lookup_ge_None_2 l i) by lia.
  destruct (replicate _ _ !! _) as [o|] eqn:E; [|done]. apply lookup_replicate in E as [-> _]. done.
Qed.

Lemma row_table o f : row_ok o f -> table_ok (default (mkTable [] []) o) /\ forall c, table_map (default (mkTable [] []) o) !! c = f c.
Proof. destruct o as [t|]; [done|]. intros Hf. split; [split; [constructor|done]|]. intros c. by rewrite Hf. Qed.

(** The rows after one of them was replaced. *)
Lemma overrides_put (l : list (option (table TenantV2ConfigOverride))) (t : Z) (tb : table TenantV2ConfigOverride) (s s' : gmap (Z * Z) TenantV2ConfigOverride) : 0 <= t -> (Z.to_nat t < length l)%nat ->
  (forall t', 0 <= t' -> row_ok (mjoin (l !! Z.to_nat t')) (fun c => s !! (t', c))) -> table_ok tb ->
  (forall c, table_map tb !! c = s' !! (t, c)) -> (forall t' c, t' <> t -> s' !! (t', c) = s !! (t', c)) ->
  forall t', 0 <= t' -> row_ok (mjoin (<[Z.to_nat t:=Some tb]> l !! Z.to_nat t')) (fun c => s' !! (t', c)).
Proof.
  intros Ht Hl H Htb Hc Hne t' Ht'. destruct (decide (t' = t)) as [->|Hd].
  - rewrite list_lookup_insert_eq by done. done.
  - rewrite list_lookup_insert_ne by lia. specialize (H t' Ht'). destruct (mjoin _) as [x|]; cbn [row_ok] in *.
    + destruct H as [? H]. split; [done|]. intros c. by rewrite Hne.
    + intros c. by rewrite Hne.
Qed.

Lemma v_step_sim o m s : vop_ok o -> overrides_rel m s -> sim overrides_rel (v_step o m) (av_step o s).
Proof.
  intros Ho H. destruct o as [t c e|t c|t c]; cbn [v_step av_step vop_ok] in *.
  - unfold UpsertTenantV2Override, upsert_override. rewrite grow_slice_lookup. destruct (row_table _ _ (H t Ho)) as [Hok Hmap].
    destruct (table_upsert_ok _ c e Hok) as (tb & -> & Hok' & Hm'). cbn [obind sim]. split; [|done]. unfold overrides_rel. cbn.
    apply (overrides_put _ t tb s); [done| | |done| |].
    + unfold grow_slice. rewrite length_app, length_replicate. lia.
    + intros t' Ht'. rewrite grow_slice_lookup. by apply H.
    + intros c'. rewrite Hm'. destruct (decide (c' = c)) as [->|]; [by rewrite !lookup_insert_eq|]. rewrite !lookup_insert_ne by congruence. apply Hmap.
    + intros t' c' Hne. apply lookup_insert_ne. congruence.
  - unfold DeleteTenantV2Override. pose proof (H t Ho) as Hrow. destruct (mjoin _) as [tb|] eqn:Et; cbn [row_ok] in Hrow.
    + destruct Hrow as [Hok Hmap]. assert (Z.to_nat t < length (TenantV2Overrides (activeOrEmpty m)))%nat as Hlt.
      { destruct (TenantV2Overrides _ !! Z.to_nat t) eqn:El; [by eapply lookup_lt_Some|done]. }
      destruct (search_ids_ok (ids tb) c (proj1 Hok)) as ([i|i] & -> & Hs); cbn [obind].
      * destruct (table_remove_ok tb c Hok) as (tb' & -> & Hok' & Hm'). cbn [obind sim]. split; [|done]. unfold overrides_rel. cbn.
        apply (overrides_put _ t tb' s); try done.
        -- intros c'. rewrite Hm'. destruct (decide (c' = c)) as [->|]; [by rewrite !lookup_delete_eq|]. rewrite !lookup_delete_ne by congruence. apply Hmap.
        -- intros t' c' Hne. apply lookup_delete_ne. congruence.
      * cbn [sim]. split; [|done]. rewrite delete_id; [done|]. rewrite <- Hmap. by apply (table_absent tb c i).
    + cbn [sim]. split; [|done]. rewrite delete_id; [done|]. apply Hrow.
  - assert (LookupV2Override (Active m) t c = Ret (s !! (t, c))) as ->; [|done]. unfold LookupV2Override. specialize (H t Ho). unfold activeOrEmpty in H.
    destruct (Active m) as [reg|]; cbn [mbind option_bind].
    + destruct (mjoin _) as [tb|]; cbn [row_ok] in H; [destruct H as [Hok Hmap]; by rewrite table_find_ok, Hmap|by rewrite H].
    + cbn [TenantV2Overrides] in H. f_equal. destruct (replicate 128 None !! Z.to_nat t) as [o|] eqn:E; [apply lookup_replicate in E as [-> _]|]; cbn in H; by rewrite H.
Qed.

(** C23: The per-tenant overrides of the rate limits.  Upserts, deletions and
    the lookups of requests, in any order and for any tenants and
    configurations, behave like a map from tenant and configuration to
    override: the binary searches end, never read outside the tables and the
    tables stay sorted. *)
Theorem overrides_refine_map ops : Forall vop_ok ops -> answers v_step ops NewRegistryManager = answers av_step ops ∅.
Proof.
  intros Hok. apply (answers_refine _ _ (fun _ => overrides_rel) vop_ok); [|done|].
  - intros o _ m s Ho H. by apply v_step_sim.
  - intros t Ht. cbn [activeOrEmpty NewRegistryManager Active TenantV2Overrides]. destruct (replicate 128 (@None (table TenantV2ConfigOverride)) !! Z.to_nat t) as [o|] eqn:E; [apply lookup_replicate in E as [-> _]|]; cbn; intros c; apply lookup_empty.
Qed.

Lemma overrides_refine_map_witness :
  answers v_step [VUpsert 3 7 (mkV2 1 0 []); VUpsert 3 2 (mkV2 0 50 [9]); VUpsert 3 5 (mkV2 2 0 []); VDelete 3 2; VLookup 3 7; VLookup 3 2; VLookup 4 7] NewRegistryManager =
  Ret [VDone; VDone; VDone; VDone; VFound (Some (mkV2 1 0 [])); VFound None; VFound None].
Proof.
  rewrite overrides_refine_map by (repeat constructor; cbn; lia). vm_compute. reflexivity.
Defined.

(** ** The list of tenants *)

(** [sort.Search] on a predicate that turns true once. *)
Lemma search_from_spec f : (forall a b, a <= b -> f a = true -> f b = true) -> forall fuel i j, i <= j -> j - i < Z.of_nat fuel ->
  (forall h, h < i -> f h = false) -> (forall h, j <= h -> f h = true) ->
  exists r, search_from fuel f i j = Ret r /\ i <= r <= j /\ (forall h, h < r -> f h = false) /\ (forall h, r <= h -> f h = true).
Proof.
  intros Hmono fuel. induction fuel as [|fuel IH]; intros i j Hij Hf Hlow Hup; [lia|]. cbn [search_from].
  destruct (Z.ltb_spec i j) as [Hlt|Hge].
  - set (h := Z.shiftr (i + j) 1). assert (i <= h < j) as Hh by (unfold h; rewrite Z.shiftr_div_pow2 by lia; change (2 ^ 1) with 2; div_lia).
    destruct (f h) eqn:Ef.
    + destruct (IH i h) as (r & -> & Hr & H1 & H2); [lia..|done|eauto|]. exists r. repeat split; try (done || lia).
    + destruct (IH (h + 1) j) as (r & -> & Hr & H1 & H2); [lia..| |done|].
      { intros h' Hh'. destruct (f h') eqn:E; [|done]. rewrite <- Ef. symmetry. apply (Hmono h'); [lia|done]. }
      exists r. repeat split; try (done || lia).
  - exists i. assert (i = j) as -> by lia. repeat split; try (done || lia).
Qed.

(** In a sorted list: where the elements satisfying [p] begin. *)
Lemma sort_Search_ok l p : sorted l -> (forall x y, x < y -> p x = true -> p y = true) ->
  exists r, sort_Search l p = Ret (Z.of_nat r) /\ (r <= length l)%nat /\ forall j x, l !! j = Some x -> p x = if (j <? r)%nat then false else true.
Proof.
  intros Hs Hp. unfold sort_Search.
  set (f := fun i => p (nth (Z.to_nat i) l 0)). set (g := fun i => if i <? 0 then false else if i <? zlen l then f i else true).
  assert (forall a b, a <= b -> g a = true -> g b = true) as Hg.
  { intros a b Hab. unfold g, f. destruct (Z.ltb_spec a 0); [done|]. destruct (Z.ltb_spec b 0); [lia|]. destruct (Z.ltb_spec b (zlen l)); [|done].
    destruct (Z.ltb_spec a (zlen l)); [|lia]. intros Ha. destruct (decide (a = b)) as [->|]; [done|].
    destruct (lookup_lt_is_Some_2 l (Z.to_nat a)) as [x Ex]; [lia|]. destruct (lookup_lt_is_Some_2 l (Z.to_nat b)) as [y Ey]; [lia|].
    rewrite (nth_lookup_Some _ _ _ _ Ex) in Ha. rewrite (nth_lookup_Some _ _ _ _ Ey). apply (Hp x); [|done]. eapply (sorted_lookup l); [done|exact Ex|exact Ey|lia]. }
  assert (forall fuel i j, 0 <= i -> j <= zlen l -> search_from fuel f i j = search_from fuel g i j) as Hfg.
  { intros fuel. induction fuel as [|fuel IH]; intros i j Hi Hj; [done|]. cbn [search_from]. destruct (Z.ltb_spec i j); [|done].
    assert (i <= Z.shiftr (i + j) 1 < j) as Hh by (rewrite Z.shiftr_div_pow2 by lia; change (2 ^ 1) with 2; div_lia).
    assert (g (Z.shiftr (i + j) 1) = f (Z.shiftr (i + j) 1)) as -> by (unfold g; rewrite (proj2 (Z.ltb_ge _ 0)), (proj2 (Z.ltb_lt _ (zlen l))) by lia; done).
    rewrite !IH by lia. done. }
  rewrite Hfg by lia. destruct (search_from_spec g Hg (S (length l)) 0 (zlen l)) as (r & -> & Hr & H1 & H2); [lia..| | |].
  - intros h Hh. unfold g. by rewrite (proj2 (Z.ltb_lt h 0)).
  - intros h Hh. unfold g. by rewrite (proj2 (Z.ltb_ge h 0)), (proj2 (Z.ltb_ge h (zlen l))) by lia.
  - exists (Z.to_nat r). rewrite Z2Nat.id by lia. split; [done|]. split; [lia|]. intros j x Hj. apply lookup_lt_Some in Hj as Hlt.
    assert (g (Z.of_nat j) = p x) as Eg.
    { unfold g, f. rewrite (proj2 (Z.ltb_ge _ 0)), (proj2 (Z.ltb_lt _ (zlen l))) by lia. by rewrite Nat2Z.id, (nth_lookup_Some _ _ _ _ Hj). }
    rewrite <- Eg. destruct (Nat.ltb_spec j (Z.to_nat r)); [apply H1|apply H2]; lia.
Qed.

Lemma search_at l c : sorted l -> exists r, sort_Search l (fun x => c <=? x) = Ret (Z.of_nat r) /\ (r <= length l)%nat /\
  (forall j x, l !! j = Some x -> (j < r)%nat -> x < c) /\ (forall j x, l !! j = Some x -> (r <= j)%nat -> c <= x).
Proof.
  intros Hs. destruct (sort_Search_ok l (fun x => c <=? x) Hs) as (r & -> & Hr & Hspec).
  { intros x y Hxy Hx. apply Z.leb_le in Hx. apply Z.leb_le. lia. }
  exists r. split; [done|]. split; [done|]. split; intros j x Hj Hjr; specialize (Hspec j x Hj).
  - rewrite (proj2 (Nat.ltb_lt j r) Hjr) in Hspec. by apply Z.leb_gt.
  - rewrite (proj2 (Nat.ltb_ge j r) Hjr) in Hspec. by apply Z.leb_le.
Qed.

(** Where a member of a sorted list is found. *)
Lemma search_member l c r : sorted l -> (forall j x, l !! j = Some x -> (j < r)%nat -> x < c) -> (forall j x, l !! j = Some x -> (r <= j)%nat -> c <= x) ->
  c ∈ l -> l !! r = Some c.
Proof.
  intros Hs Hlow Hup [j Hj]%list_elem_of_lookup. assert (r <= j)%nat as Hrj by (apply Nat.nlt_ge; intros ?; specialize (Hlow j c Hj); lia).
  destruct (decide (j = r)) as [->|]; [done|]. apply lookup_lt_Some in Hj as ?. destruct (lookup_lt_is_Some_2 l r) as [y Hy]; [lia|].
  pose proof (sorted_lookup l r j y c Hs Hy Hj ltac:(lia)). specialize (Hup r y Hy). lia.
Qed.

Lemma insertSorted_ok l c : sorted l -> exists l', insertSortedTenantID l c = Ret l' /\ sorted l' /\ forall x, x ∈ l' <-> x = c \/ x ∈ l.
Proof.
  intros Hs. unfold insertSortedTenantID. destruct (search_at l c Hs) as (r & -> & Hr & Hlow & Hup). cbn [obind]. rewrite Nat2Z.id. eexists. split; [done|].
  case_bool_decide as E.
  - split; [done|]. intros x. split; [by right|]. intros [->|?]; [by eapply list_elem_of_lookup_2|done].
  - split; [|intros x; rewrite insert_at_perm; apply elem_of_cons]. apply sorted_insert_at; [done|]. split; [lia|]. intros j x Hj.
    destruct (Z.ltb_spec (Z.of_nat j) (Z.of_nat r)); [apply (Hlow j); [done|lia]|]. pose proof (Hup j x Hj ltac:(lia)).
    destruct (decide (x = c)) as [->|]; [|lia]. exfalso. apply E. eapply search_member; eauto using list_elem_of_lookup_2.
Qed.

Lemma removeSorted_ok l c : sorted l -> exists l', removeSortedTenantID l c = Ret l' /\ sorted l' /\ forall x, x ∈ l' <-> x <> c /\ x ∈ l.
Proof.
  intros Hs. unfold removeSortedTenantID. destruct (search_at l c Hs) as (r & -> & Hr & Hlow & Hup). cbn [obind]. rewrite Nat2Z.id. eexists. split; [done|].
  case_bool_decide as E.
  - split; [by apply sorted_remove_at|]. intros x. assert (NoDup (c :: remove_at (Z.of_nat r) l)) as Hnd.
    { rewrite (remove_at_perm _ c); [by apply sorted_NoDup|by rewrite Nat2Z.id]. }
    apply NoDup_cons in Hnd as [Hn _]. rewrite <- (remove_at_perm (Z.of_nat r) c l) at 2 by (by rewrite Nat2Z.id). rewrite elem_of_cons. split; [|tauto].
    intros Hx. split; [intros ->; done|by right].
  - split; [done|]. intros x. split; [|tauto]. intros Hx. split; [|done]. intros ->. apply E. eapply search_member; eauto.
Qed.

(** Insertions and removals in turn. *)
Fixpoint run_ids (ops : list (bool * Z)) (l : list Z) : outcome (list Z) :=
  match ops with
  | [] => Ret l
  | (ins, c) :: ops => l <-- (if ins : bool then insertSortedTenantID l c else removeSortedTenantID l c) ;; run_ids ops l
  end.

Definition ids_set (ops : list (bool * Z)) (s : gset Z) : gset Z :=
  foldl (fun s o => if o.1 : bool then {[o.2]} ∪ s else s ∖ {[o.2]}) s ops.

Lemma run_ids_ok ops : forall l s, sorted l -> (forall x, x ∈ l <-> x ∈ s) -> exists l', run_ids ops l = Ret l' /\ sorted l' /\ forall x, x ∈ l' <-> x ∈ ids_set ops s.
Proof.
  induction ops as [|[ins c] ops IH]; intros l s Hs Hl; [exists l; done|]. cbn [run_ids ids_set foldl fst snd]. destruct ins.
  - destruct (insertSorted_ok l c Hs) as (l1 & -> & Hs1 & H1). cbn [obind]. apply IH; [done|]. intros x. rewrite H1, Hl. set_solver.
  - destruct (removeSorted_ok l c Hs) as (l1 & -> & Hs1 & H1). cbn [obind]. apply IH; [done|]. intros x. rewrite H1, Hl. set_solver.
Qed.

(** Reading all pages: the cursor of a page starts the next one. *)
Fixpoint pages (fuel : nat) (m : RegistryManager) (cursor limit : Z) : outcome (list TenantSummary) :=
  match fuel with
  | O => Fuel
  | S fuel =>
    f <-- ListTenants m cursor limit ;;
    if f.2 =? 0 then Ret f.1 else rest <-- pages fuel m f.2 limit ;; Ret (f.1 ++ rest)
  end.

Definition page_size (limit : Z) : Z := if (limit <=? 0) || (1000 <? limit) then 100 else limit.

Lemma page_size_pos limit : 0 < page_size limit.
Proof. unfold page_size. destruct (Z.leb_spec limit 0), (Z.ltb_spec 1000 limit); cbn; lia. Qed.

(** The cursor that stands for position [start]. *)
Definition at_cursor (l : list Z) (start : nat) (cursor : Z) : Prop :=
  match start with O => cursor = 0 | S n => l !! n = Some cursor end.

Lemma cursor_start l start cursor : sorted l -> Forall (Z.lt 0) l -> at_cursor l start cursor -> (start <= length l)%nat ->
  (if 0 <? cursor then sort_Search l (fun x => cursor <? x) else Ret 0) = Ret (Z.of_nat start).
Proof.
  intros Hs Hpos Hat Hle. destruct start as [|n]; cbn in Hat; [by subst|].
  assert (0 < cursor) as Hc by (rewrite Forall_lookup in Hpos; by apply (Hpos n)). rewrite (proj2 (Z.ltb_lt 0 cursor) Hc).
  destruct (sort_Search_ok l (fun x => cursor <? x) Hs) as (r & -> & Hr & Hspec).
  { intros x y Hxy Hx. apply Z.ltb_lt in Hx. apply Z.ltb_lt. lia. }
  do 2 f_equal. destruct (lt_eq_lt_dec r (S n)) as [[Hlt|?]|Hgt]; [|done|].
  - exfalso. specialize (Hspec n cursor Hat). rewrite Z.ltb_irrefl, (proj2 (Nat.ltb_ge n r)) in Hspec by lia. done.
  - exfalso. destruct (lookup_lt_is_Some_2 l (S n)) as [y Hy]; [lia|]. specialize (Hspec (S n) y Hy). rewrite (proj2 (Nat.ltb_lt (S n) r)) in Hspec by lia.
    pose proof (sorted_lookup l n (S n) cursor y Hs Hat Hy ltac:(lia)). apply Z.ltb_ge in Hspec. lia.
Qed.

Lemma pages_ok m limit : sorted (tenantIDs m) -> Forall (Z.lt 0) (tenantIDs m) -> forall fuel start cursor,
  at_cursor (tenantIDs m) start cursor -> (start <= length (tenantIDs m))%nat -> (length (tenantIDs m) - start < fuel)%nat ->
  pages fuel m cursor limit = Ret (summary m <$> drop start (tenantIDs m)).
Proof.
  intros Hs Hpos fuel. set (l := tenantIDs m) in *. induction fuel as [|fuel IH]; intros start cursor Hat Hle Hf; [lia|]. cbn [pages].
  unfold ListTenants. fold (page_size limit). fold l. rewrite (cursor_start l start cursor) by done. cbn [obind]. pose proof (page_size_pos limit) as Hsz.
  destruct (Z.ltb_spec (zlen l) (Z.of_nat start + page_size limit)) as [Hend|Hmore].
  - unfold go_slice. rewrite !(proj2 (Z.leb_le _ _)) by lia. cbn [andb obind]. rewrite Z.ltb_irrefl. cbn [obind fst snd]. cbn iota.
    rewrite Z.eqb_refl. f_equal. rewrite Nat2Z.id, take_ge; [done|]. rewrite length_drop. lia.
  - unfold go_slice. rewrite !(proj2 (Z.leb_le _ _)) by lia. cbn [andb obind]. rewrite Nat2Z.id.
    replace (Z.to_nat (Z.of_nat start + page_size limit - Z.of_nat start)) with (Z.to_nat (page_size limit)) by lia.
    destruct (Z.ltb_spec (Z.of_nat start + page_size limit) (zlen l)) as [Hlt|Hge].
    + set (stop := (start + Z.to_nat (page_size limit))%nat). destruct (lookup_lt_is_Some_2 l (stop - 1)) as [c Ec]; [lia|].
      rewrite (go_index_Z l _ c) by (lia || (rewrite <- Ec; f_equal; lia)). cbn [obind fst snd].
      assert (0 < c) by (rewrite Forall_lookup in Hpos; by apply (Hpos (stop - 1)%nat)). rewrite (proj2 (Z.eqb_neq c 0)) by lia.
      rewrite (IH stop c); [|unfold at_cursor; destruct stop eqn:E; [lia|by replace n with (S n - 1)%nat by lia]|lia|lia].
      cbn [obind]. f_equal. rewrite <- fmap_app. f_equal. rewrite <- (take_drop (Z.to_nat (page_size limit)) (drop start l)) at 2. by rewrite drop_drop.
    + cbn [obind fst snd]. rewrite Z.eqb_refl. f_equal. rewrite take_ge; [done|]. rewrite length_drop. lia.
Qed.

(** The list of tenants.  Whatever tenants were added and removed, the
    sorted slice holds exactly the present ones, and the pages of
    [ListTenants], each started with the cursor of the one before and of any
    size, end and show every tenant exactly once, in order. *)
Theorem tenant_pages ops m limit :
  Forall (fun o => 0 < o.2) ops ->
  run_ids ops [] = Ret (tenantIDs m) ->
  (forall c, c ∈ tenantIDs m <-> c ∈ ids_set ops ∅) /\ NoDup (tenantIDs m) /\
  pages (S (length (tenantIDs m))) m 0 limit = Ret (summary m <$> tenantIDs m).
Proof.
  intros Hpos Hrun. destruct (run_ids_ok ops [] ∅) as (l & E & Hs & Hl); [constructor|set_solver|]. rewrite E in Hrun. injection Hrun as ->.
  split; [done|]. split; [by apply sorted_NoDup|]. apply (pages_ok m limit Hs) with (start := 0%nat); [|done|lia|lia].
  apply Forall_forall. intros c Hc. apply Hl in Hc. assert (forall s, (forall x, x ∈ s -> 0 < x) -> c ∈ ids_set ops s -> 0 < c) as H; [|by apply (H ∅); [set_solver|]].
  clear -Hpos. unfold ids_set. induction Hpos as [|[ins x] ops Hx _ IH]; intros s Hs; cbn [foldl fst snd] in *; [auto|]. apply IH. destruct ins; set_solver.
Qed.

Lemma tenant_pages_witness :
  pages 4 (set_tenantIDs NewRegistryManager [1; 4; 9]) 0 2 = Ret [mkSummary 1 [] 0 0 0; mkSummary 4 [] 0 0 0; mkSummary 9 [] 0 0 0].
Proof.
  exact (proj2 (proj2 (tenant_pages [(true, 9); (true, 1); (true, 5); (true, 4); (false, 5); (true, 9)] (set_tenantIDs NewRegistryManager [1; 4; 9]) 2
    ltac:(repeat constructor) ltac:(vm_compute; reflexivity)))).
Defined.
