(* ===== verification/DataCache.v ===== *)
(** * The columnar data cache

    [internal/datacache]: named collections of records with typed fields.  A
    collection lives in a slot of a fixed pool; its records are stored column
    by column in one byte buffer, deleted rows are reused, a full collection
    doubles or, with a window, drops its oldest row.  Tenants have quotas and
    collections can expire.

    Operations run one at a time; the clock ([time.Now().Unix()]) is an
    argument.  A typed load or store through an unsafe pointer is bounds
    checked by Go on its first byte only; the model panics when any byte is
    outside the buffer, so a run without panic also touches no foreign memory. *)

From S2P Require Import Prelude Bytes Float64 Cond.

Local Open Scope Z_scope.
Local Open Scope rah_scope.

(** ** Values and schemas (schema.go) *)

(** The dynamic types [writeRow] and [evalComputed] distinguish; [AOther]
    stands for nil and every other type. *)
Inductive any : Type :=
| AFloat (bits : Z)
| AInt (n : Z)
| AUint8 (n : Z)
| ABytes (s : byte_string)
| AString (s : byte_string)
| AOther.

Inductive FieldKind : Type := FieldFloat64 | FieldInt64 | FieldStringN | FieldEnum.

Record FieldDef : Type := mkField { fName : byte_string; Kind : FieldKind; Width : Z }.

Record ColRegion : Type := mkCol { Offset : Z; Stride : Z }.

Record Schema : Type := mkSchema {
  Fields : list FieldDef; ColRegions : list ColRegion; SortByIdx : Z; BufSize : Z }.

#[export] Instance FieldKind_eq_dec : EqDecision FieldKind.
Proof. solve_decision. Defined.

Definition set_width (f : FieldDef) : FieldDef :=
  mkField (fName f) (Kind f)
    (match Kind f with FieldFloat64 => 8 | FieldInt64 => 8 | FieldEnum => 1 | FieldStringN => Width f end).

Fixpoint bake_cols (fields : list FieldDef) (capacity offset : Z) : list ColRegion * Z :=
  match fields with
  | [] => ([], offset)
  | f :: fields' =>
    let '(regions, total) := bake_cols fields' capacity (i64 (offset + i64 (Width f * capacity))) in
    (mkCol offset (Width f) :: regions, total)
  end.

Definition BakeSchema (fields : list FieldDef) (capacity : Z) : Schema :=
  let fields := set_width <$> fields in
  let '(colRegions, offset) := bake_cols fields capacity 0 in
  mkSchema fields colRegions (-1) offset.

(** ** Errors *)

Inductive dcErr : Type :=
| ErrArenaFull | ErrBadType | ErrFieldCount | ErrBatchFieldCount (row : Z) | ErrBatchRow (row : Z) (e : dcErr)
| ErrPoolExhausted | ErrQuotaExceeded
| ErrCollectionNotFound | ErrCollectionExists | ErrReadOnly | ErrWindowSizeExceedsCapacity
| ErrCapacity | ErrBufSize | ErrNotOwner | ErrJSON | ErrRow (row : Z)
| ErrFieldNotFound | ErrLiveCount | ErrAggregateKind | ErrNoData | ErrAggregateOp
| ErrComputedTarget | ErrComputedCompile | ErrComputedEval.

(** ** What the code takes from elsewhere

    [sort.Slice], [encoding/json], [strconv.ParseFloat] (its first result),
    the expression language, and the results of conversions from [float64]
    that the language leaves to the platform. *)

Class Platform : Type := {
  Program : Type;
  sort_slice : (Z -> Z -> bool) -> list Z -> list Z;
  json_object : byte_string -> option (gmap byte_string any);
  json_array : byte_string -> option (list byte_string);
  json_marshal : gmap byte_string any -> option byte_string;
  ParseFloat : byte_string -> Z;
  expr_compile : byte_string -> gset byte_string -> option Program;
  expr_run : Program -> gmap byte_string Z -> option (option Z);
  convert_int64 : Z -> Z;
  convert_uint8 : Z -> Z
}.

(** The key of a quota, and a [map[string]string] in the order of its iteration. *)
Abbreviation quotaKey := (Z * byte_string)%type.
Abbreviation definitions := (list (byte_string * byte_string))%type.

Section datacache.
Context {P : Platform}.

(** [int64(v)] and [uint8(v)] of a float. *)
Definition int64_of_float (b : Z) : Z :=
  match f64_trunc b with
  | Some n => if (- 2 ^ 63 <=? n) && (n <? 2 ^ 63) then n else i64 (convert_int64 b)
  | None => i64 (convert_int64 b)
  end.

Definition uint8_of_float (b : Z) : Z :=
  match f64_trunc b with
  | Some n => if (0 <=? n) && (n <? 256) then n else u8 (convert_uint8 b)
  | None => u8 (convert_uint8 b)
  end.

(** ** The arena (arena.go) *)

Record Arena : Type := mkArena {
  buf : byte_string; aSchema : Schema; Size : Z; Cap : Z; LiveCount : Z; freeRows : list Z }.

Definition set_buf (a : Arena) (b : byte_string) : Arena :=
  mkArena b (aSchema a) (Size a) (Cap a) (LiveCount a) (freeRows a).

Definition set_free (a : Arena) (free : list Z) (live : Z) : Arena :=
  mkArena (buf a) (aSchema a) (Size a) (Cap a) live free.

Definition set_sorted (a : Arena) (colIdx : Z) : Arena :=
  let s := aSchema a in
  mkArena (buf a) (mkSchema (Fields s) (ColRegions s) colIdx (BufSize s)) (Size a) (Cap a) (LiveCount a) (freeRows a).

(** [make([]byte, n)] *)
Definition alloc_arena_buf (n : Z) : outcome byte_string :=
  if n <? 0 then Panic else Ret (replicate (Z.to_nat n) 0).

Definition NewArena (schema : Schema) (capacity : Z) : outcome Arena :=
  b <-- alloc_arena_buf (BufSize schema) ;; Ret (mkArena b schema 0 capacity 0 []).

(** The [n] bytes at an address, and overwriting them. *)
Definition load (b : byte_string) (addr n : Z) : outcome byte_string := go_slice b addr (addr + n).

Definition store (b : byte_string) (addr : Z) (bs : byte_string) : outcome byte_string :=
  _ <-- go_slice b addr (addr + Z.of_nat (length bs)) ;; Ret (splice b (Z.to_nat addr) bs).

Definition Float64 (a : Arena) (col i : Z) : outcome Z :=
  r <-- go_index (ColRegions (aSchema a)) col ;;
  bs <-- load (buf a) (Offset r + i * 8) 8 ;; Ret (from_le bs).

Definition SetFloat64 (a : Arena) (col i v : Z) : outcome Arena :=
  r <-- go_index (ColRegions (aSchema a)) col ;;
  b <-- store (buf a) (Offset r + i * 8) (to_le8 v) ;; Ret (set_buf a b).

Definition Int64 (a : Arena) (col i : Z) : outcome Z :=
  r <-- go_index (ColRegions (aSchema a)) col ;;
  bs <-- load (buf a) (Offset r + i * 8) 8 ;; Ret (i64 (from_le bs)).

Definition SetInt64 (a : Arena) (col i v : Z) : outcome Arena :=
  r <-- go_index (ColRegions (aSchema a)) col ;;
  b <-- store (buf a) (Offset r + i * 8) (to_le8 v) ;; Ret (set_buf a b).

Definition Enum (a : Arena) (col i : Z) : outcome Z :=
  r <-- go_index (ColRegions (aSchema a)) col ;;
  go_index (buf a) (Offset r + i).

Definition SetEnum (a : Arena) (col i v : Z) : outcome Arena :=
  r <-- go_index (ColRegions (aSchema a)) col ;;
  b <-- store (buf a) (Offset r + i) [v] ;; Ret (set_buf a b).

Definition StringAt (a : Arena) (col i : Z) : outcome byte_string :=
  r <-- go_index (ColRegions (aSchema a)) col ;;
  let start := Offset r + i * Stride r in
  go_slice (buf a) start (start + Stride r).

Definition SetStringAt (a : Arena) (col i : Z) (v : byte_string) : outcome Arena :=
  r <-- go_index (ColRegions (aSchema a)) col ;;
  let start := Offset r + i * Stride r in
  _ <-- go_slice (buf a) start (start + Stride r) ;;
  let b := splice (buf a) (Z.to_nat start) (replicate (Z.to_nat (Stride r)) 0) in
  let copyLen := Z.min (Z.of_nat (length v)) (Stride r) in
  Ret (set_buf a (splice b (Z.to_nat start) (take (Z.to_nat copyLen) v))).

Definition arena_IsLive (a : Arena) (i : Z) : bool :=
  negb ((i <? 0) || (Size a <=? i)) && negb (bool_decide (u32 i ∈ freeRows a)).

Definition arena_Delete (a : Arena) (i : Z) : Arena :=
  if (i <? 0) || (Size a <=? i) then a
  else if bool_decide (u32 i ∈ freeRows a) then a
  else set_free a (freeRows a ++ [u32 i]) (i32 (LiveCount a - 1)).

(** The rows taken from the end of the free list. *)
Fixpoint pop_rows (n : nat) (free : list Z) : list Z * list Z :=
  match n with
  | O => ([], free)
  | S n' =>
    match last free with
    | None => ([], free)
    | Some r =>
      let '(rows, free') := pop_rows n' (take (length free - 1) free) in (r :: rows, free')
    end
  end.

Definition allocRows (a : Arena) (n : nat) : Arena * (list Z + dcErr) :=
  let '(reused, free) := pop_rows n (freeRows a) in
  let newNeeded := Z.of_nat n - Z.of_nat (length reused) in
  let oldSize := Size a in
  if (0 <? newNeeded) && (Cap a <? oldSize + newNeeded) then
    (set_free a (free ++ reused) (LiveCount a), inr ErrArenaFull)
  else
    let size := if 0 <? newNeeded then i32 (oldSize + newNeeded) else Size a in
    (mkArena (buf a) (aSchema a) size (Cap a) (i32 (LiveCount a + Z.of_nat n)) free,
     inl (reused ++ ((fun i => u32 (oldSize + i)) <$> seqZ 0 newNeeded))).

(** One value into its column. *)
Definition write_val (a : Arena) (kind : FieldKind) (i r : Z) (v : any) : outcome (Arena + dcErr) :=
  match kind, v with
  | FieldFloat64, AFloat b => a <-- SetFloat64 a i r b ;; Ret (inl a)
  | FieldInt64, AInt n => a <-- SetInt64 a i r n ;; Ret (inl a)
  | FieldInt64, AFloat b => a <-- SetInt64 a i r (int64_of_float b) ;; Ret (inl a)
  | FieldEnum, AUint8 n => a <-- SetEnum a i r n ;; Ret (inl a)
  | FieldEnum, AFloat b => a <-- SetEnum a i r (uint8_of_float b) ;; Ret (inl a)
  | FieldEnum, AInt n => a <-- SetEnum a i r (u8 n) ;; Ret (inl a)
  | FieldStringN, ABytes s => a <-- SetStringAt a i r s ;; Ret (inl a)
  | FieldStringN, AString s => a <-- SetStringAt a i r s ;; Ret (inl a)
  | _, _ => Ret (inr ErrBadType)
  end.

Fixpoint write_vals (a : Arena) (i r : Z) (vals : list any) : outcome (Arena * option dcErr) :=
  match vals with
  | [] => Ret (a, None)
  | v :: vals' =>
    f <-- go_index (Fields (aSchema a)) i ;;
    w <-- write_val a (Kind f) i r v ;;
    match w with
    | inl a => write_vals a (i + 1) r vals'
    | inr e => Ret (a, Some e)
    end
  end.

Definition writeRow (a : Arena) (r : Z) (vals : list any) : outcome (Arena * option dcErr) :=
  if Nat.eqb (length vals) (length (Fields (aSchema a))) then write_vals a 0 r vals
  else Ret (a, Some ErrFieldCount).

Definition arena_Append (a : Arena) (vals : list any) : outcome (Arena * option dcErr) :=
  let '(a, res) := allocRows a 1 in
  match res with
  | inr e => Ret (a, Some e)
  | inl rows =>
    row <-- go_index rows 0 ;;
    w <-- writeRow a row vals ;;
    let '(a, err) := w in
    match err with
    | Some e => Ret (set_free a (freeRows a ++ [row]) (i32 (LiveCount a - 1)), Some e)
    | None => Ret (a, None)
    end
  end.

(** The field counts of a batch; the first row that differs. *)
Fixpoint batch_count_err (a : Arena) (i : Z) (allVals : list (list any)) : option Z :=
  match allVals with
  | [] => None
  | vals :: rest =>
    if Nat.eqb (length vals) (length (Fields (aSchema a))) then batch_count_err a (i + 1) rest else Some i
  end.

Fixpoint write_rows (a : Arena) (i : Z) (rows : list Z) (allVals : list (list any))
  : outcome (Arena * option (Z * dcErr)) :=
  match allVals with
  | [] => Ret (a, None)
  | vals :: rest =>
    row <-- go_index rows i ;;
    w <-- writeRow a row vals ;;
    let '(a, err) := w in
    match err with
    | Some e => Ret (a, Some (i, e))
    | None => write_rows a (i + 1) rows rest
    end
  end.

Definition AppendBatch (a : Arena) (allVals : list (list any)) : outcome (Arena * option dcErr) :=
  match allVals with
  | [] => Ret (a, None)
  | _ =>
    match batch_count_err a 0 allVals with
    | Some i => Ret (a, Some (ErrBatchFieldCount i))
    | None =>
      let '(a, res) := allocRows a (length allVals) in
      match res with
      | inr e => Ret (a, Some e)
      | inl rows =>
        w <-- write_rows a 0 rows allVals ;;
        let '(a, err) := w in
        match err with
        | Some (i, e) =>
          Ret (set_free a (freeRows a ++ rows) (i32 (LiveCount a - Z.of_nat (length allVals))), Some (ErrBatchRow i e))
        | None => Ret (a, None)
        end
      end
    end
  end.

Definition arena_Reset (a : Arena) : Arena :=
  let s := aSchema a in
  mkArena (buf a) (mkSchema (Fields s) (ColRegions s) (-1) (BufSize s)) 0 (Cap a) 0 [].

(** The rows in use, in ascending order. *)
Definition live_rows (a : Arena) : list Z := base.filter (fun i => arena_IsLive a i = true) (seqZ 0 (Size a)).

(** ** The pool (pool.go) *)

(** [indices] is the slice of sort positions, [spare] what its backing array
    holds beyond its length. *)
Record poolSlot : Type := mkPoolSlot {
  arena : Arena; indices : list Z; spare : list Z; inUse : bool;
  ownerKey : byte_string; ttlExpUnix : Z; ps_name : byte_string; ringHead : Z }.

Definition with_arena (s : poolSlot) (a : Arena) : poolSlot :=
  mkPoolSlot a (indices s) (spare s) (inUse s) (ownerKey s) (ttlExpUnix s) (ps_name s) (ringHead s).

Definition set_indices (s : poolSlot) (ix sp : list Z) : poolSlot :=
  mkPoolSlot (arena s) ix sp (inUse s) (ownerKey s) (ttlExpUnix s) (ps_name s) (ringHead s).

Definition fresh_slot : poolSlot :=
  mkPoolSlot (mkArena [] (mkSchema [] [] 0 0) 0 0 0 []) [] [] false (replicate 48 0) 0 (replicate 128 0) 0.

Record ArenaPool : Type := mkPool {
  slots : list poolSlot; free : list Z; maxBufBytes : Z; maxSlots : Z; maxRecords : Z }.

Definition set_pool_slot (p : ArenaPool) (idx : Z) (s : poolSlot) : ArenaPool :=
  mkPool (<[Z.to_nat idx := s]> (slots p)) (free p) (maxBufBytes p) (maxSlots p) (maxRecords p).

Definition set_freelist (p : ArenaPool) (f : list Z) : ArenaPool :=
  mkPool (slots p) f (maxBufBytes p) (maxSlots p) (maxRecords p).

Definition NewArenaPool (maxSlots maxBufBytes maxRecords : Z) : ArenaPool :=
  mkPool (replicate (Z.to_nat maxSlots) fresh_slot) (u8 <$> seqZ 0 maxSlots) maxBufBytes maxSlots maxRecords.

Definition set_inUse (s : poolSlot) (b : bool) : poolSlot :=
  mkPoolSlot (arena s) (indices s) (spare s) b (ownerKey s) (ttlExpUnix s) (ps_name s) (ringHead s).

(** [pool_Claim(0)]: without waiting. *)
Definition pool_Claim (p : ArenaPool) : outcome (ArenaPool * (Z + dcErr)) :=
  match free p with
  | idx :: rest =>
    s <-- go_index (slots p) idx ;;
    Ret (set_pool_slot (set_freelist p rest) idx (set_inUse s true), inl idx)
  | [] => Ret (p, inr ErrPoolExhausted)
  end.

(** The free list is a channel of capacity [maxSlots]: a send to a full one is dropped. *)
Definition pool_Release (p : ArenaPool) (idx : Z) : outcome ArenaPool :=
  s <-- go_index (slots p) idx ;;
  let s := mkPoolSlot (arena_Reset (arena s)) (indices s) (spare s) false (replicate 48 0) 0 (replicate 128 0) 0 in
  let p := set_pool_slot p idx s in
  Ret (if Z.of_nat (length (free p)) <? maxSlots p then set_freelist p (free p ++ [idx]) else p).

(** A slice extended within its capacity, or a new zeroed one with the old
    elements copied. *)
Definition reslice (ix sp : list Z) (n : nat) : list Z * list Z :=
  let all := ix ++ sp in (take n all, drop n all).

Definition InitSlot (p : ArenaPool) (idx capacity : Z) (schema : Schema) : outcome ArenaPool :=
  s <-- go_index (slots p) idx ;;
  let b := buf (arena s) in
  b <-- (if Z.of_nat (length b) <? BufSize schema then alloc_arena_buf (BufSize schema)
         else used <-- go_slice b 0 (BufSize schema) ;; Ret (replicate (length used) 0 ++ drop (length used) b)) ;;
  let '(ix, sp) := if Z.of_nat (length (indices s ++ spare s)) <? capacity
                   then (replicate (Z.to_nat capacity) 0, [])
                   else reslice (indices s) (spare s) (Z.to_nat capacity) in
  let s := set_indices (with_arena s (mkArena b schema 0 capacity 0 [])) (u32 <$> seqZ 0 (Z.of_nat (length ix))) sp in
  Ret (set_pool_slot p idx s).

(** The live rows written to the front of the index. *)
Definition rebuild (s : poolSlot) : outcome poolSlot :=
  let rows := u32 <$> live_rows (arena s) in
  _ <-- go_slice (indices s) 0 (Z.of_nat (length rows)) ;;
  Ret (set_indices s (rows ++ drop (length rows) (indices s)) (spare s)).

(** [bytes.Compare(a, b) < 0] *)
Fixpoint bytes_ltb (a b : byte_string) : bool :=
  match a, b with
  | _, [] => false
  | [], _ :: _ => true
  | x :: a', y :: b' => if x =? y then bytes_ltb a' b' else x <? y
  end.

Definition less (a : Arena) (kind : FieldKind) (colIdx rowI rowJ : Z) : outcome bool :=
  match kind with
  | FieldFloat64 => x <-- Float64 a colIdx rowI ;; y <-- Float64 a colIdx rowJ ;; Ret (f64_ltb x y)
  | FieldInt64 => x <-- Int64 a colIdx rowI ;; y <-- Int64 a colIdx rowJ ;; Ret (x <? y)
  | FieldEnum => x <-- Enum a colIdx rowI ;; y <-- Enum a colIdx rowJ ;; Ret (x <? y)
  | FieldStringN => x <-- StringAt a colIdx rowI ;; y <-- StringAt a colIdx rowJ ;; Ret (bytes_ltb x y)
  end.

Definition returns {A} (x : outcome A) : bool := match x with Ret _ => true | _ => false end.

Definition is_true_ret (x : outcome bool) : bool := match x with Ret b => b | _ => false end.

(** [sort.Slice] compares every element of a slice of two or more, so an
    element whose column cannot be read is a panic. *)
Definition SortBy (p : ArenaPool) (idx colIdx : Z) : outcome ArenaPool :=
  s <-- go_index (slots p) idx ;;
  s <-- rebuild s ;;
  let a := arena s in
  let n := length (live_rows a) in
  f <-- go_index (Fields (aSchema a)) colIdx ;;
  let rows := take n (indices s) in
  if (n <? 2)%nat || forallb (fun r => returns (less a (Kind f) colIdx r r)) rows then
    let sorted := sort_slice (fun i j => is_true_ret (less a (Kind f) colIdx i j)) rows in
    let s := set_indices s (sorted ++ drop n (indices s)) (spare s) in
    Ret (set_pool_slot p idx (with_arena s (set_sorted a colIdx)))
  else Panic.

Definition ResetSortIndex (p : ArenaPool) (idx : Z) : outcome ArenaPool :=
  s <-- go_index (slots p) idx ;;
  s <-- rebuild s ;;
  Ret (set_pool_slot p idx (with_arena s (set_sorted (arena s) (-1)))).

Definition LiveIndexCount (p : ArenaPool) (idx : Z) : outcome Z :=
  s <-- go_index (slots p) idx ;; Ret (Z.of_nat (length (live_rows (arena s)))).

(** ** Quotas (quota.go) *)

(** [copy] into a zeroed array of [n] bytes. *)
Definition pad (n : nat) (s : byte_string) : byte_string := take n (s ++ replicate n 0).

Definition makeQuotaKey (tenantID : Z) (app : byte_string) : quotaKey := (tenantID, pad 32 app).

Record tenantDataQuota : Type := mkQuota { usedBytes : Z; usedSlots : Z; q_maxBytes : Z; q_maxSlots : Z }.

Record QuotaRegistry : Type := mkQuotas {
  entries : gmap quotaKey tenantDataQuota; platformMaxBytes : Z; platformMaxSlots : Z }.

Definition NewQuotaRegistry (maxBytes maxSlots : Z) : QuotaRegistry := mkQuotas ∅ maxBytes maxSlots.

Definition set_quota (qr : QuotaRegistry) (k : quotaKey) (q : tenantDataQuota) : QuotaRegistry :=
  mkQuotas (<[k := q]> (entries qr)) (platformMaxBytes qr) (platformMaxSlots qr).

Definition use (q : tenantDataQuota) (bytes slots : Z) : tenantDataQuota :=
  mkQuota (i64 (usedBytes q + bytes)) (i32 (usedSlots q + slots)) (q_maxBytes q) (q_maxSlots q).

Definition Reserve (qr : QuotaRegistry) (tenantID : Z) (app : byte_string) (bytes slots : Z)
  : QuotaRegistry * option dcErr :=
  let key := makeQuotaKey tenantID app in
  let q := default (mkQuota 0 0 (platformMaxBytes qr) (platformMaxSlots qr)) (entries qr !! key) in
  let q1 := use q bytes 0 in
  if q_maxBytes q <? usedBytes q1 then (set_quota qr key (use q1 (- bytes) 0), Some ErrQuotaExceeded)
  else
    let q2 := use q1 0 (i32 slots) in
    if q_maxSlots q <? usedSlots q2 then
      (set_quota qr key (use q2 (- bytes) (- i32 slots)), Some ErrQuotaExceeded)
    else (set_quota qr key q2, None).

Definition quota_Release (qr : QuotaRegistry) (tenantID : Z) (app : byte_string) (bytes slots : Z) : QuotaRegistry :=
  let key := makeQuotaKey tenantID app in
  match entries qr !! key with
  | None => qr
  | Some q => set_quota qr key (use q (- bytes) (- i32 slots))
  end.

Definition SetTenantLimit (qr : QuotaRegistry) (tenantID : Z) (app : byte_string) (maxBytes maxSlots : Z) : QuotaRegistry :=
  let key := makeQuotaKey tenantID app in
  let q := default (mkQuota 0 0 0 0) (entries qr !! key) in
  set_quota qr key (mkQuota (usedBytes q) (usedSlots q) maxBytes maxSlots).

Definition UsageBytes (qr : QuotaRegistry) (tenantID : Z) (app : byte_string) : Z :=
  match entries qr !! makeQuotaKey tenantID app with None => 0 | Some q => usedBytes q end.

Definition UsageSlots (qr : QuotaRegistry) (tenantID : Z) (app : byte_string) : Z :=
  match entries qr !! makeQuotaKey tenantID app with None => 0 | Some q => usedSlots q end.

(** ** Computed fields (computed.go) *)

Record ComputedField : Type := mkComputed {
  TargetIdx : Z; cf_Program : Program; InputNames : list byte_string; InputIndices : list Z }.

(** [idxOf]: the last field of a name. *)
Fixpoint field_index (fields : list FieldDef) (i : Z) (m : gmap byte_string Z) : gmap byte_string Z :=
  match fields with [] => m | f :: fields' => field_index fields' (i + 1) (<[fName f := i]> m) end.

Definition is_computed (defs : definitions) (f : FieldDef) : bool := bool_decide (fName f ∈ defs.*1).

Fixpoint compile_defs (fields : list FieldDef) (defs todo : definitions) : list ComputedField + dcErr :=
  match todo with
  | [] => inl []
  | (targetName, exprStr) :: todo' =>
    let idxOf := field_index fields 0 ∅ in
    let inputs := base.filter (fun f => is_computed defs f = false) fields in
    match idxOf !! targetName with
    | None => inr ErrComputedTarget
    | Some targetIdx =>
      match expr_compile exprStr (list_to_set (fName <$> inputs)) with
      | None => inr ErrComputedCompile
      | Some program =>
        match compile_defs fields defs todo' with
        | inl rest =>
          inl (mkComputed targetIdx program (fName <$> inputs) ((fun f => default 0 (idxOf !! fName f)) <$> inputs) :: rest)
        | inr e => inr e
        end
      end
    end
  end.

Definition compileComputedFields (fields : list FieldDef) (defs : definitions) : list ComputedField + dcErr :=
  compile_defs fields defs defs.

Definition env_value (v : any) : Z :=
  match v with AFloat b => b | AInt n => f64_of_int n | AUint8 n => f64_of_int n | _ => f64_zero end.

Fixpoint build_env (names : list byte_string) (idxs : list Z) (vals : list any) (env : gmap byte_string Z)
  : outcome (gmap byte_string Z) :=
  match names with
  | [] => Ret env
  | name :: names' =>
    i <-- go_index idxs 0 ;;
    v <-- go_index vals i ;;
    build_env names' (drop 1 idxs) vals (<[name := env_value v]> env)
  end.

Definition set_val (vals : list any) (i : Z) (v : any) : outcome (list any) :=
  _ <-- go_index vals i ;; Ret (<[Z.to_nat i := v]> vals).

Fixpoint evalComputed (computed : list ComputedField) (vals : list any) : outcome (list any + dcErr) :=
  match computed with
  | [] => Ret (inl vals)
  | cf :: computed' =>
    env <-- build_env (InputNames cf) (InputIndices cf) vals ∅ ;;
    match expr_run (cf_Program cf) env with
    | None => Ret (inr ErrComputedEval)
    | Some out =>
      vals <-- (match out with Some f => set_val vals (TargetIdx cf) (AFloat f) | None => Ret vals end) ;;
      evalComputed computed' vals
    end
  end.

(** ** The manager (manager.go) *)

Inductive AccessMode : Type := AccessReadWrite | AccessReadOnly.

Inductive GrowthMode : Type := GrowthAuto | GrowthFixed.

Record CollectionMeta : Type := mkMeta {
  PoolIdx : Z; cm_Schema : Schema; Access : AccessMode; Growth : GrowthMode; MaxCap : Z; QuotaKey : quotaKey;
  TTLSec : Z; cm_Version : byte_string; WindowSize : Z; ComputedFields : list ComputedField; ComputedSrc : definitions }.

Record CreateOpts : Type := mkOpts {
  o_TenantID : Z; o_App : byte_string; o_Fields : list FieldDef; o_Capacity : Z; o_MaxCap : Z;
  o_Access : AccessMode; o_Growth : GrowthMode; o_TTLSec : Z; o_Version : byte_string;
  o_WindowSize : Z; o_Computed : definitions }.

Record DataCacheManager : Type := mkDCM {
  pool : ArenaPool; quotas : QuotaRegistry; named : gmap byte_string CollectionMeta }.

Definition with_pool (m : DataCacheManager) (p : ArenaPool) : DataCacheManager := mkDCM p (quotas m) (named m).
Definition set_quotas (m : DataCacheManager) (q : QuotaRegistry) : DataCacheManager := mkDCM (pool m) q (named m).
Definition set_named (m : DataCacheManager) (n : gmap byte_string CollectionMeta) : DataCacheManager :=
  mkDCM (pool m) (quotas m) n.

Definition NewDataCacheManager (p : ArenaPool) (q : QuotaRegistry) : DataCacheManager := mkDCM p q ∅.

(** The owner of a slot, written for the cleaner (ttl.go). *)
Definition encodeOwnerKey (tenantID : Z) (app : byte_string) : byte_string :=
  [u8 tenantID; u8 (Z.shiftr tenantID 8)] ++ pad 32 app ++ replicate 14 0.

Fixpoint drop_zeros (s : byte_string) : byte_string :=
  match s with 0 :: s' => drop_zeros s' | _ => s end.

(** [bytes.TrimRight(s, "\x00")] *)
Definition trim_zeros (s : byte_string) : byte_string := reverse (drop_zeros (reverse s)).

Definition decodeOwnerKey (key : byte_string) : outcome (Z * byte_string) :=
  id <-- go_slice key 0 2 ;;
  app <-- go_slice key 2 34 ;;
  Ret (from_le id, trim_zeros app).

(** The slot as [Create] leaves it. *)
Definition own_slot (s : poolSlot) (owner name : byte_string) (exp : option Z) : poolSlot :=
  mkPoolSlot (arena s) (indices s) (spare s) (inUse s) owner (default (ttlExpUnix s) exp)
    (splice (ps_name s) 0 (take 128 name)) (ringHead s).

(** After the checks: quota, slot, registration. *)
Definition create_claim (now : Z) (m : DataCacheManager) (name : byte_string) (opts : CreateOpts) (schema : Schema)
    (capacity : Z) (growth : GrowthMode) (computed : list ComputedField)
  : outcome (DataCacheManager * option dcErr) :=
  let '(q, err) := Reserve (quotas m) (o_TenantID opts) (o_App opts) (BufSize schema) 1 in
  let m := set_quotas m q in
  match err with
  | Some e => Ret (m, Some e)
  | None =>
    c <-- pool_Claim (pool m) ;;
    let '(p, res) := c in
    let m := with_pool m p in
    match res with
    | inr e =>
      Ret (set_quotas m (quota_Release (quotas m) (o_TenantID opts) (o_App opts) (BufSize schema) 1), Some e)
    | inl poolIdx =>
      p <-- InitSlot p poolIdx capacity schema ;;
      s <-- go_index (slots p) poolIdx ;;
      let exp := if 0 <? o_TTLSec opts then Some (i64 (now + o_TTLSec opts)) else None in
      let p := set_pool_slot p poolIdx (own_slot s (encodeOwnerKey (o_TenantID opts) (o_App opts)) name exp) in
      let meta := mkMeta poolIdx schema (o_Access opts) growth (o_MaxCap opts)
                    (makeQuotaKey (o_TenantID opts) (o_App opts)) (o_TTLSec opts) (o_Version opts)
                    (o_WindowSize opts) computed (o_Computed opts) in
      Ret (set_named (with_pool m p) (<[name := meta]> (named m)), None)
    end
  end.

Definition dc_Create (now : Z) (m : DataCacheManager) (name : byte_string) (opts : CreateOpts)
  : outcome (DataCacheManager * option dcErr) :=
  match named m !! name with
  | Some _ => Ret (m, Some ErrCollectionExists)
  | None =>
    if maxRecords (pool m) <? o_Capacity opts then Ret (m, Some ErrCapacity)
    else
      let capacity := if o_Capacity opts <=? 0 then 1024 else o_Capacity opts in
      if (0 <? o_WindowSize opts) && (capacity <? o_WindowSize opts) then Ret (m, Some ErrWindowSizeExceedsCapacity)
      else
        let growth := if 0 <? o_WindowSize opts then GrowthFixed else o_Growth opts in
        let schema := BakeSchema (o_Fields opts) capacity in
        if maxBufBytes (pool m) <? BufSize schema then Ret (m, Some ErrBufSize)
        else
          match compileComputedFields (o_Fields opts) (o_Computed opts) with
          | inr e => Ret (m, Some e)
          | inl computed => create_claim now m name opts schema capacity growth computed
          end
  end.

Definition dc_Drop (m : DataCacheManager) (name : byte_string) (tenantID : Z) (app : byte_string)
  : outcome (DataCacheManager * option dcErr) :=
  match named m !! name with
  | None => Ret (m, Some ErrCollectionNotFound)
  | Some meta =>
    if bool_decide (QuotaKey meta = makeQuotaKey tenantID app) then
      let m := set_named m (delete name (named m)) in
      p <-- pool_Release (pool m) (PoolIdx meta) ;;
      Ret (mkDCM p (quota_Release (quotas m) tenantID app (BufSize (cm_Schema meta)) 1) (named m), None)
    else Ret (m, Some ErrNotOwner)
  end.

Definition dc_Get (m : DataCacheManager) (name : byte_string) : CollectionMeta + dcErr :=
  match named m !! name with Some meta => inl meta | None => inr ErrCollectionNotFound end.

(** One column of the grown buffer, row by row. *)
Fixpoint copy_rows (old new : byte_string) (oldOff newOff stride : Z) (rows : list Z) : outcome byte_string :=
  match rows with
  | [] => Ret new
  | row :: rows' =>
    bs <-- go_slice old (oldOff + row * stride) (oldOff + row * stride + stride) ;;
    _ <-- go_slice new (newOff + row * stride) (newOff + row * stride + stride) ;;
    copy_rows old (splice new (Z.to_nat (newOff + row * stride)) bs) oldOff newOff stride rows'
  end.

Fixpoint copy_cols (old new : byte_string) (oldRegs : list ColRegion) (newRegs : list ColRegion) (col : Z) (rows : list Z)
  : outcome byte_string :=
  match oldRegs with
  | [] => Ret new
  | oldReg :: oldRegs' =>
    newReg <-- go_index newRegs col ;;
    new <-- copy_rows old new (Offset oldReg) (Offset newReg) (Stride oldReg) rows ;;
    copy_cols old new oldRegs' newRegs (col + 1) rows
  end.

(** The application of a quota key: up to its first zero byte. *)
Fixpoint until_zero (s : byte_string) : byte_string :=
  match s with [] => [] | c :: s' => if c =? 0 then [] else c :: until_zero s' end.

(** The slot with a larger buffer. *)
Definition grow_slot (s : poolSlot) (newSchema : Schema) (newCap : Z) : outcome poolSlot :=
  let a := arena s in
  newBuf <-- alloc_arena_buf (BufSize newSchema) ;;
  newBuf <-- copy_cols (buf a) newBuf (ColRegions (aSchema a)) (ColRegions newSchema) 0 (seqZ 0 (Size a)) ;;
  let '(ix, sp) := if Z.of_nat (length (indices s ++ spare s)) <? newCap
                   then (indices s ++ replicate (Z.to_nat newCap - length (indices s)) 0, [])
                   else reslice (indices s) (spare s) (Z.to_nat newCap) in
  Ret (set_indices (with_arena s (mkArena newBuf newSchema (Size a) newCap (LiveCount a) (freeRows a))) ix sp).

Definition growCollection (m : DataCacheManager) (name : byte_string) (meta : CollectionMeta)
  : outcome (DataCacheManager * option dcErr) :=
  s <-- go_index (slots (pool m)) (PoolIdx meta) ;;
  let oldCap := Cap (arena s) in
  if 0 <? WindowSize meta then Ret (m, Some ErrArenaFull)
  else
    let newCap := i64 (oldCap * 2) in
    let newCap := if (0 <? MaxCap meta) && (MaxCap meta <? newCap) then MaxCap meta else newCap in
    if newCap <=? oldCap then Ret (m, Some ErrArenaFull)
    else
      let newSchema := BakeSchema (Fields (cm_Schema meta)) newCap in
      if maxBufBytes (pool m) <? BufSize newSchema then Ret (m, Some ErrArenaFull)
      else
        let addBytes := i64 (BufSize newSchema - BufSize (cm_Schema meta)) in
        let '(q, err) := if 0 <? addBytes
                         then Reserve (quotas m) (QuotaKey meta).1 (until_zero (QuotaKey meta).2) addBytes 0
                         else (quotas m, None) in
        let m := set_quotas m q in
        match err with
        | Some e => Ret (m, Some e)
        | None =>
          s <-- grow_slot s newSchema newCap ;;
          let m := with_pool m (set_pool_slot (pool m) (PoolIdx meta) s) in
          let newMeta := mkMeta (PoolIdx meta) newSchema (Access meta) (Growth meta) (MaxCap meta) (QuotaKey meta)
                           (TTLSec meta) (cm_Version meta) 0 (ComputedFields meta) (ComputedSrc meta) in
          Ret (set_named m (<[name := newMeta]> (named m)), None)
        end.

(** Running an operation on the arena of a slot. *)
Definition on_arena (m : DataCacheManager) (idx : Z) (f : Arena -> outcome (Arena * option dcErr))
  : outcome (DataCacheManager * option dcErr) :=
  s <-- go_index (slots (pool m)) idx ;;
  r <-- f (arena s) ;;
  Ret (with_pool m (set_pool_slot (pool m) idx (with_arena s r.1)), r.2).

(** An append, repeated once after growing when the arena was full. *)
Definition append_growing (m : DataCacheManager) (name : byte_string) (meta : CollectionMeta)
    (f : Arena -> outcome (Arena * option dcErr)) : outcome (DataCacheManager * option dcErr) :=
  r <-- on_arena m (PoolIdx meta) f ;;
  let '(m, err) := r in
  match err, Growth meta with
  | Some ErrArenaFull, GrowthAuto =>
    g <-- growCollection m name meta ;;
    let '(m, growErr) := g in
    match growErr with
    | None => on_arena m (PoolIdx meta) f
    | Some _ => Ret (m, err)
    end
  | _, _ => Ret (m, err)
  end.

(** The oldest row of a full window makes room. *)
Definition evict (m : DataCacheManager) (meta : CollectionMeta) : outcome DataCacheManager :=
  s <-- go_index (slots (pool m)) (PoolIdx meta) ;;
  if (0 <? WindowSize meta) && (WindowSize meta <=? LiveCount (arena s)) then
    let evictIdx := Z.rem (ringHead s) (WindowSize meta) in
    let s := mkPoolSlot (arena_Delete (arena s) evictIdx) (indices s) (spare s) (inUse s) (ownerKey s) (ttlExpUnix s)
               (ps_name s) (i32 (ringHead s + 1)) in
    Ret (with_pool m (set_pool_slot (pool m) (PoolIdx meta) s))
  else Ret m.

Definition writable (m : DataCacheManager) (name : byte_string) : CollectionMeta + dcErr :=
  match dc_Get m name with
  | inl meta => match Access meta with AccessReadOnly => inr ErrReadOnly | AccessReadWrite => inl meta end
  | inr e => inr e
  end.

(** Values in the order of the fields; a missing field gets [zero] of its kind. *)
Definition vals_of (zero : FieldKind -> any) (fields : list FieldDef) (obj : gmap byte_string any) : list any :=
  (fun f => default (zero (Kind f)) (obj !! fName f)) <$> fields.

Definition zero_batch (k : FieldKind) : any :=
  match k with FieldFloat64 => AFloat 0 | FieldInt64 => AInt 0 | FieldEnum => AUint8 0 | FieldStringN => ABytes [] end.

Fixpoint parse_rows (fields : list FieldDef) (i : Z) (raws : list byte_string) : list (list any) + dcErr :=
  match raws with
  | [] => inl []
  | raw :: raws' =>
    match json_object raw with
    | None => inr (ErrRow i)
    | Some obj =>
      match parse_rows fields (i + 1) raws' with
      | inl rest => inl (vals_of zero_batch fields obj :: rest)
      | inr e => inr e
      end
    end
  end.

(** The rows of a batch into a windowed collection, one by one. *)
Fixpoint append_windowed (m : DataCacheManager) (meta : CollectionMeta) (allVals : list (list any))
  : outcome (DataCacheManager * option dcErr) :=
  match allVals with
  | [] => Ret (m, None)
  | vals :: rest =>
    e <-- evalComputed (ComputedFields meta) vals ;;
    match e with
    | inr e => Ret (m, Some e)
    | inl vals =>
      m <-- evict m meta ;;
      r <-- on_arena m (PoolIdx meta) (fun a => arena_Append a vals) ;;
      let '(m, err) := r in
      match err with
      | Some e => Ret (m, Some e)
      | None => append_windowed m meta rest
      end
    end
  end.

Fixpoint eval_all (computed : list ComputedField) (allVals : list (list any)) : outcome (list (list any) + dcErr) :=
  match allVals with
  | [] => Ret (inl [])
  | vals :: rest =>
    e <-- evalComputed computed vals ;;
    match e with
    | inr e => Ret (inr e)
    | inl vals =>
      r <-- eval_all computed rest ;;
      Ret (match r with inl rest => inl (vals :: rest) | inr e => inr e end)
    end
  end.

Definition AppendJSONBatch (m : DataCacheManager) (name jsonArray : byte_string)
  : outcome (DataCacheManager * option dcErr) :=
  match writable m name with
  | inr e => Ret (m, Some e)
  | inl meta =>
    _ <-- go_index (slots (pool m)) (PoolIdx meta) ;;
    match json_array jsonArray with
    | None => Ret (m, Some ErrJSON)
    | Some [] => Ret (m, None)
    | Some rawRows =>
      match parse_rows (Fields (cm_Schema meta)) 0 rawRows with
      | inr e => Ret (m, Some e)
      | inl allVals =>
        if 0 <? WindowSize meta then append_windowed m meta allVals
        else
          r <-- eval_all (ComputedFields meta) allVals ;;
          match r with
          | inr e => Ret (m, Some e)
          | inl allVals => append_growing m name meta (fun a => AppendBatch a allVals)
          end
      end
    end
  end.

(** ** Access (access.go) *)

Definition zero_append (k : FieldKind) : any :=
  match k with FieldFloat64 => AFloat 0 | FieldInt64 | FieldEnum => AInt 0 | FieldStringN => ABytes [] end.

Definition append_vals (m : DataCacheManager) (name : byte_string) (meta : CollectionMeta) (vals : list any)
  : outcome (DataCacheManager * option dcErr) :=
  e <-- evalComputed (ComputedFields meta) vals ;;
  match e with
  | inr e => Ret (m, Some e)
  | inl vals =>
    m <-- evict m meta ;;
    append_growing m name meta (fun a => arena_Append a vals)
  end.

Definition AppendJSON (m : DataCacheManager) (name jsonObj : byte_string) : outcome (DataCacheManager * option dcErr) :=
  match writable m name with
  | inr e => Ret (m, Some e)
  | inl meta =>
    _ <-- go_index (slots (pool m)) (PoolIdx meta) ;;
    match json_object jsonObj with
    | None => Ret (m, Some ErrJSON)
    | Some obj => append_vals m name meta (vals_of zero_append (Fields (cm_Schema meta)) obj)
    end
  end.

Definition AppendVals (m : DataCacheManager) (name : byte_string) (vals : list any)
  : outcome (DataCacheManager * option dcErr) :=
  match writable m name with
  | inr e => Ret (m, Some e)
  | inl meta =>
    _ <-- go_index (slots (pool m)) (PoolIdx meta) ;;
    append_vals m name meta vals
  end.

Fixpoint findField (fields : list FieldDef) (fieldName : byte_string) (i : Z) : Z :=
  match fields with
  | [] => -1
  | f :: fields' => if bool_decide (fName f = fieldName) then i else findField fields' fieldName (i + 1)
  end.

Definition findFieldIdx (meta : CollectionMeta) (fieldName : byte_string) : Z :=
  findField (Fields (cm_Schema meta)) fieldName 0.

(** A record as the object that is marshalled. *)
Definition read_val (a : Arena) (kind : FieldKind) (colIdx row : Z) : outcome any :=
  match kind with
  | FieldFloat64 => v <-- Float64 a colIdx row ;; Ret (AFloat v)
  | FieldInt64 => v <-- Int64 a colIdx row ;; Ret (AInt v)
  | FieldEnum => v <-- Enum a colIdx row ;; Ret (AUint8 v)
  | FieldStringN => s <-- StringAt a colIdx row ;; Ret (AString (trim_zeros s))
  end.

Fixpoint row_object (a : Arena) (fields : list FieldDef) (colIdx row : Z) (obj : gmap byte_string any)
  : outcome (gmap byte_string any) :=
  match fields with
  | [] => Ret obj
  | f :: fields' =>
    v <-- read_val a (Kind f) colIdx row ;;
    row_object a fields' (colIdx + 1) row (<[fName f := v]> obj)
  end.

(** [buf[pos] = c] *)
Definition put_byte (b : byte_string) (pos c : Z) : outcome byte_string :=
  _ <-- go_index b pos ;; Ret (<[Z.to_nat pos := c]> b).

(** [copy(buf[pos:], bs)] *)
Definition copy_at (b : byte_string) (pos : Z) (bs : byte_string) : outcome byte_string :=
  rest <-- go_slice b pos (Z.of_nat (length b)) ;; Ret (splice b (Z.to_nat pos) (take (length rest) bs)).

Fixpoint serialize_rows (alloc : Z -> byte_string) (a : Arena) (fields : list FieldDef) (rows : list Z)
    (b : byte_string) (pos : Z) : outcome (byte_string * Z) :=
  match rows with
  | [] => Ret (b, pos)
  | row :: rows' =>
    obj <-- row_object a fields 0 row ∅ ;;
    let jsonBytes := default [] (json_marshal obj) in
    let len := Z.of_nat (length jsonBytes) in
    b <-- (if Z.of_nat (length b) <? pos + len + 2 then
             let newBuf := alloc (Z.max (Z.of_nat (length b) * 2) (pos + len + 2)) in
             kept <-- go_slice b 0 pos ;; Ret (splice newBuf 0 (take (length newBuf) kept))
           else Ret b) ;;
    b <-- copy_at b pos jsonBytes ;;
    let pos := pos + len in
    match rows' with
    | [] => Ret (b, pos)
    | _ => b <-- put_byte b pos 44 ;; serialize_rows alloc a fields rows' b (pos + 1)
    end
  end.

Definition serializeArenaJSON (alloc : Z -> byte_string) (a : Arena) (rows : list Z) (fields : list FieldDef)
  : outcome byte_string :=
  let b := alloc (2 + Z.of_nat (length rows) * 100) in
  b <-- put_byte b 0 91 ;;
  r <-- serialize_rows alloc a fields rows b 1 ;;
  let '(b, pos) := r in
  b <-- put_byte b pos 93 ;;
  go_slice b 0 (pos + 1).

(** [QueryAll] and [FilterJSON] up to the serializer, whose buffers come from
    the caller's [alloc]. *)
Definition query_with {R} (serialize : Arena -> list Z -> list FieldDef -> outcome R) (m : DataCacheManager) (name : byte_string)
  : outcome (R + dcErr) :=
  match dc_Get m name with
  | inr e => Ret (inr e)
  | inl meta =>
    s <-- go_index (slots (pool m)) (PoolIdx meta) ;;
    let a := arena s in
    let json rows := r <-- serialize a rows (Fields (cm_Schema meta)) ;; Ret (inl r) in
    if 0 <=? SortByIdx (aSchema a) then
      if Z.of_nat (length (indices s)) <? LiveCount a then Ret (inr ErrLiveCount)
      else rows <-- go_slice (indices s) 0 (LiveCount a) ;; json rows
    else json (u32 <$> live_rows a)
  end.

Definition QueryAll (alloc : Z -> byte_string) (m : DataCacheManager) (name : byte_string) : outcome (byte_string + dcErr) :=
  query_with (serializeArenaJSON alloc) m name.

(** Swapping the ends of a slice until they meet. *)
Definition SortCollection (m : DataCacheManager) (name fieldName : byte_string) (desc : bool)
  : outcome (DataCacheManager * option dcErr) :=
  match dc_Get m name with
  | inr e => Ret (m, Some e)
  | inl meta =>
    let colIdx := findFieldIdx meta fieldName in
    if colIdx <? 0 then Ret (m, Some ErrFieldNotFound)
    else
      p <-- SortBy (pool m) (PoolIdx meta) colIdx ;;
      let m := with_pool m p in
      if desc then
        s <-- go_index (slots p) (PoolIdx meta) ;;
        let n := LiveCount (arena s) in
        if Z.of_nat (length (indices s)) <? n then Ret (m, Some ErrLiveCount)
        else
          rows <-- go_slice (indices s) 0 n ;;
          let s := set_indices s (reverse rows ++ drop (length rows) (indices s)) (spare s) in
          Ret (with_pool m (set_pool_slot p (PoolIdx meta) s), None)
      else Ret (m, None)
  end.

Definition compare_op (op : byte_string) (eq lt gt le ge : bool) : bool :=
  if bool_decide (op = bytes_of "eq") then eq
  else if bool_decide (op = bytes_of "ne") then negb eq
  else if bool_decide (op = bytes_of "lt") then lt
  else if bool_decide (op = bytes_of "gt") then gt
  else if bool_decide (op = bytes_of "lte") then le
  else if bool_decide (op = bytes_of "gte") then ge
  else false.

Definition compareFloat (a b : Z) (op : byte_string) : bool :=
  compare_op op (f64_eqb a b) (f64_ltb a b) (f64_ltb b a) (f64_leb a b) (f64_leb b a).

Definition compareInt (a b : Z) (op : byte_string) : bool :=
  compare_op op (a =? b) (a <? b) (b <? a) (a <=? b) (b <=? a).

Definition compareString (a b : byte_string) (op : byte_string) : bool :=
  compare_op op (bool_decide (a = b)) (bytes_ltb a b) (bytes_ltb b a) (negb (bytes_ltb b a)) (negb (bytes_ltb a b)).

Definition row_matches (a : Arena) (kind : FieldKind) (colIdx : Z) (op compareVal : byte_string) (i : Z) : outcome bool :=
  match kind with
  | FieldFloat64 => actual <-- Float64 a colIdx i ;; Ret (compareFloat actual (ParseFloat compareVal) op)
  | FieldInt64 => actual <-- Int64 a colIdx i ;; Ret (compareInt actual (ParseInt compareVal).1 op)
  | FieldEnum => actual <-- Enum a colIdx i ;; Ret (compareInt actual (ParseInt compareVal).1 op)
  | FieldStringN => actual <-- StringAt a colIdx i ;; Ret (compareString actual compareVal op)
  end.

Fixpoint filter_rows (f : Z -> outcome bool) (rows : list Z) : outcome (list Z) :=
  match rows with
  | [] => Ret []
  | i :: rows' => b <-- f i ;; rest <-- filter_rows f rows' ;; Ret (if b : bool then u32 i :: rest else rest)
  end.

Definition filter_with {R} (serialize : Arena -> list Z -> list FieldDef -> outcome R) (m : DataCacheManager)
    (name fieldName op compareVal : byte_string) : outcome (R + dcErr) :=
  match dc_Get m name with
  | inr e => Ret (inr e)
  | inl meta =>
    let colIdx := findFieldIdx meta fieldName in
    if colIdx <? 0 then Ret (inr ErrFieldNotFound)
    else
      s <-- go_index (slots (pool m)) (PoolIdx meta) ;;
      f <-- go_index (Fields (cm_Schema meta)) colIdx ;;
      let a := arena s in
      rows <-- filter_rows (row_matches a (Kind f) colIdx op compareVal) (live_rows a) ;;
      r <-- serialize a rows (Fields (cm_Schema meta)) ;;
      Ret (inl r)
  end.

Definition FilterJSON (alloc : Z -> byte_string) (m : DataCacheManager) (name fieldName op compareVal : byte_string)
  : outcome (byte_string + dcErr) :=
  filter_with (serializeArenaJSON alloc) m name fieldName op compareVal.

Definition numeric (a : Arena) (kind : FieldKind) (colIdx i : Z) : outcome (Z + dcErr) :=
  match kind with
  | FieldFloat64 => v <-- Float64 a colIdx i ;; Ret (inl v)
  | FieldInt64 => v <-- Int64 a colIdx i ;; Ret (inl (f64_of_int v))
  | FieldEnum => v <-- Enum a colIdx i ;; Ret (inl (f64_of_int v))
  | FieldStringN => Ret (inr ErrAggregateKind)
  end.

Record acc : Type := mkAcc { ac_sum : Z; ac_min : Z; ac_max : Z; ac_count : Z; ac_first : bool }.

Definition acc_add (s : acc) (val : Z) : acc :=
  mkAcc (f64_add (ac_sum s) val)
    (if ac_first s then val else if f64_ltb val (ac_min s) then val else ac_min s)
    (if ac_first s then val else if f64_ltb (ac_max s) val then val else ac_max s)
    (i64 (ac_count s + 1)) false.

Fixpoint aggregate_rows (f : Z -> outcome (Z + dcErr)) (rows : list Z) (s : acc) : outcome (acc + dcErr) :=
  match rows with
  | [] => Ret (inl s)
  | i :: rows' =>
    v <-- f i ;;
    match v with inr e => Ret (inr e) | inl val => aggregate_rows f rows' (acc_add s val) end
  end.

Definition aggregate_result (op : byte_string) (s : acc) : Z + dcErr :=
  if ac_count s =? 0 then
    if bool_decide (op = bytes_of "count") || bool_decide (op = bytes_of "avg") || bool_decide (op = bytes_of "sum")
    then inl f64_zero else inr ErrNoData
  else if bool_decide (op = bytes_of "sum") then inl (ac_sum s)
  else if bool_decide (op = bytes_of "avg") then inl (f64_div (ac_sum s) (f64_of_int (ac_count s)))
  else if bool_decide (op = bytes_of "min") then inl (ac_min s)
  else if bool_decide (op = bytes_of "max") then inl (ac_max s)
  else if bool_decide (op = bytes_of "count") then inl (f64_of_int (ac_count s))
  else inr ErrAggregateOp.

Definition AggregateField (m : DataCacheManager) (name fieldName op : byte_string) : outcome (Z + dcErr) :=
  match dc_Get m name with
  | inr e => Ret (inr e)
  | inl meta =>
    let colIdx := findFieldIdx meta fieldName in
    if colIdx <? 0 then Ret (inr ErrFieldNotFound)
    else
      s <-- go_index (slots (pool m)) (PoolIdx meta) ;;
      f <-- go_index (Fields (cm_Schema meta)) colIdx ;;
      r <-- aggregate_rows (numeric (arena s) (Kind f) colIdx) (live_rows (arena s)) (mkAcc f64_zero f64_zero f64_zero 0 true) ;;
      Ret (match r with inl s => aggregate_result op s | inr e => inr e end)
  end.

Fixpoint trim_rows (a : Arena) (n : Z) (rows : list Z) (count : Z) : Arena :=
  match rows with
  | [] => a
  | i :: rows' =>
    if count <? n then
      if arena_IsLive a i then trim_rows (arena_Delete a i) n rows' (count + 1) else trim_rows a n rows' count
    else a
  end.

Definition TrimOldest (m : DataCacheManager) (name : byte_string) (n : Z) : outcome (DataCacheManager * option dcErr) :=
  match dc_Get m name with
  | inr e => Ret (m, Some e)
  | inl meta => on_arena m (PoolIdx meta) (fun a => Ret (trim_rows a n (seqZ 0 (Size a)) 0, None))
  end.

(** ** Expiry (ttl.go) *)

Definition sweep_slot (now : Z) (m : DataCacheManager) (slotIdx : Z) : outcome DataCacheManager :=
  s <-- go_index (slots (pool m)) slotIdx ;;
  if negb (inUse s) then Ret m
  else if (ttlExpUnix s =? 0) || (now <? ttlExpUnix s) then Ret m
  else
    o <-- decodeOwnerKey (ownerKey s) ;;
    let '(tenantID, app) := o in
    let byteCount := if 0 <? BufSize (aSchema (arena s)) then BufSize (aSchema (arena s)) else 0 in
    let q := quota_Release (quotas m) tenantID app byteCount 1 in
    let collectionName := trim_zeros (ps_name s) in
    let nm := match collectionName with [] => named m | _ => delete collectionName (named m) end in
    p <-- pool_Release (pool m) (u8 slotIdx) ;;
    Ret (mkDCM p q nm).

Fixpoint sweep_from (now : Z) (m : DataCacheManager) (idxs : list Z) : outcome DataCacheManager :=
  match idxs with
  | [] => Ret m
  | i :: idxs' => m <-- sweep_slot now m i ;; sweep_from now m idxs'
  end.

Definition sweepSlots (now : Z) (m : DataCacheManager) : outcome DataCacheManager :=
  sweep_from now m (seqZ 0 (maxSlots (pool m))).

End datacache.
