(* ===== verification/DataCacheTable.v ===== *)
(** * An arena is a table of records

    The byte buffer of an arena read as rows of typed cells: the columns the
    schema lays out do not overlap, a write changes one cell, and growing
    copies every cell.  [table] is what is left of an arena when the layout is
    forgotten: the live rows with their records, and which row comes next. *)

From S2P Require Import Prelude Bytes Float64 Cond DataCache.

Local Open Scope Z_scope.
Local Open Scope rah_scope.

Section table.
Context {P : Platform}.

(** ** The layout *)

Fixpoint total (fs : list FieldDef) : Z := match fs with [] => 0 | f :: fs' => Width f + total fs' end.

(** Where the cell of a column and a row starts. *)
Definition cell_addr (fs : list FieldDef) (cap : Z) (col : nat) (w row : Z) : Z := cap * total (take col fs) + row * w.

Definition cols (fs : list FieldDef) (cap : Z) : list ColRegion :=
  imap (fun i f => mkCol (cap * total (take i fs)) (Width f)) fs.

(** Widths as [BakeSchema] sets them. *)
Definition field_ok (f : FieldDef) : Prop :=
  match Kind f with
  | FieldFloat64 | FieldInt64 => Width f = 8
  | FieldEnum => Width f = 1
  | FieldStringN => 0 <= Width f
  end.

Lemma field_ok_pos f : field_ok f -> 0 <= Width f.
Proof. unfold field_ok. destruct (Kind f); lia. Qed.

Lemma total_nonneg fs : Forall field_ok fs -> 0 <= total fs.
Proof. induction 1 as [|f fs Hf _ IH]; cbn [total]; [lia|]. apply field_ok_pos in Hf. lia. Qed.

Lemma total_app fs fs' : total (fs ++ fs') = total fs + total fs'.
Proof. induction fs as [|f fs IH]; cbn [total app]; lia. Qed.

Lemma total_take fs i f : Forall field_ok fs -> fs !! i = Some f ->
  0 <= total (take i fs) /\ total (take i fs) + Width f <= total fs.
Proof.
  intros Hfs Hf. rewrite <- (take_drop_middle fs i f Hf) at 3. rewrite total_app. cbn [total].
  pose proof (total_nonneg (take i fs)). pose proof (total_nonneg (drop (S i) fs)).
  split; [|assert (0 <= total (drop (S i) fs)); [|lia]];
    (apply total_nonneg; by (apply Forall_take || apply Forall_drop)).
Qed.

(** Columns follow each other. *)
Lemma total_take_lt fs i j f : Forall field_ok fs -> fs !! i = Some f -> (i < j)%nat ->
  total (take i fs) + Width f <= total (take j fs).
Proof.
  intros Hfs Hf Hij. pose proof (total_take (take j fs) i f) as H. rewrite take_take, Nat.min_l in H by lia.
  apply H; [by apply Forall_take|by rewrite lookup_take_lt].
Qed.

Lemma cell_bounds fs cap col f row : Forall field_ok fs -> fs !! col = Some f -> 0 <= row < cap ->
  0 <= cell_addr fs cap col (Width f) row /\ cell_addr fs cap col (Width f) row + Width f <= cap * total fs.
Proof.
  intros Hfs Hf Hr. destruct (total_take fs col f Hfs Hf) as [H0 H1].
  pose proof (field_ok_pos f (Forall_lookup_1 _ _ _ _ Hfs Hf)) as Hw. unfold cell_addr.
  assert (0 <= cap * total (take col fs)) by (apply Z.mul_nonneg_nonneg; lia).
  assert (0 <= row * Width f) by (apply Z.mul_nonneg_nonneg; lia).
  assert (cap * (total (take col fs) + Width f) <= cap * total fs) by (apply Z.mul_le_mono_nonneg_l; lia).
  assert ((row + 1) * Width f <= cap * Width f) by (apply Z.mul_le_mono_nonneg_r; lia). lia.
Qed.

(** Distinct cells do not overlap. *)
Lemma cell_disjoint fs cap col f row col' f' row' : Forall field_ok fs -> fs !! col = Some f -> fs !! col' = Some f' ->
  0 <= row < cap -> 0 <= row' < cap -> col <> col' \/ row <> row' ->
  cell_addr fs cap col (Width f) row + Width f <= cell_addr fs cap col' (Width f') row' \/
  cell_addr fs cap col' (Width f') row' + Width f' <= cell_addr fs cap col (Width f) row.
Proof.
  assert (forall i j f g r s, Forall field_ok fs -> fs !! i = Some f -> fs !! j = Some g -> 0 <= r < cap -> 0 <= s < cap ->
    (i < j)%nat -> cell_addr fs cap i (Width f) r + Width f <= cell_addr fs cap j (Width g) s) as Hcol.
  { intros i j g h r s Hfs Hi Hj Hr Hs Hij. pose proof (total_take_lt fs i j g Hfs Hi Hij).
    pose proof (field_ok_pos g (Forall_lookup_1 _ _ _ _ Hfs Hi)). pose proof (field_ok_pos h (Forall_lookup_1 _ _ _ _ Hfs Hj)).
    unfold cell_addr. assert (cap * (total (take i fs) + Width g) <= cap * total (take j fs)) by (apply Z.mul_le_mono_nonneg_l; lia).
    assert ((r + 1) * Width g <= cap * Width g) by (apply Z.mul_le_mono_nonneg_r; lia).
    assert (0 <= s * Width h) by (apply Z.mul_nonneg_nonneg; lia). lia. }
  intros Hfs Hf Hf' Hr Hr' Hne. destruct (decide (col = col')) as [->|Hc].
  - replace f' with f in * by congruence. pose proof (field_ok_pos f (Forall_lookup_1 _ _ _ _ Hfs Hf)) as Hw. unfold cell_addr.
    destruct Hne as [|Hne]; [done|]. destruct (Z_lt_le_dec row row').
    + left. assert ((row + 1) * Width f <= row' * Width f) by (apply Z.mul_le_mono_nonneg_r; lia). lia.
    + right. assert ((row' + 1) * Width f <= row * Width f) by (apply Z.mul_le_mono_nonneg_r; lia). lia.
  - destruct (decide (col < col')%nat); [left|right]; apply Hcol; done || lia.
Qed.

Lemma bake_cols_spec fs cap pos : Forall field_ok fs -> 0 <= cap -> 0 <= pos -> pos + cap * total fs < 2 ^ 63 ->
  bake_cols fs cap pos = (imap (fun i f => mkCol (pos + cap * total (take i fs)) (Width f)) fs, pos + cap * total fs).
Proof.
  revert pos. induction fs as [|f fs IH]; intros pos Hfs Hc Hp Hb; cbn [bake_cols total].
  { cbn. f_equal. lia. }
  apply Forall_cons in Hfs as [Hf Hfs]. pose proof (field_ok_pos f Hf). pose proof (total_nonneg fs Hfs). cbn [total] in Hb.
  assert (0 <= cap * Width f) by (apply Z.mul_nonneg_nonneg; lia). assert (0 <= cap * total fs) by (apply Z.mul_nonneg_nonneg; lia).
  rewrite (wraps_small 64 (Width f * cap)) by lia. rewrite wraps_small by lia. rewrite IH by (done || lia).
  cbn [imap]. f_equal; [|lia]. f_equal; [f_equal; cbn [take total]; lia|].
  apply imap_ext. intros i g _. cbn [take total Nat.add compose]. f_equal. lia.
Qed.

(** The layout of [BakeSchema]. *)
Lemma BakeSchema_spec fields cap : let fs := set_width <$> fields in Forall field_ok fs -> 0 <= cap -> cap * total fs < 2 ^ 63 ->
  BakeSchema fields cap = mkSchema fs (cols fs cap) (-1) (cap * total fs).
Proof.
  intros fs Hfs Hc Hb. unfold BakeSchema. change (set_width <$> fields) with fs. cbv zeta.
  rewrite (bake_cols_spec fs cap 0 Hfs Hc) by lia. reflexivity.
Qed.

Lemma set_width_idem f : field_ok f -> set_width f = f.
Proof. destruct f as [n k w]. unfold field_ok, set_width. cbn. destruct k; intros; f_equal; lia. Qed.

(** ** Cells *)

Definition cell (b : byte_string) (addr w : Z) : byte_string := take (Z.to_nat w) (drop (Z.to_nat addr) b).

(** The bytes of a stored value. *)
Definition enc (v : any) : byte_string :=
  match v with
  | AFloat b => to_le8 b
  | AInt n => to_le8 n
  | AUint8 n => [n]
  | ABytes s => s
  | AString s => s
  | AOther => []
  end.

(** What a column keeps of a value; [None] for a value of the wrong type. *)
Definition stored (f : FieldDef) (v : any) : option any :=
  match Kind f, v with
  | FieldFloat64, AFloat b => Some (AFloat (u64 b))
  | FieldInt64, AInt n => Some (AInt (i64 n))
  | FieldInt64, AFloat b => Some (AInt (int64_of_float b))
  | FieldEnum, AUint8 n => Some (AUint8 n)
  | FieldEnum, AFloat b => Some (AUint8 (uint8_of_float b))
  | FieldEnum, AInt n => Some (AUint8 (u8 n))
  | FieldStringN, ABytes s => Some (ABytes (pad (Z.to_nat (Width f)) s))
  | FieldStringN, AString s => Some (ABytes (pad (Z.to_nat (Width f)) s))
  | _, _ => None
  end.

Fixpoint store_vals (fs : list FieldDef) (vals : list any) : option (list any) :=
  match fs, vals with
  | [], [] => Some []
  | f :: fs', v :: vals' => sv ← stored f v; rest ← store_vals fs' vals'; Some (sv :: rest)
  | _, _ => None
  end.

(** A value as a column holds it. *)
Definition val_ok (f : FieldDef) (v : any) : Prop :=
  match Kind f, v with
  | FieldFloat64, AFloat b => 0 <= b < 2 ^ 64
  | FieldInt64, AInt n => - 2 ^ 63 <= n < 2 ^ 63
  | FieldEnum, AUint8 _ => True
  | FieldStringN, ABytes s => Z.of_nat (length s) = Width f
  | _, _ => False
  end.

Lemma pad_length n s : length (pad n s) = n.
Proof. unfold pad. rewrite length_take, length_app, length_replicate. lia. Qed.

Lemma int64_of_float_range b : - 2 ^ 63 <= int64_of_float b < 2 ^ 63.
Proof.
  unfold int64_of_float. pose proof (wraps_bound 64 (convert_int64 b) ltac:(lia)). destruct (f64_trunc b) as [n|]; [|lia].
  destruct (Z.leb_spec (- 2 ^ 63) n), (Z.ltb_spec n (2 ^ 63)); cbn [andb]; lia.
Qed.

Lemma stored_ok f v sv : field_ok f -> stored f v = Some sv -> val_ok f sv.
Proof.
  unfold stored, val_ok, field_ok. destruct (Kind f) eqn:E, v; intros Hf [= <-]; rewrite ?pad_length;
    auto using int64_of_float_range; try lia; try apply (wrapu_bound 64); try apply (wraps_bound 64); lia.
Qed.

Lemma enc_length f v : field_ok f -> val_ok f v -> Z.of_nat (length (enc v)) = Width f.
Proof. unfold field_ok, val_ok. destruct (Kind f), v; intros Hf Hv; try done; cbn [enc]; rewrite ?to_le8_length; done || lia. Qed.

Lemma store_vals_ok fs vals svs : Forall field_ok fs -> store_vals fs vals = Some svs -> Forall2 val_ok fs svs.
Proof.
  revert vals svs. induction fs as [|f fs IH]; intros [|v vals] svs Hfs; cbn [store_vals]; try done; [by intros [= <-]|].
  apply Forall_cons in Hfs as [Hf Hfs]. destruct (stored f v) as [sv|] eqn:E; [|done]. cbn.
  destruct (store_vals fs vals) as [rest|] eqn:Er; [|done]. cbn. intros [= <-]. constructor; [by eapply stored_ok|by eapply IH].
Qed.

(** Little-endian words read back. *)
Lemma to_le8_bytes v : to_le8 v = (fun i => (u64 v / 2 ^ (8 * i)) mod 256) <$> [0; 1; 2; 3; 4; 5; 6; 7].
Proof. unfold to_le8. change (seqZ 0 8) with [0; 1; 2; 3; 4; 5; 6; 7]. cbn [fmap list_fmap]. by rewrite !u8_shiftr by lia. Qed.

Lemma from_to_le8 v : from_le (to_le8 v) = u64 v.
Proof.
  rewrite to_le8_bytes. pose proof (wrapu_bound 64 v ltac:(lia)) as Hb. set (u := u64 v) in *. clearbody u. cbn [fmap list_fmap].
  rewrite !from_le_byte by (repeat constructor; apply Z.mod_pos_bound; lia). cbn [from_le].
  change (2 ^ (8 * 0)) with 1. change (2 ^ (8 * 1)) with 256. change (2 ^ (8 * 2)) with 65536. change (2 ^ (8 * 3)) with 16777216.
  change (2 ^ (8 * 4)) with 4294967296. change (2 ^ (8 * 5)) with 1099511627776. change (2 ^ (8 * 6)) with 281474976710656.
  change (2 ^ (8 * 7)) with 72057594037927936. div_lia.
Qed.

Lemma i64_u64 n : i64 (u64 n) = i64 n.
Proof. unfold wraps, wrapu. f_equal. rewrite Z.add_mod_idemp_l by done. done. Qed.

Lemma to_le8_u64 n : to_le8 (u64 n) = to_le8 n.
Proof. unfold to_le8. by rewrite wrapu_idem by lia. Qed.

Lemma to_le8_i64 n : to_le8 (i64 n) = to_le8 n.
Proof.
  unfold to_le8. replace (u64 (i64 n)) with (u64 n); [done|]. unfold wrapu, wraps.
  rewrite <- Zminus_mod_idemp_r. rewrite Zminus_mod_idemp_l. rewrite Zminus_mod_idemp_r. f_equal. lia.
Qed.

(** ** Reading and writing cells *)

Record shape (a : Arena) (fs : list FieldDef) (cap : Z) : Prop := mkShape {
  sh_fields : Fields (aSchema a) = fs;
  sh_cols : ColRegions (aSchema a) = cols fs cap;
  sh_size : BufSize (aSchema a) = cap * total fs;
  sh_cap : Cap a = cap;
  sh_ok : Forall field_ok fs;
  sh_nonneg : 0 <= cap;
  sh_buf : cap * total fs <= Z.of_nat (length (buf a)) }.

Lemma go_slice_cell b addr w : 0 <= addr -> 0 <= w -> addr + w <= Z.of_nat (length b) -> go_slice b addr (addr + w) = Ret (cell b addr w).
Proof.
  intros Ha Hw Hl. unfold go_slice. rewrite !(proj2 (Z.leb_le _ _)) by lia. cbn [andb]. unfold cell.
  by replace (addr + w - addr) with w by lia.
Qed.

Lemma cell_length b addr w : 0 <= addr -> 0 <= w -> addr + w <= Z.of_nat (length b) -> Z.of_nat (length (cell b addr w)) = w.
Proof. intros Ha Hw Hl. unfold cell. rewrite length_take, length_drop. lia. Qed.

Lemma cell_splice_same b addr bs : 0 <= addr -> addr + Z.of_nat (length bs) <= Z.of_nat (length b) ->
  cell (splice b (Z.to_nat addr) bs) addr (Z.of_nat (length bs)) = bs.
Proof. intros Ha Hl. unfold cell. rewrite Nat2Z.id. apply read_splice_same. lia. Qed.

Lemma cell_splice_other b addr bs addr' w : 0 <= addr -> addr + Z.of_nat (length bs) <= Z.of_nat (length b) -> 0 <= addr' -> 0 <= w ->
  addr + Z.of_nat (length bs) <= addr' \/ addr' + w <= addr -> cell (splice b (Z.to_nat addr) bs) addr' w = cell b addr' w.
Proof. intros Ha Hl Ha' Hw Hd. unfold cell. apply read_splice_other; lia. Qed.

(** [SetStringAt] zeroes the slot and copies what fits. *)
Lemma splice_pad b off v n : (off + n <= length b)%nat ->
  splice (splice b off (replicate n 0)) off (take (length v `min` n) v) = splice b off (pad n v).
Proof.
  intros Hl. apply list_eq. intros i. set (m := (length v `min` n)%nat).
  assert (length (take m v) = m) as Hm by (rewrite length_take; lia).
  rewrite lookup_splice by (rewrite Hm, length_splice; rewrite ?length_replicate; lia).
  rewrite Hm. rewrite !lookup_splice by (rewrite ?length_replicate, ?pad_length; lia).
  rewrite length_replicate, pad_length. unfold pad.
  destruct (decide (off <= i < off + m)%nat) as [H1|H1].
  - rewrite decide_True by lia. rewrite lookup_take_lt by lia. rewrite lookup_take_lt by lia.
    rewrite lookup_app_l by lia. done.
  - destruct (decide (off <= i < off + n)%nat) as [H2|H2]; [|done].
    rewrite lookup_take_lt by lia. rewrite lookup_app_r by lia. rewrite !lookup_replicate_2 by lia. done.
Qed.

Section shaped.
Context (a : Arena) (fs : list FieldDef) (cap : Z) (H : shape a fs cap).
Context (col : nat) (f : FieldDef) (Hf : fs !! col = Some f) (row : Z) (Hrow : 0 <= row < cap).

Abbreviation addr := (cell_addr fs cap col (Width f) row).

Lemma sh_addr : 0 <= addr /\ addr + Width f <= Z.of_nat (length (buf a)) /\ 0 <= Width f.
Proof using All.
  destruct (cell_bounds fs cap col f row (sh_ok _ _ _ H) Hf Hrow). pose proof (sh_buf _ _ _ H).
  pose proof (field_ok_pos f (Forall_lookup_1 _ _ _ _ (sh_ok _ _ _ H) Hf)). lia.
Qed.

Lemma col_region : go_index (ColRegions (aSchema a)) (Z.of_nat col) = Ret (mkCol (cap * total (take col fs)) (Width f)).
Proof using H Hf. apply go_index_nat. rewrite (sh_cols _ _ _ H). unfold cols. by rewrite list_lookup_imap, Hf. Qed.

(** Every store is the encoding of the stored value spliced at its address. *)
Lemma write_val_ok v : write_val a (Kind f) (Z.of_nat col) row v =
  match stored f v with
  | Some sv => Ret (inl (set_buf a (splice (buf a) (Z.to_nat addr) (enc sv))))
  | None => Ret (inr ErrBadType)
  end.
Proof using All.
  destruct sh_addr as (H0 & H1 & H2). pose proof (Forall_lookup_1 _ _ _ _ (sh_ok _ _ _ H) Hf) as Hok. unfold field_ok in Hok.
  assert (forall bs, Z.of_nat (length bs) = Width f ->
    store (buf a) (cap * total (take col fs) + row * Width f) bs = Ret (splice (buf a) (Z.to_nat addr) bs)) as Hst.
  { intros bs Hb. unfold store. rewrite Hb, go_slice_cell by (unfold cell_addr in *; lia). done. }
  assert (forall s, SetStringAt a (Z.of_nat col) row s = Ret (set_buf a (splice (buf a) (Z.to_nat addr) (pad (Z.to_nat (Width f)) s)))) as Hstr.
  { intros s. unfold SetStringAt. rewrite col_region. cbn [obind Offset Stride]. fold addr. rewrite go_slice_cell by done. cbn [obind].
    rewrite <- splice_pad by lia. repeat f_equal. lia. }
  assert (Kind f = FieldEnum -> forall n, SetEnum a (Z.of_nat col) row n = Ret (set_buf a (splice (buf a) (Z.to_nat addr) [n]))) as Hen.
  { intros E n. rewrite E in Hok. unfold SetEnum. rewrite col_region. cbn [obind Offset].
    pose proof (Hst [n]) as Hs. rewrite Hok, Z.mul_1_r in Hs. rewrite Hok, Hs by done. done. }
  assert (Width f = 8 -> forall n, SetInt64 a (Z.of_nat col) row n = Ret (set_buf a (splice (buf a) (Z.to_nat addr) (to_le8 n)))) as Hint.
  { intros E n. unfold SetInt64. rewrite col_region. cbn [obind Offset]. pose proof (Hst (to_le8 n)) as Hs.
    rewrite E in Hs. rewrite E, Hs by (by rewrite to_le8_length). done. }
  unfold write_val, stored. destruct (Kind f) eqn:E, v; try done; rewrite ?Hstr, ?(Hen eq_refl); try done;
    fold (SetInt64 a (Z.of_nat col) row); rewrite ?(Hint Hok); cbn [obind enc]; rewrite ?to_le8_u64, ?to_le8_i64; try done.
Qed.

(** Reading back. *)
Lemma read_cell v : val_ok f v -> cell (buf a) addr (Width f) = enc v ->
  match v with
  | AFloat b => Float64 a (Z.of_nat col) row = Ret b
  | AInt n => Int64 a (Z.of_nat col) row = Ret n
  | AUint8 n => Enum a (Z.of_nat col) row = Ret n
  | ABytes s => StringAt a (Z.of_nat col) row = Ret s
  | _ => False
  end.
Proof using All.
  destruct sh_addr as (H0 & H1 & H2). intros Hv Hc. unfold val_ok in Hv.
  pose proof (Forall_lookup_1 _ _ _ _ (sh_ok _ _ _ H) Hf) as Hok. unfold field_ok in Hok.
  destruct (Kind f) eqn:E, v as [b|n|n|s|s|]; try done.
  - unfold Float64. rewrite col_region. cbn [obind Offset]. unfold load. rewrite Hok in *. fold (cell_addr fs cap col 8 row).
    rewrite go_slice_cell by lia. cbn [obind]. rewrite Hc. cbn [enc]. rewrite from_to_le8. by rewrite wrapu_small.
  - unfold Int64. rewrite col_region. cbn [obind Offset]. unfold load. rewrite Hok in *. fold (cell_addr fs cap col 8 row).
    rewrite go_slice_cell by lia. cbn [obind]. rewrite Hc. cbn [enc]. rewrite from_to_le8, i64_u64. by rewrite wraps_small by lia.
  - unfold StringAt. rewrite col_region. cbn [obind Offset Stride]. fold addr. by rewrite go_slice_cell, Hc by lia.
  - unfold Enum. rewrite col_region. cbn [obind Offset]. rewrite Hok in *. unfold cell_addr in *. rewrite Z.mul_1_r in *.
    apply go_index_Z; [done|]. apply (f_equal (fun l => l !! 0%nat)) in Hc. unfold cell in Hc. cbn in Hc.
    rewrite lookup_take_lt, lookup_drop in Hc by lia. by rewrite Nat.add_0_r in Hc.
Qed.

End shaped.

(** ** Rows *)

Abbreviation cell_of b fs cap col f row := (cell b (cell_addr fs cap col (Width f) row) (Width f)).

Definition row_holds (b : byte_string) (fs : list FieldDef) (cap row : Z) (rec : list any) : Prop :=
  Forall2 val_ok fs rec /\
  forall col f v, fs !! col = Some f -> rec !! col = Some v -> cell_of b fs cap col f row = enc v.

(** Every cell outside row [row] is the same in both buffers. *)
Definition rows_kept (b b' : byte_string) (fs : list FieldDef) (cap : Z) (changed : Z -> Prop) : Prop :=
  forall col f row', fs !! col = Some f -> 0 <= row' < cap -> ~ changed row' -> cell_of b' fs cap col f row' = cell_of b fs cap col f row'.

Lemma row_holds_kept b b' fs cap (ch : Z -> Prop) row rec : rows_kept b b' fs cap ch -> 0 <= row < cap -> ~ ch row ->
  row_holds b fs cap row rec -> row_holds b' fs cap row rec.
Proof. intros Hk Hr Hc [Ht Hv]. split; [done|]. intros col f v Hf Hl. rewrite (Hk col f row Hf Hr Hc). by apply Hv. Qed.

Lemma shape_set_buf a fs cap b : shape a fs cap -> length b = length (buf a) -> shape (set_buf a b) fs cap.
Proof. intros [H1 H2 H3 H4 H5 H6 H7] Hl. constructor; try done. cbn [buf set_buf]. by rewrite Hl. Qed.

Lemma write_vals_ok vals : forall a fs cap row n, shape a fs cap -> 0 <= row < cap -> (n + length vals = length fs)%nat ->
  exists b' err, write_vals a (Z.of_nat n) row vals = Ret (set_buf a b', err) /\ length b' = length (buf a) /\
    (forall col f row', fs !! col = Some f -> 0 <= row' < cap -> row' <> row \/ (col < n)%nat ->
       cell_of b' fs cap col f row' = cell_of (buf a) fs cap col f row') /\
    match store_vals (drop n fs) vals with
    | Some svs => err = None /\ forall k f v, fs !! (n + k)%nat = Some f -> svs !! k = Some v -> cell_of b' fs cap (n + k) f row = enc v
    | None => err = Some ErrBadType
    end.
Proof.
  induction vals as [|v vals IH]; intros a fs cap row n Hs Hr Hn; cbn [length] in Hn.
  { exists (buf a), None. rewrite drop_ge by lia. cbn. destruct a. by split_and!. }
  destruct (lookup_lt_is_Some_2 fs n) as [f Hf]; [lia|]. cbn [write_vals].
  rewrite (sh_fields _ _ _ Hs), (go_index_nat _ _ _ Hf). cbn [obind]. rewrite (write_val_ok a fs cap Hs n f Hf row Hr).
  rewrite (drop_S fs f n Hf). cbn [store_vals].
  destruct (stored f v) as [sv|] eqn:Esv; cbn [obind mbind option_bind]; [|exists (buf a), (Some ErrBadType); destruct a; by split_and!].
  pose proof (Forall_lookup_1 _ _ _ _ (sh_ok _ _ _ Hs) Hf) as Hok.
  assert (Z.of_nat (length (enc sv)) = Width f) as Hlen by (apply enc_length; [done|by eapply stored_ok]).
  destruct (sh_addr a fs cap Hs n f Hf row Hr) as (A0 & A1 & A2). set (b1 := splice _ _ _).
  assert (length b1 = length (buf a)) as Hb1 by (apply length_splice; lia).
  destruct (IH (set_buf a b1) fs cap row (S n)) as (b' & err & Ew & Hl & Hk & Hres); [by apply shape_set_buf|done|lia|].
  cbn [buf set_buf aSchema] in *. exists b', err. replace (Z.of_nat n + 1) with (Z.of_nat (S n)) by lia. rewrite Ew. clear Ew.
  assert (forall col g row', fs !! col = Some g -> 0 <= row' < cap -> row' <> row \/ col <> n ->
    cell_of b1 fs cap col g row' = cell_of (buf a) fs cap col g row') as Hfr.
  { intros col g row' Hg Hr' Hne. pose proof (cell_disjoint fs cap n f row col g row' (sh_ok _ _ _ Hs) Hf Hg Hr Hr') as Hd.
    destruct (sh_addr a fs cap Hs col g Hg row' Hr'). apply cell_splice_other; try lia; rewrite Hlen; intuition lia. }
  split_and!; [done|lia| |].
  - intros col g row' Hg Hr' Hne. rewrite Hk by (done || lia). apply Hfr; done || lia.
  - destruct (store_vals (drop (S n) fs) vals) as [svs|]; cbn; [|done]. destruct Hres as [-> Hres]. split; [done|].
    intros [|k] g w Hg Hw.
    + rewrite Nat.add_0_r in *. replace g with f by congruence. injection Hw as <-. rewrite Hk by (done || lia).
      pose proof (cell_splice_same (buf a) (cell_addr fs cap n (Width f) row) (enc sv)) as Hc. rewrite Hlen in Hc. apply Hc; lia.
    + replace (n + S k)%nat with (S n + k)%nat in * by lia. by apply Hres.
Qed.

(** What a row takes: a record, or why not. *)
Definition store_row (fs : list FieldDef) (vals : list any) : list any + dcErr :=
  if Nat.eqb (length vals) (length fs) then match store_vals fs vals with Some r => inl r | None => inr ErrBadType end
  else inr ErrFieldCount.

Definition err_of {A} (r : A + dcErr) : option dcErr := match r with inl _ => None | inr e => Some e end.

Lemma writeRow_ok a fs cap row vals : shape a fs cap -> 0 <= row < cap ->
  exists b', writeRow a row vals = Ret (set_buf a b', err_of (store_row fs vals)) /\ length b' = length (buf a) /\
    rows_kept (buf a) b' fs cap (eq row) /\ (forall rec, store_row fs vals = inl rec -> row_holds b' fs cap row rec).
Proof.
  intros Hs Hr. unfold writeRow, store_row. rewrite (sh_fields _ _ _ Hs). destruct (Nat.eqb_spec (length vals) (length fs)) as [Hl|Hl].
  - destruct (write_vals_ok vals a fs cap row 0 Hs Hr ltac:(lia)) as (b' & err & Ew & Hlen & Hk & Hres). change (Z.of_nat 0) with 0 in Ew.
    exists b'. rewrite Ew. rewrite drop_0 in Hres. destruct (store_vals fs vals) as [svs|] eqn:E.
    + destruct Hres as [-> Hres]. split_and!; [done|done| |].
      * intros col f row' Hf Hr' Hne. apply Hk; [done|done|]. left. by intros ->.
      * intros rec [= <-]. split; [apply (store_vals_ok fs vals); [apply (sh_ok _ _ _ Hs)|done]|]. intros col f v Hf Hv. by apply Hres.
    + subst err. split_and!; [done|done| |done]. intros col f row' Hf Hr' Hne. apply Hk; [done|done|]. left. by intros ->.
  - exists (buf a). destruct a. by split_and!.
Qed.

(** ** Tables *)

Record table : Type := mkTable {
  t_fields : list FieldDef; t_cap : Z; t_size : Z; t_free : list Z; t_rows : gmap Z (list any) }.

Definition set_rows (t : table) (size : Z) (fr : list Z) (rows : gmap Z (list any)) : table :=
  mkTable (t_fields t) (t_cap t) size fr rows.

Definition t_live (t : table) : list Z := base.filter (fun r => is_Some (t_rows t !! r)) (seqZ 0 (t_size t)).

Definition t_count (t : table) : Z := t_size t - Z.of_nat (length (t_free t)).

(** Well-formed, with the rows [rs] taken but not yet written. *)
Record table_pend (rs : list Z) (t : table) : Prop := mkTableOk {
  to_fields : Forall field_ok (t_fields t);
  to_total : 0 < total (t_fields t);
  to_cap : 0 <= t_cap t;
  to_bytes : t_cap t * total (t_fields t) < 2 ^ 31;
  to_size : 0 <= t_size t <= t_cap t;
  to_nodup : NoDup (t_free t ++ rs);
  to_free : forall r, r ∈ t_free t ++ rs -> 0 <= r < t_size t;
  to_dom : forall r, is_Some (t_rows t !! r) <-> 0 <= r < t_size t /\ r ∉ t_free t ++ rs }.

Definition table_ok (t : table) : Prop := table_pend [] t.

Record arena_rel (a : Arena) (t : table) : Prop := mkArenaRel {
  ar_shape : shape a (t_fields t) (t_cap t);
  ar_size : Size a = t_size t;
  ar_free : freeRows a = t_free t;
  ar_live : LiveCount a = t_count t;
  ar_rows : forall r rec, t_rows t !! r = Some rec -> row_holds (buf a) (t_fields t) (t_cap t) r rec }.

(** [n] rows: the freed ones first, the last freed before the others. *)
Definition t_alloc (t : table) (n : nat) : table * option (list Z) :=
  let k := (n `min` length (t_free t))%nat in
  let reused := take k (reverse (t_free t)) in
  let rest := take (length (t_free t) - k) (t_free t) in
  let fresh := Z.of_nat (n - k) in
  if bool_decide (0 < fresh) && (t_cap t <? t_size t + fresh) then (set_rows t (t_size t) (rest ++ reused) (t_rows t), None)
  else (set_rows t (t_size t + fresh) rest (t_rows t), Some (reused ++ seqZ (t_size t) fresh)).

Definition t_append (t : table) (vals : list any) : table * option dcErr :=
  match t_alloc t 1 with
  | (t', Some [r]) =>
    match store_row (t_fields t) vals with
    | inl rec => (set_rows t' (t_size t') (t_free t') (<[r := rec]> (t_rows t)), None)
    | inr e => (set_rows t' (t_size t') (t_free t' ++ [r]) (t_rows t), Some e)
    end
  | (t', _) => (t', Some ErrArenaFull)
  end.

(** The records of a batch, or the first row that has none. *)
Fixpoint store_rows (fs : list FieldDef) (i : Z) (allVals : list (list any)) : list (list any) + Z * dcErr :=
  match allVals with
  | [] => inl []
  | vals :: rest =>
    match store_row fs vals with
    | inr e => inr (i, e)
    | inl rec => match store_rows fs (i + 1) rest with inl recs => inl (rec :: recs) | inr e => inr e end
    end
  end.

Definition t_append_batch (t : table) (allVals : list (list any)) : table * option dcErr :=
  match allVals with
  | [] => (t, None)
  | _ =>
    match list_find (fun vals => length vals <> length (t_fields t)) allVals with
    | Some (i, _) => (t, Some (ErrBatchFieldCount (Z.of_nat i)))
    | None =>
      match t_alloc t (length allVals) with
      | (t', Some rs) =>
        match store_rows (t_fields t) 0 allVals with
        | inl recs => (set_rows t' (t_size t') (t_free t') (list_to_map (zip rs recs) ∪ t_rows t), None)
        | inr (i, e) => (set_rows t' (t_size t') (t_free t' ++ rs) (t_rows t), Some (ErrBatchRow i e))
        end
      | (t', None) => (t', Some ErrArenaFull)
      end
    end
  end.

Definition t_delete (t : table) (r : Z) : table :=
  match t_rows t !! r with
  | Some _ => set_rows t (t_size t) (t_free t ++ [r]) (delete r (t_rows t))
  | None => t
  end.

(** The first [n] live rows. *)
Definition t_trim (t : table) (n : Z) : table := foldl t_delete t (take (Z.to_nat n) (t_live t)).

Definition t_grow (t : table) (cap : Z) : table := mkTable (t_fields t) cap (t_size t) (t_free t) (t_rows t).

End table.
