(* ===== verification/DataCacheArena.v ===== *)
(** * The operations of an arena refine those of a table *)

From S2P Require Import Prelude Bytes Float64 Cond DataCache DataCacheTable.

Local Open Scope Z_scope.
Local Open Scope rah_scope.

Section arena.
Context {P : Platform}.

Abbreviation cell_of b fs cap col f row := (cell b (cell_addr fs cap col (Width f) row) (Width f)).

Lemma pop_rows_spec n fr : let k := (n `min` length fr)%nat in
  pop_rows n fr = (take k (reverse fr), take (length fr - k) fr).
Proof.
  revert fr. induction n as [|n IH]; intros fr; cbn [pop_rows].
  - rewrite Nat.sub_0_r. by rewrite firstn_all.
  - destruct fr as [|x fr _] using rev_ind; [done|]. rewrite last_snoc. rewrite length_app. cbn [length].
    replace (length fr + 1 - 1)%nat with (length fr) by lia. rewrite take_app_length. rewrite IH. cbv zeta.
    replace (S n `min` (length fr + 1))%nat with (S (n `min` length fr)) by lia. rewrite reverse_app. cbn [reverse app take].
    f_equal. rewrite take_app_le by lia. f_equal. lia.
Qed.

Lemma t_cap_small rs t : table_pend rs t -> 0 <= t_cap t < 2 ^ 31.
Proof.
  intros H. pose proof (to_cap _ _ H). pose proof (to_bytes _ _ H). pose proof (to_total _ _ H).
  assert (t_cap t * 1 <= t_cap t * total (t_fields t)) by (apply Z.mul_le_mono_nonneg_l; lia). lia.
Qed.

(** ** Allocation *)

Lemma free_length rs t : table_pend rs t -> Z.of_nat (length (t_free t)) + Z.of_nat (length rs) <= t_size t.
Proof.
  intros H. pose proof (to_nodup _ _ H) as Hnd. pose proof (to_size _ _ H).
  assert (length (t_free t ++ rs) <= length (seqZ 0 (t_size t)))%nat as L; [|rewrite length_app, length_seqZ in L; lia].
  apply NoDup_incl_length; [by apply NoDup_ListNoDup|]. intros r Hr%list_elem_of_In. apply list_elem_of_In, elem_of_seqZ.
  pose proof (to_free _ _ H r Hr). lia.
Qed.

Lemma t_alloc_fields t n : t_fields (t_alloc t n).1 = t_fields t /\ t_cap (t_alloc t n).1 = t_cap t /\ t_rows (t_alloc t n).1 = t_rows t.
Proof. unfold t_alloc. by destruct (bool_decide _ && _). Qed.

Lemma t_alloc_ok t n : table_ok t ->
  match t_alloc t n with
  | (t', Some rs) => table_pend rs t' /\ length rs = n
  | (t', None) => table_ok t'
  end.
Proof.
  intros H. destruct H as [Hf Ht Hc Hb Hs Hn Hr Hd]. rewrite app_nil_r in *. unfold t_alloc. set (k := (n `min` length (t_free t))%nat).
  set (m := (length (t_free t) - k)%nat). assert (take k (reverse (t_free t)) = reverse (drop m (t_free t))) as Hre.
  { rewrite <- (take_drop m (t_free t)) at 1. rewrite reverse_app. rewrite take_app_le by (rewrite length_reverse, length_drop; lia).
    apply take_ge. rewrite length_reverse, length_drop. lia. }
  rewrite Hre. assert (take m (t_free t) ++ reverse (drop m (t_free t)) ≡ₚ t_free t) as Hp.
  { rewrite <- (take_drop m (t_free t)) at 3. by rewrite reverse_Permutation. }
  assert (forall r, r ∈ take m (t_free t) ++ reverse (drop m (t_free t)) <-> r ∈ t_free t) as Hin by (intros; by rewrite Hp).
  destruct (bool_decide _ && _) eqn:E.
  - constructor; cbn; rewrite ?app_nil_r; try done.
    + by rewrite Hp.
    + intros r Hr'. apply Hr. by apply Hin.
    + intros r. rewrite Hd. by rewrite Hin.
  - set (fresh := Z.of_nat (n - k)) in *. assert (0 <= fresh /\ t_size t + fresh <= t_cap t) as Hfr.
    { assert (0 <= fresh) by (unfold fresh; lia). destruct (bool_decide_reflect (0 < fresh)), (Z.ltb_spec (t_cap t) (t_size t + fresh)); cbn in E; try done; lia. }
    assert (forall r, r ∈ seqZ (t_size t) fresh <-> t_size t <= r < t_size t + fresh) as Hsq by (intros; rewrite elem_of_seqZ; lia).
    split; [constructor; cbn|]; rewrite ?app_assoc; try done; try lia.
    + apply NoDup_app. split_and!; [by rewrite Hp| |apply NoDup_seqZ]. intros r Hr1 Hr2%Hsq. apply Hin, Hr in Hr1. lia.
    + intros r [Hr1|Hr2%Hsq]%elem_of_app; [|lia]. apply Hin, Hr in Hr1. lia.
    + intros r. rewrite Hd, (elem_of_app _ (seqZ _ _)), Hin, Hsq. split; [intros [? ?]; split; [lia|intros [?|?]; [done|lia]]|].
      intros [? ?]. split; [|tauto]. destruct (Z_lt_le_dec r (t_size t)); [lia|]. exfalso. apply H0. right. lia.
    + rewrite length_app, length_reverse, length_drop, length_seqZ. lia.
Qed.

Lemma allocRows_ok a t n : arena_rel a t -> table_ok t -> (Z.of_nat n < 2 ^ 31) ->
  exists a', allocRows a n = (a', match (t_alloc t n).2 with Some rs => inl rs | None => inr ErrArenaFull end) /\
    arena_rel a' (t_alloc t n).1 /\ buf a' = buf a.
Proof.
  intros H Hok Hn. pose proof (t_cap_small _ _ Hok) as Hcs. destruct H as [Hsh Hsz Hfr Hlv Hrows]. unfold allocRows. rewrite Hfr, pop_rows_spec. cbv zeta.
  set (k := (n `min` length (t_free t))%nat). assert (length (take k (reverse (t_free t))) = k) as Hk by (rewrite length_take, length_reverse; lia).
  rewrite Hk. unfold t_alloc. fold k. replace (Z.of_nat n - Z.of_nat k) with (Z.of_nat (n - k)) by lia. rewrite Hsz, (sh_cap _ _ _ Hsh).
  pose proof (to_size _ _ Hok) as Hs. pose proof (to_free _ _ Hok) as Hfree. rewrite app_nil_r in Hfree.
  set (fresh := Z.of_nat (n - k)). replace (0 <? fresh) with (bool_decide (0 < fresh)) by (destruct (Z.ltb_spec 0 fresh); [by apply bool_decide_eq_true|apply bool_decide_eq_false; lia]).
  destruct (bool_decide (0 < fresh) && (t_cap t <? t_size t + fresh)) eqn:E.
  - eexists. split; [reflexivity|]. split; [|done]. constructor; cbn; try done; [by destruct Hsh; constructor|].
    rewrite Hlv. unfold t_count. cbn [t_size t_free set_rows].
    rewrite length_app, length_take, length_take, length_reverse. lia.
  - assert (0 <= fresh /\ t_size t + fresh <= t_cap t) as Hb.
    { assert (0 <= fresh) by (unfold fresh; lia). destruct (bool_decide_reflect (0 < fresh)), (Z.ltb_spec (t_cap t) (t_size t + fresh)); cbn in E; try done; lia. }
    eexists. split; [f_equal; cbn [snd]; do 2 f_equal|].
    { apply list_eq. intros i. rewrite list_lookup_fmap. destruct (decide (Z.of_nat i < fresh)) as [Hi|Hi].
      - rewrite !lookup_seqZ_lt by lia. cbn. rewrite wrapu_small by lia. f_equal; lia.
      - by rewrite !lookup_seqZ_ge by lia. }
    split; [|done]. constructor; cbn; try done.
    + by destruct Hsh; constructor.
    + destruct (bool_decide_reflect (0 < fresh)); [|lia]. rewrite wraps_small by lia. done.
    + rewrite Hlv. unfold t_count. cbn [t_size t_free set_rows]. rewrite length_take.
      pose proof (free_length _ _ Hok) as Hle. cbn [length] in Hle.
      rewrite wraps_small by lia. lia.
Qed.

(** Rows taken are given back, or get their records. *)
Lemma t_rollback rs t : table_pend rs t -> table_ok (set_rows t (t_size t) (t_free t ++ rs) (t_rows t)).
Proof. intros []. constructor; cbn; rewrite ?app_nil_r; done. Qed.

Lemma t_commit r rs t rec : table_pend (r :: rs) t -> table_pend rs (set_rows t (t_size t) (t_free t) (<[r := rec]> (t_rows t))).
Proof.
  intros [Hf Ht Hc Hb Hs Hn Hr Hd]. constructor; cbn; try done.
  - rewrite <- Permutation_middle in Hn. by apply NoDup_cons in Hn as [_ ?].
  - intros x Hx. apply Hr. apply elem_of_app in Hx. apply elem_of_app. rewrite elem_of_cons. tauto.
  - rewrite <- Permutation_middle in Hn. apply NoDup_cons in Hn as [Hn _]. intros x. rewrite lookup_insert_is_Some', Hd.
    rewrite !elem_of_app, elem_of_cons in *. destruct (decide (x = r)) as [->|Hne]; [|split; [intros [->|?]; [done|tauto]|tauto]].
    split; [intros _|tauto]. split; [apply Hr, elem_of_app; right; by left|done].
Qed.

Lemma t_commit_all rs recs t : table_pend rs t -> length recs = length rs ->
  table_ok (set_rows t (t_size t) (t_free t) (list_to_map (zip rs recs) ∪ t_rows t)).
Proof.
  revert recs t. induction rs as [|r rs IH]; intros [|rec recs] t H Hl; try done.
  - cbn. rewrite (left_id_L ∅ (∪)). by destruct t.
  - pose proof (to_nodup _ _ H) as Hn. apply NoDup_app in Hn as (_ & _ & [Hr _]%NoDup_cons).
    apply (t_commit _ _ _ rec), (IH recs) in H as H'; [|by injection Hl]. cbn [set_rows t_size t_free t_rows t_fields t_cap] in H'. cbn [zip zip_with list_to_map foldr fst snd].
    change (foldr _ ∅ (zip rs recs)) with (list_to_map (zip rs recs) : gmap Z (list any)).
    rewrite <- insert_union_l, insert_union_r; [done|]. apply not_elem_of_list_to_map_1. 
    intros ((x & y) & -> & Hxy)%list_elem_of_fmap. apply Hr. by apply elem_of_zip_l in Hxy.
Qed.

(** ** Appending *)

Lemma row_of_pend rs t r rec : table_pend rs t -> t_rows t !! r = Some rec -> 0 <= r < t_cap t /\ r ∉ rs.
Proof.
  intros H Hr. destruct (proj1 (to_dom _ _ H r)) as [Hb Hn]; [by eexists|]. pose proof (to_size _ _ H).
  split; [lia|]. intros ?. apply Hn, elem_of_app. by right.
Qed.

Lemma arena_rel_write rs a t b' : arena_rel a t -> table_pend rs t -> length b' = length (buf a) ->
  rows_kept (buf a) b' (t_fields t) (t_cap t) (fun r => r ∈ rs) -> arena_rel (set_buf a b') t.
Proof.
  intros [Hsh Hsz Hfr Hlv Hrows] Hp Hl Hk. constructor; try done; [by apply shape_set_buf|].
  intros r rec Hr. destruct (row_of_pend _ _ _ _ Hp Hr) as [Hb Hn]. cbn [buf set_buf]. eapply row_holds_kept; [done|done|done|by apply Hrows].
Qed.

(** Giving rows back. *)
Lemma arena_rel_free rs a t : arena_rel a t -> table_pend rs t ->
  arena_rel (set_free a (freeRows a ++ rs) (i32 (LiveCount a - Z.of_nat (length rs)))) (set_rows t (t_size t) (t_free t ++ rs) (t_rows t)).
Proof.
  intros [Hsh Hsz Hfr Hlv Hrows] Hp. pose proof (free_length _ _ Hp). pose proof (t_cap_small _ _ Hp). pose proof (to_size _ _ Hp).
  constructor; cbn; try done; [by destruct Hsh; constructor|by rewrite Hfr|]. rewrite Hlv. unfold t_count. cbn [t_size t_free set_rows].
  rewrite length_app. rewrite wraps_small by lia. lia.
Qed.

Lemma arena_rel_insert a t r rec : arena_rel a t -> row_holds (buf a) (t_fields t) (t_cap t) r rec ->
  arena_rel a (set_rows t (t_size t) (t_free t) (<[r := rec]> (t_rows t))).
Proof.
  intros [Hsh Hsz Hfr Hlv Hrows] Hr. constructor; try done. intros r' rec'. cbn. intros [[-> ->]|[_ Hx]]%lookup_insert_Some; auto.
Qed.

Lemma arena_Append_ok a t vals : arena_rel a t -> table_ok t ->
  exists a', arena_Append a vals = Ret (a', (t_append t vals).2) /\ arena_rel a' (t_append t vals).1 /\ table_ok (t_append t vals).1.
Proof.
  intros H Hok. destruct (allocRows_ok a t 1 H Hok ltac:(lia)) as (a1 & Ea & H1 & Hb1). pose proof (t_alloc_ok t 1 Hok) as Hal.
  unfold arena_Append, t_append. rewrite Ea. clear Ea. destruct (t_alloc_fields t 1) as (Ef & Ec & Er).
  destruct (t_alloc t 1) as [t1 [rs|]]; cbn [fst snd] in *; [|by exists a1].
  destruct Hal as [Hp Hl]. destruct rs as [|r [|]]; try done. change (go_index [r] 0) with (Ret r). cbn [obind].
  assert (0 <= r < t_cap t1) as Hr.
  { pose proof (to_size _ _ Hp). pose proof (to_free _ _ Hp r ltac:(apply elem_of_app; right; by left)). lia. }
  destruct (writeRow_ok a1 (t_fields t1) (t_cap t1) r vals (ar_shape _ _ H1) Hr) as (b' & -> & Hlen & Hk & Hh). cbn [obind]. rewrite <- Ef, <- Er.
  assert (arena_rel (set_buf a1 b') t1) as H2.
  { eapply (arena_rel_write [r]); [done|done|done|]. intros col f row' Hf' Hr' Hn. apply Hk; [done|done|]. intros <-. apply Hn. by left. }
  destruct (store_row (t_fields t1) vals) as [rec|e] eqn:Es; cbn [err_of].
  - exists (set_buf a1 b'). split_and!; [done|apply arena_rel_insert; [done|by apply Hh]|by apply t_commit].
  - eexists. split_and!; [reflexivity|apply (arena_rel_free [r] (set_buf a1 b') t1); done|by apply t_rollback].
Qed.

Lemma write_rows_ok allVals : forall a fs cap rows i rs, shape a fs cap -> drop i rows = rs -> length allVals = length rs ->
  NoDup rs -> Forall (fun r => 0 <= r < cap) rs ->
  exists b', write_rows a (Z.of_nat i) rows allVals =
      Ret (set_buf a b', match store_rows fs (Z.of_nat i) allVals with inl _ => None | inr e => Some e end) /\
    length b' = length (buf a) /\ rows_kept (buf a) b' fs cap (fun r => r ∈ rs) /\
    forall recs, store_rows fs (Z.of_nat i) allVals = inl recs ->
      Forall2 (row_holds b' fs cap) rs recs.
Proof.
  induction allVals as [|vals allVals IH]; intros a fs cap rows i rs Hs Hrs Hl Hnd Hr; cbn [length] in Hl; destruct rs as [|r rs]; try done; cbn [write_rows store_rows].
  { exists (buf a). destruct a. split_and!; [done|done|by intros ? ? ? ? ? ?|]. by intros recs [= <-]. }
  assert (rows !! i = Some r) as Hi. { rewrite <- (Nat.add_0_r i), <- lookup_drop, Hrs. done. }
  rewrite (go_index_nat _ _ _ Hi). cbn [obind]. apply NoDup_cons in Hnd as [Hn Hnd]. apply Forall_cons in Hr as [Hr Hrs'].
  destruct (writeRow_ok a fs cap r vals Hs Hr) as (b1 & -> & Hl1 & Hk1 & Hh1). cbn [obind].
  destruct (store_row fs vals) as [rec|e] eqn:E; cbn [err_of].
  2: { exists b1. split_and!; [done|done| |done]. intros col f row' Hf Hr' Hne. apply Hk1; [done|done|]. intros <-. apply Hne. by left. }
  destruct (IH (set_buf a b1) fs cap rows (S i) rs) as (b' & Ew & Hl' & Hk' & Hh'); [by apply shape_set_buf| |by injection Hl|done|done|].
  { apply (f_equal (drop 1)) in Hrs. rewrite drop_drop in Hrs. by rewrite Nat.add_1_r in Hrs. }
  replace (Z.of_nat i + 1) with (Z.of_nat (S i)) by lia. rewrite Ew. exists b'. cbn [buf set_buf] in *.
  split_and!; [by destruct (store_rows _ _ _)|lia| |].
  - intros col f row' Hf Hr' Hne. rewrite Hk' by (done || by intros ?; apply Hne; right). apply Hk1; [done|done|]. intros <-. apply Hne. by left.
  - intros recs. destruct (store_rows fs (Z.of_nat (S i)) allVals) as [recs'|] eqn:Er; [|done]. intros [= <-].
    constructor; [|by apply Hh']. apply (row_holds_kept b1 b' fs cap (fun r => r ∈ rs)); auto.
Qed.

Lemma batch_count_err_spec a allVals i :
  batch_count_err a i allVals =
  (fun p => i + Z.of_nat p.1) <$> list_find (fun vals => length vals <> length (Fields (aSchema a))) allVals.
Proof.
  revert i. induction allVals as [|vals rest IH]; intros i; cbn [batch_count_err list_find]; [done|].
  destruct (Nat.eqb_spec (length vals) (length (Fields (aSchema a)))) as [E|E].
  - rewrite decide_False by tauto. rewrite IH. destruct (list_find _ rest) as [[j x]|]; cbn; [|done]. f_equal. lia.
  - rewrite decide_True by done. cbn. f_equal. lia.
Qed.

Lemma store_rows_length fs i allVals recs : store_rows fs i allVals = inl recs -> length recs = length allVals.
Proof.
  revert i recs. induction allVals as [|vals rest IH]; intros i recs; cbn [store_rows]; [by intros [= <-]|].
  destruct (store_row fs vals); [|done]. destruct (store_rows fs (i + 1) rest) eqn:E; [|done]. intros [= <-]. cbn. f_equal. by eapply IH.
Qed.

Lemma arena_rel_insert_all a t rs recs : arena_rel a t -> Forall2 (row_holds (buf a) (t_fields t) (t_cap t)) rs recs ->
  arena_rel a (set_rows t (t_size t) (t_free t) (list_to_map (zip rs recs) ∪ t_rows t)).
Proof.
  intros [Hsh Hsz Hfr Hlv Hrows] Hr. constructor; try done. intros r rec. cbn.
  intros [Hx|[_ Hx]]%lookup_union_Some_raw; [|by apply Hrows]. apply elem_of_list_to_map_2, elem_of_lookup_zip_with in Hx.
  destruct Hx as (k & r' & rec' & [= -> ->] & H1 & H2). by eapply Forall2_lookup_lr.
Qed.

Lemma AppendBatch_ok a t allVals : arena_rel a t -> table_ok t -> Z.of_nat (length allVals) < 2 ^ 31 ->
  exists a', AppendBatch a allVals = Ret (a', (t_append_batch t allVals).2) /\
    arena_rel a' (t_append_batch t allVals).1 /\ table_ok (t_append_batch t allVals).1.
Proof.
  intros H Hok Hn. unfold AppendBatch, t_append_batch. destruct allVals as [|vals0 rest0] eqn:Eall; [by exists a|]. rewrite <- Eall in *. clear Eall vals0 rest0.
  rewrite batch_count_err_spec, (sh_fields _ _ _ (ar_shape _ _ H)).
  destruct (list_find _ allVals) as [[i x]|]; cbn [fmap option_fmap option_map fst]; [by exists a|].
  destruct (allocRows_ok a t (length allVals) H Hok Hn) as (a1 & -> & H1 & Hb1). pose proof (t_alloc_ok t (length allVals) Hok) as Hal.
  destruct (t_alloc_fields t (length allVals)) as (Ef & Ec & Er).
  destruct (t_alloc t (length allVals)) as [t1 [rs|]]; cbn [fst snd] in *; [|by exists a1]. destruct Hal as [Hp Hl].
  pose proof (to_nodup _ _ Hp) as Hnd. apply NoDup_app in Hnd as (_ & _ & Hnd).
  assert (Forall (fun r => 0 <= r < t_cap t1) rs) as Hr.
  { apply Forall_forall. intros r Hin. pose proof (to_size _ _ Hp). pose proof (to_free _ _ Hp r ltac:(apply elem_of_app; by right)). lia. }
  destruct (write_rows_ok allVals a1 (t_fields t1) (t_cap t1) rs 0 rs (ar_shape _ _ H1) eq_refl (eq_sym Hl) Hnd Hr) as (b' & Ew & Hlen & Hk & Hh).
  change (Z.of_nat 0) with 0 in *. rewrite Ew. cbn [obind]. rewrite <- Ef, <- Er.
  assert (arena_rel (set_buf a1 b') t1) as H2 by (by eapply arena_rel_write).
  destruct (store_rows (t_fields t1) 0 allVals) as [recs|[i e]] eqn:Es.
  - exists (set_buf a1 b'). split_and!; [done|apply arena_rel_insert_all; [done|by apply Hh]|].
    apply t_commit_all; [done|]. rewrite (store_rows_length _ _ _ _ Es). done.
  - eexists. rewrite <- Hl. split_and!; [reflexivity|by apply (arena_rel_free rs (set_buf a1 b') t1)|by apply t_rollback].
Qed.

(** ** Deleting *)

Lemma arena_IsLive_ok a t i : arena_rel a t -> table_ok t -> arena_IsLive a i = bool_decide (is_Some (t_rows t !! i)).
Proof.
  intros H Hok. pose proof (t_cap_small _ _ Hok). pose proof (to_size _ _ Hok). unfold arena_IsLive. rewrite (ar_size _ _ H), (ar_free _ _ H).
  symmetry. rewrite (bool_decide_ext _ _ (to_dom _ _ Hok i)), app_nil_r.
  destruct (Z.ltb_spec i 0), (Z.leb_spec (t_size t) i); cbn [orb negb andb]; try (apply bool_decide_eq_false; lia).
  rewrite wrapu_small by lia. rewrite <- bool_decide_not. apply bool_decide_ext. intuition lia.
Qed.

Lemma live_rows_ok a t : arena_rel a t -> table_ok t -> live_rows a = t_live t.
Proof.
  intros H Hok. unfold live_rows, t_live. rewrite (ar_size _ _ H). apply list_filter_iff. intros i.
  rewrite (arena_IsLive_ok a t i H Hok). apply bool_decide_eq_true.
Qed.

Lemma t_live_in t r : table_ok t -> r ∈ t_live t <-> is_Some (t_rows t !! r).
Proof.
  intros Hok. unfold t_live. rewrite list_elem_of_filter, elem_of_seqZ, (to_dom _ _ Hok r). split; [tauto|]. intros [? ?]. split; [done|lia].
Qed.

Lemma u32_live t : table_ok t -> u32 <$> t_live t = t_live t.
Proof.
  intros Hok. rewrite <- (list_fmap_id (t_live t)) at 2. apply list_fmap_ext. intros k r Hr%list_elem_of_lookup_2.
  apply (t_live_in t r Hok), (to_dom _ _ Hok) in Hr as [? _]. pose proof (t_cap_small _ _ Hok). pose proof (to_size _ _ Hok). apply wrapu_small. unfold id. lia.
Qed.

Lemma t_delete_ok t r : table_ok t -> table_ok (t_delete t r).
Proof.
  intros Hok. unfold t_delete. destruct (t_rows t !! r) as [rec|] eqn:E; [|done].
  destruct (proj1 (to_dom _ _ Hok r)) as [Hb Hn]; [by eexists|]. destruct Hok as [Hf Ht Hc Hby Hs Hnd Hr Hd]. rewrite app_nil_r in *.
  constructor; cbn; rewrite ?app_nil_r; try done.
  - apply NoDup_app. split_and!; [done| |apply NoDup_singleton]. by intros x Hx ->%list_elem_of_singleton.
  - intros x [Hx|Hx]%elem_of_app; [by apply Hr|]. by apply list_elem_of_singleton in Hx as ->.
  - intros x. rewrite lookup_delete_is_Some, Hd, elem_of_app, list_elem_of_singleton. clear. intuition congruence.
Qed.

Lemma arena_Delete_ok a t r : arena_rel a t -> table_ok t -> arena_rel (arena_Delete a r) (t_delete t r).
Proof.
  intros H Hok. pose proof (arena_IsLive_ok a t r H Hok) as Hl. unfold arena_IsLive in Hl. unfold arena_Delete, t_delete.
  destruct (t_rows t !! r) as [rec|] eqn:E.
  - rewrite (bool_decide_eq_true_2 (is_Some _)) in Hl by by eexists. apply andb_true_iff in Hl as [H1 H2]. apply negb_true_iff in H1, H2. rewrite H1, H2.
    destruct (proj1 (to_dom _ _ Hok r)) as [Hb Hn]; [by eexists|]. pose proof (free_length _ _ (t_delete_ok t r Hok)) as Hfl.
    pose proof (free_length _ _ Hok) as Hfl'. unfold t_delete in Hfl. rewrite E in Hfl. cbn in Hfl. cbn [length] in Hfl'. rewrite length_app in Hfl. cbn in Hfl.
    pose proof (t_cap_small _ _ Hok). pose proof (to_size _ _ Hok). destruct H as [Hsh Hsz Hfr Hlv Hrows].
    constructor; cbn; [by destruct Hsh; constructor|done|rewrite Hfr, wrapu_small by lia; done| |].
    + rewrite Hlv. unfold t_count. cbn. rewrite length_app. cbn. rewrite wraps_small by lia. lia.
    + intros r' rec' [_ Hx]%lookup_delete_Some. by apply Hrows.
  - rewrite (bool_decide_eq_false_2 (is_Some _)) in Hl by by intros []. destruct ((r <? 0) || (Size a <=? r)); [done|]. cbn in Hl. apply negb_false_iff in Hl.
    by rewrite Hl.
Qed.

Lemma t_delete_frame t r x : x <> r -> t_rows (t_delete t r) !! x = t_rows t !! x.
Proof. intros Hx. unfold t_delete. destruct (t_rows t !! r); [|done]. cbn. by rewrite lookup_delete_ne. Qed.

Lemma t_delete_meta t r : t_size (t_delete t r) = t_size t /\ t_fields (t_delete t r) = t_fields t /\ t_cap (t_delete t r) = t_cap t.
Proof. unfold t_delete. by destruct (t_rows t !! r). Qed.

Lemma filter_iff_in {A} (Q R : A -> Prop) {HQ : forall x, Decision (Q x)} {HR : forall x, Decision (R x)} (l : list A) :
  (forall x, x ∈ l -> Q x <-> R x) -> base.filter Q l = base.filter R l.
Proof.
  induction l as [|x l IH]; intros H; [done|]. rewrite !filter_cons, IH by (intros y Hy; apply H; by right).
  pose proof (H x ltac:(by left)). destruct (decide (Q x)), (decide (R x)); tauto.
Qed.

Lemma trim_rows_ok rows : forall a t n count, arena_rel a t -> table_ok t -> NoDup rows ->
  let t' := foldl t_delete t (take (Z.to_nat (n - count)) (base.filter (fun r => is_Some (t_rows t !! r)) rows)) in
  arena_rel (trim_rows a n rows count) t' /\ table_ok t'.
Proof.
  induction rows as [|i rows IH]; intros a t n count H Hok Hnd; cbn [trim_rows]; [by rewrite filter_nil, take_nil|].
  apply NoDup_cons in Hnd as [Hi Hnd]. destruct (Z.ltb_spec count n) as [Hc|Hc]; [|by replace (Z.to_nat (n - count)) with 0%nat by lia].
  rewrite (arena_IsLive_ok a t i H Hok). rewrite filter_cons. destruct (decide (is_Some (t_rows t !! i))) as [Hl|Hl].
  - rewrite (bool_decide_eq_true_2 _ Hl). replace (Z.to_nat (n - count)) with (S (Z.to_nat (n - (count + 1)))) by lia. cbn [take foldl].
    rewrite (filter_iff_in (fun r => is_Some (t_rows t !! r)) (fun r => is_Some (t_rows (t_delete t i) !! r)) rows).
    + apply IH; [by apply arena_Delete_ok|by apply t_delete_ok|done].
    + intros x Hx. by rewrite t_delete_frame by (by intros ->).
  - rewrite (bool_decide_eq_false_2 _ Hl). by apply IH.
Qed.

Lemma t_trim_ok a t n : arena_rel a t -> table_ok t -> arena_rel (trim_rows a n (seqZ 0 (Size a)) 0) (t_trim t n) /\ table_ok (t_trim t n).
Proof.
  intros H Hok. unfold t_trim, t_live. rewrite (ar_size _ _ H). destruct (trim_rows_ok (seqZ 0 (t_size t)) a t n 0 H Hok) as [H1 H2]; [apply NoDup_seqZ|].
  by rewrite Z.sub_0_r in *.
Qed.

(** ** Growing *)

Section copy.
Context (fs : list FieldDef) (Hfs : Forall field_ok fs) (cap cap' : Z) (old : byte_string) (Hold : cap * total fs <= Z.of_nat (length old)).

Lemma copy_rows_ok col f rows : fs !! col = Some f -> Forall (fun r => 0 <= r < cap /\ r < cap') rows ->
  forall new, cap' * total fs <= Z.of_nat (length new) ->
  exists new', copy_rows old new (cap * total (take col fs)) (cap' * total (take col fs)) (Width f) rows = Ret new' /\ length new' = length new /\
    (forall r, r ∈ rows -> cell_of new' fs cap' col f r = cell_of old fs cap col f r) /\
    (forall col' f' r', fs !! col' = Some f' -> 0 <= r' < cap' -> col' <> col \/ r' ∉ rows -> cell_of new' fs cap' col' f' r' = cell_of new fs cap' col' f' r').
Proof using Hfs Hold.
  intros Hf. induction rows as [|r rows IH]; intros Hr new Hnew; cbn [copy_rows].
  { exists new. split_and!; [done|done|by intros r Hr'%elem_of_nil|done]. }
  apply Forall_cons in Hr as [[Hr Hr'] Hrs]. destruct (cell_bounds fs cap col f r Hfs Hf Hr) as [A1 A2].
  destruct (cell_bounds fs cap' col f r Hfs Hf ltac:(lia)) as [B1 B2]. pose proof (field_ok_pos f (Forall_lookup_1 _ _ _ _ Hfs Hf)) as Hw.
  fold (cell_addr fs cap col (Width f) r) (cell_addr fs cap' col (Width f) r). rewrite !go_slice_cell by lia. cbn [obind].
  set (bs := cell old _ _). assert (Z.of_nat (length bs) = Width f) as Hbs by (apply cell_length; lia).
  set (new1 := splice new _ bs). assert (length new1 = length new) as Hl1 by (apply length_splice; lia).
  destruct (IH Hrs new1 ltac:(lia)) as (new' & -> & Hl & Hc & Hk). exists new'. split_and!; [done|lia| |].
  - intros x [->|Hx]%elem_of_cons; [|by apply Hc]. destruct (decide (r ∈ rows)) as [Hin|Hin]; [by apply Hc|].
    rewrite Hk by (done || lia || by right). pose proof (cell_splice_same new (cell_addr fs cap' col (Width f) r) bs) as Hs. rewrite Hbs in Hs. apply Hs; lia.
  - intros col' f' r' Hf' Hr2 Hne. rewrite Hk; [|done|done|destruct Hne as [?|Hne]; [by left|right; intros ?; apply Hne; by right]].
    destruct (cell_bounds fs cap' col' f' r' Hfs Hf' Hr2). pose proof (field_ok_pos f' (Forall_lookup_1 _ _ _ _ Hfs Hf')).
    pose proof (cell_disjoint fs cap' col f r col' f' r' Hfs Hf Hf' ltac:(lia) Hr2) as Hd.
    apply cell_splice_other; try lia. rewrite Hbs. apply Hd. destruct Hne as [?|Hne]; [left; congruence|right; intros ->; apply Hne; by left].
Qed.

Lemma copy_cols_ok rows : Forall (fun r => 0 <= r < cap /\ r < cap') rows -> forall n col new, (n + col = length fs)%nat -> cap' * total fs <= Z.of_nat (length new) ->
  exists new', copy_cols old new (drop col (cols fs cap)) (cols fs cap') (Z.of_nat col) rows = Ret new' /\ length new' = length new /\
    (forall c f r, (col <= c)%nat -> fs !! c = Some f -> r ∈ rows -> cell_of new' fs cap' c f r = cell_of old fs cap c f r) /\
    (forall c f r, (c < col)%nat -> fs !! c = Some f -> 0 <= r < cap' -> cell_of new' fs cap' c f r = cell_of new fs cap' c f r).
Proof using Hfs Hold.
  intros Hr n. induction n as [|n IH]; intros col new Hn Hnew.
  { rewrite drop_ge by (unfold cols; rewrite length_imap; lia). exists new. split_and!; [done|done| |done]. intros c f r Hc Hf. apply lookup_lt_Some in Hf. lia. }
  destruct (lookup_lt_is_Some_2 fs col) as [f Hf]; [lia|].
  assert (forall k, cols fs k !! col = Some (mkCol (k * total (take col fs)) (Width f))) as Hcol by (intros k; unfold cols; by rewrite list_lookup_imap, Hf).
  rewrite (drop_S _ _ _ (Hcol cap)). cbn [copy_cols]. rewrite (go_index_nat _ _ _ (Hcol cap')). cbn [obind Offset Stride].
  destruct (copy_rows_ok col f rows Hf Hr new Hnew) as (new1 & -> & Hl1 & Hc1 & Hk1). cbn [obind].
  replace (Z.of_nat col + 1) with (Z.of_nat (S col)) by lia. destruct (IH (S col) new1) as (new' & -> & Hl & Hc & Hk); [lia|lia|].
  exists new'. split_and!; [done|lia| |].
  - intros c g r Hcc Hg Hin. destruct (decide (c = col)) as [->|]; [|apply Hc; done || lia]. replace g with f by congruence.
    rewrite Hk; [by apply Hc1|lia|done|]. apply (proj1 (Forall_forall _ _) Hr) in Hin. lia.
  - intros c g r Hcc Hg Hb. rewrite Hk by (done || lia). apply Hk1; [done|done|]. left. lia.
Qed.

End copy.

(** A grown arena holds the same table. *)
Lemma arena_grow_ok a t cap' : arena_rel a t -> table_ok t -> t_cap t <= cap' ->
  exists b, copy_cols (buf a) (replicate (Z.to_nat (cap' * total (t_fields t))) 0) (ColRegions (aSchema a)) (cols (t_fields t) cap') 0 (seqZ 0 (Size a)) = Ret b /\
    forall live, live = LiveCount a ->
    arena_rel (mkArena b (mkSchema (t_fields t) (cols (t_fields t) cap') (-1) (cap' * total (t_fields t))) (Size a) cap' live (freeRows a)) (t_grow t cap').
Proof.
  intros H Hok Hc. pose proof (to_fields _ _ Hok) as Hfs. pose proof (to_total _ _ Hok). pose proof (to_cap _ _ Hok). pose proof (to_size _ _ Hok) as Hs.
  destruct H as [Hsh Hsz Hfr Hlv Hrows]. rewrite (sh_cols _ _ _ Hsh), Hsz.
  assert (0 <= cap' * total (t_fields t)) by (apply Z.mul_nonneg_nonneg; lia).
  destruct (copy_cols_ok (t_fields t) Hfs (t_cap t) cap' (buf a) (sh_buf _ _ _ Hsh) (seqZ 0 (t_size t)) ltac:(apply Forall_forall; intros r Hr%elem_of_seqZ; lia)
    (length (t_fields t)) 0 (replicate (Z.to_nat (cap' * total (t_fields t))) 0) ltac:(lia)) as (b & Eb & Hl & Hcells & _); [rewrite length_replicate; lia|].
  rewrite drop_0 in Eb. exists b. split; [exact Eb|]. intros live ->. rewrite length_replicate in Hl. constructor; cbn; try done.
  - constructor; cbn; try done; lia.
  - intros r rec Hr. destruct (Hrows r rec Hr) as [Ht Hv]. split; [done|]. intros col f v Hf Hv'.
    destruct (proj1 (to_dom _ _ Hok r)) as [Hb _]; [by eexists|]. rewrite (Hcells col f r); [by apply Hv|lia|done|]. apply elem_of_seqZ. lia.
Qed.

Lemma t_grow_ok t cap' : table_ok t -> t_cap t <= cap' -> cap' * total (t_fields t) < 2 ^ 31 -> table_ok (t_grow t cap').
Proof. intros [] Hc Hb. constructor; cbn; try done; lia. Qed.

(** A fresh arena is the empty table. *)
Lemma init_ok b fs cap : Forall field_ok fs -> 0 <= cap -> cap * total fs <= Z.of_nat (length b) ->
  arena_rel (mkArena b (mkSchema fs (cols fs cap) (-1) (cap * total fs)) 0 cap 0 []) (mkTable fs cap 0 [] ∅).
Proof. intros Hfs Hc Hl. constructor; cbn; try done. Qed.

Lemma empty_ok fs cap : Forall field_ok fs -> 0 < total fs -> 0 <= cap -> cap * total fs < 2 ^ 31 -> table_ok (mkTable fs cap 0 [] ∅).
Proof.
  intros Hfs Ht Hc Hb. constructor; cbn; try done; try lia; [by apply NoDup_nil|by intros r Hr%elem_of_nil|].
  intros r. rewrite lookup_empty. split; [by intros []|lia].
Qed.

End arena.
