(* ===== verification/DataCacheSpec.v ===== *)
(** * The abstract data cache

    Named collections, each a table of records with an owner; quotas count the
    bytes and the number of an owner's collections.  Pool slots, column
    layout, sort indices, owner keys and usage counters are gone, and every
    collection knows the age of its records.  A sequence of operations outside
    the contract has no abstract answer: a query of a sorted collection that
    was changed since; a query that would show a record that has no JSON form;
    a filter on strings that do not fill their column; values that are too
    short for a computed field; a record that is refused after a full window
    gave up its oldest; an eviction or a trim when the rows are not reused in
    the order of age; a batch that one doubling of the capacity does not hold
    although a second was allowed; and 2^31 evictions or rows at once. *)

From S2P Require Import Prelude Bytes Float64 Cond DataCache DataCacheTable.

Local Open Scope Z_scope.
Local Open Scope rah_scope.

Section spec.
Context {P : Platform}.

(** ** Operations *)

Inductive dop : Type :=
| DCreate (now : Z) (name : byte_string) (opts : CreateOpts)
| DDrop (name : byte_string) (tenantID : Z) (app : byte_string)
| DAppendJSON (name json : byte_string)
| DAppendVals (name : byte_string) (vals : list any)
| DAppendBatch (name json : byte_string)
| DQuery (name : byte_string)
| DSort (name field : byte_string) (desc : bool)
| DFilter (name field op value : byte_string)
| DAggregate (name field op : byte_string)
| DTrim (name : byte_string) (n : Z)
| DSweep (now : Z)
| DSetLimit (tenantID : Z) (app : byte_string) (maxBytes maxSlots : Z)
| DUsage (tenantID : Z) (app : byte_string).

Inductive dres : Type :=
| RErr (e : option dcErr)
| RJson (r : byte_string + dcErr)
| RNum (r : Z + dcErr)
| RUsage (bytes slots : Z).

Definition done_err (x : outcome (DataCacheManager * option dcErr)) : outcome (DataCacheManager * dres) :=
  r <-- x ;; Ret (r.1, RErr r.2).

(** The implementation. *)
Definition dc_step (alloc : Z -> byte_string) (o : dop) (m : DataCacheManager) : outcome (DataCacheManager * dres) :=
  match o with
  | DCreate now name opts => done_err (dc_Create now m name opts)
  | DDrop name tenantID app => done_err (dc_Drop m name tenantID app)
  | DAppendJSON name json => done_err (AppendJSON m name json)
  | DAppendVals name vals => done_err (AppendVals m name vals)
  | DAppendBatch name json => done_err (AppendJSONBatch m name json)
  | DQuery name => r <-- QueryAll alloc m name ;; Ret (m, RJson r)
  | DSort name field desc => done_err (SortCollection m name field desc)
  | DFilter name field op value => r <-- FilterJSON alloc m name field op value ;; Ret (m, RJson r)
  | DAggregate name field op => r <-- AggregateField m name field op ;; Ret (m, RNum r)
  | DTrim name n => done_err (TrimOldest m name n)
  | DSweep now => m <-- sweepSlots now m ;; Ret (m, RErr None)
  | DSetLimit tenantID app maxBytes maxSlots =>
    Ret (set_quotas m (SetTenantLimit (quotas m) tenantID app maxBytes maxSlots), RErr None)
  | DUsage tenantID app => Ret (m, RUsage (UsageBytes (quotas m) tenantID app) (UsageSlots (quotas m) tenantID app))
  end.

(** ** Collections *)

Inductive order : Type := Unsorted | Sorted (rows : list Z) | Stale.

Record coll : Type := mkColl {
  c_table : table; c_owner : quotaKey; c_access : AccessMode; c_growth : GrowthMode; c_maxcap : Z;
  c_window : Z; c_head : Z; c_computed : list ComputedField; c_exp : Z; c_order : order;
  c_ages : list Z (** the live rows, the oldest first *) }.

Definition touch (o : order) : order := match o with Unsorted => Unsorted | _ => Stale end.

(** The live rows by age when the table becomes [t']: those that stay, then the
    new ones, which are the rows that were next in line, in that order. *)
Definition new_ages (t t' : table) (ages : list Z) : list Z :=
  base.filter (fun r => is_Some (t_rows t' !! r)) ages ++ default [] (t_alloc t (size (t_rows t') - size (t_rows t))).2.

Definition set_table (c : coll) (t : table) (head : Z) (o : order) : coll :=
  mkColl t (c_owner c) (c_access c) (c_growth c) (c_maxcap c) (c_window c) head (c_computed c) (c_exp c) o
    (new_ages (c_table c) t (c_ages c)).

Definition c_bytes (c : coll) : Z := t_cap (c_table c) * total (t_fields (c_table c)).

Record adc : Type := mkAdc { d_colls : gmap byte_string coll; d_limits : gmap quotaKey (Z * Z) }.

Definition set_colls (d : adc) (m : gmap byte_string coll) : adc := mkAdc m (d_limits d).

Definition put_coll (d : adc) (name : byte_string) (c : coll) : adc := set_colls d (<[name := c]> (d_colls d)).

(** ** Quotas *)

Definition sum_colls (f : coll -> Z) (m : gmap byte_string coll) : Z :=
  foldr (fun p acc => f p.2 + acc) 0 (map_to_list m).

Definition owned (k : quotaKey) (f : coll -> Z) (c : coll) : Z := if bool_decide (c_owner c = k) then f c else 0.

Definition a_bytes (d : adc) (k : quotaKey) : Z := sum_colls (owned k c_bytes) (d_colls d).
Definition a_slots (d : adc) (k : quotaKey) : Z := sum_colls (owned k (fun _ => 1)) (d_colls d).

Context (nslots maxBuf maxRec platBytes platSlots : Z).

Definition a_limit (d : adc) (k : quotaKey) : Z * Z := default (platBytes, platSlots) (d_limits d !! k).

Definition a_fits (d : adc) (k : quotaKey) (bytes slots : Z) : bool :=
  (a_bytes d k + bytes <=? (a_limit d k).1) && (a_slots d k + slots <=? (a_limit d k).2).

(** ** Creating and dropping *)

Definition a_create (now : Z) (d : adc) (name : byte_string) (opts : CreateOpts) : adc * option dcErr :=
  let cap := if o_Capacity opts <=? 0 then 1024 else o_Capacity opts in
  let fs := set_width <$> o_Fields opts in
  let k := makeQuotaKey (o_TenantID opts) (o_App opts) in
  if bool_decide (is_Some (d_colls d !! name)) then (d, Some ErrCollectionExists)
  else if maxRec <? o_Capacity opts then (d, Some ErrCapacity)
  else if (0 <? o_WindowSize opts) && (cap <? o_WindowSize opts) then (d, Some ErrWindowSizeExceedsCapacity)
  else if maxBuf <? cap * total fs then (d, Some ErrBufSize)
  else match compileComputedFields (o_Fields opts) (o_Computed opts) with
       | inr e => (d, Some e)
       | inl computed =>
         if negb (a_fits d k (cap * total fs) 1) then (d, Some ErrQuotaExceeded)
         else if nslots <=? Z.of_nat (size (d_colls d)) then (d, Some ErrPoolExhausted)
         else
           let growth := if 0 <? o_WindowSize opts then GrowthFixed else o_Growth opts in
           let exp := if 0 <? o_TTLSec opts then now + o_TTLSec opts else 0 in
           (put_coll d name (mkColl (mkTable fs cap 0 [] ∅) k (o_Access opts) growth (o_MaxCap opts) (o_WindowSize opts) 0
                               computed exp Unsorted []), None)
       end.

Definition a_drop (d : adc) (name : byte_string) (k : quotaKey) : adc * option dcErr :=
  match d_colls d !! name with
  | None => (d, Some ErrCollectionNotFound)
  | Some c => if bool_decide (c_owner c = k) then (set_colls d (delete name (d_colls d)), None) else (d, Some ErrNotOwner)
  end.

Definition expired (now : Z) (c : coll) : Prop := c_exp c <> 0 /\ c_exp c <= now.

Definition a_sweep (now : Z) (d : adc) : adc :=
  set_colls d (base.filter (fun p => ~ expired now p.2) (d_colls d)).

(** ** Appending *)

(** The collection with a larger table, when the limits allow one. *)
Definition a_grow (d : adc) (c : coll) : option coll :=
  let t := c_table c in
  let cap := if (0 <? c_maxcap c) && (c_maxcap c <? 2 * t_cap t) then c_maxcap c else 2 * t_cap t in
  if (0 <? c_window c) || (cap <=? t_cap t) || (maxBuf <? cap * total (t_fields t)) then None
  else if a_fits d (c_owner c) ((cap - t_cap t) * total (t_fields t)) 0 then Some (set_table c (t_grow t cap) (c_head c) Unsorted)
  else None.

(** [GrowthAuto] doubles the capacity on overflow; outside: what still does not
    fit although the limits allow another doubling. *)
Definition a_growing (d : adc) (name : byte_string) (c : coll) (f : table -> table * option dcErr) : option (adc * option dcErr) :=
  let '(t, err) := f (c_table c) in
  let c := set_table c t (c_head c) (touch (c_order c)) in
  let d := put_coll d name c in
  match err, c_growth c with
  | Some ErrArenaFull, GrowthAuto =>
    match a_grow d c with
    | Some c =>
      let '(t, err) := f (c_table c) in
      let c := set_table c t (c_head c) (c_order c) in
      let d := put_coll d name c in
      match err, a_grow d c with Some ErrArenaFull, Some _ => None | _, _ => Some (d, err) end
    | None => Some (d, err)
    end
  | _, _ => Some (d, err)
  end.

(** A full window gives up its oldest record.  Outside: the oldest is not in
    the row the ring is at. *)
Definition a_full (c : coll) : bool := (0 <? c_window c) && (c_window c <=? t_count (c_table c)).

Definition a_evict (c : coll) : option coll :=
  if a_full c then
    r ← head (c_ages c);
    if (2 ^ 31 <=? c_head c + 1) || negb (r =? c_head c mod c_window c) then None
    else Some (set_table c (t_delete (c_table c) r) (c_head c + 1) (touch (c_order c)))
  else Some c.

(** A record that its types refuse must not meet a full window. *)
Definition a_spared (c : coll) (vals : list any) : bool :=
  negb (a_full c) || match store_row (t_fields (c_table c)) vals with inl _ => true | inr _ => false end.

Definition a_writable (d : adc) (name : byte_string) : coll + dcErr :=
  match d_colls d !! name with
  | None => inr ErrCollectionNotFound
  | Some c => match c_access c with AccessReadOnly => inr ErrReadOnly | AccessReadWrite => inl c end
  end.

Definition a_append (d : adc) (name : byte_string) (c : coll) (vals : list any) : option (adc * option dcErr) :=
  match evalComputed (c_computed c) vals with
  | Ret (inl vals) =>
    if a_spared c vals then c ← a_evict c; a_growing d name c (fun t => t_append t vals) else None
  | Ret (inr e) => Some (d, Some e)
  | _ => None
  end.

(** A batch into a window: row by row, up to the first error. *)
Fixpoint a_windowed (c : coll) (allVals : list (list any)) : option (coll * option dcErr) :=
  match allVals with
  | [] => Some (c, None)
  | vals :: rest =>
    match evalComputed (c_computed c) vals with
    | Ret (inl vals) =>
      if negb (a_spared c vals) then None else
      c ← a_evict c;
      let '(t, err) := t_append (c_table c) vals in
      let c := set_table c t (c_head c) (touch (c_order c)) in
      match err with Some e => Some (c, Some e) | None => a_windowed c rest end
    | Ret (inr e) => Some (c, Some e)
    | _ => None
    end
  end.

Definition a_batch (d : adc) (name : byte_string) (c : coll) (json : byte_string) : option (adc * option dcErr) :=
  match json_array json with
  | None => Some (d, Some ErrJSON)
  | Some [] => Some (d, None)
  | Some raws =>
    if 2 ^ 31 <=? Z.of_nat (length raws) then None
    else
      match parse_rows (t_fields (c_table c)) 0 raws with
      | inr e => Some (d, Some e)
      | inl allVals =>
        if 0 <? c_window c then r ← a_windowed c allVals; Some (put_coll d name r.1, r.2)
        else
          match eval_all (c_computed c) allVals with
          | Ret (inl allVals) => a_growing d name c (fun t => t_append_batch t allVals)
          | Ret (inr e) => Some (d, Some e)
          | _ => None
          end
      end
  end.

(** ** Reading *)

Definition shown (v : any) : any := match v with ABytes s => AString (trim_zeros s) | _ => v end.

Fixpoint record_object (fs : list FieldDef) (rec : list any) (obj : gmap byte_string any) : gmap byte_string any :=
  match fs, rec with
  | f :: fs', v :: rec' => record_object fs' rec' (<[fName f := shown v]> obj)
  | _, _ => obj
  end.

Definition row_json (t : table) (r : Z) : byte_string :=
  default [] (json_marshal (record_object (t_fields t) (default [] (t_rows t !! r)) ∅)).

Fixpoint join_comma (l : list byte_string) : byte_string :=
  match l with [] => [] | [x] => x | x :: l' => x ++ 44 :: join_comma l' end.

(** A JSON array of the rows. *)
Definition t_json (t : table) (rows : list Z) : byte_string := 91 :: join_comma (row_json t <$> rows) ++ [93].

(** Outside: a record that has no JSON form (an infinity, a NaN). *)
Definition row_shown (t : table) (r : Z) : bool :=
  match json_marshal (record_object (t_fields t) (default [] (t_rows t !! r)) ∅) with Some _ => true | None => false end.

Definition a_json (t : table) (rows : list Z) : option byte_string :=
  if forallb (row_shown t) rows then Some (t_json t rows) else None.

Definition t_cell (t : table) (col : nat) (r : Z) : option any := rec ← t_rows t !! r; rec !! col.

Definition val_ltb (x y : option any) : bool :=
  match x, y with
  | Some (AFloat a), Some (AFloat b) => f64_ltb a b
  | Some (AInt a), Some (AInt b) => a <? b
  | Some (AUint8 a), Some (AUint8 b) => a <? b
  | Some (ABytes a), Some (ABytes b) => bytes_ltb a b
  | _, _ => false
  end.

Definition t_less (t : table) (col : nat) (i j : Z) : bool := val_ltb (t_cell t col i) (t_cell t col j).

Definition val_matches (op value : byte_string) (v : option any) : bool :=
  match v with
  | Some (AFloat x) => compareFloat x (ParseFloat value) op
  | Some (AInt n) => compareInt n (ParseInt value).1 op
  | Some (AUint8 n) => compareInt n (ParseInt value).1 op
  | Some (ABytes s) => compareString (trim_zeros s) value op
  | _ => false
  end.

(** A string that fills its column. *)
Definition val_full (v : option any) : bool :=
  match v with Some (ABytes s) => bool_decide (trim_zeros s = s) | _ => true end.

Definition val_number (v : option any) : Z + dcErr :=
  match v with
  | Some (AFloat x) => inl x
  | Some (AInt n) | Some (AUint8 n) => inl (f64_of_int n)
  | _ => inr ErrAggregateKind
  end.

Fixpoint t_fold (t : table) (col : nat) (rows : list Z) (s : acc) : acc + dcErr :=
  match rows with
  | [] => inl s
  | r :: rows' => match val_number (t_cell t col r) with inl v => t_fold t col rows' (acc_add s v) | inr e => inr e end
  end.

Definition on_field {A} (d : adc) (name field : byte_string) (f : coll -> nat -> A) : A + dcErr :=
  match d_colls d !! name with
  | None => inr ErrCollectionNotFound
  | Some c =>
    let i := findField (t_fields (c_table c)) field 0 in
    if i <? 0 then inr ErrFieldNotFound else inl (f c (Z.to_nat i))
  end.

Definition a_sorted (c : coll) (col : nat) (desc : bool) : coll :=
  let t := c_table c in
  let rows := sort_slice (t_less t col) (t_live t) in
  set_table c t (c_head c) (Sorted (if desc then reverse rows else rows)).

(** The rows a query shows, in order. *)
Definition a_shown (c : coll) : option (list Z) :=
  match c_order c with
  | Unsorted => Some (t_live (c_table c))
  | Sorted rows => Some rows
  | Stale => None
  end.

Definition a_query (c : coll) : option byte_string := rows ← a_shown c; a_json (c_table c) rows.

Definition a_filter (c : coll) (col : nat) (op value : byte_string) : option byte_string :=
  let t := c_table c in
  if forallb (fun r => val_full (t_cell t col r)) (t_live t)
  then a_json t (base.filter (fun r => val_matches op value (t_cell t col r) = true) (t_live t))
  else None.

(** The [n] oldest records go.  Outside: the collection was sorted, or the [n]
    first rows are not the oldest. *)
Definition a_trim (c : coll) (n : Z) : option coll :=
  let t := c_table c in
  match c_order c with
  | Unsorted =>
    let oldest := take (Z.to_nat n) (c_ages c) in
    if bool_decide (oldest = take (Z.to_nat n) (t_live t))
    then Some (set_table c (foldl t_delete t oldest) (c_head c) Unsorted) else None
  | _ => None
  end.

(** ** The abstract machine *)

Definition ret_err (x : adc * option dcErr) : option (adc * dres) := Some (x.1, RErr x.2).

Definition a_step (o : dop) (d : adc) : option (adc * dres) :=
  match o with
  | DCreate now name opts => ret_err (a_create now d name opts)
  | DDrop name tenantID app => ret_err (a_drop d name (makeQuotaKey tenantID app))
  | DAppendJSON name json =>
    match a_writable d name with
    | inr e => ret_err (d, Some e)
    | inl c =>
      match json_object json with
      | None => ret_err (d, Some ErrJSON)
      | Some obj => r ← a_append d name c (vals_of zero_append (t_fields (c_table c)) obj); ret_err r
      end
    end
  | DAppendVals name vals =>
    match a_writable d name with inr e => ret_err (d, Some e) | inl c => r ← a_append d name c vals; ret_err r end
  | DAppendBatch name json =>
    match a_writable d name with inr e => ret_err (d, Some e) | inl c => r ← a_batch d name c json; ret_err r end
  | DQuery name =>
    match d_colls d !! name with
    | None => Some (d, RJson (inr ErrCollectionNotFound))
    | Some c => json ← a_query c; Some (d, RJson (inl json))
    end
  | DSort name field desc =>
    match on_field d name field (fun c col => a_sorted c col desc) with
    | inl c => ret_err (put_coll d name c, None)
    | inr e => ret_err (d, Some e)
    end
  | DFilter name field op value =>
    match on_field d name field (fun c col => a_filter c col op value) with
    | inl json => json ← json; Some (d, RJson (inl json))
    | inr e => Some (d, RJson (inr e))
    end
  | DAggregate name field op =>
    let fold c col := t_fold (c_table c) col (t_live (c_table c)) (mkAcc f64_zero f64_zero f64_zero 0 true) in
    Some (d, RNum (match on_field d name field fold with
                   | inl (inl s) => aggregate_result op s
                   | inl (inr e) | inr e => inr e
                   end))
  | DTrim name n =>
    match d_colls d !! name with
    | None => ret_err (d, Some ErrCollectionNotFound)
    | Some c => c ← a_trim c n; ret_err (put_coll d name c, None)
    end
  | DSweep now => ret_err (a_sweep now d, None)
  | DSetLimit tenantID app maxBytes maxSlots =>
    ret_err (mkAdc (d_colls d) (<[makeQuotaKey tenantID app := (maxBytes, maxSlots)]> (d_limits d)), None)
  | DUsage tenantID app =>
    Some (d, RUsage (a_bytes d (makeQuotaKey tenantID app)) (a_slots d (makeQuotaKey tenantID app)))
  end.

Fixpoint a_run (ops : list dop) (d : adc) : option (list dres) :=
  match ops with
  | [] => Some []
  | o :: ops' => r ← a_step o d; rs ← a_run ops' r.1; Some (r.2 :: rs)
  end.

(** ** The contract of an operation

    Collection names of 1 to 128 bytes that do not end in a zero byte,
    applications without zero bytes, 16-bit tenants, at least one byte per
    record, and an expiry within 64 bits. *)

Definition name_ok (name : byte_string) : Prop := name <> [] /\ (length name <= 128)%nat /\ last name <> Some 0.

Definition opts_ok (now : Z) (o : CreateOpts) : Prop :=
  0 <= o_TenantID o < 2 ^ 16 /\ (0 ∉ o_App o) /\ Forall field_ok (set_width <$> o_Fields o) /\
  0 < total (set_width <$> o_Fields o) < 2 ^ 31 /\ 0 < now + o_TTLSec o < 2 ^ 63.

Definition op_ok (o : dop) : Prop :=
  match o with DCreate now name opts => name_ok name /\ opts_ok now opts | _ => True end.

End spec.
