(* ===== verification/DataCacheRefine.v ===== *)
(** * The data cache implements its specification: slots and quotas

    The relation between the manager and the abstract data cache, and what
    keeps it: exclusive slots, usage counters that are sums over the
    collections of an owner, and the operations that touch one collection. *)

From S2P Require Import Prelude Bytes Float64 Cond DataCache DataCacheTable DataCacheArena DataCacheSpec.

Local Open Scope Z_scope.
Local Open Scope rah_scope.

Section refine.
Context {P : Platform}.
Context (nslots maxBuf maxRec platBytes platSlots : Z).
Context (Hnslots : 0 <= nslots <= 256) (HmaxBuf : 0 <= maxBuf < 2 ^ 31) (HmaxRec : maxRec < 2 ^ 31).

(** ** Sums over collections *)

Implicit Types (cs : gmap byte_string coll) (name : byte_string) (c : coll).

Lemma foldr_perm (f : coll -> Z) (l l' : list (byte_string * coll)) : l ≡ₚ l' ->
  foldr (fun p s => f p.2 + s) 0 l = foldr (fun p s => f p.2 + s) 0 l'.
Proof. induction 1; cbn; lia. Qed.

Lemma colls_insert f cs name c : cs !! name = None -> sum_colls f (<[name := c]> cs) = f c + sum_colls f cs.
Proof. intros H. unfold sum_colls. by rewrite (foldr_perm f _ _ (map_to_list_insert cs name c H)). Qed.

Lemma colls_delete f cs name c : cs !! name = Some c -> sum_colls f cs = f c + sum_colls f (delete name cs).
Proof. intros H. rewrite <- (insert_delete_id cs name c H) at 1. rewrite colls_insert; [done|]. by rewrite lookup_delete_eq. Qed.

Lemma colls_replace f cs name c c' : cs !! name = Some c -> sum_colls f (<[name := c']> cs) = sum_colls f cs - f c + f c'.
Proof.
  intros H. rewrite (colls_delete f cs name c H), <- insert_delete_eq, colls_insert by (by rewrite lookup_delete_eq). lia.
Qed.

Lemma sum_bounds f cs b : 0 <= b -> (forall name c, cs !! name = Some c -> 0 <= f c <= b) -> 0 <= sum_colls f cs <= b * Z.of_nat (size cs).
Proof.
  intros Hb. induction cs as [|name c cs Hn IH] using map_ind; intros H.
  { unfold sum_colls. rewrite map_to_list_empty, map_size_empty. cbn. lia. }
  rewrite colls_insert, map_size_insert_None, Nat2Z.inj_succ, Z.mul_succ_r by done.
  assert (0 <= f c <= b) by (apply (H name); by rewrite lookup_insert_eq). destruct IH as [? ?]; [|lia].
  intros n' c' Hn'. apply (H n'). rewrite lookup_insert_ne; [done|]. intros ->. congruence.
Qed.

(** ** Quotas *)

(** The counters agree with a usage table. *)
Definition quota_rel (q : QuotaRegistry) (used : quotaKey -> Z * Z) (limits : gmap quotaKey (Z * Z)) : Prop :=
  platformMaxBytes q = platBytes /\ platformMaxSlots q = platSlots /\
  forall k, match entries q !! k with
            | None => used k = (0, 0) /\ limits !! k = None
            | Some e => (usedBytes e, usedSlots e) = used k /\ (q_maxBytes e, q_maxSlots e) = default (platBytes, platSlots) (limits !! k)
            end.

Definition a_used (d : adc) (k : quotaKey) : Z * Z := (a_bytes d k, a_slots d k).

Definition used_add (used : quotaKey -> Z * Z) (k : quotaKey) (b s : Z) (k' : quotaKey) : Z * Z :=
  if bool_decide (k' = k) then ((used k).1 + b, (used k).2 + s) else used k'.

Lemma quota_rel_ext q u u' l : (forall k, u k = u' k) -> quota_rel q u l -> quota_rel q u' l.
Proof. intros H (H1 & H2 & H3). split_and!; [done|done|]. intros k. specialize (H3 k). by rewrite H in H3. Qed.

(** What an entry that may not exist yet holds. *)
Definition entry_of (q : QuotaRegistry) (k : quotaKey) : tenantDataQuota :=
  default (mkQuota 0 0 (platformMaxBytes q) (platformMaxSlots q)) (entries q !! k).

Lemma entry_of_rel q u l k : quota_rel q u l ->
  u k = (usedBytes (entry_of q k), usedSlots (entry_of q k)) /\
  default (platBytes, platSlots) (l !! k) = (q_maxBytes (entry_of q k), q_maxSlots (entry_of q k)).
Proof.
  intros (H1 & H2 & H3). specialize (H3 k). unfold entry_of. destruct (entries q !! k) as [e|]; cbn; [by destruct H3 as [<- <-]|].
  destruct H3 as [-> ->]. cbn. by rewrite H1, H2.
Qed.

Lemma quota_rel_set q u l k e b s : quota_rel q u l -> e = mkQuota ((u k).1 + b) ((u k).2 + s) (q_maxBytes (entry_of q k)) (q_maxSlots (entry_of q k)) ->
  quota_rel (set_quota q k e) (used_add u k b s) l.
Proof.
  intros H ->. pose proof (entry_of_rel q u l k H) as [_ Hl]. destruct H as (H1 & H2 & H3). split_and!; [done|done|]. intros k'. cbn. unfold used_add.
  destruct (decide (k' = k)) as [->|Hne].
  - rewrite lookup_insert_eq, bool_decide_eq_true_2 by done. by rewrite Hl.
  - rewrite lookup_insert_ne, bool_decide_eq_false_2 by congruence. apply H3.
Qed.

Lemma used_add_0 u k k' : used_add u k 0 0 k' = u k'.
Proof. unfold used_add. destruct (bool_decide_reflect (k' = k)) as [->|]; [|done]. rewrite !Z.add_0_r. by destruct (u k). Qed.

(** Usage stays far from overflow. *)
Definition used_small (u : quotaKey -> Z * Z) : Prop := forall k, 0 <= (u k).1 < 2 ^ 40 /\ 0 <= (u k).2 <= 1000.

Lemma use_small e b s : - 2 ^ 63 <= usedBytes e + b < 2 ^ 63 -> - 2 ^ 31 <= usedSlots e + s < 2 ^ 31 ->
  use e b s = mkQuota (usedBytes e + b) (usedSlots e + s) (q_maxBytes e) (q_maxSlots e).
Proof. intros Hb Hs. unfold use. by rewrite !wraps_small by lia. Qed.

Lemma Reserve_ok q u l t app b s : quota_rel q u l -> used_small u -> 0 <= b < 2 ^ 32 -> 0 <= s <= 1 ->
  let k := makeQuotaKey t app in
  let lim := default (platBytes, platSlots) (l !! k) in
  if ((u k).1 + b <=? lim.1) && ((u k).2 + s <=? lim.2)
  then exists q', Reserve q t app b s = (q', None) /\ quota_rel q' (used_add u k b s) l
  else exists q', Reserve q t app b s = (q', Some ErrQuotaExceeded) /\ quota_rel q' u l.
Proof.
  intros H Hu Hb Hs k lim. destruct (entry_of_rel q u l k H) as [Eu El]. subst lim. rewrite El. specialize (Hu k). unfold Reserve. fold k.
  change (default _ (entries q !! k)) with (entry_of q k). set (e := entry_of q k) in *. rewrite Eu in *. cbn [fst snd] in *.
  rewrite (wraps_small 32 s) by lia. rewrite (use_small e b 0) by lia. cbn [usedBytes].
  assert (forall x b' s', x = mkQuota ((u k).1 + b') ((u k).2 + s') (q_maxBytes e) (q_maxSlots e) -> quota_rel (set_quota q k x) (used_add u k b' s') l) as Hset
    by (intros; by apply quota_rel_set).
  rewrite Eu in Hset. cbn [fst snd] in Hset.
  destruct (Z.ltb_spec (q_maxBytes e) (usedBytes e + b)), (Z.leb_spec (usedBytes e + b) (q_maxBytes e)); try lia; cbn [andb].
  - eexists. split; [reflexivity|]. eapply quota_rel_ext; [apply (used_add_0 u k)|]. apply Hset. rewrite use_small by (cbn; lia). cbn. f_equal; lia.
  - rewrite (use_small _ 0 s) by (cbn; lia). cbn [usedBytes usedSlots q_maxBytes q_maxSlots]. rewrite !Z.add_0_r.
    destruct (Z.ltb_spec (q_maxSlots e) (usedSlots e + s)), (Z.leb_spec (usedSlots e + s) (q_maxSlots e)); try lia.
    + eexists. split; [reflexivity|]. eapply quota_rel_ext; [apply (used_add_0 u k)|]. apply Hset. rewrite use_small by (cbn; lia). cbn. f_equal; lia.
    + eexists. split; [reflexivity|]. by apply Hset.
Qed.

Lemma quota_Release_ok q u l t app b s : let k := makeQuotaKey t app in
  quota_rel q u l -> used_small u -> 0 <= b <= (u k).1 -> 0 <= s <= (u k).2 -> s <= 1 ->
  quota_rel (quota_Release q t app b s) (used_add u k (- b) (- s)) l.
Proof.
  intros k H Hu Hb Hs Hs1. destruct (entry_of_rel q u l k H) as [Eu El]. unfold quota_Release. fold k.
  destruct (entries q !! k) as [e|] eqn:E.
  - assert (entry_of q k = e) as Ee by (unfold entry_of; by rewrite E). apply quota_rel_set; [done|]. specialize (Hu k). rewrite Ee, Eu in *. cbn [fst snd] in *.
    rewrite (wraps_small 32 s) by lia. apply use_small; lia.
  - assert (u k = (0, 0)) as E0. { destruct H as (_ & _ & H3). specialize (H3 k). rewrite E in H3. apply H3. }
    rewrite E0 in *. cbn in *. replace b with 0 by lia. replace s with 0 by lia. eapply quota_rel_ext; [|done]. intros k'. by rewrite used_add_0.
Qed.

(** ** One collection and its slot *)

Record meta_rel (meta : CollectionMeta) (c : coll) : Prop := mkMetaRel {
  mr_fields : Fields (cm_Schema meta) = t_fields (c_table c);
  mr_size : BufSize (cm_Schema meta) = c_bytes c;
  mr_access : Access meta = c_access c;
  mr_growth : Growth meta = c_growth c;
  mr_maxcap : MaxCap meta = c_maxcap c;
  mr_owner : QuotaKey meta = c_owner c;
  mr_window : Z.max 0 (WindowSize meta) = Z.max 0 (c_window c);
  mr_computed : ComputedFields meta = c_computed c }.

(** The index of a fresh sort lists the rows first. *)
Definition order_rel (s : poolSlot) (c : coll) : Prop :=
  match c_order c with
  | Unsorted => SortByIdx (aSchema (arena s)) = -1
  | Sorted rows =>
    0 <= SortByIdx (aSchema (arena s)) /\ take (length rows) (indices s) = rows /\
    Z.of_nat (length rows) = t_count (c_table c) /\ forall r, r ∈ rows -> is_Some (t_rows (c_table c) !! r)
  | Stale => 0 <= SortByIdx (aSchema (arena s))
  end.

Record slot_rel (s : poolSlot) (name : byte_string) (c : coll) : Prop := mkSlotRel {
  sr_arena : arena_rel (arena s) (c_table c);
  sr_table : table_ok (c_table c);
  sr_idx : Z.of_nat (length (indices s)) = t_cap (c_table c);
  sr_use : inUse s = true;
  sr_owner : exists tid app, 0 <= tid < 2 ^ 16 /\ (0 ∉ app) /\ c_owner c = makeQuotaKey tid app /\ ownerKey s = encodeOwnerKey tid app;
  sr_exp : ttlExpUnix s = c_exp c;
  sr_name : ps_name s = pad 128 name /\ name_ok name;
  sr_head : ringHead s = c_head c /\ 0 <= c_head c < 2 ^ 31;
  sr_order : order_rel s c;
  sr_bytes : c_bytes c <= maxBuf }.

(** A slot nobody uses. *)
Definition clean (s : poolSlot) : Prop :=
  inUse s = false /\ ps_name s = replicate 128 0 /\ ttlExpUnix s = 0 /\ ringHead s = 0.

Definition held (p : ArenaPool) (nm : gmap byte_string CollectionMeta) (name : byte_string) (c : coll) : Prop :=
  exists meta s, nm !! name = Some meta /\ meta_rel meta c /\ 0 <= PoolIdx meta < nslots /\ (PoolIdx meta ∉ free p) /\
    slots p !! Z.to_nat (PoolIdx meta) = Some s /\ slot_rel s name c.

Record pool_rel (p : ArenaPool) (nm : gmap byte_string CollectionMeta) (cs : gmap byte_string coll) : Prop := mkPoolRel {
  pr_conf : maxSlots p = nslots /\ maxBufBytes p = maxBuf /\ maxRecords p = maxRec /\ Z.of_nat (length (slots p)) = nslots;
  pr_nodup : NoDup (free p);
  pr_free : forall i, i ∈ free p -> 0 <= i < nslots /\ exists s, slots p !! Z.to_nat i = Some s /\ clean s;
  pr_held : forall name c, cs !! name = Some c -> held p nm name c;
  pr_dom : forall name, nm !! name = None <-> cs !! name = None;
  pr_inj : forall n1 n2 m1 m2, nm !! n1 = Some m1 -> nm !! n2 = Some m2 -> PoolIdx m1 = PoolIdx m2 -> n1 = n2;
  pr_all : forall i, 0 <= i < nslots -> i ∈ free p \/ exists name meta, nm !! name = Some meta /\ PoolIdx meta = i;
  pr_count : Z.of_nat (length (free p)) + Z.of_nat (size cs) = nslots }.

Record dc_rel (m : DataCacheManager) (d : adc) : Prop := mkDcRel {
  dr_pool : pool_rel (pool m) (named m) (d_colls d);
  dr_quota : quota_rel (quotas m) (a_used d) (d_limits d) }.

Lemma slot_bytes s name c : slot_rel s name c -> 0 <= c_bytes c <= maxBuf.
Proof.
  intros H. split; [|apply (sr_bytes _ _ _ H)]. pose proof (sr_table _ _ _ H) as Ht. unfold c_bytes.
  pose proof (to_cap _ _ Ht). pose proof (to_total _ _ Ht). apply Z.mul_nonneg_nonneg; lia.
Qed.

Lemma pool_small p nm cs k : pool_rel p nm cs ->
  0 <= sum_colls (owned k c_bytes) cs < 2 ^ 39 /\ 0 <= sum_colls (owned k (fun _ => 1)) cs <= 256.
Proof using Hnslots HmaxBuf.
  intros H. pose proof (pr_count _ _ _ H). unfold owned.
  pose proof (sum_bounds (fun c => if bool_decide (c_owner c = k) then c_bytes c else 0) cs maxBuf) as S1.
  pose proof (sum_bounds (fun c => if bool_decide (c_owner c = k) then 1 else 0) cs 1) as S2.
  destruct S1 as [? Hs1]; [lia| |]; [|destruct S2 as [? Hs2]; [lia| |]].
  - intros name c Hc. destruct (pr_held _ _ _ H _ _ Hc) as (meta & s & _ & _ & _ & _ & _ & Hs). apply slot_bytes in Hs. destruct (bool_decide _); lia.
  - intros name c _. destruct (bool_decide _); lia.
  - assert (maxBuf * Z.of_nat (size cs) <= maxBuf * 256) by (apply Z.mul_le_mono_nonneg_l; lia). lia.
Qed.

Lemma dc_small m d : dc_rel m d -> used_small (a_used d).
Proof using Hnslots HmaxBuf. intros [H _] k. pose proof (pool_small _ _ _ k H). unfold a_used, a_bytes, a_slots. cbn [fst snd]. lia. Qed.

(** Replacing one collection, its slot and perhaps its metadata. *)
Lemma pool_update p nm cs name meta meta' c s' c' : pool_rel p nm cs -> nm !! name = Some meta -> cs !! name = Some c ->
  PoolIdx meta' = PoolIdx meta -> slot_rel s' name c' -> meta_rel meta' c' ->
  pool_rel (set_pool_slot p (PoolIdx meta) s') (<[name := meta']> nm) (<[name := c']> cs).
Proof.
  intros [Hcf Hnd Hfr Hh Hd Hi Ha Hct] Hm Hc Hp Hs Hmr.
  destruct (Hh name c Hc) as (meta0 & s0 & E0 & Hmr0 & Hr0 & Hn0 & Hs0 & _). replace meta0 with meta in * by congruence. clear E0.
  assert (forall name' m', <[name := meta']> nm !! name' = Some m' -> exists m0, nm !! name' = Some m0 /\ PoolIdx m' = PoolIdx m0) as Hback.
  { intros name' m' [[<- <-]|[_ E]]%lookup_insert_Some; eauto. }
  constructor; cbn.
  - by rewrite length_insert.
  - done.
  - intros i Hin. destruct (Hfr i Hin) as (Hb & s & Hs1 & Hcl). split; [done|]. exists s. split; [|done].
    rewrite list_lookup_insert_ne; [done|]. intros E. apply Hn0. by replace (PoolIdx meta) with i by lia.
  - intros name' c1 [[<- <-]|[Hne E]]%lookup_insert_Some.
    + exists meta', s'. rewrite Hp. split; [by rewrite lookup_insert_eq|]. split; [done|]. split; [done|]. split; [done|].
      split; [|done]. apply list_lookup_insert_eq. by eapply lookup_lt_Some.
    + destruct (Hh name' c1 E) as (m1 & s1 & E1 & Hmr1 & Hr1 & Hn1 & Hs1 & Hsr1). exists m1, s1. split; [by rewrite lookup_insert_ne|]. split; [done|].
      split; [done|]. split; [done|]. split; [|done]. cbn. rewrite list_lookup_insert_ne; [done|]. intros Eq. apply Hne. eapply Hi; [exact Hm|exact E1|lia].
  - intros name'. destruct (decide (name' = name)) as [->|]; [by rewrite !lookup_insert_eq|by rewrite !lookup_insert_ne].
  - intros n1 n2 m1 m2 [m1' [E1 ->]]%Hback [m2' [E2 ->]]%Hback. by apply Hi.
  - intros i Hb. destruct (Ha i Hb) as [?|(n & m1 & E & <-)]; [by left|right]. destruct (decide (n = name)) as [->|].
    + exists name, meta'. rewrite lookup_insert_eq. split; [done|]. congruence.
    + exists n, m1. by rewrite lookup_insert_ne.
  - by rewrite map_size_insert_Some by (by eexists).
Qed.

Lemma pool_lookup p nm cs name : pool_rel p nm cs ->
  match nm !! name, cs !! name with
  | Some meta, Some c => exists s, go_index (slots p) (PoolIdx meta) = Ret s /\ slot_rel s name c /\ meta_rel meta c
  | None, None => True
  | _, _ => False
  end.
Proof.
  intros H. destruct (cs !! name) as [c|] eqn:Ec.
  - destruct (pr_held _ _ _ H _ _ Ec) as (meta & s & -> & Hmr & Hb & _ & Hs & Hsr). exists s. split_and!; try done. by apply go_index_Z; [lia|].
  - by rewrite (proj2 (pr_dom _ _ _ H name)).
Qed.

End refine.
