(* ===== verification/DataCacheOps.v ===== *)
(** * The data cache implements its specification: operations on one collection *)

From S2P Require Import Prelude Bytes Float64 Cond DataCache DataCacheTable DataCacheArena DataCacheSpec DataCacheRefine.

Local Open Scope Z_scope.
Local Open Scope rah_scope.

Section ops.
Context {P : Platform}.
Context (nslots maxBuf maxRec platBytes platSlots : Z).
Context (Hnslots : 0 <= nslots <= 256) (HmaxBuf : 0 <= maxBuf < 2 ^ 31) (HmaxRec : maxRec < 2 ^ 31).

Abbreviation rel := (dc_rel nslots maxBuf maxRec platBytes platSlots).
Abbreviation srel := (slot_rel maxBuf).

(** ** What an operation on an arena has to show *)

Definition table_op (f : Arena -> outcome (Arena * option dcErr)) (g : table -> table * option dcErr) : Prop :=
  forall a t, arena_rel a t -> table_ok t -> exists a', f a = Ret (a', (g t).2) /\ arena_rel a' (g t).1 /\ table_ok (g t).1 /\
    aSchema a' = aSchema a /\ t_fields (g t).1 = t_fields t /\ t_cap (g t).1 = t_cap t.

Lemma write_val_schema a k i r v a' : write_val a k i r v = Ret (inl a') -> aSchema a' = aSchema a.
Proof.
  unfold write_val, SetFloat64, SetInt64, SetEnum, SetStringAt. destruct k, v; try done;
    (destruct (go_index (ColRegions (aSchema a)) i); cbn [obind]; try done);
    (destruct (store _ _ _) || destruct (go_slice _ _ _)); cbn [obind]; try done; by intros [= <-].
Qed.

Lemma write_vals_schema vals a i r a' e : write_vals a i r vals = Ret (a', e) -> aSchema a' = aSchema a.
Proof.
  revert a i. induction vals as [|v vals IH]; intros a i; cbn [write_vals]; [by intros [= <- _]|].
  destruct (go_index _ i); cbn [obind]; try done. destruct (write_val a _ i r v) as [[a1|e1]| |] eqn:E; cbn [obind]; try done.
  - intros H%IH. rewrite H. by eapply write_val_schema.
  - by intros [= <- _].
Qed.

Lemma writeRow_schema a r vals a' e : writeRow a r vals = Ret (a', e) -> aSchema a' = aSchema a.
Proof. unfold writeRow. destruct (Nat.eqb _ _); [apply write_vals_schema|by intros [= <- _]]. Qed.

Lemma allocRows_schema a n : aSchema (allocRows a n).1 = aSchema a.
Proof. unfold allocRows. destruct (pop_rows n (freeRows a)). by destruct (_ && _). Qed.

Lemma append_schema a vals a' e : arena_Append a vals = Ret (a', e) -> aSchema a' = aSchema a.
Proof.
  unfold arena_Append. pose proof (allocRows_schema a 1) as Ha. destruct (allocRows a 1) as [a1 [rows|e1]]; cbn [fst] in Ha; [|by intros [= <- _]].
  destruct (go_index rows 0); cbn [obind]; try done. destruct (writeRow a1 _ vals) as [[a2 [e2|]]| |] eqn:E; cbn [obind]; try done;
    intros [= <- _]; apply writeRow_schema in E; cbn; congruence.
Qed.

Lemma write_rows_schema allVals a i rows a' e : write_rows a i rows allVals = Ret (a', e) -> aSchema a' = aSchema a.
Proof.
  revert a i. induction allVals as [|vals rest IH]; intros a i; cbn [write_rows]; [by intros [= <- _]|].
  destruct (go_index rows i); cbn [obind]; try done. destruct (writeRow a _ vals) as [[a1 [e1|]]| |] eqn:E; cbn [obind]; try done; apply writeRow_schema in E.
  - intros [= <- _]. done.
  - intros H%IH. congruence.
Qed.

Lemma batch_schema a allVals a' e : AppendBatch a allVals = Ret (a', e) -> aSchema a' = aSchema a.
Proof.
  unfold AppendBatch. destruct allVals as [|v vs] eqn:Ev; [by intros [= <- _]|]. rewrite <- Ev. destruct (batch_count_err a 0 allVals); [by intros [= <- _]|].
  pose proof (allocRows_schema a (length allVals)) as Ha. destruct (allocRows a (length allVals)) as [a1 [rows|e1]]; cbn [fst] in Ha; [|by intros [= <- _]].
  destruct (write_rows a1 0 rows allVals) as [[a2 [[i e2]|]]| |] eqn:E; cbn [obind]; try done; apply write_rows_schema in E; intros [= <- _]; cbn; congruence.
Qed.

Lemma t_append_meta t vals : t_fields (t_append t vals).1 = t_fields t /\ t_cap (t_append t vals).1 = t_cap t.
Proof.
  unfold t_append. destruct (t_alloc_fields t 1) as (Ef & Ec & _). destruct (t_alloc t 1) as [t1 [rs|]]; [|done].
  destruct rs as [|r [|]]; [done| |done]. by destruct (store_row _ _).
Qed.

Lemma t_batch_meta t allVals : t_fields (t_append_batch t allVals).1 = t_fields t /\ t_cap (t_append_batch t allVals).1 = t_cap t.
Proof.
  unfold t_append_batch. destruct allVals as [|v vs] eqn:Ev; [done|]. rewrite <- Ev. destruct (list_find _ _) as [[]|]; [done|].
  destruct (t_alloc_fields t (length allVals)) as (Ef & Ec & _). destruct (t_alloc t (length allVals)) as [t1 [rs|]]; [|done].
  by destruct (store_rows _ _ _) as [|[]].
Qed.

Lemma append_op vals : table_op (fun a => arena_Append a vals) (fun t => t_append t vals).
Proof.
  intros a t H Ht. destruct (arena_Append_ok a t vals H Ht) as (a' & E & H1 & H2). exists a'. split; [done|]. split; [done|]. split; [done|].
  split; [by eapply append_schema|]. apply t_append_meta.
Qed.

Lemma batch_op allVals : Z.of_nat (length allVals) < 2 ^ 31 -> table_op (fun a => AppendBatch a allVals) (fun t => t_append_batch t allVals).
Proof.
  intros Hl a t H Ht. destruct (AppendBatch_ok a t allVals H Ht Hl) as (a' & E & H1 & H2). exists a'. split; [done|]. split; [done|]. split; [done|].
  split; [by eapply batch_schema|]. apply t_batch_meta.
Qed.

Lemma trim_schema rows a n count : aSchema (trim_rows a n rows count) = aSchema a.
Proof.
  revert a count. induction rows as [|i rows IH]; intros a count; cbn [trim_rows]; [done|]. destruct (count <? n); [|done].
  destruct (arena_IsLive a i); rewrite IH; [|done]. unfold arena_Delete. destruct (_ || _); [done|]. by destruct (bool_decide _).
Qed.

Lemma t_trim_meta t n : t_fields (t_trim t n) = t_fields t /\ t_cap (t_trim t n) = t_cap t.
Proof.
  unfold t_trim. generalize (take (Z.to_nat n) (t_live t)). intros l. revert t. induction l as [|r l IH]; intros t; cbn [foldl]; [done|].
  destruct (IH (t_delete t r)) as [-> ->]. destruct (t_delete_meta t r) as (_ & -> & ->). done.
Qed.

Lemma trim_op n : table_op (fun a => Ret (trim_rows a n (seqZ 0 (Size a)) 0, None)) (fun t => (t_trim t n, None)).
Proof.
  intros a t H Ht. destruct (t_trim_ok a t n H Ht) as [H1 H2]. eexists. split; [reflexivity|]. split; [done|]. split; [done|].
  split; [apply trim_schema|]. apply t_trim_meta.
Qed.

(** ** Running it on a collection *)

Lemma used_put d name c c' k : d_colls d !! name = Some c -> c_owner c' = c_owner c ->
  a_used (put_coll d name c') k = used_add (a_used d) (c_owner c) (c_bytes c' - c_bytes c) 0 k.
Proof.
  intros Hc Ho. unfold a_used, a_bytes, a_slots, put_coll, used_add. cbn. rewrite !(colls_replace _ _ _ _ _ Hc). unfold owned. rewrite Ho.
  destruct (bool_decide_reflect (k = c_owner c)) as [->|Hne].
  - rewrite !bool_decide_eq_true_2 by done. f_equal; lia.
  - rewrite !(bool_decide_eq_false_2 (c_owner c = k)) by congruence. f_equal; lia.
Qed.

Lemma used_put_same d name c c' k : d_colls d !! name = Some c -> c_owner c' = c_owner c -> c_bytes c' = c_bytes c -> a_used (put_coll d name c') k = a_used d k.
Proof. intros Hc Ho Hb. rewrite (used_put d name c c' k Hc Ho). rewrite Hb, Z.sub_diag. apply used_add_0. Qed.

(** Storing a changed slot of a collection that keeps its size. *)
Lemma rel_update m d name meta c s' c' : rel m d -> named m !! name = Some meta -> d_colls d !! name = Some c ->
  srel s' name c' -> meta_rel meta c' -> c_owner c' = c_owner c -> c_bytes c' = c_bytes c ->
  rel (with_pool m (set_pool_slot (pool m) (PoolIdx meta) s')) (put_coll d name c').
Proof.
  intros [Hp Hq] Hm Hc Hs Hmr Ho Hb. constructor; cbn.
  - pose proof (pool_update _ _ _ _ _ _ name meta meta c s' c' Hp Hm Hc eq_refl Hs Hmr) as H. by rewrite insert_id in H.
  - eapply quota_rel_ext; [|done]. intros k. symmetry. by apply (used_put_same d name c c' k).
Qed.

Lemma order_touch s s' c t h : order_rel s c -> SortByIdx (aSchema (arena s')) = SortByIdx (aSchema (arena s)) ->
  order_rel s' (set_table c t h (touch (c_order c))).
Proof. unfold order_rel. cbn. destruct (c_order c); cbn; intros H E; rewrite E; tauto. Qed.

Lemma meta_rel_table meta c t h o : meta_rel meta c -> t_fields t = t_fields (c_table c) -> t_cap t = t_cap (c_table c) -> meta_rel meta (set_table c t h o).
Proof. intros [] Hf Hc. constructor; cbn; try done; [congruence|]. unfold c_bytes in *. cbn. congruence. Qed.

Lemma slot_rel_table s s' name c t h : srel s name c -> arena_rel (arena s') t -> table_ok t -> t_fields t = t_fields (c_table c) -> t_cap t = t_cap (c_table c) ->
  SortByIdx (aSchema (arena s')) = SortByIdx (aSchema (arena s)) -> indices s' = indices s -> inUse s' = inUse s -> ownerKey s' = ownerKey s ->
  ttlExpUnix s' = ttlExpUnix s -> ps_name s' = ps_name s -> ringHead s' = h -> 0 <= h < 2 ^ 31 -> srel s' name (set_table c t h (touch (c_order c))).
Proof.
  intros [] Ha Ht Hf Hc Hs Hi Hu Ho Hx Hn Hh Hh'. constructor; cbn; [done|done| |congruence| |congruence| |done| |].
  - by rewrite Hi, Hc.
  - destruct sr_owner as (tid & app & ?). exists tid, app. by rewrite Ho.
  - by rewrite Hn.
  - by eapply order_touch.
  - unfold c_bytes in *. cbn. by rewrite Hf, Hc.
Qed.

Lemma on_arena_ok f g m d name meta c : table_op f g -> rel m d -> named m !! name = Some meta -> d_colls d !! name = Some c ->
  exists m', on_arena m (PoolIdx meta) f = Ret (m', (g (c_table c)).2) /\
    rel m' (put_coll d name (set_table c (g (c_table c)).1 (c_head c) (touch (c_order c)))) /\ named m' = named m.
Proof.
  intros Hop H Hm Hc. pose proof (pool_lookup _ _ _ _ _ _ name (dr_pool _ _ _ _ _ _ _ H)) as Hl. rewrite Hm, Hc in Hl. destruct Hl as (s & Es & Hs & Hmr).
  unfold on_arena. rewrite Es. cbn [obind]. destruct (Hop _ _ (sr_arena _ _ _ _ Hs) (sr_table _ _ _ _ Hs)) as (a' & -> & Ha & Ht & Hsch & Hf & Hcap). cbn [obind fst snd].
  eexists. split; [reflexivity|]. split; [|done]. destruct (sr_head _ _ _ _ Hs) as [Hh Hb]. eapply (rel_update m d name meta c).
  - done.
  - done.
  - done.
  - eapply (slot_rel_table s); try done. cbn. by rewrite Hsch.
  - by apply meta_rel_table.
  - done.
  - unfold c_bytes. cbn. by rewrite Hf, Hcap.
Qed.

(** ** Eviction *)

Lemma window_test meta c : meta_rel meta c -> (0 <? WindowSize meta) = (0 <? c_window c) /\ (0 < c_window c -> WindowSize meta = c_window c).
Proof. intros H. pose proof (mr_window _ _ H). split; [|lia]. destruct (Z.ltb_spec 0 (WindowSize meta)), (Z.ltb_spec 0 (c_window c)); lia. Qed.

Lemma put_same d name c : d_colls d !! name = Some c -> put_coll d name c = d.
Proof. intros H. unfold put_coll, set_colls. rewrite insert_id by done. by destruct d. Qed.

Lemma put_put d name c c' : put_coll (put_coll d name c) name c' = put_coll d name c'.
Proof. unfold put_coll, set_colls. cbn. by rewrite insert_insert_eq. Qed.

Lemma lookup_put d name c : d_colls (put_coll d name c) !! name = Some c.
Proof. cbn. by rewrite lookup_insert_eq. Qed.

Lemma delete_schema a i : aSchema (arena_Delete a i) = aSchema a.
Proof. unfold arena_Delete. destruct (_ || _); [done|]. by destruct (bool_decide _). Qed.

Lemma evict_ok m d name meta c c' : rel m d -> named m !! name = Some meta -> d_colls d !! name = Some c -> a_evict c = Some c' ->
  exists m', evict m meta = Ret m' /\ rel m' (put_coll d name c') /\ named m' = named m /\
    meta_rel meta c' /\ c_computed c' = c_computed c /\ c_growth c' = c_growth c /\ c_window c' = c_window c.
Proof.
  intros H Hm Hc. pose proof (pool_lookup _ _ _ _ _ _ name (dr_pool _ _ _ _ _ _ _ H)) as Hl. rewrite Hm, Hc in Hl. destruct Hl as (s & Es & Hs & Hmr).
  destruct (window_test _ _ Hmr) as [Hw Hw']. unfold evict, a_evict, a_full. rewrite Es. cbn [obind]. rewrite Hw, (ar_live _ _ (sr_arena _ _ _ _ Hs)).
  destruct (Z.ltb_spec 0 (c_window c)) as [Hpos|]; cbn [andb].
  2: { intros [= <-]. exists m. rewrite put_same by done. by split_and!. }
  rewrite (Hw' Hpos). destruct (Z.leb_spec (c_window c) (t_count (c_table c))).
  2: { intros [= <-]. exists m. rewrite put_same by done. by split_and!. }
  destruct (head (c_ages c)) as [r|]; cbn [mbind option_bind]; [|done].
  destruct (Z.leb_spec (2 ^ 31) (c_head c + 1)) as [|Hh]; [done|]. destruct (Z.eqb_spec r (c_head c mod c_window c)) as [->|]; [|done].
  cbn [orb negb]. intros [= <-]. destruct (sr_head _ _ _ _ Hs) as [Eh Hb].
  eexists. split; [reflexivity|]. rewrite Eh, (Z.rem_mod_nonneg (c_head c)) by lia. split; [|split_and!; try done].
  - eapply (rel_update m d name meta c); try done.
    + eapply (slot_rel_table s); try done; cbn.
      * apply arena_Delete_ok; [apply Hs|apply Hs].
      * apply t_delete_ok, Hs.
      * apply t_delete_meta.
      * apply t_delete_meta.
      * by rewrite delete_schema.
      * apply wraps_small; lia.
      * lia.
    + apply meta_rel_table; [done|apply t_delete_meta|apply t_delete_meta].
    + unfold c_bytes. cbn. by destruct (t_delete_meta (c_table c) (c_head c mod c_window c)) as (_ & -> & ->).
  - apply meta_rel_table; [done|apply t_delete_meta|apply t_delete_meta].
Qed.

(** ** Growth *)

Lemma fmap_set_width fs : Forall field_ok fs -> set_width <$> fs = fs.
Proof. induction 1 as [|f fs Hf _ IH]; cbn; [done|]. by rewrite set_width_idem, IH. Qed.

Lemma until_zero_app app l : (0 ∉ app) -> until_zero (app ++ l) = app ++ until_zero l.
Proof.
  induction app as [|x app IH]; intros H; cbn; [done|]. apply not_elem_of_cons in H as [Hx H].
  rewrite (proj2 (Z.eqb_neq x 0)) by congruence. by rewrite IH.
Qed.

Lemma until_zero_pad app : (0 ∉ app) -> pad 32 (until_zero (pad 32 app)) = pad 32 app.
Proof.
  intros H. unfold pad at 2. assert (0 ∉ take 32 app) as Ht. { intros Hin. apply H. by apply (subseteq_take 32 app). }
  destruct (decide (length app <= 32)%nat) as [Hl|Hl].
  - rewrite take_app, (take_ge app) by lia. rewrite until_zero_app by done. destruct (32 - length app)%nat as [|k] eqn:E; cbn [take].
    + cbn. by rewrite app_nil_r.
    + cbn [replicate take until_zero]. change (0 =? 0) with true. cbn. by rewrite app_nil_r.
  - rewrite take_app_le by lia. rewrite <- (app_nil_r (take 32 app)), until_zero_app by done. cbn. rewrite app_nil_r.
    unfold pad. rewrite take_app, take_take, Nat.min_id. rewrite length_take, Nat.min_l by lia. cbn [take]. rewrite app_nil_r. by rewrite take_app_le by lia.
Qed.

Lemma reslice_length ix sp (n : nat) : (n <= length (ix ++ sp))%nat -> length (reslice ix sp n).1 = n.
Proof. intros H. cbn. rewrite length_take. lia. Qed.

Lemma grow_slot_ok s name c cap : srel s name c -> t_cap (c_table c) <= cap -> cap * total (t_fields (c_table c)) <= maxBuf ->
  let t := c_table c in
  exists s', grow_slot s (mkSchema (t_fields t) (cols (t_fields t) cap) (-1) (cap * total (t_fields t))) cap = Ret s' /\
    srel s' name (set_table c (t_grow t cap) (c_head c) Unsorted).
Proof using HmaxBuf.
  intros Hs Hcap Hb. cbv zeta. pose proof (sr_table _ _ _ _ Hs) as Ht. pose proof (to_cap _ _ Ht). pose proof (to_total _ _ Ht). set (t := c_table c) in *.
  assert (0 <= cap * total (t_fields t)) as Hn by (apply Z.mul_nonneg_nonneg; lia).
  unfold grow_slot, alloc_arena_buf. cbn [BufSize ColRegions]. rewrite (proj2 (Z.ltb_ge _ 0)) by lia. cbn [obind].
  destruct (arena_grow_ok (arena s) t cap (sr_arena _ _ _ _ Hs) Ht Hcap) as (b & -> & Hrel). cbn [obind].
  destruct (if _ <? cap then _ else _) as [ix sp] eqn:Eix. eexists. split; [reflexivity|]. specialize (Hrel _ eq_refl).
  assert (Z.of_nat (length ix) = cap) as Hix.
  { pose proof (sr_idx _ _ _ _ Hs) as Hi. fold t in Hi. destruct (Z.ltb_spec (Z.of_nat (length (indices s ++ spare s))) cap).
    - injection Eix as <- _. rewrite length_app, length_replicate. lia.
    - apply (f_equal fst) in Eix. cbn [fst] in Eix. rewrite <- Eix. rewrite reslice_length; lia. }
  destruct Hs. constructor; cbn; try done. apply t_grow_ok; [done|done|]. unfold t in *. lia.
Qed.

Lemma growCollection_ok m d name meta c : rel m d -> named m !! name = Some meta -> d_colls d !! name = Some c ->
  match a_grow maxBuf platBytes platSlots d c with
  | Some c' => exists m' meta', growCollection m name meta = Ret (m', None) /\ rel m' (put_coll d name c') /\
      named m' !! name = Some meta' /\ PoolIdx meta' = PoolIdx meta
  | None => exists m' e, growCollection m name meta = Ret (m', Some e) /\ rel m' d /\ named m' = named m
  end.
Proof using Hnslots HmaxBuf.
  intros H Hm Hc. pose proof (pool_lookup _ _ _ _ _ _ name (dr_pool _ _ _ _ _ _ _ H)) as Hl. rewrite Hm, Hc in Hl. destruct Hl as (s & Es & Hs & Hmr).
  destruct (window_test _ _ Hmr) as [Hw _]. set (t := c_table c). pose proof (sr_table _ _ _ _ Hs) as Ht. fold t in Ht.
  pose proof (t_cap_small _ _ Ht) as Hcs. pose proof (to_total _ _ Ht) as Htot. pose proof (to_bytes _ _ Ht) as Hby.
  unfold growCollection, a_grow. rewrite Es. cbn [obind]. rewrite Hw, (sh_cap _ _ _ (ar_shape _ _ (sr_arena _ _ _ _ Hs))). fold t.
  destruct (0 <? c_window c) eqn:Ew; cbn [orb]; [by exists m, ErrArenaFull|].
  rewrite (mr_maxcap _ _ Hmr), (Z.mul_comm (t_cap t) 2), (wraps_small 64) by lia.
  set (cap := if (0 <? c_maxcap c) && (c_maxcap c <? 2 * t_cap t) then c_maxcap c else 2 * t_cap t).
  assert (cap <= 2 * t_cap t) as Hcap2.
  { subst cap. destruct (Z.ltb_spec 0 (c_maxcap c)), (Z.ltb_spec (c_maxcap c) (2 * t_cap t)); cbn [andb]; lia. }
  destruct (Z.leb_spec cap (t_cap t)) as [|Hgt]; cbn [orb]; [by exists m, ErrArenaFull|].
  assert (cap * total (t_fields t) <= 2 * t_cap t * total (t_fields t)) as Hcb by (apply Z.mul_le_mono_nonneg_r; lia).
  rewrite (mr_fields _ _ Hmr). fold t. rewrite (BakeSchema_spec _ cap); rewrite ?fmap_set_width by apply Ht; [|apply Ht|lia|lia]. cbn [BufSize].
  destruct (pr_conf _ _ _ _ _ _ (dr_pool _ _ _ _ _ _ _ H)) as (_ & -> & _).
  destruct (Z.ltb_spec maxBuf (cap * total (t_fields t))) as [|Hfit]; [by exists m, ErrArenaFull|].
  rewrite (mr_size _ _ Hmr). unfold c_bytes. fold t. rewrite <- Z.mul_sub_distr_r.
  assert (0 < (cap - t_cap t) * total (t_fields t)) as Hadd by (apply Z.mul_pos_pos; lia).
  assert ((cap - t_cap t) * total (t_fields t) < 2 ^ 32) as Hadd2 by lia.
  rewrite wraps_small by lia. rewrite (proj2 (Z.ltb_lt _ _)) by done. destruct (sr_owner _ _ _ _ Hs) as (tid & app & Htid & Happ & Eo & _).
  rewrite (mr_owner _ _ Hmr), Eo. cbn [fst snd makeQuotaKey].
  pose proof (Reserve_ok _ _ _ _ _ tid (until_zero (pad 32 app)) ((cap - t_cap t) * total (t_fields t)) 0 (dr_quota _ _ _ _ _ _ _ H)
    (dc_small _ _ _ _ _ Hnslots HmaxBuf _ _ H) ltac:(lia) ltac:(lia)) as HR.
  unfold makeQuotaKey in HR. rewrite until_zero_pad in HR by done. change (tid, pad 32 app) with (makeQuotaKey tid app) in *.
  unfold a_fits, a_limit. cbv zeta in HR. unfold a_used in HR. cbn [fst snd] in HR.
  match type of HR with if ?b then _ else _ => destruct b end; destruct HR as (q' & -> & HR); cbn [obind].
  2: { eexists _, _. split; [reflexivity|]. split; [|done]. by destruct H; constructor. }
  destruct (grow_slot_ok s name c cap Hs ltac:(fold t; lia) Hfit) as (s' & Eg & Hs'). fold t in Eg. rewrite Eg. cbn [obind].
  eexists _, _. split; [reflexivity|]. split; [|split; [apply lookup_insert_eq|done]]. constructor; cbn.
  - eapply (pool_update _ _ _ _ _ _ name meta); [apply H|done|done|done|exact Hs'|]. destruct Hmr. constructor; cbn; try done.
    apply Z.ltb_ge in Ew. lia.
  - eapply quota_rel_ext; [|exact HR]. intros k. rewrite (used_put d name c _ k Hc) by done. unfold c_bytes. cbn. fold t. rewrite <- Z.mul_sub_distr_r, Eo. done.
Qed.

Lemma a_grow_order d c c' : a_grow maxBuf platBytes platSlots d c = Some c' -> c_order c' = Unsorted.
Proof. unfold a_grow. destruct (_ || _); [done|]. destruct (a_fits _ _ _ _ _ _); [|done]. by intros [= <-]. Qed.

Lemma append_growing_ok f g m d name meta c r : table_op f g -> rel m d -> named m !! name = Some meta -> d_colls d !! name = Some c ->
  a_growing maxBuf platBytes platSlots d name c g = Some r ->
  exists m', append_growing m name meta f = Ret (m', r.2) /\ rel m' r.1.
Proof using Hnslots HmaxBuf.
  intros Hop H Hm Hc. destruct (on_arena_ok f g m d name meta c Hop H Hm Hc) as (m1 & E1 & H1 & Hn1).
  pose proof (pool_lookup _ _ _ _ _ _ name (dr_pool _ _ _ _ _ _ _ H)) as Hl. rewrite Hm, Hc in Hl. destruct Hl as (s & Es & Hs & Hmr).
  unfold append_growing, a_growing. rewrite E1. cbn [obind]. rewrite (mr_growth _ _ Hmr). destruct (g (c_table c)) as [t err] eqn:Eg. cbn [fst snd] in *.
  set (c1 := set_table c t (c_head c) (touch (c_order c))) in *. change (c_growth c1) with (c_growth c).
  destruct err as [[]|]; try (intros [= <-]; by exists m1); destruct (c_growth c) eqn:Egr; try (intros [= <-]; by exists m1).
  pose proof (growCollection_ok m1 (put_coll d name c1) name meta c1 H1 ltac:(by rewrite Hn1) (lookup_put _ _ _)) as HG.
  destruct (a_grow _ _ _ _ c1) as [c2|] eqn:Eag.
  - destruct HG as (m2 & meta' & -> & H2 & Hm2 & Hp2). cbn [obind]. rewrite put_put in H2.
    destruct (on_arena_ok f g m2 _ name meta' c2 Hop H2 Hm2 (lookup_put _ _ _)) as (m3 & E3 & H3 & _). rewrite Hp2 in E3. rewrite E3.
    destruct (g (c_table c2)) as [t2 err2]. cbn [fst snd] in *. rewrite put_put in H3 |- *. rewrite (a_grow_order _ _ _ Eag) in H3 |- *.
    cbn [touch] in H3. intros Hr. exists m3. assert (r = (put_coll d name (set_table c2 t2 (c_head c2) Unsorted), err2)) as ->; [|done].
    destruct err2 as [[]|]; cbn iota in Hr; try congruence. destruct (a_grow _ _ _ (put_coll d name (set_table c2 _ _ _)) _) in Hr; congruence.
  - destruct HG as (m2 & e & -> & H2 & _). cbn [obind]. intros [= <-]. by exists m2.
Qed.

(** ** Appending *)

Abbreviation grow_with := (a_growing maxBuf platBytes platSlots).

Lemma a_growing_put d name c c' g : grow_with (put_coll d name c') name c g = grow_with d name c g.
Proof. unfold a_growing. destruct (g (c_table c)) as [t err]. by rewrite put_put. Qed.

Lemma append_vals_ok m d name meta c vals r : rel m d -> named m !! name = Some meta -> d_colls d !! name = Some c ->
  a_append maxBuf platBytes platSlots d name c vals = Some r ->
  exists m', append_vals m name meta vals = Ret (m', r.2) /\ rel m' r.1.
Proof using Hnslots HmaxBuf.
  intros H Hm Hc. pose proof (pool_lookup _ _ _ _ _ _ name (dr_pool _ _ _ _ _ _ _ H)) as Hl. rewrite Hm, Hc in Hl. destruct Hl as (s & Es & Hs & Hmr).
  unfold append_vals, a_append. rewrite (mr_computed _ _ Hmr). destruct (evalComputed (c_computed c) vals) as [[vals'|e]| |]; try done.
  2: { intros [= <-]. by exists m. }
  destruct (a_spared c vals'); [|done]. destruct (a_evict c) as [c1|] eqn:Ee; cbn [mbind option_bind]; [|done]. intros Hr.
  destruct (evict_ok m d name meta c c1 H Hm Hc Ee) as (m1 & E1 & H1 & Hn1 & _). cbn [obind]. rewrite E1. cbn [obind].
  destruct (append_growing_ok (fun a => arena_Append a vals') (fun t => t_append t vals') m1 (put_coll d name c1) name meta c1 r (append_op vals') H1) as (m2 & E2 & H2);
    [by rewrite Hn1|apply lookup_put|by rewrite a_growing_put|]. by exists m2.
Qed.

Lemma append_windowed_ok allVals : forall m d name meta c r, rel m d -> named m !! name = Some meta -> d_colls d !! name = Some c ->
  a_windowed c allVals = Some r ->
  exists m', append_windowed m meta allVals = Ret (m', r.2) /\ rel m' (put_coll d name r.1).
Proof using Hnslots HmaxBuf.
  induction allVals as [|vals rest IH]; intros m d name meta c r H Hm Hc; cbn [append_windowed a_windowed].
  { intros [= <-]. exists m. by rewrite put_same. }
  pose proof (pool_lookup _ _ _ _ _ _ name (dr_pool _ _ _ _ _ _ _ H)) as Hl. rewrite Hm, Hc in Hl. destruct Hl as (s & Es & Hs & Hmr).
  rewrite (mr_computed _ _ Hmr). destruct (evalComputed (c_computed c) vals) as [[vals'|e]| |]; try done; cbn [obind].
  2: { intros [= <-]. exists m. by rewrite put_same. }
  destruct (a_spared c vals'); cbn [negb]; [|done]. destruct (a_evict c) as [c1|] eqn:Ee; cbn [mbind option_bind]; [|done].
  destruct (evict_ok m d name meta c c1 H Hm Hc Ee) as (m1 & E1 & H1 & Hn1 & _). rewrite E1. cbn [obind].
  destruct (on_arena_ok _ _ m1 _ name meta c1 (append_op vals') H1 ltac:(by rewrite Hn1) (lookup_put _ _ _)) as (m2 & E2 & H2 & Hn2). rewrite E2, put_put in *. cbn [obind].
  destruct (t_append (c_table c1) vals') as [t err]. cbn [fst snd] in *. destruct err as [e|].
  - intros [= <-]. by exists m2.
  - intros Hr. destruct (IH m2 _ name meta _ r H2 ltac:(by rewrite Hn2, Hn1) (lookup_put _ _ _) Hr) as (m3 & E3 & H3). rewrite put_put in H3. by exists m3.
Qed.

Lemma eval_all_length computed allVals allVals' : eval_all computed allVals = Ret (inl allVals') -> length allVals' = length allVals.
Proof.
  revert allVals'. induction allVals as [|vals rest IH]; intros allVals'; cbn [eval_all]; [by intros [= <-]|].
  destruct (evalComputed computed vals) as [[v|]| |]; cbn [obind]; try done. destruct (eval_all computed rest) as [[r|]| |]; cbn [obind]; try done.
  intros [= <-]. cbn. by rewrite (IH r eq_refl).
Qed.

Lemma parse_rows_length fs i raws allVals : parse_rows fs i raws = inl allVals -> length allVals = length raws.
Proof.
  revert i allVals. induction raws as [|raw raws IH]; intros i allVals; cbn [parse_rows]; [by intros [= <-]|]. destruct (json_object raw); [|done].
  destruct (parse_rows fs (i + 1) raws) eqn:E; [|done]. intros [= <-]. cbn. by rewrite (IH _ _ E).
Qed.

Lemma batch_ok m d name meta c json r : rel m d -> named m !! name = Some meta -> d_colls d !! name = Some c -> c_access c = AccessReadWrite ->
  a_batch maxBuf platBytes platSlots d name c json = Some r ->
  exists m', AppendJSONBatch m name json = Ret (m', r.2) /\ rel m' r.1.
Proof using Hnslots HmaxBuf.
  intros H Hm Hc Hacc. pose proof (pool_lookup _ _ _ _ _ _ name (dr_pool _ _ _ _ _ _ _ H)) as Hl. rewrite Hm, Hc in Hl. destruct Hl as (s & Es & Hs & Hmr).
  unfold AppendJSONBatch, a_batch, writable, dc_Get. rewrite Hm, (mr_access _ _ Hmr), Hacc, Es. cbn [obind].
  destruct (json_array json) as [[|raw raws]|]; [intros [= <-]; by exists m| |intros [= <-]; by exists m].
  destruct (Z.leb_spec (2 ^ 31) (Z.of_nat (length (raw :: raws)))) as [|Hlen]; [done|].
  rewrite (mr_fields _ _ Hmr). destruct (parse_rows _ 0 (raw :: raws)) as [allVals|e] eqn:Ep; [|intros [= <-]; by exists m]. apply parse_rows_length in Ep.
  destruct (window_test _ _ Hmr) as [-> _]. destruct (0 <? c_window c).
  - destruct (a_windowed c allVals) as [[c1 err]|] eqn:Ew; cbn [mbind option_bind]; [|done]. intros [= <-].
    by apply (append_windowed_ok allVals m d name meta c (c1, err)).
  - rewrite (mr_computed _ _ Hmr). destruct (eval_all (c_computed c) allVals) as [[allVals'|e]| |] eqn:Ev; try done; cbn [obind]; [|intros [= <-]; by exists m].
    apply eval_all_length in Ev. intros Hr. by eapply append_growing_ok; [apply batch_op; lia| | | |].
Qed.

Lemma lookup_both m d name : rel m d ->
  match d_colls d !! name with
  | Some c => exists meta s, named m !! name = Some meta /\ go_index (slots (pool m)) (PoolIdx meta) = Ret s /\ srel s name c /\ meta_rel meta c
  | None => named m !! name = None
  end.
Proof.
  intros H. pose proof (pool_lookup _ _ _ _ _ _ name (dr_pool _ _ _ _ _ _ _ H)) as Hl. destruct (named m !! name) as [meta|], (d_colls d !! name) as [c|]; try done.
  destruct Hl as (s & ?). by exists meta, s.
Qed.

(** The three ways of appending. *)
Lemma append_step_ok m d alloc o d' r : rel m d -> match o with DAppendJSON _ _ | DAppendVals _ _ | DAppendBatch _ _ => True | _ => False end ->
  a_step nslots maxBuf maxRec platBytes platSlots o d = Some (d', r) -> exists m', dc_step alloc o m = Ret (m', r) /\ rel m' d'.
Proof using Hnslots HmaxBuf.
  intros H Ho. destruct o as [| |name json|name vals|name json| | | | | | | |]; try done; cbn [a_step dc_step]; clear Ho;
    pose proof (lookup_both m d name H) as Hl; unfold a_writable; unfold AppendJSON, AppendVals; try unfold AppendJSONBatch at 1;
    unfold writable, dc_Get; destruct (d_colls d !! name) as [c|] eqn:Hc;
    try (rewrite Hl; intros [= <- <-]; by exists m); destruct Hl as (meta & s & Hm & Es & Hs & Hmr); rewrite Hm, (mr_access _ _ Hmr);
    destruct (c_access c) eqn:Ea; try (intros [= <- <-]; by exists m); rewrite Es; cbn [obind].
  - rewrite (mr_fields _ _ Hmr). destruct (json_object json) as [obj|]; [|intros [= <- <-]; by exists m].
    destruct (a_append _ _ _ d name c _) as [r0|] eqn:E; cbn [mbind option_bind]; [|done]. intros [= <- <-].
    destruct (append_vals_ok m d name meta c _ r0 H Hm Hc E) as (m' & E' & H'). rewrite E'. by exists m'.
  - destruct (a_append _ _ _ d name c _) as [r0|] eqn:E; cbn [mbind option_bind]; [|done]. intros [= <- <-].
    destruct (append_vals_ok m d name meta c _ r0 H Hm Hc E) as (m' & E' & H'). rewrite E'. by exists m'.
  - destruct (a_batch _ _ _ d name c json) as [r0|] eqn:E; cbn [mbind option_bind]; [|done]. intros [= <- <-].
    destruct (batch_ok m d name meta c json r0 H Hm Hc Ea E) as (m' & E' & H').
    unfold AppendJSONBatch, writable, dc_Get in E'. rewrite Hm, (mr_access _ _ Hmr), Ea, Es in E'. cbn [obind] in E'. rewrite E'. by exists m'.
Qed.

End ops.
