(* ===== verification/DataCacheReads.v ===== *)
(** * The data cache implements its specification: reading and sorting *)

From S2P Require Import Prelude Bytes Float64 Cond DataCache DataCacheTable DataCacheArena DataCacheSpec DataCacheRefine DataCacheOps.

Local Open Scope Z_scope.
Local Open Scope rah_scope.

(** What [sort.Slice] documents: the elements are permuted, and only compared
    with each other. *)
Class SliceSort (P : Platform) : Prop := {
  sort_perm : forall lt l, sort_slice lt l ≡ₚ l;
  sort_ext : forall lt lt' l, (forall i j, i ∈ l -> j ∈ l -> lt i j = lt' i j) -> sort_slice lt l = sort_slice lt' l
}.

Section reads.
Context {P : Platform}.

(** ** Cells and rows *)

Section row.
Context (a : Arena) (t : table) (H : arena_rel a t) (Ht : table_ok t) (r : Z) (rec : list any) (Hr : t_rows t !! r = Some rec).

Lemma row_bound : 0 <= r < t_cap t.
Proof using P Ht Hr. destruct (row_of_pend [] t r rec Ht Hr). done. Qed.

Lemma cell_reads col f : t_fields t !! col = Some f -> exists v, t_cell t col r = Some v /\ val_ok f v /\
  match v with
  | AFloat b => Float64 a (Z.of_nat col) r = Ret b
  | AInt n => Int64 a (Z.of_nat col) r = Ret n
  | AUint8 n => Enum a (Z.of_nat col) r = Ret n
  | ABytes s => StringAt a (Z.of_nat col) r = Ret s
  | _ => False
  end.
Proof using P H Ht Hr.
  intros Hf. destruct (ar_rows _ _ H r rec Hr) as [Htyp Hc]. destruct (Forall2_lookup_l _ _ _ _ _ Htyp Hf) as (v & Hv & Hok).
  exists v. split; [unfold t_cell; rewrite Hr; exact Hv|]. split; [done|]. eapply read_cell; [apply H|exact Hf|apply row_bound|done|]. by apply Hc.
Qed.

Lemma row_object_ok fs' : forall col rec' obj, drop col (t_fields t) = fs' -> drop col rec = rec' ->
  row_object a fs' (Z.of_nat col) r obj = Ret (record_object fs' rec' obj).
Proof using P H Ht Hr.
  induction fs' as [|f fs' IH]; intros col rec' obj Hfs Hrec; cbn [row_object record_object]; [done|].
  assert (t_fields t !! col = Some f) as Hf by (rewrite <- (Nat.add_0_r col), <- lookup_drop, Hfs; done).
  destruct (cell_reads col f Hf) as (v & Hv & Hok & Hread). unfold t_cell in Hv. rewrite Hr in Hv. cbn in Hv. rewrite (drop_S _ _ _ Hv) in Hrec. subst rec'.
  assert (read_val a (Kind f) (Z.of_nat col) r = Ret (shown v)) as ->.
  { unfold read_val. unfold val_ok in Hok. destruct (Kind f), v; try done; rewrite Hread; done. }
  cbn [obind]. replace (Z.of_nat col + 1) with (Z.of_nat (S col)) by lia. apply IH; [|done].
  rewrite (drop_S _ _ _ Hf) in Hfs. by injection Hfs.
Qed.

End row.

(** ** JSON arrays *)

Lemma put_byte_ok b (pos : nat) x : (pos < length b)%nat ->
  exists b', put_byte b (Z.of_nat pos) x = Ret b' /\ length b' = length b /\ take (S pos) b' = take pos b ++ [x].
Proof.
  intros Hl. unfold put_byte. destruct (lookup_lt_is_Some_2 b pos Hl) as [y Hy]. rewrite (go_index_nat _ _ _ Hy), Nat2Z.id. cbn [obind].
  eexists. split; [reflexivity|]. split; [apply length_insert|]. rewrite (take_S_r _ _ x); [|by apply list_lookup_insert_eq].
  by rewrite take_insert_ge by lia.
Qed.

Lemma copy_at_ok b (pos : nat) x : (pos + length x <= length b)%nat ->
  copy_at b (Z.of_nat pos) x = Ret (splice b pos x).
Proof.
  intros Hl. unfold copy_at. replace (Z.of_nat (length b)) with (Z.of_nat pos + Z.of_nat (length b - pos)) by lia.
  rewrite go_slice_cell by lia. cbn [obind]. rewrite Nat2Z.id. f_equal. f_equal. apply take_ge. unfold cell. rewrite length_take, length_drop. lia.
Qed.

Section json.
Context (alloc : Z -> byte_string) (Halloc : forall n, 0 <= n -> Z.of_nat (length (alloc n)) = n).
Context (a : Arena) (t : table) (H : arena_rel a t) (Ht : table_ok t).

Lemma serialize_rows_ok rows : Forall (fun r => is_Some (t_rows t !! r)) rows -> forall b (pos : nat), (pos < length b)%nat ->
  let x := join_comma (row_json t <$> rows) in
  exists b', serialize_rows alloc a (t_fields t) rows b (Z.of_nat pos) = Ret (b', Z.of_nat (pos + length x)) /\
    (pos + length x < length b')%nat /\ take (pos + length x) b' = take pos b ++ x.
Proof using P Halloc H Ht.
  induction rows as [|r rows IH]; intros Hr b pos Hp; cbn [serialize_rows].
  { exists b. cbn. by rewrite Nat.add_0_r, app_nil_r. }
  apply Forall_cons in Hr as [[rec Hrec] Hrs]. change 0 with (Z.of_nat 0) at 1.
  rewrite (row_object_ok a t H Ht r rec Hrec (t_fields t) 0 rec ∅ eq_refl eq_refl). cbn [obind].
  assert (default [] (json_marshal (record_object (t_fields t) rec ∅)) = row_json t r) as -> by (unfold row_json; by rewrite Hrec).
  set (j := row_json t r). cbv zeta.
  assert (exists b1, (if Z.of_nat (length b) <? Z.of_nat pos + Z.of_nat (length j) + 2 then
             kept <-- go_slice b 0 (Z.of_nat pos) ;;
             Ret (splice (alloc (Z.max (Z.of_nat (length b) * 2) (Z.of_nat pos + Z.of_nat (length j) + 2))) 0
                    (take (length (alloc (Z.max (Z.of_nat (length b) * 2) (Z.of_nat pos + Z.of_nat (length j) + 2)))) kept))
           else Ret b) = Ret b1 /\ (pos + length j + 2 <= length b1)%nat /\ take pos b1 = take pos b) as (b1 & -> & Hb1 & Et1).
  { destruct (Z.ltb_spec (Z.of_nat (length b)) (Z.of_nat pos + Z.of_nat (length j) + 2)); [|exists b; split; [done|split; [lia|done]]].
    set (nb := alloc _). pose proof (Halloc (Z.max (Z.of_nat (length b) * 2) (Z.of_nat pos + Z.of_nat (length j) + 2)) ltac:(lia)) as Hn. fold nb in Hn.
    pose proof (go_slice_cell b 0 (Z.of_nat pos)) as Hgs. rewrite Z.add_0_l in Hgs. rewrite Hgs by lia. cbn [obind]. unfold cell. cbn [Z.to_nat drop]. rewrite Nat2Z.id.
    assert (length (take pos b) = pos) as Htk by (rewrite length_take; lia). rewrite (take_ge (take pos b)) by lia.
    eexists. split; [reflexivity|]. split; [rewrite length_splice; lia|]. pose proof (take_splice nb 0 (take pos b)) as Hts. rewrite Htk in Hts.
    cbn [Nat.add] in Hts. rewrite Hts by lia. done. }
  cbn [obind]. rewrite copy_at_ok by lia. cbn [obind]. assert (length (splice b1 pos j) = length b1) as Hl2 by (apply length_splice; lia).
  pose proof (take_splice b1 pos j ltac:(lia)) as Ht2. set (b2 := splice b1 pos j) in *. rewrite Et1 in Ht2.
  replace (Z.of_nat pos + Z.of_nat (length j)) with (Z.of_nat (pos + length j)) by lia.
  destruct rows as [|r' rows]; [exists b2; change (join_comma (row_json t <$> [r])) with j; split; [done|]; split; [lia|done]|].
  destruct (put_byte_ok b2 (pos + length j) 44 ltac:(lia)) as (b3 & -> & Hl3 & Ht3). cbn [obind].
  replace (Z.of_nat (pos + length j) + 1) with (Z.of_nat (S (pos + length j))) by lia.
  destruct (IH Hrs b3 (S (pos + length j)) ltac:(lia)) as (b' & Es & Hb' & Ht'). exists b'. rewrite Es.
  change (join_comma (row_json t <$> r :: r' :: rows)) with (j ++ 44 :: join_comma (row_json t <$> r' :: rows)).
  set (x := join_comma (row_json t <$> r' :: rows)) in *. rewrite length_app. cbn [length].
  replace (pos + (length j + S (length x)))%nat with (S (pos + length j) + length x)%nat by lia. split; [done|]. split; [done|].
  rewrite Ht', Ht3, Ht2. rewrite <- !app_assoc. done.
Qed.

Lemma serializeArenaJSON_ok rows : Forall (fun r => is_Some (t_rows t !! r)) rows ->
  serializeArenaJSON alloc a rows (t_fields t) = Ret (t_json t rows).
Proof using P Halloc H Ht.
  intros Hr. unfold serializeArenaJSON. set (b := alloc _). pose proof (Halloc (2 + Z.of_nat (length rows) * 100) ltac:(lia)) as Hb. fold b in Hb.
  destruct (put_byte_ok b 0 91 ltac:(lia)) as (b1 & E1 & Hl1 & Ht1). change (Z.of_nat 0) with 0 in E1. rewrite E1. cbn [obind].
  destruct (serialize_rows_ok rows Hr b1 1 ltac:(lia)) as (b2 & E2 & Hl2 & Ht2). change (Z.of_nat 1) with 1 in E2. rewrite E2. cbn [obind].
  set (x := join_comma _) in *. destruct (put_byte_ok b2 (1 + length x) 93 Hl2) as (b3 & -> & Hl3 & Ht3). cbn [obind].
  pose proof (go_slice_cell b3 0 (Z.of_nat (1 + length x) + 1)) as Hgs. rewrite Z.add_0_l in Hgs. rewrite Hgs by lia. unfold cell. change (Z.to_nat 0) with 0%nat. rewrite drop_0.
  replace (Z.to_nat (Z.of_nat (1 + length x) + 1)) with (S (1 + length x)) by lia. rewrite Ht3. cbn [Nat.add] in *. rewrite Ht2, Ht1. done.
Qed.

End json.

(** ** Live rows *)

Lemma live_perm t : table_ok t -> t_live t ++ t_free t ≡ₚ seqZ 0 (t_size t).
Proof.
  intros Ht. pose proof (to_nodup _ _ Ht) as Hn. pose proof (to_free _ _ Ht) as Hf. rewrite app_nil_r in *. apply NoDup_Permutation.
  - apply NoDup_app. split_and!; [apply NoDup_filter, NoDup_seqZ| |done]. intros r Hr%(t_live_in t r Ht)%(to_dom _ _ Ht) Hfr.
    rewrite app_nil_r in Hr. tauto.
  - apply NoDup_seqZ.
  - intros r. rewrite elem_of_app, (t_live_in t r Ht), (to_dom _ _ Ht), app_nil_r, elem_of_seqZ. pose proof (to_size _ _ Ht).
    split; [intros [[? _]|Hr%Hf]; lia|]. intros Hb. destruct (decide (r ∈ t_free t)); [by right|left; split; [lia|done]].
Qed.

Lemma live_length t : table_ok t -> Z.of_nat (length (t_live t)) = t_count t.
Proof.
  intros Ht. pose proof (Permutation_length (live_perm t Ht)) as Hl. rewrite length_app, length_seqZ in Hl. pose proof (to_size _ _ Ht). unfold t_count. lia.
Qed.

Lemma live_all t : table_ok t -> Forall (fun r => is_Some (t_rows t !! r)) (t_live t).
Proof. intros Ht. apply Forall_forall. intros r. by apply t_live_in. Qed.

Context {Sort : SliceSort P}.
Context (nslots maxBuf maxRec platBytes platSlots : Z).
Context (Hnslots : 0 <= nslots <= 256) (HmaxBuf : 0 <= maxBuf < 2 ^ 31).
Context (alloc : Z -> byte_string) (Halloc : forall n, 0 <= n -> Z.of_nat (length (alloc n)) = n).

Abbreviation rel := (dc_rel nslots maxBuf maxRec platBytes platSlots).
Abbreviation srel := (slot_rel maxBuf).

Lemma QueryAll_rows m d name c rows : rel m d -> d_colls d !! name = Some c -> a_shown c = Some rows ->
  QueryAll alloc m name = Ret (inl (t_json (c_table c) rows)).
Proof using P Halloc.
  intros H Hc. pose proof (lookup_both _ _ _ _ _ m d name H) as Hl. unfold QueryAll, query_with, dc_Get. rewrite Hc in Hl.
  destruct Hl as (meta & s & -> & -> & Hs & Hmr). cbn [obind]. pose proof (sr_arena _ _ _ _ Hs) as Ha. pose proof (sr_table _ _ _ _ Hs) as Ht.
  pose proof (sr_order _ _ _ _ Hs) as Ho. unfold order_rel, a_shown in *. rewrite (mr_fields _ _ Hmr). destruct (c_order c) as [|rs|]; [| |done]; intros [= <-].
  - rewrite Ho. change (0 <=? -1) with false. cbv iota. rewrite (live_rows_ok _ _ Ha Ht), u32_live by done.
    by rewrite (serializeArenaJSON_ok alloc Halloc _ _ Ha Ht) by by apply live_all.
  - destruct Ho as (Hi & Htk & Hlen & Hin). rewrite (proj2 (Z.leb_le 0 _)) by done. pose proof (sr_idx _ _ _ _ Hs). rewrite (ar_live _ _ Ha), <- Hlen.
    assert (length rs <= length (indices s))%nat. { rewrite <- Htk, length_take. lia. }
    rewrite (proj2 (Z.ltb_ge _ _)) by lia. pose proof (go_slice_cell (indices s) 0 (Z.of_nat (length rs))) as Hgs. rewrite Z.add_0_l in Hgs.
    rewrite Hgs by lia. unfold cell. rewrite Nat2Z.id. change (Z.to_nat 0) with 0%nat. rewrite drop_0, Htk. cbn [obind].
    rewrite (serializeArenaJSON_ok alloc Halloc _ _ Ha Ht); [done|]. by apply Forall_forall.
Qed.

Lemma QueryAll_ok m d name r : rel m d ->
  match d_colls d !! name with None => Some (inr ErrCollectionNotFound) | Some c => inl <$> a_query c end = Some r ->
  QueryAll alloc m name = Ret r.
Proof using P Halloc.
  intros H. destruct (d_colls d !! name) as [c|] eqn:Hc.
  - unfold a_query, a_json. destruct (a_shown c) as [rows|] eqn:Er; [|done]. cbn [mbind option_bind]. destruct (forallb _ rows); [|done].
    intros [= <-]. by apply (QueryAll_rows m d name c rows).
  - pose proof (lookup_both _ _ _ _ _ m d name H) as Hl. rewrite Hc in Hl. unfold QueryAll, query_with, dc_Get. rewrite Hl. by intros [= <-].
Qed.

(** ** Fields by name *)

Lemma findField_bounds fs field i : 0 <= i -> findField fs field i = -1 \/ exists n f, findField fs field i = i + Z.of_nat n /\ fs !! n = Some f.
Proof.
  revert i. induction fs as [|f fs IH]; intros i Hi; cbn [findField]; [by left|]. destruct (bool_decide _); [right; exists 0%nat, f; split; [lia|done]|].
  destruct (IH (i + 1) ltac:(lia)) as [->|(n & g & -> & Hg)]; [by left|]. right. exists (S n), g. split; [lia|done].
Qed.

Lemma findFieldIdx_ok meta c field : meta_rel meta c -> findFieldIdx meta field = findField (t_fields (c_table c)) field 0.
Proof. intros H. unfold findFieldIdx. by rewrite (mr_fields _ _ H). Qed.

Lemma on_field_ok {A} m d name field (f : coll -> nat -> A) : rel m d ->
  match on_field d name field f with
  | inl x => exists c col fd meta s, d_colls d !! name = Some c /\ x = f c col /\ t_fields (c_table c) !! col = Some fd /\
      dc_Get m name = inl meta /\ named m !! name = Some meta /\ findFieldIdx meta field = Z.of_nat col /\
      go_index (slots (pool m)) (PoolIdx meta) = Ret s /\ srel s name c /\ meta_rel meta c
  | inr e => dc_Get m name = inr e \/ exists meta, dc_Get m name = inl meta /\ findFieldIdx meta field = -1 /\ e = ErrFieldNotFound
  end.
Proof.
  intros H. pose proof (lookup_both _ _ _ _ _ m d name H) as Hl. unfold on_field, dc_Get. destruct (d_colls d !! name) as [c|]; [|left; by rewrite Hl].
  destruct Hl as (meta & s & Hm & Es & Hs & Hmr). rewrite Hm. pose proof (findFieldIdx_ok meta c field Hmr) as Hf.
  destruct (findField_bounds (t_fields (c_table c)) field 0 ltac:(lia)) as [E|(n & fd & E & Hfd)]; rewrite E in *.
  - right. by exists meta.
  - rewrite (proj2 (Z.ltb_ge _ 0)) by lia. replace (Z.to_nat (0 + Z.of_nat n)) with n by lia.
    exists c, n, fd, meta, s. by split_and!.
Qed.

(** ** Filtering and folding *)

Lemma row_matches_ok a t col f r op value : arena_rel a t -> table_ok t -> t_fields t !! col = Some f -> is_Some (t_rows t !! r) ->
  val_full (t_cell t col r) = true -> row_matches a (Kind f) (Z.of_nat col) op value r = Ret (val_matches op value (t_cell t col r)).
Proof.
  intros Ha Ht Hf [rec Hr]. destruct (cell_reads a t Ha Ht r rec Hr col f Hf) as (v & -> & Hok & Hread). unfold row_matches, val_ok, val_full in *.
  intros Hfull. destruct (Kind f), v; try done; rewrite Hread; try done. apply bool_decide_eq_true in Hfull. cbn [val_matches]. by rewrite Hfull.
Qed.

Lemma filter_rows_ok (g : Z -> outcome bool) (q : Z -> bool) rows : Forall (fun r => g r = Ret (q r) /\ u32 r = r) rows ->
  filter_rows g rows = Ret (base.filter (fun r => q r = true) rows).
Proof.
  induction 1 as [|r rows [Hg Hu] _ IH]; cbn [filter_rows]; [done|]. rewrite Hg, IH. cbn [obind]. rewrite filter_cons, Hu.
  destruct (decide (q r = true)) as [->|E]; [done|]. apply not_true_is_false in E. by rewrite E.
Qed.

Lemma FilterJSON_ok m d name field op value r : rel m d ->
  match on_field d name field (fun c col => a_filter c col op value) with inl json => inl <$> json | inr e => Some (inr e) end = Some r ->
  FilterJSON alloc m name field op value = Ret r.
Proof using P Halloc.
  intros H. unfold FilterJSON, filter_with. pose proof (on_field_ok m d name field (fun c col => a_filter c col op value) H) as Hl.
  destruct (on_field _ _ _ _) as [x|e].
  2: { intros [= <-]. destruct Hl as [->|(meta & -> & -> & ->)]; done. }
  destruct Hl as (c & col & fd & meta & s & _ & -> & Hfd & -> & _ & -> & -> & Hs & Hmr). cbn [obind]. rewrite (proj2 (Z.ltb_ge _ 0)) by lia.
  rewrite (mr_fields _ _ Hmr), (go_index_nat _ _ _ Hfd). cbn [obind]. pose proof (sr_arena _ _ _ _ Hs) as Ha. pose proof (sr_table _ _ _ _ Hs) as Ht.
  unfold a_filter, a_json. destruct (forallb (fun r => val_full _) _) eqn:Efull; [|done]. rewrite forallb_forall in Efull.
  destruct (forallb _ _) in |- *; [|done]. intros [= <-].
  rewrite (live_rows_ok _ _ Ha Ht), (filter_rows_ok _ (fun r => val_matches op value (t_cell (c_table c) col r))).
  - cbn [obind]. rewrite (serializeArenaJSON_ok alloc Halloc _ _ Ha Ht); [done|]. apply Forall_forall. intros r' [_ Hr]%list_elem_of_filter. by apply t_live_in.
  - apply Forall_forall. intros r' Hr. pose proof (proj1 (t_live_in _ r' Ht) Hr) as Hl.
    split; [apply row_matches_ok; try done; by apply Efull, list_elem_of_In|].
    apply (to_dom _ _ Ht) in Hl as [Hb _]. pose proof (t_cap_small _ _ Ht). pose proof (to_size _ _ Ht). apply wrapu_small. lia.
Qed.

Lemma aggregate_rows_ok a t col f rows : arena_rel a t -> table_ok t -> t_fields t !! col = Some f -> Forall (fun r => is_Some (t_rows t !! r)) rows ->
  forall s, aggregate_rows (numeric a (Kind f) (Z.of_nat col)) rows s = Ret (t_fold t col rows s).
Proof.
  intros Ha Ht Hf. induction 1 as [|r rows [rec Hr] _ IH]; intros s; cbn [aggregate_rows t_fold]; [done|].
  destruct (cell_reads a t Ha Ht r rec Hr col f Hf) as (v & -> & Hok & Hread). unfold numeric, val_ok in *.
  destruct (Kind f), v; try done; rewrite ?Hread; cbn [obind val_number]; done.
Qed.

Lemma AggregateField_ok m d name field op : rel m d ->
  AggregateField m name field op =
  Ret (match on_field d name field (fun c col => t_fold (c_table c) col (t_live (c_table c)) (mkAcc f64_zero f64_zero f64_zero 0 true)) with
       | inl (inl s) => aggregate_result op s
       | inl (inr e) | inr e => inr e
       end).
Proof using P.
  intros H. unfold AggregateField. match goal with |- _ = Ret (match on_field d name field ?f with _ => _ end) => pose proof (on_field_ok m d name field f H) as Hl end.
  destruct (on_field _ _ _ _) as [x|e].
  2: { destruct Hl as [->|(meta & -> & -> & ->)]; done. }
  destruct Hl as (c & col & fd & meta & s & _ & -> & Hfd & -> & _ & -> & -> & Hs & Hmr). cbn [obind]. rewrite (proj2 (Z.ltb_ge _ 0)) by lia.
  rewrite (mr_fields _ _ Hmr), (go_index_nat _ _ _ Hfd). cbn [obind]. pose proof (sr_arena _ _ _ _ Hs) as Ha. pose proof (sr_table _ _ _ _ Hs) as Ht.
  rewrite (live_rows_ok _ _ Ha Ht), (aggregate_rows_ok _ _ col fd _ Ha Ht Hfd) by by apply live_all. cbn [obind]. by destruct (t_fold _ _ _ _).
Qed.


(** ** Sorting *)

Lemma less_ok a t col f i j : arena_rel a t -> table_ok t -> t_fields t !! col = Some f -> is_Some (t_rows t !! i) -> is_Some (t_rows t !! j) ->
  less a (Kind f) (Z.of_nat col) i j = Ret (t_less t col i j).
Proof.
  intros Ha Ht Hf [ri Hi] [rj Hj]. unfold t_less. destruct (cell_reads a t Ha Ht i ri Hi col f Hf) as (x & -> & Hx & Rx).
  destruct (cell_reads a t Ha Ht j rj Hj col f Hf) as (y & -> & Hy & Ry). unfold less, val_ok in *.
  destruct (Kind f), x; try done; destruct y; try done; rewrite Rx, Ry; done.
Qed.

Lemma arena_rel_sorted a t col : arena_rel a t -> arena_rel (set_sorted a col) t.
Proof. intros [[] ? ? ? ?]. by constructor. Qed.

(** A slot whose index starts with an order of the live rows. *)
Lemma slot_rel_sorted s name c (rows : list Z) col rest sp : srel s name c -> rows ≡ₚ t_live (c_table c) -> 0 <= col ->
  length (rows ++ rest) = length (indices s) ->
  srel (with_arena (set_indices s (rows ++ rest) sp) (set_sorted (arena s) col)) name
    (set_table c (c_table c) (c_head c) (Sorted rows)).
Proof.
  intros [] Hp Hc Hl. constructor; cbn; try done.
  - by apply arena_rel_sorted.
  - by rewrite Hl.
  - unfold order_rel. cbn. split; [done|]. split; [by apply take_app_length|]. split; [rewrite (Permutation_length Hp); by apply live_length|].
    intros r Hr. apply (t_live_in (c_table c) r sr_table). by rewrite <- Hp.
Qed.

Lemma SortBy_ok m d name meta c col f s : rel m d -> named m !! name = Some meta -> t_fields (c_table c) !! col = Some f ->
  go_index (slots (pool m)) (PoolIdx meta) = Ret s -> srel s name c ->
  let rows := sort_slice (t_less (c_table c) col) (t_live (c_table c)) in
  exists rest, SortBy (pool m) (PoolIdx meta) (Z.of_nat col) =
      Ret (set_pool_slot (pool m) (PoolIdx meta) (with_arena (set_indices s (rows ++ rest) (spare s)) (set_sorted (arena s) (Z.of_nat col)))) /\
    length (rows ++ rest) = length (indices s).
Proof using P Sort.
  intros H Hm Hf Es Hs rows. pose proof (sr_arena _ _ _ _ Hs) as Ha. pose proof (sr_table _ _ _ _ Hs) as Ht.
  pose proof (live_length _ Ht) as Hll. pose proof (sr_idx _ _ _ _ Hs) as Hix. pose proof (to_size _ _ Ht) as Hsz. unfold t_count in Hll.
  unfold SortBy. rewrite Es. cbn [obind]. unfold rebuild. rewrite (live_rows_ok _ _ Ha Ht), u32_live by done.
  set (live := t_live (c_table c)) in *. assert (length live <= length (indices s))%nat as Hle by lia.
  pose proof (go_slice_cell (indices s) 0 (Z.of_nat (length live))) as Hgs. rewrite Z.add_0_l in Hgs. rewrite Hgs by lia. cbn [obind set_indices arena indices spare].
  rewrite (live_rows_ok _ _ Ha Ht). fold live. rewrite (sh_fields _ _ _ (ar_shape _ _ Ha)), (go_index_nat _ _ _ Hf). cbn [obind].
  rewrite take_app_length, drop_app_length.
  assert (forall i j, i ∈ live -> j ∈ live -> less (arena s) (Kind f) (Z.of_nat col) i j = Ret (t_less (c_table c) col i j)) as Hless.
  { intros i j Hi Hj. apply less_ok; [done|done|done|by apply t_live_in|by apply t_live_in]. }
  assert (forallb (fun r => returns (less (arena s) (Kind f) (Z.of_nat col) r r)) live = true) as ->.
  { apply forallb_forall. intros r Hr%list_elem_of_In. by rewrite Hless. }
  rewrite orb_true_r. assert (sort_slice (fun i j => is_true_ret (less (arena s) (Kind f) (Z.of_nat col) i j)) live = rows) as ->.
  { apply sort_ext. intros i j Hi Hj. by rewrite Hless. }
  exists (drop (length live) (indices s)). split; [done|]. subst rows. fold live. rewrite length_app, (Permutation_length (sort_perm _ live)), length_drop. lia.
Qed.

Lemma store_slot_twice p i s s' : set_pool_slot (set_pool_slot p i s) i s' = set_pool_slot p i s'.
Proof. unfold set_pool_slot. cbn. by rewrite list_insert_insert_eq. Qed.

Lemma SortCollection_ok m d name field desc : rel m d ->
  match on_field d name field (fun c col => a_sorted c col desc) with
  | inl c' => exists m', SortCollection m name field desc = Ret (m', None) /\ rel m' (put_coll d name c')
  | inr e => SortCollection m name field desc = Ret (m, Some e)
  end.
Proof using P Sort Hnslots HmaxBuf.
  intros H. pose proof (on_field_ok m d name field (fun c col => a_sorted c col desc) H) as Hl. unfold SortCollection.
  destruct (on_field _ _ _ _) as [x|e].
  2: { destruct Hl as [->|(meta & -> & -> & ->)]; done. }
  destruct Hl as (c & col & fd & meta & s & Hc & -> & Hfd & -> & Hm & -> & Es & Hs & Hmr). rewrite (proj2 (Z.ltb_ge _ 0)) by lia.
  destruct (SortBy_ok m d name meta c col fd s H Hm Hfd Es Hs) as (rest & -> & Hlen). cbn [obind]. pose proof (sr_table _ _ _ _ Hs) as Ht.
  set (rows := sort_slice (t_less (c_table c) col) (t_live (c_table c))) in *. assert (rows ≡ₚ t_live (c_table c)) as Hp by apply sort_perm.
  pose proof (live_length _ Ht) as Hll. pose proof (Permutation_length Hp) as Hpl.
  assert (forall rows', rows' ≡ₚ t_live (c_table c) -> rel (with_pool m (set_pool_slot (pool m) (PoolIdx meta)
    (with_arena (set_indices s (rows' ++ rest) (spare s)) (set_sorted (arena s) (Z.of_nat col))))) (put_coll d name (set_table c (c_table c) (c_head c) (Sorted rows')))) as Hrel.
  { intros rows' Hp'. eapply (rel_update _ _ _ _ _ m d name meta c); try done.
    - apply slot_rel_sorted; [done|done|lia|]. rewrite length_app in *. rewrite (Permutation_length Hp'), <- (Permutation_length Hp). done.
    - by apply meta_rel_table. }
  destruct desc; [|by eexists; split; [|by apply Hrel]]. cbn [pool with_pool].
  destruct (pr_conf _ _ _ _ _ _ (dr_pool _ _ _ _ _ _ _ H)) as (_ & _ & _ & Hsl). apply go_index_Ret in Es as [Hb Es].
  rewrite (go_index_Z _ _ (with_arena (set_indices s (rows ++ rest) (spare s)) (set_sorted (arena s) (Z.of_nat col)))); [|lia|].
  2: { cbn. apply list_lookup_insert_eq. by eapply lookup_lt_Some. }
  cbn [obind arena with_arena set_indices LiveCount set_sorted indices spare]. rewrite (ar_live _ _ (sr_arena _ _ _ _ Hs)), <- Hll, <- Hpl.
  rewrite (proj2 (Z.ltb_ge _ _)) by (rewrite length_app; lia). pose proof (go_slice_cell (rows ++ rest) 0 (Z.of_nat (length rows))) as Hgs. rewrite Z.add_0_l in Hgs.
  rewrite Hgs by (rewrite ?length_app; lia). cbn [obind]. unfold cell. rewrite Nat2Z.id. change (Z.to_nat 0) with 0%nat. rewrite drop_0, take_app_length, drop_app_length.
  eexists. split; [reflexivity|]. unfold with_pool. cbn [pool quotas named]. rewrite store_slot_twice. apply Hrel. by rewrite reverse_Permutation.
Qed.

End reads.
