(* ===== verification/DataCacheManagerSpec.v ===== *)
(** * The data cache refines tables of records

    Creation, dropping and expiry, and the theorem for whole sequences of
    operations. *)

From S2P Require Import Prelude Bytes Float64 Cond DataCache DataCacheTable DataCacheArena DataCacheSpec DataCacheRefine DataCacheOps DataCacheReads.

Local Open Scope Z_scope.
Local Open Scope rah_scope.

(** ** Padded strings *)

Lemma drop_zeros_replicate n s : drop_zeros (replicate n 0 ++ s) = drop_zeros s.
Proof. by induction n. Qed.

Lemma trim_pad n s : (length s <= n)%nat -> last s <> Some 0 -> trim_zeros (pad n s) = s.
Proof.
  intros Hl Hn. unfold trim_zeros, pad. rewrite take_app, (take_ge s), take_replicate by lia. rewrite reverse_app, reverse_replicate, drop_zeros_replicate.
  destruct s as [|x s _] using rev_ind; [done|]. rewrite last_snoc in Hn. rewrite reverse_snoc. destruct x; [done| |];
    cbn [drop_zeros]; by rewrite reverse_cons, reverse_involutive.
Qed.

Lemma last_pad_trim s : trim_zeros s = s \/ exists n, s = trim_zeros s ++ replicate (S n) 0.
Proof.
  induction s as [|x s IH] using rev_ind; [by left|]. unfold trim_zeros in *. rewrite reverse_snoc. destruct x as [|p|p].
  - cbn [drop_zeros]. right. destruct IH as [->|(n & E)]; [by exists 0%nat|]. exists (S n). rewrite E at 1. rewrite <- app_assoc. f_equal.
    by rewrite (replicate_S_end (S n) 0).
  - left. cbn [drop_zeros]. by rewrite reverse_cons, reverse_involutive.
  - left. cbn [drop_zeros]. by rewrite reverse_cons, reverse_involutive.
Qed.

(** Trailing zeros do not count in a padded key. *)
Lemma pad_trim n s : length s = n -> pad n (trim_zeros s) = s.
Proof.
  intros Hl. destruct (last_pad_trim s) as [E|(k & E)].
  - rewrite E. unfold pad. rewrite take_app_le by lia. by apply take_ge; lia.
  - rewrite E at 2. unfold pad. apply (f_equal length) in E. rewrite length_app, length_replicate in E.
    rewrite take_app, (take_ge (trim_zeros s)) by lia. f_equal. rewrite take_replicate. f_equal. lia.
Qed.

Lemma splice_zeros n s : (length s <= n)%nat -> splice (replicate n 0) 0 s = pad n s.
Proof.
  intros Hl. unfold splice, pad. rewrite take_0. cbn [app Nat.add].
  rewrite drop_replicate, take_app, (take_ge s), take_replicate by lia. do 2 f_equal. lia.
Qed.

Lemma decode_encode tid app : 0 <= tid < 2 ^ 16 -> decodeOwnerKey (encodeOwnerKey tid app) = Ret (tid, trim_zeros (pad 32 app)).
Proof.
  intros Ht. unfold decodeOwnerKey, encodeOwnerKey. set (x := pad 32 app). assert (length x = 32%nat) as Hx by apply pad_length.
  unfold go_slice. rewrite !length_app, Hx, length_replicate. cbn [length Nat.add Z.of_nat Pos.of_succ_nat Pos.succ]. cbn [Z.leb Z.compare Pos.compare Pos.compare_cont andb].
  change (Z.to_nat (2 - 0)) with 2%nat. change (Z.to_nat (34 - 2)) with 32%nat. change (Z.to_nat 0) with 0%nat. change (Z.to_nat 2) with 2%nat.
  cbn [obind drop Datatypes.app take]. change (2 <=? Z.of_nat 48) with true. change (34 <=? Z.of_nat 48) with true. cbn [obind].
  rewrite drop_0, take_0, take_app_length' by done. f_equal. f_equal. change (u8 tid) with (tid mod 256). rewrite u8_shiftr by lia.
  rewrite !from_le_byte by (repeat constructor; apply Z.mod_pos_bound; lia). cbn [from_le]. change (2 ^ 8) with 256. div_lia.
Qed.

Section manager.
Context {P : Platform} {Sort : SliceSort P}.
Context (nslots maxBuf maxRec platBytes platSlots : Z).
Context (Hnslots : 0 <= nslots <= 256) (HmaxBuf : 0 <= maxBuf < 2 ^ 31) (HmaxRec : maxRec < 2 ^ 31).
Context (alloc : Z -> byte_string) (Halloc : forall n, 0 <= n -> Z.of_nat (length (alloc n)) = n).

Abbreviation rel := (dc_rel nslots maxBuf maxRec platBytes platSlots).
Abbreviation srel := (slot_rel maxBuf).
Abbreviation prel := (pool_rel nslots maxBuf maxRec).

(** ** Claiming and releasing slots *)

Lemma pool_claim p nm cs idx rest name meta c s : prel p nm cs -> free p = idx :: rest -> cs !! name = None ->
  PoolIdx meta = idx -> meta_rel meta c -> srel s name c ->
  prel (set_pool_slot (set_freelist p rest) idx s) (<[name := meta]> nm) (<[name := c]> cs).
Proof using P.
  intros [Hcf Hnd Hfr Hh Hd Hi Ha Hct] Hf Hc Hp Hmr Hs. rewrite Hf in *. apply NoDup_cons in Hnd as [Hni Hnd].
  destruct (Hfr idx ltac:(by left)) as (Hb & s0 & Hs0 & _). assert (nm !! name = None) as Hnn by (by apply Hd).
  assert (forall n m, nm !! n = Some m -> 0 <= PoolIdx m < nslots /\ PoolIdx m ∉ idx :: rest) as Hused.
  { intros n m Hn. destruct (cs !! n) as [c'|] eqn:E; [|by rewrite (proj2 (Hd n) E) in Hn].
    destruct (Hh n c' E) as (m' & s' & E' & _ & Hb' & Hnf & _). rewrite Hf in Hnf. by replace m with m' by congruence. }
  constructor; cbn.
  - by rewrite length_insert.
  - done.
  - intros i Hin. destruct (Hfr i ltac:(by right)) as (Hbi & si & Hsi & Hcl). split; [done|]. exists si. split; [|done].
    rewrite list_lookup_insert_ne; [done|]. intros E. apply Hni. by replace idx with i by lia.
  - intros n c' [[<- <-]|[Hne E]]%lookup_insert_Some.
    + exists meta, s. split; [by rewrite lookup_insert_eq|]. split; [done|]. rewrite Hp. split; [done|]. split; [done|]. split; [|done].
      apply list_lookup_insert_eq. by eapply lookup_lt_Some.
    + destruct (Hh n c' E) as (m1 & s1 & E1 & Hmr1 & Hr1 & Hn1 & Hs1 & Hsr1). rewrite Hf in Hn1. apply not_elem_of_cons in Hn1 as [Hn1 Hn1'].
      exists m1, s1. split; [by rewrite lookup_insert_ne|]. split; [done|]. split; [done|]. split; [done|]. split; [|done].
      cbn. rewrite list_lookup_insert_ne; [done|]. intros Eq. apply Hn1. lia.
  - intros n. destruct (decide (n = name)) as [->|]; [by rewrite !lookup_insert_eq|by rewrite !lookup_insert_ne].
  - intros n1 n2 m1 m2 [[<- <-]|[Hne1 E1]]%lookup_insert_Some [[<- <-]|[Hne2 E2]]%lookup_insert_Some Heq; [done| | |by eapply Hi].
    + exfalso. apply (proj2 (Hused n2 m2 E2)). rewrite <- Heq, Hp. by left.
    + exfalso. apply (proj2 (Hused n1 m1 E1)). rewrite Heq, Hp. by left.
  - intros i Hbi. destruct (Ha i Hbi) as [[->|Hin]%elem_of_cons|(n & m & E & <-)].
    + right. exists name, meta. by rewrite lookup_insert_eq.
    + by left.
    + right. exists n, m. rewrite lookup_insert_ne; [done|]. intros ->. congruence.
  - rewrite map_size_insert_None by done. cbn [length] in Hct. lia.
Qed.

Lemma pool_release p nm cs name meta c : prel p nm cs -> nm !! name = Some meta -> cs !! name = Some c ->
  exists p', pool_Release p (PoolIdx meta) = Ret p' /\ prel p' (delete name nm) (delete name cs).
Proof using P Hnslots HmaxBuf.
  intros [Hcf Hnd Hfr Hh Hd Hi Ha Hct] Hm Hc. destruct (Hh name c Hc) as (m0 & s0 & E0 & Hmr & Hb & Hnf & Hs0 & Hsr).
  replace m0 with meta in * by congruence. clear E0. unfold pool_Release. rewrite (go_index_Z _ _ _ (proj1 Hb) Hs0). cbn [obind free set_pool_slot maxSlots].
  destruct Hcf as (Hms & Hmb & Hmx & Hln). assert (size (delete name cs) = Nat.pred (size cs)) as Hsz by (apply map_size_delete_Some; by eexists).
  assert (size cs <> 0)%nat as Hnz. { intros E. apply map_size_empty_iff in E. subst cs. done. }
  rewrite Hms, (proj2 (Z.ltb_lt _ _)) by lia. eexists. split; [reflexivity|]. set (s1 := mkPoolSlot _ _ _ _ _ _ _ _).
  constructor; cbn.
  - by rewrite length_insert.
  - apply NoDup_app. split_and!; [done| |apply NoDup_singleton]. by intros x Hx ->%list_elem_of_singleton.
  - intros i [Hin|Hin]%elem_of_app; [|apply list_elem_of_singleton in Hin as ->].
    + destruct (Hfr i Hin) as (Hbi & si & Hsi & Hcl). split; [done|]. exists si. split; [|done]. rewrite list_lookup_insert_ne; [done|].
      intros E. apply Hnf. by replace (PoolIdx meta) with i by lia.
    + split; [done|]. exists s1. split; [|done]. apply list_lookup_insert_eq. by eapply lookup_lt_Some.
  - intros n c' [Hne E]%lookup_delete_Some. destruct (Hh n c' E) as (m1 & s2 & E1 & Hmr1 & Hr1 & Hn1 & Hs2 & Hsr2).
    assert (PoolIdx m1 <> PoolIdx meta) as Hpne by (intros Eq; apply Hne; by eapply Hi).
    exists m1, s2. split; [by rewrite lookup_delete_ne|]. split; [done|]. split; [done|]. split; [|split; [|done]].
    + cbn. rewrite elem_of_app, list_elem_of_singleton. tauto.
    + cbn. rewrite list_lookup_insert_ne; [done|]. lia.
  - intros n. destruct (decide (n = name)) as [->|]; [by rewrite !lookup_delete_eq|by rewrite !lookup_delete_ne].
  - intros n1 n2 m1 m2 [_ E1]%lookup_delete_Some [_ E2]%lookup_delete_Some. by apply Hi.
  - intros i Hbi. rewrite elem_of_app, list_elem_of_singleton. destruct (Ha i Hbi) as [?|(n & m & E & <-)]; [tauto|].
    destruct (decide (n = name)) as [->|]; [left; right; congruence|]. right. exists n, m. by rewrite lookup_delete_ne.
  - rewrite length_app, Hsz. cbn [length]. lia.
Qed.

(** ** Usage *)

Lemma used_insert d name c k : d_colls d !! name = None -> a_used (put_coll d name c) k = used_add (a_used d) (c_owner c) (c_bytes c) 1 k.
Proof.
  intros Hc. unfold a_used, a_bytes, a_slots, put_coll, used_add. cbn. rewrite !(colls_insert _ _ _ _ Hc). unfold owned.
  destruct (bool_decide_reflect (k = c_owner c)) as [->|Hne].
  - rewrite !bool_decide_eq_true_2 by done. f_equal; lia.
  - rewrite !(bool_decide_eq_false_2 (c_owner c = k)) by congruence. f_equal; lia.
Qed.

Lemma used_remove d name c k : d_colls d !! name = Some c ->
  a_used (set_colls d (delete name (d_colls d))) k = used_add (a_used d) (c_owner c) (- c_bytes c) (- 1) k.
Proof.
  intros Hc. unfold a_used, a_bytes, a_slots, set_colls, used_add. cbn. rewrite !(colls_delete _ _ _ _ Hc). unfold owned.
  destruct (bool_decide_reflect (k = c_owner c)) as [->|Hne].
  - rewrite !bool_decide_eq_true_2 by done. f_equal; lia.
  - rewrite !(bool_decide_eq_false_2 (c_owner c = k)) by congruence. f_equal; lia.
Qed.

(** An owner has used at least what one of its collections takes. *)
Lemma used_at_least m d name c : rel m d -> d_colls d !! name = Some c ->
  0 <= c_bytes c <= (a_used d (c_owner c)).1 /\ 1 <= (a_used d (c_owner c)).2.
Proof using Hnslots HmaxBuf.
  intros H Hc. destruct (dr_pool _ _ _ _ _ _ _ H) as [? ? ? Hh ? ? ? ?]. destruct (Hh name c Hc) as (m0 & s0 & _ & _ & _ & _ & _ & Hs).
  apply slot_bytes in Hs. unfold a_used, a_bytes, a_slots. cbn. rewrite !(colls_delete _ _ _ _ Hc). unfold owned at 1 3. rewrite !bool_decide_eq_true_2 by done.
  assert (forall f, (forall x, 0 <= f x) -> 0 <= sum_colls f (delete name (d_colls d))) as Hpos.
  { intros f Hf. unfold sum_colls. induction (map_to_list _) as [|x l IH]; cbn; [done|]. specialize (Hf x.2). lia. }
  pose proof (Hpos (owned (c_owner c) (fun _ => 1))) as H2. specialize (H2 ltac:(intros; unfold owned; destruct (bool_decide _); lia)).
  assert (0 <= sum_colls (owned (c_owner c) c_bytes) (delete name (d_colls d))) as H1; [|lia].
  unfold sum_colls. assert (forall p, p ∈ map_to_list (delete name (d_colls d)) -> 0 <= owned (c_owner c) c_bytes p.2) as Hall.
  { intros [n c'] Hin%elem_of_map_to_list. apply lookup_delete_Some in Hin as [_ Hin]. destruct (Hh n c' Hin) as (m1 & s1 & _ & _ & _ & _ & _ & Hs1).
    apply slot_bytes in Hs1. unfold owned. cbn. destruct (bool_decide _); lia. }
  induction (map_to_list _) as [|x l IH]; cbn; [done|]. pose proof (Hall x ltac:(by left)). specialize (IH ltac:(intros p Hp; apply Hall; by right)). lia.
Qed.

Lemma rel_remove m d name meta c p' q t ap : rel m d -> named m !! name = Some meta -> d_colls d !! name = Some c ->
  prel p' (delete name (named m)) (delete name (d_colls d)) -> makeQuotaKey t ap = c_owner c -> q = quota_Release (quotas m) t ap (c_bytes c) 1 ->
  rel (mkDCM p' q (delete name (named m))) (set_colls d (delete name (d_colls d))).
Proof using Hnslots HmaxBuf.
  intros H Hm Hc Hp Ho ->. constructor; cbn; [done|]. pose proof (used_at_least m d name c H Hc). eapply quota_rel_ext; [intros k; symmetry; by apply used_remove|].
  rewrite <- Ho. apply quota_Release_ok; [apply H|by eapply dc_small|rewrite Ho; lia|rewrite Ho; lia|lia].
Qed.

Lemma Drop_ok m d name tid ap : rel m d ->
  exists m', dc_Drop m name tid ap = Ret (m', (a_drop d name (makeQuotaKey tid ap)).2) /\ rel m' (a_drop d name (makeQuotaKey tid ap)).1.
Proof using Hnslots HmaxBuf.
  intros H. pose proof (lookup_both _ _ _ _ _ m d name H) as Hl. unfold dc_Drop, a_drop. destruct (d_colls d !! name) as [c|] eqn:Hc; [|rewrite Hl; by exists m].
  destruct Hl as (meta & s & Hm & Es & Hs & Hmr). rewrite Hm, (mr_owner _ _ Hmr). destruct (bool_decide_reflect (c_owner c = makeQuotaKey tid ap)) as [Ho|]; [|by exists m].
  destruct (pool_release _ _ _ name meta c (dr_pool _ _ _ _ _ _ _ H) Hm Hc) as (p' & E & Hp). cbn [pool set_named quotas named]. rewrite E. cbn [obind].
  eexists. split; [reflexivity|]. eapply rel_remove; try done. by rewrite (mr_size _ _ Hmr).
Qed.

(** ** Creation *)

(** The slot [InitSlot] and the rest of [Create] leave. *)
Lemma init_slot_ok p idx s0 fs cap : go_index (slots p) idx = Ret s0 -> Forall field_ok fs -> 0 < cap -> 0 < total fs ->
  exists s, InitSlot p idx cap (mkSchema fs (cols fs cap) (-1) (cap * total fs)) = Ret (set_pool_slot p idx s) /\
    arena_rel (arena s) (mkTable fs cap 0 [] ∅) /\ SortByIdx (aSchema (arena s)) = -1 /\ Z.of_nat (length (indices s)) = cap /\
    inUse s = inUse s0 /\ ps_name s = ps_name s0 /\ ttlExpUnix s = ttlExpUnix s0 /\ ringHead s = ringHead s0.
Proof.
  intros Es Hfs Hc Ht. assert (0 < cap * total fs) by (apply Z.mul_pos_pos; lia). unfold InitSlot. rewrite Es. cbn [obind BufSize].
  set (b := buf (arena s0)).
  assert (exists b', (if Z.of_nat (length b) <? cap * total fs then alloc_arena_buf (cap * total fs)
      else used <-- go_slice b 0 (cap * total fs) ;; Ret (replicate (length used) 0 ++ drop (length used) b)) = Ret b' /\ cap * total fs <= Z.of_nat (length b')) as (b' & -> & Hb').
  { destruct (Z.ltb_spec (Z.of_nat (length b)) (cap * total fs)).
    - unfold alloc_arena_buf. rewrite (proj2 (Z.ltb_ge _ 0)) by lia. eexists. split; [reflexivity|]. rewrite length_replicate. lia.
    - pose proof (go_slice_cell b 0 (cap * total fs)) as Hgs. rewrite Z.add_0_l in Hgs. rewrite Hgs by lia. cbn [obind]. eexists. split; [reflexivity|].
      rewrite length_app, length_replicate, length_drop. lia. }
  cbn [obind]. destruct (if _ <? cap then _ else _) as [ix sp] eqn:Eix. eexists. split; [reflexivity|].
  assert (Z.of_nat (length ix) = cap) as Hix.
  { destruct (Z.ltb_spec (Z.of_nat (length (indices s0 ++ spare s0))) cap).
    - injection Eix as <- _. rewrite length_replicate. lia.
    - apply (f_equal fst) in Eix. cbn [fst] in Eix. rewrite <- Eix, reslice_length; lia. }
  split; [apply init_ok; [done|lia|done]|]. cbn. split_and!; try done. rewrite length_fmap, length_seqZ. lia.
Qed.

Lemma own_slot_ok s name opts now computed growth cap : opts_ok now opts -> name_ok name -> 0 < cap ->
  let fs := set_width <$> o_Fields opts in
  let exp := if 0 <? o_TTLSec opts then Some (i64 (now + o_TTLSec opts)) else None in
  cap * total fs <= maxBuf ->
  arena_rel (arena s) (mkTable fs cap 0 [] ∅) -> SortByIdx (aSchema (arena s)) = -1 -> Z.of_nat (length (indices s)) = cap ->
  inUse s = true -> ps_name s = replicate 128 0 -> ttlExpUnix s = 0 -> ringHead s = 0 ->
  srel (own_slot s (encodeOwnerKey (o_TenantID opts) (o_App opts)) name exp) name
    (mkColl (mkTable fs cap 0 [] ∅) (makeQuotaKey (o_TenantID opts) (o_App opts)) (o_Access opts) growth (o_MaxCap opts) (o_WindowSize opts) 0 computed
       (if 0 <? o_TTLSec opts then now + o_TTLSec opts else 0) Unsorted []).
Proof using HmaxBuf.
  intros (Htid & Happ & Hfs & Htot & Hnow) Hname Hc fs exp Hb Ha Hsort Hix Hu Hn Hx Hh. constructor; cbn; try done.
  - fold fs in Htot. apply empty_ok; [done|lia|lia|lia].
  - by exists (o_TenantID opts), (o_App opts).
  - unfold exp. destruct (Z.ltb_spec 0 (o_TTLSec opts)); cbn; [|done]. apply wraps_small; lia.
  - split; [|done]. destruct Hname as (_ & Hl & _). rewrite Hn, (take_ge name) by lia. by apply splice_zeros.
Qed.

Lemma fits_used d k b s : a_fits platBytes platSlots d k b s =
  ((a_used d k).1 + b <=? (default (platBytes, platSlots) (d_limits d !! k)).1) && ((a_used d k).2 + s <=? (default (platBytes, platSlots) (d_limits d !! k)).2).
Proof. done. Qed.

Lemma used_back u k b s k' : used_add (used_add u k b s) k (- b) (- s) k' = u k'.
Proof.
  unfold used_add. destruct (bool_decide_reflect (k' = k)) as [->|]; [|done]. rewrite bool_decide_eq_true_2 by done. cbn. destruct (u k). cbn. f_equal; lia.
Qed.

Lemma Create_ok m d now name opts : rel m d -> name_ok name -> opts_ok now opts ->
  let r := a_create nslots maxBuf maxRec platBytes platSlots now d name opts in
  exists m', dc_Create now m name opts = Ret (m', r.2) /\ rel m' r.1.
Proof using Hnslots HmaxBuf HmaxRec.
  intros H Hname Hopts. pose proof Hopts as (Htid & Happ & Hfs & Htot & Hnow). unfold dc_Create, a_create. set (fs := set_width <$> o_Fields opts) in *.
  destruct (pr_conf _ _ _ _ _ _ (dr_pool _ _ _ _ _ _ _ H)) as (Hms & Hmb & Hmx & Hln). rewrite Hmx, Hmb.
  destruct (d_colls d !! name) as [c|] eqn:Hc.
  { pose proof (lookup_both _ _ _ _ _ m d name H) as Hl. rewrite Hc in Hl. destruct Hl as (meta & s & -> & _). exists m. rewrite bool_decide_eq_true_2 by by eexists. done. }
  rewrite (proj2 (pr_dom _ _ _ _ _ _ (dr_pool _ _ _ _ _ _ _ H) name) Hc), bool_decide_eq_false_2 by by intros [].
  set (cap := if o_Capacity opts <=? 0 then 1024 else o_Capacity opts).
  destruct (Z.ltb_spec maxRec (o_Capacity opts)) as [|Hcap]; [by exists m|].
  assert (0 < cap < 2 ^ 31) as Hcap'. { subst cap. destruct (Z.leb_spec (o_Capacity opts) 0); lia. }
  destruct ((0 <? o_WindowSize opts) && (cap <? o_WindowSize opts)); [by exists m|].
  assert (cap * total fs <= 2 ^ 31 * 2 ^ 31) as Hprod by (apply Z.mul_le_mono_nonneg; lia).
  rewrite (BakeSchema_spec (o_Fields opts) cap) by (fold fs; done || lia). fold fs. cbn [BufSize].
  destruct (Z.ltb_spec maxBuf (cap * total fs)) as [|Hfit]; [by exists m|].
  destruct (compileComputedFields (o_Fields opts) (o_Computed opts)) as [computed|e]; [|by exists m].
  assert (0 < cap * total fs) as Hpos by (apply Z.mul_pos_pos; lia). pose proof (dc_small _ _ _ _ _ Hnslots HmaxBuf m d H) as Hsm.
  pose proof (Reserve_ok _ _ _ _ _ (o_TenantID opts) (o_App opts) (cap * total fs) 1 (dr_quota _ _ _ _ _ _ _ H) Hsm ltac:(lia) ltac:(lia)) as HR.
  cbv zeta in HR. rewrite <- fits_used in HR. set (k := makeQuotaKey (o_TenantID opts) (o_App opts)) in *. unfold create_claim. cbn [BufSize].
  destruct (a_fits platBytes platSlots d k (cap * total fs) 1) eqn:Efit; cbn [negb]; destruct HR as (q' & -> & HR); cbv zeta.
  2: { eexists. split; [reflexivity|]. by destruct H; constructor. }
  unfold pool_Claim. pose proof (pr_count _ _ _ _ _ _ (dr_pool _ _ _ _ _ _ _ H)) as Hct. cbn [pool set_quotas].
  destruct (free (pool m)) as [|idx rest] eqn:Efr.
  - cbn [length obind] in *. rewrite (proj2 (Z.leb_le nslots _)) by lia. eexists. split; [reflexivity|]. constructor; [apply H|]. cbn.
    eapply quota_rel_ext; [apply (used_back (a_used d) k (cap * total fs) 1)|].
    assert (used_small (used_add (a_used d) k (cap * total fs) 1)) as Hsm'.
    { intros k'. pose proof (pool_small _ _ _ Hnslots HmaxBuf _ _ _ k' (dr_pool _ _ _ _ _ _ _ H)). pose proof (pool_small _ _ _ Hnslots HmaxBuf _ _ _ k (dr_pool _ _ _ _ _ _ _ H)).
      unfold used_add, a_used, a_bytes, a_slots. destruct (bool_decide (k' = k)); cbn; lia. }
    apply (quota_Release_ok _ _ _ _ _ (o_TenantID opts) (o_App opts) (cap * total fs) 1 HR Hsm'); fold k; specialize (Hsm k);
      unfold used_add; rewrite ?bool_decide_eq_true_2 by done; cbn [fst snd]; lia.
  - cbn [length] in Hct. rewrite (proj2 (Z.leb_gt nslots _)) by lia.
    destruct (pr_free _ _ _ _ _ _ (dr_pool _ _ _ _ _ _ _ H) idx) as (Hb & s0 & Hs0 & Hcl); [rewrite Efr; by left|].
    rewrite (go_index_Z _ _ _ (proj1 Hb) Hs0). cbn [obind]. set (p1 := set_pool_slot (set_freelist (pool m) rest) idx (set_inUse s0 true)).
    assert (slots p1 !! Z.to_nat idx = Some (set_inUse s0 true)) as Hs1 by (cbn; apply list_lookup_insert_eq; by eapply lookup_lt_Some).
    destruct (init_slot_ok p1 idx (set_inUse s0 true) fs cap) as (s & Ei & Har & Hso & Hix & Hiu & Hnm & Htt & Hrh);
      [apply go_index_Z; [lia|done]|done|lia|lia|]. rewrite Ei. cbn [obind].
    rewrite (go_index_Z (slots (set_pool_slot p1 idx s)) idx s) by (lia || by (cbn; rewrite list_insert_insert_eq; apply list_lookup_insert_eq; by eapply lookup_lt_Some)). cbn [obind].
    eexists. split; [reflexivity|]. destruct Hcl as (_ & Hcn & Hct0 & Hcr).
    set (growth := if 0 <? o_WindowSize opts then GrowthFixed else o_Growth opts).
    pose proof (own_slot_ok s name opts now computed growth cap Hopts Hname ltac:(lia) Hfit Har Hso Hix Hiu) as Hown.
    rewrite Hnm, Htt, Hrh in Hown. specialize (Hown Hcn Hct0 Hcr). fold k fs in Hown. set (c := mkColl _ _ _ _ _ _ _ _ _ _ _) in Hown.
    constructor; cbn.
    + subst p1. rewrite !store_slot_twice. eapply (pool_claim (pool m) (named m) (d_colls d) idx rest name _ c); [apply H|done|done|done| |exact Hown]. by constructor.
    + eapply quota_rel_ext; [|exact HR]. intros k'. symmetry. by apply (used_insert d name c k').
Qed.


(** ** Expiry *)

(** Sweeping the slots of a list drops the expired collections that live there. *)
Definition swept (now : Z) (m : DataCacheManager) (d : adc) (idxs : list Z) (cs' : gmap byte_string coll) : Prop :=
  forall name c, cs' !! name = Some c <->
    d_colls d !! name = Some c /\ ~ (expired now c /\ exists meta, named m !! name = Some meta /\ PoolIdx meta ∈ idxs).

Lemma sweep_slot_ok now m d i : rel m d -> 0 <= i < nslots ->
  exists m' cs', sweep_slot now m i = Ret m' /\ rel m' (set_colls d cs') /\ swept now m d [i] cs' /\
    forall name c, cs' !! name = Some c -> named m' !! name = named m !! name.
Proof using Hnslots HmaxBuf.
  intros H Hi. pose proof (dr_pool _ _ _ _ _ _ _ H) as Hp. destruct (pr_conf _ _ _ _ _ _ Hp) as (_ & _ & _ & Hln).
  assert (forall n c meta, d_colls d !! n = Some c -> named m !! n = Some meta -> PoolIdx meta = i -> exists s, go_index (slots (pool m)) i = Ret s /\ srel s n c /\ meta_rel meta c) as Hown.
  { intros n c meta Hc Hm Hx. pose proof (lookup_both _ _ _ _ _ m d n H) as Hl. rewrite Hc in Hl. destruct Hl as (meta' & s & E & Es & Hs & Hmr).
    replace meta' with meta in * by congruence. exists s. by rewrite <- Hx. }
  assert (forall s, (forall n c meta, d_colls d !! n = Some c -> named m !! n = Some meta -> PoolIdx meta = i -> ~ expired now c) ->
    go_index (slots (pool m)) i = Ret s -> (if negb (inUse s) then True else ttlExpUnix s = 0 \/ now < ttlExpUnix s) ->
    exists m' cs', sweep_slot now m i = Ret m' /\ rel m' (set_colls d cs') /\ swept now m d [i] cs' /\
      forall name c, cs' !! name = Some c -> named m' !! name = named m !! name) as Hskip.
  { intros s Hne Es Hc. exists m, (d_colls d). split; [|split; [by destruct d|split; [|done]]].
    - unfold sweep_slot. rewrite Es. cbn [obind]. destruct (negb (inUse s)); [done|]. destruct Hc as [->|Hc]; [done|]. rewrite (proj2 (Z.ltb_lt _ _) Hc). by rewrite orb_true_r.
    - intros name c. split; [|tauto]. intros Hc'. split; [done|]. intros (He & meta & Hm & Hx%list_elem_of_singleton). by eapply Hne. }
  destruct (pr_all _ _ _ _ _ _ Hp i Hi) as [Hfr|(name & meta & Hm & Hx)].
  { destruct (pr_free _ _ _ _ _ _ Hp i Hfr) as (_ & s & Hs & Hcl). eapply (Hskip s).
    - intros n c meta Hc Hm Hx. destruct (pr_held _ _ _ _ _ _ Hp n c Hc) as (m' & _ & E & _ & _ & Hnf & _). replace m' with meta in Hnf by congruence. congruence.
    - by apply go_index_Z; [lia|].
    - by destruct Hcl as (-> & _). }
  destruct (d_colls d !! name) as [c|] eqn:Hc; [|by rewrite (proj2 (pr_dom _ _ _ _ _ _ Hp name) Hc) in Hm].
  destruct (Hown name c meta Hc Hm Hx) as (s & Es & Hs & Hmr).
  assert (forall n c0 meta0, d_colls d !! n = Some c0 -> named m !! n = Some meta0 -> PoolIdx meta0 = i -> n = name /\ c0 = c) as Huniq.
  { intros n c0 meta0 H0 H1 H2. assert (n = name) as -> by (eapply (pr_inj _ _ _ _ _ _ Hp); [exact H1|exact Hm|congruence]). split; [done|congruence]. }
  pose proof (sr_exp _ _ _ _ Hs) as Hexp. destruct (decide (c_exp c <> 0 /\ c_exp c <= now)) as [He|He].
  2: { eapply (Hskip s); [|done|].
    - intros n c0 meta0 H0 H1 H2. destruct (Huniq n c0 meta0 H0 H1 H2) as [-> ->]. exact He.
    - rewrite (sr_use _ _ _ _ Hs), Hexp. cbn. lia. }
  unfold sweep_slot. rewrite Es. cbn [obind]. rewrite (sr_use _ _ _ _ Hs), Hexp. cbn [negb].
  rewrite (proj2 (Z.eqb_neq _ 0)) by apply He. rewrite (proj2 (Z.ltb_ge _ _)) by lia. cbn [orb].
  destruct (sr_owner _ _ _ _ Hs) as (tid & ap & Htid & Hap & Eo & ->). rewrite decode_encode by done. cbn [obind].
  destruct (sr_name _ _ _ _ Hs) as [-> (Hne & Hl & Hlast)]. rewrite (trim_pad 128 name Hl Hlast).
  replace (match name with [] => named m | _ => delete name (named m) end) with (delete name (named m)) by (by destruct name).
  rewrite wrapu_small by lia. rewrite <- Hx. destruct (pool_release _ _ _ name meta c Hp Hm Hc) as (p' & -> & Hp'). cbn [obind].
  exists (mkDCM p' (quota_Release (quotas m) tid (trim_zeros (pad 32 ap)) (c_bytes c) 1) (delete name (named m))), (delete name (d_colls d)).
  pose proof (slot_bytes _ _ _ _ Hs) as Hby. rewrite (sh_size _ _ _ (ar_shape _ _ (sr_arena _ _ _ _ Hs))). fold (c_bytes c).
  split; [|split; [|split]].
  - destruct (Z.ltb_spec 0 (c_bytes c)); [done|]. by replace (c_bytes c) with 0 by lia.
  - apply (rel_remove m d name meta c p' _ tid (trim_zeros (pad 32 ap))); try done. unfold makeQuotaKey. rewrite pad_trim by apply pad_length. done.
  - intros n c0. rewrite lookup_delete_Some. split.
    + intros [Hnn Hc0]. split; [done|]. intros (_ & meta0 & Hm0 & Hin%list_elem_of_singleton). destruct (Huniq n c0 meta0 Hc0 Hm0 ltac:(congruence)). congruence.
    + intros [Hc0 Hno]. split; [|done]. intros <-. apply Hno. replace c0 with c by congruence. split; [exact He|]. exists meta. split; [done|by left].
  - intros n c0 [Hnn _]%lookup_delete_Some. cbn. by rewrite lookup_delete_ne.
Qed.

Lemma sweep_from_ok now idxs : forall m d, rel m d -> Forall (fun i => 0 <= i < nslots) idxs ->
  exists m' cs', sweep_from now m idxs = Ret m' /\ rel m' (set_colls d cs') /\ swept now m d idxs cs'.
Proof using Hnslots HmaxBuf.
  induction idxs as [|i idxs IH]; intros m d H Hb; cbn [sweep_from].
  { exists m, (d_colls d). split; [done|]. split; [by destruct d|]. intros name c. split; [|tauto]. intros Hc. split; [done|]. by intros (_ & meta & _ & ?%elem_of_nil). }
  apply Forall_cons in Hb as [Hi Hb]. destruct (sweep_slot_ok now m d i H Hi) as (m1 & cs1 & -> & H1 & Hsw1 & Hnm1). cbn [obind].
  destruct (IH m1 (set_colls d cs1) H1 Hb) as (m' & cs' & -> & H' & Hsw'). exists m', cs'. split; [done|]. split; [done|]. intros name c.
  rewrite (Hsw' name c). cbn [d_colls set_colls]. specialize (Hsw1 name c). specialize (Hnm1 name c). split.
  - intros [Hc1 Hno]. rewrite Hsw1 in Hc1. destruct Hc1 as [Hc Hno1]. split; [done|]. intros (He & meta & Hm & Hin). apply elem_of_cons in Hin as [Hin|Hin].
    + apply Hno1. split; [done|]. exists meta. split; [done|]. rewrite Hin. by left.
    + apply Hno. split; [done|]. exists meta. rewrite Hnm1 by (by apply Hsw1). done.
  - intros [Hc Hno]. assert (cs1 !! name = Some c) as Hc1.
    { apply Hsw1. split; [done|]. intros (He & meta & Hm & Hin%list_elem_of_singleton). apply Hno. split; [done|]. exists meta. split; [done|]. rewrite Hin. by left. }
    split; [done|]. rewrite Hnm1 by done. intros (He & meta & Hm & Hin). apply Hno. split; [done|]. exists meta. split; [done|by right].
Qed.

Lemma sweepSlots_ok now m d : rel m d -> exists m', sweepSlots now m = Ret m' /\ rel m' (a_sweep now d).
Proof using Hnslots HmaxBuf.
  intros H. pose proof (dr_pool _ _ _ _ _ _ _ H) as Hp. destruct (pr_conf _ _ _ _ _ _ Hp) as (Hms & _). unfold sweepSlots. rewrite Hms.
  destruct (sweep_from_ok now (seqZ 0 nslots) m d H) as (m' & cs' & -> & H' & Hsw); [apply Forall_forall; intros i Hi%elem_of_seqZ; lia|].
  exists m'. split; [done|]. unfold a_sweep. replace (base.filter _ (d_colls d)) with cs'; [done|]. apply map_eq. intros name. apply option_eq. intros c.
  rewrite (Hsw name c), map_lookup_filter_Some. cbn. split; intros [Hc Hno]; (split; [done|]).
  - intros He. apply Hno. split; [done|]. destruct (pr_held _ _ _ _ _ _ Hp name c Hc) as (meta & _ & Hm & _ & Hb & _). exists meta. split; [done|]. apply elem_of_seqZ. lia.
  - tauto.
Qed.

(** ** Every operation *)

Lemma dc_step_ok o m d d' r : rel m d -> op_ok o -> a_step nslots maxBuf maxRec platBytes platSlots o d = Some (d', r) ->
  exists m', dc_step alloc o m = Ret (m', r) /\ rel m' d'.
Proof using Sort Hnslots HmaxBuf HmaxRec Halloc.
  intros H Ho Hst.
  destruct o as [now name opts|name tid ap|name json|name vals|name json|name|name field desc|name field op value|name field op|name n|now|tid ap mb ms|tid ap];
    cbn [a_step dc_step op_ok] in *; unfold ret_err in *.
  - injection Hst as <- <-. destruct (Create_ok m d now name opts H (proj1 Ho) (proj2 Ho)) as (m' & -> & H'). by exists m'.
  - injection Hst as <- <-. destruct (Drop_ok m d name tid ap H) as (m' & -> & H'). by exists m'.
  - by apply (append_step_ok _ _ _ _ _ Hnslots HmaxBuf m d alloc (DAppendJSON name json)).
  - by apply (append_step_ok _ _ _ _ _ Hnslots HmaxBuf m d alloc (DAppendVals name vals)).
  - by apply (append_step_ok _ _ _ _ _ Hnslots HmaxBuf m d alloc (DAppendBatch name json)).
  - pose proof (QueryAll_ok nslots maxBuf maxRec platBytes platSlots alloc Halloc m d name) as HQ. destruct (d_colls d !! name) as [c|].
    + destruct (a_query c) as [x|] eqn:Eq; [|done]. injection Hst as <- <-. rewrite (HQ (inl x) H eq_refl). by exists m.
    + injection Hst as <- <-. rewrite (HQ _ H eq_refl). by exists m.
  - pose proof (SortCollection_ok _ _ _ _ _ Hnslots HmaxBuf m d name field desc H) as HS. destruct (on_field _ _ _ _); injection Hst as <- <-.
    + destruct HS as (m' & -> & H'). by exists m'.
    + rewrite HS. by exists m.
  - pose proof (FilterJSON_ok nslots maxBuf maxRec platBytes platSlots alloc Halloc m d name field op value) as HF. destruct (on_field _ _ _ _) as [[x|]|e]; [|done|];
      injection Hst as <- <-; rewrite (HF _ H eq_refl); by exists m.
  - injection Hst as <- <-. rewrite (AggregateField_ok _ _ _ _ _ m d name field op H). by exists m.
  - pose proof (lookup_both _ _ _ _ _ m d name H) as Hl. unfold TrimOldest, dc_Get. destruct (d_colls d !! name) as [c|] eqn:Hc; [|injection Hst as <- <-].
    + destruct Hl as (meta & s & Hm & _). rewrite Hm. unfold a_trim in Hst. destruct (c_order c) eqn:Eo; try done.
      destruct (bool_decide_reflect (take (Z.to_nat n) (c_ages c) = take (Z.to_nat n) (t_live (c_table c)))) as [Et|]; [|done].
      rewrite Et in Hst. injection Hst as <- <-. fold (t_trim (c_table c) n). edestruct on_arena_ok as (m' & E' & H' & _); [| |apply (trim_op n)|exact H|exact Hm|exact Hc|]; [done|done|].
      rewrite E'. exists m'. split; [done|]. by rewrite Eo in H'.
    + rewrite Hl. by exists m.
  - injection Hst as <- <-. destruct (sweepSlots_ok now m d H) as (m' & -> & H'). by exists m'.
  - injection Hst as <- <-. eexists. split; [reflexivity|]. destruct H as [Hp (H1 & H2 & H3)]. constructor; [done|]. split; [done|]. split; [done|]. intros k. cbn.
    unfold SetTenantLimit, set_quota. cbn [entries]. set (k0 := makeQuotaKey tid ap). destruct (decide (k = k0)) as [->|Hne].
    + rewrite !lookup_insert_eq. cbn. specialize (H3 k0). change (a_used _ k0) with (a_used d k0). destruct (entries (quotas m) !! k0) as [e|]; cbn; [by destruct H3|by destruct H3 as [-> _]].
    + rewrite !lookup_insert_ne by congruence. apply H3.
  - injection Hst as <- <-. exists m. split; [|done]. destruct H as [_ (_ & _ & H3)]. unfold UsageBytes, UsageSlots. specialize (H3 (makeQuotaKey tid ap)).
    unfold a_used in H3. destruct (entries (quotas m) !! _) as [e|]; destruct H3 as [[= -> ->] _]; done.
Qed.

Lemma new_ok : rel (NewDataCacheManager (NewArenaPool nslots maxBuf maxRec) (NewQuotaRegistry platBytes platSlots)) (mkAdc ∅ ∅).
Proof using Hnslots.
  assert (u8 <$> seqZ 0 nslots = seqZ 0 nslots) as Hu.
  { rewrite <- (list_fmap_id (seqZ 0 nslots)) at 2. apply list_fmap_ext. intros k x Hx%list_elem_of_lookup_2. apply elem_of_seqZ in Hx. apply wrapu_small. unfold id. lia. }
  constructor; cbn; [|split_and!; [done|done|intros k; by rewrite lookup_empty]]. unfold NewArenaPool. rewrite Hu. constructor; cbn.
  - split_and!; try done. rewrite length_replicate. lia.
  - apply NoDup_seqZ.
  - intros i Hi%elem_of_seqZ. split; [lia|]. exists fresh_slot. split; [|done]. apply lookup_replicate_2. lia.
  - intros name c. by rewrite lookup_empty.
  - intros name. by rewrite !lookup_empty.
  - intros n1 n2 m1 m2. by rewrite lookup_empty.
  - intros i Hi. left. apply elem_of_seqZ. lia.
  - rewrite length_seqZ, map_size_empty. lia.
Qed.

Lemma dc_run_ok ops : forall m d rs, rel m d -> Forall op_ok ops -> a_run nslots maxBuf maxRec platBytes platSlots ops d = Some rs ->
  answers (dc_step alloc) ops m = Ret rs.
Proof using Sort Hnslots HmaxBuf HmaxRec Halloc.
  induction ops as [|o ops IH]; intros m d rs H Hok; cbn [a_run answers]; [by intros [= <-]|]. apply Forall_cons in Hok as [Ho Hok].
  destruct (a_step _ _ _ _ _ o d) as [[d' r]|] eqn:E; cbn [mbind option_bind fst snd]; [|done].
  destruct (a_run _ _ _ _ _ ops d') as [rs'|] eqn:Er; cbn [mbind option_bind]; [|done]. intros [= <-].
  destruct (dc_step_ok o m d d' r H Ho E) as (m' & -> & H'). cbn [obind fst snd]. by rewrite (IH m' d' rs' H' Hok Er).
Qed.

(** The state and the answers after a sequence of operations. *)
Fixpoint a_exec (ops : list dop) (d : adc) : option (adc * list dres) :=
  match ops with
  | [] => Some (d, [])
  | o :: ops' => r ← a_step nslots maxBuf maxRec platBytes platSlots o d; s ← a_exec ops' r.1; Some (s.1, r.2 :: s.2)
  end.

Lemma dc_exec_ok ops : forall m d d' rs, rel m d -> Forall op_ok ops -> a_exec ops d = Some (d', rs) ->
  exists m', rel m' d' /\ forall rest, answers (dc_step alloc) (ops ++ rest) m = obind (answers (dc_step alloc) rest m') (fun rs' => Ret (rs ++ rs')).
Proof using Sort Hnslots HmaxBuf HmaxRec Halloc.
  induction ops as [|o ops IH]; intros m d d' rs H Hok; cbn [a_exec].
  { intros [= <- <-]. exists m. split; [done|]. intros rest. cbn. by destruct (answers _ rest m). }
  apply Forall_cons in Hok as [Ho Hok]. destruct (a_step _ _ _ _ _ o d) as [[d1 r]|] eqn:E; cbn [mbind option_bind fst snd]; [|done].
  destruct (a_exec ops d1) as [[d2 rs2]|] eqn:Er; cbn [mbind option_bind fst snd]; [|done]. intros [= <- <-].
  destruct (dc_step_ok o m d d1 r H Ho E) as (m1 & E1 & H1). destruct (IH m1 d1 d2 rs2 H1 Hok Er) as (m' & H' & Hrest).
  exists m'. split; [done|]. intros rest. cbn [app answers]. rewrite E1. cbn [obind fst snd]. rewrite Hrest. by destruct (answers _ rest m').
Qed.

End manager.
