(* ===== verification/DataCacheClaims.v ===== *)
(** * What the data cache promises, and where it does not

    The refinement theorem for whole sequences of operations, the behaviour of
    a windowed collection, a small platform to run them on, and inputs outside
    the contract. *)

From S2P Require Import Prelude Bytes Float64 Cond DataCache DataCacheTable DataCacheArena DataCacheSpec DataCacheRefine DataCacheOps DataCacheReads DataCacheManagerSpec.

Local Open Scope Z_scope.
Local Open Scope rah_scope.

(** ** A platform *)

Fixpoint insert_sorted (lt : Z -> Z -> bool) (x : Z) (l : list Z) : list Z :=
  match l with [] => [x] | y :: l' => if lt x y then x :: l else y :: insert_sorted lt x l' end.

Definition insertion_sort (lt : Z -> Z -> bool) (l : list Z) : list Z := foldr (insert_sorted lt) [] l.

Lemma insert_sorted_perm lt x l : insert_sorted lt x l ≡ₚ x :: l.
Proof. induction l as [|y l IH]; cbn; [done|]. destruct (lt x y); [done|]. by rewrite IH, Permutation_swap. Qed.

Lemma insertion_sort_perm lt l : insertion_sort lt l ≡ₚ l.
Proof. induction l as [|x l IH]; cbn; [done|]. by rewrite insert_sorted_perm, IH. Qed.

Lemma insert_sorted_ext lt lt' x l : (forall y, y ∈ l -> lt x y = lt' x y) -> insert_sorted lt x l = insert_sorted lt' x l.
Proof.
  induction l as [|y l IH]; intros H; cbn; [done|]. rewrite (H y) by by left. destruct (lt' x y); [done|]. f_equal. apply IH. intros z Hz. apply H. by right.
Qed.

(** JSON text of the samples: one byte per object, numbers as they are. *)
Definition show_value (v : any) : byte_string :=
  match v with AFloat b => [102; b] | AInt n => [105; n] | AUint8 n => [98; n] | ABytes s | AString s => 115 :: s | AOther => [110] end.

#[export] Instance sample_platform : Platform := {|
  Program := unit;
  sort_slice := insertion_sort;
  json_object s := match s with [] => None | n :: rest => Some (<[[110] := AInt n]> (<[[116] := AString rest]> ∅)) end;
  json_array s := Some ((fun n => [n; n]) <$> s);
  json_marshal obj :=
    match obj !! [110] with
    | Some (AInt n) => if n =? 99 then None else Some (show_value (AInt n) ++ default [] (show_value <$> obj !! [116]))
    | _ => None
    end;
  ParseFloat _ := 0;
  expr_compile _ _ := None;
  expr_run _ _ := None;
  convert_int64 _ := - 2 ^ 63;
  convert_uint8 _ := 0
|}.

#[export] Instance sample_sort : SliceSort sample_platform.
Proof.
  split; [apply insertion_sort_perm|]. intros lt lt' l. change (sort_slice lt l) with (insertion_sort lt l). change (sort_slice lt' l) with (insertion_sort lt' l).
  induction l as [|x l IH]; intros H; [done|]. change (insert_sorted lt x (insertion_sort lt l) = insert_sorted lt' x (insertion_sort lt' l)).
  rewrite (IH (fun i j Hi Hj => H i j (list_elem_of_further i x l Hi) (list_elem_of_further j x l Hj))). apply insert_sorted_ext. intros y Hy.
  apply H; [by left|right]. by rewrite <- (insertion_sort_perm lt' l).
Defined.

Definition zeros (n : Z) : byte_string := replicate (Z.to_nat n) 0.

Lemma zeros_length n : 0 <= n -> Z.of_nat (length (zeros n)) = n.
Proof. intros H. unfold zeros. rewrite length_replicate. lia. Defined.

Definition sample_fields : list FieldDef := [mkField [110] FieldInt64 0; mkField [116] FieldStringN 3].

Definition sample_opts (tenant capacity window ttl : Z) : CreateOpts :=
  mkOpts tenant [65] sample_fields capacity 0 AccessReadWrite GrowthAuto ttl [] window [].

Definition sample_manager (nslots : Z) : DataCacheManager :=
  NewDataCacheManager (NewArenaPool nslots 1000 100) (NewQuotaRegistry 3000 3).

Lemma sample_name x : x <> 0 -> name_ok [x].
Proof. intros Hx. split_and!; [done|cbn; lia|cbn; congruence]. Qed.

Lemma sample_opts_ok now tenant capacity window ttl : 0 <= tenant < 2 ^ 16 -> 0 < now + ttl < 2 ^ 63 -> opts_ok now (sample_opts tenant capacity window ttl).
Proof.
  intros Ht Hn. split; [exact Ht|]. split; [intros Hin; apply list_elem_of_singleton in Hin; done|]. split; [repeat constructor; cbn; lia|].
  split; [cbn; lia|exact Hn].
Qed.

(** ** The refinement *)


Definition sample_ops : list dop :=
  [DCreate 10 [97] (sample_opts 7 2 0 5); DAppendJSON [97] [5; 1; 2]; DAppendJSON [97] [3; 1]; DAppendJSON [97] [4; 1; 2; 3; 4]; DQuery [97];
   DUsage 7 [65]; DTrim [97] 1; DSort [97] [110] true; DQuery [97]; DCreate 11 [98] (sample_opts 7 2 2 0); DAppendBatch [98] [1; 2; 3]; DQuery [98];
   DFilter [98] [110] (bytes_of "lt") (bytes_of "3"); DAggregate [98] [110] (bytes_of "sum"); DSweep 15; DQuery [97]; DUsage 7 [65];
   DDrop [98] 7 [65]; DUsage 7 [65]].


(** ** Outside the contract *)

(** A sorted collection that was trimmed: the query reads the stale index and
    shows the deleted record 3 instead of the live record 5. *)
Lemma stale_sort_shows_deleted :
  answers (dc_step zeros) [DCreate 10 [97] (sample_opts 7 4 0 0); DAppendJSON [97] [3]; DAppendJSON [97] [5]; DAppendJSON [97] [4];
    DSort [97] [110] false; DTrim [97] 1; DQuery [97]; DFilter [97] [110] (bytes_of "gt") (bytes_of "0")] (sample_manager 3) =
  Ret [RErr None; RErr None; RErr None; RErr None; RErr None; RErr None;
       RJson (inl [91; 105; 3; 115; 44; 105; 4; 115; 93]); RJson (inl [91; 105; 5; 115; 44; 105; 4; 115; 93])].
Proof. by vm_compute. Qed.

(** A name of more than 128 bytes survives its expiry: the cleaner deletes the
    truncated name, and the old name then reads the slot's next owner. *)
Definition long_name : byte_string := replicate 129 97.

Lemma long_name_reads_next_owner :
  answers (dc_step zeros) [DCreate 10 long_name (sample_opts 7 4 0 5); DAppendJSON long_name [1]; DSweep 20;
    DCreate 21 [98] (sample_opts 8 4 0 0); DAppendJSON [98] [42]; DQuery long_name] (sample_manager 1) =
  Ret [RErr None; RErr None; RErr None; RErr None; RErr None; RJson (inl [91; 105; 42; 115; 93])].
Proof. by vm_compute. Qed.

(** The free list of a pool of 257 slots holds slot 0 twice. *)
Lemma slot_257_is_slot_0 : free (NewArenaPool 257 1000 100) !! 0%nat = Some 0 /\ free (NewArenaPool 257 1000 100) !! 256%nat = Some 0.
Proof. by vm_compute. Qed.

(** A batch that fails leaves its rows on the free list, and the next records
    come out in the reverse of the order they were appended in. *)
Lemma failed_batch_reverses :
  match AppendBatch (mkArena (zeros 44) (BakeSchema sample_fields 4) 0 4 0 []) [[AInt 1; AString []]; [AInt 2; AString []]; [AInt 3; AOther]] with
  | Ret (a, e) => freeRows a = [0; 1; 2] /\ e = Some (ErrBatchRow 2 ErrBadType) /\
      match arena_Append a [AInt 4; AString []] with
      | Ret (a, None) => match arena_Append a [AInt 5; AString []] with
                         | Ret (a, None) => live_rows a = [1; 2] /\ Int64 a 0 1 = Ret 5 /\ Int64 a 0 2 = Ret 4
                         | _ => False
                         end
      | _ => False
      end
  | _ => False
  end.
Proof. by vm_compute. Qed.

(** A record of the wrong type is rejected by a full window, which has dropped
    its oldest record by then. *)
Lemma rejected_record_evicts :
  answers (dc_step zeros) [DCreate 10 [97] (sample_opts 7 2 2 0); DAppendJSON [97] [1]; DAppendJSON [97] [2]; DAppendVals [97] [AInt 3; AOther]; DQuery [97]] (sample_manager 3) =
  Ret [RErr None; RErr None; RErr None; RErr (Some ErrBadType); RJson (inl [91; 105; 2; 115; 93])].
Proof. by vm_compute. Qed.

(** A trim moves the ages of the rows but not the ring: records 1 and 2 in a
    window of 2, a trim of 1, then 3 and 4: the last evicts 3, the newest. *)
Lemma trim_evicts_newest :
  answers (dc_step zeros) [DCreate 10 [97] (sample_opts 7 2 2 0); DAppendJSON [97] [1]; DAppendJSON [97] [2]; DTrim [97] 1; DAppendJSON [97] [3]; DAppendJSON [97] [4]; DQuery [97]]
    (sample_manager 3) =
  Ret [RErr None; RErr None; RErr None; RErr None; RErr None; RErr None; RJson (inl [91; 105; 4; 115; 44; 105; 2; 115; 93])].
Proof. by vm_compute. Qed.

(** "eq" compares the zero-padded column: a string shorter than its width is
    not equal to itself. *)
Lemma short_string_never_equal :
  answers (dc_step zeros) [DCreate 10 [97] (sample_opts 7 2 0 0); DAppendJSON [97] [1; 65; 66]; DFilter [97] [116] (bytes_of "eq") [65; 66];
    DFilter [97] [116] (bytes_of "gt") [65; 66]] (sample_manager 3) =
  Ret [RErr None; RErr None; RJson (inl [91; 93]); RJson (inl [91; 105; 1; 115; 65; 66; 93])].
Proof. by vm_compute. Qed.

(** A record that cannot be marshalled (an infinite or undefined number) leaves
    a gap: the array is not JSON. *)
Lemma unmarshalled_record_leaves_gap :
  answers (dc_step zeros) [DCreate 10 [97] (sample_opts 7 4 0 0); DAppendJSON [97] [99]; DAppendJSON [97] [1]; DQuery [97]] (sample_manager 3) =
  Ret [RErr None; RErr None; RErr None; RJson (inl [91; 44; 105; 1; 115; 93])].
Proof. by vm_compute. Qed.

(** A width whose product with the capacity wraps to 0 passes every check; the
    first append is out of the buffer's bounds. *)
Definition wide_opts : CreateOpts :=
  mkOpts 7 [65] [mkField [116] FieldStringN (2 ^ 61)] 8 0 AccessReadWrite GrowthAuto 0 [] 0 [].

Lemma wide_field_panics :
  BufSize (BakeSchema (o_Fields wide_opts) 8) = 0 /\
  match dc_Create 10 (sample_manager 3) [97] wide_opts with
  | Ret (m, None) => AppendVals m [97] [AString [65]] = Panic
  | _ => False
  end.
Proof. split; [by vm_compute|]. by vm_compute. Qed.

(** A batch larger than twice the capacity is refused although [MaxCap] has
    room for it: the collection grows once per append. *)
Lemma large_batch_refused :
  answers (dc_step zeros) [DCreate 10 [97] (sample_opts 7 1 0 0); DAppendBatch [97] [1; 2; 3]; DAppendBatch [97] [1; 2; 3]; DUsage 7 [65]] (sample_manager 3) =
  Ret [RErr None; RErr (Some ErrArenaFull); RErr None; RUsage 44 1].
Proof. by vm_compute. Qed.

(** ** Types *)

Inductive arena_op : Type := AoAppend (vals : list any) | AoBatch (allVals : list (list any)) | AoDelete (row : Z).

Section typed.
Context {P : Platform}.

Definition arena_step (o : arena_op) (a : Arena) : outcome Arena :=
  match o with
  | AoAppend vals => r <-- arena_Append a vals ;; Ret r.1
  | AoBatch allVals => r <-- AppendBatch a allVals ;; Ret r.1
  | AoDelete row => Ret (arena_Delete a row)
  end.

Fixpoint arena_run (ops : list arena_op) (a : Arena) : outcome Arena :=
  match ops with [] => Ret a | o :: ops' => a <-- arena_step o a ;; arena_run ops' a end.

Definition arena_op_ok (o : arena_op) : Prop := match o with AoBatch allVals => Z.of_nat (length allVals) < 2 ^ 31 | _ => True end.

Lemma arena_run_ok ops : forall a t, arena_rel a t -> table_ok t -> Forall arena_op_ok ops ->
  exists a' t', arena_run ops a = Ret a' /\ arena_rel a' t' /\ table_ok t' /\ t_fields t' = t_fields t /\ t_cap t' = t_cap t.
Proof.
  induction ops as [|o ops IH]; intros a t H Ht Hok; cbn [arena_run]; [by exists a, t|]. apply Forall_cons in Hok as [Ho Hok].
  assert (exists a1 t1, arena_step o a = Ret a1 /\ arena_rel a1 t1 /\ table_ok t1 /\ t_fields t1 = t_fields t /\ t_cap t1 = t_cap t) as (a1 & t1 & -> & H1 & Ht1 & Hf1 & Hc1).
  { destruct o as [vals|allVals|row]; cbn [arena_step].
    - destruct (append_op vals a t H Ht) as (a1 & -> & ? & ? & _ & ? & ?). by eexists a1, _.
    - destruct (batch_op allVals Ho a t H Ht) as (a1 & -> & ? & ? & _ & ? & ?). by eexists a1, _.
    - exists (arena_Delete a row), (t_delete t row). split; [done|]. split; [by apply arena_Delete_ok|]. split; [by apply t_delete_ok|apply t_delete_meta]. }
  cbn [obind]. destruct (IH a1 t1 H1 Ht1 Hok) as (a' & t' & -> & H' & Ht' & Hf' & Hc'). exists a', t'. split_and!; try done; congruence.
Qed.

(** The row [r] reads back as the record [rec], column by column. *)
Definition row_reads (a : Arena) (fs : list FieldDef) (r : Z) (rec : list any) : Prop :=
  forall col f v, fs !! col = Some f -> rec !! col = Some v -> read_val a (Kind f) (Z.of_nat col) r = Ret (shown v).

Lemma live_reads a t r rec : arena_rel a t -> table_ok t -> t_rows t !! r = Some rec ->
  Forall2 val_ok (t_fields t) rec /\ row_reads a (t_fields t) r rec.
Proof.
  intros H Ht Hr. destruct (ar_rows _ _ H r rec Hr) as [Htyp _]. split; [done|]. intros col f v Hf Hv.
  destruct (cell_reads a t H Ht r rec Hr col f Hf) as (v' & Hv' & Hok & Hread). unfold t_cell in Hv'. rewrite Hr in Hv'. cbn in Hv'.
  replace v' with v in * by congruence. unfold read_val, val_ok in *. destruct (Kind f), v; try done; rewrite Hread; done.
Qed.

Lemma live_perm_rows t t' rs : table_ok t -> table_ok t' -> NoDup (rs ++ t_live t) ->
  (forall r, is_Some (t_rows t' !! r) <-> r ∈ rs \/ is_Some (t_rows t !! r)) -> t_live t' ≡ₚ rs ++ t_live t.
Proof.
  intros Ht Ht' Hn Hd. apply NoDup_Permutation; [apply NoDup_filter, NoDup_seqZ|done|]. intros r.
  by rewrite elem_of_app, !t_live_in, Hd.
Qed.

(** What an append does to the records. *)
Lemma t_append_rows t vals : table_ok t ->
  match (t_append t vals).2 with
  | None => exists r rec, store_row (t_fields t) vals = inl rec /\ t_rows t !! r = None /\ t_rows (t_append t vals).1 = <[r:=rec]> (t_rows t)
  | Some e => t_rows (t_append t vals).1 = t_rows t /\
      (store_row (t_fields t) vals = inr e \/ e = ErrArenaFull /\ t_count t = t_cap t)
  end.
Proof.
  intros Ht. pose proof (t_alloc_ok t 1 Ht) as Hal. destruct (t_alloc_fields t 1) as (Ef & Ec & Er). unfold t_append.
  destruct (t_alloc t 1) as [t1 [rs|]] eqn:Ea; cbn [fst snd] in *.
  - destruct Hal as [Hp Hl]. destruct rs as [|r [|]]; try done. destruct (store_row (t_fields t) vals) as [rec|e]; cbn [fst snd]; [|by split; [|left]].
    exists r, rec. split; [done|]. split; [|done]. rewrite <- Er. apply eq_None_not_Some. intros Hs%(to_dom _ _ Hp).
    destruct Hs as [_ Hs]. apply Hs, elem_of_app. right. by left.
  - split; [done|]. right. split; [done|]. unfold t_alloc in Ea. unfold t_count. pose proof (to_size _ _ Ht).
    destruct (t_free t) as [|x l]; cbn [length Nat.min Nat.sub] in Ea; [|by rewrite bool_decide_eq_false_2 in Ea by lia].
    rewrite bool_decide_eq_true_2 in Ea by lia. cbn [andb] in Ea. change (Z.of_nat 1) with 1 in Ea.
    destruct (Z.ltb_spec (t_cap t) (t_size t + 1)); [cbn; lia|done].
Qed.

End typed.

(** C26: a column holds values of its declared type, and nothing else.  After
    any appends, batches and deletions with values of whatever dynamic types,
    an append does not panic and either
    - stores the record: the values fit the columns (a float64 column takes a
      float64; int64 an int64 or a float64; enum a byte, a float64 or an int64;
      a string column bytes or a string), one new row is live and reads back,
      column by column, exactly the converted values, or
    - refuses it, with the type or field-count error of the values, or because
      all [capacity] rows are live, and no row appears;
    and every other live row reads as before, each column with a value of its
    type.  The buffer must be smaller than 2^31 bytes. *)
Theorem columns_stay_typed {P : Platform} fields capacity ops vals :
  let fs := set_width <$> fields in
  Forall field_ok fs -> 0 < total fs -> 0 <= capacity -> capacity * total fs < 2 ^ 31 -> Forall arena_op_ok ops ->
  exists a a' err, obind (NewArena (BakeSchema fields capacity) capacity) (arena_run ops) = Ret a /\ arena_Append a vals = Ret (a', err) /\
    (forall r, r ∈ live_rows a -> exists rec, Forall2 val_ok fs rec /\ row_reads a fs r rec /\ row_reads a' fs r rec) /\
    match err with
    | None => exists r rec, store_row fs vals = inl rec /\ Forall2 val_ok fs rec /\ (r ∉ live_rows a) /\
        live_rows a' ≡ₚ r :: live_rows a /\ row_reads a' fs r rec
    | Some e => live_rows a' ≡ₚ live_rows a /\
        (store_row fs vals = inr e \/ e = ErrArenaFull /\ Z.of_nat (length (live_rows a)) = capacity)
    end.
Proof.
  intros fs Hfs Ht Hc Hb Hok. assert (0 <= capacity * total fs) by (apply Z.mul_nonneg_nonneg; lia). rewrite BakeSchema_spec by (fold fs; done || lia). fold fs.
  unfold NewArena, alloc_arena_buf. cbn [BufSize]. rewrite (proj2 (Z.ltb_ge _ 0)) by lia. cbn [obind].
  destruct (arena_run_ok ops _ (mkTable fs capacity 0 [] ∅) (init_ok (replicate (Z.to_nat (capacity * total fs)) 0) fs capacity Hfs Hc ltac:(rewrite length_replicate; lia))
    (empty_ok fs capacity Hfs Ht Hc Hb) Hok) as (a & t & -> & Ha & Ht1 & Hf1 & Hc1). cbn [t_fields t_cap] in Hf1, Hc1.
  destruct (arena_Append_ok a t vals Ha Ht1) as (a' & E & Ha' & Ht'). pose proof (t_append_rows t vals Ht1) as Hrows.
  assert (t_fields (t_append t vals).1 = fs) as Hf' by (rewrite <- Hf1; apply t_append_meta). rewrite Hf1 in Hrows.
  destruct (t_append t vals) as [t' err]. cbn [fst snd] in *. exists a, a', err. split; [done|]. split; [done|].
  rewrite !(live_rows_ok _ _ Ha Ht1), (live_rows_ok _ _ Ha' Ht').
  assert (forall r rec, t_rows t !! r = Some rec -> t_rows t' !! r = Some rec) as Hkeep.
  { intros r rec Hr. destruct err; [by destruct Hrows as [-> _]|]. destruct Hrows as (r' & rec' & _ & Hn & ->).
    rewrite lookup_insert_ne; [done|congruence]. }
  split.
  - intros r [rec Hr]%(t_live_in t r Ht1). exists rec. destruct (live_reads a t r rec Ha Ht1 Hr) as [Hv R1]. rewrite Hf1 in *.
    destruct (live_reads a' t' r rec Ha' Ht' (Hkeep r rec Hr)) as [_ R2]. rewrite Hf' in *. done.
  - destruct err as [e|].
    + destruct Hrows as [Er Hwhy]. split.
      * apply (live_perm_rows t t' [] Ht1 Ht'); [apply NoDup_filter, NoDup_seqZ|]. intros r. rewrite Er, elem_of_nil. clear. tauto.
      * destruct Hwhy as [?|[-> ?]]; [by left|]. right. split; [done|]. rewrite live_length by done. congruence.
    + destruct Hrows as (r & rec & Es & Hn & Er). exists r, rec.
      assert (t_rows t' !! r = Some rec) as Hr by (rewrite Er; apply lookup_insert_eq).
      destruct (live_reads a' t' r rec Ha' Ht' Hr) as [Hv R]. rewrite Hf' in *. split_and!; try done.
      * rewrite t_live_in by done. rewrite Hn. by intros [].
      * apply (live_perm_rows t t' [r] Ht1 Ht').
        -- cbn. apply NoDup_cons. split; [rewrite t_live_in by done; rewrite Hn; by intros []|apply NoDup_filter, NoDup_seqZ].
        -- intros x. rewrite Er, lookup_insert_is_Some', list_elem_of_singleton. clear. intuition congruence.
Qed.

Lemma columns_stay_typed_witness :
  exists a a' err, obind (NewArena (BakeSchema sample_fields 2) 2) (arena_run [AoAppend [AFloat 0; AString [1]]; AoAppend [AOther; AOther]; AoBatch [[AInt 1; ABytes []]]; AoDelete 0]) = Ret a /\
    arena_Append a [AInt 5; AString [65]] = Ret (a', err) /\ err = None.
Proof.
  destruct (columns_stay_typed sample_fields 2 [AoAppend [AFloat 0; AString [1]]; AoAppend [AOther; AOther]; AoBatch [[AInt 1; ABytes []]]; AoDelete 0]
    [AInt 5; AString [65]]) as (a & a' & err & E1 & E2 & _);
    [repeat constructor; cbn; lia|cbn; lia|lia|cbn; lia|repeat constructor; cbn; lia|].
  exists a, a', err. split; [exact E1|]. split; [exact E2|].
  vm_compute in E1. injection E1 as <-. vm_compute in E2. by injection E2 as _ <-.
Defined.
