(* ===== verification/DataCacheWindow.v ===== *)
(** * Windowed collections keep the latest records

    A collection with a window of [W] rows reuses the row of the record it
    evicts, so that after any number of appends it holds the last [W] records,
    rotated. *)

From S2P Require Import Prelude Bytes Float64 Cond DataCache DataCacheTable DataCacheArena DataCacheSpec DataCacheRefine DataCacheOps DataCacheReads DataCacheManagerSpec DataCacheClaims.

Local Open Scope Z_scope.
Local Open Scope rah_scope.

(** ** Rotation *)

Section rotate.
Context {A : Type} (W : nat) (HW : (0 < W)%nat).

(** The rows after the [n]-th append. *)
Definition push (n : nat) (rows : list A) (r : A) : list A :=
  if decide (n < W)%nat then rows ++ [r] else <[(n mod W)%nat := r]> rows.

(** The rows that hold the records [l]: the latest [W], the oldest one at the
    row that is overwritten next. *)
Definition ring (l : list A) : list A :=
  let n := length l in
  if decide (n < W)%nat then l
  else let latest := drop (n - W) l in drop (W - n mod W) latest ++ take (W - n mod W) latest.

Lemma ring_length l : length (ring l) = (length l `min` W)%nat.
Proof using HW.
  unfold ring. destruct (decide (length l < W)%nat); [lia|]. rewrite length_app, !length_drop, length_take, length_drop.
  pose proof (Nat.mod_upper_bound (length l) W). lia.
Qed.

Lemma ring_perm l : ring l ≡ₚ drop (length l - W) l.
Proof using HW.
  unfold ring. destruct (decide (length l < W)%nat); [by replace (length l - W)%nat with 0%nat by lia|].
  by rewrite Permutation_app_comm, take_drop.
Qed.

Lemma mod_succ_cases n : (S n mod W = if decide (n mod W = W - 1) then 0 else S (n mod W))%nat.
Proof using HW.
  pose proof (Nat.div_mod_eq n W) as E. pose proof (Nat.mod_upper_bound n W ltac:(lia)) as Hb. destruct (decide _) as [Hl|Hl].
  - symmetry. apply (Nat.mod_unique _ _ (S (n / W))); [lia|]. rewrite Nat.mul_succ_r. lia.
  - symmetry. apply (Nat.mod_unique _ _ (n / W)); lia.
Qed.

Lemma push_ring l r : push (length l) (ring l) r = ring (l ++ [r]).
Proof using HW.
  unfold push. destruct (decide (length l < W)%nat) as [Hlt|Hge].
  - unfold ring. rewrite decide_True by done. rewrite length_app. cbn [length]. destruct (decide (length l + 1 < W)%nat) as [|Hge]; [done|].
    replace (length l + 1)%nat with W by lia. rewrite Nat.Div0.mod_same, Nat.sub_diag, Nat.sub_0_r, drop_0.
    rewrite drop_ge, take_ge by (rewrite length_app; cbn [length]; lia). done.
  - set (n := length l) in *. set (q := (n mod W)%nat). pose proof (Nat.mod_upper_bound n W ltac:(lia)) as Hq. fold q in Hq.
    set (latest := drop (n - W) l). assert (length latest = W) as Hll by (unfold latest; rewrite length_drop; fold n; lia).
    destruct latest as [|x tl] eqn:El; [cbn in Hll; lia|]. cbn [length] in Hll.
    assert (drop (length (l ++ [r]) - W) (l ++ [r]) = tl ++ [r]) as Hnew.
    { rewrite length_app. cbn [length]. rewrite drop_app_le by (fold n; lia). replace (length l + 1 - W)%nat with (S (n - W)) by (fold n; lia).
      f_equal. unfold latest in El. apply (f_equal (drop 1)) in El. rewrite drop_drop in El. rewrite Nat.add_1_r in El. done. }
    unfold ring. fold n. rewrite decide_False by done. fold latest q. rewrite El. rewrite Hnew, length_app. cbn [length]. rewrite Nat.add_1_r. fold n.
    rewrite decide_False by lia. rewrite mod_succ_cases. fold q.
    assert (length (drop (W - q) (x :: tl)) = q) as Hd by (rewrite length_drop; cbn [length]; lia).
    rewrite insert_app_r_alt by lia. rewrite Hd, Nat.sub_diag. replace (W - q)%nat with (S (W - S q)) by lia. cbn [take drop]. cbn [insert list_insert].
    destruct (decide (q = W - 1)%nat) as [Hw|Hw].
    + replace (W - S q)%nat with 0%nat by lia. rewrite drop_0, take_0, Nat.sub_0_r. rewrite drop_ge, take_ge by (rewrite length_app; cbn; lia). done.
    + rewrite drop_app_le, take_app_le by lia. by rewrite <- app_assoc.
Qed.

End rotate.

Lemma filter_all_seq (Q : Z -> Prop) {HQ : forall x, Decision (Q x)} n : (forall r, 0 <= r < n -> Q r) -> base.filter Q (seqZ 0 n) = seqZ 0 n.
Proof.
  intros H. assert (forall l : list Z, Forall Q l -> base.filter Q l = l) as Hall.
  { induction 1 as [|x l Hx _ IH]; [done|]. by rewrite filter_cons_True, IH. }
  apply Hall, Forall_forall. intros r Hr%elem_of_seqZ. apply H. lia.
Qed.

(** ** The collection *)

Section window.
Context {P : Platform} {Sort : SliceSort P}.
Context (nslots maxBuf maxRec platBytes platSlots : Z).
Context (fs : list FieldDef) (W : nat) (HW : (0 < W)%nat) (cap : Z) (Hcap : Z.of_nat W <= cap).

(** The state after the records [recs]. *)
Record windowed (c : coll) (recs : list (list any)) : Prop := mkWindowed {
  wi_fields : t_fields (c_table c) = fs;
  wi_cap : t_cap (c_table c) = cap;
  wi_size : t_size (c_table c) = Z.of_nat (length recs `min` W);
  wi_free : t_free (c_table c) = [];
  wi_rows : forall j, t_rows (c_table c) !! j = if decide (0 <= j) then ring W recs !! Z.to_nat j else None;
  wi_window : c_window c = Z.of_nat W;
  wi_head : c_head c = Z.of_nat (length recs - W);
  wi_computed : c_computed c = [];
  wi_order : c_order c = Unsorted;
  wi_access : c_access c = AccessReadWrite;
  wi_growth : c_growth c = GrowthFixed;
  wi_ages : c_ages c = (fun i => Z.of_nat (i mod W)) <$> seq (length recs - W) (length recs `min` W) }.

Lemma append_fresh t vals rec : t_free t = [] -> t_size t < t_cap t -> store_row (t_fields t) vals = inl rec ->
  t_append t vals = (set_rows t (t_size t + 1) [] (<[t_size t := rec]> (t_rows t)), None).
Proof.
  intros Hf Hs Hr. unfold t_append, t_alloc. rewrite Hf. cbn [length Nat.min Nat.sub reverse rev_append take app]. change (Z.of_nat 1) with 1.
  rewrite (proj2 (Z.ltb_ge _ _)) by lia. rewrite andb_false_r. change (seqZ (t_size t) 1) with [t_size t]. rewrite Hr. done.
Qed.

Lemma append_reuse t vals rec r : t_free t = [r] -> store_row (t_fields t) vals = inl rec ->
  t_append t vals = (set_rows t (t_size t) [] (<[r := rec]> (t_rows t)), None).
Proof.
  intros Hf Hr. unfold t_append, t_alloc. rewrite Hf. cbn [length Nat.min Nat.sub take app]. change (Z.of_nat 0) with 0. change (bool_decide (0 < 0)) with false.
  cbn [andb]. change (take 1 (reverse [r])) with [r]. change (seqZ (t_size t) 0) with (@nil Z). cbn [app]. rewrite Hr. cbn. by rewrite Z.add_0_r.
Qed.

(** *** Ages *)

Lemma list_filter_all {A} (Q : A -> Prop) `{!forall x, Decision (Q x)} (l : list A) : Forall Q l -> base.filter Q l = l.
Proof. induction 1 as [|x l Hx _ IH]; [done|]. by rewrite filter_cons, decide_True, IH. Qed.

Lemma new_ages_insert t t' ages r rec : t_rows t' = <[r:=rec]> (t_rows t) -> t_rows t !! r = None -> (t_alloc t 1).2 = Some [r] ->
  Forall (fun x => is_Some (t_rows t !! x)) ages -> new_ages t t' ages = ages ++ [r].
Proof.
  intros Hr Hn Ha Hl. unfold new_ages. rewrite Hr, (map_size_insert_None _ _ _ Hn). replace (S (size (t_rows t)) - size (t_rows t))%nat with 1%nat by lia.
  rewrite Ha. cbn [default from_option id]. f_equal. apply list_filter_all. eapply Forall_impl; [exact Hl|]. cbn. intros x Hx. apply lookup_insert_is_Some'. by right.
Qed.

Lemma new_ages_delete t ages r : is_Some (t_rows t !! r) -> NoDup (r :: ages) -> Forall (fun x => is_Some (t_rows t !! x)) ages ->
  new_ages t (t_delete t r) (r :: ages) = ages.
Proof.
  intros [rec Hr] [Hni _]%NoDup_cons Hl. unfold new_ages, t_delete. rewrite Hr. cbn [t_rows set_rows]. rewrite map_size_delete_Some by by eexists.
  replace (pred (size (t_rows t)) - size (t_rows t))%nat with 0%nat by lia.
  assert ((t_alloc t 0).2 = Some []) as ->.
  { unfold t_alloc. cbn [Nat.min Nat.sub take]. rewrite bool_decide_eq_false_2 by (cbn; lia). done. }
  cbn [default from_option id]. rewrite app_nil_r, filter_cons, lookup_delete_eq, decide_False by by intros [].
  apply list_filter_all. rewrite Forall_forall in Hl |- *. intros x Hx. rewrite lookup_delete_ne by (by intros ->). by apply Hl.
Qed.

Definition ages_of (n : nat) : list Z := (fun i => Z.of_nat (i mod W)) <$> seq (n - W) (n `min` W).

Lemma ages_nodup n : NoDup (ages_of n).
Proof using HW.
  apply NoDup_fmap_2_strong; [|apply NoDup_seq]. intros i j Hi Hj Hm. apply elem_of_seq in Hi, Hj. apply Nat2Z.inj in Hm.
  pose proof (Nat.div_mod i W ltac:(lia)). pose proof (Nat.div_mod j W ltac:(lia)). rewrite Hm in *.
  assert (i / W = j / W)%nat by nia. congruence.
Qed.

Lemma ages_full n : (W <= n)%nat -> ages_of n = Z.of_nat (n mod W) :: ((fun i => Z.of_nat (i mod W)) <$> seq (S (n - W)) (W - 1)).
Proof using HW.
  intros H. unfold ages_of. rewrite Nat.min_r by lia. replace (seq (n - W) W) with (seq (n - W) (S (W - 1))) by (f_equal; lia).
  cbn [seq fmap list_fmap]. do 2 f_equal. replace n with (n - W + 1 * W)%nat at 2 by lia. by rewrite Nat.Div0.mod_add.
Qed.

Lemma ages_next n : ages_of (S n) = (if decide (n < W)%nat then ages_of n else tail (ages_of n)) ++ [Z.of_nat (n mod W)].
Proof using HW.
  destruct (decide (n < W)%nat) as [Hlt|Hge].
  - unfold ages_of. replace (S n - W)%nat with 0%nat by lia. replace (n - W)%nat with 0%nat by lia. rewrite !Nat.min_l by lia.
    by rewrite seq_S, fmap_app.
  - rewrite (ages_full n) by lia. cbn [tail]. unfold ages_of. rewrite Nat.min_r by lia. replace (S n - W)%nat with (S (n - W)) by lia.
    replace W with (S (W - 1)) at 2 by lia. rewrite seq_S, fmap_app. cbn [fmap list_fmap]. do 4 f_equal. lia.
Qed.

Lemma windowed_live c recs : windowed c recs -> Forall (fun x => is_Some (t_rows (c_table c) !! x)) (c_ages c).
Proof using HW.
  intros [_ _ _ _ Hro _ _ _ _ _ _ Hag]. rewrite Hag. apply Forall_fmap, Forall_forall. intros i Hi%elem_of_seq. cbn.
  rewrite Hro, decide_True, Nat2Z.id by lia. apply lookup_lt_is_Some_2. rewrite ring_length by done.
  pose proof (Nat.mod_upper_bound i W ltac:(lia)). destruct (decide (W <= length recs)%nat); [lia|]. rewrite Nat.mod_small by lia. lia.
Qed.

(** A record inserted into the ring. *)
Lemma ring_insert (m : gmap Z (list any)) recs rec i j :
  (forall x, m !! x = if decide (0 <= x) then ring W recs !! Z.to_nat x else None) ->
  (i = if decide (length recs < W)%nat then length recs else length recs mod W)%nat ->
  <[Z.of_nat i := rec]> m !! j = if decide (0 <= j) then ring W (recs ++ [rec]) !! Z.to_nat j else None.
Proof using HW.
  intros Hm Hi. rewrite <- push_ring by done. set (n := length recs) in *. unfold push. fold n. pose proof (ring_length W HW recs) as Hrl. fold n in Hrl.
  destruct (decide (Z.of_nat i = j)) as [<-|Hne].
  - rewrite lookup_insert_eq, decide_True, Nat2Z.id by lia. destruct (decide (n < W)%nat) as [Hlt|Hge].
    + subst i. rewrite lookup_app_r by lia. by replace (n - length (ring W recs))%nat with 0%nat by lia.
    + subst i. rewrite list_lookup_insert_eq; [done|]. pose proof (Nat.mod_upper_bound n W). lia.
  - rewrite lookup_insert_ne by done. rewrite Hm. destruct (decide (0 <= j)); [|done]. destruct (decide (n < W)%nat).
    + destruct (decide (Z.to_nat j < n)%nat); [by rewrite lookup_app_l by lia|]. rewrite !lookup_ge_None_2; [done|rewrite length_app; cbn [length]; lia|lia].
    + rewrite list_lookup_insert_ne by lia. done.
Qed.

Lemma window_step d name c recs vals rec : windowed c recs -> store_row fs vals = inl rec -> Z.of_nat (length recs) + 1 < 2 ^ 31 ->
  exists c', a_append maxBuf platBytes platSlots d name c vals = Some (put_coll d name c', None) /\ windowed c' (recs ++ [rec]).
Proof using HW Hcap.
  intros Hwi Hst Hn. pose proof (windowed_live c recs Hwi) as Hlive. destruct Hwi as [Hf Hc Hs Hfr Hro Hw Hh Hco Ho Ha Hg Hag].
  unfold a_append. rewrite Hco. cbn [evalComputed]. unfold a_spared. rewrite Hf, Hst, orb_true_r. unfold a_evict, a_full. rewrite Hw. unfold t_count. rewrite Hs, Hfr.
  cbn [length]. rewrite (proj2 (Z.ltb_lt 0 _)) by lia. cbn [andb]. set (n := length recs) in *. pose proof (ages_nodup n) as Hnd. pose proof (ages_next n) as Hnext.
  fold (ages_of n) in Hag.
  destruct (Z.leb_spec (Z.of_nat W) (Z.of_nat (n `min` W) - Z.of_nat 0)) as [Hle|Hgt].
  - rewrite decide_False in Hnext by lia. rewrite (ages_full n) in Hag, Hnd, Hnext by lia. cbn [tail] in Hnext. set (rest := _ <$> seq (S (n - W)) _) in *.
    rewrite Hag in Hlive |- *. apply Forall_cons in Hlive as [Hl1 Hl2]. cbn [head mbind option_bind].
    rewrite Hh, (proj2 (Z.leb_gt _ _)) by lia.
    assert (Z.of_nat (n - W) mod Z.of_nat W = Z.of_nat (n mod W)) as Hmod.
    { rewrite <- Nat2Z.inj_mod. f_equal. symmetry. rewrite <- (Nat.sub_add W n) at 1 by lia. rewrite <- (Nat.mul_1_l W) at 2. by rewrite Nat.Div0.mod_add. }
    rewrite Hmod, Z.eqb_refl. cbn [orb negb mbind option_bind]. set (r := Z.of_nat (n mod W)) in *.
    pose proof (new_ages_delete (c_table c) rest r Hl1 Hnd Hl2) as Hdel. destruct Hl1 as [old Hrow].
    unfold a_growing. cbn [c_table set_table]. unfold t_delete in Hdel |- *. rewrite Hrow, Hfr in Hdel |- *. cbn [app] in Hdel |- *.
    rewrite (append_reuse _ vals rec r); [|done|by cbn; rewrite Hf]. cbn [c_growth set_table].
    eexists. split; [reflexivity|]. constructor; cbn -[new_ages]; try done; rewrite ?length_app; cbn [length]; fold n.
    + rewrite Hs. lia.
    + intros j. rewrite insert_delete_eq. apply ring_insert; [done|]. fold n. by rewrite decide_False by lia.
    + lia.
    + by rewrite Ho.
    + replace (n + 1)%nat with (S n) by lia. fold (ages_of (S n)). rewrite Hnext, Hag, Hdel. eapply new_ages_insert; [cbn; reflexivity|cbn; apply lookup_delete_eq|done|].
      apply NoDup_cons in Hnd as [Hni _]. rewrite Forall_forall in Hl2 |- *. intros x Hx. cbn. rewrite lookup_delete_ne by (by intros ->). by apply Hl2.
  - rewrite decide_True in Hnext by lia. cbn [mbind option_bind]. unfold a_growing. rewrite (append_fresh _ vals rec); [|done|rewrite Hs, Hc; lia|by rewrite Hf]. cbn [c_growth set_table].
    eexists. split; [reflexivity|]. constructor; cbn -[new_ages]; try done; rewrite ?length_app; cbn [length]; fold n.
    + rewrite Hs. lia.
    + intros j. rewrite Hs. apply ring_insert; [done|]. fold n. rewrite decide_True by lia. lia.
    + rewrite Hh. lia.
    + by rewrite Ho.
    + replace (n + 1)%nat with (S n) by lia. fold (ages_of (S n)). rewrite Hnext, <- Hag. rewrite Hs. replace (n `min` W)%nat with (n mod W)%nat by (rewrite Nat.mod_small; lia).
      eapply new_ages_insert; [cbn; reflexivity| | |done].
      * rewrite Hro, decide_True, Nat2Z.id by lia. apply lookup_ge_None_2. rewrite ring_length by done. fold n. rewrite Nat.mod_small; lia.
      * unfold t_alloc. rewrite Hfr. cbn [length Nat.min Nat.sub reverse rev_append take app]. change (Z.of_nat 1) with 1.
        rewrite (proj2 (Z.ltb_ge _ _)) by lia. rewrite andb_false_r. cbn [snd]. rewrite Hs. rewrite Nat.mod_small by lia. by rewrite Nat.min_l by lia.
Qed.

Lemma window_run valss : forall d name c recs recs', windowed c recs -> d_colls d !! name = Some c ->
  store_row fs <$> valss = inl <$> recs' -> Z.of_nat (length recs + length valss) < 2 ^ 31 ->
  exists c', windowed c' (recs ++ recs') /\
    a_exec nslots maxBuf maxRec platBytes platSlots (DAppendVals name <$> valss) d =
      Some (put_coll d name c', replicate (length valss) (RErr None)).
Proof using HW Hcap.
  induction valss as [|vals valss IH]; intros d name c recs recs' Hwi Hc Hst Hn; destruct recs' as [|rec recs']; try done.
  { exists c. rewrite app_nil_r. split; [done|]. cbn. by rewrite put_same. }
  injection Hst as Hst1 Hst. cbn [length] in Hn. destruct (window_step d name c recs vals rec Hwi Hst1 ltac:(lia)) as (c1 & E1 & Hwi1).
  destruct (IH (put_coll d name c1) name c1 (recs ++ [rec]) recs' Hwi1 (lookup_put _ _ _) Hst) as (c' & Hwi' & Hrun); [rewrite length_app; cbn [length]; lia|].
  exists c'. split; [by rewrite <- app_assoc in Hwi'|]. cbn [fmap list_fmap a_exec a_step]. unfold a_writable. rewrite Hc, (wi_access _ _ Hwi).
  rewrite E1. cbn [mbind option_bind fst snd ret_err]. change (_ <$> valss) with (DAppendVals name <$> valss). by rewrite Hrun, put_put.
Qed.

(** A row of records as JSON. *)
Definition records_json (recs : list (list any)) : byte_string :=
  91 :: join_comma ((fun rec => default [] (json_marshal (record_object fs rec ∅))) <$> recs) ++ [93].

Lemma windowed_query c recs : windowed c recs ->
  a_shown c = Some (t_live (c_table c)) /\ t_json (c_table c) (t_live (c_table c)) = records_json (ring W recs).
Proof using HW.
  intros [Hf Hc Hs Hfr Hro Hw Hh Hco Ho Ha Hg _]. unfold a_shown. rewrite Ho. split; [done|]. unfold t_json, records_json. do 3 f_equal.
  pose proof (ring_length W HW recs) as Hrl. unfold t_live. rewrite Hs, <- Hrl.
  rewrite filter_all_seq; [|intros r Hr; rewrite Hro, decide_True by lia; apply lookup_lt_is_Some_2; lia].
  apply list_eq. intros i. rewrite !list_lookup_fmap. destruct (decide (i < length (ring W recs))%nat) as [Hi|Hi].
  - rewrite lookup_seqZ_lt by lia. destruct (lookup_lt_is_Some_2 (ring W recs) i Hi) as [rec Hrec]. rewrite Hrec. cbn [fmap option_fmap option_map]. f_equal. unfold row_json.
    rewrite Hf, Hro, decide_True by lia. assert (Z.to_nat (0 + Z.of_nat i) = i) as -> by lia. by rewrite Hrec.
  - rewrite lookup_seqZ_ge by lia. by rewrite lookup_ge_None_2 by lia.
Qed.
End window.

Lemma create_windowed {P : Platform} nslots maxBuf maxRec platBytes platSlots now name opts (W : nat) :
  let fs := set_width <$> o_Fields opts in
  (0 < W)%nat -> o_WindowSize opts = Z.of_nat W -> Z.of_nat W <= o_Capacity opts <= maxRec -> o_Capacity opts * total fs <= maxBuf ->
  o_Capacity opts * total fs <= platBytes -> 1 <= platSlots -> 1 <= nslots -> o_Access opts = AccessReadWrite -> o_Computed opts = [] ->
  exists c, a_create nslots maxBuf maxRec platBytes platSlots now (mkAdc ∅ ∅) name opts = (put_coll (mkAdc ∅ ∅) name c, None) /\
    windowed fs W (o_Capacity opts) c [].
Proof.
  intros fs HW Hw Hcap Hb Hp Hs Hn Ha Hc. unfold a_create. fold fs. cbn [d_colls]. rewrite lookup_empty, bool_decide_eq_false_2 by by intros [].
  rewrite (proj2 (Z.ltb_ge maxRec _)), (proj2 (Z.leb_gt (o_Capacity opts) 0)) by lia. rewrite Hw, (proj2 (Z.ltb_ge (o_Capacity opts) _)) by lia. rewrite andb_false_r.
  rewrite (proj2 (Z.ltb_ge maxBuf _)) by lia. rewrite Hc. cbn [compileComputedFields compile_defs].
  assert (a_fits platBytes platSlots (mkAdc ∅ ∅) (makeQuotaKey (o_TenantID opts) (o_App opts)) (o_Capacity opts * total fs) 1 = true) as ->.
  { unfold a_fits, a_bytes, a_slots, sum_colls, a_limit. cbn [d_colls d_limits]. rewrite map_to_list_empty, lookup_empty. cbn [foldr default fst snd].
    rewrite !(proj2 (Z.leb_le _ _)) by lia. done. }
  cbn [negb]. rewrite map_size_empty, (proj2 (Z.leb_gt nslots _)) by lia. eexists. split; [reflexivity|]. constructor; cbn; try done.
  - intros j. rewrite lookup_empty. destruct (decide (0 <= j)); [|done]. unfold ring. cbn [length]. by rewrite decide_True.
  - by rewrite (proj2 (Z.ltb_lt 0 _)) by lia.
Qed.

(** C27: a collection created with a window of [W] rows, given any number of
    well-typed records, accepts them all, and a query then shows the last [W]
    of them (all of them when there are fewer), each once, whatever its
    capacity: the evicted row is the oldest.  Fewer than 2^31 records are
    appended (the ring counts in 32 bits). *)
Theorem window_keeps_latest {P : Platform} {Sort : SliceSort P} nslots maxBuf maxRec platBytes platSlots alloc now name opts (W : nat) valss recs :
  let fs := set_width <$> o_Fields opts in
  1 <= nslots <= 256 -> 0 <= maxBuf < 2 ^ 31 -> maxRec < 2 ^ 31 -> (forall n, 0 <= n -> Z.of_nat (length (alloc n)) = n) ->
  name_ok name -> opts_ok now opts -> (0 < W)%nat -> o_WindowSize opts = Z.of_nat W -> Z.of_nat W <= o_Capacity opts <= maxRec ->
  o_Capacity opts * total fs <= maxBuf -> o_Capacity opts * total fs <= platBytes -> 1 <= platSlots ->
  o_Access opts = AccessReadWrite -> o_Computed opts = [] ->
  store_row fs <$> valss = inl <$> recs -> Z.of_nat (length valss) < 2 ^ 31 ->
  exists shown, shown ≡ₚ drop (length recs - W) recs /\
    answers (dc_step alloc) (DCreate now name opts :: (DAppendVals name <$> valss) ++ [DQuery name])
      (NewDataCacheManager (NewArenaPool nslots maxBuf maxRec) (NewQuotaRegistry platBytes platSlots)) =
    Ret (replicate (S (length valss)) (RErr None) ++ [RJson (inl (records_json fs shown))]).
Proof.
  intros fs Hn Hb Hr Hal Hname Hopts HW Hw Hcap Hfit Hplat Hps Ha Hc Hst Hlen. exists (ring W recs). split; [by apply ring_perm|].
  destruct (create_windowed nslots maxBuf maxRec platBytes platSlots now name opts W) as (c & Ec & Hwi); try done; [lia|].
  destruct (window_run nslots maxBuf maxRec platBytes platSlots fs W HW (o_Capacity opts) ltac:(lia) valss _ name c [] recs Hwi (lookup_put (mkAdc ∅ ∅) name c) Hst Hlen) as (c' & Hwi' & Hrun).
  assert (0 <= nslots <= 256) as Hn' by lia.
  destruct (dc_exec_ok nslots maxBuf maxRec platBytes platSlots Hn' Hb Hr alloc Hal (DCreate now name opts :: (DAppendVals name <$> valss)) _ (mkAdc ∅ ∅)
    (put_coll (mkAdc ∅ ∅) name c') (RErr None :: replicate (length valss) (RErr None)) (new_ok _ _ _ _ _ Hn')) as (m' & Hm' & Hrest).
  - constructor; [by split|]. apply Forall_fmap, Forall_forall. done.
  - cbn [a_exec a_step]. unfold ret_err at 1. rewrite Ec. cbn [fst snd mbind option_bind]. by rewrite Hrun, put_put.
  - rewrite app_comm_cons, Hrest. destruct (windowed_query fs W HW (o_Capacity opts) c' recs Hwi') as [Hsh Hj]. cbn [answers dc_step].
    rewrite (QueryAll_rows nslots maxBuf maxRec platBytes platSlots alloc Hal m' _ name c' _ Hm' (lookup_put _ _ _) Hsh), Hj. done.
Qed.

Lemma window_keeps_latest_witness :
  exists shown, shown ≡ₚ [[AInt 3; ABytes [0; 0; 0]]; [AInt 4; ABytes [7; 0; 0]]] /\
    answers (dc_step zeros) (DCreate 10 [97] (sample_opts 7 4 2 0) :: (DAppendVals [97] <$>
        [[AInt 1; AString []]; [AInt 2; AString [9; 9; 9; 9]]; [AInt 3; AString []]; [AInt 4; AString [7]]]) ++ [DQuery [97]]) (sample_manager 3) =
    Ret (replicate 5 (RErr None) ++ [RJson (inl (records_json (set_width <$> sample_fields) shown))]).
Proof.
  apply (window_keeps_latest 3 1000 100 3000 3 zeros 10 [97] (sample_opts 7 4 2 0) 2
    [[AInt 1; AString []]; [AInt 2; AString [9; 9; 9; 9]]; [AInt 3; AString []]; [AInt 4; AString [7]]]
    [[AInt 1; ABytes [0; 0; 0]]; [AInt 2; ABytes [9; 9; 9]]; [AInt 3; ABytes [0; 0; 0]]; [AInt 4; ABytes [7; 0; 0]]]);
    cbn; try lia; try exact zeros_length; try done; try (vm_compute; reflexivity).
  - by apply sample_name.
  - by apply sample_opts_ok.
Defined.
