(* ===== verification/SlotAlloc.v ===== *)
(** * Slots of a flow

    The register allocation of [internal/control/compiler.go]: variables of a
    flow are given byte slots of the request context in the order of their
    first use ([getSlot]), a scan of the configuration finds the last step that
    mentions each variable ([computeLastUse]), and [bakeFlow] returns the slot
    of a variable to a free list after that step ([releaseDeadSlots]). *)

From S2P Require Import Prelude Cond Context Flow.
From stdpp Require Import base numbers list gmap.

Local Open Scope Z_scope.
Local Open Scope rah_scope.

(** ** Configurations

    The fields of a step that the slot allocation looks at, and the two the
    theorems about flows have to speak of: the flows of a [switch] ([Cases]) and
    what is done on an error ([OnError]).  [Input], [Cases] and each of [Params]
    is a map, in the order a loop over it visits the entries. *)

Abbreviation string_map := (list (byte_string * byte_string)).

Inductive StepConfig : Type := mkStep {
  Action : byte_string;
  As : byte_string;
  Variable_ : byte_string;
  Destination : byte_string;
  Source : byte_string;
  KeyIdentifier : byte_string;
  UrlVar : byte_string;
  Condition : byte_string;
  Input : string_map;
  Params : list string_map;
  Value : byte_string;
  Then : byte_string;
  Else : byte_string;
  FlowName : byte_string;
  Do : list StepConfig;
  Cases : string_map;
  OnError : byte_string
}.

(** A missing key reads as the empty string. *)
Fixpoint map_get (m : string_map) (k : byte_string) : byte_string :=
  match m with
  | [] => []
  | (k', v) :: m' => if beq k k' then v else map_get m' k
  end.

(** ** The compiler's slots *)

Record Compiler : Type := mkCompiler { slotMap : gmap byte_string Z; freeSlots : list Z; nextSlot : Z }.

(** [None]: the slot limit is exceeded. *)
Definition getSlot (c : Compiler) (name : byte_string) : option (Z * Compiler) :=
  match slotMap c !! name with
  | Some idx => Some (idx, c)
  | None =>
    match last (freeSlots c) with
    | Some idx =>
      Some (idx, mkCompiler (<[name := idx]> (slotMap c)) (take (length (freeSlots c) - 1) (freeSlots c)) (nextSlot c))
    | None =>
      if BaseByteSlots <=? nextSlot c then None
      else Some (nextSlot c, mkCompiler (<[name := nextSlot c]> (slotMap c)) (freeSlots c) (nextSlot c + 1))
    end
  end.

Definition getSlotReadOnly (c : Compiler) (name : byte_string) : option Z := slotMap c !! name.

Definition resetSlots : Compiler := mkCompiler ∅ [] 0.

(** ** Mentions of variables *)

(** [strings.Index(s, p)] *)
Fixpoint find_sub (s p : byte_string) : option nat :=
  if has_prefix s p then Some O
  else match s with [] => None | _ :: s' => S <$> find_sub s' p end.

(** [strings.IndexAny(s, chars)] for ASCII [chars] *)
Fixpoint index_any (s chars : byte_string) : option nat :=
  match s with
  | [] => None
  | c :: s' => if bool_decide (c ∈ chars) then Some O else S <$> index_any s' chars
  end.

Definition var_prefix : byte_string := bytes_of "var.".

(** The characters that end a name: space, both quotes, tab, newline and
    punctuation. *)
Definition terminators : byte_string := [32; 34; 39; 9; 10; 125; 93; 44; 61; 60; 62; 33; 123; 40; 41].

(** The [var.] names embedded in a value. *)
Fixpoint var_refs (fuel : nat) (rest : byte_string) : list byte_string :=
  match fuel with
  | O => []
  | S fuel' =>
    match find_sub rest var_prefix with
    | None => []
    | Some idx =>
      let rest := drop idx rest in
      match index_any (drop 4 rest) terminators with
      | None => [rest]
      | Some e => take (4 + e) rest :: var_refs fuel' (drop (4 + e) rest)
      end
    end
  end.

Definition input_refs (v : byte_string) : list byte_string := var_refs (S (length v)) v.

(** The names of a condition. *)
Definition cond_tok_refs (tok : byte_string) : list byte_string :=
  let tok := Trim tok (bytes_of "()") in
  if beq tok (bytes_of "&&") || beq tok (bytes_of "||") || beq tok [] then []
  else
    let tok := drop_cut (bytes_of "!") tok in
    if bool_decide (is_Some (index_any tok [61; 60; 62; 34; 39])) then []
    else
      let tok := (cut_prefix tok (bytes_of "slot.")).1 in
      if beq tok [] then [] else [tok].

(** The [${name}] references of a template. *)
Fixpoint template_refs (fuel : nat) (rest : byte_string) : list byte_string :=
  match fuel with
  | O => []
  | S fuel' =>
    match find_sub rest (bytes_of "${") with
    | None => []
    | Some s =>
      let rest := drop (s + 2) rest in
      match find_sub rest (bytes_of "}") with
      | None => []
      | Some e =>
        let name := take e rest in
        (if beq name [] then [] else [name]) ++ template_refs fuel' (drop (e + 1) rest)
      end
    end
  end.

Definition non_empty (names : list byte_string) : list byte_string := base.filter (fun n => n <> []) names.

Definition varRefsInStep (step : StepConfig) : list byte_string :=
  non_empty [As step; Variable_ step; Destination step; Source step; KeyIdentifier step; UrlVar step; []] ++
  (Fields (Condition step) ≫= cond_tok_refs) ++
  ((Input step).*2 ≫= input_refs) ++
  (Params step ≫= fun p => non_empty [map_get p (bytes_of "dest_slot"); map_get p (bytes_of "value_slot")]) ++
  template_refs (S (length (Value step))) (Value step).

(** ** Mentions in a flow and everything it calls *)

(** The size of a flow with its nested bodies, which bounds the walk. *)
Fixpoint step_size (s : StepConfig) : nat :=
  S (foldr (fun s' n => step_size s' + n) 0 (Do s))%nat.

Definition flow_size (flow : list StepConfig) : nat := foldr (fun s n => step_size s + n)%nat 0%nat flow.

Section fragments.
Variable frags : gmap byte_string (list StepConfig).

Definition walked : Type := gset byte_string * list byte_string.

Fixpoint walk_refs (walk : list StepConfig -> walked -> outcome walked) (names : list byte_string) (w : walked) : outcome walked :=
  match names with
  | [] => Ret w
  | ref :: names' =>
    if beq ref [] || bool_decide (ref ∈ w.1) then walk_refs walk names' w
    else
      let w := ({[ref]} ∪ w.1, w.2) in
      match frags !! ref with
      | Some nested => w <-- walk nested w ;; walk_refs walk names' w
      | None => walk_refs walk names' w
      end
  end.

Fixpoint walk (fuel : nat) (steps : list StepConfig) (w : walked) : outcome walked :=
  match fuel with
  | O => Fuel
  | S fuel' =>
    match steps with
    | [] => Ret w
    | s :: steps' =>
      let w := (w.1, w.2 ++ varRefsInStep s) in
      w <-- match Do s with [] => Ret w | body => walk fuel' body w end ;;
      w <-- walk_refs (walk fuel') [Then s; Else s; FlowName s] w ;;
      walk fuel' steps' w
    end
  end.

Definition frags_size : nat := foldr (fun p n => flow_size p.2 + n)%nat 0%nat (map_to_list frags).

Definition varRefsInFlow (flow : list StepConfig) : outcome (list byte_string) :=
  w <-- walk (S (flow_size flow + frags_size)) flow (∅, []) ;; Ret w.2.

(** ** Last uses *)

(** [frags[name]]: a missing flow is empty. *)
Definition frag (name : byte_string) : list StepConfig := default [] (frags !! name).

(** [if cur, ok := lastUse[name]; !ok || cur < i { lastUse[name] = i }] *)
Definition extend_use (i : Z) (lastUse : gmap byte_string Z) (name : byte_string) : gmap byte_string Z :=
  match lastUse !! name with
  | Some cur => if cur <? i then <[name := i]> lastUse else lastUse
  | None => <[name := i]> lastUse
  end.

Definition extend_flow (i : Z) (lastUse : gmap byte_string Z) (flow : list StepConfig) : outcome (gmap byte_string Z) :=
  names <-- varRefsInFlow flow ;; Ret (foldl (extend_use i) lastUse names).

Definition is_action (step : StepConfig) (name : string) : bool := beq (Action step) (bytes_of name).

Definition last_use_step (i : Z) (step : StepConfig) (lastUse : gmap byte_string Z) : outcome (gmap byte_string Z) :=
  let lastUse := foldl (fun m name => <[name := i]> m) lastUse (varRefsInStep step) in
  lastUse <-- (if is_action step "if" || is_action step "pattern_match" then
                 lastUse <-- extend_flow i lastUse (frag (Then step)) ;; extend_flow i lastUse (frag (Else step))
               else Ret lastUse) ;;
  lastUse <-- (if is_action step "foreach" then extend_flow i lastUse (Do step) else Ret lastUse) ;;
  (if is_action step "call" && negb (beq (FlowName step) []) then extend_flow i lastUse (frag (FlowName step)) else Ret lastUse).

Fixpoint last_use_from (i : Z) (flow : list StepConfig) (lastUse : gmap byte_string Z) : outcome (gmap byte_string Z) :=
  match flow with
  | [] => Ret lastUse
  | step :: flow' => lastUse <-- last_use_step i step lastUse ;; last_use_from (i + 1) flow' lastUse
  end.

Definition computeLastUse (flow : list StepConfig) : outcome (gmap byte_string Z) := last_use_from 0 flow ∅.

(** ** Baking a flow *)

Definition release_slot (stepIdx : Z) (c : Compiler) (e : byte_string * Z) : Compiler :=
  let '(name, l) := e in
  if negb (l =? stepIdx) || has_prefix name (bytes_of "path.") then c
  else match slotMap c !! name with
       | Some slot => mkCompiler (delete name (slotMap c)) (freeSlots c ++ [slot]) (nextSlot c)
       | None => c
       end.

(** [entries]: the map of last uses in the order the loop visits it. *)
Definition releaseDeadSlots (stepIdx : Z) (entries : list (byte_string * Z)) (c : Compiler) : Compiler :=
  foldl (release_slot stepIdx) c entries.

(** [compileStep] appends the instructions of a step; [visits i] is the order
    in which the loop after step [i] visits the map of last uses. *)
Section bake.
Context {A E : Type} (compileStep : StepConfig -> Compiler -> (Compiler * list A) + E).
Variable visits : gmap byte_string Z -> Z -> list (byte_string * Z).

(** The instructions carry the index of their step. *)
Fixpoint bake_steps (lastUse : gmap byte_string Z) (i : Z) (flow : list StepConfig) (c : Compiler)
  : (Compiler * list (Z * A)) + E :=
  match flow with
  | [] => inl (c, [])
  | step :: flow' =>
    match compileStep step c with
    | inr e => inr e
    | inl (c, code) =>
      match bake_steps lastUse (i + 1) flow' (releaseDeadSlots i (visits lastUse i) c) with
      | inr e => inr e
      | inl (c, table) => inl (c, ((fun a => (i16 i, a)) <$> code) ++ table)
      end
    end
  end.

Definition bakeFlow (flow : list StepConfig) (c : Compiler) : outcome ((Compiler * list (Z * A)) + E) :=
  lastUse <-- computeLastUse flow ;; Ret (bake_steps lastUse 0 flow c).

End bake.
End fragments.
