(* ===== verification/SlotAllocSpec.v ===== *)
(** * Slots of a flow: theorems

    The scan for mentions of variables terminates on flows that call each other
    and is exact relative to the scan of single steps; so is the map of last
    uses; two live variables never share a slot. *)

From S2P Require Import Prelude Cond Context Flow SlotAlloc.
From stdpp Require Import base numbers list gmap.

Local Open Scope Z_scope.
Local Open Scope rah_scope.

(** ** The walk *)

Section walk.
Context (frags : gmap byte_string (list StepConfig)).

(** The steps a flow can run. *)
Inductive reaches (flow : list StepConfig) : StepConfig -> Prop :=
| reach_here s : s ∈ flow -> reaches flow s
| reach_do s s' : reaches flow s -> s' ∈ Do s -> reaches flow s'
| reach_ref s ref nested s' :
    reaches flow s -> ref ∈ [Then s; Else s; FlowName s] -> ref <> [] -> frags !! ref = Some nested -> s' ∈ nested ->
    reaches flow s'.

Definition flow_mentions (flow : list StepConfig) (name : byte_string) : Prop :=
  exists s, reaches flow s /\ name ∈ varRefsInStep s.

(** A step whose mentions are recorded, with everything below it visited. *)
Inductive covered (w : walked) : StepConfig -> Prop :=
| covered_intro s :
    (forall x, x ∈ varRefsInStep s -> x ∈ w.2) -> (forall s', s' ∈ Do s -> covered w s') ->
    (forall ref, ref ∈ [Then s; Else s; FlowName s] -> ref <> [] -> is_Some (frags !! ref) -> ref ∈ w.1) -> covered w s.

(** What a walk adds: recorded mentions come from [flow], and every flow it
    visits is covered when it returns. *)
Record walk_ext (flow : list StepConfig) (w w' : walked) : Prop := mkExt {
  we_visited : w.1 ⊆ w'.1;
  we_refs : forall x, x ∈ w.2 -> x ∈ w'.2;
  we_new : forall ref nested, ref ∈ w'.1 -> ref ∉ w.1 -> frags !! ref = Some nested -> Forall (covered w') nested;
  we_sound : forall x, x ∈ w'.2 -> x ∈ w.2 \/ flow_mentions flow x
}.

Lemma covered_mono w w' s : w.1 ⊆ w'.1 -> (forall x, x ∈ w.2 -> x ∈ w'.2) -> covered w s -> covered w' s.
Proof.
  intros H1 H2. revert s. fix IH 2. intros s Hc. destruct Hc as [s Hr Hd Hf].
  constructor; [auto|intros s' Hs'; apply IH; auto|]. intros ref Hin Hne Hs. apply H1. auto.
Qed.

Lemma walk_ext_refl flow w : walk_ext flow w w.
Proof. constructor; [done|done|by intros|auto]. Qed.

Lemma walk_ext_trans flow w1 w2 w3 : walk_ext flow w1 w2 -> walk_ext flow w2 w3 -> walk_ext flow w1 w3.
Proof.
  intros [A1 A2 A3 A4] [B1 B2 B3 B4]. constructor; [set_solver|auto| |].
  - intros ref nested H3 H1 Hf. destruct (decide (ref ∈ w2.1)) as [H2|H2]; [|by eapply B3].
    eapply Forall_impl; [by eapply (A3 ref)|]. intros s. by apply covered_mono.
  - intros x Hx. destruct (B4 x Hx) as [Hx2|?]; [|by right]. by apply A4.
Qed.

Lemma reaches_from flow flow' s : (forall s0, s0 ∈ flow' -> reaches flow s0) -> reaches flow' s -> reaches flow s.
Proof.
  intros Hin. induction 1 as [s Hs|s s' _ IH Hs'|s ref nested s' _ IH Hr Hne Hf Hs']; [by apply Hin|by eapply reach_do|by eapply reach_ref].
Qed.

Lemma walk_ext_weaken flow flow' w w' : (forall s, s ∈ flow' -> reaches flow s) -> walk_ext flow' w w' -> walk_ext flow w w'.
Proof.
  intros Hin [A1 A2 A3 A4]. constructor; [done|done|done|]. intros x Hx. destruct (A4 x Hx) as [?|(s & Hs & Hxs)]; [by left|right].
  exists s. split; [|done]. by eapply reaches_from.
Qed.

(** *** Budget *)

(** The size of the flows not visited yet. *)
Definition unvisited (v : gset byte_string) (l : list (byte_string * list StepConfig)) : nat :=
  foldr (fun p n => (if bool_decide (p.1 ∈ v) then 0 else flow_size p.2) + n)%nat 0%nat l.

Lemma unvisited_perm v l l' : l ≡ₚ l' -> unvisited v l = unvisited v l'.
Proof.
  unfold unvisited. induction 1 as [|x l l' _ IH|x y l|l1 l2 l3 _ IH1 _ IH2]; cbn [foldr]; [done|by rewrite IH| |congruence].
  destruct (bool_decide (x.1 ∈ v)), (bool_decide (y.1 ∈ v)); lia.
Qed.

Lemma unvisited_le v v' l : v ⊆ v' -> (unvisited v' l <= unvisited v l)%nat.
Proof.
  intros Hv. unfold unvisited. induction l as [|p l IH]; cbn [foldr]; [done|]. destruct (decide (p.1 ∈ v)).
  - by rewrite !bool_decide_true by set_solver.
  - rewrite (bool_decide_false (p.1 ∈ v)) by done. destruct (bool_decide (p.1 ∈ v')); lia.
Qed.

Lemma unvisited_add v ref l : ref ∉ l.*1 -> unvisited ({[ref]} ∪ v) l = unvisited v l.
Proof.
  unfold unvisited. induction l as [|p l IH]; cbn [foldr fmap list_fmap]; intros Hn; [done|]. apply not_elem_of_cons in Hn as [Hp Hn].
  rewrite IH by done. f_equal.
  destruct (decide (p.1 ∈ v)); [rewrite !bool_decide_true by set_solver; done|]. by rewrite !bool_decide_false by set_solver.
Qed.

Lemma unvisited_visit v ref nested :
  frags !! ref = Some nested -> ref ∉ v ->
  unvisited v (map_to_list frags) = (flow_size nested + unvisited ({[ref]} ∪ v) (map_to_list frags))%nat.
Proof.
  intros Hf Hv. assert (map_to_list frags ≡ₚ (ref, nested) :: map_to_list (delete ref frags)) as Hp.
  { rewrite <- (insert_delete_id frags ref nested Hf) at 1. by rewrite map_to_list_insert by apply lookup_delete_eq. }
  rewrite !(unvisited_perm _ _ _ Hp). set (l := map_to_list (delete ref frags)).
  change (unvisited ?u ((ref, nested) :: l)) with ((if bool_decide (ref ∈ u) then 0 else flow_size nested) + unvisited u l)%nat.
  rewrite bool_decide_false by done. rewrite bool_decide_true by set_solver. rewrite unvisited_add; [done|].
  intros ((k & f) & -> & Hin)%list_elem_of_fmap. apply elem_of_map_to_list in Hin. by rewrite lookup_delete_eq in Hin.
Qed.

Lemma step_size_eq s : step_size s = S (flow_size (Do s)).
Proof. by destruct s. Qed.

Abbreviation rest_size w := (unvisited (fst w) (map_to_list frags)).

(** *** Correctness of the walk *)

Definition walks (n : nat) (W : list StepConfig -> walked -> outcome walked) : Prop :=
  forall steps w, (flow_size steps + rest_size w < n)%nat ->
    exists w', W steps w = Ret w' /\ walk_ext steps w w' /\ Forall (covered w') steps.

Lemma walk_refs_ok n W flow : walks n W ->
  forall names w, (rest_size w < n)%nat ->
  (forall ref nested s, ref ∈ names -> ref <> [] -> frags !! ref = Some nested -> s ∈ nested -> reaches flow s) ->
  exists w', walk_refs frags W names w = Ret w' /\ walk_ext flow w w' /\
    forall ref, ref ∈ names -> ref <> [] -> is_Some (frags !! ref) -> ref ∈ w'.1.
Proof.
  intros HW. induction names as [|ref names IH]; intros w Hn Hreach; cbn [walk_refs].
  { exists w. split; [done|]. split; [apply walk_ext_refl|]. intros r Hr. by apply not_elem_of_nil in Hr. }
  assert (forall w1, walk_ext flow w w1 -> (ref <> [] -> is_Some (frags !! ref) -> ref ∈ w1.1) ->
    exists w', walk_refs frags W names w1 = Ret w' /\ walk_ext flow w w' /\
      forall r, r ∈ ref :: names -> r <> [] -> is_Some (frags !! r) -> r ∈ w'.1) as Hnext.
  { intros w1 He Hr. pose proof (unvisited_le w.1 w1.1 (map_to_list frags) (we_visited _ _ _ He)).
    destruct (IH w1) as (w' & E & He' & Hall); [lia|intros; eapply Hreach; [by right|..]; done|]. exists w'. split; [done|].
    split; [by eapply walk_ext_trans|]. intros r [->|Hin]%elem_of_cons Hne Hs; [|by apply Hall].
    apply (we_visited _ _ _ He'). auto. }
  destruct (beq ref [] || bool_decide (ref ∈ w.1)) eqn:Eb.
  { apply Hnext; [apply walk_ext_refl|]. intros Hne _. apply orb_true_iff in Eb as [E|E]; [by apply bool_decide_eq_true in E|].
    by apply bool_decide_eq_true in E. }
  apply orb_false_iff in Eb as [Ene%bool_decide_eq_false Ev%bool_decide_eq_false].
  set (w0 := ({[ref]} ∪ w.1, w.2)). destruct (frags !! ref) as [nested|] eqn:Ef.
  - pose proof (unvisited_visit w.1 ref nested Ef Ev) as Hu. destruct (HW nested w0) as (w1 & -> & He & Hc); [cbn; lia|]. cbn [obind].
    apply Hnext; [|intros _ _; apply (we_visited _ _ _ He); cbn; set_solver]. destruct He as [A1 A2 A3 A4]. cbn in A1, A2, A3, A4.
    constructor; [set_solver|done| |].
    + intros r f Hr Hnr Hf. destruct (decide (r = ref)) as [->|]; [by simplify_eq|]. apply (A3 r f Hr); [set_solver|done].
    + intros x Hx. destruct (A4 x Hx) as [?|(s & Hs & Hxs)]; [by left|]. right. exists s. split; [|done].
      eapply reaches_from; [|exact Hs]. intros s0 Hs0. eapply (Hreach ref); [by left|done|done|done].
  - apply Hnext; [|by intros _ []]. constructor; cbn; [set_solver|done| |auto]. intros r f Hr Hnr Hf. set_solver.
Qed.

Lemma walk_ok n : walks n (walk frags n).
Proof.
  induction n as [|n IH]; intros steps w Hn; [lia|]. cbn [walk]. destruct steps as [|s steps].
  { exists w. split; [done|]. split; [apply walk_ext_refl|done]. }
  cbn [flow_size foldr] in Hn. fold (flow_size steps) in Hn. rewrite step_size_eq in Hn. set (w0 := (w.1, w.2 ++ varRefsInStep s)).
  assert (walk_ext (s :: steps) w w0) as H0.
  { constructor; cbn; [done|intros; apply elem_of_app; by left| |]. - by intros. - intros x [?|?]%elem_of_app; [by left|right]. exists s. split; [|done]. apply reach_here. by left. }
  assert (exists w1, match Do s with [] => Ret w0 | body => walk frags n body w0 end = Ret w1 /\ walk_ext (s :: steps) w0 w1 /\
    Forall (covered w1) (Do s)) as (w1 & -> & H1 & Hd).
  { destruct (Do s) as [|s0 body] eqn:Ed; [exists w0; split; [done|]; split; [apply walk_ext_refl|done]|]. rewrite <- Ed in *.
    destruct (IH (Do s) w0) as (w1 & E & He & Hc); [cbn; lia|]. exists w1. rewrite Ed in E |- *. split; [done|]. rewrite <- Ed in *. split; [|done].
    eapply walk_ext_weaken; [|exact He]. intros s1 Hs1. eapply reach_do; [|exact Hs1]. apply reach_here. by left. }
  cbn [obind]. pose proof (unvisited_le _ _ (map_to_list frags) (we_visited _ _ _ H1)) as L1. cbn in L1.
  destruct (walk_refs_ok n (walk frags n) (s :: steps) IH [Then s; Else s; FlowName s] w1) as (w2 & -> & H2 & Hr); [lia| |].
  { intros ref nested s1 Hin Hne Hf Hs1. eapply reach_ref; [apply reach_here; by left|done..]. }
  cbn [obind]. pose proof (unvisited_le _ _ (map_to_list frags) (we_visited _ _ _ H2)) as L2.
  destruct (IH steps w2) as (w3 & E3 & H3 & Hc3); [lia|]. exists w3. split; [done|].
  assert (walk_ext (s :: steps) w2 w3) as H3' by (eapply walk_ext_weaken; [|exact H3]; intros s1 Hs1; apply reach_here; by right).
  split; [eapply walk_ext_trans; [exact H0|]; eapply walk_ext_trans; [exact H1|]; by eapply walk_ext_trans|].
  constructor; [|done]. pose proof (walk_ext_trans _ _ _ _ H2 H3') as H23. pose proof (walk_ext_trans _ _ _ _ H1 H23) as H13. constructor.
  - intros x Hx. apply (we_refs _ _ _ H13). apply elem_of_app. by right.
  - intros s' Hs'. rewrite Forall_forall in Hd. eapply covered_mono; [apply (we_visited _ _ _ H23)|apply (we_refs _ _ _ H23)|by apply Hd].
  - intros ref Hin Hne Hs. apply (we_visited _ _ _ H3'). by apply Hr.
Qed.

Lemma frags_size_eq : frags_size frags = unvisited ∅ (map_to_list frags).
Proof. unfold frags_size, unvisited. induction (map_to_list frags) as [|p l IH]; cbn; [done|]. by rewrite IH. Qed.

Lemma varRefsInFlow_ok flow :
  exists names, varRefsInFlow frags flow = Ret names /\ forall x, x ∈ names <-> flow_mentions flow x.
Proof.
  destruct (walk_ok (S (flow_size flow + frags_size frags)) flow (∅, [])) as (w & E & He & Hc).
  { cbn [fst]. rewrite frags_size_eq. lia. }
  unfold varRefsInFlow. rewrite E. cbn [obind]. exists w.2. split; [done|]. intros x. split.
  - intros Hx. destruct (we_sound _ _ _ He x Hx) as [H|H]; [by apply not_elem_of_nil in H|done].
  - intros (s & Hs & Hx). assert (covered w s) as Hcov; [|destruct Hcov as [s0 Hr _ _]; by apply Hr]. clear x Hx. rewrite Forall_forall in Hc.
    induction Hs as [s Hs|s s' _ IH Hs'|s ref nested s' _ IH Hin Hne Hf Hs']; [by apply Hc| |]; destruct IH as [s _ Hd Hf']; [by apply Hd|].
    assert (Forall (covered w) nested) as Hn; [|rewrite Forall_forall in Hn; by apply Hn].
    apply (we_new _ _ _ He ref); [apply Hf'; [done|done|by exists nested]|apply not_elem_of_empty|done].
Qed.

End walk.

(** ** Last uses *)

Section last_use.
Context (frags : gmap byte_string (list StepConfig)).

(** A step mentions the variables of its configuration and of the flows it can
    run. *)
Definition step_mentions (step : StepConfig) (name : byte_string) : Prop :=
  name ∈ varRefsInStep step \/
  ((is_action step "if" || is_action step "pattern_match") = true /\
   (flow_mentions frags (frag frags (Then step)) name \/ flow_mentions frags (frag frags (Else step)) name)) \/
  (is_action step "foreach" = true /\ flow_mentions frags (Do step) name) \/
  ((is_action step "call" && negb (beq (FlowName step) [])) = true /\ flow_mentions frags (frag frags (FlowName step)) name).

Definition mentioned (flow : list StepConfig) (i : Z) (name : byte_string) : Prop :=
  exists step, 0 <= i /\ flow !! Z.to_nat i = Some step /\ step_mentions step name.

(** [m'] is [m] with the names in [Q] last used at [i]. *)
Definition marks (i : Z) (Q : byte_string -> Prop) (m m' : gmap byte_string Z) : Prop :=
  forall n, (Q n /\ m' !! n = Some i) \/ (~ Q n /\ m' !! n = m !! n).

Definition before (i : Z) (m : gmap byte_string Z) : Prop := forall n k, m !! n = Some k -> k <= i.

Lemma marks_before i Q m m' : before i m -> marks i Q m m' -> before i m'.
Proof. intros Hm H n k Hk. destruct (H n) as [[_ E]|[_ E]]; rewrite E in Hk; [simplify_eq; lia|by eapply Hm]. Qed.

Lemma marks_trans i Q1 Q2 m1 m2 m3 : marks i Q1 m1 m2 -> marks i Q2 m2 m3 -> marks i (fun n => Q1 n \/ Q2 n) m1 m3.
Proof.
  intros H1 H2 n. destruct (H2 n) as [[Hq E]|[Hq E]]; [left; by auto|]. destruct (H1 n) as [[Hq' E']|[Hq' E']]; rewrite E' in E; [left|right]; naive_solver.
Qed.

Lemma marks_iff i Q Q' m m' : (forall n, Q n <-> Q' n) -> marks i Q m m' -> marks i Q' m m'.
Proof. intros HQ H n. destruct (H n) as [[? ?]|[? ?]]; [left|right]; split; try done; by rewrite <- HQ. Qed.

Lemma marks_nothing i Q m : (forall n, ~ Q n) -> marks i Q m m.
Proof. intros HQ n. right. by split. Qed.

(** Both ways of recording a use. *)
Lemma fold_marks (f : gmap byte_string Z -> byte_string -> gmap byte_string Z) i names :
  (forall m x, before i m -> marks i (fun n => n = x) m (f m x)) ->
  forall m, before i m -> marks i (fun n => n ∈ names) m (foldl f m names).
Proof.
  intros Hf. induction names as [|x names IH]; intros m Hm; cbn [foldl]; [apply marks_nothing; intros n; apply not_elem_of_nil|].
  pose proof (Hf m x Hm) as H1. eapply marks_iff; [|eapply marks_trans; [exact H1|apply IH; by eapply marks_before]].
  intros n. cbn. by rewrite elem_of_cons.
Qed.

Lemma set_use_marks i m x : marks i (fun n => n = x) m (<[x := i]> m).
Proof. intros n. destruct (decide (n = x)) as [->|]; [left; by rewrite lookup_insert_eq|right; by rewrite lookup_insert_ne]. Qed.

Lemma extend_use_marks i m x : before i m -> marks i (fun n => n = x) m (extend_use i m x).
Proof.
  intros Hm. unfold extend_use. destruct (m !! x) as [cur|] eqn:E; [|apply set_use_marks]. destruct (Z.ltb_spec cur i); [apply set_use_marks|].
  pose proof (Hm x cur E). intros n. destruct (decide (n = x)) as [->|]; [left|by right]. split; [done|]. rewrite E. f_equal. lia.
Qed.

Lemma extend_flow_ok i m flow : before i m -> exists m', extend_flow frags i m flow = Ret m' /\ marks i (flow_mentions frags flow) m m'.
Proof.
  intros Hm. unfold extend_flow. destruct (varRefsInFlow_ok frags flow) as (names & -> & Hn). cbn [obind]. eexists. split; [done|].
  eapply marks_iff; [exact Hn|]. apply fold_marks; [|done]. intros m0 x. apply extend_use_marks.
Qed.

(** A conditional extension of the map. *)
Lemma when_ok (i : Z) (b : bool) (Q : byte_string -> Prop) (m : gmap byte_string Z) (x : outcome (gmap byte_string Z)) :
  (exists m', x = Ret m' /\ marks i Q m m') ->
  exists m', (if b then x else Ret m) = Ret m' /\ marks i (fun n => b = true /\ Q n) m m'.
Proof.
  intros (m' & -> & Hm). destruct b; [exists m'; split; [done|]; eapply marks_iff; [|exact Hm]; tauto|].
  exists m. split; [done|]. apply marks_nothing. by intros n [? _].
Qed.

Lemma last_use_step_ok i step m : before i m ->
  exists m', last_use_step frags i step m = Ret m' /\ marks i (step_mentions step) m m'.
Proof.
  intros Hm. unfold last_use_step. set (m0 := foldl _ m _).
  assert (marks i (fun n => n ∈ varRefsInStep step) m m0) as H0 by (apply fold_marks; [intros; apply set_use_marks|done]).
  pose proof (marks_before _ _ _ _ Hm H0) as B0.
  edestruct (when_ok i (is_action step "if" || is_action step "pattern_match")
    (fun n => flow_mentions frags (frag frags (Then step)) n \/ flow_mentions frags (frag frags (Else step)) n) m0) as (m1 & -> & H1).
  { destruct (extend_flow_ok i m0 (frag frags (Then step)) B0) as (m1 & -> & H1). cbn [obind]. pose proof (marks_before _ _ _ _ B0 H1) as B1.
    destruct (extend_flow_ok i m1 (frag frags (Else step)) B1) as (m2 & -> & H2). exists m2. split; [done|]. by eapply marks_trans. }
  cbn [obind]. pose proof (marks_before _ _ _ _ B0 H1) as B1.
  destruct (when_ok i (is_action step "foreach") (flow_mentions frags (Do step)) m1 (extend_flow frags i m1 (Do step))) as (m2 & -> & H2);
    [by apply extend_flow_ok|]. cbn [obind]. pose proof (marks_before _ _ _ _ B1 H2) as B2.
  destruct (when_ok i (is_action step "call" && negb (beq (FlowName step) [])) (flow_mentions frags (frag frags (FlowName step))) m2
    (extend_flow frags i m2 (frag frags (FlowName step)))) as (m3 & -> & H3); [by apply extend_flow_ok|].
  exists m3. split; [done|]. eapply marks_iff; [|eapply marks_trans; [exact H0|eapply marks_trans; [exact H1|eapply marks_trans; [exact H2|exact H3]]]].
  intros n. unfold step_mentions. tauto.
Qed.

(** What a map of last uses says of the steps from [i] on. *)
Definition last_mention (flow : list StepConfig) (i : Z) (n : byte_string) (m : gmap byte_string Z) (k : Z) : Prop :=
  (i <= k /\ mentioned flow (k - i) n /\ forall j, k - i < j -> ~ mentioned flow j n) \/
  (m !! n = Some k /\ forall j, ~ mentioned flow j n).

Lemma mentioned_cons step flow i n : mentioned (step :: flow) (i + 1) n <-> 0 <= i + 1 /\ (i = -1 /\ step_mentions step n \/ mentioned flow i n).
Proof.
  unfold mentioned. split.
  - intros (s & Hi & Hl & Hs). split; [done|]. destruct (decide (i = -1)) as [->|]; [left; cbn in Hl; injection Hl as ->; done|right].
    exists s. replace (Z.to_nat (i + 1)) with (S (Z.to_nat i)) in Hl by lia. split; [lia|done].
  - intros (Hi & [[-> Hs]|(s & Hi' & Hl & Hs)]); [by exists step|]. exists s. replace (Z.to_nat (i + 1)) with (S (Z.to_nat i)) by lia. done.
Qed.

Lemma last_use_from_ok flow : forall i m, before (i - 1) m ->
  exists m', last_use_from frags i flow m = Ret m' /\ forall n k, m' !! n = Some k <-> last_mention flow i n m k.
Proof.
  induction flow as [|step flow IH]; intros i m Hm; cbn [last_use_from].
  { exists m. split; [done|]. intros n k. unfold last_mention, mentioned. split; [|by intros [(_ & (s & _ & E & _) & _)|[? _]]].
    intros E. right. split; [done|]. by intros j (s & _ & E' & _). }
  destruct (last_use_step_ok i step m) as (m1 & -> & H1); [intros n k Hk; specialize (Hm n k Hk); lia|]. cbn [obind].
  destruct (IH (i + 1) m1) as (m' & -> & H'); [intros n k Hk; destruct (H1 n) as [[_ E]|[_ E]]; rewrite E in Hk; [simplify_eq; lia|specialize (Hm n k Hk); lia]|].
  exists m'. split; [done|]. intros n k. rewrite H'. unfold last_mention.
  assert (forall j, mentioned (step :: flow) j n <-> 0 <= j /\ (j = 0 /\ step_mentions step n \/ mentioned flow (j - 1) n)) as Hc.
  { intros j. replace j with (j - 1 + 1) at 1 by lia. rewrite mentioned_cons. split; intros [? [[? ?]|?]]; (split; [lia|]); [left; split; [lia|done]|by right|left; split; [lia|done]|by right]. }
  assert (forall j, mentioned flow j n -> 0 <= j) as Hpos by (by intros j (s & ? & _)).
  split.
  - intros [(Hk & Hmn & Hno)|(E & Hno)].
    + left. split; [lia|]. split; [apply Hc; split; [specialize (Hpos _ Hmn); lia|right; by replace (k - i - 1) with (k - (i + 1)) by lia]|].
      intros j Hj [_ [[-> _]|Hj']]%Hc; [specialize (Hpos _ Hmn); lia|]. apply (Hno (j - 1)); [lia|done].
    + destruct (H1 n) as [[Hs E']|[Hs E']].
      * left. rewrite E' in E. simplify_eq. split; [lia|]. replace (k - k) with 0 by lia. split; [apply Hc; split; [lia|by left]|].
        intros j Hj [_ [[-> _]|Hj']]%Hc; [lia|]. by apply (Hno (j - 1)).
      * right. split; [by rewrite <- E'|]. intros j [_ [[_ ?]|Hj']]%Hc; [done|]. by apply (Hno (j - 1)).
  - intros [(Hk & [Hki [[Hz Hs]|Hmn]]%Hc & Hno)|(E & Hno)].
    + assert (forall j, ~ mentioned flow j n) as Hnone.
      { intros j Hj. apply (Hno (j + 1)); [specialize (Hpos _ Hj); lia|]. apply Hc. split; [specialize (Hpos _ Hj); lia|right]. by replace (j + 1 - 1) with j by lia. }
      right. split; [|done]. destruct (H1 n) as [[_ E']|[? _]]; [|done]. rewrite E'. f_equal. lia.
    + left. split; [specialize (Hpos _ Hmn); lia|]. split; [by replace (k - (i + 1)) with (k - i - 1) by lia|]. intros j Hj Hj'.
      apply (Hno (j + 1)); [lia|]. apply Hc. split; [specialize (Hpos _ Hj'); lia|right]. by replace (j + 1 - 1) with j by lia.
    + right. split; [|intros j Hj; apply (Hno (j + 1)), Hc; split; [specialize (Hpos _ Hj); lia|right; by replace (j + 1 - 1) with j by lia]].
      destruct (H1 n) as [[Hs _]|[_ E']]; [|by rewrite E']. exfalso. apply (Hno 0), Hc. split; [lia|by left].
Qed.

End last_use.

Lemma computeLastUse_ok (frags : gmap byte_string (list StepConfig)) (flow : list StepConfig) :
  exists lastUse, computeLastUse frags flow = Ret lastUse /\
    forall n k, lastUse !! n = Some k <-> mentioned frags flow k n /\ forall j, k < j -> ~ mentioned frags flow j n.
Proof.
  destruct (last_use_from_ok frags flow 0 ∅) as (m & E & H); [by intros n k|]. exists m. split; [done|]. intros n k. rewrite H.
  unfold last_mention. rewrite Z.sub_0_r. split; [intros [(_ & ?)|[? _]]; done|]. intros [Hm Hno]. left. split; [|done].
  by destruct Hm as (s & ? & _).
Qed.

(** The steps a flow can run: its own, the bodies of its loops, and the steps of
    the flows its branches, calls and switch cases name. *)
Inductive can_run (frags : gmap byte_string (list StepConfig)) (flow : list StepConfig) : StepConfig -> Prop :=
| run_here s : s ∈ flow -> can_run frags flow s
| run_do s s' : can_run frags flow s -> s' ∈ Do s -> can_run frags flow s'
| run_ref s ref nested s' :
    can_run frags flow s -> ref ∈ [Then s; Else s; FlowName s] ++ (Cases s).*2 -> ref <> [] ->
    frags !! ref = Some nested -> s' ∈ nested -> can_run frags flow s'.

Lemma reaches_can_run frags flow s : reaches frags flow s -> can_run frags flow s.
Proof.
  induction 1 as [s Hs|s s' _ IH Hs|s ref nested s' _ IH Hin Hne Hf Hs]; [by apply run_here|by eapply run_do|].
  eapply run_ref; [exact IH| |done|done|done]. apply elem_of_app. by left.
Qed.

Lemma can_run_reaches frags flow s :
  (forall s0, can_run frags flow s0 -> Cases s0 = []) -> can_run frags flow s -> reaches frags flow s.
Proof.
  intros Hno. induction 1 as [s Hs|s s' _ IH Hs|s ref nested s' Hs0 IH Hin Hne Hf Hs]; [by apply reach_here|by eapply reach_do|].
  rewrite (Hno s Hs0), app_nil_r in Hin. by eapply reach_ref.
Qed.


(** Two flows that call each other. *)
Definition calling (name as_ : string) : StepConfig :=
  mkStep (bytes_of "call") (bytes_of as_) [] [] [] [] [] [] [] [] [] [] [] (bytes_of name) [] [] [].

Definition calling_frags : gmap byte_string (list StepConfig) :=
  {[ bytes_of "ping" := [calling "pong" "var.a"]; bytes_of "pong" := [calling "ping" "var.b"] ]}.


(** ** Slots *)

(** Every slot below the mark belongs to at most one variable or waits on the
    free list once. *)
Record slots_inv (c : Compiler) : Prop := mkInv {
  si_next : 0 <= nextSlot c <= 48;
  si_used : forall n i, slotMap c !! n = Some i -> 0 <= i < nextSlot c;
  si_inj : forall n n' i, slotMap c !! n = Some i -> slotMap c !! n' = Some i -> n = n';
  si_free : forall i, i ∈ freeSlots c -> 0 <= i < nextSlot c /\ forall n, slotMap c !! n <> Some i;
  si_nodup : NoDup (freeSlots c)
}.

Lemma reset_inv : slots_inv resetSlots.
Proof. constructor; cbn; [lia| | | |constructor]; intros *; try (rewrite lookup_empty; done). by intros ?%not_elem_of_nil. Qed.

(** What acquiring slots does to the map: it only grows. *)
Definition grows (c c' : Compiler) : Prop := slotMap c ⊆ slotMap c'.

Lemma take_last {A} (l : list A) x : last l = Some x -> l = take (length l - 1) l ++ [x].
Proof.
  intros H. apply last_Some in H as (l' & ->). rewrite length_app. cbn [length]. replace (length l' + 1 - 1)%nat with (length l') by lia.
  by rewrite take_app_length.
Qed.

(** Giving a slot nobody owns to a new variable. *)
Lemma fresh_inv c name idx free' next' :
  slots_inv c -> slotMap c !! name = None -> nextSlot c <= next' <= 48 -> 0 <= idx < next' ->
  (forall n, slotMap c !! n <> Some idx) -> NoDup free' -> (forall i, i ∈ free' -> i ∈ freeSlots c /\ i <> idx) ->
  slots_inv (mkCompiler (<[name := idx]> (slotMap c)) free' next') /\
  grows c (mkCompiler (<[name := idx]> (slotMap c)) free' next').
Proof.
  intros [H1 H2 H3 H4 H5] Hn Hnext Hidx Hown Hnd Hfree. split; [|by apply insert_subseteq]. constructor; cbn.
  - lia.
  - intros n i. destruct (decide (n = name)) as [->|]; [rewrite lookup_insert_eq; intros [= <-]; lia|]. rewrite lookup_insert_ne by done.
    intros E. specialize (H2 n i E). lia.
  - intros n n' i. destruct (decide (n = name)) as [->|], (decide (n' = name)) as [->|]; rewrite ?lookup_insert_eq, ?lookup_insert_ne by done; try done.
    + intros [= <-] E. by apply Hown in E.
    + intros E [= <-]. by apply Hown in E.
    + apply H3.
  - intros i Hi. destruct (Hfree i Hi) as [Hf Hne]. destruct (H4 i Hf) as [Hb Hno]. split; [lia|]. intros n.
    destruct (decide (n = name)) as [->|]; [rewrite lookup_insert_eq; congruence|]. by rewrite lookup_insert_ne.
  - done.
Qed.

Lemma getSlot_ok c name idx c' : slots_inv c -> getSlot c name = Some (idx, c') ->
  slots_inv c' /\ grows c c' /\ slotMap c' !! name = Some idx.
Proof.
  intros Hc. unfold getSlot. destruct (slotMap c !! name) as [i|] eqn:E; [intros [= <- <-]; split; [done|]; split; [|done]; by unfold grows|].
  destruct (last (freeSlots c)) as [i|] eqn:El.
  - intros [= <- <-]. apply take_last in El. pose proof (si_nodup _ Hc) as Hnd. set (f := take _ _) in *. rewrite El in Hnd.
    apply NoDup_app in Hnd as (Hnd & Hdis & _). destruct (si_free _ Hc i) as [Hb Hno]; [rewrite El; apply elem_of_app; right; by left|].
    pose proof (si_next _ Hc). destruct (fresh_inv c name i f (nextSlot c)) as [Hi Hg]; try done; [lia| |].
    { intros j Hj. split; [rewrite El; apply elem_of_app; by left|]. intros ->. apply (Hdis i Hj). by left. }
    split; [done|]. split; [done|]. cbn. apply lookup_insert_eq.
  - unfold BaseByteSlots. destruct (Z.leb_spec 48 (nextSlot c)); [done|]. intros [= <- <-]. pose proof (si_next _ Hc).
    destruct (fresh_inv c name (nextSlot c) (freeSlots c) (nextSlot c + 1)) as [Hi Hg]; try done; [lia|lia| |apply (si_nodup _ Hc)| |].
    + intros n En. apply (si_used _ Hc) in En. lia.
    + intros i Hi. split; [done|]. destruct (si_free _ Hc i Hi). lia.
    + split; [done|]. split; [done|]. cbn. apply lookup_insert_eq.
Qed.

(** Releasing: a variable that is not released at this step keeps its slot. *)
Lemma release_slot_ok i c e : slots_inv c ->
  slots_inv (release_slot i c e) /\ grows (release_slot i c e) c /\
  forall n idx, slotMap c !! n = Some idx -> e <> (n, i) -> slotMap (release_slot i c e) !! n = Some idx.
Proof.
  intros Hc. destruct e as [name l]. unfold release_slot, grows. destruct (negb (l =? i) || has_prefix name (bytes_of "path.")) eqn:Eb; [done|].
  apply orb_false_iff in Eb as [El _]. apply negb_false_iff, Z.eqb_eq in El. subst l. destruct (slotMap c !! name) as [s|] eqn:E; [|done]. cbn.
  pose proof Hc as [H1 H2 H3 H4 H5]. split; [|split; [apply delete_subseteq|]].
  - constructor; cbn; [done| | | |].
    + intros n j [_ En]%lookup_delete_Some. by eapply H2.
    + intros n n' j [_ En]%lookup_delete_Some [_ En']%lookup_delete_Some. by eapply H3.
    + intros j [Hj|Hj]%elem_of_app; [|apply list_elem_of_singleton in Hj as ->].
      * destruct (H4 j Hj) as [Hb Hno]. split; [done|]. intros n [_ En]%lookup_delete_Some. by eapply Hno.
      * split; [by eapply H2|]. intros n [Hne En]%lookup_delete_Some. apply Hne. by eapply H3.
    + apply NoDup_app. split; [done|]. split; [|apply NoDup_singleton]. intros j Hj ->%list_elem_of_singleton. destruct (H4 s Hj) as [_ Hno]. by eapply Hno.
  - intros n idx En Hne. rewrite lookup_delete_ne; [done|]. congruence.
Qed.

Lemma releaseDeadSlots_ok i entries : forall c, slots_inv c ->
  slots_inv (releaseDeadSlots i entries c) /\ grows (releaseDeadSlots i entries c) c /\
  forall n idx, slotMap c !! n = Some idx -> (n, i) ∉ entries -> slotMap (releaseDeadSlots i entries c) !! n = Some idx.
Proof.
  unfold releaseDeadSlots, grows. induction entries as [|e entries IH]; intros c Hc; cbn [foldl]; [done|].
  destruct (release_slot_ok i c e Hc) as (Hc1 & Hg1 & Hk1). destruct (IH _ Hc1) as (Hc2 & Hg2 & Hk2). split; [done|].
  split; [by etrans|]. intros n idx En [Hne Hni]%not_elem_of_cons. apply Hk2; [|done]. by apply Hk1.
Qed.

(** ** Mentions in values *)

(** The names a value can mention. *)
Definition var_name (n : byte_string) : Prop := has_prefix n var_prefix = true /\ index_any (drop 4 n) terminators = None.

Lemma find_sub_prefix s p i : find_sub s p = Some i -> has_prefix (drop i s) p = true.
Proof.
  revert i. induction s as [|c s IH]; intros i; cbn [find_sub].
  - destruct (has_prefix [] p) eqn:E; [|done]. by intros [= <-].
  - destruct (has_prefix (c :: s) p) eqn:E; [by intros [= <-]|]. destruct (find_sub s p) as [j|]; [|done]. intros [= <-]. cbn. by apply IH.
Qed.

Lemma find_sub_here s p : has_prefix s p = true -> find_sub s p = Some 0%nat.
Proof. intros H. destruct s; cbn [find_sub]; by rewrite H. Qed.

Lemma index_any_take s chars e : index_any s chars = Some e -> index_any (take e s) chars = None.
Proof.
  revert e. induction s as [|c s IH]; intros e; cbn [index_any]; [done|]. destruct (bool_decide (c ∈ chars)) eqn:E; [by intros [= <-]|].
  destruct (index_any s chars) as [j|] eqn:Ej; [|done]. intros [= <-]. cbn [take index_any]. rewrite E. by rewrite IH.
Qed.

Lemma has_prefix_iff s p : has_prefix s p = true <-> exists s', s = p ++ s'.
Proof.
  revert s. induction p as [|x p IH]; intros s; cbn [has_prefix]; [split; [intros _; by exists s|by destruct s]|]. destruct s as [|y s]; [split; [done|by intros [? ?]]|].
  cbn [has_prefix]. rewrite andb_true_iff, IH, Z.eqb_eq. split; [intros [-> [s' ->]]; by exists s'|intros [s' [= -> ->]]; eauto].
Qed.

Lemma var_refs_names fuel v x : x ∈ var_refs fuel v -> var_name x.
Proof.
  revert v. induction fuel as [|fuel IH]; intros v; cbn [var_refs]; [by intros ?%not_elem_of_nil|].
  destruct (find_sub v var_prefix) as [i|] eqn:Ei; [|by intros ?%not_elem_of_nil]. apply find_sub_prefix in Ei.
  destruct (index_any (drop 4 (drop i v)) terminators) as [e|] eqn:Ee.
  - intros [->|Hx]%elem_of_cons; [|by eapply IH]. apply has_prefix_iff in Ei as [s' Es]. rewrite Es in *. change (drop 4 (var_prefix ++ s')) with s' in Ee.
    split; [apply has_prefix_iff; by exists (take e s')|]. change (drop 4 (take (4 + e) (var_prefix ++ s'))) with (take e s'). by apply index_any_take.
  - intros ->%list_elem_of_singleton. done.
Qed.

Lemma var_refs_self v : var_name v -> v ∈ input_refs v.
Proof.
  intros [Hp He]. unfold input_refs. cbn [var_refs]. rewrite (find_sub_here _ _ Hp). change (drop 0 v) with v. rewrite He. by left.
Qed.

(** The budget of the scan is enough: more of it changes nothing. *)
Lemma var_refs_enough n m v : (length v < n)%nat -> (length v < m)%nat -> var_refs n v = var_refs m v.
Proof.
  revert m v. induction n as [|n IH]; intros m v Hn Hm; [lia|]. destruct m as [|m]; [lia|]. cbn [var_refs].
  destruct (find_sub v var_prefix) as [i|] eqn:Ei; [|done]. destruct (index_any (drop 4 (drop i v)) terminators) as [e|] eqn:Ee; [|done]. f_equal.
  assert (0 < length (drop i v))%nat by (apply find_sub_prefix in Ei; destruct (drop i v); [done|cbn; lia]).
  assert (length (drop (4 + e) (drop i v)) < length v)%nat by (rewrite length_drop in *; rewrite length_drop in *; lia). apply IH; lia.
Qed.

Lemma template_refs_enough n m v : (length v < n)%nat -> (length v < m)%nat -> template_refs n v = template_refs m v.
Proof.
  revert m v. induction n as [|n IH]; intros m v Hn Hm; [lia|]. destruct m as [|m]; [lia|]. cbn [template_refs].
  destruct (find_sub v (bytes_of "${")) as [i|] eqn:Ei; [|done]. destruct (find_sub (drop (i + 2) v) (bytes_of "}")) as [e|] eqn:Ee; [|done]. f_equal.
  assert (0 < length (drop i v))%nat by (apply find_sub_prefix in Ei; destruct (drop i v); [done|cbn; lia]).
  assert (length (drop (e + 1) (drop (i + 2) v)) < length v)%nat by (rewrite !length_drop in *; lia). apply IH; lia.
Qed.
