(* ===== verification/MemSteps.v ===== *)
(** * Data-cache steps of a flow

    The [mem_*] steps of [internal/control/compiler_mem.go]: what each step
    compiles to, and the instructions themselves, which read collection names
    and values from byte slots, call the data cache, and put results into the
    request arena.  Query results are serialized into arena memory, so the
    serializer appears here once more, over slices of that memory. *)

From S2P Require Import Prelude Bytes Float64 Cond Context ArenaBuf Request Flow SlotAlloc DataCache.
From stdpp Require Import base numbers list gmap.

Local Open Scope Z_scope.
Local Open Scope rah_scope.

(** ** Compiling *)

Inductive cErr : Type :=
| ENotConfigured | ECollectionRequired | ESlotLimit | EFieldType (spec : byte_string) | EStringWidth (spec : byte_string)
| ENumber (key : byte_string) | ERequired (key : byte_string) | EOtherAction.

(** Compile steps thread the compiler through and stop at the first error. *)
Definition compile (A : Type) : Type := Compiler -> (A * Compiler) + cErr.

Definition creturn {A} (a : A) : compile A := fun c => inl (a, c).
Definition cfail {A} (e : cErr) : compile A := fun _ => inr e.
Definition cbind {A B} (m : compile A) (k : A -> compile B) : compile B :=
  fun c => match m c with inl (a, c') => k a c' | inr e => inr e end.

Notation "x <~ m ;; k" := (cbind m (fun x => k)) (at level 100, m at next level, right associativity) : rah_scope.

Definition claim_slot (name : byte_string) : compile Z :=
  fun c => match getSlot c name with Some (idx, c') => inl (idx, c') | None => inr ESlotLimit end.

Definition getIntSlot (name : byte_string) : compile Z := claim_slot name.

(** [strconv.Atoi]: value and absence of an error. *)
Definition Atoi (s : byte_string) : Z * bool := ParseInt s.

Definition input (step : StepConfig) (k : string) : byte_string := map_get (Input step) (bytes_of k).

Definition parseOneMemField (name spec : byte_string) : FieldDef + cErr :=
  if beq spec (bytes_of "float64") then inl (mkField name FieldFloat64 8)
  else if beq spec (bytes_of "int64") then inl (mkField name FieldInt64 8)
  else if beq spec (bytes_of "enum") then inl (mkField name FieldEnum 1)
  else if has_prefix spec (bytes_of "string:") then
    let '(w, ok) := Atoi (drop 7 spec) in
    if negb ok || (w <=? 0) then inr (EStringWidth spec) else inl (mkField name FieldStringN w)
  else inr (EFieldType spec).

Fixpoint parseMemFields (m : string_map) : list FieldDef + cErr :=
  match m with
  | [] => inl []
  | (k, v) :: m' =>
    if negb (has_prefix k (bytes_of "field.")) then parseMemFields m'
    else match parseOneMemField (drop 6 k) v with
         | inr e => inr e
         | inl fd => match parseMemFields m' with inl fields => inl (fd :: fields) | inr e => inr e end
         end
  end.

Record memName : Type := mkMemName { static : byte_string; slotIdx : Z }.

Definition resolveMemName (step : StepConfig) : compile memName :=
  match input step "collection_slot" with
  | [] => match input step "collection" with
          | [] => cfail ECollectionRequired
          | v => creturn (mkMemName v (-1))
          end
  | v => s <~ claim_slot v ;; creturn (mkMemName [] s)
  end.

(** ** Instructions *)

(** What an instruction takes from outside: the clock, and the text of an
    error. *)
Record StepIO : Type := mkIO { io_now : Z; io_error : dcErr -> byte_string }.

(** [ctx.ByteSlots[idx]] *)
Definition read_slot (c : Context.Context) (idx : Z) : outcome byte_string :=
  v <-- go_index (Context.ByteSlots (Context.slots c)) idx ;; Ret (value c v).

Definition memName_get (mn : memName) (ctx : Ctx) : outcome byte_string :=
  if 0 <=? slotIdx mn then read_slot (c_data ctx) (slotIdx mn) else Ret (static mn).

(** [b := ctx.Alloc(len(s)); copy(b, s)] *)
Definition alloc_copy (c : Context.Context) (s : byte_string) : Context.Context * slice :=
  let '(m, b) := Alloc (mem c) (Z.of_nat (length s)) in (mkContext (copy m b s) (Context.slots c), b).

Definition set_step_error (ctx : Ctx) (c : Context.Context) (msg : slice) : Ctx :=
  mkCtx c true (c_status ctx) (ErrorCode ctx) (Some msg) (c_body ctx) (instrs ctx).

Definition memFail (ctx : Ctx) (errStr : byte_string) : Ctx :=
  let '(c, b) := alloc_copy (c_data ctx) errStr in set_step_error ctx c b.

(** *** JSON into arena memory *)

Section steps.
Context {P : Platform} (FormatFloat : Z -> byte_string).

Fixpoint serialize_rows_mem (a : Arena) (fields : list FieldDef) (rows : list Z) (m : Mem) (b : slice) (pos : Z)
  : outcome (Mem * slice * Z) :=
  match rows with
  | [] => Ret (m, b, pos)
  | row :: rows' =>
    obj <-- row_object a fields 0 row ∅ ;;
    let jsonBytes := default [] (json_marshal obj) in
    let len := Z.of_nat (length jsonBytes) in
    g <-- (if sl_len b <? pos + len + 2 then
             let '(m, newBuf) := Alloc m (Z.max (sl_len b * 2) (pos + len + 2)) in
             kept <-- slice_to b pos ;; Ret (copy m newBuf (read m kept), newBuf)
           else Ret (m, b)) ;;
    let '(m, b) := g in
    m <-- mem_copy_at m b pos jsonBytes ;;
    let pos := pos + len in
    match rows' with
    | [] => Ret (m, b, pos)
    | _ => m <-- mem_put m b pos 44 ;; serialize_rows_mem a fields rows' m b (pos + 1)
    end
  end.

Definition serialize_mem (m : Mem) (a : Arena) (rows : list Z) (fields : list FieldDef) : outcome (Mem * slice) :=
  let '(m, b) := Alloc m (2 + Z.of_nat (length rows) * 100) in
  m <-- mem_put m b 0 91 ;;
  r <-- serialize_rows_mem a fields rows m b 1 ;;
  let '(m, b, pos) := r in
  m <-- mem_put m b pos 93 ;;
  b <-- slice_to b (pos + 1) ;;
  Ret (m, b).

(** *** The instructions *)

Definition MemFunc : Type := StepIO -> Z -> Ctx -> DataCacheManager -> Z -> outcome (Ctx * DataCacheManager * Z).

(** The common end: the next instruction, or [memFail]. *)
Definition step_result (io : StepIO) (ctx : Ctx) (pc : Z) (r : DataCacheManager * option dcErr) : Ctx * DataCacheManager * Z :=
  match r.2 with
  | None => (ctx, r.1, i16 (pc + 1))
  | Some e => (memFail ctx (io_error io e), r.1, StopPlan)
  end.

Definition put_result (ctx : Ctx) (m : Mem) (outSlot : Z) (b : slice) : outcome Ctx :=
  s <-- put_slot (Context.slots (c_data ctx)) outSlot (Some b) ;; Ret (set_data ctx (mkContext m s)).

Definition MemCreate (mn : memName) (opts : CreateOpts) (app : byte_string) : MemFunc := fun io tenantID ctx mgr pc =>
  name <-- memName_get mn ctx ;;
  r <-- dc_Create (io_now io) mgr name
          (mkOpts tenantID app (o_Fields opts) (o_Capacity opts) (o_MaxCap opts) (o_Access opts) (o_Growth opts)
             (o_TTLSec opts) (o_Version opts) (o_WindowSize opts) (o_Computed opts)) ;;
  Ret (step_result io ctx pc r).

Definition MemDrop (mn : memName) (app : byte_string) : MemFunc := fun io tenantID ctx mgr pc =>
  name <-- memName_get mn ctx ;;
  r <-- dc_Drop mgr name tenantID app ;;
  Ret (step_result io ctx pc r).

Definition load_error (e : byte_string) : byte_string := bytes_of "mem_load: " ++ e.

Definition MemLoad (mn : memName) (dataSlot : Z) : MemFunc := fun io tenantID ctx mgr pc =>
  name <-- memName_get mn ctx ;;
  jsonArray <-- read_slot (c_data ctx) dataSlot ;;
  r <-- AppendJSONBatch mgr name jsonArray ;;
  match r.2 with
  | None => Ret (ctx, r.1, i16 (pc + 1))
  | Some e => Ret (memFail ctx (load_error (io_error io e)), r.1, StopPlan)
  end.

(** The object a [mem_append] builds from its fields; an empty slot is null. *)
Definition field_text (v : byte_string) : byte_string := match v with [] => bytes_of "null" | _ => v end.

Fixpoint append_fields (ctx : Ctx) (fieldSlots : list (byte_string * Z)) (first : bool) (buf : byte_string) : outcome byte_string :=
  match fieldSlots with
  | [] => Ret buf
  | (name, s) :: fieldSlots' =>
    let buf := if first then buf else buf ++ [44] in
    v <-- read_slot (c_data ctx) s ;;
    append_fields ctx fieldSlots' false (buf ++ [34] ++ name ++ [34; 58] ++ field_text v)
  end.

Definition MemAppend (mn : memName) (fieldSlots : list (byte_string * Z)) : MemFunc := fun io tenantID ctx mgr pc =>
  name <-- memName_get mn ctx ;;
  buf <-- append_fields ctx fieldSlots true [123] ;;
  r <-- AppendJSON mgr name (buf ++ [125]) ;;
  Ret (step_result io ctx pc r).

Definition MemQuery (mn : memName) (outSlot : Z) : MemFunc := fun io tenantID ctx mgr pc =>
  name <-- memName_get mn ctx ;;
  r <-- query_with (serialize_mem (mem (c_data ctx))) mgr name ;;
  match r with
  | inr e => Ret (memFail ctx (io_error io e), mgr, StopPlan)
  | inl (m, result) => ctx <-- put_result ctx m outSlot result ;; Ret (ctx, mgr, i16 (pc + 1))
  end.

Definition MemFilter (mn : memName) (fieldName op staticVal : byte_string) (valueSlot outSlot : Z) : MemFunc :=
  fun io tenantID ctx mgr pc =>
  cmp <-- (if 0 <=? valueSlot then read_slot (c_data ctx) valueSlot else Ret staticVal) ;;
  name <-- memName_get mn ctx ;;
  r <-- filter_with (serialize_mem (mem (c_data ctx))) mgr name fieldName op cmp ;;
  match r with
  | inr e => Ret (memFail ctx (io_error io e), mgr, StopPlan)
  | inl (m, result) => ctx <-- put_result ctx m outSlot result ;; Ret (ctx, mgr, i16 (pc + 1))
  end.

Definition MemSort (mn : memName) (staticField : byte_string) (fieldSlot : Z) (desc : bool) : MemFunc := fun io tenantID ctx mgr pc =>
  field <-- (if 0 <=? fieldSlot then read_slot (c_data ctx) fieldSlot else Ret staticField) ;;
  name <-- memName_get mn ctx ;;
  r <-- SortCollection mgr name field desc ;;
  Ret (step_result io ctx pc r).

Definition MemAggregate (mn : memName) (fieldName op : byte_string) (outSlot : Z) : MemFunc := fun io tenantID ctx mgr pc =>
  name <-- memName_get mn ctx ;;
  r <-- AggregateField mgr name fieldName op ;;
  match r with
  | inr e => Ret (memFail ctx (io_error io e), mgr, StopPlan)
  | inl val =>
    let '(c, out) := alloc_copy (c_data ctx) (FormatFloat val) in
    ctx <-- put_result ctx (mem c) outSlot out ;; Ret (ctx, mgr, i16 (pc + 1))
  end.

Definition MemTrimOldest (mn : memName) (staticN nSlot : Z) : MemFunc := fun io tenantID ctx mgr pc =>
  n <-- (if 0 <=? nSlot then GetInt (Context.slots (c_data ctx)) nSlot else Ret staticN) ;;
  name <-- memName_get mn ctx ;;
  r <-- TrimOldest mgr name n ;;
  Ret (step_result io ctx pc r).

(** *** What the steps compile to *)

Definition from_sum {A} (x : A + cErr) : compile A := match x with inl a => creturn a | inr e => cfail e end.

(** A number, when the key is present. *)
Definition number_or (step : StepConfig) (k : string) (dflt : Z) : compile Z :=
  match input step k with
  | [] => creturn dflt
  | v => let '(n, ok) := Atoi v in if ok then creturn n else cfail (ENumber (bytes_of k))
  end.

Definition slot_or_none (step : StepConfig) (k : string) : compile Z :=
  match input step k with [] => creturn (-1) | v => claim_slot v end.

Definition required_slot (step : StepConfig) (k : string) : compile Z :=
  match input step k with [] => cfail (ERequired (bytes_of k)) | v => claim_slot v end.

Definition compileMemCreate (step : StepConfig) : compile (list MemFunc) :=
  mn <~ resolveMemName step ;;
  fields <~ from_sum (parseMemFields (Input step)) ;;
  capacity <~ number_or step "capacity" 1024 ;;
  maxCap <~ (if beq (input step "max_capacity") (bytes_of "0") then creturn capacity else number_or step "max_capacity" capacity) ;;
  let growth := if beq (input step "growth") (bytes_of "fixed") then GrowthFixed else GrowthAuto in
  let access := if beq (input step "access") (bytes_of "read_only") then AccessReadOnly else AccessReadWrite in
  let ttlSec := match input step "ttl_sec" with [] => 0 | v => (Atoi v).1 end in
  let app := input step "app" in
  creturn [MemCreate mn (mkOpts 0 [] fields capacity maxCap access growth ttlSec [] 0 []) app].

Definition compileMemDrop (step : StepConfig) : compile (list MemFunc) :=
  mn <~ resolveMemName step ;;
  creturn [MemDrop mn (input step "app")].

Definition compileMemLoad (step : StepConfig) : compile (list MemFunc) :=
  mn <~ resolveMemName step ;;
  dataSlot <~ required_slot step "data_slot" ;;
  creturn [MemLoad mn dataSlot].

Fixpoint field_slots (m : string_map) : compile (list (byte_string * Z)) :=
  match m with
  | [] => creturn []
  | (k, v) :: m' =>
    if negb (has_prefix k (bytes_of "field.")) then field_slots m'
    else s <~ claim_slot v ;; rest <~ field_slots m' ;; creturn ((drop 6 k, s) :: rest)
  end.

Definition compileMemAppend (step : StepConfig) : compile (list MemFunc) :=
  mn <~ resolveMemName step ;;
  fieldSlots <~ field_slots (Input step) ;;
  creturn [MemAppend mn fieldSlots].

Definition compileMemQuery (step : StepConfig) : compile (list MemFunc) :=
  mn <~ resolveMemName step ;;
  outSlot <~ required_slot step "output_slot" ;;
  creturn [MemQuery mn outSlot].

Definition text_or (v : byte_string) (d : string) : byte_string := match v with [] => bytes_of d | _ => v end.

Definition compileMemFilter (step : StepConfig) : compile (list MemFunc) :=
  mn <~ resolveMemName step ;;
  fieldName <~ (match input step "field" with [] => cfail (ERequired (bytes_of "field")) | v => creturn v end) ;;
  let op := text_or (input step "op") "eq" in
  outSlot <~ required_slot step "output_slot" ;;
  valueSlot <~ slot_or_none step "value_slot" ;;
  creturn [MemFilter mn fieldName op (input step "value") valueSlot outSlot].

Definition compileMemSort (step : StepConfig) : compile (list MemFunc) :=
  mn <~ resolveMemName step ;;
  let staticField := input step "field" in
  fieldSlot <~ slot_or_none step "field_slot" ;;
  if beq staticField [] && (fieldSlot <? 0) then cfail (ERequired (bytes_of "field"))
  else creturn [MemSort mn staticField fieldSlot (beq (input step "desc") (bytes_of "true"))].

Definition compileMemAggregate (step : StepConfig) : compile (list MemFunc) :=
  mn <~ resolveMemName step ;;
  let op := text_or (input step "op") "avg" in
  outSlot <~ required_slot step "output_slot" ;;
  creturn [MemAggregate mn (input step "field") op outSlot].

Definition compileMemTrimOldest (step : StepConfig) : compile (list MemFunc) :=
  mn <~ resolveMemName step ;;
  staticN <~ number_or step "n" 100 ;;
  nSlot <~ (match input step "n_slot" with [] => creturn (-1) | v => getIntSlot v end) ;;
  creturn [MemTrimOldest mn staticN nSlot].

(** The [mem_*] cases of [compileStep] ([configured]: there is a data cache).
    The other actions of its switch are outside this model. *)
Definition compileMemStep (configured : bool) (step : StepConfig) : compile (list MemFunc) :=
  let guarded (m : compile (list MemFunc)) := if configured then m else cfail ENotConfigured in
  if is_action step "mem_create" then guarded (compileMemCreate step)
  else if is_action step "mem_drop" then guarded (compileMemDrop step)
  else if is_action step "mem_load" then guarded (compileMemLoad step)
  else if is_action step "mem_append" then guarded (compileMemAppend step)
  else if is_action step "mem_query" then guarded (compileMemQuery step)
  else if is_action step "mem_filter" then guarded (compileMemFilter step)
  else if is_action step "mem_sort" then guarded (compileMemSort step)
  else if is_action step "mem_aggregate" then guarded (compileMemAggregate step)
  else if is_action step "mem_trim_oldest" then guarded (compileMemTrimOldest step)
  else cfail EOtherAction.

Definition compile_step (configured : bool) (step : StepConfig) (c : Compiler) : (Compiler * list MemFunc) + cErr :=
  match compileMemStep configured step c with inl (code, c') => inl (c', code) | inr e => inr e end.

(** Running a table of instructions from its start, as the executor does when
    no error handler is set; [ios i] is what the [i]-th executed instruction
    takes from outside. *)
Fixpoint run_table (fuel : nat) (table : list (Z * MemFunc)) (ios : nat -> StepIO) (tenantID : Z) (ctx : Ctx)
    (mgr : DataCacheManager) (pc : Z) : outcome (Ctx * DataCacheManager) :=
  match fuel with
  | O => Fuel
  | S fuel' =>
    if (0 <=? pc) && (pc <? i16 (Z.of_nat (length table))) then
      i <-- go_index table pc ;;
      r <-- i.2 (ios O) tenantID ctx mgr pc ;;
      let '(ctx, mgr, pc) := r in
      if pc =? StopPlan then Ret (ctx, mgr) else run_table fuel' table (fun i => ios (S i)) tenantID ctx mgr pc
    else Ret (ctx, mgr)
  end.

End steps.
