(* ===== verification/MemStepsSpec.v ===== *)
(** * Data-cache steps of a flow: the instructions

    The serializer that writes into arena memory agrees with the one over
    plain buffers and touches nothing but its buffer; each instruction performs
    the data cache operation it stands for on the values of its slots. *)

From S2P Require Import Prelude Bytes Float64 Cond Context ContextSpec ArenaBuf Request Flow SlotAlloc SlotAllocSpec DataCache DataCacheTable DataCacheSpec DataCacheRefine DataCacheReads DataCacheManagerSpec MemSteps.


Local Open Scope Z_scope.
Local Open Scope rah_scope.

(** ** The serializer *)

Section serializer.
Context {P : Platform} (alloc : Z -> byte_string) (Halloc : forall n, 0 <= n -> Z.of_nat (length (alloc n)) = n).

(** The buffer [b] agrees with [pb] up to [pos]. *)
Record same_buf (m0 m : Mem) (b : slice) (pb : byte_string) (pos : Z) : Prop := mkSame {
  sb_private : private m0 m b; sb_pos : 0 <= pos; sb_len : Z.of_nat (length pb) = sl_len b;
  sb_eq : take (Z.to_nat pos) (read m b) = take (Z.to_nat pos) pb }.

Lemma splice_same (b pb d : byte_string) pos : length b = length pb -> (pos + length d <= length b)%nat -> take pos b = take pos pb ->
  take (pos + length d) (splice b pos d) = take (pos + length d) (splice pb pos d).
Proof.
  intros Hl Hp He. unfold splice. rewrite He. rewrite !app_assoc. rewrite !(take_app_le (take pos pb ++ d)) by (rewrite length_app, length_take; lia). done.
Qed.

(** Writing [d] at the end of what was written. *)
Lemma write_same m0 m b pb pos n d : same_buf m0 m b pb pos -> 0 <= n -> pos + n <= sl_len b -> Z.of_nat (length d) <= n ->
  same_buf m0 (copy m (mkSlice (sl_reg b) (sl_off b + pos) n) d) b (splice pb (Z.to_nat pos) d) (pos + Z.of_nat (length d)).
Proof.
  intros [Hp Hpos Hl He] Hn Hb Hd. destruct (copy_private m0 m b pos n d Hp Hpos Hn Hb) as [Hp' Hr].
  pose proof (read_length _ _ (pv_ok _ _ _ Hp) (pv_valid _ _ _ Hp)) as Hrl. split; [done|lia|rewrite length_splice; lia|].
  rewrite Hr, (take_ge d) by lia. replace (Z.to_nat (pos + Z.of_nat (length d))) with (Z.to_nat pos + length d)%nat by lia. apply splice_same; [lia|lia|done].
Qed.

Lemma put_byte_same m0 m b pb pos x pb' : same_buf m0 m b pb pos -> put_byte pb pos x = Ret pb' ->
  exists m', mem_put m b pos x = Ret m' /\ same_buf m0 m' b pb' (pos + 1).
Proof.
  intros H Hput. unfold put_byte in Hput. destruct (go_index pb pos) as [y| |] eqn:Eg; try done. injection Hput as <-.
  apply go_index_Ret in Eg as [Hb _]. pose proof (sb_len _ _ _ _ _ H) as Hl. unfold mem_put. rewrite (proj2 (Z.leb_le 0 pos)), (proj2 (Z.ltb_lt pos _)) by lia.
  eexists. split; [reflexivity|]. pose proof (write_same m0 m b pb pos 1 [x] H ltac:(lia) ltac:(lia) ltac:(cbn; lia)) as Hw. cbn [length] in Hw.
  change (Z.of_nat 1) with 1 in Hw. replace (<[Z.to_nat pos := x]> pb) with (splice pb (Z.to_nat pos) [x]); [done|].
  apply list_eq. intros i. rewrite lookup_splice by (cbn; lia). cbn [length]. destruct (decide (i = Z.to_nat pos)) as [->|].
  - rewrite decide_True by lia. rewrite Nat.sub_diag. by rewrite list_lookup_insert_eq by lia.
  - rewrite decide_False by lia. by rewrite list_lookup_insert_ne.
Qed.

Lemma copy_at_same m0 m b pb pos d : same_buf m0 m b pb pos -> pos + Z.of_nat (length d) <= sl_len b ->
  exists m', mem_copy_at m b pos d = Ret m' /\ copy_at pb pos d = Ret (splice pb (Z.to_nat pos) d) /\
    same_buf m0 m' b (splice pb (Z.to_nat pos) d) (pos + Z.of_nat (length d)).
Proof.
  intros H Hd. pose proof (sb_pos _ _ _ _ _ H). pose proof (sb_len _ _ _ _ _ H) as Hl. unfold mem_copy_at.
  rewrite (proj2 (Z.leb_le 0 pos)), (proj2 (Z.leb_le pos _)) by lia. eexists. split; [reflexivity|].
  split; [|apply write_same; [done|lia|lia|lia]]. rewrite <- (Z2Nat.id pos) at 1 by lia. by rewrite copy_at_ok by lia.
Qed.

(** A larger buffer with what was written. *)
Lemma grow_same m0 m b pb pos n : same_buf m0 m b pb pos -> sl_len b <= n -> pos <= sl_len b ->
  exists m' b', (let '(m, newBuf) := Alloc m n in kept <-- slice_to b pos ;; Ret (copy m newBuf (read m kept), newBuf)) = Ret (m', b') /\
    sl_len b' = n /\ (kept <-- go_slice pb 0 pos ;; Ret (splice (alloc n) 0 (take (length (alloc n)) kept))) = Ret (splice (alloc n) 0 (take (Z.to_nat pos) pb)) /\
    same_buf m0 m' b' (splice (alloc n) 0 (take (Z.to_nat pos) pb)) pos.
Proof using Halloc.
  intros [Hp Hpos Hl He] Hn Hb. pose proof (pv_valid _ _ _ Hp) as (Hvo & Hvl & Hvu). pose proof (alloc_private m0 m n b Hp ltac:(lia)) as Ha.
  destruct (Alloc m n) as [m1 b1]. destruct Ha as (Hp1 & Hl1 & Hv1 & Hr1). unfold slice_to. rewrite (proj2 (Z.leb_le 0 pos)), (proj2 (Z.leb_le pos _)) by lia.
  cbn [andb obind]. set (kept := read m1 _). assert (kept = take (Z.to_nat pos) pb) as Hk.
  { rewrite <- He, <- Hr1. unfold kept, read. cbn [sl_reg sl_off sl_len]. rewrite take_take. f_equal. lia. }
  assert (Z.of_nat (length (take (Z.to_nat pos) pb)) = pos) as Hkl by (rewrite length_take; lia).
  pose proof (Halloc n ltac:(lia)) as Hal. exists (copy m1 b1 kept), b1. split; [done|]. split; [done|]. split.
  { unfold go_slice. rewrite (proj2 (Z.leb_le 0 0)), (proj2 (Z.leb_le 0 pos)), (proj2 (Z.leb_le pos _)) by lia. cbn [andb obind].
    rewrite Z.sub_0_r. change (drop (Z.to_nat 0) pb) with pb. rewrite (take_ge (take (Z.to_nat pos) pb)) by lia. done. }
  destruct (copy_private m0 m1 b1 0 (sl_len b1) kept Hp1 ltac:(lia) ltac:(lia) ltac:(lia)) as [Hp2 Hr2]. rewrite Z.add_0_r in Hp2, Hr2.
  assert (mkSlice (sl_reg b1) (sl_off b1) (sl_len b1) = b1) as Eb by (by destruct b1). rewrite Eb in Hp2, Hr2.
  pose proof (read_length _ _ (pv_ok _ _ _ Hp1) (pv_valid _ _ _ Hp1)) as Hrl. split; [done|done|rewrite length_splice; lia|].
  rewrite Hr2, Hk, (take_ge (take (Z.to_nat pos) pb)) by lia. change (Z.to_nat 0) with 0%nat. set (d := take (Z.to_nat pos) pb) in *.
  pose proof (splice_same (read m1 b1) (alloc n) d 0 ltac:(lia) ltac:(lia) eq_refl) as Hs. cbn [Nat.add] in Hs.
  by replace (Z.to_nat pos) with (length d) by lia.
Qed.

Lemma serialize_rows_same a fields m0 rows : forall m b pb pos pb' pos', pos < sl_len b ->
  same_buf m0 m b pb pos -> serialize_rows alloc a fields rows pb pos = Ret (pb', pos') ->
  exists m' b', serialize_rows_mem a fields rows m b pos = Ret (m', b', pos') /\ same_buf m0 m' b' pb' pos'.
Proof using Halloc.
  induction rows as [|row rows IH]; intros m b pb pos pb' pos' Hlt H; cbn [serialize_rows serialize_rows_mem].
  { intros [= <- <-]. by exists m, b. }
  destruct (row_object a fields 0 row ∅) as [obj| |]; try done. cbn [obind]. set (j := default [] (json_marshal obj)). cbv zeta.
  pose proof (sb_len _ _ _ _ _ H) as Hl. pose proof (sb_pos _ _ _ _ _ H) as Hpos. rewrite Hl.
  set (n := Z.max (sl_len b * 2) (pos + Z.of_nat (length j) + 2)). set (pg := if sl_len b <? _ then _ else _).
  assert (exists m1 b1 pb1, (if sl_len b <? pos + Z.of_nat (length j) + 2
            then let '(m, newBuf) := Alloc m n in kept <-- slice_to b pos ;; Ret (copy m newBuf (read m kept), newBuf) else Ret (m, b)) = Ret (m1, b1) /\
    pg = Ret pb1 /\ same_buf m0 m1 b1 pb1 pos /\ pos + Z.of_nat (length j) + 2 <= sl_len b1) as (m1 & b1 & pb1 & -> & -> & H1 & Hb1).
  { unfold pg. destruct (Z.ltb_spec (sl_len b) (pos + Z.of_nat (length j) + 2)); [|by exists m, b, pb].
    destruct (grow_same m0 m b pb pos n H ltac:(lia) ltac:(lia)) as (m1 & b1 & -> & Hlb & -> & Hs). eexists _, _, _. split; [done|]. split; [done|]. split; [done|]. lia. }
  cbn [obind]. destruct (copy_at_same m0 m1 b1 pb1 pos j H1 ltac:(lia)) as (m2 & -> & -> & H2). cbn [obind].
  destruct rows as [|row' rows]; [intros [= <- <-]; by exists m2, b1|].
  destruct (put_byte _ _ 44) as [pb3| |] eqn:E3; try done. destruct (put_byte_same _ _ _ _ _ _ _ H2 E3) as (m3 & -> & H3). cbn [obind].
  apply IH; [lia|done].
Qed.

(** The memory result shows the plain one, and nothing else changed. *)
Lemma serialize_same m0 a rows fields x : mem_ok m0 -> serializeArenaJSON alloc a rows fields = Ret x ->
  exists m b, serialize_mem m0 a rows fields = Ret (m, b) /\ mem_ok m /\ extends m0 m /\ valid m b /\ read m b = x.
Proof using Halloc.
  intros Hok. unfold serializeArenaJSON, serialize_mem. set (n := 2 + Z.of_nat (length rows) * 100).
  pose proof (Alloc_spec m0 n Hok ltac:(lia)) as Ha. destruct (Alloc m0 n) as [m1 b1]. destruct Ha as (Hok1 & He1 & Hv1 & Hl1 & Hd1).
  assert (same_buf m0 m1 b1 (alloc n) 0) as H1 by (split; [done|lia|rewrite Halloc by lia; done|by rewrite !take_0]).
  destruct (put_byte (alloc n) 0 91) as [pb1| |] eqn:E1; try done. destruct (put_byte_same _ _ _ _ _ _ _ H1 E1) as (m2 & -> & H2). cbn [obind].
  change (0 + 1) with 1 in H2. destruct (serialize_rows alloc a fields rows pb1 1) as [[pb2 pos]| |] eqn:E2; try done.
  destruct (serialize_rows_same a fields m0 rows m2 b1 pb1 1 pb2 pos ltac:(lia) H2 E2) as (m3 & b2 & -> & H3). cbn [obind].
  destruct (put_byte pb2 pos 93) as [pb3| |] eqn:E3; try done. destruct (put_byte_same _ _ _ _ _ _ _ H3 E3) as (m4 & -> & [Hp4 Hpos4 Hl4 He4]). cbn [obind].
  unfold go_slice. destruct ((0 <=? 0) && (0 <=? pos + 1) && (pos + 1 <=? Z.of_nat (length pb3))) eqn:Eb; [|done]. intros [= <-].
  apply andb_true_iff in Eb as [_ Eb%Z.leb_le]. unfold slice_to. rewrite (proj2 (Z.leb_le 0 _)), (proj2 (Z.leb_le (pos + 1) _)) by lia. cbn [andb obind].
  destruct Hp4 as [Hok4 Hext4 (Hvo & Hvl & Hvu) Hap]. eexists _, _. split; [reflexivity|]. split; [done|]. split; [done|].
  split; [repeat split; cbn; lia|]. rewrite Z.sub_0_r. change (drop (Z.to_nat 0) pb3) with pb3. rewrite <- He4. unfold read. cbn [sl_reg sl_off sl_len].
  rewrite take_take. f_equal. lia.
Qed.

End serializer.

(** The cache's reads with either serializer. *)
Section with_serializer.
Context {P : Platform} {R R' : Type} (same : R -> R' -> Prop).
Context (ser : Arena -> list Z -> list FieldDef -> outcome R) (ser' : Arena -> list Z -> list FieldDef -> outcome R').
Context (Hser : forall a rows fields x, ser a rows fields = Ret x -> exists y, ser' a rows fields = Ret y /\ same x y).

Definition same_result (r : R + dcErr) (r' : R' + dcErr) : Prop :=
  match r, r' with inl x, inl y => same x y | inr e, inr e' => e = e' | _, _ => False end.

Lemma ser_bind a rows fields r : (x <-- ser a rows fields ;; Ret (inl x)) = Ret r ->
  exists r', (y <-- ser' a rows fields ;; Ret (inl y)) = Ret r' /\ same_result r r'.
Proof using Hser.
  destruct (ser a rows fields) as [x| |] eqn:E; try done. intros [= <-]. destruct (Hser _ _ _ _ E) as (y & -> & Hs). by exists (inl y).
Qed.

Lemma query_same m name r : query_with ser m name = Ret r -> exists r', query_with ser' m name = Ret r' /\ same_result r r'.
Proof using Hser.
  unfold query_with. destruct (dc_Get m name) as [meta|e]; [|intros [= <-]; by exists (inr e)].
  destruct (go_index _ _) as [s| |]; try done. cbn [obind]. destruct (0 <=? _); [|apply ser_bind].
  destruct (_ <? _); [intros [= <-]; by exists (inr ErrLiveCount)|]. destruct (go_slice _ _ _); try done. apply ser_bind.
Qed.

Lemma filter_same m name field op v r : filter_with ser m name field op v = Ret r ->
  exists r', filter_with ser' m name field op v = Ret r' /\ same_result r r'.
Proof using Hser.
  unfold filter_with. destruct (dc_Get m name) as [meta|e]; [|intros [= <-]; by exists (inr e)].
  destruct (_ <? 0); [intros [= <-]; by exists (inr ErrFieldNotFound)|]. destruct (go_index (DataCache.slots _) _) as [s| |]; try done. cbn [obind].
  destruct (go_index (DataCache.Fields _) _) as [f| |]; try done. cbn [obind]. destruct (filter_rows _ _); try done. apply ser_bind.
Qed.

End with_serializer.

(** ** The context of a step *)

Abbreviation holds c vs ns := (ContextSpec.slot_rel c (vs, ns)).

Lemma read_slot_ok c vs ns idx : holds c vs ns -> 0 <= idx < 48 -> read_slot c idx = Ret (default [] (vs !! Z.to_nat idx)).
Proof.
  intros (Hc & Hv & _) Hi. cbn in Hv. unfold read_slot. destruct (lookup_lt_is_Some_2 (Context.ByteSlots (Context.slots c)) (Z.to_nat idx)) as [v Ev].
  { rewrite (so_bytes _ _ (proj2 Hc)). lia. }
  rewrite (go_index_Z _ _ _ (proj1 Hi) Ev). cbn [obind]. rewrite <- Hv, (values_lookup _ _ _ Ev). done.
Qed.

(** Memory that grew keeps the slots. *)
Lemma holds_extend c m vs ns : holds c vs ns -> mem_ok m -> extends (mem c) m -> holds (mkContext m (Context.slots c)) vs ns.
Proof.
  intros ([Hm Hs] & Hv & Hi) Hok He. destruct c as [m0 s]. cbn [mem Context.slots] in *. split; [split; [done|by eapply slots_extend]|]. split; [|done].
  by rewrite (values_extend m0).
Qed.

Lemma alloc_copy_ok c s vs ns : holds c vs ns ->
  let '(c', b) := alloc_copy c s in
  holds c' vs ns /\ Context.slots c' = Context.slots c /\ mem_ok (mem c') /\ extends (mem c) (mem c') /\ valid (mem c') b /\ read (mem c') b = s.
Proof.
  intros Hc. pose proof (proj1 (proj1 Hc)) as Hm. unfold alloc_copy. pose proof (Alloc_spec (mem c) (Z.of_nat (length s)) Hm ltac:(lia)) as Ha.
  destruct (Alloc (mem c) _) as [m b]. destruct (store_spec _ _ _ s Hm Ha) as (Hok & Hv & Hr & He). cbn [mem Context.slots].
  split; [by apply holds_extend|done].
Qed.

Lemma memFail_ok ctx txt vs ns : holds (c_data ctx) vs ns ->
  holds (c_data (memFail ctx txt)) vs ns /\ Failed (memFail ctx txt) = true /\
  exists s, ErrorMsg (memFail ctx txt) = Some s /\ read (mem (c_data (memFail ctx txt))) s = txt.
Proof.
  intros H. pose proof (alloc_copy_ok (c_data ctx) txt vs ns H) as Ha. unfold memFail. destruct (alloc_copy _ _) as [c b].
  destruct Ha as (Hc & _ & _ & _ & _ & Hr). split; [done|]. split; [done|]. by exists b.
Qed.

Lemma put_result_ok ctx m b out vs ns : holds (c_data ctx) vs ns -> mem_ok m -> extends (mem (c_data ctx)) m -> valid m b -> 0 <= out < 48 ->
  exists ctx', put_result ctx m out b = Ret ctx' /\ holds (c_data ctx') (<[Z.to_nat out := read m b]> vs) ns /\ Failed ctx' = Failed ctx.
Proof.
  intros Hc Hok He Hv Ho. pose proof (holds_extend _ m _ _ Hc Hok He) as ([_ Hs] & Hvs & Hi). cbn [mem Context.slots fst snd] in *.
  destruct (put_slot_spec m (Context.slots (c_data ctx)) out (Some b) Hs Ho Hv) as (s' & E & Hs' & Hval & Hb & Hx & _). unfold put_result. rewrite E. cbn [obind].
  eexists. split; [reflexivity|]. split; [|done]. cbn [c_data set_data]. split; [done|]. cbn [fst snd]. rewrite Hval, Hvs. split; [done|].
  unfold ints in *. cbn [Context.slots]. by rewrite Hb, Hx.
Qed.

(** ** Every instruction performs its operation *)

(** What a step does to the flow: go on, store a text, or stop with an error. *)
Inductive effect : Type := Continue | Store (t : byte_string) | Stop (t : byte_string).

Definition effect_of (FormatFloat : Z -> byte_string) (err : dcErr -> byte_string) (r : dres) : effect :=
  match r with
  | RErr None | RUsage _ _ => Continue
  | RJson (inl t) => Store t
  | RNum (inl x) => Store (FormatFloat x)
  | RErr (Some e) | RJson (inr e) | RNum (inr e) => Stop (err e)
  end.

Definition stepped (ctx : Ctx) (vs : list byte_string) (ns : list Z) (pc out : Z) (e : effect) (ctx' : Ctx) (pc' : Z) : Prop :=
  match e with
  | Continue => ctx' = ctx /\ pc' = i16 (pc + 1)
  | Store t => holds (c_data ctx') (<[Z.to_nat out := t]> vs) ns /\ Failed ctx' = Failed ctx /\ pc' = i16 (pc + 1)
  | Stop t => holds (c_data ctx') vs ns /\ Failed ctx' = true /\
              (exists s, ErrorMsg ctx' = Some s /\ read (mem (c_data ctx')) s = t) /\ pc' = StopPlan
  end.

(** An argument that may come from a slot. *)
Definition arg (vs : list byte_string) (idx : Z) (dflt : byte_string) : byte_string :=
  if 0 <=? idx then default [] (vs !! Z.to_nat idx) else dflt.

Definition name_arg (vs : list byte_string) (mn : memName) : byte_string := arg vs (slotIdx mn) (static mn).

Definition name_slot_ok (mn : memName) : Prop := slotIdx mn < 48.

Lemma memName_get_ok mn ctx vs ns : holds (c_data ctx) vs ns -> name_slot_ok mn -> memName_get mn ctx = Ret (name_arg vs mn).
Proof.
  intros Hc Hm. unfold memName_get, name_arg, arg. destruct (Z.leb_spec 0 (slotIdx mn)); [|done]. by apply (read_slot_ok _ vs ns).
Qed.

Lemma arg_ok c vs ns idx dflt : holds c vs ns -> idx < 48 -> (if 0 <=? idx then read_slot c idx else Ret dflt) = Ret (arg vs idx dflt).
Proof. intros Hc Hi. unfold arg. destruct (Z.leb_spec 0 idx); [|done]. by apply (read_slot_ok _ vs ns). Qed.

Section instructions.
Context {P : Platform} {Sort : SliceSort P} (FormatFloat : Z -> byte_string).
Context (nslots maxBuf maxRec platBytes platSlots : Z).
Context (Hnslots : 0 <= nslots <= 256) (HmaxBuf : 0 <= maxBuf < 2 ^ 31) (HmaxRec : maxRec < 2 ^ 31).

Abbreviation rel := (dc_rel nslots maxBuf maxRec platBytes platSlots).
Abbreviation astep := (a_step nslots maxBuf maxRec platBytes platSlots).

Definition zero_buf (n : Z) : byte_string := replicate (Z.to_nat n) 0.

Lemma zero_buf_length n : 0 <= n -> Z.of_nat (length (zero_buf n)) = n.
Proof. intros H. unfold zero_buf. rewrite length_replicate. lia. Qed.

(** [f] performs operation [o] of the values in the slots. *)
Definition performs (f : MemFunc) (io : StepIO) (tenantID : Z) (vs : list byte_string) (ns : list Z) (o : dop) (out : Z)
    (err : dcErr -> byte_string) : Prop :=
  forall ctx mgr d d' res pc, holds (c_data ctx) vs ns -> rel mgr d -> op_ok o -> astep o d = Some (d', res) ->
  exists ctx' mgr' pc', f io tenantID ctx mgr pc = Ret (ctx', mgr', pc') /\ rel mgr' d' /\
    stepped ctx vs ns pc out (effect_of FormatFloat err res) ctx' pc'.

Lemma dc_step_zero o m d d' r : rel m d -> op_ok o -> astep o d = Some (d', r) -> exists m', dc_step zero_buf o m = Ret (m', r) /\ rel m' d'.
Proof using Sort Hnslots HmaxBuf HmaxRec. apply (dc_step_ok _ _ _ _ _ Hnslots HmaxBuf HmaxRec zero_buf zero_buf_length). Qed.

Lemma done_err_inv x m r : done_err x = Ret (m, r) -> exists e, x = Ret (m, e) /\ r = RErr e.
Proof. unfold done_err. destruct x as [[m' e]| |]; try done. intros [= <- <-]. by exists e. Qed.

Lemma step_result_ok io ctx pc m e vs ns out : holds (c_data ctx) vs ns ->
  exists ctx' pc', step_result io ctx pc (m, e) = (ctx', m, pc') /\ stepped ctx vs ns pc out (effect_of FormatFloat (io_error io) (RErr e)) ctx' pc'.
Proof.
  intros Hc. unfold step_result. destruct e as [e|]; cbn [snd fst]; [|by eexists _, _].
  eexists _, _. split; [reflexivity|]. destruct (memFail_ok ctx (io_error io e) vs ns Hc) as (H1 & H2 & H3). done.
Qed.

(** Operations that only report an error. *)
Lemma done_performs f o io tenantID vs ns out x :
  (forall m, dc_step zero_buf o m = done_err (x m)) ->
  (forall ctx mgr pc, holds (c_data ctx) vs ns -> f io tenantID ctx mgr pc = (r <-- x mgr ;; Ret (step_result io ctx pc r))) ->
  performs f io tenantID vs ns o out (io_error io).
Proof using Sort Hnslots HmaxBuf HmaxRec.
  intros Hx Hf ctx mgr d d' res pc Hc Hr Ho Hst. destruct (dc_step_zero o mgr d d' res Hr Ho Hst) as (m' & E & Hr'). rewrite Hx in E.
  apply done_err_inv in E as (e & E & ->). rewrite (Hf ctx mgr pc Hc), E. cbn [obind].
  destruct (step_result_ok io ctx pc m' e vs ns out Hc) as (ctx' & pc' & -> & Hs). by exists ctx', m', pc'.
Qed.

(** Operations that store a text. *)
Lemma json_performs f o io tenantID vs ns out (x : forall R, (Arena -> list Z -> list FieldDef -> outcome R) -> DataCacheManager -> outcome (R + dcErr)) :
  0 <= out < 48 ->
  (forall m, dc_step zero_buf o m = (r <-- x _ (serializeArenaJSON zero_buf) m ;; Ret (m, RJson r))) ->
  (forall R R' same ser ser', (forall a rows fields (y : R), ser a rows fields = Ret y -> exists y' : R', ser' a rows fields = Ret y' /\ same y y') ->
     forall m r, x R ser m = Ret r -> exists r', x R' ser' m = Ret r' /\ same_result same r r') ->
  (forall ctx mgr pc, holds (c_data ctx) vs ns -> f io tenantID ctx mgr pc =
     (r <-- x _ (serialize_mem (mem (c_data ctx))) mgr ;;
      match r with
      | inr e => Ret (memFail ctx (io_error io e), mgr, StopPlan)
      | inl (m, result) => ctx <-- put_result ctx m out result ;; Ret (ctx, mgr, i16 (pc + 1))
      end)) ->
  performs f io tenantID vs ns o out (io_error io).
Proof using Sort Hnslots HmaxBuf HmaxRec.
  intros Hout Hx Hsame Hf ctx mgr d d' res pc Hc Hr Ho Hst. destruct (dc_step_zero o mgr d d' res Hr Ho Hst) as (m' & E & Hr'). rewrite Hx in E.
  destruct (x _ (serializeArenaJSON zero_buf) mgr) as [r| |] eqn:Ex; try done. cbn [obind] in E. injection E as <- <-.
  destruct (Hsame _ _ (fun j p => mem_ok p.1 /\ extends (mem (c_data ctx)) p.1 /\ valid p.1 p.2 /\ read p.1 p.2 = j) _ (serialize_mem (mem (c_data ctx)))
    (fun a rows fields y E0 => match serialize_same zero_buf zero_buf_length _ a rows fields y (proj1 (proj1 Hc)) E0 with
       | ex_intro _ m (ex_intro _ b (conj E1 Hq)) => ex_intro _ (m, b) (conj E1 Hq) end) mgr r Ex) as (r' & E' & Hs).
  rewrite (Hf ctx mgr pc Hc), E'. cbn [obind]. destruct r as [j|e], r' as [[m b]|e']; cbn in Hs; try done.
  - destruct Hs as (Hok & He & Hv & <-). destruct (put_result_ok ctx m b out vs ns Hc Hok He Hv Hout) as (ctx' & -> & Hc' & Hfl). cbn [obind].
    by exists ctx', mgr, (i16 (pc + 1)).
  - subst e'. destruct (memFail_ok ctx (io_error io e) vs ns Hc) as (H1 & H2 & H3). by exists (memFail ctx (io_error io e)), mgr, StopPlan.
Qed.

Context (io : StepIO) (tenantID : Z) (vs : list byte_string) (ns : list Z).
Context (mn : memName) (Hmn : name_slot_ok mn).

Lemma MemCreate_ok opts app :
  performs (MemCreate mn opts app) io tenantID vs ns
    (DCreate (io_now io) (name_arg vs mn) (mkOpts tenantID app (o_Fields opts) (o_Capacity opts) (o_MaxCap opts) (o_Access opts) (o_Growth opts)
       (o_TTLSec opts) (o_Version opts) (o_WindowSize opts) (o_Computed opts))) 0 (io_error io).
Proof using Sort Hnslots HmaxBuf HmaxRec Hmn.
  eapply done_performs; [intros m; reflexivity|]. intros ctx mgr pc Hc. unfold MemCreate. by rewrite (memName_get_ok _ _ _ _ Hc Hmn).
Qed.

Lemma MemDrop_ok app : performs (MemDrop mn app) io tenantID vs ns (DDrop (name_arg vs mn) tenantID app) 0 (io_error io).
Proof using Sort Hnslots HmaxBuf HmaxRec Hmn.
  eapply done_performs; [intros m; reflexivity|]. intros ctx mgr pc Hc. unfold MemDrop. by rewrite (memName_get_ok _ _ _ _ Hc Hmn).
Qed.

Lemma MemLoad_ok dataSlot : 0 <= dataSlot < 48 ->
  performs (MemLoad mn dataSlot) io tenantID vs ns (DAppendBatch (name_arg vs mn) (arg vs dataSlot [])) 0 (fun e => load_error (io_error io e)).
Proof using Sort Hnslots HmaxBuf HmaxRec Hmn.
  intros Hd ctx mgr d d' res pc Hc Hr Ho Hst. destruct (dc_step_zero _ mgr d d' res Hr Ho Hst) as (m' & E & Hr').
  apply done_err_inv in E as (e & E & ->). unfold MemLoad. rewrite (memName_get_ok _ _ _ _ Hc Hmn). cbn [obind].
  rewrite (read_slot_ok _ _ _ _ Hc Hd). cbn [obind]. unfold arg in E. rewrite (proj2 (Z.leb_le 0 dataSlot)) in E by lia. rewrite E. cbn [obind snd fst].
  destruct e as [e|]; [|by exists ctx, m', (i16 (pc + 1))]. destruct (memFail_ok ctx (load_error (io_error io e)) vs ns Hc) as (H1 & H2 & H3).
  by exists (memFail ctx (load_error (io_error io e))), m', StopPlan.
Qed.

(** The object text of named values. *)
Fixpoint object_fields (fields : list (byte_string * byte_string)) (first : bool) (buf : byte_string) : byte_string :=
  match fields with
  | [] => buf
  | (name, v) :: fields' =>
    object_fields fields' false ((if first then buf else buf ++ [44]) ++ [34] ++ name ++ [34; 58] ++ field_text v)
  end.

Definition object_text (fields : list (byte_string * byte_string)) : byte_string := object_fields fields true [123] ++ [125].

Lemma append_fields_ok ctx fs : holds (c_data ctx) vs ns -> Forall (fun p => 0 <= p.2 < 48) fs -> forall first buf,
  append_fields ctx fs first buf = Ret (object_fields ((fun p => (p.1, arg vs p.2 [])) <$> fs) first buf).
Proof.
  intros Hc. induction 1 as [|[name s] fs Hs _ IH]; intros first buf; cbn [append_fields fmap list_fmap object_fields]; [done|].
  cbn [snd fst] in *. rewrite (read_slot_ok _ _ _ _ Hc Hs). cbn [obind]. rewrite IH.
  assert (arg vs s [] = default [] (vs !! Z.to_nat s)) as -> by (unfold arg; by rewrite (proj2 (Z.leb_le 0 s)) by lia). done.
Qed.

Lemma MemAppend_ok fs : Forall (fun p => 0 <= p.2 < 48) fs ->
  performs (MemAppend mn fs) io tenantID vs ns (DAppendJSON (name_arg vs mn) (object_text ((fun p => (p.1, arg vs p.2 [])) <$> fs))) 0 (io_error io).
Proof using Sort Hnslots HmaxBuf HmaxRec Hmn.
  intros Hfs. eapply done_performs; [intros m; reflexivity|]. intros ctx mgr pc Hc. unfold MemAppend.
  rewrite (memName_get_ok _ _ _ _ Hc Hmn). cbn [obind]. by rewrite append_fields_ok.
Qed.

Lemma MemQuery_ok out : 0 <= out < 48 -> performs (MemQuery mn out) io tenantID vs ns (DQuery (name_arg vs mn)) out (io_error io).
Proof using Sort Hnslots HmaxBuf HmaxRec Hmn.
  intros Hout. apply (json_performs _ _ _ _ _ _ _ (fun R ser m => query_with ser m (name_arg vs mn)) Hout); [done| |].
  - intros R R' same ser ser' Hs m r. by apply query_same.
  - intros ctx mgr pc Hc. unfold MemQuery. by rewrite (memName_get_ok _ _ _ _ Hc Hmn).
Qed.

Lemma MemFilter_ok field op static valueSlot out : 0 <= out < 48 -> valueSlot < 48 ->
  performs (MemFilter mn field op static valueSlot out) io tenantID vs ns (DFilter (name_arg vs mn) field op (arg vs valueSlot static)) out (io_error io).
Proof using Sort Hnslots HmaxBuf HmaxRec Hmn.
  intros Hout Hv. apply (json_performs _ _ _ _ _ _ _ (fun R ser m => filter_with ser m (name_arg vs mn) field op (arg vs valueSlot static)) Hout); [done| |].
  - intros R R' same ser ser' Hs m r. by apply filter_same.
  - intros ctx mgr pc Hc. unfold MemFilter. rewrite (arg_ok _ _ _ _ _ Hc Hv). cbn [obind]. by rewrite (memName_get_ok _ _ _ _ Hc Hmn).
Qed.

Lemma MemSort_ok static fieldSlot desc : fieldSlot < 48 ->
  performs (MemSort mn static fieldSlot desc) io tenantID vs ns (DSort (name_arg vs mn) (arg vs fieldSlot static) desc) 0 (io_error io).
Proof using Sort Hnslots HmaxBuf HmaxRec Hmn.
  intros Hf. eapply done_performs; [intros m; reflexivity|]. intros ctx mgr pc Hc. unfold MemSort. rewrite (arg_ok _ _ _ _ _ Hc Hf). cbn [obind].
  by rewrite (memName_get_ok _ _ _ _ Hc Hmn).
Qed.

Lemma MemAggregate_ok field op out : 0 <= out < 48 ->
  performs (MemAggregate FormatFloat mn field op out) io tenantID vs ns (DAggregate (name_arg vs mn) field op) out (io_error io).
Proof using Sort Hnslots HmaxBuf HmaxRec Hmn.
  intros Hout ctx mgr d d' res pc Hc Hr Ho Hst. destruct (dc_step_zero _ mgr d d' res Hr Ho Hst) as (m' & E & Hr'). cbn [dc_step] in E.
  unfold MemAggregate. rewrite (memName_get_ok _ _ _ _ Hc Hmn). cbn [obind]. destruct (AggregateField _ _ _ _) as [r| |]; try done. cbn [obind] in *.
  injection E as <- <-. destruct r as [x|e]; cbn [effect_of].
  - pose proof (alloc_copy_ok (c_data ctx) (FormatFloat x) vs ns Hc) as Ha. destruct (alloc_copy _ _) as [c b]. destruct Ha as (_ & Hs & Hok & He & Hv & <-).
    destruct (put_result_ok ctx (mem c) b out vs ns Hc Hok He Hv Hout) as (ctx' & -> & Hc' & Hf). cbn [obind]. by exists ctx', mgr, (i16 (pc + 1)).
  - destruct (memFail_ok ctx (io_error io e) vs ns Hc) as (H1 & H2 & H3). by exists (memFail ctx (io_error io e)), mgr, StopPlan.
Qed.

Definition int_arg (idx dflt : Z) : Z := if 0 <=? idx then default 0 (ns !! Z.to_nat idx) else dflt.

Lemma MemTrimOldest_ok staticN nSlot : nSlot < 32 ->
  performs (MemTrimOldest mn staticN nSlot) io tenantID vs ns (DTrim (name_arg vs mn) (int_arg nSlot staticN)) 0 (io_error io).
Proof using Sort Hnslots HmaxBuf HmaxRec Hmn.
  intros Hn. eapply done_performs; [intros m; reflexivity|]. intros ctx mgr pc Hc. unfold MemTrimOldest, int_arg.
  assert ((if 0 <=? nSlot then GetInt (Context.slots (c_data ctx)) nSlot else Ret staticN) = Ret (if 0 <=? nSlot then default 0 (ns !! Z.to_nat nSlot) else staticN)) as ->.
  { destruct (Z.leb_spec 0 nSlot); [|done]. by apply (getint_rel (c_data ctx) (vs, ns)). }
  cbn [obind]. by rewrite (memName_get_ok _ _ _ _ Hc Hmn).
Qed.

End instructions.
