(* ===== verification/MemFlowSpec.v ===== *)
(** * Data-cache steps of a flow: the compiled flow

    A flow of [mem_*] steps, compiled to instructions over reused slots and run
    on a request context, does what its configuration says over named
    variables and an abstract data cache. *)

From S2P Require Import Prelude Bytes Float64 Cond Context ContextSpec ArenaBuf Request Flow SlotAlloc SlotAllocSpec DataCache DataCacheTable DataCacheSpec DataCacheRefine DataCacheReads DataCacheManagerSpec MemSteps MemStepsSpec.

Local Open Scope Z_scope.
Local Open Scope rah_scope.

(** ** The meaning of a configuration *)

Abbreviation env := (gmap byte_string byte_string).

Definition var (e : env) (n : byte_string) : byte_string := default [] (e !! n).

Definition name_of (e : env) (step : StepConfig) : byte_string :=
  match input step "collection_slot" with [] => input step "collection" | v => var e v end.

(** The value of the variable named by key [k], or a constant. *)
Definition var_or (e : env) (step : StepConfig) (k : string) (dflt : byte_string) : byte_string :=
  match input step k with [] => dflt | v => var e v end.

Definition number_of (step : StepConfig) (k : string) (dflt : Z) : Z :=
  match input step k with [] => dflt | v => (Atoi v).1 end.

Definition field_entries (m : string_map) : list (byte_string * byte_string) :=
  (fun p => (drop 6 p.1, p.2)) <$> base.filter (fun p => has_prefix p.1 (bytes_of "field.") = true) m.

Definition create_op (now tenantID : Z) (e : env) (step : StepConfig) : option dop :=
  match parseMemFields (Input step) with
  | inr _ => None
  | inl fields =>
    let capacity := number_of step "capacity" 1024 in
    let maxCap := if beq (input step "max_capacity") (bytes_of "0") then capacity else number_of step "max_capacity" capacity in
    let growth := if beq (input step "growth") (bytes_of "fixed") then GrowthFixed else GrowthAuto in
    let access := if beq (input step "access") (bytes_of "read_only") then AccessReadOnly else AccessReadWrite in
    Some (DCreate now (name_of e step) (mkOpts tenantID (input step "app") fields capacity maxCap access growth (number_of step "ttl_sec" 0) [] 0 []))
  end.

(** A JSON number or a quoted string without escapes. *)
Definition json_scalar (v : byte_string) : bool :=
  match v with
  | [] => false
  | 34 :: s =>
    match last s with
    | Some 34 => forallb (fun x => (32 <=? x) && negb (x =? 34) && negb (x =? 92)) (removelast s)
    | _ => false
    end
  | _ => forallb (fun x => is_digit x || bool_decide (x ∈ bytes_of "+-.eE")) v
  end.

(** The values of a [mem_append] enter its object as they are: they must be JSON
    scalars. *)
Definition scalars (e : env) (step : StepConfig) : bool :=
  negb (is_action step "mem_append") || forallb (fun p => json_scalar (var e p.2)) (field_entries (Input step)).

(** The data cache operation a step stands for. *)
Definition step_op (now tenantID : Z) (e : env) (ie : gmap byte_string Z) (step : StepConfig) : option dop :=
  let name := name_of e step in
  if is_action step "mem_create" then create_op now tenantID e step
  else if is_action step "mem_drop" then Some (DDrop name tenantID (input step "app"))
  else if is_action step "mem_load" then Some (DAppendBatch name (var e (input step "data_slot")))
  else if is_action step "mem_append" then
    Some (DAppendJSON name (object_text ((fun p => (p.1, var e p.2)) <$> field_entries (Input step))))
  else if is_action step "mem_query" then Some (DQuery name)
  else if is_action step "mem_filter" then
    Some (DFilter name (input step "field") (text_or (input step "op") "eq") (var_or e step "value_slot" (input step "value")))
  else if is_action step "mem_sort" then
    Some (DSort name (var_or e step "field_slot" (input step "field")) (beq (input step "desc") (bytes_of "true")))
  else if is_action step "mem_aggregate" then Some (DAggregate name (input step "field") (text_or (input step "op") "avg"))
  else if is_action step "mem_trim_oldest" then
    Some (DTrim name (match input step "n_slot" with [] => number_of step "n" 100 | v => default 0 (ie !! v) end))
  else None.

Definition error_text (io : StepIO) (step : StepConfig) (e : dcErr) : byte_string :=
  if is_action step "mem_load" then load_error (io_error io e) else io_error io e.

(** *** Variables of a step *)

Definition key_vars (step : StepConfig) (ks : list string) : list byte_string := non_empty (input step <$> ks).

Definition is_out (step : StepConfig) : bool :=
  is_action step "mem_query" || is_action step "mem_filter" || is_action step "mem_aggregate".

Definition writes (step : StepConfig) : list byte_string := if is_out step then [input step "output_slot"] else [].

Definition reads (step : StepConfig) : list byte_string :=
  key_vars step ["collection_slot"] ++
  (if is_action step "mem_load" then [input step "data_slot"]
   else if is_action step "mem_append" then (field_entries (Input step)).*2
   else if is_action step "mem_filter" then key_vars step ["value_slot"]
   else if is_action step "mem_sort" then key_vars step ["field_slot"]
   else []).

Definition int_reads (step : StepConfig) : list byte_string :=
  if is_action step "mem_trim_oldest" then key_vars step ["n_slot"] else [].

(** Every variable is bound or written before it is read; [I] are the bound
    integer variables. *)
Fixpoint defined_flow (D I : list byte_string) (flow : list StepConfig) : bool :=
  match flow with
  | [] => true
  | step :: flow' =>
    bool_decide (Forall (fun n => n ∈ D) (reads step)) && bool_decide (Forall (fun n => n ∈ I) (int_reads step)) &&
    defined_flow (writes step ++ D) I flow'
  end.

Definition defined_after (D : list byte_string) (flow : list StepConfig) : list byte_string :=
  foldl (fun D step => writes step ++ D) D flow.

Definition mem_actions : list string :=
  ["mem_create"; "mem_drop"; "mem_load"; "mem_append"; "mem_query"; "mem_filter"; "mem_sort"; "mem_aggregate"; "mem_trim_oldest"]%string.

(** A [mem_*] step that stops the flow on an error (the default, [fail]); the
    fields these steps do not use are empty. *)
Definition plain (step : StepConfig) : Prop :=
  Action step ∈ bytes_of <$> mem_actions /\ As step = [] /\ Variable_ step = [] /\ Destination step = [] /\ Source step = [] /\ KeyIdentifier step = [] /\ UrlVar step = [] /\
  Condition step = [] /\ Params step = [] /\ Value step = [] /\ Cases step = [] /\ OnError step ∈ [[]; bytes_of "fail"].

#[export] Instance plain_dec step : Decision (plain step).
Proof. unfold plain. apply _. Defined.

#[export] Instance field_ok_dec f : Decision (field_ok f).
Proof. unfold field_ok. destruct (Kind f); apply _. Defined.

#[export] Instance name_ok_dec n : Decision (name_ok n).
Proof. unfold name_ok. apply _. Defined.

#[export] Instance opts_ok_dec now o : Decision (opts_ok now o).
Proof. unfold opts_ok. apply _. Defined.

#[export] Instance op_ok_dec o : Decision (op_ok o).
Proof. destruct o; cbn; apply _. Defined.

(** *** Running a configuration *)

Section semantics.
Context {P : Platform} (FormatFloat : Z -> byte_string) (nslots maxBuf maxRec platBytes platSlots : Z).

(** The variables and the cache after a flow, and the error that stopped it.
    [None]: an operation outside the contract of the data cache, or a
    [mem_append] of something else than JSON scalars. *)
Fixpoint a_flow (tenantID : Z) (flow : list StepConfig) (ios : nat -> StepIO) (ie : gmap byte_string Z) (e : env) (d : adc)
  : option (env * adc * option byte_string) :=
  match flow with
  | [] => Some (e, d, None)
  | step :: flow' =>
    o ← step_op (io_now (ios O)) tenantID e ie step;
    if bool_decide (op_ok o) && scalars e step then
      r ← a_step nslots maxBuf maxRec platBytes platSlots o d;
      match effect_of FormatFloat (error_text (ios O) step) r.2 with
      | Continue => a_flow tenantID flow' (fun i => ios (S i)) ie e r.1
      | Store t => a_flow tenantID flow' (fun i => ios (S i)) ie (<[input step "output_slot" := t]> e) r.1
      | Stop t => Some (e, r.1, Some t)
      end
    else None
  end.

End semantics.

(** ** Compiling a step *)

(** A compile step keeps the slots in order, and what it returns fits every
    larger slot map. *)
Definition cok {A} (m : compile A) (Q : A -> gmap byte_string Z -> Prop) : Prop :=
  forall c a c', slots_inv c -> m c = inl (a, c') -> slots_inv c' /\ grows c c' /\ forall sm, slotMap c' ⊆ sm -> Q a sm.

Lemma cok_return {A} (a : A) (Q : A -> gmap byte_string Z -> Prop) : (forall sm, Q a sm) -> cok (creturn a) Q.
Proof. intros H c a' c' Hc [= <- <-]. split; [done|]. split; [by unfold grows|auto]. Qed.

Lemma cok_fail {A} (e : cErr) (Q : A -> gmap byte_string Z -> Prop) : cok (cfail e) Q.
Proof. by intros c a c' _ ?. Qed.

Lemma cok_bind {A B} (m : compile A) (k : A -> compile B) Q1 Q2 :
  cok m Q1 -> (forall a, cok (k a) (fun b sm => Q1 a sm -> Q2 b sm)) -> cok (cbind m k) Q2.
Proof.
  intros Hm Hk c b c' Hc. unfold cbind. destruct (m c) as [[a c1]|] eqn:E; [|done]. intros E'.
  destruct (Hm _ _ _ Hc E) as (Hc1 & Hg1 & Hq1). destruct (Hk a _ _ _ Hc1 E') as (Hc2 & Hg2 & Hq2). split; [done|].
  split; [unfold grows in *; by etrans|]. intros sm Hsm. apply Hq2; [done|]. apply Hq1. unfold grows in Hg2. by etrans.
Qed.

Lemma cok_weaken {A} (m : compile A) (Q Q' : A -> gmap byte_string Z -> Prop) : cok m Q -> (forall a sm, Q a sm -> Q' a sm) -> cok m Q'.
Proof. intros Hm HQ c a c' Hc E. destruct (Hm _ _ _ Hc E) as (H1 & H2 & H3). split; [done|]. split; [done|]. auto. Qed.

(** The slot of a variable. *)
Definition has_slot (sm : gmap byte_string Z) (n : byte_string) (idx : Z) : Prop := sm !! n = Some idx /\ 0 <= idx < 48.

Lemma slot_cok n : cok (claim_slot n) (fun idx sm => has_slot sm n idx).
Proof.
  intros c idx c' Hc. unfold claim_slot. destruct (getSlot c n) as [[i c1]|] eqn:E; [|done]. intros [= <- <-].
  destruct (getSlot_ok c n i c1 Hc E) as (Hc1 & Hg & Hl). split; [done|]. split; [done|]. intros sm Hsm. split; [by eapply lookup_weaken|].
  pose proof (si_used _ Hc1 _ _ Hl). pose proof (si_next _ Hc1). lia.
Qed.

Definition opt_slot (sm : gmap byte_string Z) (n : byte_string) (idx : Z) : Prop :=
  match n with [] => idx = -1 | _ => has_slot sm n idx end.

Lemma slot_or_none_cok step k : cok (slot_or_none step k) (fun idx sm => opt_slot sm (input step k) idx).
Proof. unfold slot_or_none, opt_slot. destruct (input step k) eqn:E; [by apply cok_return|]. apply slot_cok. Qed.

Lemma required_slot_cok step k : cok (required_slot step k) (fun idx sm => has_slot sm (input step k) idx).
Proof. unfold required_slot. destruct (input step k) eqn:E; [apply cok_fail|]. rewrite <- E. apply slot_cok. Qed.

Definition name_slot (sm : gmap byte_string Z) (step : StepConfig) (mn : memName) : Prop :=
  match input step "collection_slot" with
  | [] => mn = mkMemName (input step "collection") (-1)
  | v => static mn = [] /\ has_slot sm v (slotIdx mn)
  end.

Lemma resolveMemName_cok step : cok (resolveMemName step) (fun mn sm => name_slot sm step mn).
Proof.
  unfold resolveMemName, name_slot. destruct (input step "collection_slot") as [|x v] eqn:E.
  - destruct (input step "collection") eqn:E'; [apply cok_fail|by apply cok_return].
  - eapply cok_bind; [apply slot_cok|]. intros idx. apply cok_return. by intros sm ?.
Qed.

Lemma number_or_cok step k dflt : cok (number_or step k dflt) (fun n _ => n = number_of step k dflt).
Proof.
  unfold number_or, number_of. destruct (input step k) as [|x v]; [by apply cok_return|]. destruct (Atoi (x :: v)) as [n []]; [by apply cok_return|apply cok_fail].
Qed.

Lemma from_sum_cok {A} (x : A + cErr) : cok (from_sum x) (fun a _ => x = inl a).
Proof. destruct x; [by apply cok_return|apply cok_fail]. Qed.

Lemma field_slots_cok m : cok (field_slots m) (fun fs sm => Forall2 (fun p q => p.1 = q.1 /\ has_slot sm p.2 q.2) (field_entries m) fs).
Proof.
  induction m as [|[k v] m IH]; cbn [field_slots]; [apply cok_return; by constructor|]. unfold field_entries. rewrite filter_cons. cbn [fst].
  destruct (has_prefix k (bytes_of "field.")) eqn:E; cbn [negb].
  - rewrite decide_True by done. cbn [fmap list_fmap fst snd]. eapply cok_bind; [apply slot_cok|]. intros s.
    eapply cok_bind; [exact IH|]. intros rest. apply cok_return. intros sm H1 H2. by constructor.
  - rewrite decide_False by done. exact IH.
Qed.

(** *** What the slots hold *)

Definition sees (sm : gmap byte_string Z) (vs : list byte_string) (e : env) (names : list byte_string) : Prop :=
  forall n idx, n ∈ names -> sm !! n = Some idx -> default [] (vs !! Z.to_nat idx) = var e n.

Definition isees (sm : gmap byte_string Z) (ns : list Z) (ie : gmap byte_string Z) (names : list byte_string) : Prop :=
  forall n idx, n ∈ names -> sm !! n = Some idx -> idx < 32 /\ default 0 (ns !! Z.to_nat idx) = default 0 (ie !! n).

Lemma sees_arg sm vs e names n idx dflt : sees sm vs e names -> n ∈ names -> has_slot sm n idx -> arg vs idx dflt = var e n.
Proof. intros Hs Hn [Hl Hi]. unfold arg. rewrite (proj2 (Z.leb_le 0 idx)) by lia. by apply Hs. Qed.

Lemma key_vars_in step k : input step k <> [] -> input step k ∈ key_vars step [k].
Proof. intros H. unfold key_vars, non_empty. cbn [fmap list_fmap]. rewrite filter_cons, decide_True by done. by left. Qed.

Lemma sees_opt sm vs e names step k idx dflt : sees sm vs e names -> (forall n, n ∈ key_vars step [k] -> n ∈ names) ->
  opt_slot sm (input step k) idx -> arg vs idx dflt = var_or e step k dflt /\ idx < 48.
Proof.
  intros Hs Hn. unfold opt_slot, var_or. pose proof (key_vars_in step k) as Hk. destruct (input step k) as [|x v]; [by intros ->|].
  intros Hi. split; [|destruct Hi; lia]. eapply sees_arg; [done|by apply Hn, Hk|done].
Qed.

Lemma sees_name sm vs e names step mn : sees sm vs e names -> (forall n, n ∈ key_vars step ["collection_slot"] -> n ∈ names) ->
  name_slot sm step mn -> name_arg vs mn = name_of e step /\ name_slot_ok mn.
Proof.
  intros Hs Hn. unfold name_slot, name_of, name_arg, name_slot_ok. pose proof (key_vars_in step "collection_slot") as Hk.
  destruct (input step "collection_slot") as [|x v]; [by intros ->|]. intros [Hst Hi]. split; [|destruct Hi; lia].
  eapply sees_arg; [done|by apply Hn, Hk|done].
Qed.

Lemma sees_fields sm vs e names (ps : list (byte_string * byte_string)) (fs : list (byte_string * Z)) : sees sm vs e names -> (forall n, n ∈ ps.*2 -> n ∈ names) ->
  Forall2 (fun p q => p.1 = q.1 /\ has_slot sm p.2 q.2) ps fs ->
  (fun p => (p.1, var e p.2)) <$> ps = (fun p => (p.1, arg vs p.2 [])) <$> fs.
Proof.
  intros Hs Hn. induction 1 as [|[n v] [n' s] ps fs [E Hsl] _ IH]; [done|]. cbn [fmap list_fmap fst snd] in *.
  rewrite IH by (intros m Hm; apply Hn; by right). f_equal. rewrite E. f_equal. symmetry. eapply sees_arg; [done| |done]. apply Hn. by left.
Qed.

(** ** Every compiled step performs its operation *)

(** Decides which action the step is. *)
Ltac known_action Ha :=
  unfold step_op, reads, int_reads, is_out, error_text, is_action; rewrite Ha;
  repeat match goal with
  | |- context [beq (bytes_of ?a) (bytes_of ?b)] =>
    let v := eval vm_compute in (beq (bytes_of a) (bytes_of b)) in change (beq (bytes_of a) (bytes_of b)) with v
  end; cbn [orb].

Section compiled.
Context {P : Platform} {Sort : SliceSort P} (FormatFloat : Z -> byte_string).
Context (nslots maxBuf maxRec platBytes platSlots : Z).
Context (Hnslots : 0 <= nslots <= 256) (HmaxBuf : 0 <= maxBuf < 2 ^ 31) (HmaxRec : maxRec < 2 ^ 31).

Abbreviation astep := (a_step nslots maxBuf maxRec platBytes platSlots).

(** Operations that store nothing. *)
Definition reports (o : dop) : Prop := forall d d' r, astep o d = Some (d', r) -> exists x, r = RErr x.

Definition stores (o : dop) : Prop := forall d d' r, astep o d = Some (d', r) -> match r with RJson _ | RNum _ => True | _ => False end.

Lemma stores_ops o : match o with DQuery _ | DFilter _ _ _ _ | DAggregate _ _ _ => stores o | _ => True end.
Proof.
  destruct o; try exact I; intros d d' r; cbn [a_step]; repeat case_match; rewrite ?bind_Some; intros Hst;
    repeat match type of Hst with ex _ => destruct Hst as (? & _ & Hst) end; by simplify_eq.
Qed.

Lemma reports_ops o : match o with DQuery _ | DFilter _ _ _ _ | DAggregate _ _ _ | DUsage _ _ => True | _ => reports o end.
Proof.
  destruct o; try exact I; intros d d' r; cbn [a_step]; unfold ret_err; repeat case_match; rewrite ?bind_Some; intros Hst;
    repeat match type of Hst with ex _ => destruct Hst as (? & _ & Hst) end; injection Hst as <- <-; by eexists.
Qed.

Definition step_code (step : StepConfig) (code : list MemFunc) (sm : gmap byte_string Z) : Prop :=
  exists f, code = [f] /\
    forall io tenantID e ie vs ns, sees sm vs e (reads step) -> isees sm ns ie (int_reads step) ->
    exists o out, step_op (io_now io) tenantID e ie step = Some o /\
      (if is_out step then has_slot sm (input step "output_slot") out /\ stores o else reports o) /\
      performs FormatFloat nslots maxBuf maxRec platBytes platSlots f io tenantID vs ns o out (error_text io step).

Lemma create_code step : Action step = bytes_of "mem_create" -> cok (compileMemCreate step) (step_code step).
Proof using Sort Hnslots HmaxBuf HmaxRec.
  intros Ha. unfold compileMemCreate. eapply cok_bind; [apply resolveMemName_cok|]. intros mn.
  eapply cok_bind; [apply from_sum_cok|]. intros fields. eapply cok_bind; [apply number_or_cok|]. intros cap.
  eapply cok_bind; [instantiate (1 := fun m _ => m = if beq (input step "max_capacity") (bytes_of "0") then cap else number_of step "max_capacity" cap);
    destruct (beq _ _); [by apply cok_return|apply number_or_cok]|]. intros maxCap. apply cok_return.
  intros sm -> Hcap Hf Hmn. unfold step_code. known_action Ha. eexists. split; [reflexivity|]. intros io tenantID e ie vs ns Hs _.
  destruct (sees_name _ _ _ _ step mn Hs) as [Hname Hok]; [intros n; rewrite app_nil_r; done|done|]. unfold create_op. rewrite Hf, <- Hcap.
  eexists _, 0. split; [reflexivity|]. split; [exact (reports_ops (DCreate _ _ _))|]. rewrite <- Hname.
  exact (MemCreate_ok FormatFloat _ _ _ _ _ Hnslots HmaxBuf HmaxRec io tenantID vs ns mn Hok (mkOpts 0 [] fields cap _ _ _ _ [] 0 []) _).
Qed.

Lemma drop_code step : Action step = bytes_of "mem_drop" -> cok (compileMemDrop step) (step_code step).
Proof using Sort Hnslots HmaxBuf HmaxRec.
  intros Ha. unfold compileMemDrop. eapply cok_bind; [apply resolveMemName_cok|]. intros mn. apply cok_return. intros sm Hmn.
  unfold step_code. known_action Ha. eexists. split; [reflexivity|]. intros io tenantID e ie vs ns Hs _.
  destruct (sees_name _ _ _ _ step mn Hs) as [Hname Hok]; [intros n; rewrite app_nil_r; done|done|].
  eexists _, 0. split; [reflexivity|]. split; [exact (reports_ops (DDrop _ _ _))|]. rewrite <- Hname. by apply MemDrop_ok.
Qed.

Lemma load_code step : Action step = bytes_of "mem_load" -> cok (compileMemLoad step) (step_code step).
Proof using Sort Hnslots HmaxBuf HmaxRec.
  intros Ha. unfold compileMemLoad. eapply cok_bind; [apply resolveMemName_cok|]. intros mn. eapply cok_bind; [apply required_slot_cok|]. intros s.
  apply cok_return. intros sm Hslot Hmn. unfold step_code. known_action Ha. eexists. split; [reflexivity|]. intros io tenantID e ie vs ns Hs _.
  destruct (sees_name _ _ _ _ step mn Hs) as [Hname Hok]; [intros n Hn; apply elem_of_app; by left|done|].
  eexists _, 0. split; [reflexivity|]. split; [exact (reports_ops (DAppendBatch _ _))|]. rewrite <- Hname.
  erewrite <- (sees_arg _ _ _ _ _ s [] Hs); [|apply elem_of_app; right; by left|done]. apply MemLoad_ok; try done. by destruct Hslot.
Qed.

Lemma append_code step : Action step = bytes_of "mem_append" -> cok (compileMemAppend step) (step_code step).
Proof using Sort Hnslots HmaxBuf HmaxRec.
  intros Ha. unfold compileMemAppend. eapply cok_bind; [apply resolveMemName_cok|]. intros mn. eapply cok_bind; [apply field_slots_cok|]. intros fs.
  apply cok_return. intros sm Hfs Hmn. unfold step_code. known_action Ha. eexists. split; [reflexivity|]. intros io tenantID e ie vs ns Hs _.
  destruct (sees_name _ _ _ _ step mn Hs) as [Hname Hok]; [intros n Hn; apply elem_of_app; by left|done|].
  eexists _, 0. split; [reflexivity|]. split; [exact (reports_ops (DAppendJSON _ _))|]. rewrite <- Hname.
  rewrite (sees_fields sm vs e _ _ _ Hs (fun n Hn => proj2 (elem_of_app _ _ n) (or_intror Hn)) Hfs).
  apply MemAppend_ok; try done. clear Hs. induction Hfs as [|p q ps qs [_ [_ ?]] _ IH]; by constructor.
Qed.

Lemma query_code step : Action step = bytes_of "mem_query" -> cok (compileMemQuery step) (step_code step).
Proof using Sort Hnslots HmaxBuf HmaxRec.
  intros Ha. unfold compileMemQuery. eapply cok_bind; [apply resolveMemName_cok|]. intros mn. eapply cok_bind; [apply required_slot_cok|]. intros out.
  apply cok_return. intros sm Hout Hmn. unfold step_code. known_action Ha. eexists. split; [reflexivity|]. intros io tenantID e ie vs ns Hs _.
  destruct (sees_name _ _ _ _ step mn Hs) as [Hname Hok]; [intros n; rewrite app_nil_r; done|done|].
  eexists _, out. split; [reflexivity|]. split; [split; [done|exact (stores_ops (DQuery _))]|]. rewrite <- Hname. apply MemQuery_ok; try done. by destruct Hout.
Qed.

Lemma filter_code step : Action step = bytes_of "mem_filter" -> cok (compileMemFilter step) (step_code step).
Proof using Sort Hnslots HmaxBuf HmaxRec.
  intros Ha. unfold compileMemFilter. eapply cok_bind; [apply resolveMemName_cok|]. intros mn.
  eapply cok_bind; [instantiate (1 := fun v _ => v = input step "field"); destruct (input step "field") eqn:Ef; [apply cok_fail|by apply cok_return]|]. intros field.
  eapply cok_bind; [apply required_slot_cok|]. intros out. eapply cok_bind; [apply slot_or_none_cok|]. intros vslot. apply cok_return.
  intros sm Hv Hout -> Hmn. unfold step_code. known_action Ha. eexists. split; [reflexivity|]. intros io tenantID e ie vs ns Hs _.
  destruct (sees_name _ _ _ _ step mn Hs) as [Hname Hok]; [intros n Hn; apply elem_of_app; by left|done|].
  destruct (sees_opt _ _ _ _ step "value_slot" vslot (input step "value") Hs) as [Hval Hvs]; [intros n Hn; apply elem_of_app; by right|done|].
  eexists _, out. split; [reflexivity|]. split; [split; [done|exact (stores_ops (DFilter _ _ _ _))]|]. rewrite <- Hname, <- Hval. apply MemFilter_ok; try done. by destruct Hout.
Qed.

Lemma sort_code step : Action step = bytes_of "mem_sort" -> cok (compileMemSort step) (step_code step).
Proof using Sort Hnslots HmaxBuf HmaxRec.
  intros Ha. unfold compileMemSort. eapply cok_bind; [apply resolveMemName_cok|]. intros mn. eapply cok_bind; [apply slot_or_none_cok|]. intros fslot.
  destruct (_ && _); [apply cok_fail|]. apply cok_return. intros sm Hf Hmn. unfold step_code. known_action Ha. eexists. split; [reflexivity|].
  intros io tenantID e ie vs ns Hs _. destruct (sees_name _ _ _ _ step mn Hs) as [Hname Hok]; [intros n Hn; apply elem_of_app; by left|done|].
  destruct (sees_opt _ _ _ _ step "field_slot" fslot (input step "field") Hs) as [Hval Hvs]; [intros n Hn; apply elem_of_app; by right|done|].
  eexists _, 0. split; [reflexivity|]. split; [exact (reports_ops (DSort _ _ _))|]. rewrite <- Hname, <- Hval. by apply MemSort_ok.
Qed.

Lemma aggregate_code step : Action step = bytes_of "mem_aggregate" -> cok (compileMemAggregate FormatFloat step) (step_code step).
Proof using Sort Hnslots HmaxBuf HmaxRec.
  intros Ha. unfold compileMemAggregate. eapply cok_bind; [apply resolveMemName_cok|]. intros mn. eapply cok_bind; [apply required_slot_cok|]. intros out.
  apply cok_return. intros sm Hout Hmn. unfold step_code. known_action Ha. eexists. split; [reflexivity|]. intros io tenantID e ie vs ns Hs _.
  destruct (sees_name _ _ _ _ step mn Hs) as [Hname Hok]; [intros n; rewrite app_nil_r; done|done|].
  eexists _, out. split; [reflexivity|]. split; [split; [done|exact (stores_ops (DAggregate _ _ _))]|]. rewrite <- Hname. apply MemAggregate_ok; try done. by destruct Hout.
Qed.

Lemma trim_code step : Action step = bytes_of "mem_trim_oldest" -> cok (compileMemTrimOldest step) (step_code step).
Proof using Sort Hnslots HmaxBuf HmaxRec.
  intros Ha. unfold compileMemTrimOldest. eapply cok_bind; [apply resolveMemName_cok|]. intros mn. eapply cok_bind; [apply number_or_cok|]. intros n.
  eapply cok_bind; [exact (slot_or_none_cok step "n_slot")|]. intros nslot. apply cok_return. intros sm Hn -> Hmn. unfold step_code. known_action Ha.
  eexists. split; [reflexivity|]. intros io tenantID e ie vs ns Hs Hi.
  destruct (sees_name _ _ _ _ step mn Hs) as [Hname Hok]; [intros x; rewrite app_nil_r; done|done|].
  assert (int_arg ns nslot (number_of step "n" 100) = match input step "n_slot" with [] => number_of step "n" 100 | v => default 0 (ie !! v) end /\ nslot < 32) as [Hint Hlt].
  { unfold opt_slot in Hn. pose proof (key_vars_in step "n_slot") as Hk. destruct (input step "n_slot") as [|x v]; [by subst nslot|].
    destruct Hn as [Hl Hb]. destruct (Hi _ _ (Hk ltac:(done)) Hl) as [H32 Hval]. split; [|done]. unfold int_arg. by rewrite (proj2 (Z.leb_le 0 nslot)) by lia. }
  eexists _, 0. split; [reflexivity|]. split; [exact (reports_ops (DTrim _ _))|]. rewrite <- Hname, <- Hint. by apply MemTrimOldest_ok.
Qed.

Lemma is_action_true step a : is_action step a = true -> Action step = bytes_of a.
Proof. unfold is_action, beq. by intros H%bool_decide_eq_true. Qed.

Lemma compile_code configured step : cok (compileMemStep FormatFloat configured step) (step_code step).
Proof using Sort Hnslots HmaxBuf HmaxRec.
  unfold compileMemStep. destruct configured.
  - repeat match goal with |- cok (if is_action ?s ?a then _ else _) _ =>
      let E := fresh "E" in destruct (is_action s a) eqn:E; [apply is_action_true in E|clear E] end;
      [by apply create_code|by apply drop_code|by apply load_code|by apply append_code|by apply query_code|by apply filter_code|by apply sort_code
      |by apply aggregate_code|by apply trim_code|apply cok_fail].
  - repeat (destruct (is_action _ _); [apply cok_fail|]). apply cok_fail.
Qed.

Lemma compile_step_code configured step c c' code : slots_inv c -> compile_step FormatFloat configured step c = inl (c', code) ->
  slots_inv c' /\ grows c c' /\ step_code step code (slotMap c').
Proof using Sort Hnslots HmaxBuf HmaxRec.
  intros Hc. unfold compile_step. destruct (compileMemStep _ _ _ _) as [[code0 c0]|] eqn:E; [|done]. intros [= <- <-].
  destruct (compile_code configured step c code0 c0 Hc E) as (H1 & H2 & H3). auto.
Qed.

End compiled.
