(* ===== verification/MemFlowClaims.v ===== *)
(** * Data-cache steps of a flow: what a compiled flow promises

    The simulation for whole flows, with slots reused after the last mention of
    a variable, an example, and configurations where the slot allocation or
    the steps depart from their documentation. *)

From S2P Require Import Prelude Bytes Float64 Cond Context ContextSpec ArenaBuf Request Flow SlotAlloc SlotAllocSpec DataCache DataCacheTable DataCacheSpec DataCacheRefine DataCacheReads DataCacheManagerSpec DataCacheClaims MemSteps MemStepsSpec MemFlowSpec.

Local Open Scope Z_scope.
Local Open Scope rah_scope.

(** ** No variable is released before its last use *)

Definition uses (step : StepConfig) : list byte_string := reads step ++ int_reads step ++ writes step.

Lemma map_get_in m k : map_get m k = [] \/ map_get m k ∈ m.*2.
Proof.
  induction m as [|[k' v] m IH]; cbn [map_get]; [by left|]. destruct (beq k k'); [right; by left|]. destruct IH as [?|?]; [by left|right; by right].
Qed.

Lemma key_vars_input step ks n : n ∈ key_vars step ks -> n ∈ (Input step).*2.
Proof.
  unfold key_vars, non_empty. intros [Hn (k & -> & _)%list_elem_of_fmap]%list_elem_of_filter. unfold input in *.
  by destruct (map_get_in (Input step) (bytes_of k)).
Qed.

Lemma uses_input step n : n ∈ uses step -> n = [] \/ n ∈ (Input step).*2.
Proof.
  assert (forall k, n ∈ [input step k] -> n = [] \/ n ∈ (Input step).*2) as Hone by (intros k ->%list_elem_of_singleton; apply map_get_in).
  unfold uses, reads, int_reads, writes. rewrite !elem_of_app. intros [[H|H]|[H|H]].
  - right. by eapply key_vars_input.
  - repeat case_match; try (right; by eapply key_vars_input); [by eapply Hone| |by apply not_elem_of_nil in H].
    right. unfold field_entries in H. apply list_elem_of_fmap in H as ([a b] & -> & H). apply list_elem_of_fmap in H as ([k v] & [= -> ->] & [_ H]%list_elem_of_filter).
    apply list_elem_of_fmap. by exists (k, v).
  - case_match; [right; by eapply key_vars_input|by apply not_elem_of_nil in H].
  - case_match; [by eapply Hone|by apply not_elem_of_nil in H].
Qed.

Lemma plain_refs step : plain step -> varRefsInStep step = (Input step).*2 ≫= input_refs.
Proof.
  intros (_ & H1 & H2 & H3 & H4 & H5 & H6 & H7 & H8 & H9 & _). unfold varRefsInStep. rewrite H1, H2, H3, H4, H5, H6, H7, H8, H9.
  change (non_empty [[]; []; []; []; []; []; []]) with (@nil byte_string). change (Flow.Fields [] ≫= cond_tok_refs) with (@nil byte_string).
  cbn [mbind list_bind app length template_refs]. by rewrite app_nil_r.
Qed.

Lemma plain_mentions frags step n : plain step -> step_mentions frags step n -> n ∈ varRefsInStep step.
Proof.
  intros [Ha _]. unfold step_mentions, is_action. apply list_elem_of_fmap in Ha as (a & -> & Ha). unfold mem_actions in Ha.
  repeat (apply elem_of_cons in Ha as [->|Ha]; [intros [?|[[H _]|[[H _]|[H _]]]]; [done|vm_compute in H; done..]|]). by apply not_elem_of_nil in Ha.
Qed.

Lemma live_at_use frags pre post lastUse : computeLastUse frags (pre ++ post) = Ret lastUse -> Forall plain pre ->
  forall (j : nat) step n k, pre !! j = Some step -> n ∈ uses step -> lastUse !! n = Some k -> Z.of_nat j <= k.
Proof.
  intros Hlu Hp j step n k Hj Hn Hk. destruct (computeLastUse_ok frags (pre ++ post)) as (lu & E & Hex). rewrite Hlu in E. injection E as <-.
  apply Hex in Hk as [(s & Hk0 & Hs & Hm) Hno]. destruct (Z.le_gt_cases (Z.of_nat j) k) as [|Hlt]; [done|]. exfalso. apply (Hno (Z.of_nat j)); [done|].
  pose proof (lookup_lt_Some _ _ _ Hj). rewrite lookup_app_l in Hs by lia. rewrite Forall_forall in Hp.
  pose proof (plain_mentions frags s n (Hp s (list_elem_of_lookup_2 _ _ _ Hs)) Hm) as Hr. rewrite (plain_refs s (Hp s (list_elem_of_lookup_2 _ _ _ Hs))) in Hr.
  apply list_elem_of_bind in Hr as (v & Hr & _). apply var_refs_names in Hr. exists step. rewrite Nat2Z.id. split; [lia|]. split; [by rewrite lookup_app_l|].
  left. rewrite (plain_refs step (Hp step (list_elem_of_lookup_2 _ _ _ Hj))). apply list_elem_of_bind. exists n. split; [by apply var_refs_self|].
  destruct (uses_input step n Hn) as [->|?]; [|done]. by destruct Hr.
Qed.

(** ** Running a compiled flow *)

Section run.
Context {P : Platform} {Sort : SliceSort P} (FormatFloat : Z -> byte_string).
Context (nslots maxBuf maxRec platBytes platSlots : Z).
Context (Hnslots : 0 <= nslots <= 256) (HmaxBuf : 0 <= maxBuf < 2 ^ 31) (HmaxRec : maxRec < 2 ^ 31).
Context (configured : bool) (visits : gmap byte_string Z -> Z -> list (byte_string * Z)) (lastUse : gmap byte_string Z).
Context (Hvisits : forall i, visits lastUse i ≡ₚ map_to_list lastUse).
Context (tenantID : Z) (ie : gmap byte_string Z) (ns : list Z) (I : list byte_string).

Abbreviation rel := (dc_rel nslots maxBuf maxRec platBytes platSlots).

(** The last use of [n] is not before step [i]. *)
Definition lives (i : Z) (n : byte_string) : Prop := forall k, lastUse !! n = Some k -> i <= k.

(** The variables that are still needed are in their slots. *)
Record tracks (i : Z) (c : Compiler) (vs : list byte_string) (e : env) (D : list byte_string) : Prop := mkTracks {
  tr_vars : forall n, n ∈ D -> lives i n -> exists idx, slotMap c !! n = Some idx /\ default [] (vs !! Z.to_nat idx) = var e n;
  tr_ints : forall n, n ∈ I -> lives i n -> exists idx, slotMap c !! n = Some idx /\ idx < 32 /\ default 0 (ns !! Z.to_nat idx) = default 0 (ie !! n)
}.

Lemma holds_length c vs : holds c vs ns -> length vs = 48%nat.
Proof. intros (Hc & Hv & _). cbn in Hv. subst vs. unfold values. rewrite length_fmap. apply (so_bytes _ _ (proj2 Hc)). Qed.

(** The variables a step reads are in the slots it was compiled to. *)
Lemma tracks_sees i c c1 vs e D step : tracks i c vs e D -> grows c c1 -> Forall (fun n => n ∈ D) (reads step) -> Forall (fun n => n ∈ I) (int_reads step) ->
  (forall n, n ∈ uses step -> lives i n) -> sees (slotMap c1) vs e (reads step) /\ isees (slotMap c1) ns ie (int_reads step).
Proof.
  intros [Hv Hi] Hg Hr Hir Hl. rewrite Forall_forall in Hr, Hir. unfold uses in Hl. unfold grows in Hg. split.
  - intros n idx Hn Hidx. destruct (Hv n (Hr n Hn)) as (idx' & Hidx' & Hval); [apply Hl, elem_of_app; by left|].
    apply (lookup_weaken _ _ _ _ Hidx') in Hg. rewrite Hg in Hidx. by simplify_eq.
  - intros n idx Hn Hidx. destruct (Hi n (Hir n Hn)) as (idx' & Hidx' & Hval); [apply Hl, elem_of_app; right; apply elem_of_app; by left|].
    apply (lookup_weaken _ _ _ _ Hidx') in Hg. rewrite Hg in Hidx. by simplify_eq.
Qed.

(** After the step its dead slots are released; the others stay. *)
Lemma release_keeps i c n idx : slots_inv c -> slotMap c !! n = Some idx -> lives (i + 1) n ->
  slotMap (releaseDeadSlots i (visits lastUse i) c) !! n = Some idx.
Proof using Hvisits.
  intros Hc Hn Hl. destruct (releaseDeadSlots_ok i (visits lastUse i) c Hc) as (_ & _ & Hk). apply Hk; [done|]. rewrite Hvisits.
  intros Hin%elem_of_map_to_list. specialize (Hl i Hin). lia.
Qed.

Lemma lives_le i n : lives (i + 1) n -> lives i n.
Proof. intros H k Hk. specialize (H k Hk). lia. Qed.

Lemma tracks_next i c c1 vs e D : slots_inv c1 -> tracks i c vs e D -> grows c c1 -> tracks (i + 1) (releaseDeadSlots i (visits lastUse i) c1) vs e D.
Proof using Hvisits.
  intros Hc1 [Hv Hi] Hg. unfold grows in Hg. split.
  - intros n Hn Hl. destruct (Hv n Hn (lives_le _ _ Hl)) as (idx & Hidx & Hval). exists idx. split; [|done]. apply release_keeps; [done| |done]. by eapply lookup_weaken.
  - intros n Hn Hl. destruct (Hi n Hn (lives_le _ _ Hl)) as (idx & Hidx & Hval). exists idx. split; [|done]. apply release_keeps; [done| |done]. by eapply lookup_weaken.
Qed.

Lemma tracks_store i c c1 vs e D out idx t : slots_inv c1 -> tracks i c vs e D -> grows c c1 -> length vs = 48%nat -> has_slot (slotMap c1) out idx ->
  tracks (i + 1) (releaseDeadSlots i (visits lastUse i) c1) (<[Z.to_nat idx := t]> vs) (<[out := t]> e) (out :: D).
Proof using Hvisits.
  intros Hc1 [Hv Hi] Hg Hlen [Hout Hidx]. unfold grows in Hg. split.
  - intros n Hn Hl. unfold var. destruct (decide (n = out)) as [->|Hne].
    + exists idx. split; [by apply release_keeps|]. rewrite lookup_insert_eq, list_lookup_insert_eq by lia. done.
    + apply elem_of_cons in Hn as [?|Hn]; [done|]. destruct (Hv n Hn (lives_le _ _ Hl)) as (idx' & Hidx' & Hval).
      pose proof (lookup_weaken _ _ _ _ Hidx' Hg) as H1. exists idx'. split; [by apply release_keeps|]. rewrite lookup_insert_ne by done.
      rewrite list_lookup_insert_ne; [done|]. intros E. apply Hne. apply (si_inj _ Hc1 _ _ idx'); [done|]. pose proof (si_used _ Hc1 _ _ H1).
      replace idx' with idx by lia. done.
  - intros n Hn Hl. destruct (Hi n Hn (lives_le _ _ Hl)) as (idx' & Hidx' & Hval). exists idx'. split; [|done]. apply release_keeps; [done| |done]. by eapply lookup_weaken.
Qed.

(** What is left at the end of a flow. *)
Definition flow_end (i : Z) (c : Compiler) (e : env) (D : list byte_string) (err : option byte_string) (failed : bool) (ctx : Ctx) : Prop :=
  match err with
  | None => Failed ctx = failed /\ exists vs, holds (c_data ctx) vs ns /\ tracks i c vs e D
  | Some t => Failed ctx = true /\ exists s, ErrorMsg ctx = Some s /\ read (mem (c_data ctx)) s = t
  end.

(** One turn of the loop. *)
Lemma run_turn fuel (T : list (Z * MemFunc)) k f rest ios ctx mgr (pc : nat) ctx' mgr' pc' :
  Z.of_nat (length T) < 2 ^ 15 -> drop pc T = (k, f) :: rest -> f (ios 0%nat) tenantID ctx mgr (Z.of_nat pc) = Ret (ctx', mgr', pc') ->
  run_table (S fuel) T ios tenantID ctx mgr (Z.of_nat pc) =
  if pc' =? StopPlan then Ret (ctx', mgr') else run_table fuel T (fun i => ios (S i)) tenantID ctx' mgr' pc'.
Proof.
  intros HT Hd Hf. assert (T !! pc = Some (k, f)) as Hl by (rewrite <- (Nat.add_0_r pc), <- lookup_drop, Hd; done).
  pose proof (lookup_lt_Some _ _ _ Hl) as Hlt. cbn [run_table]. rewrite wraps_small by lia.
  rewrite (proj2 (Z.leb_le 0 _)), (proj2 (Z.ltb_lt (Z.of_nat pc) _)) by lia. cbn [andb]. rewrite (go_index_nat _ _ _ Hl). cbn [obind snd]. by rewrite Hf.
Qed.

Lemma run_done fuel (T : list (Z * MemFunc)) ios ctx mgr (pc : nat) : Z.of_nat (length T) < 2 ^ 15 -> drop pc T = [] ->
  run_table (S fuel) T ios tenantID ctx mgr (Z.of_nat pc) = Ret (ctx, mgr).
Proof.
  intros HT Hd. assert (length T <= pc)%nat by (apply (f_equal length) in Hd; rewrite length_drop in Hd; cbn in Hd; lia).
  cbn [run_table]. rewrite wraps_small by lia. rewrite (proj2 (Z.ltb_ge (Z.of_nat pc) _)) by lia. by rewrite andb_false_r.
Qed.

Lemma bake_run flow : forall i c c' table T pc ctx mgr vs e d D ios e' d' err,
  slots_inv c -> bake_steps (compile_step FormatFloat configured) visits lastUse i flow c = inl (c', table) ->
  (forall (j : nat) step n, flow !! j = Some step -> n ∈ uses step -> lives (i + Z.of_nat j) n) ->
  Z.of_nat (length T) < 2 ^ 15 -> drop pc T = table -> holds (c_data ctx) vs ns -> rel mgr d -> tracks i c vs e D -> defined_flow D I flow = true ->
  a_flow FormatFloat nslots maxBuf maxRec platBytes platSlots tenantID flow ios ie e d = Some (e', d', err) ->
  exists ctx' mgr', run_table (S (length table)) T ios tenantID ctx mgr (Z.of_nat pc) = Ret (ctx', mgr') /\ rel mgr' d' /\
    flow_end (i + Z.of_nat (length flow)) c' e' (defined_after D flow) err (Failed ctx) ctx'.
Proof using Sort Hnslots HmaxBuf HmaxRec Hvisits.
  induction flow as [|step flow IH]; intros i c c' table T pc ctx mgr vs e d D ios e' d' err Hc Hb Hlive HT Hd Hh Hr Htr Hdef Ha; cbn [bake_steps a_flow] in Hb, Ha.
  { injection Hb as <- <-. injection Ha as <- <- <-. exists ctx, mgr. split; [by apply run_done|]. split; [done|]. split; [done|]. exists vs. split; [done|].
    cbn [length]. by replace (i + Z.of_nat 0) with i by lia. }
  destruct (compile_step _ _ _ _) as [[c1 code]|] eqn:Ec; [|done].
  destruct (compile_step_code FormatFloat nslots maxBuf maxRec platBytes platSlots Hnslots HmaxBuf HmaxRec _ _ _ _ _ Hc Ec) as (Hc1 & Hg1 & f & -> & Hf).
  set (c2 := releaseDeadSlots i (visits lastUse i) c1) in *. destruct (releaseDeadSlots_ok i (visits lastUse i) c1 Hc1) as (Hc2 & _ & _). fold c2 in Hc2.
  destruct (bake_steps _ _ _ _ flow c2) as [[c3 table']|] eqn:Eb; [|done]. injection Hb as <- <-. cbn [fmap list_fmap app] in *.
  cbn [defined_flow] in Hdef. apply andb_true_iff in Hdef as [[Hrd%bool_decide_eq_true Hir%bool_decide_eq_true]%andb_true_iff Hdef].
  destruct (tracks_sees i c c1 vs e D step Htr Hg1 Hrd Hir) as [Hs His]; [intros n Hn; specialize (Hlive 0%nat step n eq_refl Hn); by rewrite Z.add_0_r in Hlive|].
  destruct (Hf (ios 0%nat) tenantID e ie vs ns Hs His) as (o & out & Ho & Hout & Hperf). rewrite Ho in Ha. cbn [mbind option_bind] in Ha.
  destruct (bool_decide (op_ok o)) eqn:Eok; [|done]. apply bool_decide_eq_true in Eok. destruct (scalars e step); [|done]. cbn [andb] in Ha.
  destruct (a_step _ _ _ _ _ o d) as [[d1 res]|] eqn:Est; cbn [mbind option_bind fst snd] in Ha; [|done].
  destruct (Hperf ctx mgr d d1 res (Z.of_nat pc) Hh Hr Eok Est) as (ctx1 & mgr1 & pc1 & Erun & Hr1 & Hst).
  rewrite (run_turn _ T _ _ _ ios ctx mgr pc ctx1 mgr1 pc1 HT Hd Erun). cbn [defined_after foldl length] in *.
  assert (drop (S pc) T = table') as Hd' by (rewrite <- Nat.add_1_r, <- drop_drop, Hd; done).
  assert (forall (j : nat) s n, flow !! j = Some s -> n ∈ uses s -> lives (i + 1 + Z.of_nat j) n) as Hlive'
    by (intros j s n Hj Hn; specialize (Hlive (S j) s n Hj Hn); by replace (i + 1 + Z.of_nat j) with (i + Z.of_nat (S j)) by lia).
  assert (i16 (Z.of_nat pc + 1) = Z.of_nat (S pc)) as Epc.
  { assert (pc < length T)%nat by (apply (f_equal length) in Hd; rewrite length_drop in Hd; cbn in Hd; lia). rewrite wraps_small by lia. lia. }
  replace (i + Z.of_nat (S (length flow))) with (i + 1 + Z.of_nat (length flow)) by lia.
  destruct (effect_of _ _ _) as [|t|t] eqn:Ee; cbn [stepped] in Hst.
  - destruct Hst as [-> ->]. rewrite Epc. rewrite (proj2 (Z.eqb_neq _ StopPlan)) by (unfold StopPlan; lia).
    assert (writes step = []) as Hw.
    { unfold writes. destruct (is_out step); [|done]. destruct Hout as [_ Hsto]. specialize (Hsto d d1 res Est). destruct res as [[]|[]|[]|]; done. }
    rewrite Hw in *. by eapply IH; eauto using tracks_next.
  - destruct Hst as (Hh1 & Hfl & ->). rewrite Epc. rewrite (proj2 (Z.eqb_neq _ StopPlan)) by (unfold StopPlan; lia). rewrite <- Hfl.
    unfold writes in Hdef |- *. destruct (is_out step); [|destruct (Hout d d1 res Est) as [[] ->]; done]. destruct Hout as [Hout _].
    eapply IH; [exact Hc2|exact Eb|exact Hlive'|done|exact Hd'|exact Hh1|exact Hr1| |exact Hdef|exact Ha].
    eapply tracks_store; eauto using holds_length.
  - destruct Hst as (_ & Hfl & Hmsg & ->). cbn. injection Ha as <- <- <-. by exists ctx1, mgr1.
Qed.

End run.

(** ** Compiled flows *)

(** The variables of [D] are in their slots, the integer variables of [I] in
    theirs. *)
Definition bound (sm : gmap byte_string Z) (vs : list byte_string) (e : env) (D : list byte_string) : Prop :=
  forall n, n ∈ D -> exists idx, sm !! n = Some idx /\ default [] (vs !! Z.to_nat idx) = var e n.

Definition int_bound (sm : gmap byte_string Z) (ns : list Z) (ie : gmap byte_string Z) (I : list byte_string) : Prop :=
  forall n, n ∈ I -> exists idx, sm !! n = Some idx /\ idx < 32 /\ default 0 (ns !! Z.to_nat idx) = default 0 (ie !! n).


(** *** An example *)

Definition mem_step (action : string) (inputs : list (string * string)) : StepConfig :=
  mkStep (bytes_of action) [] [] [] [] [] [] [] ((fun p => (bytes_of p.1, bytes_of p.2)) <$> inputs) [] [] [] [] [] [] [] [].

Definition sample_flow : list StepConfig :=
  [mem_step "mem_create" [("collection", "a"); ("field.n", "int64"); ("field.t", "string:3"); ("capacity", "4")];
   mem_step "mem_load" [("collection", "a"); ("data_slot", "var.rows")];
   mem_step "mem_aggregate" [("collection", "a"); ("field", "n"); ("op", "count"); ("output_slot", "var.count")];
   mem_step "mem_query" [("collection", "a"); ("output_slot", "var.all")]]%string.

(** A later step that shows the result. *)
Definition sample_rest : list StepConfig :=
  [mkStep (bytes_of "set_response_body") [] [] [] (bytes_of "var.all") [] [] [] [] [] [] [] [] [] [] [] []].

Definition sample_io (i : nat) : StepIO := mkIO 10 (fun _ => bytes_of "error").
Definition sample_format (x : Z) : byte_string := [x mod 256].
Definition in_order (lastUse : gmap byte_string Z) (i : Z) : list (byte_string * Z) := map_to_list lastUse.
Definition sample_compiler : Compiler := mkCompiler (<[bytes_of "var.rows" := 0]> ∅) [] 1.
Definition sample_context : Context.Context :=
  match WriteSlot (new_context (replicate 4096 0)) 0 0 [3; 5] with Ret c => c | _ => new_context [] end.
Definition sample_ctx : Ctx := mkCtx sample_context false 200 0 None None (Trace.mkInstrs (replicate 64 0) (replicate 64 0) 0 None).

Definition sample_last_use : gmap byte_string Z :=
  match computeLastUse ∅ (sample_flow ++ sample_rest) with Ret m => m | _ => ∅ end.

Definition sample_baked : (Compiler * list (Z * MemFunc)) + cErr :=
  bake_steps (compile_step sample_format true) in_order sample_last_use 0 sample_flow sample_compiler.

Definition sample_env : env := <[bytes_of "var.rows" := [3; 5]]> ∅.

Definition sample_meaning : option (env * adc * option byte_string) :=
  a_flow sample_format 3 1000 100 3000 3 7 sample_flow sample_io ∅ sample_env (mkAdc ∅ ∅).

Lemma sample_context_ok : ContextSpec.slot_rel sample_context (values sample_context, ints (Context.slots sample_context)).
Proof.
  split; [|done]. assert (ctx_ok (new_context (replicate 4096 0))) as H0.
  { split; [constructor; cbn; try done; lia|constructor; cbn; try done; by repeat constructor]. }
  destruct (WriteSlot_spec (new_context (replicate 4096 0)) 0 0 [3; 5] H0) as (c & E & Hc & _). unfold sample_context. by rewrite E.
Qed.

Lemma sample_compiler_inv : slots_inv sample_compiler.
Proof. by apply (getSlot_ok resetSlots (bytes_of "var.rows") 0 sample_compiler reset_inv). Qed.

Definition sample_code : Compiler * list (Z * MemFunc) := match sample_baked with inl p => p | inr _ => (sample_compiler, []) end.
Definition sample_end : env * adc * option byte_string := match sample_meaning with Some p => p | None => (∅, mkAdc ∅ ∅, None) end.

Lemma sample_code_ok : sample_baked = inl (sample_code.1, sample_code.2).
Proof.
  assert (match sample_baked with inl _ => true | inr _ => false end = true) as H by (vm_compute; reflexivity).
  unfold sample_code. by destruct sample_baked as [[c t]|].
Qed.

Lemma sample_end_ok : sample_meaning = Some (sample_end.1.1, sample_end.1.2, sample_end.2).
Proof.
  assert (match sample_meaning with Some _ => true | None => false end = true) as H by (vm_compute; reflexivity).
  unfold sample_end. by destruct sample_meaning as [[[e d] err]|].
Qed.


(** ** Outside the contract *)

Definition as_step (action name : string) : StepConfig :=
  mkStep (bytes_of action) (bytes_of name) [] [] [] [] [] [] [] [] [] [] [] [] [] [] [].

(** Inputs are scanned for names that start with [var.]: a variable [rows]
    written by one step and loaded by a later one has its last use at the step
    that writes it ... *)
Definition bare_flow : list StepConfig :=
  [as_step "extract_json" "rows"; as_step "extract_json" "other"; mem_step "mem_load" [("collection", "a"); ("data_slot", "rows")]]%string.

Lemma bare_name_not_seen :
  (exists lastUse, computeLastUse ∅ bare_flow = Ret lastUse /\ lastUse !! bytes_of "rows" = Some 0) /\
  bytes_of "rows" ∈ uses (mem_step "mem_load" [("collection", "a"); ("data_slot", "rows")]%string).
Proof. split; [eexists; split; vm_compute; reflexivity|]. vm_compute. left. Qed.

(** ... so that its slot is given to the variable of the step in between, whose
    value is then loaded. *)
Lemma bare_name_clobbered :
  let entries := [(bytes_of "rows", 0); (bytes_of "other", 1)] in
  match getSlot resetSlots (bytes_of "rows") with
  | Some (rows, c) =>
    match getSlot (releaseDeadSlots 0 entries c) (bytes_of "other") with
    | Some (other, c) => option_map fst (getSlot (releaseDeadSlots 1 entries c) (bytes_of "rows")) = Some other /\ rows = other
    | None => False
    end
  | None => False
  end.
Proof. vm_compute. split; reflexivity. Qed.

(** The flow of a [switch] case is baked with its own last uses: a variable of
    the enclosing flow that the case mentions loses its slot. *)
Lemma case_frees_outer_variable :
  match bakeFlow ∅ (compile_step sample_format true) in_order
          [mem_step "mem_load" [("collection", "a"); ("data_slot", "var.rows")]%string] sample_compiler with
  | Ret (inl (c, _)) => slotMap c !! bytes_of "var.rows" = None /\ freeSlots c = [0]
  | _ => False
  end.
Proof. vm_compute. split; reflexivity. Qed.

(** Integer variables share the numbering of the byte slots, of which there are
    48; reading the integer slot 40 of a request that uses more than 16 of its
    32 integer slots panics. *)
Lemma int_slot_out_of_range :
  let slots := mkSlots (replicate 48 None) (replicate 16 0) (Some (replicate 16 0)) (replicate 8 false) in
  match getIntSlot (bytes_of "var.n") (mkCompiler ∅ [] 40) with
  | inl (n, _) => GetInt slots n = Panic
  | inr _ => False
  end.
Proof. vm_compute. reflexivity. Qed.

(** Values enter the object of a [mem_append] as they are: a text is not
    quoted, and a value can carry further fields. *)
Lemma append_injects_field : object_text [(bytes_of "n", [49; 44; 34; 116; 34; 58; 50])] = [123; 34; 110; 34; 58; 49; 44; 34; 116; 34; 58; 50; 125].
Proof. vm_compute. reflexivity. Qed.

Lemma append_text_unquoted : object_text [(bytes_of "t", bytes_of "abc")] = [123; 34; 116; 34; 58; 97; 98; 99; 125].
Proof. vm_compute. reflexivity. Qed.

(** A variable that no step writes reads what its slot held before. *)
Lemma unwritten_variable_is_stale :
  option_map fst (getSlot (releaseDeadSlots 0 [(bytes_of "var.rows", 0)] sample_compiler) (bytes_of "var.typo")) = Some 0 /\
  read_slot sample_context 0 = Ret [3; 5].
Proof. vm_compute. split; reflexivity. Qed.
