(* ===== verification/DataSteps.v ===== *)
(** * String and number steps

    The instructions of [internal/engine/steps/arithmetic.go] that compute with
    byte, integer and boolean slots, and templates: [parseRenderTemplate] of
    [internal/control/compiler.go] and [render_template.go].  Results are new
    arena slices or, for substrings, windows into the slice of the source.
    At the end, the cases of [Compiler.compileStep] that append these
    instructions. *)

From S2P Require Import Prelude Bytes Cond Context ArenaBuf Flow SlotAlloc.

Local Open Scope Z_scope.
Local Open Scope rah_scope.

(** ** Slots *)

(** [ctx.ByteSlots[i]]; a nil slice has length 0. *)
Definition slot_slice (c : Context.Context) (i : Z) : outcome (option slice) := go_index (Context.ByteSlots (Context.slots c)) i.

Definition set_byte_slot (c : Context.Context) (i : Z) (v : option slice) : outcome Context.Context :=
  s <-- put_slot (Context.slots c) i v ;; Ret (mkContext (mem c) s).

(** [ctx.IntSlots] are the 16 inline slots. *)
Definition int_slot (c : Context.Context) (i : Z) : outcome Z := go_index (intSlotBase (Context.slots c)) i.

Definition set_int_slot (c : Context.Context) (i v : Z) : outcome Context.Context :=
  let s := Context.slots c in
  _ <-- go_index (intSlotBase s) i ;;
  Ret (mkContext (mem c) (mkSlots (Context.ByteSlots s) (<[Z.to_nat i := v]> (intSlotBase s)) (intSlotExt s) (Context.BoolSlots s))).

Definition set_bool_slot (c : Context.Context) (i : Z) (v : bool) : outcome Context.Context :=
  let s := Context.slots c in
  _ <-- go_index (Context.BoolSlots s) i ;;
  Ret (mkContext (mem c) (mkSlots (Context.ByteSlots s) (intSlotBase s) (intSlotExt s) (<[Z.to_nat i := v]> (Context.BoolSlots s)))).

(** The next instruction, or the end of the plan. *)
Inductive next : Type := Next | StopHere.

Abbreviation DataStep := (Context.Context -> outcome (Context.Context * next)).

Definition go_on (x : outcome Context.Context) : outcome (Context.Context * next) := c <-- x ;; Ret (c, Next).

(** ** Byte strings *)

(** [copy(out[written:], bs)], and the new [written]. *)
Definition append_copy (m : Mem) (out : slice) (written : Z) (bs : byte_string) : outcome (Mem * Z) :=
  m <-- mem_copy_at m out written bs ;; Ret (m, written + Z.min (Z.of_nat (length bs)) (sl_len out - written)).

Definition ConcatStep (slotA slotB result : Z) (sep : byte_string) : DataStep := fun c =>
  a <-- slot_slice c slotA ;;
  b <-- slot_slice c slotB ;;
  let n := Z.of_nat (length (value c a)) + Z.of_nat (length sep) + Z.of_nat (length (value c b)) in
  let '(m, out) := Alloc (mem c) n in
  w <-- append_copy m out 0 (value (mkContext m (Context.slots c)) a) ;;
  w <-- append_copy w.1 out w.2 sep ;;
  w <-- append_copy w.1 out w.2 (value (mkContext w.1 (Context.slots c)) b) ;;
  go_on (set_byte_slot (mkContext w.1 (Context.slots c)) result (Some out)).

(** A loop over the source that writes one byte each. *)
Definition map_step (f : Z -> Z) (src result : Z) : DataStep := fun c =>
  s <-- slot_slice c src ;;
  let '(m, out) := Alloc (mem c) (Z.of_nat (length (value c s))) in
  let m := copy m out (f <$> value (mkContext m (Context.slots c)) s) in
  go_on (set_byte_slot (mkContext m (Context.slots c)) result (Some out)).

Definition lower (x : Z) : Z := if (65 <=? x) && (x <=? 90) then x + 32 else x.
Definition upper (x : Z) : Z := if (97 <=? x) && (x <=? 122) then x - 32 else x.

Definition ToLowerStep (src result : Z) : DataStep := map_step lower src result.
Definition ToUpperStep (src result : Z) : DataStep := map_step upper src result.

(** [s[start:end]] of a slice that may be nil. *)
Definition sub_slice (s : option slice) (start end_ : Z) : outcome (option slice) :=
  let len := match s with Some b => sl_len b | None => 0 end in
  if (0 <=? start) && (start <=? end_) && (end_ <=? len)
  then Ret (match s with Some b => Some (mkSlice (sl_reg b) (sl_off b + start) (end_ - start)) | None => None end)
  else Panic.

Definition SubstringStep (src result start length_ : Z) : DataStep := fun c =>
  s <-- slot_slice c src ;;
  let len := Z.of_nat (length (value c s)) in
  if (start <? 0) || (len <? start) then go_on (set_byte_slot c result None)
  else
    let end_ := if (0 <=? length_) && (i64 (start + length_) <? len) then i64 (start + length_) else len in
    b <-- sub_slice s start end_ ;;
    go_on (set_byte_slot c result b).

(** [bytes.TrimSpace]: a window into the source, or nil when nothing is left. *)
Definition TrimStep (src result : Z) : DataStep := fun c =>
  s <-- slot_slice c src ;;
  let v := value c s in
  let t := TrimSpace v in
  let lead := Z.of_nat (length v) - Z.of_nat (length (trim_left (length v) spaces v)) in
  match t with
  | [] => go_on (set_byte_slot c result None)
  | _ => b <-- sub_slice s lead (lead + Z.of_nat (length t)) ;; go_on (set_byte_slot c result b)
  end.

(** ** Numbers *)

Definition ToIntStep (src result : Z) : DataStep := fun c =>
  s <-- slot_slice c src ;;
  let '(v, ok) := ParseInt (value c s) in
  go_on (set_int_slot c result (if ok then v else 0)).

Definition int_step (f : Z -> Z -> Z) (slotA slotB result : Z) : DataStep := fun c =>
  a <-- int_slot c slotA ;;
  b <-- int_slot c slotB ;;
  go_on (set_int_slot c result (i64 (f a b))).

Definition AddStep : Z -> Z -> Z -> DataStep := int_step Z.add.
Definition SubStep : Z -> Z -> Z -> DataStep := int_step Z.sub.
Definition MulStep : Z -> Z -> Z -> DataStep := int_step Z.mul.

(** Division and remainder truncate towards zero. *)
Definition nonzero_step (f : Z -> Z -> Z) (slotA slotB result : Z) : DataStep := fun c =>
  b <-- int_slot c slotB ;;
  if b =? 0 then Ret (c, StopHere) else int_step f slotA slotB result c.

Definition ModStep : Z -> Z -> Z -> DataStep := nonzero_step Z.rem.
Definition DivStep : Z -> Z -> Z -> DataStep := nonzero_step Z.quot.

Definition ByteLengthStep (srcSlot destSlot : Z) : DataStep := fun c =>
  s <-- slot_slice c srcSlot ;; go_on (set_int_slot c destSlot (Z.of_nat (length (value c s)))).

Definition IndexOfStep (src result : Z) (needle : byte_string) : DataStep := fun c =>
  s <-- slot_slice c src ;;
  go_on (set_int_slot c result (match find_sub (value c s) needle with Some i => Z.of_nat i | None => -1 end)).

(** ** Tests *)

Definition test_step (f : byte_string -> bool) (src result : Z) : DataStep := fun c =>
  s <-- slot_slice c src ;; go_on (set_bool_slot c result (f (value c s))).

Definition ContainsStep (src result : Z) (needle : byte_string) : DataStep := test_step (fun v => contains v needle) src result.
Definition StartsWithStep (src result : Z) (prefix : byte_string) : DataStep := test_step (fun v => has_prefix v prefix) src result.
Definition EndsWithStep (src result : Z) (suffix : byte_string) : DataStep := test_step (fun v => has_suffix v suffix) src result.

(** ** Templates *)

Record RenderSeg : Type := mkSeg { Lit : option byte_string; SlotIdx : Z }.

Inductive tErr : Type := EUnclosed (pos : nat) | EUnknownVariable (name : byte_string).

Fixpoint parse_template (fuel : nat) (slotMap : gmap byte_string Z) (remaining : byte_string) : (list RenderSeg + tErr) :=
  match fuel with
  | O => inl []
  | S fuel' =>
    match remaining with
    | [] => inl []
    | _ =>
      match find_sub remaining (bytes_of "${") with
      | None => inl [mkSeg (Some remaining) 0]
      | Some idx =>
        let lit := if (0 <? idx)%nat then [mkSeg (Some (take idx remaining)) 0] else [] in
        let rest := drop (idx + 2) remaining in
        match find_sub rest (bytes_of "}") with
        | None => inr (EUnclosed idx)
        | Some end_ =>
          match slotMap !! take end_ rest with
          | None => inr (EUnknownVariable (take end_ rest))
          | Some slotIdx =>
            match parse_template fuel' slotMap (drop (end_ + 1) rest) with
            | inr e => inr e
            | inl segs => inl (lit ++ mkSeg None slotIdx :: segs)
            end
          end
        end
      end
    end
  end.

Definition parseRenderTemplate (tmpl : byte_string) (slotMap : gmap byte_string Z) : (list RenderSeg + tErr) :=
  parse_template (S (length tmpl)) slotMap tmpl.

(** The bytes of a segment; [None]: a slot that does not exist adds nothing. *)
Definition seg_bytes (c : Context.Context) (seg : RenderSeg) : outcome (option byte_string) :=
  match Lit seg with
  | Some l => Ret (Some l)
  | None => if in_slots c (SlotIdx seg) then v <-- slot_slice c (SlotIdx seg) ;; Ret (Some (value c v)) else Ret None
  end.

Fixpoint total_length (c : Context.Context) (segs : list RenderSeg) (total : Z) : outcome Z :=
  match segs with
  | [] => Ret total
  | seg :: segs' =>
    b <-- seg_bytes c seg ;;
    total_length c segs' (match b with Some bs => total + Z.of_nat (length bs) | None => total end)
  end.

Fixpoint fill_segs (s : Slots) (segs : list RenderSeg) (m : Mem) (buf : slice) (n : Z) : outcome (Mem * Z) :=
  match segs with
  | [] => Ret (m, n)
  | seg :: segs' =>
    b <-- seg_bytes (mkContext m s) seg ;;
    match b with
    | Some bs => w <-- append_copy m buf n bs ;; fill_segs s segs' w.1 buf w.2
    | None => fill_segs s segs' m buf n
    end
  end.

Definition RenderTemplate (segs : list RenderSeg) (destSlot : Z) : DataStep := fun c =>
  total <-- total_length c segs 0 ;;
  let '(m, buf) := Alloc (mem c) total in
  w <-- fill_segs (Context.slots c) segs m buf 0 ;;
  b <-- slice_to buf w.2 ;;
  go_on (set_byte_slot (mkContext w.1 (Context.slots c)) destSlot (Some b)).

(** ** Compiling

    The variables of a step are given slots in the order the code asks for them,
    and the instruction is made for these slots. *)

(** [DOther]: an action compiled by another case. *)
Inductive dErr : Type := DSlots | DTemplate (e : tErr) | DOther.

Abbreviation compiled := (((Context.Context -> outcome (Context.Context * next)) * Compiler) + dErr)%type.

Definition with_slot (c : Compiler) (name : byte_string) (k : Z -> Compiler -> compiled) : compiled :=
  match getSlot c name with Some (i, c') => k i c' | None => inr DSlots end.

(** [source] and [as]; [key_identifier], [source] and [as]. *)
Definition src_result (step : StepConfig) (mk : Z -> Z -> DataStep) (c : Compiler) : compiled :=
  with_slot c (Source step) (fun src c => with_slot c (As step) (fun result c => inl (mk src result, c))).

Definition two_result (step : StepConfig) (mk : Z -> Z -> Z -> DataStep) (c : Compiler) : compiled :=
  with_slot c (KeyIdentifier step) (fun slotA c =>
  with_slot c (Source step) (fun slotB c =>
  with_slot c (As step) (fun result c => inl (mk slotA slotB result, c)))).

(** [if v, ok := step.Input[k]; ok { if n, err := strconv.Atoi(v); err == nil { x = n } }]: the
    empty string of a missing entry is not a number either. *)
Definition int_input (step : StepConfig) (k : string) (x : Z) : Z :=
  let '(n, ok) := ParseInt (map_get (Input step) (bytes_of k)) in if ok then n else x.

Definition template_of (step : StepConfig) : byte_string :=
  if beq (Value step) [] then map_get (Input step) (bytes_of "template") else Value step.

Definition compile_render (step : StepConfig) (c : Compiler) : compiled :=
  with_slot c (As step) (fun destSlot c =>
    match parseRenderTemplate (template_of step) (slotMap c) with
    | inr e => inr (DTemplate e)
    | inl segs => inl (RenderTemplate segs destSlot, c)
    end).

Definition compile_substring (step : StepConfig) (c : Compiler) : compiled :=
  src_result step (fun src result => SubstringStep src result (int_input step "start" 0) (int_input step "length" (-1))) c.

Definition compile_arith (step : StepConfig) (c : Compiler) : compiled :=
  let act := is_action step in
  if act "add" then two_result step AddStep c
  else if act "sub" then two_result step SubStep c
  else if act "mul" then two_result step MulStep c
  else if act "div" then two_result step DivStep c
  else if act "mod" then two_result step ModStep c
  else inr DOther.

Definition compile_numbers (step : StepConfig) (c : Compiler) : compiled :=
  let act := is_action step in
  if act "index_of" then src_result step (fun s r => IndexOfStep s r (Value step)) c
  else if act "to_int" then src_result step ToIntStep c
  else if act "byte_length" then src_result step ByteLengthStep c
  else compile_arith step c.

Definition compile_strings (step : StepConfig) (c : Compiler) : compiled :=
  let v := Value step in
  let act := is_action step in
  if act "concat" then two_result step (fun a b r => ConcatStep a b r v) c
  else if act "to_lower" then src_result step ToLowerStep c
  else if act "to_upper" then src_result step ToUpperStep c
  else if act "substring" then compile_substring step c
  else if act "trim" then src_result step TrimStep c
  else if act "contains" then src_result step (fun s r => ContainsStep s r v) c
  else if act "starts_with" then src_result step (fun s r => StartsWithStep s r v) c
  else if act "ends_with" then src_result step (fun s r => EndsWithStep s r v) c
  else compile_numbers step c.

Definition compileDataStep (step : StepConfig) (c : Compiler) : compiled :=
  if is_action step "render_template" then compile_render step c else compile_strings step c.
