(* ===== verification/DataStepsSpec.v ===== *)
(** * String and number steps: theorems

    Every sequence of these steps computes plain functions of a table of byte
    strings, integers and booleans, and a template renders to its text with the
    variables replaced. *)

From S2P Require Import Prelude Bytes Cond Context ContextSpec ArenaBuf SlotAlloc SlotAllocSpec DataSteps.

Local Open Scope Z_scope.
Local Open Scope rah_scope.

(** ** Filling a buffer *)

Record filled (m0 m : Mem) (b : slice) (data : byte_string) : Prop := mkFilled {
  fi_private : private m0 m b; fi_len : Z.of_nat (length data) <= sl_len b; fi_data : take (length data) (read m b) = data }.

Lemma append_copy_ok m0 m b data d : filled m0 m b data -> Z.of_nat (length data) + Z.of_nat (length d) <= sl_len b ->
  exists m', append_copy m b (Z.of_nat (length data)) d = Ret (m', Z.of_nat (length (data ++ d))) /\ filled m0 m' b (data ++ d).
Proof.
  intros [Hp Hl Hd] Hb. unfold append_copy, mem_copy_at. rewrite (proj2 (Z.leb_le 0 _)), (proj2 (Z.leb_le (Z.of_nat (length data)) _)) by lia. cbn [andb obind].
  destruct (copy_private m0 m b (Z.of_nat (length data)) (sl_len b - Z.of_nat (length data)) d Hp ltac:(lia) ltac:(lia) ltac:(lia)) as [Hp' Hr].
  pose proof (read_length _ _ (pv_ok _ _ _ Hp) (pv_valid _ _ _ Hp)) as Hrl. eexists. split; [rewrite length_app; do 2 f_equal; lia|].
  split; [done|rewrite length_app; lia|]. rewrite Hr, Nat2Z.id, (take_ge d), length_app, take_splice by lia. by rewrite Hd.
Qed.

Lemma alloc_filled m n : mem_ok m -> 0 <= n -> let '(m', b) := Alloc m n in filled m m' b [] /\ sl_len b = n.
Proof.
  intros Hm Hn. pose proof (Alloc_spec m n Hm Hn) as H. destruct (Alloc m n) as [m' b]. destruct H as (Hok & He & Hv & Hl & Hd).
  split; [|done]. split; [by split|cbn; destruct Hv as (_ & ? & _); lia|done].
Qed.

(** ** The table *)

Definition vtable : Type := list byte_string * list Z * list bool.

Record vrel (c : Context.Context) (t : vtable) : Prop := mkVrel {
  vr_ok : ctx_ok c; vr_bytes : values c = t.1.1; vr_ints : intSlotBase (Context.slots c) = t.1.2; vr_bools : Context.BoolSlots (Context.slots c) = t.2 }.

Definition byte_at (t : vtable) (i : Z) : byte_string := default [] (t.1.1 !! Z.to_nat i).
Definition int_at (t : vtable) (i : Z) : Z := default 0 (t.1.2 !! Z.to_nat i).
Definition bool_at (t : vtable) (i : Z) : bool := default false (t.2 !! Z.to_nat i).

Definition with_bytes (t : vtable) (i : Z) (v : byte_string) : vtable := (<[Z.to_nat i := v]> t.1.1, t.1.2, t.2).
Definition with_int (t : vtable) (i v : Z) : vtable := (t.1.1, <[Z.to_nat i := v]> t.1.2, t.2).
Definition with_bool (t : vtable) (i : Z) (v : bool) : vtable := (t.1.1, t.1.2, <[Z.to_nat i := v]> t.2).

Definition slot_valid (m : Mem) (v : option slice) : Prop := match v with Some s => valid m s | None => True end.

Lemma slot_slice_ok c t i : vrel c t -> 0 <= i < 48 ->
  exists v, slot_slice c i = Ret v /\ value c v = byte_at t i /\ slot_valid (mem c) v.
Proof.
  intros [[Hm Hs] Hv _ _] Hi. destruct (lookup_lt_is_Some_2 (Context.ByteSlots (Context.slots c)) (Z.to_nat i)) as [v Ev]; [rewrite (so_bytes _ _ Hs); lia|].
  exists v. split; [exact (go_index_Z _ _ _ (proj1 Hi) Ev)|]. split; [unfold byte_at; by rewrite <- Hv, (values_lookup _ _ _ Ev)|].
  exact (proj1 (Forall_lookup _ _) (so_valid _ _ Hs) _ _ Ev).
Qed.

Lemma value_extend c m v : extends (mem c) m -> slot_valid (mem c) v -> value (mkContext m (Context.slots c)) v = value c v.
Proof. intros He Hv. destruct v as [s|]; [|done]. cbn. by apply He. Qed.

(** Storing a slice of memory that grew. *)
Lemma set_byte_ok c t m i v : vrel c t -> mem_ok m -> extends (mem c) m -> slot_valid m v -> 0 <= i < 48 ->
  exists c', set_byte_slot (mkContext m (Context.slots c)) i v = Ret c' /\ vrel c' (with_bytes t i (value (mkContext m (Context.slots c)) v)).
Proof.
  intros [[Hm Hs] Hv Hn Hb] Hok He Hval Hi. pose proof (slots_extend _ _ _ He Hs) as Hs'.
  destruct (put_slot_spec m (Context.slots c) i v Hs' Hi Hval) as (s' & E & Hs2 & Hvs & H1 & H2 & H3). unfold set_byte_slot. cbn [Context.slots mem]. rewrite E.
  eexists. split; [reflexivity|]. split; [by split| | |]; cbn [Context.slots with_bytes fst snd]; [|congruence..].
  rewrite Hvs. f_equal. destruct c as [m0 s0]. cbn [mem Context.slots] in *. by rewrite (values_extend m0).
Qed.

Lemma set_byte_here c t i v : vrel c t -> slot_valid (mem c) v -> 0 <= i < 48 ->
  exists c', set_byte_slot c i v = Ret c' /\ vrel c' (with_bytes t i (value c v)).
Proof.
  intros Hc Hv Hi. pose proof (set_byte_ok c t (mem c) i v Hc (proj1 (vr_ok _ _ Hc)) (extends_refl _) Hv Hi) as H. by destruct c.
Qed.

Lemma int_slot_ok c t i : vrel c t -> 0 <= i < 16 -> int_slot c i = Ret (int_at t i).
Proof.
  intros [[_ Hs] _ Hn _] Hi. unfold int_slot, int_at. destruct (lookup_lt_is_Some_2 (intSlotBase (Context.slots c)) (Z.to_nat i)) as [x Ex]; [rewrite (so_ints _ _ Hs); lia|].
  rewrite <- Hn, Ex. exact (go_index_Z _ _ _ (proj1 Hi) Ex).
Qed.

Lemma set_int_ok c t i v : vrel c t -> 0 <= i < 16 -> exists c', set_int_slot c i v = Ret c' /\ vrel c' (with_int t i v).
Proof.
  intros [[Hm Hs] Hv Hn Hb] Hi. unfold set_int_slot. destruct (lookup_lt_is_Some_2 (intSlotBase (Context.slots c)) (Z.to_nat i)) as [x Ex]; [rewrite (so_ints _ _ Hs); lia|].
  rewrite (go_index_Z _ _ _ (proj1 Hi) Ex). cbn [obind]. eexists. split; [reflexivity|]. destruct Hs. split; cbn; [split; [done|]|done|by rewrite Hn|done].
  constructor; cbn; try done. by rewrite length_insert.
Qed.

Lemma set_bool_ok c t i v : vrel c t -> 0 <= i < 8 -> exists c', set_bool_slot c i v = Ret c' /\ vrel c' (with_bool t i v).
Proof.
  intros [[Hm Hs] Hv Hn Hb] Hi. unfold set_bool_slot. destruct (lookup_lt_is_Some_2 (Context.BoolSlots (Context.slots c)) (Z.to_nat i)) as [x Ex]; [rewrite (so_bools _ _ Hs); lia|].
  rewrite (go_index_Z _ _ _ (proj1 Hi) Ex). cbn [obind]. eexists. split; [reflexivity|]. destruct Hs. split; cbn; [split; [done|]|done|done|by rewrite Hb].
  constructor; cbn; try done. by rewrite length_insert.
Qed.

(** ** Windows into a slice *)

Lemma sub_slice_ok c s start end_ : slot_valid (mem c) s -> mem_ok (mem c) -> 0 <= start <= end_ -> end_ <= Z.of_nat (length (value c s)) ->
  exists b, sub_slice s start end_ = Ret b /\ slot_valid (mem c) b /\ value c b = take (Z.to_nat (end_ - start)) (drop (Z.to_nat start) (value c s)).
Proof.
  intros Hv Hm Hs He. unfold sub_slice. rewrite (proj2 (Z.leb_le 0 start)), (proj2 (Z.leb_le start end_)) by lia. destruct s as [b|]; cbn [value slot_valid] in *.
  - pose proof (read_length _ _ Hm Hv) as Hl. destruct Hv as (Ho & Hn & Hu). rewrite (proj2 (Z.leb_le end_ _)) by lia. eexists. split; [reflexivity|].
    split; [repeat split; cbn; lia|]. cbn [value]. unfold read. cbn [sl_reg sl_off sl_len]. rewrite skipn_firstn_comm, firstn_firstn, drop_drop.
    f_equal; [lia|]. f_equal. lia.
  - cbn in He. rewrite (proj2 (Z.leb_le end_ 0)) by lia. exists None. split; [done|]. split; [done|]. cbn. by rewrite drop_nil, take_nil.
Qed.

Lemma trim_left_suffix n sp s : exists p, s = p ++ trim_left n sp s.
Proof.
  revert s. induction n as [|n IH]; intros s; cbn [trim_left]; [by exists []|]. destruct (list_find _ _) as [[k p]|]; [|by exists []].
  destruct (IH (drop (length p) s)) as [q Eq]. exists (take (length p) s ++ q). rewrite <- app_assoc, <- Eq. symmetry. apply take_drop.
Qed.

Lemma TrimSpace_window v :
  let lead := (length v - length (trim_left (length v) spaces v))%nat in
  (lead + length (TrimSpace v) <= length v)%nat /\ TrimSpace v = take (length (TrimSpace v)) (drop lead v).
Proof.
  destruct (trim_left_suffix (length v) spaces v) as [p Ep]. unfold TrimSpace. set (l := trim_left (length v) spaces v) in *.
  destruct (trim_left_suffix (length l) (reverse <$> spaces) (reverse l)) as [q Eq]. set (r := trim_left (length l) _ _) in *.
  assert (l = reverse r ++ reverse q) as El by (rewrite <- reverse_app, <- Eq; by rewrite reverse_involutive).
  assert (length v - length l = length p)%nat as Hlead by (rewrite Ep, length_app; lia). cbv zeta. rewrite Hlead.
  assert (drop (length p) v = l) as Ed by (rewrite Ep; apply drop_app_length). rewrite Ed. split.
  - rewrite Ep, length_app, El, length_app. lia.
  - rewrite El. by rewrite take_app_length.
Qed.

(** ** Operations *)

Inductive data_op : Type :=
| VConcat (a b r : Z) (sep : byte_string)
| VLower (s r : Z) | VUpper (s r : Z) | VTrim (s r : Z)
| VSubstring (s r start length_ : Z)
| VToInt (s r : Z) | VLength (s r : Z) | VIndexOf (s r : Z) (needle : byte_string)
| VAdd (a b r : Z) | VSub (a b r : Z) | VMul (a b r : Z) | VMod (a b r : Z) | VDiv (a b r : Z)
| VContains (s r : Z) (needle : byte_string) | VStarts (s r : Z) (p : byte_string) | VEnds (s r : Z) (p : byte_string)
| VRender (segs : list RenderSeg) (r : Z)
| VWrite (th i : Z) (data : byte_string)
| VBytes (i : Z) | VInt (i : Z) | VBool (i : Z).

Inductive vans : Type := AStep (n : next) | ABytes (b : byte_string) | AInt (n : Z) | ABool (b : bool).

Definition stepping (x : outcome (Context.Context * next)) : outcome (Context.Context * vans) := r <-- x ;; Ret (r.1, AStep r.2).

(** The instructions, writing a slot ([WriteSlot]), and reading one. *)
Definition data_step (o : data_op) (c : Context.Context) : outcome (Context.Context * vans) :=
  match o with
  | VConcat a b r sep => stepping (ConcatStep a b r sep c)
  | VLower s r => stepping (ToLowerStep s r c)
  | VUpper s r => stepping (ToUpperStep s r c)
  | VTrim s r => stepping (TrimStep s r c)
  | VSubstring s r st ln => stepping (SubstringStep s r st ln c)
  | VToInt s r => stepping (ToIntStep s r c)
  | VLength s r => stepping (ByteLengthStep s r c)
  | VIndexOf s r needle => stepping (IndexOfStep s r needle c)
  | VAdd a b r => stepping (AddStep a b r c)
  | VSub a b r => stepping (SubStep a b r c)
  | VMul a b r => stepping (MulStep a b r c)
  | VMod a b r => stepping (ModStep a b r c)
  | VDiv a b r => stepping (DivStep a b r c)
  | VContains s r needle => stepping (ContainsStep s r needle c)
  | VStarts s r p => stepping (StartsWithStep s r p c)
  | VEnds s r p => stepping (EndsWithStep s r p c)
  | VRender segs r => stepping (RenderTemplate segs r c)
  | VWrite th i data => stepping (go_on (WriteSlot c th i data))
  | VBytes i => v <-- slot_slice c i ;; Ret (c, ABytes (value c v))
  | VInt i => n <-- int_slot c i ;; Ret (c, AInt n)
  | VBool i => b <-- go_index (Context.BoolSlots (Context.slots c)) i ;; Ret (c, ABool b)
  end.

Definition substring (v : byte_string) (start length_ : Z) : byte_string :=
  let len := Z.of_nat (length v) in
  if (start <? 0) || (len <? start) then []
  else take (Z.to_nat (if 0 <=? length_ then length_ else len)) (drop (Z.to_nat start) v).

Definition seg_text (t : vtable) (seg : RenderSeg) : byte_string :=
  match Lit seg with
  | Some l => l
  | None => if (0 <=? SlotIdx seg) && (SlotIdx seg <? 48) then byte_at t (SlotIdx seg) else []
  end.

Definition rendered (t : vtable) (segs : list RenderSeg) : byte_string := segs ≫= seg_text t.

(** Case mapping, letter by letter. *)
Definition small_letters : byte_string := bytes_of "abcdefghijklmnopqrstuvwxyz".
Definition capital_letters : byte_string := bytes_of "ABCDEFGHIJKLMNOPQRSTUVWXYZ".

Definition swap_case (from to : byte_string) (x : Z) : Z :=
  match list_find (eq x) from with Some (i, _) => default x (to !! i) | None => x end.

Lemma swap_case_other from to x : x ∉ from -> swap_case from to x = x.
Proof.
  intros Hx. unfold swap_case. destruct (list_find (eq x) from) as [[i y]|] eqn:E; [|done].
  apply list_find_Some in E as (Hi & <- & _). by apply list_elem_of_lookup_2 in Hi.
Qed.

Lemma letters_between from x a : from = seqZ a 26 -> x ∈ from <-> a <= x <= a + 25.
Proof. intros ->. rewrite elem_of_seqZ. lia. Qed.

Lemma lower_letters x : lower x = swap_case capital_letters small_letters x.
Proof.
  assert (capital_letters = seqZ 65 26) as E by (vm_compute; reflexivity). pose proof (letters_between capital_letters x 65 E) as Hin. unfold lower.
  destruct (Z.leb_spec 65 x), (Z.leb_spec x 90); cbn [andb]; try (rewrite swap_case_other; [done|rewrite Hin; lia]).
  assert (forallb (fun y => y + 32 =? swap_case capital_letters small_letters y) capital_letters = true) as Hall by (vm_compute; reflexivity).
  rewrite forallb_forall in Hall. apply Z.eqb_eq, Hall, list_elem_of_In, Hin. lia.
Qed.

Lemma upper_letters x : upper x = swap_case small_letters capital_letters x.
Proof.
  assert (small_letters = seqZ 97 26) as E by (vm_compute; reflexivity). pose proof (letters_between small_letters x 97 E) as Hin. unfold upper.
  destruct (Z.leb_spec 97 x), (Z.leb_spec x 122); cbn [andb]; try (rewrite swap_case_other; [done|rewrite Hin; lia]).
  assert (forallb (fun y => y - 32 =? swap_case small_letters capital_letters y) small_letters = true) as Hall by (vm_compute; reflexivity).
  rewrite forallb_forall in Hall. apply Z.eqb_eq, Hall, list_elem_of_In, Hin. lia.
Qed.

(** The same operations on a table. *)
Definition vtable_op (o : data_op) (t : vtable) : outcome (vtable * vans) :=
  let go t' := Ret (t', AStep Next) in
  match o with
  | VConcat a b r sep => go (with_bytes t r (byte_at t a ++ sep ++ byte_at t b))
  | VLower s r => go (with_bytes t r (swap_case capital_letters small_letters <$> byte_at t s))
  | VUpper s r => go (with_bytes t r (swap_case small_letters capital_letters <$> byte_at t s))
  | VTrim s r => go (with_bytes t r (TrimSpace (byte_at t s)))
  | VSubstring s r st ln => go (with_bytes t r (substring (byte_at t s) st ln))
  | VToInt s r => go (with_int t r (if (ParseInt (byte_at t s)).2 then (ParseInt (byte_at t s)).1 else 0))
  | VLength s r => go (with_int t r (Z.of_nat (length (byte_at t s))))
  | VIndexOf s r needle => go (with_int t r (match find_sub (byte_at t s) needle with Some i => Z.of_nat i | None => -1 end))
  | VAdd a b r => go (with_int t r (i64 (int_at t a + int_at t b)))
  | VSub a b r => go (with_int t r (i64 (int_at t a - int_at t b)))
  | VMul a b r => go (with_int t r (i64 (int_at t a * int_at t b)))
  | VMod a b r => if int_at t b =? 0 then Ret (t, AStep StopHere) else go (with_int t r (i64 (Z.rem (int_at t a) (int_at t b))))
  | VDiv a b r => if int_at t b =? 0 then Ret (t, AStep StopHere) else go (with_int t r (i64 (Z.quot (int_at t a) (int_at t b))))
  | VContains s r needle => go (with_bool t r (contains (byte_at t s) needle))
  | VStarts s r p => go (with_bool t r (has_prefix (byte_at t s) p))
  | VEnds s r p => go (with_bool t r (has_suffix (byte_at t s) p))
  | VRender segs r => go (with_bytes t r (rendered t segs))
  | VWrite th i data => go (with_bytes t i data)
  | VBytes i => Ret (t, ABytes (byte_at t i))
  | VInt i => Ret (t, AInt (int_at t i))
  | VBool i => Ret (t, ABool (bool_at t i))
  end.

(** Slots in range (16 integers and 8 booleans), no overflow in a substring. *)
Definition data_op_ok (o : data_op) : Prop :=
  match o with
  | VConcat a b r _ => 0 <= a < 48 /\ 0 <= b < 48 /\ 0 <= r < 48
  | VLower s r | VUpper s r | VTrim s r => 0 <= s < 48 /\ 0 <= r < 48
  | VSubstring s r st ln => 0 <= s < 48 /\ 0 <= r < 48 /\ st + ln < 2 ^ 63
  | VToInt s r | VLength s r | VIndexOf s r _ => 0 <= s < 48 /\ 0 <= r < 16
  | VAdd a b r | VSub a b r | VMul a b r | VMod a b r | VDiv a b r => 0 <= a < 16 /\ 0 <= b < 16 /\ 0 <= r < 16
  | VContains s r _ | VStarts s r _ | VEnds s r _ => 0 <= s < 48 /\ 0 <= r < 8
  | VRender _ r => 0 <= r < 48
  | VWrite _ i _ => 0 <= i < 48
  | VBytes i => 0 <= i < 48
  | VInt i => 0 <= i < 16
  | VBool i => 0 <= i < 8
  end.

(** ** Every step *)

Lemma go_on_ok x c' t : x = Ret c' -> vrel c' t -> exists c1, go_on x = Ret (c1, Next) /\ vrel c1 t.
Proof. intros -> H. by exists c'. Qed.

(** A buffer filled to its end is stored. *)
Lemma store_filled c t m b data r : vrel c t -> filled (mem c) m b data -> sl_len b = Z.of_nat (length data) -> 0 <= r < 48 ->
  exists c', go_on (set_byte_slot (mkContext m (Context.slots c)) r (Some b)) = Ret (c', Next) /\ vrel c' (with_bytes t r data).
Proof.
  intros Hc [[Hok He Hv _] Hl Hd] Hlen Hr. destruct (set_byte_ok c t m r (Some b) Hc Hok He Hv Hr) as (c' & E & Hc'). eapply go_on_ok; [exact E|].
  pose proof (read_length _ _ Hok Hv) as Hrl. cbn [value mem] in Hc'. rewrite <- Hd. by rewrite take_ge by lia.
Qed.

Lemma concat_ok c t a b r sep : vrel c t -> 0 <= a < 48 -> 0 <= b < 48 -> 0 <= r < 48 ->
  exists c', ConcatStep a b r sep c = Ret (c', Next) /\ vrel c' (with_bytes t r (byte_at t a ++ sep ++ byte_at t b)).
Proof.
  intros Hc Ha Hb Hr. unfold ConcatStep. destruct (slot_slice_ok c t a Hc Ha) as (sa & -> & Ea & Va). destruct (slot_slice_ok c t b Hc Hb) as (sb & -> & Eb & Vb).
  cbn [obind]. set (n := _ + _ + _). pose proof (alloc_filled (mem c) n (proj1 (vr_ok _ _ Hc)) ltac:(lia)) as Hf. destruct (Alloc (mem c) n) as [m0 out].
  destruct Hf as [Hf0 Hl]. rewrite (value_extend c m0 sa (pv_ext _ _ _ (fi_private _ _ _ _ Hf0)) Va), Ea. subst n. rewrite Ea, Eb in Hl.
  destruct (append_copy_ok _ _ _ _ (byte_at t a) Hf0) as (m1 & E1 & Hf1); [cbn; lia|]. cbn [length app] in *. change (Z.of_nat 0) with 0 in E1. rewrite E1. cbn [obind fst snd].
  destruct (append_copy_ok _ _ _ _ sep Hf1) as (m2 & -> & Hf2); [lia|]. cbn [obind fst snd].
  rewrite (value_extend c m2 sb (pv_ext _ _ _ (fi_private _ _ _ _ Hf2)) Vb), Eb.
  destruct (append_copy_ok _ _ _ _ (byte_at t b) Hf2) as (m3 & -> & Hf3); [rewrite length_app; lia|]. cbn [obind fst snd].
  rewrite <- app_assoc in Hf3. apply store_filled; [done|done|rewrite !length_app; lia|done].
Qed.

Lemma map_ok f c t s r : vrel c t -> 0 <= s < 48 -> 0 <= r < 48 ->
  exists c', map_step f s r c = Ret (c', Next) /\ vrel c' (with_bytes t r (f <$> byte_at t s)).
Proof.
  intros Hc Hs Hr. unfold map_step. destruct (slot_slice_ok c t s Hc Hs) as (v & -> & Ev & Vv). cbn [obind].
  pose proof (alloc_filled (mem c) (Z.of_nat (length (value c v))) (proj1 (vr_ok _ _ Hc)) ltac:(lia)) as Hf. destruct (Alloc _ _) as [m out]. destruct Hf as [Hf Hl].
  rewrite (value_extend c m v (pv_ext _ _ _ (fi_private _ _ _ _ Hf)) Vv), Ev. rewrite Ev in Hl. set (d := f <$> byte_at t s). assert (length d = length (byte_at t s)) as Hd by apply length_fmap.
  destruct (copy_private (mem c) m out 0 (sl_len out) d (fi_private _ _ _ _ Hf) ltac:(lia) ltac:(lia) ltac:(lia)) as [Hp Hrd]. rewrite Z.add_0_r in Hp, Hrd.
  assert (mkSlice (sl_reg out) (sl_off out) (sl_len out) = out) as Eo by (by destruct out). rewrite Eo in Hp, Hrd.
  pose proof (read_length _ _ (pv_ok _ _ _ (fi_private _ _ _ _ Hf)) (pv_valid _ _ _ (fi_private _ _ _ _ Hf))) as Hrl.
  apply store_filled; [done| |lia|done]. split; [done|lia|]. rewrite Hrd, (take_ge d) by lia. change (Z.to_nat 0) with 0%nat. exact (take_splice (read m out) 0 d ltac:(lia)).
Qed.

Lemma take_same {A} n k (l : list A) : Nat.min n (length l) = Nat.min k (length l) -> take n l = take k l.
Proof. intros H. rewrite <- (take_ge l (length l)) by done. by rewrite !firstn_firstn, H. Qed.

Lemma substring_ok c t s r st ln : vrel c t -> 0 <= s < 48 -> 0 <= r < 48 -> st + ln < 2 ^ 63 ->
  exists c', SubstringStep s r st ln c = Ret (c', Next) /\ vrel c' (with_bytes t r (substring (byte_at t s) st ln)).
Proof.
  intros Hc Hs Hr Hov. unfold SubstringStep, substring. destruct (slot_slice_ok c t s Hc Hs) as (v & -> & Ev & Vv). cbn [obind]. rewrite Ev.
  set (len := Z.of_nat (length (byte_at t s))). destruct ((st <? 0) || (len <? st)) eqn:Eout.
  { destruct (set_byte_here c t r None Hc I Hr) as (c' & E & Hc'). by eapply go_on_ok. }
  apply orb_false_iff in Eout as [Hst%Z.ltb_ge Hlen%Z.ltb_ge].
  set (e := if (0 <=? ln) && _ then _ else len). assert (st <= e <= len /\ Z.min (e - st) (len - st) = Z.min (if 0 <=? ln then ln else len) (len - st)) as [He Htake].
  { subst e. destruct (Z.leb_spec 0 ln); cbn [andb]; [|split; lia]. rewrite (wraps_small 64) by (change (2 ^ (64 - 1)) with (2 ^ 63); lia). destruct (Z.ltb_spec (st + ln) len); split; lia. }
  destruct (sub_slice_ok c v st e Vv (proj1 (vr_ok _ _ Hc)) ltac:(lia) ltac:(rewrite Ev; lia)) as (b & -> & Vb & Eb). cbn [obind].
  destruct (set_byte_here c t r b Hc Vb Hr) as (c' & E & Hc'). eapply go_on_ok; [exact E|]. rewrite Eb, Ev in Hc'.
  assert (length (drop (Z.to_nat st) (byte_at t s)) = Z.to_nat (len - st)) as Hd by (rewrite length_drop; subst len; lia).
  fold len. by rewrite (take_same (Z.to_nat (e - st)) (Z.to_nat (if 0 <=? ln then ln else len))) in Hc' by (rewrite Hd; lia).
Qed.

Lemma trim_step_ok c t s r : vrel c t -> 0 <= s < 48 -> 0 <= r < 48 ->
  exists c', TrimStep s r c = Ret (c', Next) /\ vrel c' (with_bytes t r (TrimSpace (byte_at t s))).
Proof.
  intros Hc Hs Hr. unfold TrimStep. destruct (slot_slice_ok c t s Hc Hs) as (v & -> & Ev & Vv). cbn [obind]. rewrite Ev.
  destruct (TrimSpace_window (byte_at t s)) as [Hfit Hwin]. destruct (trim_left_suffix (length (byte_at t s)) spaces (byte_at t s)) as [p Ep].
  pose proof (f_equal length Ep) as Hlp. rewrite length_app in Hlp. set (lead := _ - Z.of_nat _). destruct (TrimSpace (byte_at t s)) as [|x l] eqn:Et.
  { destruct (set_byte_here c t r None Hc I Hr) as (c' & E & Hc'). by eapply go_on_ok. }
  rewrite <- Et in *. assert (Z.to_nat lead = length (byte_at t s) - length (trim_left (length (byte_at t s)) spaces (byte_at t s)))%nat as Hlead by (subst lead; lia).
  destruct (sub_slice_ok c v lead (lead + Z.of_nat (length (TrimSpace (byte_at t s)))) Vv (proj1 (vr_ok _ _ Hc))) as (b & -> & Vb & Eb); [subst lead; lia|rewrite Ev; subst lead; lia|].
  cbn [obind]. destruct (set_byte_here c t r b Hc Vb Hr) as (c' & E & Hc'). eapply go_on_ok; [exact E|]. rewrite Eb, Ev, Hlead in Hc'.
  replace (Z.to_nat (lead + _ - lead)) with (length (TrimSpace (byte_at t s))) in Hc' by lia. by rewrite Hwin.
Qed.

(** A step that computes an integer or a boolean of one byte slot. *)
Lemma int_of_bytes (f : byte_string -> Z) c t s r : vrel c t -> 0 <= s < 48 -> 0 <= r < 16 ->
  exists c', (v <-- slot_slice c s ;; go_on (set_int_slot c r (f (value c v)))) = Ret (c', Next) /\ vrel c' (with_int t r (f (byte_at t s))).
Proof.
  intros Hc Hs Hr. destruct (slot_slice_ok c t s Hc Hs) as (v & -> & Ev & _). cbn [obind]. rewrite Ev.
  destruct (set_int_ok c t r (f (byte_at t s)) Hc Hr) as (c' & E & Hc'). by eapply go_on_ok.
Qed.

Lemma test_step_ok (f : byte_string -> bool) c t s r : vrel c t -> 0 <= s < 48 -> 0 <= r < 8 ->
  exists c', test_step f s r c = Ret (c', Next) /\ vrel c' (with_bool t r (f (byte_at t s))).
Proof.
  intros Hc Hs Hr. unfold test_step. destruct (slot_slice_ok c t s Hc Hs) as (v & -> & Ev & _). cbn [obind]. rewrite Ev.
  destruct (set_bool_ok c t r (f (byte_at t s)) Hc Hr) as (c' & E & Hc'). by eapply go_on_ok.
Qed.

Lemma int_step_ok f c t a b r : vrel c t -> 0 <= a < 16 -> 0 <= b < 16 -> 0 <= r < 16 ->
  exists c', int_step f a b r c = Ret (c', Next) /\ vrel c' (with_int t r (i64 (f (int_at t a) (int_at t b)))).
Proof.
  intros Hc Ha Hb Hr. unfold int_step. rewrite (int_slot_ok c t a Hc Ha), (int_slot_ok c t b Hc Hb). cbn [obind].
  destruct (set_int_ok c t r (i64 (f (int_at t a) (int_at t b))) Hc Hr) as (c' & E & Hc'). by eapply go_on_ok.
Qed.

(** ** Templates: the two passes *)

Lemma seg_bytes_ok c t m seg : vrel c t -> extends (mem c) m ->
  exists b, seg_bytes (mkContext m (Context.slots c)) seg = Ret b /\ default [] b = seg_text t seg.
Proof.
  intros Hc He. unfold seg_bytes, seg_text. destruct (Lit seg) as [l|]; [by exists (Some l)|].
  change (in_slots (mkContext m (Context.slots c)) (SlotIdx seg)) with (in_slots c (SlotIdx seg)). rewrite (in_slots_48 _ _ (vr_ok _ _ Hc)).
  destruct (_ && _) eqn:E; [|by exists None]. apply andb_true_iff in E as [?%Z.leb_le ?%Z.ltb_lt].
  destruct (slot_slice_ok c t (SlotIdx seg) Hc ltac:(lia)) as (v & Es & Ev & Vv). change (slot_slice (mkContext m (Context.slots c)) (SlotIdx seg)) with (slot_slice c (SlotIdx seg)).
  rewrite Es. cbn [obind]. eexists. split; [reflexivity|]. cbn [default]. by rewrite (value_extend c m v He Vv).
Qed.

Lemma total_length_ok c t segs : vrel c t -> forall n, total_length c segs n = Ret (n + Z.of_nat (length (rendered t segs))).
Proof.
  intros Hc. unfold rendered. induction segs as [|seg segs IH]; intros n; cbn [total_length mbind list_bind]; [f_equal; cbn; lia|].
  destruct (seg_bytes_ok c t (mem c) seg Hc (extends_refl _)) as (b & E & Hb). destruct c as [m0 s0]. cbn [mem Context.slots] in E. rewrite E. cbn [obind]. rewrite IH. f_equal.
  rewrite length_app, <- Hb. destruct b; cbn; lia.
Qed.

Lemma fill_segs_ok c t segs : vrel c t -> forall m buf data, filled (mem c) m buf data ->
  Z.of_nat (length data) + Z.of_nat (length (rendered t segs)) <= sl_len buf ->
  exists m', fill_segs (Context.slots c) segs m buf (Z.of_nat (length data)) = Ret (m', Z.of_nat (length (data ++ rendered t segs))) /\
    filled (mem c) m' buf (data ++ rendered t segs).
Proof.
  intros Hc. unfold rendered. induction segs as [|seg segs IH]; intros m buf data Hf Hl; cbn [fill_segs mbind list_bind] in *; [rewrite app_nil_r; by exists m|].
  destruct (seg_bytes_ok c t m seg Hc (pv_ext _ _ _ (fi_private _ _ _ _ Hf))) as (b & -> & Hb). cbn [obind]. rewrite length_app in Hl. rewrite <- Hb in *. clear Hb. destruct b as [d|]; cbn [default from_option id] in *.
  - destruct (append_copy_ok _ _ _ _ d Hf ltac:(lia)) as (m1 & -> & Hf1). cbn [obind fst snd].
    destruct (IH m1 buf (data ++ d) Hf1) as (m2 & -> & Hf2); [rewrite length_app; lia|]. exists m2. by rewrite app_assoc.
  - cbn [app length] in *. apply IH; [done|lia].
Qed.

Lemma render_ok c t segs r : vrel c t -> 0 <= r < 48 ->
  exists c', RenderTemplate segs r c = Ret (c', Next) /\ vrel c' (with_bytes t r (rendered t segs)).
Proof.
  intros Hc Hr. unfold RenderTemplate. rewrite (total_length_ok c t segs Hc). cbn [obind]. rewrite Z.add_0_l.
  pose proof (alloc_filled (mem c) (Z.of_nat (length (rendered t segs))) (proj1 (vr_ok _ _ Hc)) ltac:(lia)) as Hf. destruct (Alloc _ _) as [m0 buf]. destruct Hf as [Hf0 Hl].
  destruct (fill_segs_ok c t segs Hc m0 buf [] Hf0) as (m1 & E & Hf1); [cbn; lia|]. cbn [length app] in *. change (Z.of_nat 0) with 0 in E. rewrite E. cbn [obind fst snd].
  unfold slice_to. rewrite (proj2 (Z.leb_le _ _)), (proj2 (Z.leb_le _ _)) by lia. cbn [andb obind].
  replace (mkSlice _ _ _) with buf by (destruct buf; cbn in *; by f_equal). by apply store_filled.
Qed.

(** ** Sequences of steps *)

Lemma write_ok c t th i data : vrel c t -> 0 <= i < 48 ->
  exists c', go_on (WriteSlot c th i data) = Ret (c', Next) /\ vrel c' (with_bytes t i data).
Proof.
  intros [Hc Hv Hn Hb] Hi. destruct (WriteSlot_spec c th i data Hc) as (c' & E & Hc' & Hv' & Hn' & _ & Hb'). eapply go_on_ok; [exact E|].
  rewrite (in_slots_48 _ _ Hc), (proj2 (Z.leb_le _ _)), (proj2 (Z.ltb_lt _ _)) in Hv' by lia. split; [done|by rewrite Hv', Hv|by rewrite Hn'|by rewrite Hb'].
Qed.

Lemma bool_slot_ok c t i : vrel c t -> 0 <= i < 8 -> go_index (Context.BoolSlots (Context.slots c)) i = Ret (bool_at t i).
Proof.
  intros [[_ Hs] _ _ Hb] Hi. unfold bool_at. destruct (lookup_lt_is_Some_2 (Context.BoolSlots (Context.slots c)) (Z.to_nat i)) as [x Ex]; [rewrite (so_bools _ _ Hs); lia|].
  rewrite <- Hb, Ex. exact (go_index_Z _ _ _ (proj1 Hi) Ex).
Qed.

Lemma stepping_sim x t : (exists c', x = Ret (c', Next) /\ vrel c' t) -> sim vrel (stepping x) (Ret (t, AStep Next)).
Proof. by intros (c' & -> & H). Qed.

Lemma nonzero_sim f c t a b r : vrel c t -> 0 <= a < 16 -> 0 <= b < 16 -> 0 <= r < 16 ->
  sim vrel (stepping (nonzero_step f a b r c))
    (if int_at t b =? 0 then Ret (t, AStep StopHere) else Ret (with_int t r (i64 (f (int_at t a) (int_at t b))), AStep Next)).
Proof.
  intros Hc Ha Hb Hr. unfold nonzero_step. rewrite (int_slot_ok c t b Hc Hb). cbn [obind]. destruct (int_at t b =? 0); [done|]. by apply stepping_sim, int_step_ok.
Qed.

Lemma data_step_sim o c t : data_op_ok o -> vrel c t -> sim vrel (data_step o c) (vtable_op o t).
Proof.
  intros Ho Hc. destruct o; cbn [data_op_ok data_step vtable_op] in *; destruct_and?;
    rewrite <- ?(list_fmap_ext _ _ _ (fun _ x _ => lower_letters x)), <- ?(list_fmap_ext _ _ _ (fun _ x _ => upper_letters x)).
  all: try first [ apply stepping_sim; first
    [ by apply concat_ok | by apply map_ok | by apply trim_step_ok | by apply substring_ok | by apply int_step_ok | by apply test_step_ok | by apply render_ok | by apply write_ok
    | by apply (int_of_bytes (fun v => Z.of_nat (length v)))
    | by apply (int_of_bytes (fun v => match find_sub v needle with Some i => Z.of_nat i | None => -1 end)) ]
    | by apply nonzero_sim ].
  - apply stepping_sim. destruct (int_of_bytes (fun v => if (ParseInt v).2 then (ParseInt v).1 else 0) c t s r) as (c' & E & Hc'); [done..|]. exists c'. split; [|done].
    rewrite <- E. unfold ToIntStep. destruct (slot_slice c s) as [a| |]; [|done..]. cbn [obind]. clear E. by destruct (ParseInt (value c a)).
  - destruct (slot_slice_ok c t i Hc ltac:(done)) as (v & -> & Ev & _). cbn [obind]. by rewrite Ev.
  - by rewrite (int_slot_ok c t i).
  - by rewrite (bool_slot_ok c t i).
Qed.

Definition vtable_new : vtable := (replicate 48 [], replicate 16 0, replicate 8 false).

Lemma vrel_new block : length block = 4096%nat -> vrel (new_context block) vtable_new.
Proof.
  intros Hb. split; [split|done..].
  - constructor; simpl; try done; lia.
  - constructor; simpl; try done. by repeat constructor.
Qed.

(** C6: every sequence of these 17 steps (concat, to_lower, to_upper, trim,
    substring, to_int, byte_length, index_of, add, sub, mul, mod, div, contains,
    starts_with, ends_with, render_template), slot writes and slot reads on a
    request context, with byte slots below 48, integer slots below 16, boolean
    slots below 8 and start + length of a substring below 2^63, answers like
    plain functions on a table of 48 byte strings, 16 integers and 8 booleans:
    concatenation, case mapping, trimming, substrings, parsing, 64-bit wrapping
    arithmetic, tests and rendering never panic, never run past a buffer, and never disturb another
    slot, although substrings and trimmed values share memory with their source
    and results are built in the shared arena.  Division and remainder by zero
    stop the plan and change nothing. *)
Theorem data_steps_refine block ops :
  length block = 4096%nat -> Forall data_op_ok ops ->
  answers data_step ops (new_context block) = answers vtable_op ops vtable_new.
Proof.
  intros Hb Hok. apply (answers_refine _ _ (fun _ => vrel) data_op_ok); [|done|by apply vrel_new]. intros o _ c t. by apply data_step_sim.
Qed.

(** A name is trimmed, cut and parsed, a sum overflows, a template is filled, and
    a division by zero stops. *)
Definition demo_data_ops : list data_op :=
  [VWrite 0 0 (bytes_of "  Rah-42 "); VTrim 0 1; VLower 1 2; VSubstring 2 3 4 (-1); VToInt 3 0; VConcat 2 3 4 (bytes_of "/"); VUpper 1 2; VBytes 4; VInt 0;
   VStarts 1 7 (bytes_of "Rah"); VBool 7; VDiv 0 1 2; VWrite 0 5 (bytes_of "9223372036854775807"); VToInt 5 1; VAdd 0 1 2; VInt 2;
   VRender [mkSeg (Some (bytes_of "<")) 0; mkSeg None 1; mkSeg (Some (bytes_of ">")) 0] 1; VBytes 1].

Lemma data_steps_refine_witness :
  answers data_step demo_data_ops (new_context (replicate 4096 66)) =
  Ret [AStep Next; AStep Next; AStep Next; AStep Next; AStep Next; AStep Next; AStep Next; ABytes (bytes_of "rah-42/42"); AInt 42;
       AStep Next; ABool true; AStep StopHere; AStep Next; AStep Next; AStep Next; AInt (-9223372036854775767);
       AStep Next; ABytes (bytes_of "<Rah-42>")].
Proof.
  rewrite (data_steps_refine (replicate 4096 66) demo_data_ops).
  - vm_compute. reflexivity.
  - vm_compute. reflexivity.
  - unfold demo_data_ops. repeat (constructor; [cbn [data_op_ok]; repeat split; vm_compute; congruence|]). constructor.
Defined.
