(* ===== verification/TemplateSpec.v ===== *)
(** * Templates: theorems

    [parseRenderTemplate] accepts exactly the texts with closed [${name}]
    markers of known variables, and the segments it returns render to the text
    with every marker replaced. *)

From S2P Require Import Prelude Bytes Cond Context SlotAlloc SlotAllocSpec DataSteps DataStepsSpec.

Local Open Scope Z_scope.
Local Open Scope rah_scope.

(** ** The first occurrence *)

Definition without (p s : byte_string) : Prop := find_sub s p = None.

Lemma find_sub_split s p i : find_sub s p = Some i -> s = take i s ++ p ++ drop (i + length p) s.
Proof.
  intros E. apply find_sub_prefix, has_prefix_iff in E as [s' E]. rewrite <- (take_drop i s) at 1. f_equal. rewrite <- drop_drop, E. by rewrite drop_app_length.
Qed.

Lemma find_sub_before s p i : p <> [] -> find_sub s p = Some i -> without p (take i s).
Proof.
  intros Hp. unfold without. revert i. induction s as [|c s IH]; intros i; cbn [find_sub].
  - intros _. rewrite take_nil. by destruct p.
  - destruct (has_prefix (c :: s) p) eqn:E; [intros [= <-]; by destruct p|]. destruct (find_sub s p) as [j|] eqn:Ej; [|done]. intros [= <-]. cbn [take find_sub].
    rewrite (IH j eq_refl). destruct (has_prefix (c :: take j s) p) eqn:E'; [|done]. apply has_prefix_iff in E' as [s' E']. exfalso. apply not_true_iff_false in E. apply E.
    apply has_prefix_iff. exists (s' ++ drop j s). rewrite app_assoc, <- E'. cbn. by rewrite take_drop.
Qed.

Lemma find_sub_found s p i : p <> [] -> find_sub s p = Some i -> exists l rest, s = l ++ p ++ rest /\ without p l.
Proof. intros Hp E. exists (take i s), (drop (i + length p) s). split; [by apply find_sub_split|by apply find_sub_before]. Qed.

Definition open_mark : byte_string := bytes_of "${".
Definition close_mark : byte_string := bytes_of "}".

Lemma find_open l x : without open_mark l -> find_sub (l ++ open_mark ++ x) open_mark = Some (length l).
Proof.
  unfold without. induction l as [|a l IH]; intros H; [apply find_sub_here, has_prefix_iff; by eexists|]. cbn [find_sub] in H. destruct (has_prefix (a :: l) open_mark) eqn:E; [done|].
  destruct (find_sub l open_mark) eqn:El; [done|]. cbn [app find_sub length]. rewrite IH by done.
  replace (has_prefix (a :: l ++ open_mark ++ x) open_mark) with false; [done|]. symmetry. destruct l as [|b l]; cbn in *; [by destruct (_ =? a)|].
  assert (forall s, has_prefix s [] = true) as Hnil by (by intros []). by rewrite Hnil in *.
Qed.

Lemma find_close n x : without close_mark n -> find_sub (n ++ close_mark ++ x) close_mark = Some (length n).
Proof.
  unfold without. induction n as [|a n IH]; intros H; [apply find_sub_here, has_prefix_iff; by eexists|]. cbn [find_sub] in H. destruct (has_prefix (a :: n) close_mark) eqn:E; [done|].
  destruct (find_sub n close_mark) eqn:En; [done|]. cbn [app find_sub length]. rewrite IH by done.
  replace (has_prefix (a :: n ++ close_mark ++ x) close_mark) with false; [done|]. symmetry. cbn in *. assert (forall s, has_prefix s [] = true) as Hnil by (by intros []). by rewrite Hnil in *.
Qed.

(** ** Templates as text and variables *)

Abbreviation marker := (byte_string * byte_string)%type (only parsing).

(** Literal text and a variable name, each; then the rest of the text. *)
Definition print_template (ps : list marker) (tail : byte_string) : byte_string :=
  (ps ≫= fun p => p.1 ++ open_mark ++ p.2 ++ close_mark) ++ tail.

Definition marker_ok (slotMap : gmap byte_string Z) (p : marker) : Prop :=
  without open_mark p.1 /\ without close_mark p.2 /\ is_Some (slotMap !! p.2).

Definition lit_segs (l : byte_string) : list RenderSeg := match l with [] => [] | _ => [mkSeg (Some l) 0] end.

Definition template_segs (slotMap : gmap byte_string Z) (ps : list marker) (tail : byte_string) : list RenderSeg :=
  (ps ≫= fun p => lit_segs p.1 ++ [mkSeg None (default 0 (slotMap !! p.2))]) ++ lit_segs tail.

(** The text with the variables replaced. *)
Definition template_text (slotMap : gmap byte_string Z) (t : vtable) (ps : list marker) (tail : byte_string) : byte_string :=
  (ps ≫= fun p => p.1 ++ seg_text t (mkSeg None (default 0 (slotMap !! p.2)))) ++ tail.

Lemma rendered_lit t l : rendered t (lit_segs l) = l.
Proof. unfold rendered. destruct l; [done|]. cbn. by rewrite app_nil_r. Qed.

Lemma rendered_app t a b : rendered t (a ++ b) = rendered t a ++ rendered t b.
Proof. apply bind_app. Qed.

Lemma rendered_template slotMap t ps tail : rendered t (template_segs slotMap ps tail) = template_text slotMap t ps tail.
Proof.
  unfold template_segs, template_text. rewrite rendered_app, rendered_lit. f_equal. induction ps as [|p ps IH]; [done|]. rewrite !bind_cons, rendered_app, IH.
  f_equal. rewrite rendered_app, rendered_lit. f_equal. unfold rendered. cbn [mbind list_bind]. by rewrite app_nil_r.
Qed.

(** ** Parsing *)

Lemma lit_before (l : byte_string) : (if (0 <? length l)%nat then [mkSeg (Some l) 0] else []) = lit_segs l.
Proof. by destruct l. Qed.

(** One turn of the loop on a text that starts with a closed marker. *)
Lemma parse_marker fuel slotMap l n rest : without open_mark l -> without close_mark n ->
  parse_template (S fuel) slotMap (l ++ open_mark ++ n ++ close_mark ++ rest) =
  match slotMap !! n with
  | None => inr (EUnknownVariable n)
  | Some i =>
    match parse_template fuel slotMap rest with
    | inr e => inr e
    | inl segs => inl (lit_segs l ++ mkSeg None i :: segs)
    end
  end.
Proof.
  intros Hl Hn. pose proof (find_open l (n ++ close_mark ++ rest) Hl) as Ho. pose proof (find_close n rest Hn) as Hc. cbn [parse_template].
  assert (drop (length l + 2) (l ++ open_mark ++ n ++ close_mark ++ rest) = n ++ close_mark ++ rest) as Ed by (by rewrite <- drop_drop, drop_app_length).
  destruct (l ++ open_mark ++ n ++ close_mark ++ rest) as [|x s] eqn:E; [by destruct l|]. rewrite <- E in *.
  fold open_mark close_mark. rewrite Ho, Ed, Hc, !take_app_length, lit_before. replace (drop (length n + 1) _) with rest; [done|].
  by rewrite <- drop_drop, drop_app_length.
Qed.

Lemma parse_tail fuel slotMap s : without open_mark s -> parse_template (S fuel) slotMap s = inl (lit_segs s).
Proof. intros H. destruct s as [|x s]; [done|]. cbn [parse_template]. fold open_mark. by rewrite H. Qed.

Lemma print_cons p ps tail : print_template (p :: ps) tail = p.1 ++ open_mark ++ p.2 ++ close_mark ++ print_template ps tail.
Proof. unfold print_template. rewrite bind_cons, <- !app_assoc. done. Qed.

Lemma parse_print slotMap ps tail : Forall (marker_ok slotMap) ps -> without open_mark tail ->
  forall fuel, (length (print_template ps tail) < fuel)%nat -> parse_template fuel slotMap (print_template ps tail) = inl (template_segs slotMap ps tail).
Proof.
  intros Hps Ht. induction Hps as [|p ps (Hl & Hn & i & Hi) _ IH]; intros fuel Hf.
  - destruct fuel as [|fuel]; [lia|]. by apply parse_tail.
  - destruct fuel as [|fuel]; [lia|]. rewrite print_cons in *. rewrite parse_marker, Hi, IH by (done || (rewrite !length_app in Hf; cbn in Hf; lia)).
    f_equal. unfold template_segs. rewrite bind_cons, <- !app_assoc, Hi. done.
Qed.

Lemma parse_unclosed fuel slotMap l rest : without open_mark l -> without close_mark rest ->
  parse_template (S fuel) slotMap (l ++ open_mark ++ rest) = inr (EUnclosed (length l)).
Proof.
  intros Hl Hr. pose proof (find_open l rest Hl) as Ho. cbn [parse_template].
  assert (drop (length l + 2) (l ++ open_mark ++ rest) = rest) as Ed by (by rewrite <- drop_drop, drop_app_length).
  destruct (l ++ open_mark ++ rest) as [|x s] eqn:E; [by destruct l|]. rewrite <- E in *. fold open_mark close_mark. by rewrite Ho, Ed, Hr.
Qed.

Lemma parse_inv slotMap fuel : forall s segs, (length s < fuel)%nat -> parse_template fuel slotMap s = inl segs ->
  exists ps tail, Forall (marker_ok slotMap) ps /\ without open_mark tail /\ s = print_template ps tail.
Proof.
  induction fuel as [|fuel IH]; intros s segs Hf; [lia|]. destruct (find_sub s open_mark) as [i|] eqn:Ei; [|by exists [], s].
  apply find_sub_found in Ei as (l & rest & -> & Hl); [|done]. destruct (find_sub rest close_mark) as [e|] eqn:Ee; [|by rewrite parse_unclosed].
  apply find_sub_found in Ee as (n & rest' & -> & Hn); [|done]. rewrite parse_marker by done. destruct (slotMap !! n) as [j|] eqn:Ej; [|done].
  destruct (parse_template fuel slotMap rest') as [segs'|] eqn:Ep; [|done]. intros _.
  destruct (IH rest' segs') as (ps & tail & Hps & Ht & ->); [rewrite !length_app in Hf; cbn in Hf; lia|done|].
  exists ((l, n) :: ps), tail. split; [constructor; [by repeat split|done]|]. split; [done|]. by rewrite print_cons.
Qed.

Lemma template_parsed slotMap tmpl segs : parseRenderTemplate tmpl slotMap = inl segs ->
  exists ps tail, Forall (marker_ok slotMap) ps /\ without open_mark tail /\ tmpl = print_template ps tail /\
    segs = template_segs slotMap ps tail /\ forall t, rendered t segs = template_text slotMap t ps tail.
Proof.
  unfold parseRenderTemplate. intros E. destruct (parse_inv _ _ _ _ (Nat.lt_succ_diag_r _) E) as (ps & tail & Hps & Ht & ->). exists ps, tail.
  rewrite parse_print in E by (done || lia). injection E as <-. repeat split; [done..|]. intros t. apply rendered_template.
Qed.

(** C16: [parseRenderTemplate] accepts a template exactly when it is literal
    text and closed [${name}] markers of variables that have slots, and returns
    segments that render, whatever the slots hold, to the text with every marker
    replaced by its variable's value, and every other byte kept. *)
Theorem template_parse_exact slotMap tmpl segs :
  parseRenderTemplate tmpl slotMap = inl segs <->
  exists ps tail, Forall (marker_ok slotMap) ps /\ without open_mark tail /\ tmpl = print_template ps tail /\
    segs = template_segs slotMap ps tail /\ forall t, rendered t segs = template_text slotMap t ps tail.
Proof.
  split; [apply template_parsed|]. intros (ps & tail & Hps & Ht & -> & -> & _). apply parse_print; [done..|lia].
Qed.
