(* ===== verification/DataCompileSpec.v ===== *)
(** * Compiling string and number steps: theorems

    A compiled string step stores in its result variable what its
    configuration says of the values of the variables it names, and nothing
    else changes; results of another type can get a slot that does not exist. *)

From S2P Require Import Prelude Bytes Cond Context ContextSpec Flow SlotAlloc SlotAllocSpec DataSteps DataStepsSpec TemplateSpec.

Local Open Scope Z_scope.
Local Open Scope rah_scope.

(** ** Steps by the names of their variables *)

Definition replaced (val : byte_string -> byte_string) (ps : list (byte_string * byte_string)) (tail : byte_string) : byte_string :=
  (ps ≫= fun p => p.1 ++ val p.2) ++ tail.

Inductive by_name (step : StepConfig) (val : byte_string -> byte_string) : byte_string -> Prop :=
| by_concat : Action step = bytes_of "concat" -> by_name step val (val (KeyIdentifier step) ++ Value step ++ val (Source step))
| by_lower : Action step = bytes_of "to_lower" -> by_name step val (swap_case capital_letters small_letters <$> val (Source step))
| by_upper : Action step = bytes_of "to_upper" -> by_name step val (swap_case small_letters capital_letters <$> val (Source step))
| by_trim : Action step = bytes_of "trim" -> by_name step val (TrimSpace (val (Source step)))
| by_substring : Action step = bytes_of "substring" ->
    by_name step val (substring (val (Source step)) (int_input step "start" 0) (int_input step "length" (-1)))
| by_render ps tail : Action step = bytes_of "render_template" -> template_of step = print_template ps tail ->
    by_name step val (replaced val ps tail).

Definition string_actions : list byte_string :=
  bytes_of <$> ["render_template"%string; "concat"%string; "to_lower"%string; "to_upper"%string; "substring"%string; "trim"%string].

Definition var_of (c : Compiler) (t : vtable) (n : byte_string) : byte_string := byte_at t (default 0 (slotMap c !! n)).

(** What a compiled step did: [n] is the variable, [v] its new value. *)
Record stored_var (c : Compiler) (t t' : vtable) (n v : byte_string) : Prop := mkStored {
  sd_value : var_of c t' n = v;
  sd_others : forall n', is_Some (slotMap c !! n') -> n' <> n -> var_of c t' n' = var_of c t n';
  sd_ints : t'.1.2 = t.1.2;
  sd_bools : t'.2 = t.2
}.

Lemma vrel_bytes c t : vrel c t -> length t.1.1 = 48%nat.
Proof. intros [[_ Hs] Hv _ _]. rewrite <- Hv. unfold values. rewrite length_fmap. apply (so_bytes _ _ Hs). Qed.

Lemma slot_range c n i : slots_inv c -> slotMap c !! n = Some i -> 0 <= i < 48.
Proof. intros Hc Hi. pose proof (si_used _ Hc _ _ Hi). pose proof (si_next _ Hc). lia. Qed.

Lemma store_var c x t n i v : slots_inv c -> vrel x t -> slotMap c !! n = Some i -> stored_var c t (with_bytes t i v) n v.
Proof.
  intros Hc Hx Hi. pose proof (vrel_bytes _ _ Hx) as Hl. pose proof (slot_range _ _ _ Hc Hi). split; [| |done|done]; unfold var_of, byte_at.
  - rewrite Hi. cbn. by rewrite list_lookup_insert_eq by lia.
  - intros n' [j Hj] Hn. rewrite Hj. cbn. pose proof (slot_range _ _ _ Hc Hj). rewrite list_lookup_insert_ne; [done|]. intros E.
    apply Hn. replace j with i in Hj by lia. by apply (si_inj _ Hc n' n i).
Qed.

(** ** Slots of a step *)

Lemma with_slot_inv c name k f c' : slots_inv c -> with_slot c name k = inl (f, c') ->
  exists i c1, slots_inv c1 /\ grows c c1 /\ slotMap c1 !! name = Some i /\ k i c1 = inl (f, c').
Proof.
  intros Hc. unfold with_slot. destruct (getSlot c name) as [[i c1]|] eqn:E; [|done]. intros Hk.
  destruct (getSlot_ok c name i c1 Hc E) as (Hc1 & Hg & Hi). by exists i, c1.
Qed.

(** The variable has its slot at the end. *)
Definition var_slot (c : Compiler) (n : byte_string) (i : Z) : Prop := slotMap c !! n = Some i /\ 0 <= i < 48.

Lemma src_result_inv step mk c f c' : slots_inv c -> src_result step mk c = inl (f, c') ->
  slots_inv c' /\ grows c c' /\ exists s r, f = mk s r /\ var_slot c' (Source step) s /\ var_slot c' (As step) r.
Proof.
  intros Hc. unfold src_result. intros (s & c1 & Hc1 & Hg1 & Hs & E)%with_slot_inv; [|done].
  apply with_slot_inv in E as (r & c2 & Hc2 & Hg2 & Hr & [= <- <-]); [|done]. unfold grows in *. split; [done|]. split; [by etrans|].
  apply (lookup_weaken _ _ _ _ Hs) in Hg2. exists s, r. split; [done|]. split; split; eauto using slot_range.
Qed.

Lemma two_result_inv step mk c f c' : slots_inv c -> two_result step mk c = inl (f, c') ->
  slots_inv c' /\ grows c c' /\ exists a b r, f = mk a b r /\ var_slot c' (KeyIdentifier step) a /\ var_slot c' (Source step) b /\ var_slot c' (As step) r.
Proof.
  intros Hc. unfold two_result. intros (a & c1 & Hc1 & Hg1 & Ha & E)%with_slot_inv; [|done].
  destruct (src_result_inv step (mk a) c1 f c' Hc1 E) as (Hc' & Hg & s & r & -> & Hs & Hr). unfold grows in *. split; [done|]. split; [by etrans|].
  apply (lookup_weaken _ _ _ _ Ha) in Hg. exists a, s, r. split; [done|]. split; [|done]. split; eauto using slot_range.
Qed.

Lemma var_slot_value c t n i : var_slot c n i -> byte_at t i = var_of c t n.
Proof. intros [H _]. unfold var_of. by rewrite H. Qed.

(** ** The text of a template by name *)

Lemma text_by_name c t ps tail : slots_inv c -> Forall (marker_ok (slotMap c)) ps -> template_text (slotMap c) t ps tail = replaced (var_of c t) ps tail.
Proof.
  intros Hc Hps. unfold template_text, replaced. f_equal. induction Hps as [|p ps (_ & _ & i & Hi) _ IH]; [done|]. rewrite !bind_cons, IH. do 2 f_equal.
  unfold seg_text, var_of. rewrite Hi. cbn [Lit SlotIdx default from_option id]. pose proof (slot_range _ _ _ Hc Hi).
  by rewrite (proj2 (Z.leb_le _ _)), (proj2 (Z.ltb_lt _ _)) by lia.
Qed.

(** A step compiled from [c] to [c']. *)
Definition runs_as (c c' : Compiler) (step : StepConfig) (f : DataStep) (x : Context.Context) (t : vtable) : Prop :=
  exists x' t' v, f x = Ret (x', Next) /\ vrel x' t' /\ by_name step (var_of c t) v /\ stored_var c' t t' (As step) v.

Lemma var_of_grows c c' t n : grows c c' -> is_Some (slotMap c !! n) -> var_of c' t n = var_of c t n.
Proof. intros Hg [i Hi]. unfold var_of. unfold grows in Hg. by rewrite Hi, (lookup_weaken _ _ _ _ Hi Hg). Qed.

Lemma runs_intro c c' step (f : DataStep) x t r v : slots_inv c' -> vrel x t -> var_slot c' (As step) r -> by_name step (var_of c t) v ->
  (exists x', f x = Ret (x', Next) /\ vrel x' (with_bytes t r v)) -> runs_as c c' step f x t.
Proof.
  intros Hc Hx [Hr _] Hv (x' & E & Hx'). exists x', (with_bytes t r v), v. split; [done|]. split; [done|]. split; [done|]. by apply (store_var c' x).
Qed.

Lemma marker_grows c c' p : grows c c' -> marker_ok (slotMap c) p -> marker_ok (slotMap c') p.
Proof. intros Hg (H1 & H2 & i & Hi). split; [done|]. split; [done|]. exists i. by eapply lookup_weaken. Qed.

(** The step names only variables that earlier steps bound. *)
Definition names_bound (c : Compiler) (step : StepConfig) : Prop :=
  if is_action step "render_template" then
    exists ps tail, template_of step = print_template ps tail /\ Forall (marker_ok (slotMap c)) ps /\ without open_mark tail
  else is_Some (slotMap c !! Source step) /\ (is_action step "concat" = true -> is_Some (slotMap c !! KeyIdentifier step)).

Lemma replaced_grows c c' t ps tail : grows c c' -> Forall (marker_ok (slotMap c)) ps -> replaced (var_of c' t) ps tail = replaced (var_of c t) ps tail.
Proof.
  intros Hg Hps. unfold replaced. f_equal. induction Hps as [|p ps (_ & _ & Hs) _ IH]; [done|]. rewrite !bind_cons, IH. by rewrite (var_of_grows c c' t p.2 Hg Hs).
Qed.

Lemma render_compiled step c f c' x t : Action step = bytes_of "render_template" -> names_bound c step -> slots_inv c ->
  compile_render step c = inl (f, c') -> vrel x t -> slots_inv c' /\ grows c c' /\ runs_as c c' step f x t.
Proof.
  intros Ha Hnb Hc. unfold compile_render. intros (r & c1 & Hc1 & Hg & Hr & E)%with_slot_inv Hx; [|done].
  unfold names_bound, is_action in Hnb. rewrite Ha in Hnb. vm_compute beq in Hnb. cbv iota in Hnb. destruct Hnb as (ps & tail & Et & Hps & Ht).
  assert (Forall (marker_ok (slotMap c1)) ps) as Hps1 by (eapply Forall_impl; [exact Hps|]; intros p; by apply marker_grows).
  unfold parseRenderTemplate in E. rewrite Et, parse_print in E by (done || lia). injection E as <- <-. split; [done|]. split; [done|].
  apply (runs_intro c c1 step _ x t r (replaced (var_of c t) ps tail)); try done.
  - split; eauto using slot_range.
  - by apply by_render.
  - rewrite <- (replaced_grows c c1 t) by done. rewrite <- text_by_name, <- rendered_template by done. apply render_ok; eauto using slot_range.
Qed.

(** ** String steps *)

(** One of the six string actions; [start+length] of a substring does not
    overflow. *)
Definition string_step (step : StepConfig) : Prop :=
  Action step ∈ string_actions /\ int_input step "start" 0 + int_input step "length" (-1) < 2 ^ 63.

Lemma src_runs step mk c f c' x t g : is_Some (slotMap c !! Source step) -> slots_inv c -> src_result step mk c = inl (f, c') -> vrel x t ->
  (forall s r, 0 <= s < 48 -> 0 <= r < 48 -> exists x', mk s r x = Ret (x', Next) /\ vrel x' (with_bytes t r (g (byte_at t s)))) ->
  by_name step (var_of c t) (g (var_of c t (Source step))) -> slots_inv c' /\ grows c c' /\ runs_as c c' step f x t.
Proof.
  intros Hb Hc E Hx Hmk Hv. destruct (src_result_inv _ _ _ _ _ Hc E) as (Hc' & Hg & s & r & -> & Hs & Hr). split; [done|]. split; [done|].
  apply (runs_intro c c' step _ x t r (g (var_of c t (Source step)))); [done..|].
  rewrite <- (var_of_grows c c' t _ Hg Hb), <- (var_slot_value c' t _ s Hs). apply Hmk; [apply Hs|apply Hr].
Qed.

Lemma fmap_lower (v : byte_string) : lower <$> v = swap_case capital_letters small_letters <$> v.
Proof. apply list_fmap_ext. intros _ x _. apply lower_letters. Qed.

Lemma fmap_upper (v : byte_string) : upper <$> v = swap_case small_letters capital_letters <$> v.
Proof. apply list_fmap_ext. intros _ x _. apply upper_letters. Qed.


(** A flow that trims and cuts a greeting and puts it in a template. *)
Definition demo_step (action as_ source value : string) (input : string_map) : StepConfig :=
  mkStep (bytes_of action) (bytes_of as_) [] [] (bytes_of source) (bytes_of "name") [] [] input [] (bytes_of value) [] [] [] [] [] [].

Definition demo_compiler : Compiler := mkCompiler {[bytes_of "name" := 3; bytes_of "raw" := 1]} [] 4.

Definition demo_table : vtable := (<[3%nat := bytes_of "Ann"]> (replicate 48 []), replicate 16 0, replicate 8 false).

Definition demo_context : Context.Context :=
  match WriteSlot (new_context (replicate 4096 0)) 0 3 (bytes_of "Ann") with Ret c => c | _ => new_context [] end.

Lemma demo_inv : slots_inv demo_compiler.
Proof.
  assert (forall n i, slotMap demo_compiler !! n = Some i -> n = bytes_of "name" /\ i = 3 \/ n = bytes_of "raw" /\ i = 1) as H.
  { intros n i. cbn [slotMap demo_compiler]. rewrite lookup_insert_Some. intros [[<- <-]|[_ [<- <-]%lookup_singleton_Some]]; auto. }
  constructor; cbn [nextSlot freeSlots demo_compiler]; [lia| | |by intros ? ?%not_elem_of_nil|constructor].
  - intros n i [[_ ->]|[_ ->]]%H; lia.
  - intros n n' i [[-> ->]|[-> ->]]%H [[-> Hi]|[-> Hi]]%H; done.
Qed.

Lemma demo_vrel : vrel demo_context demo_table.
Proof.
  assert (vrel (new_context (replicate 4096 0)) vtable_new) as H0 by (apply vrel_new; by rewrite length_replicate).
  destruct (write_ok _ _ 0 3 (bytes_of "Ann") H0 ltac:(lia)) as (c' & E & Hc'). unfold demo_context. unfold go_on in E.
  destruct (WriteSlot _ _ _ _) as [c1| |]; [|done..]. cbn [obind] in E. injection E as ->. exact Hc'.
Qed.

Definition concat_step : StepConfig := demo_step "concat" "out" "raw" "-" [].

Definition concat_compiler : Compiler := mkCompiler (<[bytes_of "out" := 4]> (slotMap demo_compiler)) [] 5.


(** ** Results without a slot

    Integer and boolean results are numbered like byte slots, of which there
    are 48, but a context has 16 integer and 8 boolean slots. *)

Lemma late_test_panics (g : byte_string -> bool) c t s r : vrel c t -> 0 <= s < 48 -> 8 <= r -> test_step g s r c = Panic.
Proof.
  intros Hc Hs Hr. unfold test_step. destruct (slot_slice_ok c t s Hc Hs) as (v & -> & _ & _). cbn [obind]. unfold set_bool_slot, go_index.
  rewrite (proj2 (Z.ltb_ge r 0)) by lia. rewrite lookup_ge_None_2; [done|]. rewrite (so_bools _ _ (proj2 (vr_ok _ _ Hc))). lia.
Qed.

Lemma late_sum_panics g c t a b r : vrel c t -> 0 <= a < 16 -> 0 <= b < 16 -> 16 <= r -> int_step g a b r c = Panic.
Proof.
  intros Hc Ha Hb Hr. unfold int_step. rewrite (int_slot_ok c t a Hc Ha), (int_slot_ok c t b Hc Hb). cbn [obind]. unfold set_int_slot, go_index.
  rewrite (proj2 (Z.ltb_ge r 0)) by lia. rewrite lookup_ge_None_2; [done|]. rewrite (so_ints _ _ (proj2 (vr_ok _ _ Hc))). lia.
Qed.

(** A test that names the ninth variable of a flow compiles, and panics. *)
Lemma ninth_variable_panics :
  match compileDataStep (demo_step "starts_with" "ok" "raw" "A" []) (mkCompiler {[bytes_of "raw" := 1]} [] 8) with
  | inl (f, _) => f demo_context = Panic
  | inr _ => False
  end.
Proof. vm_compute. reflexivity. Qed.

(** The end of a substring wraps around. *)
Lemma substring_overflow_panics :
  match compileDataStep (demo_step "substring" "out" "name" "" [(bytes_of "start", bytes_of "1"); (bytes_of "length", bytes_of "9223372036854775807")]) demo_compiler with
  | inl (f, _) => f demo_context = Panic
  | inr _ => False
  end.
Proof. vm_compute. reflexivity. Qed.

(** The result variable is given its slot before the template is parsed, so a
    template that mentions it is accepted although no earlier step bound it. *)
Lemma template_names_its_result :
  match compileDataStep (demo_step "render_template" "out" "" "${out}" []) resetSlots with inl _ => True | inr _ => False end.
Proof. vm_compute. exact I. Qed.
